(* ===== verification/_CoqProject ===== *)
-Q . S2P
Prelude.v
Utf8.v
Numeric.v
Types.v
Float.v
BTree.v
Index.v
Storage.v
Page.v
Heap.v
Buffer.v
Pwal.v
Database.v
Disk.v
Lock.v
Txn.v
Protocol.v
Wire.v
LockStmt.v
Copy.v
Crypto.v
Auth.v
Hba.v
Server.v
Lexer.v
Pattern.v
FloatOps.v
Datetime.v
Json.v
Containers.v
Ast.v
Eval.v
Planner.v
Bind.v
Serialize.v
Parser.v
Printed.v
ExprRead.v
Roundtrip.v
Replay.v
ParseTotal.v
Rowset.v
Aggregate.v
Window.v
Source.v
Join.v
Query.v
QueryLoops.v
JoinSpec.v
SelectSpec.v
QueryExamples.v
