(* ===== verification/Prelude.v ===== *)
(** * Verification of postgres-rs

    postgres-rs is a PostgreSQL-compatible server: a wire protocol front end
    (crates/protocol, crates/server), authentication (crates/auth), a SQL front
    end (crates/sql), an in-memory engine with indexes, transactions and locks
    (crates/engine), an on-disk format (crates/engine/src/disk) and the value
    types (crates/types).

    ** How the parts fit together

    A connection (server.rs [handle_connection]) negotiates and authenticates
    (auth.rs, hba.rs, crypto.rs), then reads messages (protocol/lib.rs).  A query is
    tokenized (lexer.rs) and parsed, and each statement goes through
    [run_statement]: inside a transaction it runs on a private copy of the catalog
    and is buffered, at COMMIT the copy is published and the buffer is appended to
    the logical log (wal.rs); LOCK TABLE and FOR UPDATE go through the lock table
    (lock.rs).  Rows live in [Table]s (storage.rs) with secondary indexes (index.rs).
    CHECKPOINT writes every table through the buffer manager (disk/buffer.rs) into
    heap files (disk/heap.rs) of slotted pages (disk/page.rs) and a catalog file
    (disk/mod.rs), with a physical log beside it (disk/pwal.rs).  At startup the
    logical log is replayed and the disk store recovered.

    ** Files

    - Prelude: effects ([run] for code that may panic, [result] for Rust's
      [Result], [res] for both), integers at their width, byte lists, tactics, hints.
    - Utf8, Numeric, Types, Float, BTree: Rust strings; the decimals of
      types/src/numeric.rs; the types and values of types/src/types.rs; f64; the
      ordered map of the standard library behind the class [KeyOrder].
    - Index, Storage, Database: engine/src/index.rs and storage.rs.
    - Page, Heap, Buffer, Pwal, Disk: engine/src/disk.
    - Lock: engine/src/lock.rs and the waiting loop of server.rs as a step relation
      over interleaved backends.
    - Txn, LockStmt: [run_statement] of server.rs with transactions, savepoints,
      two-phase commit, LISTEN/NOTIFY, autocommit and wal.rs; LOCK TABLE and
      SELECT ... FOR UPDATE.
    - Protocol, Wire, Copy: protocol/src/lib.rs; result messages of server.rs and
      parameter decoding of bind.rs; COPY.
    - Crypto, Auth, Hba: crates/auth and the authentication of server.rs.
    - Server: the connection loop of server.rs over the class [StatementRunner],
      which Txn implements, and the startup of the server.
    - Lexer: sql/src/lexer.rs and the quoting functions of sql/src/serialize.rs.
    - Ast, Bind: the expressions, queries and DML statements of sql/src/ast.rs;
      parameter substitution of server/src/bind.rs.
    - Pattern, FloatOps, Datetime, Json, Containers, Eval: the expression evaluator
      of executor.rs with LIKE and regular expressions, double arithmetic, dates and
      intervals, JSON, arrays, ranges, networks and text search.
    - Planner: index selection of executor.rs over Storage and Eval.
    - Serialize, Parser: the text of expressions, queries and DML of
      sql/src/serialize.rs and the recursive descent of sql/src/parser.rs.
    - Printed, ExprRead, Roundtrip: the printable trees, their tokens, and that the
      parser reads them back.  Replay: the logical log through all of them.
      ParseTotal: the recursive descent ends on every text.
    - Rowset, Aggregate, Window, Source, Join, Query: SELECT of executor.rs over all
      of these: rows and their order, grouping, window functions, the relations of
      FROM, joins and their order, subqueries, common table expressions, set
      operations.  JoinSpec, SelectSpec, QueryLoops: its theorems; QueryExamples:
      queries run from their text.

    ** What the theorems show

    - Storage: a table is a list of rows under insert, update, delete and truncate,
      whatever is stored out of line, and every index scan returns what a scan of
      the rows would; the index stores refine a map from row ids to keys.
    - Disk: a checkpoint followed by recovery gives back the rows of the tables with
      the columns' names, types and NOT NULL flags, and nothing else of them; pages, heap
      files, buffer pool and physical log round-trip, stay coherent and detect
      corrupted or torn bytes.
    - Transactions: COMMIT makes the statements take effect at once and logs
      them, ROLLBACK discards them, the first committer wins under REPEATABLE READ
      and SERIALIZABLE, savepoints restore; and what does not hold: COMMIT
      overwrites concurrent writes.  The executor is a parameter that may fail or
      panic.
    - Locks: granted modes never conflict, a cycle of waiters cannot form, the
      cycle search terminates and is exact; LOCK TABLE and SKIP LOCKED.
    - Connections: every answer follows the protocol's grammar, a failed
      extended query skips to Sync; before authentication a connection changes at
      most the cancel flag that a CancelRequest names; a client that is accepted has
      proved what the first matching rule asks for; however a connection ends, its
      locks, registrations and handle are gone; replay executes what the log holds.
    - Formats: protocol messages, results, COPY, decimals, the catalog and tokens
      read back; readers are total and bounded.
    - Decimal arithmetic is exact and its comparison is the order of the values.
    - Expressions: values are stored as the announced static type says and fit its
      width, integers and decimals stay in range, IN, BETWEEN, ANY and CASE agree
      with the comparisons they stand for in the directions that hold; LIKE and the regular expressions decide their
      declarative matching relations; dates, JSON and array literals round-trip;
      binding a parameter is substituting its value.
    - The log: the text of every printable statement tokenizes and parses back to
      it, so a server that starts on the log of such statements has executed exactly
      these; and what is not printable: upper-case qualifiers, negated negative
      numbers, integral doubles, names that are literals, ONLY.
    - The parser returns statements or an error on every text, except that CUBE with
      59 or more columns makes it panic.
    - Planning: where the constants have the kind of the index, the rows an index
      yields include every row the WHERE clause accepts.
    - Queries: a query over a table returns the accepted rows, ordered and cut, for
      every access path and number of workers; an indexed join is the relational
      join; GROUP BY partitions, the aggregates, row_number and the set operations
      are what they say; a recursive CTE reaches its least fixpoint and stops.  The
      depth of nested queries is an argument, and running out of it is a panic, as
      of the stack; the theorems hold from depth one.

    ** Conventions, bounds and fuel

    Integers are [Z] with their width written out where it matters.  The code is
    modelled as the release build runs it (README.md, Dockerfile, [profile.release]
    of Cargo.toml): unchecked +, - and * and negation wrap around, the smallest
    integer divided by -1 is a [Panic], and so are out-of-range slices, [unwrap] of
    [None] and allocations beyond isize::MAX bytes.  That build aborts on a panic;
    the branch of the parallel filter for a worker that panicked is modelled as
    written, and no theorem relies on it.  Memory and stack are
    unbounded, and writes to a socket succeed.  Bytes are [Z] in 0..255, a Rust
    [String] is the list of its UTF-8 bytes ([str]).  A double is its 64-bit
    pattern.  Recursion that is not structural takes fuel: the page reader
    [MAX_SLOTS] (a slot takes 8 of 8192 bytes), the cycle search the number of
    nodes, the lexer the length of the input, the parser one more than the number
    of tokens, the blocking lock acquisition the
    number of turns (None means that it still waits).  The theorems state that the
    fuel is enough where the code terminates.

    Code of the program that is not modelled appears as a parameter of the
    definitions that call it: the executor, the DDL part of the SQL
    parser and serializer (in Txn and Server, which are generic in the statements,
    the whole of them).  So do the environment's inputs: random
    nonces, the clock, the turns of other backends, and whether a CancelRequest from
    another connection arrives before a statement.

    ** Not modelled

    DML and DDL of executor.rs, its catalog views, sequence and session functions
    and row estimates (parameters of Query), its
    scalar functions (a parameter of Eval), the native functions (native.rs),
    PL/pgSQL (plpgsql.rs) and the grammar and text of DDL, utility statements and
    MERGE (parser.rs, serialize.rs; a parameter of Parser and Serialize) are not
    modelled.  Of storage.rs the column DDL, the statistics
    and the catalog entries of roles, functions, triggers, rules, types, extensions
    and tablespaces are left out.  Sockets, threads and time are inputs. *)

From stdpp Require Export base list numbers option relations strings.
From Stdlib Require Export ZArith Lia.
From Stdlib Require Import Ascii.

#[global] Open Scope Z_scope.

(** * Effects of Rust code *)

(** A Rust computation that may panic (index out of bounds, [unwrap] of [None],
    slice length mismatch, capacity overflow).  A Rust [Option<T>] result stays an
    [option] inside. *)
Inductive run (A : Type) : Type :=
| Val (a : A)
| Panic.
Arguments Val {A} a.
Arguments Panic {A}.

#[export] Instance run_ret : MRet run := @Val.
#[export] Instance run_bind : MBind run :=
  fun A B f m => match m with Val a => f a | Panic => Panic end.
#[export] Instance run_fmap : FMap run :=
  fun A B f m => match m with Val a => Val (f a) | Panic => Panic end.

(** Rust's [Result<A, E>], the error type first so that [result E] is a monad. *)
Inductive result (E A : Type) : Type :=
| Ok (a : A)
| Err (e : E).
Arguments Ok {E A} a.
Arguments Err {E A} e.

#[export] Instance result_ret E : MRet (result E) := @Ok E.
#[export] Instance result_bind E : MBind (result E) :=
  fun A B f m => match m with Ok a => f a | Err e => Err e end.
#[export] Instance result_fmap E : FMap (result E) :=
  fun A B f m => match m with Ok a => Ok (f a) | Err e => Err e end.

(** A fallible Rust function that may also panic. *)
Definition res (E A : Type) : Type := run (result E A).

#[export] Instance res_ret E : MRet (res E) := fun A a => Val (Ok a).
#[export] Instance res_bind E : MBind (res E) :=
  fun A B f m => match m with
                 | Val (Ok a) => f a
                 | Val (Err e) => Val (Err e)
                 | Panic => Panic
                 end.

Definition lift {E A} (m : run A) : res E A :=
  match m with Val a => Val (Ok a) | Panic => Panic end.
Definition fail {E A} (e : E) : res E A := Val (Err e).

(** [Option::ok_or] *)
Definition ok_or {E A} (o : option A) (e : E) : result E A :=
  match o with Some a => Ok a | None => Err e end.

(** An index expression [l[i]]: panics out of range. *)
Definition expect {A} (o : option A) : run A :=
  match o with Some a => Val a | None => Panic end.

(** * Slices indexed by machine integers *)

Definition zlen {A} (l : list A) : Z := Z.of_nat (length l).
Arguments zlen : simpl never.

(** [l.get(i)] *)
Definition zget {A} (l : list A) (i : Z) : option A :=
  if i <? 0 then None else l !! Z.to_nat i.

Definition ztake {A} (n : Z) (l : list A) : list A := take (Z.to_nat n) l.
Definition zdrop {A} (n : Z) (l : list A) : list A := drop (Z.to_nat n) l.

(** [&l[a..b]] where the bounds are known to be in range. *)
Definition zslice {A} (a b : Z) (l : list A) : list A := ztake (b - a) (zdrop a l).

(** [l.get(a..b)] *)
Definition get_range {A} (l : list A) (a b : Z) : option (list A) :=
  if (0 <=? a) && (a <=? b) && (b <=? zlen l) then Some (zslice a b l) else None.

(** [l[a..b].copy_from_slice(data)]: panics when the range is out of bounds or
    the lengths differ. *)
Definition copy_from_slice {A} (l : list A) (a b : Z) (data : list A) : run (list A) :=
  if (0 <=? a) && (a <=? b) && (b <=? zlen l) && (zlen data =? b - a)
  then Val (ztake a l ++ data ++ zdrop b l) else Panic.

Definition zreplicate {A} (n : Z) (x : A) : list A := replicate (Z.to_nat n) x.

(** * Machine integers *)

Definition wrap (bits v : Z) : Z := v mod 2 ^ bits.
(** The signed reading of a [bits]-wide word. *)
Definition to_signed (bits v : Z) : Z :=
  (v + 2 ^ (bits - 1)) mod 2 ^ bits - 2 ^ (bits - 1).

Definition is_byte (b : Z) : Prop := 0 <= b < 256.
Definition in_u (bits v : Z) : Prop := 0 <= v < 2 ^ bits.
Definition in_i (bits v : Z) : Prop := - 2 ^ (bits - 1) <= v < 2 ^ (bits - 1).

(** * Positional notation

    Value of a little-endian digit list in base [b]; it serves the byte
    encodings (base 256) and the decimal magnitudes (base 10). *)
Fixpoint dval (b : Z) (l : list Z) : Z :=
  match l with
  | [] => 0
  | d :: l => d + b * dval b l
  end.

(** [n]-byte little-endian encoding, [uN::to_le_bytes] / [iN::to_le_bytes]. *)
Fixpoint le_bytes (n : nat) (v : Z) : list Z :=
  match n with
  | O => []
  | S n => v mod 256 :: le_bytes n (v / 256)
  end.

(** [uN::from_le_bytes] *)
Definition le_val (l : list Z) : Z := dval 256 l.

(** [iN::to_be_bytes] / [uN::from_be_bytes] *)
Definition be_bytes (n : nat) (v : Z) : list Z := reverse (le_bytes n v).
Definition be_val (l : list Z) : Z := dval 256 (reverse l).

(** * Strings

    A Rust [String]/[&str] is its UTF-8 byte sequence. *)
Abbreviation str := (list Z) (only parsing).

Definition lit (s : string) : str :=
  map (fun a => Z.of_N (N_of_ascii a)) (String.list_ascii_of_string s).

(** [u8::is_ascii_digit] and friends. *)
Definition is_ascii_digit (c : Z) : bool := (48 <=? c) && (c <=? 57).
Definition is_ascii_upper (c : Z) : bool := (65 <=? c) && (c <=? 90).
Definition is_ascii_lower (c : Z) : bool := (97 <=? c) && (c <=? 122).
Definition is_ascii_alphabetic (c : Z) : bool := is_ascii_upper c || is_ascii_lower c.
Definition is_ascii_alphanumeric (c : Z) : bool := is_ascii_alphabetic c || is_ascii_digit c.
(** [u8::is_ascii_whitespace]: space, \t, \n, \x0c, \r (no vertical tab). *)
Definition is_ascii_whitespace (c : Z) : bool :=
  (c =? 32) || (c =? 9) || (c =? 10) || (c =? 12) || (c =? 13).

Definition to_ascii_upper (c : Z) : Z := if is_ascii_lower c then c - 32 else c.
Definition to_ascii_lower (c : Z) : Z := if is_ascii_upper c then c + 32 else c.

Definition str_eqb (a b : str) : bool := bool_decide (a = b).
Lemma str_eqb_true (a b : str) : str_eqb a b = true <-> a = b.
Proof. apply bool_decide_eq_true. Qed.
Lemma str_eqb_false (a b : str) : str_eqb a b = false <-> a <> b.
Proof. apply bool_decide_eq_false. Qed.

(** * Automation *)

Create HintDb pgrs.
Create Rewrite HintDb zlen.

(** Destructs the boolean tests of the goal and of the hypotheses into
    arithmetic facts. *)
Ltac zb :=
  repeat match goal with
  | H : (_ && _)%bool = true |- _ => apply andb_prop in H as [? ?]
  | H : (_ && _)%bool = false |- _ => apply andb_false_iff in H
  | H : (_ || _)%bool = true |- _ => apply orb_prop in H
  | H : (_ || _)%bool = false |- _ => apply orb_false_elim in H as [? ?]
  | H : negb _ = true |- _ => apply negb_true_iff in H
  | H : negb _ = false |- _ => apply negb_false_iff in H
  | H : (_ <? _) = true |- _ => apply Z.ltb_lt in H
  | H : (_ <? _) = false |- _ => apply Z.ltb_ge in H
  | H : (_ <=? _) = true |- _ => apply Z.leb_le in H
  | H : (_ <=? _) = false |- _ => apply Z.leb_gt in H
  | H : (_ =? _) = true |- _ => apply Z.eqb_eq in H
  | H : (_ =? _) = false |- _ => apply Z.eqb_neq in H
  end.

(** Case analysis on the next boolean scrutinee of the goal. *)
Ltac zcase :=
  match goal with
  | |- context [if ?b then _ else _] => destruct b eqn:?; zb
  end.

(** Replaces a boolean arithmetic test by the value [lia] gives it. *)
Ltac ztrue b := replace b with true by (symmetry; rewrite ?andb_true_iff, ?Z.leb_le, ?Z.ltb_lt, ?Z.eqb_eq; lia).
Ltac zfalse b := replace b with false by (symmetry; rewrite ?Z.leb_gt, ?Z.ltb_ge, ?Z.eqb_neq; lia).

(** * Lemmas on slices *)

Section slices.
Context {A : Type}.
Implicit Types l : list A.

Lemma zlen_nonneg l : 0 <= zlen l.
Proof. unfold zlen; lia. Qed.

Lemma zlen_nil : zlen (@nil A) = 0.
Proof. done. Qed.

Lemma zlen_cons x l : zlen (x :: l) = 1 + zlen l.
Proof. unfold zlen; simpl; lia. Qed.

Lemma zlen_app l1 l2 : zlen (l1 ++ l2) = zlen l1 + zlen l2.
Proof. unfold zlen; rewrite length_app; lia. Qed.

Lemma zlen_reverse l : zlen (reverse l) = zlen l.
Proof. unfold zlen; by rewrite length_reverse. Qed.

Lemma zlen_replicate n (x : A) : 0 <= n -> zlen (zreplicate n x) = n.
Proof. intros. unfold zlen, zreplicate. rewrite length_replicate. lia. Qed.

Lemma zlen_ztake n l : 0 <= n <= zlen l -> zlen (ztake n l) = n.
Proof. unfold zlen, ztake; intros; rewrite length_take; lia. Qed.

Lemma zlen_zdrop n l : 0 <= n <= zlen l -> zlen (zdrop n l) = zlen l - n.
Proof. unfold zlen, zdrop; intros; rewrite length_drop; lia. Qed.

Lemma zlen_zslice a b l : 0 <= a <= b -> b <= zlen l -> zlen (zslice a b l) = b - a.
Proof.
  intros. unfold zslice. rewrite zlen_ztake; [done|].
  rewrite zlen_zdrop; lia.
Qed.

Lemma ztake_zdrop n l : ztake n l ++ zdrop n l = l.
Proof. apply take_drop. Qed.

Lemma ztake_app_exact l1 l2 n : n = zlen l1 -> ztake n (l1 ++ l2) = l1.
Proof. intros ->. unfold ztake, zlen. by rewrite Nat2Z.id, take_app_length. Qed.

Lemma zdrop_app_exact l1 l2 n : n = zlen l1 -> zdrop n (l1 ++ l2) = l2.
Proof. intros ->. unfold zdrop, zlen. by rewrite Nat2Z.id, drop_app_length. Qed.

Lemma zslice_app_mid l1 l2 l3 a b :
  a = zlen l1 -> b = a + zlen l2 -> zslice a b (l1 ++ l2 ++ l3) = l2.
Proof.
  intros -> ->. unfold zslice. rewrite zdrop_app_exact by done.
  apply ztake_app_exact. lia.
Qed.

Lemma zslice_app_prefix l1 l2 b : b = zlen l1 -> zslice 0 b (l1 ++ l2) = l1.
Proof. intros ->. apply (zslice_app_mid [] l1 l2); [done|lia]. Qed.

Lemma ztake_all l n : n = zlen l -> ztake n l = l.
Proof. intros ->. rewrite <- (app_nil_r l) at 2. by apply ztake_app_exact. Qed.

Lemma zget_Some_lt l i x : zget l i = Some x -> 0 <= i < zlen l.
Proof.
  unfold zget, zlen. destruct (i <? 0) eqn:?; [done|]. zb.
  intros ?%lookup_lt_Some. lia.
Qed.

Lemma zget_is_Some l i : 0 <= i < zlen l -> is_Some (zget l i).
Proof.
  unfold zget, zlen. intros. zfalse (i <? 0). apply lookup_lt_is_Some. lia.
Qed.

Lemma zget_nat l (i : nat) : zget l (Z.of_nat i) = l !! i.
Proof. unfold zget. zfalse (Z.of_nat i <? 0). by rewrite Nat2Z.id. Qed.

Lemma zget_app_l l1 l2 i : i < zlen l1 -> zget (l1 ++ l2) i = zget l1 i.
Proof.
  unfold zget, zlen. intros. zcase; [done|]. apply lookup_app_l. lia.
Qed.

Lemma zget_app_r l1 l2 i : zlen l1 <= i -> zget (l1 ++ l2) i = zget l2 (i - zlen l1).
Proof.
  unfold zget, zlen. intros. zcase; [lia|]. zfalse (i - Z.of_nat (length l1) <? 0).
  rewrite lookup_app_r by lia. f_equal. lia.
Qed.

Lemma zget_ge l i : zlen l <= i -> zget l i = None.
Proof. unfold zget, zlen. intros. zcase; [lia|]. apply lookup_ge_None. lia. Qed.

Lemma zget_neg l i : i < 0 -> zget l i = None.
Proof. intros. unfold zget. by ztrue (i <? 0). Qed.

Lemma zget_nil i : zget (@nil A) i = None.
Proof. unfold zget. by destruct (i <? 0). Qed.

Lemma zget_cons_S x l i : 0 <= i -> zget (x :: l) (1 + i) = zget l i.
Proof.
  intros. change (x :: l) with ([x] ++ l).
  rewrite zget_app_r; rewrite zlen_cons, zlen_nil; [f_equal|]; lia.
Qed.

Lemma zget_cons_inv x l i y :
  zget (x :: l) i = Some y ->
  (i = 0 /\ y = x) \/ (0 < i /\ zget l (i - 1) = Some y).
Proof.
  intros H. pose proof (zget_Some_lt _ _ _ H). destruct (decide (i = 0)) as [->|].
  - left. by inversion H.
  - right. split; [lia|]. rewrite <- H. replace i with (1 + (i - 1)) at 2 by lia.
    rewrite zget_cons_S by lia. done.
Qed.

(** Two lists of the same length with the same elements are equal. *)
Lemma zget_ext l1 l2 :
  zlen l1 = zlen l2 -> (forall i, 0 <= i < zlen l1 -> zget l1 i = zget l2 i) -> l1 = l2.
Proof.
  intros Hlen H. apply list_eq. intros i.
  destruct (decide (Z.of_nat i < zlen l1)).
  - rewrite <- !zget_nat. apply H. lia.
  - unfold zlen in *. rewrite !lookup_ge_None_2; [done|lia..].
Qed.

Lemma zget_ztake l n i : 0 <= i < n -> zget (ztake n l) i = zget l i.
Proof.
  intros. unfold zget, ztake. zcase; [done|]. apply lookup_take_lt. lia.
Qed.

Lemma zget_zdrop l n i : 0 <= n -> 0 <= i -> zget (zdrop n l) i = zget l (n + i).
Proof.
  intros. unfold zget, zdrop. zfalse (i <? 0). zfalse (n + i <? 0).
  rewrite lookup_drop. f_equal. lia.
Qed.

Lemma zget_zslice l a b i :
  0 <= a -> 0 <= i < b - a -> zget (zslice a b l) i = zget l (a + i).
Proof. intros. unfold zslice. rewrite zget_ztake, zget_zdrop; done || lia. Qed.

Lemma zget_replicate n (x : A) i : 0 <= i < n -> zget (zreplicate n x) i = Some x.
Proof.
  intros. unfold zget, zreplicate. zfalse (i <? 0). apply lookup_replicate_2. lia.
Qed.

Lemma zget_Some_nat l n x :
  zget l n = Some x -> exists m, n = Z.of_nat m /\ l !! m = Some x.
Proof.
  intros H. pose proof (zget_Some_lt _ _ _ H). exists (Z.to_nat n). split; [lia|].
  rewrite <- zget_nat, Z2Nat.id by lia. done.
Qed.

Lemma zlen_insert l i x : zlen (<[i := x]> l) = zlen l.
Proof. unfold zlen. by rewrite length_insert. Qed.

Lemma Forall_zslice (P : A -> Prop) a b l : Forall P l -> Forall P (zslice a b l).
Proof. intros. by apply Forall_take, Forall_drop. Qed.

(** The in-range case of [copy_from_slice]. *)
Lemma copy_from_slice_ok l a b data :
  0 <= a <= b -> b <= zlen l -> zlen data = b - a ->
  copy_from_slice l a b data = Val (ztake a l ++ data ++ zdrop b l).
Proof.
  intros. unfold copy_from_slice.
  by ztrue ((0 <=? a) && (a <=? b) && (b <=? zlen l) && (zlen data =? b - a))%bool.
Qed.

(** What a successful [copy_from_slice] leaves at each index. *)
Lemma copy_from_slice_spec l a b data l' :
  copy_from_slice l a b data = Val l' ->
  zlen l' = zlen l /\
  forall i, zget l' i = if (a <=? i) && (i <? b) then zget data (i - a) else zget l i.
Proof.
  unfold copy_from_slice. zcase; [|done]. intros [= <-].
  split.
  - rewrite !zlen_app, zlen_ztake, zlen_zdrop by lia. lia.
  - intros i.
    destruct (decide (i < 0)).
    { rewrite !zget_neg by lia. by zcase; [lia|]. }
    destruct (decide (i < a)).
    { rewrite zget_app_l by (rewrite zlen_ztake; lia). rewrite zget_ztake by lia.
      by zcase; [lia|]. }
    rewrite zget_app_r by (rewrite zlen_ztake; lia). rewrite zlen_ztake by lia.
    ztrue (a <=? i). simpl. zcase.
    + by rewrite zget_app_l by lia.
    + rewrite zget_app_r by lia. rewrite zget_zdrop by lia. f_equal. lia.
Qed.

Lemma copy_read l a b data l' :
  copy_from_slice l a b data = Val l' -> zslice a b l' = data.
Proof.
  unfold copy_from_slice. zcase; [|done]. intros [= <-].
  apply zslice_app_mid; [rewrite zlen_ztake; lia|lia].
Qed.

Lemma copy_frame l a b data l' c e :
  copy_from_slice l a b data = Val l' -> 0 <= c <= e -> e <= zlen l ->
  e <= a \/ b <= c -> zslice c e l' = zslice c e l.
Proof.
  intros H Hc He Hd. destruct (copy_from_slice_spec _ _ _ _ _ H) as [Hlen Hget].
  apply zget_ext; [rewrite !zlen_zslice by lia; lia|].
  rewrite zlen_zslice by lia. intros i Hi. rewrite !zget_zslice by lia.
  rewrite Hget. zcase; [lia|done].
Qed.

Lemma get_range_ok l a b :
  0 <= a <= b -> b <= zlen l -> get_range l a b = Some (zslice a b l).
Proof. intros. unfold get_range. by ztrue ((0 <=? a) && (a <=? b) && (b <=? zlen l))%bool. Qed.

Lemma get_range_mid l1 l2 l3 a b :
  a = zlen l1 -> b = a + zlen l2 -> get_range (l1 ++ l2 ++ l3) a b = Some l2.
Proof.
  intros Ha Hb. pose proof (zlen_nonneg l1). pose proof (zlen_nonneg l2).
  pose proof (zlen_nonneg l3).
  rewrite get_range_ok by (rewrite ?zlen_app; lia). f_equal. by apply zslice_app_mid.
Qed.

End slices.

Lemma filter_id {A} (P : A -> Prop) `{!forall x, Decision (P x)} (l : list A) :
  Forall P l -> filter P l = l.
Proof. induction 1; [done|]. rewrite filter_cons_True by done. by f_equal. Qed.

Lemma filter_none {A} (P : A -> Prop) `{!forall x, Decision (P x)} (l : list A) :
  Forall (fun x => ~ P x) l -> filter P l = [].
Proof. induction 1; [done|]. by rewrite filter_cons_False by done. Qed.

(** * Lemmas on positional notation *)

Lemma dval_app b l1 l2 : dval b (l1 ++ l2) = dval b l1 + b ^ zlen l1 * dval b l2.
Proof.
  induction l1 as [|d l1 IH]; simpl; [rewrite ?zlen_nil, ?Z.pow_0_r; lia|].
  rewrite IH, zlen_cons, Z.pow_add_r by (pose proof (zlen_nonneg l1); lia). lia.
Qed.

Lemma dval_bounds b l :
  0 < b -> Forall (fun d => 0 <= d < b) l -> 0 <= dval b l < b ^ zlen l.
Proof.
  intros Hb. induction 1 as [|d l Hd Hl IH]; simpl; [rewrite ?zlen_nil, ?Z.pow_0_r; lia|].
  rewrite zlen_cons, Z.pow_add_r by (pose proof (zlen_nonneg l); lia). nia.
Qed.

Lemma dval_replicate_0 b n : dval b (replicate n 0) = 0.
Proof. induction n; simpl; lia. Qed.

(** Digit strings of the same length are equal when their values are. *)
Lemma dval_inj b l1 l2 :
  0 < b -> length l1 = length l2 ->
  Forall (fun d => 0 <= d < b) l1 -> Forall (fun d => 0 <= d < b) l2 ->
  dval b l1 = dval b l2 -> l1 = l2.
Proof.
  intros Hb. revert l2. induction l1 as [|d1 l1 IH]; intros [|d2 l2] Hlen H1 H2 Heq; try done.
  simpl in *. inversion H1; inversion H2; subst.
  assert (d1 = d2) as ->.
  { rewrite <- (Z.mod_small d1 b), <- (Z.mod_small d2 b) by done.
    rewrite <- (Z_mod_plus_full d1 (dval b l1) b), <- (Z_mod_plus_full d2 (dval b l2) b).
    f_equal. lia. }
  f_equal. apply IH; auto; nia.
Qed.

Lemma dval_zero_iff b l :
  0 < b -> Forall (fun d => 0 <= d < b) l -> dval b l = 0 <-> Forall (eq 0) l.
Proof.
  intros Hb Hl. split.
  - induction Hl as [|d l Hd Hl IH]; simpl; [constructor|].
    intros. pose proof (dval_bounds b l Hb Hl).
    assert (d = 0 /\ dval b l = 0) as [-> Hz] by nia. constructor; auto.
  - induction 1 as [|d l <- Hl' IH]; simpl; [done|]. inversion Hl; subst.
    rewrite IH by done. lia.
Qed.

Lemma length_le_bytes n v : length (le_bytes n v) = n.
Proof. revert v; induction n; simpl; auto. Qed.

Lemma zlen_le_bytes n v : zlen (le_bytes n v) = Z.of_nat n.
Proof. unfold zlen. by rewrite length_le_bytes. Qed.

Lemma zlen_be_bytes n v : zlen (be_bytes n v) = Z.of_nat n.
Proof. unfold be_bytes. by rewrite zlen_reverse, zlen_le_bytes. Qed.

Lemma le_bytes_byte n v : Forall is_byte (le_bytes n v).
Proof.
  revert v; induction n; simpl; constructor; auto.
  apply Z.mod_pos_bound. lia.
Qed.

Lemma be_bytes_byte n v : Forall is_byte (be_bytes n v).
Proof. apply Forall_reverse, le_bytes_byte. Qed.

(** Encoding then decoding keeps the value modulo the width. *)
Lemma le_val_bytes_mod n v : le_val (le_bytes n v) = v mod 256 ^ Z.of_nat n.
Proof.
  revert v; induction n as [|n IH]; intros v; [by rewrite Z.mod_1_r|].
  unfold le_val in *. cbn [le_bytes dval]. rewrite IH, Nat2Z.inj_succ, Z.pow_succ_r by lia.
  rewrite Z.rem_mul_r by (try apply Z.pow_pos_nonneg; lia). lia.
Qed.

Lemma le_val_bytes n v : 0 <= v < 256 ^ Z.of_nat n -> le_val (le_bytes n v) = v.
Proof. intros. rewrite le_val_bytes_mod. by apply Z.mod_small. Qed.

Lemma be_val_bytes n v : 0 <= v < 256 ^ Z.of_nat n -> be_val (be_bytes n v) = v.
Proof. intros. unfold be_val, be_bytes. rewrite reverse_involutive. by apply le_val_bytes. Qed.

Lemma le_val_bounds l : Forall is_byte l -> 0 <= le_val l < 256 ^ zlen l.
Proof. intros. apply dval_bounds; [lia|done]. Qed.

Lemma be_val_bounds l : Forall is_byte l -> 0 <= be_val l < 256 ^ zlen l.
Proof.
  intros. rewrite <- (zlen_reverse l). apply dval_bounds; [lia|]. by apply Forall_reverse.
Qed.

Lemma le_val_inj l1 l2 :
  length l1 = length l2 -> Forall is_byte l1 -> Forall is_byte l2 -> le_val l1 = le_val l2 -> l1 = l2.
Proof. intros. by apply (dval_inj 256). Qed.

Lemma le_bytes_val l : Forall is_byte l -> le_bytes (length l) (le_val l) = l.
Proof.
  unfold le_val. induction 1 as [|d l Hd Hl IH]; simpl; [done|]. f_equal.
  - rewrite Z.mul_comm, Z_mod_plus_full. by apply Z.mod_small.
  - rewrite Z.mul_comm, Z_div_plus_full, Z.div_small by (lia || done). done.
Qed.

(** * Machine integers *)

Lemma to_signed_small bits v : 0 < bits -> in_i bits v -> to_signed bits (v mod 2 ^ bits) = v.
Proof.
  intros Hb [H1 H2]. unfold to_signed.
  assert (2 ^ bits = 2 * 2 ^ (bits - 1)) as E.
  { rewrite <- Z.pow_succ_r by lia. f_equal. lia. }
  rewrite Zplus_mod_idemp_l, Z.mod_small by lia. lia.
Qed.

Lemma to_signed_range bits v : 0 < bits -> in_i bits (to_signed bits v).
Proof.
  intros Hb. unfold to_signed, in_i.
  assert (2 ^ bits = 2 * 2 ^ (bits - 1)) as E.
  { rewrite <- Z.pow_succ_r by lia. f_equal. lia. }
  assert (0 < 2 ^ (bits - 1)) by (apply Z.pow_pos_nonneg; lia).
  pose proof (Z.mod_pos_bound (v + 2 ^ (bits - 1)) (2 ^ bits)). lia.
Qed.

Lemma lxor_range n a b : 0 <= n -> in_u n a -> in_u n b -> in_u n (Z.lxor a b).
Proof.
  unfold in_u. intros Hn Ha Hb.
  assert (0 <= Z.lxor a b) by (apply Z.lxor_nonneg; lia). split; [done|].
  destruct (decide (Z.lxor a b = 0)) as [->|]; [lia|].
  apply Z.log2_lt_pow2; [lia|]. eapply Z.le_lt_trans; [apply Z.log2_lxor; lia|].
  destruct (decide (n = 0)) as [->|].
  { assert (a = 0) as -> by lia. assert (b = 0) as -> by lia. done. }
  apply Z.max_lub_lt; (destruct (decide (0 < a)), (decide (0 < b)));
    first [apply Z.log2_lt_pow2; lia | rewrite Z.log2_nonpos by lia; lia].
Qed.

Lemma lxor_cancel_l a b c : Z.lxor a b = Z.lxor a c -> b = c.
Proof.
  intros H. rewrite <- (Z.lxor_0_l b), <- (Z.lxor_0_l c), <- (Z.lxor_nilpotent a).
  by rewrite !Z.lxor_assoc, H.
Qed.

Lemma lxor_cancel_r a b c : Z.lxor a c = Z.lxor b c -> a = b.
Proof. rewrite !(Z.lxor_comm _ c). apply lxor_cancel_l. Qed.

(** The two's complement round trips of the [i32] and [i64] encodings. *)
Lemma le_i64_roundtrip v : in_i 64 v -> to_signed 64 (le_val (le_bytes 8 v)) = v.
Proof.
  intros. rewrite le_val_bytes_mod. change (256 ^ Z.of_nat 8) with (2 ^ 64).
  by apply to_signed_small.
Qed.

Lemma be_i32_roundtrip v : in_i 32 v -> to_signed 32 (be_val (be_bytes 4 v)) = v.
Proof.
  intros. unfold be_val, be_bytes. rewrite reverse_involutive.
  fold (le_val (le_bytes 4 v)). rewrite le_val_bytes_mod.
  change (256 ^ Z.of_nat 4) with (2 ^ 32). by apply to_signed_small.
Qed.

Lemma be_i16_roundtrip v : in_i 16 v -> to_signed 16 (be_val (be_bytes 2 v)) = v.
Proof.
  intros. unfold be_val, be_bytes. rewrite reverse_involutive.
  fold (le_val (le_bytes 2 v)). rewrite le_val_bytes_mod.
  change (256 ^ Z.of_nat 2) with (2 ^ 16). by apply to_signed_small.
Qed.

#[export] Hint Resolve zlen_nonneg le_bytes_byte be_bytes_byte : pgrs.
#[export] Hint Rewrite @zlen_nil @zlen_cons @zlen_app @zlen_reverse zlen_le_bytes zlen_be_bytes : zlen.
