(* ===== verification/Utf8.v ===== *)
(** What the code uses of Rust's UTF-8 strings: validation
    ([str::from_utf8]), lossy decoding ([String::from_utf8_lossy]),
    [str::trim], splitting, integer parsing and the encoding of a byte used as a
    [char]. *)

From S2P Require Import Prelude.

(** ** Validation *)

Definition cont (b : Z) : bool := (128 <=? b) && (b <=? 191).
Definition between (a b x : Z) : bool := (a <=? x) && (x <=? b).

(** Second byte of a three-byte and of a four-byte sequence. *)
Definition second3 (b0 b1 : Z) : bool :=
  if b0 =? 0xE0 then between 0xA0 0xBF b1
  else if b0 =? 0xED then between 0x80 0x9F b1
  else cont b1.
Definition second4 (b0 b1 : Z) : bool :=
  if b0 =? 0xF0 then between 0x90 0xBF b1
  else if b0 =? 0xF4 then between 0x80 0x8F b1
  else cont b1.

(** The next scalar value of [b0 :: t]: whether it is well formed, and the
    number of bytes of it (of the maximal ill-formed prefix otherwise).  A byte
    past the end reads as 0, which continues nothing. *)
Definition utf8_step (b0 : Z) (t : list Z) : bool * nat :=
  let b1 := nth 0 t 0 in
  let b2 := nth 1 t 0 in
  let b3 := nth 2 t 0 in
  if b0 <? 128 then (true, 1%nat)
  else if between 0xC2 0xDF b0 then if cont b1 then (true, 2%nat) else (false, 1%nat)
  else if between 0xE0 0xEF b0 then
    if second3 b0 b1 then if cont b2 then (true, 3%nat) else (false, 2%nat) else (false, 1%nat)
  else if between 0xF0 0xF4 b0 then
    if second4 b0 b1 then
      if cont b2 then if cont b3 then (true, 4%nat) else (false, 3%nat) else (false, 2%nat)
    else (false, 1%nat)
  else (false, 1%nat).

Fixpoint utf8_valid_fuel (fuel : nat) (l : list Z) : bool :=
  match fuel, l with
  | _, [] => true
  | O, _ => false
  | S fuel, b0 :: t =>
      let '(ok, n) := utf8_step b0 t in
      if ok then utf8_valid_fuel fuel (drop n l) else false
  end.

(** [str::from_utf8(l).is_ok()] *)
Definition utf8_valid (l : list Z) : bool := utf8_valid_fuel (length l) l.

(** U+FFFD *)
Definition REPLACEMENT : str := [0xEF; 0xBF; 0xBD].

Fixpoint lossy_fuel (fuel : nat) (l : list Z) : str :=
  match fuel, l with
  | _, [] => []
  | O, _ => []
  | S fuel, b0 :: t =>
      let '(ok, n) := utf8_step b0 t in
      (if ok then take n l else REPLACEMENT) ++ lossy_fuel fuel (drop n l)
  end.

(** [String::from_utf8_lossy] *)
Definition from_utf8_lossy (l : list Z) : str := lossy_fuel (length l) l.

(** [s.push(b as char)] for a byte [b]: a byte above 127 becomes the two-byte
    encoding of the code point of that number. *)
Definition push_byte_char (b : Z) : str :=
  if b <? 128 then [b] else [0xC0 + b / 64; 0x80 + b mod 64].

(** ** Whitespace *)

(** The UTF-8 encodings of Unicode [White_Space]. *)
Definition ws_chars : list str :=
  [[9]; [10]; [11]; [12]; [13]; [32]; [0xC2; 0x85]; [0xC2; 0xA0]; [0xE1; 0x9A; 0x80]]
  ++ map (fun c => [0xE2; 0x80; c]) [0x80; 0x81; 0x82; 0x83; 0x84; 0x85; 0x86; 0x87; 0x88; 0x89; 0x8A; 0xA8; 0xA9; 0xAF]
  ++ [[0xE2; 0x81; 0x9F]; [0xE3; 0x80; 0x80]].

Definition starts_with (s p : str) : bool := bool_decide (take (length p) s = p).

(** Bytes of the whitespace character at the front, 0 for none. *)
Definition ws_len (encs : list str) (s : str) : nat :=
  match filter (fun w => starts_with s w) encs with w :: _ => length w | [] => 0%nat end.

Fixpoint trim_fuel (encs : list str) (fuel : nat) (s : str) : str :=
  match fuel with
  | O => s
  | S fuel => match ws_len encs s with O => s | n => trim_fuel encs fuel (drop n s) end
  end.

Definition trim_start (s : str) : str := trim_fuel ws_chars (length s) s.
Definition trim_end (s : str) : str :=
  reverse (trim_fuel (reverse <$> ws_chars) (length s) (reverse s)).
(** [str::trim] *)
Definition trim (s : str) : str := trim_end (trim_start s).

(** ** Splitting *)

(** [s.split_once(c)] *)
Fixpoint split_once (c : Z) (s : str) : option (str * str) :=
  match s with
  | [] => None
  | x :: s => if x =? c then Some ([], s) else '(a, b) ← split_once c s; Some (x :: a, b)
  end.

(** [s.split(c)] *)
Fixpoint split (c : Z) (s : str) : list str :=
  match s with
  | [] => [[]]
  | x :: s =>
      if x =? c then [] :: split c s
      else match split c s with p :: ps => (x :: p) :: ps | [] => [[x]] end
  end.

(** [s.lines()]: split at newlines, one trailing carriage return dropped from
    each line, no empty last line. *)
Definition strip_cr (s : str) : str :=
  match last s with Some c => if c =? 13 then take (length s - 1) s else s | None => s end.
Definition lines (s : str) : list str :=
  let ps := split 10 s in
  strip_cr <$> (match last ps with Some [] => take (length ps - 1) ps | _ => ps end).

(** [s.split_whitespace()]; [cur] is the word being read. *)
Fixpoint words_fuel (fuel : nat) (cur : str) (s : str) : list str :=
  let flush := match cur with [] => [] | _ => [cur] end in
  match fuel, s with
  | _, [] => flush
  | O, _ => flush
  | S fuel, c :: s' =>
      match ws_len ws_chars s with
      | O => words_fuel fuel (cur ++ [c]) s'
      | n => flush ++ words_fuel fuel [] (drop n s)
      end
  end.
Definition split_whitespace (s : str) : list str := words_fuel (length s) [] s.

(** [s.replace(c, r)] for a single-byte pattern. *)
Definition replace_char (c : Z) (r : str) (s : str) : str := flat_map (fun x => if x =? c then r else [x]) s.

(** [parse::<uN>()] with [N] bits: an optional plus sign, then digits. *)
Definition parse_uint (bits : Z) (s : str) : option Z :=
  let ds := match s with c :: s' => if c =? 43 then s' else s | [] => [] end in
  match ds with
  | [] => None
  | _ => if forallb is_ascii_digit ds
         then let v := dval 10 (reverse ((fun c => c - 48) <$> ds)) in
              if v <? 2 ^ bits then Some v else None
         else None
  end.

(** * Lemmas *)

Lemma utf8_step_pos b0 t : (1 <= snd (utf8_step b0 t) <= 4)%nat.
Proof. unfold utf8_step. repeat (case_match; cbn; try lia). Qed.

(** A well-formed scalar value lies within the input. *)
Lemma utf8_step_len b0 t : fst (utf8_step b0 t) = true -> (snd (utf8_step b0 t) <= S (length t))%nat.
Proof.
  unfold utf8_step, cont, between, second3, second4.
  destruct t as [|b1 [|b2 [|b3 t]]]; cbn [nth length]; repeat (zcase; cbn; try lia); done.
Qed.

(** Lossy decoding changes nothing in a valid string. *)
Lemma from_utf8_lossy_valid l : utf8_valid l = true -> from_utf8_lossy l = l.
Proof.
  unfold utf8_valid, from_utf8_lossy. generalize (length l) as fuel. intros fuel. revert l.
  induction fuel as [|fuel IH]; intros [|b0 t]; cbn; try done.
  destruct (utf8_step b0 t) as [ok n]. destruct ok; [|done]. intros H.
  rewrite (IH _ H). apply take_drop.
Qed.

(** ASCII text is valid. *)
Lemma utf8_valid_ascii l : Forall (fun b => b < 128) l -> utf8_valid l = true.
Proof.
  intros H. unfold utf8_valid. induction H as [|b l Hb _ IH]; [done|]. cbn. unfold utf8_step.
  by ztrue (b <? 128).
Qed.

(** Text that starts and ends with an ASCII non-space is its own trim. *)
Lemma trim_fuel_stop encs fuel s :
  (forall w, w ∈ encs -> starts_with s w = false) -> trim_fuel encs fuel s = s.
Proof.
  intros H. destruct fuel; [done|]. cbn. unfold ws_len.
  rewrite filter_none; [done|]. apply Forall_forall. intros w Hw. rewrite H by done. by intros [].
Qed.

Lemma starts_with_head c s w :
  hd_error w <> Some c -> w <> [] -> starts_with (c :: s) w = false.
Proof.
  intros Hh Hne. destruct w as [|x w]; [done|]. unfold starts_with. cbn.
  apply bool_decide_eq_false_2. intros [= -> _]. by apply Hh.
Qed.

Definition head_not_graph (w : str) : bool :=
  match w with x :: _ => (x <? 33) || (126 <? x) | [] => false end.

Lemma trim_fuel_graph encs fuel c s :
  33 <= c <= 126 -> forallb head_not_graph encs = true -> trim_fuel encs fuel (c :: s) = c :: s.
Proof.
  intros Hc H. apply trim_fuel_stop. intros w Hw%list_elem_of_In.
  rewrite forallb_forall in H. specialize (H w Hw). destruct w as [|x w]; [done|]. cbn in H.
  apply starts_with_head; [|done]. cbn. intros [= ->]. lia.
Qed.

(** A string whose first and last bytes are graphic ASCII is its own trim. *)
Lemma trim_graph c s l d : c :: s = l ++ [d] -> 33 <= c <= 126 -> 33 <= d <= 126 -> trim (c :: s) = c :: s.
Proof.
  intros E Hc Hd. unfold trim, trim_start. rewrite trim_fuel_graph by (done || lia).
  unfold trim_end. rewrite E, reverse_snoc, trim_fuel_graph by (done || lia).
  by rewrite reverse_cons, reverse_involutive.
Qed.

Lemma split_none c s : Forall (fun x => x <> c) s -> split c s = [s].
Proof. induction 1 as [|x s Hx F IH]; [done|]. cbn [split]. zfalse (x =? c). by rewrite IH. Qed.

Lemma split_app c a b : Forall (fun x => x <> c) a -> split c (a ++ c :: b) = a :: split c b.
Proof.
  induction 1 as [|x a Hx F IH]; cbn [app split]; [by rewrite Z.eqb_refl|].
  zfalse (x =? c). by rewrite IH.
Qed.

Lemma split_once_app c a b : Forall (fun x => x <> c) a -> split_once c (a ++ c :: b) = Some (a, b).
Proof.
  induction 1 as [|x a Hx F IH]; cbn [app split_once]; [by rewrite Z.eqb_refl|].
  zfalse (x =? c). by rewrite IH.
Qed.

(** Lines that end in a newline, none of them in a carriage return. *)
Lemma lines_flat {A} (f : A -> str) xs :
  (forall x, x ∈ xs -> Forall (fun c => c <> 10) (f x) /\ exists l d, f x = l ++ [d] /\ d <> 13) ->
  lines (flat_map (fun x => f x ++ [10]) xs) = f <$> xs.
Proof.
  intros H. assert (split 10 (flat_map (fun x => f x ++ [10]) xs) = (f <$> xs) ++ [[]]) as E.
  { induction xs as [|x xs IH]; [done|]. cbn [flat_map fmap list_fmap]. rewrite <- app_assoc. cbn [app].
    rewrite split_app by (apply H, elem_of_cons; by left). f_equal. apply IH.
    intros y Hy. apply H, elem_of_cons. by right. }
  unfold lines. rewrite E, last_snoc.
  replace (length ((f <$> xs) ++ [[]]) - 1)%nat with (length (f <$> xs)) by (rewrite length_app; cbn; lia).
  rewrite take_app_length. rewrite <- list_fmap_compose. apply list_fmap_ext. intros i x Hx. cbn.
  apply list_elem_of_lookup_2 in Hx. destruct (H x Hx) as (_ & l & d & Ex & Hd). rewrite Ex. unfold strip_cr.
  rewrite last_snoc. by zfalse (d =? 13).
Qed.

(** ** Concatenation *)

(** One well-formed scalar value. *)
Definition char_ok (ch : str) : Prop := exists b0 t, ch = b0 :: t /\ utf8_step b0 t = (true, length ch).

Lemma utf8_step_app b0 t r : fst (utf8_step b0 t) = true -> utf8_step b0 (t ++ r) = utf8_step b0 t.
Proof.
  unfold utf8_step. destruct (b0 <? 128); [done|].
  assert (cont 0 = false /\ second3 b0 0 = false /\ second4 b0 0 = false) as (C & S3 & S4).
  { unfold second3, second4. repeat (case_match; cbn); auto. }
  destruct t as [|x [|y [|z t]]]; cbn [nth app]; rewrite ?C, ?S3, ?S4; repeat case_match; try done.
Qed.

Lemma utf8_step_take b0 t n : utf8_step b0 t = (true, S n) -> utf8_step b0 (take n t) = (true, S n).
Proof.
  unfold utf8_step. destruct t as [|x [|y [|z t]]], n as [|[|[|[|n]]]]; cbn [nth take]; repeat case_match; intros [=]; try done.
Qed.

Lemma char_ok_head ch : char_ok ch -> exists n, length ch = S n.
Proof. intros (b0 & t & -> & _). by exists (length t). Qed.

Lemma utf8_valid_fuel_more fuel fuel' l :
  (length l <= fuel)%nat -> (length l <= fuel')%nat -> utf8_valid_fuel fuel l = utf8_valid_fuel fuel' l.
Proof.
  revert fuel' l. induction fuel as [|fuel IH]; intros [|fuel'] [|b t]; cbn [utf8_valid_fuel length]; try done; try lia.
  intros H1 H2. destruct (utf8_step b t) as [[] n] eqn:E; [|done].
  pose proof (utf8_step_pos b t) as P. rewrite E in P. cbn in P. apply IH; rewrite length_drop; cbn; lia.
Qed.

Lemma utf8_valid_char ch rest : char_ok ch -> utf8_valid (ch ++ rest) = utf8_valid rest.
Proof.
  intros (b0 & t & -> & E). unfold utf8_valid. cbn [app length utf8_valid_fuel].
  rewrite utf8_step_app by (by rewrite E). rewrite E.
  replace (drop (length (b0 :: t)) (b0 :: t ++ rest)) with rest by (symmetry; apply (drop_app_length (b0 :: t))).
  apply utf8_valid_fuel_more; rewrite ?length_app; lia.
Qed.

(** Induction over the scalar values of a valid string. *)
Lemma utf8_valid_ind (P : str -> Prop) :
  P [] -> (forall ch rest, char_ok ch -> utf8_valid rest = true -> P rest -> P (ch ++ rest)) ->
  forall l, utf8_valid l = true -> P l.
Proof.
  intros P0 PS l. remember (length l) as n eqn:Hn. revert l Hn. induction (lt_wf n) as [n _ IH]. intros [|b t] ->; [done|].
  unfold utf8_valid. cbn [length utf8_valid_fuel]. destruct (utf8_step b t) as [[] k] eqn:E; [|done].
  pose proof (utf8_step_pos b t) as Pk. pose proof (utf8_step_len b t) as Lk. rewrite E in Pk, Lk. cbn in Pk. specialize (Lk eq_refl). cbn in Lk.
  destruct k as [|k]; [lia|]. intros V. rewrite <- (take_drop (S k) (b :: t)).
  assert (utf8_valid (drop (S k) (b :: t)) = true) as V'.
  { unfold utf8_valid. rewrite <- V. apply utf8_valid_fuel_more; rewrite length_drop; cbn; lia. }
  apply PS; [|done|].
  - exists b, (take k t). split; [done|]. cbn [take length]. rewrite length_take, Nat.min_l by lia. by apply utf8_step_take.
  - apply (IH (length (drop (S k) (b :: t)))); [rewrite length_drop; cbn; lia|done|done].
Qed.

Lemma utf8_valid_app a b : utf8_valid a = true -> utf8_valid b = true -> utf8_valid (a ++ b) = true.
Proof.
  intros Va Vb. revert a Va. apply utf8_valid_ind; [done|]. intros ch rest Hc _ IH.
  by rewrite <- app_assoc, utf8_valid_char.
Qed.

(** A scalar value is one ASCII byte, or has no ASCII byte. *)
Lemma char_ok_bytes ch : char_ok ch -> (exists c, ch = [c] /\ c < 128) \/ Forall (fun b => 128 <= b) ch.
Proof.
  intros (b0 & t & -> & E). unfold utf8_step in E. destruct (b0 <? 128) eqn:E0; zb.
  - left. injection E as E. destruct t; [by exists b0|done].
  - right. unfold between, second3, second4, cont, between in E.
    destruct t as [|x [|y [|z [|u t]]]]; cbn [nth length] in E; repeat (case_match; try discriminate); zb;
      repeat (apply Forall_cons; split; [lia|]); apply Forall_nil_2.
Qed.
