(* ===== verification/Numeric.v ===== *)
(** The arbitrary-precision decimal of crates/types/src/numeric.rs: digit
    vectors, schoolbook arithmetic, half-up division, comparison, parsing and
    printing, proved exact against integer arithmetic. *)

From S2P Require Import Prelude Utf8.

Definition DIV_SCALE : Z := 16.

(** [digits] holds the unscaled magnitude, most significant digit first. *)
Record BigDecimal := mk_bd {
  negative : bool;
  digits : list Z;
  scale : Z
}.

Definition bd_zero : BigDecimal := mk_bd false [0] 0.

Definition all_zero (l : list Z) : bool := forallb (fun d => d =? 0) l.

(** The leading-zero loop [while lead + 1 < n && l[lead] == 0] followed by
    [drain(0..lead)]. *)
Fixpoint strip_lead (n : Z) (l : list Z) : list Z :=
  match l with
  | d :: l' => if (1 <? n) && (d =? 0) then strip_lead (n - 1) l' else l
  | [] => []
  end.

(** [if digits.is_empty() { digits.push(0) }] *)
Definition or_zero (l : list Z) : list Z := match l with [] => [0] | _ => l end.

Definition normalize (d : BigDecimal) : BigDecimal :=
  let ds := or_zero (digits d) in
  let int_len := Z.max 0 (zlen ds - scale d) in
  let ds := strip_lead int_len ds in
  mk_bd (if all_zero ds then false else negative d) ds (scale d).

(** The digit loop of [from_i64], least significant first.  A 64-bit magnitude
    has at most 19 digits. *)
Fixpoint digits_of (fuel : nat) (n : Z) : list Z :=
  match fuel with
  | O => []
  | S fuel => if 0 <? n then n mod 10 :: digits_of fuel (n / 10) else []
  end.

Definition from_i64 (v : Z) : BigDecimal :=
  if v =? 0 then bd_zero
  else normalize (mk_bd (v <? 0) (reverse (digits_of 20 (Z.abs v))) 0).

Definition is_zero (d : BigDecimal) : bool := all_zero (digits d).

Definition neg (d : BigDecimal) : BigDecimal :=
  if is_zero d then d else mk_bd (negb (negative d)) (digits d) (scale d).

Definition aligned_lsf (d : BigDecimal) (target_scale : Z) : list Z :=
  let lsf := reverse (digits d) in
  if scale d <? target_scale then zreplicate (target_scale - scale d) 0 ++ lsf else lsf.

Definition head0 (l : list Z) : Z := match l with x :: _ => x | [] => 0 end.

(** The loop of [mag_add] over the [n] remaining positions. *)
Fixpoint mag_add_go (n : nat) (a b : list Z) (carry : Z) : list Z :=
  match n with
  | O => if 0 <? carry then [carry] else []
  | S n => let s := head0 a + head0 b + carry in
           s mod 10 :: mag_add_go n (tail a) (tail b) (s / 10)
  end.

Definition mag_add (a b : list Z) : list Z := mag_add_go (Nat.max (length a) (length b)) a b 0.

Fixpoint mag_sub_go (a b : list Z) (borrow : Z) : list Z :=
  match a with
  | [] => []
  | x :: a =>
      let diff := x - head0 b - borrow in
      if diff <? 0 then (diff + 10) :: mag_sub_go a (tail b) 1
      else diff :: mag_sub_go a (tail b) 0
  end.

Definition mag_sub (a b : list Z) : list Z := mag_sub_go a b 0.

(** [while l > 0 && a[l - 1] == 0 { l -= 1 }] *)
Fixpoint eff_len (n : nat) (a : list Z) : nat :=
  match n with
  | O => O
  | S m => if nth m a 0 =? 0 then eff_len m a else n
  end.

Fixpoint mag_cmp_go (n : nat) (a b : list Z) : comparison :=
  match n with
  | O => Eq
  | S m => match nth m a 0 ?= nth m b 0 with Eq => mag_cmp_go m a b | o => o end
  end.

Definition mag_cmp (a b : list Z) : comparison :=
  let la := eff_len (length a) a in
  let lb := eff_len (length b) b in
  if (la =? lb)%nat then mag_cmp_go la a b else Nat.compare la lb.

Definition from_lsf (negative : bool) (lsf : list Z) (scale : Z) : BigDecimal :=
  normalize (mk_bd negative (reverse lsf) scale).

Definition add (x y : BigDecimal) : BigDecimal :=
  let scale := Z.max (scale x) (scale y) in
  let a := aligned_lsf x scale in
  let b := aligned_lsf y scale in
  if Bool.eqb (negative x) (negative y) then from_lsf (negative x) (mag_add a b) scale
  else match mag_cmp a b with
       | Eq => from_lsf false (zreplicate (scale + 1) 0) scale
       | Gt => from_lsf (negative x) (mag_sub a b) scale
       | Lt => from_lsf (negative y) (mag_sub b a) scale
       end.

Definition sub (x y : BigDecimal) : BigDecimal := add x (neg y).

(** The inner loop of [mul] over the digits [b], writing from index [k]. *)
Fixpoint mul_inner (x carry : Z) (b : list Z) (k : nat) (prod : list Z) : run (list Z * Z) :=
  match b with
  | [] => Val (prod, carry)
  | y :: b =>
      p ← expect (prod !! k);
      let cur := p + x * y + carry in
      mul_inner x (cur / 10) b (S k) (<[k := cur mod 10]> prod)
  end.

(** [while carry > 0 { prod[k] += carry ... }]; an index past the end panics,
    so [length prod] turns are enough. *)
Fixpoint mul_carry (fuel : nat) (carry : Z) (k : nat) (prod : list Z) : run (list Z) :=
  if 0 <? carry then
    p ← expect (prod !! k);
    match fuel with
    | O => Panic
    | S fuel => let cur := p + carry in mul_carry fuel (cur / 10) (S k) (<[k := cur mod 10]> prod)
    end
  else Val prod.

Fixpoint mul_outer (a : list Z) (i : nat) (b : list Z) (prod : list Z) : run (list Z) :=
  match a with
  | [] => Val prod
  | x :: a =>
      '(prod, carry) ← mul_inner x 0 b i prod;
      prod ← mul_carry (length prod) carry (i + length b) prod;
      mul_outer a (S i) b prod
  end.

Definition mul (x y : BigDecimal) : run BigDecimal :=
  if is_zero x || is_zero y then Val bd_zero
  else
    let a := reverse (digits x) in
    let b := reverse (digits y) in
    prod ← mul_outer a 0 b (replicate (length a + length b) 0);
    Val (from_lsf (negb (Bool.eqb (negative x) (negative y))) prod (scale x + scale y)).

Definition trim_leading_zeros (msf : list Z) : list Z := strip_lead (zlen msf) msf.

(** [while carry > 0 { out.push(carry % 10); carry /= 10 }] on a [u16]. *)
Definition carry_digits (carry : Z) : list Z := digits_of 5 carry.

Fixpoint mag_scale_go (lsf : list Z) (q carry : Z) : list Z :=
  match lsf with
  | [] => carry_digits carry
  | d :: lsf => let cur := d * q + carry in cur mod 10 :: mag_scale_go lsf q (cur / 10)
  end.

Definition mag_scale (lsf : list Z) (q : Z) : list Z :=
  if q =? 0 then [0] else mag_scale_go lsf q 0.

Definition fits (den_lsf rem_lsf : list Z) (q : Z) : bool :=
  match mag_cmp (mag_scale den_lsf q) rem_lsf with Gt => false | _ => true end.

(** The binary search of [finish_div] for the quotient digit; the interval
    [lo..hi] shrinks on every turn, so 10 turns are enough. *)
Fixpoint q_search (fuel : nat) (den rem : list Z) (lo hi q : Z) : Z :=
  match fuel with
  | O => q
  | S fuel =>
      if lo <=? hi then
        let mid := (lo + hi) / 2 in
        if fits den rem mid then
          if mid =? 9 then mid else q_search fuel den rem (mid + 1) hi mid
        else
          if mid =? 0 then q else q_search fuel den rem lo (mid - 1) q
      else q
  end.

(** One digit of the long division: quotient digit and new remainder. *)
Definition div_step (den rem : list Z) (d : Z) : Z * list Z :=
  let rem := trim_leading_zeros (rem ++ [d]) in
  let rem_lsf := reverse rem in
  let q := q_search 10 den rem_lsf 0 9 0 in
  (q, trim_leading_zeros (reverse (mag_sub rem_lsf (mag_scale den q)))).

Fixpoint long_div (den rem num : list Z) : list Z :=
  match num with
  | [] => []
  | d :: num => let '(q, rem) := div_step den rem d in q :: long_div den rem num
  end.

Definition finish_div (negative : bool) (num den : list Z) (target_scale : Z) : BigDecimal :=
  let quotient := long_div (reverse den) [0] num in
  let guard_digit := default 0 (last quotient) in
  let quotient := take (length quotient - 1) quotient in
  let q_lsf := or_zero (reverse quotient) in
  let q_lsf := if 5 <=? guard_digit then mag_add q_lsf [1] else q_lsf in
  from_lsf negative q_lsf target_scale.

Definition div_scale (x y : BigDecimal) (target_scale : Z) : option BigDecimal :=
  if is_zero y then None
  else if is_zero x then Some (from_lsf false (zreplicate (Z.max target_scale 1) 0) target_scale)
  else
    let guard := target_scale + 1 in
    let shift := guard + scale y - scale x in
    let sign := negb (Bool.eqb (negative x) (negative y)) in
    if 0 <=? shift then
      Some (finish_div sign (digits x ++ zreplicate shift 0) (digits y) target_scale)
    else
      Some (finish_div sign (digits x) (digits y ++ zreplicate (- shift) 0) target_scale).

Definition div (x y : BigDecimal) : option BigDecimal := div_scale x y DIV_SCALE.

(** The linear search of [rem], candidates from [cand] down. *)
Fixpoint q_linear (cand : nat) (den rem : list Z) : Z :=
  if fits den rem (Z.of_nat cand) then Z.of_nat cand
  else match cand with O => 0 | S cand => q_linear cand den rem end.

Fixpoint rem_loop (den rem num : list Z) : list Z :=
  match num with
  | [] => rem
  | d :: num =>
      let rem := trim_leading_zeros (rem ++ [d]) in
      let rem_lsf := reverse rem in
      let q := q_linear 9 den rem_lsf in
      rem_loop den (trim_leading_zeros (reverse (mag_sub rem_lsf (mag_scale den q)))) num
  end.

Definition bd_rem (x y : BigDecimal) : option BigDecimal :=
  if is_zero y then None
  else
    let scale := Z.max (scale x) (scale y) in
    let a_msf := reverse (aligned_lsf x scale) in
    let den_lsf := aligned_lsf y scale in
    let rem := rem_loop den_lsf [0] a_msf in
    Some (from_lsf (negative x) (reverse rem) scale).

Definition digit_char (d : Z) : Z := 48 + d.

Definition to_canonical_string (d : BigDecimal) : str :=
  let n := zlen (digits d) in
  let int_len := Z.max 0 (n - scale d) in
  (if negative d && negb (is_zero d) then lit "-" else [])
  ++ (if int_len =? 0 then lit "0" else digit_char <$> ztake int_len (digits d))
  ++ (if 0 <? scale d
      then lit "." ++ zreplicate (Z.max 0 (scale d - n)) 48
           ++ (digit_char <$> zdrop (Z.max 0 (n - scale d)) (digits d))
      else []).

(** [BigDecimal::cmp] *)
Definition bd_cmp (x y : BigDecimal) : comparison :=
  if is_zero x && is_zero y then Eq
  else match negative x, negative y with
       | false, true => Gt
       | true, false => Lt
       | _, _ =>
           let scale := Z.max (scale x) (scale y) in
           let ord := mag_cmp (aligned_lsf x scale) (aligned_lsf y scale) in
           if negative x then CompOpp ord else ord
       end.

Definition bd_eqb (x y : BigDecimal) : bool := match bd_cmp x y with Eq => true | _ => false end.

(** ** Parsing *)

(** A run of ASCII digits and what follows it. *)
Fixpoint take_digits (s : str) : list Z * str :=
  match s with
  | c :: s' => if is_ascii_digit c then let '(ds, r) := take_digits s' in ((c - 48) :: ds, r) else ([], s)
  | [] => ([], [])
  end.

(** The exponent after [e]: sign, at least one digit, [parse::<i64>]. *)
Definition parse_exp (s : str) : option (Z * str) :=
  let '(sign, s) := match s with
                    | c :: s' => if c =? 43 then (1, s') else if c =? 45 then (-1, s') else (1, s)
                    | [] => (1, s)
                    end in
  let '(ds, rest) := take_digits s in
  match ds with
  | [] => None
  | _ => let v := sign * dval 10 (reverse ds) in
         if (- 2 ^ 63 <=? v) && (v <? 2 ^ 63) then Some (v, rest) else None
  end.

(** The character loop: digits, number of fractional ones, whether any digit
    was seen, the exponent, and the unread rest. *)
Fixpoint parse_loop (s : str) (ds : list Z) (frac : Z) (seen_dot seen_any : bool)
  : option (list Z * Z * bool * Z * str) :=
  match s with
  | [] => Some (ds, frac, seen_any, 0, [])
  | c :: s' =>
      if is_ascii_digit c then
        parse_loop s' (ds ++ [c - 48]) (if seen_dot then frac + 1 else frac) seen_dot true
      else if c =? 46 then
        if seen_dot then None else parse_loop s' ds frac true seen_any
      else if (c =? 101) || (c =? 69) then
        '(exp, rest) ← parse_exp s'; Some (ds, frac, seen_any, exp, rest)
      else None
  end.

(** [BigDecimal::parse].  The vector of digits cannot grow beyond isize::MAX bytes:
    [resize] panics then, which is also what happens when [frac_digits as i64 - exp]
    overflows, since it wraps around to a negative scale. *)
Definition parse (input : str) : run (option BigDecimal) :=
  match trim input with
  | [] => Val None
  | c :: s' =>
      let '(negative, s) := if c =? 43 then (false, s') else if c =? 45 then (true, s') else (false, c :: s') in
      match parse_loop s [] 0 false false with
      | None => Val None
      | Some (ds, frac, seen_any, exp, rest) =>
          match rest with
          | _ :: _ => Val None
          | [] =>
              if negb seen_any then Val None
              else
                let scale := frac - exp in
                if 2 ^ 63 <=? scale then Panic
                else if scale <? 0
                then if 2 ^ 63 <=? zlen ds - scale then Panic else Val (Some (normalize (mk_bd negative (ds ++ zreplicate (- scale) 0) 0)))
                else Val (Some (normalize (mk_bd negative ds scale)))
          end
      end
  end.

(** * Specification *)

Definition is_digit (d : Z) : Prop := 0 <= d < 10.

(** The value of a most-significant-first digit list. *)
Definition mval (l : list Z) : Z := dval 10 (reverse l).

(** The unscaled value, and the value at a larger scale. *)
Definition unscaled (d : BigDecimal) : Z := (if negative d then -1 else 1) * mval (digits d).
Definition at_scale (d : BigDecimal) (s : Z) : Z := unscaled d * 10 ^ (s - scale d).

Record bd_wf (d : BigDecimal) : Prop := {
  wf_digits : Forall is_digit (digits d);
  wf_nonempty : digits d <> [];
  wf_scale : 0 <= scale d;
  wf_sign : unscaled d = 0 -> negative d = false
}.

(** * Examples *)

Definition bd (s : string) : BigDecimal :=
  match parse (lit s) with Val (Some d) => d | _ => bd_zero end.

Example ex_add : to_canonical_string (add (bd "9.99") (bd "0.01")) = lit "10.00".
Proof. vm_compute. reflexivity. Qed.
Example ex_div : to_canonical_string (default bd_zero (div (bd "2") (bd "3"))) = lit "0.6666666666666667".
Proof. vm_compute. reflexivity. Qed.
Example ex_mul : (to_canonical_string <$> mul (bd "1.1") (bd "1.1")) = Val (lit "1.21").
Proof. vm_compute. reflexivity. Qed.
Example ex_parse : to_canonical_string (bd "1.5e-2") = lit "0.015".
Proof. vm_compute. reflexivity. Qed.

(** * Proofs *)

(** ** Digit vectors *)

Abbreviation dig := (Forall is_digit).

Lemma digit_mod a : is_digit (a mod 10).
Proof. apply Z.mod_pos_bound. lia. Qed.

Lemma dig_bounds l : dig l -> 0 <= dval 10 l < 10 ^ zlen l.
Proof. intros. by apply dval_bounds. Qed.

Lemma dig_zeros n : dig (zreplicate n 0).
Proof. apply Forall_replicate. unfold is_digit. lia. Qed.

Lemma head_tail b : dval 10 b = head0 b + 10 * dval 10 (tail b).
Proof. by destruct b. Qed.

Lemma head_digit b : dig b -> is_digit (head0 b).
Proof. destruct 1; [unfold is_digit; simpl; lia|done]. Qed.

Lemma dig_tail b : dig b -> dig (tail b).
Proof. destruct 1; [constructor|done]. Qed.

#[local] Hint Resolve digit_mod head_digit dig_tail dig_zeros Forall_reverse : pgrs.

Lemma mag_add_go_ok n a b c :
  (length a <= n)%nat -> (length b <= n)%nat -> dig a -> dig b -> 0 <= c <= 1 ->
  dval 10 (mag_add_go n a b c) = dval 10 a + dval 10 b + c /\ dig (mag_add_go n a b c).
Proof.
  revert a b c. induction n as [|n IH]; intros a b c Ha Hb Da Db Hc.
  - destruct a, b; simpl in *; try lia. zcase; simpl; split; try lia; auto.
    constructor; [unfold is_digit; lia|constructor].
  - cbn [mag_add_go dval]. pose proof (head_digit _ Da). pose proof (head_digit _ Db).
    unfold is_digit in H, H0. set (s := head0 a + head0 b + c).
    assert (0 <= s / 10 <= 1).
    { split; [apply Z.div_pos; lia|]. apply Z.lt_succ_r, Z.div_lt_upper_bound; lia. }
    destruct (IH (tail a) (tail b) (s / 10)) as [E D]; auto with pgrs.
    { destruct a; simpl in *; lia. } { destruct b; simpl in *; lia. }
    split; [|constructor; [apply digit_mod|done]].
    rewrite E, (head_tail a), (head_tail b). pose proof (Z_div_mod_eq_full s 10). lia.
Qed.

Lemma mag_add_ok a b :
  dig a -> dig b -> dval 10 (mag_add a b) = dval 10 a + dval 10 b /\ dig (mag_add a b).
Proof.
  intros. unfold mag_add. destruct (mag_add_go_ok (Nat.max (length a) (length b)) a b 0) as [E ?];
    [lia..|done|done|lia|]. split; [lia|done].
Qed.

(** With a borrow, the difference is taken modulo [10 ^ length a]. *)
Lemma mag_sub_go_ok a b c :
  dig a -> dig b -> 0 <= c <= 1 -> dval 10 b + c <= dval 10 a ->
  dval 10 (mag_sub_go a b c) = dval 10 a - dval 10 b - c
  /\ dig (mag_sub_go a b c) /\ length (mag_sub_go a b c) = length a.
Proof.
  intros Da. revert b c. induction Da as [|x a Hx Da IH]; intros b c Db Hc Hle.
  - pose proof (dig_bounds b Db). simpl in *. split_and!; [lia|constructor|done].
  - cbn [mag_sub_go]. rewrite (head_tail b) in *. pose proof (head_digit _ Db).
    pose proof (dig_bounds _ (dig_tail _ Db)). cbn [dval] in Hle. unfold is_digit in *.
    zcase.
    + destruct (IH (tail b) 1) as (E & D & L); [auto with pgrs|lia|lia|].
      cbn [dval length]. rewrite E, L. split_and!; [lia| |done]. constructor; [unfold is_digit; lia|done].
    + destruct (IH (tail b) 0) as (E & D & L); [auto with pgrs|lia|lia|].
      cbn [dval length]. rewrite E, L. split_and!; [lia| |done]. constructor; [unfold is_digit; lia|done].
Qed.

Lemma mag_sub_ok a b :
  dig a -> dig b -> dval 10 b <= dval 10 a ->
  dval 10 (mag_sub a b) = dval 10 a - dval 10 b
  /\ dig (mag_sub a b) /\ length (mag_sub a b) = length a.
Proof. intros. destruct (mag_sub_go_ok a b 0) as (E & D & L); [done|done|lia|lia|].
  split_and!; [unfold mag_sub; lia|done|done]. Qed.

Lemma dval_take_S n (a : list Z) :
  dval 10 (take (S n) a) = dval 10 (take n a) + 10 ^ Z.of_nat n * nth n a 0.
Proof.
  revert a. induction n as [|n IH]; intros [|x a].
  - done.
  - destruct a; cbn; lia.
  - cbn [take nth dval]. lia.
  - change (x + 10 * dval 10 (take (S n) a) = x + 10 * dval 10 (take n a) + 10 ^ Z.of_nat (S n) * nth n a 0).
    rewrite IH, Nat2Z.inj_succ, Z.pow_succ_r by lia. lia.
Qed.

Lemma nth_digit n (a : list Z) : dig a -> is_digit (nth n a 0).
Proof.
  intros Ha. revert n. induction Ha; intros [|n]; simpl; auto; unfold is_digit; lia.
Qed.

Lemma dig_take_bounds n a : dig a -> 0 <= dval 10 (take n a) < 10 ^ Z.of_nat n.
Proof.
  intros. pose proof (dig_bounds (take n a) (Forall_take _ _ _ H)) as B.
  split; [lia|]. eapply Z.lt_le_trans; [apply B|]. apply Z.pow_le_mono_r; [lia|].
  unfold zlen. rewrite length_take. lia.
Qed.

Lemma mag_cmp_go_ok n a b :
  dig a -> dig b -> mag_cmp_go n a b = (dval 10 (take n a) ?= dval 10 (take n b)).
Proof.
  intros Da Db. induction n as [|n IH]; [done|]. cbn [mag_cmp_go]. rewrite !dval_take_S.
  pose proof (dig_take_bounds n a Da). pose proof (dig_take_bounds n b Db).
  pose proof (nth_digit n a Da). pose proof (nth_digit n b Db). unfold is_digit in *.
  destruct (Z.compare_spec (nth n a 0) (nth n b 0)) as [E|L|G].
  - rewrite IH, E. destruct (Z.compare_spec (dval 10 (take n a)) (dval 10 (take n b)));
      symmetry; [apply Z.compare_eq_iff|apply Z.compare_lt_iff|apply Z.compare_gt_iff]; lia.
  - symmetry. apply Z.compare_lt_iff. nia.
  - symmetry. apply Z.compare_gt_iff. nia.
Qed.

(** The effective length drops only zeros, and leaves a nonzero top digit. *)
Lemma eff_len_ok n a :
  dig a ->
  dval 10 (take (eff_len n a) a) = dval 10 (take n a)
  /\ (eff_len n a = 0%nat \/ 10 ^ (Z.of_nat (eff_len n a) - 1) <= dval 10 (take n a)).
Proof.
  intros Da. induction n as [|n [IH1 IH2]]; [by split; [|left]|]. cbn [eff_len].
  rewrite dval_take_S. pose proof (nth_digit n a Da). unfold is_digit in *. zcase.
  - rewrite Heqb, Z.mul_0_r, Z.add_0_r. split; [done|done].
  - rewrite dval_take_S. split; [done|]. right.
    replace (Z.of_nat (S n) - 1) with (Z.of_nat n) by lia.
    pose proof (dig_take_bounds n a Da).
    assert (0 < 10 ^ Z.of_nat n) by (apply Z.pow_pos_nonneg; lia). nia.
Qed.

Lemma pow10_le m n : (m <= n)%nat -> 10 ^ Z.of_nat m <= 10 ^ Z.of_nat n.
Proof. intros. apply Z.pow_le_mono_r; lia. Qed.

(** A shorter effective length is a smaller magnitude. *)
Lemma eff_len_lt a b :
  dig a -> dig b -> (eff_len (length a) a < eff_len (length b) b)%nat -> dval 10 a < dval 10 b.
Proof.
  intros Da Db Hlt. destruct (eff_len_ok (length a) a Da) as [Ea _].
  destruct (eff_len_ok (length b) b Db) as [Eb [?|Hb]]; [lia|].
  rewrite !firstn_all in *. pose proof (dig_take_bounds (eff_len (length a) a) a Da) as Ba.
  rewrite Ea in Ba. eapply Z.lt_le_trans; [apply Ba|]. eapply Z.le_trans; [|exact Hb].
  apply Z.pow_le_mono_r; lia.
Qed.

Lemma mag_cmp_ok a b : dig a -> dig b -> mag_cmp a b = (dval 10 a ?= dval 10 b).
Proof.
  intros Da Db. unfold mag_cmp. destruct (Nat.eqb_spec (eff_len (length a) a) (eff_len (length b) b)) as [E|N].
  - rewrite mag_cmp_go_ok by done. destruct (eff_len_ok (length a) a Da) as [Ea _].
    destruct (eff_len_ok (length b) b Db) as [Eb _]. rewrite E at 2. rewrite Ea, Eb.
    by rewrite !firstn_all.
  - symmetry. destruct (Nat.compare_spec (eff_len (length a) a) (eff_len (length b) b)); [done| |].
    + apply Z.compare_lt_iff. by apply eff_len_lt.
    + apply Z.compare_gt_iff. by apply eff_len_lt.
Qed.

Lemma digits_of_ok f n :
  0 <= n < 10 ^ Z.of_nat f -> dval 10 (digits_of f n) = n /\ dig (digits_of f n).
Proof.
  revert n. induction f as [|f IH]; intros n Hn.
  - simpl in *. rewrite Z.pow_0_r in Hn. split; [lia|constructor].
  - cbn [digits_of]. zcase; [|split; [simpl; lia|constructor]].
    rewrite Nat2Z.inj_succ, Z.pow_succ_r in Hn by lia.
    destruct (IH (n / 10)) as [E D].
    { split; [apply Z.div_pos; lia|]. apply Z.div_lt_upper_bound; lia. }
    cbn [dval]. rewrite E. split; [pose proof (Z_div_mod_eq_full n 10); lia|].
    constructor; [apply digit_mod|done].
Qed.

Lemma mag_scale_go_ok l q c :
  dig l -> 1 <= q <= 9 -> 0 <= c <= 8 ->
  dval 10 (mag_scale_go l q c) = dval 10 l * q + c /\ dig (mag_scale_go l q c).
Proof.
  intros Dl Hq. revert c. induction Dl as [|d l Hd Dl IH]; intros c Hc.
  - cbn [mag_scale_go dval]. unfold carry_digits.
    destruct (digits_of_ok 5 c) as [E D]; [simpl; lia|]. split; [lia|done].
  - cbn [mag_scale_go dval]. unfold is_digit in Hd. set (cur := d * q + c).
    assert (0 <= cur < 90) by nia.
    destruct (IH (cur / 10)) as [E D].
    { split; [apply Z.div_pos; lia|]. apply Z.lt_succ_r, Z.div_lt_upper_bound; lia. }
    rewrite E. split; [pose proof (Z_div_mod_eq_full cur 10); lia|].
    constructor; [apply digit_mod|done].
Qed.

Lemma mag_scale_ok l q :
  dig l -> 0 <= q <= 9 -> dval 10 (mag_scale l q) = dval 10 l * q /\ dig (mag_scale l q).
Proof.
  intros. unfold mag_scale. zcase.
  - subst. split; [simpl; lia|]. constructor; [unfold is_digit; lia|constructor].
  - destruct (mag_scale_go_ok l q 0) as [E D]; [done|lia..|]. split; [lia|done].
Qed.

(** ** Most-significant-first lists and normalization *)

Lemma mval_snoc l d : mval (l ++ [d]) = 10 * mval l + d.
Proof. unfold mval. rewrite reverse_app. simpl. lia. Qed.

Lemma mval_app l1 l2 : mval (l1 ++ l2) = mval l1 * 10 ^ zlen l2 + mval l2.
Proof. unfold mval. rewrite reverse_app, dval_app, zlen_reverse. lia. Qed.

Lemma mval_zeros n : mval (zreplicate n 0) = 0.
Proof. unfold mval, zreplicate. rewrite reverse_replicate. apply dval_replicate_0. Qed.

Lemma mval_reverse l : mval (reverse l) = dval 10 l.
Proof. unfold mval. by rewrite reverse_involutive. Qed.

Lemma mval_bounds l : dig l -> 0 <= mval l < 10 ^ zlen l.
Proof. intros. rewrite <- (zlen_reverse l). apply dig_bounds. by apply Forall_reverse. Qed.

Lemma mval_cons_zero l : mval (0 :: l) = mval l.
Proof. unfold mval. rewrite reverse_cons, dval_app. simpl. lia. Qed.

Lemma all_zero_ok l : dig l -> all_zero l = true <-> mval l = 0.
Proof.
  intros D. unfold mval. rewrite dval_zero_iff by (lia || by apply Forall_reverse).
  unfold all_zero. rewrite forallb_forall. rewrite Forall_forall. split; intros H x Hx.
  - symmetry. apply Z.eqb_eq, H. apply list_elem_of_In. by rewrite elem_of_reverse in Hx.
  - apply Z.eqb_eq. symmetry. apply H. rewrite elem_of_reverse. by apply list_elem_of_In.
Qed.

Lemma strip_lead_ok n l :
  n <= zlen l -> dig l ->
  mval (strip_lead n l) = mval l /\ dig (strip_lead n l)
  /\ (l <> [] -> strip_lead n l <> []).
Proof.
  revert n. induction l as [|d l IH]; intros n Hn D; [done|].
  cbn [strip_lead]. rewrite zlen_cons in Hn. inversion D; subst. zcase; [|done]. subst.
  destruct (IH (n - 1)) as (E & D' & NE); [lia|done|].
  rewrite E, mval_cons_zero. split_and!; [done|done|]. intros _. apply NE. intros ->.
  change (zlen []) with 0 in Hn. lia.
Qed.

Lemma trim_ok l :
  dig l -> mval (trim_leading_zeros l) = mval l /\ dig (trim_leading_zeros l).
Proof. intros. destruct (strip_lead_ok (zlen l) l) as (? & ? & _); [lia|done|done]. Qed.

Definition signed (neg : bool) (v : Z) : Z := (if neg then -1 else 1) * v.

Lemma or_zero_ok ds : dig ds -> dig (or_zero ds) /\ mval (or_zero ds) = mval ds /\ or_zero ds <> [].
Proof.
  intros. destruct ds; [|done].
  split_and!; [constructor; [unfold is_digit; lia|constructor]|done|done].
Qed.

Lemma normalize_ok neg ds sc :
  dig ds -> 0 <= sc ->
  let d := normalize (mk_bd neg ds sc) in
  bd_wf d /\ scale d = sc /\ unscaled d = signed neg (mval ds).
Proof.
  intros D Hs d. destruct (or_zero_ok ds D) as (D' & E' & N').
  unfold d, normalize. clear d. cbn [digits negative scale]. set (ds' := or_zero ds) in *.
  destruct (strip_lead_ok (Z.max 0 (zlen ds' - sc)) ds') as (E & DD & NE);
    [pose proof (zlen_nonneg ds'); lia|done|].
  set (l := strip_lead _ ds') in *. clearbody l. rewrite E' in E.
  pose proof (all_zero_ok l DD) as AZ. unfold unscaled, signed. cbn [negative digits scale].
  destruct (all_zero l).
  - assert (mval l = 0) as Z0 by tauto. rewrite <- E, Z0.
    split_and!; [split; [done|auto|done|done]|done|lia].
  - rewrite E. split_and!; [split; [done|auto|done|]|done|done].
    unfold unscaled. cbn [negative digits]. intros HZ. destruct neg; [|done].
    assert (mval l = 0) as Z0 by lia. rewrite <- AZ in Z0. done.
Qed.

Lemma from_lsf_ok neg lsf sc :
  dig lsf -> 0 <= sc ->
  let d := from_lsf neg lsf sc in
  bd_wf d /\ scale d = sc /\ unscaled d = signed neg (dval 10 lsf).
Proof.
  intros. subst d. unfold from_lsf. rewrite <- mval_reverse.
  apply normalize_ok; [by apply Forall_reverse|done].
Qed.

Lemma is_zero_ok x : bd_wf x -> is_zero x = true <-> mval (digits x) = 0.
Proof. intros W. apply all_zero_ok, W. Qed.

Lemma aligned_ok x t :
  bd_wf x -> scale x <= t ->
  dval 10 (aligned_lsf x t) = mval (digits x) * 10 ^ (t - scale x) /\ dig (aligned_lsf x t).
Proof.
  intros W Ht. pose proof (wf_digits _ W) as D. unfold aligned_lsf. zcase.
  - rewrite dval_app, zlen_replicate by lia. unfold zreplicate at 1. rewrite dval_replicate_0.
    split; [unfold mval; lia|]. apply Forall_app. split; [apply dig_zeros|by apply Forall_reverse].
  - assert (t = scale x) as -> by lia. rewrite Z.sub_diag, Z.mul_1_r.
    split; [done|by apply Forall_reverse].
Qed.

Lemma at_scale_signed x t :
  bd_wf x -> scale x <= t -> at_scale x t = signed (negative x) (dval 10 (aligned_lsf x t)).
Proof.
  intros W Ht. destruct (aligned_ok x t W Ht) as [E _]. rewrite E.
  unfold at_scale, unscaled, signed. lia.
Qed.

Lemma neg_ok x : bd_wf x -> bd_wf (neg x) /\ scale (neg x) = scale x /\ unscaled (neg x) = - unscaled x.
Proof.
  intros W. pose proof (is_zero_ok x W) as Z. unfold neg. destruct (is_zero x).
  - assert (mval (digits x) = 0) as E by tauto. split_and!; [done|done|]. unfold unscaled. rewrite E. lia.
  - unfold unscaled. cbn [negative digits scale].
    split_and!; [|done|destruct (negative x); cbn [negb]; lia].
    destruct W as [W1 W2 W3 W4]. split; [done|done|done|]. unfold unscaled in *. cbn [negative digits].
    intros H. assert (mval (digits x) = 0) as HZ by (destruct (negative x); cbn [negb] in *; lia).
    apply Z in HZ. done.
Qed.

Lemma add_ok x y :
  bd_wf x -> bd_wf y ->
  let s := Z.max (scale x) (scale y) in
  bd_wf (add x y) /\ scale (add x y) = s /\ unscaled (add x y) = at_scale x s + at_scale y s.
Proof.
  intros Wx Wy s. pose proof (wf_scale _ Wx). pose proof (wf_scale _ Wy).
  rewrite (at_scale_signed x s), (at_scale_signed y s) by (lia || done).
  destruct (aligned_ok x s Wx ltac:(lia)) as [_ Da]. destruct (aligned_ok y s Wy ltac:(lia)) as [_ Db].
  unfold add. fold s. set (a := aligned_lsf x s) in *. set (b := aligned_lsf y s) in *.
  destruct (Bool.eqb_spec (negative x) (negative y)) as [<-|Hn].
  - destruct (mag_add_ok a b Da Db) as [E D].
    destruct (from_lsf_ok (negative x) (mag_add a b) s D ltac:(lia)) as (W & S & U).
    rewrite U, E. split_and!; [done|done|unfold signed; lia].
  - assert (negative y = negb (negative x)) as -> by (by destruct (negative x), (negative y)).
    rewrite mag_cmp_ok by done. destruct (Z.compare_spec (dval 10 a) (dval 10 b)) as [E|L|G].
    + destruct (from_lsf_ok false (zreplicate (s + 1) 0) s (dig_zeros _) ltac:(lia)) as (W & S & U).
      rewrite U. unfold zreplicate. rewrite dval_replicate_0.
      split_and!; [done|done|destruct (negative x); unfold signed; cbn [negb]; lia].
    + destruct (mag_sub_ok b a Db Da) as (E & D & _); [lia|].
      destruct (from_lsf_ok (negb (negative x)) (mag_sub b a) s D ltac:(lia)) as (W & S & U).
      rewrite U, E. split_and!; [done|done|destruct (negative x); unfold signed; cbn [negb]; lia].
    + destruct (mag_sub_ok a b Da Db) as (E & D & _); [lia|].
      destruct (from_lsf_ok (negative x) (mag_sub a b) s D ltac:(lia)) as (W & S & U).
      rewrite U, E. split_and!; [done|done|destruct (negative x); unfold signed; cbn [negb]; lia].
Qed.

Lemma sub_ok x y :
  bd_wf x -> bd_wf y ->
  let s := Z.max (scale x) (scale y) in
  bd_wf (sub x y) /\ scale (sub x y) = s /\ unscaled (sub x y) = at_scale x s - at_scale y s.
Proof.
  intros Wx Wy s. destruct (neg_ok y Wy) as (Wn & Sn & Un).
  destruct (add_ok x (neg y) Wx Wn) as (W & S & U). unfold sub. rewrite Sn in *. fold s in S, U.
  rewrite U. split_and!; [done|done|]. unfold at_scale. rewrite Un, Sn. lia.
Qed.

(** ** Multiplication *)

Lemma dval_insert (k : nat) (l : list Z) p v :
  l !! k = Some p -> dval 10 (<[k := v]> l) = dval 10 l + (v - p) * 10 ^ Z.of_nat k.
Proof.
  revert k. induction l as [|d l IH]; intros [|k] Hk; cbn in Hk; [done|done| |].
  - injection Hk as ->. cbn [insert list_insert dval]. rewrite Z.pow_0_r. lia.
  - change (<[S k := v]> (d :: l)) with (d :: <[k := v]> l). cbn [dval].
    rewrite IH, Nat2Z.inj_succ, Z.pow_succ_r by (done || lia). lia.
Qed.

Lemma dig_lookup (l : list Z) (k : nat) p : dig l -> l !! k = Some p -> 0 <= p < 10.
Proof. intros D H. by apply (Forall_lookup_1 is_digit l k p). Qed.

Lemma dig_insert (l : list Z) (k : nat) c : dig l -> dig (<[k := c mod 10]> l).
Proof. intros. apply Forall_insert; [done|apply digit_mod]. Qed.

Lemma mul_inner_ok x c b k prod :
  is_digit x -> dig b -> dig prod -> 0 <= c <= 9 -> (k + length b <= length prod)%nat ->
  exists prod' c', mul_inner x c b k prod = Val (prod', c')
    /\ dig prod' /\ length prod' = length prod /\ 0 <= c' <= 9
    /\ dval 10 prod' + c' * 10 ^ Z.of_nat (k + length b)
       = dval 10 prod + (x * dval 10 b + c) * 10 ^ Z.of_nat k.
Proof.
  intros Hx Db. revert c k prod. induction Db as [|y b Hy Db IH]; intros c k prod Dp Hc Hk.
  - exists prod, c. cbn [mul_inner length dval]. rewrite Nat.add_0_r. split_and!; [done..|lia|lia|lia].
  - cbn [mul_inner length dval] in *.
    destruct (lookup_lt_is_Some_2 prod k) as [p Hp]; [lia|]. rewrite Hp. cbn [expect mbind run_bind].
    pose proof (dig_lookup _ _ _ Dp Hp). unfold is_digit in Hx, Hy. set (cur := p + x * y + c).
    assert (0 <= cur < 100) by nia.
    destruct (IH (cur / 10) (S k) (<[k := cur mod 10]> prod)) as (prod' & c' & E & D & L & Hc' & V).
    { by apply dig_insert. }
    { split; [apply Z.div_pos; lia|]. apply Z.lt_succ_r, Z.div_lt_upper_bound; lia. }
    { rewrite length_insert. lia. }
    exists prod', c'. rewrite length_insert in L. split_and!; [done..|lia|lia|].
    rewrite <- Nat.add_succ_comm. rewrite V, (dval_insert k _ p) by done.
    rewrite Nat2Z.inj_succ, Z.pow_succ_r by lia. pose proof (Z_div_mod_eq_full cur 10). nia.
Qed.

Lemma mul_carry_ok fuel c k prod :
  dig prod -> 0 <= c <= 9 -> (length prod <= k + fuel)%nat ->
  dval 10 prod + c * 10 ^ Z.of_nat k < 10 ^ zlen prod ->
  exists prod', mul_carry fuel c k prod = Val prod'
    /\ dig prod' /\ length prod' = length prod
    /\ dval 10 prod' = dval 10 prod + c * 10 ^ Z.of_nat k.
Proof.
  revert c k prod. induction fuel as [|fuel IH]; intros c k prod Dp Hc Hf Hlt.
  all: cbn [mul_carry]; zcase; [|exists prod; split_and!; [done..|replace c with 0 by lia; lia]].
  all: pose proof (dig_bounds _ Dp).
  all: assert (k < length prod)%nat by (destruct (decide (length prod <= k)%nat) as [G|]; [|lia];
    apply pow10_le in G; fold (zlen prod) in G; nia).
  - lia.
  - destruct (lookup_lt_is_Some_2 prod k) as [p Hp]; [lia|]. rewrite Hp. cbn [expect mbind run_bind].
    pose proof (dig_lookup _ _ _ Dp Hp). set (cur := p + c).
    assert (10 * (cur / 10) + cur mod 10 = p + c) by (pose proof (Z_div_mod_eq_full cur 10); lia).
    assert (dval 10 (<[k:=cur mod 10]> prod) + cur / 10 * 10 ^ Z.of_nat (S k)
            = dval 10 prod + c * 10 ^ Z.of_nat k) as V.
    { rewrite (dval_insert k _ p), Nat2Z.inj_succ, Z.pow_succ_r by (done || lia). nia. }
    destruct (IH (cur / 10) (S k) (<[k := cur mod 10]> prod)) as (prod' & E & D & L & V').
    { by apply dig_insert. }
    { split; [apply Z.div_pos; lia|]. apply Z.lt_succ_r, Z.div_lt_upper_bound; lia. }
    { rewrite length_insert. lia. } { rewrite V, zlen_insert. lia. }
    exists prod'. rewrite length_insert in L. split_and!; [done..|lia].
Qed.

Lemma mul_outer_ok a i b prod A :
  dig a -> dig b -> dig prod -> (i + length a + length b <= length prod)%nat ->
  0 <= A < 10 ^ Z.of_nat i -> dval 10 prod = A * dval 10 b ->
  exists prod', mul_outer a i b prod = Val prod' /\ dig prod'
    /\ dval 10 prod' = (A + 10 ^ Z.of_nat i * dval 10 a) * dval 10 b.
Proof.
  intros Da Db. revert i prod A. induction Da as [|x a Hx Da IH]; intros i prod A Dp Hl HA HV.
  - exists prod. cbn. split_and!; [done|done|lia].
  - cbn [mul_outer length dval] in *.
    destruct (mul_inner_ok x 0 b i prod) as (p1 & c1 & E1 & D1 & L1 & Hc1 & V1); [done..|lia|lia|].
    rewrite E1. cbn [mbind run_bind]. pose proof (dig_bounds _ Db). unfold is_digit in Hx.
    assert (0 <= (A + x * 10 ^ Z.of_nat i) < 10 ^ Z.of_nat (S i)) as HA'.
    { rewrite Nat2Z.inj_succ, Z.pow_succ_r by lia. nia. }
    assert (dval 10 prod + (x * dval 10 b + 0) * 10 ^ Z.of_nat i
            = (A + x * 10 ^ Z.of_nat i) * dval 10 b) as V2 by (rewrite HV; lia).
    assert ((A + x * 10 ^ Z.of_nat i) * dval 10 b < 10 ^ zlen p1) as B.
    { eapply Z.lt_le_trans with (10 ^ Z.of_nat (S i) * 10 ^ zlen b); [nia|].
      rewrite <- Z.pow_add_r by (unfold zlen; lia). apply Z.pow_le_mono_r; [lia|]. unfold zlen. lia. }
    destruct (mul_carry_ok (length p1) c1 (i + length b) p1) as (p2 & E2 & D2 & L2 & V3);
      [done|lia|lia|lia|].
    rewrite E2. cbn [mbind run_bind].
    destruct (IH (S i) p2 (A + x * 10 ^ Z.of_nat i)) as (p3 & E3 & D3 & V4); [done|lia|lia|lia|].
    exists p3. split_and!; [done..|]. rewrite V4, Nat2Z.inj_succ, Z.pow_succ_r by lia. lia.
Qed.

Lemma mul_ok x y :
  bd_wf x -> bd_wf y ->
  exists d, mul x y = Val d /\ bd_wf d
    /\ (unscaled d = 0 \/ scale d = scale x + scale y)
    /\ at_scale d (scale x + scale y) = unscaled x * unscaled y.
Proof.
  intros Wx Wy. pose proof (is_zero_ok x Wx) as Zx. pose proof (is_zero_ok y Wy) as Zy.
  pose proof (wf_scale _ Wx). pose proof (wf_scale _ Wy). unfold mul.
  destruct (is_zero x || is_zero y) eqn:Hz.
  - exists bd_zero. split_and!; [done| |by left|].
    + split; [|done|cbn; lia|done]. constructor; [unfold is_digit; lia|constructor].
    + unfold at_scale, unscaled. change (mval (digits bd_zero)) with 0.
      apply orb_prop in Hz as [Hz|Hz]; [rewrite (proj1 Zx Hz)|rewrite (proj1 Zy Hz)]; lia.
  - destruct (mul_outer_ok (reverse (digits x)) 0 (reverse (digits y))
      (replicate (length (reverse (digits x)) + length (reverse (digits y))) 0) 0)
      as (p & E & D & V); [apply Forall_reverse, Wx|apply Forall_reverse, Wy| | | | |].
    { apply Forall_replicate. unfold is_digit. lia. } { rewrite length_replicate. lia. }
    { cbn. lia. } { rewrite dval_replicate_0. lia. }
    rewrite E. cbn [mbind run_bind].
    destruct (from_lsf_ok (negb (Bool.eqb (negative x) (negative y))) p (scale x + scale y) D ltac:(lia))
      as (W & S & U).
    eexists. split_and!; [done|done|by right|]. unfold at_scale. rewrite S, Z.sub_diag, Z.mul_1_r.
    rewrite U, V. unfold signed, unscaled, mval. rewrite Z.pow_0_r.
    destruct (negative x), (negative y); cbn [Bool.eqb negb]; lia.
Qed.

(** ** Long division *)

Lemma fits_ok den rem q :
  dig den -> dig rem -> 0 <= q <= 9 -> fits den rem q = (dval 10 den * q <=? dval 10 rem).
Proof.
  intros Dd Dr Hq. destruct (mag_scale_ok den q Dd Hq) as [E D]. unfold fits.
  rewrite mag_cmp_ok, E by done.
  destruct (Z.compare_spec (dval 10 den * q) (dval 10 rem)); symmetry;
    [apply Z.leb_le|apply Z.leb_le|apply Z.leb_gt]; lia.
Qed.

(** The binary search finds the largest digit [q] with [den * q <= rem]. *)
Lemma q_search_ok fuel den rem lo hi q Q :
  dig den -> dig rem -> 0 <= Q <= 9 ->
  (forall k, 0 <= k <= 9 -> fits den rem k = (k <=? Q)) ->
  0 <= lo -> hi <= 9 -> Z.of_nat fuel > hi - lo -> lo - 1 <= Q <= hi ->
  (lo = 0 /\ 0 <= Q /\ q = 0 \/ q = lo - 1) -> q_search fuel den rem lo hi q = Q.
Proof.
  intros Dd Dr HQ HF. revert lo hi q. induction fuel as [|fuel IH]; intros lo hi q Hlo Hhi Hf HQb Hq.
  - cbn. lia.
  - cbn [q_search]. zcase; [|lia].
    assert (lo <= (lo + hi) / 2 <= hi).
    { split; [apply Z.div_le_lower_bound|apply Z.div_le_upper_bound]; lia. }
    set (mid := (lo + hi) / 2) in *. rewrite HF by lia. zcase.
    + zcase; [lia|]. apply IH; lia.
    + zcase; [lia|]. apply IH; lia.
Qed.

Lemma q_linear_ok cand den rem Q :
  (forall k, 0 <= k <= Z.of_nat cand -> fits den rem k = (k <=? Q)) ->
  0 <= Q <= Z.of_nat cand -> q_linear cand den rem = Q.
Proof.
  induction cand as [|c IH]; intros HF HQ; cbn [q_linear]; rewrite HF by lia; zcase; try lia.
  apply IH; [intros; apply HF; lia|lia].
Qed.

Lemma fits_quot den rem :
  dig den -> dig rem -> 0 < dval 10 den -> dval 10 rem < 10 * dval 10 den ->
  0 <= dval 10 rem / dval 10 den <= 9 /\
  forall k, 0 <= k <= 9 -> fits den rem k = (k <=? dval 10 rem / dval 10 den).
Proof.
  intros Dd Dr Hd Hr. pose proof (dig_bounds _ Dr). split.
  - split; [apply Z.div_pos; lia|]. apply Z.lt_succ_r, Z.div_lt_upper_bound; lia.
  - intros k Hk. rewrite fits_ok by done. apply Bool.eq_iff_eq_true. rewrite !Z.leb_le. split; intros.
    + by apply Z.div_le_lower_bound.
    + pose proof (Z.mul_div_le (dval 10 rem) (dval 10 den) Hd). nia.
Qed.

(** One step of either division loop, once its search has found the quotient. *)
Lemma sub_step_ok den rem (v d : Z) :
  dig den -> dig rem -> 0 < dval 10 den -> mval rem < dval 10 den -> is_digit d ->
  v = 10 * mval rem + d ->
  let rem_lsf := reverse (trim_leading_zeros (rem ++ [d])) in
  let rem' := trim_leading_zeros (reverse (mag_sub rem_lsf (mag_scale den (v / dval 10 den)))) in
  dig rem_lsf /\ dval 10 rem_lsf = v /\ dig rem' /\ mval rem' = v mod dval 10 den.
Proof.
  intros Dd Dr Hd Hr Hdig Hv. unfold is_digit in Hdig. cbv zeta.
  assert (dig (rem ++ [d])) as D0 by (apply Forall_app; split; [done|by constructor]).
  destruct (trim_ok _ D0) as [E1 D1]. rewrite mval_snoc, <- Hv in E1.
  set (t := trim_leading_zeros (rem ++ [d])) in *. clearbody t.
  assert (0 <= v / dval 10 den <= 9).
  { pose proof (mval_bounds _ Dr). split; [apply Z.div_pos; lia|].
    apply Z.lt_succ_r, Z.div_lt_upper_bound; lia. }
  destruct (mag_scale_ok den (v / dval 10 den) Dd) as [E2 D2]; [lia|].
  pose proof (Z_div_mod_eq_full v (dval 10 den)). pose proof (Z.mod_pos_bound v (dval 10 den) Hd).
  destruct (mag_sub_ok (reverse t) (mag_scale den (v / dval 10 den))) as (E3 & D3 & _);
    [by apply Forall_reverse|done|rewrite E2; fold (mval t); lia|].
  destruct (trim_ok (reverse (mag_sub (reverse t) (mag_scale den (v / dval 10 den))))) as [E4 D4];
    [by apply Forall_reverse|].
  fold (mval t) in E3 |- *. rewrite E4, mval_reverse, E3, E2.
  split_and!; [by apply Forall_reverse|done|done|lia].
Qed.

Lemma long_div_ok den rem num :
  dig den -> dig rem -> dig num -> 0 < dval 10 den -> mval rem < dval 10 den ->
  let Q := long_div den rem num in
  length Q = length num /\ dig Q
  /\ mval Q = (mval rem * 10 ^ zlen num + mval num) / dval 10 den.
Proof.
  intros Dd Dr Dn Hd. cbv zeta. revert rem Dr.
  induction Dn as [|d num Hdig Dn IH]; intros rem Dr Hr.
  - cbn [long_div]. change (zlen []) with 0. change (mval []) with 0. rewrite Z.pow_0_r.
    pose proof (mval_bounds _ Dr). rewrite Z.div_small by lia. split_and!; [done|constructor|done].
  - cbn [long_div]. unfold div_step.
    set (v := 10 * mval rem + d).
    destruct (sub_step_ok den rem v d) as (D1 & E1 & D2 & E2); [done..|].
    set (rl := reverse (trim_leading_zeros (rem ++ [d]))) in *. clearbody rl.
    pose proof (mval_bounds _ Dr). pose proof Hdig as Hdig'. unfold is_digit in Hdig'.
    destruct (fits_quot den rl) as [Hq HF]; [done|done|done|lia|]. rewrite E1 in Hq, HF.
    rewrite (q_search_ok 10 den rl 0 9 0 (v / dval 10 den)) by (done || lia).
    set (rem' := trim_leading_zeros _) in *. clearbody rem'.
    destruct (IH rem' D2) as (L & D & V).
    { rewrite E2. by apply Z.mod_pos_bound. }
    cbn [length]. rewrite L. split_and!; [done|constructor; [unfold is_digit; lia|done]|].
    change (v / dval 10 den :: long_div den rem' num) with ([v / dval 10 den] ++ long_div den rem' num).
    change (d :: num) with ([d] ++ num). rewrite !mval_app, V, E2, zlen_app.
    change (zlen [d]) with 1. change (mval [d]) with (d + 10 * 0).
    change (mval [v / dval 10 den]) with (v / dval 10 den + 10 * 0).
    replace (zlen (long_div den rem' num)) with (zlen num) by (unfold zlen; by rewrite L).
    rewrite Z.pow_add_r by (pose proof (zlen_nonneg num); lia).
    rewrite <- Z.div_add_l by lia. f_equal. pose proof (Z_div_mod_eq_full v (dval 10 den)). nia.
Qed.

(** Round [n / d] half up to an integer. *)
Definition round_half_up (n d : Z) : Z := (2 * n + d) / (2 * d).

Lemma round_half_up_scale n d n' d' m :
  0 < d -> 0 < d' -> 0 < m -> n' * m = 10 * n -> d' * m = d ->
  ((n' / d') + 5) / 10 = round_half_up n d.
Proof.
  intros Hd Hd' Hm En Ed. unfold round_half_up.
  replace (n' / d' + 5) with ((n' + 5 * d') / d') by (rewrite Z.div_add by lia; lia).
  rewrite Z.div_div by lia. rewrite <- (Z.div_mul_cancel_r (n' + 5 * d') (d' * 10) m) by lia.
  rewrite <- (Z.div_mul_cancel_r (2 * n + d) (2 * d) 5) by lia. f_equal; lia.
Qed.

Lemma finish_div_ok neg num den t :
  dig num -> num <> [] -> dig den -> 0 < mval den -> 0 <= t ->
  let d := finish_div neg num den t in
  bd_wf d /\ scale d = t /\ unscaled d = signed neg ((mval num / mval den + 5) / 10).
Proof.
  intros Dn Nn Dd Hd Ht d. unfold d, finish_div. clear d.
  destruct (long_div_ok (reverse den) [0] num) as (L & D & V); [by apply Forall_reverse| |done..|].
  { constructor; [unfold is_digit; lia|constructor]. }
  set (Q := long_div (reverse den) [0] num) in *. clearbody Q.
  change (mval [0]) with 0 in V. fold (mval den) in V. rewrite Z.mul_0_l, Z.add_0_l in V.
  destruct Q as [|q Q _] using rev_ind.
  { destruct num; [done|]. discriminate L. }
  rewrite last_snoc. cbn [default option_map id from_option].
  replace (length (Q ++ [q]) - 1)%nat with (length Q) by (rewrite length_app; cbn; lia).
  rewrite take_app_length. apply Forall_app in D as [DQ Dq]. inversion Dq as [|? ? Hq _]; subst.
  rewrite mval_snoc in V. unfold is_digit in Hq.
  destruct (or_zero_ok (reverse Q)) as (D1 & E1 & _); [by apply Forall_reverse|].
  assert (dval 10 (or_zero (reverse Q)) = mval Q) as E2.
  { destruct Q using rev_ind; [done|]. rewrite reverse_app. cbn [or_zero reverse app].
    unfold mval. rewrite reverse_app. done. }
  rewrite <- V. set (l := or_zero (reverse Q)) in *. clearbody l. zcase.
  - destruct (mag_add_ok l [1]) as [E3 D3]; [done|constructor; [unfold is_digit; lia|constructor]|].
    change (dval 10 [1]) with 1 in E3.
    destruct (from_lsf_ok neg (mag_add l [1]) t D3 Ht) as (W & S & U). rewrite U, E3, E2.
    split_and!; [done|done|]. f_equal. apply (Z.div_unique _ 10 _ (q - 5)); lia.
  - destruct (from_lsf_ok neg l t D1 Ht) as (W & S & U). rewrite U, E2.
    split_and!; [done|done|]. f_equal. apply (Z.div_unique _ 10 _ (q + 5)); lia.
Qed.

Lemma nonzero_pos x : bd_wf x -> is_zero x = false -> 0 < mval (digits x).
Proof.
  intros W H. pose proof (mval_bounds _ (wf_digits _ W)).
  destruct (decide (mval (digits x) = 0)) as [E|]; [|lia].
  apply (is_zero_ok x W) in E. congruence.
Qed.

Lemma div_scale_ok x y t :
  bd_wf x -> bd_wf y -> 0 <= t -> is_zero y = false ->
  exists d, div_scale x y t = Some d /\ bd_wf d /\ scale d = t
    /\ unscaled d = signed (negb (Bool.eqb (negative x) (negative y)))
         (round_half_up (mval (digits x) * 10 ^ (t + scale y)) (mval (digits y) * 10 ^ scale x)).
Proof.
  intros Wx Wy Ht Hy. pose proof (nonzero_pos _ Wy Hy). unfold div_scale. rewrite Hy.
  pose proof (wf_scale _ Wx). pose proof (wf_scale _ Wy). pose proof (wf_digits _ Wx).
  pose proof (wf_digits _ Wy).
  assert (0 < mval (digits y) * 10 ^ scale x) as HB by (apply Z.mul_pos_pos; [lia|apply Z.pow_pos_nonneg; lia]).
  destruct (is_zero x) eqn:Hx.
  - apply (is_zero_ok x Wx) in Hx. rewrite Hx.
    destruct (from_lsf_ok false (zreplicate (Z.max t 1) 0) t (dig_zeros _) Ht) as (W & S & U).
    eexists. split_and!; [done|done|done|]. rewrite U. unfold zreplicate. rewrite dval_replicate_0.
    unfold signed, round_half_up. rewrite Z.mul_0_l, Z.mul_0_r, Z.add_0_l, Z.div_small by lia.
    destruct (Bool.eqb (negative x) (negative y)); cbn [negb]; lia.
  - pose proof (nonzero_pos _ Wx Hx). zcase.
    + set (sh := t + 1 + scale y - scale x) in *.
      destruct (finish_div_ok (negb (Bool.eqb (negative x) (negative y)))
        (digits x ++ zreplicate sh 0) (digits y) t) as (W & S & U); [|by destruct (digits x)|done..|].
      { apply Forall_app. split; [done|apply dig_zeros]. }
      eexists. split_and!; [done|done|done|]. rewrite U. f_equal.
      apply (round_half_up_scale _ _ _ _ (10 ^ scale x)); [done..|apply Z.pow_pos_nonneg; lia| |done].
      rewrite mval_app, mval_zeros, zlen_replicate, Z.add_0_r by lia.
      rewrite <- Z.mul_assoc, <- Z.pow_add_r by lia.
      replace (sh + scale x) with (Z.succ (t + scale y)) by lia. rewrite Z.pow_succ_r by lia. lia.
    + set (sh := t + 1 + scale y - scale x) in *.
      assert (mval (digits y ++ zreplicate (- sh) 0) = mval (digits y) * 10 ^ (- sh)) as EY.
      { rewrite mval_app, mval_zeros, zlen_replicate by lia. lia. }
      destruct (finish_div_ok (negb (Bool.eqb (negative x) (negative y)))
        (digits x) (digits y ++ zreplicate (- sh) 0) t) as (W & S & U); [done|apply Wx| | |done|].
      { apply Forall_app. split; [done|apply dig_zeros]. }
      { rewrite EY. apply Z.mul_pos_pos; [lia|apply Z.pow_pos_nonneg; lia]. }
      eexists. split_and!; [done|done|done|]. rewrite U. f_equal. rewrite EY.
      apply (round_half_up_scale _ _ _ _ (10 ^ (Z.succ (t + scale y)))); [done| | | |].
      { apply Z.mul_pos_pos; [lia|apply Z.pow_pos_nonneg; lia]. }
      { apply Z.pow_pos_nonneg; lia. }
      { rewrite Z.pow_succ_r by lia. lia. }
      rewrite <- Z.mul_assoc, <- Z.pow_add_r by lia. do 2 f_equal. lia.
Qed.

(** ** Remainder and comparison *)

Lemma rem_loop_ok den rem num :
  dig den -> dig rem -> dig num -> 0 < dval 10 den -> mval rem < dval 10 den ->
  dig (rem_loop den rem num)
  /\ mval (rem_loop den rem num) = (mval rem * 10 ^ zlen num + mval num) mod dval 10 den.
Proof.
  intros Dd Dr Dn Hd. revert rem Dr. induction Dn as [|d num Hdig Dn IH]; intros rem Dr Hr.
  - cbn [rem_loop]. change (zlen []) with 0. change (mval []) with 0.
    pose proof (mval_bounds _ Dr). rewrite Z.pow_0_r, Z.mod_small by lia. split; [done|lia].
  - cbn [rem_loop]. set (v := 10 * mval rem + d).
    destruct (sub_step_ok den rem v d) as (D1 & E1 & D2 & E2); [done..|].
    set (rl := reverse (trim_leading_zeros (rem ++ [d]))) in *. clearbody rl.
    pose proof (mval_bounds _ Dr). pose proof Hdig as Hdig'. unfold is_digit in Hdig'.
    destruct (fits_quot den rl) as [Hq HF]; [done|done|done|lia|]. rewrite E1 in Hq, HF.
    rewrite (q_linear_ok 9 den rl (v / dval 10 den)) by (done || lia).
    set (rem' := trim_leading_zeros _) in *. clearbody rem'.
    destruct (IH rem' D2) as (D & V). { rewrite E2. by apply Z.mod_pos_bound. }
    split; [done|]. rewrite V, E2. change (d :: num) with ([d] ++ num). rewrite mval_app, zlen_app.
    change (zlen [d]) with 1. change (mval [d]) with (d + 10 * 0).
    rewrite Z.pow_add_r by (pose proof (zlen_nonneg num); lia).
    rewrite Zplus_mod, Zmult_mod_idemp_l, <- Zplus_mod. f_equal. lia.
Qed.

Lemma bd_rem_ok x y :
  bd_wf x -> bd_wf y -> is_zero y = false ->
  let s := Z.max (scale x) (scale y) in
  exists d, bd_rem x y = Some d /\ bd_wf d /\ scale d = s
    /\ unscaled d = Z.rem (at_scale x s) (at_scale y s).
Proof.
  intros Wx Wy Hy s. pose proof (wf_scale _ Wx). pose proof (wf_scale _ Wy).
  pose proof (nonzero_pos _ Wy Hy). unfold bd_rem. rewrite Hy. fold s.
  destruct (aligned_ok x s Wx ltac:(lia)) as [Ea Da]. destruct (aligned_ok y s Wy ltac:(lia)) as [Eb Db].
  assert (0 < dval 10 (aligned_lsf y s)).
  { rewrite Eb. apply Z.mul_pos_pos; [lia|]. apply Z.pow_pos_nonneg; lia. }
  destruct (rem_loop_ok (aligned_lsf y s) [0] (reverse (aligned_lsf x s))) as [D V];
    [done| |by apply Forall_reverse|done|done|].
  { constructor; [unfold is_digit; lia|constructor]. }
  change (mval [0]) with 0 in V. rewrite Z.mul_0_l, Z.add_0_l, mval_reverse in V.
  set (r := rem_loop _ _ _) in *. clearbody r.
  destruct (from_lsf_ok (negative x) (reverse r) s) as (W & S & U); [by apply Forall_reverse|lia|].
  eexists. split_and!; [done|done|done|]. rewrite U. fold (mval r). rewrite V.
  rewrite (at_scale_signed x s), (at_scale_signed y s) by (done || lia).
  pose proof (dig_bounds _ Da). unfold signed.
  assert (forall a b, 0 <= a -> 0 < b -> Z.rem a (-1 * b) = Z.rem a b) as R1.
  { intros. replace (-1 * b) with (- b) by lia. apply Z.rem_opp_r'. }
  assert (forall a b, Z.rem (-1 * a) b = - Z.rem a b) as R2.
  { intros. replace (-1 * a) with (- a) by lia. apply Z.rem_opp_l'. }
  destruct (negative x), (negative y); rewrite ?R2, ?Z.mul_1_l, ?R1, ?Z.rem_mod_nonneg by lia; lia.
Qed.

Lemma compare_mult a b m : 0 < m -> (a * m ?= b * m) = (a ?= b).
Proof. intros. symmetry. by apply Zmult_compare_compat_r, Z.lt_gt. Qed.

Lemma at_scale_mono x s t : scale x <= s <= t -> at_scale x t = at_scale x s * 10 ^ (t - s).
Proof.
  intros. unfold at_scale. rewrite <- Z.mul_assoc, <- Z.pow_add_r by lia. do 2 f_equal. lia.
Qed.

(** A negative decimal is not zero. *)
Lemma negative_pos x s :
  bd_wf x -> scale x <= s -> negative x = true -> 0 < dval 10 (aligned_lsf x s).
Proof.
  intros W Hs N. destruct (aligned_ok x s W Hs) as [E _]. rewrite E.
  pose proof (mval_bounds _ (wf_digits _ W)) as B. apply Z.mul_pos_pos; [|apply Z.pow_pos_nonneg; lia].
  destruct (decide (mval (digits x) = 0)) as [Z0|]; [|lia].
  pose proof (wf_sign _ W) as Sg. unfold unscaled in Sg. rewrite Z0, Z.mul_0_r, N in Sg.
  discriminate (Sg eq_refl).
Qed.

Lemma bd_cmp_max x y :
  bd_wf x -> bd_wf y ->
  bd_cmp x y = (at_scale x (Z.max (scale x) (scale y)) ?= at_scale y (Z.max (scale x) (scale y))).
Proof.
  intros Wx Wy. set (s := Z.max (scale x) (scale y)).
  rewrite (at_scale_signed x s), (at_scale_signed y s) by (done || lia).
  destruct (aligned_ok x s Wx ltac:(lia)) as [Ea Da]. destruct (aligned_ok y s Wy ltac:(lia)) as [Eb Db].
  pose proof (is_zero_ok x Wx) as Zx. pose proof (is_zero_ok y Wy) as Zy.
  pose proof (negative_pos x s Wx ltac:(lia)) as Nx. pose proof (negative_pos y s Wy ltac:(lia)) as Ny.
  pose proof (dig_bounds _ Da). pose proof (dig_bounds _ Db).
  unfold bd_cmp. fold s. destruct (is_zero x && is_zero y) eqn:Hz.
  - apply andb_prop in Hz as [Hx Hy]. rewrite (proj1 Zx Hx) in Ea. rewrite (proj1 Zy Hy) in Eb.
    rewrite Ea, Eb. unfold signed. destruct (negative x), (negative y); done.
  - rewrite mag_cmp_ok by done. set (A := dval 10 (aligned_lsf x s)) in *.
    set (B := dval 10 (aligned_lsf y s)) in *. unfold signed.
    destruct (negative x), (negative y).
    + replace (-1 * A) with (- A) by lia. replace (-1 * B) with (- B) by lia.
      rewrite <- Z.compare_opp. symmetry. apply Z.compare_antisym.
    + symmetry. apply Z.compare_lt_iff. specialize (Nx eq_refl). lia.
    + symmetry. apply Z.compare_gt_iff. specialize (Ny eq_refl). lia.
    + by rewrite !Z.mul_1_l.
Qed.

Lemma bd_cmp_ok x y s :
  bd_wf x -> bd_wf y -> scale x <= s -> scale y <= s ->
  bd_cmp x y = (at_scale x s ?= at_scale y s).
Proof.
  intros Wx Wy Hx Hy. rewrite bd_cmp_max by done. set (m := Z.max (scale x) (scale y)).
  rewrite (at_scale_mono x m s), (at_scale_mono y m s) by lia.
  symmetry. apply compare_mult, Z.pow_pos_nonneg; lia.
Qed.

(** ** Printing and parsing *)

Lemma digit_char_digit d : is_digit d -> is_ascii_digit (digit_char d) = true.
Proof. unfold is_digit, is_ascii_digit, digit_char. intros. by ztrue ((48 <=? 48 + d) && (48 + d <=? 57))%bool. Qed.

Lemma parse_loop_digits ds r acc frac sd any :
  dig ds ->
  parse_loop ((digit_char <$> ds) ++ r) acc frac sd any
  = parse_loop r (acc ++ ds) (if sd then frac + zlen ds else frac) sd
      (any || match ds with [] => false | _ => true end).
Proof.
  intros D. revert acc frac any. induction D as [|d ds Hd D IH]; intros acc frac any.
  - change (zlen []) with 0. rewrite app_nil_r, Z.add_0_r, orb_false_r. by destruct sd.
  - cbn [fmap list_fmap app parse_loop]. rewrite digit_char_digit by done. cbv iota.
    rewrite IH, zlen_cons. replace (digit_char d - 48) with d by (unfold digit_char; lia). rewrite <- app_assoc, orb_true_r, orb_true_l.
    destruct sd; [|done]. f_equal. lia.
Qed.

(** The digits printed before and after the point. *)
Definition int_digits (x : BigDecimal) : list Z :=
  let int_len := Z.max 0 (zlen (digits x) - scale x) in
  if int_len =? 0 then [0] else ztake int_len (digits x).
Definition frac_digits (x : BigDecimal) : list Z :=
  zreplicate (Z.max 0 (scale x - zlen (digits x))) 0
  ++ zdrop (Z.max 0 (zlen (digits x) - scale x)) (digits x).

Lemma print_shape x :
  to_canonical_string x
  = (if negative x && negb (is_zero x) then lit "-" else [])
    ++ (digit_char <$> int_digits x)
    ++ (if 0 <? scale x then 46 :: (digit_char <$> frac_digits x) else []).
Proof.
  unfold to_canonical_string, int_digits, frac_digits. rewrite fmap_app. unfold zreplicate at 2.
  rewrite fmap_replicate. f_equal. f_equal. by zcase.
Qed.

Lemma print_digits x :
  bd_wf x ->
  dig (int_digits x) /\ int_digits x <> [] /\ dig (frac_digits x) /\ zlen (frac_digits x) = scale x
  /\ mval (int_digits x ++ frac_digits x) = mval (digits x).
Proof.
  intros W. pose proof (wf_digits _ W) as D. pose proof (wf_scale _ W).
  pose proof (zlen_nonneg (digits x)). unfold int_digits, frac_digits.
  assert (dig [0]) by (constructor; [unfold is_digit; lia|constructor]).
  assert (dig (zreplicate (0 `max` (scale x - zlen (digits x))) 0
    ++ zdrop (0 `max` (zlen (digits x) - scale x)) (digits x))).
  { apply Forall_app. split; [apply dig_zeros|by apply Forall_drop]. }
  zcase.
  - rewrite Heqb in *. split_and!; [done|done|done| |].
    + rewrite zlen_app, zlen_replicate, zlen_zdrop by lia. lia.
    + cbn [app]. rewrite mval_cons_zero, mval_app, mval_zeros. done.
  - split_and!; [by apply Forall_take| |done| |].
    + intros E. apply (f_equal zlen) in E. rewrite zlen_ztake in E by lia.
      change (zlen []) with 0 in E. lia.
    + rewrite zlen_app, zlen_replicate, zlen_zdrop by lia. lia.
    + replace (0 `max` (scale x - zlen (digits x))) with 0 by lia.
      change (zreplicate 0 0) with (@nil Z). cbn [app]. by rewrite ztake_zdrop.
Qed.

Lemma graph_digits ds : dig ds -> Forall (fun c => 33 <= c < 127) (digit_char <$> ds).
Proof.
  intros D. apply Forall_fmap. eapply Forall_impl; [exact D|]. unfold is_digit, digit_char. cbn. lia.
Qed.

(** Parsing an optional minus sign, a digit run, and an optional fraction. *)
Lemma parse_shape (neg : bool) ip fp (dot : bool) :
  dig ip -> dig fp -> ip <> [] -> (if dot then 0 < zlen fp < 2 ^ 63 else fp = []) ->
  parse ((if neg then lit "-" else []) ++ (digit_char <$> ip)
         ++ (if dot then 46 :: (digit_char <$> fp) else []))
  = Val (Some (normalize (mk_bd neg (ip ++ fp) (zlen fp)))).
Proof.
  intros Di Df Ni Hdot. set (body := (digit_char <$> ip) ++ _).
  assert (parse_loop body [] 0 false false = Some (ip ++ fp, zlen fp, true, 0, [])) as PL.
  { subst body. rewrite parse_loop_digits by done. destruct dot; [|subst fp].
    - cbn [parse_loop]. change (is_ascii_digit 46) with false. cbn [Z.eqb Pos.eqb].
      rewrite <- (app_nil_r (digit_char <$> fp)), parse_loop_digits by done.
      cbn [parse_loop app]. destruct ip; [done|]. by rewrite Z.add_0_l.
    - destruct ip; [done|]. cbn [parse_loop app]. by rewrite app_nil_r. }
  assert (exists c s, body = c :: s /\ is_ascii_digit c = true) as (c & s & Eb & Hc).
  { subst body. destruct ip as [|d ip]; [done|]. inversion Di; subst. eexists _, _.
    split; [reflexivity|by apply digit_char_digit]. }
  assert (exists l d, body = l ++ [d] /\ 33 <= d <= 126) as (l & e & El & He).
  { subst body. destruct dot.
    - destruct fp as [|f fp _] using rev_ind; [change (zlen []) with 0 in Hdot; lia|].
      apply Forall_app in Df as [_ Df]. inversion Df as [|? ? Hf _]; subst. unfold is_digit in Hf.
      exists ((digit_char <$> ip) ++ 46 :: (digit_char <$> fp)), (digit_char f).
      rewrite fmap_app. split; [by rewrite <- app_assoc|unfold digit_char; lia].
    - destruct ip as [|f ip' _] using rev_ind; [done|].
      apply Forall_app in Di as [_ Di]. inversion Di as [|? ? Hf _]; subst. unfold is_digit in Hf.
      exists (digit_char <$> ip'), (digit_char f). rewrite fmap_app, app_nil_r.
      split; [done|unfold digit_char; lia]. }
  unfold is_ascii_digit in Hc. zb.
  assert (0 <= zlen fp < 2 ^ 63) as Hz by (destruct dot; [lia|subst; done]).
  unfold parse. destruct neg.
  - change (lit "-" ++ body) with (45 :: body).
    rewrite (trim_graph 45 body (45 :: l) e) by (rewrite ?El; done || lia).
    cbn [Z.eqb Pos.eqb]. rewrite PL. cbn [negb]. rewrite Z.sub_0_r.
    zfalse (2 ^ 63 <=? zlen fp). by zfalse (zlen fp <? 0).
  - cbn [app]. rewrite Eb in *. rewrite (trim_graph c s l e) by (done || lia).
    zfalse (c =? 43). zfalse (c =? 45). rewrite PL. cbn [negb]. rewrite Z.sub_0_r.
    zfalse (2 ^ 63 <=? zlen fp). by zfalse (zlen fp <? 0).
Qed.

Lemma print_parse_ok x :
  bd_wf x -> scale x < 2 ^ 63 ->
  exists d, parse (to_canonical_string x) = Val (Some d) /\ bd_wf d
    /\ negative d = negative x /\ scale d = scale x /\ unscaled d = unscaled x.
Proof.
  intros W Hs. destruct (print_digits x W) as (D1 & N1 & D2 & L & V). pose proof (wf_scale _ W).
  rewrite print_shape.
  assert (negative x && negb (is_zero x) = negative x) as ->.
  { destruct (negative x) eqn:N; [|done]. destruct (is_zero x) eqn:Hz; [|done].
    apply (is_zero_ok x W) in Hz. pose proof (wf_sign _ W) as Sg. unfold unscaled in Sg.
    rewrite Hz, Z.mul_0_r, N in Sg. discriminate (Sg eq_refl). }
  rewrite parse_shape; [|done|done|done|].
  2: { zcase; [lia|]. apply length_zero_iff_nil. unfold zlen in L. lia. }
  destruct (normalize_ok (negative x) (int_digits x ++ frac_digits x) (zlen (frac_digits x)))
    as (Wd & S & U); [by apply Forall_app|lia|].
  eexists. split_and!; [done|done| |lia|].
  - pose proof (wf_sign _ Wd) as S1. pose proof (wf_sign _ W) as S2. rewrite U in S1. unfold signed in S1.
    unfold unscaled in S2. rewrite V in S1, U. unfold unscaled, signed in U.
    set (d := normalize _) in *. destruct (negative d), (negative x); try done.
    + rewrite S1 in *; [done|]. pose proof (mval_bounds _ (wf_digits _ Wd)). pose proof (mval_bounds _ (wf_digits _ W)). lia.
    + rewrite S2 in *; [done|]. pose proof (mval_bounds _ (wf_digits _ Wd)). pose proof (mval_bounds _ (wf_digits _ W)). lia.
  - rewrite U, V. done.
Qed.

Lemma parse_loop_inv s ds frac sd any ds' frac' any' e r :
  parse_loop s ds frac sd any = Some (ds', frac', any', e, r) ->
  dig ds -> 0 <= frac -> dig ds' /\ 0 <= frac'.
Proof.
  revert ds frac sd any. induction s as [|c s IH]; intros ds frac sd any; cbn [parse_loop].
  - by intros [= <- <- <- <- <-].
  - zcase.
    + intros H D Hf. unfold is_ascii_digit in *. zb. eapply IH; [exact H| |destruct sd; lia].
      apply Forall_app. split; [done|]. constructor; [unfold is_digit; lia|constructor].
    + zcase; [destruct sd; [done|]; apply IH|]. zcase; [|done].
      destruct (parse_exp s) as [[? ?]|]; [|done]. by intros [= <- <- <- <- <-].
Qed.

(** Whatever [parse] accepts is well formed. *)
Lemma parse_wf s d : parse s = Val (Some d) -> bd_wf d.
Proof.
  unfold parse. destruct (trim s) as [|c s']; [done|].
  destruct (if c =? 43 then _ else _) as [neg body].
  destruct (parse_loop body [] 0 false false) as [[[[[ds frac] any] e] [|? ?]]|] eqn:E; [|done|done].
  destruct (parse_loop_inv _ _ _ _ _ _ _ _ _ _ E) as [D F]; [constructor|lia|].
  destruct any; [|done]. cbn [negb]. zcase; [done|]. zcase; [zcase; [done|]|]; intros [= <-].
  - eapply normalize_ok; [|lia]. apply Forall_app. split; [done|apply dig_zeros].
  - by eapply normalize_ok.
Qed.

Lemma from_i64_ok v : in_i 64 v -> bd_wf (from_i64 v) /\ scale (from_i64 v) = 0 /\ unscaled (from_i64 v) = v.
Proof.
  intros [H1 H2]. unfold from_i64. zcase.
  - subst. split_and!; [|done|done]. split; [|done|cbn; lia|done].
    constructor; [unfold is_digit; lia|constructor].
  - destruct (digits_of_ok 20 (Z.abs v)) as [E D]; [cbn in *; lia|].
    destruct (normalize_ok (v <? 0) (reverse (digits_of 20 (Z.abs v))) 0) as (W & S & U);
      [by apply Forall_reverse|lia|].
    split_and!; [done|done|]. rewrite U, mval_reverse, E. unfold signed. zcase; lia.
Qed.

(** * Theorems *)

(** Addition, subtraction and multiplication are exact.  For well formed
    operands the sum and difference have the larger of the two scales and the
    sum/difference of the values at that scale; the schoolbook product never
    indexes out of its buffer and denotes the product of the values; all three
    results are well formed. *)
Theorem numeric_ring_exact x y :
  bd_wf x -> bd_wf y ->
  let s := Z.max (scale x) (scale y) in
  (bd_wf (add x y) /\ scale (add x y) = s /\ unscaled (add x y) = at_scale x s + at_scale y s)
  /\ (bd_wf (sub x y) /\ scale (sub x y) = s /\ unscaled (sub x y) = at_scale x s - at_scale y s)
  /\ exists p, mul x y = Val p /\ bd_wf p /\ (unscaled p = 0 \/ scale p = scale x + scale y)
       /\ at_scale p (scale x + scale y) = unscaled x * unscaled y.
Proof. intros Wx Wy s. split; [by apply add_ok|]. split; [by apply sub_ok|by apply mul_ok]. Qed.

Lemma numeric_ring_exact_witness :
  bd_wf (bd "-12.50") /\ bd_wf (bd "0.005")
  /\ unscaled (add (bd "-12.50") (bd "0.005")) = at_scale (bd "-12.50") 3 + at_scale (bd "0.005") 3.
Proof.
  assert (bd_wf (bd "-12.50")) by (eapply (parse_wf (lit "-12.50")); vm_compute; reflexivity).
  assert (bd_wf (bd "0.005")) by (eapply (parse_wf (lit "0.005")); vm_compute; reflexivity).
  split; [assumption|]. split; [assumption|].
  apply (numeric_ring_exact (bd "-12.50") (bd "0.005")); assumption.
Defined.

(** C40: division by a nonzero decimal always yields a result of the requested
    scale whose magnitude is the exact quotient of the magnitudes rounded half
    up at that scale, with the sign of the quotient; division by zero yields
    [None].  The long division's digit search, remainder bookkeeping and guard
    digit are all on the path. *)
Theorem numeric_div_half_up x y t :
  bd_wf x -> bd_wf y -> 0 <= t ->
  if is_zero y then div_scale x y t = None /\ unscaled y = 0
  else exists d, div_scale x y t = Some d /\ bd_wf d /\ scale d = t
    /\ unscaled d = signed (negb (Bool.eqb (negative x) (negative y)))
         (round_half_up (Z.abs (unscaled x) * 10 ^ (t + scale y)) (Z.abs (unscaled y) * 10 ^ scale x)).
Proof.
  intros Wx Wy Ht. destruct (is_zero y) eqn:Hy.
  - unfold div_scale, unscaled. rewrite Hy. apply (is_zero_ok y Wy) in Hy. rewrite Hy. split; [done|lia].
  - assert (forall d, bd_wf d -> Z.abs (unscaled d) = mval (digits d)) as A.
    { intros d W. pose proof (mval_bounds _ (wf_digits _ W)). unfold unscaled. destruct (negative d); lia. }
    rewrite !A by done. by apply div_scale_ok.
Qed.

Lemma numeric_div_half_up_witness :
  exists d, div_scale (bd "2") (bd "-3") 16 = Some d /\ scale d = 16 /\ unscaled d = -6666666666666667.
Proof.
  assert (bd_wf (bd "2")) as W2 by (eapply (parse_wf (lit "2")); vm_compute; reflexivity).
  assert (bd_wf (bd "-3")) as W3 by (eapply (parse_wf (lit "-3")); vm_compute; reflexivity).
  destruct (numeric_div_half_up (bd "2") (bd "-3") 16 W2 W3 ltac:(lia)) as (d & E & W & S & U).
  exists d. split; [exact E|]. split; [exact S|]. rewrite U. vm_compute. reflexivity.
Defined.

(** The remainder has the larger scale and is the truncated remainder of
    the two values at that scale (sign of the dividend), and [None] exactly
    for a zero divisor. *)
Theorem numeric_rem_truncated x y :
  bd_wf x -> bd_wf y ->
  let s := Z.max (scale x) (scale y) in
  if is_zero y then bd_rem x y = None /\ unscaled y = 0
  else exists d, bd_rem x y = Some d /\ bd_wf d /\ scale d = s
         /\ unscaled d = Z.rem (at_scale x s) (at_scale y s).
Proof.
  intros Wx Wy s. destruct (is_zero y) eqn:Hy; [|by apply bd_rem_ok].
  unfold bd_rem, unscaled. rewrite Hy. apply (is_zero_ok y Wy) in Hy. rewrite Hy. split; [done|lia].
Qed.

Lemma numeric_rem_truncated_witness :
  exists d, bd_rem (bd "-7.5") (bd "2") = Some d /\ scale d = 1 /\ unscaled d = -15.
Proof.
  assert (bd_wf (bd "-7.5")) as W2 by (eapply (parse_wf (lit "-7.5")); vm_compute; reflexivity).
  assert (bd_wf (bd "2")) as W3 by (eapply (parse_wf (lit "2")); vm_compute; reflexivity).
  destruct (numeric_rem_truncated (bd "-7.5") (bd "2") W2 W3) as (d & E & W & S & U).
  exists d. split; [exact E|]. split; [exact S|]. rewrite U. vm_compute. reflexivity.
Defined.

(** [Ord::cmp] is the order of the rational values: at any common scale it
    is the comparison of the two unscaled integers.  Equality, antisymmetry and
    transitivity across different scales follow. *)
Theorem numeric_cmp_is_value_order x y s :
  bd_wf x -> bd_wf y -> scale x <= s -> scale y <= s ->
  bd_cmp x y = (at_scale x s ?= at_scale y s)
  /\ (bd_eqb x y = true <-> at_scale x s = at_scale y s).
Proof.
  intros Wx Wy Hx Hy. unfold bd_eqb. rewrite (bd_cmp_ok x y s) by done. split; [done|].
  rewrite <- Z.compare_eq_iff. by destruct (_ ?= _).
Qed.

Lemma numeric_cmp_is_value_order_witness :
  bd_eqb (bd "1.50") (bd "1.5") = true /\ bd_cmp (bd "-2") (bd "1.5") = (-200 ?= 150).
Proof.
  assert (bd_wf (bd "1.50")) as W1 by (eapply (parse_wf (lit "1.50")); vm_compute; reflexivity).
  assert (bd_wf (bd "1.5")) as W2 by (eapply (parse_wf (lit "1.5")); vm_compute; reflexivity).
  assert (bd_wf (bd "-2")) as W3 by (eapply (parse_wf (lit "-2")); vm_compute; reflexivity).
  split.
  - apply (numeric_cmp_is_value_order (bd "1.50") (bd "1.5") 2 W1 W2); vm_compute; discriminate || reflexivity.
  - apply (numeric_cmp_is_value_order (bd "-2") (bd "1.5") 2 W3 W2); vm_compute; discriminate.
Defined.

(** Printing then parsing keeps sign, scale and value: for every well
    formed decimal whose scale fits an [i64], [parse] accepts its canonical
    text and returns a well formed decimal with the same sign, the same scale
    (trailing zeros are kept) and the same unscaled value. *)
Theorem numeric_print_parse x :
  bd_wf x -> scale x < 2 ^ 63 ->
  exists d, parse (to_canonical_string x) = Val (Some d) /\ bd_wf d
    /\ negative d = negative x /\ scale d = scale x /\ unscaled d = unscaled x.
Proof. apply print_parse_ok. Qed.

Lemma numeric_print_parse_witness :
  exists d, parse (to_canonical_string (bd "-1.50e-3")) = Val (Some d)
            /\ negative d = true /\ scale d = 5 /\ unscaled d = -150.
Proof.
  assert (bd_wf (bd "-1.50e-3")) as W1 by (eapply (parse_wf (lit "-1.50e-3")); vm_compute; reflexivity).
  destruct (numeric_print_parse (bd "-1.50e-3") W1 ltac:(vm_compute; reflexivity)) as (d & E & _ & N & S & U).
  exists d. split; [exact E|]. split; [rewrite N; reflexivity|]. split; [rewrite S; reflexivity|].
  rewrite U. reflexivity.
Defined.
