(* ===== verification/Types.v ===== *)
(** SQL data types and runtime values of crates/types/src/types.rs, with the
    part of [f64] the program uses: classification, comparison with zero and
    the shortest round-trip decimal [Display]. *)

From S2P Require Import Prelude Utf8 Numeric.

(** * [f64]

    A double is its 64-bit pattern, as [f64::to_bits] gives it. *)

Definition f64_neg (bits : Z) : bool := Z.testbit bits 63.
Definition f64_exp (bits : Z) : Z := Z.land (Z.shiftr bits 52) 2047.
Definition f64_frac (bits : Z) : Z := Z.land bits (2 ^ 52 - 1).
Definition is_nan (bits : Z) : bool := (f64_exp bits =? 2047) && negb (f64_frac bits =? 0).
Definition is_infinite (bits : Z) : bool := (f64_exp bits =? 2047) && (f64_frac bits =? 0).
(** [f == 0.0]: both zeros, no NaN. *)
Definition f64_is_zero (bits : Z) : bool := Z.land bits (2 ^ 63 - 1) =? 0.

(** Magnitude of a finite nonzero double: [mant * 2 ^ ex]. *)
Definition f64_mant (bits : Z) : Z :=
  if f64_exp bits =? 0 then f64_frac bits else f64_frac bits + 2 ^ 52.
Definition f64_ex (bits : Z) : Z :=
  if f64_exp bits =? 0 then -1074 else f64_exp bits - 1075.

(** The shortest-digits search over exact integers.  The value and the half
    gaps to its neighbours are [v / s], [minus / s], [plus / s]; [incl] says
    whether the end points round back (even mantissa).  [u / s] is the weight
    of the last digit tried.  Seventeen digits always suffice. *)
Fixpoint shortest (fuel : nat) (v minus plus u k : Z) (incl : bool) : Z * Z :=
  let D := v / u in
  let r := v - D * u in
  let down := if incl then r <=? minus else r <? minus in
  let up := if incl then u <=? r + plus else u <? r + plus in
  match fuel with
  | O => (D, k)
  | S fuel =>
      if down || up then
        (if up && (negb down || (u <=? 2 * r)) then D + 1 else D, k)
      else shortest fuel (10 * v) (10 * minus) (10 * plus) u (k - 1) incl
  end.

(** The least [k] with [v + plus < u * 10 ^ k] (or [<=] when exclusive), by
    scanning down from an upper bound on the decimal exponent of a double. *)
Fixpoint top_place (fuel : nat) (hi s : Z) (incl : bool) (k : Z) : Z :=
  match fuel with
  | O => k
  | S fuel =>
      let reaches := (* 10 ^ k <= hi / s *)
        if 0 <=? k then (if incl then s * 10 ^ k <=? hi else s * 10 ^ k <? hi)
        else (if incl then s <=? hi * 10 ^ (- k) else s <? hi * 10 ^ (- k)) in
      if reaches then k else top_place fuel hi s incl (k - 1)
  end.

Definition dec_digits (n : Z) : list Z := reverse (digits_of 400 n).

(** [Display] for a finite double: the shortest digits, never an exponent. *)
Definition f64_display (bits : Z) : str :=
  let sign := if f64_neg bits then lit "-" else [] in
  if f64_is_zero bits then sign ++ lit "0"
  else
    let m := f64_mant bits in
    let e := f64_ex bits in
    let incl := Z.even m in
    (* scale by 4 so that the half gaps are integers *)
    let asym := (m =? 2 ^ 52) && (1 <? f64_exp bits) in
    let num := if 0 <=? e then 2 ^ e else 1 in
    let s := 4 * (if 0 <=? e then 1 else 2 ^ (- e)) in
    let v := 4 * m * num in
    let plus := 2 * num in
    let minus := (if asym then 1 else 2) * num in
    let k := top_place 800 (v + plus) s incl 309 in
    let '(D, place) :=
      if 0 <=? k then shortest 18 v minus plus (s * 10 ^ k) k incl
      else shortest 18 (v * 10 ^ (- k)) (minus * 10 ^ (- k)) (plus * 10 ^ (- k)) s k incl in
    let ds := dec_digits D in
    let point := zlen ds + place in
    sign ++
      (if point <=? 0 then lit "0." ++ zreplicate (- point) 48 ++ (digit_char <$> ds)
       else if zlen ds <=? point then (digit_char <$> ds) ++ zreplicate place 48
       else (digit_char <$> ztake point ds) ++ lit "." ++ (digit_char <$> zdrop point ds)).

(** [i64::to_string] *)
Definition i64_display (v : Z) : str :=
  if v =? 0 then lit "0"
  else (if v <? 0 then lit "-" else []) ++ (digit_char <$> reverse (digits_of 20 (Z.abs v))).

Example disp1 : f64_display 4591870180066957722 = lit "0.1". Proof. vm_compute. reflexivity. Qed.
Example disp2 : f64_display 4609434218613702656 = lit "1.5". Proof. vm_compute. reflexivity. Qed.
Example disp3 : f64_display 4921056587992461136 = lit "1000000000000000000000".
Proof. vm_compute. reflexivity. Qed.
Example disp4 : f64_display 13826050856027422720 = lit "-0.5". Proof. vm_compute. reflexivity. Qed.
Example disp5 : ztake 3 (f64_display 1) = lit "0.0" /\ zdrop 325 (f64_display 1) = lit "5".
Proof. vm_compute. split; reflexivity. Qed.

(** * Data types *)

Inductive DataType :=
| TInt2
| TInt4
| TInt8
| TFloat4
| TFloat8
| TNumeric
| TMoney
| TBool
| TText
| TBytea
| TDate
| TTime
| TTimeTz
| TInterval
| TTimestamp
| TTimestampTz
| TInet
| TCidr
| TMacaddr
| TMacaddr8
| TUuid
| TJson
| TJsonb
| TXml
| TTsVector
| TTsQuery.

#[export] Instance DataType_eq_dec : EqDecision DataType.
Proof. solve_decision. Defined.

(** [DataType::ALL] *)
Definition ALL : list DataType :=
  [TBool; TBytea; TInt8; TInt2; TInt4;
   TText; TFloat4; TFloat8; TDate; TTime; TTimeTz; TInterval;
   TTimestamp; TTimestampTz; TInet; TCidr; TMacaddr; TMacaddr8; TNumeric; TMoney;
   TUuid; TJson; TJsonb; TXml; TTsVector; TTsQuery].

(** [DataType::oid] *)
Definition oid (t : DataType) : Z :=
  match t with
  | TBool => 16
  | TInt8 => 20
  | TInt2 => 21
  | TInt4 => 23
  | TText => 25
  | TBytea => 17
  | TJson => 114
  | TFloat4 => 700
  | TFloat8 => 701
  | TDate => 1082
  | TTime => 1083
  | TTimeTz => 1266
  | TInterval => 1186
  | TTimestamp => 1114
  | TTimestampTz => 1184
  | TInet => 869
  | TCidr => 650
  | TMacaddr => 829
  | TMacaddr8 => 774
  | TNumeric => 1700
  | TMoney => 790
  | TUuid => 2950
  | TJsonb => 3802
  | TXml => 142
  | TTsVector => 3614
  | TTsQuery => 3615
  end.

(** [DataType::type_size], -1 for variable length *)
Definition type_size (t : DataType) : Z :=
  match t with
  | TBool => 1
  | TInt2 => 2
  | TInt4 => 4
  | TFloat4 => 4
  | TDate => 4
  | TInt8 => 8
  | TFloat8 => 8
  | TTime => 8
  | TTimeTz => 8
  | TInterval => 8
  | TTimestamp => 8
  | TTimestampTz => 8
  | TMoney => 8
  | TMacaddr => 6
  | TUuid => 16
  | TNumeric => -1
  | TText => -1
  | TBytea => -1
  | TInet => -1
  | TCidr => -1
  | TMacaddr8 => -1
  | TJson => -1
  | TJsonb => -1
  | TXml => -1
  | TTsVector => -1
  | TTsQuery => -1
  end.

(** [DataType::is_text_stored] *)
Definition is_text_stored (t : DataType) : bool :=
  match t with
  | TText | TBytea | TDate | TTime | TTimeTz | TInterval
  | TTimestamp | TTimestampTz | TInet | TCidr | TMacaddr | TMacaddr8
  | TUuid | TJson | TJsonb | TXml | TTsVector | TTsQuery => true
  | _ => false
  end.

(** The match arms of [from_sql_name]. *)
Definition sql_names : list (list string * DataType) :=
  [ (["smallint"; "int2"]%string, TInt2);
    (["integer"; "int"; "int4"]%string, TInt4);
    (["bigint"; "int8"]%string, TInt8);
    (["real"; "float4"]%string, TFloat4);
    (["double precision"; "float8"; "float"]%string, TFloat8);
    (["numeric"; "decimal"]%string, TNumeric);
    (["money"]%string, TMoney);
    (["boolean"; "bool"]%string, TBool);
    (["text"; "varchar"; "char"; "character varying"; "character"; "bpchar"; "name"]%string, TText);
    (["bytea"]%string, TBytea);
    (["date"]%string, TDate);
    (["time"; "time without time zone"]%string, TTime);
    (["timetz"; "time with time zone"]%string, TTimeTz);
    (["interval"]%string, TInterval);
    (["timestamp"; "timestamp without time zone"]%string, TTimestamp);
    (["timestamptz"; "timestamp with time zone"]%string, TTimestampTz);
    (["inet"]%string, TInet);
    (["cidr"]%string, TCidr);
    (["macaddr"]%string, TMacaddr);
    (["macaddr8"]%string, TMacaddr8);
    (["uuid"]%string, TUuid);
    (["json"]%string, TJson);
    (["jsonb"]%string, TJsonb);
    (["xml"]%string, TXml);
    (["tsvector"]%string, TTsVector);
    (["tsquery"]%string, TTsQuery) ].

(** [DataType::from_sql_name], case-insensitive. *)
Definition from_sql_name (name : str) : option DataType :=
  let n := to_ascii_lower <$> name in
  snd <$> List.find (fun arm => existsb (fun k => str_eqb n (lit k)) (fst arm)) sql_names.

(** [DataType::sql_name] *)
Definition sql_name (t : DataType) : str :=
  match t with
  | TInt2 => lit "smallint"
  | TInt4 => lit "integer"
  | TInt8 => lit "bigint"
  | TFloat4 => lit "real"
  | TFloat8 => lit "double precision"
  | TNumeric => lit "numeric"
  | TMoney => lit "money"
  | TBool => lit "boolean"
  | TText => lit "text"
  | TBytea => lit "bytea"
  | TDate => lit "date"
  | TTime => lit "time without time zone"
  | TTimeTz => lit "time with time zone"
  | TInterval => lit "interval"
  | TTimestamp => lit "timestamp without time zone"
  | TTimestampTz => lit "timestamp with time zone"
  | TInet => lit "inet"
  | TCidr => lit "cidr"
  | TMacaddr => lit "macaddr"
  | TMacaddr8 => lit "macaddr8"
  | TUuid => lit "uuid"
  | TJson => lit "json"
  | TJsonb => lit "jsonb"
  | TXml => lit "xml"
  | TTsVector => lit "tsvector"
  | TTsQuery => lit "tsquery"
  end.

(** [DataType::pg_type_name] *)
Definition pg_type_name (t : DataType) : str :=
  match t with
  | TBool => lit "bool"
  | TBytea => lit "bytea"
  | TInt8 => lit "int8"
  | TInt2 => lit "int2"
  | TInt4 => lit "int4"
  | TText => lit "text"
  | TFloat4 => lit "float4"
  | TFloat8 => lit "float8"
  | TDate => lit "date"
  | TTime => lit "time"
  | TTimeTz => lit "timetz"
  | TInterval => lit "interval"
  | TTimestamp => lit "timestamp"
  | TTimestampTz => lit "timestamptz"
  | TInet => lit "inet"
  | TCidr => lit "cidr"
  | TMacaddr => lit "macaddr"
  | TMacaddr8 => lit "macaddr8"
  | TNumeric => lit "numeric"
  | TMoney => lit "money"
  | TUuid => lit "uuid"
  | TJson => lit "json"
  | TJsonb => lit "jsonb"
  | TXml => lit "xml"
  | TTsVector => lit "tsvector"
  | TTsQuery => lit "tsquery"
  end.

(** * Values *)

Inductive Value :=
| Null
| Int (i : Z)
| Float (bits : Z)
| Num (n : BigDecimal)
| Text (s : str)
| Bool (b : bool).

(** [Value::is_null] *)
Definition is_null (v : Value) : bool := match v with Null => true | _ => false end.

(** [format_float] *)
Definition format_float (f : Z) : str :=
  if is_nan f then lit "NaN"
  else if is_infinite f then (if f64_neg f then lit "-Infinity" else lit "Infinity")
  else f64_display f.

(** [Value::to_text]; [None] is SQL NULL. *)
Definition to_text (v : Value) : option str :=
  match v with
  | Null => None
  | Int i => Some (i64_display i)
  | Float f => Some (format_float f)
  | Num n => Some (to_canonical_string n)
  | Text s => Some s
  | Bool b => Some (if b then lit "t" else lit "f")
  end.

(** [Value::inferred_type] *)
Definition inferred_type (v : Value) : DataType :=
  match v with
  | Null => TText
  | Int _ => TInt8
  | Float _ => TFloat8
  | Num _ => TNumeric
  | Text _ => TText
  | Bool _ => TBool
  end.

(** [Value::is_true] *)
Definition is_true (v : Value) : bool :=
  match v with
  | Bool b => b
  | Null => false
  | Int i => negb (i =? 0)
  | Float f => negb (f64_is_zero f)
  | Num n => negb (is_zero n)
  | Text s => negb (str_eqb s [])
  end.

(** [Display for Value] *)
Definition value_display (v : Value) : str := default (lit "NULL") (to_text v).

(** The values a Rust [Value] can hold: machine integers, 64-bit patterns,
    UTF-8 strings, and decimals built by the constructors. *)
Definition value_wf (v : Value) : Prop :=
  match v with
  | Null | Bool _ => True
  | Int i => in_i 64 i
  | Float f => in_u 64 f
  | Num n => bd_wf n
  | Text s => Forall is_byte s /\ utf8_valid s = true
  end.

(** * Proofs *)

Lemma ALL_complete t : t ∈ ALL.
Proof. apply list_elem_of_In. destruct t; vm_compute; tauto. Qed.

Lemma ALL_NoDup : NoDup ALL.
Proof. apply (bool_decide_unpack _). vm_compute. exact I. Qed.

Lemma pg_type_name_NoDup : NoDup (pg_type_name <$> ALL).
Proof. apply (bool_decide_unpack _). vm_compute. exact I. Qed.

Lemma oid_NoDup : NoDup (oid <$> ALL).
Proof. apply (bool_decide_unpack _). vm_compute. exact I. Qed.

Lemma pg_type_name_inj t u : pg_type_name t = pg_type_name u -> t = u.
Proof.
  intros E. destruct (list_elem_of_lookup_1 _ _ (ALL_complete t)) as [i Hi].
  destruct (list_elem_of_lookup_1 _ _ (ALL_complete u)) as [j Hj].
  assert (i = j) as ->.
  { eapply (NoDup_lookup _ _ _ _ pg_type_name_NoDup); rewrite list_lookup_fmap.
    - by rewrite Hi.
    - rewrite Hj. cbn. by rewrite E. }
  congruence.
Qed.

(** The tab and the newline, which separate catalog fields, never occur in a
    type name. *)
Lemma pg_type_name_graph t : Forall (fun c => 33 <= c <= 126) (pg_type_name t) /\ pg_type_name t <> [].
Proof. destruct t; (split; [|done]); vm_compute; repeat constructor; discriminate. Qed.

Lemma i64_display_shape v :
  in_i 64 v ->
  exists ip, i64_display v = (if v <? 0 then lit "-" else []) ++ (digit_char <$> ip) ++ []
    /\ Forall is_digit ip /\ ip <> [] /\ signed (v <? 0) (mval ip) = v.
Proof.
  intros [H1 H2]. unfold i64_display. zcase.
  - subst. exists [0]. split_and!; [done| |done|done].
    constructor; [unfold is_digit; lia|constructor].
  - destruct (digits_of_ok 20 (Z.abs v)) as [E D]; [cbn in *; lia|].
    exists (reverse (digits_of 20 (Z.abs v))). rewrite app_nil_r.
    split_and!; [done|by apply Forall_reverse| |rewrite mval_reverse, E; unfold signed; zcase; lia].
    intros N. apply (f_equal mval) in N. rewrite mval_reverse, E in N. change (mval []) with 0 in N. lia.
Qed.

Lemma u64_display_digits v :
  0 <= v < 2 ^ 64 -> exists ds, i64_display v = digit_char <$> ds /\ Forall is_digit ds /\ ds <> [] /\ mval ds = v.
Proof.
  intros Hv. unfold i64_display. zcase.
  - subst. exists [0]. split_and!; [done| |done|done]. constructor; [unfold is_digit; lia|constructor].
  - zfalse (v <? 0). destruct (digits_of_ok 20 (Z.abs v)) as [E D]; [cbn in *; lia|].
    exists (reverse (digits_of 20 (Z.abs v))). split_and!; [done|by apply Forall_reverse| |rewrite mval_reverse, E; lia].
    intros N. apply (f_equal mval) in N. rewrite mval_reverse, E in N. change (mval []) with 0 in N. lia.
Qed.

Lemma digits_are_digits ds : Forall is_digit ds -> forallb is_ascii_digit (digit_char <$> ds) = true.
Proof.
  induction 1 as [|d ds Hd F IH]; [done|]. cbn [fmap list_fmap forallb]. rewrite digit_char_digit by done. exact IH.
Qed.

Lemma undigit (ds : list Z) : (fun c => c - 48) <$> (digit_char <$> ds) = ds.
Proof.
  rewrite <- list_fmap_compose. rewrite <- (list_fmap_id ds) at 2. apply list_fmap_ext. intros i x _. cbn. unfold digit_char. lia.
Qed.

Lemma canonical_ascii d : bd_wf d -> Forall (fun b => 0 <= b < 128) (to_canonical_string d).
Proof.
  intros [Hd _ _ _]. unfold to_canonical_string.
  assert (forall l, Forall is_digit l -> Forall (fun b => 0 <= b < 128) (digit_char <$> l)) as G.
  { intros l F. apply Forall_fmap. eapply Forall_impl; [exact F|]. intros x. unfold compose, digit_char, is_digit. lia. }
  assert (forall n, Forall (fun b => 0 <= b < 128) (zreplicate n 48)) as R.
  { intros n. unfold zreplicate. apply Forall_replicate. lia. }
  repeat first [apply Forall_app; split | apply G | apply R | case_match | by repeat constructor];
    unfold ztake, zdrop; auto using Forall_take, Forall_drop.
Qed.

Lemma canonical_valid d : bd_wf d -> utf8_valid (to_canonical_string d) = true.
Proof. intros W. apply utf8_valid_ascii. eapply Forall_impl; [exact (canonical_ascii d W)|]. cbn. lia. Qed.

Lemma parse_uint_digits bits c s :
  c <> 43 -> forallb is_ascii_digit (c :: s) = true ->
  parse_uint bits (c :: s)
  = let v := dval 10 (reverse ((fun c => c - 48) <$> c :: s)) in if v <? 2 ^ bits then Some v else None.
Proof. intros Hc H. unfold parse_uint. zfalse (c =? 43). by rewrite H. Qed.

(** A parsed unsigned integer fits its width. *)
Lemma digits_nonneg ds : forallb is_ascii_digit ds = true -> 0 <= dval 10 (reverse ((fun c => c - 48) <$> ds)).
Proof.
  intros H. enough (forall l, Forall (fun d => 0 <= d) l -> 0 <= dval 10 l) as Hd.
  { apply Hd, Forall_reverse, Forall_fmap, Forall_forall. intros c Hc. rewrite forallb_forall in H.
    specialize (H c (proj1 (list_elem_of_In _ _) Hc)). unfold is_ascii_digit in H. cbn. zb. lia. }
  induction 1; cbn; lia.
Qed.

Lemma parse_uint_range bits s v : parse_uint bits s = Some v -> 0 <= v < 2 ^ bits.
Proof.
  unfold parse_uint. generalize (match s with c :: s' => if c =? 43 then s' else s | [] => [] end). intros [|d ds]; [done|].
  pose proof (digits_nonneg (d :: ds)) as Hd. revert Hd. generalize (dval 10 (reverse ((fun c => c - 48) <$> d :: ds))). intros n Hd.
  destruct (forallb _ _); [|done]. cbn zeta. destruct (n <? 2 ^ bits) eqn:Hn; [|done]. intros [= ->]. zb. split; [by apply Hd|lia].
Qed.

(** Unsigned integers print and parse back. *)
Lemma parse_uint_display bits v : 0 <= v < 2 ^ 64 -> v < 2 ^ bits -> parse_uint bits (i64_display v) = Some v.
Proof.
  intros Hv Hb. destruct (u64_display_digits v Hv) as (ds & E & D & N & V). rewrite E.
  destruct ds as [|d ds]; [done|]. inversion D as [|? ? Hd D']; subst. unfold is_digit in Hd.
  pose proof (digits_are_digits _ D) as HD. cbn [fmap list_fmap] in HD |- *.
  rewrite parse_uint_digits by (done || (unfold digit_char; lia)).
  change (digit_char d :: (digit_char <$> ds)) with (digit_char <$> d :: ds). cbv zeta.
  rewrite undigit. fold (mval (d :: ds)). by rewrite (proj2 (Z.ltb_lt _ _) Hb).
Qed.

(** * Theorems *)

(** The type tables agree with each other: [ALL] lists every type exactly
    once, OIDs and [pg_type] names are unique, and both the SQL name and the
    [pg_type] name of every type (in any letter case) parse back to it. *)
Theorem datatype_tables_consistent :
  (forall t, t ∈ ALL) /\ NoDup ALL /\ NoDup (oid <$> ALL) /\ NoDup (pg_type_name <$> ALL)
  /\ (forall t, from_sql_name (sql_name t) = Some t /\ from_sql_name (pg_type_name t) = Some t
        /\ from_sql_name (to_ascii_upper <$> sql_name t) = Some t)
  /\ forall t, type_size t = -1 \/ (1 <= type_size t <= 16).
Proof.
  split; [apply ALL_complete|]. split; [apply ALL_NoDup|]. split; [apply oid_NoDup|].
  split; [apply pg_type_name_NoDup|]. split.
  - intros []; vm_compute; split_and!; reflexivity.
  - intros []; cbn; lia.
Qed.

(** The text of an integer value is a decimal literal of that value: for
    every [i64], [BigDecimal::parse] accepts [Value::Int(v).to_text()] and
    yields the decimal [from_i64 v] denotes, with scale 0. *)
Theorem int_text_parses_back v :
  in_i 64 v ->
  exists s d, to_text (Int v) = Some s /\ parse s = Val (Some d)
    /\ bd_wf d /\ scale d = 0 /\ unscaled d = v /\ unscaled d = unscaled (from_i64 v).
Proof.
  intros Hv. destruct (i64_display_shape v Hv) as (ip & E & D & N & V).
  destruct (from_i64_ok v Hv) as (_ & _ & U). rewrite U. cbn [to_text]. rewrite E.
  eexists _, _. split; [reflexivity|].
  rewrite (parse_shape (v <? 0) ip [] false) by done. split; [reflexivity|].
  rewrite app_nil_r. destruct (normalize_ok (v <? 0) ip (zlen (@nil Z))) as (W & S & U'); [done|done|].
  rewrite U', V. done.
Qed.

Lemma int_text_parses_back_witness :
  in_i 64 (- 2 ^ 63) /\ exists s d, to_text (Int (- 2 ^ 63)) = Some s /\ parse s = Val (Some d)
    /\ unscaled d = - 2 ^ 63.
Proof.
  assert (in_i 64 (- 2 ^ 63)) as H by (unfold in_i; cbn; lia).
  split; [exact H|]. destruct (int_text_parses_back (- 2 ^ 63) H) as (s & d & E & P & _ & _ & U & _).
  exists s, d. split; [exact E|]. split; [exact P|exact U].
Defined.
