(* ===== verification/Float.v ===== *)
(** The [f64] operations the engine uses besides [Display]: the correctly
    rounded conversion of a rational ([i64 as f64] and [str::parse::<f64>] of a
    plain decimal), [partial_cmp], the saturating [as i64] cast and the test
    [f.fract() != 0.0].  A double is its 64-bit pattern, as in [Types]. *)

From S2P Require Import Prelude Numeric Types.

(** * Definitions *)

(** The exponent of the last mantissa bit of the double nearest to [n / d]:
    the least [e >= -1074] with [n / d < 2 ^ (e + 53)]. *)
Definition lt_pow2 (n d k : Z) : bool :=
  if 0 <=? k then n <? d * 2 ^ k else n * 2 ^ (- k) <? d.
Definition ratio_ex (n d : Z) : Z :=
  let l := Z.log2 n - Z.log2 d in
  Z.max (-1074) ((if lt_pow2 n d l then l else l + 1) - 53).

(** [num / den] to the nearest integer, ties to even. *)
Definition round_even (num den : Z) : Z :=
  let m := num / den in
  let r := num mod den in
  if (den <? 2 * r) || ((den =? 2 * r) && Z.odd m) then m + 1 else m.

Definition scaled (n d e : Z) : Z * Z :=
  if 0 <=? e then (n, d * 2 ^ e) else (n * 2 ^ (- e), d).

Definition F64_INF : Z := 2047 * 2 ^ 52.

(** The double nearest to [(-1)^neg * n / d], for [0 <= n] and [0 < d]. *)
Definition f64_of_ratio (neg : bool) (n d : Z) : Z :=
  let sign := if neg then 2 ^ 63 else 0 in
  if n =? 0 then sign
  else
    let e := ratio_ex n d in
    let '(num, den) := scaled n d e in
    sign + Z.min F64_INF ((e + 1074) * 2 ^ 52 + round_even num den).

(** [v as f64] for an [i64]. *)
Definition i64_as_f64 (v : Z) : Z := f64_of_ratio (v <? 0) (Z.abs v) 1.

(** [BigDecimal::to_f64]: the canonical text is a plain decimal literal of the
    value, and [str::parse] is correctly rounded. *)
Definition to_f64 (x : BigDecimal) : Z :=
  f64_of_ratio (negative x) (mval (digits x)) (10 ^ scale x).

(** The position of a non-NaN double in the order of [partial_cmp]. *)
Definition f64_pos (bits : Z) : Z :=
  let mag := Z.land bits (2 ^ 63 - 1) in
  if f64_neg bits then - mag else mag.

(** [f64::partial_cmp] *)
Definition f64_partial_cmp (a b : Z) : option comparison :=
  if is_nan a || is_nan b then None else Some (f64_pos a ?= f64_pos b).

(** The product of two finite doubles, correctly rounded. *)
Definition f64_mul (a b : Z) : Z :=
  let m := f64_mant a * f64_mant b in
  let e := f64_ex a + f64_ex b in
  f64_of_ratio (xorb (f64_neg a) (f64_neg b)) (m * 2 ^ Z.max 0 e) (2 ^ Z.max 0 (- e)).

(** The integer part of a finite double's magnitude. *)
Definition f64_trunc_mag (bits : Z) : Z :=
  let e := f64_ex bits in
  if 0 <=? e then f64_mant bits * 2 ^ e else f64_mant bits / 2 ^ (- e).

(** [f as i64]: truncates, saturates, and maps NaN to 0. *)
Definition f64_as_i64 (bits : Z) : Z :=
  if is_nan bits then 0
  else
    let t := if is_infinite bits then 2 ^ 64 else f64_trunc_mag bits in
    Z.max (- 2 ^ 63) (Z.min (2 ^ 63 - 1) (if f64_neg bits then - t else t)).

(** [f.fract() != 0.0]: also true of the infinities and NaN. *)
Definition f64_has_fract (bits : Z) : bool :=
  if f64_exp bits =? 2047 then true
  else
    let e := f64_ex bits in
    if 0 <=? e then false else negb (f64_mant bits mod 2 ^ (- e) =? 0).

Example f64_one_tenth : to_f64 (mk_bd false [0; 1] 1) = 4591870180066957722. Proof. vm_compute. reflexivity. Qed.
Example f64_ints : i64_as_f64 <$> [0; 1; -1; 2 ^ 53 + 1; 2 ^ 63 - 1]
  = [0; 4607182418800017408; 13830554455654793216; 4845873199050653696; 4890909195324358656].
Proof. vm_compute. reflexivity. Qed.
Example f64_limits :
  [f64_of_ratio false 1 (10 ^ 330); f64_of_ratio true 1 (10 ^ 330); f64_of_ratio false (10 ^ 309) 1;
   f64_of_ratio false 5 (10 ^ 324); f64_of_ratio false 22250738585072014 (10 ^ 324); f64_of_ratio false (2 ^ 1024 - 2 ^ 970) 1]
  = [0; 2 ^ 63; F64_INF; 1; 2 ^ 52; F64_INF].
Proof. vm_compute. reflexivity. Qed.
Example f64_products :
  (fun n => f64_trunc_mag (f64_mul 4596373779694328218 (i64_as_f64 n))) <$> [0; 4; 5; 10; 15; 1000003] = [0; 0; 1; 2; 3; 200000].
Proof. vm_compute. reflexivity. Qed.
Example f64_casts :
  (f64_as_i64 <$> [4609434218613702656; 13826050856027422720; F64_INF; F64_INF + 1; 4890909195324358656])
  = [1; 0; 2 ^ 63 - 1; 0; 2 ^ 63 - 1]
  /\ (f64_has_fract <$> [4609434218613702656; 4607182418800017408; 0; 1; F64_INF; 4845873199050653696])
  = [true; false; false; true; true; false].
Proof. vm_compute. split; reflexivity. Qed.

(** * The conversion depends only on the rational *)

Lemma lt_pow2_scale n d j k : 0 < j -> lt_pow2 (n * j) (d * j) k = lt_pow2 n d k.
Proof.
  intros Hj. unfold lt_pow2. apply eq_true_iff_eq. zcase; rewrite !Z.ltb_lt.
  - rewrite (Z.mul_shuffle0 d j). symmetry. by apply Z.mul_lt_mono_pos_r.
  - rewrite (Z.mul_shuffle0 n j). symmetry. by apply Z.mul_lt_mono_pos_r.
Qed.

Lemma lt_pow2_succ n d k : 0 <= n -> 0 < d -> lt_pow2 n d k = true -> lt_pow2 n d (k + 1) = true.
Proof.
  unfold lt_pow2. intros Hn Hd. destruct (0 <=? k) eqn:E; zb.
  - ztrue (0 <=? k + 1). rewrite !Z.ltb_lt, Z.pow_add_r by lia. lia.
  - destruct (decide (k = -1)) as [->|].
    + change (- (-1)) with 1. change (-1 + 1) with 0. cbn [Z.leb Z.compare]. rewrite Z.pow_1_r, Z.pow_0_r, !Z.ltb_lt. lia.
    + zfalse (0 <=? k + 1). rewrite !Z.ltb_lt. replace (- k) with (- (k + 1) + 1) by lia.
      rewrite Z.pow_add_r by lia. pose proof (Z.pow_pos_nonneg 2 (- (k + 1))). nia.
Qed.

Lemma lt_pow2_mono n d k k' : 0 <= n -> 0 < d -> k <= k' -> lt_pow2 n d k = true -> lt_pow2 n d k' = true.
Proof.
  intros Hn Hd Hk H. replace k' with (k + Z.of_nat (Z.to_nat (k' - k))) by lia.
  induction (Z.to_nat (k' - k)) as [|m IH]; [by rewrite Z.add_0_r|].
  rewrite Nat2Z.inj_succ, <- Z.add_1_r, Z.add_assoc. by apply lt_pow2_succ.
Qed.

(** The estimate from the two logarithms brackets the ratio. *)
Lemma lt_pow2_log n d : 0 < n -> 0 < d ->
  lt_pow2 n d (Z.log2 n - Z.log2 d + 1) = true /\ lt_pow2 n d (Z.log2 n - Z.log2 d - 1) = false.
Proof.
  intros Hn Hd. pose proof (Z.log2_spec n Hn). pose proof (Z.log2_spec d Hd).
  pose proof (Z.log2_nonneg n). pose proof (Z.log2_nonneg d).
  unfold lt_pow2. split; zcase; rewrite ?Z.ltb_lt, ?Z.ltb_ge.
  - assert (2 ^ Z.succ (Z.log2 n) = 2 ^ Z.log2 d * 2 ^ (Z.log2 n - Z.log2 d + 1)) as E
      by (rewrite <- Z.pow_add_r by lia; f_equal; lia).
    pose proof (Z.pow_pos_nonneg 2 (Z.log2 n - Z.log2 d + 1)). nia.
  - assert (2 ^ Z.log2 d = 2 ^ Z.succ (Z.log2 n) * 2 ^ (- (Z.log2 n - Z.log2 d + 1))) as E
      by (rewrite <- Z.pow_add_r by lia; f_equal; lia).
    pose proof (Z.pow_pos_nonneg 2 (- (Z.log2 n - Z.log2 d + 1))). nia.
  - assert (2 ^ Z.log2 n = 2 ^ Z.succ (Z.log2 d) * 2 ^ (Z.log2 n - Z.log2 d - 1)) as E
      by (rewrite <- Z.pow_add_r by lia; f_equal; lia).
    pose proof (Z.pow_pos_nonneg 2 (Z.log2 n - Z.log2 d - 1)). nia.
  - assert (2 ^ Z.succ (Z.log2 d) = 2 ^ Z.log2 n * 2 ^ (- (Z.log2 n - Z.log2 d - 1))) as E
      by (rewrite <- Z.pow_add_r by lia; f_equal; lia).
    pose proof (Z.pow_pos_nonneg 2 (- (Z.log2 n - Z.log2 d - 1))). nia.
Qed.

Lemma ratio_ex_spec n d : 0 < n -> 0 < d ->
  exists E, ratio_ex n d = Z.max (-1074) (E - 53) /\ lt_pow2 n d E = true /\ lt_pow2 n d (E - 1) = false.
Proof.
  intros Hn Hd. destruct (lt_pow2_log n d Hn Hd) as [H1 H2]. unfold ratio_ex.
  destruct (lt_pow2 n d (Z.log2 n - Z.log2 d)) eqn:E; eexists; (split; [reflexivity|]); [done|].
  split; [done|]. by replace (_ + 1 - 1) with (Z.log2 n - Z.log2 d) by lia.
Qed.

Lemma ratio_ex_scale n d j : 0 < n -> 0 < d -> 0 < j -> ratio_ex (n * j) (d * j) = ratio_ex n d.
Proof.
  intros Hn Hd Hj. destruct (ratio_ex_spec n d Hn Hd) as (E & -> & H1 & H2).
  destruct (ratio_ex_spec (n * j) (d * j)) as (E' & -> & H1' & H2'); [nia..|].
  rewrite lt_pow2_scale in H1', H2' by done. f_equal. f_equal.
  destruct (decide (E = E')) as [|]; [done|]. exfalso. destruct (decide (E < E')).
  - rewrite (lt_pow2_mono n d E (E' - 1)) in H2' by (lia || done). done.
  - rewrite (lt_pow2_mono n d E' (E - 1)) in H2 by (lia || done). done.
Qed.

Lemma round_even_scale num den j : 0 < den -> 0 < j -> round_even (num * j) (den * j) = round_even num den.
Proof.
  intros Hd Hj. unfold round_even. rewrite Z.div_mul_cancel_r, Z.mul_mod_distr_r by lia.
  replace (den * j <? 2 * (num mod den * j)) with (den <? 2 * (num mod den))
    by (apply eq_true_iff_eq; rewrite !Z.ltb_lt; nia).
  by replace (den * j =? 2 * (num mod den * j)) with (den =? 2 * (num mod den))
    by (apply eq_true_iff_eq; rewrite !Z.eqb_eq; nia).
Qed.

Lemma f64_of_ratio_scale neg n d j :
  0 <= n -> 0 < d -> 0 < j -> f64_of_ratio neg (n * j) (d * j) = f64_of_ratio neg n d.
Proof.
  intros Hn Hd Hj. unfold f64_of_ratio. destruct (decide (n = 0)) as [->|]; [done|].
  zfalse (n =? 0). zfalse (n * j =? 0). rewrite ratio_ex_scale by lia. unfold scaled.
  destruct (0 <=? ratio_ex n d) eqn:E; zb; cbn [fst snd].
  - replace (d * j * 2 ^ ratio_ex n d) with (d * 2 ^ ratio_ex n d * j) by lia.
    rewrite round_even_scale; [done| |done]. pose proof (Z.pow_pos_nonneg 2 (ratio_ex n d)). nia.
  - replace (n * j * 2 ^ (- ratio_ex n d)) with (n * 2 ^ (- ratio_ex n d) * j) by lia.
    by rewrite round_even_scale.
Qed.

(** Decimals that denote the same rational convert to the same double. *)
Lemma to_f64_value x y s :
  bd_wf x -> bd_wf y -> scale x <= s -> scale y <= s -> at_scale x s = at_scale y s ->
  to_f64 x = to_f64 y.
Proof.
  intros Wx Wy Sx Sy E.
  assert (forall z, bd_wf z -> scale z <= s ->
    to_f64 z = f64_of_ratio (negative z) (mval (digits z) * 10 ^ (s - scale z)) (10 ^ s)
    /\ 0 <= mval (digits z) * 10 ^ (s - scale z)
    /\ (mval (digits z) * 10 ^ (s - scale z) = 0 -> negative z = false)) as H.
  { intros z Wz Sz. pose proof (wf_scale _ Wz). pose proof (mval_bounds _ (wf_digits _ Wz)).
    pose proof (Z.pow_pos_nonneg 10 (s - scale z)). pose proof (Z.pow_pos_nonneg 10 (scale z)).
    split_and!; [|nia|].
    - unfold to_f64. rewrite <- (f64_of_ratio_scale _ _ (10 ^ scale z) (10 ^ (s - scale z))) by lia.
      rewrite <- Z.pow_add_r by lia. do 2 f_equal. lia.
    - intros Z0. apply (wf_sign _ Wz). unfold unscaled. apply Z.mul_eq_0 in Z0 as [->|]; [apply Z.mul_0_r|lia]. }
  destruct (H x Wx Sx) as (-> & Px & Nx). destruct (H y Wy Sy) as (-> & Py & Ny).
  unfold at_scale, unscaled in E. rewrite <- !Z.mul_assoc in E.
  set (mx := mval (digits x) * _) in *. set (my := mval (digits y) * _) in *.
  destruct (negative x) eqn:Ex, (negative y) eqn:Ey.
  - f_equal. lia.
  - assert (mx = 0) as Z0 by lia. discriminate (Nx Z0).
  - assert (my = 0) as Z0 by lia. discriminate (Ny Z0).
  - f_equal. lia.
Qed.
