(* ===== verification/BTree.v ===== *)
(** The part of [std::collections::BTreeMap] the index code uses, as an
    association list in key order, over an arbitrary comparison function.  The
    map is only lawful on keys on which the comparison is a total preorder;
    [KeyOrder] states that interface, the lemmas here are proved against it and
    the key types of the program discharge it. *)

From S2P Require Import Prelude.

(** * Definitions *)

Class KeyOrder {K : Type} (cmp : K -> K -> comparison) (ok : K -> Prop) : Prop := {
  key_refl k : ok k -> cmp k k = Eq;
  key_antisym a b : ok a -> ok b -> cmp b a = CompOpp (cmp a b);
  key_trans a b c : ok a -> ok b -> ok c -> cmp a b <> Gt -> cmp b c <> Gt -> cmp a c <> Gt
}.

Arguments key_refl {K} cmp {ok KeyOrder} k.
Arguments key_antisym {K} cmp {ok KeyOrder} a b.
Arguments key_trans {K} cmp {ok KeyOrder} a b c.

(** [Ord] for slices: lexicographic, a proper prefix first. *)
Fixpoint list_cmp {A} (cmp : A -> A -> comparison) (a b : list A) : comparison :=
  match a, b with
  | [], [] => Eq
  | [], _ :: _ => Lt
  | _ :: _, [] => Gt
  | x :: a, y :: b => match cmp x y with Eq => list_cmp cmp a b | c => c end
  end.

Section btree.
Context {K V : Type} (cmp : K -> K -> comparison).

(** [BTreeMap::get] *)
Fixpoint bt_get (k : K) (m : list (K * V)) : option V :=
  match m with
  | [] => None
  | (k', v) :: m => match cmp k k' with Eq => Some v | Lt => None | Gt => bt_get k m end
  end.

(** [*map.entry(k).or_default() = f(..)]: an existing key is kept. *)
Fixpoint bt_upsert (k : K) (f : option V -> V) (m : list (K * V)) : list (K * V) :=
  match m with
  | [] => [(k, f None)]
  | (k', v) :: m' =>
      match cmp k k' with
      | Lt => (k, f None) :: m
      | Eq => (k', f (Some v)) :: m'
      | Gt => (k', v) :: bt_upsert k f m'
      end
  end.

(** [get_mut] followed by [remove] when [f] says so. *)
Fixpoint bt_update (k : K) (f : V -> option V) (m : list (K * V)) : list (K * V) :=
  match m with
  | [] => []
  | (k', v) :: m' =>
      match cmp k k' with
      | Lt => m
      | Eq => match f v with Some v' => (k', v') :: m' | None => m' end
      | Gt => (k', v) :: bt_update k f m'
      end
  end.

(** [std::ops::Bound] and [BTreeMap::range], which panics when the start lies
    after the end, or equals it with both excluded. *)
Inductive RangeBound := Included (k : K) | Excluded (k : K) | Unbounded.

Definition after_start (b : RangeBound) (k : K) : bool :=
  match b with
  | Included s => match cmp s k with Gt => false | _ => true end
  | Excluded s => match cmp s k with Lt => true | _ => false end
  | Unbounded => true
  end.
Definition before_end (b : RangeBound) (k : K) : bool :=
  match b with
  | Included e => match cmp k e with Gt => false | _ => true end
  | Excluded e => match cmp k e with Lt => true | _ => false end
  | Unbounded => true
  end.
Definition range_valid (s e : RangeBound) : bool :=
  match s, e with
  | Excluded s, Excluded e => match cmp s e with Lt => true | _ => false end
  | Included s, (Included e | Excluded e) | Excluded s, Included e =>
      match cmp s e with Gt => false | _ => true end
  | _, _ => true
  end.
Definition bt_range (s e : RangeBound) (m : list (K * V)) : run (list (K * V)) :=
  if range_valid s e
  then Val (List.filter (fun kv => after_start s (fst kv) && before_end e (fst kv)) m)
  else Panic.

End btree.
Arguments Unbounded {K}.

(** * The order *)

Section order.
Context {K : Type} (cmp : K -> K -> comparison) {ok : K -> Prop} `{!KeyOrder cmp ok}.

Lemma key_gt a b : ok a -> ok b -> cmp a b = Gt <-> cmp b a = Lt.
Proof. intros A B. rewrite (key_antisym cmp a b A B). by destruct (cmp a b). Qed.

Lemma key_eq_sym a b : ok a -> ok b -> cmp a b = Eq -> cmp b a = Eq.
Proof. intros A B E. by rewrite (key_antisym cmp a b A B), E. Qed.

Lemma key_lt_le a b c : ok a -> ok b -> ok c -> cmp a b = Lt -> cmp b c <> Gt -> cmp a c = Lt.
Proof.
  intros A B C L G. pose proof (key_trans cmp a b c A B C ltac:(congruence) G) as N.
  destruct (cmp a c) eqn:E; [|done|done]. exfalso.
  apply (key_trans cmp b c a B C A); [done| |by apply (key_gt)].
  rewrite (key_antisym cmp a c A C), E. discriminate.
Qed.

Lemma key_le_lt a b c : ok a -> ok b -> ok c -> cmp a b <> Gt -> cmp b c = Lt -> cmp a c = Lt.
Proof.
  intros A B C G L. pose proof (key_trans cmp a b c A B C G ltac:(congruence)) as N.
  destruct (cmp a c) eqn:E; [|done|done]. exfalso.
  apply (key_trans cmp c a b C A B); [|done|by apply (key_gt)].
  rewrite (key_antisym cmp a c A C), E. discriminate.
Qed.

(** Equivalent keys compare alike with every key. *)
Lemma key_eq_l a b c : ok a -> ok b -> ok c -> cmp a b = Eq -> cmp a c = cmp b c.
Proof.
  intros A B C E. destruct (cmp b c) eqn:F.
  - pose proof (key_trans cmp a b c A B C ltac:(congruence) ltac:(congruence)) as N.
    destruct (cmp a c) eqn:G; [done| |done]. exfalso.
    assert (cmp b c = Lt) as L by (apply (key_le_lt b a c); [done..| |done];
      rewrite (key_eq_sym a b A B E); discriminate).
    congruence.
  - apply (key_le_lt a b c); [done..|congruence|done].
  - apply (key_gt) in F; [|done..]. apply (key_gt); [done..|].
    apply (key_lt_le c b a); [done..|]. rewrite (key_eq_sym a b A B E). discriminate.
Qed.

Lemma key_eq_r a b c : ok a -> ok b -> ok c -> cmp a b = Eq -> cmp c a = cmp c b.
Proof.
  intros A B C E. rewrite (key_antisym cmp a c A C), (key_antisym cmp b c B C). by rewrite (key_eq_l a b c).
Qed.

End order.

(** Slices of lawfully ordered elements are lawfully ordered, even when each
    position has its own domain. *)
Section lists.
Context {A : Type} (cmp : A -> A -> comparison).

Definition list_ok (okn : nat -> A -> Prop) (l : list A) : Prop := forall i x, l !! i = Some x -> okn i x.

Lemma list_ok_cons okn x l : list_ok okn (x :: l) <-> okn 0%nat x /\ list_ok (fun i => okn (S i)) l.
Proof.
  split.
  - intros H. split; [by apply H|]. intros i y. apply (H (S i)).
  - intros [H0 H] [|i] y E; [by injection E as ->|by apply H].
Qed.

#[export] Instance list_KeyOrder okn : (forall i, KeyOrder cmp (okn i)) -> KeyOrder (list_cmp cmp) (list_ok okn).
Proof.
  intros O. split.
  - intros k. revert okn O. induction k as [|x k IH]; intros okn O; [done|]. intros [Hx Hk]%list_ok_cons.
    cbn. rewrite (key_refl cmp (ok := okn 0%nat)) by done. by apply (IH (fun i => okn (S i))).
  - intros a. revert okn O. induction a as [|x a IH]; intros okn O [|y b] Ha Hb; try done.
    apply list_ok_cons in Ha as [Hx Ha]. apply list_ok_cons in Hb as [Hy Hb]. cbn.
    rewrite (key_antisym cmp (ok := okn 0%nat) x y) by done. destruct (cmp x y); cbn; [|done|done].
    by apply (IH (fun i => okn (S i))).
  - intros a. revert okn O. induction a as [|x a IH]; intros okn O [|y b] [|z c] Ha Hb Hc; try done.
    apply list_ok_cons in Ha as [Hx Ha]. apply list_ok_cons in Hb as [Hy Hb]. apply list_ok_cons in Hc as [Hz Hc].
    cbn. destruct (cmp x y) eqn:E; [| |done].
    + rewrite (key_eq_l cmp (ok := okn 0%nat) x y z) by done. destruct (cmp y z); [|done|done].
      by apply (IH (fun i => okn (S i))).
    + intros _ H. rewrite (key_lt_le cmp (ok := okn 0%nat) x y z); try done. by destruct (cmp y z).
Qed.

End lists.

#[export] Instance Z_KeyOrder : KeyOrder Z.compare (fun _ => True).
Proof.
  split; intros; [apply Z.compare_refl|apply Z.compare_antisym|].
  rewrite !Z.compare_le_iff in *. lia.
Qed.

(** * The map *)

Section map.
Context {K V : Type} {cmp : K -> K -> comparison} {ok : K -> Prop} `{!KeyOrder cmp ok}.
Implicit Types (m : list (K * V)) (k j : K).

Fixpoint bt_sorted m : Prop :=
  match m with
  | [] => True
  | (k, _) :: m' => ok k /\ (forall kv, kv ∈ m' -> cmp k (fst kv) = Lt) /\ bt_sorted m'
  end.

Lemma bt_sorted_ok m kv : bt_sorted m -> kv ∈ m -> ok (fst kv).
Proof.
  induction m as [|[k v] m IH]; [by intros _ ?%elem_of_nil|]. intros (Hk & _ & S) [->|]%elem_of_cons; [done|]. by apply IH.
Qed.

Lemma bt_get_below k m : bt_sorted m -> ok k -> (forall kv, kv ∈ m -> cmp k (fst kv) = Lt) -> bt_get cmp k m = None.
Proof. destruct m as [|[k' v] m]; [done|]. intros _ _ H. cbn. pose proof (H (k', v) ltac:(apply list_elem_of_here)) as E. cbn in E. by rewrite E. Qed.

Lemma bt_get_elem k m v : bt_sorted m -> ok k ->
  bt_get cmp k m = Some v <-> exists k', (k', v) ∈ m /\ cmp k k' = Eq.
Proof.
  induction m as [|[k' v'] m IH]; intros S Hk.
  { split; [done|]. by intros (? & ?%elem_of_nil & _). }
  destruct S as (Hk' & L & S). cbn. destruct (cmp k k') eqn:E.
  - split.
    + intros [= <-]. exists k'. split; [apply list_elem_of_here|done].
    + intros (k'' & [[= -> ->]|H]%elem_of_cons & F); [done|]. exfalso.
      pose proof (bt_sorted_ok m _ S H) as O. rewrite (key_eq_l cmp k k' k'') in F by done. pose proof (L _ H) as G. cbn in G. congruence.
  - split; [done|]. intros (k'' & [[= -> ->]|H]%elem_of_cons & F); [congruence|]. exfalso.
    pose proof (bt_sorted_ok m _ S H) as O.
    rewrite (key_lt_le cmp k k' k'') in F; [done|done..|]. pose proof (L _ H) as G. cbn in G. congruence.
  - rewrite IH by done. split.
    + intros (k'' & H & F). exists k''. split; [by apply list_elem_of_further|done].
    + intros (k'' & [[= -> ->]|H]%elem_of_cons & F); [congruence|]. by exists k''.
Qed.

Lemma bt_get_stored m k v : bt_sorted m -> (k, v) ∈ m -> bt_get cmp k m = Some v.
Proof.
  intros S H. pose proof (bt_sorted_ok m _ S H). apply bt_get_elem; [done..|]. exists k. split; [done|]. by apply (key_refl cmp).
Qed.

Lemma bt_upsert_keys k f m kv : kv ∈ bt_upsert cmp k f m -> fst kv = k \/ exists kv', kv' ∈ m /\ fst kv' = fst kv.
Proof.
  induction m as [|[k' v'] m IH]; cbn.
  - intros ->%list_elem_of_singleton. by left.
  - destruct (cmp k k').
    + intros [->|H]%elem_of_cons; right; [exists (k', v')|exists kv];
        (split; [|done]); [apply list_elem_of_here|by apply list_elem_of_further].
    + intros [->|H]%elem_of_cons; [by left|]. right. by exists kv.
    + intros [->|H]%elem_of_cons.
      * right. exists (k', v'). split; [apply list_elem_of_here|done].
      * destruct (IH H) as [|(kv' & ? & ?)]; [by left|]. right. exists kv'.
        split; [by apply list_elem_of_further|done].
Qed.

Lemma bt_upsert_sorted k f m : bt_sorted m -> ok k -> bt_sorted (bt_upsert cmp k f m).
Proof.
  induction m as [|[k' v'] m IH]; intros S Hk.
  { split_and!; [done| |done]. by intros ? ?%elem_of_nil. }
  destruct S as (Hk' & L & S). cbn. destruct (cmp k k') eqn:E.
  - done.
  - split_and!; [done| |done]. intros kv [->|H]%elem_of_cons; [done|].
    pose proof (bt_sorted_ok m _ S H). apply (key_lt_le cmp k k' kv.1); [done..|]. by rewrite (L _ H).
  - split_and!; [done| |by apply IH]. intros kv H.
    destruct (bt_upsert_keys _ _ _ _ H) as [->|(kv' & H' & <-)]; [by apply (key_gt cmp)|by apply L].
Qed.

Lemma bt_upsert_get k f m j : bt_sorted m -> ok k -> ok j ->
  bt_get cmp j (bt_upsert cmp k f m)
  = match cmp j k with Eq => Some (f (bt_get cmp k m)) | _ => bt_get cmp j m end.
Proof.
  induction m as [|[k' v'] m IH]; intros S Hk Hj; cbn; [done|]. destruct S as (Hk' & L & S).
  destruct (cmp k k') eqn:E; cbn.
  - rewrite (key_eq_r cmp k k' j) by done. by destruct (cmp j k').
  - destruct (cmp j k) eqn:F; [done| |done]. by rewrite (key_lt_le cmp j k k') by (done || congruence).
  - rewrite IH by done. destruct (cmp j k) eqn:F; [|destruct (cmp j k'); done..].
    by rewrite (key_eq_l cmp j k k'), E by done.
Qed.

Lemma bt_update_subset k f m kv : kv ∈ bt_update cmp k f m -> exists kv', kv' ∈ m /\ fst kv' = fst kv.
Proof.
  induction m as [|[k' v'] m IH]; cbn; [by intros ?%elem_of_nil|].
  destruct (cmp k k').
  - destruct (f v') as [w|]; [intros [->|H]%elem_of_cons|intros H].
    + exists (k', v'). split; [apply list_elem_of_here|done].
    + exists kv. split; [by apply list_elem_of_further|done].
    + exists kv. split; [by apply list_elem_of_further|done].
  - intros H. by exists kv.
  - intros [->|H]%elem_of_cons.
    + exists (k', v'). split; [apply list_elem_of_here|done].
    + destruct (IH H) as (kv' & ? & ?). exists kv'. split; [by apply list_elem_of_further|done].
Qed.

Lemma bt_update_sorted k f m : bt_sorted m -> ok k -> bt_sorted (bt_update cmp k f m).
Proof.
  induction m as [|[k' v'] m IH]; intros S Hk; [done|]. destruct S as (Hk' & L & S). cbn.
  destruct (cmp k k'); [by destruct (f v')|done|].
  split_and!; [done| |by apply IH]. intros kv (kv' & H & <-)%bt_update_subset. by apply L.
Qed.

Lemma bt_update_get k f m j : bt_sorted m -> ok k -> ok j ->
  bt_get cmp j (bt_update cmp k f m)
  = match cmp j k with Eq => bt_get cmp k m ≫= f | _ => bt_get cmp j m end.
Proof.
  induction m as [|[k' v'] m IH]; intros S Hk Hj; cbn; [by destruct (cmp j k)|]. destruct S as (Hk' & L & S).
  destruct (cmp k k') eqn:E; cbn.
  - rewrite (key_eq_r cmp k k' j) by done.
    assert (forall j', ok j' -> cmp j' k' <> Gt -> bt_get cmp j' m = None) as B.
    { intros j' Hj' N. apply bt_get_below; [done..|]. intros kv H. apply (key_le_lt cmp j' k' kv.1); try done.
      - by apply (bt_sorted_ok m).
      - by apply L. }
    destruct (f v') as [w|]; cbn.
    + by destruct (cmp j k').
    + destruct (cmp j k') eqn:F; [..|done]; by rewrite B by (done || congruence).
  - destruct (cmp j k) eqn:F; [|done..]. by rewrite (key_eq_l cmp j k k'), E by done.
  - rewrite IH by done. destruct (cmp j k) eqn:F; [|destruct (cmp j k'); done..].
    by rewrite (key_eq_l cmp j k k'), E by done.
Qed.

Lemma bt_filter_sorted (p : K * V -> bool) m : bt_sorted m -> bt_sorted (List.filter p m).
Proof.
  induction m as [|[k v] m IH]; [done|]. intros (Hk & L & S). cbn.
  assert (forall kv, kv ∈ List.filter p m -> kv ∈ m) as Sub
    by (intros kv; rewrite !list_elem_of_In, List.filter_In; tauto).
  destruct (p (k, v)); [|by apply IH]. split_and!; [done| |by apply IH]. intros kv H. apply L. by apply Sub.
Qed.

End map.

Arguments bt_sorted {K V} cmp ok m.
