(* ===== verification/Index.v ===== *)
(** Secondary indexes, crates/engine/src/index.rs: key order and key encodings,
    the four stores (B-tree, hash, BRIN, GIN) and their maintenance and lookup
    operations.  An index refines a finite map from row ids to keys. *)

From S2P Require Import Prelude Utf8 Numeric Types Float BTree.
From stdpp Require Export gmap.
From Stdlib Require Import Sorted.

#[local] Open Scope Z_scope.

(** * Keys *)

Abbreviation RowId := Z (only parsing).

(** [numeric]; it is only called on numbers, the other arm is unreachable. *)
Definition numeric (v : Value) : Z :=
  match v with
  | Int i => i64_as_f64 i
  | Float f => f
  | Num n => to_f64 n
  | _ => 0
  end.

Definition type_rank (v : Value) : Z :=
  match v with
  | Bool _ => 0
  | Int _ => 1
  | Float _ => 2
  | Num _ => 2
  | Text _ => 3
  | Null => 4
  end.

(** [Ord] of [str] and of [bool]. *)
Definition str_cmp : str -> str -> comparison := list_cmp Z.compare.
Definition bool_cmp (a b : bool) : comparison := Z.compare (Z.b2z a) (Z.b2z b).

(** [IndexKey::cmp_value] *)
Definition cmp_value (a b : Value) : comparison :=
  match a, b with
  | Null, Null => Eq
  | Null, _ => Gt
  | _, Null => Lt
  | Int x, Int y => x ?= y
  | Bool x, Bool y => bool_cmp x y
  | Text x, Text y => str_cmp x y
  | Num x, Num y => bd_cmp x y
  | Int _, (Float _ | Num _) | Float _, (Int _ | Float _ | Num _) | Num _, (Int _ | Float _) =>
      default Eq (f64_partial_cmp (numeric a) (numeric b))
  | _, _ => type_rank a ?= type_rank b
  end.

(** [KeyVec]: the derived order of [Vec<IndexKey>]. *)
Definition key_cmp : list Value -> list Value -> comparison := list_cmp cmp_value.

(** The common part of [Float] and [Numeric] hash encodings. *)
Definition hash_f64 (f : Z) : str :=
  lit "i" ++ i64_display (f64_as_i64 f)
  ++ (if f64_has_fract f
      then lit "f" ++ (if is_nan f then lit "NaN"
                       else if is_infinite f then (if f64_neg f then lit "-inf" else lit "inf")
                       else f64_display f)
      else []).

Definition hash_value (v : Value) : str :=
  match v with
  | Null => lit "N|"
  | Int i => lit "i" ++ i64_display i
  | Float f => hash_f64 f
  | Num n => hash_f64 (to_f64 n)
  | Text t => lit "s" ++ t
  | Bool b => lit "b" ++ (if b then lit "1" else lit "0")
  end.

(** [hash_key] *)
Definition hash_key (values : list Value) : str := flat_map (fun v => hash_value v ++ lit "|") values.

Definition key_has_null (values : list Value) : bool := existsb is_null values.

(** ** GIN tokens *)

(** [push]: ends an element; an unquoted NULL is dropped. *)
Definition gin_push (cur : str) (was_quoted : bool) (out : list str) : list str :=
  if negb was_quoted && str_eqb (to_ascii_upper <$> cur) (lit "NULL") then out else out ++ [cur].

Fixpoint gin_scan (s cur : str) (quoted was_quoted escape : bool) (out : list str) : list str :=
  match s with
  | [] => gin_push cur was_quoted out
  | ch :: s =>
      if escape then gin_scan s (cur ++ [ch]) quoted was_quoted false out
      else if quoted then
        if ch =? 92 then gin_scan s cur quoted was_quoted true out
        else if ch =? 34 then gin_scan s cur false was_quoted escape out
        else gin_scan s (cur ++ [ch]) quoted was_quoted escape out
      else if ch =? 34 then gin_scan s cur true true escape out
      else if ch =? 44 then gin_scan s [] quoted false escape (gin_push cur was_quoted out)
      else gin_scan s (cur ++ [ch]) quoted was_quoted escape out
  end.

(** [gin_tokens] *)
Definition gin_tokens (value : Value) : list str :=
  match to_text value with
  | None => []
  | Some text =>
      if negb (bool_decide (head text = Some 123)) || negb (bool_decide (last text = Some 125)) then [text]
      else if zlen text =? 2 then []
      else gin_scan (zslice 1 (zlen text - 1) text) [] false false false []
  end.

(** [tokens.sort(); tokens.dedup()] *)
Fixpoint insert_token (t : str) (l : list str) : list str :=
  match l with
  | [] => [t]
  | u :: l' => match str_cmp t u with Lt => t :: l | Eq => l | Gt => u :: insert_token t l' end
  end.
Definition sort_dedup (l : list str) : list str := foldr insert_token [] l.

(** [key.into_iter().next().unwrap_or(Value::Null)] *)
Definition first_key (key : list Value) : Value := default Null (head key).
Definition key_tokens (key : list Value) : list str := sort_dedup (gin_tokens (first_key key)).

(** * Stores *)

Inductive IndexMethod := Btree | Hash | Gist | SpGist | Brin | Gin.

#[export] Instance IndexMethod_eq_dec : EqDecision IndexMethod.
Proof. solve_decision. Defined.

Definition is_ordered (m : IndexMethod) : bool :=
  match m with Btree | Gist | SpGist => true | _ => false end.

Definition BRIN_RANGE_SIZE : Z := 16.

Abbreviation BrinRange := (list (RowId * Value)) (only parsing).

Inductive Store :=
| SBtree (tree : list (list Value * list RowId))
| SHash (map : gmap str (list RowId))
| SBrin (ranges : list (Z * BrinRange))
| SGin (postings : gmap str (list RowId)) (all : list RowId).

Record Bound := mk_bound { b_value : Value; inclusive : bool }.

(** [empty_store] *)
Definition empty_store (m : IndexMethod) : Store :=
  match m with
  | Btree | Gist | SpGist => SBtree []
  | Hash => SHash ∅
  | Brin => SBrin []
  | Gin => SGin ∅ []
  end.

(** [Vec::swap_remove] at a valid position, and its use to drop one row id. *)
Definition swap_remove {A} (pos : nat) (l : list A) : list A :=
  match last l with
  | Some x => take (length l - 1) (<[pos := x]> l)
  | None => l
  end.
Definition remove_where {A} (p : A -> Prop) `{!forall x, Decision (p x)} (l : list A) : list A :=
  match list_find p l with
  | Some (pos, _) => swap_remove pos l
  | None => l
  end.
Definition remove_id (id : RowId) (ids : list RowId) : list RowId := remove_where (fun r => r = id) ids.

(** [None] when the entry became empty and is removed. *)
Definition nonempty_vec {A} (l : list A) : option (list A) := match l with [] => None | _ => Some l end.

Definition push_id (id : RowId) (o : option (list RowId)) : list RowId := default [] o ++ [id].

(** [Index::insert] *)
Definition store_insert (s : Store) (key : list Value) (id : RowId) : Store :=
  match s with
  | SBtree tree => SBtree (bt_upsert key_cmp key (push_id id) tree)
  | SHash m =>
      if key_has_null key then s
      else SHash (<[hash_key key := push_id id (m !! hash_key key)]> m)
  | SBrin ranges =>
      SBrin (bt_upsert Z.compare (id / BRIN_RANGE_SIZE)
               (fun o => default [] o ++ [(id, first_key key)]) ranges)
  | SGin postings all =>
      SGin (foldl (fun p tok => <[tok := push_id id (p !! tok)]> p) postings (key_tokens key)) (all ++ [id])
  end.

(** The hash-map variant of [get_mut], [swap_remove] and [remove] when empty. *)
Definition drop_posting (id : RowId) (m : gmap str (list RowId)) (k : str) : gmap str (list RowId) :=
  match m !! k with
  | Some ids => match nonempty_vec (remove_id id ids) with Some ids' => <[k := ids']> m | None => delete k m end
  | None => m
  end.

(** [Index::remove] *)
Definition store_remove (s : Store) (key : list Value) (id : RowId) : Store :=
  match s with
  | SBtree tree => SBtree (bt_update key_cmp key (fun ids => nonempty_vec (remove_id id ids)) tree)
  | SHash m => if key_has_null key then s else SHash (drop_posting id m (hash_key key))
  | SBrin ranges =>
      SBrin (bt_update Z.compare (id / BRIN_RANGE_SIZE)
               (fun ms => nonempty_vec (remove_where (fun rv => fst rv = id) ms)) ranges)
  | SGin postings all =>
      SGin (foldl (drop_posting id) postings (key_tokens key)) (remove_id id all)
  end.

(** ** Lookups *)

(** [BrinRange::min_max] *)
Definition min_max (ms : BrinRange) : option (Value * Value) :=
  match List.filter (fun v => negb (is_null v)) (snd <$> ms) with
  | [] => None
  | first :: it =>
      Some (foldl (fun '(lo, hi) v =>
        (match cmp_value v lo with Lt => v | _ => lo end,
         match cmp_value v hi with Gt => v | _ => hi end)) (first, first) it)
  end.

(** [brin_range_overlaps] *)
Definition brin_range_overlaps (rmin rmax : Value) (lo hi : option Bound) : bool :=
  match lo with
  | Some b => match cmp_value rmax (b_value b) with
              | Lt => false
              | Eq => inclusive b
              | Gt => true
              end
  | None => true
  end &&
  match hi with
  | Some b => match cmp_value rmin (b_value b) with
              | Gt => false
              | Eq => inclusive b
              | Lt => true
              end
  | None => true
  end.

Definition brin_lookup (ranges : list (Z * BrinRange)) (lo hi : option Bound) : list RowId :=
  flat_map (fun '(_, ms) =>
    match min_max ms with
    | None => []
    | Some (rmin, rmax) =>
        if brin_range_overlaps rmin rmax lo hi
        then fst <$> List.filter (fun rv => negb (is_null (snd rv))) ms
        else []
    end) ranges.

(** [Index::lookup_eq] *)
Definition store_lookup_eq (s : Store) (key : list Value) : list RowId :=
  match s with
  | SBtree tree => default [] (bt_get key_cmp key tree)
  | SHash m => if key_has_null key then [] else default [] (m !! hash_key key)
  | SBrin ranges =>
      match key with
      | [] => []
      | v :: _ =>
          if is_null v then []
          else brin_lookup ranges (Some (mk_bound v true)) (Some (mk_bound v true))
      end
  | SGin _ all => all
  end.

(** The intersection loop of [lookup_gin_contains]. *)
Fixpoint gin_intersect (postings : gmap str (list RowId)) (needles : list str)
    (result : option (list RowId)) : list RowId :=
  match needles with
  | [] => default [] result
  | needle :: needles =>
      match postings !! needle with
      | None => []
      | Some ids =>
          gin_intersect postings needles
            (Some (match result with
                   | None => ids
                   | Some prev => filter (fun r => r ∈ ids) prev
                   end))
      end
  end.

(** [Index::lookup_gin_contains] *)
Definition store_gin_contains (s : Store) (needles : list str) : option (list RowId) :=
  match s with
  | SGin postings all => Some (match needles with [] => all | _ => gin_intersect postings needles None end)
  | _ => None
  end.

(** [Index::all_row_ids] *)
Definition store_all (s : Store) : list RowId :=
  match s with
  | SBtree tree => flat_map snd tree
  | SHash m => flat_map snd (map_to_list m)
  | SBrin ranges => flat_map (fun r => fst <$> snd r) ranges
  | SGin _ all => all
  end.

(** [Index::lookup_prefix] *)
Definition store_lookup_prefix (s : Store) (prefix : list Value) : list RowId :=
  match s with
  | SBtree tree =>
      flat_map (fun '(key, ids) =>
        if (length key <? length prefix)%nat then []
        else if forallb (fun '(p, k) => match cmp_value p k with Eq => true | _ => false end) (zip prefix key)
        then ids else []) tree
  | _ => []
  end.

(** [Index::lookup_range] *)
Definition range_start (lo : option Bound) : RangeBound :=
  match lo with
  | Some b => if inclusive b then Included [b_value b] else Excluded [b_value b]
  | None => Unbounded
  end.
Definition range_end (hi : option Bound) : RangeBound :=
  match hi with
  | Some b => if inclusive b then Included [b_value b] else Excluded [b_value b]
  | None => Excluded [Null]
  end.
Definition store_lookup_range (s : Store) (lo hi : option Bound) : run (list RowId) :=
  match s with
  | SBrin ranges => Val (brin_lookup ranges lo hi)
  | SBtree tree =>
      entries ← bt_range key_cmp (range_start lo) (range_end hi) tree;
      Val (flat_map (fun '(key, ids) =>
             if default true (is_null <$> head key) then [] else ids) entries)
  | _ => Val []
  end.

(** ** The index record *)

(** Expressions of expression and partial indexes stay abstract here. *)
Record Index (Expr : Type) := mk_index {
  idx_name : str;
  idx_columns : list Z;
  idx_expr : option Expr;
  idx_predicate : option Expr;
  idx_include : list Z;
  idx_unique : bool;
  idx_method : IndexMethod;
  idx_store : Store
}.
Arguments mk_index {Expr}.
Arguments idx_name {Expr}.
Arguments idx_columns {Expr}.
Arguments idx_expr {Expr}.
Arguments idx_predicate {Expr}.
Arguments idx_include {Expr}.
Arguments idx_unique {Expr}.
Arguments idx_method {Expr}.
Arguments idx_store {Expr}.

Section index.
Context {Expr : Type}.
Implicit Types i : Index Expr.

Definition new_multi (name : str) (columns : list Z) (unique : bool) (method : IndexMethod) : Index Expr :=
  mk_index name columns None None [] unique method (empty_store method).
Definition index_new (name : str) (column : Z) (unique : bool) : Index Expr := new_multi name [column] unique Btree.
Definition leading_column i : option Z := head (idx_columns i).
Definition with_store i (s : Store) : Index Expr :=
  mk_index (idx_name i) (idx_columns i) (idx_expr i) (idx_predicate i) (idx_include i) (idx_unique i) (idx_method i) s.
Definition index_insert i (key : list Value) (id : RowId) : Index Expr := with_store i (store_insert (idx_store i) key id).
Definition index_remove i (key : list Value) (id : RowId) : Index Expr := with_store i (store_remove (idx_store i) key id).
Definition index_clear i : Index Expr := with_store i (empty_store (idx_method i)).

End index.

(** * Examples *)

Example gin_tokens_ex : gin_tokens (Text (lit "{a,NULL,\c d\,b}")) = lit <$> ["a"; "\c d\"; "b"]%string.
Proof. vm_compute. reflexivity. Qed.
Example hash_key_ex : hash_key [Int 1; Float 4607182418800017408; Num (mk_bd false [1; 0] 1); Bool true]
  = lit "i1|i1|i1|b1|".
Proof. vm_compute. reflexivity. Qed.

(** * Specification *)

(** Columns are homogeneous: each holds values of one kind, or NULL.  Across
    kinds the comparison is not transitive (see [index_order_not_transitive]). *)
Inductive Kind := KInt | KFloat | KNum | KText | KBool.

Definition kind_ok (c : Kind) (v : Value) : Prop :=
  match v with
  | Null => True
  | Int _ => c = KInt
  | Float f => c = KFloat /\ in_u 64 f /\ is_nan f = false
  | Num n => c = KNum /\ bd_wf n
  | Text _ => c = KText
  | Bool _ => c = KBool
  end.

Definition key_ok (kinds : nat -> Kind) : list Value -> Prop := list_ok (fun i => kind_ok (kinds i)).

(** What an index tracks: the finite map from row ids to keys that its
    insertions and removals produce. *)
Inductive tracks (kinds : nat -> Kind) (m : IndexMethod) : Store -> gmap RowId (list Value) -> Prop :=
| tracks_empty : tracks kinds m (empty_store m) ∅
| tracks_insert s A key id :
    tracks kinds m s A -> A !! id = None -> key_ok kinds key ->
    tracks kinds m (store_insert s key id) (<[id := key]> A)
| tracks_remove s A key id :
    tracks kinds m s A -> A !! id = Some key ->
    tracks kinds m (store_remove s key id) (delete id A).

(** The row ids whose key is equivalent to [k]. *)
Definition hits (A : gmap RowId (list Value)) (k : list Value) (id : RowId) : Prop :=
  exists k', A !! id = Some k' /\ key_cmp k k' = Eq.

Definition in_range (lo hi : option Bound) (v : Value) : bool :=
  match lo with
  | Some b => match cmp_value (b_value b) v with Lt => true | Eq => inclusive b | Gt => false end
  | None => true
  end &&
  match hi with
  | Some b => match cmp_value v (b_value b) with Lt => true | Eq => inclusive b | Gt => false end
  | None => true
  end.

(** * The key order *)

#[export] Instance str_KeyOrder : KeyOrder str_cmp (fun _ => True).
Proof.
  destruct (list_KeyOrder Z.compare (fun _ _ => True) (fun _ => Z_KeyOrder)) as [R S T].
  split; intros; [apply R|apply S|eapply T]; done.
Qed.

Lemma str_cmp_eq a b : str_cmp a b = Eq <-> a = b.
Proof.
  revert b. induction a as [|x a IH]; intros [|y b]; try done. cbn. destruct (Z.compare_spec x y) as [->| |].
  - fold str_cmp. rewrite IH. split; [by intros ->|by intros [=]].
  - split; [done|]. intros [= -> ->]. lia.
  - split; [done|]. intros [= -> ->]. lia.
Qed.

Lemma bd_cmp_eq_scale x y : bd_wf x -> bd_wf y ->
  bd_cmp x y = (at_scale x (Z.max (scale x) (scale y)) ?= at_scale y (Z.max (scale x) (scale y))).
Proof. intros. apply bd_cmp_ok; [done..|lia|lia]. Qed.

#[export] Instance value_KeyOrder c : KeyOrder cmp_value (kind_ok c).
Proof.
  split.
  - intros []; cbn; intros H; try done; try apply Z.compare_refl; try (unfold f64_partial_cmp).
    + destruct H as (_ & _ & ->). cbn. apply Z.compare_refl.
    + destruct H as [_ W]. rewrite bd_cmp_eq_scale by done. apply Z.compare_refl.
    + by apply str_cmp_eq.
  - intros [] [] Ha Hb; cbn in *; try done; try (intuition congruence); try apply Z.compare_antisym.
    + destruct Ha as (_ & _ & Na), Hb as (_ & _ & Nb). unfold f64_partial_cmp. rewrite Na, Nb. apply Z.compare_antisym.
    + destruct Ha as [_ Wa], Hb as [_ Wb]. rewrite !bd_cmp_eq_scale, (Z.max_comm (scale n0)) by done. apply Z.compare_antisym.
    + by apply (key_antisym str_cmp).
  - intros [] [] [] Ha Hb Hc; cbn in *; try done; try (intuition congruence); try (rewrite !Z.compare_le_iff; lia).
    + destruct Ha as (_ & _ & Na), Hb as (_ & _ & Nb), Hc as (_ & _ & Nc).
      unfold f64_partial_cmp. rewrite Na, Nb, Nc. cbn. rewrite !Z.compare_le_iff. lia.
    + destruct Ha as [_ Wa], Hb as [_ Wb], Hc as [_ Wc].
      set (s := Z.max (scale n) (Z.max (scale n0) (scale n1))).
      rewrite (bd_cmp_ok n n0 s), (bd_cmp_ok n0 n1 s), (bd_cmp_ok n n1 s) by (done || lia).
      rewrite !Z.compare_le_iff. lia.
    + by apply (key_trans str_cmp).
    + unfold bool_cmp. rewrite !Z.compare_le_iff. lia.
Qed.

#[export] Instance key_KeyOrder kinds : KeyOrder key_cmp (key_ok kinds).
Proof. apply list_KeyOrder. intros i. apply value_KeyOrder. Qed.

(** * Vectors of row ids *)

Lemma list_snoc_cases {A} (l : list A) : l = [] \/ exists l' x, l = l' ++ [x].
Proof. destruct l using rev_ind; [by left|]. right. by exists l, x. Qed.

Lemma swap_remove_perm {A} (l : list A) pos y : l !! pos = Some y -> l ≡ₚ y :: swap_remove pos l.
Proof.
  intros E. pose proof (take_drop_middle l pos y E) as D. pose proof (lookup_lt_Some _ _ _ E) as Lt.
  set (l1 := take pos l) in *. assert (length l1 = pos) as L1 by (unfold l1; rewrite length_take; lia).
  clearbody l1. set (r := drop (S pos) l) in *. clearbody r. subst l. clear E Lt. unfold swap_remove.
  destruct (list_snoc_cases r) as [->|(l2 & x & ->)].
  - rewrite last_snoc, length_app. cbn. rewrite insert_app_r_alt, L1, Nat.sub_diag by lia. cbn.
    rewrite take_app_length' by lia. by rewrite <- Permutation_cons_append.
  - change (l1 ++ y :: l2 ++ [x]) with (l1 ++ (y :: l2) ++ [x]). rewrite app_assoc, last_snoc.
    rewrite length_app. cbn [length]. rewrite <- app_assoc, insert_app_r_alt, L1, Nat.sub_diag by lia. cbn.
    replace (l1 ++ x :: l2 ++ [x]) with ((l1 ++ x :: l2) ++ [x]) by (by rewrite <- app_assoc).
    rewrite take_app_length' by (rewrite !length_app; cbn; lia).
    rewrite <- Permutation_middle. constructor. apply Permutation_app_head. symmetry.
    apply Permutation_cons_append.
Qed.

Section remove.
Context {A : Type} (p : A -> Prop) `{!forall x, Decision (p x)}.

Lemma remove_where_perm l : (exists y, p y /\ l ≡ₚ y :: remove_where p l) \/ (remove_where p l = l /\ Forall (fun x => ~ p x) l).
Proof.
  unfold remove_where. destruct (list_find p l) as [[pos y]|] eqn:E.
  - apply list_find_Some in E as (E & Hp & _). left. exists y. split; [done|]. by apply swap_remove_perm.
  - right. split; [done|]. by apply (list_find_None p l) in E.
Qed.

(** Dropping the one element with a given projection. *)
Lemma remove_where_spec {B} (g : A -> B) b l :
  (forall x, p x <-> g x = b) -> NoDup (g <$> l) ->
  NoDup (g <$> remove_where p l) /\ forall x, x ∈ remove_where p l <-> x ∈ l /\ g x <> b.
Proof.
  intros Hp N. destruct (remove_where_perm l) as [(y & Hy & P)|[E F]].
  - assert (g <$> l ≡ₚ g y :: (g <$> remove_where p l)) as P2 by (by rewrite P at 1).
    rewrite P2 in N. apply NoDup_cons in N as [Ny N]. apply Hp in Hy. split; [done|]. intros x.
    rewrite (elem_of_Permutation_proper x _ _ P), elem_of_cons. split.
    + intros Hx. split; [by right|]. intros E. apply Ny. rewrite Hy, <- E. by apply list_elem_of_fmap_2.
    + intros [[->|Hx] E]; [congruence|done].
  - rewrite E. split; [done|]. intros x. rewrite Forall_forall in F. split; [|tauto].
    intros Hx. split; [done|]. intros G. by apply (F x Hx), Hp.
Qed.

End remove.

Lemma remove_id_spec id l : NoDup l -> NoDup (remove_id id l) /\ forall x, x ∈ remove_id id l <-> x ∈ l /\ x <> id.
Proof.
  intros N. destruct (remove_where_spec (fun r => r = id) (fun r => r) id l) as [N' E];
    rewrite ?list_fmap_id in *; done.
Qed.

Lemma default_nonempty_vec {A} (l : list A) : default [] (nonempty_vec l) = l.
Proof. by destruct l. Qed.

Lemma nonempty_vec_not_nil {A} (l : list A) : nonempty_vec l <> Some [].
Proof. by destruct l. Qed.

(** * Posting maps (hash and GIN) *)

(** [P h id] holds exactly of the ids posted under [h], each posted once. *)
Definition posting_rep (m : gmap str (list RowId)) (P : str -> RowId -> Prop) : Prop :=
  forall h, NoDup (default [] (m !! h)) /\ (forall id, id ∈ default [] (m !! h) <-> P h id) /\ m !! h <> Some [].

Lemma posting_ext m P Q : (forall h id, P h id <-> Q h id) -> posting_rep m P -> posting_rep m Q.
Proof. intros E H h. destruct (H h) as (N & I & Z). split_and!; [done| |done]. intros id. by rewrite I. Qed.

Lemma posting_insert m P k id :
  posting_rep m P -> ~ P k id ->
  posting_rep (<[k := push_id id (m !! k)]> m) (fun h i => P h i \/ (h = k /\ i = id)).
Proof.
  intros H Nk h. destruct (decide (k = h)) as [<-|Ne].
  - rewrite lookup_insert_eq. cbn. unfold push_id. destruct (H k) as (N & I & _). split_and!.
    + apply NoDup_app. split_and!; [done| |apply NoDup_singleton].
      intros x Hx ->%list_elem_of_singleton. by apply Nk, I.
    + intros i. rewrite elem_of_app, list_elem_of_singleton, I. naive_solver.
    + intros [= E%app_nil]. naive_solver.
  - rewrite lookup_insert_ne by done. destruct (H h) as (N & I & Z). split_and!; [done| |done].
    intros i. rewrite I. naive_solver.
Qed.

Lemma posting_drop m P k id :
  posting_rep m P -> posting_rep (drop_posting id m k) (fun h i => P h i /\ ~ (h = k /\ i = id)).
Proof.
  intros H h. unfold drop_posting. destruct (m !! k) as [ids|] eqn:E.
  - destruct (H k) as (N & I & Z). rewrite E in N, I. cbn in N, I.
    destruct (remove_id_spec id ids N) as [N' I'].
    assert (forall x, (match nonempty_vec (remove_id id ids) with Some ids' => <[k := ids']> m | None => delete k m end) !! x
      = if decide (x = k) then nonempty_vec (remove_id id ids) else m !! x) as L.
    { intros x. destruct (nonempty_vec _) as [ids'|]; case_decide; subst;
        rewrite ?lookup_insert_eq, ?lookup_insert_ne, ?lookup_delete_eq, ?lookup_delete_ne by done; done. }
    rewrite L. case_decide as D.
    + subst h. rewrite default_nonempty_vec. split_and!; [done| |apply nonempty_vec_not_nil].
      intros i. rewrite I', I. naive_solver.
    + destruct (H h) as (Nh & Ih & Zh). split_and!; [done| |done]. intros i. rewrite Ih. naive_solver.
  - destruct (H h) as (Nh & Ih & Zh). split_and!; [done| |done]. intros i. rewrite Ih. split; [|tauto].
    intros Hp. split; [done|]. intros [-> ->]. destruct (H k) as (_ & I & _). rewrite E in I.
    apply I in Hp. by apply elem_of_nil in Hp.
Qed.

Lemma posting_insert_all toks m P id :
  NoDup toks -> posting_rep m P -> (forall k, ~ P k id) ->
  posting_rep (foldl (fun p tok => <[tok := push_id id (p !! tok)]> p) m toks) (fun h i => P h i \/ (h ∈ toks /\ i = id)).
Proof.
  intros N. assert (forall m P, posting_rep m P -> (forall k, k ∈ toks -> ~ P k id) ->
    posting_rep (foldl (fun p tok => <[tok := push_id id (p !! tok)]> p) m toks)
      (fun h i => P h i \/ (h ∈ toks /\ i = id))) as G.
  { clear m P. induction N as [|t toks Nt N IH]; intros m P H Hn.
    - cbn. eapply posting_ext; [|exact H]. intros h i. rewrite elem_of_nil. tauto.
    - cbn. eapply posting_ext; [|apply IH].
      2: { apply posting_insert; [exact H|]. apply Hn, list_elem_of_here. }
      + intros h i. cbn. rewrite elem_of_cons. tauto.
      + intros k Hk [Hp|[-> _]]; [|done]. by apply (Hn k); [apply list_elem_of_further|]. }
  intros H Hn. apply G; [done|]. intros k _. apply Hn.
Qed.

Lemma posting_drop_all toks m P id :
  posting_rep m P ->
  posting_rep (foldl (drop_posting id) m toks) (fun h i => P h i /\ ~ (h ∈ toks /\ i = id)).
Proof.
  revert m P. induction toks as [|t toks IH]; intros m P H.
  - cbn. eapply posting_ext; [|exact H]. intros h i. rewrite elem_of_nil. tauto.
  - cbn. eapply posting_ext; [|apply IH, posting_drop, H]. intros h i. cbn. rewrite elem_of_cons. tauto.
Qed.

(** * What each store holds *)

Section reps.
Context (kinds : nat -> Kind).
Implicit Types (A : gmap RowId (list Value)) (k : list Value).

Definition keys_ok A : Prop := forall id k, A !! id = Some k -> key_ok kinds k.

Lemma keys_ok_insert A id k : keys_ok A -> key_ok kinds k -> keys_ok (<[id := k]> A).
Proof. intros H Hk i k'. rewrite lookup_insert_Some. intros [[_ <-]|[_ E]]; [done|]. by apply (H i). Qed.

Lemma keys_ok_delete A id : keys_ok A -> keys_ok (delete id A).
Proof. intros H i k'. rewrite lookup_delete_Some. intros [_ E]. by apply (H i). Qed.

Lemma hits_eq A k j id : keys_ok A -> key_ok kinds k -> key_ok kinds j -> key_cmp j k = Eq -> hits A j id <-> hits A k id.
Proof.
  intros O K J E. split; intros (k' & L & F); exists k'; (split; [done|]); pose proof (O _ _ L).
  - by rewrite <- (key_eq_l key_cmp j k k').
  - by rewrite (key_eq_l key_cmp j k k').
Qed.

Definition ids_at (tree : list (list Value * list RowId)) k : list RowId := default [] (bt_get key_cmp k tree).

Definition btree_rep (tree : list (list Value * list RowId)) A : Prop :=
  bt_sorted key_cmp (key_ok kinds) tree /\ keys_ok A /\
  forall k, key_ok kinds k -> NoDup (ids_at tree k) /\ forall id, id ∈ ids_at tree k <-> hits A k id.

Lemma btree_rep_insert tree A id k :
  btree_rep tree A -> A !! id = None -> key_ok kinds k ->
  btree_rep (bt_upsert key_cmp k (push_id id) tree) (<[id := k]> A).
Proof.
  intros (S & O & R) N K. split_and!; [by apply bt_upsert_sorted|by apply keys_ok_insert|].
  intros j J. unfold ids_at. rewrite (bt_upsert_get (ok := key_ok kinds)) by done.
  destruct (R j J) as [Nj Ij]. assert (~ hits A j id) as Nh by (intros (? & ? & _); congruence).
  assert (forall i, hits (<[id := k]> A) j i <-> hits A j i \/ (i = id /\ key_cmp j k = Eq)) as HI.
  { intros i. unfold hits. destruct (decide (id = i)) as [<-|Ne].
    - rewrite lookup_insert_eq. split; [|naive_solver]. intros (k' & [= <-] & E). by right.
    - rewrite lookup_insert_ne by done. naive_solver. }
  destruct (key_cmp j k) eqn:E.
  - cbn. fold (ids_at tree k). unfold push_id. fold (ids_at tree k). destruct (R k K) as [Nk Ik]. split.
    + apply NoDup_app. split_and!; [done| |apply NoDup_singleton]. intros x Hx ->%list_elem_of_singleton.
      apply Nh, (hits_eq A k j); [done..|]. by apply Ik.
    + intros i. rewrite elem_of_app, list_elem_of_singleton, Ik, HI, (hits_eq A k j i) by done. tauto.
  - split; [done|]. intros i. rewrite HI. fold (ids_at tree j). rewrite Ij. intuition congruence.
  - split; [done|]. intros i. rewrite HI. fold (ids_at tree j). rewrite Ij. intuition congruence.
Qed.

Lemma btree_rep_remove tree A id k :
  btree_rep tree A -> A !! id = Some k ->
  btree_rep (bt_update key_cmp k (fun ids => nonempty_vec (remove_id id ids)) tree) (delete id A).
Proof.
  intros (S & O & R) L. pose proof (O _ _ L) as K.
  split_and!; [by apply bt_update_sorted|by apply keys_ok_delete|].
  intros j J. unfold ids_at. rewrite (bt_update_get (ok := key_ok kinds)) by done.
  destruct (R j J) as [Nj Ij].
  assert (forall i, hits (delete id A) j i <-> hits A j i /\ i <> id) as HI.
  { intros i. unfold hits. destruct (decide (id = i)) as [<-|Ne].
    - rewrite lookup_delete_eq. naive_solver.
    - rewrite lookup_delete_ne by done. naive_solver. }
  assert (key_cmp j k <> Eq -> NoDup (ids_at tree j) /\ forall i, i ∈ ids_at tree j <-> hits (delete id A) j i) as Other.
  { intros E. split; [done|]. intros i. rewrite HI, Ij. split; [|tauto]. intros H. split; [done|]. intros ->.
    destruct H as (k' & L' & F). congruence. }
  destruct (key_cmp j k) eqn:E; [|by apply Other..].
  assert (default [] (bt_get key_cmp k tree ≫= (fun ids => nonempty_vec (remove_id id ids)))
    = remove_id id (ids_at tree k)) as ->.
  { unfold ids_at. destruct (bt_get key_cmp k tree); [cbn; apply default_nonempty_vec|done]. }
  destruct (R k K) as [Nk Ik]. destruct (remove_id_spec id (ids_at tree k) Nk) as [N' I']. split; [done|].
  intros i. by rewrite I', Ik, HI, (hits_eq A k j i).
Qed.

Definition brin_rep (ranges : list (Z * BrinRange)) A : Prop :=
  bt_sorted Z.compare (fun _ => True) ranges /\ keys_ok A /\
  forall block, let ms := default [] (bt_get Z.compare block ranges) in
    NoDup (ms.*1) /\
    forall id v, (id, v) ∈ ms <-> id / BRIN_RANGE_SIZE = block /\ exists k, A !! id = Some k /\ v = first_key k.

Lemma brin_rep_insert ranges A id k :
  brin_rep ranges A -> A !! id = None -> key_ok kinds k ->
  brin_rep (bt_upsert Z.compare (id / BRIN_RANGE_SIZE) (fun o => default [] o ++ [(id, first_key k)]) ranges) (<[id := k]> A).
Proof.
  intros (S & O & R) N K. split_and!; [by apply bt_upsert_sorted|by apply keys_ok_insert|].
  intros block. rewrite (bt_upsert_get (ok := fun _ => True)) by done. destruct (R block) as [Nb Ib]. cbv zeta in *.
  assert (forall i v, (exists k', <[id := k]> A !! i = Some k' /\ v = first_key k')
    <-> (exists k', A !! i = Some k' /\ v = first_key k') \/ (i = id /\ v = first_key k)) as HI.
  { intros i v. destruct (decide (id = i)) as [<-|Ne].
    - rewrite lookup_insert_eq. split; [|naive_solver]. intros (k' & [= <-] & ->). by right.
    - rewrite lookup_insert_ne by done. naive_solver. }
  assert (block <> id / BRIN_RANGE_SIZE -> NoDup ((default [] (bt_get Z.compare block ranges)).*1) /\
    forall i v, (i, v) ∈ default [] (bt_get Z.compare block ranges) <->
      i / BRIN_RANGE_SIZE = block /\ exists k', <[id := k]> A !! i = Some k' /\ v = first_key k') as Other.
  { intros Ne. split; [done|]. intros i v. rewrite HI, Ib. split; [tauto|]. intros [<- [H|[-> _]]]; tauto. }
  destruct (Z.compare_spec block (id / BRIN_RANGE_SIZE)) as [->|?|?]; [|by apply Other; lia..].
  cbn. split.
  - rewrite fmap_app. apply NoDup_app. split_and!; [done| |apply NoDup_singleton].
    intros x Hx ->%list_elem_of_singleton. apply list_elem_of_fmap in Hx as ([i v] & E & Hi). cbn in E. subst i.
    apply Ib in Hi as (_ & ? & ? & _). congruence.
  - intros i v. rewrite elem_of_app, list_elem_of_singleton, Ib, HI. naive_solver.
Qed.

Lemma brin_rep_remove ranges A id k :
  brin_rep ranges A -> A !! id = Some k ->
  brin_rep (bt_update Z.compare (id / BRIN_RANGE_SIZE)
    (fun ms => nonempty_vec (remove_where (fun rv => fst rv = id) ms)) ranges) (delete id A).
Proof.
  intros (S & O & R) L. split_and!; [by apply bt_update_sorted|by apply keys_ok_delete|].
  intros block. rewrite (bt_update_get (ok := fun _ => True)) by done. destruct (R block) as [Nb Ib]. cbv zeta in *.
  assert (forall i v, (exists k', delete id A !! i = Some k' /\ v = first_key k')
    <-> (exists k', A !! i = Some k' /\ v = first_key k') /\ i <> id) as HI.
  { intros i v. destruct (decide (id = i)) as [<-|Ne].
    - rewrite lookup_delete_eq. naive_solver.
    - rewrite lookup_delete_ne by done. naive_solver. }
  assert (block <> id / BRIN_RANGE_SIZE -> NoDup ((default [] (bt_get Z.compare block ranges)).*1) /\
    forall i v, (i, v) ∈ default [] (bt_get Z.compare block ranges) <->
      i / BRIN_RANGE_SIZE = block /\ exists k', delete id A !! i = Some k' /\ v = first_key k') as Other.
  { intros Ne. split; [done|]. intros i v. rewrite HI, Ib. split; [|tauto]. intros [<- H]. split_and!; [done..|].
    intros ->. done. }
  destruct (Z.compare_spec block (id / BRIN_RANGE_SIZE)) as [->|?|?]; [|by apply Other; lia..].
  match goal with |- context [_ ≫= ?f] => set (g := f) end.
  assert (default [] (bt_get Z.compare (id / BRIN_RANGE_SIZE) ranges ≫= g)
    = remove_where (fun rv => fst rv = id) (default [] (bt_get Z.compare (id / BRIN_RANGE_SIZE) ranges))) as ->.
  { unfold g. destruct (bt_get Z.compare _ ranges); [cbn; apply default_nonempty_vec|done]. }
  destruct (remove_where_spec (fun rv : RowId * Value => fst rv = id) fst id _ (fun x => iff_refl _) Nb) as [N' I'].
  split; [done|]. intros i v. rewrite I', Ib, HI. cbn. tauto.
Qed.

Lemma sort_dedup_spec l : NoDup (sort_dedup l) /\ forall t, t ∈ sort_dedup l <-> t ∈ l.
Proof.
  assert (forall t m, (forall u, u ∈ insert_token t m <-> u = t \/ u ∈ m)) as E.
  { intros t m u. induction m as [|x m IH]; cbn; [by rewrite list_elem_of_singleton, elem_of_nil; naive_solver|].
    destruct (str_cmp t x) eqn:C.
    - apply str_cmp_eq in C as ->. rewrite elem_of_cons. naive_solver.
    - by rewrite elem_of_cons.
    - rewrite !elem_of_cons, IH. naive_solver. }
  assert (forall m, bt_sorted str_cmp (fun _ => True) ((., tt) <$> m) -> forall t,
    bt_sorted str_cmp (fun _ => True) ((., tt) <$> insert_token t m)) as Srt.
  { intros m H t. replace ((., tt) <$> insert_token t m) with (bt_upsert str_cmp t (fun _ => tt) ((., tt) <$> m)).
    - by apply bt_upsert_sorted.
    - clear H. induction m as [|x m IH]; [done|]. cbn. destruct (str_cmp t x) eqn:C; [|done|].
      + done.
      + cbn. by f_equal. }
  assert (bt_sorted str_cmp (fun _ => True) ((., tt) <$> sort_dedup l)) as H by (induction l; [done|by apply Srt]).
  split.
  - induction (sort_dedup l) as [|x m IH]; [constructor|]. cbn in H. destruct H as (_ & B & H). constructor; [|by apply IH].
    intros Hx. specialize (B (x, tt)). rewrite (key_refl str_cmp) in B by done. discriminate B. apply list_elem_of_fmap. by exists x.
  - induction l as [|x l IH]; [done|]. intros t. cbn. rewrite E, elem_of_cons. rewrite IH; [done|].
    clear -Srt. induction l; [done|by apply Srt].
Qed.

(** The four stores against the tracked map. *)
Definition store_rep (s : Store) A : Prop :=
  match s with
  | SBtree tree => btree_rep tree A
  | SHash m => keys_ok A /\
      posting_rep m (fun h id => exists k, A !! id = Some k /\ key_has_null k = false /\ hash_key k = h)
  | SBrin ranges => brin_rep ranges A
  | SGin postings all => keys_ok A /\ NoDup all /\ (forall id, id ∈ all <-> is_Some (A !! id)) /\
      posting_rep postings (fun t id => exists k, A !! id = Some k /\ t ∈ key_tokens k)
  end.

Lemma tracked_insert (P : list Value -> Prop) A id k i :
  A !! id = None ->
  (exists k', <[id := k]> A !! i = Some k' /\ P k') <-> (exists k', A !! i = Some k' /\ P k') \/ (i = id /\ P k).
Proof.
  intros N. destruct (decide (id = i)) as [<-|Ne].
  - rewrite lookup_insert_eq. split; [|naive_solver]. intros (k' & [= <-] & H). by right.
  - rewrite lookup_insert_ne by done. naive_solver.
Qed.

Lemma tracked_delete (P : list Value -> Prop) A id i :
  (exists k', delete id A !! i = Some k' /\ P k') <-> (exists k', A !! i = Some k' /\ P k') /\ i <> id.
Proof.
  destruct (decide (id = i)) as [<-|Ne].
  - rewrite lookup_delete_eq. naive_solver.
  - rewrite lookup_delete_ne by done. naive_solver.
Qed.

Lemma store_rep_insert s A key id :
  store_rep s A -> A !! id = None -> key_ok kinds key -> store_rep (store_insert s key id) (<[id := key]> A).
Proof.
  intros R N K. destruct s as [tree|m|ranges|postings all]; cbn [store_insert store_rep] in *.
  - by apply btree_rep_insert.
  - destruct R as [O R]. destruct (key_has_null key) eqn:Hn; cbn [store_rep].
    + split; [by apply keys_ok_insert|]. eapply posting_ext; [|exact R]. intros h i. cbn.
      rewrite (tracked_insert (fun k => key_has_null k = false /\ hash_key k = h)) by done. intuition congruence.
    + split; [by apply keys_ok_insert|]. eapply posting_ext; [|apply posting_insert; [exact R|]].
      * intros h i. cbn. rewrite (tracked_insert (fun k => key_has_null k = false /\ hash_key k = h)) by done.
        intuition congruence.
      * intros (? & ? & _). congruence.
  - by apply brin_rep_insert.
  - destruct R as (O & Na & Ia & R). split_and!; [by apply keys_ok_insert|..].
    + apply NoDup_app. split_and!; [done| |apply NoDup_singleton]. intros x Hx ->%list_elem_of_singleton.
      apply Ia in Hx as [? ?]. congruence.
    + intros i. rewrite elem_of_app, list_elem_of_singleton, Ia, lookup_insert_is_Some. destruct (decide (id = i)); naive_solver.
    + eapply posting_ext; [|apply posting_insert_all; [apply sort_dedup_spec|exact R|]].
      * intros h i. cbn. rewrite (tracked_insert (fun k => h ∈ key_tokens k)) by done. fold (key_tokens key). intuition congruence.
      * intros h (? & ? & _). congruence.
Qed.

Lemma store_rep_remove s A key id :
  store_rep s A -> A !! id = Some key -> store_rep (store_remove s key id) (delete id A).
Proof.
  intros R L. destruct s as [tree|m|ranges|postings all]; cbn [store_remove store_rep] in *.
  - by apply btree_rep_remove.
  - destruct R as [O R]. destruct (key_has_null key) eqn:Hn; cbn [store_rep].
    + split; [by apply keys_ok_delete|]. eapply posting_ext; [|exact R]. intros h i. cbn.
      rewrite (tracked_delete (fun k => key_has_null k = false /\ hash_key k = h)).
      split; [|tauto]. intros (k & Lk & H). split; [by exists k|]. intros ->. destruct H. congruence.
    + split; [by apply keys_ok_delete|]. eapply posting_ext; [|apply posting_drop, R].
      intros h i. cbn. rewrite (tracked_delete (fun k => key_has_null k = false /\ hash_key k = h)).
      split.
      * intros [H Ne]. split; [done|]. intros ->. apply Ne. split; [|done].
        destruct H as (k & Lk & _ & <-). congruence.
      * intros [H Ne]. split; [done|]. intros [_ ->]. done.
  - by apply (brin_rep_remove _ _ _ key).
  - destruct R as (O & Na & Ia & R). destruct (remove_id_spec id all Na) as [N' I'].
    split_and!; [by apply keys_ok_delete|done|..].
    + intros i. rewrite I', Ia, lookup_delete_is_Some. naive_solver.
    + eapply posting_ext; [|apply posting_drop_all, R]. intros h i. cbn.
      rewrite (tracked_delete (fun k => h ∈ key_tokens k)). split.
      * intros [H Ne]. split; [done|]. intros ->. apply Ne. split; [|done]. destruct H as (k & Lk & ?). congruence.
      * intros [H Ne]. split; [done|]. intros [_ ->]. done.
Qed.

Lemma store_rep_empty m : store_rep (empty_store m) ∅.
Proof.
  assert (keys_ok ∅) as O by (intros ? ? ?; set_solver).
  assert (forall P : list Value -> Prop, ~ exists k, (∅ : gmap RowId (list Value)) !! 0 = Some k /\ P k) as _ by set_solver.
  assert (forall (Q : str -> list Value -> Prop),
    posting_rep ∅ (fun h id => exists k, (∅ : gmap RowId (list Value)) !! id = Some k /\ Q h k)) as E.
  { intros Q h. rewrite lookup_empty. cbn. split_and!; [constructor| |done]. intros id. rewrite lookup_empty, elem_of_nil. naive_solver. }
  assert (store_rep (SBtree []) ∅) as B.
  { split_and!; [done|done|]. intros k K. cbn. split; [constructor|]. intros id. rewrite elem_of_nil. unfold hits.
    rewrite lookup_empty. naive_solver. }
  destruct m; cbn [empty_store store_rep]; try exact B.
  - split; [done|]. apply (E (fun h k => key_has_null k = false /\ hash_key k = h)).
  - split_and!; [done|done|]. intros block. cbn. split; [constructor|]. intros id v. rewrite elem_of_nil, lookup_empty. naive_solver.
  - split_and!; [done|constructor| |apply (E (fun h k => h ∈ key_tokens k))].
    intros id. rewrite elem_of_nil, lookup_empty. split; [done|]. by intros [].
Qed.

Lemma tracks_rep m s A : tracks kinds m s A -> store_rep s A.
Proof. induction 1; [apply store_rep_empty|by apply store_rep_insert|by apply store_rep_remove]. Qed.

(** The method of a store does not change. *)
Definition store_method (m : IndexMethod) (s : Store) : Prop :=
  match s with
  | SBtree _ => is_ordered m = true
  | SHash _ => m = Hash
  | SBrin _ => m = Brin
  | SGin _ _ => m = Gin
  end.

Lemma tracks_method m s A : tracks kinds m s A -> store_method m s.
Proof.
  induction 1 as [|s A key id T IH|s A key id T IH]; [by destruct m|..]; destruct s; cbn in *; try done; by destruct (key_has_null key).
Qed.

(** ** B-tree scans *)

Definition scan_tree (p : list Value -> bool) (tree : list (list Value * list RowId)) : list RowId :=
  flat_map (fun '(k, ids) => if p k then ids else []) tree.

(** [p] does not distinguish equivalent keys. *)
Definition respects (p : list Value -> bool) : Prop :=
  forall k j, key_ok kinds k -> key_ok kinds j -> key_cmp k j = Eq -> p k = p j.

Lemma elem_of_scan p tree id : id ∈ scan_tree p tree <-> exists k ids, (k, ids) ∈ tree /\ p k = true /\ id ∈ ids.
Proof.
  unfold scan_tree. rewrite list_elem_of_In, in_flat_map. setoid_rewrite <- list_elem_of_In. split.
  - intros ([k ids] & H & I). destruct (p k) eqn:E; [|by apply elem_of_nil in I]. by exists k, ids.
  - intros (k & ids & H & E & I). exists (k, ids). by rewrite E.
Qed.

Section scan.
Context (tree : list (list Value * list RowId)) (A : gmap RowId (list Value)) (R : btree_rep tree A).

Lemma entry_hits k ids id : (k, ids) ∈ tree -> id ∈ ids <-> hits A k id.
Proof.
  destruct R as (S & O & B). intros H. pose proof (bt_sorted_ok tree _ S H) as K.
  pose proof (bt_get_stored tree k ids S H) as G. destruct (B k K) as [_ I]. unfold ids_at in I. rewrite G in I. apply I.
Qed.

Lemma scan_elem p id : respects p -> id ∈ scan_tree p tree <-> exists k, A !! id = Some k /\ p k = true.
Proof.
  intros Hp. destruct R as (S & O & B). rewrite elem_of_scan. split.
  - intros (k & ids & H & E & I). apply (entry_hits k ids) in I as (k' & L & F); [|done].
    exists k'. split; [done|]. rewrite <- E. symmetry. apply Hp; [|by apply (O id)|done].
    by apply (bt_sorted_ok tree _ S H).
  - intros (k & L & E). pose proof (O _ _ L) as K. destruct (B k K) as [_ I].
    assert (id ∈ ids_at tree k) as Hid by (apply I; exists k; split; [done|by apply (key_refl key_cmp)]).
    unfold ids_at in Hid. destruct (bt_get key_cmp k tree) as [ids|] eqn:G; [|by apply elem_of_nil in Hid].
    apply (bt_get_elem (ok := key_ok kinds)) in G as (k' & H & F); [|done..]. exists k', ids.
    split_and!; [done| |done]. rewrite <- E. symmetry. apply Hp; [done| |done]. by apply (bt_sorted_ok tree _ S H).
Qed.

Lemma StronglySorted_app_2 {X} (Q : X -> X -> Prop) l1 l2 :
  StronglySorted Q l1 -> StronglySorted Q l2 -> (forall x y, x ∈ l1 -> y ∈ l2 -> Q x y) -> StronglySorted Q (l1 ++ l2).
Proof.
  induction 1 as [|x l1 S IH F]; intros S2 H; [done|]. cbn. constructor.
  - apply IH; [done|]. intros y z Hy Hz. apply H; [by apply list_elem_of_further|done].
  - apply Forall_app. split; [done|]. apply Forall_forall. intros y Hy. apply H; [apply list_elem_of_here|done].
Qed.

Lemma StronglySorted_all {X} (Q : X -> X -> Prop) l : (forall x y, x ∈ l -> y ∈ l -> Q x y) -> StronglySorted Q l.
Proof.
  induction l as [|x l IH]; intros H; constructor.
  - apply IH. intros y z Hy Hz. by apply H; apply list_elem_of_further.
  - apply Forall_forall. intros y Hy. apply H; [apply list_elem_of_here|by apply list_elem_of_further].
Qed.

(** Rows in the order of their keys. *)
Definition key_le (i j : RowId) : Prop := exists k k', A !! i = Some k /\ A !! j = Some k' /\ key_cmp k k' <> Gt.

Lemma entries_order k ids k2 ids2 i j :
  (k, ids) ∈ tree -> (k2, ids2) ∈ tree -> key_cmp k k2 <> Gt -> i ∈ ids -> j ∈ ids2 ->
  key_le i j /\ (i = j -> key_cmp k k2 = Eq).
Proof.
  intros H H2 C I J. pose proof R as (S & O & B).
  pose proof (bt_sorted_ok tree _ S H) as K. pose proof (bt_sorted_ok tree _ S H2) as K2. cbn in K, K2.
  apply (entry_hits k ids) in I as (k' & L & F); [|done]. apply (entry_hits k2 ids2) in J as (k2' & L2 & F2); [|done].
  pose proof (O _ _ L) as K'. pose proof (O _ _ L2) as K2'.
  assert (key_cmp k k2 = key_cmp k' k2') as E.
  { rewrite (key_eq_l key_cmp k k' k2) by done. by apply (key_eq_r key_cmp). }
  split; [exists k', k2'; split_and!; [done|done|congruence]|].
  intros ->. rewrite E. assert (k' = k2') as -> by congruence. by apply (key_refl key_cmp).
Qed.

Lemma scan_sorted p : NoDup (scan_tree p tree) /\ StronglySorted key_le (scan_tree p tree).
Proof.
  pose proof R as (S & O & B).
  assert (forall t, bt_sorted key_cmp (key_ok kinds) t -> (forall kv, kv ∈ t -> kv ∈ tree) ->
    NoDup (scan_tree p t) /\ StronglySorted key_le (scan_tree p t)) as G; [|by apply G].
  induction t as [|[k ids] t IH]; intros St Sub; [split; constructor|]. destruct St as (K & L & St).
  assert ((k, ids) ∈ tree) as H by (apply Sub, list_elem_of_here).
  destruct IH as [N1 S1]; [done|by intros kv ?; apply Sub, list_elem_of_further|].
  cbn. fold (scan_tree p t). destruct (p k); [|done].
  assert (NoDup ids) as Nids.
  { destruct (B k K) as [N _]. unfold ids_at in N. by rewrite (bt_get_stored tree k ids S H) in N. }
  split.
  - apply NoDup_app. split_and!; [done| |done]. intros i Hi (k2 & ids2 & H2 & _ & J)%elem_of_scan.
    pose proof (L _ H2) as C. cbn in C. apply list_elem_of_further with (y := (k, ids)), Sub in H2.
    destruct (entries_order k ids k2 ids2 i i) as [_ E]; [done|done|congruence|done..|]. by rewrite E in C.
  - apply StronglySorted_app_2; [|done|].
    + apply StronglySorted_all. intros i j Hi Hj. apply (entries_order k ids k ids i j); try done.
      rewrite (key_refl key_cmp k K). discriminate.
    + intros i j Hi (k2 & ids2 & H2 & _ & J)%elem_of_scan. pose proof (L _ H2) as C. cbn in C.
      apply list_elem_of_further with (y := (k, ids)), Sub in H2. apply (entries_order k ids k2 ids2 i j); try done. congruence.
Qed.

End scan.

(** ** Hash encoding *)

Lemma f64_pos_eq a b : in_u 64 a -> in_u 64 b -> f64_pos a = f64_pos b -> a = b \/ (f64_is_zero a = true /\ f64_is_zero b = true).
Proof.
  unfold in_u, f64_pos, f64_is_zero, f64_neg. intros Ha Hb.
  assert (forall x, 0 <= x < 2 ^ 64 -> x = Z.b2z (Z.testbit x 63) * 2 ^ 63 + Z.land x (2 ^ 63 - 1) /\ 0 <= Z.land x (2 ^ 63 - 1)) as D.
  { intros x Hx. change (2 ^ 63 - 1) with (Z.ones 63). rewrite Z.land_ones by lia.
    pose proof (Z.mod_pos_bound x (2 ^ 63)). split; [|lia].
    rewrite Z.testbit_spec' by lia. rewrite (Z.mod_small (x / 2 ^ 63)).
    - rewrite Z.mul_comm. apply Z.div_mod. lia.
    - split; [apply Z.div_pos; lia|]. apply Z.div_lt_upper_bound; lia. }
  destruct (D a Ha) as [Ea Pa], (D b Hb) as [Eb Pb]. destruct (Z.testbit a 63), (Z.testbit b 63); cbn [Z.b2z] in *; intros E.
  - left. lia.
  - right. rewrite !Z.eqb_eq. lia.
  - right. rewrite !Z.eqb_eq. lia.
  - left. lia.
Qed.

Lemma hash_f64_zero a : in_u 64 a -> f64_is_zero a = true -> hash_f64 a = lit "i0".
Proof.
  unfold in_u, f64_is_zero. intros Ha Hz. zb. change (2 ^ 63 - 1) with (Z.ones 63) in Hz. rewrite Z.land_ones in Hz by lia.
  assert (a = 0 \/ a = 2 ^ 63) as [-> | ->] by (pose proof (Z.div_mod a (2 ^ 63)); assert (a / 2 ^ 63 < 2)
    by (apply Z.div_lt_upper_bound; lia); assert (0 <= a / 2 ^ 63) by (apply Z.div_pos; lia); lia);
    vm_compute; reflexivity.
Qed.

Lemma hash_value_eq c a b :
  kind_ok c a -> kind_ok c b -> is_null a = false -> cmp_value a b = Eq -> hash_value a = hash_value b /\ is_null b = false.
Proof.
  intros Ha Hb Na E.
  destruct a, b; cbn [kind_ok is_null hash_value] in *; try done; try (intuition congruence); cbn in E.
  - apply Z.compare_eq in E as ->. done.
  - destruct Ha as (_ & Ua & Fa), Hb as (_ & Ub & Fb). unfold f64_partial_cmp in E. rewrite Fa, Fb in E.
    apply Z.compare_eq in E. split; [|done].
    destruct (f64_pos_eq _ _ Ua Ub E) as [->|[Za Zb]]; [done|]. by rewrite !hash_f64_zero.
  - destruct Ha as [_ Wa], Hb as [_ Wb]. rewrite bd_cmp_eq_scale in E by done. apply Z.compare_eq in E. split; [|done].
    f_equal. eapply to_f64_value; [done..| | |exact E]; lia.
  - apply str_cmp_eq in E as ->. done.
  - by destruct b, b0.
Qed.

Lemma hash_key_eq k j :
  key_ok kinds k -> key_ok kinds j -> key_has_null k = false -> key_cmp k j = Eq ->
  hash_key k = hash_key j /\ key_has_null j = false.
Proof.
  assert (forall kd k j, list_ok (fun i => kind_ok (kd i)) k -> list_ok (fun i => kind_ok (kd i)) j ->
    key_has_null k = false -> key_cmp k j = Eq -> hash_key k = hash_key j /\ key_has_null j = false) as G; [|by apply G].
  clear k j. intros kd k. revert kd. induction k as [|x k IH]; intros kd [|y j] K J N E; try done.
  apply list_ok_cons in K as [Kx K]. apply list_ok_cons in J as [Jy J]. cbn in N. apply orb_false_elim in N as [Nx N].
  cbn in E. destruct (cmp_value x y) eqn:Ex; try done.
  destruct (hash_value_eq (kd 0%nat) x y Kx Jy Nx Ex) as [H1 H2].
  destruct (IH (fun i => kd (S i)) j K J N E) as [H3 H4]. split.
  - cbn [hash_key flat_map]. fold (hash_key k). fold (hash_key j). by rewrite H1, H3.
  - cbn. by rewrite H2.
Qed.

(** ** BRIN summaries *)

Lemma min_max_fold c lo hi it :
  kind_ok c lo -> kind_ok c hi -> Forall (kind_ok c) it -> cmp_value lo hi <> Gt ->
  let r := foldl (fun '(lo, hi) v =>
        (match cmp_value v lo with Lt => v | _ => lo end,
         match cmp_value v hi with Gt => v | _ => hi end)) (lo, hi) it in
  kind_ok c (fst r) /\ kind_ok c (snd r)
  /\ forall v, v ∈ it \/ v = lo \/ v = hi -> cmp_value (fst r) v <> Gt /\ cmp_value v (snd r) <> Gt.
Proof.
  intros Kl Kh F. revert lo hi Kl Kh. induction F as [|x it Kx F IH]; intros lo hi Kl Kh C; cbn zeta.
  - cbn. split_and!; [done..|]. intros v [Hv%elem_of_nil|[->| ->]]; [done|..];
      rewrite ?(key_refl cmp_value lo Kl), ?(key_refl cmp_value hi Kh); done.
  - cbn [foldl]. set (lo' := match cmp_value x lo with Lt => x | _ => lo end).
    set (hi' := match cmp_value x hi with Gt => x | _ => hi end).
    assert (kind_ok c lo' /\ kind_ok c hi') as [Kl' Kh'] by (unfold lo', hi'; destruct (cmp_value x lo), (cmp_value x hi); done).
    assert (cmp_value lo' lo <> Gt /\ cmp_value lo' x <> Gt) as [L1 L2].
    { unfold lo'. destruct (cmp_value x lo) eqn:E; rewrite ?(key_refl cmp_value _ Kl), ?(key_refl cmp_value _ Kx), ?E; try done.
      - by rewrite (key_antisym cmp_value x lo), E.
      - by rewrite (key_antisym cmp_value x lo), E. }
    assert (cmp_value hi hi' <> Gt /\ cmp_value x hi' <> Gt) as [U1 U2].
    { unfold hi'. destruct (cmp_value x hi) eqn:E; rewrite ?(key_refl cmp_value _ Kh), ?(key_refl cmp_value _ Kx), ?E; try done.
      by rewrite (key_antisym cmp_value x hi), E. }
    destruct (IH lo' hi' Kl' Kh') as (R1 & R2 & B).
    { apply (key_trans cmp_value lo' lo hi'); [done..|]. by apply (key_trans cmp_value lo hi hi'). }
    split_and!; [done..|]. intros v Hv.
    assert (forall w, kind_ok c w -> cmp_value lo' w <> Gt -> cmp_value w hi' <> Gt ->
      cmp_value (fst (foldl (fun '(lo, hi) v =>
        (match cmp_value v lo with Lt => v | _ => lo end,
         match cmp_value v hi with Gt => v | _ => hi end)) (lo', hi') it)) w <> Gt /\
      cmp_value w (snd (foldl (fun '(lo, hi) v =>
        (match cmp_value v lo with Lt => v | _ => lo end,
         match cmp_value v hi with Gt => v | _ => hi end)) (lo', hi') it)) <> Gt) as W.
    { intros w Kw A1 A2. destruct (B lo') as [B1 _]; [tauto|]. destruct (B hi') as [_ B2]; [tauto|]. split.
      - by apply (key_trans cmp_value _ lo' w).
      - by apply (key_trans cmp_value w hi' _). }
    destruct Hv as [[->|Hv]%elem_of_cons|[->| ->]].
    + by apply W.
    + apply B. by left.
    + apply W; [done..|]. apply (key_trans cmp_value lo hi hi'); done.
    + apply W; [done| |done]. apply (key_trans cmp_value lo' lo hi); done.
Qed.

Lemma min_max_spec c ms v :
  Forall (fun rv => kind_ok c (snd rv)) ms -> v ∈ ms.*2 -> is_null v = false ->
  exists lo hi, min_max ms = Some (lo, hi) /\ kind_ok c lo /\ kind_ok c hi /\ cmp_value lo v <> Gt /\ cmp_value v hi <> Gt.
Proof.
  intros F Hv Nv. unfold min_max. set (l := List.filter (fun v => negb (is_null v)) (ms.*2)).
  assert (v ∈ l) as Hl by (unfold l; rewrite list_elem_of_In, List.filter_In, <- list_elem_of_In, Nv; done).
  assert (Forall (kind_ok c) l) as Fl.
  { unfold l. apply Forall_forall. intros w. rewrite list_elem_of_In, List.filter_In, <- list_elem_of_In.
    intros [Hw _]. apply list_elem_of_fmap in Hw as (rv & -> & Hrv). by eapply (Forall_forall _ ms) in F. }
  destruct l as [|x it]; [by apply elem_of_nil in Hl|]. apply Forall_cons in Fl as [Kx Fi].
  destruct (min_max_fold c x x it Kx Kx Fi) as (K1 & K2 & B); [by rewrite (key_refl cmp_value x Kx)|].
  destruct (foldl _ (x, x) it) as [lo hi]. exists lo, hi. destruct (B v) as [B1 B2]; [|done].
  apply elem_of_cons in Hl. tauto.
Qed.

(** A bound of the right kind. *)
Definition bound_ok (o : option Bound) : Prop := forall b, o = Some b -> kind_ok (kinds 0%nat) (b_value b).

Lemma first_key_ok k : key_ok kinds k -> kind_ok (kinds 0%nat) (first_key k).
Proof. intros K. destruct k as [|v k]; [done|]. by apply (K 0%nat). Qed.

(** A range that holds a matching value is kept. *)
Lemma overlaps_complete lo hi rmin rmax v :
  bound_ok lo -> bound_ok hi -> kind_ok (kinds 0%nat) rmin -> kind_ok (kinds 0%nat) rmax -> kind_ok (kinds 0%nat) v ->
  cmp_value rmin v <> Gt -> cmp_value v rmax <> Gt -> in_range lo hi v = true -> brin_range_overlaps rmin rmax lo hi = true.
Proof.
  intros Ol Oh Kn Kx Kv Hn Hx. unfold in_range, brin_range_overlaps. rewrite !andb_true_iff. intros [Hl Hh]. split.
  - destruct lo as [b|]; [|done]. specialize (Ol b eq_refl). destruct (cmp_value (b_value b) v) eqn:E; [| |done].
    + rewrite (key_antisym cmp_value (b_value b) rmax) by done.
      rewrite (key_eq_l cmp_value (b_value b) v rmax) by done. by destruct (cmp_value v rmax).
    + rewrite (key_antisym cmp_value (b_value b) rmax) by done. by rewrite (key_lt_le cmp_value (b_value b) v rmax).
  - destruct hi as [b|]; [|done]. specialize (Oh b eq_refl). destruct (cmp_value v (b_value b)) eqn:E; [| |done].
    + rewrite <- (key_eq_r cmp_value v (b_value b) rmin) by done. by destruct (cmp_value rmin v).
    + by rewrite (key_le_lt cmp_value rmin v (b_value b)).
Qed.

Lemma elem_of_brin ranges lo hi id :
  id ∈ brin_lookup ranges lo hi <-> exists block ms rmin rmax v, (block, ms) ∈ ranges /\ min_max ms = Some (rmin, rmax)
    /\ brin_range_overlaps rmin rmax lo hi = true /\ (id, v) ∈ ms /\ is_null v = false.
Proof.
  unfold brin_lookup. rewrite list_elem_of_In, in_flat_map. setoid_rewrite <- list_elem_of_In. split.
  - intros ([block ms] & H & I). destruct (min_max ms) as [[rmin rmax]|] eqn:M; [|by apply elem_of_nil in I].
    destruct (brin_range_overlaps rmin rmax lo hi) eqn:Ov; [|by apply elem_of_nil in I].
    apply list_elem_of_fmap in I as ([i v] & -> & I). rewrite list_elem_of_In, List.filter_In, <- list_elem_of_In in I.
    destruct I as [I Nv]. cbn in Nv. apply negb_true_iff in Nv. by exists block, ms, rmin, rmax, v.
  - intros (block & ms & rmin & rmax & v & H & M & Ov & I & Nv). exists (block, ms). split; [done|]. rewrite M, Ov.
    apply list_elem_of_fmap. exists (id, v). split; [done|]. rewrite list_elem_of_In, List.filter_In, <- list_elem_of_In. cbn.
    by rewrite Nv.
Qed.

Lemma brin_lookup_spec ranges A lo hi :
  brin_rep ranges A -> bound_ok lo -> bound_ok hi ->
  NoDup (brin_lookup ranges lo hi)
  /\ (forall id, id ∈ brin_lookup ranges lo hi -> is_Some (A !! id))
  /\ forall id k, A !! id = Some k -> is_null (first_key k) = false -> in_range lo hi (first_key k) = true ->
       id ∈ brin_lookup ranges lo hi.
Proof.
  intros (S & O & R) Ol Oh.
  assert (forall block ms id v, (block, ms) ∈ ranges -> (id, v) ∈ ms ->
    id / BRIN_RANGE_SIZE = block /\ exists k, A !! id = Some k /\ v = first_key k) as In1.
  { intros block ms id v H I. pose proof (bt_get_stored ranges block ms S H) as G. destruct (R block) as [_ E].
    rewrite G in E. by apply E. }
  split_and!.
  - assert (forall t, bt_sorted Z.compare (fun _ => True) t -> (forall kv, kv ∈ t -> kv ∈ ranges) -> NoDup (brin_lookup t lo hi)) as G;
      [|by apply G].
    induction t as [|[block ms] t IH]; intros St Sub; [constructor|]. destruct St as (_ & L & St).
    assert ((block, ms) ∈ ranges) as H by (apply Sub, list_elem_of_here).
    assert (brin_lookup ((block, ms) :: t) lo hi = brin_lookup [(block, ms)] lo hi ++ brin_lookup t lo hi) as ->
      by (unfold brin_lookup; cbn; by rewrite app_nil_r).
    apply NoDup_app. split_and!.
    + cbn. rewrite app_nil_r. destruct (min_max ms) as [[rmin rmax]|]; [|constructor].
      destruct (brin_range_overlaps rmin rmax lo hi); [|constructor].
      destruct (R block) as [Nm _]. rewrite (bt_get_stored ranges block ms S H) in Nm. cbn in Nm.
      clear -Nm. induction ms as [|rv ms IH]; cbn; [constructor|]. cbn in Nm. apply NoDup_cons in Nm as [Nr Nm].
      destruct (negb (is_null rv.2)); [|by apply IH]. cbn. constructor; [|by apply IH].
      intros I. apply Nr. apply list_elem_of_fmap in I as (rv' & -> & I).
      rewrite list_elem_of_In, List.filter_In, <- list_elem_of_In in I. apply list_elem_of_fmap. exists rv'. tauto.
    + intros id I1 I2. apply elem_of_brin in I1 as (b1 & ms1 & ? & ? & v1 & H1%list_elem_of_singleton & _ & _ & I1 & _).
      injection H1 as -> ->. apply elem_of_brin in I2 as (b2 & ms2 & ? & ? & v2 & H2 & _ & _ & I2 & _).
      destruct (In1 block ms id v1 H I1) as [E1 _].
      destruct (In1 b2 ms2 id v2 (Sub _ (list_elem_of_further _ _ _ H2)) I2) as [E2 _].
      pose proof (L _ H2) as C. cbn in C. by rewrite <- E1, E2, Z.compare_refl in C.
    + apply IH; [done|]. intros kv Hkv. by apply Sub, list_elem_of_further.
  - intros id (block & ms & ? & ? & v & H & _ & _ & I & _)%elem_of_brin.
    destruct (In1 block ms id v H I) as (_ & k & L & _). by exists k.
  - intros id k L Nk Rk. pose proof (O _ _ L) as K. destruct (R (id / BRIN_RANGE_SIZE)) as [_ E].
    assert ((id, first_key k) ∈ default [] (bt_get Z.compare (id / BRIN_RANGE_SIZE) ranges)) as I
      by (apply E; split; [done|]; by exists k).
    destruct (bt_get Z.compare (id / BRIN_RANGE_SIZE) ranges) as [ms|] eqn:G; [|by apply elem_of_nil in I]. cbn in I.
    apply (bt_get_elem (ok := fun _ => True)) in G as (block & H & Eb); [|done..].
    destruct (min_max_spec (kinds 0%nat) ms (first_key k)) as (rmin & rmax & M & K1 & K2 & B1 & B2).
    { apply Forall_forall. intros [i v] Hrv. destruct (In1 block ms i v H Hrv) as (_ & k' & L' & ->). cbn.
      by apply first_key_ok, (O i). }
    { apply list_elem_of_fmap. by exists (id, first_key k). }
    { done. }
    apply elem_of_brin. exists block, ms, rmin, rmax, (first_key k). split_and!; try done.
    apply (overlaps_complete lo hi rmin rmax (first_key k)); try done. by apply first_key_ok.
Qed.

(** ** The lookups of a tracked store *)

Lemma key_cmp_first k j : key_cmp k j = Eq -> k <> [] -> cmp_value (first_key k) (first_key j) = Eq.
Proof. destruct k as [|x k], j as [|y j]; try done. cbn. by destruct (cmp_value x y). Qed.

Lemma has_null_first k : k <> [] -> key_has_null k = false -> is_null (first_key k) = false.
Proof. destruct k as [|x k]; [done|]. cbn. by intros _ [-> _]%orb_false_elim. Qed.

Lemma lookup_eq_spec m s A k :
  tracks kinds m s A -> key_ok kinds k -> k <> [] -> key_has_null k = false ->
  NoDup (store_lookup_eq s k)
  /\ (forall id, id ∈ store_lookup_eq s k -> is_Some (A !! id))
  /\ (forall id, hits A k id -> id ∈ store_lookup_eq s k)
  /\ (is_ordered m = true -> forall id, id ∈ store_lookup_eq s k <-> hits A k id).
Proof.
  intros T K Ne Nn. pose proof (tracks_method _ _ _ T) as M. apply tracks_rep in T as R.
  assert (forall id, hits A k id -> is_Some (A !! id)) as Some1 by (intros id (? & -> & _); done).
  destruct s as [tree|mp|ranges|postings all]; cbn [store_lookup_eq store_rep store_method] in *.
  - destruct R as (S & O & B). destruct (B k K) as [N I]. fold (ids_at tree k).
    split_and!; [done|intros id H; by apply Some1, I|intros id H; by apply I|done].
  - rewrite Nn. destruct R as [O B]. destruct (B (hash_key k)) as (N & I & _). subst m. split_and!; [done| | |done].
    + intros id (? & -> & _)%I. done.
    + intros id (k' & L & E). apply I. destruct (hash_key_eq k k') as [H1 H2]; [done|by apply (O id)|done..|].
      by exists k'.
  - subst m. destruct k as [|v k]; [done|]. cbn in Nn. apply orb_false_elim in Nn as [Nv _]. rewrite Nv.
    assert (kind_ok (kinds 0%nat) v) as Kv by (by apply (K 0%nat)).
    assert (bound_ok (Some (mk_bound v true))) as Ob by (by intros b [= <-]).
    destruct (brin_lookup_spec ranges A (Some (mk_bound v true)) (Some (mk_bound v true)) R Ob Ob) as (N & S1 & C).
    split_and!; [done|done| |done]. intros id (k' & L & E). destruct R as (_ & O & _). pose proof (O _ _ L) as K'.
    pose proof (key_cmp_first _ _ E ltac:(done)) as F. cbn [first_key head default from_option] in F.
    change (cmp_value v (first_key k') = Eq) in F. pose proof (first_key_ok k' K') as Kf.
    apply (C id k' L).
    + by destruct (hash_value_eq (kinds 0%nat) v (first_key k') Kv Kf Nv F).
    + unfold in_range. cbn. by rewrite F, (key_eq_sym cmp_value v (first_key k')).
  - subst m. destruct R as (O & N & I & _). split_and!; [done| | |done].
    + intros id H. by apply I.
    + intros id H. by apply I, Some1.
Qed.

Lemma all_spec m s A :
  tracks kinds m s A -> is_ordered m = true -> NoDup (store_all s) /\ forall id, id ∈ store_all s <-> is_Some (A !! id).
Proof.
  intros T Hm. pose proof (tracks_method _ _ _ T) as M. apply tracks_rep in T as R.
  destruct s as [tree|mp|ranges|postings all]; cbn in *; try (subst m; discriminate).
  assert (flat_map snd tree = scan_tree (fun _ => true) tree) as ->.
  { unfold scan_tree. clear. induction tree as [|[k ids] t IH]; [done|]. cbn. by rewrite IH. }
  split; [by apply (scan_sorted tree A)|]. intros id. rewrite (scan_elem tree A R) by done. split.
  - intros (k & -> & _). done.
  - intros [k E]. by exists k.
Qed.

Lemma key_cmp_prefix p k : (length p <= length k)%nat ->
  forallb (fun '(p, k) => match cmp_value p k with Eq => true | _ => false end) (zip p k)
  = match key_cmp p (take (length p) k) with Eq => true | _ => false end.
Proof.
  revert k. induction p as [|x p IH]; intros k Hl; [done|]. destruct k as [|y k]; cbn in Hl; [lia|]. cbn.
  destruct (cmp_value x y); [|done..]. cbn. apply IH. lia.
Qed.

Lemma key_cmp_length k j : key_cmp k j = Eq -> length k = length j.
Proof.
  revert j. induction k as [|x k IH]; intros [|y j]; try done. cbn. destruct (cmp_value x y); [|done..].
  intros E. f_equal. by apply IH.
Qed.

Lemma key_cmp_take n k j : key_cmp k j = Eq -> key_cmp (take n k) (take n j) = Eq.
Proof.
  revert k j. induction n as [|n IH]; intros [|x k] [|y j]; try done. cbn. destruct (cmp_value x y); [|done..]. apply IH.
Qed.

Lemma key_ok_take n k : key_ok kinds k -> key_ok kinds (take n k).
Proof. intros K i x H. apply lookup_take_Some in H as [H _]. by apply K. Qed.

Definition prefix_eq (p k : list Value) : bool :=
  (length p <=? length k)%nat && match key_cmp p (take (length p) k) with Eq => true | _ => false end.

Lemma prefix_spec m s A p :
  tracks kinds m s A -> is_ordered m = true -> key_ok kinds p ->
  NoDup (store_lookup_prefix s p)
  /\ forall id, id ∈ store_lookup_prefix s p <-> exists k, A !! id = Some k /\ prefix_eq p k = true.
Proof.
  intros T Hm Kp. pose proof (tracks_method _ _ _ T) as M. apply tracks_rep in T as R.
  destruct s as [tree|mp|ranges|postings all]; cbn [store_lookup_prefix store_rep store_method] in *; try (subst m; discriminate).
  match goal with |- NoDup (flat_map ?f _) /\ _ => set (g := f) end.
  assert (flat_map g tree = scan_tree (prefix_eq p) tree) as ->.
  { unfold scan_tree. clear. induction tree as [|[k ids] t IH]; [done|].
    cbn [flat_map]. rewrite IH. f_equal. unfold g, prefix_eq.
    destruct (Nat.ltb_spec (length k) (length p)) as [L|L].
    - by rewrite (proj2 (Nat.leb_gt _ _)) by lia.
    - rewrite (proj2 (Nat.leb_le _ _)) by lia. by rewrite key_cmp_prefix. }
  split; [by apply (scan_sorted tree A)|]. intros id. apply (scan_elem tree A R).
  intros k j K J E. unfold prefix_eq. rewrite (key_cmp_length k j E). f_equal.
  rewrite (key_eq_r key_cmp (take (length p) k) (take (length p) j) p); [done|by apply key_ok_take..|done|].
  by apply key_cmp_take.
Qed.

(** Whether the bounds describe a range at all. *)
Definition bounds_ordered (lo hi : option Bound) : bool :=
  match lo, hi with
  | Some a, Some b => match cmp_value (b_value a) (b_value b) with Lt => true | Eq => inclusive a || inclusive b | Gt => false end
  | Some a, None => inclusive a || negb (is_null (b_value a))
  | None, _ => true
  end.

Definition selects (lo hi : option Bound) (k : list Value) : bool :=
  after_start key_cmp (range_start lo) k && before_end key_cmp (range_end hi) k && negb (default true (is_null <$> head k)).

Lemma key_cmp_single x y : key_cmp [x] [y] = cmp_value x y.
Proof. cbn [key_cmp list_cmp]. unfold key_cmp. cbn [list_cmp]. by destruct (cmp_value x y). Qed.

Lemma range_valid_bounds lo hi : range_valid key_cmp (range_start lo) (range_end hi) = bounds_ordered lo hi.
Proof.
  destruct lo as [[a ia]|], hi as [[b ib]|];
    cbn [range_start range_end bounds_ordered inclusive b_value]; try by destruct ib.
  - destruct ia, ib; cbn [range_valid]; rewrite key_cmp_single; by destruct (cmp_value a b).
  - destruct ia; cbn [range_valid]; rewrite key_cmp_single; by destruct a.
  - done.
Qed.

Lemma selects_single lo hi v : selects lo hi [v] = in_range lo hi v && negb (is_null v).
Proof.
  unfold selects, in_range. change (default true (is_null <$> head [v])) with (is_null v).
  destruct (is_null v) eqn:N; cbn [negb]; [by rewrite !andb_false_r|]. rewrite !andb_true_r. f_equal.
  - destruct lo as [[a []]|]; cbn [range_start inclusive b_value after_start]; rewrite ?key_cmp_single; try done;
      by destruct (cmp_value a v).
  - destruct hi as [[b []]|]; cbn [range_end inclusive b_value before_end]; rewrite ?key_cmp_single;
      [by destruct (cmp_value v b)..|]. by destruct v.
Qed.

Lemma bound_key_ok o b : bound_ok o -> o = Some b -> key_ok kinds [b_value b].
Proof. intros O E [|i] x Hx; [injection Hx as <-; by apply O|by rewrite lookup_nil in Hx || destruct i]. Qed.

Lemma selects_respects lo hi : bound_ok lo -> bound_ok hi -> respects (selects lo hi).
Proof.
  intros Ol Oh k j K J E. unfold selects. assert (key_ok kinds [Null]) as KN by (intros [|[]] x [= <-]; done).
  assert (forall b, key_ok kinds [b] -> key_cmp [b] k = key_cmp [b] j /\ key_cmp k [b] = key_cmp j [b]) as C.
  { intros b Kb. split; [by apply (key_eq_r key_cmp)|by apply (key_eq_l key_cmp)]. }
  f_equal; [f_equal|].
  - destruct lo as [b|]; cbn [range_start]; [|done]. destruct (C _ (bound_key_ok _ b Ol eq_refl)) as [C1 C2].
    destruct (inclusive b); cbn [after_start]; by rewrite C1.
  - destruct hi as [b|]; cbn [range_end].
    + destruct (C _ (bound_key_ok _ b Oh eq_refl)) as [C1 C2]. destruct (inclusive b); cbn [before_end]; by rewrite C2.
    + destruct (C _ KN) as [C1 C2]. cbn [before_end]. by rewrite C2.
  - f_equal. destruct k as [|x k], j as [|y j]; try done. apply key_cmp_first in E; [|done].
    change (is_null x = is_null y). change (cmp_value x y = Eq) in E. by destruct x, y.
Qed.

Lemma range_spec m s A lo hi :
  tracks kinds m s A -> is_ordered m = true -> bound_ok lo -> bound_ok hi ->
  if bounds_ordered lo hi then
    exists l, store_lookup_range s lo hi = Val l /\ NoDup l /\ StronglySorted (key_le A) l
      /\ forall id, id ∈ l <-> exists k, A !! id = Some k /\ selects lo hi k = true
  else store_lookup_range s lo hi = Panic.
Proof.
  intros T Hm Ol Oh. pose proof (tracks_method _ _ _ T) as M. apply tracks_rep in T as R.
  destruct s as [tree|mp|ranges|postings all]; cbn [store_lookup_range store_rep store_method] in *; try (subst m; discriminate).
  unfold bt_range. rewrite range_valid_bounds. destruct (bounds_ordered lo hi); cbn [mbind run_bind]; [|done].
  exists (scan_tree (selects lo hi) tree). split_and!.
  - f_equal. unfold scan_tree, selects. clear. induction tree as [|[k ids] t IH]; [done|]. cbn [List.filter fst flat_map].
    destruct (after_start key_cmp (range_start lo) k && before_end key_cmp (range_end hi) k); cbn [flat_map]; rewrite IH; [|done].
    by destruct (default true (is_null <$> head k)).
  - by apply (scan_sorted tree A).
  - by apply (scan_sorted tree A).
  - intros id. apply (scan_elem tree A R). by apply selects_respects.
Qed.

(** ** GIN containment *)

Lemma intersect_spec postings P needles prev id :
  posting_rep postings P ->
  id ∈ gin_intersect postings needles (Some prev) <-> id ∈ prev /\ forall t, t ∈ needles -> P t id.
Proof.
  intros R. revert prev. induction needles as [|t needles IH]; intros prev; cbn.
  - split; [|tauto]. intros H. split; [done|]. by intros t ?%elem_of_nil.
  - destruct (R t) as (N & I & _). destruct (postings !! t) as [ids|]; cbn in I.
    + rewrite IH, list_elem_of_filter, I. setoid_rewrite elem_of_cons. naive_solver.
    + split; [by intros ?%elem_of_nil|]. intros [_ H]. apply I, H, list_elem_of_here.
Qed.

Lemma intersect_NoDup postings P needles prev :
  posting_rep postings P -> NoDup prev -> NoDup (gin_intersect postings needles (Some prev)).
Proof.
  intros R. revert prev. induction needles as [|t needles IH]; intros prev N; [done|]. cbn.
  destruct (postings !! t); [|constructor]. apply IH. by apply NoDup_filter.
Qed.

Lemma gin_spec s A needles :
  tracks kinds Gin s A ->
  exists l, store_gin_contains s needles = Some l /\ NoDup l /\
    forall id, id ∈ l <-> exists k, A !! id = Some k /\ forall t, t ∈ needles -> t ∈ gin_tokens (first_key k).
Proof.
  intros T. pose proof (tracks_method _ _ _ T) as M. apply tracks_rep in T as R.
  destruct s as [tree|mp|ranges|postings all]; try discriminate M. destruct R as (O & Na & Ia & R).
  cbn. eexists. split; [done|].
  assert (forall t k, t ∈ key_tokens k <-> t ∈ gin_tokens (first_key k)) as Tk by (intros t k; apply sort_dedup_spec).
  destruct needles as [|t needles].
  { split; [done|]. intros id. rewrite Ia. split; [|by intros (k & -> & _)].
    intros [k L]. exists k. split; [done|]. by intros t ?%elem_of_nil. }
  cbn. pose proof (R t) as (N & I & _). destruct (postings !! t) as [ids|]; cbn in N, I.
  - split; [by eapply intersect_NoDup|]. intros id. rewrite (intersect_spec _ _ _ _ _ R), I. split.
    + intros [(k & L & H) F]. exists k. split; [done|]. intros u [->|Hu]%elem_of_cons; [by apply Tk|].
      destruct (F u Hu) as (k' & L' & H'). apply Tk. congruence.
    + intros (k & L & H). split.
      * exists k. split; [done|]. apply Tk, H, list_elem_of_here.
      * intros u Hu. exists k. split; [done|]. by apply Tk, H, list_elem_of_further.
  - split; [constructor|]. intros id. split; [by intros ?%elem_of_nil|]. intros (k & L & H). apply I. exists k.
    split; [done|]. apply Tk, H, list_elem_of_here.
Qed.

End reps.

(** * Theorems *)

(** Point lookups agree with a scan.  For every sequence of insertions and
    removals on homogeneous columns, with [A] the row-to-key map it leaves, a
    point lookup of a non-null key returns each row id at most once, only rows
    that are present, and every row whose key is equal to the probe; on the
    ordered methods (B-tree, GiST, SP-GiST) it returns exactly those, and the
    prefix lookup exactly the rows whose key starts with the probe. *)
Theorem index_point_lookup kinds m s A k :
  tracks kinds m s A -> key_ok kinds k -> k <> [] -> key_has_null k = false ->
  NoDup (store_lookup_eq s k)
  /\ (forall id, id ∈ store_lookup_eq s k -> is_Some (A !! id))
  /\ (forall id, hits A k id -> id ∈ store_lookup_eq s k)
  /\ (is_ordered m = true ->
        (forall id, id ∈ store_lookup_eq s k <-> hits A k id)
        /\ NoDup (store_lookup_prefix s k)
        /\ (forall id, id ∈ store_lookup_prefix s k <-> exists k', A !! id = Some k' /\ prefix_eq k k' = true)).
Proof.
  intros T K Ne Nn. destruct (lookup_eq_spec kinds m s A k T K Ne Nn) as (H1 & H2 & H3 & H4).
  split_and!; [done..|]. intros Hm. destruct (prefix_spec kinds m s A k T Hm K) as [P1 P2]. split_and!; [by apply H4|done..].
Qed.

Definition demo_kinds (_ : nat) : Kind := KInt.
Definition demo_ops (m : IndexMethod) : Store :=
  store_remove (store_insert (store_insert (empty_store m) [Int 7] 0) [Int 7] 1) [Int 7] 0.
Definition demo_map : gmap RowId (list Value) := delete 0 (<[1 := [Int 7]]> (<[0 := [Int 7]]> ∅)).

Lemma int_key_ok i : key_ok demo_kinds [Int i].
Proof. intros [|[|?]] x H; [by injection H as <-|done..]. Qed.

Lemma demo_tracks m : tracks demo_kinds m (demo_ops m) demo_map.
Proof.
  apply tracks_remove with (key := [Int 7]); [|reflexivity].
  apply tracks_insert; [|reflexivity|apply int_key_ok]. apply tracks_insert; [|reflexivity|apply int_key_ok].
  apply tracks_empty.
Qed.

Lemma index_point_lookup_witness :
  (forall id, id ∈ store_lookup_eq (demo_ops Btree) [Int 7] <-> hits demo_map [Int 7] id)
  /\ store_lookup_eq (demo_ops Btree) [Int 7] = [1].
Proof.
  destruct (index_point_lookup demo_kinds Btree (demo_ops Btree) demo_map [Int 7]
    (demo_tracks Btree) (int_key_ok 7) ltac:(discriminate) eq_refl) as (_ & _ & _ & H).
  split; [apply H; reflexivity|vm_compute; reflexivity].
Defined.

(** Range scans agree with a scan.  On a single-column ordered index, a
    range lookup returns exactly the rows with a non-null key in the range, each
    once, in key order, as long as the bounds describe a range; otherwise
    ([BETWEEN 5 AND 3], [> NULL]) it panics.  On a BRIN index it never panics and
    returns, without duplicates, at least the rows in the range. *)
Theorem index_range_scan kinds m s A lo hi :
  tracks kinds m s A -> (forall id k, A !! id = Some k -> exists v, k = [v]) ->
  bound_ok kinds lo -> bound_ok kinds hi ->
  (is_ordered m = true ->
     if bounds_ordered lo hi then
       exists l, store_lookup_range s lo hi = Val l /\ NoDup l /\ StronglySorted (key_le A) l
         /\ forall id, id ∈ l <-> exists v, A !! id = Some [v] /\ is_null v = false /\ in_range lo hi v = true
     else store_lookup_range s lo hi = Panic)
  /\ (m = Brin ->
        exists l, store_lookup_range s lo hi = Val l /\ NoDup l
          /\ forall id v, A !! id = Some [v] -> is_null v = false -> in_range lo hi v = true -> id ∈ l).
Proof.
  intros T Hs Ol Oh. split.
  - intros Hm. pose proof (range_spec kinds m s A lo hi T Hm Ol Oh) as H. destruct (bounds_ordered lo hi); [|done].
    destruct H as (l & E & N & S & I). exists l. split_and!; [done..|]. intros id. rewrite I. split.
    + intros (k & L & Sel). destruct (Hs _ _ L) as [v ->]. exists v. rewrite selects_single, andb_true_iff, negb_true_iff in Sel.
      tauto.
    + intros (v & L & Nv & R). exists [v]. by rewrite selects_single, R, Nv.
  - intros ->. pose proof (tracks_method _ _ _ _ T) as M. apply tracks_rep in T. destruct s as [| |ranges|]; try discriminate M.
    destruct (brin_lookup_spec kinds ranges A lo hi T Ol Oh) as (N & _ & C). eexists. split_and!; [done..|].
    intros id v L Nv R. by apply (C id [v] L).
Qed.

Lemma index_range_scan_witness :
  store_lookup_range (demo_ops Btree) (Some (mk_bound (Int 7) true)) None = Val [1]
  /\ store_lookup_range (demo_ops Btree) (Some (mk_bound (Int 5) true)) (Some (mk_bound (Int 3) true)) = Panic.
Proof.
  split; [vm_compute; reflexivity|].
  apply (index_range_scan demo_kinds Btree (demo_ops Btree) demo_map (Some (mk_bound (Int 5) true)) (Some (mk_bound (Int 3) true))).
  - apply demo_tracks.
  - intros id k H. unfold demo_map in H. apply lookup_delete_Some in H as [_ H].
    apply lookup_insert_Some in H as [[_ <-]|[_ H]]; [by eexists|].
    apply lookup_insert_Some in H as [[_ <-]|[_ H]]; [by eexists|done].
  - intros b [= <-]. reflexivity.
  - intros b [= <-]. reflexivity.
  - reflexivity.
Defined.

(** GIN containment is exact at the level of array elements: the probe
    returns, without duplicates, exactly the rows whose array has every needle
    among its elements. *)
Theorem index_gin_contains kinds s A needles :
  tracks kinds Gin s A ->
  exists l, store_gin_contains s needles = Some l /\ NoDup l /\
    forall id, id ∈ l <-> exists k, A !! id = Some k /\ forall t, t ∈ needles -> t ∈ gin_tokens (first_key k).
Proof. apply gin_spec. Qed.

Lemma index_gin_contains_witness : store_gin_contains (demo_ops Gin) [lit "7"] = Some [1]
  /\ exists l, store_gin_contains (demo_ops Gin) [lit "7"] = Some l /\ NoDup l.
Proof.
  split; [vm_compute; reflexivity|].
  destruct (index_gin_contains demo_kinds (demo_ops Gin) demo_map [lit "7"] (demo_tracks Gin)) as (l & E & N & _).
  exists l. split; [exact E|exact N].
Defined.

(** The documented total order is not one when a column's index is probed
    with another numeric type: the comparison calls 2^53 and 2^53 + 1 both equal
    to the double 2^53 although they differ, and a B-tree that holds both
    integers answers the probe with only one of the two matching rows. *)
Theorem index_order_not_transitive :
  let x := Int (2 ^ 53) in let y := Int (2 ^ 53 + 1) in let f := Float (i64_as_f64 (2 ^ 53)) in
  cmp_value x f = Eq /\ cmp_value f y = Eq /\ cmp_value x y = Lt
  /\ store_lookup_eq (store_insert (store_insert (empty_store Btree) [x] 0) [y] 1) [f] = [0].
Proof. vm_compute. split_and!; reflexivity. Qed.
