(* ===== verification/Storage.v ===== *)
(** Tables of crates/engine/src/storage.rs: rows with stable ids, index
    maintenance, out-of-line (TOAST) storage, page accounting and vacuum, and
    the index-accelerated lookups.  A table refines a list of rows addressed by
    stable ids. *)

From S2P Require Import Prelude Utf8 Numeric Types Float BTree Index.
From stdpp Require Import gmap.
From Stdlib Require Import Sorted.

#[local] Open Scope Z_scope.

(** * Page accounting *)

Definition DEFAULT_PAGE_SIZE : Z := 8192.
Definition TOAST_THRESHOLD_BYTES : Z := 2048.

Record StoragePage := mk_sp {
  sp_id : Z;
  live_rows : Z;
  dead_rows : Z;
  live_bytes : Z;
  dead_bytes : Z
}.

Definition sp_new (id : Z) : StoragePage := mk_sp id 0 0 0 0.
Definition used_bytes (p : StoragePage) : Z := live_bytes p + dead_bytes p.
Definition saturating_sub (a b : Z) : Z := Z.max 0 (a - b).
Definition free_bytes (p : StoragePage) (page_size : Z) : Z := saturating_sub page_size (used_bytes p).
Definition sp_can_fit (p : StoragePage) (bytes page_size : Z) : bool := bytes <=? free_bytes p page_size.
Definition add_live (p : StoragePage) (bytes : Z) : StoragePage :=
  mk_sp (sp_id p) (live_rows p + 1) (dead_rows p) (live_bytes p + bytes) (dead_bytes p).
Definition mark_dead (p : StoragePage) (bytes : Z) : StoragePage :=
  mk_sp (sp_id p) (saturating_sub (live_rows p) 1) (dead_rows p + 1)
    (saturating_sub (live_bytes p) bytes) (dead_bytes p + bytes).

Definition align8 (bytes : Z) : Z := Z.land (bytes + 7) (Z.lnot 7).
Definition value_storage_bytes (v : Value) : Z :=
  match v with
  | Null => 0
  | Bool _ => 1
  | Int _ | Float _ => 8
  | Num n => 4 + zlen (to_canonical_string n)
  | Text s => 4 + zlen s
  end.
Definition sum_list (l : list Z) : Z := foldr Z.add 0 l.
(** [row_storage_bytes] *)
Definition row_bytes (row : list Value) : Z :=
  align8 (24 + (zlen row + 7) / 8 + sum_list (value_storage_bytes <$> row)).

(** * TOAST *)

Definition TOAST_PREFIX : str := 1 :: lit "pg_toast:".
Definition TOAST_SUFFIX : str := [1].

Definition strip_prefix (s p : str) : option str := if starts_with s p then Some (drop (length p) s) else None.
Definition strip_suffix (s p : str) : option str :=
  reverse <$> strip_prefix (reverse s) (reverse p).

Definition toast_pointer (id : Z) : str := TOAST_PREFIX ++ i64_display id ++ TOAST_SUFFIX.
Arguments toast_pointer : simpl never.

(** [Table::toast_id_of] *)
Definition toast_id_of (cell : Value) : option Z :=
  match cell with
  | Text s =>
      inner ← strip_prefix s TOAST_PREFIX;
      inner ← strip_suffix inner TOAST_SUFFIX;
      parse_uint 64 inner
  | _ => None
  end.

Record ToastStore := mk_toast { chunks : gmap Z str; next_toast_id : Z }.

(** One step of the loop of [Table::toast_row]. *)
Definition toast_cell (ts : ToastStore) (cell : Value) : ToastStore * Value :=
  match cell with
  | Text s =>
      if starts_with s TOAST_PREFIX then (ts, cell)
      else if zlen s <=? TOAST_THRESHOLD_BYTES then (ts, cell)
      else
        let id := next_toast_id ts in
        (mk_toast (<[id := s]> (chunks ts)) (id + 1), Text (toast_pointer id))
  | _ => (ts, cell)
  end.
Fixpoint toast_row (ts : ToastStore) (row : list Value) : ToastStore * list Value :=
  match row with
  | [] => (ts, [])
  | cell :: row =>
      let '(ts, cell') := toast_cell ts cell in
      let '(ts, row') := toast_row ts row in
      (ts, cell' :: row')
  end.

(** [Table::untoast_row] *)
Definition untoast_row (ts : ToastStore) (row : list Value) : ToastStore :=
  mk_toast (foldl (fun c cell => match toast_id_of cell with Some id => delete id c | None => c end) (chunks ts) row)
    (next_toast_id ts).

(** [Table::detoast_value] and [Table::detoast_row] *)
Definition detoast_value (c : gmap Z str) (cell : Value) : Value :=
  match toast_id_of cell with
  | Some id => Text (default [] (c !! id))
  | None => cell
  end.
Definition detoast_row (c : gmap Z str) (row : list Value) : list Value := detoast_value c <$> row.

(** * Tables *)

Record Column (Expr : Type) := mk_column {
  col_name : str;
  data_type : DataType;
  type_name : option str;
  not_null : bool;
  primary_key : bool;
  col_default : option Expr;
  serial : bool;
  identity : bool;
  identity_always : bool;
  generated : option Expr
}.
Arguments mk_column {Expr}.
Arguments col_name {Expr}.
Arguments data_type {Expr}.
Arguments type_name {Expr}.
Arguments not_null {Expr}.
Arguments primary_key {Expr}.
Arguments col_default {Expr}.
Arguments serial {Expr}.
Arguments identity {Expr}.
Arguments identity_always {Expr}.
Arguments generated {Expr}.

Definition column_basic {Expr} (name : str) (dt : DataType) (nn : bool) : Column Expr :=
  mk_column name dt None nn false None false false false None.

Record UniqueConstraint := mk_uc { uc_name : str; uc_columns : list Z; uc_primary : bool }.

(** The fields that rows, indexes and storage accounting use; the schema
    metadata that only DDL reads (check and foreign keys, policies, owner,
    inheritance, statistics) is left out. *)
Record Table (Expr : Type) := mk_table {
  t_name : str;
  columns : list (Column Expr);
  rows : list (list Value);
  row_ids : list RowId;
  row_pos : gmap RowId Z;
  next_row_id : RowId;
  indexes : list (Index Expr);
  unique_constraints : list UniqueConstraint;
  storage_page_size : Z;
  storage_pages : list StoragePage;
  row_storage_pages : gmap RowId Z;
  row_storage_bytes : gmap RowId Z;
  vacuum_count : Z;
  compaction_count : Z;
  toast : ToastStore
}.
Arguments mk_table {Expr}.
Arguments t_name {Expr}.
Arguments columns {Expr}.
Arguments rows {Expr}.
Arguments row_ids {Expr}.
Arguments row_pos {Expr}.
Arguments next_row_id {Expr}.
Arguments indexes {Expr}.
Arguments unique_constraints {Expr}.
Arguments storage_page_size {Expr}.
Arguments storage_pages {Expr}.
Arguments row_storage_pages {Expr}.
Arguments row_storage_bytes {Expr}.
Arguments vacuum_count {Expr}.
Arguments compaction_count {Expr}.
Arguments toast {Expr}.

Section table.
(** Expressions and their evaluator ([executor::eval_expr]) are parameters:
    tables only hand them the column names and a row. *)
Context {Expr : Type} (eval_expr : Expr -> list str -> list Value -> result str Value).
Implicit Types (t : Table Expr) (idx : Index Expr).

Definition table_new (name : str) (cols : list (Column Expr)) : Table Expr :=
  mk_table name cols [] [] ∅ 0 [] [] DEFAULT_PAGE_SIZE [] ∅ ∅ 0 0 (mk_toast ∅ 0).

Definition column_names t : list str := col_name <$> columns t.

(** [Table::index_key]: [row[c]] panics out of range. *)
Definition index_key (names : list str) idx (row : list Value) : run (option (list Value)) :=
  match idx_expr idx with
  | Some e => Val (match eval_expr e names row with Ok v => Some [v] | Err _ => None end)
  | None => Some <$> mapM (fun c => expect (zget row c)) (idx_columns idx)
  end.

(** [Table::row_qualifies] *)
Definition row_qualifies (names : list str) idx (row : list Value) : bool :=
  match idx_predicate idx with
  | None => true
  | Some p => match eval_expr p names row with Ok v => is_true v | Err _ => false end
  end.

(** [Table::index_row] and [Table::unindex_row], for one index and for all. *)
Definition patch_index (f : Index Expr -> list Value -> RowId -> Index Expr) (names : list str)
    (row : list Value) (id : RowId) idx : run (Index Expr) :=
  if row_qualifies names idx row then
    key ← index_key names idx row;
    Val (match key with Some k => f idx k id | None => idx end)
  else Val idx.
Definition index_row (names : list str) (row : list Value) (id : RowId) (ixs : list (Index Expr)) : run (list (Index Expr)) :=
  mapM (patch_index index_insert names row id) ixs.
Definition unindex_row (names : list str) (row : list Value) (id : RowId) (ixs : list (Index Expr)) : run (list (Index Expr)) :=
  mapM (patch_index index_remove names row id) ixs.

(** ** Page accounting of a table *)

(** The storage fields as one value. *)
Record Accounting := mk_acct {
  a_pages : list StoragePage;
  a_row_pages : gmap RowId Z;
  a_row_bytes : gmap RowId Z
}.
Definition acct t : Accounting := mk_acct (storage_pages t) (row_storage_pages t) (row_storage_bytes t).

(** [Table::page_for] *)
Definition page_for (size bytes : Z) (pages : list StoragePage) : list StoragePage * Z :=
  match List.find (fun p => sp_can_fit p bytes size) pages with
  | Some p => (pages, sp_id p)
  | None => (pages ++ [sp_new (zlen pages)], zlen pages)
  end.

(** [Table::assign_live_storage] *)
Definition assign_live_storage (size : Z) (a : Accounting) (id : RowId) (bytes : Z) : run Accounting :=
  let '(pages, page_id) := page_for size bytes (a_pages a) in
  p ← expect (zget pages page_id);
  Val (mk_acct (<[Z.to_nat page_id := add_live p bytes]> pages)
         (<[id := page_id]> (a_row_pages a)) (<[id := bytes]> (a_row_bytes a))).

(** [Table::mark_dead_storage]; [fallback] is the size of the stored row. *)
Definition mark_dead_storage (fallback : run Z) (a : Accounting) (id : RowId) : run Accounting :=
  match a_row_pages a !! id with
  | None => Val a
  | Some page_id =>
      let rp := delete id (a_row_pages a) in
      bytes ← match a_row_bytes a !! id with Some b => Val b | None => fallback end;
      let rb := delete id (a_row_bytes a) in
      Val (match zget (a_pages a) page_id with
           | Some p => mk_acct (<[Z.to_nat page_id := mark_dead p bytes]> (a_pages a)) rp rb
           | None => mk_acct (a_pages a) rp rb
           end)
  end.

(** [Table::rebuild_live_storage] *)
Fixpoint rebuild_from (size : Z) (rs : list (list Value)) (ids : list RowId) (pos : Z) (a : Accounting) : run Accounting :=
  match rs with
  | [] => Val a
  | row :: rs =>
      id ← expect (zget ids pos);
      a ← assign_live_storage size a id (row_bytes row);
      rebuild_from size rs ids (pos + 1) a
  end.
Definition rebuild_live_storage t : run Accounting :=
  rebuild_from (storage_page_size t) (rows t) (row_ids t) 0 (mk_acct [] ∅ ∅).

(** ** Row operations *)

Definition stored_bytes t (id : RowId) : run Z :=
  p ← expect (row_pos t !! id);
  row ← expect (zget (rows t) p);
  Val (row_bytes row).

(** [Table::push_row] *)
Definition push_row t (row : list Value) : run (Table Expr) :=
  let id := next_row_id t in
  let pos := zlen (rows t) in
  ixs ← index_row (column_names t) row id (indexes t);
  a ← assign_live_storage (storage_page_size t) (acct t) id (row_bytes row);
  let '(ts, row') := toast_row (toast t) row in
  Val (mk_table (t_name t) (columns t) (rows t ++ [row']) (row_ids t ++ [id]) (<[id := pos]> (row_pos t)) (id + 1)
         ixs (unique_constraints t) (storage_page_size t) (a_pages a) (a_row_pages a) (a_row_bytes a)
         (vacuum_count t) (compaction_count t) ts).

(** [Table::update_row] *)
Definition update_row t (pos : Z) (new_row : list Value) : run (Table Expr) :=
  id ← expect (zget (row_ids t) pos);
  stored_old ← expect (zget (rows t) pos);
  let old_row := detoast_row (chunks (toast t)) stored_old in
  ixs ← unindex_row (column_names t) old_row id (indexes t);
  ixs ← index_row (column_names t) new_row id ixs;
  a ← mark_dead_storage (stored_bytes t id) (acct t) id;
  a ← assign_live_storage (storage_page_size t) a id (row_bytes new_row);
  let ts := untoast_row (toast t) stored_old in
  let '(ts, row') := toast_row ts new_row in
  Val (mk_table (t_name t) (columns t) (<[Z.to_nat pos := row']> (rows t)) (row_ids t) (row_pos t) (next_row_id t)
         ixs (unique_constraints t) (storage_page_size t) (a_pages a) (a_row_pages a) (a_row_bytes a)
         (vacuum_count t) (compaction_count t) ts).

(** The loops of [Table::delete_rows]: the dropped rows leave the indexes and
    the TOAST store, then the page accounting, then the row vectors. *)
Fixpoint unindex_dropped (names : list str) (rs : list (list Value)) (ids : list RowId) (mask : list bool)
    (ixs : list (Index Expr)) (ts : ToastStore) : run (list (Index Expr) * ToastStore) :=
  match rs, ids, mask with
  | stored :: rs, id :: ids, b :: mask =>
      if b then
        ixs ← unindex_row names (detoast_row (chunks ts) stored) id ixs;
        unindex_dropped names rs ids mask ixs (untoast_row ts stored)
      else unindex_dropped names rs ids mask ixs ts
  | [], _, _ => Val (ixs, ts)
  | _, _, _ => Panic
  end.
Fixpoint kill_dropped t (ids : list RowId) (mask : list bool) (a : Accounting) : run Accounting :=
  match ids, mask with
  | id :: ids, b :: mask =>
      a ← (if b then mark_dead_storage (stored_bytes t id) a id else Val a);
      kill_dropped t ids mask a
  | _, [] => Val a
  | [], _ => Panic
  end.
Fixpoint keep {A} (l : list A) (mask : list bool) : list A :=
  match l, mask with
  | x :: l, b :: mask => if b then keep l mask else x :: keep l mask
  | _, _ => []
  end.
Fixpoint pos_map (ids : list RowId) (p : Z) : gmap RowId Z :=
  match ids with
  | [] => ∅
  | id :: ids => <[id := p]> (pos_map ids (p + 1))
  end.
Definition set_mask (n : nat) (positions : list Z) : run (list bool) :=
  foldl (fun m p => mask ← m;
           match zget mask p with Some _ => Val (<[Z.to_nat p := true]> mask) | None => Panic end)
    (Val (replicate n false)) positions.

(** [Table::delete_rows]; the capacity hint [rows.len() - positions.len()]
    underflows when there are more positions than rows. *)
Definition delete_rows t (positions : list Z) : run (Table Expr) :=
  match positions with
  | [] => Val t
  | _ =>
      mask ← set_mask (length (rows t)) positions;
      '(ixs, ts) ← unindex_dropped (column_names t) (rows t) (row_ids t) mask (indexes t) (toast t);
      a ← kill_dropped t (row_ids t) mask (acct t);
      if zlen (rows t) <? zlen positions then Panic
      else
        let ids := keep (row_ids t) mask in
        Val (mk_table (t_name t) (columns t) (keep (rows t) mask) ids (pos_map ids 0) (next_row_id t)
               ixs (unique_constraints t) (storage_page_size t) (a_pages a) (a_row_pages a) (a_row_bytes a)
               (vacuum_count t) (compaction_count t) ts)
  end.

(** [Table::truncate] *)
Definition truncate t : Table Expr :=
  mk_table (t_name t) (columns t) [] [] ∅ (next_row_id t) (index_clear <$> indexes t) (unique_constraints t)
    (storage_page_size t) [] ∅ ∅ (vacuum_count t) (compaction_count t) (mk_toast ∅ (next_toast_id (toast t))).

(** [Table::position_of] and [Table::ids_to_positions] *)
Definition position_of t (id : RowId) : option Z := row_pos t !! id.
Definition ids_to_positions t (ids : list RowId) : list Z := omap (position_of t) ids.

(** ** Index management and lookups *)

(** [Table::add_and_populate_index] *)
Fixpoint populate (names : list str) idx (rs : list (list Value)) (ids : list RowId) : run (Index Expr) :=
  match rs, ids with
  | row :: rs, id :: ids => idx' ← patch_index index_insert names row id idx; populate names idx' rs ids
  | _, _ => Val idx
  end.
Definition with_indexes t (ixs : list (Index Expr)) : Table Expr :=
  mk_table (t_name t) (columns t) (rows t) (row_ids t) (row_pos t) (next_row_id t) ixs (unique_constraints t)
    (storage_page_size t) (storage_pages t) (row_storage_pages t) (row_storage_bytes t) (vacuum_count t)
    (compaction_count t) (toast t).
Definition add_and_populate_index t idx : run (Table Expr) :=
  idx' ← populate (column_names t) idx (rows t) (row_ids t);
  Val (with_indexes t (indexes t ++ [idx'])).
Definition create_index t (name : str) (column : Z) (unique : bool) : run (Table Expr) :=
  add_and_populate_index t (index_new name column unique).
Definition create_index_full t (name : str) (cols : list Z) (expr predicate : option Expr) (include : list Z)
    (unique : bool) (method : IndexMethod) : run (Table Expr) :=
  add_and_populate_index t (mk_index name cols expr predicate include unique method (empty_store method)).

(** The choice loop of [Table::index_on] and [Table::eq_index_on]. *)
Definition choose (p : Index Expr -> bool) (ixs : list (Index Expr)) : option (Index Expr) :=
  foldl (fun chosen idx =>
    if p idx then match chosen with Some c => if idx_unique c then chosen else Some idx | None => Some idx end
    else chosen) None ixs.
Definition plain_on (column : Z) idx : bool :=
  bool_decide (idx_columns idx = [column])
  && (match idx_expr idx with None => true | _ => false end) && (match idx_predicate idx with None => true | _ => false end).
Definition index_on t (column : Z) : option (Index Expr) :=
  choose (fun idx => plain_on column idx && (is_ordered (idx_method idx) || bool_decide (idx_method idx = Brin))) (indexes t).
Definition eq_index_on t (column : Z) : option (Index Expr) := choose (plain_on column) (indexes t).

(** [Table::index_eq], [Table::index_eq_multi] and [Table::index_range] *)
Definition index_eq t (column : Z) (value : Value) : option (list Z) :=
  idx ← eq_index_on t column;
  Some (ids_to_positions t (store_lookup_eq (idx_store idx) [value])).
Definition index_eq_multi t (i : Z) (values : list Value) : run (list Z) :=
  idx ← expect (zget (indexes t) i);
  Val (ids_to_positions t (store_lookup_eq (idx_store idx) values)).
Definition index_range t (column : Z) (lo hi : option Bound) : option (run (list Z)) :=
  idx ← index_on t column;
  Some (ids ← store_lookup_range (idx_store idx) lo hi; Val (ids_to_positions t ids)).

(** ** Uniqueness *)

Definition same_unique_key (left right : list Value) (cols : list Z) : run bool :=
  foldr (fun c acc => l ← expect (zget left c); r ← expect (zget right c);
           if bool_decide (to_text l = to_text r) then acc else Val false) (Val true) cols.
Definition unique_key_is_null (row : list Value) (cols : list Z) : run bool :=
  foldr (fun c acc => v ← expect (zget row c); if is_null v then Val true else acc) (Val false) cols.

Fixpoint unique_scan (rs : list (list Value)) (pos : Z) (exclude : option Z) (row : list Value) (cols : list Z) : run bool :=
  match rs with
  | [] => Val false
  | existing :: rs =>
      if bool_decide (Some pos = exclude) then unique_scan rs (pos + 1) exclude row cols
      else
        same ← same_unique_key existing row cols;
        if (same : bool) then Val true else unique_scan rs (pos + 1) exclude row cols
  end.
Fixpoint unique_index_violation t (ixs : list (Index Expr)) (i : Z) (row : list Value) (exclude : option Z) : run (option str) :=
  match ixs with
  | [] => Val None
  | idx :: ixs =>
      let next := unique_index_violation t ixs (i + 1) row exclude in
      if idx_unique idx then
        match leading_column idx with
        | None => next
        | Some col =>
            value ← expect (zget row col);
            if is_null value then next
            else
              positions ← index_eq_multi t i [value];
              if existsb (fun p => negb (bool_decide (Some p = exclude))) positions then Val (Some (idx_name idx)) else next
        end
      else next
  end.
Fixpoint unique_constraint_violation t (cs : list UniqueConstraint) (row : list Value) (exclude : option Z) : run (option str) :=
  match cs with
  | [] => Val None
  | c :: cs =>
      null ← unique_key_is_null row (uc_columns c);
      if (null : bool) then unique_constraint_violation t cs row exclude
      else
        dup ← unique_scan (rows t) 0 exclude row (uc_columns c);
        if (dup : bool) then Val (Some (uc_name c)) else unique_constraint_violation t cs row exclude
  end.
(** [Table::unique_violation] *)
Definition unique_violation t (row : list Value) (exclude : option Z) : run (option str) :=
  v ← unique_index_violation t (indexes t) 0 row exclude;
  match v with
  | Some n => Val (Some n)
  | None => unique_constraint_violation t (unique_constraints t) row exclude
  end.

(** ** Statistics and vacuum *)

Record StorageStats := mk_stats {
  st_page_size : Z; st_page_count : Z; st_live_rows : Z; st_dead_rows : Z; st_live_bytes : Z; st_dead_bytes : Z;
  st_free_space_bytes : Z; st_all_visible_pages : Z; st_all_frozen_pages : Z; st_vacuum_count : Z; st_compaction_count : Z
}.

(** [Table::storage_stats] over [page_layout]: a page is all-visible and
    all-frozen when it has no dead rows. *)
Definition storage_stats t : StorageStats :=
  let clean := zlen (filter (fun p => dead_rows p = 0) (storage_pages t)) in
  mk_stats (storage_page_size t) (zlen (storage_pages t))
    (sum_list (live_rows <$> storage_pages t)) (sum_list (dead_rows <$> storage_pages t))
    (sum_list (live_bytes <$> storage_pages t)) (sum_list (dead_bytes <$> storage_pages t))
    (sum_list ((fun p => free_bytes p (storage_page_size t)) <$> storage_pages t))
    clean clean (vacuum_count t) (compaction_count t).

Record VacuumStats := mk_vacuum {
  pages_before : Z; pages_after : Z; dead_rows_removed : Z; dead_bytes_removed : Z; pages_removed : Z
}.
(** [Table::vacuum_storage] *)
Definition vacuum_storage t : run (Table Expr * VacuumStats) :=
  let before := storage_stats t in
  a ← rebuild_live_storage t;
  let t' := mk_table (t_name t) (columns t) (rows t) (row_ids t) (row_pos t) (next_row_id t) (indexes t)
    (unique_constraints t) (storage_page_size t) (a_pages a) (a_row_pages a) (a_row_bytes a)
    (vacuum_count t + 1) (compaction_count t + 1) (toast t) in
  let after := storage_stats t' in
  Val (t', mk_vacuum (st_page_count before) (st_page_count after) (st_dead_rows before) (st_dead_bytes before)
             (saturating_sub (st_page_count before) (st_page_count after))).

End table.

(** * Specification *)

(** Ordinary data: no text that looks like a TOAST pointer.  Such text is
    misread as one, see [table_toast_anomalies]. *)
Definition plain (v : Value) : Prop := match v with Text s => starts_with s TOAST_PREFIX = false | _ => True end.

(** A stored cell stands for a value: itself, or a pointer to its chunk. *)
Definition cell_rep (c : gmap Z str) (cell v : Value) : Prop :=
  plain v /\ (cell = v \/ exists id s, v = Text s /\ cell = Text (toast_pointer id) /\ 0 <= id < 2 ^ 64 /\ c !! id = Some s).
Definition row_rep (c : gmap Z str) : list Value -> list Value -> Prop := Forall2 (cell_rep c).
(** The chunk ids a stored row refers to. *)
Definition refs (row : list Value) : list Z := omap toast_id_of row.

(** * TOAST *)

Lemma starts_with_app p r : starts_with (p ++ r) p = true.
Proof. unfold starts_with. apply bool_decide_eq_true_2. by rewrite take_app_length. Qed.

Lemma strip_prefix_app p r : strip_prefix (p ++ r) p = Some r.
Proof. unfold strip_prefix. by rewrite starts_with_app, drop_app_length. Qed.

Lemma strip_suffix_app r p : strip_suffix (r ++ p) p = Some r.
Proof. unfold strip_suffix. rewrite reverse_app, strip_prefix_app. cbn. by rewrite reverse_involutive. Qed.

Lemma toast_id_pointer id : 0 <= id < 2 ^ 64 -> toast_id_of (Text (toast_pointer id)) = Some id.
Proof.
  intros Hid. unfold toast_id_of, toast_pointer. rewrite strip_prefix_app. cbn [mbind option_bind].
  rewrite strip_suffix_app. cbn [mbind option_bind]. apply parse_uint_display; lia.
Qed.

Lemma toast_id_plain v : plain v -> toast_id_of v = None.
Proof. destruct v; cbn [plain toast_id_of]; try done. intros H. unfold strip_prefix. by rewrite H. Qed.

Lemma cell_rep_detoast c cell v : cell_rep c cell v -> detoast_value c cell = v.
Proof.
  unfold detoast_value. intros [P [->|(id & s & -> & -> & Hid & L)]].
  - by rewrite toast_id_plain.
  - rewrite toast_id_pointer by done. by rewrite L.
Qed.

Lemma row_rep_detoast c stored row : row_rep c stored row -> detoast_row c stored = row.
Proof.
  induction 1 as [|cell v stored row H F IH]; [done|].
  change (detoast_value c cell :: detoast_row c stored = v :: row). by rewrite (cell_rep_detoast c cell v), IH.
Qed.

Lemma row_rep_ext c c' stored row :
  row_rep c stored row -> (forall id, id ∈ refs stored -> c' !! id = c !! id) -> row_rep c' stored row.
Proof.
  induction 1 as [|cell v stored row H F IH]; intros E; [constructor|]. unfold refs in E. cbn [omap list_omap] in E.
  destruct H as [P [->|(id & s & -> & -> & Hid & L)]].
  - rewrite toast_id_plain in E by done. constructor; [split; [done|by left]|by apply IH].
  - rewrite toast_id_pointer in E by done. constructor.
    + split; [done|]. right. exists id, s. split_and!; [done|done|lia|lia|]. rewrite E by apply list_elem_of_here. done.
    + apply IH. intros i Hi. by apply E, list_elem_of_further.
Qed.

Lemma row_rep_refs c stored row id : row_rep c stored row -> id ∈ refs stored -> is_Some (c !! id).
Proof.
  induction 1 as [|cell v stored row H F IH]; [by intros ?%elem_of_nil|]. unfold refs. cbn [omap list_omap].
  destruct H as [P [->|(id' & s & -> & -> & Hid & L)]].
  - rewrite toast_id_plain by done. apply IH.
  - rewrite toast_id_pointer by done. intros [->|Hi]%elem_of_cons; [by exists s|by apply IH].
Qed.

(** The chunk store: no chunk at or above the counter. *)
Definition toast_fresh (ts : ToastStore) : Prop :=
  0 <= next_toast_id ts /\ forall id, is_Some (chunks ts !! id) -> id < next_toast_id ts.

Record toasted (ts ts' : ToastStore) (stored row : list Value) : Prop := {
  td_rep : row_rep (chunks ts') stored row;
  td_fresh : toast_fresh ts';
  td_next : next_toast_id ts <= next_toast_id ts' <= next_toast_id ts + zlen row;
  td_old : forall id, id < next_toast_id ts -> chunks ts' !! id = chunks ts !! id;
  td_NoDup : NoDup (refs stored);
  td_refs : forall id, id ∈ refs stored <-> next_toast_id ts <= id < next_toast_id ts';
  td_new : forall id, next_toast_id ts <= id < next_toast_id ts' -> is_Some (chunks ts' !! id)
}.

Lemma toast_row_spec ts row :
  toast_fresh ts -> Forall plain row -> next_toast_id ts + zlen row <= 2 ^ 64 ->
  exists ts' stored, toast_row ts row = (ts', stored) /\ toasted ts ts' stored row.
Proof.
  intros Fr F. revert ts Fr. induction F as [|v row P F IH]; intros ts Fr Hn.
  { exists ts, []. split; [done|]. split; [apply Forall2_nil_2|done|rewrite zlen_nil; lia|done|apply NoDup_nil_2| |lia].
    intros id. split; [by intros ?%elem_of_nil|lia]. }
  rewrite zlen_cons in Hn. pose proof (zlen_nonneg row). destruct Fr as [F0 F1].
  assert (toast_cell ts v = (ts, v) \/ exists s, v = Text s /\
    toast_cell ts v = (mk_toast (<[next_toast_id ts := s]> (chunks ts)) (next_toast_id ts + 1), Text (toast_pointer (next_toast_id ts)))) as C.
  { destruct v; try (by left). cbn [toast_cell]. cbn [plain] in P. rewrite P. destruct (zlen s <=? _); [by left|]. right. by exists s. }
  cbn [toast_row]. destruct C as [->|(s & -> & ->)].
  - destruct (IH ts) as (ts' & stored & E & T); [done|lia|]. rewrite E. exists ts', (v :: stored). split; [done|]. destruct T.
    assert (refs (v :: stored) = refs stored) as R by (unfold refs; cbn; by rewrite toast_id_plain).
    split; rewrite ?R, ?zlen_cons; try done; try lia. constructor; [split; [done|by left]|done].
  - set (id := next_toast_id ts) in *. set (ts1 := mk_toast (<[id := s]> (chunks ts)) (id + 1)).
    destruct (IH ts1) as (ts' & stored & E & T).
    { split; cbn; [lia|]. intros i. rewrite lookup_insert_is_Some'. intros [<-|Hi]; [lia|]. apply F1 in Hi. lia. }
    { cbn. lia. }
    rewrite E. exists ts', (Text (toast_pointer id) :: stored). split; [done|]. destruct T. cbn in *.
    assert (refs (Text (toast_pointer id) :: stored) = id :: refs stored) as R by (unfold refs; cbn [omap list_omap]; by rewrite toast_id_pointer by lia).
    assert (chunks ts' !! id = Some s) as Ls by (rewrite td_old0 by lia; apply lookup_insert_eq).
    split; rewrite ?R, ?zlen_cons; try done; try lia.
    + constructor; [|done]. split; [done|]. right. exists id, s. split_and!; [done|done|lia|lia|done].
    + intros i Hi. rewrite td_old0 by lia. apply lookup_insert_ne. lia.
    + constructor; [|done]. rewrite td_refs0. lia.
    + intros i. rewrite elem_of_cons, td_refs0. lia.
    + intros i Hi. destruct (decide (i = id)) as [->|]; [by exists s|]. apply td_new0. lia.
Qed.

Lemma untoast_lookup ts row id :
  chunks (untoast_row ts row) !! id = if decide (id ∈ refs row) then None else chunks ts !! id.
Proof.
  unfold untoast_row. cbn. generalize (chunks ts). unfold refs. induction row as [|cell row IH]; intros c; cbn.
  - by rewrite decide_False by (by intros ?%elem_of_nil).
  - rewrite IH. destruct (toast_id_of cell) as [i|] eqn:E; [|done].
    destruct (decide (id ∈ omap toast_id_of row)) as [H|H].
    + by rewrite decide_True by (by apply list_elem_of_further).
    + destruct (decide (id = i)) as [->|Ne].
      * rewrite decide_True by apply list_elem_of_here. apply lookup_delete_eq.
      * rewrite decide_False by (by intros [|]%elem_of_cons). by apply lookup_delete_ne.
Qed.

(** All rows of a table against the chunk store: chunks are not shared and none
    is leaked. *)
Definition all_refs (rs : list (list Value)) : list Z := flat_map refs rs.
Definition toast_inv (ts : ToastStore) (rs ls : list (list Value)) : Prop :=
  Forall2 (row_rep (chunks ts)) rs ls /\ NoDup (all_refs rs) /\ toast_fresh ts
  /\ forall id, is_Some (chunks ts !! id) <-> id ∈ all_refs rs.

Lemma elem_of_all_refs rs id : id ∈ all_refs rs <-> exists r, r ∈ rs /\ id ∈ refs r.
Proof. unfold all_refs. rewrite list_elem_of_In, in_flat_map. by setoid_rewrite list_elem_of_In. Qed.

Lemma rows_rep_ext c c' rs ls :
  Forall2 (row_rep c) rs ls -> (forall id, id ∈ all_refs rs -> c' !! id = c !! id) -> Forall2 (row_rep c') rs ls.
Proof.
  induction 1 as [|r l rs ls H F IH]; intros E; [constructor|]. constructor.
  - apply (row_rep_ext c); [done|]. intros id Hid. apply E, elem_of_all_refs. exists r. split; [apply list_elem_of_here|done].
  - apply IH. intros id (r' & Hr & Hid)%elem_of_all_refs. apply E, elem_of_all_refs. exists r'.
    split; [by apply list_elem_of_further|done].
Qed.

Lemma toast_inv_push ts rs ls row :
  toast_inv ts rs ls -> Forall plain row -> next_toast_id ts + zlen row <= 2 ^ 64 ->
  exists ts' stored, toast_row ts row = (ts', stored) /\ toast_inv ts' (rs ++ [stored]) (ls ++ [row]).
Proof.
  intros (F & N & Fr & I) P Hn. destruct (toast_row_spec ts row Fr P Hn) as (ts' & stored & E & T). exists ts', stored.
  split; [done|]. destruct T as [Rp Fr' Nx Old Nd Rf Nw]. destruct Fr as [F0 F1].
  assert (forall id, id ∈ all_refs rs -> id < next_toast_id ts) as Lt by (intros id Hid; by apply F1, I).
  unfold toast_inv. unfold all_refs at 1 2. rewrite flat_map_app. cbn. rewrite app_nil_r. fold (all_refs rs). split_and!.
  - apply Forall2_app; [|by constructor]. apply (rows_rep_ext (chunks ts)); [done|]. intros id Hid. by apply Old, Lt.
  - apply NoDup_app. split_and!; [done| |done]. intros id H1%Lt H2%Rf. lia.
  - done.
  - intros id. rewrite elem_of_app, Rf, <- I. split.
    + intros Hs. destruct (decide (id < next_toast_id ts)); [left; by rewrite <- Old|]. right. split; [lia|]. by apply Fr'.
    + intros [Hs|Hr]; [|by apply Nw]. rewrite Old; [done|]. by apply F1.
Qed.

Lemma toast_inv_drop ts rs1 stored rs2 ls1 l ls2 :
  length rs1 = length ls1 -> toast_inv ts (rs1 ++ stored :: rs2) (ls1 ++ l :: ls2) ->
  detoast_row (chunks ts) stored = l /\ toast_inv (untoast_row ts stored) (rs1 ++ rs2) (ls1 ++ ls2).
Proof.
  intros Len (F & N & [F0 F1] & I). apply Forall2_app_inv in F as [Fa Fb]; [|done].
  inversion Fb as [|? ? ? ? Hs Fc]; subst. split; [by apply row_rep_detoast|].
  unfold all_refs in N, I. rewrite flat_map_app in N, I. cbn in N, I. fold (all_refs rs1) (all_refs rs2) in N, I.
  rewrite (app_assoc (all_refs rs1)), (Permutation_app_comm (all_refs rs1)), <- app_assoc in N.
  apply NoDup_app in N as (N1 & D & N2).
  assert (forall id, id ∈ all_refs (rs1 ++ rs2) <-> id ∈ all_refs rs1 \/ id ∈ all_refs rs2) as Ap
    by (intros id; unfold all_refs; by rewrite flat_map_app, elem_of_app).
  split_and!.
  - apply (rows_rep_ext (chunks ts)); [by apply Forall2_app|]. intros id Hid. rewrite untoast_lookup, decide_False; [done|].
    intros Hr. apply (D id Hr). rewrite elem_of_app. by apply Ap.
  - unfold all_refs. by rewrite flat_map_app.
  - split; [done|]. intros id. rewrite untoast_lookup. case_decide; [by intros []|]. apply F1.
  - intros id. rewrite untoast_lookup, Ap. specialize (I id). rewrite !elem_of_app in I. case_decide as Hr.
    + split; [by intros []|]. intros H. exfalso. apply (D id Hr). by rewrite elem_of_app.
    + rewrite I. tauto.
Qed.

Lemma toast_inv_middle ts rs1 rs2 s ls1 ls2 l :
  length rs1 = length ls1 ->
  toast_inv ts ((rs1 ++ rs2) ++ [s]) ((ls1 ++ ls2) ++ [l]) -> toast_inv ts (rs1 ++ s :: rs2) (ls1 ++ l :: ls2).
Proof.
  intros Len (F & N & Fr & I). pose proof (Forall2_length _ _ _ F) as Len2. rewrite !length_app in Len2. cbn in Len2.
  apply Forall2_app_inv in F as [F Fs]; [|rewrite !length_app; lia]. apply Forall2_app_inv in F as [F1 F2]; [|done].
  inversion Fs; subst.
  assert (all_refs ((rs1 ++ rs2) ++ [s]) ≡ₚ all_refs (rs1 ++ s :: rs2)) as P.
  { unfold all_refs. rewrite !flat_map_app. cbn. rewrite app_nil_r, <- app_assoc. apply Permutation_app_head, Permutation_app_comm. }
  split_and!; [by apply Forall2_app; [|constructor]|by rewrite <- P|done|]. intros id. by rewrite I, P.
Qed.

(** * Page accounting *)

Lemma sum_list_perm l l' : l ≡ₚ l' -> sum_list l = sum_list l'.
Proof. unfold sum_list. induction 1; cbn in *; lia. Qed.

Lemma sum_list_app l l' : sum_list (l ++ l') = sum_list l + sum_list l'.
Proof. unfold sum_list. induction l; cbn in *; lia. Qed.

Lemma sum_list_nonneg l : Forall (fun x => 0 <= x) l -> 0 <= sum_list l.
Proof. unfold sum_list. induction 1; cbn in *; lia. Qed.

Lemma row_bytes_nonneg row : 0 <= row_bytes row.
Proof.
  unfold row_bytes, align8. apply Z.land_nonneg. left. pose proof (zlen_nonneg row).
  assert (0 <= (zlen row + 7) / 8) by (apply Z.div_pos; lia).
  assert (0 <= sum_list (value_storage_bytes <$> row)); [|lia].
  apply sum_list_nonneg, Forall_fmap, Forall_true. intros []; cbn; try lia.
  - pose proof (zlen_nonneg (to_canonical_string n)). lia.
  - pose proof (zlen_nonneg s). lia.
Qed.

(** The ids that live on page [n], and their bytes. *)
Definition on_page (a : Accounting) (n : Z) (ids : list RowId) : list RowId := filter (fun id => a_row_pages a !! id = Some n) ids.
Definition bytes_of (a : Accounting) (ids : list RowId) : Z := sum_list ((fun id => default 0 (a_row_bytes a !! id)) <$> ids).

Record acct_inv (a : Accounting) (ids : list RowId) : Prop := {
  ai_pages : forall (n : nat) p, a_pages a !! n = Some p ->
    sp_id p = Z.of_nat n /\ 0 <= dead_rows p /\ 0 <= dead_bytes p
    /\ live_rows p = zlen (on_page a (Z.of_nat n) ids) /\ live_bytes p = bytes_of a (on_page a (Z.of_nat n) ids);
  ai_rp : forall id, is_Some (a_row_pages a !! id) <-> id ∈ ids;
  ai_rb : forall id, is_Some (a_row_bytes a !! id) <-> id ∈ ids;
  ai_range : forall id n, a_row_pages a !! id = Some n -> 0 <= n < zlen (a_pages a);
  ai_pos : forall id b, a_row_bytes a !! id = Some b -> 0 <= b;
  ai_NoDup : NoDup ids
}.

Lemma on_page_perm a n ids ids' : ids ≡ₚ ids' -> on_page a n ids ≡ₚ on_page a n ids'.
Proof. intros P. unfold on_page. by rewrite P. Qed.

Lemma bytes_of_perm a ids ids' : ids ≡ₚ ids' -> bytes_of a ids = bytes_of a ids'.
Proof. intros P. apply sum_list_perm. by rewrite P. Qed.

Lemma zlen_perm {A} (l l' : list A) : l ≡ₚ l' -> zlen l = zlen l'.
Proof. intros P. unfold zlen. by rewrite P. Qed.

Lemma acct_inv_perm a ids ids' : ids ≡ₚ ids' -> acct_inv a ids -> acct_inv a ids'.
Proof.
  intros P [H1 H2 H3 H4 H5 H6]. split; [|by intros id; rewrite <- P|by intros id; rewrite <- P|done|done|by rewrite <- P].
  intros n p E. destruct (H1 n p E) as (? & ? & ? & L1 & L2). pose proof (on_page_perm a (Z.of_nat n) _ _ P) as Q.
  split_and!; [done..|by rewrite <- (zlen_perm _ _ Q)|by rewrite <- (bytes_of_perm a _ _ Q)].
Qed.

Lemma acct_inv_empty : acct_inv (mk_acct [] ∅ ∅) [].
Proof.
  split; cbn.
  - intros n p. by rewrite lookup_nil.
  - intros id. rewrite lookup_empty, elem_of_nil. split; [by intros []|done].
  - intros id. rewrite lookup_empty, elem_of_nil. split; [by intros []|done].
  - intros id n. by rewrite lookup_empty.
  - intros id b. by rewrite lookup_empty.
  - constructor.
Qed.

Lemma bytes_of_ext a a' ids :
  (forall id, id ∈ ids -> a_row_bytes a' !! id = a_row_bytes a !! id) -> bytes_of a' ids = bytes_of a ids.
Proof.
  intros E. unfold bytes_of. f_equal. apply list_fmap_ext. intros i id H. rewrite E; [done|].
  by apply list_elem_of_lookup_2 in H.
Qed.

(** The effect of assigning a new id to a page. *)
Lemma on_page_assign a id n b pages ids m :
  id ∉ ids ->
  on_page (mk_acct pages (<[id := n]> (a_row_pages a)) (<[id := b]> (a_row_bytes a))) m (ids ++ [id])
  = on_page a m ids ++ (if decide (n = m) then [id] else []).
Proof.
  intros N. unfold on_page. cbn. rewrite filter_app. f_equal.
  - induction ids as [|i ids IH]; [done|]. apply not_elem_of_cons in N as [Ni N].
    rewrite !filter_cons, IH, lookup_insert_ne by done. done.
  - rewrite filter_cons, filter_nil, lookup_insert_eq. destruct (decide (n = m)); [by subst; rewrite decide_True|].
    by rewrite decide_False by congruence.
Qed.

Lemma find_Some_index {A} (p : A -> bool) l x : List.find p l = Some x -> exists n, l !! n = Some x /\ p x = true.
Proof.
  intros H. apply List.find_some in H as [H Hp]. apply list_elem_of_In, list_elem_of_lookup in H as [n E]. by exists n.
Qed.

Lemma assign_spec size a ids id b :
  acct_inv a ids -> id ∉ ids -> 0 <= b ->
  exists a', assign_live_storage size a id b = Val a' /\ acct_inv a' (ids ++ [id]).
Proof.
  intros [H1 H2 H3 H4 H5 H6] N Hb.
  assert (exists pages n p, page_for size b (a_pages a) = (pages, Z.of_nat n) /\ pages !! n = Some p
    /\ (forall m q, pages !! m = Some q -> sp_id q = Z.of_nat m /\ 0 <= dead_rows q /\ 0 <= dead_bytes q
          /\ live_rows q = zlen (on_page a (Z.of_nat m) ids) /\ live_bytes q = bytes_of a (on_page a (Z.of_nat m) ids))
    /\ (length (a_pages a) <= length pages)%nat) as (pages & n & p & E & Lp & P & Len).
  { unfold page_for. destruct (List.find _ (a_pages a)) as [p|] eqn:F.
    - apply find_Some_index in F as (n & L & _). exists (a_pages a), n, p. destruct (H1 n p L) as [-> _]. done.
    - exists (a_pages a ++ [sp_new (zlen (a_pages a))]), (length (a_pages a)), (sp_new (zlen (a_pages a))).
      split_and!; [done|by rewrite lookup_app_r, Nat.sub_diag| |rewrite length_app; lia].
      intros m q L. apply lookup_app_Some in L as [L|[Hm L]]; [by apply H1|].
      destruct (m - length (a_pages a))%nat eqn:D; [|by rewrite lookup_nil in L || destruct n]. injection L as <-.
      assert (on_page a (Z.of_nat m) ids = []) as O.
      { apply filter_none, Forall_forall. intros i _ Q. apply H4 in Q. unfold zlen in Q. lia. }
      rewrite O. cbn. unfold zlen. split_and!; (done || lia). }
  unfold assign_live_storage. rewrite E. cbn [fst snd]. rewrite zget_nat, Lp. cbn [expect mbind run_bind].
  rewrite Nat2Z.id. eexists. split; [done|].
  assert (forall l, (forall i, i ∈ l -> i ∈ ids) ->
    bytes_of (mk_acct (<[n := add_live p b]> pages) (<[id := Z.of_nat n]> (a_row_pages a)) (<[id := b]> (a_row_bytes a))) l
    = bytes_of a l) as BE.
  { intros l Hl. apply bytes_of_ext. intros i Hi. cbn. apply lookup_insert_ne. intros ->. by apply N, Hl. }
  assert (forall m i, i ∈ on_page a m ids -> i ∈ ids) as Sub by (intros m i; unfold on_page; rewrite list_elem_of_filter; tauto).
  split; cbn.
  - intros m q Lq. rewrite on_page_assign by done. apply list_lookup_insert_Some in Lq as [(<- & <- & _)|[Ne Lq]].
    + destruct (P n p Lp) as (Q1 & Q2 & Q3 & Q4 & Q5). rewrite decide_True by done. cbn.
      split_and!; [done..|rewrite zlen_app, Q4; cbn; unfold zlen; cbn; lia|].
      unfold bytes_of at 1. rewrite fmap_app, sum_list_app. fold (bytes_of (mk_acct (<[n := add_live p b]> pages) (<[id := Z.of_nat n]> (a_row_pages a)) (<[id := b]> (a_row_bytes a))) (on_page a (Z.of_nat n) ids)).
      rewrite BE by apply Sub. cbn. rewrite lookup_insert_eq. cbn. lia.
    + destruct (P m q Lq) as (Q1 & Q2 & Q3 & Q4 & Q5). rewrite decide_False by lia. rewrite app_nil_r.
      split_and!; [done..|]. by rewrite BE by apply Sub.
  - intros i. rewrite lookup_insert_is_Some', elem_of_app, list_elem_of_singleton, H2. naive_solver.
  - intros i. rewrite lookup_insert_is_Some', elem_of_app, list_elem_of_singleton, H3. naive_solver.
  - intros i m. rewrite zlen_insert, lookup_insert_Some. intros [[_ <-]|[_ Q]].
    + apply lookup_lt_Some in Lp. unfold zlen. lia.
    + apply H4 in Q. unfold zlen in *. lia.
  - intros i c. rewrite lookup_insert_Some. intros [[_ <-]|[_ Q]]; [done|by apply (H5 i)].
  - apply NoDup_app. split_and!; [done| |apply NoDup_singleton]. by intros x Hx ->%list_elem_of_singleton.
Qed.

Lemma mark_dead_spec fb a ids id :
  acct_inv a (id :: ids) -> exists a', mark_dead_storage fb a id = Val a' /\ acct_inv a' ids.
Proof.
  intros [H1 H2 H3 H4 H5 H6]. apply NoDup_cons in H6 as [N H6].
  assert (is_Some (a_row_pages a !! id)) as [n Ln] by (apply H2, list_elem_of_here).
  assert (is_Some (a_row_bytes a !! id)) as [b Lb] by (apply H3, list_elem_of_here).
  destruct (H4 id n Ln) as [Hn0 Hn]. destruct (zget_is_Some (a_pages a) n (conj Hn0 Hn)) as [p Lp].
  unfold mark_dead_storage. rewrite Ln, Lb. cbn [mbind run_bind]. rewrite Lp. eexists. split; [done|].
  apply zget_Some_nat in Lp as (k & -> & Lp). rewrite Nat2Z.id.
  set (a' := mk_acct _ _ _).
  assert (forall m, on_page a' m ids = on_page a m ids) as OE.
  { intros m. unfold on_page, a'. cbn. clear -N. induction ids as [|i ids IH]; [done|]. apply not_elem_of_cons in N as [Ni N].
    by rewrite !filter_cons, IH, lookup_delete_ne. }
  assert (forall m i, i ∈ on_page a m ids -> i ∈ ids) as Sub by (intros m i; unfold on_page; rewrite list_elem_of_filter; tauto).
  assert (forall m, bytes_of a' (on_page a m ids) = bytes_of a (on_page a m ids)) as BE.
  { intros m. apply bytes_of_ext. intros i Hi%Sub. cbn. apply lookup_delete_ne. by intros ->. }
  assert (forall m, on_page a m (id :: ids) = (if decide (Z.of_nat k = m) then [id] else []) ++ on_page a m ids) as OC.
  { intros m. unfold on_page. rewrite filter_cons, Ln. destruct (decide (Z.of_nat k = m)); [by subst; rewrite decide_True|].
    by rewrite decide_False by congruence. }
  split; cbn.
  - intros m q Lq. rewrite OE, BE. apply list_lookup_insert_Some in Lq as [(<- & <- & _)|[Ne Lq]].
    + destruct (H1 k p Lp) as (Q1 & Q2 & Q3 & Q4 & Q5). rewrite OC, decide_True in Q4, Q5 by done.
      rewrite zlen_app in Q4. unfold bytes_of in Q5. rewrite fmap_app, sum_list_app in Q5.
      fold (bytes_of a (on_page a (Z.of_nat k) ids)) in Q5. cbn in Q5. rewrite Lb in Q5. cbn in Q5.
      change (zlen [id]) with 1 in Q4. pose proof (zlen_nonneg (on_page a (Z.of_nat k) ids)). pose proof (H5 id b Lb).
      assert (0 <= bytes_of a (on_page a (Z.of_nat k) ids)).
      { apply sum_list_nonneg, Forall_fmap, Forall_forall. intros i _. cbn.
        destruct (a_row_bytes a !! i) eqn:E; cbn; [by apply (H5 i)|lia]. }
      cbn. unfold saturating_sub. split_and!; (done || lia).
    + destruct (H1 m q Lq) as (Q1 & Q2 & Q3 & Q4 & Q5). rewrite OC, decide_False in Q4, Q5 by lia. done.
  - intros i. rewrite lookup_delete_is_Some, H2, elem_of_cons. split; [intros [? [?|?]]; congruence|].
    intros Hi. split; [|by right]. by intros ->.
  - intros i. rewrite lookup_delete_is_Some, H3, elem_of_cons. split; [intros [? [?|?]]; congruence|].
    intros Hi. split; [|by right]. by intros ->.
  - intros i m. rewrite zlen_insert, lookup_delete_Some. intros [_ Q]. by apply (H4 i).
  - intros i c. rewrite lookup_delete_Some. intros [_ Q]. by apply (H5 i).
  - done.
Qed.

(** The total over all pages counts every live row once. *)
Lemma sum_indicator (n k : nat) (m : Z) w :
  sum_list ((fun j => if decide (m = Z.of_nat j) then w else 0) <$> seq k n)
  = if decide (Z.of_nat k <= m < Z.of_nat (k + n)) then w else 0.
Proof.
  revert k. induction n as [|n IH]; intros k; [by rewrite decide_False by lia|].
  cbn [seq fmap list_fmap]. change (sum_list (?x :: ?l)) with (x + sum_list l). rewrite IH.
  repeat case_decide; lia.
Qed.

Lemma sum_pages a (w : RowId -> Z) (N : nat) ids :
  (forall id, id ∈ ids -> exists n, a_row_pages a !! id = Some n /\ 0 <= n < Z.of_nat N) ->
  sum_list ((fun j => sum_list (w <$> on_page a (Z.of_nat j) ids)) <$> seq 0 N) = sum_list (w <$> ids).
Proof.
  induction ids as [|id ids IH]; intros H.
  { cbn. generalize 0%nat. induction N as [|N IHN]; intros k; [done|]. cbn. apply IHN. intros ? ?%elem_of_nil. done. }
  destruct (H id (list_elem_of_here _ _)) as (n & L & Hn).
  transitivity (sum_list ((fun j => (if decide (n = Z.of_nat j) then w id else 0) + sum_list (w <$> on_page a (Z.of_nat j) ids)) <$> seq 0 N)).
  { f_equal. apply list_fmap_ext. intros i j _. unfold on_page. rewrite filter_cons, L.
    destruct (decide (n = Z.of_nat j)) as [->|]; [by rewrite decide_True|]. rewrite decide_False by congruence. done. }
  assert (forall (f g : nat -> Z) l, sum_list ((fun j => f j + g j) <$> l) = sum_list (f <$> l) + sum_list (g <$> l)) as Add
    by (intros f g l; unfold sum_list; induction l; cbn in *; lia).
  rewrite Add, sum_indicator, decide_True by lia. rewrite IH; [done|]. intros i Hi. apply H. by apply list_elem_of_further.
Qed.

Lemma zlen_sum {A} (l : list A) : zlen l = sum_list ((fun _ => 1) <$> l).
Proof. induction l as [|x l IH]; [done|]. rewrite zlen_cons, IH. done. Qed.

Lemma acct_totals a ids : acct_inv a ids ->
  sum_list (live_rows <$> a_pages a) = zlen ids /\ sum_list (live_bytes <$> a_pages a) = bytes_of a ids.
Proof.
  intros [H1 H2 H3 H4 H5 H6].
  assert (forall (w : RowId -> Z) f, (forall n p, a_pages a !! n = Some p -> f p = sum_list (w <$> on_page a (Z.of_nat n) ids)) ->
    sum_list (f <$> a_pages a) = sum_list (w <$> ids)) as G.
  { intros w f E. rewrite <- (sum_pages a w (length (a_pages a)) ids).
    - f_equal. apply list_eq. intros n. rewrite !list_lookup_fmap. destruct (a_pages a !! n) as [p|] eqn:L; cbn.
      + rewrite lookup_seq_lt by (by eapply lookup_lt_Some). cbn. f_equal. by apply E.
      + rewrite lookup_ge_None in L. by rewrite lookup_seq_ge.
    - intros id Hid. apply H2 in Hid as [n L]. exists n. split; [done|]. apply H4 in L. unfold zlen in L. lia. }
  split.
  - rewrite zlen_sum. apply G. intros n p L. rewrite <- zlen_sum. by destruct (H1 n p L) as (_ & _ & _ & -> & _).
  - apply G. intros n p L. by destruct (H1 n p L) as (_ & _ & _ & _ & ->).
Qed.

(** [mark_dead] keeps the pages; a rebuild starts from none. *)
Lemma rebuild_spec size rs ids pre a :
  acct_inv a pre -> NoDup (pre ++ ids) -> length rs = length ids -> Forall (fun p => dead_rows p = 0) (a_pages a) ->
  exists a', rebuild_from size rs (pre ++ ids) (zlen pre) a = Val a' /\ acct_inv a' (pre ++ ids)
    /\ Forall (fun p => dead_rows p = 0) (a_pages a').
Proof.
  revert ids pre a. induction rs as [|row rs IH]; intros [|id ids] pre a I N Len D; try done.
  { exists a. by rewrite app_nil_r. }
  cbn [rebuild_from]. rewrite zget_app_r, Z.sub_diag by lia. cbn [zget]. change (zget (id :: ids) 0) with (Some id).
  cbn [expect mbind run_bind].
  assert (id ∉ pre) as Np by (apply NoDup_app in N as (_ & Dj & _); intros Hi; apply (Dj id Hi), list_elem_of_here).
  destruct (assign_spec size a pre id (row_bytes row) I Np (row_bytes_nonneg row)) as (a1 & E & I1).
  rewrite E. cbn [mbind run_bind].
  assert (Forall (fun p => dead_rows p = 0) (a_pages a1)) as D1.
  { unfold assign_live_storage, page_for in E. destruct (List.find _ (a_pages a)).
    - destruct (zget (a_pages a) (sp_id s)) as [q|] eqn:L; [|done]. injection E as <-. cbn. apply Forall_insert; [done|].
      apply zget_Some_nat in L as (k & _ & L). by apply (Forall_lookup_1 _ _ _ _ D L).
    - destruct (zget (a_pages a ++ _) _) as [q|] eqn:L; [|done]. injection E as <-. cbn.
      assert (Forall (fun p => dead_rows p = 0) (a_pages a ++ [sp_new (zlen (a_pages a))])) as D' by (apply Forall_app; split; [done|by constructor]).
      apply Forall_insert; [done|]. apply zget_Some_nat in L as (k & _ & L). by apply (Forall_lookup_1 _ _ _ _ D' L). }
  destruct (IH ids (pre ++ [id]) a1) as (a' & E' & I' & D'); rewrite <- ?app_assoc in *; try done; [by injection Len|].
  exists a'. rewrite zlen_app in E'. change (zlen [id]) with 1 in E'. done.
Qed.

(** * Index maintenance *)

Section maintenance.
Context {Expr : Type} (eval_expr : Expr -> list str -> list Value -> result str Value).
(** The kinds of the columns of the index with a given name. *)
Context (kinds : str -> nat -> Kind).
Implicit Types (t : Table Expr) (idx : Index Expr).

(** The key a row has in an index, if any. *)
Definition entry_of (names : list str) idx (row : list Value) : option (list Value) :=
  if row_qualifies eval_expr names idx row
  then match index_key eval_expr names idx row with Val o => o | Panic => None end
  else None.

(** A row an index can hold: its key exists and has the right kinds. *)
Definition fits_index (names : list str) (row : list Value) idx : Prop :=
  row_qualifies eval_expr names idx row = true ->
  exists o, index_key eval_expr names idx row = Val o /\ forall k, o = Some k -> key_ok (kinds (idx_name idx)) k.

Definition same_meta idx idx' : Prop :=
  idx_name idx' = idx_name idx /\ idx_columns idx' = idx_columns idx /\ idx_expr idx' = idx_expr idx
  /\ idx_predicate idx' = idx_predicate idx /\ idx_include idx' = idx_include idx
  /\ idx_unique idx' = idx_unique idx /\ idx_method idx' = idx_method idx.

#[local] Instance same_meta_PreOrder : PreOrder same_meta.
Proof.
  split; [done|]. intros i j k (? & ? & ? & ? & ? & ? & ?) (? & ? & ? & ? & ? & ? & ?). split_and!; congruence.
Qed.

Lemma entry_of_meta names idx idx' row : same_meta idx idx' -> entry_of names idx' row = entry_of names idx row.
Proof.
  intros (_ & Ec & Ee & Ep & _). unfold entry_of, row_qualifies, index_key. by rewrite Ec, Ee, Ep.
Qed.
Lemma fits_index_meta names idx idx' row : same_meta idx idx' -> fits_index names row idx -> fits_index names row idx'.
Proof.
  intros (En & Ec & Ee & Ep & _). unfold fits_index, row_qualifies, index_key. by rewrite En, Ec, Ee, Ep.
Qed.

(** The index holds exactly the entries of the rows [M]. *)
Definition idx_inv (names : list str) (M : gmap RowId (list Value)) idx : Prop :=
  tracks (kinds (idx_name idx)) (idx_method idx) (idx_store idx) (omap (entry_of names idx) M).

Lemma omap_entry_meta names idx idx' (M : gmap RowId (list Value)) :
  same_meta idx idx' -> omap (entry_of names idx') M = omap (entry_of names idx) M.
Proof. intros H. apply map_eq. intros id. rewrite !lookup_omap. destruct (M !! id); [by apply entry_of_meta|done]. Qed.

Lemma insert_index_spec names M idx id row :
  idx_inv names M idx -> M !! id = None -> fits_index names row idx ->
  exists idx', patch_index eval_expr index_insert names row id idx = Val idx' /\ same_meta idx idx'
    /\ idx_inv names (<[id := row]> M) idx'.
Proof.
  intros T N F. unfold patch_index, fits_index, entry_of in *.
  assert (entry_of names idx row = None -> idx_inv names (<[id := row]> M) idx) as NoEntry.
  { intros E. unfold idx_inv. rewrite omap_insert, E. rewrite delete_id; [done|]. by rewrite lookup_omap, N. }
  assert (omap (entry_of names idx) M !! id = None) as N' by (by rewrite lookup_omap, N).
  destruct (row_qualifies eval_expr names idx row) eqn:Q.
  - destruct (F eq_refl) as (o & E & Ok). rewrite E. cbn [mbind run_bind]. destruct o as [k|].
    + exists (index_insert idx k id). split_and!; [done|done|]. unfold idx_inv.
      rewrite (omap_entry_meta names idx) by done. cbn. rewrite omap_insert.
      assert (entry_of names idx row = Some k) as -> by (unfold entry_of; by rewrite Q, E).
      apply tracks_insert; [done|done|by apply Ok].
    + exists idx. split_and!; [done|done|]. apply NoEntry. unfold entry_of. by rewrite Q, E.
  - exists idx. split_and!; [done|done|]. apply NoEntry. unfold entry_of. by rewrite Q.
Qed.

Lemma remove_index_spec names M idx id row :
  idx_inv names M idx -> M !! id = Some row -> fits_index names row idx ->
  exists idx', patch_index eval_expr index_remove names row id idx = Val idx' /\ same_meta idx idx'
    /\ idx_inv names (delete id M) idx'.
Proof.
  intros T L F. unfold patch_index, fits_index in *.
  assert (omap (entry_of names idx) M !! id = entry_of names idx row) as L' by (by rewrite lookup_omap, L).
  assert (entry_of names idx row = None -> idx_inv names (delete id M) idx) as NoEntry.
  { intros E. unfold idx_inv. rewrite omap_delete, delete_id; [done|]. by rewrite L'. }
  destruct (row_qualifies eval_expr names idx row) eqn:Q.
  - destruct (F eq_refl) as (o & E & Ok). rewrite E. cbn [mbind run_bind]. destruct o as [k|].
    + exists (index_remove idx k id). split_and!; [done|done|]. unfold idx_inv.
      rewrite (omap_entry_meta names idx) by done. cbn. rewrite omap_delete. apply tracks_remove; [done|].
      rewrite L'. unfold entry_of. by rewrite Q, E.
    + exists idx. split_and!; [done|done|]. apply NoEntry. unfold entry_of. by rewrite Q, E.
  - exists idx. split_and!; [done|done|]. apply NoEntry. unfold entry_of. by rewrite Q.
Qed.

Lemma mapM_run_spec {A} (f : A -> run A) (P : A -> Prop) (Q : A -> A -> Prop) l :
  (forall x, x ∈ l -> exists y, f x = Val y /\ Q x y /\ P y) -> exists l', mapM f l = Val l' /\ Forall2 Q l l' /\ Forall P l'.
Proof.
  induction l as [|x l IH]; intros H; [by exists []|].
  destruct (H x (list_elem_of_here _ _)) as (y & E1 & Qy & Py). destruct IH as (l' & E & F & G).
  { intros z Hz. by apply H, list_elem_of_further. }
  change (mapM f (x :: l)) with (y ← f x; k ← mapM f l; mret (y :: k)). rewrite E1. cbn [mbind run_bind].
  rewrite E. exists (y :: l'). split; [done|]. split; by constructor.
Qed.

(** All indexes of a table. *)
Definition ixs_inv (names : list str) (M : gmap RowId (list Value)) (ixs : list (Index Expr)) : Prop := Forall (idx_inv names M) ixs.
Definition fits (names : list str) (ixs : list (Index Expr)) (row : list Value) : Prop := Forall (fits_index names row) ixs.

Lemma fits_meta names ixs ixs' row : Forall2 same_meta ixs ixs' -> fits names ixs row -> fits names ixs' row.
Proof.
  intros S. induction S as [|i j ixs ixs' H S IH]; [done|]. intros F. apply Forall_cons in F as [F1 F]. constructor; [|by apply IH].
  by apply (fits_index_meta names i).
Qed.

Lemma index_row_spec names M ixs id row :
  ixs_inv names M ixs -> M !! id = None -> fits names ixs row ->
  exists ixs', index_row eval_expr names row id ixs = Val ixs' /\ Forall2 same_meta ixs ixs' /\ ixs_inv names (<[id := row]> M) ixs'.
Proof.
  intros I N F. unfold ixs_inv, fits in *. rewrite Forall_forall in I, F. apply mapM_run_spec. intros idx Hi.
  apply (insert_index_spec names M); [by apply I|done|by apply F].
Qed.

Lemma unindex_row_spec names M ixs id row :
  ixs_inv names M ixs -> M !! id = Some row -> fits names ixs row ->
  exists ixs', unindex_row eval_expr names row id ixs = Val ixs' /\ Forall2 same_meta ixs ixs' /\ ixs_inv names (delete id M) ixs'.
Proof.
  intros I N F. unfold ixs_inv, fits in *. rewrite Forall_forall in I, F. apply mapM_run_spec. intros idx Hi.
  apply (remove_index_spec names M); [by apply I|done|by apply F].
Qed.

(** * Tables *)

(** [t] holds the rows [L], each with its id, in order. *)
Record table_rep t (L : list (RowId * list Value)) : Prop := {
  tr_ids : row_ids t = L.*1;
  tr_NoDup : NoDup (L.*1);
  tr_next : forall id, id ∈ L.*1 -> id < next_row_id t;
  tr_pos : forall id p, row_pos t !! id = Some p <-> zget (L.*1) p = Some id;
  tr_toast : toast_inv (toast t) (rows t) (L.*2);
  tr_ixs : ixs_inv (column_names t) (list_to_map L) (indexes t);
  tr_fits : Forall (fits (column_names t) (indexes t)) (L.*2);
  tr_acct : acct_inv (acct t) (L.*1)
}.

(** A row the table accepts: ordinary data that fits the indexes, with chunk ids left. *)
Definition row_ok t (row : list Value) : Prop :=
  Forall plain row /\ fits (column_names t) (indexes t) row /\ next_toast_id (toast t) + zlen row <= 2 ^ 64.

Lemma tr_rows t L : table_rep t L -> length (rows t) = length L.
Proof. intros R. destruct (tr_toast t L R) as (F & _). apply Forall2_length in F. by rewrite length_fmap in F. Qed.

Lemma push_ok t L row :
  table_rep t L -> row_ok t row ->
  exists t', push_row eval_expr t row = Val t' /\ table_rep t' (L ++ [(next_row_id t, row)])
    /\ columns t' = columns t /\ Forall2 same_meta (indexes t) (indexes t').
Proof.
  intros R (P & F & Hn). pose proof (tr_rows t L R) as Len. destruct R as [R1 R2 R3 R4 R5 R6 R7 R8]. unfold push_row.
  set (id := next_row_id t) in *. assert (id ∉ L.*1) as Ni by (intros H%R3; unfold id in H; lia).
  assert ((list_to_map L : gmap RowId (list Value)) !! id = None) as Nm by (by apply not_elem_of_list_to_map_1).
  destruct (index_row_spec _ _ _ id row R6 Nm F) as (ixs' & -> & S & I). cbn [mbind run_bind].
  destruct (assign_spec (storage_page_size t) _ _ id _ R8 Ni (row_bytes_nonneg row)) as (a & -> & A). cbn [mbind run_bind].
  destruct (toast_inv_push _ _ _ row R5 P Hn) as (ts' & stored & -> & T). eexists. split; [done|].
  split; [|done]. split; cbn [row_ids next_row_id row_pos toast rows indexes columns column_names acct storage_pages row_storage_pages row_storage_bytes].
  - by rewrite fmap_app, R1.
  - rewrite fmap_app. apply NoDup_app. split_and!; [done| |apply NoDup_singleton]. by intros x Hx ->%list_elem_of_singleton.
  - intros i. rewrite fmap_app, elem_of_app. cbn. rewrite list_elem_of_singleton. intros [H%R3| ->]; lia.
  - intros i p. assert (zlen (rows t) = zlen (L.*1)) as Lz by (unfold zlen; by rewrite Len, length_fmap).
    rewrite Lz, fmap_app, lookup_insert_Some. split.
    + intros [[<- <-]|[Ne Q]].
      * rewrite zget_app_r, Z.sub_diag by lia. done.
      * apply R4 in Q. rewrite zget_app_l; [done|]. apply zget_Some_lt in Q. lia.
    + intros Q. destruct (decide (p < zlen (L.*1))).
      * rewrite zget_app_l in Q by done. right. split; [|by apply R4]. intros <-. apply Ni.
        apply zget_Some_nat in Q as (k & _ & Q). by apply list_elem_of_lookup_2 in Q.
      * rewrite zget_app_r in Q by lia. pose proof (zget_Some_lt _ _ _ Q) as B. cbn in B. change (zlen [id]) with 1 in B.
        left. assert (p = zlen (L.*1)) as -> by lia. rewrite Z.sub_diag in Q. by injection Q as <-.
  - by rewrite fmap_app.
  - assert (list_to_map (L ++ [(id, row)]) = (<[id := row]> (list_to_map L) : gmap RowId (list Value))) as E
      by (by apply list_to_map_snoc).
    rewrite E. exact I.
  - rewrite fmap_app. apply Forall_app. split; [|constructor; [|constructor]].
    + eapply Forall_impl; [exact R7|]. intros r. by apply fits_meta.
    + by apply (fits_meta _ (indexes t)).
  - rewrite fmap_app. cbn. by destruct a.
Qed.


Lemma list_to_map_middle (l1 l2 : list (RowId * list Value)) id x :
  NoDup ((l1 ++ (id, x) :: l2).*1) ->
  list_to_map (l1 ++ (id, x) :: l2) = (<[id := x]> (list_to_map (l1 ++ l2)) : gmap RowId (list Value))
  /\ delete id (list_to_map (l1 ++ (id, x) :: l2)) = (list_to_map (l1 ++ l2) : gmap RowId (list Value))
  /\ (id ∉ (l1 ++ l2).*1) /\ NoDup ((l1 ++ l2).*1).
Proof.
  intros N. assert (l1 ++ (id, x) :: l2 ≡ₚ (id, x) :: l1 ++ l2) as P by (symmetry; apply Permutation_middle).
  assert (list_to_map (l1 ++ (id, x) :: l2) = (<[id := x]> (list_to_map (l1 ++ l2)) : gmap RowId (list Value))) as E
    by (rewrite (list_to_map_proper _ _ N P); done).
  rewrite P in N. apply NoDup_cons in N as [Ni N]. split_and!; [done| |done|done].
  rewrite E. apply delete_insert_id. by apply not_elem_of_list_to_map_1.
Qed.

Lemma update_ok t L p id old new :
  table_rep t L -> zget L p = Some (id, old) -> row_ok t new ->
  exists t', update_row eval_expr t p new = Val t' /\ table_rep t' (<[Z.to_nat p := (id, new)]> L)
    /\ columns t' = columns t /\ Forall2 same_meta (indexes t) (indexes t').
Proof.
  intros R Lp (P & F & Hn). pose proof (tr_rows t L R) as Len. destruct R as [R1 R2 R3 R4 R5 R6 R7 R8].
  apply zget_Some_nat in Lp as (n & -> & Ln). pose proof (take_drop_middle L n _ Ln) as EL.
  set (l1 := take n L) in *. set (l2 := drop (S n) L) in *. clearbody l2.
  assert (length l1 = n) as L1 by (unfold l1; rewrite length_take; apply lookup_lt_Some in Ln; lia). clearbody l1. subst L.
  destruct (lookup_lt_is_Some_2 (rows t) n) as [stored Ls]; [rewrite Len, length_app; cbn; lia|].
  pose proof (take_drop_middle (rows t) n _ Ls) as ER.
  set (rs1 := take n (rows t)) in *. set (rs2 := drop (S n) (rows t)) in *.
  assert (length rs1 = n) as Lr1 by (unfold rs1; rewrite length_take; apply lookup_lt_Some in Ls; lia). clearbody rs1 rs2.
  rewrite <- ER, fmap_app in R5. cbn in R5.
  destruct (toast_inv_drop (toast t) rs1 stored rs2 (l1.*2) old (l2.*2)) as [Det T1]; [by rewrite length_fmap, L1|done|].
  destruct (list_to_map_middle l1 l2 id old R2) as (E1 & E2 & Ni & N12).
  unfold update_row. rewrite R1, !zget_nat, list_lookup_fmap, Ln, Ls. cbn [fmap option_fmap option_map expect mbind run_bind fst].
  rewrite Det.
  assert (fits (column_names t) (indexes t) old) as Fo by (rewrite Forall_forall in R7; apply R7, list_elem_of_fmap; exists (id, old);
    split; [done|]; by apply list_elem_of_lookup_2 in Ln).
  destruct (unindex_row_spec _ _ _ id old R6) as (ixs1 & -> & S1 & I1); [by rewrite E1; apply lookup_insert_eq|done|].
  cbn [mbind run_bind]. rewrite E2 in I1.
  destruct (index_row_spec _ _ _ id new I1) as (ixs2 & -> & S2 & I2); [by apply not_elem_of_list_to_map_1|by apply (fits_meta _ (indexes t))|].
  cbn [mbind run_bind].
  assert (acct_inv (acct t) (id :: (l1 ++ l2).*1)) as A0
    by (apply (acct_inv_perm _ ((l1 ++ (id, old) :: l2).*1)); [by rewrite <- Permutation_middle|done]).
  destruct (mark_dead_spec (stored_bytes t id) _ _ id A0) as (a1 & -> & A1). cbn [mbind run_bind].
  destruct (assign_spec (storage_page_size t) a1 _ id _ A1 Ni (row_bytes_nonneg new)) as (a2 & -> & A2). cbn [mbind run_bind].
  destruct (toast_inv_push _ _ _ new T1 P Hn) as (ts' & stored' & -> & T2). eexists. split; [done|].
  assert (Forall2 same_meta (indexes t) ixs2) as S by (etrans; [exact S1|exact S2]).
  split; [|done]. rewrite Nat2Z.id, insert_app_r_alt, L1, Nat.sub_diag by lia. cbn [list_insert insert].
  assert (forall x, (l1 ++ (id, x) :: l2).*1 = (l1 ++ (id, old) :: l2).*1) as K by (intros x; by rewrite !fmap_app).
  assert (NoDup ((l1 ++ (id, new) :: l2).*1)) as N' by (by rewrite K).
  split; cbn [row_ids next_row_id row_pos toast rows indexes columns column_names acct storage_pages row_storage_pages row_storage_bytes]; rewrite ?K; try done.
  - rewrite <- ER, insert_app_r_alt, Lr1, Nat.sub_diag by lia. cbn [list_insert insert]. rewrite fmap_app. cbn.
    apply toast_inv_middle; [by rewrite length_fmap, L1|]. done.
  - destruct (list_to_map_middle l1 l2 id new N') as (E3 & _). by rewrite E3.
  - change (Forall (fits (column_names t) ixs2) ((l1 ++ (id, new) :: l2).*2)). rewrite fmap_app. cbn. rewrite fmap_app in R7. cbn in R7. apply Forall_app in R7 as [F1 F2]. apply Forall_cons in F2 as [_ F2].
    apply Forall_app. split; [|apply Forall_cons; split].
    + eapply Forall_impl; [exact F1|]. intros r. by apply fits_meta.
    + by apply (fits_meta _ (indexes t)).
    + eapply Forall_impl; [exact F2|]. intros r. by apply fits_meta.
  - apply (acct_inv_perm _ ((l1 ++ l2).*1 ++ [id])); [|unfold acct; cbn; by destruct a2]. rewrite !fmap_app. cbn.
    rewrite <- Permutation_cons_append. apply Permutation_middle.
Qed.

(** ** Deletion *)

Lemma keep_fmap {A B} (f : A -> B) l mask : keep (f <$> l) mask = f <$> keep l mask.
Proof. revert mask. induction l as [|x l IH]; intros [|[] mask]; cbn; try done. f_equal. apply IH. Qed.

Lemma keep_sublist {A} (l : list A) mask : keep l mask `sublist_of` l.
Proof.
  revert mask. induction l as [|x l IH]; intros [|b mask]; cbn; try apply sublist_nil_l.
  destruct b; constructor; apply IH.
Qed.

Lemma keep_Forall {A} (P : A -> Prop) l mask : Forall P l -> Forall P (keep l mask).
Proof. intros F. revert mask. induction F; intros [|[] mask]; cbn; auto. Qed.

Lemma unindex_dropped_spec names ixs0 rs L mask :
  length rs = length L -> length mask = length L -> forall krs K ixs ts,
  length krs = length K -> Forall2 same_meta ixs0 ixs ->
  toast_inv ts (krs ++ rs) ((K ++ L).*2) -> ixs_inv names (list_to_map (K ++ L)) ixs ->
  NoDup ((K ++ L).*1) -> Forall (fits names ixs0) (L.*2) ->
  exists ixs' ts', unindex_dropped eval_expr names rs (L.*1) mask ixs ts = Val (ixs', ts')
    /\ toast_inv ts' (krs ++ keep rs mask) ((K ++ keep L mask).*2)
    /\ ixs_inv names (list_to_map (K ++ keep L mask)) ixs' /\ Forall2 same_meta ixs0 ixs'.
Proof.
  revert L mask. induction rs as [|stored rs IH]; intros [|[id row] L] [|b mask] Len Lm krs K ixs ts Lk S T I N F; try done.
  { exists ixs, ts. cbn. done. }
  cbn in Len, Lm. apply Forall_cons in F as [Fr F]. destruct b; cbn [unindex_dropped keep fmap list_fmap fst].
  - destruct (toast_inv_drop ts krs stored rs (K.*2) row (L.*2)) as [Det T1];
      [by rewrite length_fmap|by rewrite fmap_app in T|]. rewrite Det.
    destruct (list_to_map_middle K L id row N) as (E1 & E2 & Ni & N').
    destruct (unindex_row_spec names _ ixs id row I) as (ixs1 & -> & S1 & I1);
      [rewrite E1; apply lookup_insert_eq|by apply (fits_meta _ ixs0)|]. cbn [mbind run_bind]. rewrite E2 in I1.
    apply IH; try done; [by injection Len|by injection Lm|by etrans|by rewrite fmap_app].
  - destruct (IH L mask ltac:(by injection Len) ltac:(by injection Lm) (krs ++ [stored]) (K ++ [(id, row)]) ixs ts)
      as (ixs' & ts' & E & T' & I' & S'); rewrite <- ?app_assoc; try done; [rewrite !length_app; cbn; lia|].
    rewrite <- (app_assoc krs), <- (app_assoc K) in T'. rewrite <- (app_assoc K) in I'. by exists ixs', ts'.
Qed.

Lemma kill_dropped_spec t ids mask : length mask = length ids -> forall k a,
  acct_inv a (k ++ ids) -> exists a', kill_dropped t ids mask a = Val a' /\ acct_inv a' (k ++ keep ids mask).
Proof.
  revert mask. induction ids as [|id ids IH]; intros [|b mask] Lm k a I; try done.
  { by exists a. }
  cbn in Lm. destruct b; cbn [kill_dropped keep].
  - destruct (mark_dead_spec (stored_bytes t id) a (k ++ ids) id) as (a1 & -> & I1);
      [apply (acct_inv_perm _ (k ++ id :: ids)); [symmetry; apply Permutation_middle|done]|].
    cbn [mbind run_bind]. apply IH; [by injection Lm|done].
  - cbn [mbind run_bind]. destruct (IH mask ltac:(by injection Lm) (k ++ [id]) a) as (a' & E & I'); [by rewrite <- app_assoc|].
    rewrite <- app_assoc in I'. by exists a'.
Qed.

Lemma pos_map_spec ids p id q : NoDup ids -> pos_map ids p !! id = Some q <-> zget ids (q - p) = Some id.
Proof.
  revert p. induction ids as [|i ids IH]; intros p N.
  { cbn. rewrite lookup_empty, zget_nil. done. }
  apply NoDup_cons in N as [Ni N]. cbn [pos_map]. rewrite lookup_insert_Some, (IH (p + 1) N). split.
  - intros [[<- <-]|[Ne Q]]; [by rewrite Z.sub_diag|]. pose proof (zget_Some_lt _ _ _ Q).
    replace (q - p) with (1 + (q - (p + 1))) by lia. by rewrite zget_cons_S by lia.
  - intros Q. apply zget_cons_inv in Q as [[Eq ->]|[Gt Q]]; [left; split; [done|lia]|]. right.
    replace (q - (p + 1)) with (q - p - 1) by lia. split; [|done]. intros ->.
    apply zget_Some_nat in Q as (k & _ & Q). apply Ni. by apply list_elem_of_lookup_2 in Q.
Qed.

(** The rows that survive a deletion. *)
Definition mask_of (n : nat) (positions : list Z) : list bool := (fun i : nat => bool_decide (Z.of_nat i ∈ positions)) <$> seq 0 n.
Definition remove_at {A} (positions : list Z) (l : list A) : list A := keep l (mask_of (length l) positions).

Lemma set_mask_spec n positions :
  Forall (fun p => 0 <= p < Z.of_nat n) positions -> set_mask n positions = Val (mask_of n positions).
Proof.
  intros F. unfold set_mask.
  assert (forall m done_, m = mask_of n done_ -> foldl (fun (m : run (list bool)) p => mask ← m;
      match zget mask p with Some _ => Val (<[Z.to_nat p := true]> mask) | None => Panic end) (Val m) positions
    = Val (mask_of n (done_ ++ positions))) as G.
  { induction F as [|p ps Hp F IH]; intros m dn ->; [by rewrite app_nil_r|]. cbn [foldl mbind run_bind].
    destruct (zget_is_Some (mask_of n dn) p) as [b ->]; [unfold zlen, mask_of; rewrite length_fmap, length_seq; lia|].
    replace (dn ++ p :: ps) with ((dn ++ [p]) ++ ps) by (by rewrite <- app_assoc). apply IH.
    apply list_eq. intros i. unfold mask_of. destruct (decide (i < n)%nat) as [Hi|Hi].
    - rewrite list_lookup_fmap, lookup_seq_lt by done. cbn. destruct (decide (Z.to_nat p = i)) as [<-|Ne].
      + rewrite list_lookup_insert_eq by (rewrite length_fmap, length_seq; lia). f_equal. symmetry. apply bool_decide_eq_true_2.
        rewrite Z2Nat.id by lia. apply elem_of_app. right. by apply list_elem_of_singleton.
      + rewrite list_lookup_insert_ne, list_lookup_fmap, lookup_seq_lt by done. cbn. f_equal. apply bool_decide_ext.
        rewrite elem_of_app, list_elem_of_singleton. split; [by left|]. intros [|E]; [done|lia].
    - rewrite !lookup_ge_None_2; [done|rewrite length_fmap, length_seq; lia|].
      rewrite length_insert, length_fmap, length_seq. lia. }
  apply (G _ []). apply list_eq. intros i. unfold mask_of. destruct (decide (i < n)%nat) as [Hi|Hi].
  - rewrite list_lookup_fmap, lookup_seq_lt, lookup_replicate_2 by done. done.
  - rewrite !lookup_ge_None_2; [done|rewrite length_fmap, length_seq; lia|rewrite length_replicate; lia].
Qed.

Lemma remove_at_nil {A} (l : list A) : remove_at [] l = l.
Proof.
  unfold remove_at, mask_of. generalize 0%nat as k. induction l as [|x l IH]; intros k; [done|]. cbn.
  rewrite bool_decide_eq_false_2 by (by intros ?%elem_of_nil). f_equal. apply IH.
Qed.

Lemma delete_ok t L positions :
  table_rep t L -> NoDup positions -> Forall (fun p => 0 <= p < zlen L) positions ->
  exists t', delete_rows eval_expr t positions = Val t' /\ table_rep t' (remove_at positions L)
    /\ columns t' = columns t /\ Forall2 same_meta (indexes t) (indexes t').
Proof.
  intros R ND F. pose proof (tr_rows t L R) as Len. destruct (decide (positions = [])) as [->|Ne].
  { exists t. rewrite remove_at_nil. done. }
  assert (zlen positions <= zlen L) as Le.
  { assert (length positions <= length L)%nat; [|unfold zlen; lia].
    transitivity (length (Z.of_nat <$> seq 0 (length L))); [|by rewrite length_fmap, length_seq].
    apply submseteq_length, NoDup_submseteq; [done|]. intros p Hp. rewrite Forall_forall in F. specialize (F p Hp). unfold zlen in F.
    apply list_elem_of_fmap. exists (Z.to_nat p). split; [lia|]. apply elem_of_seq. lia. }
  destruct R as [R1 R2 R3 R4 R5 R6 R7 R8].
  set (mask := mask_of (length L) positions).
  assert (length mask = length L) as Lm by (unfold mask, mask_of; by rewrite length_fmap, length_seq).
  destruct (unindex_dropped_spec (column_names t) (indexes t) (rows t) L mask Len Lm [] [] (indexes t) (toast t))
    as (ixs & ts & E1 & T & I & S); try done.
  destruct (kill_dropped_spec t (L.*1) mask ltac:(by rewrite length_fmap) [] (acct t) R8) as (a & E2 & A).
  exists (mk_table (t_name t) (columns t) (keep (rows t) mask) (keep (row_ids t) mask) (pos_map (keep (row_ids t) mask) 0) (next_row_id t)
               ixs (unique_constraints t) (storage_page_size t) (a_pages a) (a_row_pages a) (a_row_bytes a)
               (vacuum_count t) (compaction_count t) ts).
  split.
  { unfold delete_rows. destruct positions; [done|]. rewrite Len, set_mask_spec by done. fold mask. cbn [mbind run_bind].
    rewrite R1, E1. cbn [mbind run_bind]. rewrite E2. cbn [mbind run_bind].
    assert (zlen (rows t) = zlen L) as -> by (unfold zlen; by rewrite Len). by zfalse (zlen L <? zlen (z :: positions)). }
  split; [|done]. unfold remove_at. fold mask. assert (NoDup ((keep L mask).*1)) as N.
  { rewrite <- keep_fmap. eapply sublist_NoDup; [exact R2|apply keep_sublist]. }
  rewrite R1, keep_fmap. rewrite keep_fmap in A. cbn [app] in *.
  split; cbn [row_ids next_row_id row_pos toast rows indexes columns]; try done.
  - intros id Hid. apply R3. rewrite <- keep_fmap in Hid. eapply elem_of_sublist; [exact Hid|apply keep_sublist].
  - intros id p. by rewrite pos_map_spec, Z.sub_0_r.
  - change (Forall (fits (column_names t) ixs) ((keep L mask).*2)). rewrite <- keep_fmap. apply keep_Forall.
    eapply Forall_impl; [exact R7|]. intros r. by apply fits_meta.
  - unfold acct. cbn. by destruct a.
Qed.

Lemma truncate_ok t L : table_rep t L -> table_rep (truncate t) [].
Proof.
  intros [R1 R2 R3 R4 R5 R6 R7 R8]. split; cbn.
  - done.
  - constructor.
  - by intros id ?%elem_of_nil.
  - intros id p. by rewrite lookup_empty, zget_nil.
  - destruct R5 as (_ & _ & [F0 F1] & _). split_and!; [constructor|constructor| |].
    + split; [done|]. intros id. cbn. rewrite lookup_empty. by intros [].
    + intros id. cbn. rewrite lookup_empty, elem_of_nil. split; [by intros []|done].
  - unfold ixs_inv. apply Forall_fmap, Forall_true. intros idx. unfold idx_inv, compose.
    rewrite omap_empty. apply tracks_empty.
  - constructor.
  - apply acct_inv_empty.
Qed.

Lemma vacuum_ok t L : table_rep t L ->
  exists t' vs, vacuum_storage t = Val (t', vs) /\ table_rep t' L /\ st_dead_rows (storage_stats t') = 0
    /\ dead_rows_removed vs = st_dead_rows (storage_stats t) /\ rows t' = rows t.
Proof.
  intros R. pose proof (tr_rows t L R) as Len. destruct R as [R1 R2 R3 R4 R5 R6 R7 R8].
  destruct (rebuild_spec (storage_page_size t) (rows t) (L.*1) [] (mk_acct [] ∅ ∅)) as (a & E & A & D);
    [apply acct_inv_empty|done|by rewrite length_fmap|constructor|].
  unfold vacuum_storage, rebuild_live_storage. rewrite R1. cbn [app] in *. change (zlen []) with 0 in E. rewrite E. cbn [mbind run_bind].
  eexists _, _. split; [done|]. split_and!; [|cbn|done|done].
  - split; cbn [row_ids next_row_id row_pos toast rows indexes columns]; try done. unfold acct. cbn. by destruct a.
  - clear -D. induction D as [|p ps Dp D IH]; [done|]. cbn in *. unfold sum_list in IH. lia.
Qed.

(** ** Index-accelerated lookups *)

Lemma choose_spec (p : Index Expr -> bool) ixs idx : choose p ixs = Some idx -> idx ∈ ixs /\ p idx = true.
Proof.
  unfold choose. assert (forall c, (forall i, c = Some i -> i ∈ ixs /\ p i = true) -> forall l, (forall i, i ∈ l -> i ∈ ixs) ->
    foldl (fun chosen idx => if p idx then match chosen with Some c => if idx_unique c then chosen else Some idx | None => Some idx end
      else chosen) c l = Some idx -> idx ∈ ixs /\ p idx = true) as G; [|by apply G].
  intros c Hc l. revert c Hc. induction l as [|i l IH]; intros c Hc Sub; cbn; [by apply Hc|]. apply IH.
  - intros j. destruct (p i) eqn:E; [|by apply Hc]. destruct c as [c|]; [destruct (idx_unique c); [by apply Hc|]|];
      intros [= <-]; (split; [apply Sub, list_elem_of_here|done]).
  - intros j Hj. by apply Sub, list_elem_of_further.
Qed.

Lemma plain_entry names idx col row x :
  plain_on col idx = true -> zget row col = Some x -> entry_of names idx row = Some [x].
Proof.
  unfold plain_on, entry_of, row_qualifies, index_key. destruct (idx_expr idx), (idx_predicate idx); rewrite ?andb_false_r; try done.
  rewrite !andb_true_r. intros E%bool_decide_eq_true L. rewrite E. cbn. by rewrite L.
Qed.

Lemma plain_entry_inv names idx col row k :
  plain_on col idx = true -> entry_of names idx row = Some k -> exists x, zget row col = Some x /\ k = [x].
Proof.
  unfold plain_on, entry_of, row_qualifies, index_key. destruct (idx_expr idx), (idx_predicate idx); rewrite ?andb_false_r; try done.
  rewrite !andb_true_r. intros E%bool_decide_eq_true. rewrite E. cbn.
  destruct (zget row col) as [x|]; cbn; [|done]. intros [= <-]. by exists x.
Qed.

Lemma table_lookup t L id row :
  table_rep t L -> (list_to_map L : gmap RowId (list Value)) !! id = Some row <-> exists p, zget L p = Some (id, row).
Proof.
  intros R. rewrite <- elem_of_list_to_map by apply R. rewrite list_elem_of_lookup. split.
  - intros [n E]. exists (Z.of_nat n). by rewrite zget_nat.
  - intros [p E]. apply zget_Some_nat in E as (n & _ & E). by exists n.
Qed.

Lemma zget_fst (L : list (RowId * list Value)) p id row : zget L p = Some (id, row) -> zget (L.*1) p = Some id.
Proof. intros E. apply zget_Some_nat in E as (n & -> & E). rewrite zget_nat, list_lookup_fmap, E. done. Qed.

(** Ids of present rows translate to their positions, without repetition. *)
Lemma positions_spec t L ids :
  table_rep t L -> NoDup ids ->
  NoDup (ids_to_positions t ids)
  /\ forall p, p ∈ ids_to_positions t ids <-> exists id row, id ∈ ids /\ zget L p = Some (id, row).
Proof.
  intros R N. destruct R as [R1 R2 R3 R4 R5 R6 R7 R8]. unfold ids_to_positions, position_of. split.
  - induction N as [|id ids Ni N IH]; [constructor|]. cbn. destruct (row_pos t !! id) as [p|] eqn:E; [|done].
    constructor; [|done]. intros H. apply list_elem_of_omap in H as (id' & Hid & E'). apply R4 in E, E'.
    assert (id' = id) as -> by congruence. done.
  - intros p. rewrite list_elem_of_omap. split.
    + intros (id & Hid & E). apply R4 in E. apply zget_Some_nat in E as (n & -> & E). rewrite list_lookup_fmap in E.
      destruct (L !! n) as [[i row]|] eqn:El; [|done]. injection E as ->. exists id, row. split; [done|]. by rewrite zget_nat.
    + intros (id & row & Hid & E). exists id. split; [done|]. apply R4. by apply (zget_fst L p id row).
Qed.

Lemma index_eq_ok t L col v ps :
  table_rep t L -> index_eq t col v = Some ps -> is_null v = false ->
  (forall idx, idx ∈ indexes t -> plain_on col idx = true -> kind_ok (kinds (idx_name idx) 0%nat) v) ->
  NoDup ps
  /\ (forall p, p ∈ ps -> exists id row, zget L p = Some (id, row))
  /\ (forall p id row x, zget L p = Some (id, row) -> zget row col = Some x -> cmp_value v x = Eq -> p ∈ ps)
  /\ (forall idx, eq_index_on t col = Some idx -> is_ordered (idx_method idx) = true ->
        forall p, p ∈ ps -> exists id row x, zget L p = Some (id, row) /\ zget row col = Some x /\ cmp_value v x = Eq).
Proof.
  intros R E Nv Kv. unfold index_eq in E. destruct (eq_index_on t col) as [idx|] eqn:Ei; [|done]. injection E as <-.
  apply choose_spec in Ei as [Hi Pi]. pose proof (tr_ixs t L R) as I. unfold ixs_inv in I. rewrite Forall_forall in I.
  specialize (I idx Hi). specialize (Kv idx Hi Pi).
  assert (key_ok (kinds (idx_name idx)) [v]) as Kk by (intros [|[]] x [= <-]; done).
  destruct (lookup_eq_spec _ _ _ _ [v] I Kk ltac:(done)) as (N & S & C & X); [cbn; by rewrite Nv|].
  destruct (positions_spec t L _ R N) as [N' P]. split_and!; [done| | |].
  - intros p (id & row & _ & Ep)%P. by exists id, row.
  - intros p id row x Ep Ex Ec. apply P. exists id, row. split; [|done]. apply C. exists [x].
    split; [|by rewrite key_cmp_single]. rewrite lookup_omap.
    assert ((list_to_map L : gmap RowId (list Value)) !! id = Some row) as -> by (apply (table_lookup t L id row R); by exists p).
    by apply (plain_entry _ idx col).
  - intros idx' [= <-] Ho p (id & row & Hid & Ep)%P. apply (X Ho) in Hid as (k & Lk & Ec). rewrite lookup_omap in Lk.
    assert ((list_to_map L : gmap RowId (list Value)) !! id = Some row) as Er by (apply (table_lookup t L id row R); by exists p).
    rewrite Er in Lk. cbn in Lk. destruct (plain_entry_inv _ idx col row k Pi Lk) as (x & Ex & ->). rewrite key_cmp_single in Ec.
    by exists id, row, x.
Qed.

Lemma index_range_ok t L col lo hi r :
  table_rep t L -> index_range t col lo hi = Some r ->
  (forall idx, idx ∈ indexes t -> plain_on col idx = true -> bound_ok (kinds (idx_name idx)) lo /\ bound_ok (kinds (idx_name idx)) hi) ->
  forall idx, index_on t col = Some idx ->
  if is_ordered (idx_method idx) && negb (bounds_ordered lo hi) then r = Panic
  else exists ps, r = Val ps /\ NoDup ps
    /\ (forall p id row x, zget L p = Some (id, row) -> zget row col = Some x -> is_null x = false ->
          in_range lo hi x = true -> p ∈ ps)
    /\ (is_ordered (idx_method idx) = true -> forall p, p ∈ ps ->
          exists id row x, zget L p = Some (id, row) /\ zget row col = Some x /\ is_null x = false /\ in_range lo hi x = true).
Proof.
  intros R E Kb idx Ei. unfold index_range in E. rewrite Ei in E. injection E as <-.
  apply choose_spec in Ei as [Hi Pi]. apply andb_true_iff in Pi as [Pi Pm]. pose proof (tr_ixs t L R) as I. unfold ixs_inv in I.
  rewrite Forall_forall in I. specialize (I idx Hi). destruct (Kb idx Hi Pi) as [Ol Oh].
  assert (forall p id row, zget L p = Some (id, row) -> (list_to_map L : gmap RowId (list Value)) !! id = Some row) as Lk
    by (intros p id row Ep; apply (table_lookup t L id row R); by exists p).
  destruct (is_ordered (idx_method idx)) eqn:Ho; cbn [andb].
  - pose proof (range_spec _ _ _ _ lo hi I Ho Ol Oh) as G. destruct (bounds_ordered lo hi); cbn [negb]; [|by rewrite G].
    destruct G as (l & -> & N & _ & X). cbn [mbind run_bind]. destruct (positions_spec t L l R N) as [N' P].
    exists (ids_to_positions t l). split_and!; [done..| |].
    + intros p id row x Ep Ex Nx Rx. apply P. exists id, row. split; [|done]. apply X. exists [x]. rewrite lookup_omap, (Lk _ _ _ Ep).
      split; [by apply (plain_entry _ idx col)|]. by rewrite selects_single, Rx, Nx.
    + intros _ p (id & row & Hid & Ep)%P. apply X in Hid as (k & Lk' & Sel). rewrite lookup_omap, (Lk _ _ _ Ep) in Lk'. cbn in Lk'.
      destruct (plain_entry_inv _ idx col row k Pi Lk') as (x & Ex & ->). rewrite selects_single, andb_true_iff, negb_true_iff in Sel.
      exists id, row, x. tauto.
  - rewrite orb_false_l in Pm. apply bool_decide_eq_true in Pm. pose proof (tracks_method _ _ _ _ I) as M. rewrite Pm in M.
    apply tracks_rep in I. destruct (idx_store idx) as [| |ranges|]; try discriminate M.
    destruct (brin_lookup_spec _ ranges _ lo hi I Ol Oh) as (N & _ & C). cbn [store_lookup_range mbind run_bind].
    destruct (positions_spec t L _ R N) as [N' P]. eexists. split_and!; [done..| |done].
    intros p id row x Ep Ex Nx Rx. apply P. exists id, row. split; [|done]. apply (C id [x]); [|done|done].
    rewrite lookup_omap, (Lk _ _ _ Ep). by apply (plain_entry _ idx col).
Qed.

Lemma table_new_ok name cols : table_rep (table_new name cols) [].
Proof.
  split; cbn; try done.
  - constructor.
  - by intros id ?%elem_of_nil.
  - intros id p. by rewrite lookup_empty, zget_nil.
  - split_and!; [constructor|constructor| |].
    + split; [done|]. intros id. cbn. rewrite lookup_empty. by intros [].
    + intros id. cbn. rewrite lookup_empty, elem_of_nil. split; [by intros []|done].
  - apply Forall_nil_2.
  - apply acct_inv_empty.
Qed.

End maintenance.

(** * Theorems *)

(** C1: a table is a list of rows with stable ids, whatever is stored out of
    line.  In a well-formed table holding [L], readers see exactly the rows of
    [L]; [push_row] appends a row under a fresh id; [update_row] replaces one row
    and keeps its id; [delete_rows] removes exactly the given positions and keeps
    the order and ids of the others; [truncate] empties the table.  None of them
    panics, and each leaves a well-formed table: position map, every index, the
    TOAST store (no chunk shared or leaked) and the page accounting agree with
    the new rows.  The rows pushed or written ([row_ok]) have
    no text that looks like a pointer to the TOAST store and values of the index's
    kind in indexed columns and expressions, and TOAST ids are not exhausted. *)
Theorem table_refines_rows {Expr} (eval_expr : Expr -> list str -> list Value -> result str Value) kinds
    (t : Table Expr) L :
  table_rep eval_expr kinds t L ->
  detoast_row (chunks (toast t)) <$> rows t = L.*2
  /\ (forall row, row_ok eval_expr kinds t row ->
        exists t', push_row eval_expr t row = Val t' /\ table_rep eval_expr kinds t' (L ++ [(next_row_id t, row)]))
  /\ (forall p id old new, zget L p = Some (id, old) -> row_ok eval_expr kinds t new ->
        exists t', update_row eval_expr t p new = Val t' /\ table_rep eval_expr kinds t' (<[Z.to_nat p := (id, new)]> L))
  /\ (forall ps, NoDup ps -> Forall (fun p => 0 <= p < zlen L) ps ->
        exists t', delete_rows eval_expr t ps = Val t' /\ table_rep eval_expr kinds t' (remove_at ps L))
  /\ table_rep eval_expr kinds (truncate t) [].
Proof.
  intros R. split_and!.
  - destruct (tr_toast _ _ _ _ R) as (F & _). induction F as [|s l ss ls H F IH]; [done|]. cbn.
    f_equal; [by apply row_rep_detoast|exact IH].
  - intros row H. destruct (push_ok _ _ t L row R H) as (t' & E & R' & _). by exists t'.
  - intros p id old new Hp H. destruct (update_ok _ _ t L p id old new R Hp H) as (t' & E & R' & _). by exists t'.
  - intros ps N F. destruct (delete_ok _ _ t L ps R N F) as (t' & E & R' & _). by exists t'.
  - by apply (truncate_ok _ _ t L).
Qed.

Definition no_eval (e : unit) (names : list str) (row : list Value) : result str Value := Ok Null.
Definition int_kinds (_ : str) (_ : nat) : Kind := KInt.
Definition demo_cols : list (Column unit) := [column_basic (lit "a") TInt8 false; column_basic (lit "b") TText false].

(** A table with a B-tree index on its first column. *)
Definition demo_table : Table unit := with_indexes (table_new (lit "t") demo_cols) [index_new (lit "i") 0 false].

Lemma demo_table_rep : table_rep no_eval int_kinds demo_table [].
Proof.
  destruct (table_new_ok no_eval int_kinds (lit "t") demo_cols) as [R1 R2 R3 R4 R5 R6 R7 R8].
  split; try done. constructor; [|constructor]. unfold idx_inv.
  assert (omap (entry_of no_eval (column_names demo_table) (index_new (lit "i") 0 false)) (list_to_map [] : gmap RowId (list Value)) = ∅) as E
    by apply omap_empty.
  rewrite E. apply tracks_empty.
Qed.

Lemma demo_row_ok t i s : column_names t = [lit "a"; lit "b"] -> Forall2 same_meta [index_new (lit "i") 0 false] (indexes t) ->
  next_toast_id (toast t) <= 5 -> starts_with s TOAST_PREFIX = false -> row_ok no_eval int_kinds t [Int i; Text s].
Proof.
  intros Hc Hm Hn Hs. split_and!; [by repeat constructor| |rewrite !zlen_cons, zlen_nil; lia].
  apply (fits_meta _ _ _ _ _ _ Hm). apply Forall_cons. split; [|constructor]. intros _. exists (Some [Int i]). split; [done|].
  intros k [= <-] [|[]] x [= <-]. done.
Qed.

Definition demo_row : list Value := [Int 1; Text (replicate 3000 97)].

Lemma demo_row_fits : row_ok no_eval int_kinds demo_table demo_row.
Proof.
  apply demo_row_ok; [reflexivity|repeat constructor|vm_compute; discriminate|].
  vm_compute. reflexivity.
Qed.

Definition demo_pushed : Table unit :=
  match push_row no_eval demo_table demo_row with Val t => t | Panic => demo_table end.

Lemma demo_pushed_ok :
  push_row no_eval demo_table demo_row = Val demo_pushed /\ table_rep no_eval int_kinds demo_pushed [(0, demo_row)].
Proof.
  destruct (push_ok no_eval int_kinds demo_table [] demo_row demo_table_rep demo_row_fits) as (t' & E & R & _).
  unfold demo_pushed. rewrite E. done.
Qed.

Lemma table_refines_rows_witness :
  table_rep no_eval int_kinds demo_table []
  /\ exists t', push_row no_eval demo_table demo_row = Val t' /\ table_rep no_eval int_kinds t' [(0, demo_row)].
Proof.
  split; [exact demo_table_rep|].
  destruct (table_refines_rows no_eval int_kinds demo_table [] demo_table_rep) as (_ & Push & _).
  apply Push. exact demo_row_fits.
Defined.

(** C38: index scans agree with table scans.  An equality probe of a column
    through the index the planner picks returns each position once and every row
    whose value equals the probe, and only those when the index is ordered; a
    range probe does the same for a range of values, and panics when an ordered
    index is given bounds in the wrong order.  Probes and bounds have the kind of
    the index, and an equality probe is not NULL. *)
Theorem table_index_scans {Expr} (eval_expr : Expr -> list str -> list Value -> result str Value) kinds
    (t : Table Expr) L col idx :
  table_rep eval_expr kinds t L ->
  (forall v ps, index_eq t col v = Some ps -> is_null v = false ->
     (forall idx, idx ∈ indexes t -> plain_on col idx = true -> kind_ok (kinds (idx_name idx) 0%nat) v) ->
     NoDup ps
     /\ (forall p id row x, zget L p = Some (id, row) -> zget row col = Some x -> cmp_value v x = Eq -> p ∈ ps)
     /\ (eq_index_on t col = Some idx -> is_ordered (idx_method idx) = true -> forall p, p ∈ ps ->
           exists id row x, zget L p = Some (id, row) /\ zget row col = Some x /\ cmp_value v x = Eq))
  /\ (forall lo hi r, index_range t col lo hi = Some r -> index_on t col = Some idx ->
     (forall idx, idx ∈ indexes t -> plain_on col idx = true -> bound_ok (kinds (idx_name idx)) lo /\ bound_ok (kinds (idx_name idx)) hi) ->
     if is_ordered (idx_method idx) && negb (bounds_ordered lo hi) then r = Panic
     else exists ps, r = Val ps /\ NoDup ps
       /\ (forall p id row x, zget L p = Some (id, row) -> zget row col = Some x -> is_null x = false ->
             in_range lo hi x = true -> p ∈ ps)
       /\ (is_ordered (idx_method idx) = true -> forall p, p ∈ ps ->
             exists id row x, zget L p = Some (id, row) /\ zget row col = Some x /\ is_null x = false /\ in_range lo hi x = true)).
Proof.
  intros R. split.
  - intros v ps E Nv Kv. destruct (index_eq_ok _ _ t L col v ps R E Nv Kv) as (N & _ & C & X). split_and!; [done|done|].
    intros Ei Ho. by apply (X idx).
  - intros lo hi r E Ei Kb. by apply (index_range_ok _ _ t L col lo hi r R E Kb idx).
Qed.

Lemma table_index_scans_witness : index_eq demo_pushed 0 (Int 1) = Some [0] /\ NoDup [0].
Proof.
  assert (index_eq demo_pushed 0 (Int 1) = Some [0]) as Ei by (vm_compute; reflexivity).
  split; [exact Ei|].
  apply (table_index_scans no_eval int_kinds demo_pushed [(0, demo_row)] 0 (index_new (lit "i") 0 false) (proj2 demo_pushed_ok))
    with (v := Int 1); [exact Ei|reflexivity|]. intros idx _ _. reflexivity.
Defined.

(** The page accounting is exact: the statistics of a well-formed table
    count each row once and its recorded size once, and a vacuum leaves no dead
    rows, reports the ones it removed, and changes no row. *)
Theorem table_accounting {Expr} (eval_expr : Expr -> list str -> list Value -> result str Value) kinds (t : Table Expr) L :
  table_rep eval_expr kinds t L ->
  st_live_rows (storage_stats t) = zlen L
  /\ st_live_bytes (storage_stats t) = bytes_of (acct t) (L.*1)
  /\ exists t' vs, vacuum_storage t = Val (t', vs) /\ table_rep eval_expr kinds t' L
       /\ st_dead_rows (storage_stats t') = 0 /\ st_live_rows (storage_stats t') = zlen L
       /\ dead_rows_removed vs = st_dead_rows (storage_stats t) /\ rows t' = rows t.
Proof.
  intros R. assert (forall t0, table_rep eval_expr kinds t0 L -> st_live_rows (storage_stats t0) = zlen L
    /\ st_live_bytes (storage_stats t0) = bytes_of (acct t0) (L.*1)) as G.
  { intros t0 R0. destruct (acct_totals _ _ (tr_acct _ _ _ _ R0)) as [E1 E2]. split; [|done].
    transitivity (zlen (L.*1)); [exact E1|]. unfold zlen. by rewrite length_fmap. }
  destruct (vacuum_ok eval_expr kinds t L R) as (t' & vs & E & R' & D & V & Rw). destruct (G t R), (G t' R').
  split_and!; [done|done|]. exists t', vs. done.
Qed.

Lemma table_accounting_witness : st_live_rows (storage_stats demo_pushed) = zlen [(0, demo_row)].
Proof. apply (table_accounting no_eval int_kinds demo_pushed [(0, demo_row)] (proj2 demo_pushed_ok)). Defined.

(** Three places read stored cells where values are meant.  (1) A
    two-column unique constraint compares the stored cells, so a duplicate of an out-of-line text
    is accepted; (2) an index built on existing rows indexes the TOAST pointer,
    so it misses the row; (3) user text that looks like a pointer is read back as
    the (absent) chunk it names. *)
Theorem table_toast_anomalies :
  let big := Text (replicate 3000 97) in
  let base := table_new (lit "t") [@column_basic unit (lit "b") TText false] in
  let cons t := mk_table (t_name t) (columns t) (rows t) (row_ids t) (row_pos t) (next_row_id t) (indexes t)
      [mk_uc (lit "u") [0; 1] false] (storage_page_size t) (storage_pages t) (row_storage_pages t) (row_storage_bytes t)
      (vacuum_count t) (compaction_count t) (toast t) in
  (t ← push_row no_eval (cons base) [Int 1; big]; unique_violation t [Int 1; big] None) = Val None
  /\ (t ← push_row no_eval (cons base) [Int 1; Int 2]; unique_violation t [Int 1; Int 2] None) = Val (Some (lit "u"))
  /\ (t ← push_row no_eval base [big]; t ← create_index no_eval t (lit "i") 0 false; Val (index_eq t 0 big)) = Val (Some [])
  /\ (t ← push_row no_eval base [Text (toast_pointer 5)]; Val (detoast_row (chunks (toast t)) <$> rows t)) = Val [[Text []]].
Proof. vm_compute. split_and!; reflexivity. Qed.
