(* ===== verification/Page.v ===== *)
(** The 8 KiB slotted page of crates/engine/src/disk/page.rs: its operations,
    its byte format with the FNV-1a checksum, the layout invariant, the
    refinement to an array of slots, and corruption detection. *)

From S2P Require Import Prelude.

Definition PAGE_SIZE : Z := 8192.
Definition HEADER_SIZE : Z := 24.
Definition ITEM_ID_SIZE : Z := 4.

(** [u16] offset and length; length 0 marks a dead slot. *)
Record ItemId := mk_id { id_offset : Z; id_length : Z }.

Record PageHeader := mk_header {
  h_lsn : Z;       (* u64 *)
  h_flags : Z;     (* u16 *)
  h_lower : Z;     (* u16 *)
  h_upper : Z;     (* u16 *)
  h_special : Z    (* u16 *)
}.

Record Page := mk_page {
  header : PageHeader;
  ids : list ItemId;
  tuples : list (list Z)
}.

Inductive PageError :=
| BadLength (n : Z)
| Checksum (stored computed : Z)
| Malformed.

Definition page_new : Page :=
  mk_page (mk_header 0 0 (wrap 16 HEADER_SIZE) (wrap 16 PAGE_SIZE) (wrap 16 PAGE_SIZE)) [] [].

Definition lsn (p : Page) : Z := h_lsn (header p).

Definition set_lsn (p : Page) (v : Z) : Page :=
  let h := header p in
  mk_page (mk_header v (h_flags h) (h_lower h) (h_upper h) (h_special h)) (ids p) (tuples p).

Definition slot_count (p : Page) : Z := zlen (ids p).

(** [upper.saturating_sub(lower)] *)
Definition free_space (p : Page) : Z := Z.max 0 (h_upper (header p) - h_lower (header p)).

Definition can_fit (p : Page) (len : Z) : bool := len + ITEM_ID_SIZE <=? free_space p.

(** The page after the call and the slot number, or [None] when it does not
    fit.  The [u16] casts and the [u16] addition are kept. *)
Definition insert_tuple (p : Page) (data : list Z) : Page * option Z :=
  if negb (can_fit p (zlen data)) then (p, None)
  else
    let h := header p in
    let new_upper := h_upper h - zlen data in
    let slot := zlen (ids p) in
    (mk_page
       (mk_header (h_lsn h) (h_flags h) (wrap 16 (h_lower h + ITEM_ID_SIZE))
                  (wrap 16 new_upper) (h_special h))
       (ids p ++ [mk_id (wrap 16 new_upper) (wrap 16 (zlen data))])
       (tuples p ++ [data]),
     Some slot).

Definition get_tuple (p : Page) (slot : Z) : run (option (list Z)) :=
  match zget (ids p) slot with
  | None => Val None
  | Some id => if id_length id =? 0 then Val None
               else t ← expect (zget (tuples p) slot); Val (Some t)
  end.

(** [v[i] = x]: panics out of range. *)
Definition vec_set {A} (l : list A) (i : Z) (x : A) : run (list A) :=
  if (0 <=? i) && (i <? zlen l) then Val (<[Z.to_nat i := x]> l) else Panic.

Definition delete_tuple (p : Page) (slot : Z) : run (Page * bool) :=
  match zget (ids p) slot with
  | Some id =>
      if negb (id_length id =? 0) then
        ids' ← vec_set (ids p) slot (mk_id 0 0);
        tuples' ← vec_set (tuples p) slot [];
        Val (mk_page (header p) ids' tuples', true)
      else Val (p, false)
  | None => Val (p, false)
  end.

Definition is_live (id : ItemId) : bool := negb (id_length id =? 0).

Definition live_count (p : Page) : Z := zlen (filter is_live (ids p)).

Fixpoint iter_live_from (slot : Z) (l : list ItemId) (ts : list (list Z)) : run (list (Z * list Z)) :=
  match l with
  | [] => Val []
  | id :: l =>
      if id_length id =? 0 then iter_live_from (slot + 1) l ts
      else t ← expect (zget ts slot);
           rest ← iter_live_from (slot + 1) l ts;
           Val ((slot, t) :: rest)
  end.

Definition iter_live (p : Page) : run (list (Z * list Z)) := iter_live_from 0 (ids p) (tuples p).

Definition FNV_OFFSET : Z := 0x811c9dc5.
Definition FNV_PRIME : Z := 0x01000193.

Definition fnv_step (i hash b : Z) : Z :=
  let b := if (8 <=? i) && (i <? 12) then 0 else b in
  wrap 32 (Z.lxor hash b * FNV_PRIME).

Fixpoint fnv_from (i hash : Z) (buf : list Z) : Z :=
  match buf with
  | [] => hash
  | b :: buf => fnv_from (i + 1) (fnv_step i hash b) buf
  end.

Definition page_checksum (buf : list Z) : Z := fnv_from 0 FNV_OFFSET buf.

(** The line-pointer loop of [to_bytes], from slot [i] on. *)
Fixpoint write_ids (i : Z) (l : list ItemId) (buf : list Z) : run (list Z) :=
  match l with
  | [] => Val buf
  | id :: l =>
      let base := HEADER_SIZE + i * ITEM_ID_SIZE in
      buf ← copy_from_slice buf base (base + 2) (le_bytes 2 (id_offset id));
      buf ← copy_from_slice buf (base + 2) (base + 4) (le_bytes 2 (id_length id));
      write_ids (i + 1) l buf
  end.

(** The tuple-data loop of [to_bytes], from slot [i] on. *)
Fixpoint write_tuples (i : Z) (l : list ItemId) (ts : list (list Z)) (buf : list Z) : run (list Z) :=
  match l with
  | [] => Val buf
  | id :: l =>
      if id_length id =? 0 then write_tuples (i + 1) l ts buf
      else
        let off := id_offset id in
        t ← expect (zget ts i);
        buf ← copy_from_slice buf off (off + id_length id) t;
        write_tuples (i + 1) l ts buf
  end.

Definition to_bytes (p : Page) : run (list Z) :=
  let h := header p in
  let buf := zreplicate PAGE_SIZE 0 in
  buf ← copy_from_slice buf 0 8 (le_bytes 8 (h_lsn h));
  buf ← copy_from_slice buf 12 14 (le_bytes 2 (h_flags h));
  buf ← copy_from_slice buf 14 16 (le_bytes 2 (h_lower h));
  buf ← copy_from_slice buf 16 18 (le_bytes 2 (h_upper h));
  buf ← copy_from_slice buf 18 20 (le_bytes 2 (h_special h));
  buf ← copy_from_slice buf 20 24 (le_bytes 4 (wrap 32 (zlen (ids p))));
  buf ← write_ids 0 (ids p) buf;
  buf ← write_tuples 0 (ids p) (tuples p) buf;
  let checksum := page_checksum buf in
  copy_from_slice buf 8 12 (le_bytes 4 checksum).

(** The slot loop of [from_bytes], from slot [i] of [n].  A line pointer past
    the page is refused, so the loop runs at most [MAX_SLOTS + 1] times. *)
Definition MAX_SLOTS : nat := 2042.

Fixpoint read_slots (fuel : nat) (i n : Z) (buf : list Z) : result PageError (list (ItemId * list Z)) :=
  match fuel with
  | O => Err Malformed
  | S fuel =>
      if n <=? i then Ok []
      else
        let base := HEADER_SIZE + i * ITEM_ID_SIZE in
        if PAGE_SIZE <? base + ITEM_ID_SIZE then Err Malformed
        else
          let offset := le_val (zslice base (base + 2) buf) in
          let length := le_val (zslice (base + 2) (base + 4) buf) in
          if length =? 0 then
            rest ← read_slots fuel (i + 1) n buf;
            Ok ((mk_id 0 0, []) :: rest)
          else
            let off := offset in
            let end_ := off + length in
            if (PAGE_SIZE <? end_) || (off <? HEADER_SIZE) then Err Malformed
            else
              rest ← read_slots fuel (i + 1) n buf;
              Ok ((mk_id offset length, zslice off end_ buf) :: rest)
  end.

Definition from_bytes (buf : list Z) : result PageError Page :=
  if negb (zlen buf =? PAGE_SIZE) then Err (BadLength (zlen buf))
  else
    let stored := le_val (zslice 8 12 buf) in
    let computed := page_checksum buf in
    if negb (stored =? computed) then Err (Checksum stored computed)
    else
      let lsn := le_val (zslice 0 8 buf) in
      let flags := le_val (zslice 12 14 buf) in
      let lower := le_val (zslice 14 16 buf) in
      let upper := le_val (zslice 16 18 buf) in
      let special := le_val (zslice 18 20 buf) in
      let n_slots := le_val (zslice 20 24 buf) in
      slots ← read_slots (S MAX_SLOTS) 0 n_slots buf;
      Ok (mk_page (mk_header lsn flags lower upper special) (fst <$> slots) (snd <$> slots)).

(** * Specification *)

(** The slot array a page stands for: a live tuple or a dead slot. *)
Definition slot_of (id : ItemId) (t : list Z) : option (list Z) :=
  if id_length id =? 0 then None else Some t.

Definition slots (p : Page) : list (option (list Z)) := zip_with slot_of (ids p) (tuples p).

(** [layout top ids tuples upper]: the live tuples lie in [upper, top), each
    below the previous one, and every line pointer describes its tuple. *)
Inductive layout : Z -> list ItemId -> list (list Z) -> Z -> Prop :=
| layout_nil top : layout top [] [] top
| layout_live top off len t l ts upper :
    0 < len -> len = zlen t -> Forall is_byte t -> off + len <= top ->
    layout off l ts upper -> layout top (mk_id off len :: l) (t :: ts) upper
| layout_dead top top' off l ts upper :
    in_u 16 off -> top' <= top ->
    layout top' l ts upper -> layout top (mk_id off 0 :: l) ([] :: ts) upper.

Record page_wf (p : Page) : Prop := {
  wf_lsn : in_u 64 (h_lsn (header p));
  wf_flags : in_u 16 (h_flags (header p));
  wf_special : h_special (header p) = PAGE_SIZE;
  wf_lower : h_lower (header p) = HEADER_SIZE + ITEM_ID_SIZE * zlen (ids p);
  wf_room : h_lower (header p) <= h_upper (header p);
  wf_layout : layout PAGE_SIZE (ids p) (tuples p) (h_upper (header p))
}.

(** What a page becomes on disk: the offset of a dead slot is not kept. *)
Definition scrub_id (id : ItemId) : ItemId := if id_length id =? 0 then mk_id 0 0 else id.
Definition scrub (p : Page) : Page := mk_page (header p) (scrub_id <$> ids p) (tuples p).

(** One call of a mutating method on a page. *)
Inductive page_step : Page -> Page -> Prop :=
| step_insert p data : Forall is_byte data -> page_step p (fst (insert_tuple p data))
| step_delete p slot p' b : delete_tuple p slot = Val (p', b) -> page_step p p'
| step_set_lsn p v : in_u 64 v -> page_step p (set_lsn p v).

(** * Proofs *)

(** ** The layout invariant *)

Lemma layout_le top l ts upper : layout top l ts upper -> upper <= top.
Proof. induction 1; lia. Qed.

Lemma layout_length top l ts upper : layout top l ts upper -> length l = length ts.
Proof. induction 1; simpl; lia. Qed.

Lemma layout_bounds top l ts upper k id :
  layout top l ts upper -> zget l k = Some id -> is_live id = true ->
  upper <= id_offset id /\ 0 < id_length id /\ id_offset id + id_length id <= top.
Proof.
  intros H. revert k. induction H as [|top off len t l ts u ?? Hb ? Hl IH|top top' off l ts u ?? Hl IH];
    intros k Hk Hlive; [by rewrite zget_nil in Hk|..];
    pose proof (layout_le _ _ _ _ Hl);
    (destruct (zget_cons_inv _ _ _ _ Hk) as [[_ ->]|[_ Hk']]; [|specialize (IH _ Hk' Hlive)]);
    simpl; try lia. done.
Qed.

Lemma layout_snoc_live top l ts upper off t :
  layout top l ts upper -> 0 < zlen t -> Forall is_byte t -> off + zlen t <= upper ->
  layout top (l ++ [mk_id off (zlen t)]) (ts ++ [t]) off.
Proof. induction 1; simpl; intros; econstructor; eauto; constructor. Qed.

Lemma layout_snoc_dead top l ts upper off :
  layout top l ts upper -> in_u 16 off ->
  layout top (l ++ [mk_id off 0]) (ts ++ [[]]) upper.
Proof.
  induction 1; simpl; intros; [|econstructor; by eauto..].
  apply layout_dead with top; [done|lia|constructor].
Qed.

Lemma layout_delete top l ts upper (i : nat) id :
  layout top l ts upper -> l !! i = Some id ->
  layout top (<[i := mk_id 0 0]> l) (<[i := []]> ts) upper.
Proof.
  intros H. revert i. induction H as [|top off len t l ts u ?? Hb ? Hl IH|top top' off l ts u ?? Hl IH];
    intros [|i] Hi; simplify_eq/=.
  - apply layout_dead with off; [unfold in_u; lia|lia|done].
  - apply layout_live; eauto.
  - eapply layout_dead; eauto. unfold in_u; lia.
  - eapply layout_dead; eauto.
Qed.

Lemma page_new_wf : page_wf page_new.
Proof. split; simpl; unfold in_u, HEADER_SIZE, PAGE_SIZE; try done. constructor. Qed.

Lemma page_wf_lower_min p : page_wf p -> HEADER_SIZE <= h_lower (header p).
Proof.
  intros [_ _ _ Hl _ _]. pose proof (zlen_nonneg (ids p)).
  rewrite Hl. unfold ITEM_ID_SIZE. lia.
Qed.

Lemma page_wf_upper_max p : page_wf p -> h_upper (header p) <= PAGE_SIZE.
Proof. intros [_ _ _ _ _ Hl]. by eapply layout_le. Qed.

(** The case analysis of [insert_tuple] on a well-formed page, without the
    machine casts. *)
Lemma insert_tuple_fits p data :
  page_wf p -> zlen data + ITEM_ID_SIZE <= h_upper (header p) - h_lower (header p) ->
  insert_tuple p data =
    (mk_page
       (mk_header (h_lsn (header p)) (h_flags (header p)) (h_lower (header p) + ITEM_ID_SIZE)
                  (h_upper (header p) - zlen data) (h_special (header p)))
       (ids p ++ [mk_id (h_upper (header p) - zlen data) (zlen data)])
       (tuples p ++ [data]),
     Some (zlen (ids p))).
Proof.
  intros Hwf Hfit. pose proof (page_wf_lower_min p Hwf). pose proof (page_wf_upper_max p Hwf).
  pose proof (zlen_nonneg data).
  unfold insert_tuple, can_fit, free_space, wrap, PAGE_SIZE, HEADER_SIZE, ITEM_ID_SIZE in *.
  ztrue (zlen data + 4 <=? Z.max 0 (h_upper (header p) - h_lower (header p))). simpl.
  rewrite !Z.mod_small by lia. done.
Qed.

Lemma insert_tuple_full p data :
  h_upper (header p) - h_lower (header p) < zlen data + ITEM_ID_SIZE ->
  insert_tuple p data = (p, None).
Proof.
  intros Hfull. pose proof (zlen_nonneg data).
  unfold insert_tuple, can_fit, free_space, ITEM_ID_SIZE in *.
  by zfalse (zlen data + 4 <=? Z.max 0 (h_upper (header p) - h_lower (header p))).
Qed.

Lemma insert_tuple_wf p data :
  page_wf p -> Forall is_byte data -> page_wf (fst (insert_tuple p data)).
Proof.
  intros Hwf Hb.
  destruct (decide (zlen data + ITEM_ID_SIZE <= h_upper (header p) - h_lower (header p))) as [Hf|Hf];
    [|rewrite insert_tuple_full by lia; done].
  rewrite insert_tuple_fits by done.
  pose proof (page_wf_lower_min p Hwf). pose proof (page_wf_upper_max p Hwf).
  destruct Hwf as [H1 H2 H3 H4 H5 H6]. unfold ITEM_ID_SIZE, PAGE_SIZE, HEADER_SIZE in *.
  pose proof (zlen_nonneg data).
  split; simpl; try done; [rewrite zlen_app, zlen_cons, zlen_nil; unfold ITEM_ID_SIZE, HEADER_SIZE; lia|lia|].
  destruct data as [|b data].
  - rewrite zlen_nil, Z.sub_0_r. apply layout_snoc_dead; [done|]. unfold in_u; lia.
  - eapply layout_snoc_live; [done| |done|lia].
    rewrite zlen_cons. pose proof (zlen_nonneg data). lia.
Qed.

Lemma vec_set_ok {A} (l : list A) i x :
  0 <= i < zlen l -> vec_set l i x = Val (<[Z.to_nat i := x]> l).
Proof. intros. unfold vec_set. by ztrue ((0 <=? i) && (i <? zlen l))%bool. Qed.

Lemma page_wf_same_len p : page_wf p -> zlen (tuples p) = zlen (ids p).
Proof. intros [_ _ _ _ _ H%layout_length]. unfold zlen. by rewrite H. Qed.

(** [delete_tuple] on a well-formed page: never panics, and its two branches. *)
Lemma delete_tuple_cases p slot :
  page_wf p ->
  (exists id, zget (ids p) slot = Some id /\ is_live id = true /\
     delete_tuple p slot =
       Val (mk_page (header p) (<[Z.to_nat slot := mk_id 0 0]> (ids p))
                    (<[Z.to_nat slot := []]> (tuples p)), true))
  \/ ((forall id, zget (ids p) slot = Some id -> is_live id = false) /\
     delete_tuple p slot = Val (p, false)).
Proof.
  intros Hwf. unfold delete_tuple, is_live. destruct (zget (ids p) slot) as [id|] eqn:E.
  - destruct (negb (id_length id =? 0)) eqn:El; [left|right; naive_solver].
    exists id. split_and!; auto.
    pose proof (zget_Some_lt _ _ _ E). pose proof (page_wf_same_len p Hwf).
    by rewrite !vec_set_ok by lia.
  - right. naive_solver.
Qed.

Lemma delete_tuple_wf p slot p' b :
  page_wf p -> delete_tuple p slot = Val (p', b) -> page_wf p'.
Proof.
  intros Hwf. destruct (delete_tuple_cases p slot Hwf) as [(id & Hg & _ & ->)|[_ ->]];
    intros [= <- <-]; [|done].
  destruct Hwf as [H1 H2 H3 H4 H5 H6]. split; simpl; try done.
  - by rewrite zlen_insert.
  - pose proof (zget_Some_lt _ _ _ Hg). eapply layout_delete; [done|].
    rewrite <- zget_nat, Z2Nat.id by lia. done.
Qed.

Lemma set_lsn_wf p v : page_wf p -> in_u 64 v -> page_wf (set_lsn p v).
Proof. intros [] ?. by split. Qed.

Lemma page_step_wf p p' : page_step p p' -> page_wf p -> page_wf p'.
Proof.
  destruct 1; eauto using insert_tuple_wf, delete_tuple_wf, set_lsn_wf.
Qed.

Lemma page_reachable_wf p p' : rtc page_step p p' -> page_wf p -> page_wf p'.
Proof. induction 1; eauto using page_step_wf. Qed.

(** ** Serialization *)

Lemma copy_in_range (buf data : list Z) a b :
  0 <= a -> b <= zlen buf -> zlen data = b - a ->
  exists buf', copy_from_slice buf a b data = Val buf' /\ zlen buf' = zlen buf /\
    zslice a b buf' = data /\
    (forall c e, 0 <= c <= e -> e <= zlen buf -> e <= a \/ b <= c ->
       zslice c e buf' = zslice c e buf).
Proof.
  intros. pose proof (zlen_nonneg data).
  pose proof (copy_from_slice_ok buf a b data ltac:(lia) ltac:(lia) ltac:(lia)) as E.
  eexists. split; [exact E|]. split_and!.
  - by eapply copy_from_slice_spec.
  - by eapply copy_read.
  - intros. by eapply copy_frame.
Qed.

(** Runs the next [copy_from_slice] of the goal, keeping its length, read and
    frame facts. *)
Ltac do_copy b E L R F :=
  match goal with
  | |- context [copy_from_slice ?buf ?a ?e ?data] =>
      destruct (copy_in_range buf data a e) as (b & E & L & R & F);
        [first [lia | autorewrite with zlen; lia]..|]; rewrite E;
        cbn [mbind run_bind]
  end.

Lemma write_ids_spec l : forall i buf,
  0 <= i -> zlen buf = PAGE_SIZE -> HEADER_SIZE + 4 * (i + zlen l) <= PAGE_SIZE ->
  exists buf', write_ids i l buf = Val buf' /\ zlen buf' = PAGE_SIZE /\
    (forall c e, 0 <= c <= e -> e <= PAGE_SIZE ->
       e <= HEADER_SIZE + 4 * i \/ HEADER_SIZE + 4 * (i + zlen l) <= c ->
       zslice c e buf' = zslice c e buf) /\
    (forall k id, zget l k = Some id ->
       let base := HEADER_SIZE + 4 * (i + k) in
       zslice base (base + 2) buf' = le_bytes 2 (id_offset id) /\
       zslice (base + 2) (base + 4) buf' = le_bytes 2 (id_length id)).
Proof.
  unfold PAGE_SIZE, HEADER_SIZE. induction l as [|id l IH]; intros i buf Hi Hlen Hroom; cbn [write_ids].
  { exists buf. split_and!; auto. intros k id. by rewrite zget_nil. }
  rewrite zlen_cons in *. pose proof (zlen_nonneg l). unfold HEADER_SIZE, ITEM_ID_SIZE.
  do_copy b1 E1 L1 R1 F1. do_copy b2 E2 L2 R2 F2.
  destruct (IH (i + 1) b2) as (b3 & Hw & L3 & Hfr & Hrd); [lia..|].
  exists b3. split_and!; [done|done| |].
  - intros c e Hc He Hd. rewrite Hfr, F2, F1 by lia. done.
  - intros k id' Hk. cbv zeta. destruct (zget_cons_inv _ _ _ _ Hk) as [[-> ->]|[Hpos Hk']].
    + rewrite !Hfr by lia. replace (24 + 4 * (i + 0)) with (24 + i * 4) by lia.
      rewrite R2, F2, R1 by lia. done.
    + specialize (Hrd (k - 1) id' Hk'). cbv zeta in Hrd.
      by replace (24 + 4 * (i + 1 + (k - 1))) with (24 + 4 * (i + k)) in Hrd by lia.
Qed.

Lemma write_tuples_spec top l ts upper :
  layout top l ts upper -> forall pre buf,
  0 <= upper -> top <= PAGE_SIZE -> zlen buf = PAGE_SIZE ->
  exists buf', write_tuples (zlen pre) l (pre ++ ts) buf = Val buf' /\ zlen buf' = PAGE_SIZE /\
    (forall c e, 0 <= c <= e -> e <= PAGE_SIZE -> e <= upper \/ top <= c ->
       zslice c e buf' = zslice c e buf) /\
    (forall k id t, zget l k = Some id -> zget ts k = Some t -> is_live id = true ->
       zslice (id_offset id) (id_offset id + id_length id) buf' = t).
Proof.
  unfold PAGE_SIZE. induction 1 as [top|top off len t l ts u Hpos Hlent Hb Htop Hl IH|top top' off l ts u Ho Ht Hl IH];
    intros pre buf Hu Hmax Hlen; cbn [write_tuples id_length id_offset].
  - exists buf. split_and!; auto. intros k id t. by rewrite zget_nil.
  - pose proof (layout_le _ _ _ _ Hl). zfalse (len =? 0).
    rewrite zget_app_r, Z.sub_diag by lia. cbn [zget expect].
    change (zget (t :: ts) 0) with (Some t). cbn [expect mbind run_bind].
    do_copy b1 E1 L1 R1 F1.
    destruct (IH (pre ++ [t]) b1) as (b2 & Hw & L2 & Hfr & Hrd); [lia..|].
    rewrite zlen_app, zlen_cons, zlen_nil, Z.add_0_r, <- (app_assoc pre) in Hw.
    exists b2. split_and!; [done|done| |].
    + intros c e Hc He Hd. by rewrite Hfr, F1 by lia.
    + intros k id t' Hk Ht' Hlive.
      destruct (zget_cons_inv _ _ _ _ Hk) as [[-> ->]|[? Hk']].
      * inversion Ht'; subst; simpl. rewrite Hfr by lia. by rewrite R1.
      * destruct (zget_cons_inv _ _ _ _ Ht') as [[-> ->]|[? Ht'']]; [lia|]. by apply (Hrd (k - 1)).
  - destruct (IH (pre ++ [[]]) buf) as (b2 & Hw & L2 & Hfr & Hrd); [lia..|].
    rewrite zlen_app, zlen_cons, zlen_nil, Z.add_0_r, <- (app_assoc pre) in Hw.
    exists b2. split_and!; [done|done| |].
    + intros c e Hc He Hd. apply Hfr; lia.
    + intros k id t' Hk Ht' Hlive.
      destruct (zget_cons_inv _ _ _ _ Hk) as [[-> ->]|[? Hk']]; [done|].
      destruct (zget_cons_inv _ _ _ _ Ht') as [[-> ->]|[? Ht'']]; [lia|]. by apply (Hrd (k - 1)).
Qed.

(** What the two write loops leave in the buffer for a list of slots that
    starts at slot [i]. *)
Definition slots_written (buf : list Z) (i : Z) (l : list ItemId) (ts : list (list Z)) : Prop :=
  (forall k id, zget l k = Some id ->
     let base := HEADER_SIZE + 4 * (i + k) in
     zslice base (base + 2) buf = le_bytes 2 (id_offset id) /\
     zslice (base + 2) (base + 4) buf = le_bytes 2 (id_length id)) /\
  (forall k id t, zget l k = Some id -> zget ts k = Some t -> is_live id = true ->
     zslice (id_offset id) (id_offset id + id_length id) buf = t).

Lemma slots_written_cons buf i id l t ts :
  slots_written buf i (id :: l) (t :: ts) ->
  zslice (HEADER_SIZE + i * 4) (HEADER_SIZE + i * 4 + 2) buf = le_bytes 2 (id_offset id) /\
  zslice (HEADER_SIZE + i * 4 + 2) (HEADER_SIZE + i * 4 + 4) buf = le_bytes 2 (id_length id) /\
  (is_live id = true -> zslice (id_offset id) (id_offset id + id_length id) buf = t) /\
  slots_written buf (i + 1) l ts.
Proof.
  intros [Hid Htup]. unfold HEADER_SIZE in *. split_and!.
  - replace (i * 4) with (4 * (i + 0)) by lia. by apply (Hid 0).
  - replace (i * 4) with (4 * (i + 0)) by lia. by apply (Hid 0).
  - by apply (Htup 0).
  - split.
    + intros k id' Hk. cbv zeta. pose proof (zget_Some_lt _ _ _ Hk).
      replace (i + 1 + k) with (i + (1 + k)) by lia. apply Hid. by rewrite zget_cons_S by lia.
    + intros k id' t' Hk Ht'. pose proof (zget_Some_lt _ _ _ Hk).
      apply (Htup (1 + k)); rewrite zget_cons_S by lia; done.
Qed.

(** The slot loop of [from_bytes] reads back what the two write loops wrote. *)
Lemma read_slots_spec buf top l ts upper :
  layout top l ts upper -> HEADER_SIZE <= upper -> top <= PAGE_SIZE ->
  forall fuel i n, 0 <= i -> n = i + zlen l -> HEADER_SIZE + 4 * n <= PAGE_SIZE ->
  (length l < fuel)%nat -> slots_written buf i l ts ->
  read_slots fuel i n buf = Ok (zip (scrub_id <$> l) ts).
Proof.
  unfold PAGE_SIZE.
  induction 1 as [top|top off len t l ts u Hpos Hlent Hb Htop Hl IH|top top' off l ts u Ho Ht Hl IH];
    intros Hu Hmax fuel i n Hi -> Hroom Hfuel Hsw;
    (destruct fuel as [|fuel]; [simpl in Hfuel; lia|]); cbn [read_slots].
  { rewrite zlen_nil. by ztrue (i + 0 <=? i). }
  all: rewrite zlen_cons in *; pose proof (zlen_nonneg l);
    apply slots_written_cons in Hsw as (H1 & H2 & H3 & Hsw); unfold HEADER_SIZE, PAGE_SIZE, ITEM_ID_SIZE in *;
    zfalse (i + (1 + zlen l) <=? i); zfalse (8192 <? 24 + i * 4 + 4);
    rewrite H1, H2; cbn [id_offset id_length] in *.
  - pose proof (layout_le _ _ _ _ Hl). pose proof (zlen_nonneg t).
    rewrite !le_val_bytes by lia.
    zfalse (len =? 0). zfalse (8192 <? off + len). zfalse (off <? 24). cbn [orb].
    rewrite IH by (done || simpl in Hfuel; lia). cbn [mbind result_bind].
    rewrite H3 by (unfold is_live; simpl; by zfalse (len =? 0)).
    cbn. unfold scrub_id. cbn. by zfalse (len =? 0).
  - rewrite !le_val_bytes by lia. rewrite Z.eqb_refl.
    rewrite IH by (done || simpl in Hfuel; lia). done.
Qed.

(** ** The checksum *)

Lemma fnv_step_range i h b : in_u 32 (fnv_step i h b).
Proof. apply Z.mod_pos_bound. done. Qed.

Lemma fnv_from_range buf : forall i h, in_u 32 h -> in_u 32 (fnv_from i h buf).
Proof. induction buf; simpl; auto using fnv_step_range. Qed.

Lemma page_checksum_range buf : in_u 32 (page_checksum buf).
Proof. apply fnv_from_range. done. Qed.

(** The checksum does not depend on the bytes 8..12 that hold it. *)
Lemma fnv_from_ext l1 : forall l2 i h,
  length l1 = length l2 ->
  (forall k, 0 <= k -> 8 <= i + k < 12 \/ zget l1 k = zget l2 k) ->
  fnv_from i h l1 = fnv_from i h l2.
Proof.
  induction l1 as [|b1 l1 IH]; intros [|b2 l2] i h Hlen Heq; simplify_eq/=; [done|].
  assert (fnv_step i h b1 = fnv_step i h b2) as ->.
  { unfold fnv_step. destruct (Heq 0) as [?|E]; [lia| |].
    - by ztrue ((8 <=? i) && (i <? 12))%bool.
    - by inversion E. }
  apply IH; [done|]. intros k Hk. destruct (Heq (1 + k)) as [?|E]; [lia|left; lia|right].
  by rewrite !zget_cons_S in E by lia.
Qed.

Lemma page_checksum_copy buf data buf' :
  copy_from_slice buf 8 12 data = Val buf' -> page_checksum buf' = page_checksum buf.
Proof.
  intros H. destruct (copy_from_slice_spec _ _ _ _ _ H) as [Hlen Hget].
  apply fnv_from_ext; [unfold zlen in *; lia|]. intros k Hk. rewrite Hget.
  zcase; [left; lia|right; done].
Qed.

(** ** Round trip *)

Lemma page_wf_slot_bound p : page_wf p -> HEADER_SIZE + 4 * zlen (ids p) <= PAGE_SIZE.
Proof.
  intros Hwf. pose proof (page_wf_upper_max p Hwf). destruct Hwf as [_ _ _ H4 H5 _].
  unfold ITEM_ID_SIZE, PAGE_SIZE, HEADER_SIZE in *. lia.
Qed.

(** What [to_bytes] leaves on the page, field by field. *)
Lemma to_bytes_spec p :
  page_wf p ->
  exists buf, to_bytes p = Val buf /\ zlen buf = PAGE_SIZE /\
    zslice 0 8 buf = le_bytes 8 (h_lsn (header p)) /\
    zslice 8 12 buf = le_bytes 4 (page_checksum buf) /\
    zslice 12 14 buf = le_bytes 2 (h_flags (header p)) /\
    zslice 14 16 buf = le_bytes 2 (h_lower (header p)) /\
    zslice 16 18 buf = le_bytes 2 (h_upper (header p)) /\
    zslice 18 20 buf = le_bytes 2 (h_special (header p)) /\
    zslice 20 24 buf = le_bytes 4 (zlen (ids p)) /\
    slots_written buf 0 (ids p) (tuples p).
Proof.
  intros Hwf. pose proof (page_wf_slot_bound p Hwf). pose proof (page_wf_upper_max p Hwf).
  pose proof (page_wf_lower_min p Hwf). pose proof (wf_room p Hwf). pose proof (zlen_nonneg (ids p)).
  pose proof (wf_lower p Hwf) as Hlow.
  unfold to_bytes, HEADER_SIZE, ITEM_ID_SIZE, PAGE_SIZE, wrap in *.
  assert (zlen (zreplicate 8192 0) = 8192) as L0 by (by apply zlen_replicate).
  rewrite (Z.mod_small (zlen (ids p))) by lia.
  do_copy b1 E1 L1 R1 F1. do_copy b2 E2 L2 R2 F2. do_copy b3 E3 L3 R3 F3.
  do_copy b4 E4 L4 R4 F4. do_copy b5 E5 L5 R5 F5. do_copy b6 E6 L6 R6 F6.
  destruct (write_ids_spec (ids p) 0 b6) as (b7 & E7 & L7 & F7 & R7);
    [unfold HEADER_SIZE, PAGE_SIZE; lia..|]. rewrite E7. cbn [mbind run_bind].
  destruct (write_tuples_spec _ _ _ _ (wf_layout p Hwf) [] b7) as (b8 & E8 & L8 & F8 & R8);
    [unfold PAGE_SIZE in *; lia..|]. cbn in E8. unfold HEADER_SIZE, PAGE_SIZE in *.
  change (zlen []) with 0 in E8. rewrite E8. cbn [mbind run_bind].
  do_copy b9 E9 L9 R9 F9.
  exists b9. split_and!; [reflexivity|lia|..].
  - rewrite F9, F8, F7, F6, F5, F4, F3, F2 by lia. done.
  - by rewrite (page_checksum_copy _ _ _ E9).
  - rewrite F9, F8, F7, F6, F5, F4, F3 by lia. done.
  - rewrite F9, F8, F7, F6, F5, F4 by lia. done.
  - rewrite F9, F8, F7, F6, F5 by lia. done.
  - rewrite F9, F8, F7, F6 by lia. done.
  - rewrite F9, F8, F7 by lia. done.
  - split.
    + intros k id Hk. pose proof (zget_Some_lt _ _ _ Hk). specialize (R7 k id Hk). cbv zeta in *.
      unfold HEADER_SIZE. rewrite !F9, !F8 by lia. done.
    + intros k id t Hk Ht Hl. rewrite F9.
      * by apply (R8 k).
      * destruct (layout_bounds _ _ _ _ _ _ (wf_layout p Hwf) Hk Hl). lia.
      * destruct (layout_bounds _ _ _ _ _ _ (wf_layout p Hwf) Hk Hl). unfold PAGE_SIZE in *. lia.
      * destruct (layout_bounds _ _ _ _ _ _ (wf_layout p Hwf) Hk Hl). lia.
Qed.

Lemma zip_fst_snd {A B} (l : list A) (k : list B) :
  length l = length k -> (fst <$> zip l k) = l /\ (snd <$> zip l k) = k.
Proof. intros. split; [apply fst_zip|apply snd_zip]; lia. Qed.

Lemma from_to_bytes p :
  page_wf p -> exists buf, to_bytes p = Val buf /\ zlen buf = PAGE_SIZE /\
                           from_bytes buf = Ok (scrub p).
Proof.
  intros Hwf. destruct (to_bytes_spec p Hwf) as (buf & E & L & R1 & R2 & R3 & R4 & R5 & R6 & R7 & Hs).
  exists buf. split_and!; auto. unfold from_bytes. rewrite L, Z.eqb_refl. cbn [negb].
  pose proof (page_checksum_range buf). unfold in_u in *.
  rewrite R1, R2, R3, R4, R5, R6, R7, (le_val_bytes 4 (page_checksum buf)), Z.eqb_refl by lia. cbn [negb].
  pose proof (page_wf_upper_max p Hwf). pose proof (page_wf_slot_bound p Hwf).
  pose proof (page_wf_lower_min p Hwf). pose proof (zlen_nonneg (ids p)).
  destruct Hwf as [W1 W2 W3 W4 W5 W6].
  pose proof (layout_length _ _ _ _ W6).
  unfold in_u, PAGE_SIZE, HEADER_SIZE, ITEM_ID_SIZE in *.
  rewrite !le_val_bytes by lia.
  rewrite (read_slots_spec _ _ _ _ _ W6);
    [|unfold HEADER_SIZE, PAGE_SIZE, MAX_SLOTS, zlen in *; (lia || done)..].
  cbn [mbind result_bind]. unfold scrub.
  destruct (zip_fst_snd (scrub_id <$> ids p) (tuples p)) as [-> ->]; [by rewrite length_fmap|].
  by destruct (header p).
Qed.

(** ** Refinement to the slot array *)

Lemma slots_length p : page_wf p -> zlen (slots p) = zlen (ids p).
Proof.
  intros Hwf. unfold slots, zlen. rewrite length_zip_with.
  pose proof (layout_length _ _ _ _ (wf_layout p Hwf)). lia.
Qed.

Lemma zget_slots p k :
  page_wf p ->
  zget (slots p) k = (id ← zget (ids p) k; t ← zget (tuples p) k; Some (slot_of id t)).
Proof.
  intros Hwf. unfold zget, slots. destruct (k <? 0); [done|]. apply lookup_zip_with.
Qed.

Lemma get_tuple_slots p k :
  page_wf p -> get_tuple p k = Val (mjoin (zget (slots p) k)).
Proof.
  intros Hwf. rewrite zget_slots by done. unfold get_tuple, slot_of.
  destruct (zget (ids p) k) as [id|] eqn:E; [|done]. cbn.
  destruct (zget_is_Some (tuples p) k) as [t Ht].
  { rewrite page_wf_same_len by done. by eapply zget_Some_lt. }
  rewrite Ht. cbn. by destruct (id_length id =? 0).
Qed.

Lemma insert_tuple_slots p data p' slot :
  page_wf p -> insert_tuple p data = (p', Some slot) ->
  slot = zlen (slots p) /\
  slots p' = slots p ++ [if decide (data = []) then None else Some data].
Proof.
  intros Hwf Hi.
  destruct (decide (zlen data + ITEM_ID_SIZE <= h_upper (header p) - h_lower (header p))) as [Hf|Hf];
    [|by rewrite insert_tuple_full in Hi by lia].
  rewrite insert_tuple_fits in Hi by done. simplify_eq.
  rewrite slots_length by done. split; [done|]. unfold slots. cbn [ids tuples].
  rewrite zip_with_app by (apply (layout_length _ _ _ _ (wf_layout p Hwf))).
  f_equal. cbn. unfold slot_of. cbn. f_equal. destruct data as [|b data]; [done|].
  rewrite zlen_cons. pose proof (zlen_nonneg data). by zfalse (1 + zlen data =? 0).
Qed.

Lemma delete_tuple_slots p k :
  page_wf p -> exists p', delete_tuple p k = Val (p', bool_decide (is_Some (mjoin (zget (slots p) k)))) /\
    slots p' = if bool_decide (is_Some (mjoin (zget (slots p) k)))
               then <[Z.to_nat k := None]> (slots p) else slots p.
Proof.
  intros Hwf. rewrite zget_slots by done.
  destruct (delete_tuple_cases p k Hwf) as [(id & Hg & Hl & ->)|[Hd ->]].
  - rewrite Hg. destruct (zget_is_Some (tuples p) k) as [t Ht].
    { rewrite page_wf_same_len by done. by eapply zget_Some_lt. }
    rewrite Ht. cbn. unfold slot_of. unfold is_live in Hl. zb. zfalse (id_length id =? 0).
    rewrite bool_decide_eq_true_2 by eauto. eexists. split; [done|].
    unfold slots. cbn [ids tuples]. by rewrite <- insert_zip_with.
  - exists p. destruct (zget (ids p) k) as [id|] eqn:E; [|done].
    specialize (Hd id eq_refl). unfold is_live in Hd. zb.
    destruct (zget (tuples p) k); cbn; [|done]. unfold slot_of. by ztrue (id_length id =? 0).
Qed.

(** The live slots of a slot array in order, with their numbers. *)
Fixpoint live_slots (i : Z) (l : list (option (list Z))) : list (Z * list Z) :=
  match l with
  | [] => []
  | Some t :: l => (i, t) :: live_slots (i + 1) l
  | None :: l => live_slots (i + 1) l
  end.

Lemma iter_live_from_slots l ts pre :
  length l = length ts ->
  iter_live_from (zlen pre) l (pre ++ ts) = Val (live_slots (zlen pre) (zip_with slot_of l ts)).
Proof.
  revert ts pre. induction l as [|id l IH]; intros [|t ts] pre Hlen; simplify_eq/=; [done|].
  specialize (IH ts (pre ++ [t]) Hlen). rewrite zlen_app, <- app_assoc in IH.
  change (zlen [t]) with 1 in IH. cbn [app] in IH.
  unfold slot_of at 1. destruct (id_length id =? 0); [by rewrite IH|].
  rewrite zget_app_r, Z.sub_diag by lia. change (zget (t :: ts) 0) with (Some t).
  cbn [expect mbind run_bind]. by rewrite IH.
Qed.

Lemma iter_live_slots p : page_wf p -> iter_live p = Val (live_slots 0 (slots p)).
Proof.
  intros Hwf. apply (iter_live_from_slots _ _ []).
  apply (layout_length _ _ _ _ (wf_layout p Hwf)).
Qed.

Lemma scrub_slots p : slots (scrub p) = slots p.
Proof.
  unfold slots, scrub. cbn [ids tuples]. rewrite zip_with_fmap_l. apply zip_with_ext; [|done..].
  intros id t. unfold slot_of, scrub_id. destruct (id_length id =? 0) eqn:E; cbn; [done|by rewrite E].
Qed.

Lemma scrub_wf p : page_wf p -> page_wf (scrub p).
Proof.
  intros [H1 H2 H3 H4 H5 H6]. split; cbn [scrub header ids tuples]; try done.
  - rewrite H4. unfold zlen. by rewrite length_fmap.
  - clear -H6. induction H6; cbn; [constructor| |].
    + unfold scrub_id. cbn. zfalse (len =? 0). by apply layout_live.
    + eapply layout_dead; [|done..]. unfold in_u; lia.
Qed.

(** ** Detection of a corrupted byte *)

(** The inverse of the FNV prime modulo [2^32]: one step of the hash is a
    bijection of the running hash. *)
Definition FNV_INV : Z := 0x359c449b.

Lemma fnv_mul_inj x y :
  in_u 32 x -> in_u 32 y -> wrap 32 (x * FNV_PRIME) = wrap 32 (y * FNV_PRIME) -> x = y.
Proof.
  unfold in_u, wrap. intros Hx Hy H.
  assert (forall z, in_u 32 z -> (z * FNV_PRIME mod 2 ^ 32 * FNV_INV) mod 2 ^ 32 = z) as Hinv.
  { intros z Hz. rewrite Zmult_mod_idemp_l, <- Z.mul_assoc, <- Zmult_mod_idemp_r.
    replace (FNV_PRIME * FNV_INV mod 2 ^ 32) with 1 by done. rewrite Z.mul_1_r.
    by apply Z.mod_small. }
  rewrite <- (Hinv x), <- (Hinv y) by done. by rewrite H.
Qed.

Lemma byte_u32 b : is_byte b -> in_u 32 b.
Proof. unfold is_byte, in_u. lia. Qed.

Lemma fnv_step_inj_hash i h1 h2 b :
  in_u 32 h1 -> in_u 32 h2 -> is_byte b -> fnv_step i h1 b = fnv_step i h2 b -> h1 = h2.
Proof.
  intros H1 H2 Hb%byte_u32 H. unfold fnv_step in H.
  assert (in_u 32 (if (8 <=? i) && (i <? 12) then 0 else b)) by (by destruct (_ && _)%bool).
  eapply lxor_cancel_r, fnv_mul_inj, H; apply lxor_range; done.
Qed.

Lemma fnv_step_inj_byte i h b1 b2 :
  in_u 32 h -> is_byte b1 -> is_byte b2 -> ~ (8 <= i < 12) ->
  fnv_step i h b1 = fnv_step i h b2 -> b1 = b2.
Proof.
  intros Hh H1%byte_u32 H2%byte_u32 Hi H. unfold fnv_step in H.
  replace ((8 <=? i) && (i <? 12))%bool with false in H by lia.
  eapply lxor_cancel_l, fnv_mul_inj, H; apply lxor_range; done.
Qed.

Lemma fnv_from_inj_hash buf : forall i h1 h2,
  in_u 32 h1 -> in_u 32 h2 -> Forall is_byte buf ->
  fnv_from i h1 buf = fnv_from i h2 buf -> h1 = h2.
Proof.
  induction buf as [|b buf IH]; intros i h1 h2 H1 H2 Hb H; [done|]. inversion Hb; subst.
  eapply fnv_step_inj_hash, IH; eauto using fnv_step_range.
Qed.

Lemma fnv_from_update buf : forall i h (k : nat) b b0,
  in_u 32 h -> Forall is_byte buf -> buf !! k = Some b0 -> is_byte b -> b <> b0 ->
  ~ (8 <= i + Z.of_nat k < 12) ->
  fnv_from i h (<[k := b]> buf) <> fnv_from i h buf.
Proof.
  induction buf as [|c buf IH]; intros i h k b b0 Hh Hall Hk Hb Hne Hi; [done|].
  inversion Hall; subst. destruct k as [|k]; simplify_eq/=.
  - intros E. apply Hne. eapply (fnv_step_inj_byte i h); try done; [lia|].
    eapply fnv_from_inj_hash; eauto using fnv_step_range.
  - eapply IH; eauto using fnv_step_range. lia.
Qed.

Lemma zslice_insert_same (buf : list Z) (k : nat) b c e :
  0 <= c <= e -> e <= zlen buf -> ~ (c <= Z.of_nat k < e) ->
  zslice c e (<[k := b]> buf) = zslice c e buf.
Proof.
  intros Hc He Hk. apply zget_ext; rewrite !zlen_zslice; rewrite ?zlen_insert; try lia.
  intros i Hi. rewrite !zget_zslice by lia. unfold zget. zfalse (c + i <? 0).
  rewrite list_lookup_insert_ne by lia. done.
Qed.

Lemma zslice_insert_diff (buf : list Z) (k : nat) b b0 c e :
  0 <= c <= e -> e <= zlen buf -> c <= Z.of_nat k < e -> buf !! k = Some b0 -> b <> b0 ->
  zslice c e (<[k := b]> buf) <> zslice c e buf.
Proof.
  intros Hc He Hk Hb Hne E. apply (f_equal (fun l => zget l (Z.of_nat k - c))) in E.
  rewrite !zget_zslice in E by lia. replace (c + (Z.of_nat k - c)) with (Z.of_nat k) in E by lia.
  rewrite !zget_nat in E. rewrite list_lookup_insert_eq in E by (by eapply lookup_lt_Some). congruence.
Qed.

(** A page image with one byte changed is refused. *)
Lemma corrupt_byte buf p (k : nat) b b0 :
  Forall is_byte buf -> from_bytes buf = Ok p ->
  buf !! k = Some b0 -> is_byte b -> b <> b0 ->
  exists stored computed, from_bytes (<[k := b]> buf) = Err (Checksum stored computed).
Proof.
  intros Hall Hok Hk Hb Hne. unfold from_bytes in *. rewrite zlen_insert.
  destruct (zlen buf =? PAGE_SIZE) eqn:Hl; cbn [negb] in *; [|done]. zb. unfold PAGE_SIZE in Hl.
  destruct (le_val (zslice 8 12 buf) =? page_checksum buf) eqn:Hc; cbn [negb] in *; [|done]. zb.
  enough (le_val (zslice 8 12 (<[k:=b]> buf)) <> page_checksum (<[k:=b]> buf)) as E.
  { apply Z.eqb_neq in E. rewrite E. eauto. }
  assert (Forall is_byte (<[k:=b]> buf)) by (by apply Forall_insert).
  destruct (decide (8 <= Z.of_nat k < 12)) as [Hi|Hi].
  - replace (page_checksum (<[k:=b]> buf)) with (page_checksum buf).
    2:{ apply fnv_from_ext; [by rewrite length_insert|]. intros j Hj.
        destruct (decide (j = Z.of_nat k)) as [->|]; [left; lia|right].
        unfold zget. zfalse (j <? 0). rewrite list_lookup_insert_ne by lia. done. }
    rewrite <- Hc. intros E. eapply zslice_insert_diff; [| | | |exact Hne|]; [..|apply le_val_inj, E]; eauto;
      rewrite ?Forall_zslice; auto using Forall_zslice; try lia.
    apply Nat2Z.inj. change (zlen (zslice 8 12 (<[k:=b]> buf)) = zlen (zslice 8 12 buf)).
    rewrite !zlen_zslice; rewrite ?zlen_insert; lia.
  - rewrite zslice_insert_same by lia. rewrite Hc. apply not_eq_sym.
    by eapply fnv_from_update.
Qed.

(** * Theorems *)

(** C24: on every page reached from [Page::new] by inserts, deletes and LSN
    updates, [to_bytes] does not panic, yields exactly 8192 bytes, and
    [from_bytes] reads them back as the same page with the same slots, header
    and free space (only the unused offset of a dead slot is dropped). *)
Theorem page_byte_round_trip p :
  rtc page_step page_new p ->
  exists buf, to_bytes p = Val buf /\ zlen buf = PAGE_SIZE /\
    from_bytes buf = Ok (scrub p) /\ page_wf (scrub p) /\
    slots (scrub p) = slots p /\ header (scrub p) = header p.
Proof.
  intros Hr. pose proof (page_reachable_wf _ _ Hr page_new_wf) as Hwf.
  destruct (from_to_bytes p Hwf) as (buf & ? & ? & ?). exists buf.
  split_and!; auto using scrub_wf, scrub_slots.
Qed.

Lemma page_byte_round_trip_witness :
  exists buf, to_bytes (fst (insert_tuple page_new (lit "alpha"))) = Val buf /\
    from_bytes buf = Ok (scrub (fst (insert_tuple page_new (lit "alpha")))).
Proof.
  destruct (page_byte_round_trip (fst (insert_tuple page_new (lit "alpha")))) as (buf & H1 & _ & H2 & _).
  - apply rtc_once. constructor. apply Forall_forall. intros x Hx.
    repeat (apply elem_of_cons in Hx as [->|Hx]; [unfold is_byte; cbn; lia|]). by apply elem_of_nil in Hx.
  - eauto.
Defined.

(** The slotted page refines an append-only array of slots: [get_tuple]
    reads a slot, a successful [insert_tuple] appends the tuple and returns
    the next slot number, [delete_tuple] kills exactly a live slot and reports
    whether it did, and [iter_live] lists the live slots in order; none of
    them panics. *)
Theorem page_refines_slot_array p :
  page_wf p ->
  (forall k, get_tuple p k = Val (mjoin (zget (slots p) k))) /\
  (forall data p' slot, insert_tuple p data = (p', Some slot) ->
     slot = zlen (slots p) /\
     slots p' = slots p ++ [if decide (data = []) then None else Some data]) /\
  (forall k, exists p',
     delete_tuple p k = Val (p', bool_decide (is_Some (mjoin (zget (slots p) k)))) /\
     slots p' = if bool_decide (is_Some (mjoin (zget (slots p) k)))
                then <[Z.to_nat k := None]> (slots p) else slots p) /\
  iter_live p = Val (live_slots 0 (slots p)).
Proof.
  intros Hwf. split_and!; auto using get_tuple_slots, delete_tuple_slots, iter_live_slots.
  intros. by apply insert_tuple_slots.
Qed.

Lemma page_refines_slot_array_witness :
  page_wf page_new /\ iter_live page_new = Val [].
Proof.
  assert (page_wf page_new) as H by apply page_new_wf. split; [exact H|].
  destruct (page_refines_slot_array page_new H) as (_ & _ & _ & E). exact E.
Defined.

(** The FNV-1a page checksum catches every single-byte corruption: if a
    page image is accepted, the image with any one of its 8192 bytes replaced
    by a different byte is refused with a checksum error. *)
Theorem page_corruption_detected buf p (k : nat) b b0 :
  Forall is_byte buf -> from_bytes buf = Ok p ->
  buf !! k = Some b0 -> is_byte b -> b <> b0 ->
  exists stored computed, from_bytes (<[k := b]> buf) = Err (Checksum stored computed).
Proof. apply corrupt_byte. Qed.

Definition blank_image : list Z := match to_bytes page_new with Val b => b | Panic => [] end.

Lemma page_corruption_detected_witness :
  exists stored computed, from_bytes (<[100%nat := 7]> blank_image) = Err (Checksum stored computed).
Proof.
  apply (page_corruption_detected blank_image page_new 100 7 0).
  - assert (forallb (fun b => (0 <=? b) && (b <? 256)) blank_image = true) as H by (vm_compute; reflexivity).
    apply Forall_forall. intros x Hx. apply list_elem_of_In in Hx.
    rewrite forallb_forall in H. specialize (H x Hx). unfold is_byte. lia.
  - vm_compute. reflexivity.
  - vm_compute. reflexivity.
  - unfold is_byte; lia.
  - lia.
Defined.
