(* ===== verification/Heap.v ===== *)
(** The heap file of crates/engine/src/disk/heap.rs: a flat array of pages in
    one file, modelled over the file's bytes, and its refinement to the ordered
    list of addressed tuples. *)

From S2P Require Import Prelude Page.

(** * The file

    A [File] is its contents; [read_exact] past the end fails, a write past the
    end leaves a zero-filled hole, and the operating system reports no other
    error. *)

Inductive IoError :=
| UnexpectedEof
| InvalidData (e : PageError)
| InvalidInput.

Definition file_read (f : list Z) (off n : Z) : result IoError (list Z) :=
  ok_or (get_range f off (off + n)) UnexpectedEof.

Definition file_write (f : list Z) (off : Z) (data : list Z) : list Z :=
  let f := f ++ zreplicate (off - zlen f) 0 in
  ztake off f ++ data ++ zdrop (off + zlen data) f.

(** * The heap *)

Record Heap := mk_heap { file : list Z; page_count : Z }.

(** [Heap::open] on a file with contents [f] (empty when it was created). *)
Definition heap_open (f : list Z) : Heap := mk_heap f (zlen f / PAGE_SIZE).

Definition read_page (h : Heap) (page_no : Z) : result IoError Page :=
  if page_count h <=? page_no then Err UnexpectedEof
  else
    buf ← file_read (file h) (page_no * PAGE_SIZE) PAGE_SIZE;
    match from_bytes buf with
    | Ok p => Ok p
    | Err e => Err (InvalidData e)
    end.

Definition write_page (h : Heap) (page_no : Z) (p : Page) : res IoError Heap :=
  bytes ← lift (to_bytes p);
  let f := file_write (file h) (page_no * PAGE_SIZE) bytes in
  mret (mk_heap f (if page_count h <=? page_no then page_no + 1 else page_count h)).

(** The new-page half of [append_tuple]. *)
Definition append_fresh (h : Heap) (tuple : list Z) : res IoError (Heap * (Z * Z)) :=
  match insert_tuple page_new tuple with
  | (page, Some slot) =>
      let page_no := page_count h in
      h' ← write_page h page_no page;
      mret (h', (page_no, slot))
  | (_, None) => fail InvalidInput
  end.

Definition append_tuple (h : Heap) (tuple : list Z) : res IoError (Heap * (Z * Z)) :=
  if 0 <? page_count h then
    let last := page_count h - 1 in
    page ← (Val (read_page h last) : res IoError Page);
    match insert_tuple page tuple with
    | (page', Some slot) => h' ← write_page h last page'; mret (h', (last, slot))
    | (_, None) => append_fresh h tuple
    end
  else append_fresh h tuple.

Definition read_tuple (h : Heap) (page_no slot : Z) : res IoError (option (list Z)) :=
  if page_count h <=? page_no then mret None
  else
    page ← (Val (read_page h page_no) : res IoError Page);
    lift (get_tuple page slot).

Definition heap_delete_tuple (h : Heap) (page_no slot : Z) : res IoError (Heap * bool) :=
  if page_count h <=? page_no then mret (h, false)
  else
    page ← (Val (read_page h page_no) : res IoError Page);
    '(page', removed) ← lift (delete_tuple page slot);
    if removed : bool then h' ← write_page h page_no page'; mret (h', true)
    else mret (h, false).

(** The page loop of [iter_tuples], the last [n] pages. *)
Fixpoint iter_tuples_from (h : Heap) (n : nat) (page_no : Z) : res IoError (list (Z * Z * list Z)) :=
  match n with
  | O => mret []
  | S n =>
      page ← (Val (read_page h page_no) : res IoError Page);
      live ← lift (iter_live page);
      rest ← iter_tuples_from h n (page_no + 1);
      mret (((fun '(slot, bytes) => (page_no, slot, bytes)) <$> live) ++ rest)
  end.

Definition iter_tuples (h : Heap) : res IoError (list (Z * Z * list Z)) :=
  iter_tuples_from h (Z.to_nat (page_count h)) 0.

(** * Specification *)

(** An image of a page on disk. *)
Definition image_of (img : list Z) (p : Page) : Prop :=
  zlen img = PAGE_SIZE /\ from_bytes img = Ok p /\ page_wf p.

(** The heap holds exactly the pages [ps]. *)
Definition heap_rep (h : Heap) (ps : list Page) : Prop :=
  page_count h = zlen ps /\
  exists imgs, file h = concat imgs /\ Forall2 image_of imgs ps.

(** The addressed live tuples of the pages [ps], numbered from [page_no]. *)
Fixpoint tuples_from (page_no : Z) (ps : list Page) : list (Z * Z * list Z) :=
  match ps with
  | [] => []
  | p :: ps => ((fun '(slot, t) => (page_no, slot, t)) <$> live_slots 0 (slots p))
               ++ tuples_from (page_no + 1) ps
  end.

(** Largest tuple a fresh page takes. *)
Definition MAX_TUPLE : Z := PAGE_SIZE - HEADER_SIZE - ITEM_ID_SIZE.

(** * Proofs *)

Lemma zlen_concat_images imgs ps :
  Forall2 image_of imgs ps -> zlen (concat imgs) = zlen ps * PAGE_SIZE.
Proof.
  induction 1 as [|img p imgs ps [Hl _] _ IH]; [done|]. cbn [concat].
  rewrite zlen_app, zlen_cons, Hl, IH. lia.
Qed.

(** The image at index [n] splits the file. *)
Lemma images_split imgs ps (n : nat) p :
  Forall2 image_of imgs ps -> ps !! n = Some p ->
  exists img imgs1 imgs2 ps1 ps2, imgs = imgs1 ++ img :: imgs2 /\ ps = ps1 ++ p :: ps2 /\
    length ps1 = n /\ image_of img p /\ Forall2 image_of imgs1 ps1 /\ Forall2 image_of imgs2 ps2.
Proof.
  intros H Hn. rewrite <- (take_drop_middle _ _ _ Hn) in H.
  apply Forall2_app_inv_r in H as (imgs1 & imgs' & H1 & H2 & ->).
  apply Forall2_cons_inv_r in H2 as (img & imgs2 & ? & ? & ->).
  exists img, imgs1, imgs2, (take n ps), (drop (S n) ps). split_and!; auto.
  - by rewrite take_drop_middle.
  - apply lookup_lt_Some in Hn. rewrite length_take. lia.
Qed.

Lemma read_page_rep h ps n p :
  heap_rep h ps -> zget ps n = Some p -> read_page h n = Ok p.
Proof.
  intros (Hc & imgs & Hf & Himg) Hn. pose proof (zget_Some_lt _ _ _ Hn).
  apply zget_Some_nat in Hn as (m & -> & Hm).
  destruct (images_split _ _ _ _ Himg Hm) as (img & i1 & i2 & ps1 & ps2 & -> & -> & <- & (Hl & Hfb & _) & H1 & H2).
  unfold read_page, file_read. zfalse (page_count h <=? Z.of_nat (length ps1)).
  rewrite Hf, concat_app. cbn [concat].
  rewrite (get_range_mid (concat i1) img).
  - cbn. by rewrite Hfb.
  - by rewrite (zlen_concat_images _ _ H1).
  - rewrite Hl. lia.
Qed.

Lemma read_page_out h n : page_count h <= n -> read_page h n = Err UnexpectedEof.
Proof. intros. unfold read_page. by ztrue (page_count h <=? n). Qed.

(** Overwriting a page in the middle of the file. *)
Lemma file_write_mid (f1 f2 f3 data : list Z) off :
  off = zlen f1 -> zlen data = zlen f2 -> file_write (f1 ++ f2 ++ f3) off data = f1 ++ data ++ f3.
Proof.
  intros -> Hl. unfold file_write. pose proof (zlen_nonneg f2). pose proof (zlen_nonneg f3).
  replace (zreplicate _ 0) with (@nil Z).
  2:{ unfold zreplicate. rewrite !zlen_app. replace (Z.to_nat _) with O by lia. done. }
  rewrite app_nil_r, ztake_app_exact by done. do 2 f_equal.
  rewrite (app_assoc f1), zdrop_app_exact; [done|]. rewrite zlen_app. lia.
Qed.

(** Appending at the end of the file. *)
Lemma file_write_end (f data : list Z) off : off = zlen f -> file_write f off data = f ++ data.
Proof.
  intros ->. pose proof (file_write_mid f [] [] data (zlen f) eq_refl) as H.
  rewrite app_nil_r in H. unfold file_write in *. rewrite Z.sub_diag in *. cbn in *.
  rewrite !app_nil_r in *. rewrite ztake_all by done. f_equal.
  unfold zdrop. pose proof (zlen_nonneg data). unfold zlen in *.
  rewrite drop_ge by lia. by rewrite app_nil_r.
Qed.

(** [write_page] on a page in range replaces it, at the end it appends. *)
Lemma write_page_rep h ps n p :
  heap_rep h ps -> page_wf p -> 0 <= n <= zlen ps ->
  exists h', write_page h n p = Val (Ok h') /\
    heap_rep h' (if decide (n = zlen ps) then ps ++ [scrub p] else <[Z.to_nat n := scrub p]> ps).
Proof.
  intros (Hc & imgs & Hf & Himg) Hwf Hn.
  destruct (from_to_bytes p Hwf) as (buf & Hb & Hl & Hfb).
  assert (image_of buf (scrub p)) as Hnew by (split_and!; auto using scrub_wf).
  unfold write_page. rewrite Hb. cbn. eexists. split; [reflexivity|].
  destruct (decide (n = zlen ps)) as [->|Hne].
  - rewrite Hc, Z.leb_refl. split; [cbn; rewrite zlen_app, zlen_cons; change (zlen []) with 0; lia|].
    exists (imgs ++ [buf]). cbn. split.
    + rewrite file_write_end by (by rewrite Hf, (zlen_concat_images _ _ Himg)).
      by rewrite concat_app, Hf; cbn; rewrite app_nil_r.
    + apply Forall2_app; auto.
  - zfalse (page_count h <=? n). split; [cbn; by rewrite zlen_insert|].
    destruct (lookup_lt_is_Some_2 ps (Z.to_nat n)) as [q Hq]; [unfold zlen in *; lia|].
    destruct (images_split _ _ _ _ Himg Hq) as (img & i1 & i2 & ps1 & ps2 & -> & -> & Hlen & (Hl' & _ & _) & H1 & H2).
    exists (i1 ++ buf :: i2). cbn. split.
    + rewrite Hf, !concat_app. cbn [concat]. apply file_write_mid; [|lia].
      rewrite (zlen_concat_images _ _ H1). unfold zlen, PAGE_SIZE. lia.
    + rewrite <- Hlen, insert_app_r_alt, Nat.sub_diag by lia. cbn. apply Forall2_app; [done|]. by constructor.
Qed.

(** ** Tuples *)

Lemma tuples_from_app ps1 ps2 n :
  tuples_from n (ps1 ++ ps2) = tuples_from n ps1 ++ tuples_from (n + zlen ps1) ps2.
Proof.
  revert n. induction ps1 as [|p ps1 IH]; intros n; cbn.
  - by rewrite Z.add_0_r.
  - rewrite IH, zlen_cons, <- app_assoc. do 3 f_equal. lia.
Qed.

Lemma live_slots_app i l1 l2 :
  live_slots i (l1 ++ l2) = live_slots i l1 ++ live_slots (i + zlen l1) l2.
Proof.
  revert i. induction l1 as [|[t|] l1 IH]; intros i; cbn.
  - by rewrite Z.add_0_r.
  - rewrite IH, zlen_cons. do 3 f_equal. lia.
  - rewrite IH, zlen_cons. do 2 f_equal. lia.
Qed.

Lemma iter_tuples_from_rep h ps2 : forall ps1,
  heap_rep h (ps1 ++ ps2) ->
  iter_tuples_from h (length ps2) (zlen ps1) = Val (Ok (tuples_from (zlen ps1) ps2)).
Proof.
  induction ps2 as [|p ps2 IH]; intros ps1 Hr; [done|]. cbn [length iter_tuples_from tuples_from].
  rewrite (read_page_rep h _ (zlen ps1) p Hr).
  2:{ rewrite zget_app_r, Z.sub_diag by lia. done. }
  assert (page_wf p) as Hwf.
  { destruct Hr as (_ & imgs & _ & H). apply Forall2_app_inv_r in H as (? & ? & _ & H2 & _).
    apply Forall2_cons_inv_r in H2 as (? & ? & (_ & _ & ?) & _). done. }
  cbn. rewrite iter_live_slots by done. cbn.
  specialize (IH (ps1 ++ [p])). rewrite <- app_assoc, zlen_app in IH. change (zlen [p]) with 1 in IH.
  by rewrite IH.
Qed.

Lemma iter_tuples_rep h ps : heap_rep h ps -> iter_tuples h = Val (Ok (tuples_from 0 ps)).
Proof.
  intros Hr. unfold iter_tuples. destruct Hr as (Hc & Hi) eqn:E. rewrite Hc. unfold zlen.
  rewrite Nat2Z.id. apply (iter_tuples_from_rep h ps []). done.
Qed.

Lemma heap_rep_wf h ps n p : heap_rep h ps -> zget ps n = Some p -> page_wf p.
Proof.
  intros (_ & imgs & _ & Himg) (m & -> & Hm)%zget_Some_nat.
  destruct (images_split _ _ _ _ Himg Hm) as (img & i1 & i2 & ps1 & ps2 & _ & _ & _ & (_ & _ & ?) & _). done.
Qed.

Lemma scrub_live_snoc p data p' slot :
  page_wf p -> data <> [] -> insert_tuple p data = (p', Some slot) ->
  slot = zlen (slots p) /\ live_slots 0 (slots (scrub p')) = live_slots 0 (slots p) ++ [(slot, data)].
Proof.
  intros Hwf Hne Hi. destruct (insert_tuple_slots _ _ _ _ Hwf Hi) as [-> Hs]. split; [done|].
  rewrite scrub_slots, Hs, live_slots_app, Z.add_0_l. cbn. by destruct (decide (data = [])).
Qed.

Lemma insert_tuple_some p data :
  page_wf p -> Forall is_byte data ->
  zlen data + ITEM_ID_SIZE <= h_upper (header p) - h_lower (header p) ->
  exists p', insert_tuple p data = (p', Some (zlen (slots p))) /\ page_wf p'.
Proof.
  intros Hwf Hb Hf. exists (fst (insert_tuple p data)). split; [|by apply insert_tuple_wf].
  rewrite insert_tuple_fits by done. cbn. by rewrite slots_length.
Qed.

Lemma append_fresh_rep h ps tuple :
  heap_rep h ps -> Forall is_byte tuple -> tuple <> [] -> zlen tuple <= MAX_TUPLE ->
  exists h' ps', append_fresh h tuple = Val (Ok (h', (zlen ps, 0))) /\ heap_rep h' ps' /\
    tuples_from 0 ps' = tuples_from 0 ps ++ [(zlen ps, 0, tuple)].
Proof.
  intros Hr Hb Hne Hlen. unfold append_fresh.
  destruct (insert_tuple_some page_new tuple) as (p' & Hi & Hwf'); auto using page_new_wf.
  { change (zlen tuple + 4 <= 8192 - 24). unfold MAX_TUPLE, PAGE_SIZE, HEADER_SIZE, ITEM_ID_SIZE in *. lia. }
  destruct (scrub_live_snoc _ _ _ _ page_new_wf Hne Hi) as [_ Hs]. change (slots page_new) with (@nil (option (list Z))) in *.
  rewrite Hi. rewrite (proj1 Hr).
  destruct (write_page_rep h ps (zlen ps) p' Hr Hwf') as (h' & Hw & Hr').
  { pose proof (zlen_nonneg ps). lia. }
  rewrite decide_True in Hr' by done. rewrite Hw. cbn. exists h', (ps ++ [scrub p']).
  split_and!; [done|done|]. rewrite tuples_from_app, Z.add_0_l. cbn [tuples_from]. by rewrite Hs.
Qed.

(** [append_tuple] adds the tuple at the end of the live tuples. *)
Lemma append_tuple_rep h ps tuple :
  heap_rep h ps -> Forall is_byte tuple -> tuple <> [] -> zlen tuple <= MAX_TUPLE ->
  exists h' ps' addr, append_tuple h tuple = Val (Ok (h', addr)) /\ heap_rep h' ps' /\
    tuples_from 0 ps' = tuples_from 0 ps ++ [(addr, tuple)].
Proof.
  intros Hr Hb Hne Hlen. unfold append_tuple.
  destruct (append_fresh_rep h ps tuple Hr Hb Hne Hlen) as (hf & pf & Hf & Hrf & Htf).
  rewrite (proj1 Hr). zcase; [|by exists hf, pf, (zlen ps, 0)].
  destruct (zget_is_Some ps (zlen ps - 1)) as [p Hp]; [lia|].
  rewrite (read_page_rep _ _ _ _ Hr Hp). cbn -[insert_tuple].
  pose proof (heap_rep_wf _ _ _ _ Hr Hp) as Hwf.
  destruct (decide (zlen tuple + ITEM_ID_SIZE <= h_upper (header p) - h_lower (header p))) as [Hfit|Hfull];
    [|rewrite insert_tuple_full by lia; by exists hf, pf, (zlen ps, 0)].
  destruct (insert_tuple_some p tuple Hwf Hb Hfit) as (p' & Hi & Hwf'). rewrite Hi.
  destruct (scrub_live_snoc _ _ _ _ Hwf Hne Hi) as [_ Hs].
  destruct (write_page_rep h ps (zlen ps - 1) p' Hr Hwf') as (h' & Hw & Hr'); [lia|].
  rewrite decide_False in Hr' by lia. rewrite Hw. cbn.
  eexists h', _, (zlen ps - 1, zlen (slots p)). split_and!; [done|exact Hr'|].
  apply zget_Some_nat in Hp as (m & Hm & Hp). rewrite Hm, Nat2Z.id.
  rewrite <- (take_drop_middle _ _ _ Hp) at 2. rewrite insert_take_drop by (by eapply lookup_lt_Some).
  rewrite drop_ge by (unfold zlen in *; lia).
  rewrite !tuples_from_app. cbn [tuples_from]. rewrite !app_nil_r, Hs, fmap_app, app_assoc. do 2 f_equal.
  cbn. do 3 f_equal. unfold zlen. rewrite length_take. unfold zlen in *. lia.
Qed.

Lemma append_tuple_too_big h ps tuple :
  heap_rep h ps -> MAX_TUPLE < zlen tuple -> append_tuple h tuple = Val (Err InvalidInput).
Proof.
  intros Hr Hbig.
  assert (append_fresh h tuple = Val (Err InvalidInput)) as Hf.
  { unfold append_fresh. rewrite insert_tuple_full; [done|].
    change (8192 - 24 < zlen tuple + 4). unfold MAX_TUPLE, PAGE_SIZE, HEADER_SIZE, ITEM_ID_SIZE in *. lia. }
  unfold append_tuple. rewrite (proj1 Hr). zcase; [|done].
  destruct (zget_is_Some ps (zlen ps - 1)) as [p Hp]; [lia|].
  rewrite (read_page_rep _ _ _ _ Hr Hp). cbn -[insert_tuple].
  pose proof (heap_rep_wf _ _ _ _ Hr Hp) as Hwf.
  pose proof (page_wf_lower_min p Hwf). pose proof (page_wf_upper_max p Hwf).
  rewrite insert_tuple_full; [done|].
  unfold MAX_TUPLE, PAGE_SIZE, HEADER_SIZE, ITEM_ID_SIZE in *. lia.
Qed.

(** ** Reading and deleting by address *)

(** The tuple at an address of the pages [ps]. *)
Definition tuple_at (ps : list Page) (page_no slot : Z) : option (list Z) :=
  p ← zget ps page_no; mjoin (zget (slots p) slot).

Lemma read_tuple_rep h ps n k :
  heap_rep h ps -> 0 <= n -> read_tuple h n k = Val (Ok (tuple_at ps n k)).
Proof.
  intros Hr Hn. unfold read_tuple, tuple_at. rewrite (proj1 Hr). zcase.
  - by rewrite zget_ge by lia.
  - destruct (zget_is_Some ps n) as [p Hp]; [lia|]. rewrite (read_page_rep _ _ _ _ Hr Hp), Hp.
    cbn. by rewrite (get_tuple_slots p k (heap_rep_wf _ _ _ _ Hr Hp)).
Qed.

Lemma live_slots_ge i l : Forall (fun x => i <= x.1) (live_slots i l).
Proof.
  revert i. induction l as [|[t|] l IH]; intros i; cbn; [constructor|constructor; [cbn; lia|]|];
    (eapply Forall_impl; [apply IH|]; cbn; lia).
Qed.

(** Killing a slot drops exactly its address. *)
Lemma live_slots_kill l : forall i (k : nat), (k < length l)%nat ->
  live_slots i (<[k := None]> l) = filter (fun x => x.1 <> i + Z.of_nat k) (live_slots i l).
Proof.
  induction l as [|o l IH]; intros i [|k] Hk; simpl in Hk; [lia..| |].
  - cbn [insert list_insert live_slots]. rewrite Z.add_0_r.
    assert (filter (fun x => x.1 <> i) (live_slots (i + 1) l) = live_slots (i + 1) l) as E.
    { apply filter_id. eapply Forall_impl; [apply live_slots_ge|]. cbn. lia. }
    destruct o; [|done]. rewrite filter_cons_False by (cbn; lia). done.
  - change (<[S k := None]> (o :: l)) with (o :: <[k := None]> l). cbn [live_slots].
    assert (live_slots (i + 1) (<[k:=None]> l) =
            filter (fun x => x.1 <> i + Z.of_nat (S k)) (live_slots (i + 1) l)) as E.
    { rewrite IH by lia. apply list_filter_iff. intros x. lia. }
    destruct o; [|done]. rewrite filter_cons_True by (cbn; lia). by rewrite E.
Qed.

Lemma tuples_from_range n ps : Forall (fun x => n <= x.1.1 < n + zlen ps) (tuples_from n ps).
Proof.
  revert n. induction ps as [|p ps IH]; intros n; cbn; [constructor|].
  rewrite zlen_cons. pose proof (zlen_nonneg ps). apply Forall_app. split.
  - apply Forall_fmap, Forall_forall. intros [k t] _. cbn. lia.
  - eapply Forall_impl; [apply IH|]. cbn. lia.
Qed.

Lemma tuples_from_kill ps (m : nat) p p' (k : nat) :
  ps !! m = Some p -> (k < length (slots p))%nat ->
  slots p' = <[k := None]> (slots p) ->
  tuples_from 0 (<[m := p']> ps) =
    filter (fun x => x.1 <> (Z.of_nat m, Z.of_nat k)) (tuples_from 0 ps).
Proof.
  intros Hm Hk Hs. rewrite <- (take_drop_middle _ _ _ Hm) at 2.
  rewrite insert_take_drop by (by eapply lookup_lt_Some).
  assert (zlen (take m ps) = Z.of_nat m) as Hl
    by (apply lookup_lt_Some in Hm; unfold zlen; rewrite length_take; lia).
  rewrite !tuples_from_app, Hl. cbn [tuples_from]. rewrite !filter_app, Z.add_0_l. f_equal; [|f_equal].
  - symmetry. apply filter_id. eapply Forall_impl; [apply tuples_from_range|].
    intros [[a b] c]. cbn. intros ? [=]. lia.
  - rewrite Hs, live_slots_kill by done.
    induction (live_slots 0 (slots p)) as [|[j t] l IH]; [done|]. cbn [fmap list_fmap].
    destruct (decide (j = Z.of_nat k)) as [->|Hne].
    + rewrite !filter_cons_False by (cbn; lia || naive_solver). done.
    + rewrite !filter_cons_True by (cbn; lia || naive_solver). cbn. by f_equal.
  - symmetry. apply filter_id. eapply Forall_impl; [apply tuples_from_range|].
    intros [[a b] c]. cbn. intros ? [=]. lia.
Qed.

Lemma heap_delete_rep h ps n k :
  heap_rep h ps -> 0 <= n ->
  exists h' ps', heap_delete_tuple h n k = Val (Ok (h', bool_decide (is_Some (tuple_at ps n k)))) /\
    heap_rep h' ps' /\
    tuples_from 0 ps' = if bool_decide (is_Some (tuple_at ps n k))
                        then filter (fun x => x.1 <> (n, k)) (tuples_from 0 ps)
                        else tuples_from 0 ps.
Proof.
  intros Hr Hn. unfold heap_delete_tuple, tuple_at. rewrite (proj1 Hr). zcase.
  { rewrite zget_ge by lia. cbn. by exists h, ps. }
  destruct (zget_is_Some ps n) as [p Hp]; [lia|]. rewrite (read_page_rep _ _ _ _ Hr Hp), Hp.
  pose proof (heap_rep_wf _ _ _ _ Hr Hp) as Hwf. cbn -[delete_tuple].
  destruct (delete_tuple_slots p k Hwf) as (p' & Hd & Hs).
  pose proof (delete_tuple_wf _ _ _ _ Hwf Hd) as Hwf'. rewrite Hd. cbn -[write_page].
  case_bool_decide as Hlive; [|by exists h, ps].
  destruct (write_page_rep h ps n p' Hr Hwf') as (h' & Hw & Hr'); [lia|].
  rewrite decide_False in Hr' by lia. rewrite Hw. cbn. eexists h', _. split_and!; [done|exact Hr'|].
  destruct (zget (slots p) k) as [o|] eqn:Ek; [|by destruct Hlive].
  pose proof (zget_Some_lt _ _ _ Ek). apply zget_Some_nat in Hp as (m & -> & Hm).
  rewrite Nat2Z.id, (tuples_from_kill _ _ p _ (Z.to_nat k)); [|done|unfold zlen in *; lia|].
  - by rewrite Z2Nat.id by lia.
  - by rewrite scrub_slots.
Qed.

(** Reopening the file gives the same pages. *)
Lemma heap_reopen h ps : heap_rep h ps -> heap_rep (heap_open (file h)) ps.
Proof.
  intros (Hc & imgs & Hf & Himg). split; [|by exists imgs]. cbn.
  rewrite Hf, (zlen_concat_images _ _ Himg). by apply Z.div_mul.
Qed.

Lemma heap_open_empty : heap_rep (heap_open []) [].
Proof. split; [done|]. by exists []. Qed.

(** * Theorems *)

(** C25: the heap file refines an ordered list of addressed tuples.  Appending a
    tuple of 1 to 8164 bytes succeeds and puts it, at a fresh address, after
    all the others; a larger tuple is refused with [InvalidInput];
    [iter_tuples] lists the tuples in order, and reopening the file after any
    of this finds the same list. *)
Theorem heap_append_iterates h ps tuple :
  heap_rep h ps -> Forall is_byte tuple ->
  iter_tuples h = Val (Ok (tuples_from 0 ps)) /\
  (MAX_TUPLE < zlen tuple -> append_tuple h tuple = Val (Err InvalidInput)) /\
  (tuple <> [] -> zlen tuple <= MAX_TUPLE ->
   exists h' addr, append_tuple h tuple = Val (Ok (h', addr)) /\
     iter_tuples h' = Val (Ok (tuples_from 0 ps ++ [(addr, tuple)])) /\
     iter_tuples (heap_open (file h')) = Val (Ok (tuples_from 0 ps ++ [(addr, tuple)]))).
Proof.
  intros Hr Hb. split_and!; [by apply iter_tuples_rep|by apply append_tuple_too_big with ps|].
  intros Hne Hlen. destruct (append_tuple_rep h ps tuple Hr Hb Hne Hlen) as (h' & ps' & addr & Ha & Hr' & Ht).
  exists h', addr. rewrite <- Ht. split_and!; [done|by apply iter_tuples_rep|].
  by apply iter_tuples_rep, heap_reopen.
Qed.

Lemma heap_append_iterates_witness :
  exists h' addr, append_tuple (heap_open []) [1; 2; 3] = Val (Ok (h', addr)) /\
    iter_tuples h' = Val (Ok [(addr, [1; 2; 3])]).
Proof.
  destruct (heap_append_iterates (heap_open []) [] [1; 2; 3]) as (_ & _ & H).
  - apply heap_open_empty.
  - repeat constructor; unfold is_byte; lia.
  - destruct H as (h' & addr & H1 & H2 & _).
    + discriminate.
    + vm_compute. discriminate.
    + exists h', addr. split; [exact H1|exact H2].
Defined.

(** Deleting by address removes exactly the tuple at that address, reports
    whether one was there, never fails on a well-formed heap, and leaves every
    other tuple with its address and order; reading an address gives the tuple
    the page array holds there. *)
Theorem heap_delete_exact h ps n k :
  heap_rep h ps -> 0 <= n ->
  read_tuple h n k = Val (Ok (tuple_at ps n k)) /\
  exists h', heap_delete_tuple h n k = Val (Ok (h', bool_decide (is_Some (tuple_at ps n k)))) /\
    iter_tuples h' = Val (Ok (if bool_decide (is_Some (tuple_at ps n k))
                              then filter (fun x => x.1 <> (n, k)) (tuples_from 0 ps)
                              else tuples_from 0 ps)).
Proof.
  intros Hr Hn. split; [by apply read_tuple_rep|].
  destruct (heap_delete_rep h ps n k Hr Hn) as (h' & ps' & Hd & Hr' & Ht).
  exists h'. split; [done|]. rewrite <- Ht. by apply iter_tuples_rep.
Qed.

Definition heap1 : Heap :=
  match append_tuple (heap_open []) [1; 2; 3] with Val (Ok (h, _)) => h | _ => heap_open [] end.

Lemma heap_delete_exact_witness :
  exists ps h', heap_rep heap1 ps /\ heap_delete_tuple heap1 0 0 = Val (Ok (h', true)) /\
    iter_tuples h' = Val (Ok (filter (fun x => x.1 <> (0, 0)) (tuples_from 0 ps))).
Proof.
  destruct (append_tuple_rep (heap_open []) [] [1; 2; 3]) as (h & ps & addr & Ha & Hr & _).
  { apply heap_open_empty. }
  { repeat constructor; unfold is_byte; lia. }
  { discriminate. }
  { vm_compute. discriminate. }
  assert (heap1 = h) as <- by (unfold heap1; rewrite Ha; reflexivity).
  destruct (heap_delete_exact heap1 ps 0 0 Hr ltac:(lia)) as (_ & h' & H & Hi).
  assert (match heap_delete_tuple heap1 0 0 with Val (Ok (_, b)) => b | _ => false end = true) as E
    by (vm_compute; reflexivity).
  rewrite H in E. rewrite E in H, Hi. exists ps, h'. split; [exact Hr|split; [exact H|exact Hi]].
Defined.
