(* ===== verification/Buffer.v ===== *)
(** The LRU buffer manager of crates/engine/src/disk/buffer.rs over a heap
    file, and its cache-coherence invariant: the pool and the file together
    always stand for one logical list of pages, whatever is evicted. *)

From stdpp Require Import gmap.
From S2P Require Import Prelude Page Heap.

Record Frame := mk_frame { f_page : Page; f_dirty : bool; f_used : Z }.

(** The hash map [pool] is a finite map; its iteration order is the one of
    [map_to_list]. *)
Record BufferManager := mk_buf {
  b_heap : Heap;
  pool : gmap Z Frame;
  capacity : Z;
  clock : Z;
  hits : Z;
  misses : Z
}.

Definition buf_new (h : Heap) (cap : Z) : BufferManager :=
  mk_buf h ∅ (Z.max cap 1) 0 0 0.

Definition set_pool (b : BufferManager) (m : gmap Z Frame) : BufferManager :=
  mk_buf (b_heap b) m (capacity b) (clock b) (hits b) (misses b).
Definition set_heap (b : BufferManager) (h : Heap) : BufferManager :=
  mk_buf h (pool b) (capacity b) (clock b) (hits b) (misses b).

Definition tick (b : BufferManager) : BufferManager * Z :=
  let c := clock b + 1 in
  (mk_buf (b_heap b) (pool b) (capacity b) c (hits b) (misses b), c).

Definition resident (b : BufferManager) : Z := Z.of_nat (size (pool b)).
Definition stats (b : BufferManager) : Z * Z := (hits b, misses b).
Definition buf_page_count (b : BufferManager) : Z := page_count (b_heap b).

(** [iter().min_by_key(|(_, f)| f.used)]: the first of the least. *)
Definition min_used (l : list (Z * Frame)) : option (Z * Frame) :=
  foldl (fun best x => match best with
                       | None => Some x
                       | Some y => if f_used (snd x) <? f_used (snd y) then Some x else best
                       end) None l.

Definition evict_one (b : BufferManager) : res IoError BufferManager :=
  match min_used (map_to_list (pool b)) with
  | None => mret b
  | Some (no, _) =>
      match pool b !! no with
      | None => Panic
      | Some frame =>
          let b := set_pool b (delete no (pool b)) in
          if f_dirty frame then
            h ← write_page (b_heap b) no (f_page frame);
            mret (set_heap b h)
          else mret b
      end
  end.

Definition admit_page (b : BufferManager) (page_no : Z) (page : Page) (dirty : bool) : res IoError BufferManager :=
  b ← (if (capacity b <=? resident b) && negb (bool_decide (is_Some (pool b !! page_no)))
       then evict_one b else mret b);
  let '(b, used) := tick b in
  mret (set_pool b (<[page_no := mk_frame page dirty used]> (pool b))).

(** The buffer manager after the call (also when it fails) and the page the
    returned reference points to. *)
Definition get_page (b : BufferManager) (page_no : Z) : run (BufferManager * result IoError Page) :=
  let '(b, t) := tick b in
  match pool b !! page_no with
  | Some frame =>
      let b := mk_buf (b_heap b) (<[page_no := mk_frame (f_page frame) (f_dirty frame) t]> (pool b))
                      (capacity b) (clock b) (hits b + 1) (misses b) in
      Val (b, Ok (f_page frame))
  | None =>
      let b := mk_buf (b_heap b) (pool b) (capacity b) (clock b) (hits b) (misses b + 1) in
      match read_page (b_heap b) page_no with
      | Err e => Val (b, Err e)
      | Ok page =>
          match admit_page b page_no page false with
          | Panic => Panic
          | Val (Err e) => Val (b, Err e)
          | Val (Ok b) => Val (b, Ok page)
          end
      end
  end.

(** A write through the [&mut Page] that [get_page] returned. *)
Definition store_page (b : BufferManager) (page_no : Z) (page : Page) : BufferManager :=
  match pool b !! page_no with
  | Some f => set_pool b (<[page_no := mk_frame page (f_dirty f) (f_used f)]> (pool b))
  | None => b
  end.

Definition new_page (b : BufferManager) : res IoError (BufferManager * Z) :=
  let page_no := page_count (b_heap b) in
  let blank := page_new in
  h ← write_page (b_heap b) page_no blank;
  b ← admit_page (set_heap b h) page_no blank true;
  mret (b, page_no).

Definition mark_dirty (b : BufferManager) (page_no : Z) : BufferManager :=
  match pool b !! page_no with
  | Some f => set_pool b (<[page_no := mk_frame (f_page f) true (f_used f)]> (pool b))
  | None => b
  end.

(** The write-back loop of [flush_all]. *)
Fixpoint flush_pages (b : BufferManager) (dirty : list Z) : res IoError BufferManager :=
  match dirty with
  | [] => mret b
  | no :: dirty =>
      match pool b !! no with
      | None => Panic
      | Some f =>
          h ← write_page (b_heap b) no (f_page f);
          flush_pages (set_pool (set_heap b h) (<[no := mk_frame (f_page f) false (f_used f)]> (pool b))) dirty
      end
  end.

Definition flush_all (b : BufferManager) : res IoError BufferManager :=
  let dirty := (filter (fun x => f_dirty (snd x) = true) (map_to_list (pool b))).*1 in
  flush_pages b dirty.

(** * Specification *)

(** The pool and the file stand for the logical pages [ls]: a resident frame
    is the page, and a page that is clean or not resident is on disk. *)
Record buf_rep (b : BufferManager) (ls : list Page) : Prop := {
  rep_disk : exists ds, heap_rep (b_heap b) ds /\ zlen ds = zlen ls /\
    (forall n, (forall f, pool b !! n = Some f -> f_dirty f = false) -> zget ds n = zget ls n);
  rep_frame : forall n f, pool b !! n = Some f ->
    page_wf (f_page f) /\ zget ls n = Some (scrub (f_page f)) /\ f_used f <= clock b;
  rep_used : forall n1 n2 f1 f2, pool b !! n1 = Some f1 -> pool b !! n2 = Some f2 ->
    f_used f1 = f_used f2 -> n1 = n2;
  rep_capacity : 1 <= capacity b /\ resident b <= capacity b;
  rep_scrubbed : forall n p, zget ls n = Some p -> scrub p = p
}.

(** * Proofs *)

Lemma scrub_idemp p : scrub (scrub p) = scrub p.
Proof.
  unfold scrub. cbn. f_equal. rewrite <- list_fmap_compose. apply list_fmap_ext.
  intros _ id _. unfold compose, scrub_id. destruct (id_length id =? 0) eqn:E; cbn; [done|by rewrite E].
Qed.

Lemma read_slots_scrubbed fuel : forall i n buf l,
  read_slots fuel i n buf = Ok l -> Forall (fun x => scrub_id x.1 = x.1) l.
Proof.
  induction fuel as [|fuel IH]; intros i n buf l; cbn [read_slots]; [done|].
  repeat (zcase; try done); try (intros [= <-]; constructor).
  all: destruct (read_slots fuel (i + 1) n buf) as [rest|] eqn:E; cbn; [|done];
    intros [= <-]; constructor; eauto.
  cbn. unfold scrub_id. cbn. by match goal with H : ?x <> 0 |- _ => zfalse (x =? 0) end.
Qed.

Lemma from_bytes_scrubbed buf p : from_bytes buf = Ok p -> scrub p = p.
Proof.
  unfold from_bytes. do 2 (destruct (negb _); [done|]).
  destruct (read_slots _ _ _ _) as [l|] eqn:E; cbn; [|done]. intros [= <-].
  unfold scrub. cbn. f_equal. rewrite <- list_fmap_compose.
  apply read_slots_scrubbed in E. apply Forall_fmap_ext_1. exact E.
Qed.

Lemma heap_rep_scrubbed h ps n p : heap_rep h ps -> zget ps n = Some p -> scrub p = p.
Proof.
  intros (_ & imgs & _ & Himg) (m & -> & Hm)%zget_Some_nat.
  destruct (images_split _ _ _ _ Himg Hm) as (img & i1 & i2 & ps1 & ps2 & _ & _ & _ & (_ & ? & _) & _).
  by eapply from_bytes_scrubbed.
Qed.

Lemma buf_new_rep h ps cap : heap_rep h ps -> buf_rep (buf_new h cap) ps.
Proof.
  intros Hr. split; cbn.
  - exists ps. split_and!; auto.
  - intros n f. by rewrite lookup_empty.
  - intros n1 n2 f1 f2. by rewrite lookup_empty.
  - unfold resident. cbn. rewrite map_size_empty. lia.
  - intros n p. by apply heap_rep_scrubbed with h.
Qed.

Lemma min_used_spec l :
  match min_used l with
  | None => l = []
  | Some x => x ∈ l /\ forall y, y ∈ l -> f_used (snd x) <= f_used (snd y)
  end.
Proof.
  unfold min_used. induction l as [|x l IH] using rev_ind; [done|].
  rewrite foldl_app. cbn. destruct (foldl _ None l) as [y|].
  - destruct IH as [Hy Hmin]. destruct (f_used x.2 <? f_used y.2) eqn:E; zb.
    + split; [set_solver|]. intros z [Hz|Hz%list_elem_of_singleton]%elem_of_app; [|subst; lia].
      specialize (Hmin z Hz). lia.
    + split; [set_solver|]. intros z [Hz|Hz%list_elem_of_singleton]%elem_of_app; [auto|subst; lia].
  - subst l. split; [set_solver|]. intros z Hz%list_elem_of_singleton. subst. lia.
Qed.

(** [evict_one] on a non-empty pool removes the least recently used frame and
    keeps the logical pages. *)
Lemma evict_one_rep b ls :
  buf_rep b ls -> 0 < resident b ->
  exists b' no f, evict_one b = Val (Ok b') /\ buf_rep b' ls /\
    pool b !! no = Some f /\ pool b' = delete no (pool b) /\
    (forall n g, pool b !! n = Some g -> f_used f <= f_used g) /\
    capacity b' = capacity b /\ clock b' = clock b.
Proof.
  intros [(ds & Hh & Hlen & Hds) Hfr Hus [Hc1 Hc2] Hsc] Hres.
  pose proof (min_used_spec (map_to_list (pool b))) as Hmin. unfold evict_one.
  destruct (min_used _) as [[no f]|].
  2:{ apply map_to_list_empty_iff in Hmin. unfold resident in Hres. rewrite Hmin, map_size_empty in Hres. lia. }
  destruct Hmin as [Hin Hmin]. apply elem_of_map_to_list in Hin. rewrite Hin.
  destruct (Hfr _ _ Hin) as (Hwf & Hl & Hu). pose proof (zget_Some_lt _ _ _ Hl).
  assert (forall n g, pool b !! n = Some g -> f_used f <= f_used g) as Hlru.
  { intros n g Hg. apply (Hmin (n, g)). by apply elem_of_map_to_list. }
  assert (Z.of_nat (size (delete no (pool b))) = resident b - 1) as Hsz.
  { unfold resident. rewrite map_size_delete, Hin. unfold resident in Hres. lia. }
  assert (forall b', True -> pool b' = delete no (pool b) -> capacity b' = capacity b ->
          clock b' = clock b -> (exists ds', heap_rep (b_heap b') ds' /\ zlen ds' = zlen ls /\
            (forall n, (forall f, delete no (pool b) !! n = Some f -> f_dirty f = false) -> zget ds' n = zget ls n)) ->
          buf_rep b' ls) as Hbuild.
  { intros b' _ Hp Hc Hk Hd. split; rewrite ?Hp, ?Hc, ?Hk; auto.
    - intros n g [_ Hg]%lookup_delete_Some. auto.
    - intros n1 n2 f1 f2 [_ H1]%lookup_delete_Some [_ H2]%lookup_delete_Some. eauto.
    - unfold resident. rewrite Hp. lia. }
  destruct (f_dirty f) eqn:Hd.
  - destruct (write_page_rep (b_heap b) ds no (f_page f) Hh Hwf) as (h' & Hw & Hh'); [lia|].
    rewrite decide_False in Hh' by lia. cbn. rewrite Hw. cbn. eexists _, no, f.
    split_and!; [reflexivity| |exact Hin|reflexivity|exact Hlru|reflexivity|reflexivity].
    apply Hbuild; [done|reflexivity..|]. eexists. split_and!; [exact Hh'|by rewrite zlen_insert|].
    intros n Hn. destruct (decide (n = no)) as [->|Hne].
    + rewrite Hl. unfold zget. zfalse (no <? 0). apply list_lookup_insert_eq. unfold zlen in *. lia.
    + rewrite <- Hds.
      * unfold zget. zcase; [done|]. by rewrite list_lookup_insert_ne by lia.
      * intros g Hg. apply Hn. by apply lookup_delete_Some.
  - cbn. eexists _, no, f.
    split_and!; [reflexivity| |exact Hin|reflexivity|exact Hlru|reflexivity|reflexivity].
    apply Hbuild; [done|reflexivity..|]. exists ds. split_and!; [exact Hh|exact Hlen|].
    intros n Hn. apply Hds. intros g Hg. destruct (decide (n = no)) as [->|Hne]; [congruence|].
    apply Hn. by apply lookup_delete_Some.
Qed.

(** Adding a frame for a page that is not resident, when there is room. *)
Lemma insert_frame_rep b ls n p d b' :
  buf_rep b ls -> pool b !! n = None -> page_wf p -> zget ls n = Some (scrub p) ->
  resident b < capacity b ->
  b_heap b' = b_heap b -> capacity b' = capacity b -> clock b' = clock b + 1 ->
  pool b' = <[n := mk_frame p d (clock b + 1)]> (pool b) -> buf_rep b' ls.
Proof.
  intros [(ds & Hh & Hlen & Hds) Hfr Hus [Hc1 Hc2] Hsc] Hn Hwf Hl Hroom Eh Ec Ek Ep.
  split; rewrite ?Eh, ?Ec, ?Ek, ?Ep.
  - exists ds. split_and!; [done|done|]. intros m Hm. apply Hds. intros f Hf.
    apply Hm. rewrite lookup_insert_ne; [done|congruence].
  - intros m f [[<- <-]|[Hne Hf]]%lookup_insert_Some; cbn; [split_and!; auto; lia|].
    destruct (Hfr _ _ Hf) as (?&?&?). split_and!; auto. lia.
  - intros n1 n2 f1 f2 [[<- <-]|[? H1]]%lookup_insert_Some [[<- <-]|[? H2]]%lookup_insert_Some; cbn; auto.
    + destruct (Hfr _ _ H2) as (?&?&?). lia.
    + destruct (Hfr _ _ H1) as (?&?&?). lia.
    + eauto.
  - unfold resident in *. rewrite Ep, map_size_insert_None by done. lia.
  - exact Hsc.
Qed.

Lemma admit_page_rep b ls n p d :
  buf_rep b ls -> pool b !! n = None -> page_wf p -> zget ls n = Some (scrub p) ->
  exists b', admit_page b n p d = Val (Ok b') /\ buf_rep b' ls /\
    exists u, pool b' !! n = Some (mk_frame p d u).
Proof.
  intros Hr Hn Hwf Hl. unfold admit_page. rewrite Hn. rewrite bool_decide_eq_false_2 by (by intros [? ?]).
  pose proof (rep_capacity b ls Hr) as [Hc1 Hc2].
  destruct (capacity b <=? resident b) eqn:E; zb; cbn -[evict_one].
  - destruct (evict_one_rep b ls Hr) as (b1 & no & f & He & Hr1 & Hno & Hp1 & _ & Ec & Ek); [lia|].
    rewrite He. cbn. eexists. split; [reflexivity|]. split.
    + eapply (insert_frame_rep b1); [done| |done|done| |reflexivity|reflexivity|reflexivity|reflexivity].
      * rewrite Hp1. apply lookup_delete_None. auto.
      * rewrite Ec. unfold resident. rewrite Hp1, map_size_delete, Hno. unfold resident in *. lia.
    + exists (clock b1 + 1). cbn. apply lookup_insert_eq.
  - eexists. split; [reflexivity|]. split.
    + eapply (insert_frame_rep b); try done; reflexivity || lia.
    + exists (clock b + 1). cbn. apply lookup_insert_eq.
Qed.

(** [get_page] in range: the page it returns is the logical page, it is
    resident afterwards, and the logical pages do not change. *)
Lemma get_page_rep b ls n :
  buf_rep b ls -> 0 <= n < zlen ls ->
  exists b' p, get_page b n = Val (b', Ok p) /\ buf_rep b' ls /\
    page_wf p /\ zget ls n = Some (scrub p) /\
    exists d u, pool b' !! n = Some (mk_frame p d u).
Proof.
  intros Hr Hn. unfold get_page. cbn -[read_page admit_page].
  destruct (pool b !! n) as [f|] eqn:E.
  - destruct (rep_frame b ls Hr n f E) as (Hwf & Hl & Hu). eexists _, (f_page f).
    split; [reflexivity|]. split_and!; [|done|done|exists (f_dirty f), (clock b + 1); cbn; apply lookup_insert_eq].
    destruct Hr as [(ds & Hh & Hlen & Hds) Hfr Hus [Hc1 Hc2] Hsc]. split; cbn.
    + exists ds. split_and!; [done|done|]. intros m Hm. apply Hds. intros g Hg.
      destruct (decide (n = m)) as [<-|Hne].
      * rewrite E in Hg. injection Hg as <-. specialize (Hm _ (lookup_insert_eq _ _ _)). done.
      * apply Hm. by rewrite lookup_insert_ne.
    + intros m g [[<- <-]|[Hne Hg]]%lookup_insert_Some; cbn; [split_and!; auto; lia|].
      destruct (Hfr _ _ Hg) as (?&?&?). split_and!; auto. lia.
    + intros n1 n2 f1 f2 [[<- <-]|[? H1]]%lookup_insert_Some [[<- <-]|[? H2]]%lookup_insert_Some; cbn; auto.
      * destruct (Hfr _ _ H2) as (?&?&?). lia.
      * destruct (Hfr _ _ H1) as (?&?&?). lia.
      * eauto.
    + unfold resident in *. cbn. rewrite map_size_insert_Some by eauto. lia.
    + exact Hsc.
  - set (b0 := mk_buf _ _ _ _ _ _). assert (buf_rep b0 ls) as Hr0.
    { destruct Hr as [H1 H2 H3 H4 H5]. split; auto. intros m g Hg.
      destruct (H2 m g Hg) as (?&?&?). split_and!; auto. cbn. lia. }
    destruct (zget_is_Some ls n Hn) as [p Hp].
    destruct (rep_disk b ls Hr) as (ds & Hh & Hlen & Hds).
    assert (zget ds n = Some p) as Hd.
    { rewrite Hds; [done|]. intros g Hg. congruence. }
    rewrite (read_page_rep _ _ _ _ Hh Hd). pose proof (heap_rep_wf _ _ _ _ Hh Hd) as Hwf.
    destruct (admit_page_rep b0 ls n p false Hr0 E Hwf) as (b' & Ha & Hr' & u & Hu).
    { rewrite Hp. by rewrite (rep_scrubbed b ls Hr n p Hp). }
    rewrite Ha. exists b', p. split_and!; [done|done|done| |by exists false, u].
    by rewrite (rep_scrubbed b ls Hr n p Hp).
Qed.

Lemma get_page_out b ls n :
  buf_rep b ls -> zlen ls <= n ->
  exists b', get_page b n = Val (b', Err UnexpectedEof) /\ buf_rep b' ls.
Proof.
  intros Hr Hn. unfold get_page. cbn -[read_page admit_page].
  destruct (pool b !! n) as [f|] eqn:E.
  { destruct (rep_frame b ls Hr n f E) as (_ & Hl & _). apply zget_Some_lt in Hl. lia. }
  destruct (rep_disk b ls Hr) as (ds & Hh & Hlen & Hds).
  rewrite read_page_out by (rewrite (proj1 Hh); lia). eexists. split; [reflexivity|].
  destruct Hr as [H1 H2 H3 H4 H5]. split; auto. intros m g Hg.
  destruct (H2 m g Hg) as (?&?&?). split_and!; auto. cbn. lia.
Qed.

Lemma page_new_scrub : scrub page_new = page_new.
Proof. done. Qed.

Lemma new_page_rep b ls :
  buf_rep b ls ->
  exists b', new_page b = Val (Ok (b', zlen ls)) /\ buf_rep b' (ls ++ [page_new]).
Proof.
  intros Hr. destruct (rep_disk b ls Hr) as (ds & Hh & Hlen & Hds). pose proof (zlen_nonneg ls).
  assert (page_count (b_heap b) = zlen ls) as Hpc by (rewrite (proj1 Hh); done).
  unfold new_page. rewrite Hpc.
  destruct (write_page_rep (b_heap b) ds (zlen ls) page_new Hh page_new_wf) as (h' & Hw & Hh'); [lia|].
  rewrite decide_True in Hh' by lia. rewrite Hw. cbn -[admit_page]. rewrite page_new_scrub in Hh'.
  assert (forall n f, pool b !! n = Some f -> 0 <= n < zlen ls) as Hkeys.
  { intros n f Hf. destruct (rep_frame b ls Hr n f Hf) as (_ & Hl & _). by eapply zget_Some_lt. }
  assert (buf_rep (set_heap b h') (ls ++ [page_new])) as Hr'.
  { destruct Hr as [_ H2 H3 H4 H5]. split; cbn; auto.
    - exists (ds ++ [page_new]). split_and!; [done|by rewrite !zlen_app, Hlen|]. intros n Hn.
      destruct (decide (n < zlen ls)); [rewrite !zget_app_l by lia; auto|].
      rewrite !zget_app_r by lia. by rewrite Hlen.
    - intros n f Hf. destruct (H2 n f Hf) as (?&?&?). rewrite zget_app_l by (specialize (Hkeys n f Hf); lia). auto.
    - intros n p. destruct (decide (n < zlen ls)); [rewrite zget_app_l by lia; by apply H5|].
      rewrite zget_app_r by lia. intros Hp. destruct (zget_cons_inv _ _ _ _ Hp) as [[_ ->]|[_ Hp']]; [done|].
      by rewrite zget_nil in Hp'. }
  destruct (admit_page_rep _ _ (zlen ls) page_new true Hr') as (b' & Ha & Hrb & _).
  - cbn. destruct (pool b !! zlen ls) as [f|] eqn:E; [|done]. apply Hkeys in E. lia.
  - apply page_new_wf.
  - rewrite zget_app_r, Z.sub_diag by lia. done.
  - rewrite Ha. cbn. eauto.
Qed.

(** Changing a resident page in place and marking it dirty. *)
Lemma modify_rep b ls n p d u p' :
  buf_rep b ls -> pool b !! n = Some (mk_frame p d u) -> page_wf p' ->
  buf_rep (mark_dirty (store_page b n p') n) (<[Z.to_nat n := scrub p']> ls).
Proof.
  intros Hr Hn Hwf. unfold store_page. rewrite Hn. unfold mark_dirty. cbn.
  rewrite lookup_insert_eq. cbn. rewrite insert_insert_eq. unfold set_pool. cbn.
  destruct (rep_frame b ls Hr _ _ Hn) as (_ & Hl & Hu). pose proof (zget_Some_lt _ _ _ Hl). cbn in Hu.
  assert (forall m, m <> n -> zget (<[Z.to_nat n := scrub p']> ls) m = zget ls m) as Hother.
  { intros m Hm. unfold zget. zcase; [done|]. by rewrite list_lookup_insert_ne by lia. }
  assert (zget (<[Z.to_nat n := scrub p']> ls) n = Some (scrub p')) as Hsame.
  { unfold zget. zfalse (n <? 0). apply list_lookup_insert_eq. unfold zlen in *. lia. }
  destruct Hr as [(ds & Hh & Hlen & Hds) Hfr Hus [Hc1 Hc2] Hsc]. split; cbn.
  - exists ds. split_and!; [done|by rewrite zlen_insert|]. intros m Hm.
    destruct (decide (m = n)) as [->|Hne].
    + specialize (Hm _ (lookup_insert_eq _ _ _)). done.
    + rewrite Hother by done. apply Hds. intros g Hg. apply Hm. by rewrite lookup_insert_ne.
  - intros m g [[<- <-]|[Hne Hg]]%lookup_insert_Some; cbn; [done|]. rewrite Hother by done. auto.
  - intros n1 n2 f1 f2 [[<- <-]|[? H1]]%lookup_insert_Some [[<- <-]|[? H2]]%lookup_insert_Some; cbn; auto; intros E.
    + eapply Hus; [exact Hn|exact H2|exact E].
    + eapply Hus; [exact H1|exact Hn|exact E].
    + eauto.
  - unfold resident in *. cbn. rewrite map_size_insert_Some by eauto. lia.
  - intros m q Hq. destruct (decide (m = n)) as [->|Hne].
    + rewrite Hsame in Hq. injection Hq as <-. apply scrub_idemp.
    + rewrite Hother in Hq by done. by apply (Hsc m).
Qed.

(** The write-back loop cleans the listed frames and keeps the logical pages. *)
Lemma flush_pages_rep dirty : forall b ls,
  buf_rep b ls -> (forall n, n ∈ dirty -> is_Some (pool b !! n)) ->
  exists b', flush_pages b dirty = Val (Ok b') /\ buf_rep b' ls /\
    (forall n f, pool b' !! n = Some f -> f_dirty f = true -> (n ∉ dirty) /\ pool b !! n = Some f).
Proof.
  induction dirty as [|no dirty IH]; intros b ls Hr Hin; cbn [flush_pages].
  { exists b. split_and!; [done|done|]. intros n f Hf _. split; [apply not_elem_of_nil|done]. }
  destruct (Hin no) as [f Hf]; [apply elem_of_cons; by left|]. rewrite Hf.
  destruct (rep_frame b ls Hr _ _ Hf) as (Hwf & Hl & Hu). pose proof (zget_Some_lt _ _ _ Hl).
  destruct (rep_disk b ls Hr) as (ds & Hh & Hlen & Hds).
  destruct (write_page_rep (b_heap b) ds no (f_page f) Hh Hwf) as (h' & Hw & Hh'); [lia|].
  rewrite decide_False in Hh' by lia. rewrite Hw. cbn -[flush_pages].
  set (b1 := set_pool _ _). assert (buf_rep b1 ls) as Hr1.
  { destruct Hr as [_ Hfr Hus [Hc1 Hc2] Hsc]. split; cbn.
    - eexists. split_and!; [exact Hh'|by rewrite zlen_insert|]. intros n Hn.
      destruct (decide (n = no)) as [->|Hne].
      + rewrite Hl. unfold zget. zfalse (no <? 0). apply list_lookup_insert_eq. unfold zlen in *. lia.
      + rewrite <- Hds.
        * unfold zget. zcase; [done|]. by rewrite list_lookup_insert_ne by lia.
        * intros g Hg. apply Hn. by rewrite lookup_insert_ne.
    - intros m g [[<- <-]|[Hne Hg]]%lookup_insert_Some; cbn; auto.
    - intros n1 n2 f1 f2 [[<- <-]|[? H1]]%lookup_insert_Some [[<- <-]|[? H2]]%lookup_insert_Some; cbn; auto; intros E.
      + eapply Hus; [exact Hf|exact H2|exact E].
      + eapply Hus; [exact H1|exact Hf|exact E].
      + eauto.
    - unfold resident in *. cbn. rewrite map_size_insert_Some by eauto. lia.
    - exact Hsc. }
  destruct (IH b1 ls Hr1) as (b' & Hfl & Hr' & Hcl).
  { intros n Hn. cbn. destruct (decide (n = no)) as [->|]; [rewrite lookup_insert_eq; eauto|].
    rewrite lookup_insert_ne by done. apply Hin, elem_of_cons. by right. }
  exists b'. split_and!; [done|done|]. intros n g Hg Hd. destruct (Hcl n g Hg Hd) as [Hni Hp].
  cbn in Hp. apply lookup_insert_Some in Hp as [[<- <-]|[Hne Hp]]; [discriminate Hd|].
  split; [|exact Hp]. apply not_elem_of_cons. split; [congruence|exact Hni].
Qed.

Lemma flush_all_rep b ls :
  buf_rep b ls -> exists b', flush_all b = Val (Ok b') /\ buf_rep b' ls /\ heap_rep (b_heap b') ls.
Proof.
  intros Hr. unfold flush_all.
  destruct (flush_pages_rep ((filter (fun x : Z * Frame => f_dirty (x.2) = true) (map_to_list (pool b))).*1) b ls Hr)
    as (b' & Hf & Hr' & Hcl).
  { intros n ((n' & f) & -> & [_ Hin]%list_elem_of_filter)%list_elem_of_fmap.
    apply elem_of_map_to_list in Hin. cbn. eauto. }
  exists b'. split_and!; [done|done|].
  destruct (rep_disk b' ls Hr') as (ds & Hh & Hlen & Hds).
  enough (ds = ls) as <- by done. apply zget_ext; [done|]. intros n _. apply Hds. intros f Hn.
  destruct (f_dirty f) eqn:E; [|done]. exfalso. destruct (Hcl n f Hn E) as [Hni Hp]. apply Hni.
  apply list_elem_of_fmap. exists (n, f). split; [done|]. apply list_elem_of_filter. split; [done|].
  by apply elem_of_map_to_list.
Qed.

(** * Theorems *)

(** C26: cache coherence.  Whatever is resident, dirty or evicted, the pool and
    the file stand for one logical list of pages: [get_page] returns the
    logical page without changing any, [new_page] appends an empty page, a
    write through [get_page]'s reference followed by [mark_dirty] changes only
    that page, [flush_all] leaves exactly the logical pages on disk, and
    residency never exceeds the capacity.  None of them fails or panics. *)
Theorem buffer_coherent b ls :
  buf_rep b ls ->
  resident b <= capacity b /\
  (forall n, 0 <= n < zlen ls -> exists b' p,
     get_page b n = Val (b', Ok p) /\ buf_rep b' ls /\ zget ls n = Some (scrub p) /\
     (forall p', page_wf p' ->
        buf_rep (mark_dirty (store_page b' n p') n) (<[Z.to_nat n := scrub p']> ls))) /\
  (forall n, zlen ls <= n -> exists b', get_page b n = Val (b', Err UnexpectedEof) /\ buf_rep b' ls) /\
  (exists b', new_page b = Val (Ok (b', zlen ls)) /\ buf_rep b' (ls ++ [page_new])) /\
  (exists b', flush_all b = Val (Ok b') /\ buf_rep b' ls /\ heap_rep (b_heap b') ls).
Proof.
  intros Hr. split_and!; auto using new_page_rep, flush_all_rep, get_page_out.
  - apply (rep_capacity b ls Hr).
  - intros n Hn. destruct (get_page_rep b ls n Hr Hn) as (b' & p & Hg & Hr' & Hwf & Hl & d & u & Hp).
    exists b', p. split_and!; auto. intros p' Hwf'. by eapply modify_rep.
Qed.

Lemma buffer_coherent_witness :
  resident (buf_new (heap_open []) 64) <= 64 /\
  exists b', new_page (buf_new (heap_open []) 64) = Val (Ok (b', 0)) /\ buf_rep b' [page_new].
Proof.
  destruct (buffer_coherent (buf_new (heap_open []) 64) []) as (H1 & _ & _ & H2 & _).
  - apply buf_new_rep, heap_open_empty.
  - split; [exact H1|exact H2].
Defined.

(** Eviction is LRU and loses nothing: on a non-empty pool [evict_one]
    removes one frame whose last-access tick is the strict minimum of the
    pool, and the logical pages are unchanged, a dirty victim being written
    back first. *)
Theorem evict_one_lru b ls :
  buf_rep b ls -> 0 < resident b ->
  exists b' no f, evict_one b = Val (Ok b') /\ buf_rep b' ls /\
    pool b !! no = Some f /\ pool b' = delete no (pool b) /\
    forall n g, pool b !! n = Some g -> n <> no -> f_used f < f_used g.
Proof.
  intros Hr Hres. destruct (evict_one_rep b ls Hr Hres) as (b' & no & f & He & Hr' & Hno & Hp & Hmin & _).
  exists b', no, f. split_and!; auto. intros n g Hg Hne. pose proof (Hmin n g Hg).
  destruct (decide (f_used f = f_used g)) as [E|]; [|lia].
  exfalso. apply Hne. eapply (rep_used b ls Hr); [exact Hg|exact Hno|done].
Qed.

Lemma evict_one_lru_witness :
  exists b b', evict_one b = Val (Ok b') /\ buf_rep b' [page_new].
Proof.
  destruct (new_page_rep (buf_new (heap_open []) 64) []) as (b & Hn & Hr).
  { apply buf_new_rep, heap_open_empty. }
  exists b. destruct (evict_one_lru b [page_new] Hr) as (b' & no & f & He & Hr' & _).
  - assert (match new_page (buf_new (heap_open []) 64) with Val (Ok (b, _)) => resident b | _ => 0 end = 1) as E
      by (vm_compute; reflexivity).
    rewrite Hn in E. rewrite E. lia.
  - exists b'. split; [exact He|exact Hr'].
Defined.
