(* ===== verification/Pwal.v ===== *)
(** The physical write-ahead log of crates/engine/src/disk/pwal.rs: the record
    format with its CRC-32, torn-tail recovery, segment rollover, LSN
    assignment, reopening and truncation. *)

From stdpp Require Import gmap sorting list_numbers.
From S2P Require Import Prelude.

Definition SEGMENT_SIZE : Z := Z.shiftl 1 20.

Inductive RecordKind := PageSlotWrite | PageWrite | Checkpoint.

#[export] Instance RecordKind_eq_dec : EqDecision RecordKind.
Proof. solve_decision. Defined.

Definition kind_to_byte (k : RecordKind) : Z :=
  match k with PageSlotWrite => 1 | PageWrite => 2 | Checkpoint => 3 end.

Definition kind_from_byte (b : Z) : option RecordKind :=
  if b =? 1 then Some PageSlotWrite
  else if b =? 2 then Some PageWrite
  else if b =? 3 then Some Checkpoint
  else None.

Record Rec := mk_rec {
  r_lsn : Z;
  r_kind : RecordKind;
  r_page_no : Z;
  r_slot : Z;
  r_payload : list Z
}.

(** * CRC-32 *)

Definition CRC_POLY : Z := 0xEDB88320.

Definition crc_bit (crc : Z) : Z :=
  let mask := wrap 32 (- Z.land crc 1) in
  Z.lxor (Z.shiftr crc 1) (Z.land CRC_POLY mask).

Definition crc_byte (crc b : Z) : Z := Nat.iter 8 crc_bit (Z.lxor crc b).

Definition crc32 (data : list Z) : Z :=
  Z.lxor (foldl crc_byte 0xFFFFFFFF data) 0xFFFFFFFF.

(** * Record format *)

Definition encode_body (r : Rec) : list Z :=
  le_bytes 8 (r_lsn r) ++ [kind_to_byte (r_kind r)] ++ le_bytes 8 (r_page_no r)
  ++ le_bytes 4 (r_slot r) ++ r_payload r.

Definition encode_record (r : Rec) : list Z :=
  let body_len := wrap 32 (8 + 1 + 8 + 4 + zlen (r_payload r)) in
  let body := encode_body r in
  let crc := crc32 body in
  le_bytes 4 body_len ++ le_bytes 4 crc ++ body.

(** The loop of [read_segment] on the bytes from [pos] on.  Each turn consumes
    at least 29 bytes, so the length of the input is enough fuel. *)
Fixpoint read_records (fuel : nat) (bytes : list Z) : list Rec :=
  match fuel with
  | O => []
  | S fuel =>
      if zlen bytes <? 8 then []
      else
        let body_len := le_val (zslice 0 4 bytes) in
        let crc := le_val (zslice 4 8 bytes) in
        let body_start := 8 in
        let body_end := body_start + body_len in
        if (zlen bytes <? body_end) || (body_len <? 8 + 1 + 8 + 4) then []
        else
          let body := zslice body_start body_end bytes in
          if negb (crc32 body =? crc) then []
          else
            let lsn := le_val (zslice 0 8 body) in
            match kind_from_byte (le_val (zslice 8 9 body)) with
            | None => []
            | Some kind =>
                let page_no := le_val (zslice 9 17 body) in
                let slot := le_val (zslice 17 21 body) in
                let payload := zdrop 21 body in
                mk_rec lsn kind page_no slot payload :: read_records fuel (zdrop body_end bytes)
            end
  end.

Definition read_segment (bytes : list Z) : list Rec := read_records (S (length bytes)) bytes.

(** * The log directory

    Segment files by number; a missing file reads as no records. *)
Definition read_segment_file (dir : gmap Z (list Z)) (seg : Z) : list Rec :=
  match dir !! seg with Some bytes => read_segment bytes | None => [] end.

(** Existing segment numbers in ascending order. *)
Definition list_segments (dir : gmap Z (list Z)) : list Z :=
  merge_sort Z.le (map_to_list dir).*1.

Record PhysicalWal := mk_wal {
  w_dir : gmap Z (list Z);
  current_seg : Z;
  current_bytes : Z;
  next_lsn : Z
}.

(** [PhysicalWal::open] on a directory. *)
Definition wal_open (dir : gmap Z (list Z)) : PhysicalWal :=
  let segments := list_segments dir in
  let '(seg, next) :=
    match last segments with
    | Some seg =>
        let max_lsn := foldl (fun m s => foldl (fun m r => Z.max m (r_lsn r)) m (read_segment_file dir s))
                             0 segments in
        (seg, max_lsn + 1)
    | None => (0, 1)
    end in
  let contents := default [] (dir !! seg) in
  mk_wal (<[seg := contents]> dir) seg (zlen contents) next.

Definition roll_segment (w : PhysicalWal) : PhysicalWal :=
  let seg := current_seg w + 1 in
  mk_wal (<[seg := default [] (w_dir w !! seg)]> (w_dir w)) seg 0 (next_lsn w).

Definition append (w : PhysicalWal) (kind : RecordKind) (page_no slot : Z) (payload : list Z) : PhysicalWal * Z :=
  let lsn := next_lsn w in
  let bytes := encode_record (mk_rec lsn kind page_no slot payload) in
  let w := if (0 <? current_bytes w) && (SEGMENT_SIZE <? current_bytes w + zlen bytes)
           then roll_segment w else w in
  let contents := default [] (w_dir w !! current_seg w) in
  (mk_wal (<[current_seg w := contents ++ bytes]> (w_dir w)) (current_seg w)
          (current_bytes w + zlen bytes) (next_lsn w + 1),
   lsn).

(** The records [replay] passes to its callback, in order. *)
Definition replay (w : PhysicalWal) : list Rec :=
  list_segments (w_dir w) ≫= read_segment_file (w_dir w).

(** The search loop of [truncate_before]: the first segment that holds a record
    at or after [lsn]. *)
Fixpoint find_keep (dir : gmap Z (list Z)) (lsn keep : Z) (segments : list Z) : Z :=
  match segments with
  | [] => keep
  | seg :: segments =>
      if existsb (fun r => lsn <=? r_lsn r) (read_segment_file dir seg)
      then Z.min keep seg
      else find_keep dir lsn keep segments
  end.

Definition truncate_before (w : PhysicalWal) (lsn : Z) : PhysicalWal * Z :=
  let segments := list_segments (w_dir w) in
  let keep_from := find_keep (w_dir w) lsn (current_seg w) segments in
  let victims := filter (fun seg => seg < keep_from /\ seg <> current_seg w) segments in
  (mk_wal (foldl (fun d seg => delete seg d) (w_dir w) victims)
          (current_seg w) (current_bytes w) (next_lsn w),
   zlen victims).

(** * Specification *)

Record rec_ok (r : Rec) : Prop := {
  ok_lsn : in_u 64 (r_lsn r);
  ok_page : in_u 64 (r_page_no r);
  ok_slot : in_u 32 (r_slot r);
  ok_payload : Forall is_byte (r_payload r);
  ok_len : 21 + zlen (r_payload r) < 2 ^ 32
}.

Definition encode_all (rs : list Rec) : list Z := concat (encode_record <$> rs).

(** * Proofs: the record format *)

Lemma encode_body_byte r : rec_ok r -> Forall is_byte (encode_body r).
Proof.
  intros [_ _ _ Hp _]. unfold encode_body. rewrite !Forall_app. split_and!; auto with pgrs.
  repeat constructor; destruct (r_kind r); cbn; lia.
Qed.

Lemma zlen_encode_body r : zlen (encode_body r) = 21 + zlen (r_payload r).
Proof. unfold encode_body. autorewrite with zlen. lia. Qed.

Lemma zlen_encode_record r : zlen (encode_record r) = 29 + zlen (r_payload r).
Proof. unfold encode_record. autorewrite with zlen. rewrite zlen_encode_body. lia. Qed.

Lemma kind_byte_roundtrip k : kind_from_byte (kind_to_byte k) = Some k.
Proof. by destruct k. Qed.

(** The five fields of a body, read back. *)
Lemma decode_body r :
  rec_ok r ->
  let body := encode_body r in
  le_val (zslice 0 8 body) = r_lsn r /\
  kind_from_byte (le_val (zslice 8 9 body)) = Some (r_kind r) /\
  le_val (zslice 9 17 body) = r_page_no r /\
  le_val (zslice 17 21 body) = r_slot r /\
  zdrop 21 body = r_payload r.
Proof.
  intros [H1 H2 H3 H4 H5] body. unfold body, encode_body, in_u in *.
  set (l := le_bytes 8 (r_lsn r)). set (k := [kind_to_byte (r_kind r)]).
  set (p := le_bytes 8 (r_page_no r)). set (s := le_bytes 4 (r_slot r)).
  assert (zlen l = 8 /\ zlen k = 1 /\ zlen p = 8 /\ zlen s = 4) as (L1 & L2 & L3 & L4)
    by (unfold l, k, p, s; autorewrite with zlen; lia).
  split_and!.
  - rewrite (zslice_app_prefix l) by lia. by apply le_val_bytes.
  - rewrite (zslice_app_mid l k) by lia.
    replace (le_val k) with (kind_to_byte (r_kind r)) by (unfold k, le_val; cbn; lia). apply kind_byte_roundtrip.
  - rewrite (app_assoc l), (zslice_app_mid (l ++ k) p) by (rewrite ?zlen_app; lia). by apply le_val_bytes.
  - rewrite (app_assoc l), (app_assoc (l ++ k)), (zslice_app_mid ((l ++ k) ++ p) s)
      by (rewrite ?zlen_app; lia). by apply le_val_bytes.
  - rewrite !(app_assoc _ _ (r_payload r)). rewrite zdrop_app_exact; [done|]. rewrite !zlen_app. lia.
Qed.

(** ** The CRC *)

(** The conversion test unfolds the byte loop before the bit step. *)
#[local] Strategy expand [crc_byte].
#[local] Strategy 1000 [crc_bit].

Lemma crc_bit_eq x :
  in_u 32 x -> crc_bit x = Z.lxor (x / 2) (if Z.odd x then CRC_POLY else 0).
Proof.
  intros Hx. unfold crc_bit. rewrite <- Z.div2_spec, Z.div2_div. f_equal.
  change 1 with (Z.ones 1). rewrite Z.land_ones by lia. change (2 ^ 1) with 2.
  rewrite Zmod_odd. by destruct (Z.odd x).
Qed.

Lemma crc_bit_range x : in_u 32 x -> in_u 32 (crc_bit x).
Proof.
  intros Hx. rewrite crc_bit_eq by done. apply lxor_range; [lia| |by destruct (Z.odd x)].
  unfold in_u in *. split; [apply Z.div_pos; lia|]. apply Z.div_lt_upper_bound; lia.
Qed.

(** The high bit of [crc_bit x] is the low bit of [x]: one step is invertible. *)
Lemma crc_bit_high x : in_u 32 x -> Z.testbit (crc_bit x) 31 = Z.odd x.
Proof.
  intros Hx. rewrite crc_bit_eq by done. rewrite Z.lxor_spec.
  replace (Z.testbit (x / 2) 31) with false; [by destruct (Z.odd x)|].
  unfold in_u in Hx. symmetry. rewrite <- Z.div2_div, Z.div2_spec, Z.shiftr_spec by lia.
  change (31 + 1) with 32. destruct (decide (x = 0)) as [->|]; [apply Z.bits_0|].
  apply Z.bits_above_log2; [lia|]. apply Z.log2_lt_pow2; lia.
Qed.

Lemma crc_bit_inj x y : in_u 32 x -> in_u 32 y -> crc_bit x = crc_bit y -> x = y.
Proof.
  intros Hx Hy E. assert (Z.odd x = Z.odd y) as Ho by (by rewrite <- !crc_bit_high, E by done).
  rewrite !crc_bit_eq, Ho in E by done. apply lxor_cancel_r in E.
  rewrite (Z.div_mod x 2), (Z.div_mod y 2), !Zmod_odd by lia. by rewrite E, Ho.
Qed.

Lemma crc_iter_range n x : in_u 32 x -> in_u 32 (Nat.iter n crc_bit x).
Proof. intros. induction n; cbn; auto using crc_bit_range. Qed.

Lemma crc_iter_inj n x y :
  in_u 32 x -> in_u 32 y -> Nat.iter n crc_bit x = Nat.iter n crc_bit y -> x = y.
Proof.
  intros Hx Hy. induction n as [|n IH]; cbn; [done|]. intros E. apply IH.
  eapply crc_bit_inj, E; by apply crc_iter_range.
Qed.

Lemma is_byte_u32 b : is_byte b -> in_u 32 b.
Proof. unfold is_byte, in_u. lia. Qed.

Lemma crc_byte_range c b : in_u 32 c -> is_byte b -> in_u 32 (crc_byte c b).
Proof. intros. apply crc_iter_range, lxor_range; auto using is_byte_u32. lia. Qed.

Lemma crc_byte_inj_crc c1 c2 b :
  in_u 32 c1 -> in_u 32 c2 -> is_byte b -> crc_byte c1 b = crc_byte c2 b -> c1 = c2.
Proof.
  intros H1 H2 Hb%is_byte_u32 E. unfold crc_byte in E.
  apply crc_iter_inj in E; [|by apply lxor_range..]. by apply lxor_cancel_r in E.
Qed.

Lemma crc_byte_inj_byte c b1 b2 :
  in_u 32 c -> is_byte b1 -> is_byte b2 -> crc_byte c b1 = crc_byte c b2 -> b1 = b2.
Proof.
  intros H1 Hb1%is_byte_u32 Hb2%is_byte_u32 E. unfold crc_byte in E.
  apply crc_iter_inj in E; [|by apply lxor_range..]. by apply lxor_cancel_l in E.
Qed.

Lemma crc_fold_range l : forall c, in_u 32 c -> Forall is_byte l -> in_u 32 (foldl crc_byte c l).
Proof.
  induction l as [|b l IH]; cbn; intros c Hc Hl; [done|]. apply Forall_cons in Hl as [Hb Hl].
  apply IH; [by apply crc_byte_range|done].
Qed.

Lemma crc32_range l : Forall is_byte l -> in_u 32 (crc32 l).
Proof. intros. apply lxor_range; [lia| |done]. by apply crc_fold_range. Qed.

Lemma crc_fold_inj l : forall c1 c2,
  in_u 32 c1 -> in_u 32 c2 -> Forall is_byte l -> foldl crc_byte c1 l = foldl crc_byte c2 l -> c1 = c2.
Proof.
  induction l as [|b l IH]; cbn; intros c1 c2 H1 H2 Hl E; [done|]. apply Forall_cons in Hl as [Hb Hl].
  apply IH in E; [|by apply crc_byte_range..|done].
  by eapply crc_byte_inj_crc.
Qed.

(** Changing one byte of the data changes the CRC. *)
Lemma crc32_update l (k : nat) b b0 :
  Forall is_byte l -> l !! k = Some b0 -> is_byte b -> b <> b0 -> crc32 (<[k := b]> l) <> crc32 l.
Proof.
  intros Hl Hk Hb Hne E. unfold crc32 in E. apply lxor_cancel_r in E.
  rewrite <- (take_drop_middle _ _ _ Hk) in E at 2.
  rewrite insert_take_drop in E by (by eapply lookup_lt_Some).
  rewrite !foldl_app in E. cbn [foldl] in E.
  assert (is_byte b0) by (eapply Forall_lookup_1; eauto).
  assert (in_u 32 (foldl crc_byte 0xFFFFFFFF (take k l))) by (apply crc_fold_range; [done|by apply Forall_take]).
  apply crc_fold_inj in E; [|by apply crc_byte_range..|by apply Forall_drop].
  apply Hne. by eapply crc_byte_inj_byte.
Qed.

(** ** Reading a segment back *)

Lemma encode_record_split r rest :
  rec_ok r ->
  let bytes := encode_record r ++ rest in
  le_val (zslice 0 4 bytes) = 21 + zlen (r_payload r) /\
  le_val (zslice 4 8 bytes) = crc32 (encode_body r) /\
  zslice 8 (29 + zlen (r_payload r)) bytes = encode_body r /\
  zdrop (29 + zlen (r_payload r)) bytes = rest.
Proof.
  intros Hr bytes. unfold bytes, encode_record, wrap. pose proof (ok_len r Hr). pose proof (zlen_nonneg (r_payload r)).
  replace (8 + 1 + 8 + 4 + zlen (r_payload r)) with (21 + zlen (r_payload r)) by lia.
  rewrite Z.mod_small by lia. pose proof (crc32_range _ (encode_body_byte r Hr)) as Hc.
  set (a := le_bytes 4 _). set (c := le_bytes 4 (crc32 _)).
  assert (zlen a = 4 /\ zlen c = 4) as [L1 L2] by (unfold a, c; by rewrite !zlen_le_bytes).
  pose proof (zlen_encode_body r). rewrite <- !app_assoc. split_and!.
  - rewrite (zslice_app_prefix a) by lia. apply le_val_bytes. lia.
  - rewrite (zslice_app_mid a c) by lia. apply le_val_bytes. exact Hc.
  - rewrite (app_assoc a), (zslice_app_mid (a ++ c) (encode_body r)) by (rewrite ?zlen_app; lia). done.
  - rewrite !app_assoc, zdrop_app_exact; [done|]. rewrite !zlen_app. lia.
Qed.

Lemma read_records_cons fuel r rest :
  rec_ok r -> read_records (S fuel) (encode_record r ++ rest) = r :: read_records fuel rest.
Proof.
  intros Hr. destruct (encode_record_split r rest Hr) as (E1 & E2 & E3 & E4).
  pose proof (zlen_nonneg (r_payload r)). pose proof (zlen_nonneg rest).
  assert (zlen (encode_record r ++ rest) = 29 + zlen (r_payload r) + zlen rest) as L
    by (rewrite zlen_app, zlen_encode_record; lia).
  cbn [read_records]. zfalse (zlen (encode_record r ++ rest) <? 8). rewrite E1, E2.
  replace (8 + (21 + zlen (r_payload r))) with (29 + zlen (r_payload r)) by lia.
  zfalse (zlen (encode_record r ++ rest) <? 29 + zlen (r_payload r)).
  zfalse (21 + zlen (r_payload r) <? 8 + 1 + 8 + 4). cbn [orb].
  rewrite E3, E4, Z.eqb_refl. cbn [negb].
  destruct (decode_body r Hr) as (-> & -> & -> & -> & ->). by destruct r.
Qed.

(** Nothing is read from a proper prefix of a record. *)
Lemma read_records_torn fuel r torn rest :
  rec_ok r -> encode_record r = torn ++ rest -> rest <> [] -> read_records fuel torn = [].
Proof.
  intros Hr E Hne. destruct fuel as [|fuel]; [done|]. cbn [read_records].
  zcase; [done|]. destruct (encode_record_split r [] Hr) as (E1 & _). rewrite app_nil_r, E in E1.
  replace (zslice 0 4 torn) with (zslice 0 4 (torn ++ rest)).
  2:{ unfold zslice, zdrop, ztake. rewrite !drop_0. apply take_app_le. unfold zlen in *. lia. }
  rewrite E1. apply (f_equal zlen) in E. rewrite zlen_encode_record, zlen_app in E.
  destruct rest as [|x rest]; [done|]. rewrite zlen_cons in E. pose proof (zlen_nonneg rest).
  by ztrue (zlen torn <? 8 + (21 + zlen (r_payload r))).
Qed.

Lemma read_records_all rs tail : forall fuel,
  Forall rec_ok rs -> (length rs < fuel)%nat ->
  (forall f, read_records f tail = []) ->
  read_records fuel (encode_all rs ++ tail) = rs.
Proof.
  induction rs as [|r rs IH]; intros fuel Hok Hf Ht; [apply Ht|].
  inversion Hok; subst. destruct fuel as [|fuel]; [cbn in Hf; lia|].
  unfold encode_all in *. cbn [fmap list_fmap concat]. rewrite <- app_assoc, read_records_cons by done.
  f_equal. apply IH; [done|cbn in Hf; lia|done].
Qed.

Lemma length_encode_all rs : (length rs <= length (encode_all rs))%nat.
Proof.
  induction rs as [|r rs IH]; [done|]. unfold encode_all in *. cbn.
  rewrite length_app. pose proof (zlen_encode_record r). pose proof (zlen_nonneg (r_payload r)).
  unfold zlen in *. lia.
Qed.

Lemma read_segment_tail rs tail :
  Forall rec_ok rs -> (forall f, read_records f tail = []) ->
  read_segment (encode_all rs ++ tail) = rs.
Proof.
  intros Hok Ht. apply read_records_all; [done| |done].
  pose proof (length_encode_all rs). rewrite length_app. lia.
Qed.

Lemma read_segment_encode rs : Forall rec_ok rs -> read_segment (encode_all rs) = rs.
Proof.
  intros Hok. rewrite <- (app_nil_r (encode_all rs)). apply read_segment_tail; [done|]. by intros [|f].
Qed.

(** A record with one byte of its CRC or body changed is not read. *)
Lemma read_records_corrupt fuel r (k : nat) b b0 rest :
  rec_ok r -> encode_record r !! k = Some b0 -> (4 <= k)%nat -> is_byte b -> b <> b0 ->
  read_records fuel (<[k := b]> (encode_record r) ++ rest) = [].
Proof.
  intros Hr Hk H4 Hb Hne. destruct fuel as [|fuel]; [done|].
  pose proof (ok_len r Hr). pose proof (zlen_nonneg (r_payload r)). pose proof (zlen_nonneg rest).
  pose proof (encode_body_byte r Hr) as Hbb. pose proof (zlen_encode_body r) as Lb.
  pose proof (crc32_range _ Hbb) as Hcr. unfold in_u in Hcr.
  unfold encode_record, wrap in *.
  replace (8 + 1 + 8 + 4 + zlen (r_payload r)) with (21 + zlen (r_payload r)) in * by lia.
  rewrite Z.mod_small in * by lia.
  set (a := le_bytes 4 (21 + zlen (r_payload r))) in *. set (c := le_bytes 4 (crc32 (encode_body r))) in *.
  assert (length a = 4%nat /\ length c = 4%nat) as [La Lc] by (unfold a, c; by rewrite !length_le_bytes).
  assert (zlen a = 4 /\ zlen c = 4) as [La' Lc'] by (unfold zlen; lia).
  assert (le_val a = 21 + zlen (r_payload r)) as Va by (apply le_val_bytes; lia).
  assert (le_val c = crc32 (encode_body r)) as Vc by (apply le_val_bytes; lia).
  (* whatever changed, the length prefix is intact and the CRC no longer matches *)
  assert (forall c' body', length c' = 4%nat -> length body' = length (encode_body r) ->
            crc32 body' <> le_val c' -> read_records (S fuel) ((a ++ c' ++ body') ++ rest) = []) as Hstop.
  { intros c' body' Lc'' Lbd Hmis. assert (zlen c' = 4) by (unfold zlen; lia).
    assert (zlen body' = 21 + zlen (r_payload r)) by (rewrite <- Lb; unfold zlen; lia).
    cbn [read_records]. rewrite <- !app_assoc. zcase; [done|].
    pose proof (zslice_app_prefix a (c' ++ body' ++ rest) 4 ltac:(lia)) as E0. pose proof (zslice_app_mid a c' (body' ++ rest) 4 8 ltac:(lia) ltac:(lia)) as E4. rewrite E0, E4, Va. zcase; [done|].
    rewrite (app_assoc a), (zslice_app_mid (a ++ c') body') by (rewrite ?zlen_app; lia).
    by zfalse (crc32 body' =? le_val c'). }
  destruct (decide (k < 8)%nat).
  - rewrite insert_app_r_alt by lia. rewrite lookup_app_r in Hk by lia.
    rewrite insert_app_l by lia. rewrite lookup_app_l in Hk by lia.
    apply Hstop; [by rewrite length_insert|done|]. rewrite <- Vc. intros E.
    apply le_val_inj in E; [|by rewrite length_insert|apply le_bytes_byte|
                            apply Forall_insert; [apply le_bytes_byte|done]].
    apply (f_equal (fun l => l !! (k - length a)%nat)) in E.
    rewrite list_lookup_insert_eq in E by lia. congruence.
  - rewrite insert_app_r_alt by lia. rewrite lookup_app_r in Hk by lia.
    rewrite insert_app_r_alt by lia. rewrite lookup_app_r in Hk by lia.
    apply Hstop; [done|by rewrite length_insert|]. rewrite Vc. by eapply crc32_update.
Qed.

(** * Proofs: the log *)

(** The log holds the segments [segs], numbered from [lo]. *)
Record wal_rep (w : PhysicalWal) (lo : Z) (segs : list (list Rec)) : Prop := {
  rep_nonempty : segs <> [];
  rep_current : current_seg w = lo + zlen segs - 1;
  rep_dir : forall n, w_dir w !! n = encode_all <$> zget segs (n - lo);
  rep_bytes : current_bytes w = zlen (encode_all (default [] (last segs)));
  rep_ok : Forall rec_ok (concat segs);
  rep_sorted : StronglySorted Z.lt (r_lsn <$> concat segs);
  rep_lsn : 1 <= next_lsn w /\ Forall (fun r => 0 <= r_lsn r < next_lsn w) (concat segs);
  rep_max : match last (concat segs) with
            | Some r => next_lsn w = r_lsn r + 1
            | None => next_lsn w = 1
            end;
  rep_last : zlen segs = 1 \/ last segs <> Some []
}.

Lemma StronglySorted_seqZ lo n : StronglySorted Z.le (seqZ lo n).
Proof.
  destruct (decide (0 <= n)); [|rewrite seqZ_nil by lia; constructor].
  revert lo. apply (natlike_ind (fun n => forall lo, StronglySorted Z.le (seqZ lo n))); [|..|lia].
  - intros lo. rewrite seqZ_nil by lia. constructor.
  - intros m Hm IH lo. rewrite seqZ_cons by lia. constructor.
    + rewrite Z.pred_succ. apply IH.
    + apply Forall_forall. intros x Hx%elem_of_seqZ. lia.
Qed.

(** The segments of a directory whose files are numbered consecutively. *)
Lemma list_segments_seqZ (dir : gmap Z (list Z)) lo n :
  (forall k, is_Some (dir !! k) <-> lo <= k < lo + n) -> list_segments dir = seqZ lo n.
Proof.
  intros H. unfold list_segments.
  apply (StronglySorted_unique Z.le);
    [apply (StronglySorted_merge_sort Z.le); apply _|apply StronglySorted_seqZ|].
  etrans; [apply merge_sort_Permutation|]. apply NoDup_Permutation.
  - apply NoDup_fst_map_to_list.
  - apply NoDup_seqZ.
  - intros k. rewrite elem_of_seqZ, <- H, list_elem_of_fmap. split.
    + intros ([k' v] & -> & Hin%elem_of_map_to_list). cbn. eauto.
    + intros [v Hv]. exists (k, v). by rewrite elem_of_map_to_list.
Qed.

Lemma wal_rep_segments w lo segs :
  wal_rep w lo segs -> list_segments (w_dir w) = seqZ lo (zlen segs).
Proof.
  intros Hr. apply list_segments_seqZ. intros k. rewrite (rep_dir _ _ _ Hr), fmap_is_Some. split.
  - intros [x Hx%zget_Some_lt]. lia.
  - intros Hk. apply zget_is_Some. lia.
Qed.

Lemma wal_rep_file w lo segs k :
  wal_rep w lo segs -> read_segment_file (w_dir w) k = default [] (zget segs (k - lo)).
Proof.
  intros Hr. unfold read_segment_file. rewrite (rep_dir _ _ _ Hr).
  destruct (zget segs (k - lo)) as [rs|] eqn:E; [|done]. cbn. apply read_segment_encode.
  apply zget_Some_nat in E as (m & _ & Hm). pose proof (rep_ok _ _ _ Hr) as Hok.
  rewrite <- (take_drop_middle _ _ _ Hm), concat_app in Hok. cbn in Hok.
  by apply Forall_app in Hok as [_ [Hok _]%Forall_app].
Qed.

Lemma bind_ext_in {A B} (f g : A -> list B) (l : list A) :
  (forall x, x ∈ l -> f x = g x) -> l ≫= f = l ≫= g.
Proof.
  induction l as [|x l IH]; intros H; [done|]. cbn. rewrite H by (apply elem_of_cons; by left).
  f_equal. apply IH. intros y Hy. apply H, elem_of_cons. by right.
Qed.

Lemma bind_segments (segs : list (list Rec)) : forall lo,
  seqZ lo (zlen segs) ≫= (fun k => default [] (zget segs (k - lo))) = concat segs.
Proof.
  induction segs as [|s segs IH]; intros lo; [done|].
  rewrite zlen_cons. pose proof (zlen_nonneg segs). rewrite seqZ_cons by lia. cbn.
  rewrite Z.sub_diag. change (zget (s :: segs) 0) with (Some s). cbn. f_equal.
  replace (Z.pred (1 + zlen segs)) with (zlen segs) by lia.
  rewrite <- (IH (Z.succ lo)). apply bind_ext_in.
  intros k Hk%elem_of_seqZ. f_equal. replace (k - lo) with (1 + (k - Z.succ lo)) by lia.
  apply zget_cons_S. lia.
Qed.

Lemma replay_rep w lo segs : wal_rep w lo segs -> replay w = concat segs.
Proof.
  intros Hr. unfold replay. rewrite (wal_rep_segments _ _ _ Hr), <- (bind_segments segs lo).
  apply bind_ext_in. intros k _. by apply wal_rep_file.
Qed.

Lemma encode_all_app rs1 rs2 : encode_all (rs1 ++ rs2) = encode_all rs1 ++ encode_all rs2.
Proof. unfold encode_all. by rewrite fmap_app, concat_app. Qed.

Lemma encode_all_one r : encode_all [r] = encode_record r.
Proof. unfold encode_all. apply app_nil_r. Qed.

Lemma StronglySorted_snoc l x :
  StronglySorted Z.lt l -> Forall (fun y => y < x) l -> StronglySorted Z.lt (l ++ [x]).
Proof.
  induction 1 as [|y l Hs IH Hf]; cbn; intros Hx; [repeat constructor|].
  apply Forall_cons in Hx as [Hy Hx]. constructor; [by apply IH|].
  apply Forall_app. split; [done|by constructor].
Qed.

(** The invariant after the record [r] with the next LSN has been added as
    [segs']. *)
Lemma wal_rep_extend w w' lo segs segs' r :
  wal_rep w lo segs -> rec_ok r -> r_lsn r = next_lsn w ->
  concat segs' = concat segs ++ [r] -> segs' <> [] -> last segs' <> Some [] ->
  current_seg w' = lo + zlen segs' - 1 -> next_lsn w' = next_lsn w + 1 ->
  (forall n, w_dir w' !! n = encode_all <$> zget segs' (n - lo)) ->
  current_bytes w' = zlen (encode_all (default [] (last segs'))) ->
  wal_rep w' lo segs'.
Proof.
  intros Hr Hok Hlsn Hc Hne Hl Hcur Hnext Hdir Hby.
  destruct (rep_lsn _ _ _ Hr) as [Hge Hlt]. split; auto; rewrite Hc.
  - apply Forall_app. split; [apply (rep_ok _ _ _ Hr)|by constructor].
  - rewrite fmap_app. cbn. apply StronglySorted_snoc; [apply (rep_sorted _ _ _ Hr)|].
    apply Forall_fmap. eapply Forall_impl; [exact Hlt|]. cbn. lia.
  - split; [lia|]. apply Forall_app. split; [|constructor; [lia|constructor]].
    eapply Forall_impl; [exact Hlt|]. cbn. lia.
  - rewrite last_snoc. lia.
Qed.

Lemma append_rep w lo segs kind page_no slot payload :
  wal_rep w lo segs ->
  rec_ok (mk_rec (next_lsn w) kind page_no slot payload) ->
  exists w' segs', append w kind page_no slot payload = (w', next_lsn w) /\
    wal_rep w' lo segs' /\
    concat segs' = concat segs ++ [mk_rec (next_lsn w) kind page_no slot payload].
Proof.
  intros Hr Hok. set (r := mk_rec _ _ _ _ _) in *. unfold append. fold r.
  pose proof (rep_dir _ _ _ Hr) as Hdir. pose proof (rep_current _ _ _ Hr) as Hcur.
  pose proof (rep_bytes _ _ _ Hr) as Hby. pose proof (rep_nonempty _ _ _ Hr) as Hne.
  destruct (exists_last Hne) as (init & lst & ->). clear Hne.
  assert (zlen (init ++ [lst]) = zlen init + 1) as L by (rewrite zlen_app; done).
  rewrite last_snoc in Hby. cbn in Hby. rewrite L in Hcur.
  destruct ((0 <? current_bytes w) && (SEGMENT_SIZE <? current_bytes w + zlen (encode_record r))) eqn:Eroll.
  - assert (w_dir w !! (current_seg w + 1) = None) as Hnone.
    { rewrite Hdir, zget_ge by lia. done. }
    eexists _, ((init ++ [lst]) ++ [[r]]). split; [reflexivity|].
    cbn -[encode_record]. rewrite Hnone. cbn -[encode_record]. rewrite lookup_insert_eq. cbn -[encode_record]. split.
    + eapply (wal_rep_extend w _ lo _ _ r Hr Hok); cbn -[encode_record]; auto.
      * rewrite !concat_app. cbn. by rewrite ?app_nil_r, <- ?app_assoc.
      * by destruct init.
      * by rewrite last_snoc.
      * rewrite !zlen_app, !zlen_cons. change (zlen []) with 0. lia.
      * intros n. rewrite insert_insert_eq. destruct (decide (n = current_seg w + 1)) as [->|Hne].
        -- rewrite lookup_insert_eq. rewrite zget_app_r by lia.
           replace (current_seg w + 1 - lo - zlen (init ++ [lst])) with 0 by lia.
           change (zget [[r]] 0) with (Some [r]). cbn [fmap option_fmap option_map]. by rewrite encode_all_one.
        -- rewrite lookup_insert_ne by done. rewrite Hdir. f_equal.
           destruct (decide (n - lo < zlen (init ++ [lst]))); [symmetry; apply zget_app_l; lia|].
           rewrite (zget_ge (init ++ [lst])) by lia. symmetry. apply zget_ge.
           rewrite (zlen_app (init ++ [lst])). change (zlen [[r]]) with 1. lia.
      * rewrite last_snoc. change (default [] (Some [r])) with [r]. by rewrite encode_all_one.
    + rewrite !concat_app. cbn. by rewrite ?app_nil_r, <- ?app_assoc.
  - assert (w_dir w !! current_seg w = Some (encode_all lst)) as Hsome.
    { rewrite Hdir, zget_app_r by lia. by replace (current_seg w - lo - zlen init) with 0 by lia. }
    eexists _, (init ++ [lst ++ [r]]). split; [reflexivity|]. rewrite Hsome. cbn -[encode_record]. split.
    + eapply (wal_rep_extend w _ lo _ _ r Hr Hok); cbn -[encode_record]; auto.
      * rewrite !concat_app. cbn. by rewrite ?app_nil_r, <- ?app_assoc.
      * by destruct init.
      * rewrite last_snoc. by destruct lst.
      * rewrite zlen_app. change (zlen [lst ++ [r]]) with 1. lia.
      * intros n. destruct (decide (n = current_seg w)) as [->|Hne].
        -- rewrite lookup_insert_eq, zget_app_r by lia.
           replace (current_seg w - lo - zlen init) with 0 by lia.
           change (zget [lst ++ [r]] 0) with (Some (lst ++ [r])). cbn [fmap option_fmap option_map].
           by rewrite encode_all_app, encode_all_one.
        -- rewrite lookup_insert_ne by done. rewrite Hdir. f_equal.
           destruct (decide (n - lo < zlen init)); [by rewrite !zget_app_l by lia|].
           rewrite !zget_ge; rewrite ?zlen_app; try done; change (zlen [lst]) with 1; change (zlen [lst ++ [r]]) with 1; lia.
      * rewrite last_snoc. change (default [] (Some (lst ++ [r]))) with (lst ++ [r]). by rewrite encode_all_app, zlen_app, Hby, encode_all_one.
    + rewrite !concat_app. cbn. by rewrite ?app_nil_r, <- ?app_assoc.
Qed.

(** ** Opening *)

Lemma wal_open_empty : wal_rep (wal_open ∅) 0 [[]].
Proof.
  assert (list_segments ∅ = []) as E.
  { unfold list_segments. by rewrite map_to_list_empty. }
  unfold wal_open. rewrite E. cbn. split; cbn; auto; try done; try (split; [lia|constructor]); try constructor.
  intros n. destruct (decide (n = 0)) as [->|Hne]; [by rewrite lookup_insert_eq|].
  rewrite lookup_insert_ne, lookup_empty by done.
  destruct (zget [[]] (n - 0)) as [x|] eqn:Ex; [|done].
  apply zget_cons_inv in Ex as [[? _]|[_ Ex]]; [lia|]. by rewrite zget_nil in Ex.
Qed.

Lemma foldl_max_app (l : list Rec) : forall m x,
  foldl (fun m r => Z.max m (r_lsn r)) m (l ++ [x]) =
    Z.max (foldl (fun m r => Z.max m (r_lsn r)) m l) (r_lsn x).
Proof. intros. by rewrite foldl_app. Qed.

(** The recovered maximum is the last LSN of a sorted log. *)
Lemma foldl_max_sorted (l : list Rec) :
  StronglySorted Z.lt (r_lsn <$> l) -> Forall (fun r => 0 <= r_lsn r) l ->
  foldl (fun m r => Z.max m (r_lsn r)) 0 l = match last l with Some r => r_lsn r | None => 0 end.
Proof.
  induction l as [|r l IH] using rev_ind; [done|]. intros Hs [Hl Hr]%Forall_app.
  rewrite fmap_app in Hs. cbn in Hs. rewrite foldl_max_app, last_snoc.
  assert (Forall (fun x => r_lsn x < r_lsn r) l) as Hlt.
  { apply Forall_forall. intros x Hx.
    eapply (StronglySorted_app_1_elem_of Z.lt _ _ (r_lsn x) (r_lsn r) Hs); [|apply elem_of_cons; by left].
    apply list_elem_of_fmap. eauto. }
  apply StronglySorted_app_1_l in Hs. rewrite (IH Hs Hl). apply Forall_cons in Hr as [Hr _].
  destruct (last l) as [q|] eqn:E; [|lia]. rewrite Forall_forall in Hlt.
  specialize (Hlt q). apply last_Some_elem_of in E. specialize (Hlt E). lia.
Qed.

Lemma foldl_bind (f : Z -> list Rec) (segs : list Z) : forall m,
  foldl (fun m s => foldl (fun m r => Z.max m (r_lsn r)) m (f s)) m segs =
  foldl (fun m r => Z.max m (r_lsn r)) m (segs ≫= f).
Proof. induction segs as [|s segs IH]; intros m; [done|]. cbn. by rewrite foldl_app, IH. Qed.

(** Reopening the directory of a log gives back exactly that log. *)
Lemma wal_reopen w lo segs : wal_rep w lo segs -> wal_open (w_dir w) = w.
Proof.
  intros Hr. unfold wal_open. pose proof (rep_nonempty _ _ _ Hr) as Hne.
  assert (0 < zlen segs) as Hpos.
  { destruct segs; [done|]. rewrite zlen_cons. pose proof (zlen_nonneg segs). lia. }
  rewrite (foldl_bind (read_segment_file (w_dir w))). fold (replay w). rewrite (replay_rep _ _ _ Hr).
  destruct (rep_lsn _ _ _ Hr) as [_ Hlt].
  rewrite foldl_max_sorted; [|apply (rep_sorted _ _ _ Hr)|eapply Forall_impl; [exact Hlt|]; cbn; lia].
  assert (last (list_segments (w_dir w)) = Some (current_seg w)) as Hlast.
  { rewrite (wal_rep_segments _ _ _ Hr), (rep_current _ _ _ Hr).
    replace (zlen segs) with (Z.of_nat (S (Z.to_nat (zlen segs - 1)))) at 1 by lia. rewrite seqZ_S.
    rewrite last_snoc. f_equal. lia. }
  rewrite Hlast. destruct (exists_last Hne) as (init & lst & ->).
  assert (w_dir w !! current_seg w = Some (encode_all lst)) as Hsome.
  { rewrite (rep_dir _ _ _ Hr), (rep_current _ _ _ Hr), zget_app_r by (rewrite zlen_app; change (zlen [lst]) with 1; lia).
    rewrite zlen_app. change (zlen [lst]) with 1.
    by replace (lo + (zlen init + 1) - 1 - lo - zlen init) with 0 by lia. }
  rewrite Hsome. change (default [] (Some (encode_all lst))) with (encode_all lst). rewrite insert_id by done.
  pose proof (rep_bytes _ _ _ Hr) as Hby. rewrite last_snoc in Hby.
  change (default [] (Some lst)) with lst in Hby. rewrite <- Hby.
  pose proof (rep_max _ _ _ Hr) as Hmax. destruct w as [dir seg by' nxt]. cbn in *.
  destruct (last (concat (init ++ [lst]))); rewrite Hmax; done.
Qed.

(** ** Truncation *)

Lemma find_keep_rep w lo segs lsn keep :
  wal_rep w lo segs -> forall segs1 segs2, segs = segs1 ++ segs2 ->
  exists dropped rest, segs2 = dropped ++ rest /\
    Forall (fun r => r_lsn r < lsn) (concat dropped) /\
    find_keep (w_dir w) lsn keep (seqZ (lo + zlen segs1) (zlen segs2)) =
      match rest with [] => keep | _ => Z.min keep (lo + zlen segs1 + zlen dropped) end.
Proof.
  intros Hr segs1 segs2. revert segs1. induction segs2 as [|s segs2 IH]; intros segs1 Hsplit.
  { exists [], []. split_and!; [done|constructor|done]. }
  rewrite zlen_cons. pose proof (zlen_nonneg segs2). rewrite seqZ_cons by lia. cbn [find_keep].
  rewrite (wal_rep_file _ _ _ _ Hr), Hsplit, zget_app_r by lia.
  replace (lo + zlen segs1 - lo - zlen segs1) with 0 by lia. change (zget (s :: segs2) 0) with (Some s).
  change (default [] (Some s)) with s.
  destruct (existsb (fun r => lsn <=? r_lsn r) s) eqn:E.
  - exists [], (s :: segs2). split_and!; [done|constructor|]. cbn. f_equal. change (zlen []) with 0. lia.
  - destruct (IH (segs1 ++ [s])) as (dropped & rest & -> & Hd & Hk).
    { by rewrite Hsplit, <- app_assoc. }
    exists (s :: dropped), rest. split_and!; [done| |].
    + cbn. apply Forall_app. split; [|done]. apply Forall_forall. intros r Hin.
      destruct (decide (r_lsn r < lsn)); [done|]. exfalso.
      assert (existsb (fun r => lsn <=? r_lsn r) s = true); [|congruence].
      apply existsb_exists. exists r. split; [by apply list_elem_of_In|lia].
    + rewrite zlen_app in Hk. change (zlen [s]) with 1 in Hk.
      replace (Z.succ (lo + zlen segs1)) with (lo + (zlen segs1 + 1)) by lia.
      replace (Z.pred (1 + zlen (dropped ++ rest))) with (zlen (dropped ++ rest)) by lia.
      rewrite Hk, zlen_cons. destruct rest; [done|]. f_equal. lia.
Qed.

Lemma foldl_delete_lookup (victims : list Z) : forall (dir : gmap Z (list Z)) n,
  foldl (fun d seg => delete seg d) dir victims !! n =
    if decide (n ∈ victims) then None else dir !! n.
Proof.
  induction victims as [|v victims IH]; intros dir n; cbn.
  { rewrite decide_False; [done|apply not_elem_of_nil]. }
  rewrite IH. destruct (decide (n ∈ victims)).
  - rewrite decide_True; [done|]. apply elem_of_cons. by right.
  - destruct (decide (n = v)) as [->|Hne].
    + rewrite lookup_delete_eq, decide_True; [done|]. apply elem_of_cons. by left.
    + rewrite lookup_delete_ne by done. rewrite decide_False; [done|].
      intros [?|?]%elem_of_cons; done.
Qed.

Lemma victims_seqZ lo n k cur :
  0 <= k < n -> cur = lo + n - 1 ->
  filter (fun seg => seg < lo + k /\ seg <> cur) (seqZ lo n) = seqZ lo k.
Proof.
  intros Hk ->. replace (seqZ lo n) with (seqZ lo k ++ seqZ (lo + k) (n - k)).
  2:{ rewrite <- seqZ_app by lia. f_equal. lia. }
  rewrite filter_app, filter_id, filter_none, app_nil_r; [done|..];
    apply Forall_forall; intros x Hx%elem_of_seqZ; lia.
Qed.

Lemma StronglySorted_concat_drop (segs1 segs2 : list (list Rec)) :
  StronglySorted Z.lt (r_lsn <$> concat (segs1 ++ segs2)) -> StronglySorted Z.lt (r_lsn <$> concat segs2).
Proof. rewrite concat_app, fmap_app. apply StronglySorted_app_1_r. Qed.

(** Dropping leading segments, never the last one. *)
Lemma wal_rep_drop w lo dropped rest w' :
  wal_rep w lo (dropped ++ rest) -> rest <> [] ->
  current_seg w' = current_seg w -> current_bytes w' = current_bytes w -> next_lsn w' = next_lsn w ->
  (forall n, w_dir w' !! n = if decide (lo <= n < lo + zlen dropped) then None else w_dir w !! n) ->
  wal_rep w' (lo + zlen dropped) rest.
Proof.
  intros Hr Hne Hs Hb Hn Hdir. pose proof (zlen_nonneg dropped).
  destruct (exists_last Hne) as (init & lst & ->).
  assert (dropped = [] \/ lst <> []) as Hlast.
  { destruct (rep_last _ _ _ Hr) as [H1|H1].
    - left. rewrite !zlen_app in H1. change (zlen [lst]) with 1 in H1. pose proof (zlen_nonneg init).
      destruct dropped as [|x dropped]; [done|]. rewrite zlen_cons in H1. pose proof (zlen_nonneg dropped). lia.
    - right. rewrite app_assoc, last_snoc in H1. congruence. }
  pose proof (rep_ok _ _ _ Hr) as Hok. pose proof (rep_lsn _ _ _ Hr) as [Hge Hlt].
  pose proof (rep_max _ _ _ Hr) as Hmax. rewrite concat_app in Hok, Hlt, Hmax.
  apply Forall_app in Hok as [_ Hok]. apply Forall_app in Hlt as [_ Hlt].
  split; auto.
  - rewrite Hs, (rep_current _ _ _ Hr), zlen_app. lia.
  - intros n. rewrite Hdir. case_decide.
    + rewrite zget_neg by lia. done.
    + rewrite (rep_dir _ _ _ Hr). destruct (decide (n < lo)); [by rewrite !zget_neg by lia|].
      rewrite zget_app_r by lia. do 2 f_equal. lia.
  - rewrite Hb, (rep_bytes _ _ _ Hr), app_assoc, !last_snoc. done.
  - by eapply StronglySorted_concat_drop, (rep_sorted _ _ _ Hr).
  - rewrite Hn. auto.
  - rewrite Hn. destruct Hlast as [->|Hlast]; [exact Hmax|].
    destruct (exists_last Hlast) as (l' & x & ->).
    rewrite concat_app in *. cbn in *. rewrite app_nil_r, !app_assoc in *. rewrite !last_snoc in *. done.
  - rewrite last_snoc. destruct Hlast as [->|Hlast]; [|right; congruence].
    pose proof (rep_last _ _ _ Hr) as H1. cbn in H1. by rewrite last_snoc in H1.
Qed.

(** [truncate_before] drops whole leading segments of records before [lsn]. *)
Lemma truncate_rep w lo segs lsn :
  wal_rep w lo segs ->
  exists w' dropped rest, truncate_before w lsn = (w', zlen dropped) /\
    segs = dropped ++ rest /\ wal_rep w' (lo + zlen dropped) rest /\
    Forall (fun r => r_lsn r < lsn) (concat dropped).
Proof.
  intros Hr. unfold truncate_before. rewrite (wal_rep_segments _ _ _ Hr).
  destruct (find_keep_rep _ _ _ lsn (current_seg w) Hr [] segs eq_refl) as (dr & rest & Hsplit & Hd & Hk).
  change (zlen []) with 0 in Hk. rewrite Z.add_0_r in Hk. rewrite Hk. clear Hk.
  pose proof (rep_current _ _ _ Hr) as Hcur. pose proof (rep_nonempty _ _ _ Hr) as Hne.
  (* the kept suffix: [rest], or the last segment when nothing is kept *)
  assert (exists d r, (segs = d ++ r) /\ (r <> []) /\ Forall (fun r => r_lsn r < lsn) (concat d) /\
            (match rest with [] => current_seg w | _ => Z.min (current_seg w) (lo + zlen dr) end) = lo + zlen d)
    as (d & r & Hs & Hr' & Hfd & ->).
  { destruct rest as [|s rest].
    - rewrite app_nil_r in Hsplit. subst dr. destruct (exists_last Hne) as (init & lst & ->).
      exists init, [lst]. split_and!; [done|done| |].
      + rewrite concat_app in Hd. by apply Forall_app in Hd as [Hd _].
      + rewrite Hcur, zlen_app. change (zlen [lst]) with 1. lia.
    - exists dr, (s :: rest). split_and!; [done|done|done|].
      rewrite Hcur, Hsplit, zlen_app, zlen_cons. pose proof (zlen_nonneg rest). lia. }
  assert (zlen d < zlen segs) as Hlt.
  { rewrite Hs, zlen_app. destruct r as [|x r]; [done|]. rewrite zlen_cons. pose proof (zlen_nonneg r). lia. }
  pose proof (zlen_nonneg d).
  rewrite (victims_seqZ lo (zlen segs) (zlen d) (current_seg w)) by lia.
  eexists _, d, r. split_and!; [|done| |done].
  - f_equal. unfold zlen at 1. rewrite length_seqZ. lia.
  - rewrite Hs in Hr. eapply (wal_rep_drop w); [exact Hr|done|done|done|done|].
    intros n. cbn. rewrite foldl_delete_lookup. apply decide_ext. rewrite elem_of_seqZ. done.
Qed.

(** The logs a process can reach: a fresh directory, appends, truncations and
    restarts. *)
Inductive wal_reachable : PhysicalWal -> Prop :=
| reach_open : wal_reachable (wal_open ∅)
| reach_append w kind page_no slot payload :
    wal_reachable w -> rec_ok (mk_rec (next_lsn w) kind page_no slot payload) ->
    wal_reachable (fst (append w kind page_no slot payload))
| reach_truncate w lsn : wal_reachable w -> wal_reachable (fst (truncate_before w lsn))
| reach_reopen w : wal_reachable w -> wal_reachable (wal_open (w_dir w)).

Lemma wal_reachable_rep w : wal_reachable w -> exists lo segs, wal_rep w lo segs.
Proof.
  induction 1 as [|w kind page_no slot payload _ (lo & segs & Hr) Hok|w lsn _ (lo & segs & Hr)|w _ (lo & segs & Hr)].
  - exists 0, [[]]. apply wal_open_empty.
  - destruct (append_rep w lo segs kind page_no slot payload Hr Hok) as (w' & segs' & -> & Hr' & _). cbn. eauto.
  - destruct (truncate_rep w lo segs lsn Hr) as (w' & d & r & -> & _ & Hr' & _). cbn. eauto.
  - rewrite (wal_reopen _ _ _ Hr). eauto.
Qed.

(** * Theorems *)

(** C28: torn-tail recovery.  A segment that holds any sequence of well-formed
    records followed by any proper prefix of a further record (a crash in the
    middle of a write) reads back as exactly that sequence. *)
Theorem pwal_torn_tail rs r torn rest :
  Forall rec_ok rs -> rec_ok r -> encode_record r = torn ++ rest -> rest <> [] ->
  read_segment (encode_all rs ++ torn) = rs.
Proof.
  intros Hrs Hr E Hne. apply read_segment_tail; [done|].
  intros f. by eapply read_records_torn.
Qed.

Definition sample_rec (lsn : Z) (payload : str) : Rec := mk_rec lsn PageSlotWrite 0 0 payload.

Ltac solve_rec_ok :=
  split; [done|done|done| |done]; cbn [r_payload sample_rec];
  apply Forall_forall; intros x Hx;
  repeat (apply elem_of_cons in Hx as [->|Hx]; [unfold is_byte; cbn; lia|]); by apply elem_of_nil in Hx.

Lemma pwal_torn_tail_witness :
  read_segment (encode_all [sample_rec 1 (lit "good1")] ++ ztake 20 (encode_record (sample_rec 2 (lit "torn"))))
    = [sample_rec 1 (lit "good1")].
Proof.
  apply (pwal_torn_tail _ (sample_rec 2 (lit "torn")) _ (zdrop 20 (encode_record (sample_rec 2 (lit "torn"))))).
  - constructor; [|constructor]. solve_rec_ok.
  - solve_rec_ok.
  - symmetry. apply ztake_zdrop.
  - vm_compute. discriminate.
Defined.

(** CRC protection.  If one byte of the CRC field or of the body of a
    record in the middle of a segment is replaced by a different byte, replay
    stops there: it returns exactly the records before it, whatever follows. *)
Theorem pwal_corruption_stops rs r rest (k : nat) b b0 :
  Forall rec_ok rs -> rec_ok r -> encode_record r !! k = Some b0 -> (4 <= k)%nat ->
  is_byte b -> b <> b0 ->
  read_segment (encode_all rs ++ <[k := b]> (encode_record r) ++ rest) = rs.
Proof.
  intros Hrs Hr Hk H4 Hb Hne. apply read_segment_tail; [done|].
  intros f. by eapply read_records_corrupt.
Qed.

Lemma pwal_corruption_stops_witness :
  read_segment (encode_all [sample_rec 1 (lit "good1")]
                ++ <[10%nat := 255]> (encode_record (sample_rec 2 (lit "bad")))
                ++ encode_record (sample_rec 3 (lit "after"))) = [sample_rec 1 (lit "good1")].
Proof.
  apply (pwal_corruption_stops _ (sample_rec 2 (lit "bad")) _ 10 255 0).
  - constructor; [|constructor]. solve_rec_ok.
  - solve_rec_ok.
  - vm_compute. reflexivity.
  - lia.
  - unfold is_byte; lia.
  - lia.
Defined.

(** C27: the log is an append-only sequence.  In every reachable log (any mix
    of appends, segment rollovers, truncations and restarts) LSNs are strictly
    increasing and below the next one, reopening the directory restores the
    log exactly, and an append returns the next LSN and adds exactly its
    record at the end of what replay yields, also after a restart. *)
Theorem pwal_append_replay w :
  wal_reachable w ->
  StronglySorted Z.lt (r_lsn <$> replay w) /\
  Forall (fun r => 0 <= r_lsn r < next_lsn w) (replay w) /\
  wal_open (w_dir w) = w /\
  (forall kind page_no slot payload,
     rec_ok (mk_rec (next_lsn w) kind page_no slot payload) ->
     exists w', append w kind page_no slot payload = (w', next_lsn w) /\
       replay w' = replay w ++ [mk_rec (next_lsn w) kind page_no slot payload] /\
       replay (wal_open (w_dir w')) = replay w').
Proof.
  intros (lo & segs & Hr)%wal_reachable_rep. rewrite (replay_rep _ _ _ Hr). split_and!.
  - apply (rep_sorted _ _ _ Hr).
  - apply (rep_lsn _ _ _ Hr).
  - by eapply wal_reopen.
  - intros kind page_no slot payload Hok.
    destruct (append_rep w lo segs kind page_no slot payload Hr Hok) as (w' & segs' & Ha & Hr' & Hc).
    exists w'. split_and!; [done| |by rewrite (wal_reopen _ _ _ Hr')].
    by rewrite (replay_rep _ _ _ Hr'), Hc.
Qed.

Lemma pwal_append_replay_witness :
  exists w', append (wal_open ∅) PageSlotWrite 0 0 (lit "good1") = (w', 1) /\
    replay w' = [sample_rec 1 (lit "good1")].
Proof.
  destruct (pwal_append_replay (wal_open ∅)) as (_ & _ & _ & H).
  - constructor.
  - destruct (H PageSlotWrite 0 0 (lit "good1")) as (w' & H1 & H2 & _).
    + change (next_lsn (wal_open ∅)) with 1. solve_rec_ok.
    + exists w'. split; [exact H1|exact H2].
Defined.

(** Truncation keeps the tail.  [truncate_before lsn] removes only whole
    leading segments, every record it removes has an LSN below [lsn], and the
    records that remain replay in the same order; the tail segment is kept. *)
Theorem pwal_truncate_keeps_tail w lsn :
  wal_reachable w ->
  exists w' n dropped, truncate_before w lsn = (w', n) /\
    replay w = dropped ++ replay w' /\
    Forall (fun r => r_lsn r < lsn) dropped /\
    next_lsn w' = next_lsn w /\ current_seg w' = current_seg w /\
    is_Some (w_dir w' !! current_seg w').
Proof.
  intros (lo & segs & Hr)%wal_reachable_rep.
  destruct (truncate_rep w lo segs lsn Hr) as (w' & d & r & Ht & Hs & Hr' & Hd).
  exists w', (zlen d), (concat d). split_and!; [done| |done|..].
  - by rewrite (replay_rep _ _ _ Hr), (replay_rep _ _ _ Hr'), Hs, concat_app.
  - unfold truncate_before in Ht. by injection Ht as <- _.
  - unfold truncate_before in Ht. by injection Ht as <- _.
  - rewrite (rep_dir _ _ _ Hr'), fmap_is_Some. apply zget_is_Some. rewrite (rep_current _ _ _ Hr').
    pose proof (rep_nonempty _ _ _ Hr'). destruct r; [done|]. rewrite zlen_cons. pose proof (zlen_nonneg r). lia.
Qed.

Lemma pwal_truncate_keeps_tail_witness :
  exists w' n dropped, truncate_before (wal_open ∅) 1 = (w', n) /\
    replay (wal_open ∅) = dropped ++ replay w'.
Proof.
  destruct (pwal_truncate_keeps_tail (wal_open ∅) 1) as (w' & n & d & H1 & H2 & _).
  - constructor.
  - exists w', n, d. split; [exact H1|exact H2].
Defined.

(** The directory a crash leaves: one good record, then a torn one. *)
Definition crash_dir : gmap Z (list Z) :=
  {[ 0 := encode_record (sample_rec 1 (lit "good1"))
          ++ ztake 20 (encode_record (sample_rec 2 (lit "torn-tail"))) ]}.

(** [open] does not cut a torn tail off before it appends.  After the
    crash directory is reopened, an append succeeds and returns LSN 2, but the
    record is behind the torn bytes: the next restart replays only the record
    written before the crash, and hands out LSN 2 again. *)
Theorem pwal_append_after_torn_tail_lost :
  let w := wal_open crash_dir in
  let '(w1, lsn) := append w PageSlotWrite 0 1 (lit "committed") in
  lsn = 2 /\
  replay (wal_open (w_dir w1)) = [sample_rec 1 (lit "good1")] /\
  next_lsn (wal_open (w_dir w1)) = 2.
Proof. vm_compute. auto. Qed.
