(* ===== verification/Database.v ===== *)
(** The catalog of crates/engine/src/storage.rs ([Database]): the namespace of
    relations, commit versions, cursors, sequences, advisory locks and large
    objects.  The fields no operation of these groups touches (roles, schemas,
    functions, triggers, ...) are left out. *)

From stdpp Require Import gmap sorting.
From S2P Require Import Prelude Utf8 Types Float Index Storage.

#[local] Open Scope Z_scope.

(** * State *)

Inductive CommentObject :=
| CRelation (name : str)
| CColumn (table column : str).

#[export] Instance comment_eq_dec : EqDecision CommentObject.
Proof. solve_decision. Defined.
#[export] Instance comment_countable : Countable CommentObject.
Proof.
  refine (inj_countable' (fun o => match o with CRelation n => inl n | CColumn t c => inr (t, c) end)
            (fun s => match s with inl n => CRelation n | inr (t, c) => CColumn t c end) _).
  by intros [].
Defined.

Definition Fields : Type := list (str * DataType).

Record Sequence := mk_seq {
  s_name : str;
  s_start : Z;
  s_increment : Z;
  s_last_value : Z;
  s_called : bool
}.

Record Cursor := mk_cursor { cu_fields : Fields; cu_rows : list (list Value); cu_position : Z }.

(** [Select] is the parsed query, which the catalog only stores. *)
Record View (Select : Type) := mk_view { v_name : str; v_select : Select; v_fields : Fields }.
Arguments mk_view {Select}.
Arguments v_name {Select}.
Arguments v_select {Select}.
Arguments v_fields {Select}.

Record MaterializedView (Select : Type) := mk_mview {
  mv_name : str;
  mv_select : Select;
  mv_fields : Fields;
  mv_rows : list (list Value)
}.
Arguments mk_mview {Select}.
Arguments mv_name {Select}.
Arguments mv_select {Select}.
Arguments mv_fields {Select}.
Arguments mv_rows {Select}.

Record Database (Expr Select : Type) := mk_db {
  tables : gmap str (Table Expr);
  views : gmap str (View Select);
  materialized_views : gmap str (MaterializedView Select);
  cursors : gmap str Cursor;
  schemas : gset str;
  search_path : list str;
  system_settings : gmap str str;
  comments : gmap CommentObject str;
  security_labels : gmap (str * CommentObject) str;
  sequences : gmap str Sequence;
  advisory_locks : gset (Z * Z);
  commit_version : Z;
  table_versions : gmap str Z;
  large_objects : gmap Z (list Z);
  next_lo_oid : Z
}.
Arguments mk_db {Expr Select}.
Arguments tables {Expr Select}.
Arguments views {Expr Select}.
Arguments materialized_views {Expr Select}.
Arguments cursors {Expr Select}.
Arguments schemas {Expr Select}.
Arguments search_path {Expr Select}.
Arguments system_settings {Expr Select}.
Arguments comments {Expr Select}.
Arguments security_labels {Expr Select}.
Arguments sequences {Expr Select}.
Arguments advisory_locks {Expr Select}.
Arguments commit_version {Expr Select}.
Arguments table_versions {Expr Select}.
Arguments large_objects {Expr Select}.
Arguments next_lo_oid {Expr Select}.

(** [i64] addition, which wraps around in the release profile. *)
Definition add_i64 (a b : Z) : Z := to_signed 64 (a + b).

(** [String] order and [Vec::sort]. *)
Definition str_le (a b : str) : Prop := str_cmp a b <> Gt.
#[export] Instance str_le_dec : RelDecision str_le.
Proof. intros a b. unfold str_le. apply _. Defined.
Definition sort_names (l : list str) : list str := merge_sort str_le l.

(** A name between double quotes, as [format!] puts it in messages. *)
Definition quoted (name : str) : str := 34 :: name ++ [34].

(** * Sequences *)

(** [Sequence::new], [next_value] and [restart] *)
Definition seq_new (name : str) (start increment : Z) : Sequence := mk_seq name start increment start false.
Definition next_value (s : Sequence) : run (Sequence * Z) :=
  if s_called s then
    let v := add_i64 (s_last_value s) (s_increment s) in
    Val (mk_seq (s_name s) (s_start s) (s_increment s) v true, v)
  else Val (mk_seq (s_name s) (s_start s) (s_increment s) (s_last_value s) true, s_last_value s).
Definition seq_restart (s : Sequence) (value : Z) : Sequence := mk_seq (s_name s) value (s_increment s) value false.

Definition serial_sequence_name (table column : str) : str := table ++ lit "_" ++ column ++ lit "_seq".

Definition SYSTEM_SCHEMAS : list str := lit <$> ["public"; "pg_catalog"; "information_schema"]%string.
Definition DEFAULT_PATH : list str := lit <$> ["$user"; "public"]%string.

Section database.
Context {Expr Select : Type}.
Abbreviation DB := (Database Expr Select).
Implicit Types db : DB.

(** [Database::default]: the fields modelled here. *)
Definition db_new : DB :=
  mk_db ∅ ∅ ∅ ∅ (list_to_set SYSTEM_SCHEMAS) DEFAULT_PATH ∅ ∅ ∅ ∅ ∅ 0 ∅ ∅ 16384.

Definition set_tables db x : DB :=
  mk_db x (views db) (materialized_views db) (cursors db) (schemas db) (search_path db) (system_settings db)
    (comments db) (security_labels db) (sequences db)
    (advisory_locks db) (commit_version db) (table_versions db) (large_objects db) (next_lo_oid db).
Definition set_views db x : DB :=
  mk_db (tables db) x (materialized_views db) (cursors db) (schemas db) (search_path db) (system_settings db)
    (comments db) (security_labels db) (sequences db)
    (advisory_locks db) (commit_version db) (table_versions db) (large_objects db) (next_lo_oid db).
Definition set_mviews db x : DB :=
  mk_db (tables db) (views db) x (cursors db) (schemas db) (search_path db) (system_settings db)
    (comments db) (security_labels db) (sequences db)
    (advisory_locks db) (commit_version db) (table_versions db) (large_objects db) (next_lo_oid db).
Definition set_cursors db x : DB :=
  mk_db (tables db) (views db) (materialized_views db) x (schemas db) (search_path db) (system_settings db)
    (comments db) (security_labels db) (sequences db)
    (advisory_locks db) (commit_version db) (table_versions db) (large_objects db) (next_lo_oid db).
Definition set_comments db x y : DB :=
  mk_db (tables db) (views db) (materialized_views db) (cursors db) (schemas db) (search_path db) (system_settings db)
    x y (sequences db)
    (advisory_locks db) (commit_version db) (table_versions db) (large_objects db) (next_lo_oid db).
Definition set_schemas db x y : DB :=
  mk_db (tables db) (views db) (materialized_views db) (cursors db) x y (system_settings db)
    (comments db) (security_labels db) (sequences db)
    (advisory_locks db) (commit_version db) (table_versions db) (large_objects db) (next_lo_oid db).
Definition set_settings db x : DB :=
  mk_db (tables db) (views db) (materialized_views db) (cursors db) (schemas db) (search_path db) x
    (comments db) (security_labels db) (sequences db)
    (advisory_locks db) (commit_version db) (table_versions db) (large_objects db) (next_lo_oid db).
Definition set_sequences db x : DB :=
  mk_db (tables db) (views db) (materialized_views db) (cursors db) (schemas db) (search_path db) (system_settings db)
    (comments db) (security_labels db) x
    (advisory_locks db) (commit_version db) (table_versions db) (large_objects db) (next_lo_oid db).
Definition set_advisory db x : DB :=
  mk_db (tables db) (views db) (materialized_views db) (cursors db) (schemas db) (search_path db) (system_settings db)
    (comments db) (security_labels db) (sequences db)
    x (commit_version db) (table_versions db) (large_objects db) (next_lo_oid db).
Definition set_versions db x y : DB :=
  mk_db (tables db) (views db) (materialized_views db) (cursors db) (schemas db) (search_path db) (system_settings db)
    (comments db) (security_labels db) (sequences db)
    (advisory_locks db) x y (large_objects db) (next_lo_oid db).
Definition set_lo db x y : DB :=
  mk_db (tables db) (views db) (materialized_views db) (cursors db) (schemas db) (search_path db) (system_settings db)
    (comments db) (security_labels db) (sequences db)
    (advisory_locks db) (commit_version db) (table_versions db) x y.

(** ** Commit versions *)

Definition table_version db (table : str) : Z := default 0 (table_versions db !! table).

Definition has_conflicting_commit db (write_set : gset str) (snapshot : Z) : bool :=
  existsb (fun table => snapshot <? table_version db table) (elements write_set).

Definition adopt_commit_state db (source : DB) : DB := set_versions db (commit_version source) (table_versions source).

(** The counter is a [u64] that starts at 0 and grows by one per commit. *)
Definition record_commit db (write_set : gset str) : DB * Z :=
  let v := commit_version db + 1 in
  (set_versions db v (foldl (fun m table => <[table := v]> m) (table_versions db) (elements write_set)), v).

(** ** Relations *)

Definition contains_table db (name : str) : bool := bool_decide (is_Some (tables db !! name)).
Definition contains_view db (name : str) : bool := bool_decide (is_Some (views db !! name)).
Definition contains_mview db (name : str) : bool := bool_decide (is_Some (materialized_views db !! name)).

Definition already_exists (name : str) : str := lit "relation " ++ quoted name ++ lit " already exists".
Definition does_not_exist (name : str) : str := lit "relation " ++ quoted name ++ lit " does not exist".

Definition create_table db (t : Table Expr) : result str DB :=
  if contains_table db (t_name t) || contains_view db (t_name t) || contains_mview db (t_name t)
  then Err (already_exists (t_name t))
  else Ok (set_tables db (<[t_name t := t]> (tables db))).

(** [retain] on the comments and labels of a relation and of its columns. *)
Definition comment_of (name : str) (o : CommentObject) : bool :=
  match o with CRelation r => str_eqb r name | CColumn t _ => str_eqb t name end.
Definition drop_relation_comments db (name : str) : DB :=
  set_comments db (filter (fun '(o, _) => comment_of name o = false) (comments db))
    (filter (fun '((_, o), _) => comment_of name o = false) (security_labels db)).

Definition drop_table db (name : str) : DB * bool :=
  match tables db !! name with
  | Some _ => (drop_relation_comments (set_tables db (delete name (tables db))) name, true)
  | None => (db, false)
  end.

Definition create_view db (v : View Select) (or_replace : bool) : result str DB :=
  if contains_table db (v_name v) || contains_mview db (v_name v) then Err (already_exists (v_name v))
  else if contains_view db (v_name v) && negb or_replace then Err (already_exists (v_name v))
  else Ok (set_views db (<[v_name v := v]> (views db))).

Definition drop_view db (name : str) : DB * bool :=
  match views db !! name with
  | Some _ => (drop_relation_comments (set_views db (delete name (views db))) name, true)
  | None => (db, false)
  end.

Definition create_materialized_view db (v : MaterializedView Select) (if_not_exists : bool) : result str (DB * bool) :=
  if contains_table db (mv_name v) || contains_view db (mv_name v) then Err (already_exists (mv_name v))
  else if contains_mview db (mv_name v) then
    if if_not_exists then Ok (db, false) else Err (already_exists (mv_name v))
  else Ok (set_mviews db (<[mv_name v := v]> (materialized_views db)), true).

Definition replace_materialized_view_rows db (name : str) (rows : list (list Value)) : result str DB :=
  match materialized_views db !! name with
  | None => Err (lit "materialized view " ++ quoted name ++ lit " does not exist")
  | Some v => Ok (set_mviews db (<[name := mk_mview (mv_name v) (mv_select v) (mv_fields v) rows]> (materialized_views db)))
  end.

Definition drop_materialized_view db (name : str) : DB * bool :=
  match materialized_views db !! name with
  | Some _ => (drop_relation_comments (set_mviews db (delete name (materialized_views db))) name, true)
  | None => (db, false)
  end.

Definition set_comment db (o : CommentObject) (c : option str) : DB :=
  set_comments db (match c with Some c => <[o := c]> (comments db) | None => delete o (comments db) end)
    (security_labels db).
Definition set_security_label db (provider : str) (o : CommentObject) (c : option str) : DB :=
  set_comments db (comments db)
    (match c with Some c => <[(provider, o) := c]> (security_labels db) | None => delete (provider, o) (security_labels db) end).

Definition table_names db : list str := sort_names (map_to_list (tables db)).*1.
Definition view_names db : list str := sort_names (map_to_list (views db)).*1.
Definition materialized_view_names db : list str := sort_names (map_to_list (materialized_views db)).*1.

(** The sequences of the columns of table [from], as [rename_table] finds them:
    by the prefix and suffix of their names. *)
Definition renamed (from : str) (kv : str * Sequence) : option (str * Sequence) :=
  rest ← strip_prefix (kv.1) (from ++ lit "_"); col ← strip_suffix rest (lit "_seq"); Some (col, kv.2).
Definition rekey (from to : str) (m : gmap str Sequence) (cv : str * Sequence) : gmap str Sequence :=
  let name := serial_sequence_name to (cv.1) in
  <[name := mk_seq name (s_start (cv.2)) (s_increment (cv.2)) (s_last_value (cv.2)) (s_called (cv.2))]>
    (delete (serial_sequence_name from (cv.1)) m).
Definition rename_table db (from to : str) : result str DB :=
  match tables db !! from with
  | None => Err (does_not_exist from)
  | Some t =>
      if contains_table db to then Err (already_exists to)
      else
        let t := mk_table to (columns t) (rows t) (row_ids t) (row_pos t) (next_row_id t) (indexes t)
          (unique_constraints t) (storage_page_size t) (storage_pages t) (row_storage_pages t) (row_storage_bytes t)
          (vacuum_count t) (compaction_count t) (toast t) in
        let db := set_tables db (<[to := t]> (delete from (tables db))) in
        Ok (set_sequences db (foldl (rekey from to) (sequences db) (omap (renamed from) (map_to_list (sequences db)))))
  end.

(** ** Schemas and settings *)

Definition create_schema db (name : str) (if_not_exists : bool) : result str (DB * bool) :=
  if bool_decide (name ∈ schemas db) then
    if if_not_exists then Ok (db, false) else Err (lit "schema " ++ quoted name ++ lit " already exists")
  else Ok (set_schemas db ({[ name ]} ∪ schemas db) (search_path db), true).

Definition drop_schema db (name : str) (if_exists : bool) : result str (DB * bool) :=
  if bool_decide (name ∈ SYSTEM_SCHEMAS) then Err (lit "cannot drop schema " ++ quoted name)
  else if bool_decide (name ∈ schemas db)
  then Ok (set_schemas db (schemas db ∖ {[ name ]}) (filter (fun e => e <> name) (search_path db)), true)
  else if if_exists then Ok (db, false)
  else Err (lit "schema " ++ quoted name ++ lit " does not exist").

(** [s.trim_matches(c)] *)
Fixpoint trim_start_matches (c : Z) (s : str) : str :=
  match s with
  | x :: s' => if x =? c then trim_start_matches c s' else s
  | [] => []
  end.
Definition trim_matches (c : Z) (s : str) : str :=
  reverse (trim_start_matches c (reverse (trim_start_matches c s))).

Definition set_search_path db (value : str) : DB :=
  let paths := filter (fun s => s <> []) ((fun part => trim_matches 39 (trim_matches 34 (trim part))) <$> Utf8.split 44 value) in
  match paths with
  | [] => db
  | _ => set_schemas db (schemas db) paths
  end.

Definition current_schema db : str :=
  default (lit "public")
    (List.find (fun name => negb (str_eqb name (lit "$user")) && bool_decide (name ∈ schemas db)) (search_path db)).

Definition ascii_lowercase (s : str) : str := to_ascii_lower <$> s.
Definition set_system_setting db (name value : str) : DB :=
  let key := ascii_lowercase name in
  if str_eqb key (lit "search_path") then set_search_path db value
  else set_settings db (<[key := value]> (system_settings db)).
Definition reset_system_setting db (name : option str) : DB :=
  match name with
  | Some name =>
      let key := ascii_lowercase name in
      if str_eqb key (lit "search_path") then set_schemas db (schemas db) DEFAULT_PATH
      else set_settings db (delete key (system_settings db))
  | None => set_schemas (set_settings db ∅) (schemas db) DEFAULT_PATH
  end.
Definition system_setting db (name : str) : option str := system_settings db !! ascii_lowercase name.

(** ** Cursors *)

Definition declare_cursor db (name : str) (fields : Fields) (rows : list (list Value)) : result str DB :=
  if bool_decide (is_Some (cursors db !! name)) then Err (lit "cursor " ++ quoted name ++ lit " already exists")
  else Ok (set_cursors db (<[name := mk_cursor fields rows 0]> (cursors db))).

(** [rows[start..end]] panics out of range. *)
Definition fetch_cursor db (name : str) (count : option Z) : res str (DB * (Fields * list (list Value))) :=
  match cursors db !! name with
  | None => fail (lit "cursor " ++ quoted name ++ lit " does not exist")
  | Some c =>
      let remaining := saturating_sub (zlen (cu_rows c)) (cu_position c) in
      let take := Z.min (default remaining count) remaining in
      let start := cu_position c in
      let stop := start + take in
      match get_range (cu_rows c) start stop with
      | None => Panic
      | Some rows =>
          mret (set_cursors db (<[name := mk_cursor (cu_fields c) (cu_rows c) stop]> (cursors db)), (cu_fields c, rows))
      end
  end.

(** ** Sequences *)

Definition create_sequence db (name : str) (if_not_exists : bool) (start increment : Z) : result str (DB * bool) :=
  if increment =? 0 then Err (lit "INCREMENT must not be zero")
  else if bool_decide (is_Some (sequences db !! name)) then
    if if_not_exists then Ok (db, false) else Err (already_exists name)
  else Ok (set_sequences db (<[name := seq_new name start increment]> (sequences db)), true).

Definition alter_sequence db (name : str) (restart increment : option Z) : result str DB :=
  match sequences db !! name with
  | None => Err (does_not_exist name)
  | Some s =>
      if bool_decide (increment = Some 0) then Err (lit "INCREMENT must not be zero")
      else
        let s := mk_seq (s_name s) (s_start s) (default (s_increment s) increment) (s_last_value s) (s_called s) in
        let s := match restart with Some v => seq_restart s v | None => s end in
        Ok (set_sequences db (<[name := s]> (sequences db)))
  end.

Definition drop_sequence db (name : str) (if_exists : bool) : result str (DB * bool) :=
  match sequences db !! name with
  | Some _ => Ok (set_sequences db (delete name (sequences db)), true)
  | None => if if_exists then Ok (db, false) else Err (lit "sequence " ++ quoted name ++ lit " does not exist")
  end.

Definition next_sequence_value db (name : str) : res str (DB * Z) :=
  match sequences db !! name with
  | None => fail (does_not_exist name)
  | Some s => '(s, v) ← lift (next_value s); mret (set_sequences db (<[name := s]> (sequences db)), v)
  end.

Definition current_sequence_value db (name : str) : result str Z :=
  match sequences db !! name with
  | None => Err (does_not_exist name)
  | Some s => if s_called s then Ok (s_last_value s)
              else Err (lit "currval of sequence " ++ quoted name ++ lit " is not yet defined")
  end.

Definition set_sequence_value db (name : str) (value : Z) (called : bool) : result str (DB * Z) :=
  match sequences db !! name with
  | None => Err (does_not_exist name)
  | Some s => Ok (set_sequences db (<[name := mk_seq (s_name s) (s_start s) (s_increment s) value called]> (sequences db)), value)
  end.

(** [entry(key).or_insert_with(...)] *)
Definition seq_entry db (key : str) : Sequence := default (seq_new key 1 1) (sequences db !! key).

Definition next_sequence db (key : str) : run (DB * Z) :=
  '(s, v) ← next_value (seq_entry db key);
  Val (set_sequences db (<[key := s]> (sequences db)), v).

Definition observe_sequence db (key : str) (value : Z) : DB :=
  let s := seq_entry db key in
  let s := if s_last_value s <? value then mk_seq (s_name s) (s_start s) (s_increment s) value true else s in
  set_sequences db (<[key := s]> (sequences db)).

(** ** Advisory locks *)

Definition advisory_lock db (classid objid : Z) : DB := set_advisory db ({[ (classid, objid) ]} ∪ advisory_locks db).
Definition try_advisory_lock db (classid objid : Z) : DB * bool := (advisory_lock db classid objid, true).
Definition advisory_unlock db (classid objid : Z) : DB * bool :=
  (set_advisory db (advisory_locks db ∖ {[ (classid, objid) ]}), bool_decide ((classid, objid) ∈ advisory_locks db)).
Definition advisory_unlock_all db : DB := set_advisory db ∅.

(** ** Large objects *)

Definition lo_message (oid : Z) (what : str) : str := lit "large object " ++ i64_display oid ++ lit " " ++ what.

(** [next_lo_oid.wrapping_add(1).max(16384)] on a [u32]. *)
Definition next_oid (oid : Z) : Z := Z.max 16384 (wrap 32 (oid + 1)).

(** The loop of [alloc_lo_oid]: the first free oid from [oid] on. *)
Fixpoint free_oid (fuel : nat) (m : gmap Z (list Z)) (oid : Z) : option Z :=
  match fuel with
  | O => None
  | S fuel => match m !! oid with Some _ => free_oid fuel m (next_oid oid) | None => Some oid end
  end.
(** [None] when the loop does not end (every oid is in use). *)
Definition alloc_lo_oid db : option (DB * Z) :=
  oid ← free_oid (S (size (large_objects db))) (large_objects db) (next_lo_oid db);
  Some (set_lo db (large_objects db) (next_oid oid), oid).

Definition lo_exists db (oid : Z) : bool := bool_decide (is_Some (large_objects db !! oid)).

Definition lo_create db (oid : Z) : option (DB * result str Z) :=
  '(db, oid) ← (if oid =? 0 then alloc_lo_oid db else Some (db, oid));
  Some (if lo_exists db oid then (db, Err (lo_message oid (lit "already exists")))
        else (set_lo db (<[oid := []]> (large_objects db)) (next_lo_oid db), Ok oid)).

Definition lo_creat db : option (DB * Z) :=
  '(db, oid) ← alloc_lo_oid db;
  Some (set_lo db (<[oid := []]> (large_objects db)) (next_lo_oid db), oid).

Definition lo_unlink db (oid : Z) : result str DB :=
  if lo_exists db oid then Ok (set_lo db (delete oid (large_objects db)) (next_lo_oid db))
  else Err (lo_message oid (lit "does not exist")).

(** [resize] to [end] with zeros when shorter, then [copy_from_slice].  An object
    cannot grow beyond isize::MAX bytes; and when the [usize] sum
    [offset + data.len()] wraps around, the slice ends before it starts. *)
Definition lo_put db (oid offset : Z) (data : list Z) : res str DB :=
  match large_objects db !! oid with
  | None => fail (lo_message oid (lit "does not exist"))
  | Some obj =>
      let stop := offset + zlen data in
      if 2 ^ 63 <=? stop then Panic
      else
        let obj := if zlen obj <? stop then obj ++ zreplicate (stop - zlen obj) 0 else obj in
        obj ← lift (copy_from_slice obj offset stop data);
        mret (set_lo db (<[oid := obj]> (large_objects db)) (next_lo_oid db))
  end.

Definition lo_get db (oid : Z) : result str (list Z) := ok_or (large_objects db !! oid) (lo_message oid (lit "does not exist")).

(** ** Vacuum *)

Definition AUTOVACUUM_VACUUM_THRESHOLD : Z := 50.
(** The bit pattern of the double 0.2. *)
Definition AUTOVACUUM_VACUUM_SCALE_FACTOR : Z := 4596373779694328218.

(** [should_autovacuum]; the product is not negative, so [as usize] truncates. *)
Definition should_autovacuum (t : Table Expr) : bool :=
  let stats := storage_stats t in
  let trigger := AUTOVACUUM_VACUUM_THRESHOLD
                 + f64_trunc_mag (f64_mul AUTOVACUUM_VACUUM_SCALE_FACTOR (i64_as_f64 (st_live_rows stats))) in
  trigger <=? st_dead_rows stats.

Definition vacuum_empty : VacuumStats := mk_vacuum 0 0 0 0 0.
Definition vacuum_absorb (a b : VacuumStats) : VacuumStats :=
  mk_vacuum (pages_before a + pages_before b) (pages_after a + pages_after b)
    (dead_rows_removed a + dead_rows_removed b) (dead_bytes_removed a + dead_bytes_removed b)
    (pages_removed a + pages_removed b).

Definition vacuum_table_storage db (name : str) : res str (DB * VacuumStats) :=
  match tables db !! name with
  | None => fail (does_not_exist name)
  | Some t => '(t, s) ← lift (vacuum_storage t); mret (set_tables db (<[name := t]> (tables db)), s)
  end.

(** One iteration of the loops of [Database::vacuum_storage] and of
    [autovacuum_once] over the table names. *)
Definition vacuum_one (m : gmap str (Table Expr)) (name : str) : run (gmap str (Table Expr) * VacuumStats) :=
  match m !! name with
  | None => Val (m, vacuum_empty)
  | Some t => '(t, s) ← vacuum_storage t; Val (<[name := t]> m, s)
  end.
Fixpoint vacuum_names (m : gmap str (Table Expr)) (acc : VacuumStats) (names : list str) : run (gmap str (Table Expr) * VacuumStats) :=
  match names with
  | [] => Val (m, acc)
  | name :: names => '(m, s) ← vacuum_one m name; vacuum_names m (vacuum_absorb acc s) names
  end.

Definition db_vacuum_storage db : run (DB * VacuumStats) :=
  '(m, s) ← vacuum_names (tables db) vacuum_empty (map_to_list (tables db)).*1;
  Val (set_tables db m, s).

Definition due db : list str := (filter (fun x => should_autovacuum (x.2) = true) (map_to_list (tables db))).*1.
Definition autovacuum_once db : run (DB * list str) :=
  '(m, _) ← vacuum_names (tables db) vacuum_empty (due db);
  Val (set_tables db m, sort_names (due db)).

End database.

(** * Specification *)

Section spec.
Context {Expr Select : Type}.
Abbreviation DB := (Database Expr Select).
Implicit Types db : DB.

(** The name spaces of tables, views and materialized views are disjoint, and
    every relation is filed under its own name; the system schemas exist. *)
Record namespace_ok db : Prop := {
  ns_tables : forall n t, tables db !! n = Some t -> t_name t = n;
  ns_views : forall n v, views db !! n = Some v -> v_name v = n;
  ns_mviews : forall n v, materialized_views db !! n = Some v -> mv_name v = n;
  ns_tv : forall n, is_Some (tables db !! n) -> views db !! n = None;
  ns_tm : forall n, is_Some (tables db !! n) -> materialized_views db !! n = None;
  ns_vm : forall n, is_Some (views db !! n) -> materialized_views db !! n = None;
  ns_schemas : forall n, n ∈ SYSTEM_SCHEMAS -> n ∈ schemas db
}.

(** The statements that create and drop relations and schemas, and [SET]. *)
Inductive ddl_step : DB -> DB -> Prop :=
| ddl_create_table db t db' : create_table db t = Ok db' -> ddl_step db db'
| ddl_drop_table db n : ddl_step db (drop_table db n).1
| ddl_create_view db v r db' : create_view db v r = Ok db' -> ddl_step db db'
| ddl_drop_view db n : ddl_step db (drop_view db n).1
| ddl_create_mview db v i db' b : create_materialized_view db v i = Ok (db', b) -> ddl_step db db'
| ddl_refresh db n rows db' : replace_materialized_view_rows db n rows = Ok db' -> ddl_step db db'
| ddl_drop_mview db n : ddl_step db (drop_materialized_view db n).1
| ddl_create_schema db n i db' b : create_schema db n i = Ok (db', b) -> ddl_step db db'
| ddl_drop_schema db n i db' b : drop_schema db n i = Ok (db', b) -> ddl_step db db'
| ddl_set db n v : ddl_step db (set_system_setting db n v)
| ddl_reset db n : ddl_step db (reset_system_setting db n).

(** [n] calls of [nextval]. *)
Fixpoint draw (n : nat) db (name : str) : res str (DB * list Z) :=
  match n with
  | O => mret (db, [])
  | S n => '(db, v) ← next_sequence_value db name; '(db, vs) ← draw n db name; mret (db, v :: vs)
  end.

(** [FETCH] with each of the counts in turn. *)
Fixpoint fetch_all db (name : str) (counts : list Z) : res str (DB * list (list Value)) :=
  match counts with
  | [] => mret (db, [])
  | c :: counts =>
      '(db, (_, rows)) ← fetch_cursor db name (Some c);
      '(db, rest) ← fetch_all db name counts;
      mret (db, rows ++ rest)
  end.

(** What a large object reads as at byte [i] after [data] was put at [offset]. *)
Definition overlay (obj : list Z) (offset : Z) (data : list Z) (i : Z) : option Z :=
  if (offset <=? i) && (i <? offset + zlen data) then zget data (i - offset)
  else if (zlen obj <=? i) && (i <? offset) then Some 0
  else zget obj i.

(** * Proofs *)

Lemma contains_false {V : Type} (m : gmap str V) n : bool_decide (is_Some (m !! n)) = false -> m !! n = None.
Proof. intros H%bool_decide_eq_false. by apply eq_None_not_Some. Qed.

Lemma ns_same db db' :
  tables db' = tables db -> views db' = views db -> materialized_views db' = materialized_views db ->
  (forall n, n ∈ SYSTEM_SCHEMAS -> n ∈ schemas db -> n ∈ schemas db') -> namespace_ok db -> namespace_ok db'.
Proof. intros E1 E2 E3 E4 [N1 N2 N3 N4 N5 N6 N7]. split; rewrite ?E1, ?E2, ?E3; auto. Qed.

Lemma insert_key {V : Type} (key : V -> str) (m : gmap str V) (x : V) :
  (forall n y, m !! n = Some y -> key y = n) -> forall n y, <[key x := x]> m !! n = Some y -> key y = n.
Proof.
  intros H n y. destruct (decide (key x = n)) as [<-|Hne].
  - rewrite lookup_insert_eq. by intros [= <-].
  - rewrite lookup_insert_ne by done. apply H.
Qed.
Lemma delete_key {V : Type} (key : V -> str) (m : gmap str V) k :
  (forall n y, m !! n = Some y -> key y = n) -> forall n y, delete k m !! n = Some y -> key y = n.
Proof. intros H n y [_ E]%lookup_delete_Some. by apply H. Qed.

Lemma insert_disjoint {V W : Type} (m : gmap str V) (m2 : gmap str W) k x :
  (forall n, is_Some (m !! n) -> m2 !! n = None) -> m2 !! k = None ->
  forall n, is_Some (<[k := x]> m !! n) -> m2 !! n = None.
Proof.
  intros H Hk n. destruct (decide (k = n)) as [<-|Hne]; [done|]. rewrite lookup_insert_ne by done. apply H.
Qed.
Lemma insert_disjoint_r {V W : Type} (m : gmap str V) (m2 : gmap str W) k x :
  (forall n, is_Some (m !! n) -> m2 !! n = None) -> m !! k = None ->
  forall n, is_Some (m !! n) -> <[k := x]> m2 !! n = None.
Proof.
  intros H Hk n Hn. destruct (decide (k = n)) as [<-|Hne]; [by rewrite Hk in Hn; destruct Hn|].
  rewrite lookup_insert_ne by done. by apply H.
Qed.
Lemma delete_disjoint {V W : Type} (m : gmap str V) (m2 : gmap str W) k :
  (forall n, is_Some (m !! n) -> m2 !! n = None) -> forall n, is_Some (delete k m !! n) -> m2 !! n = None.
Proof. intros H n [x [_ E]%lookup_delete_Some]. apply H. by exists x. Qed.
Lemma delete_disjoint_r {V W : Type} (m : gmap str V) (m2 : gmap str W) k :
  (forall n, is_Some (m !! n) -> m2 !! n = None) -> forall n, is_Some (m !! n) -> delete k m2 !! n = None.
Proof. intros H n Hn. apply lookup_delete_None. right. by apply H. Qed.

Lemma create_table_inv db t db' :
  create_table db t = Ok db' ->
  db' = set_tables db (<[t_name t := t]> (tables db))
  /\ tables db !! t_name t = None /\ views db !! t_name t = None /\ materialized_views db !! t_name t = None.
Proof.
  unfold create_table, contains_table, contains_view, contains_mview.
  destruct (bool_decide (is_Some (tables db !! _))) eqn:E1, (bool_decide (is_Some (views db !! _))) eqn:E2,
    (bool_decide (is_Some (materialized_views db !! _))) eqn:E3; cbn; try discriminate.
  intros [= <-]. by rewrite (contains_false _ _ E1), (contains_false _ _ E2), (contains_false _ _ E3).
Qed.

Lemma namespace_step db db' : ddl_step db db' -> namespace_ok db -> namespace_ok db'.
Proof.
  intros St N. destruct St as [db t db' E|db n|db v r db' E|db n|db v i db' b E|db n rows db' E|db n
    |db n i db' b E|db n i db' b E|db n v|db n].
  - apply create_table_inv in E as (-> & E1 & E2 & E3). destruct N. split; cbn; eauto using insert_key, insert_disjoint.
  - unfold drop_table. destruct (tables db !! n); cbn; [|done]. destruct N.
    split; cbn; eauto using delete_key, delete_disjoint.
  - unfold create_view, contains_table, contains_mview in E.
    destruct (bool_decide (is_Some (tables db !! _))) eqn:E1, (bool_decide (is_Some (materialized_views db !! _))) eqn:E2;
      cbn in E; try discriminate.
    destruct (contains_view db (v_name v) && negb r); [discriminate|]. injection E as <-.
    apply contains_false in E1, E2. destruct N.
    split; cbn; eauto using insert_key, insert_disjoint, insert_disjoint_r.
  - unfold drop_view. destruct (views db !! n); cbn; [|done]. destruct N.
    split; cbn; eauto using delete_key, delete_disjoint, delete_disjoint_r.
  - unfold create_materialized_view, contains_table, contains_view in E.
    destruct (bool_decide (is_Some (tables db !! _))) eqn:E1, (bool_decide (is_Some (views db !! _))) eqn:E2;
      cbn in E; try discriminate.
    destruct (contains_mview db (mv_name v)) eqn:E3; [destruct i; [by injection E as <- <-|discriminate]|].
    injection E as <- <-. apply contains_false in E1, E2. destruct N.
    split; cbn; eauto using insert_key, insert_disjoint_r.
  - unfold replace_materialized_view_rows in E. destruct (materialized_views db !! n) as [v|] eqn:Ev; [|discriminate].
    injection E as <-. destruct N as [N1 N2 N3 N4 N5 N6 N7].
    assert (forall (V : Type) (m : gmap str V), (forall k, is_Some (m !! k) -> materialized_views db !! k = None) -> m !! n = None) as Out.
    { intros V m H. destruct (m !! n) eqn:Em; [|done]. rewrite (H n) in Ev by (by rewrite Em). discriminate. }
    split; cbn; eauto using insert_disjoint_r.
    intros k y. destruct (decide (n = k)) as [<-|Hne]; [rewrite lookup_insert_eq; intros [= <-]; exact (N3 n v Ev)|].
    rewrite lookup_insert_ne by done. apply N3.
  - unfold drop_materialized_view. destruct (materialized_views db !! n); cbn; [|done]. destruct N.
    split; cbn; eauto using delete_key, delete_disjoint_r.
  - unfold create_schema in E. destruct (bool_decide _); [destruct i; [by injection E as <- _|discriminate]|].
    injection E as <- _. apply (ns_same db); try done. intros k _ Hk. cbn. set_solver.
  - unfold drop_schema in E. destruct (bool_decide (n ∈ SYSTEM_SCHEMAS)) eqn:Es; [discriminate|].
    apply bool_decide_eq_false in Es. destruct (bool_decide (n ∈ schemas db)); [|destruct i; [by injection E as <- _|discriminate]].
    injection E as <- _. apply (ns_same db); try done. intros k Hs Hk. cbn.
    apply elem_of_difference. split; [done|]. intros ->%elem_of_singleton. done.
  - unfold set_system_setting, set_search_path. repeat case_match; try done; by apply (ns_same db).
  - unfold reset_system_setting. repeat case_match; try done; by apply (ns_same db).
Qed.

Lemma current_schema_exists db : namespace_ok db -> current_schema db ∈ schemas db.
Proof.
  intros N. unfold current_schema. destruct (List.find _ (search_path db)) as [n|] eqn:E; cbn.
  - apply find_some in E as [_ [_ E]%andb_prop]. by apply bool_decide_eq_true in E.
  - apply (ns_schemas db N). by left.
Qed.

(** ** Sequences *)

Lemma add_i64_ok a b : in_i 64 (a + b) -> add_i64 a b = a + b.
Proof. unfold in_i, add_i64, to_signed. change (2 ^ (64 - 1)) with (2 ^ 63). intros H. rewrite Z.mod_small; lia. Qed.

(** The value the next call returns, overflow aside. *)
Definition upcoming (s : Sequence) : Z := if s_called s then s_last_value s + s_increment s else s_last_value s.

Lemma next_value_ok s : in_i 64 (upcoming s) ->
  next_value s = Val (mk_seq (s_name s) (s_start s) (s_increment s) (upcoming s) true, upcoming s).
Proof. unfold upcoming, next_value. destruct (s_called s); intros H; [by rewrite add_i64_ok|done]. Qed.

Lemma draw_spec n : forall db name s,
  sequences db !! name = Some s -> (forall i : nat, (i < n)%nat -> in_i 64 (upcoming s + Z.of_nat i * s_increment s)) ->
  exists db', draw n db name = Val (Ok (db', (fun i : nat => upcoming s + Z.of_nat i * s_increment s) <$> seq 0 n))
    /\ (forall k, k <> name -> sequences db' !! k = sequences db !! k)
    /\ exists s', sequences db' !! name = Some s' /\ s_increment s' = s_increment s
         /\ upcoming s' = upcoming s + Z.of_nat n * s_increment s
         /\ ((0 < n)%nat -> s_called s' = true).
Proof.
  induction n as [|n IH]; intros db name s Hs Hb.
  - exists db. split_and!; [done..|]. exists s. split_and!; [done|done|lia|lia].
  - cbn [draw]. unfold next_sequence_value. rewrite Hs.
    assert (in_i 64 (upcoming s)) as H0 by (specialize (Hb 0%nat ltac:(lia)); by rewrite Z.mul_0_l, Z.add_0_r in Hb).
    rewrite (next_value_ok s H0). cbn.
    set (s1 := mk_seq (s_name s) (s_start s) (s_increment s) (upcoming s) true).
    destruct (IH (set_sequences db (<[name := s1]> (sequences db))) name s1) as (db' & Hd & Ho & s' & Hs' & Hi & Hu & Hc).
    { cbn. by rewrite lookup_insert_eq. }
    { intros i Hi. specialize (Hb (S i) ltac:(lia)). cbn. replace (upcoming s1) with (upcoming s + s_increment s) by done.
      replace (upcoming s + s_increment s + Z.of_nat i * s_increment s) with (upcoming s + Z.of_nat (S i) * s_increment s) by lia. done. }
    rewrite Hd. cbn. exists db'. split_and!.
    + assert (((fun i : nat => upcoming s + s_increment s + Z.of_nat i * s_increment s) <$> seq 0 n)
              = ((fun i : nat => upcoming s + Z.of_nat i * s_increment s) <$> seq 1 n)) as ->
        by (rewrite <- fmap_S_seq, <- list_fmap_compose; apply list_fmap_ext; intros _ x _; unfold compose; lia).
      by rewrite Z.add_0_r.
    + intros k Hk. rewrite (Ho k Hk). cbn. by rewrite lookup_insert_ne.
    + exists s'. split_and!; [done|done| |].
      * rewrite Hu. replace (upcoming s1) with (upcoming s + s_increment s) by done. cbn. lia.
      * intros _. destruct n; [|apply Hc; lia]. cbn in Hd. injection Hd as <-. cbn in Hs'.
        rewrite lookup_insert_eq in Hs'. by injection Hs' as <-.
Qed.

(** ** Cursors *)

Lemma fetch_all_spec counts : forall db name c,
  cursors db !! name = Some c -> 0 <= cu_position c <= zlen (cu_rows c) -> Forall (fun n => 0 <= n) counts ->
  exists db', fetch_all db name counts
    = Val (Ok (db', ztake (foldr Z.add 0 counts) (zdrop (cu_position c) (cu_rows c)))).
Proof.
  induction counts as [|n counts IH]; intros db name c Hc Hp Hn; [by exists db|].
  apply Forall_cons in Hn as [Hn Hns]. cbn [fetch_all]. unfold fetch_cursor. rewrite Hc. cbn [default].
  set (rem := saturating_sub _ _). assert (rem = zlen (cu_rows c) - cu_position c) as Er by (subst rem; unfold saturating_sub; lia).
  set (stop := cu_position c + _). cbn [from_option id] in stop.
  assert (cu_position c <= stop <= zlen (cu_rows c)) as Hst by (subst stop; lia).
  rewrite get_range_ok by lia. cbn.
  destruct (IH (set_cursors db (<[name := mk_cursor (cu_fields c) (cu_rows c) stop]> (cursors db))) name
              (mk_cursor (cu_fields c) (cu_rows c) stop)) as (db' & E); [cbn; by rewrite lookup_insert_eq|cbn; lia|done|].
  rewrite E. cbn. exists db'. do 3 f_equal. unfold zslice.
  assert (0 <= foldr Z.add 0 counts) as Hs by (clear -Hns; induction Hns; cbn; lia).
  unfold ztake, zdrop. replace (Z.to_nat stop) with (Z.to_nat (cu_position c) + Z.to_nat (stop - cu_position c))%nat by lia.
  rewrite <- drop_drop. set (l := drop (Z.to_nat (cu_position c)) (cu_rows c)).
  assert (length l = Z.to_nat rem) as Hl by (subst l; rewrite length_drop; unfold zlen in *; lia).
  rewrite take_take_drop. destruct (decide (n <= rem)).
  - replace (Z.to_nat (stop - cu_position c) + Z.to_nat (foldr Z.add 0%Z counts))%nat
      with (Z.to_nat (n + foldr Z.add 0 counts)) by (subst stop; lia). done.
  - rewrite !take_ge by (subst stop; lia). done.
Qed.

(** ** Large objects *)

(** The oids the loop visits: a cycle through the [2 ^ 32 - 16384] user oids. *)
Definition LO_RANGE : Z := 2 ^ 32 - 16384.
Definition nth_oid (oid : Z) (i : nat) : Z := 16384 + (oid - 16384 + Z.of_nat i) mod LO_RANGE.

Lemma next_oid_cycle d : 0 <= d < LO_RANGE -> next_oid (16384 + d) = 16384 + (d + 1) mod LO_RANGE.
Proof.
  unfold next_oid, wrap, LO_RANGE. intros H. destruct (decide (d + 1 = 2 ^ 32 - 16384)) as [E|E].
  - rewrite E, Z.mod_same by done. replace (16384 + d + 1) with (2 ^ 32) by lia. by rewrite Z.mod_same.
  - rewrite !Z.mod_small by lia. lia.
Qed.

Lemma nth_oid_next oid i : next_oid (nth_oid oid i) = nth_oid oid (S i).
Proof.
  unfold nth_oid. pose proof (Z.mod_pos_bound (oid - 16384 + Z.of_nat i) LO_RANGE ltac:(done)).
  rewrite next_oid_cycle by done. f_equal. rewrite Zplus_mod_idemp_l. f_equal. lia.
Qed.

Lemma nth_oid_inj oid i j : Z.of_nat i < LO_RANGE -> Z.of_nat j < LO_RANGE -> nth_oid oid i = nth_oid oid j -> i = j.
Proof.
  unfold nth_oid. intros Hi Hj E.
  assert ((oid - 16384 + Z.of_nat i) mod LO_RANGE = (oid - 16384 + Z.of_nat j) mod LO_RANGE) as E' by lia.
  pose proof (Z_div_mod_eq_full (oid - 16384 + Z.of_nat i) LO_RANGE). pose proof (Z_div_mod_eq_full (oid - 16384 + Z.of_nat j) LO_RANGE).
  set (q1 := (oid - 16384 + Z.of_nat i) / LO_RANGE) in *. set (q2 := (oid - 16384 + Z.of_nat j) / LO_RANGE) in *. unfold LO_RANGE in *. lia.
Qed.

(** The loop returns the first free oid, if there is one within its fuel. *)
Lemma free_oid_spec (m : gmap Z (list Z)) oid fuel : forall k,
  match free_oid fuel m (nth_oid oid k) with
  | Some r => m !! r = None /\ exists i, r = nth_oid oid i
  | None => forall i, (k <= i < k + fuel)%nat -> is_Some (m !! nth_oid oid i)
  end.
Proof.
  induction fuel as [|fuel IH]; intros k; cbn [free_oid]; [intros i Hi; lia|].
  destruct (m !! nth_oid oid k) eqn:E; [|split; [done|by exists k]].
  rewrite nth_oid_next. specialize (IH (S k)). destruct (free_oid fuel m (nth_oid oid (S k))); [done|].
  intros i Hi. destruct (decide (i = k)) as [->|]; [by eexists|]. apply IH. lia.
Qed.

Lemma free_oid_enough (m : gmap Z (list Z)) oid :
  Z.of_nat (size m) < LO_RANGE -> 16384 <= oid < 2 ^ 32 ->
  exists r, free_oid (S (size m)) m oid = Some r /\ m !! r = None /\ 16384 <= r < 2 ^ 32.
Proof.
  intros Hs Ho. assert (nth_oid oid 0 = oid) as E by (unfold nth_oid; rewrite Z.mod_small by (unfold LO_RANGE; lia); lia).
  pose proof (free_oid_spec m oid (S (size m)) 0) as H. rewrite E in H.
  destruct (free_oid (S (size m)) m oid) as [r|].
  - destruct H as (Hr & i & ->). exists (nth_oid oid i). split_and!; [done|done|..];
      unfold nth_oid; pose proof (Z.mod_pos_bound (oid - 16384 + Z.of_nat i) LO_RANGE ltac:(done)); unfold LO_RANGE in *; lia.
  - exfalso. assert (NoDup (nth_oid oid <$> seq 0 (S (size m)))) as N.
    { apply NoDup_fmap_2_strong; [|apply NoDup_seq]. intros i j Hi%elem_of_seq Hj%elem_of_seq. apply nth_oid_inj; lia. }
    assert (nth_oid oid <$> seq 0 (S (size m)) ⊆ (map_to_list m).*1) as Sub.
    { intros x (i & -> & Hi%elem_of_seq)%list_elem_of_fmap. destruct (H i ltac:(lia)) as [y Hy].
      apply list_elem_of_fmap. exists (nth_oid oid i, y). split; [done|]. by apply elem_of_map_to_list. }
    apply NoDup_submseteq, submseteq_length in Sub; [|done]. rewrite !length_fmap, length_seq, length_map_to_list in Sub. lia.
Qed.

Lemma lo_put_ok db oid obj offset data :
  large_objects db !! oid = Some obj -> 0 <= offset -> offset + zlen data < 2 ^ 63 ->
  exists obj', lo_put db oid offset data = Val (Ok (set_lo db (<[oid := obj']> (large_objects db)) (next_lo_oid db)))
    /\ zlen obj' = Z.max (zlen obj) (offset + zlen data)
    /\ forall i, 0 <= i < zlen obj' -> zget obj' i = overlay obj offset data i.
Proof.
  intros Ho Hoff Hlen. unfold lo_put. rewrite Ho. zfalse (2 ^ 63 <=? offset + zlen data).
  pose proof (zlen_nonneg data). pose proof (zlen_nonneg obj).
  set (stop := offset + zlen data) in *.
  set (obj1 := if zlen obj <? stop then _ else _).
  assert (zlen obj1 = Z.max (zlen obj) stop) as L1.
  { subst obj1. destruct (zlen obj <? stop) eqn:E; zb; [|lia]. rewrite zlen_app, zlen_replicate by lia. lia. }
  assert (forall i, 0 <= i < zlen obj1 -> zget obj1 i = if zlen obj <=? i then Some 0 else zget obj i) as G1.
  { intros i Hi. subst obj1. destruct (zlen obj <? stop) eqn:E; zb.
    - rewrite zlen_app, zlen_replicate in Hi by lia. zcase; [rewrite zget_app_r by lia; apply zget_replicate; lia|].
      apply zget_app_l. lia.
    - zcase; [lia|done]. }
  pose proof (copy_from_slice_ok obj1 offset stop data ltac:(lia) ltac:(lia) ltac:(lia)) as E.
  rewrite E. cbn. eexists. split; [reflexivity|]. destruct (copy_from_slice_spec _ _ _ _ _ E) as (L2 & G2). split; [lia|].
  intros i Hi. unfold overlay. fold stop. rewrite G2. destruct ((offset <=? i) && (i <? stop)) eqn:Ei; [done|].
  rewrite G1 by lia. destruct (zlen obj <=? i) eqn:Ej; [|done]. ztrue (i <? offset). done.
Qed.

(** ** Vacuum *)

Section vacuum.
Variable eval_expr : Expr -> list str -> list Value -> result str Value.
Variable kinds : str -> nat -> Kind.

(** Every table is well formed. *)
Definition tables_ok (m : gmap str (Table Expr)) : Prop :=
  forall name t, m !! name = Some t -> exists L, table_rep eval_expr kinds t L.

Lemma vacuum_names_spec names : forall m acc,
  tables_ok m -> NoDup names ->
  exists m' s, vacuum_names m acc names = Val (m', s) /\ tables_ok m'
    /\ forall name t, m !! name = Some t -> exists t', m' !! name = Some t' /\ rows t' = rows t
         /\ (name ∈ names -> st_dead_rows (storage_stats t') = 0) /\ (name ∉ names -> t' = t).
Proof.
  induction names as [|name names IH]; intros m acc Ok Nd.
  - exists m, acc. split_and!; [done|done|]. intros n t Ht. exists t. split_and!; [done|done| |done]. by intros ?%elem_of_nil.
  - apply NoDup_cons in Nd as [Ni Nd]. cbn [vacuum_names]. unfold vacuum_one.
    destruct (m !! name) as [t|] eqn:Et.
    + destruct (Ok name t Et) as (L & R). destruct (vacuum_ok eval_expr kinds t L R) as (t1 & s1 & E & R1 & D & _ & Rw).
      rewrite E. cbn [mbind run_bind].
      destruct (IH (<[name := t1]> m) (vacuum_absorb acc s1)) as (m' & s & E' & Ok' & H); [|done|].
      { intros n u. destruct (decide (name = n)) as [<-|Hne]; [rewrite lookup_insert_eq; intros [= <-]; by exists L|].
        rewrite lookup_insert_ne by done. apply Ok. }
      exists m', s. split_and!; [done|done|]. intros n u Hu. destruct (decide (name = n)) as [<-|Hne].
      * rewrite Et in Hu. injection Hu as <-. destruct (H name t1) as (t' & Ht' & Rw' & _ & Hn); [by rewrite lookup_insert_eq|].
        exists t'. rewrite (Hn Ni). rewrite (Hn Ni) in Ht'. split_and!; [done|done|done|]. intros Hc. destruct Hc. by left.
      * destruct (H n u) as (t' & Ht' & Rw' & Hd & Hn); [by rewrite lookup_insert_ne|]. exists t'. split_and!; [done|done| |].
        -- intros [->|Hin]%elem_of_cons; [done|by apply Hd].
        -- intros Hnot. apply Hn. intros Hin. apply Hnot. by right.
    + cbn [mbind run_bind]. destruct (IH m (vacuum_absorb acc vacuum_empty) Ok Nd) as (m' & s & E' & Ok' & H).
      exists m', s. split_and!; [done|done|]. intros n u Hu. destruct (H n u Hu) as (t' & Ht' & Rw' & Hd & Hn).
      exists t'. split_and!; [done|done| |].
      * intros [->|Hin]%elem_of_cons; [congruence|by apply Hd].
      * intros Hnot. apply Hn. intros Hin. apply Hnot. by right.
Qed.

Lemma due_spec db name : name ∈ due db <-> exists t, tables db !! name = Some t /\ should_autovacuum t = true.
Proof.
  unfold due. rewrite list_elem_of_fmap. split.
  - intros ([n t] & -> & [Hs Ht%elem_of_map_to_list]%list_elem_of_filter). by exists t.
  - intros (t & Ht & Hs). exists (name, t). split; [done|]. apply list_elem_of_filter. split; [done|]. by apply elem_of_map_to_list.
Qed.

Lemma due_NoDup db : NoDup (due db).
Proof.
  unfold due. apply (sublist_NoDup _ (map_to_list (tables db)).*1); [apply NoDup_fst_map_to_list|].
  apply fmap_sublist, sublist_filter.
Qed.
End vacuum.
End spec.

(** * Theorems *)

(** C39: relations share one name space.  Whatever tables, views and materialized
    views are created, replaced, refreshed and dropped, no name denotes two
    relations and every relation is filed under its own name; the current schema
    always exists, whatever schemas are dropped and search paths set; a table is
    created exactly when no relation of any kind has its name, and creation changes
    no other relation. *)
Theorem catalog_namespace {Expr Select} (db : Database Expr Select) :
  rtc ddl_step db_new db ->
  namespace_ok db
  /\ current_schema db ∈ schemas db
  /\ (forall t, (exists db', create_table db t = Ok db') <->
        tables db !! t_name t = None /\ views db !! t_name t = None /\ materialized_views db !! t_name t = None)
  /\ (forall t db', create_table db t = Ok db' ->
        tables db' = <[t_name t := t]> (tables db) /\ views db' = views db /\ materialized_views db' = materialized_views db).
Proof.
  intros H. assert (namespace_ok db) as N; [|split_and!; [exact N|by apply current_schema_exists| |]].
  - assert (forall db1, namespace_ok db1 -> rtc ddl_step db1 db -> namespace_ok db) as G.
    { clear H. intros db1 N St. revert N. induction St as [|x y z Hs _ IH]; [done|]. intros N. apply IH.
      exact (namespace_step x y Hs N). }
    apply (G db_new); [|done]. split; cbn; intros *; rewrite ?lookup_empty; try done; [by intros []..|].
    intros Hs. change (n ∈ (list_to_set SYSTEM_SCHEMAS : gset str)). apply elem_of_list_to_set. exact Hs.
  - intros t. split; [intros (db' & E); exact (proj2 (create_table_inv _ _ _ E))|]. intros (E1 & E2 & E3).
    eexists. unfold create_table, contains_table, contains_view, contains_mview. by rewrite E1, E2, E3.
  - intros t db' (-> & _)%create_table_inv. done.
Qed.

Lemma catalog_namespace_witness :
  exists db : Database unit unit, create_table db_new (table_new (lit "t") []) = Ok db /\ namespace_ok db.
Proof.
  eexists. split; [reflexivity|]. apply catalog_namespace. apply rtc_once.
  apply (ddl_create_table _ (table_new (lit "t") [])). reflexivity.
Defined.

(** A sequence counts.  After [CREATE SEQUENCE], [n] calls of [nextval] return
    [start], [start + increment], ... without gap or repetition as long as the
    values fit an [i64], [currval] is the last of them, the next call after the
    range is exhausted wraps around, and no other sequence changes. *)
Theorem sequence_counts {Expr Select} (db db1 : Database Expr Select) name start inc n :
  create_sequence db name false start inc = Ok (db1, true) ->
  (forall i : nat, (i < n)%nat -> in_i 64 (start + Z.of_nat i * inc)) ->
  exists db2, draw n db1 name = Val (Ok (db2, (fun i : nat => start + Z.of_nat i * inc) <$> seq 0 n))
    /\ NoDup ((fun i : nat => start + Z.of_nat i * inc) <$> seq 0 n)
    /\ ((0 < n)%nat -> current_sequence_value db2 name = Ok (start + (Z.of_nat n - 1) * inc))
    /\ ((0 < n)%nat -> exists db3, next_sequence_value db2 name = Val (Ok (db3, to_signed 64 (start + Z.of_nat n * inc))))
    /\ (forall k, k <> name -> sequences db2 !! k = sequences db !! k).
Proof.
  intros Hc Hb. unfold create_sequence in Hc. destruct (inc =? 0) eqn:Ei; [discriminate|]. apply Z.eqb_neq in Ei.
  destruct (bool_decide _); [discriminate|]. injection Hc as <-.
  destruct (draw_spec n (set_sequences db (<[name := seq_new name start inc]> (sequences db))) name (seq_new name start inc))
    as (db2 & Hd & Ho & s' & Hs' & Hi & Hu & Hcall); [cbn; by rewrite lookup_insert_eq|exact Hb|].
  exists db2. split_and!; [exact Hd| | | |].
  - apply NoDup_fmap_2_strong; [|apply NoDup_seq]. intros i j _ _ E. nia.
  - intros Hn. unfold current_sequence_value. rewrite Hs', (Hcall Hn). f_equal.
    unfold upcoming in Hu. rewrite (Hcall Hn), Hi in Hu. cbn in Hu. lia.
  - intros Hn. unfold next_sequence_value, next_value. rewrite Hs', (Hcall Hn). cbn.
    unfold upcoming in Hu. rewrite (Hcall Hn) in Hu. unfold add_i64. rewrite Hu. by eexists.
  - intros k Hk. rewrite (Ho k Hk). cbn. by rewrite lookup_insert_ne.
Qed.

Lemma sequence_counts_witness :
  exists db1 db2 : Database unit unit, create_sequence db_new (lit "s") false 5 (-2) = Ok (db1, true)
    /\ draw 3 db1 (lit "s") = Val (Ok (db2, [5; 3; 1])).
Proof.
  destruct (sequence_counts (db_new : Database unit unit) _ (lit "s") 5 (-2) 3 eq_refl) as (db2 & H & _).
  - intros i Hi. unfold in_i. lia.
  - eexists. exists db2. split; [reflexivity|exact H].
Defined.

(** Explicit values in a serial column.  After an explicit [value] was
    observed, the default of the next row is above it, except when the sequence
    was never used and [value] is its start value: then the next default repeats
    [value]. *)
Theorem serial_observe_next {Expr Select} (db : Database Expr Select) key value :
  let s := seq_entry db key in
  s_increment s = 1 -> in_i 64 (Z.max (s_last_value s) value + 1) -> in_i 64 (s_last_value s) ->
  exists db' v, next_sequence (observe_sequence db key value) key = Val (db', v)
    /\ s_last_value s <= v
    /\ (value < v <-> ~ (s_called s = false /\ value = s_last_value s)).
Proof.
  intros s Hi Hr Hl. unfold next_sequence, observe_sequence. fold s.
  set (s1 := if s_last_value s <? value then _ else _).
  replace (seq_entry (set_sequences db (<[key := s1]> (sequences db))) key) with s1
    by (unfold seq_entry; cbn; by rewrite lookup_insert_eq).
  assert (in_i 64 (upcoming s1) /\ s_last_value s <= upcoming s1
          /\ (value < upcoming s1 <-> ~ (s_called s = false /\ value = s_last_value s))) as (H1 & H2 & H3).
  { subst s1. unfold upcoming, in_i in *. destruct (s_last_value s <? value) eqn:E; zb; cbn [s_called s_last_value s_increment].
    - rewrite Hi. split_and!; [lia..|]. split; [intros _ [_ ?]; lia|lia].
    - destruct (s_called s); rewrite ?Hi; (split; [lia|]); (split; [lia|]).
      + split; [intros _ [? _]; discriminate|lia].
      + split; [intros ? [_ ?]; lia|]. intros Hn. destruct (decide (value = s_last_value s)); [by destruct Hn|lia]. }
  rewrite (next_value_ok s1 H1). cbn. eexists _, _. split_and!; [reflexivity|done|done].
Qed.

Lemma serial_observe_next_witness :
  exists db' v, next_sequence (observe_sequence (db_new : Database unit unit) (lit "t_id_seq") 7) (lit "t_id_seq") = Val (db', v) /\ 7 < v.
Proof.
  destruct (serial_observe_next (db_new : Database unit unit) (lit "t_id_seq") 7) as (db' & v & H & _ & Hv).
  - reflexivity.
  - unfold in_i. vm_compute. split; congruence.
  - unfold in_i. vm_compute. split; congruence.
  - exists db', v. split; [exact H|]. apply Hv. intros [_ E]. vm_compute in E. discriminate.
Defined.

(** Large objects.  While fewer than [2 ^ 32 - 16384] objects exist, the
    search for a free oid ends, [lo_create(0)] succeeds with an oid that was not in
    use, and the new object is empty; [lo_put] then makes the object read as the
    old bytes overlaid with the new ones, with zeros in a gap, and touches no other
    object. *)
Theorem large_objects_ok {Expr Select} (db : Database Expr Select) :
  Z.of_nat (size (large_objects db)) < 2 ^ 32 - 16384 -> 16384 <= next_lo_oid db < 2 ^ 32 ->
  (exists db' oid, lo_create db 0 = Some (db', Ok oid) /\ 16384 <= oid < 2 ^ 32 /\ large_objects db !! oid = None
     /\ large_objects db' = <[oid := []]> (large_objects db) /\ 16384 <= next_lo_oid db' < 2 ^ 32)
  /\ (forall oid obj offset data, large_objects db !! oid = Some obj -> 0 <= offset -> offset + zlen data < 2 ^ 63 ->
       exists db' obj', lo_put db oid offset data = Val (Ok db') /\ lo_get db' oid = Ok obj'
         /\ zlen obj' = Z.max (zlen obj) (offset + zlen data)
         /\ (forall i, 0 <= i < zlen obj' -> zget obj' i = overlay obj offset data i)
         /\ (forall k, k <> oid -> lo_get db' k = lo_get db k)).
Proof.
  intros Hs Hn. split.
  - destruct (free_oid_enough (large_objects db) (next_lo_oid db) Hs Hn) as (r & E & Hr & Hb).
    unfold lo_create, alloc_lo_oid. rewrite E. cbn [Z.eqb mbind option_bind]. unfold lo_exists. cbn [large_objects set_lo].
    rewrite Hr. rewrite bool_decide_eq_false_2 by (by intros []).
    eexists _, r. split_and!; [reflexivity|lia|lia|done|done|..]; cbn; unfold next_oid, wrap;
      pose proof (Z.mod_pos_bound (r + 1) (2 ^ 32) ltac:(done)); lia.
  - intros oid obj offset data Ho H1 H2. destruct (lo_put_ok db oid obj offset data Ho H1 H2) as (obj' & E & L & G).
    eexists _, obj'. split_and!; [exact E| |done|done|].
    + unfold lo_get. cbn. by rewrite lookup_insert_eq.
    + intros k Hk. unfold lo_get. cbn. by rewrite lookup_insert_ne.
Qed.

Lemma large_objects_ok_witness :
  exists db' oid, lo_create (db_new : Database unit unit) 0 = Some (db', Ok oid) /\ 16384 <= oid < 2 ^ 32.
Proof.
  destruct (large_objects_ok (db_new : Database unit unit)) as ((db' & oid & H & Ho & _) & _).
  - reflexivity.
  - vm_compute. split; congruence.
  - exists db', oid. split; [exact H|exact Ho].
Defined.

(** A cursor hands out its result once, in order.  Fetching with any sequence
    of counts from a declared cursor never panics and returns, concatenated, the
    first rows of the result, as many as were asked for and exist. *)
Theorem cursor_fetches {Expr Select} (db db1 : Database Expr Select) name fields rows counts :
  declare_cursor db name fields rows = Ok db1 -> Forall (fun n => 0 <= n) counts ->
  exists db2, fetch_all db1 name counts = Val (Ok (db2, ztake (foldr Z.add 0 counts) rows)).
Proof.
  unfold declare_cursor. destruct (bool_decide _); [discriminate|]. intros [= <-] Hc.
  destruct (fetch_all_spec counts (set_cursors db (<[name := mk_cursor fields rows 0]> (cursors db))) name (mk_cursor fields rows 0))
    as (db2 & E); [cbn; by rewrite lookup_insert_eq|cbn; pose proof (zlen_nonneg rows); lia|done|].
  exists db2. exact E.
Qed.

Lemma cursor_fetches_witness :
  exists db1 db2 : Database unit unit, declare_cursor db_new (lit "c") [] [[Int 1]; [Int 2]; [Int 3]] = Ok db1
    /\ fetch_all db1 (lit "c") [2; 0; 5] = Val (Ok (db2, [[Int 1]; [Int 2]; [Int 3]])).
Proof.
  destruct (cursor_fetches (db_new : Database unit unit) _ (lit "c") [] [[Int 1]; [Int 2]; [Int 3]] [2; 0; 5] eq_refl) as (db2 & E).
  - repeat (apply Forall_cons; split; [lia|]). apply Forall_nil_2.
  - eexists. exists db2. split; [reflexivity|exact E].
Defined.

(** Autovacuum.  On well-formed tables one round never panics, reports
    exactly the tables whose dead rows reach the threshold, leaves those without
    dead rows and every other table untouched, and changes no row of any table. *)
Theorem autovacuum_exact {Expr Select} (eval_expr : Expr -> list str -> list Value -> result str Value) kinds
    (db : Database Expr Select) :
  tables_ok eval_expr kinds (tables db) ->
  exists db' names, autovacuum_once db = Val (db', names) /\ tables_ok eval_expr kinds (tables db')
    /\ (forall name, name ∈ names <-> exists t, tables db !! name = Some t /\ should_autovacuum t = true)
    /\ (forall name t, tables db !! name = Some t -> exists t', tables db' !! name = Some t' /\ rows t' = rows t
          /\ if should_autovacuum t then st_dead_rows (storage_stats t') = 0 else t' = t).
Proof.
  intros Ok. destruct (vacuum_names_spec eval_expr kinds (due db) (tables db) vacuum_empty Ok (due_NoDup db)) as (m' & s & E & Ok' & H).
  unfold autovacuum_once. rewrite E. cbn [mbind run_bind]. eexists _, _. split_and!; [reflexivity|done| |].
  - intros name. unfold sort_names. rewrite merge_sort_Permutation. apply due_spec.
  - intros name t Ht. destruct (H name t Ht) as (t' & Ht' & Rw & Hd & Hn). exists t'. split_and!; [done|done|].
    destruct (should_autovacuum t) eqn:Es.
    + apply Hd, due_spec. by exists t.
    + apply Hn. intros (u & Hu & Eu)%due_spec. congruence.
Qed.

Lemma autovacuum_exact_witness :
  exists db' names, autovacuum_once (db_new : Database unit unit) = Val (db', names).
Proof.
  destruct (autovacuum_exact no_eval int_kinds (db_new : Database unit unit)) as (db' & names & E & _).
  - intros name t. cbn. by rewrite lookup_empty.
  - exists db', names. exact E.
Defined.

(** A table renamed to the name of a view: [rename_table] looks only at the
    tables, so the name then denotes two relations. *)
Lemma rename_table_breaks_namespace :
  exists db : Database unit unit,
    rtc ddl_step db_new db /\ exists db', rename_table db (lit "t") (lit "v") = Ok db' /\ ~ namespace_ok db'.
Proof.
  set (db1 := set_tables db_new {[ lit "t" := table_new (lit "t") [] ]} : Database unit unit).
  exists (set_views db1 {[ lit "v" := mk_view (lit "v") tt [] ]}). split.
  - eapply rtc_l; [apply (ddl_create_table _ (table_new (lit "t") []) db1); reflexivity|]. apply rtc_once.
    apply (ddl_create_view _ (mk_view (lit "v") tt []) false). reflexivity.
  - eexists. split; [reflexivity|]. intros N. pose proof (ns_tv _ N (lit "v")) as H. vm_compute in H.
    specialize (H (ex_intro _ _ eq_refl)). discriminate.
Qed.

(** Renaming table [a] also takes the sequence of column [c] of table [a_b]: its
    next default restarts, although the table is another one. *)
Lemma rename_table_steals_sequence :
  let seqs : gmap str Sequence := {[ lit "a_b_c_seq" := mk_seq (lit "a_b_c_seq") 1 1 41 true ]} in
  let db := set_sequences (set_tables db_new {[ lit "a" := table_new (lit "a") []; lit "a_b" := table_new (lit "a_b") [] ]}) seqs
    : Database unit unit in
  match rename_table db (lit "a") (lit "z") with
  | Ok db' => snd <$> next_sequence db' (serial_sequence_name (lit "a_b") (lit "c")) = Val 1
  | Err _ => False
  end.
Proof. vm_compute. reflexivity. Qed.
