(* ===== verification/Disk.v ===== *)
(** The disk store of crates/engine/src/disk/mod.rs: the tuple codec, the text
    catalog, checkpoints through the buffer manager, and recovery. *)

From stdpp Require Import gmap sorting.
From S2P Require Import Prelude Utf8 Numeric Types Index Storage Page Heap Buffer Pwal Database.

#[local] Open Scope Z_scope.

(** * The tuple codec *)

Definition TAG_NULL : Z := 0.
Definition TAG_INT : Z := 1.
Definition TAG_FLOAT : Z := 2.
Definition TAG_TEXT : Z := 3.
Definition TAG_BOOL : Z := 4.
Definition TAG_NUMERIC : Z := 5.

(** [s.len() as u32] in little-endian order, then the bytes. *)
Definition encode_str (s : str) : list Z := le_bytes 4 (zlen s) ++ s.

Definition encode_cell (cell : Value) : list Z :=
  match cell with
  | Null => [TAG_NULL]
  | Int i => TAG_INT :: le_bytes 8 i
  | Float f => TAG_FLOAT :: le_bytes 8 f
  | Text s => TAG_TEXT :: encode_str s
  | Bool b => [TAG_BOOL; Z.b2z b]
  | Num n => TAG_NUMERIC :: encode_str (to_canonical_string n)
  end.

Definition encode_row (row : list Value) : list Z := le_bytes 4 (zlen row) ++ flat_map encode_cell row.

(** [bytes.get(pos..pos + n)?] and the rest. *)
Definition take_slice (n : Z) (bs : list Z) : option (list Z * list Z) :=
  if n <=? zlen bs then Some (ztake n bs, zdrop n bs) else None.

(** A length-prefixed UTF-8 string. *)
Definition decode_str (bs : list Z) : option (str * list Z) :=
  '(l, bs) ← take_slice 4 bs; '(s, bs) ← take_slice (le_val l) bs;
  if utf8_valid s then Some (s, bs) else None.

(** One iteration of the loop of [decode_row]; [BigDecimal::parse] may panic. *)
Definition decode_cell (bs : list Z) : run (option (Value * list Z)) :=
  match bs with
  | [] => Val None
  | tag :: bs =>
      if tag =? TAG_NULL then Val (Some (Null, bs))
      else if tag =? TAG_INT then
        Val ('(l, bs) ← take_slice 8 bs; Some (Int (to_signed 64 (le_val l)), bs))
      else if tag =? TAG_FLOAT then
        Val ('(l, bs) ← take_slice 8 bs; Some (Float (le_val l), bs))
      else if tag =? TAG_TEXT then
        Val ('(s, bs) ← decode_str bs; Some (Text s, bs))
      else if tag =? TAG_BOOL then
        Val ('(l, bs) ← take_slice 1 bs; Some (Bool (negb (le_val l =? 0)), bs))
      else if tag =? TAG_NUMERIC then
        match decode_str bs with
        | None => Val None
        | Some (s, bs) => (fun o => d ← o; Some (Num d, bs)) <$> parse s
        end
      else Val None
  end.

(** The loop: [n] cells; every cell takes at least one byte, so a count beyond
    the bytes left ends in [None]. *)
Fixpoint decode_cells (fuel : nat) (n : Z) (bs : list Z) : run (option (list Value)) :=
  if n =? 0 then Val (Some [])
  else match fuel with
       | O => Val None
       | S fuel =>
           r ← decode_cell bs;
           match r with
           | None => Val None
           | Some (v, bs) => (fun o => row ← o; Some (v :: row)) <$> decode_cells fuel (n - 1) bs
           end
       end.

Definition decode_row (bytes : list Z) : run (option (list Value)) :=
  match take_slice 4 bytes with
  | None => Val None
  | Some (l, bs) => decode_cells (length bs) (le_val l) bs
  end.

(** * The catalog *)

Record TableCatalog := mk_tc { tc_name : str; tc_columns : list (str * DataType * bool) }.

Definition TAB : Z := 9.
Definition NL : Z := 10.
Definition BACKSLASH : Z := 92.

Definition escape (s : str) : str :=
  replace_char NL [BACKSLASH; 110] (replace_char TAB [BACKSLASH; 116] (replace_char BACKSLASH [BACKSLASH; BACKSLASH] s)).

Fixpoint unescape (s : str) : str :=
  match s with
  | [] => []
  | c :: s =>
      if c =? BACKSLASH then
        match s with
        | [] => []
        | o :: s => (if o =? 116 then TAB else if o =? 110 then NL else o) :: unescape s
        end
      else c :: unescape s
  end.

(** One column line and the lines of a table. *)
Definition col_line (c : str * DataType * bool) : str :=
  let '(name, dt, nn) := c in
  lit "col" ++ [TAB] ++ escape name ++ [TAB] ++ pg_type_name dt ++ [TAB] ++ (if nn : bool then lit "1" else lit "0") ++ [NL].
Definition table_lines (t : TableCatalog) : str :=
  lit "table" ++ [TAB] ++ escape (tc_name t) ++ [NL] ++ flat_map col_line (tc_columns t).

(** [write_catalog]: the contents of the file. *)
Definition write_catalog (tables : list TableCatalog) : str := flat_map table_lines tables.

Definition datatype_from_pg_name (name : str) : option DataType :=
  List.find (fun dt => str_eqb (pg_type_name dt) name) ALL.

(** [tables.last_mut()]: add a column to the last table. *)
Definition push_column (c : str * DataType * bool) (tables : list TableCatalog) : list TableCatalog :=
  match last tables with
  | Some t => take (length tables - 1) tables ++ [mk_tc (tc_name t) (tc_columns t ++ [c])]
  | None => tables
  end.

Definition catalog_line (tables : list TableCatalog) (line : str) : list TableCatalog :=
  match Utf8.split TAB line with
  | [kw; name] => if str_eqb kw (lit "table") then tables ++ [mk_tc (unescape name) []] else tables
  | [kw; name; ty; nn] =>
      if str_eqb kw (lit "col")
      then push_column (unescape name, default TText (datatype_from_pg_name ty), str_eqb nn (lit "1")) tables
      else tables
  | _ => tables
  end.

(** [read_catalog] on a file's contents; a missing file is an empty catalog,
    and a file that is not UTF-8 is refused. *)
Inductive DiskError :=
| DIo (e : IoError)
| DUtf8.

Definition read_catalog (file : option (list Z)) : result DiskError (list TableCatalog) :=
  match file with
  | None => Ok []
  | Some text => if utf8_valid text then Ok (foldl catalog_line [] (lines text)) else Err DUtf8
  end.

(** [s.chars()], each as its bytes. *)
Fixpoint chars_fuel (fuel : nat) (s : str) : list str :=
  match fuel, s with
  | S fuel, b :: t => let n := snd (utf8_step b t) in take n s :: chars_fuel fuel (drop n s)
  | _, _ => []
  end.
Definition chars (s : str) : list str := chars_fuel (length s) s.

Definition safe_char (ch : str) : str :=
  match ch with
  | [c] => if is_ascii_alphanumeric c || (c =? 95) then [c] else [95]
  | _ => [95]
  end.
Definition heap_file_name (table : str) : str := flat_map safe_char (chars table) ++ lit ".heap".

(** * Checkpoint and recovery *)

Definition POOL_PAGES : Z := 64.

(** The directory: its plain files by name (heap files and the catalog); the
    WAL keeps its own sub-directory. *)
Record DiskStore := mk_store {
  files : gmap str (list Z);
  wal : PhysicalWal;
  checkpoint_id : Z
}.
Definition CATALOG : str := lit "catalog".

(** [DiskStore::open] *)
Definition disk_open (dir : gmap str (list Z)) (pwal : gmap Z (list Z)) : DiskStore := mk_store dir (wal_open pwal) 0.

(** The buffer manager after the call, also when it fails. *)
Definition append_new (buf : BufferManager) (tuple : list Z) : run (BufferManager * result IoError unit) :=
  r ← new_page buf;
  match r with
  | Err e => Val (buf, Err e)
  | Ok (buf, new_no) =>
      '(buf, r) ← get_page buf new_no;
      match r with
      | Err e => Val (buf, Err e)
      | Ok page =>
          match insert_tuple page tuple with
          | (page', Some _) => Val (mark_dirty (store_page buf new_no page') new_no, Ok tt)
          | (_, None) => Val (buf, Err InvalidInput)
          end
      end
  end.

Definition append_via_buffer (buf : BufferManager) (tuple : list Z) : run (BufferManager * result IoError unit) :=
  if 0 <? buf_page_count buf then
    let last := buf_page_count buf - 1 in
    '(buf, r) ← get_page buf last;
    match r with
    | Err e => Val (buf, Err e)
    | Ok page =>
        match insert_tuple page tuple with
        | (page', Some _) => Val (mark_dirty (store_page buf last page') last, Ok tt)
        | (_, None) => append_new buf tuple
        end
    end
  else append_new buf tuple.

(** The row loop of [checkpoint] for one table. *)
Fixpoint append_rows (buf : BufferManager) (rows : list (list Value)) : run (BufferManager * result IoError unit) :=
  match rows with
  | [] => Val (buf, Ok tt)
  | row :: rows =>
      '(buf, r) ← append_via_buffer buf (encode_row row);
      match r with
      | Err e => Val (buf, Err e)
      | Ok _ => append_rows buf rows
      end
  end.

Section store.
Context {Expr Select : Type} (eval_expr : Expr -> list str -> list Value -> result str Value).

Definition catalog_of (name : str) (t : Table Expr) : TableCatalog :=
  mk_tc name ((fun c => (col_name c, data_type c, not_null c)) <$> columns t).

(** One table of [checkpoint]: truncate its heap file and rewrite it.  The
    writes go to the file as they happen, so a failure leaves what was written. *)
Definition checkpoint_table (fs : gmap str (list Z)) (name : str) (t : Table Expr) : run (gmap str (list Z) * result IoError unit) :=
  let path := heap_file_name name in
  '(buf, r) ← append_rows (buf_new (heap_open []) POOL_PAGES) (detoast_row (chunks (toast t)) <$> rows t);
  match r with
  | Err e => Val (<[path := file (b_heap buf)]> fs, Err e)
  | Ok _ =>
      r ← flush_all buf;
      match r with
      | Err e => Val (<[path := file (b_heap buf)]> fs, Err e)
      | Ok buf => Val (<[path := file (b_heap buf)]> fs, Ok tt)
      end
  end.

(** The table loop of [checkpoint], with the catalog built on the way. *)
Fixpoint checkpoint_tables (fs : gmap str (list Z)) (catalog : list TableCatalog) (db : Database Expr Select)
    (names : list str) : run (gmap str (list Z) * result IoError (list TableCatalog)) :=
  match names with
  | [] => Val (fs, Ok catalog)
  | name :: names =>
      match tables db !! name with
      | None => checkpoint_tables fs catalog db names
      | Some t =>
          '(fs, r) ← checkpoint_table fs name t;
          match r with
          | Err e => Val (fs, Err e)
          | Ok _ => checkpoint_tables fs (catalog ++ [catalog_of name t]) db names
          end
      end
  end.

(** [DiskStore::checkpoint]: the store after the call and the checkpoint LSN. *)
Definition checkpoint (st : DiskStore) (db : Database Expr Select) : run (DiskStore * result IoError Z) :=
  '(fs, r) ← checkpoint_tables (files st) [] db (table_names db);
  match r with
  | Err e => Val (mk_store fs (wal st) (checkpoint_id st), Err e)
  | Ok catalog =>
      let fs := <[CATALOG := write_catalog catalog]> fs in
      let id := checkpoint_id st + 1 in
      let '(w, lsn) := append (wal st) Checkpoint id 0 [] in
      let '(w, _) := truncate_before w lsn in
      Val (mk_store fs w id, Ok lsn)
  end.

(** The row loop of [recover]: an undecodable tuple is skipped. *)
Fixpoint load_tuples (t : Table Expr) (tuples : list (list Z)) : run (Table Expr) :=
  match tuples with
  | [] => Val t
  | bytes :: tuples =>
      o ← decode_row bytes;
      match o with
      | Some row => t ← push_row eval_expr t row; load_tuples t tuples
      | None => load_tuples t tuples
      end
  end.

Definition recover_table (fs : gmap str (list Z)) (tc : TableCatalog) : res DiskError (Table Expr) :=
  let t := table_new (tc_name tc) ((fun '(n, dt, nn) => column_basic n dt nn) <$> tc_columns tc) in
  match fs !! heap_file_name (tc_name tc) with
  | None => mret t
  | Some contents =>
      match iter_tuples (heap_open contents) with
      | Panic => Panic
      | Val (Err e) => fail (DIo e)
      | Val (Ok l) => lift (load_tuples t (l.*2))
      end
  end.

(** The table loop of [recover]; a table whose name is taken is dropped. *)
Fixpoint recover_tables (fs : gmap str (list Z)) (db : Database Expr Select) (catalog : list TableCatalog)
    : res DiskError (Database Expr Select) :=
  match catalog with
  | [] => mret db
  | tc :: catalog =>
      t ← recover_table fs tc;
      recover_tables fs (match create_table db t with Ok db => db | Err _ => db end) catalog
  end.

(** [DiskStore::recover]; the replay of the WAL tail applies nothing. *)
Definition recover (st : DiskStore) : res DiskError (Database Expr Select) :=
  catalog ← (Val (read_catalog (files st !! CATALOG)) : res DiskError (list TableCatalog));
  recover_tables (files st) db_new catalog.

(** [DiskStore::base_backup] into a directory with the files [dest]: the plain
    files are copied over, sub-directories are not. *)
Definition base_backup (st : DiskStore) (db : Database Expr Select) (dest : gmap str (list Z))
    : run (DiskStore * result IoError unit * gmap str (list Z)) :=
  '(st, r) ← checkpoint st db;
  match r with
  | Err e => Val (st, Err e, dest)
  | Ok _ => Val (st, Ok tt, files st ∪ dest)
  end.

End store.

(** * Specification *)

(** A value the codec can store: the widths and UTF-8 validity the Rust types
    guarantee, and a numeric whose scale [parse] can read back. *)
Definition cell_ok (v : Value) : Prop :=
  value_wf v /\ match v with Num d => scale d < 2 ^ 63 | _ => True end.

(** The same value; a numeric may have other leading zeros. *)
Definition cell_equiv (v v' : Value) : Prop :=
  match v, v' with
  | Num a, Num b => bd_wf b /\ negative b = negative a /\ scale b = scale a /\ unscaled b = unscaled a
  | Num _, _ | _, Num _ => False
  | _, _ => v = v'
  end.
Definition row_equiv : list Value -> list Value -> Prop := Forall2 cell_equiv.

(** A row that fits a page. *)
Definition row_fits (row : list Value) : Prop := Forall cell_ok row /\ zlen (encode_row row) <= MAX_TUPLE.

(** A catalog entry the text format can carry: UTF-8 names, and no carriage
    return at the end of a table name. *)
Definition name_text (s : str) : Prop := utf8_valid s = true.
Definition catalog_ok (t : TableCatalog) : Prop :=
  name_text (tc_name t) /\ last (tc_name t) <> Some 13 /\ Forall (fun c => name_text (c.1.1)) (tc_columns t).

(** * Proofs *)

(** ** The codec *)

#[local] Arguments decode_str : simpl never.
#[local] Arguments encode_str : simpl never.
#[local] Arguments take_slice : simpl never.
#[local] Arguments to_canonical_string : simpl never.
#[local] Arguments parse : simpl never.

Lemma take_slice_app (a b : list Z) n : n = zlen a -> take_slice n (a ++ b) = Some (a, b).
Proof.
  intros ->. unfold take_slice. rewrite zlen_app. pose proof (zlen_nonneg b). ztrue (zlen a <=? zlen a + zlen b).
  by rewrite ztake_app_exact, zdrop_app_exact.
Qed.

Lemma decode_str_encode s rest : zlen s < 2 ^ 32 -> utf8_valid s = true -> decode_str (encode_str s ++ rest) = Some (s, rest).
Proof.
  intros Hl Hv. unfold decode_str, encode_str. rewrite <- app_assoc, take_slice_app by (by rewrite zlen_le_bytes).
  cbn [mbind option_bind]. pose proof (zlen_nonneg s). rewrite le_val_bytes by (change (256 ^ Z.of_nat 4) with (2 ^ 32); lia).
  rewrite take_slice_app by done. cbn [mbind option_bind]. by rewrite Hv.
Qed.

Lemma encode_row_bytes row : Forall cell_ok row -> Forall is_byte (encode_row row).
Proof.
  intros F. unfold encode_row. apply Forall_app. split; [apply le_bytes_byte|].
  induction F as [|v row [W _] F IH]; [constructor|]. cbn [flat_map]. apply Forall_app. split; [|done].
  assert (forall s, Forall is_byte s -> Forall is_byte (encode_str s)) as S
    by (intros s Hs; unfold encode_str; apply Forall_app; split; [apply le_bytes_byte|done]).
  destruct v as [|i|f|d|s|b]; cbn [encode_cell]; (apply Forall_cons; split; [done|]).
  - apply Forall_nil_2.
  - apply le_bytes_byte.
  - apply le_bytes_byte.
  - apply S. eapply Forall_impl; [exact (canonical_ascii d W)|]. unfold is_byte. cbn. lia.
  - apply S, W.
  - apply Forall_cons. split; [by destruct b|apply Forall_nil_2].
Qed.

Lemma encode_cell_pos v : 1 <= zlen (encode_cell v).
Proof. destruct v; cbn [encode_cell]; rewrite zlen_cons; match goal with |- 1 <= 1 + zlen ?l => pose proof (zlen_nonneg l); lia end. Qed.

Lemma decode_cell_encode v rest :
  cell_ok v -> zlen (encode_cell v) < 2 ^ 32 ->
  exists v', decode_cell (encode_cell v ++ rest) = Val (Some (v', rest)) /\ cell_equiv v v'.
Proof.
  intros [W S] Hl. destruct v as [|i|f|d|s|b]; cbn [encode_cell app] in *; cbn [decode_cell].
  - by exists Null.
  - exists (Int i). rewrite take_slice_app by (by rewrite zlen_le_bytes). change (Val (Some (Int (to_signed 64 (le_val (le_bytes 8 i))), rest)) = Val (Some (Int i, rest)) /\ Int i = Int i).
    by rewrite (le_i64_roundtrip i W).
  - exists (Float f). rewrite take_slice_app by (by rewrite zlen_le_bytes). cbn [mbind option_bind]. by rewrite le_val_bytes.
  - rewrite zlen_cons in Hl. unfold encode_str in Hl. rewrite zlen_app, zlen_le_bytes in Hl.
    pose proof (canonical_valid d W) as A. cbn. rewrite decode_str_encode by (done || lia).
    destruct (print_parse_ok d W S) as (d' & -> & W' & N & Sc & U). cbn. exists (Num d'). split; [done|]. done.
  - rewrite zlen_cons in Hl. unfold encode_str in Hl. rewrite zlen_app, zlen_le_bytes in Hl. destruct W as [_ V].
    cbn. rewrite decode_str_encode by (done || lia). by exists (Text s).
  - exists (Bool b). cbn. change (Z.b2z b :: rest) with ([Z.b2z b] ++ rest).
    rewrite take_slice_app by done. by destruct b.
Qed.

Lemma decode_cells_encode row : forall fuel,
  Forall cell_ok row -> zlen (flat_map encode_cell row) < 2 ^ 32 -> (length row <= fuel)%nat ->
  exists row', decode_cells fuel (zlen row) (flat_map encode_cell row) = Val (Some row') /\ row_equiv row row'.
Proof.
  induction row as [|v row IH]; intros fuel F Hl Hf.
  - exists []. split; [by destruct fuel|]. apply Forall2_nil_2.
  - destruct fuel as [|fuel]; cbn [length] in Hf; [lia|]. apply Forall_cons in F as [Hv F].
    cbn [flat_map] in *. rewrite zlen_app in Hl. pose proof (zlen_nonneg (encode_cell v)). pose proof (zlen_nonneg (flat_map encode_cell row)).
    destruct (decode_cell_encode v (flat_map encode_cell row) Hv) as (v' & E & Ev); [lia|].
    destruct (IH fuel F) as (row' & E' & Er); [lia|lia|].
    cbn [decode_cells]. rewrite zlen_cons. pose proof (zlen_nonneg row). zfalse (1 + zlen row =? 0).
    rewrite E. cbn [mbind run_bind]. replace (1 + zlen row - 1) with (zlen row) by lia. rewrite E'. cbn.
    exists (v' :: row'). split; [done|]. by constructor.
Qed.

Lemma flat_map_length_le row : zlen row <= zlen (flat_map encode_cell row).
Proof.
  induction row as [|v row IH]; [done|]. cbn [flat_map]. rewrite zlen_app, zlen_cons. pose proof (encode_cell_pos v). lia.
Qed.

Lemma decode_encode_row row :
  Forall cell_ok row -> zlen (encode_row row) < 2 ^ 32 ->
  exists row', decode_row (encode_row row) = Val (Some row') /\ row_equiv row row'.
Proof.
  intros F Hl. unfold encode_row in *. rewrite zlen_app, zlen_le_bytes in Hl. unfold decode_row.
  rewrite take_slice_app by (by rewrite zlen_le_bytes). pose proof (flat_map_length_le row). pose proof (zlen_nonneg row).
  rewrite le_val_bytes by (change (256 ^ Z.of_nat 4) with (2 ^ 32); lia). apply decode_cells_encode; [done|lia|unfold zlen in *; lia].
Qed.

(** ** The catalog *)

(** The three replacements of [escape] at once. *)
Definition esc (c : Z) : str :=
  if c =? BACKSLASH then [BACKSLASH; BACKSLASH] else if c =? TAB then [BACKSLASH; 116]
  else if c =? NL then [BACKSLASH; 110] else [c].

Lemma escape_esc s : escape s = flat_map esc s.
Proof.
  unfold escape, replace_char. induction s as [|c s IH]; [done|]. cbn [flat_map]. rewrite <- IH. unfold esc.
  destruct (c =? BACKSLASH) eqn:E1; [done|]. cbn [app flat_map].
  destruct (c =? TAB) eqn:E2; [done|]. cbn [app flat_map]. done.
Qed.

Lemma unescape_escape s : unescape (escape s) = s.
Proof.
  rewrite escape_esc. induction s as [|c s IH]; [done|]. cbn [flat_map]. unfold esc at 1.
  destruct (c =? BACKSLASH) eqn:E1; zb; [subst; cbn; by rewrite IH|].
  destruct (c =? TAB) eqn:E2; zb; [subst; cbn; by rewrite IH|].
  destruct (c =? NL) eqn:E3; zb; [subst; cbn; by rewrite IH|]. cbn. zfalse (c =? BACKSLASH). by rewrite IH.
Qed.

Lemma escape_clean s : Forall (fun c => c <> TAB /\ c <> NL) (escape s).
Proof.
  rewrite escape_esc. induction s as [|c s IH]; [constructor|]. cbn [flat_map]. apply Forall_app. split; [|done].
  unfold esc. repeat case_match; zb; repeat constructor; done.
Qed.

Lemma escape_valid s : utf8_valid s = true -> utf8_valid (escape s) = true.
Proof.
  rewrite escape_esc. revert s. apply utf8_valid_ind; [done|]. intros ch rest Hc _ IH. rewrite flat_map_app.
  destruct (char_ok_bytes ch Hc) as [(c & -> & Ha)|F].
  - cbn [flat_map]. rewrite app_nil_r. apply utf8_valid_app; [|done]. apply utf8_valid_ascii.
    unfold esc, BACKSLASH. repeat case_match; repeat constructor; done.
  - replace (flat_map esc ch) with ch; [by rewrite utf8_valid_char|]. clear -F. induction F as [|c ch Hc F IH]; [done|].
    cbn [flat_map]. rewrite <- IH. unfold esc, BACKSLASH, TAB, NL. by zfalse (c =? 92); zfalse (c =? 9); zfalse (c =? 10).
Qed.

Lemma escape_last s : last s <> Some 13 -> last (escape s) <> Some 13.
Proof.
  rewrite escape_esc. destruct s as [|c s _] using rev_ind; [done|]. rewrite last_snoc, flat_map_app. intros H.
  assert (exists l d, esc c = l ++ [d] /\ d <> 13) as (l & d & E & Hd).
  { unfold esc, BACKSLASH. repeat case_match; [by exists [92], 92|by exists [92], 116|by exists [92], 110|].
    exists [], c. split; [done|]. congruence. }
  cbn [flat_map]. rewrite app_nil_r, E, app_assoc, last_snoc. congruence.
Qed.

(** The lines of the catalog without their newlines. *)
Definition table_head (t : TableCatalog) : str := lit "table" ++ TAB :: escape (tc_name t).
Definition col_text (c : str * DataType * bool) : str :=
  lit "col" ++ TAB :: escape (c.1.1) ++ TAB :: pg_type_name (c.1.2) ++ TAB :: [if c.2 then 49 else 48].
Definition all_lines (ts : list TableCatalog) : list str :=
  flat_map (fun t => table_head t :: (col_text <$> tc_columns t)) ts.

Lemma write_catalog_lines ts : write_catalog ts = flat_map (fun l => l ++ [10]) (all_lines ts).
Proof.
  unfold write_catalog, all_lines. induction ts as [|t ts IH]; [done|]. cbn [flat_map]. rewrite flat_map_app, IH. f_equal.
  assert (flat_map col_line (tc_columns t) = flat_map (fun l => l ++ [10]) (col_text <$> tc_columns t)) as E.
  { induction (tc_columns t) as [|[[n dt] nn] cs IHc]; [done|]. cbn [flat_map fmap list_fmap]. rewrite IHc. f_equal.
    unfold col_line, col_text. cbn [fst snd]. cbn [app].
    repeat (rewrite <- app_assoc; cbn [app]). by destruct nn. }
  unfold table_lines, table_head. cbn [flat_map]. rewrite E. repeat rewrite <- app_assoc. reflexivity.
Qed.

Lemma pg_type_name_clean dt : Forall (fun c => c <> TAB /\ c <> NL) (pg_type_name dt).
Proof.
  eapply Forall_impl; [apply pg_type_name_graph|]. unfold TAB, NL. cbn. lia.
Qed.

Lemma clean_nl s : Forall (fun c => c <> TAB /\ c <> NL) s -> Forall (fun c => c <> 10) s.
Proof. intros F. eapply Forall_impl; [exact F|]. by intros c [_ ?]. Qed.
Lemma clean_tab s : Forall (fun c => c <> TAB /\ c <> NL) s -> Forall (fun c => c <> TAB) s.
Proof. intros F. eapply Forall_impl; [exact F|]. by intros c [? _]. Qed.

(** Every line is free of newlines and does not end in a carriage return. *)
Lemma all_lines_ok ts : Forall catalog_ok ts -> forall l, l ∈ all_lines ts ->
  Forall (fun c => c <> 10) l /\ exists l' d, l = l' ++ [d] /\ d <> 13.
Proof.
  intros F l. unfold all_lines. rewrite list_elem_of_In, in_flat_map. intros (t & Ht & Hl).
  apply list_elem_of_In in Ht, Hl. rewrite Forall_forall in F. destruct (F t Ht) as (_ & Hlast & _).
  apply elem_of_cons in Hl as [->|Hl].
  - split.
    + unfold table_head. apply Forall_app. split; [by repeat constructor|]. constructor; [done|]. apply clean_nl, escape_clean.
    + apply escape_last in Hlast. unfold table_head. destruct (escape (tc_name t)) as [|c s _] using rev_ind.
      * by exists (lit "table"), TAB.
      * rewrite last_snoc in Hlast. exists (lit "table" ++ TAB :: s), c. rewrite <- app_assoc. split; [done|congruence].
  - apply list_elem_of_fmap in Hl as (c & -> & _). unfold col_text. split.
    + apply Forall_app. split; [by repeat constructor|]. constructor; [done|].
      apply Forall_app. split; [apply clean_nl, escape_clean|]. constructor; [done|].
      apply Forall_app. split; [apply clean_nl, pg_type_name_clean|]. destruct (c.2); by repeat constructor.
    + exists (lit "col" ++ TAB :: escape (c.1.1) ++ TAB :: pg_type_name (c.1.2) ++ [TAB]), (if c.2 then 49 else 48).
      split; [|by destruct (c.2)]. cbn. rewrite <- !app_assoc. cbn. by rewrite <- !app_assoc.
Qed.

Lemma datatype_from_pg_name_ok dt : datatype_from_pg_name (pg_type_name dt) = Some dt.
Proof.
  unfold datatype_from_pg_name. destruct (List.find _ ALL) as [u|] eqn:E.
  - apply find_some in E as [_ E]. unfold str_eqb in E. apply bool_decide_eq_true in E. by apply pg_type_name_inj in E as ->.
  - pose proof (find_none _ _ E dt) as H. rewrite <- list_elem_of_In in H. specialize (H (ALL_complete dt)).
    unfold str_eqb in H. by rewrite bool_decide_eq_true_2 in H.
Qed.

Lemma read_head acc t : catalog_line acc (table_head t) = acc ++ [mk_tc (tc_name t) []].
Proof.
  unfold catalog_line, table_head. rewrite split_app by (repeat constructor; done).
  rewrite split_none by (apply clean_tab, escape_clean). cbn. by rewrite unescape_escape.
Qed.

Lemma read_col acc t c :
  catalog_line (acc ++ [t]) (col_text c) = acc ++ [mk_tc (tc_name t) (tc_columns t ++ [c])].
Proof.
  destruct c as [[n dt] nn]. unfold catalog_line, col_text. cbn [fst snd].
  rewrite split_app by (repeat constructor; done). rewrite split_app by (apply clean_tab, escape_clean).
  rewrite split_app by (apply clean_tab, pg_type_name_clean). rewrite split_none by (destruct nn; repeat constructor; done).
  cbn [str_eqb]. unfold push_column. rewrite last_snoc.
  replace (length (acc ++ [t]) - 1)%nat with (length acc) by (rewrite length_app; cbn; lia). rewrite take_app_length.
  rewrite unescape_escape, datatype_from_pg_name_ok. by destruct nn.
Qed.

Lemma read_lines ts : forall acc, foldl catalog_line acc (all_lines ts) = acc ++ ts.
Proof.
  induction ts as [|t ts IH]; intros acc; [by rewrite app_nil_r|]. unfold all_lines. cbn [flat_map]. rewrite foldl_app.
  cbn [foldl]. rewrite read_head.
  assert (forall cs t0, foldl catalog_line (acc ++ [t0]) (col_text <$> cs) = acc ++ [mk_tc (tc_name t0) (tc_columns t0 ++ cs)]) as G.
  { induction cs as [|c cs IHc]; intros t0; [rewrite app_nil_r; by destruct t0|]. cbn [fmap list_fmap foldl].
    rewrite read_col, IHc. cbn. by rewrite <- app_assoc. }
  rewrite G. cbn [tc_name tc_columns app]. fold (all_lines ts). rewrite IH, <- app_assoc. by destruct t.
Qed.

Lemma write_catalog_valid ts : Forall catalog_ok ts -> utf8_valid (write_catalog ts) = true.
Proof.
  intros F. unfold write_catalog. induction F as [|t ts (N & _ & C) F IH]; [done|]. cbn [flat_map].
  apply utf8_valid_app; [|done]. unfold table_lines. repeat (apply utf8_valid_app; [done || by apply escape_valid|]).
  induction C as [|[[n dt] nn] cs Hn C IHc]; [done|]. cbn [flat_map]. apply utf8_valid_app; [|done].
  unfold col_line. repeat (apply utf8_valid_app; [done || by apply escape_valid|]).
  apply utf8_valid_app; [|by destruct nn]. apply utf8_valid_ascii. eapply Forall_impl; [apply pg_type_name_graph|]. cbn. lia.
Qed.

Lemma catalog_roundtrip ts : Forall catalog_ok ts -> read_catalog (Some (write_catalog ts)) = Ok ts.
Proof.
  intros F. unfold read_catalog. rewrite (write_catalog_valid ts F), write_catalog_lines.
  rewrite (lines_flat (fun l => l) (all_lines ts)) by (apply all_lines_ok, F). rewrite list_fmap_id, read_lines. done.
Qed.

(** ** Appending through the buffer *)

#[local] Arguments get_page : simpl never.
#[local] Arguments new_page : simpl never.
#[local] Arguments insert_tuple : simpl never.
#[local] Arguments encode_row : simpl never.

Lemma buf_count b ls : buf_rep b ls -> buf_page_count b = zlen ls.
Proof. intros Hr. destruct (rep_disk b ls Hr) as (ds & Hh & Hlen & _). unfold buf_page_count. by rewrite (proj1 Hh). Qed.

Lemma insert_snoc (ls : list Page) (p p' : Page) : <[Z.to_nat (zlen ls) := p']> (ls ++ [p]) = ls ++ [p'].
Proof. unfold zlen. rewrite Nat2Z.id, insert_app_r_alt by lia. by rewrite Nat.sub_diag. Qed.

(** Reading the last page and inserting into it. *)
Lemma insert_last b ls q tuple :
  buf_rep b (ls ++ [q]) -> Forall is_byte tuple -> tuple <> [] ->
  exists b' p, get_page b (zlen ls) = Val (b', Ok p) /\ buf_rep b' (ls ++ [q])
    /\ page_wf p /\ header p = header q
    /\ match insert_tuple p tuple with
       | (p', Some slot) => exists ls', buf_rep (mark_dirty (store_page b' (zlen ls) p') (zlen ls)) ls'
           /\ tuples_from 0 ls' = tuples_from 0 (ls ++ [q]) ++ [(zlen ls, slot, tuple)]
       | (_, None) => True
       end.
Proof.
  intros Hr Hb Hne. destruct (get_page_rep b (ls ++ [q]) (zlen ls) Hr) as (b' & p & Hg & Hr' & Hwf & Hl & d & u & Hp).
  { rewrite zlen_app. pose proof (zlen_nonneg ls). change (zlen [q]) with 1. lia. }
  rewrite zget_app_r, Z.sub_diag in Hl by lia. injection Hl as ->.
  exists b', p. split_and!; [done|done|done|done|].
  destruct (insert_tuple p tuple) as [p' [slot|]] eqn:Hi; [|done].
  assert (page_wf p') as Hwf' by (pose proof (insert_tuple_wf p tuple Hwf Hb) as H; by rewrite Hi in H).
  destruct (scrub_live_snoc _ _ _ _ Hwf Hne Hi) as [_ Hs].
  eexists. split; [by eapply modify_rep|]. rewrite insert_snoc, !tuples_from_app. cbn [tuples_from].
  by rewrite Hs, scrub_slots, !app_nil_r, fmap_app, app_assoc, Z.add_0_l.
Qed.

Lemma append_new_rep b ls tuple :
  buf_rep b ls -> Forall is_byte tuple -> tuple <> [] ->
  exists b' ls', buf_rep b' ls' /\
    if zlen tuple <=? MAX_TUPLE then append_new b tuple = Val (b', Ok tt) /\ (tuples_from 0 ls').*2 = (tuples_from 0 ls).*2 ++ [tuple]
    else append_new b tuple = Val (b', Err InvalidInput).
Proof.
  intros Hr Hb Hne. unfold append_new. destruct (new_page_rep b ls Hr) as (b1 & -> & Hr1). cbn.
  destruct (insert_last b1 ls page_new tuple Hr1 Hb Hne) as (b2 & p & Hg & Hr2 & Hwf & Hh & Hi). rewrite Hg. cbn.
  assert (h_upper (header p) - h_lower (header p) = MAX_TUPLE + ITEM_ID_SIZE) as Hsp by (by rewrite Hh).
  destruct (zlen tuple <=? MAX_TUPLE) eqn:E; zb.
  - destruct (insert_tuple_some p tuple Hwf Hb) as (p' & Ei & _); [lia|]. rewrite Ei in Hi |- *.
    destruct Hi as (ls' & Hr' & Ht). eexists _, ls'. split_and!; [exact Hr'|done|].
    rewrite Ht, fmap_app, tuples_from_app. cbn. by rewrite app_nil_r.
  - rewrite insert_tuple_full by lia. by eexists _, _.
Qed.

Lemma append_via_buffer_rep b ls tuple :
  buf_rep b ls -> Forall is_byte tuple -> tuple <> [] ->
  exists b' ls', buf_rep b' ls' /\
    if zlen tuple <=? MAX_TUPLE
    then append_via_buffer b tuple = Val (b', Ok tt) /\ (tuples_from 0 ls').*2 = (tuples_from 0 ls).*2 ++ [tuple]
    else append_via_buffer b tuple = Val (b', Err InvalidInput).
Proof.
  intros Hr Hb Hne. unfold append_via_buffer. rewrite (buf_count b ls Hr).
  destruct ls as [|q ls _] using rev_ind; [by apply append_new_rep|].
  rewrite zlen_app. change (zlen [q]) with 1. pose proof (zlen_nonneg ls). ztrue (0 <? zlen ls + 1).
  replace (zlen ls + 1 - 1) with (zlen ls) by lia.
  destruct (insert_last b ls q tuple Hr Hb Hne) as (b2 & p & Hg & Hr2 & Hwf & Hh & Hi). rewrite Hg. cbn.
  destruct (insert_tuple p tuple) as [p' [slot|]] eqn:Ei; [|by apply append_new_rep].
  destruct Hi as (ls' & Hr' & Ht). eexists _, ls'. split; [exact Hr'|].
  destruct (zlen tuple <=? MAX_TUPLE) eqn:E; zb; [split; [done|]; by rewrite Ht, fmap_app|].
  exfalso. pose proof (page_wf_upper_max p Hwf). pose proof (page_wf_lower_min p Hwf).
  rewrite insert_tuple_full in Ei by (unfold MAX_TUPLE in *; lia). done.
Qed.

Lemma encode_row_nonempty row : encode_row row <> [].
Proof. unfold encode_row. cbn. done. Qed.

Lemma append_rows_rep rows : forall b ls,
  buf_rep b ls -> Forall row_fits rows ->
  exists b' ls', append_rows b rows = Val (b', Ok tt) /\ buf_rep b' ls'
    /\ (tuples_from 0 ls').*2 = (tuples_from 0 ls).*2 ++ (encode_row <$> rows).
Proof.
  induction rows as [|row rows IH]; intros b ls Hr F.
  - exists b, ls. by rewrite app_nil_r.
  - apply Forall_cons in F as [[Hc Hl] F].
    destruct (append_via_buffer_rep b ls (encode_row row) Hr (encode_row_bytes row Hc) (encode_row_nonempty row))
      as (b1 & ls1 & Hr1 & H). revert H.
    replace (zlen (encode_row row) <=? MAX_TUPLE) with true by (symmetry; by apply Z.leb_le). intros [Ha Ht].
    destruct (IH b1 ls1 Hr1 F) as (b' & ls' & Ha' & Hr' & Ht'). cbn [append_rows]. rewrite Ha. cbn [mbind run_bind].
    exists b', ls'. split_and!; [done|done|]. by rewrite Ht', Ht, <- app_assoc.
Qed.

(** ** Checkpoint *)

(** The heap file of table [name] holds the rows. *)
Definition holds (fs : gmap str (list Z)) (name : str) (rows : list (list Value)) : Prop :=
  exists f l, fs !! heap_file_name name = Some f /\ iter_tuples (heap_open f) = Val (Ok l) /\ l.*2 = encode_row <$> rows.

Lemma heap_file_not_catalog name : heap_file_name name <> CATALOG.
Proof.
  intros E. assert (last (heap_file_name name) = Some 112) as L.
  { unfold heap_file_name. change (lit ".heap") with (lit ".hea" ++ [112]). by rewrite app_assoc, last_snoc. }
  rewrite E in L. discriminate L.
Qed.

Section store_proofs.
Context {Expr Select : Type} (eval_expr : Expr -> list str -> list Value -> result str Value) (kinds : str -> nat -> Kind).
Implicit Types (t : Table Expr) (db : Database Expr Select).

(** The rows of a table as readers see them. *)
Definition table_rows t : list (list Value) := detoast_row (chunks (toast t)) <$> rows t.

Lemma table_rows_rep t L : table_rep eval_expr kinds t L -> table_rows t = L.*2.
Proof.
  intros R. destruct (tr_toast _ _ _ _ R) as (F & _). unfold table_rows.
  induction F as [|s l ss ls H F IH]; [done|]. cbn. f_equal; [by apply row_rep_detoast|exact IH].
Qed.

Lemma table_rows_plain t L : table_rep eval_expr kinds t L -> Forall (Forall plain) (L.*2).
Proof.
  intros R. destruct (tr_toast _ _ _ _ R) as (F & _). induction F as [|s l ss ls H F IH]; [constructor|].
  constructor; [|done]. clear -H. induction H as [|c v cs vs [P _] H IH]; [constructor|]. by constructor.
Qed.

Lemma checkpoint_table_ok fs name t :
  Forall row_fits (table_rows t) ->
  exists f, checkpoint_table fs name t = Val (<[heap_file_name name := f]> fs, Ok tt)
    /\ holds (<[heap_file_name name := f]> fs) name (table_rows t).
Proof.
  intros F. unfold checkpoint_table. fold (table_rows t).
  destruct (append_rows_rep (table_rows t) (buf_new (heap_open []) POOL_PAGES) []) as (b & ls & -> & Hr & Ht);
    [apply buf_new_rep, heap_open_empty|done|]. cbn [mbind run_bind].
  destruct (flush_all_rep b ls Hr) as (b' & -> & _ & Hh). cbn [mbind run_bind].
  exists (file (b_heap b')). split; [done|]. exists (file (b_heap b')), (tuples_from 0 ls).
  split_and!; [by rewrite lookup_insert_eq|by apply iter_tuples_rep, heap_reopen|done].
Qed.

Definition catalogs db (names : list str) : list TableCatalog := omap (fun n => catalog_of n <$> tables db !! n) names.

Lemma checkpoint_tables_ok db names : forall fs cat,
  NoDup names ->
  (forall n1 n2, n1 ∈ names -> n2 ∈ names -> heap_file_name n1 = heap_file_name n2 -> n1 = n2) ->
  (forall n t, n ∈ names -> tables db !! n = Some t -> Forall row_fits (table_rows t)) ->
  exists fs', checkpoint_tables fs cat db names = Val (fs', Ok (cat ++ catalogs db names))
    /\ (forall n t, n ∈ names -> tables db !! n = Some t -> holds fs' n (table_rows t))
    /\ (forall path, path ∉ heap_file_name <$> names -> fs' !! path = fs !! path).
Proof.
  induction names as [|name names IH]; intros fs cat Nd Inj Fits.
  - exists fs. split_and!; [by rewrite app_nil_r|by intros n t ?%elem_of_nil|done].
  - apply NoDup_cons in Nd as [Ni Nd].
    assert (forall n, n ∈ names -> n ∈ name :: names) as Sub by (intros n Hn; by right).
    assert (heap_file_name name ∉ heap_file_name <$> names) as Nf.
    { intros (n & E & Hn)%list_elem_of_fmap. apply Ni. rewrite (Inj name n ltac:(by left) (Sub n Hn) E). done. }
    cbn [checkpoint_tables catalogs omap list_omap]. destruct (tables db !! name) as [t|] eqn:Et; cbn [fmap option_fmap option_map].
    + destruct (checkpoint_table_ok fs name t) as (f & -> & Hf); [by apply (Fits name t); [left|]|]. cbn [mbind run_bind].
      destruct (IH (<[heap_file_name name := f]> fs) (cat ++ [catalog_of name t]) Nd) as (fs' & -> & Hh & Ho); [eauto..|].
      exists fs'. split_and!; [by rewrite <- app_assoc| |].
      * intros n u [->|Hn]%elem_of_cons Hu; [|by eapply Hh]. rewrite Et in Hu. injection Hu as <-.
        destruct Hf as (f' & l & E1 & E2 & E3). exists f', l. split_and!; [|done|done]. by rewrite Ho.
      * intros path Hp. rewrite fmap_cons, not_elem_of_cons in Hp. destruct Hp as [Hp1 Hp2].
        rewrite Ho by done. by rewrite lookup_insert_ne.
    + destruct (IH fs cat Nd) as (fs' & -> & Hh & Ho); [eauto..|]. exists fs'. split_and!; [done| |].
      * intros n u [->|Hn]%elem_of_cons Hu; [congruence|by eapply Hh].
      * intros path Hp. rewrite fmap_cons, not_elem_of_cons in Hp. apply Ho, (proj2 Hp).
Qed.

(** ** Recovery *)

Lemma toast_row_next row : forall ts, next_toast_id (toast_row ts row).1 <= next_toast_id ts + zlen row.
Proof.
  induction row as [|v row IH]; intros ts; cbn [toast_row]; [rewrite zlen_nil; cbn; lia|].
  destruct (toast_cell ts v) as [ts1 v1] eqn:E. specialize (IH ts1). destruct (toast_row ts1 row) as [ts2 row2]. cbn in *.
  rewrite zlen_cons. assert (next_toast_id ts1 <= next_toast_id ts + 1); [|lia].
  destruct v; cbn in E; repeat case_match; injection E as <- _; cbn; lia.
Qed.

Lemma push_row_meta t row t' :
  push_row eval_expr t row = Val t' -> t_name t' = t_name t /\ toast t' = (toast_row (toast t) row).1.
Proof.
  unfold push_row. destruct (index_row _ _ _ _ _); cbn [mbind run_bind]; [|discriminate].
  destruct (assign_live_storage _ _ _ _); cbn [mbind run_bind]; [|discriminate].
  destruct (toast_row (toast t) row). intros [= <-]. done.
Qed.

Definition total_cells (rows : list (list Value)) : Z := sum_list (zlen <$> rows).

Lemma row_equiv_plain row row' : row_equiv row row' -> Forall plain row -> Forall plain row'.
Proof.
  induction 1 as [|v v' row row' E H IH]; [done|]. intros [P F]%Forall_cons. constructor; [|by apply IH].
  destruct v, v'; cbn in E; try exact I; try discriminate E; by destruct E.
Qed.

Lemma load_tuples_ok rows : forall t L,
  table_rep eval_expr kinds t L -> indexes t = [] -> Forall row_fits rows -> Forall (Forall plain) rows ->
  next_toast_id (toast t) + total_cells rows <= 2 ^ 64 ->
  exists t' L', load_tuples eval_expr t (encode_row <$> rows) = Val t' /\ table_rep eval_expr kinds t' (L ++ L')
    /\ Forall2 row_equiv rows (L'.*2) /\ t_name t' = t_name t /\ columns t' = columns t /\ indexes t' = [].
Proof.
  induction rows as [|row rows IH]; intros t L R Ix Fits Pl Hn.
  - exists t, []. rewrite app_nil_r. split_and!; [done..|apply Forall2_nil_2|done|done|done].
  - apply Forall_cons in Fits as [[Hc Hl] Fits]. apply Forall_cons in Pl as [P Pl].
    change (total_cells (row :: rows)) with (zlen row + total_cells rows) in Hn.
    assert (0 <= total_cells rows) as Hp.
    { clear. induction rows as [|r rows IH]; [done|]. change (total_cells (r :: rows)) with (zlen r + total_cells rows).
      pose proof (zlen_nonneg r). lia. }
    destruct (decode_encode_row row Hc) as (row' & Ed & Er).
    { assert (MAX_TUPLE < 2 ^ 32) by done. lia. }
    assert (zlen row' = zlen row) as Hlr by (unfold zlen; by rewrite (Forall2_length _ _ _ Er)).
    destruct (push_ok eval_expr kinds t L row' R) as (t1 & Ep & R1 & C1 & M1).
    { split_and!; [by eapply row_equiv_plain|rewrite Ix; apply Forall_nil_2|lia]. }
    destruct (push_row_meta t row' t1 Ep) as [N1 T1].
    destruct (IH t1 _ R1) as (t' & L' & El & R' & E' & N' & C' & I').
    { rewrite Ix in M1. by apply Forall2_nil_inv_l in M1. }
    { done. } { done. }
    { rewrite T1. pose proof (toast_row_next row' (toast t)). lia. }
    exists t', ((next_row_id t, row') :: L'). cbn [fmap list_fmap load_tuples]. rewrite Ed. cbn [mbind run_bind]. rewrite Ep.
    cbn [mbind run_bind]. rewrite <- app_assoc in R'. split_and!; [exact El|exact R'|by constructor|congruence|congruence|exact I'].
Qed.

(** What recovery makes of one catalog entry. *)
Definition recovered (tc : TableCatalog) (rows : list (list Value)) t' : Prop :=
  columns t' = (fun '(n, ty, nn) => column_basic n ty nn) <$> tc_columns tc /\ indexes t' = [] /\ t_name t' = tc_name tc
  /\ exists L', table_rep eval_expr kinds t' L' /\ Forall2 row_equiv rows (L'.*2).

Lemma recover_table_ok fs tc rows :
  holds fs (tc_name tc) rows -> Forall row_fits rows -> Forall (Forall plain) rows -> total_cells rows <= 2 ^ 64 ->
  exists t', recover_table eval_expr fs tc = Val (Ok t') /\ recovered tc rows t'.
Proof.
  intros (f & l & Ef & Ei & El) Fits Pl Hn. unfold recover_table. rewrite Ef, Ei, El.
  set (t0 := table_new _ _).
  destruct (load_tuples_ok rows t0 []) as (t' & L' & E & R & Er & N & C & I); [apply table_new_ok|done..|]. rewrite E.
  exists t'. split; [done|]. split_and!; [by rewrite C|done|done|by exists L'].
Qed.

Lemma recover_tables_ok fs cats ts : forall db,
  Forall2 (fun tc t' => recover_table eval_expr fs tc = Val (Ok t')) cats ts ->
  NoDup (t_name <$> ts) -> (forall t', t' ∈ ts -> tables db !! t_name t' = None) ->
  views db = ∅ -> materialized_views db = ∅ ->
  exists db', recover_tables eval_expr fs db cats = Val (Ok db')
    /\ tables db' = foldl (fun m t' => <[t_name t' := t']> m) (tables db) ts.
Proof.
  intros db F. revert db. induction F as [|tc t' cats ts E F IH]; intros db Nd Fr V M; [by exists db|].
  apply NoDup_cons in Nd as [Ni Nd]. cbn [recover_tables]. rewrite E. cbn [mbind res_bind].
  assert (create_table db t' = Ok (set_tables db (<[t_name t' := t']> (tables db)))) as ->.
  { unfold create_table, contains_table, contains_view, contains_mview. rewrite V, M, !lookup_empty, (Fr t') by (by left). done. }
  apply (IH (set_tables db (<[t_name t' := t']> (tables db)))); [done| |done|done].
  intros u Hu. cbn. rewrite lookup_insert_ne; [by apply Fr; right|]. intros En. apply Ni. rewrite En.
  apply list_elem_of_fmap. by exists u.
Qed.

(** A database the disk store can carry: well-formed tables whose rows fit a
    page, names the catalog can carry, and no two tables on one heap file. *)
Record db_storable db : Prop := {
  ds_tables : forall n t, tables db !! n = Some t -> exists L, table_rep eval_expr kinds t L
    /\ Forall row_fits (L.*2) /\ total_cells (L.*2) <= 2 ^ 64 /\ catalog_ok (catalog_of n t);
  ds_files : forall n1 n2, is_Some (tables db !! n1) -> is_Some (tables db !! n2) ->
    heap_file_name n1 = heap_file_name n2 -> n1 = n2
}.

(** Files that hold the database. *)
Record saved (fs : gmap str (list Z)) db : Prop := {
  sv_catalog : fs !! CATALOG = Some (write_catalog (catalogs db (table_names db)));
  sv_heaps : forall n t, tables db !! n = Some t -> holds fs n (table_rows t)
}.

(** What the disk store brings back: the same table names; per table the same rows
    in order, and of each column its name, type and NOT NULL flag, as a column
    without default, key, identity or generation; no index. *)
Definition same_data db db' : Prop :=
  dom (tables db') = dom (tables db) /\
  forall n t L, tables db !! n = Some t -> table_rep eval_expr kinds t L ->
    exists t' L', tables db' !! n = Some t' /\ table_rep eval_expr kinds t' L'
      /\ Forall2 row_equiv (L.*2) (L'.*2)
      /\ columns t' = (fun c => column_basic (col_name c) (data_type c) (not_null c)) <$> columns t /\ indexes t' = [].

Lemma table_names_spec db n : n ∈ table_names db <-> is_Some (tables db !! n).
Proof.
  unfold table_names, sort_names. rewrite merge_sort_Permutation, list_elem_of_fmap. split.
  - intros ([k t] & -> & Ht%elem_of_map_to_list). by exists t.
  - intros [t Ht]. exists (n, t). split; [done|]. by apply elem_of_map_to_list.
Qed.
Lemma table_names_NoDup db : NoDup (table_names db).
Proof. unfold table_names, sort_names. rewrite merge_sort_Permutation. apply NoDup_fst_map_to_list. Qed.

Lemma storable_rows db n t L :
  db_storable db -> tables db !! n = Some t -> table_rep eval_expr kinds t L ->
  Forall row_fits (table_rows t) /\ Forall (Forall plain) (table_rows t) /\ total_cells (table_rows t) <= 2 ^ 64
  /\ catalog_ok (catalog_of n t) /\ table_rows t = L.*2.
Proof.
  intros S Ht R. destruct (ds_tables db S n t Ht) as (L0 & R0 & F & C & K). rewrite (table_rows_rep t L0 R0).
  split_and!; [done|by apply (table_rows_plain t)|done|done|]. by rewrite <- (table_rows_rep t L0 R0), (table_rows_rep t L R).
Qed.

Lemma checkpoint_saves st db :
  db_storable db ->
  exists st', checkpoint st db = Val (st', Ok (next_lsn (wal st))) /\ saved (files st') db
    /\ wal st' = (truncate_before (append (wal st) Checkpoint (checkpoint_id st + 1) 0 []).1 (next_lsn (wal st))).1.
Proof.
  intros S. unfold checkpoint.
  destruct (checkpoint_tables_ok db (table_names db) (files st) []) as (fs & -> & Hh & Ho).
  { apply table_names_NoDup. }
  { intros n1 n2 H1%table_names_spec H2%table_names_spec. by apply (ds_files db S). }
  { intros n t _ Ht. destruct (ds_tables db S n t Ht) as (L & R & _). by apply (storable_rows db n t L). }
  cbn [mbind run_bind]. destruct (append (wal st) Checkpoint (checkpoint_id st + 1) 0 []) as [w lsn] eqn:Ea.
  assert (lsn = next_lsn (wal st)) as -> by (unfold append in Ea; by injection Ea as _ <-).
  destruct (truncate_before w (next_lsn (wal st))) as [w' k] eqn:Et. eexists. split; [reflexivity|]. split.
  - split; cbn [files].
    + by rewrite lookup_insert_eq.
    + intros n t Ht. destruct (Hh n t) as (f & l & E1 & E2 & E3); [by apply table_names_spec|done|]. exists f, l.
      split_and!; [|done|done]. rewrite lookup_insert_ne; [done|]. intros E. by apply (heap_file_not_catalog n).
  - cbn [wal fst]. by rewrite Et.
Qed.

(** The recovered tables, one per table of the database. *)
Lemma recover_all fs db names :
  saved fs db -> db_storable db -> (forall n, n ∈ names -> is_Some (tables db !! n)) ->
  exists ts, Forall2 (fun tc t' => recover_table eval_expr fs tc = Val (Ok t')) (catalogs db names) ts
    /\ t_name <$> ts = names
    /\ forall t', t' ∈ ts -> exists t, tables db !! t_name t' = Some t
         /\ recovered (catalog_of (t_name t') t) (table_rows t) t'.
Proof.
  intros S St. induction names as [|n names IH]; intros Hn; [exists []; split_and!; [apply Forall2_nil_2|done|by intros t ?%elem_of_nil]|].
  destruct (Hn n ltac:(by left)) as [t Ht]. destruct IH as (ts & F & En & H); [intros k Hk; apply Hn; by right|].
  destruct (ds_tables db St n t Ht) as (L & R & _). destruct (storable_rows db n t L St Ht R) as (Fi & P & C & _ & _).
  destruct (recover_table_ok fs (catalog_of n t) (table_rows t)) as (t' & E & Rc); [by apply (sv_heaps fs db S)|done..|].
  assert (t_name t' = n) as Nt by apply Rc.
  exists (t' :: ts). split_and!.
  - unfold catalogs. cbn [omap list_omap]. rewrite Ht. cbn [fmap option_fmap option_map]. by constructor.
  - cbn. by rewrite Nt, En.
  - intros u [->|Hu]%elem_of_cons; [|by apply H]. exists t. rewrite Nt. done.
Qed.

Lemma foldl_insert_lookup ts : forall (m : gmap str (Table Expr)) n,
  NoDup (t_name <$> ts) ->
  foldl (fun m t' => <[t_name t' := t']> m) m ts !! n
    = match List.find (fun t' => str_eqb (t_name t') n) ts with Some t' => Some t' | None => m !! n end.
Proof.
  induction ts as [|t ts IH]; intros m n Nd; [done|]. cbn [foldl List.find fmap list_fmap]. apply NoDup_cons in Nd as [Ni Nd].
  rewrite IH by done. unfold str_eqb. destruct (bool_decide (t_name t = n)) eqn:E.
  - apply bool_decide_eq_true in E. subst n. destruct (List.find _ ts) as [u|] eqn:Eu; [|by rewrite lookup_insert_eq].
    apply find_some in Eu as [Hu Eu]. apply bool_decide_eq_true in Eu. destruct Ni. rewrite <- Eu.
    apply list_elem_of_fmap. exists u. split; [done|]. by apply list_elem_of_In.
  - apply bool_decide_eq_false in E. destruct (List.find _ ts); [done|]. by rewrite lookup_insert_ne.
Qed.

Lemma recover_saved st db :
  saved (files st) db -> db_storable db ->
  exists db', recover eval_expr st = Val (Ok db') /\ same_data db db'.
Proof.
  intros Sv St. unfold recover. rewrite (sv_catalog _ _ Sv), catalog_roundtrip.
  2: { unfold catalogs. apply Forall_forall. intros tc Htc. apply list_elem_of_omap in Htc as (n & Hn & E).
       destruct (tables db !! n) as [t|] eqn:Ht; cbn in E; [|discriminate]. injection E as <-.
       destruct (ds_tables db St n t Ht) as (L & R & _). by apply (storable_rows db n t L). }
  cbn [mbind res_bind].
  destruct (recover_all (files st) db (table_names db) Sv St) as (ts & F & En & H); [intros n; apply table_names_spec|].
  pose proof (table_names_NoDup db) as Nd. rewrite <- En in Nd.
  destruct (recover_tables_ok (files st) (catalogs db (table_names db)) ts (db_new : Database Expr Select) F Nd)
    as (db' & E & Et); [intros t' _; apply lookup_empty|done|done|].
  exists db'. split; [exact E|].
  assert (forall n, is_Some (tables db !! n) -> exists t t', tables db !! n = Some t /\ tables db' !! n = Some t'
            /\ recovered (catalog_of n t) (table_rows t) t') as G.
  { intros n Hn. apply table_names_spec in Hn as Hn'. rewrite <- En in Hn'. apply list_elem_of_fmap in Hn' as (t' & -> & Ht').
    destruct (H t' Ht') as (t & Ht & Rc). exists t, t'. split_and!; [done| |done].
    rewrite Et, foldl_insert_lookup by done. destruct (List.find _ ts) as [u|] eqn:Eu.
    - apply find_some in Eu as [Hu Eu]. apply bool_decide_eq_true in Eu. apply list_elem_of_In in Hu.
      destruct (list_elem_of_lookup_1 _ _ Hu) as [i Hi]. destruct (list_elem_of_lookup_1 _ _ Ht') as [j Hj].
      assert (i = j) as -> by (eapply (NoDup_lookup _ _ _ _ Nd); rewrite list_lookup_fmap; [by rewrite Hi|rewrite Hj; cbn; by rewrite Eu]).
      congruence.
    - exfalso. pose proof (find_none _ _ Eu t' (proj1 (list_elem_of_In _ _) Ht')) as Hf. unfold str_eqb in Hf.
      by rewrite bool_decide_eq_true_2 in Hf. }
  split.
  - apply set_eq. intros n. rewrite !elem_of_dom. split; [|intros Hn; destruct (G n Hn) as (? & t' & _ & -> & _); eauto].
    intros [t' Ht']. rewrite Et, foldl_insert_lookup in Ht' by done. destruct (List.find _ ts) as [u|] eqn:Eu.
    + apply find_some in Eu as [Hu Eu]. apply bool_decide_eq_true in Eu. apply list_elem_of_In in Hu.
      destruct (H u Hu) as (t & Ht & _). rewrite Eu in Ht. eauto.
    + cbn in Ht'. by rewrite lookup_empty in Ht'.
  - intros n t L Ht R. destruct (G n ltac:(eauto)) as (t0 & t' & Ht0 & Ht' & Ec & Ei & _ & L' & R' & Er).
    assert (t0 = t) as -> by congruence. exists t', L'. split_and!; [done|done| | |exact Ei].
    + by rewrite <- (table_rows_rep t L R).
    + rewrite Ec. unfold catalog_of. cbn [tc_columns]. by rewrite <- list_fmap_compose.
Qed.
End store_proofs.

(** * Theorems *)

(** Tuples round trip.  Every row of representable values decodes from its
    encoding to the same row: integers, doubles bit for bit (NaN and infinities
    too), booleans, text, and numerics with their sign, scale and value. *)
Theorem disk_row_roundtrip row :
  Forall cell_ok row -> zlen (encode_row row) < 2 ^ 32 ->
  exists row', decode_row (encode_row row) = Val (Some row') /\ row_equiv row row'.
Proof. apply decode_encode_row. Qed.

Lemma disk_row_roundtrip_witness :
  exists row', decode_row (encode_row [Int (-5); Text (lit "a"); Num (bd "1.50"); Float (2047 * 2 ^ 52); Null; Bool true])
                 = Val (Some row')
    /\ row_equiv [Int (-5); Text (lit "a"); Num (bd "1.50"); Float (2047 * 2 ^ 52); Null; Bool true] row'.
Proof.
  apply disk_row_roundtrip; [|vm_compute; reflexivity].
  assert (bd_wf (bd "1.50")) as W by (eapply (parse_wf (lit "1.50")); vm_compute; reflexivity).
  assert (cell_ok (Text (lit "a"))) as T by (split; [split; [by repeat constructor|vm_compute; reflexivity]|exact I]).
  repeat (apply Forall_cons; split; [first [exact T | (split; [|exact I || (vm_compute; reflexivity)]); first [exact W | exact I | unfold value_wf, in_i, in_u; lia]]|]).
  apply Forall_nil_2.
Defined.

(** C5: a checkpoint can be recovered.  Take a database in which every table is in
    the state its operations leave it in, holds only storable values (no text that
    looks like a pointer to external storage) in rows that fit a page, has UTF-8
    names and a name that does not end in a carriage return, and no two tables have
    the same heap file name (other characters than ASCII letters, digits and
    underscore become underscores in it).  Then [checkpoint] succeeds and returns the next LSN, and
    a server that opens the directory afterwards, or a base backup copied over any
    other directory, recovers the same tables with the same rows in the same order
    (decimals up to leading zeros).  Of a column exactly its name, type and NOT NULL
    flag come back: defaults, keys, identity and generation are lost, as are all
    indexes. *)
Theorem disk_checkpoint_recover {Expr Select} (eval_expr : Expr -> list str -> list Value -> result str Value) kinds
    (st : DiskStore) (db : Database Expr Select) :
  db_storable eval_expr kinds db ->
  exists st', checkpoint st db = Val (st', Ok (next_lsn (wal st)))
    /\ (exists db', recover eval_expr (disk_open (files st') (w_dir (wal st'))) = Val (Ok db')
          /\ same_data eval_expr kinds db db')
    /\ (forall dest, exists db', base_backup st db dest = Val (st', Ok tt, files st' ∪ dest)
          /\ recover eval_expr (disk_open (files st' ∪ dest) ∅) = Val (Ok db') /\ same_data eval_expr kinds db db').
Proof.
  intros S. destruct (checkpoint_saves eval_expr kinds st db S) as (st' & E & Sv & _). exists st'. split_and!; [done| |].
  - by apply (recover_saved eval_expr kinds (disk_open (files st') (w_dir (wal st')))).
  - intros dest. assert (saved (files st' ∪ dest) db) as Sv'.
    { destruct Sv as [C H]. split.
      - by rewrite (lookup_union_Some_l _ _ _ _ C).
      - intros n t Ht. destruct (H n t Ht) as (f & l & E1 & E2 & E3). exists f, l. split_and!; [|done|done].
        by rewrite (lookup_union_Some_l _ _ _ _ E1). }
    destruct (recover_saved eval_expr kinds (disk_open (files st' ∪ dest) ∅) db Sv' S) as (db' & Er & Sd). exists db'.
    split_and!; [|done|done]. unfold base_backup. by rewrite E.
Qed.

Definition demo_db : Database unit unit := set_tables db_new {[ lit "t" := demo_pushed ]}.

Lemma disk_checkpoint_recover_witness :
  exists st' db', checkpoint (disk_open ∅ ∅) demo_db = Val (st', Ok 1)
    /\ recover no_eval (disk_open (files st') (w_dir (wal st'))) = Val (Ok db')
    /\ same_data no_eval int_kinds demo_db db'.
Proof.
  destruct (disk_checkpoint_recover no_eval int_kinds (disk_open ∅ ∅) demo_db) as (st' & E & (db' & Er & Sd) & _).
  - assert (forall n, is_Some (tables demo_db !! n) -> n = lit "t") as One 
      by (intros n [t Ht]; change (tables demo_db) with ({[ lit "t" := demo_pushed ]} : gmap str (Table unit)) in Ht;
          by apply lookup_singleton_Some in Ht as [<- _]).
    split; [|intros n1 n2 H1%One H2%One _; congruence].
    intros n t Ht. change (tables demo_db) with ({[ lit "t" := demo_pushed ]} : gmap str (Table unit)) in Ht.
    apply lookup_singleton_Some in Ht as [<- <-]. exists [(0, demo_row)].
    split; [apply demo_pushed_ok|]. split; [|split; [vm_compute; congruence|]].
    + apply Forall_cons. split; [|apply Forall_nil_2]. split; [|vm_compute; congruence].
      apply Forall_cons. split; [split; [unfold value_wf, in_i; lia|exact I]|].
      apply Forall_cons. split; [|apply Forall_nil_2]. split; [|exact I].
      split; [apply Forall_replicate; unfold is_byte; lia|vm_compute; reflexivity].
    + split; [reflexivity|]. split; [vm_compute; congruence|].
      apply Forall_cons. split; [reflexivity|]. apply Forall_cons. split; [reflexivity|]. apply Forall_nil_2.
  - exists st', db'. split; [exact E|]. split; [exact Er|exact Sd].
Defined.

(** A table with one column and the given rows. *)
Definition text_table (name : str) (rs : list (list Value)) : Table unit :=
  match foldl (fun r row => t ← r; push_row no_eval t row) (Val (table_new name [column_basic (lit "a") TText false])) rs with
  | Val t => t | Panic => table_new name [] end.
Definition db_of (ts : list (Table unit)) : Database unit unit :=
  set_tables db_new (foldl (fun m t => <[t_name t := t]> m) ∅ ts).
Definition recovered_rows (st : DiskStore) (name : str) : option (list (list Value)) :=
  match recover (Select := unit) no_eval st with
  | Val (Ok db) => table_rows <$> tables db !! name
  | _ => None
  end.

(** A checkpoint is not atomic.  A table whose rows were checkpointed gains
    one row that does not fit a page (any text over about 8 kB); the next
    [checkpoint] then fails with [InvalidInput] after it has truncated the heap
    file, and recovery finds none of the rows that were safe before. *)
Theorem disk_failed_checkpoint_loses_rows :
  let small := text_table (lit "t") [[Text (lit "safe")]] in
  let grown := text_table (lit "t") [[Text (lit "safe")]; [Text (zreplicate 9000 97)]] in
  match checkpoint (disk_open ∅ ∅) (db_of [small]) with
  | Val (st, Ok _) =>
      recovered_rows st (lit "t") = Some [[Text (lit "safe")]]
      /\ match checkpoint st (db_of [grown]) with
         | Val (st', Err InvalidInput) => recovered_rows st' (lit "t") = Some []
         | _ => False
         end
  | _ => False
  end.
Proof. vm_compute. split; reflexivity. Qed.

(** Two tables whose names differ only in characters that are not letters,
    digits or underscores share one heap file: the second overwrites the first. *)
Lemma disk_heap_file_collision :
  match checkpoint (disk_open ∅ ∅) (db_of [text_table (lit "a b") [[Text (lit "one")]]; text_table (lit "a-b") [[Text (lit "two")]]]) with
  | Val (st, Ok _) => recovered_rows st (lit "a b") = Some [[Text (lit "two")]] /\ recovered_rows st (lit "a-b") = Some [[Text (lit "two")]]
  | _ => False
  end.
Proof. vm_compute. split; reflexivity. Qed.

(** A table name that ends in a carriage return loses it in the catalog. *)
Lemma disk_catalog_drops_cr :
  read_catalog (Some (write_catalog [mk_tc [116; 13] []])) = Ok [mk_tc [116] []].
Proof. vm_compute. reflexivity. Qed.
