(* ===== verification/Lock.v ===== *)
(** The lock manager of crates/engine/src/lock.rs and the locking loop of the
    server (acquire_lock, release_locks and the SKIP LOCKED branch of
    crates/server/src/server.rs): lock modes and their conflict matrix, the
    lock table, the wait-for graph, the depth-first cycle test, and the system
    of backends that interleave their turns under the manager's mutex. *)

From stdpp Require Import gmap.
From S2P Require Import Prelude Utf8.

(** * Lock modes *)

Inductive LockMode :=
| AccessShare
| RowShare
| RowExclusive
| ShareUpdateExclusive
| Share
| ShareRowExclusive
| Exclusive
| AccessExclusive.

#[export] Instance LockMode_eq_dec : EqDecision LockMode.
Proof. solve_decision. Defined.

(** [LockMode::index] *)
Definition mode_index (m : LockMode) : Z :=
  match m with
  | AccessShare => 0
  | RowShare => 1
  | RowExclusive => 2
  | ShareUpdateExclusive => 3
  | Share => 4
  | ShareRowExclusive => 5
  | Exclusive => 6
  | AccessExclusive => 7
  end.

(** [LockMode::as_str] *)
Definition mode_as_str (m : LockMode) : str :=
  match m with
  | AccessShare => lit "ACCESS SHARE"
  | RowShare => lit "ROW SHARE"
  | RowExclusive => lit "ROW EXCLUSIVE"
  | ShareUpdateExclusive => lit "SHARE UPDATE EXCLUSIVE"
  | Share => lit "SHARE"
  | ShareRowExclusive => lit "SHARE ROW EXCLUSIVE"
  | Exclusive => lit "EXCLUSIVE"
  | AccessExclusive => lit "ACCESS EXCLUSIVE"
  end.

(** [LockMode::parse] *)
Definition mode_parse (s : str) : option LockMode :=
  let norm := to_ascii_upper <$> trim s in
  if str_eqb norm (lit "ACCESS SHARE") then Some AccessShare
  else if str_eqb norm (lit "ROW SHARE") then Some RowShare
  else if str_eqb norm (lit "ROW EXCLUSIVE") then Some RowExclusive
  else if str_eqb norm (lit "SHARE UPDATE EXCLUSIVE") then Some ShareUpdateExclusive
  else if str_eqb norm (lit "SHARE") then Some Share
  else if str_eqb norm (lit "SHARE ROW EXCLUSIVE") then Some ShareRowExclusive
  else if str_eqb norm (lit "EXCLUSIVE") then Some Exclusive
  else if str_eqb norm (lit "ACCESS EXCLUSIVE") then Some AccessExclusive
  else None.

Definition CONFLICTS : list (list bool) :=
  [ [ false; false; false; false; false; false; false; true ];
    [ false; false; false; false; false; false; true;  true ];
    [ false; false; false; false; true;  true;  true;  true ];
    [ false; false; false; true;  true;  true;  true;  true ];
    [ false; false; true;  true;  false; true;  true;  true ];
    [ false; false; true;  true;  true;  true;  true;  true ];
    [ false; true;  true;  true;  true;  true;  true;  true ];
    [ true;  true;  true;  true;  true;  true;  true;  true ] ].

(** [LockMode::conflicts_with] *)
Definition conflicts_with (a b : LockMode) : bool :=
  default false (row ← zget CONFLICTS (mode_index a); zget row (mode_index b)).

(** * The lock table *)

Inductive LockObject :=
| TableLock (name : str)
| RowLock (table key : str).

#[export] Instance LockObject_eq_dec : EqDecision LockObject.
Proof. solve_decision. Defined.
#[export] Instance LockObject_countable : Countable LockObject.
Proof.
  refine (inj_countable'
    (fun o => match o with TableLock n => inl n | RowLock t k => inr (t, k) end)
    (fun s => match s with inl n => TableLock n | inr (t, k) => RowLock t k end) _).
  by intros [].
Defined.

(** [Holder] and [Waiter] have the same two fields. *)
Record Holder := mk_holder { h_pid : Z; h_mode : LockMode }.

Record ObjectState := mk_obj { holders : list Holder; waiters : list Holder }.
Definition obj_default : ObjectState := mk_obj [] [].
Definition obj_is_empty (st : ObjectState) : bool :=
  match holders st, waiters st with [], [] => true | _, _ => false end.

Abbreviation LockManager := (gmap LockObject ObjectState).

Inductive TryAcquire :=
| Granted
| Conflict (pids : list Z)
| Deadlock.

Definition not_pid (pid : Z) (h : Holder) : bool := negb (h_pid h =? pid).
(** The holder test shared by [try_acquire], [is_locked_by_other] and
    [wait_for_graph]: [h.pid != pid && h.mode.conflicts_with(mode)]. *)
Definition blocks (pid : Z) (mode : LockMode) (h : Holder) : bool :=
  not_pid pid h && conflicts_with (h_mode h) mode.

(** Upgrade the first entry of [pid] when [mode] has the larger index. *)
Fixpoint upgrade (pid : Z) (mode : LockMode) (hs : list Holder) : option (list Holder) :=
  match hs with
  | [] => None
  | h :: hs =>
      if h_pid h =? pid
      then Some ((if mode_index (h_mode h) <? mode_index mode then mk_holder pid mode else h) :: hs)
      else cons h <$> upgrade pid mode hs
  end.

(** [LockManager::grant] *)
Definition grant (m : LockManager) (pid : Z) (obj : LockObject) (mode : LockMode) : LockManager :=
  let st := default obj_default (m !! obj) in
  let ws := List.filter (not_pid pid) (waiters st) in
  let hs := match upgrade pid mode (holders st) with
            | Some hs => hs
            | None => holders st ++ [mk_holder pid mode]
            end in
  <[obj := mk_obj hs ws]> m.

(** [LockManager::add_waiter] *)
Definition add_waiter (m : LockManager) (pid : Z) (obj : LockObject) (mode : LockMode) : LockManager :=
  let st := default obj_default (m !! obj) in
  if existsb (fun w => h_pid w =? pid) (waiters st) then <[obj := st]> m
  else <[obj := mk_obj (holders st) (waiters st ++ [mk_holder pid mode])]> m.

(** [LockManager::remove_waiter] *)
Definition remove_waiter (m : LockManager) (pid : Z) (obj : LockObject) : LockManager :=
  match m !! obj with
  | None => m
  | Some st =>
      let st := mk_obj (holders st) (List.filter (not_pid pid) (waiters st)) in
      if obj_is_empty st then delete obj m else <[obj := st]> m
  end.

(** The closure of [release_all] on one object. *)
Definition release_obj (pid : Z) (st : ObjectState) : ObjectState :=
  mk_obj (List.filter (not_pid pid) (holders st)) (List.filter (not_pid pid) (waiters st)).
Definition obj_size (st : ObjectState) : Z := zlen (holders st) + zlen (waiters st).

(** [LockManager::release_all] *)
Definition release_all (m : LockManager) (pid : Z) : LockManager * bool :=
  (omap (fun st => let st := release_obj pid st in if obj_is_empty st then None else Some st) m,
   existsb (fun '(_, st) => negb (obj_size (release_obj pid st) =? obj_size st)) (map_to_list m)).

(** [LockManager::is_locked_by_other] *)
Definition is_locked_by_other (m : LockManager) (pid : Z) (obj : LockObject) (mode : LockMode) : bool :=
  match m !! obj with
  | None => false
  | Some st => existsb (blocks pid mode) (holders st)
  end.

(** * The wait-for graph *)

Abbreviation graph := (gmap Z (list Z)).

(** [graph.entry(w).or_default()], then push unless present. *)
Definition add_edge (g : graph) (w h : Z) : graph :=
  let edges := default [] (g !! w) in
  <[w := if bool_decide (h ∈ edges) then edges else edges ++ [h]]> g.

(** The edges one object contributes, in loop order. *)
Definition obj_edges (st : ObjectState) : list (Z * Z) :=
  flat_map (fun w => (fun h => (h_pid w, h_pid h)) <$> List.filter (blocks (h_pid w) (h_mode w)) (holders st))
    (waiters st).

(** [LockManager::wait_for_graph]; the order in which a hash map is iterated is
    unspecified, and [map_to_list] is one such order. *)
Definition wait_for_graph (m : LockManager) : graph :=
  foldl (fun g '(w, h) => add_edge g w h) ∅ (flat_map (fun p => obj_edges (snd p)) (map_to_list m)).

(** * [has_cycle] *)

Inductive Color := White | Gray | Black.
#[export] Instance Color_eq_dec : EqDecision Color.
Proof. solve_decision. Defined.

Definition color_of (color : gmap Z Color) (n : Z) : Color := default White (color !! n).

(** The neighbour loop: [None] for [return true], otherwise the stack with the
    white neighbours pushed (the head is the top). *)
Fixpoint scan (color : gmap Z Color) (ns : list Z) (stack : list (Z * bool)) : option (list (Z * bool)) :=
  match ns with
  | [] => Some stack
  | n :: ns =>
      match color_of color n with
      | Gray => None
      | White => scan color ns ((n, false) :: stack)
      | Black => scan color ns stack
      end
  end.

Definition neighbours (g : graph) (n : Z) : list Z := default [] (g !! n).

(** The [while let Some(..) = stack.pop()] loop: [Val None] is [return true],
    [Val (Some color)] an emptied stack, [Panic] that the fuel ran out. *)
Fixpoint dfs (fuel : nat) (g : graph) (color : gmap Z Color) (stack : list (Z * bool))
  : run (option (gmap Z Color)) :=
  match stack with
  | [] => Val (Some color)
  | (node, processed) :: stack =>
      match fuel with
      | O => Panic
      | S fuel =>
          if processed then dfs fuel g (<[node := Black]> color) stack
          else
            let color := <[node := Gray]> color in
            match scan color (neighbours g node) ((node, true) :: stack) with
            | None => Val None
            | Some stack => dfs fuel g color stack
            end
      end
  end.

Definition edge_count (g : graph) : nat := sum_list_with (fun p => length (snd p)) (map_to_list g).
(** Each entry is popped at most twice and each edge pushes at most one entry. *)
Definition dfs_fuel (g : graph) : nat := 2 + 2 * edge_count g.

(** The loop over the start nodes, in the order [keys]. *)
Fixpoint cycle_from (g : graph) (color : gmap Z Color) (keys : list Z) : run bool :=
  match keys with
  | [] => Val false
  | start :: keys =>
      c ← expect (color !! start);
      if bool_decide (c = White) then
        r ← dfs (dfs_fuel g) g color [(start, false)];
        match r with None => Val true | Some color => cycle_from g color keys end
      else cycle_from g color keys
  end.

(** [has_cycle], with the hash map's iteration order [keys] explicit. *)
Definition has_cycle_in (keys : list Z) (g : graph) : run bool :=
  cycle_from g ((fun _ => White) <$> g) keys.
Definition has_cycle (g : graph) : run bool := has_cycle_in ((map_to_list g).*1) g.

(** [LockManager::try_acquire] *)
Definition try_acquire (m : LockManager) (pid : Z) (obj : LockObject) (mode : LockMode)
  : run (LockManager * TryAcquire) :=
  let conflicting :=
    match m !! obj with
    | Some st => h_pid <$> List.filter (blocks pid mode) (holders st)
    | None => []
    end in
  match conflicting with
  | [] => Val (grant m pid obj mode, Granted)
  | _ =>
      let m' := add_waiter m pid obj mode in
      c ← has_cycle (wait_for_graph m');
      if (c : bool) then Val (remove_waiter m' pid obj, Deadlock)
      else Val (m', Conflict conflicting)
  end.

(** * The server's use of the manager *)

Inductive Turn :=
| Acquired
| Failed (msg : str)
| Parked.

(** One turn of the loop of [acquire_lock], with the mutex held. *)
Definition acquire_turn (m : LockManager) (pid : Z) (obj : LockObject) (mode : LockMode)
    (nowait cancel : bool) : run (LockManager * Turn) :=
  '(m, r) ← try_acquire m pid obj mode;
  match r with
  | Granted => Val (m, Acquired)
  | Deadlock => Val (fst (release_all m pid), Failed (lit "deadlock detected"))
  | Conflict _ =>
      if nowait then Val (fst (release_all m pid), Failed (lit "could not obtain lock on relation"))
      else if cancel
      then Val (fst (release_all m pid), Failed (lit "canceling statement due to user request"))
      else Val (m, Parked)
  end.

(** [release_locks] *)
Definition release_locks (m : LockManager) (pid : Z) : LockManager := fst (release_all m pid).

(** The SKIP LOCKED branch: whether the row is skipped. *)
Definition skip_locked (m : LockManager) (pid : Z) (obj : LockObject) (mode : LockMode)
  : run (LockManager * bool) :=
  if is_locked_by_other m pid obj mode then Val (m, true)
  else '(m, _) ← try_acquire m pid obj mode; Val (m, false).

(** The backends under one manager.  [parked] records which backends sit in
    [acquire_lock] after a conflict, and for what: such a backend's only next
    turn is the retry of that same request. *)
Record LockSys := mk_sys { mgr : LockManager; parked : gmap Z (LockObject * LockMode) }.

Definition free_for (s : LockSys) (pid : Z) (obj : LockObject) (mode : LockMode) : Prop :=
  parked s !! pid = None \/ parked s !! pid = Some (obj, mode).

Inductive lock_step (s : LockSys) : LockSys -> Prop :=
| step_park pid obj mode nowait cancel m' :
    free_for s pid obj mode ->
    acquire_turn (mgr s) pid obj mode nowait cancel = Val (m', Parked) ->
    lock_step s (mk_sys m' (<[pid := (obj, mode)]> (parked s)))
| step_return pid obj mode nowait cancel m' r :
    free_for s pid obj mode ->
    acquire_turn (mgr s) pid obj mode nowait cancel = Val (m', r) -> r <> Parked ->
    lock_step s (mk_sys m' (delete pid (parked s)))
| step_skip_locked pid obj mode m' b :
    parked s !! pid = None ->
    skip_locked (mgr s) pid obj mode = Val (m', b) ->
    lock_step s (mk_sys m' (parked s))
| step_release pid :
    parked s !! pid = None ->
    lock_step s (mk_sys (release_locks (mgr s) pid) (parked s)).

Definition sys_init : LockSys := mk_sys ∅ ∅.
Definition reachable (s : LockSys) : Prop := rtc lock_step sys_init s.

(** * Specification *)

Definition edge (g : graph) (a b : Z) : Prop := b ∈ neighbours g a.
Definition cyclic (g : graph) : Prop := exists n, tc (edge g) n n.

(** [w] waits for [h] in the lock table. *)
Definition waits_for (m : LockManager) (w h : Z) : Prop :=
  exists obj st wt hd, m !! obj = Some st /\ wt ∈ waiters st /\ hd ∈ holders st
    /\ h_pid wt = w /\ h_pid hd = h /\ w <> h /\ conflicts_with (h_mode hd) (h_mode wt) = true.

(** Recorded holders of an object: one entry per backend, no two conflicting. *)
Definition holders_ok (hs : list Holder) : Prop :=
  NoDup (h_pid <$> hs) /\
  forall a b, a ∈ hs -> b ∈ hs -> h_pid a <> h_pid b -> conflicts_with (h_mode a) (h_mode b) = false.

(** * Examples *)

Definition tlock (s : string) : LockObject := TableLock (lit s).

Example cycle2 : has_cycle {[ 1 := [2]; 2 := [1] ]} = Val true. Proof. vm_compute. reflexivity. Qed.
Example chain3 : has_cycle {[ 1 := [2]; 2 := [3] ]} = Val false. Proof. vm_compute. reflexivity. Qed.

(** * Correctness of the cycle test *)

Section dfs_proof.
Context (g : graph).

(** A list of finished nodes, latest first: the neighbours of each were
    finished before it. *)
Inductive topo : list Z -> Prop :=
| topo_nil : topo []
| topo_cons n ord : topo ord -> n ∉ ord -> (forall m, edge g n m -> m ∈ ord) -> topo (n :: ord).

Lemma topo_closed ord n m : topo ord -> n ∈ ord -> edge g n m -> m ∈ ord.
Proof.
  intros T. induction T as [|x ord T IH Hx Hn]; intros Hin He; [by apply elem_of_nil in Hin|].
  apply elem_of_cons in Hin as [->|Hin]; apply elem_of_cons; right; auto.
Qed.

Lemma topo_closed_tc ord n m : topo ord -> n ∈ ord -> tc (edge g) n m -> m ∈ ord.
Proof.
  intros T Hin H. induction H as [n m He|n k m He H IH]; eauto using topo_closed.
Qed.

(** No cycle passes through a finished node. *)
Lemma topo_acyclic ord n : topo ord -> n ∈ ord -> ~ tc (edge g) n n.
Proof.
  intros T. induction T as [|x ord T IH Hx Hn]; intros Hin Hc; [by apply elem_of_nil in Hin|].
  apply elem_of_cons in Hin as [->|Hin]; [|by apply IH].
  apply Hx.
  inversion Hc as [? ? He|? k ? He Hs]; subst; [by apply Hn|].
  eapply topo_closed_tc; [exact T|apply Hn, He|exact Hs].
Qed.

Lemma topo_no_self ord n : topo ord -> n ∈ ord -> ~ edge g n n.
Proof. intros T Hin He. by apply (topo_acyclic ord n T Hin), tc_once. Qed.

(** What holds of each started node on the stack, given the entries above. *)
Fixpoint sinv (ord : list Z) (above s : list (Z * bool)) : Prop :=
  match s with
  | [] => True
  | (m, b) :: s' =>
      (b = true ->
         (forall x b', (x, b') ∈ above -> tc (edge g) m x)
         /\ (forall x, edge g m x -> x ∈ ord \/ exists b', (x, b') ∈ above)
         /\ ((m, false) ∉ above) /\ ((m, true) ∉ s'))
      /\ sinv ord (above ++ [(m, b)]) s'
  end.

Lemma sinv_mono ord ord' a a' s :
  sinv ord a s ->
  (forall x, x ∈ ord -> x ∈ ord') ->
  (forall x b, (x, b) ∈ a -> x ∈ ord' \/ exists b', (x, b') ∈ a') ->
  (forall x b, (x, b) ∈ a' -> exists y b', (y, b') ∈ a /\ rtc (edge g) y x) ->
  (forall m, (m, true) ∈ s -> (m, false) ∈ a' -> (m, false) ∈ a) ->
  sinv ord' a' s.
Proof.
  revert a a'. induction s as [|[m b] s IH]; intros a a' H Hord Hin Hreach Hf; [done|].
  cbn [sinv] in *. destruct H as [Hb Hs]. split.
  - intros ->. destruct (Hb eq_refl) as (R & C & NF & NT). split_and!; [| | |done].
    + intros x b' Hx. destruct (Hreach _ _ Hx) as (y & b'' & Hy & Hr).
      eapply tc_rtc_r; [by eapply R|done].
    + intros x Hx. destruct (C x Hx) as [?|[b' Hb']]; [left; auto|by eapply Hin].
    + intros Hx. apply NF, Hf; [|done]. apply elem_of_cons. by left.
  - apply (IH _ _ Hs); [done| | |].
    + intros x b' Hx. apply elem_of_app in Hx as [Hx|Hx].
      * destruct (Hin _ _ Hx) as [?|[b'' ?]]; [by left|right; exists b''; apply elem_of_app; by left].
      * right. exists b'. apply elem_of_app. by right.
    + intros x b' Hx. apply elem_of_app in Hx as [Hx|Hx].
      * destruct (Hreach _ _ Hx) as (y & b'' & ? & ?). exists y, b''. split; [apply elem_of_app; by left|done].
      * exists x, b'. split; [apply elem_of_app; by right|done].
    + intros m' Hm' Hx. apply elem_of_app in Hx as [Hx|Hx]; apply elem_of_app; [left|by right].
      apply Hf; [|done]. apply elem_of_cons. by right.
Qed.

(** The state of the loop: finished nodes in order, started ones on the stack. *)
Record dinv (ord : list Z) (color : gmap Z Color) (s : list (Z * bool)) : Prop := {
  di_topo : topo ord;
  di_black : forall n, color_of color n = Black <-> n ∈ ord;
  di_gray : forall n, color_of color n = Gray <-> (n, true) ∈ s;
  di_stack : sinv ord [] s
}.

Lemma scan_spec color ns s :
  match scan color ns s with
  | None => exists n, n ∈ ns /\ color_of color n = Gray
  | Some s' => exists ps, s' = ps ++ s
      /\ (forall x b, (x, b) ∈ ps -> b = false /\ x ∈ ns /\ color_of color x = White)
      /\ (forall x, x ∈ ns -> color_of color x = Black \/ (x, false) ∈ ps)
      /\ (length ps <= length ns)%nat
  end.
Proof.
  revert s. induction ns as [|n ns IH]; intros s; cbn [scan].
  - exists []. split_and!; [done|intros ? ? Hx; by apply elem_of_nil in Hx|intros ? Hx; by apply elem_of_nil in Hx|done].
  - destruct (color_of color n) eqn:E.
    + specialize (IH ((n, false) :: s)). destruct (scan color ns ((n, false) :: s)) as [s'|].
      * destruct IH as (ps & -> & H1 & H2 & H3). exists (ps ++ [(n, false)]).
        split_and!; [by rewrite <- app_assoc| | |rewrite length_app; cbn; lia].
        -- intros x b Hx. apply elem_of_app in Hx as [Hx|Hx].
           ++ destruct (H1 _ _ Hx) as (? & ? & ?). split_and!; [done|apply elem_of_cons; by right|done].
           ++ apply list_elem_of_singleton in Hx as [= -> ->]. split_and!; [done|apply elem_of_cons; by left|done].
        -- intros x Hx. apply elem_of_cons in Hx as [->|Hx].
           ++ right. apply elem_of_app. right. by apply list_elem_of_singleton.
           ++ destruct (H2 _ Hx) as [?|?]; [by left|right; apply elem_of_app; by left].
      * destruct IH as (x & Hx & E'). exists x. split; [apply elem_of_cons; by right|done].
    + exists n. split; [apply elem_of_cons; by left|done].
    + specialize (IH s). destruct (scan color ns s) as [s'|].
      * destruct IH as (ps & -> & H1 & H2 & H3). exists ps. split_and!; [done| | |cbn; lia].
        -- intros x b Hx. destruct (H1 _ _ Hx) as (? & ? & ?).
           split_and!; [done|apply elem_of_cons; by right|done].
        -- intros x Hx. apply elem_of_cons in Hx as [->|Hx]; [by left|by apply H2].
      * destruct IH as (x & Hx & E'). exists x. split; [apply elem_of_cons; by right|done].
Qed.

Lemma color_insert color n c x :
  color_of (<[n := c]> color) x = if decide (x = n) then c else color_of color x.
Proof.
  unfold color_of. destruct (decide (x = n)) as [->|].
  - by rewrite lookup_insert_eq.
  - by rewrite lookup_insert_ne by done.
Qed.
Lemma sinv_falses ord a ps s :
  (forall x b, (x, b) ∈ ps -> b = false) -> sinv ord (a ++ ps) s -> sinv ord a (ps ++ s).
Proof.
  revert a. induction ps as [|[x b] ps IH]; intros a Hf H; cbn [app sinv].
  - by rewrite app_nil_r in H.
  - split.
    + intros ->. discriminate (Hf x true). apply elem_of_cons. by left.
    + apply IH; [|by rewrite <- app_assoc]. intros y b' Hy. apply (Hf y). apply elem_of_cons. by right.
Qed.

Lemma sinv_in ord a s m :
  sinv ord a s -> (m, true) ∈ s ->
  ((m, false) ∉ a) /\ forall x b, (x, b) ∈ a -> tc (edge g) m x.
Proof.
  revert a. induction s as [|[y b] s IH]; intros a H Hin; [by apply elem_of_nil in Hin|].
  cbn [sinv] in H. destruct H as [Hb Hs]. apply elem_of_cons in Hin as [[= <- <-]|Hin].
  - destruct (Hb eq_refl) as (R & _ & NF & _). done.
  - destruct (IH _ Hs Hin) as [NF R]. split.
    + intros Hx. apply NF, elem_of_app. by left.
    + intros x b' Hx. eapply R, elem_of_app. by left.
Qed.

Lemma pop_true ord color n s :
  dinv ord color ((n, true) :: s) -> dinv (n :: ord) (<[n := Black]> color) s.
Proof.
  intros [T B G [Hn Hs]]. destruct (Hn eq_refl) as (_ & C & _ & NT).
  assert (color_of color n = Gray) as Gn by (apply G, elem_of_cons; by left).
  split.
  - constructor; [done| |].
    + intros Hin. apply B in Hin. congruence.
    + intros m Hm. destruct (C m Hm) as [?|[? Hx]]; [done|by apply elem_of_nil in Hx].
  - intros x. rewrite color_insert, elem_of_cons. destruct (decide (x = n)) as [->|]; [intuition congruence|].
    rewrite B. intuition congruence.
  - intros x. rewrite color_insert. destruct (decide (x = n)) as [->|]; [intuition congruence|].
    rewrite G, elem_of_cons. intuition congruence.
  - apply (sinv_mono ord (n :: ord) _ _ _ Hs).
    + intros x Hx. apply elem_of_cons. by right.
    + intros x b Hx. apply list_elem_of_singleton in Hx as [= -> ->]. left. apply elem_of_cons. by left.
    + intros x b Hx. by apply elem_of_nil in Hx.
    + intros m _ Hx. by apply elem_of_nil in Hx.
Qed.

Lemma not_gray ord color n s : dinv ord color ((n, false) :: s) -> color_of color n <> Gray.
Proof.
  intros [T B G [_ Hs]] Gn. apply G, elem_of_cons in Gn as [[=]|Hin].
  destruct (sinv_in _ _ _ _ Hs Hin) as [NF _]. apply NF. by apply list_elem_of_singleton.
Qed.

(** [return true] is only reached on a real cycle. *)
Lemma scan_none ord color n s st :
  dinv ord color ((n, false) :: s) ->
  scan (<[n := Gray]> color) (neighbours g n) st = None -> cyclic g.
Proof.
  intros [T B G [_ Hs]] E. pose proof (scan_spec (<[n := Gray]> color) (neighbours g n) st) as S.
  rewrite E in S. destruct S as (x & Hx & Gx). rewrite color_insert in Gx.
  destruct (decide (x = n)) as [->|]; [exists n; by apply tc_once|].
  apply G, elem_of_cons in Gx as [[=]|Hin]. destruct (sinv_in _ _ _ _ Hs Hin) as [_ R].
  exists x. eapply tc_r; [|exact Hx]. apply (R n false). by apply list_elem_of_singleton.
Qed.

Lemma push_white ord color n s s' :
  dinv ord color ((n, false) :: s) -> color_of color n = White ->
  scan (<[n := Gray]> color) (neighbours g n) ((n, true) :: s) = Some s' ->
  dinv ord (<[n := Gray]> color) s'.
Proof.
  intros [T B G [_ Hs]] W E.
  pose proof (scan_spec (<[n := Gray]> color) (neighbours g n) ((n, true) :: s)) as S.
  rewrite E in S. destruct S as (ps & -> & Hps & Hns & _). split; [done| | |].
  - intros x. rewrite color_insert, <- B. destruct (decide (x = n)) as [->|]; [|done]. rewrite W. done.
  - intros x. rewrite color_insert. rewrite elem_of_app, elem_of_cons. destruct (decide (x = n)) as [->|].
    + intuition congruence.
    + rewrite G, elem_of_cons. split; [intuition congruence|].
      intros [Hx|Hx]; [by apply Hps in Hx as [[=] _]|intuition congruence].
  - apply sinv_falses; [intros x b Hx; by destruct (Hps _ _ Hx)|]. cbn [app sinv]. split.
    + intros _. split_and!.
      * intros x b Hx. apply tc_once. by apply Hps in Hx as (_ & ? & _).
      * intros x Hx. destruct (Hns x Hx) as [Bx|Hp]; [left|right; by eexists].
        rewrite color_insert in Bx. apply B. by destruct (decide (x = n)).
      * intros Hx. apply Hps in Hx as (_ & _ & Wx). rewrite color_insert in Wx. by rewrite decide_True in Wx.
      * intros Hx. assert (color_of color n = Gray) by (apply G, elem_of_cons; by right). congruence.
    + apply (sinv_mono ord ord _ _ _ Hs); [done| | |].
      * intros x b Hx. apply list_elem_of_singleton in Hx as [= -> ->]. right. exists true.
        apply elem_of_app. right. by apply list_elem_of_singleton.
      * intros x b Hx. exists n, false. split; [by apply list_elem_of_singleton|].
        apply elem_of_app in Hx as [Hx|Hx]; [|by apply list_elem_of_singleton in Hx as [= -> ->]].
        apply rtc_once. by apply Hps in Hx as (_ & ? & _).
      * intros m Hm Hx. apply elem_of_app in Hx as [Hx|Hx]; [|by apply list_elem_of_singleton in Hx].
        apply Hps in Hx as (_ & _ & Wx). rewrite color_insert in Wx.
        assert (color_of color m = Gray) by (apply G, elem_of_cons; by right).
        destruct (decide (m = n)); congruence.
Qed.

(** A stale entry for a finished node is popped twice without effect. *)
Lemma scan_black ord color n s st :
  dinv ord color ((n, false) :: s) -> color_of color n = Black ->
  scan (<[n := Gray]> color) (neighbours g n) st = Some st
  /\ <[n := Black]> (<[n := Gray]> color) = color.
Proof.
  intros [T B G _] Bn. pose proof (proj1 (B n) Bn) as Hn. split.
  - assert (forall x, x ∈ neighbours g n -> color_of (<[n := Gray]> color) x = Black) as HB.
    { intros x Hx. rewrite color_insert. destruct (decide (x = n)) as [->|].
      - by destruct (topo_no_self ord n T Hn).
      - apply B. by apply (topo_closed ord n x). }
    pose proof (scan_spec (<[n := Gray]> color) (neighbours g n) st) as S.
    destruct (scan _ _ st) as [s'|]; [|destruct S as (x & Hx & Gx); rewrite HB in Gx; done].
    destruct S as (ps & -> & Hps & _ & _). destruct ps as [|[x b] ps]; [done|].
    destruct (Hps x b) as (_ & Hx & Wx); [apply elem_of_cons; by left|]. rewrite HB in Wx; done.
  - rewrite insert_insert_eq. apply insert_id. unfold color_of in Bn. by destruct (color !! n); cbn in *; subst.
Qed.

(** ** Termination *)

Definition pend (color : gmap Z Color) (l : list (Z * list Z)) : nat :=
  sum_list_with (fun p => if decide (color_of color (fst p) = White) then length (snd p) else 0%nat) l.

Lemma pend_not_in color n c l :
  n ∉ l.*1 -> pend (<[n := c]> color) l = pend color l.
Proof.
  induction l as [|[x xs] l IH]; intros H; [done|]. unfold pend in *. cbn [sum_list_with fst snd].
  rewrite fmap_cons, not_elem_of_cons in H. destruct H as [H1 H2]. rewrite IH by done.
  rewrite color_insert. destruct (decide (x = n)) as [->|]; [by destruct H1|done].
Qed.

Lemma pend_white color n :
  color_of color n = White ->
  (pend (<[n := Gray]> color) (map_to_list g) + length (neighbours g n) = pend color (map_to_list g))%nat.
Proof.
  intros W. unfold neighbours. destruct (g !! n) as [ns|] eqn:E; cbn [default].
  - apply elem_of_map_to_list in E. pose proof (NoDup_fst_map_to_list g) as ND.
    apply list_elem_of_split in E as (l1 & l2 & E). rewrite E in *.
    rewrite fmap_app, fmap_cons in ND. apply NoDup_app in ND as (_ & ND1 & ND2).
    apply NoDup_cons in ND2 as [ND2 _].
    assert (n ∉ l1.*1) as N1. { intros Hn. apply (ND1 n Hn). apply elem_of_cons. by left. }
    unfold pend. rewrite !sum_list_with_app. fold (pend (<[n := Gray]> color) l1). fold (pend color l1).
    cbn [sum_list_with fst snd]. fold (pend (<[n := Gray]> color) l2). fold (pend color l2).
    rewrite !pend_not_in by done. rewrite color_insert, W. destruct (decide (n = n)); [|done].
    destruct (decide (Gray = White)); [done|]. destruct (decide (White = White)); [|done]. unfold id. lia.
  - rewrite pend_not_in; [cbn; lia|]. intros Hn. apply list_elem_of_fmap in Hn as ([x ns] & -> & Hx).
    apply elem_of_map_to_list in Hx. cbn in E. congruence.
Qed.

Definition weight (s : list (Z * bool)) : nat :=
  sum_list_with (fun e => if snd e : bool then 1%nat else 2%nat) s.
Definition measure (color : gmap Z Color) (s : list (Z * bool)) : nat :=
  weight s + 2 * pend color (map_to_list g).

Lemma weight_cons n (b : bool) s : weight ((n, b) :: s) = ((if b then 1 else 2) + weight s)%nat.
Proof. done. Qed.

Lemma measure_pop color n s :
  color_of color n = Gray ->
  (measure (<[n := Black]> color) s < measure color ((n, true) :: s))%nat.
Proof.
  intros Gn. unfold measure. rewrite weight_cons.
  assert (pend (<[n := Black]> color) (map_to_list g) = pend color (map_to_list g)) as ->; [|lia].
  unfold pend. induction (map_to_list g) as [|[x xs] l IHl]; [done|].
  cbn [sum_list_with fst snd]. rewrite IHl, color_insert.
  destruct (decide (x = n)) as [->|]; [|done]. by rewrite Gn.
Qed.

Lemma weight_falses ps : (forall x b, (x, b) ∈ ps -> b = false) -> weight ps = (2 * length ps)%nat.
Proof.
  induction ps as [|[x b] ps IH]; intros H; [done|]. cbn. rewrite (H x b) by (apply elem_of_cons; by left).
  fold (weight ps). rewrite IH; [lia|]. intros y b' Hy. apply (H y). apply elem_of_cons. by right.
Qed.

Lemma measure_push color n s s' :
  color_of color n = White ->
  scan (<[n := Gray]> color) (neighbours g n) ((n, true) :: s) = Some s' ->
  (measure (<[n := Gray]> color) s' < measure color ((n, false) :: s))%nat.
Proof.
  intros W E. pose proof (scan_spec (<[n := Gray]> color) (neighbours g n) ((n, true) :: s)) as S.
  rewrite E in S. destruct S as (ps & -> & Hps & _ & Hlen). unfold measure.
  pose proof (pend_white color n W). unfold weight. rewrite sum_list_with_app. fold (weight ps).
  rewrite weight_falses by (intros x b Hx; by destruct (Hps _ _ Hx)). cbn [sum_list_with snd]. lia.
Qed.

Lemma dfs_ok fuel color s ord :
  dinv ord color s -> (measure color s <= fuel)%nat ->
  (dfs fuel g color s = Val None /\ cyclic g)
  \/ exists color' ord', dfs fuel g color s = Val (Some color') /\ dinv ord' color' []
       /\ (forall x, x ∈ ord -> x ∈ ord') /\ (forall x b, (x, b) ∈ s -> x ∈ ord').
Proof.
  revert color s ord. induction fuel as [fuel IH] using lt_wf_ind. intros color s ord D M.
  destruct s as [|[n b] s].
  { right. exists color, ord. split_and!; [by destruct fuel|done|done|]. intros x b Hx. by apply elem_of_nil in Hx. }
  destruct fuel as [|fuel]; [unfold measure in M; rewrite weight_cons in M; destruct b; lia|].
  destruct b.
  - destruct (IH fuel ltac:(lia) _ _ _ (pop_true _ _ _ _ D)) as [[E C]|(c' & o' & E & D' & Ho & Hs)].
    { pose proof (measure_pop color n s ltac:(apply D, elem_of_cons; by left)). lia. }
    + by left.
    + right. exists c', o'. split_and!; [done|done| |].
      * intros x Hx. apply Ho, elem_of_cons. by right.
      * intros x b Hx. apply elem_of_cons in Hx as [[= -> ->]|Hx]; [apply Ho, elem_of_cons; by left|by eapply Hs].
  - cbn [dfs]. destruct (color_of color n) eqn:Cn.
    + destruct (scan (<[n:=Gray]> color) (neighbours g n) ((n, true) :: s)) as [s'|] eqn:E.
      2: { left. split; [done|]. by eapply scan_none. }
      pose proof (measure_push _ _ _ _ Cn E). pose proof (push_white _ _ _ _ _ D Cn E) as D'.
      destruct (IH fuel ltac:(lia) _ _ _ D' ltac:(lia)) as [?|(c' & o' & Ed & D'' & Ho & Hs)]; [by left|].
      right. exists c', o'. split_and!; [done|done|done|]. intros x b Hx.
      pose proof (scan_spec (<[n := Gray]> color) (neighbours g n) ((n, true) :: s)) as S.
      rewrite E in S. destruct S as (ps & -> & _). apply elem_of_cons in Hx as [[= -> ->]|Hx].
      * apply (Hs n true). apply elem_of_app. right. apply elem_of_cons. by left.
      * apply (Hs x b). apply elem_of_app. right. apply elem_of_cons. by right.
    + by destruct (not_gray _ _ _ _ D).
    + destruct (scan_black _ _ _ _ ((n, true) :: s) D Cn) as [E1 E2]. rewrite E1.
      assert (dinv ord color s) as D'.
      { destruct D as [T B G [_ Hs]]. split; [done|done| |].
        - intros x. rewrite G, elem_of_cons. intuition congruence.
        - apply (sinv_mono ord ord _ _ _ Hs); [done| | |].
          + intros x b Hx. apply list_elem_of_singleton in Hx as [= -> ->]. left. by apply B.
          + intros x b Hx. by apply elem_of_nil in Hx.
          + intros m _ Hx. by apply elem_of_nil in Hx. }
      unfold measure in M. rewrite weight_cons in M. destruct fuel as [|fuel]; [lia|]. cbn [dfs]. rewrite E2.
      destruct (IH fuel ltac:(lia) _ _ _ D') as [?|(c' & o' & Ed & D'' & Ho & Hs)];
        [unfold measure; lia|by left|].
      right. exists c', o'. split_and!; [done|done|done|]. intros x b Hx.
      apply elem_of_cons in Hx as [[= -> ->]|Hx]; [|by eapply Hs]. apply Ho. by apply D.
Qed.
End dfs_proof.

Lemma pend_le color l : (pend color l <= sum_list_with (fun p => length (snd p)) l)%nat.
Proof.
  unfold pend. induction l as [|[x xs] l IH]; [done|]. cbn [sum_list_with fst snd].
  destruct (decide (color_of color x = White)); lia.
Qed.

Lemma dfs_dom fuel g color s color' n :
  dfs fuel g color s = Val (Some color') -> is_Some (color !! n) -> is_Some (color' !! n).
Proof.
  revert color s. induction fuel as [|fuel IH]; intros color [|[x b] s]; cbn [dfs]; [by intros [= <-]..|].
  intros H Hn. assert (forall c, is_Some (<[x := c]> color !! n)) as Hi.
  { intros c. destruct (decide (x = n)) as [->|].
    - rewrite lookup_insert_eq. by eexists.
    - by rewrite lookup_insert_ne. }
  destruct b; [by eapply IH|]. destruct (scan _ _ _); [by eapply IH|done].
Qed.

Lemma dinv_start g ord color n :
  dinv g ord color [] -> color_of color n = White -> dinv g ord color [(n, false)].
Proof.
  intros [T B G _] W. split; [done|done| |done]. intros x. rewrite G.
  rewrite list_elem_of_singleton, elem_of_nil. split; [done|]. by intros [=].
Qed.

Lemma cycle_from_ok g keys color ord :
  dinv g ord color [] -> (forall n, n ∈ keys -> is_Some (color !! n)) ->
  (cycle_from g color keys = Val true /\ cyclic g)
  \/ (cycle_from g color keys = Val false
      /\ exists ord', topo g ord' /\ (forall n, n ∈ ord -> n ∈ ord') /\ forall n, n ∈ keys -> n ∈ ord').
Proof.
  revert color ord. induction keys as [|k keys IH]; intros color ord D Hk.
  - right. split; [done|]. exists ord. split; [apply D|]. split; [done|]. intros n Hn. by apply elem_of_nil in Hn.
  - cbn [cycle_from]. destruct (Hk k) as [c Hc]; [apply elem_of_cons; by left|]. rewrite Hc.
    cbn [expect mbind run_bind]. assert (color_of color k = c) as Ck by (unfold color_of; by rewrite Hc).
    case_bool_decide as W.
    + subst c. destruct (dfs_ok g (dfs_fuel g) color [(k, false)] ord) as [[E C]|(c' & o' & E & D' & Ho & Hs)].
      { by apply dinv_start. }
      { unfold measure, dfs_fuel, edge_count. pose proof (pend_le color (map_to_list g)).
        change (weight [(k, false)]) with 2%nat. lia. }
      * left. by rewrite E.
      * rewrite E. cbn [mbind run_bind]. destruct (IH c' o' D') as [?|(E' & o'' & T & H1 & H2)]; [|by left|].
        { intros n Hn. eapply dfs_dom; [exact E|]. apply Hk, elem_of_cons. by right. }
        right. split; [done|]. exists o''. split; [done|]. split; [auto|].
        intros n Hn. apply elem_of_cons in Hn as [->|Hn]; [|by apply H2].
        apply H1, (Hs k false). by apply list_elem_of_singleton.
    + destruct (IH color ord D) as [?|(E' & o'' & T & H1 & H2)]; [|by left|].
      { intros n Hn. apply Hk, elem_of_cons. by right. }
      right. split; [done|]. exists o''. split; [done|]. split; [done|].
      intros n Hn. apply elem_of_cons in Hn as [->|Hn]; [|by apply H2]. apply H1.
      apply D. destruct c; [done| |done]. apply D in Ck. by apply elem_of_nil in Ck.
Qed.

Lemma has_cycle_in_ok keys g :
  (forall n, n ∈ keys <-> is_Some (g !! n)) ->
  exists b, has_cycle_in keys g = Val b /\ (b = true <-> cyclic g).
Proof.
  intros Hk. unfold has_cycle_in. set (c0 := (fun _ : list Z => White) <$> g).
  assert (forall n, color_of c0 n = White) as W.
  { intros n. unfold c0, color_of. rewrite lookup_fmap. by destruct (g !! n). }
  destruct (cycle_from_ok g keys c0 []) as [[E C]|(E & ord & T & _ & H)].
  - split; [constructor| | |done]; intros n; rewrite W.
    + rewrite elem_of_nil. done.
    + rewrite elem_of_nil. done.
  - intros n Hn. unfold c0. rewrite lookup_fmap. apply Hk in Hn as [x ->]. by eexists.
  - exists true. by split.
  - exists false. split; [done|]. split; [done|]. intros [n Hn]. exfalso.
    apply (topo_acyclic g ord n T); [|done]. apply H, Hk.
    assert (exists m, edge g n m) as [m Hm] by (inversion Hn; subst; eauto).
    unfold edge, neighbours in Hm. destruct (g !! n); [by eexists|by apply elem_of_nil in Hm].
Qed.

Lemma keys_map_to_list (g : graph) n : n ∈ (map_to_list g).*1 <-> is_Some (g !! n).
Proof.
  split.
  - intros Hn. apply list_elem_of_fmap in Hn as ([x ns] & -> & Hx).
    apply elem_of_map_to_list in Hx. by eexists.
  - intros [ns Hn]. apply list_elem_of_fmap. exists (n, ns). split; [done|]. by apply elem_of_map_to_list.
Qed.

Lemma has_cycle_ok g : exists b, has_cycle g = Val b /\ (b = true <-> cyclic g).
Proof. apply has_cycle_in_ok, keys_map_to_list. Qed.

(** * The wait-for graph *)

Lemma add_edge_spec g w h a b :
  edge (add_edge g w h) a b <-> edge g a b \/ (a = w /\ b = h).
Proof.
  unfold edge, neighbours, add_edge. destruct (decide (w = a)) as [->|Hne].
  - rewrite lookup_insert_eq. cbn [default]. unfold id. case_bool_decide as Hin.
    + intuition congruence.
    + rewrite elem_of_app, list_elem_of_singleton. intuition congruence.
  - rewrite lookup_insert_ne by done. intuition congruence.
Qed.

Lemma fold_edges_spec l g a b :
  edge (foldl (fun g '(w, h) => add_edge g w h) g l) a b <-> edge g a b \/ (a, b) ∈ l.
Proof.
  revert g. induction l as [|[w h] l IH]; intros g; cbn [foldl].
  - rewrite elem_of_nil. tauto.
  - rewrite IH, add_edge_spec, elem_of_cons. intuition congruence.
Qed.

Lemma blocks_spec pid mode h :
  blocks pid mode h = true <-> h_pid h <> pid /\ conflicts_with (h_mode h) mode = true.
Proof. unfold blocks, not_pid. rewrite andb_true_iff, negb_true_iff, Z.eqb_neq. done. Qed.

Lemma elem_filter {A} (f : A -> bool) l x : x ∈ List.filter f l <-> x ∈ l /\ f x = true.
Proof. rewrite !list_elem_of_In. apply filter_In. Qed.

Lemma obj_edges_spec st a b :
  (a, b) ∈ obj_edges st <->
  exists wt hd, wt ∈ waiters st /\ hd ∈ holders st /\ h_pid wt = a /\ h_pid hd = b
    /\ a <> b /\ conflicts_with (h_mode hd) (h_mode wt) = true.
Proof.
  unfold obj_edges. rewrite list_elem_of_In, in_flat_map. split.
  - intros (wt & Hw & Hin). apply list_elem_of_In in Hw. apply list_elem_of_In in Hin.
    apply list_elem_of_fmap in Hin as (hd & [= -> ->] & Hin).
    apply elem_filter in Hin as [Hh Hb%blocks_spec]. exists wt, hd. destruct Hb. split_and!; congruence || done.
  - intros (wt & hd & Hw & Hh & <- & <- & Hne & Hc). exists wt. split; [by apply list_elem_of_In|].
    apply list_elem_of_In, list_elem_of_fmap. exists hd. split; [done|].
    apply elem_filter. split; [done|]. apply blocks_spec. split; [congruence|done].
Qed.

(** The graph has exactly the edges of the waits-for relation of the table. *)
Lemma wait_for_graph_spec m a b : edge (wait_for_graph m) a b <-> waits_for m a b.
Proof.
  unfold wait_for_graph. rewrite fold_edges_spec. unfold waits_for.
  rewrite list_elem_of_In, in_flat_map. split.
  - intros [He|([o st] & Hin & He)].
    { unfold edge, neighbours in He. rewrite lookup_empty in He. by apply elem_of_nil in He. }
    apply list_elem_of_In in Hin; apply list_elem_of_In in He. apply elem_of_map_to_list in Hin.
    apply obj_edges_spec in He as (wt & hd & ?). exists o, st, wt, hd. tauto.
  - intros (o & st & wt & hd & Ho & ?). right. exists (o, st). rewrite <- !list_elem_of_In.
    split; [by apply elem_of_map_to_list|]. cbn. apply obj_edges_spec. exists wt, hd. tauto.
Qed.

Lemma tc_graph m a b : tc (edge (wait_for_graph m)) a b <-> tc (waits_for m) a b.
Proof.
  split; intros Hn; induction Hn as [x y H|x y z H _ IH];
    [apply tc_once|apply tc_l with y; [|exact IH]|apply tc_once|apply tc_l with y; [|exact IH]];
    by apply wait_for_graph_spec.
Qed.

Lemma cyclic_waits m : cyclic (wait_for_graph m) <-> exists n, tc (waits_for m) n n.
Proof. unfold cyclic. by setoid_rewrite tc_graph. Qed.

(** * The lock table by membership *)

Definition WaitsOn (m : LockManager) (o : LockObject) (w : Holder) : Prop :=
  exists st, m !! o = Some st /\ w ∈ waiters st.
Definition Holds (m : LockManager) (o : LockObject) (h : Holder) : Prop :=
  exists st, m !! o = Some st /\ h ∈ holders st.

Lemma waits_for_mem m a b :
  waits_for m a b <-> exists o wt hd, WaitsOn m o wt /\ Holds m o hd
    /\ h_pid wt = a /\ h_pid hd = b /\ a <> b /\ conflicts_with (h_mode hd) (h_mode wt) = true.
Proof.
  unfold waits_for, WaitsOn, Holds. split.
  - intros (o & st & wt & hd & ? & ? & ? & ?). exists o, wt, hd. split_and!; eauto; tauto.
  - intros (o & wt & hd & (st & E & Hw) & (st' & E' & Hh) & ?). exists o, st, wt, hd.
    assert (st = st') as <- by congruence. tauto.
Qed.

Lemma default_waiters m o w : w ∈ waiters (default obj_default (m !! o)) <-> WaitsOn m o w.
Proof.
  unfold WaitsOn. destruct (m !! o) as [st|]; cbn.
  - unfold id. split; [eauto|]. by intros (st' & [= <-] & ?).
  - rewrite elem_of_nil. split; [done|]. by intros (st' & [=] & ?).
Qed.

Lemma default_holders m o h : h ∈ holders (default obj_default (m !! o)) <-> Holds m o h.
Proof.
  unfold Holds. destruct (m !! o) as [st|]; cbn.
  - unfold id. split; [eauto|]. by intros (st' & [= <-] & ?).
  - rewrite elem_of_nil. split; [done|]. by intros (st' & [=] & ?).
Qed.

Lemma mem_insert m obj st o w :
  (WaitsOn (<[obj := st]> m) o w <-> if decide (o = obj) then w ∈ waiters st else WaitsOn m o w)
  /\ (Holds (<[obj := st]> m) o w <-> if decide (o = obj) then w ∈ holders st else Holds m o w).
Proof.
  unfold WaitsOn, Holds. destruct (decide (o = obj)) as [->|].
  - rewrite lookup_insert_eq. naive_solver.
  - by rewrite lookup_insert_ne by done.
Qed.

Lemma not_pid_spec pid h : not_pid pid h = true <-> h_pid h <> pid.
Proof. unfold not_pid. by rewrite negb_true_iff, Z.eqb_neq. Qed.

Lemma upgrade_mem pid mode hs hs' h :
  upgrade pid mode hs = Some hs' -> h ∈ hs' -> h ∈ hs \/ h = mk_holder pid mode.
Proof.
  revert hs'. induction hs as [|x hs IH]; intros hs' E; [done|]. cbn [upgrade] in E.
  destruct (h_pid x =? pid).
  - injection E as <-. rewrite !elem_of_cons. destruct (_ <? _); tauto.
  - destruct (upgrade pid mode hs) as [l|] eqn:El; [|done]. injection E as <-.
    rewrite !elem_of_cons. intros [->|Hin]; [tauto|]. destruct (IH l eq_refl Hin); tauto.
Qed.

Lemma upgrade_pids pid mode hs hs' :
  upgrade pid mode hs = Some hs' -> h_pid <$> hs' = h_pid <$> hs.
Proof.
  revert hs'. induction hs as [|x hs IH]; intros hs' E; [done|]. cbn [upgrade] in E.
  destruct (h_pid x =? pid) eqn:Ep.
  - injection E as <-. zb. cbn. f_equal. by destruct (_ <? _).
  - destruct (upgrade pid mode hs) as [l|] eqn:El; [|done]. injection E as <-. cbn. f_equal. by apply IH.
Qed.

Lemma upgrade_None pid mode hs : upgrade pid mode hs = None -> pid ∉ h_pid <$> hs.
Proof.
  induction hs as [|x hs IH]; intros E Hin; [by apply elem_of_nil in Hin|]. cbn [upgrade] in E.
  destruct (h_pid x =? pid) eqn:Ep; [done|]. zb. destruct (upgrade pid mode hs); [done|].
  rewrite fmap_cons in Hin. apply elem_of_cons in Hin as [?|Hin]; [congruence|by apply IH].
Qed.

Lemma grant_mem m pid obj mode o w :
  (WaitsOn (grant m pid obj mode) o w <-> WaitsOn m o w /\ (o = obj -> h_pid w <> pid))
  /\ (Holds (grant m pid obj mode) o w -> Holds m o w \/ (o = obj /\ w = mk_holder pid mode)).
Proof.
  unfold grant. set (hs := match upgrade _ _ _ with Some hs => hs | None => _ end).
  destruct (mem_insert m obj (mk_obj hs (List.filter (not_pid pid)
    (waiters (default obj_default (m !! obj))))) o w) as [H1 H2]. rewrite H1, H2. cbn [waiters holders].
  destruct (decide (o = obj)) as [->|]; [|tauto]. split.
  - rewrite elem_filter, default_waiters, not_pid_spec. tauto.
  - subst hs. intros Hin. destruct (upgrade _ _ _) as [hs|] eqn:E.
    + destruct (upgrade_mem _ _ _ _ _ E Hin) as [Hh| ->]; [left; by apply default_holders|by right].
    + apply elem_of_app in Hin as [Hh|Hh]; [left; by apply default_holders|right].
      by apply list_elem_of_singleton in Hh.
Qed.

Lemma add_waiter_mem m pid obj mode o w :
  (WaitsOn (add_waiter m pid obj mode) o w <->
     WaitsOn m o w \/ (o = obj /\ w = mk_holder pid mode /\ forall w', WaitsOn m obj w' -> h_pid w' <> pid))
  /\ (Holds (add_waiter m pid obj mode) o w <-> Holds m o w).
Proof.
  unfold add_waiter. set (st := default obj_default (m !! obj)).
  destruct (existsb (fun w => h_pid w =? pid) (waiters st)) eqn:Ex.
  - apply existsb_exists in Ex as (w' & Hw' & Ep). zb. apply list_elem_of_In in Hw'.
    apply default_waiters in Hw'. destruct (mem_insert m obj st o w) as [-> ->].
    destruct (decide (o = obj)) as [->|]; [|naive_solver]. unfold st.
    rewrite default_waiters, default_holders. naive_solver.
  - destruct (mem_insert m obj (mk_obj (holders st) (waiters st ++ [mk_holder pid mode])) o w) as [-> ->].
    cbn [waiters holders]. destruct (decide (o = obj)) as [->|]; [|naive_solver].
    rewrite elem_of_app, list_elem_of_singleton. unfold st. rewrite default_waiters, default_holders.
    assert (forall w', WaitsOn m obj w' -> h_pid w' <> pid).
    { intros w' Hw' Ep. apply default_waiters in Hw'. fold st in Hw'.
      assert (existsb (fun w => h_pid w =? pid) (waiters st) = true); [|congruence].
      apply existsb_exists. exists w'. split; [by apply list_elem_of_In|by apply Z.eqb_eq]. }
    naive_solver.
Qed.

Lemma obj_is_empty_spec st : obj_is_empty st = true -> holders st = [] /\ waiters st = [].
Proof. unfold obj_is_empty. by destruct (holders st), (waiters st). Qed.

Lemma remove_waiter_mem m pid obj o w :
  (WaitsOn (remove_waiter m pid obj) o w <-> WaitsOn m o w /\ (o = obj -> h_pid w <> pid))
  /\ (Holds (remove_waiter m pid obj) o w <-> Holds m o w).
Proof.
  unfold remove_waiter. destruct (m !! obj) as [st|] eqn:E.
  2: { split; [|done]. split; [|tauto]. intros H. split; [done|]. intros ->.
       destruct H as (? & ? & _). congruence. }
  set (st' := mk_obj (holders st) (List.filter (not_pid pid) (waiters st))).
  assert (forall o', Holds m o' w <-> if decide (o' = obj) then w ∈ holders st else Holds m o' w) as HH.
  { intros o'. destruct (decide (o' = obj)) as [->|]; [|done]. unfold Holds. rewrite E. naive_solver. }
  assert (forall o', WaitsOn m o' w <-> if decide (o' = obj) then w ∈ waiters st else WaitsOn m o' w) as WW.
  { intros o'. destruct (decide (o' = obj)) as [->|]; [|done]. unfold WaitsOn. rewrite E. naive_solver. }
  rewrite (HH o), (WW o). destruct (obj_is_empty st') eqn:Em.
  - apply obj_is_empty_spec in Em as [E1 E2]. cbn in E1, E2. unfold WaitsOn, Holds.
    destruct (decide (o = obj)) as [->|].
    + rewrite lookup_delete_eq. rewrite E1, elem_of_nil.
      assert (w ∈ waiters st -> h_pid w = pid) as Hf.
      { intros Hw. destruct (decide (h_pid w = pid)); [done|]. exfalso.
        assert (w ∈ List.filter (not_pid pid) (waiters st)) as Hx
          by (apply elem_filter; split; [done|by apply not_pid_spec]).
        rewrite E2 in Hx. by apply elem_of_nil in Hx. }
      naive_solver.
    + rewrite lookup_delete_ne by done. naive_solver.
  - destruct (mem_insert m obj st' o w) as [-> ->]. cbn [st' waiters holders].
    destruct (decide (o = obj)) as [->|]; [|naive_solver].
    rewrite elem_filter, not_pid_spec. naive_solver.
Qed.

Lemma release_all_mem m pid o w :
  (WaitsOn (fst (release_all m pid)) o w <-> WaitsOn m o w /\ h_pid w <> pid)
  /\ (Holds (fst (release_all m pid)) o w <-> Holds m o w /\ h_pid w <> pid).
Proof.
  unfold release_all, WaitsOn, Holds. cbn [fst]. rewrite lookup_omap.
  destruct (m !! o) as [st|]; cbn; [|naive_solver].
  destruct (obj_is_empty (release_obj pid st)) eqn:Em.
  - apply obj_is_empty_spec in Em as [E1 E2]. cbn in E1, E2.
    assert (forall l, List.filter (not_pid pid) l = [] -> w ∈ l -> h_pid w = pid) as Hf.
    { intros l El Hw. destruct (decide (h_pid w = pid)); [done|]. exfalso.
      assert (w ∈ List.filter (not_pid pid) l) as Hx
        by (apply elem_filter; split; [done|by apply not_pid_spec]).
      rewrite El in Hx. by apply elem_of_nil in Hx. }
    pose proof (Hf _ E1). pose proof (Hf _ E2). naive_solver.
  - split; split.
    + intros (st' & [= <-] & Hw). cbn in Hw. apply elem_filter in Hw. rewrite not_pid_spec in Hw. naive_solver.
    + intros ((st' & [= <-] & Hw) & Hn). eexists. split; [done|]. cbn. apply elem_filter.
      by rewrite not_pid_spec.
    + intros (st' & [= <-] & Hw). cbn in Hw. apply elem_filter in Hw. rewrite not_pid_spec in Hw. naive_solver.
    + intros ((st' & [= <-] & Hw) & Hn). eexists. split; [done|]. cbn. apply elem_filter.
      by rewrite not_pid_spec.
Qed.

(** * The system invariant *)

Definition holders_fine (m : LockManager) : Prop :=
  forall o st, m !! o = Some st -> holders_ok (holders st).

Record lock_inv (m : LockManager) (pk : gmap Z (LockObject * LockMode)) : Prop := {
  li_holders : holders_fine m;
  li_waiter : forall o w, WaitsOn m o w -> pk !! h_pid w = Some (o, h_mode w);
  li_parked : forall q o md, pk !! q = Some (o, md) -> WaitsOn m o (mk_holder q md);
  li_acyclic : forall n, ~ tc (waits_for m) n n
}.

Lemma conflicts_sym a b : conflicts_with a b = conflicts_with b a.
Proof. by destruct a, b. Qed.

Lemma holders_ok_filter pid hs : holders_ok hs -> holders_ok (List.filter (not_pid pid) hs).
Proof.
  intros [ND C]. split.
  - clear C. induction hs as [|h hs IH]; [done|]. rewrite fmap_cons in ND.
    apply NoDup_cons in ND as [N1 N2]. cbn [List.filter]. destruct (not_pid pid h); [|by apply IH].
    rewrite fmap_cons. apply NoDup_cons. split; [|by apply IH]. intros Hin. apply N1.
    apply list_elem_of_fmap in Hin as (x & -> & Hx). apply list_elem_of_fmap. exists x.
    split; [done|]. by apply elem_filter in Hx as [? _].
  - intros a b Ha Hb. apply elem_filter in Ha as [Ha _]. apply elem_filter in Hb as [Hb _]. by apply C.
Qed.

(** Granting to a backend that nobody blocks keeps the holders compatible. *)
Lemma holders_ok_grant m pid obj mode :
  (forall st, m !! obj = Some st -> holders_ok (holders st)) ->
  (forall h, Holds m obj h -> h_pid h <> pid -> conflicts_with (h_mode h) mode = false) ->
  forall st, grant m pid obj mode !! obj = Some st -> holders_ok (holders st).
Proof.
  intros HOK HC st E.
  assert (holders_ok (holders (default obj_default (m !! obj)))) as [ND C].
  { destruct (m !! obj) as [st0|]; cbn; [by apply HOK|]. split; [constructor|].
    intros a b Ha. by apply elem_of_nil in Ha. }
  assert (forall h, h ∈ holders st ->
            (h ∈ holders (default obj_default (m !! obj)) \/ h = mk_holder pid mode)) as HH.
  { intros h Hh. destruct (grant_mem m pid obj mode obj h) as [_ Hg].
    destruct (Hg (ex_intro _ st (conj E Hh))) as [Hg'|[_ Hg']]; [left; by apply default_holders|by right]. }
  split.
  - unfold grant in E. rewrite lookup_insert_eq in E. injection E as <-. cbn [holders].
    destruct (upgrade pid mode (holders (default obj_default (m !! obj)))) as [hs|] eqn:U.
    + by rewrite (upgrade_pids _ _ _ _ U).
    + rewrite fmap_app. apply NoDup_app. split_and!; [done| |apply NoDup_singleton].
      intros x Hx Hs. apply list_elem_of_singleton in Hs as ->. by apply (upgrade_None _ _ _ U).
  - intros a b Ha Hb Hne. destruct (HH a Ha) as [Ha'| ->], (HH b Hb) as [Hb'| ->]; [by apply C| | |done].
    + apply HC; [by apply default_holders|done].
    + rewrite conflicts_sym. apply HC; [by apply default_holders|]. cbn in Hne. congruence.
Qed.

Lemma free_not_elsewhere m pk pid obj mode o w :
  lock_inv m pk -> (pk !! pid = None \/ pk !! pid = Some (obj, mode)) ->
  WaitsOn m o w -> h_pid w = pid -> o = obj /\ h_mode w = mode.
Proof.
  intros I [Hp|Hp] Hw <-; apply (li_waiter _ _ I) in Hw; rewrite Hp in Hw; [done|].
  by injection Hw as -> ->.
Qed.

Lemma inv_grant m pk pid obj mode :
  lock_inv m pk -> (pk !! pid = None \/ pk !! pid = Some (obj, mode)) ->
  (forall h, Holds m obj h -> h_pid h <> pid -> conflicts_with (h_mode h) mode = false) ->
  lock_inv (grant m pid obj mode) (delete pid pk).
Proof.
  intros I Hf HC.
  assert (forall o w, WaitsOn (grant m pid obj mode) o w <-> WaitsOn m o w /\ h_pid w <> pid) as HW.
  { intros o w. destruct (grant_mem m pid obj mode o w) as [-> _]. split; [|naive_solver].
    intros [Hw Hn]. split; [done|]. intros Ep.
    destruct (free_not_elsewhere m pk pid obj mode o w I Hf Hw Ep) as [-> _]. by apply Hn. }
  split.
  - intros o st E. destruct (decide (o = obj)) as [->|].
    + eapply holders_ok_grant; [apply I|exact HC|exact E].
    + unfold grant in E. rewrite lookup_insert_ne in E by done. by apply (li_holders _ _ I o).
  - intros o w Hw. apply HW in Hw as [Hw Hn]. rewrite lookup_delete_ne by done. by apply (li_waiter _ _ I).
  - intros q o md Hq. apply lookup_delete_Some in Hq as [Hn Hq]. apply HW.
    split; [by apply (li_parked _ _ I)|cbn; congruence].
  - assert (forall b, ~ waits_for (grant m pid obj mode) pid b) as NO.
    { intros b Hb. apply waits_for_mem in Hb as (o & wt & hd & Hw & _ & Ep & _). apply HW in Hw as [_ Hn]. done. }
    assert (forall a b, waits_for (grant m pid obj mode) a b -> b = pid \/ waits_for m a b) as SUB.
    { intros a b Hb. apply waits_for_mem in Hb as (o & wt & hd & Hw & Hh & Ea & Eb & Hne & Hc).
      destruct (grant_mem m pid obj mode o hd) as [_ Hg]. destruct (Hg Hh) as [Hh'|[_ ->]]; [|by left].
      right. apply waits_for_mem. exists o, wt, hd. apply HW in Hw as [Hw _]. done. }
    assert (forall a b, tc (waits_for (grant m pid obj mode)) a b -> b = pid \/ tc (waits_for m) a b) as TC.
    { intros a b H. induction H as [a b H|a b c H H' IH].
      - destruct (SUB _ _ H); [by left|right; by apply tc_once].
      - destruct IH as [?|IH]; [by left|]. destruct (SUB _ _ H) as [->|?]; [|right; by eapply tc_l].
        exfalso. inversion H'; subst; eapply NO; eassumption. }
    intros n Hn. destruct (TC _ _ Hn) as [->|Hm]; [|by apply (li_acyclic _ _ I n)].
    inversion Hn; subst; eapply NO; eassumption.
Qed.

(** Dropping the waits of [pid] and possibly some holders keeps the invariant. *)
Lemma inv_drop m m' pk pid :
  lock_inv m pk -> holders_fine m' ->
  (forall o w, WaitsOn m' o w <-> WaitsOn m o w /\ h_pid w <> pid) ->
  (forall o h, Holds m' o h -> Holds m o h) ->
  lock_inv m' (delete pid pk).
Proof.
  intros I HOK HW HH. split; [done| | |].
  - intros o w Hw. apply HW in Hw as [Hw Hn]. rewrite lookup_delete_ne by done. by apply (li_waiter _ _ I).
  - intros q o md Hq. apply lookup_delete_Some in Hq as [Hn Hq]. apply HW.
    split; [by apply (li_parked _ _ I)|cbn; congruence].
  - assert (forall a b, waits_for m' a b -> waits_for m a b) as SUB.
    { intros a b Hb. apply waits_for_mem in Hb as (o & wt & hd & Hw & Hh & ?). apply waits_for_mem.
      exists o, wt, hd. apply HW in Hw as [Hw _]. apply HH in Hh. done. }
    assert (forall a b, tc (waits_for m') a b -> tc (waits_for m) a b) as TC.
    { intros a b Hn. induction Hn as [a b H|a b c H _ IH]; [apply tc_once; auto|eapply tc_l; eauto]. }
    intros n Hn. by apply (li_acyclic _ _ I n), TC.
Qed.

Lemma holders_fine_default m o : holders_fine m -> holders_ok (holders (default obj_default (m !! o))).
Proof.
  intros HOK. destruct (m !! o) as [st|] eqn:E; cbn; [by apply (HOK o)|].
  split; [constructor|]. intros a b Ha. by apply elem_of_nil in Ha.
Qed.

Lemma holders_fine_insert m o st : holders_fine m -> holders_ok (holders st) -> holders_fine (<[o := st]> m).
Proof.
  intros HOK Hst o' st' E. apply lookup_insert_Some in E as [[<- <-]|[_ E]]; [done|by apply (HOK o')].
Qed.

Lemma holders_fine_add m pid obj mode : holders_fine m -> holders_fine (add_waiter m pid obj mode).
Proof.
  intros HOK. pose proof (holders_fine_default m obj HOK). unfold add_waiter.
  destruct (existsb _ _); by apply holders_fine_insert.
Qed.

Lemma holders_fine_remove m pid obj : holders_fine m -> holders_fine (remove_waiter m pid obj).
Proof.
  intros HOK. unfold remove_waiter. destruct (m !! obj) as [st|] eqn:E; [|done].
  destruct (obj_is_empty _).
  - intros o st' E'. apply lookup_delete_Some in E' as [_ E']. by apply (HOK o).
  - apply holders_fine_insert; [done|]. exact (HOK obj st E).
Qed.

Lemma holders_fine_release m pid : holders_fine m -> holders_fine (fst (release_all m pid)).
Proof.
  intros HOK o st E. unfold release_all in E. cbn [fst] in E. rewrite lookup_omap in E.
  destruct (m !! o) as [st0|] eqn:E0; [|done]. cbn in E.
  destruct (obj_is_empty (release_obj pid st0)); [done|]. injection E as <-. cbn.
  apply holders_ok_filter. by apply (HOK o).
Qed.

Lemma inv_release m pk pid : lock_inv m pk -> lock_inv (fst (release_all m pid)) (delete pid pk).
Proof.
  intros I. apply (inv_drop m); [done|by apply holders_fine_release, I| |].
  - intros o w. apply release_all_mem.
  - intros o h Hh. by apply release_all_mem in Hh as [? _].
Qed.

(** A conflicting request that closes no cycle may wait. *)
Lemma inv_add_waiter m pk pid obj mode :
  lock_inv m pk -> (pk !! pid = None \/ pk !! pid = Some (obj, mode)) ->
  (forall n, ~ tc (waits_for (add_waiter m pid obj mode)) n n) ->
  lock_inv (add_waiter m pid obj mode) (<[pid := (obj, mode)]> pk).
Proof.
  intros I Hf AC. split; [| | |done].
  - by apply holders_fine_add, I.
  - intros o w Hw. apply add_waiter_mem in Hw as [Hw|(-> & -> & _)]; [|by rewrite lookup_insert_eq].
    destruct (decide (h_pid w = pid)) as [Ep|].
    + destruct (free_not_elsewhere _ _ _ _ _ _ _ I Hf Hw Ep) as [-> <-]. by rewrite Ep, lookup_insert_eq.
    + rewrite lookup_insert_ne by done. by apply (li_waiter _ _ I).
  - intros q o md Hq. apply add_waiter_mem. apply lookup_insert_Some in Hq as [[<- [= <- <-]]|[Hn Hq]].
    + destruct Hf as [Hp|Hp]; [right|left; by apply (li_parked _ _ I)]. split_and!; [done|done|].
      intros w' Hw' Ep. apply (li_waiter _ _ I) in Hw'. rewrite Ep in Hw'. congruence.
    + left. by apply (li_parked _ _ I).
Qed.

(** Rolling back a refused wait, then releasing everything of [pid]. *)
Lemma inv_rollback m pk pid obj mode :
  lock_inv m pk ->
  lock_inv (fst (release_all (remove_waiter (add_waiter m pid obj mode) pid obj) pid)) (delete pid pk).
Proof.
  intros I. apply (inv_drop m); [done| | |].
  - by apply holders_fine_release, holders_fine_remove, holders_fine_add, I.
  - intros o w. destruct (release_all_mem (remove_waiter (add_waiter m pid obj mode) pid obj) pid o w) as [-> _].
    destruct (remove_waiter_mem (add_waiter m pid obj mode) pid obj o w) as [-> _].
    destruct (add_waiter_mem m pid obj mode o w) as [-> _]. split.
    + intros [[[Hw|(-> & -> & _)] Hr] Hn]; done.
    + intros [Hw Hn]. split; [|done]. split; [by left|done].
  - intros o h Hh. apply release_all_mem in Hh as [Hh _]. apply remove_waiter_mem in Hh.
    by apply add_waiter_mem in Hh.
Qed.

(** * One turn of a backend *)

(** The outcome of [try_acquire], case by case. *)
Lemma try_acquire_cases m pid obj mode :
  (try_acquire m pid obj mode = Val (grant m pid obj mode, Granted)
     /\ forall h, Holds m obj h -> h_pid h <> pid -> conflicts_with (h_mode h) mode = false)
  \/ (exists h, Holds m obj h /\ h_pid h <> pid /\ conflicts_with (h_mode h) mode = true) /\
     ((exists ps, try_acquire m pid obj mode = Val (add_waiter m pid obj mode, Conflict ps)
        /\ forall n, ~ tc (waits_for (add_waiter m pid obj mode)) n n)
      \/ (try_acquire m pid obj mode = Val (remove_waiter (add_waiter m pid obj mode) pid obj, Deadlock)
        /\ exists n, tc (waits_for (add_waiter m pid obj mode)) n n)).
Proof.
  unfold try_acquire. set (conf := match m !! obj with Some st => _ | None => [] end).
  assert (forall x, x ∈ conf <-> exists h, Holds m obj h /\ x = h_pid h /\ blocks pid mode h = true) as HC.
  { intros x. subst conf. unfold Holds. destruct (m !! obj) as [st|].
    - rewrite list_elem_of_fmap. setoid_rewrite elem_filter. naive_solver.
    - rewrite elem_of_nil. naive_solver. }
  destruct conf as [|x conf].
  - left. split; [done|]. intros h Hh Hn. destruct (conflicts_with (h_mode h) mode) eqn:Ec; [|done].
    exfalso. apply (not_elem_of_nil (h_pid h)). apply HC. exists h. split_and!; [done|done|by apply blocks_spec].
  - right. split.
    { destruct (proj1 (HC x)) as (h & Hh & _ & Hb); [apply elem_of_cons; by left|].
      apply blocks_spec in Hb. by exists h. }
    destruct (has_cycle_ok (wait_for_graph (add_waiter m pid obj mode))) as (b & E & Hb). rewrite E.
    rewrite cyclic_waits in Hb. cbn [mbind run_bind]. destruct b; [right|left]; [naive_solver|].
    eexists. split; [done|]. intros n Hn. destruct Hb as [_ Hb]. discriminate Hb. by exists n.
Qed.

Lemma inv_acquire_turn m pk pid obj mode nowait cancel :
  lock_inv m pk -> (pk !! pid = None \/ pk !! pid = Some (obj, mode)) ->
  exists m' r, acquire_turn m pid obj mode nowait cancel = Val (m', r)
    /\ lock_inv m' (match r with Parked => <[pid := (obj, mode)]> pk | _ => delete pid pk end).
Proof.
  intros I Hf. unfold acquire_turn.
  destruct (try_acquire_cases m pid obj mode) as [[E HC]|[_ [(ps & E & AC)|[E _]]]]; rewrite E; cbn [mbind run_bind].
  - eexists _, _. split; [done|]. by apply inv_grant.
  - pose proof (inv_add_waiter m pk pid obj mode I Hf AC) as I'.
    assert (lock_inv (fst (release_all (add_waiter m pid obj mode) pid)) (delete pid pk)) as I''.
    { apply (inv_release _ _ pid) in I'. by rewrite delete_insert_eq in I'. }
    destruct nowait, cancel; eexists _, _; (split; [done|]); done.
  - eexists _, _. split; [done|]. by apply inv_rollback.
Qed.

Lemma inv_step s s' : lock_inv (mgr s) (parked s) -> lock_step s s' -> lock_inv (mgr s') (parked s').
Proof.
  intros I. destruct 1 as [pid obj mode nowait cancel m' Hf E|pid obj mode nowait cancel m' r Hf E Hr
                          |pid obj mode m' b Hp E|pid Hp]; cbn.
  - destruct (inv_acquire_turn _ _ pid obj mode nowait cancel I Hf) as (m1 & r1 & E1 & I1).
    rewrite E in E1. by injection E1 as <- <-.
  - destruct (inv_acquire_turn _ _ pid obj mode nowait cancel I Hf) as (m1 & r1 & E1 & I1).
    rewrite E in E1. injection E1 as <- <-. by destruct r.
  - unfold skip_locked in E. destruct (is_locked_by_other (mgr s) pid obj mode) eqn:L; [by injection E as <- <-|].
    destruct (try_acquire_cases (mgr s) pid obj mode) as [[Et HC]|[(h & Hh & Hn & Hc) _]].
    + rewrite Et in E. injection E as <- <-. rewrite <- (delete_id (parked s) pid Hp). by apply inv_grant; [|left|].
    + exfalso. unfold is_locked_by_other in L. destruct Hh as (st & Est & Hh). rewrite Est in L.
      assert (existsb (blocks pid mode) (holders st) = true); [|congruence].
      apply existsb_exists. exists h. split; [by apply list_elem_of_In|by apply blocks_spec].
  - rewrite <- (delete_id (parked s) pid Hp). by apply inv_release.
Qed.

Lemma inv_init : lock_inv ∅ ∅.
Proof.
  split.
  - intros o st E. by rewrite lookup_empty in E.
  - intros o w (st & E & _). by rewrite lookup_empty in E.
  - intros q o md E. by rewrite lookup_empty in E.
  - intros n Hn. assert (exists b, waits_for ∅ n b) as [b Hb] by (inversion Hn; subst; eauto).
    destruct Hb as (o & st & _ & _ & E & _). by rewrite lookup_empty in E.
Qed.

Lemma inv_reachable s : reachable s -> lock_inv (mgr s) (parked s).
Proof.
  assert (forall a b, rtc lock_step a b -> lock_inv (mgr a) (parked a) -> lock_inv (mgr b) (parked b)) as H.
  { intros a b R. induction R as [|a b c Hs _ IH]; [done|]. intros I. by eapply IH, inv_step. }
  intros R. eapply H; [exact R|apply inv_init].
Qed.

(** An acyclic graph can be put in topological order. *)
Lemma acyclic_topo g : ~ cyclic g -> exists ord, topo g ord /\ forall n, is_Some (g !! n) -> n ∈ ord.
Proof.
  intros AC. set (c0 := (fun _ : list Z => White) <$> g).
  assert (forall n, color_of c0 n = White) as W.
  { intros n. unfold c0, color_of. rewrite lookup_fmap. by destruct (g !! n). }
  destruct (cycle_from_ok g ((map_to_list g).*1) c0 []) as [[_ C]|(_ & ord & T & _ & H)]; [| |done|].
  - split; [constructor| | |done]; intros n; rewrite W, elem_of_nil; done.
  - intros n Hn. apply keys_map_to_list in Hn as [x Hx]. unfold c0. rewrite lookup_fmap, Hx. by eexists.
  - exists ord. split; [done|]. intros n Hn. by apply H, keys_map_to_list.
Qed.

(** Following the wait-for edges of an acyclic table ends at an unblocked backend. *)
Lemma wait_sink m p :
  (forall n, ~ tc (waits_for m) n n) -> exists q, rtc (waits_for m) p q /\ forall r, ~ waits_for m q r.
Proof.
  intros AC. destruct (acyclic_topo (wait_for_graph m)) as (ord & T & HD).
  { rewrite cyclic_waits. intros [n Hn]. by apply (AC n). }
  assert (forall n, n ∈ ord -> exists q, rtc (waits_for m) n q /\ forall r, ~ waits_for m q r) as HS.
  { clear HD. induction T as [|n ord T IH Hn Hm]; intros x Hx; [by apply elem_of_nil in Hx|].
    apply elem_of_cons in Hx as [->|Hx]; [|by apply IH].
    destruct (neighbours (wait_for_graph m) n) as [|y ys] eqn:E.
    - exists n. split; [done|]. intros r Hr. apply wait_for_graph_spec in Hr. unfold edge in Hr.
      rewrite E in Hr. by apply elem_of_nil in Hr.
    - assert (edge (wait_for_graph m) n y) as Hy by (unfold edge; rewrite E; apply elem_of_cons; by left).
      destruct (IH y (Hm y Hy)) as (q & Hq & Hs). exists q. split; [|done].
      eapply rtc_l; [|exact Hq]. by apply wait_for_graph_spec. }
  destruct (wait_for_graph m !! p) as [ns|] eqn:E; [apply HS, HD; by eexists|].
  exists p. split; [done|]. intros r Hr. apply wait_for_graph_spec in Hr. unfold edge, neighbours in Hr.
  rewrite E in Hr. by apply elem_of_nil in Hr.
Qed.

(** * Theorems *)

(** C31: the deadlock test terminates and is exact.  In whatever order the hash
    map yields its keys, the iterative three-colour search of [has_cycle] runs
    to completion and answers [true] exactly when the graph has a cycle. *)
Theorem has_cycle_correct keys g :
  (forall n, n ∈ keys <-> is_Some (g !! n)) ->
  exists b, has_cycle_in keys g = Val b /\ (b = true <-> cyclic g).
Proof. apply has_cycle_in_ok. Qed.

Lemma has_cycle_correct_witness :
  has_cycle_in [3; 1; 2] {[ 1 := [2; 3]; 2 := [3]; 3 := [1] ]} = Val true
  /\ cyclic ({[ 1 := [2; 3]; 2 := [3]; 3 := [1] ]} : graph).
Proof.
  destruct (has_cycle_correct [3; 1; 2] {[ 1 := [2; 3]; 2 := [3]; 3 := [1] ]}) as (b & E & H).
  - intros n. rewrite !elem_of_cons, elem_of_nil. split.
    + intros [->|[->|[->|[]]]]; vm_compute; eexists; reflexivity.
    + intros [x Hx]. rewrite !lookup_insert_Some, lookup_singleton_Some in Hx. intuition congruence.
  - vm_compute in E. injection E as <-. split; [vm_compute; reflexivity|]. apply H. reflexivity.
Defined.

(** C29: safety of the lock table under every interleaving of backends.  In any
    reachable state each object has at most one holder entry per backend, no
    two recorded holders conflict, the waiters are exactly the parked requests,
    and the wait-for relation has no cycle; and the next turn of any backend
    returns (the cycle test never diverges or indexes out of range). *)
Theorem lock_table_safe s :
  reachable s ->
  (forall o st, mgr s !! o = Some st -> holders_ok (holders st))
  /\ (forall q o md, parked s !! q = Some (o, md) <-> WaitsOn (mgr s) o (mk_holder q md))
  /\ (forall n, ~ tc (waits_for (mgr s)) n n)
  /\ forall pid obj mode nowait cancel, free_for s pid obj mode ->
       exists m' r, acquire_turn (mgr s) pid obj mode nowait cancel = Val (m', r).
Proof.
  intros R. pose proof (inv_reachable s R) as I. split_and!; [apply I| |apply I|].
  - intros q o md. split; [apply I|]. intros Hw. apply (li_waiter _ _ I) in Hw. done.
  - intros pid obj mode nowait cancel Hf.
    destruct (inv_acquire_turn _ _ pid obj mode nowait cancel I Hf) as (m' & r & E & _). eauto.
Qed.

(** Backend 1 holds table t exclusively; backend 2 parks behind it. *)
Definition demo_sys : LockSys :=
  mk_sys {[ tlock "t" := mk_obj [mk_holder 1 Exclusive] [mk_holder 2 Share] ]} {[ 2 := (tlock "t", Share) ]}.

Lemma demo_reachable : reachable demo_sys.
Proof.
  eapply rtc_l with (mk_sys {[ tlock "t" := mk_obj [mk_holder 1 Exclusive] [] ]} ∅).
  - apply (step_return sys_init 1 (tlock "t") Exclusive false false _ Acquired);
      [left; reflexivity|vm_compute; reflexivity|discriminate].
  - eapply rtc_l; [|apply rtc_refl].
    apply (step_park (mk_sys {[ tlock "t" := mk_obj [mk_holder 1 Exclusive] [] ]} ∅)
             2 (tlock "t") Share false false); [left; reflexivity|vm_compute; reflexivity].
Qed.

Lemma lock_table_safe_witness :
  reachable demo_sys /\ WaitsOn (mgr demo_sys) (tlock "t") (mk_holder 2 Share)
  /\ forall n, ~ tc (waits_for (mgr demo_sys)) n n.
Proof.
  split; [exact demo_reachable|].
  destruct (lock_table_safe demo_sys demo_reachable) as (_ & W & A & _).
  split; [apply W; vm_compute; reflexivity|exact A].
Defined.

(** C30: no set of backends is stuck.  From any parked backend of a reachable
    state the wait-for edges lead to a backend that is not blocked: either it
    is running (not parked), or its own retry is granted at once. *)
Theorem lock_no_deadlock s p o md :
  reachable s -> parked s !! p = Some (o, md) ->
  exists q, rtc (waits_for (mgr s)) p q /\
    (parked s !! q = None
     \/ exists o' md' m', parked s !! q = Some (o', md')
          /\ forall nowait cancel, acquire_turn (mgr s) q o' md' nowait cancel = Val (m', Acquired)).
Proof.
  intros R _. pose proof (inv_reachable s R) as I.
  destruct (wait_sink (mgr s) p (li_acyclic _ _ I)) as (q & Hq & Hs). exists q. split; [done|].
  destruct (parked s !! q) as [[o' md']|] eqn:E; [right|by left].
  pose proof (li_parked _ _ I _ _ _ E) as Hw. exists o', md', (grant (mgr s) q o' md'). split; [done|].
  intros nowait cancel. unfold acquire_turn.
  destruct (try_acquire_cases (mgr s) q o' md') as [[Et _]|[(h & Hh & Hn & Hc) _]]; [by rewrite Et|].
  exfalso. apply (Hs (h_pid h)). apply waits_for_mem. exists o', (mk_holder q md'), h.
  split_and!; [done|done|done|done|congruence|done].
Qed.

Lemma lock_no_deadlock_witness :
  parked demo_sys !! 2 = Some (tlock "t", Share)
  /\ exists q, rtc (waits_for (mgr demo_sys)) 2 q /\
       (parked demo_sys !! q = None
        \/ exists o' md' m', parked demo_sys !! q = Some (o', md')
          /\ forall nowait cancel, acquire_turn (mgr demo_sys) q o' md' nowait cancel = Val (m', Acquired)).
Proof.
  assert (parked demo_sys !! 2 = Some (tlock "t", Share)) as E by (vm_compute; reflexivity).
  split; [exact E|]. exact (lock_no_deadlock demo_sys 2 (tlock "t") Share demo_reachable E).
Defined.

(** [release_all] drops exactly the entries of one backend (the end of a
    transaction frees all its locks and touches nobody else's), and reports a
    change exactly when it dropped something. *)
Theorem release_all_exact m pid :
  (forall o w, WaitsOn (fst (release_all m pid)) o w <-> WaitsOn m o w /\ h_pid w <> pid)
  /\ (forall o h, Holds (fst (release_all m pid)) o h <-> Holds m o h /\ h_pid h <> pid)
  /\ (snd (release_all m pid) = true <->
       exists o e, (WaitsOn m o e \/ Holds m o e) /\ h_pid e = pid).
Proof.
  split_and!; [intros; apply release_all_mem|intros; apply release_all_mem|].
  unfold release_all. cbn [snd]. rewrite existsb_exists.
  assert (forall l, zlen (List.filter (not_pid pid) l) <= zlen l
    /\ (zlen (List.filter (not_pid pid) l) <> zlen l <-> exists e, e ∈ l /\ h_pid e = pid)) as HL.
  { induction l as [|x l [IH1 IH2]].
    - split; [done|]. setoid_rewrite elem_of_nil. naive_solver.
    - setoid_rewrite elem_of_cons. cbn [List.filter]. destruct (not_pid pid x) eqn:Ex.
      + rewrite !zlen_cons. apply not_pid_spec in Ex. split; [lia|].
        assert (1 + zlen (List.filter (not_pid pid) l) <> 1 + zlen l <->
                zlen (List.filter (not_pid pid) l) <> zlen l) as -> by lia. rewrite IH2. naive_solver.
      + rewrite zlen_cons. split; [lia|]. split; [|lia]. intros _. exists x. split; [by left|].
        destruct (decide (h_pid x = pid)) as [?|Hn]; [done|]. apply not_pid_spec in Hn. congruence. }
  assert (forall st, negb (obj_size (release_obj pid st) =? obj_size st) = true <->
    exists e, (e ∈ waiters st \/ e ∈ holders st) /\ h_pid e = pid) as HS.
  { intros st. rewrite negb_true_iff, Z.eqb_neq. unfold obj_size, release_obj. cbn [holders waiters].
    destruct (HL (holders st)) as [L1 E1]. destruct (HL (waiters st)) as [L2 E2].
    transitivity (zlen (List.filter (not_pid pid) (holders st)) <> zlen (holders st)
                  \/ zlen (List.filter (not_pid pid) (waiters st)) <> zlen (waiters st)); [lia|].
    rewrite E1, E2. naive_solver. }
  split.
  - intros ([o st] & Hin & Hs). apply list_elem_of_In in Hin. apply elem_of_map_to_list in Hin.
    apply HS in Hs as (e & He & Hp). exists o, e. split; [|done].
    destruct He; [left|right]; by exists st.
  - intros (o & e & He & Hp).
    assert (exists st, m !! o = Some st /\ (e ∈ waiters st \/ e ∈ holders st)) as (st & E & Hin).
    { destruct He as [(st & ? & ?)|(st & ? & ?)]; exists st; tauto. }
    exists (o, st). split; [by apply list_elem_of_In, elem_of_map_to_list|]. apply HS. by exists e.
Qed.

(** The mode tables.  The conflict matrix is symmetric, every mode's
    spelling parses back (in lower case and padded too), and a later mode in
    the order conflicts with everything an earlier one does, except that
    [Share] does not conflict with [Share] while the earlier [RowExclusive] and
    [ShareUpdateExclusive] do. *)
Theorem lock_mode_tables a b c :
  conflicts_with a b = conflicts_with b a
  /\ mode_parse (lit " " ++ (to_ascii_lower <$> mode_as_str a) ++ lit "  ") = Some a
  /\ (mode_index a <=? mode_index b) && conflicts_with a c && negb (conflicts_with b c)
     = (match a, b, c with
        | RowExclusive, Share, Share | ShareUpdateExclusive, Share, Share => true
        | _, _, _ => false
        end).
Proof.
  split; [by destruct a, b|]. split; [destruct a; vm_compute; reflexivity|by destruct a, b, c].
Qed.

(** Because of that exception the in-place upgrade of [grant], which keeps
    only the mode with the larger index, can lose a lock: backend 1 is granted
    [RowExclusive] and then [Share] on a table, after which backend 2 is granted
    [Share] on it, although [Share] conflicts with the [RowExclusive] lock that
    backend 1 still holds. *)
Theorem lock_upgrade_loses_mode :
  let t := tlock "t" in
  conflicts_with RowExclusive Share = true
  /\ (r ← try_acquire ∅ 1 t RowExclusive; r ← try_acquire (fst r) 1 t Share; try_acquire (fst r) 2 t Share)
     = Val ({[ t := mk_obj [mk_holder 1 Share; mk_holder 2 Share] [] ]}, Granted).
Proof. vm_compute. split; reflexivity. Qed.

(** A NOWAIT request that fails gives up more than its own wait: the
    requesting backend loses every lock it already held, here its exclusive
    lock on table a when table b is busy. *)
Theorem lock_nowait_drops_held_locks :
  let a := tlock "a" in
  let b := tlock "b" in
  let m := {[ a := mk_obj [mk_holder 1 Exclusive] []; b := mk_obj [mk_holder 2 Exclusive] [] ]} in
  acquire_turn m 1 b Exclusive true false
  = Val ({[ b := mk_obj [mk_holder 2 Exclusive] [] ]}, Failed (lit "could not obtain lock on relation"))
  /\ acquire_turn {[ b := mk_obj [mk_holder 2 Exclusive] [] ]} 3 a Exclusive true false
     = Val ({[ a := mk_obj [mk_holder 3 Exclusive] []; b := mk_obj [mk_holder 2 Exclusive] [] ]}, Acquired).
Proof. vm_compute. split; reflexivity. Qed.
