(* ===== verification/Txn.v ===== *)
(** Transactions and durability of crates/server/src/server.rs: [run_statement]
    with its transaction control, savepoints, two-phase commit and LISTEN/NOTIFY,
    autocommit, and the logical log of crates/engine/src/wal.rs.  The executor
    and the SQL serializer are parameters; LOCK TABLE, locking SELECTs and file
    COPY, which have handlers of their own, are in LockStmt.v and Copy.v. *)

From stdpp Require Import gmap.
From S2P Require Import Prelude Utf8 Types Index Storage Pwal Database Disk Lock.

#[local] Open Scope Z_scope.

(** * The logical log *)

Definition SEP : str := [59; 10].

(** [Wal::append] on the contents of the file. *)
Definition wal_append (contents sql : str) : str := match sql with [] => contents | _ => contents ++ sql ++ SEP end.

(** [Wal::open]: the text handed to replay. *)
Definition wal_contents (file : option (list Z)) : str := match file with Some b => from_utf8_lossy b | None => [] end.

(** [contents.split_inclusive(";\n")] *)
Fixpoint split_records (cur : str) (s : str) : list str :=
  match s with
  | [] => match cur with [] => [] | _ => [cur] end
  | c :: s =>
      let cur := cur ++ [c] in
      if (c =? 10) && bool_decide (last (take (length cur - 1) cur) = Some 59) then cur :: split_records [] s
      else split_records cur s
  end.
Definition ends_with_sep (r : str) : bool := bool_decide (drop (length r - 2) r = SEP).

(** [wal_records] *)
Definition wal_records (contents : str) : list str := filter (fun r => ends_with_sep r = true) (split_records [] contents).

(** * Statements *)

Inductive IsolationLevel := ReadUncommitted | ReadCommitted | RepeatableRead | Serializable.
#[export] Instance iso_eq_dec : EqDecision IsolationLevel.
Proof. solve_decision. Defined.

Definition guc_value (l : IsolationLevel) : str :=
  match l with
  | ReadUncommitted | ReadCommitted => lit "read committed"
  | RepeatableRead => lit "repeatable read"
  | Serializable => lit "serializable"
  end.

(** The mutating statements that name no table for the write set. *)
Inductive DdlKind :=
| KCreateTable | KCreateExtension | KAlterExtension | KCreateRole | KCreateSequence | KCreateSchema | KCreateDatabase
| KCreateTablespace | KCreateCollation | KCreateType | KCreateDomain | KCreateView | KCreateMaterializedView
| KCreateFunction | KCreateTrigger | KCreateRule | KCreateAggregate | KDropFunction | KDropTrigger | KDropRule
| KDropAggregate | KDropExtension | KDropRole | KDropSequence | KDropSchema | KDropDatabase | KDropTablespace
| KDropCollation | KDropType | KDropDomain | KDropView | KDropMaterializedView | KRefreshMaterializedView
| KAlterRole | KAlterSequence | KSecurityLabel | KAlterSystem | KCreateIndex | KDropIndex | KComment | KGrant | KRevoke
| KAlterDatabase | KCreateCatalogObject | KDropCatalogObject.

(** A statement for the transaction layer; [P] is what the executor needs. *)
Inductive Statement (P : Type) :=
| SInsert (table : str) (p : P)
| SUpdate (table : str) (p : P)
| SDelete (table : str) (p : P)
| SMerge (target : str) (p : P)
| STruncate (ts : list str) (p : P)
| SAlterTable (table : str) (p : P)
| SCreatePolicy (table : str) (p : P)
| SAlterPolicy (table : str) (p : P)
| SDropPolicy (table : str) (p : P)
| SDropTable (name : str) (p : P)
| SDdl (k : DdlKind) (p : P)
| SExplain (analyze : bool) (s : Statement P)
| SCheckpoint
| SOther (p : P)
| SBegin (isolation : option IsolationLevel) (ro : option bool)
| SSetTransaction (isolation : option IsolationLevel) (ro : option bool) (session : bool)
| SListen (channel : str)
| SUnlisten (channel : option str)
| SNotify (channel : str) (payload : option str)
| SCommit
| SRollback
| SPrepareTransaction (gid : str)
| SCommitPrepared (gid : str)
| SRollbackPrepared (gid : str)
| SSavepoint (name : str)
| SReleaseSavepoint (name : str)
| SRollbackToSavepoint (name : str).
Arguments SInsert {P}.
Arguments SUpdate {P}.
Arguments SDelete {P}.
Arguments SMerge {P}.
Arguments STruncate {P}.
Arguments SAlterTable {P}.
Arguments SCreatePolicy {P}.
Arguments SAlterPolicy {P}.
Arguments SDropPolicy {P}.
Arguments SDropTable {P}.
Arguments SDdl {P}.
Arguments SExplain {P}.
Arguments SCheckpoint {P}.
Arguments SOther {P}.
Arguments SBegin {P}.
Arguments SSetTransaction {P}.
Arguments SListen {P}.
Arguments SUnlisten {P}.
Arguments SNotify {P}.
Arguments SCommit {P}.
Arguments SRollback {P}.
Arguments SPrepareTransaction {P}.
Arguments SCommitPrepared {P}.
Arguments SRollbackPrepared {P}.
Arguments SSavepoint {P}.
Arguments SReleaseSavepoint {P}.
Arguments SRollbackToSavepoint {P}.

Definition is_data_mutation {P} (s : Statement P) : bool :=
  match s with SInsert _ _ | SUpdate _ _ | SDelete _ _ | SMerge _ _ | STruncate _ _ => true | _ => false end.

Fixpoint mutated_tables {P} (s : Statement P) : list str :=
  match s with
  | SInsert t _ | SUpdate t _ | SDelete t _ | SMerge t _ | SAlterTable t _ | SCreatePolicy t _ | SAlterPolicy t _
  | SDropPolicy t _ | SDropTable t _ => [t]
  | STruncate ts _ => ts
  | SExplain true s => mutated_tables s
  | _ => []
  end.

Fixpoint is_mutation {P} (s : Statement P) : bool :=
  match s with
  | SInsert _ _ | SUpdate _ _ | SDelete _ _ | SMerge _ _ | SAlterTable _ _ | SCreatePolicy _ _ | SAlterPolicy _ _
  | SDropPolicy _ _ | SDropTable _ _ | STruncate _ _ | SDdl _ _ => true
  | SExplain true s => is_mutation s
  | _ => false
  end.

(** * State *)

Record Notification := mk_note { sender_pid : Z; note_channel : str; note_payload : str }.

(** What other connections reach of a live backend: the secret a CancelRequest
    must echo, the cancel flag, the pending notifications. *)
Record BackendHandle := mk_handle { secret : Z; cancel : bool; notifications : list Notification }.
Definition set_cancel (b : bool) (h : BackendHandle) : BackendHandle := mk_handle (secret h) b (notifications h).
Definition push_note (n : Notification) (h : BackendHandle) : BackendHandle := mk_handle (secret h) (cancel h) (notifications h ++ [n]).

Record Notice := mk_notice { severity : str; code : str; message : str }.

Section txn.
(** [R] is a statement's result; [execute] is [executor::execute], which returns
    the database it leaves also when it fails, and which may panic. *)
Context {Expr Select P R : Type}.
Abbreviation DB := (Database Expr Select).
Abbreviation Stmt := (Statement P).
Variable execute : DB -> Stmt -> run (DB * result str R).
Variable statement_to_sql : Stmt -> str.

Record Savepoint := mk_savepoint { sp_name : str; sp_db : DB; sp_buffered_len : nat; sp_write_set : gset str }.

Record Transaction := mk_tx {
  tx_db : DB;
  buffered : list str;
  savepoints : list Savepoint;
  failed : bool;
  isolation : IsolationLevel;
  read_only : bool;
  snapshot_version : Z;
  write_set : gset str
}.

Record Session := mk_session {
  tx_status : Z;
  tx : option Transaction;
  pid : Z;
  notices : list Notice;
  prepared_gids : gset str;
  default_isolation : IsolationLevel;
  default_read_only : bool
}.

Record Shared := mk_shared {
  sh_db : DB;
  sh_wal : option str;
  sh_disk : option DiskStore;
  backends : gmap Z BackendHandle;
  listeners : gmap str (list Z);
  locks : LockManager
}.

Inductive ExecResult := Command (tag : str) | Result (r : R).
Abbreviation reply := (result str ExecResult).

Definition session_new (p : Z) : Session := mk_session 73 None p [] ∅ ReadCommitted false.

Definition set_tx (ss : Session) (status : Z) (t : option Transaction) : Session :=
  mk_session status t (pid ss) (notices ss) (prepared_gids ss) (default_isolation ss) (default_read_only ss).
Definition add_notice (ss : Session) (c m : str) : Session :=
  mk_session (tx_status ss) (tx ss) (pid ss) (notices ss ++ [mk_notice (lit "WARNING") c m]) (prepared_gids ss)
    (default_isolation ss) (default_read_only ss).
Definition set_gids (ss : Session) (g : gset str) : Session :=
  mk_session (tx_status ss) (tx ss) (pid ss) (notices ss) g (default_isolation ss) (default_read_only ss).
Definition set_defaults (ss : Session) (l : option IsolationLevel) (ro : option bool) : Session :=
  mk_session (tx_status ss) (tx ss) (pid ss) (notices ss) (prepared_gids ss)
    (default (default_isolation ss) l) (default (default_read_only ss) ro).
Definition set_shared_db (sh : Shared) (db : DB) : Shared :=
  mk_shared db (sh_wal sh) (sh_disk sh) (backends sh) (listeners sh) (locks sh).
Definition set_wal (sh : Shared) (w : option str) : Shared :=
  mk_shared (sh_db sh) w (sh_disk sh) (backends sh) (listeners sh) (locks sh).
Definition set_disk (sh : Shared) (d : option DiskStore) : Shared :=
  mk_shared (sh_db sh) (sh_wal sh) d (backends sh) (listeners sh) (locks sh).
Definition set_listeners (sh : Shared) (l : gmap str (list Z)) : Shared :=
  mk_shared (sh_db sh) (sh_wal sh) (sh_disk sh) (backends sh) l (locks sh).
Definition set_backends (sh : Shared) (b : gmap Z BackendHandle) : Shared :=
  mk_shared (sh_db sh) (sh_wal sh) (sh_disk sh) b (listeners sh) (locks sh).
Definition unlock_all (sh : Shared) (p : Z) : Shared :=
  mk_shared (sh_db sh) (sh_wal sh) (sh_disk sh) (backends sh) (listeners sh) (release_locks (locks sh) p).

(** * Handlers *)

Definition IDLE : Z := 73.
Definition IN_TX : Z := 84.
Definition FAILED_TX : Z := 69.
Definition ABORTED : str := lit "current transaction is aborted, commands ignored until end of transaction block".

(** The working copy's settings that mirror the transaction's modes. *)
Definition on_off (b : bool) : str := if b then lit "on" else lit "off".
Definition set_tx_settings (db : DB) (l : option IsolationLevel) (ro : option bool) : DB :=
  let db := match l with Some l => set_system_setting db (lit "transaction_isolation") (guc_value l) | None => db end in
  match ro with Some b => set_system_setting db (lit "transaction_read_only") (on_off b) | None => db end.

Definition begin (sh : Shared) (ss : Session) (l : option IsolationLevel) (ro : option bool) : Session :=
  match tx ss with
  | None =>
      let level := default (default_isolation ss) l in
      let readonly := default (default_read_only ss) ro in
      set_tx ss IN_TX (Some (mk_tx (set_tx_settings (sh_db sh) (Some level) (Some readonly)) [] [] false level readonly
                               (commit_version (sh_db sh)) ∅))
  | Some _ => add_notice ss (lit "25001") (lit "there is already a transaction in progress")
  end.

Definition set_transaction (ss : Session) (l : option IsolationLevel) (ro : option bool) (is_session : bool) : Session :=
  if is_session then set_defaults ss l ro
  else match tx ss with
       | Some t =>
           set_tx ss (tx_status ss) (Some (mk_tx (set_tx_settings (tx_db t) l ro) (buffered t) (savepoints t) (failed t)
             (default (isolation t) l) (default (read_only t) ro) (snapshot_version t) (write_set t)))
       | None => set_defaults ss l ro
       end.

Definition serializing (t : Transaction) : bool :=
  match isolation t with RepeatableRead | Serializable => true | _ => false end.

(** The log after the buffered statements of a commit were appended. *)
Definition log_all (w : option str) (sqls : list str) : option str := (fun c => foldl wal_append c sqls) <$> w.

(** The common part of COMMIT and PREPARE TRANSACTION on a healthy
    transaction: conflict check, publication of the working copy, log. *)
Definition publish (sh : Shared) (t : Transaction) : option Shared :=
  if serializing t && has_conflicting_commit (sh_db sh) (write_set t) (snapshot_version t) then None
  else
    let working := adopt_commit_state (tx_db t) (sh_db sh) in
    let working := (record_commit working (write_set t)).1 in
    Some (set_wal (set_shared_db sh working) (log_all (sh_wal sh) (buffered t))).

Definition CONFLICT : str := lit "could not serialize access due to concurrent update".

Definition commit (sh : Shared) (ss : Session) : Shared * Session * reply :=
  match tx ss with
  | Some t =>
      let ss := set_tx ss IDLE None in
      if failed t then (unlock_all sh (pid ss), ss, Ok (Command (lit "ROLLBACK")))
      else match publish sh t with
           | None => (unlock_all sh (pid ss), ss, Err CONFLICT)
           | Some sh => (unlock_all sh (pid ss), ss, Ok (Command (lit "COMMIT")))
           end
  | None => (sh, add_notice ss (lit "25P01") (lit "there is no transaction in progress"), Ok (Command (lit "COMMIT")))
  end.

Definition rollback (sh : Shared) (ss : Session) : Shared * Session * reply :=
  let ss := match tx ss with
            | None => add_notice ss (lit "25P01") (lit "there is no transaction in progress")
            | Some _ => ss
            end in
  (unlock_all sh (pid ss), set_tx ss IDLE None, Ok (Command (lit "ROLLBACK"))).

Definition prepare_transaction (sh : Shared) (ss : Session) (gid : str) : Shared * Session * reply :=
  match tx ss with
  | Some t =>
      let ss := set_tx ss IDLE None in
      if failed t then (unlock_all sh (pid ss), ss, Err ABORTED)
      else match publish sh t with
           | None => (unlock_all sh (pid ss), ss, Err CONFLICT)
           | Some sh => (unlock_all sh (pid ss), set_gids ss ({[ gid ]} ∪ prepared_gids ss), Ok (Command (lit "PREPARE TRANSACTION")))
           end
  | None => (sh, ss, Err (lit "PREPARE TRANSACTION can only be used in transaction blocks"))
  end.

(** [prepared_gids.remove(gid)] *)
Definition finish_prepared (ss : Session) (gid tag : str) : Session * reply :=
  if bool_decide (gid ∈ prepared_gids ss) then (set_gids ss (prepared_gids ss ∖ {[ gid ]}), Ok (Command tag))
  else (ss, Err (lit "prepared transaction with identifier " ++ quoted gid ++ lit " does not exist")).

Definition set_savepoints (t : Transaction) (sps : list Savepoint) : Transaction :=
  mk_tx (tx_db t) (buffered t) sps (failed t) (isolation t) (read_only t) (snapshot_version t) (write_set t).

Definition savepoint (ss : Session) (name : str) : Session * reply :=
  match tx ss with
  | None => (ss, Err (lit "SAVEPOINT can only be used in transaction blocks"))
  | Some t =>
      let kept := filter (fun sp => sp_name sp <> name) (savepoints t) in
      (set_tx ss (tx_status ss) (Some (set_savepoints t (kept ++ [mk_savepoint name (tx_db t) (length (buffered t)) (write_set t)]))),
       Ok (Command (lit "SAVEPOINT")))
  end.

(** [iter().rposition(|sp| sp.name == name)] *)
Fixpoint rposition (name : str) (sps : list Savepoint) : option nat :=
  match sps with
  | [] => None
  | sp :: sps =>
      match rposition name sps with
      | Some i => Some (S i)
      | None => if str_eqb (sp_name sp) name then Some 0%nat else None
      end
  end.

Definition no_savepoint (name : str) : str := lit "savepoint " ++ quoted name ++ lit " does not exist".

Definition release_savepoint (ss : Session) (name : str) : Session * reply :=
  match tx ss with
  | None => (ss, Err (lit "RELEASE SAVEPOINT can only be used in transaction blocks"))
  | Some t =>
      match rposition name (savepoints t) with
      | None => (ss, Err (no_savepoint name))
      | Some pos => (set_tx ss (tx_status ss) (Some (set_savepoints t (take pos (savepoints t)))), Ok (Command (lit "RELEASE")))
      end
  end.

Definition rollback_to_savepoint (ss : Session) (name : str) : Session * reply :=
  match tx ss with
  | None => (ss, Err (lit "ROLLBACK TO SAVEPOINT can only be used in transaction blocks"))
  | Some t =>
      match (pos ← rposition name (savepoints t); sp ← savepoints t !! pos; Some (pos, sp)) with
      | None => (ss, Err (no_savepoint name))
      | Some (pos, sp) =>
          (set_tx ss IN_TX (Some (mk_tx (sp_db sp) (take (sp_buffered_len sp) (buffered t)) (take (S pos) (savepoints t)) false
             (isolation t) (read_only t) (snapshot_version t) (sp_write_set sp))),
           Ok (Command (lit "ROLLBACK")))
      end
  end.

Definition listen (sh : Shared) (ss : Session) (channel : str) : Shared :=
  let pids := default [] (listeners sh !! channel) in
  set_listeners sh (<[channel := if bool_decide (pid ss ∈ pids) then pids else pids ++ [pid ss]]> (listeners sh)).
Definition without (p : Z) (pids : list Z) : list Z := filter (fun q => q <> p) pids.
Definition unlisten (sh : Shared) (ss : Session) (channel : option str) : Shared :=
  match channel with
  | Some c => set_listeners sh (alter (without (pid ss)) c (listeners sh))
  | None => set_listeners sh (without (pid ss) <$> listeners sh)
  end.
Definition notify (sh : Shared) (ss : Session) (channel : str) (payload : option str) : Shared :=
  let note := mk_note (pid ss) channel (default [] payload) in
  set_backends sh (foldl (fun m p => alter (push_note note) p m) (backends sh) (default [] (listeners sh !! channel))).

(** A statement inside a transaction runs against the working copy. *)
Definition in_transaction (ss : Session) (t : Transaction) (s : Stmt) : run (Session * reply) :=
  let fail_tx (t : Transaction) :=
    mk_tx (tx_db t) (buffered t) (savepoints t) true (isolation t) (read_only t) (snapshot_version t) (write_set t) in
  if failed t then Val (ss, Err ABORTED)
  else if read_only t && is_data_mutation s then
    Val (set_tx ss FAILED_TX (Some (fail_tx t)), Err (lit "cannot execute statement in a read-only transaction"))
  else
    '(db, r) ← execute (tx_db t) s;
    let t := mk_tx db (buffered t) (savepoints t) (failed t) (isolation t) (read_only t) (snapshot_version t) (write_set t) in
    Val match r with
    | Ok r =>
        let t := if is_mutation s
          then mk_tx db (buffered t ++ [statement_to_sql s]) (savepoints t) (failed t) (isolation t) (read_only t)
                 (snapshot_version t) (list_to_set (mutated_tables s) ∪ write_set t)
          else t in
        (set_tx ss (tx_status ss) (Some t), Ok (Result r))
    | Err e => (set_tx ss FAILED_TX (Some (fail_tx t)), Err e)
    end.

(** [execute_autocommit]; a failed checkpoint only prints a warning. *)
Definition execute_autocommit (sh : Shared) (s : Stmt) : run (Shared * reply) :=
  '(db, r) ← execute (sh_db sh) s;
  let sh := set_shared_db sh db in
  match r with
  | Err e => Val (sh, Err e)
  | Ok r =>
      sh ← match s, sh_disk sh with
           | SCheckpoint, Some store => '(store, _) ← checkpoint store db; Val (set_disk sh (Some store))
           | _, _ => Val sh
           end;
      Val (if is_mutation s then set_wal sh ((fun c => wal_append c (statement_to_sql s)) <$> sh_wal sh) else sh, Ok (Result r))
  end.

(** [run_statement] *)
Definition run_statement (sh : Shared) (ss : Session) (s : Stmt) : run (Shared * Session * reply) :=
  match s with
  | SBegin l ro => Val (sh, begin sh ss l ro, Ok (Command (lit "BEGIN")))
  | SSetTransaction l ro is_session => Val (sh, set_transaction ss l ro is_session, Ok (Command (lit "SET")))
  | SListen c => Val (listen sh ss c, ss, Ok (Command (lit "LISTEN")))
  | SUnlisten c => Val (unlisten sh ss c, ss, Ok (Command (lit "UNLISTEN")))
  | SNotify c p => Val (notify sh ss c p, ss, Ok (Command (lit "NOTIFY")))
  | SCommit => Val (commit sh ss)
  | SRollback => Val (rollback sh ss)
  | SPrepareTransaction gid => Val (prepare_transaction sh ss gid)
  | SCommitPrepared gid => let '(ss, r) := finish_prepared ss gid (lit "COMMIT PREPARED") in Val (sh, ss, r)
  | SRollbackPrepared gid => let '(ss, r) := finish_prepared ss gid (lit "ROLLBACK PREPARED") in Val (sh, ss, r)
  | SSavepoint n => let '(ss, r) := savepoint ss n in Val (sh, ss, r)
  | SReleaseSavepoint n => let '(ss, r) := release_savepoint ss n in Val (sh, ss, r)
  | SRollbackToSavepoint n => let '(ss, r) := rollback_to_savepoint ss n in Val (sh, ss, r)
  | _ =>
      match tx ss with
      | Some t => '(ss, r) ← in_transaction ss t s; Val (sh, ss, r)
      | None => '(sh, r) ← execute_autocommit sh s; Val (sh, ss, r)
      end
  end.

(** A session's statements one after the other, whatever each returns. *)
Fixpoint run_script (sh : Shared) (ss : Session) (script : list Stmt) : run (Shared * Session * list reply) :=
  match script with
  | [] => Val (sh, ss, [])
  | s :: script =>
      '(sh, ss, r) ← run_statement sh ss s;
      '(sh, ss, rs) ← run_script sh ss script;
      Val (sh, ss, r :: rs)
  end.

End txn.

(** * Specification *)

(** Whether no [";\n"] occurs, the first byte following a semicolon if [prev]. *)
Fixpoint sep_free (prev : bool) (s : str) : bool :=
  match s with
  | [] => true
  | c :: s => if (c =? 10) && prev then false else sep_free (c =? 59) s
  end.

(** A statement text the prefix recovery of the log can delimit. *)
Definition sql_ok (sql : str) : Prop := sql <> [] /\ sep_free false sql = true /\ utf8_valid sql = true.

(** * The log *)

Lemma sep_free_weaken s : sep_free true s = true -> sep_free false s = true.
Proof. destruct s as [|c s]; [done|]. cbn. by destruct (c =? 10). Qed.

Lemma sep_free_any p s : sep_free p s = true -> sep_free false s = true.
Proof. destruct p; [apply sep_free_weaken|done]. Qed.

Lemma sep_free_drop n : forall p s, sep_free p s = true -> sep_free false (drop n s) = true.
Proof.
  induction n as [|n IH]; intros p s H; [by apply (sep_free_any p)|]. destruct s as [|c s]; [done|]. cbn in *.
  destruct ((c =? 10) && p); [done|]. by eapply IH.
Qed.

(** No separator is completed by bytes that are neither semicolon nor newline. *)
Lemma sep_free_high p ch rest : Forall (fun b => 128 <= b) ch -> ch <> [] -> sep_free p (ch ++ rest) = sep_free false rest.
Proof.
  intros F. revert p. induction F as [|b ch Hb F IH]; intros p Hne; [done|]. cbn. zfalse (b =? 10). zfalse (b =? 59). cbn [andb].
  destruct ch as [|b' ch]; [done|]. by apply IH.
Qed.

Lemma lossy_sep_free fuel : forall l p, sep_free p l = true -> sep_free p (lossy_fuel fuel l) = true.
Proof.
  induction fuel as [|fuel IH]; intros [|b t] p H; cbn [lossy_fuel]; try done.
  destruct (utf8_step b t) as [ok n] eqn:E. pose proof (utf8_step_pos b t) as P. rewrite E in P. cbn in P. destruct n as [|n]; [lia|].
  destruct ok.
  - assert (char_ok (take (S n) (b :: t))) as C.
    { exists b, (take n t). split; [done|]. pose proof (utf8_step_len b t) as L. rewrite E in L. cbn in L. specialize (L eq_refl).
      cbn [take length]. rewrite length_take, Nat.min_l by lia. by apply utf8_step_take. }
    rewrite <- (take_drop (S n) (b :: t)) in H. destruct (char_ok_bytes _ C) as [(c & Ec & Hc)|F].
    + rewrite Ec in H |- *. cbn in H |- *. destruct ((c =? 10) && p); [done|]. by apply IH.
    + rewrite sep_free_high in H by done. rewrite sep_free_high by done. by apply IH.
  - unfold REPLACEMENT. rewrite sep_free_high; [|repeat constructor; lia|done]. apply IH. by apply (sep_free_drop _ p).
Qed.

Lemma lossy_fuel_more fuel fuel' l :
  (length l <= fuel)%nat -> (length l <= fuel')%nat -> lossy_fuel fuel l = lossy_fuel fuel' l.
Proof.
  revert fuel' l. induction fuel as [|fuel IH]; intros [|fuel'] [|b t]; cbn [lossy_fuel length]; try done; try lia.
  intros H1 H2. destruct (utf8_step b t) as [[] n] eqn:E; pose proof (utf8_step_pos b t) as P; rewrite E in P; cbn in P;
    f_equal; apply IH; rewrite length_drop; cbn; lia.
Qed.

Lemma lossy_valid_app a b : utf8_valid a = true -> from_utf8_lossy (a ++ b) = a ++ from_utf8_lossy b.
Proof.
  revert a. apply utf8_valid_ind; [done|]. intros ch rest (b0 & t & -> & E) _ IH. rewrite <- !app_assoc, <- IH.
  unfold from_utf8_lossy. cbn [app length lossy_fuel]. rewrite utf8_step_app by (by rewrite E). rewrite E.
  replace (take (length (b0 :: t)) (b0 :: t ++ rest ++ b)) with (b0 :: t) by (symmetry; apply (take_app_length (b0 :: t))).
  replace (drop (length (b0 :: t)) (b0 :: t ++ rest ++ b)) with (rest ++ b) by (symmetry; apply (drop_app_length (b0 :: t))).
  cbn [app]. do 2 f_equal. apply lossy_fuel_more; rewrite ?length_app; lia.
Qed.

(** Reading on to the end of a record, and a tail without one. *)
Lemma split_records_sql sql : forall cur rest,
  sep_free (bool_decide (last cur = Some 59)) sql = true ->
  split_records cur (sql ++ SEP ++ rest) = (cur ++ sql ++ SEP) :: split_records [] rest.
Proof.
  induction sql as [|c sql IH]; intros cur rest H.
  - cbn [app split_records SEP]. change (59 =? 10) with false. cbn [andb]. change (10 =? 10) with true. cbn [andb].
    rewrite bool_decide_eq_true_2; [by rewrite <- app_assoc|]. rewrite length_app. cbn [length]. rewrite Nat.add_sub.
    by rewrite take_app_length, last_snoc.
  - cbn [app split_records sep_free] in *. rewrite length_app. cbn [length]. rewrite Nat.add_sub, take_app_length.
    destruct ((c =? 10) && bool_decide (last cur = Some 59)); [done|]. rewrite IH; [by rewrite <- !app_assoc|].
    rewrite last_snoc. destruct (c =? 59) eqn:E; zb; [subst; by rewrite bool_decide_eq_true_2|].
    rewrite bool_decide_eq_false_2; [done|congruence].
Qed.

Lemma split_records_tail s : forall cur,
  sep_free (bool_decide (last cur = Some 59)) s = true ->
  split_records cur s = match cur ++ s with [] => [] | _ => [cur ++ s] end.
Proof.
  induction s as [|c s IH]; intros cur H; [by rewrite app_nil_r|]. cbn [split_records sep_free] in *. rewrite length_app. cbn [length].
  rewrite Nat.add_sub, take_app_length. destruct ((c =? 10) && bool_decide (last cur = Some 59)); [done|].
  rewrite IH; [by rewrite <- app_assoc|]. rewrite last_snoc.
  destruct (c =? 59) eqn:E; zb; [subst; by rewrite bool_decide_eq_true_2|]. rewrite bool_decide_eq_false_2; [done|congruence].
Qed.

Lemma ends_with_sep_app s : ends_with_sep (s ++ SEP) = true.
Proof.
  unfold ends_with_sep. apply bool_decide_eq_true. rewrite length_app. change (length SEP) with 2%nat.
  rewrite Nat.add_sub. apply drop_app_length.
Qed.

Lemma sep_free_not_sep s : sep_free false s = true -> ends_with_sep s = false.
Proof.
  intros H. apply bool_decide_eq_false. intros E. rewrite <- (take_drop (length s - 2) s), E in H.
  revert H. generalize (take (length s - 2) s) as l, false as p. induction l as [|c l IH]; intros p H; cbn in H; [done|].
  destruct ((c =? 10) && p); [done|]. by eapply IH.
Qed.

Lemma log_contents sqls c : Forall (fun s => s <> []) sqls -> foldl wal_append c sqls = c ++ flat_map (fun s => s ++ SEP) sqls.
Proof.
  intros F. revert c. induction F as [|s sqls Hs F IH]; intros c; cbn [foldl flat_map]; [by rewrite app_nil_r|].
  rewrite IH. destruct s; [done|]. cbn [wal_append]. by rewrite <- !app_assoc.
Qed.

Lemma wal_records_spec sqls torn :
  Forall sql_ok sqls -> sep_free false torn = true ->
  wal_records (flat_map (fun s => s ++ SEP) sqls ++ torn) = (fun s => s ++ SEP) <$> sqls.
Proof.
  intros F Ht. unfold wal_records. induction F as [|s sqls (Hs & Hf & _) F IH]; cbn [flat_map fmap list_fmap app].
  - rewrite split_records_tail by done. cbn [app]. destruct torn as [|c torn]; [done|]. rewrite filter_cons_False; [done|].
    rewrite sep_free_not_sep by done. done.
  - rewrite <- !app_assoc, split_records_sql by done. cbn [app]. rewrite filter_cons_True by apply ends_with_sep_app. by rewrite IH.
Qed.

(** * Transactions *)

(** The statements the executor runs. *)
Definition is_plain {P} (s : Statement P) : bool :=
  match s with
  | SInsert _ _ | SUpdate _ _ | SDelete _ _ | SMerge _ _ | STruncate _ _ | SAlterTable _ _ | SCreatePolicy _ _ | SAlterPolicy _ _
  | SDropPolicy _ _ | SDropTable _ _ | SDdl _ _ | SExplain _ _ | SCheckpoint | SOther _ => true
  | _ => false
  end.

(** The statements that end a transaction block. *)
Definition ends_tx {P} (s : Statement P) : bool :=
  match s with SCommit | SRollback | SPrepareTransaction _ => true | _ => false end.

Section proofs.
Context {Expr Select P R : Type}.
Abbreviation DB := (Database Expr Select).
Abbreviation Stmt := (Statement P).
Variable execute : DB -> Stmt -> run (DB * result str R).
Variable statement_to_sql : Stmt -> str.
Abbreviation run_one := (run_statement execute statement_to_sql).
Abbreviation run_all := (run_script execute statement_to_sql).
Abbreviation Sh := (@Shared Expr Select).
Abbreviation Ss := (@Session Expr Select).
Implicit Types (sh : Sh) (ss : Ss).

(** The shared database, the logical log, the disk store and the lock table. *)
Definition same_shared sh sh' : Prop :=
  sh_db sh' = sh_db sh /\ sh_wal sh' = sh_wal sh /\ sh_disk sh' = sh_disk sh /\ locks sh' = locks sh.

(** A run that keeps [Q], or the panic of the executor on a statement of the script. *)
Definition unless_panic {A} (script : list Stmt) (m : run A) (Q : A -> Prop) : Prop :=
  match m with Val a => Q a | Panic => exists db s, s ∈ script /\ is_plain s = true /\ execute db s = Panic end.

Lemma plain_statement sh ss s : is_plain s = true ->
  run_one sh ss s = match tx ss with
                    | Some t => '(ss, r) ← in_transaction execute statement_to_sql ss t s; Val (sh, ss, r)
                    | None => '(sh, r) ← execute_autocommit execute statement_to_sql sh s; Val (sh, ss, r)
                    end.
Proof. by destruct s. Qed.

Lemma in_transaction_open ss t s : tx ss = Some t -> is_plain s = true ->
  unless_panic [s] (in_transaction execute statement_to_sql ss t s) (fun '(ss', _) => is_Some (tx ss') /\ pid ss' = pid ss).
Proof.
  intros Ht Hp. unfold in_transaction. destruct (failed t); [split; [by exists t|done]|].
  destruct (read_only t && is_data_mutation s); [split; [by eexists|done]|].
  destruct (execute (tx_db t) s) as [[db [r|e]]|] eqn:E; cbn; [split; [by eexists|done]..|].
  exists (tx_db t), s. by split; [left|].
Qed.

(** One statement inside a block touches nothing shared. *)
Lemma tx_statement sh ss s : is_Some (tx ss) -> ends_tx s = false ->
  unless_panic [s] (run_one sh ss s) (fun '(sh', ss', _) => same_shared sh sh' /\ is_Some (tx ss') /\ pid ss' = pid ss).
Proof.
  intros [t Ht] He. destruct (is_plain s) eqn:Hp.
  { rewrite plain_statement, Ht by done. pose proof (in_transaction_open ss t s Ht Hp) as O.
    by destruct (in_transaction execute statement_to_sql ss t s) as [[ss' r]|]. }
  destruct s; try discriminate He; try discriminate Hp; cbn [run_statement].
  - unfold begin. rewrite Ht. cbn. split_and!; try done; by exists t.
  - unfold set_transaction. rewrite Ht. destruct session; cbn; split_and!; try done; eauto.
  - cbn. split_and!; try done; by exists t.
  - destruct channel; cbn; split_and!; try done; by exists t.
  - cbn. split_and!; try done; by exists t.
  - unfold finish_prepared. destruct (bool_decide _); cbn; split_and!; try done; by exists t.
  - unfold finish_prepared. destruct (bool_decide _); cbn; split_and!; try done; by exists t.
  - unfold savepoint. rewrite Ht. cbn. split_and!; try done; by eexists.
  - unfold release_savepoint. rewrite Ht. destruct (rposition _ _); cbn; split_and!; try done; eauto.
  - unfold rollback_to_savepoint. rewrite Ht.
    destruct (rposition name (savepoints t)) as [pos|]; cbn [mbind option_bind]; [destruct (savepoints t !! pos)|];
      cbn; split_and!; try done; eauto.
Qed.

Lemma tx_script script : forall sh ss, is_Some (tx ss) -> Forall (fun s => ends_tx s = false) script ->
  unless_panic script (run_all sh ss script) (fun '(sh', ss', _) => same_shared sh sh' /\ is_Some (tx ss') /\ pid ss' = pid ss).
Proof.
  induction script as [|s script IH]; intros sh ss Ht F; [by cbn|].
  apply Forall_cons in F as [He F]. pose proof (tx_statement sh ss s Ht He) as S. cbn [run_script].
  destruct (run_one sh ss s) as [[[sh1 ss1] r]|]; cbn [mbind run_bind unless_panic] in *.
  - destruct S as ((S1 & S2 & S3 & S4) & T1 & P1). specialize (IH sh1 ss1 T1 F).
    destruct (run_all sh1 ss1 script) as [[[sh2 ss2] rs]|]; cbn [mbind run_bind unless_panic] in *.
    + destruct IH as ((S5 & S6 & S7 & S8) & T2 & P2). unfold same_shared. split_and!; congruence || done.
    + destruct IH as (db & s' & Hs & H). exists db, s'. split; [by right|done].
  - destruct S as (db & s' & ->%list_elem_of_singleton & H). exists db, s. split; [by left|done].
Qed.

Lemma run_script_app l1 : forall l2 sh ss,
  run_all sh ss (l1 ++ l2) = ('(sh, ss, rs) ← run_all sh ss l1; '(sh, ss, rs') ← run_all sh ss l2; Val (sh, ss, rs ++ rs')).
Proof.
  induction l1 as [|s l1 IH]; intros l2 sh ss; cbn [app run_script mbind run_bind].
  - by destruct (run_all sh ss l2) as [[[? ?] ?]|].
  - destruct (run_one sh ss s) as [[[sh1 ss1] r]|]; cbn [mbind run_bind]; [|done]. rewrite IH.
    destruct (run_all sh1 ss1 l1) as [[[sh2 ss2] rs]|]; cbn [mbind run_bind]; [|done].
    by destruct (run_all sh2 ss2 l2) as [[[? ?] ?]|].
Qed.

Lemma run_script_length l : forall sh ss sh' ss' rs, run_all sh ss l = Val (sh', ss', rs) -> length rs = length l.
Proof.
  induction l as [|s l IH]; intros sh ss sh' ss' rs; cbn [run_script]; [by intros [= _ _ <-]|].
  destruct (run_one sh ss s) as [[[sh1 ss1] r]|]; cbn [mbind run_bind]; [|done].
  destruct (run_all sh1 ss1 l) as [[[sh2 ss2] rs2]|] eqn:E; cbn [mbind run_bind]; [|done].
  intros [= _ _ <-]. cbn. f_equal. by eapply IH.
Qed.

(** ** Serial execution *)

(** The statements run one after the other, all of them successfully. *)
Inductive exec_all : DB -> list Stmt -> DB -> list R -> Prop :=
| exec_nil db : exec_all db [] db []
| exec_cons db s db' r qs db'' rs :
    execute db s = Val (db', Ok r) -> exec_all db' qs db'' rs -> exec_all db (s :: qs) db'' (r :: rs).

(** What a transaction that ran [qs] has accumulated. *)
Definition log_of (qs : list Stmt) : list str := statement_to_sql <$> filter (fun s => is_mutation s = true) qs.
Definition writes (qs : list Stmt) : gset str := list_to_set (flat_map (fun s => if is_mutation s then mutated_tables s else []) qs).

Lemma tx_exec_all qs : forall sh ss t db rs,
  tx ss = Some t -> failed t = false -> (read_only t = true -> Forall (fun s => is_data_mutation s = false) qs) ->
  Forall (fun s => is_plain s = true) qs -> exec_all (tx_db t) qs db rs ->
  exists ss' t', run_all sh ss qs = Val (sh, ss', (fun r => Ok (Result r)) <$> rs) /\ tx ss' = Some t' /\ pid ss' = pid ss
    /\ failed t' = false /\ tx_db t' = db /\ buffered t' = buffered t ++ log_of qs /\ write_set t' = writes qs ∪ write_set t
    /\ isolation t' = isolation t /\ snapshot_version t' = snapshot_version t.
Proof.
  induction qs as [|s qs IH]; intros sh ss t db rs Ht Hf Hro Hp He; inversion He as [|? ? db1 r ? ? rs' Ex He']; subst.
  - exists ss, t. unfold log_of, writes. cbn. rewrite app_nil_r, union_empty_l_L. done.
  - apply Forall_cons in Hp as [Hp Hps]. cbn [run_script]. rewrite plain_statement, Ht by done. unfold in_transaction. rewrite Hf.
    assert (read_only t && is_data_mutation s = false) as ->.
    { destruct (read_only t); [|done]. specialize (Hro eq_refl). by apply Forall_cons in Hro as [-> _]. }
    rewrite Ex. cbn [mbind run_bind].
    set (t1 := if is_mutation s then _ else _).
    destruct (IH sh (set_tx ss (tx_status ss) (Some t1)) t1 db rs') as (ss' & t' & E & T & Pd & F & D & B & W & I & S).
    { done. } { subst t1. by destruct (is_mutation s). }
    { assert (read_only t1 = read_only t) as -> by (subst t1; by destruct (is_mutation s)). intros Hr. specialize (Hro Hr).
      by apply Forall_cons in Hro as [_ ?]. }
    { done. } { assert (tx_db t1 = db1) as -> by (subst t1; by destruct (is_mutation s)). done. }
    rewrite E. cbn [mbind run_bind]. exists ss', t'.
    assert (buffered t1 = buffered t ++ (if is_mutation s then [statement_to_sql s] else [])) as B1
      by (subst t1; destruct (is_mutation s); cbn; by rewrite ?app_nil_r).
    assert (write_set t1 = list_to_set (if is_mutation s then mutated_tables s else []) ∪ write_set t) as W1
      by (subst t1; destruct (is_mutation s); cbn; by rewrite ?union_empty_l_L).
    split_and!; [done|done|done|done|done| | |rewrite I; subst t1; by destruct (is_mutation s)|rewrite S; subst t1; by destruct (is_mutation s)].
    + rewrite B, B1, <- app_assoc. f_equal. unfold log_of. rewrite filter_cons. by destruct (is_mutation s).
    + rewrite W, W1. unfold writes. cbn [flat_map]. rewrite list_to_set_app_L, (assoc_L (∪)). f_equal. by rewrite (comm_L (∪)).
Qed.

(** ** Commit versions *)

Definition versions_ok (db : DB) : Prop := forall x, table_version db x <= commit_version db.

Lemma foldl_versions (l : list str) : forall (m : gmap str Z) v x,
  foldl (fun m table => <[table := v]> m) m l !! x = if bool_decide (x ∈ l) then Some v else m !! x.
Proof.
  induction l as [|y l IH]; intros m v x; cbn [foldl]; [done|]. rewrite IH. destruct (decide (x ∈ l)) as [Hx|Hx].
  - by rewrite !bool_decide_eq_true_2 by (try right; done).
  - rewrite bool_decide_eq_false_2 by done. destruct (decide (y = x)) as [<-|Hne].
    + rewrite lookup_insert_eq, bool_decide_eq_true_2; [done|by left].
    + rewrite lookup_insert_ne, bool_decide_eq_false_2; [done| |done]. intros [?|?]%elem_of_cons; congruence.
Qed.

Lemma record_commit_version (db : DB) ws x :
  table_version (record_commit db ws).1 x = if bool_decide (x ∈ ws) then commit_version db + 1 else table_version db x.
Proof.
  unfold table_version, record_commit. cbn. rewrite foldl_versions.
  assert (bool_decide (x ∈ elements ws) = bool_decide (x ∈ ws)) as ->.
  { apply bool_decide_ext. apply elem_of_elements. }
  by destruct (bool_decide (x ∈ ws)).
Qed.

Lemma conflict_spec (db : DB) ws v x : x ∈ ws -> v < table_version db x -> has_conflicting_commit db ws v = true.
Proof.
  intros Hx Hv. unfold has_conflicting_commit. apply existsb_exists. exists x. split; [|by apply Z.ltb_lt].
  apply list_elem_of_In. by apply elem_of_elements.
Qed.

(** The later database has seen every commit of the earlier one. *)
Definition later (db db' : DB) : Prop :=
  commit_version db <= commit_version db' /\ (forall x, table_version db x <= table_version db' x).

Lemma later_refl db : later db db.
Proof. split; [done|]. intros x. lia. Qed.
Lemma later_trans a b c : later a b -> later b c -> later a c.
Proof. intros [H1 H2] [H3 H4]. split; [lia|]. intros x. specialize (H2 x). specialize (H4 x). lia. Qed.

Section versions.
(** The executor never touches the commit bookkeeping. *)
Hypothesis execute_versions : forall db s db' r, execute db s = Val (db', r) ->
  commit_version db' = commit_version db /\ table_versions db' = table_versions db.

Lemma publish_later sh t sh' : publish sh t = Some sh' -> versions_ok (sh_db sh) ->
  later (sh_db sh) (sh_db sh') /\ versions_ok (sh_db sh')
  /\ (forall x, x ∈ write_set t -> table_version (sh_db sh') x = commit_version (sh_db sh) + 1).
Proof.
  unfold publish. destruct (serializing t && _); [discriminate|]. intros E V.
  assert (sh_db sh' = (record_commit (adopt_commit_state (tx_db t) (sh_db sh)) (write_set t)).1) as -> by (by injection E as <-).
  assert (forall x, table_version (adopt_commit_state (tx_db t) (sh_db sh)) x = table_version (sh_db sh) x) as A by done.
  split_and!.
  - split; [cbn; lia|]. intros x. rewrite record_commit_version, A. specialize (V x). cbn. destruct (bool_decide _); lia.
  - intros x. rewrite record_commit_version, A. specialize (V x). cbn. destruct (bool_decide _); lia.
  - intros x Hx. rewrite record_commit_version, bool_decide_eq_true_2 by done. done.
Qed.

Lemma autocommit_later sh s sh' r :
  execute_autocommit execute statement_to_sql sh s = Val (sh', r) -> later (sh_db sh) (sh_db sh') /\ (versions_ok (sh_db sh) -> versions_ok (sh_db sh')).
Proof.
  intros E. assert (exists s' r', execute (sh_db sh) s' = Val (sh_db sh', r')) as (s' & r' & Hdb).
  { exists s. unfold execute_autocommit in E. destruct (execute (sh_db sh) s) as [[db [r0|e]]|]; cbn in *; [|by injection E as <- _; eexists|done].
    exists (Ok r0). do 2 f_equal.
    destruct s; try (injection E as <- _; cbn; by repeat case_match).
    destruct (sh_disk sh) as [store|]; cbn in E; [|by injection E as <- _].
    destruct (checkpoint store db) as [[store' ?]|]; cbn in E; [|discriminate]. by injection E as <- _. }
  destruct (execute_versions _ _ _ _ Hdb) as [V1 V2]. unfold later, versions_ok, table_version. rewrite V1, V2.
  split; [|done]. split; [done|]. intros x. lia.
Qed.

(** Every statement of every session only adds commits. *)
Lemma run_one_later sh ss s sh' ss' r :
  run_one sh ss s = Val (sh', ss', r) -> versions_ok (sh_db sh) -> later (sh_db sh) (sh_db sh') /\ versions_ok (sh_db sh').
Proof.
  intros E V. assert (sh_db sh' = sh_db sh -> later (sh_db sh) (sh_db sh') /\ versions_ok (sh_db sh')) as Same
    by (intros ->; split; [apply later_refl|done]).
  assert (forall s', is_plain s' = true -> run_one sh ss s' = Val (sh', ss', r) -> later (sh_db sh) (sh_db sh') /\ versions_ok (sh_db sh')) as G.
  { intros s' Hp. rewrite plain_statement by done. destruct (tx ss) as [t|].
    - destruct (in_transaction execute statement_to_sql ss t s') as [[? ?]|]; cbn; [|done]. intros [= <- _ _]. by apply Same.
    - destruct (execute_autocommit execute statement_to_sql sh s') as [[sh1 r1]|] eqn:Ea; cbn; [|done]. intros [= <- _ _].
      destruct (autocommit_later _ _ _ _ Ea) as [L V']. auto. }
  destruct s; try (refine (G _ _ E); reflexivity); clear G; cbn [run_statement] in E.
  all: try (injection E as <- _ _; by apply Same).
  - injection E as <- _ _. destruct channel; by apply Same.
  - injection E as E. unfold commit in E. destruct (tx ss) as [t|]; [|injection E as <- _ _; by apply Same].
    destruct (failed t); [injection E as <- _ _; by apply Same|]. destruct (publish sh t) as [sh1|] eqn:Ep; injection E as <- _ _; [|by apply Same].
    destruct (publish_later _ _ _ Ep V) as (L & V' & _). done.
  - injection E as E. unfold prepare_transaction in E. destruct (tx ss) as [t|]; [|injection E as <- _ _; by apply Same].
    destruct (failed t); [injection E as <- _ _; by apply Same|]. destruct (publish sh t) as [sh1|] eqn:Ep; injection E as <- _ _; [|by apply Same].
    destruct (publish_later _ _ _ Ep V) as (L & V' & _). done.
  - destruct (finish_prepared _ _ _) in E. injection E as <- _ _. by apply Same.
  - destruct (finish_prepared _ _ _) in E. injection E as <- _ _. by apply Same.
  - destruct (savepoint _ _) in E. injection E as <- _ _. by apply Same.
  - destruct (release_savepoint _ _) in E. injection E as <- _ _. by apply Same.
  - destruct (rollback_to_savepoint _ _) in E. injection E as <- _ _. by apply Same.
Qed.
End versions.

(** ** Savepoints *)

(** Statements that leave an enclosing savepoint [n] in place. *)
Definition nested (n : str) (s : Stmt) : bool :=
  match s with SSavepoint m => negb (str_eqb m n) | _ => is_plain s end.

Lemma rposition_last n (l1 l2 : list (@Savepoint Expr Select)) sp :
  sp_name sp = n -> Forall (fun s => sp_name s <> n) l2 -> rposition n (l1 ++ sp :: l2) = Some (length l1).
Proof.
  intros Hn F. assert (rposition n l2 = None) as N.
  { induction F as [|s l2 Hs F IH]; [done|]. cbn. rewrite IH. unfold str_eqb. by rewrite bool_decide_eq_false_2. }
  induction l1 as [|s l1 IH]; cbn.
  - rewrite N. unfold str_eqb. by rewrite bool_decide_eq_true_2.
  - by rewrite IH.
Qed.

(** The transaction still has savepoint [sp], and its log extends [log]. *)
Definition holds_savepoint (sp : @Savepoint Expr Select) (log : list str) (t : @Transaction Expr Select) : Prop :=
  (exists l1 l2, savepoints t = l1 ++ sp :: l2 /\ Forall (fun s => sp_name s <> sp_name sp) l2)
  /\ exists extra, buffered t = log ++ extra.

Lemma nested_statement sp log sh ss s t :
  tx ss = Some t -> holds_savepoint sp log t -> nested (sp_name sp) s = true ->
  unless_panic [s] (run_one sh ss s) (fun '(sh', ss', _) => sh' = sh /\ exists t', tx ss' = Some t' /\ holds_savepoint sp log t').
Proof.
  intros Ht [(l1 & l2 & Hs & Hf) (extra & Hb)] Hn.
  assert (is_plain s = true \/ exists m, s = SSavepoint m /\ m <> sp_name sp) as [Hp|(m & -> & Hm)].
  { destruct s; try (by left). right. exists name. split; [done|]. cbn in Hn. unfold str_eqb in Hn.
    intros ->. by rewrite bool_decide_eq_true_2 in Hn. }
  - rewrite plain_statement, Ht by done. unfold in_transaction.
    assert (forall t1, savepoints t1 = savepoints t -> (exists e, buffered t1 = buffered t ++ e) -> holds_savepoint sp log t1) as K.
    { intros t1 E1 (e & E2). split; [exists l1, l2; by rewrite E1|]. exists (extra ++ e). by rewrite E2, Hb, app_assoc. }
    assert (forall t1, savepoints t1 = savepoints t -> buffered t1 = buffered t -> holds_savepoint sp log t1) as K'.
    { intros t1 E1 E2. apply K; [done|]. exists []. by rewrite E2, app_nil_r. }
    destruct (failed t); [split; [done|]; exists t; by split; [|apply K']|].
    destruct (read_only t && is_data_mutation s); [split; [done|]; eexists; by split; [|apply K']|].
    destruct (execute (tx_db t) s) as [[db [r|e]]|] eqn:Ex; cbn [mbind run_bind].
    + split; [done|]. eexists. split; [reflexivity|]. destruct (is_mutation s); [|by apply K']. apply K; [done|].
      by exists [statement_to_sql s].
    + split; [done|]. eexists. by split; [|apply K'].
    + exists (tx_db t), s. by split; [left|].
  - cbn [run_statement]. unfold savepoint. rewrite Ht. split; [done|]. eexists. split; [reflexivity|]. split; [|by exists extra].
    cbn [savepoints set_savepoints]. rewrite Hs, filter_app, filter_cons_True by done.
    eexists (filter _ l1), (filter _ l2 ++ [_]). rewrite <- app_assoc. split; [reflexivity|].
    apply Forall_app. split; [|apply Forall_cons].
    { apply Forall_forall. intros x [_ Hx]%list_elem_of_filter. rewrite Forall_forall in Hf. by apply Hf. }
    split; [done|apply Forall_nil_2].
Qed.

Lemma nested_script sp log qs : forall sh ss t,
  tx ss = Some t -> holds_savepoint sp log t -> Forall (fun s => nested (sp_name sp) s = true) qs ->
  unless_panic qs (run_all sh ss qs) (fun '(sh', ss', _) => sh' = sh /\ exists t', tx ss' = Some t' /\ holds_savepoint sp log t').
Proof.
  induction qs as [|s qs IH]; intros sh ss t Ht H F; [split; [done|by exists t]|]. apply Forall_cons in F as [Hn F].
  pose proof (nested_statement sp log sh ss s t Ht H Hn) as S. cbn [run_script].
  destruct (run_one sh ss s) as [[[sh1 ss1] r]|]; cbn [mbind run_bind unless_panic] in *.
  - destruct S as (-> & t1 & T1 & H1). specialize (IH sh ss1 t1 T1 H1 F).
    destruct (run_all sh ss1 qs) as [[[sh2 ss2] rs]|]; cbn [mbind run_bind unless_panic] in *; [done|].
    destruct IH as (db & s' & Hs & K). exists db, s'. split; [by right|done].
  - destruct S as (db & s' & ->%list_elem_of_singleton & K). exists db, s. split; [by left|done].
Qed.

(** ** Interleaved sessions *)

Record Sys := mk_system { sys_shared : Sh; sys_sessions : gmap Z Ss }.

(** A backend runs one statement under the database mutex. *)
Inductive sys_step : Sys -> Sys -> Prop :=
| backend_step σ p ss s sh' ss' r :
    sys_sessions σ !! p = Some ss -> run_one (sys_shared σ) ss s = Val (sh', ss', r) ->
    sys_step σ (mk_system sh' (<[p := ss']> (sys_sessions σ))).

Lemma sys_later σ σ' :
  (forall db s db' r, execute db s = Val (db', r) -> commit_version db' = commit_version db /\ table_versions db' = table_versions db) ->
  rtc sys_step σ σ' -> versions_ok (sh_db (sys_shared σ)) ->
  later (sh_db (sys_shared σ)) (sh_db (sys_shared σ')) /\ versions_ok (sh_db (sys_shared σ')).
Proof.
  intros Hx St. induction St as [σ|σ σ1 σ2 St _ IH]; intros V; [split; [apply later_refl|done]|].
  destruct St as [σ p ss s sh' ss' r Hs E]. destruct (run_one_later Hx _ _ _ _ _ _ E V) as [L1 V1].
  destruct (IH V1) as [L2 V2]. split; [by eapply later_trans|done].
Qed.
End proofs.

(** * Theorems *)

(** C8: a transaction that is rolled back changes nothing durable.  Whatever
    statements of the type [Statement] (executor statements, savepoints, nested
    BEGIN, setting changes, failures; no COMMIT, ROLLBACK or PREPARE TRANSACTION)
    run between BEGIN and ROLLBACK, either the executor panics on one of them, or
    the script runs to the end, the shared database, the logical log and the disk
    store are exactly what they were, the session is idle without a transaction,
    and the lock table has lost exactly what the session held or awaited.  The
    LISTEN registrations and NOTIFY queues are not covered: the code applies them
    at once, also inside a transaction.  LOCK TABLE, SELECT ... FOR UPDATE and COPY
    have handlers of their own and are not statements of this type. *)
Theorem txn_rollback_discards {Expr Select P R} (execute : Database Expr Select -> Statement P -> run (Database Expr Select * result str R))
    to_sql (sh : Shared) (ss : Session) l ro script :
  tx ss = None -> Forall (fun s => ends_tx s = false) script ->
  unless_panic execute script (run_script execute to_sql sh ss (SBegin l ro :: script ++ [SRollback])) (fun '(sh', ss', rs) =>
    sh_db sh' = sh_db sh /\ sh_wal sh' = sh_wal sh /\ sh_disk sh' = sh_disk sh
    /\ locks sh' = release_locks (locks sh) (pid ss) /\ tx ss' = None /\ tx_status ss' = IDLE
    /\ length rs = S (S (length script)) /\ last rs = Some (Ok (Command (lit "ROLLBACK")))).
Proof.
  intros Ht F. cbn [run_script run_statement mbind run_bind]. rewrite run_script_app.
  assert (is_Some (tx (begin sh ss l ro))) as T0 by (unfold begin; rewrite Ht; by eexists).
  assert (pid (begin sh ss l ro) = pid ss) as P0 by (unfold begin; by rewrite Ht).
  pose proof (tx_script execute to_sql script sh (begin sh ss l ro) T0 F) as S.
  destruct (run_script execute to_sql sh (begin sh ss l ro) script) as [[[sh1 ss1] rs]|] eqn:E;
    cbn [mbind run_bind unless_panic run_script run_statement rollback] in *; [|done].
  destruct S as ((S1 & S2 & S3 & S4) & [t1 ->] & P1). apply run_script_length in E.
  cbn [sh_db sh_wal sh_disk locks unlock_all tx tx_status set_tx]. rewrite S4, P1, P0, app_comm_cons, last_snoc.
  rewrite length_app. cbn [length]. rewrite E. split_and!; done || lia.
Qed.

(** A small executor to run the system on: it appends rows. *)
Definition toy_execute (db : Database unit unit) (s : Statement (list Value)) : run (Database unit unit * result str unit) :=
  match s with
  | SInsert name row =>
      match tables db !! name with
      | Some t => t ← push_row no_eval t row; Val (set_tables db (<[name := t]> (tables db)), Ok tt)
      | None => Val (db, Err (does_not_exist name))
      end
  | _ => Val (db, Ok tt)
  end.
Definition toy_sql (s : Statement (list Value)) : str := match s with SInsert name _ => lit "INSERT INTO " ++ name | _ => [] end.
Definition toy_shared : @Shared unit unit :=
  mk_shared (set_tables db_new {[ lit "a" := table_new (lit "a") []; lit "b" := table_new (lit "b") [] ]}) (Some []) None ∅ ∅ ∅.
Definition toy_session (p : Z) : @Session unit unit := session_new p.
Definition insert_a : Statement (list Value) := SInsert (lit "a") [Int 1].
Definition insert_b : Statement (list Value) := SInsert (lit "b") [Int 2].

Lemma txn_rollback_discards_witness :
  match run_script toy_execute toy_sql toy_shared (toy_session 1) (SBegin None None :: [insert_a; SSavepoint (lit "s")] ++ [SRollback]) with
  | Val (sh', ss', _) => sh_db sh' = sh_db toy_shared /\ tx ss' = None
  | Panic => False
  end.
Proof.
  pose proof (txn_rollback_discards toy_execute toy_sql toy_shared (toy_session 1) None None [insert_a; SSavepoint (lit "s")] eq_refl) as T.
  assert (exists v, run_script toy_execute toy_sql toy_shared (toy_session 1) (SBegin None None :: [insert_a; SSavepoint (lit "s")] ++ [SRollback])
    = Val v) as [[[sh' ss'] rs] E] by (eexists; vm_compute; reflexivity).
  rewrite E in T |- *. destruct T as (D & _ & _ & _ & N & _); [|split; [exact D|exact N]].
  repeat (apply Forall_cons; split; [reflexivity|]). apply Forall_nil_2.
Defined.

(** C6: a transaction that runs alone is the sequence of its statements.  If the
    statements succeed one after the other from the snapshot (with the
    transaction's settings; a read-only one has no statement that changes data),
    then BEGIN, the statements and COMMIT all succeed,
    the published database is exactly what the statements make of the snapshot,
    stamped as one new commit, and the log grows by exactly the mutating
    statements, in order. *)
Theorem txn_commit_serial {Expr Select P R} (execute : Database Expr Select -> Statement P -> run (Database Expr Select * result str R))
    to_sql (sh : Shared) (ss : Session) level readonly qs db rs :
  tx ss = None -> Forall (fun s => is_plain s = true) qs ->
  (readonly = true -> Forall (fun s => is_data_mutation s = false) qs) ->
  versions_ok (sh_db sh) ->
  exec_all execute (set_tx_settings (sh_db sh) (Some level) (Some readonly)) qs db rs ->
  exists sh' ss', run_script execute to_sql sh ss (SBegin (Some level) (Some readonly) :: qs ++ [SCommit])
      = Val (sh', ss', Ok (Command (lit "BEGIN")) :: ((fun r => Ok (Result r)) <$> rs) ++ [Ok (Command (lit "COMMIT"))])
    /\ tx ss' = None
    /\ sh_db sh' = (record_commit (adopt_commit_state db (sh_db sh)) (writes qs)).1
    /\ sh_wal sh' = log_all (sh_wal sh) (log_of to_sql qs).
Proof.
  intros Ht Hp Hro V He. cbn [run_script run_statement mbind run_bind]. rewrite run_script_app.
  set (ss0 := begin sh ss (Some level) (Some readonly)).
  assert (exists t0, tx ss0 = Some t0 /\ t0 = mk_tx (set_tx_settings (sh_db sh) (Some level) (Some readonly)) [] [] false level readonly
            (commit_version (sh_db sh)) ∅) as (t0 & T0 & E0) by (subst ss0; unfold begin; rewrite Ht; by eexists).
  destruct (tx_exec_all execute to_sql qs sh ss0 t0 db rs) as (ss1 & t1 & E & T1 & _ & F1 & D1 & B1 & W1 & _ & S1);
    [done|by rewrite E0|rewrite E0; exact Hro|done|rewrite E0; exact He|].
  rewrite E. cbn [mbind run_bind run_script run_statement]. unfold commit. rewrite T1, F1.
  assert (has_conflicting_commit (sh_db sh) (write_set t1) (snapshot_version t1) = false) as Hc.
  { rewrite S1, E0. cbn [snapshot_version]. unfold has_conflicting_commit.
    destruct (existsb _ _) eqn:Ex; [|done]. apply existsb_exists in Ex as (x & _ & Hx). apply Z.ltb_lt in Hx. specialize (V x). lia. }
  unfold publish. rewrite Hc, andb_false_r. cbn [mbind run_bind run_script run_statement].
  eexists _, _. split; [reflexivity|]. split; [done|]. cbn [sh_db sh_wal unlock_all set_wal set_shared_db]. split.
  - rewrite D1, W1, E0. cbn [write_set]. by rewrite union_empty_r_L.
  - rewrite B1, E0. done.
Qed.

Lemma txn_commit_serial_witness :
  exists sh' ss', run_script toy_execute toy_sql toy_shared (toy_session 1) (SBegin (Some Serializable) (Some false) :: [insert_a] ++ [SCommit])
      = Val (sh', ss', Ok (Command (lit "BEGIN")) :: [Ok (Result tt)] ++ [Ok (Command (lit "COMMIT"))])
    /\ sh_wal sh' = Some (lit "INSERT INTO a" ++ SEP).
Proof.
  destruct (txn_commit_serial toy_execute toy_sql toy_shared (toy_session 1) Serializable false [insert_a]
    (match toy_execute (set_tx_settings (sh_db toy_shared) (Some Serializable) (Some false)) insert_a with Val (db, _) => db | Panic => db_new end) [tt])
    as (sh' & ss' & E & _ & _ & W).
  - reflexivity.
  - apply Forall_cons. split; [reflexivity|apply Forall_nil_2].
  - discriminate.
  - intros x. unfold table_version. change (table_versions (sh_db toy_shared)) with (∅ : gmap str Z). rewrite lookup_empty. cbn. lia.
  - eapply exec_cons; [vm_compute; reflexivity|]. apply exec_nil.
  - exists sh', ss'. split; [exact E|]. rewrite W. vm_compute. reflexivity.
Defined.

(** C7: the first committer wins.  In any interleaving of sessions, once a
    transaction that wrote table [x] has committed, every REPEATABLE READ or
    SERIALIZABLE transaction that had begun before and wrote [x] fails to commit
    with a serialization error, however much later and whatever ran in between,
    and its COMMIT changes nothing shared. *)
Theorem txn_first_committer_wins {Expr Select P R} (execute : Database Expr Select -> Statement P -> run (Database Expr Select * result str R))
    to_sql (σ0 σ σ' : Sys) pa pb (ssa ssa' ssb : Session) ta tb sh1 x :
  (forall db s db' r, execute db s = Val (db', r) -> commit_version db' = commit_version db /\ table_versions db' = table_versions db) ->
  versions_ok (sh_db (sys_shared σ0)) -> rtc (sys_step execute to_sql) σ0 σ ->
  sys_sessions σ !! pa = Some ssa -> tx ssa = Some ta -> x ∈ write_set ta ->
  run_statement execute to_sql (sys_shared σ) ssa SCommit = Val (sh1, ssa', Ok (Command (lit "COMMIT"))) ->
  rtc (sys_step execute to_sql) (mk_system sh1 (<[pa := ssa']> (sys_sessions σ))) σ' ->
  sys_sessions σ' !! pb = Some ssb -> tx ssb = Some tb -> failed tb = false -> serializing tb = true -> x ∈ write_set tb ->
  snapshot_version tb <= commit_version (sh_db (sys_shared σ)) ->
  exists ssb', run_statement execute to_sql (sys_shared σ') ssb SCommit
      = Val (unlock_all (sys_shared σ') (pid ssb), ssb', Err CONFLICT) /\ tx ssb' = None.
Proof.
  intros Hx V0 R0 _ Ta Xa Ea R1 _ Tb Fb Sb Xb Snap.
  destruct (sys_later execute to_sql σ0 σ Hx R0 V0) as [_ V].
  assert (exists sh2, publish (sys_shared σ) ta = Some sh2 /\ sh_db sh1 = sh_db sh2) as (sh2 & Ep & Ed).
  { cbn [run_statement] in Ea. unfold commit in Ea. rewrite Ta in Ea. destruct (failed ta); [discriminate|].
    destruct (publish (sys_shared σ) ta) as [sh2|]; [|discriminate]. exists sh2. split; [done|]. by injection Ea as <- _. }
  destruct (publish_later _ _ _ Ep V) as (_ & V2 & St). specialize (St x Xa).
  destruct (sys_later execute to_sql (mk_system sh1 (<[pa := ssa']> (sys_sessions σ))) σ' Hx R1) as [[_ L] _]; [cbn; by rewrite Ed|].
  specialize (L x). cbn [sys_shared] in L. rewrite Ed, St in L.
  cbn [run_statement]. unfold commit. rewrite Tb, Fb. unfold publish. rewrite Sb.
  rewrite (conflict_spec _ _ _ x Xb) by lia. cbn [andb]. by eexists.
Qed.

(** Two sessions that each hold an open SERIALIZABLE transaction. *)
Definition toy_open (p : Z) (s : Statement (list Value)) : @Session unit unit :=
  match run_script toy_execute toy_sql toy_shared (toy_session p) [SBegin (Some Serializable) None; s] with
  | Val (_, ss, _) => ss | Panic => toy_session p end.
Definition toy_tx (p : Z) (s : Statement (list Value)) : @Transaction unit unit :=
  default (mk_tx db_new [] [] false ReadCommitted false 0 ∅) (tx (toy_open p s)).
Definition toy_sys : @Sys unit unit := mk_system toy_shared {[ 1 := toy_open 1 insert_a; 2 := toy_open 2 insert_a ]}.
(** The state after the first of them committed. *)
Definition toy_sh1 : @Shared unit unit := (commit (R := unit) toy_shared (toy_open 1 insert_a)).1.1.

Lemma txn_first_committer_wins_witness :
  exists ssb', run_statement toy_execute toy_sql toy_sh1 (toy_open 2 insert_a) SCommit
    = Val (unlock_all toy_sh1 (pid (toy_open 2 insert_a)), ssb', Err CONFLICT).
Proof.
  destruct (txn_first_committer_wins toy_execute toy_sql toy_sys toy_sys
    (mk_system toy_sh1 (<[1 := session_new 1]> (sys_sessions toy_sys))) 1 2
    (toy_open 1 insert_a) (session_new 1) (toy_open 2 insert_a) (toy_tx 1 insert_a) (toy_tx 2 insert_a) toy_sh1 (lit "a"))
    as (ssb' & E & _).
  - intros db s db' r. destruct s; try (intros [= <- _]; split; reflexivity). cbn.
    destruct (tables db !! table); [|intros [= <- _]; split; reflexivity].
    destruct (push_row no_eval _ _); cbn; [intros [= <- _]; split; reflexivity|discriminate].
  - intros x. unfold table_version. change (table_versions (sh_db (sys_shared toy_sys))) with (∅ : gmap str Z). rewrite lookup_empty. cbn. lia.
  - apply rtc_refl.
  - vm_compute. reflexivity.
  - vm_compute. reflexivity.
  - apply (bool_decide_unpack _). vm_compute. exact I.
  - vm_compute. reflexivity.
  - apply rtc_refl.
  - vm_compute. reflexivity.
  - vm_compute. reflexivity.
  - vm_compute. reflexivity.
  - vm_compute. reflexivity.
  - apply (bool_decide_unpack _). vm_compute. exact I.
  - vm_compute. discriminate.
  - exists ssb'. cbn [sys_shared] in E. exact E.
Defined.

(** C10: ROLLBACK TO SAVEPOINT restores the savepoint.  Unless the executor panics,
    whatever the executor statements after the savepoint did (also failing, and
    setting savepoints of other names), the transaction is as it was at the
    savepoint: the same working database, log buffer and write set, and it accepts
    statements again; nothing shared has changed. *)
Theorem txn_savepoint_restores {Expr Select P R} (execute : Database Expr Select -> Statement P -> run (Database Expr Select * result str R))
    to_sql (sh : Shared) (ss : Session) t n qs :
  tx ss = Some t -> Forall (fun s => nested n s = true) qs ->
  unless_panic execute qs (run_script execute to_sql sh ss (SSavepoint n :: qs ++ [SRollbackToSavepoint n])) (fun '(sh', ss', rs) =>
    sh' = sh /\ last rs = Some (Ok (Command (lit "ROLLBACK"))) /\ tx_status ss' = IN_TX
    /\ exists t', tx ss' = Some t' /\ tx_db t' = tx_db t /\ buffered t' = buffered t /\ write_set t' = write_set t /\ failed t' = false).
Proof.
  intros Ht F. cbn [run_script run_statement]. unfold savepoint. rewrite Ht. cbn [mbind run_bind]. rewrite run_script_app.
  set (sp := mk_savepoint n (tx_db t) (length (buffered t)) (write_set t)).
  set (t1 := set_savepoints t _). set (ss1 := set_tx ss _ _).
  assert (holds_savepoint sp (buffered t) t1) as H1.
  { split; [|exists []; by rewrite app_nil_r]. eexists _, []. split; [reflexivity|apply Forall_nil_2]. }
  pose proof (nested_script execute to_sql sp (buffered t) qs sh ss1 t1 eq_refl H1 F) as S.
  destruct (run_script execute to_sql sh ss1 qs) as [[[sh2 ss2] rs]|]; cbn [mbind run_bind unless_panic] in *; [|done].
  destruct S as (-> & t2 & T2 & (l1 & l2 & Hs & Hf) & (extra & Hb)).
  cbn [run_script run_statement]. unfold rollback_to_savepoint. rewrite T2, Hs.
  rewrite (rposition_last n l1 l2 sp eq_refl Hf). cbn [mbind option_bind]. rewrite list_lookup_middle by done. cbn [mbind option_bind run_bind].
  split; [done|]. split; [by rewrite app_comm_cons, last_snoc|]. split; [done|]. eexists. split; [reflexivity|].
  cbn. rewrite Hb. split_and!; [done| |done|done]. apply take_app_length.
Qed.

Lemma txn_savepoint_restores_witness :
  match run_script toy_execute toy_sql toy_shared (toy_open 1 insert_a)
      (SSavepoint (lit "s") :: [insert_b; SInsert (lit "missing") []; insert_a] ++ [SRollbackToSavepoint (lit "s")]) with
  | Val (sh', ss', _) => exists t', tx ss' = Some t' /\ tx_db t' = tx_db (toy_tx 1 insert_a)
  | Panic => False
  end.
Proof.
  pose proof (txn_savepoint_restores toy_execute toy_sql toy_shared (toy_open 1 insert_a) (toy_tx 1 insert_a) (lit "s")
    [insert_b; SInsert (lit "missing") []; insert_a] eq_refl) as T.
  assert (exists v, run_script toy_execute toy_sql toy_shared (toy_open 1 insert_a)
      (SSavepoint (lit "s") :: [insert_b; SInsert (lit "missing") []; insert_a] ++ [SRollbackToSavepoint (lit "s")]) = Val v)
    as [[[sh' ss'] rs] E] by (eexists; vm_compute; reflexivity).
  rewrite E in T |- *. destruct T as (_ & _ & _ & t' & T & D & _); [|exists t'; split; [exact T|exact D]].
  repeat (apply Forall_cons; split; [reflexivity|]). apply Forall_nil_2.
Defined.

(** The rows of a table of the shared database. *)
Definition shared_rows (sh : @Shared unit unit) (name : str) : list (list Value) :=
  match tables (sh_db sh) !! name with Some t => rows t | None => [] end.

(** COMMIT replaces the whole shared database by the working copy, so a
    commit loses what others committed since BEGIN.  (1) Two SERIALIZABLE
    transactions that write different tables both commit, and the first one's row
    is gone although the log has it; (2) a row inserted by autocommit is not
    stamped, so a SERIALIZABLE transaction on the same table, begun before it,
    commits without a conflict and erases it. *)
Lemma txn_commit_loses_concurrent_writes :
  (let '(sh1, _, r1) := commit (R := unit) toy_shared (toy_open 1 insert_a) in
   let '(sh2, _, r2) := commit (R := unit) sh1 (toy_open 2 insert_b) in
   r1 = Ok (Command (lit "COMMIT")) /\ shared_rows sh1 (lit "a") = [[Int 1]]
   /\ r2 = Ok (Command (lit "COMMIT")) /\ shared_rows sh2 (lit "a") = [] /\ shared_rows sh2 (lit "b") = [[Int 2]]
   /\ sh_wal sh2 = Some (lit "INSERT INTO a" ++ SEP ++ lit "INSERT INTO b" ++ SEP))
  /\ match execute_autocommit toy_execute toy_sql toy_shared (SInsert (lit "a") [Int 7]) with
     | Val (sh1, Ok _) =>
         let '(sh2, _, r2) := commit (R := unit) sh1 (toy_open 2 insert_a) in
         shared_rows sh1 (lit "a") = [[Int 7]] /\ r2 = Ok (Command (lit "COMMIT")) /\ shared_rows sh2 (lit "a") = [[Int 1]]
     | _ => False
     end.
Proof. vm_compute. repeat split. Qed.

(** Torn tail of the logical log.  When every statement text is free of the
    sequence semicolon, newline, the records found in the file are exactly the
    appended statements in order, whatever fragment without that sequence a crash
    left at the end, also one that is not UTF-8. *)
Theorem logical_log_torn_tail sqls torn :
  Forall sql_ok sqls -> sep_free false torn = true ->
  wal_records (wal_contents (Some (foldl wal_append [] sqls ++ torn))) = (fun s => s ++ SEP) <$> sqls.
Proof.
  intros F Ht. rewrite log_contents by (eapply Forall_impl; [exact F|by intros s (? & _)]). cbn [app wal_contents].
  rewrite lossy_valid_app.
  - apply wal_records_spec; [done|]. by apply lossy_sep_free.
  - induction F as [|s sqls (_ & _ & V) F IH]; [done|]. cbn [flat_map]. apply utf8_valid_app; [|done]. by apply utf8_valid_app.
Qed.

Lemma logical_log_torn_tail_witness :
  wal_records (wal_contents (Some (foldl wal_append [] [lit "INSERT INTO a"; lit "SELECT 1"] ++ [73; 78; 195])))
    = [lit "INSERT INTO a" ++ SEP; lit "SELECT 1" ++ SEP].
Proof.
  apply (logical_log_torn_tail [lit "INSERT INTO a"; lit "SELECT 1"] [73; 78; 195]); [|reflexivity].
  repeat (apply Forall_cons; split; [split; [discriminate|split; vm_compute; reflexivity]|]). apply Forall_nil_2.
Defined.

(** A string literal with a semicolon at the end of a line breaks a record in two. *)
Lemma logical_log_splits_literal :
  wal_records (foldl wal_append [] [lit "INSERT INTO a VALUES ('x" ++ SEP ++ lit "y')"])
    = [lit "INSERT INTO a VALUES ('x" ++ SEP; lit "y')" ++ SEP].
Proof. vm_compute. reflexivity. Qed.

(** A committed transaction leaves its isolation level behind as a setting of
    the shared database. *)
Lemma txn_commit_leaks_setting :
  let '(sh, _, _) := commit (R := unit) toy_shared (toy_open 1 insert_a) in
  system_setting (sh_db toy_shared) (lit "transaction_isolation") = None
  /\ system_setting (sh_db sh) (lit "transaction_isolation") = Some (lit "serializable").
Proof. vm_compute. split; reflexivity. Qed.
