(* ===== verification/Protocol.v ===== *)
(** The wire protocol of crates/protocol/src/lib.rs: the startup packet, the
    frontend message reader and the backend message builder.  A connection's
    input is the list of bytes still to come; a reader returns what it leaves. *)

From S2P Require Import Prelude Utf8 Types.

Definition PROTOCOL_VERSION_3 : Z := 196608.
Definition SSL_REQUEST_CODE : Z := 80877103.
Definition GSS_ENC_REQUEST_CODE : Z := 80877104.
Definition CANCEL_REQUEST_CODE : Z := 80877102.

(** [io::Error]: the kinds and messages this module produces. *)
Inductive ProtoError :=
| UnexpectedEof
| InvalidData (msg : str).

Abbreviation pres := (res ProtoError).

Inductive Startup :=
| Params (kvs : list (str * str))
| SslRequest
| GssEncRequest
| CancelRequest (pid secret : Z).

Inductive FrontendMessage :=
| Query (q : str)
| Parse (name query : str) (param_types : list Z)
| Bind (portal statement : str) (params : list (option (list Z)))
    (param_formats result_formats : list Z)
| Describe (kind : Z) (name : str)
| Execute (portal : str) (max_rows : Z)
| Close (kind : Z) (name : str)
| Sync
| Flush
| Password (body : list Z)
| CopyData (body : list Z)
| CopyDone
| CopyFail (msg : str)
| Terminate
| Unknown (tag : Z) (body : list Z).

(** * Reading *)

(** [Read::read_exact] into a buffer of [n] bytes. *)
Definition read_exact (n : Z) (r : list Z) : pres (list Z * list Z) :=
  if zlen r <? n then fail UnexpectedEof else mret (ztake n r, zdrop n r).

(** [[b[i], .., b[i+n-1]]] for [from_be_bytes]: every index must be in range. *)
Definition index_be (n : nat) (b : list Z) (i : Z) : pres Z :=
  match get_range b i (i + Z.of_nat n) with
  | Some s => mret (to_signed (8 * Z.of_nat n) (be_val s))
  | None => Panic
  end.

Definition read_i32 (r : list Z) : pres (Z * list Z) :=
  '(buf, r) ← read_exact 4 r;
  mret (to_signed 32 (be_val buf), r).

(** Bytes up to the first NUL, and those after it. *)
Fixpoint split_nul (b : list Z) : option (list Z * list Z) :=
  match b with
  | [] => None
  | c :: b => if c =? 0 then Some ([], b) else '(s, r) ← split_nul b; Some (c :: s, r)
  end.

Definition read_cstr_slice (buf : list Z) : pres (str * list Z) :=
  match split_nul buf with
  | None => fail (InvalidData (lit "missing NUL terminator"))
  | Some (s, rest) => mret (from_utf8_lossy s, rest)
  end.

(** The parameter loop of [read_startup]; each turn consumes a byte, so the
    length of the input is enough. *)
Fixpoint read_params (fuel : nat) (cur : list Z) : pres (list (str * str)) :=
  match fuel with
  | O => Panic
  | S fuel =>
      '(key, rest) ← read_cstr_slice cur;
      match key with
      | [] => mret []
      | _ =>
          '(val, rest2) ← read_cstr_slice rest;
          kvs ← read_params fuel rest2;
          mret ((key, val) :: kvs)
      end
  end.

Definition read_startup (r : list Z) : pres (Startup * list Z) :=
  '(len, r) ← read_i32 r;
  if negb ((8 <=? len) && (len <=? 10000000)) then fail (InvalidData (lit "bad startup length"))
  else
    '(body, r) ← read_exact (len - 4) r;
    if zlen body <? 4 then fail (InvalidData (lit "startup packet too short"))
    else
      code ← index_be 4 body 0;
      if code =? SSL_REQUEST_CODE then mret (SslRequest, r)
      else if code =? GSS_ENC_REQUEST_CODE then mret (GssEncRequest, r)
      else if code =? CANCEL_REQUEST_CODE then
        if zlen body <? 12 then fail (InvalidData (lit "cancel request too short"))
        else
          pid ← index_be 4 body 4;
          secret ← index_be 4 body 8;
          mret (CancelRequest pid secret, r)
      else if code =? PROTOCOL_VERSION_3 then
        kvs ← read_params (S (length body)) (zdrop 4 body);
        mret (Params kvs, r)
      else fail (InvalidData (lit "unsupported startup/protocol code " ++ i64_display code)).

Definition short_message : ProtoError := InvalidData (lit "message body truncated").

Definition take_bytes (n : Z) (cur : list Z) : pres (list Z * list Z) :=
  if zlen cur <? n then fail short_message else mret (ztake n cur, zdrop n cur).

Definition take_i16 (cur : list Z) : pres (Z * list Z) :=
  '(b, cur) ← take_bytes 2 cur;
  v ← index_be 2 b 0;
  mret (v, cur).

Definition take_i32 (cur : list Z) : pres (Z * list Z) :=
  '(b, cur) ← take_bytes 4 cur;
  v ← index_be 4 b 0;
  mret (v, cur).

Definition take_count (cur : list Z) : pres (nat * list Z) :=
  '(n, cur) ← take_i16 cur;
  if n <? 0 then fail (InvalidData (lit "negative field count")) else mret (Z.to_nat n, cur).

(** [for _ in 0..n { v.push(take(&mut cur)?) }] *)
Fixpoint take_many {A} (take : list Z -> pres (A * list Z)) (n : nat) (cur : list Z)
  : pres (list A * list Z) :=
  match n with
  | O => mret ([], cur)
  | S n =>
      '(x, cur) ← take cur;
      '(xs, cur) ← take_many take n cur;
      mret (x :: xs, cur)
  end.

Definition read_be_i32 (b : list Z) : pres Z :=
  if zlen b <? 4 then fail short_message else index_be 4 b 0.

Definition parse_parse (body : list Z) : pres FrontendMessage :=
  '(name, rest) ← read_cstr_slice body;
  '(query, cur) ← read_cstr_slice rest;
  '(n, cur) ← take_count cur;
  '(param_types, _) ← take_many take_i32 n cur;
  mret (Parse name query param_types).

(** One parameter of a Bind message: a length, then that many bytes, or NULL. *)
Definition take_param (cur : list Z) : pres (option (list Z) * list Z) :=
  '(plen, cur) ← take_i32 cur;
  if plen <? 0 then mret (None, cur)
  else '(b, cur) ← take_bytes plen cur; mret (Some b, cur).

Definition parse_bind (body : list Z) : pres FrontendMessage :=
  '(portal, rest) ← read_cstr_slice body;
  '(statement, cur) ← read_cstr_slice rest;
  '(nf, cur) ← take_count cur;
  '(param_formats, cur) ← take_many take_i16 nf cur;
  '(np, cur) ← take_count cur;
  '(params, cur) ← take_many take_param np cur;
  '(nr, cur) ← take_count cur;
  '(result_formats, _) ← take_many take_i16 nr cur;
  mret (Bind portal statement params param_formats result_formats).

(** The [match tag] of [read_message]. *)
Definition parse_body (tag : Z) (body : list Z) : pres FrontendMessage :=
  if tag =? 81 then '(q, _) ← read_cstr_slice body; mret (Query q)
  else if tag =? 88 then mret Terminate
  else if tag =? 80 then parse_parse body
  else if tag =? 66 then parse_bind body
  else if tag =? 68 then
    '(name, _) ← read_cstr_slice (tail body); mret (Describe (hd 83 body) name)
  else if tag =? 69 then
    '(portal, rest) ← read_cstr_slice body;
    max_rows ← read_be_i32 rest;
    mret (Execute portal max_rows)
  else if tag =? 67 then
    '(name, _) ← read_cstr_slice (tail body); mret (Close (hd 83 body) name)
  else if tag =? 83 then mret Sync
  else if tag =? 72 then mret Flush
  else if tag =? 112 then mret (Password body)
  else if tag =? 100 then mret (CopyData body)
  else if tag =? 99 then mret CopyDone
  else if tag =? 102 then '(msg, _) ← read_cstr_slice body; mret (CopyFail msg)
  else mret (Unknown tag body).

(** [read_message]: [None] at a clean end of input. *)
Definition read_message (r : list Z) : pres (option FrontendMessage * list Z) :=
  match r with
  | [] => mret (None, [])
  | tag :: r =>
      '(len, r) ← read_i32 r;
      if len <? 4 then fail (InvalidData (lit "message length < 4"))
      else
        '(body, r) ← read_exact (len - 4) r;
        msg ← parse_body tag body;
        mret (Some msg, r)
  end.

(** * Building *)

Record MessageBuilder := mk_mb { mb_tag : Z; mb_body : list Z }.

Definition mb_new (tag : Z) : MessageBuilder := mk_mb tag [].
Definition put_bytes (b : list Z) (mb : MessageBuilder) : MessageBuilder :=
  mk_mb (mb_tag mb) (mb_body mb ++ b).
Definition put_u8 (v : Z) (mb : MessageBuilder) : MessageBuilder := mk_mb (mb_tag mb) (mb_body mb ++ [v]).
Definition put_i16 (v : Z) (mb : MessageBuilder) : MessageBuilder :=
  mk_mb (mb_tag mb) (mb_body mb ++ be_bytes 2 v).
Definition put_i32 (v : Z) (mb : MessageBuilder) : MessageBuilder :=
  mk_mb (mb_tag mb) (mb_body mb ++ be_bytes 4 v).
Definition put_cstr (s : str) (mb : MessageBuilder) : MessageBuilder :=
  mk_mb (mb_tag mb) (mb_body mb ++ s ++ [0]).
(** [(body.len() + 4) as i32] keeps the low 32 bits, which is what
    [be_bytes 4] writes. *)
Definition finish (mb : MessageBuilder) : list Z :=
  mb_tag mb :: be_bytes 4 (zlen (mb_body mb) + 4) ++ mb_body mb.

(** * Specification: the client side of the protocol *)

Definition put_all {A} (put : A -> MessageBuilder -> MessageBuilder) (l : list A) (mb : MessageBuilder) :=
  foldl (fun mb x => put x mb) mb l.

Definition put_param (p : option (list Z)) (mb : MessageBuilder) : MessageBuilder :=
  match p with
  | None => put_i32 (-1) mb
  | Some b => put_bytes b (put_i32 (zlen b) mb)
  end.

(** The message a client sends, per the protocol's message formats. *)
Definition client (m : FrontendMessage) : MessageBuilder :=
  match m with
  | Query q => put_cstr q (mb_new 81)
  | Parse name query tys =>
      put_all put_i32 tys (put_i16 (zlen tys) (put_cstr query (put_cstr name (mb_new 80))))
  | Bind portal stmt params pf rf =>
      put_all put_i16 rf (put_i16 (zlen rf)
        (put_all put_param params (put_i16 (zlen params)
          (put_all put_i16 pf (put_i16 (zlen pf) (put_cstr stmt (put_cstr portal (mb_new 66))))))))
  | Describe kind name => put_cstr name (put_u8 kind (mb_new 68))
  | Execute portal n => put_i32 n (put_cstr portal (mb_new 69))
  | Close kind name => put_cstr name (put_u8 kind (mb_new 67))
  | Sync => mb_new 83
  | Flush => mb_new 72
  | Password b => put_bytes b (mb_new 112)
  | CopyData b => put_bytes b (mb_new 100)
  | CopyDone => mb_new 99
  | CopyFail msg => put_cstr msg (mb_new 102)
  | Terminate => mb_new 88
  | Unknown tag b => put_bytes b (mb_new tag)
  end.

Definition encode (m : FrontendMessage) : list Z := finish (client m).

(** A string without NUL that is valid UTF-8. *)
Definition cstr_ok (s : str) : Prop := utf8_valid s = true /\ Forall (fun c => c <> 0) s.
Definition known_tags : list Z := [81; 88; 80; 66; 68; 69; 67; 83; 72; 112; 100; 99; 102].

Definition fields_ok (m : FrontendMessage) : Prop :=
  match m with
  | Query q | CopyFail q => cstr_ok q
  | Parse n q tys => cstr_ok n /\ cstr_ok q /\ zlen tys < 2 ^ 15 /\ Forall (in_i 32) tys
  | Bind p s ps pf rf =>
      cstr_ok p /\ cstr_ok s /\ zlen ps < 2 ^ 15 /\ zlen pf < 2 ^ 15 /\ zlen rf < 2 ^ 15
      /\ Forall (in_i 16) pf /\ Forall (in_i 16) rf
  | Describe _ n | Close _ n => cstr_ok n
  | Execute p n => cstr_ok p /\ in_i 32 n
  | Unknown t _ => t ∉ known_tags
  | _ => True
  end.

(** Representable messages: fields as Rust types them, and a body whose length
    fits the [i32] length field. *)
Definition msg_ok (m : FrontendMessage) : Prop := fields_ok m /\ zlen (mb_body (client m)) + 4 < 2 ^ 31.

(** The startup packet of a client. *)
Definition startup_body (s : Startup) : list Z :=
  match s with
  | Params kvs => be_bytes 4 PROTOCOL_VERSION_3 ++ flat_map (fun '(k, v) => k ++ [0] ++ v ++ [0]) kvs ++ [0]
  | SslRequest => be_bytes 4 SSL_REQUEST_CODE
  | GssEncRequest => be_bytes 4 GSS_ENC_REQUEST_CODE
  | CancelRequest pid secret => be_bytes 4 CANCEL_REQUEST_CODE ++ be_bytes 4 pid ++ be_bytes 4 secret
  end.
Definition encode_startup (s : Startup) : list Z :=
  be_bytes 4 (zlen (startup_body s) + 4) ++ startup_body s.

Definition startup_ok (s : Startup) : Prop :=
  zlen (startup_body s) + 4 <= 10000000 /\
  match s with
  | Params kvs => Forall (fun '(k, v) => cstr_ok k /\ cstr_ok v /\ k <> []) kvs
  | CancelRequest pid secret => in_i 32 pid /\ in_i 32 secret
  | _ => True
  end.

(** Read [n] messages in a row. *)
Fixpoint read_messages (n : nat) (r : list Z) : pres (list FrontendMessage * list Z) :=
  match n with
  | O => mret ([], r)
  | S n =>
      '(m, r) ← read_message r;
      match m with
      | None => mret ([], r)
      | Some m => '(ms, r) ← read_messages n r; mret (m :: ms, r)
      end
  end.

Example ex_query : read_message (encode (Query (lit "SELECT 1")) ++ [88]) = Val (Ok (Some (Query (lit "SELECT 1")), [88])).
Proof. vm_compute. reflexivity. Qed.

(** * Proofs *)

Lemma bind_ok {E A B} (x : A) (f : A -> res E B) : (Val (Ok x) ≫= f) = f x.
Proof. done. Qed.

Lemma read_exact_app n a r : zlen a = n -> read_exact n (a ++ r) = Val (Ok (a, r)).
Proof.
  intros H. unfold read_exact. pose proof (zlen_nonneg r). rewrite zlen_app.
  zfalse (zlen a + zlen r <? n). by rewrite ztake_app_exact, zdrop_app_exact.
Qed.

Lemma take_bytes_app n a r : zlen a = n -> take_bytes n (a ++ r) = Val (Ok (a, r)).
Proof.
  intros H. unfold take_bytes. pose proof (zlen_nonneg r). rewrite zlen_app.
  zfalse (zlen a + zlen r <? n). by rewrite ztake_app_exact, zdrop_app_exact.
Qed.

Lemma index_be_bytes n v a b i :
  (0 < n)%nat -> in_i (8 * Z.of_nat n) v -> i = zlen a ->
  index_be n (a ++ be_bytes n v ++ b) i = Val (Ok v).
Proof.
  intros Hn Hv ->. unfold index_be. rewrite get_range_mid by (rewrite ?zlen_be_bytes; lia).
  unfold be_val, be_bytes. rewrite reverse_involutive. fold (le_val (le_bytes n v)).
  rewrite le_val_bytes_mod. replace (256 ^ Z.of_nat n) with (2 ^ (8 * Z.of_nat n)).
  - rewrite to_signed_small by (lia || done). done.
  - rewrite Z.pow_mul_r by lia. done.
Qed.

Lemma index_be_start n v b :
  (0 < n)%nat -> in_i (8 * Z.of_nat n) v -> index_be n (be_bytes n v ++ b) 0 = Val (Ok v).
Proof. intros. by apply (index_be_bytes n v [] b 0). Qed.

Lemma index_be_exact n v :
  (0 < n)%nat -> in_i (8 * Z.of_nat n) v -> index_be n (be_bytes n v) 0 = Val (Ok v).
Proof. intros. rewrite <- (app_nil_r (be_bytes n v)). by apply index_be_start. Qed.

Lemma read_i32_app v r : in_i 32 v -> read_i32 (be_bytes 4 v ++ r) = Val (Ok (v, r)).
Proof.
  intros. unfold read_i32. rewrite read_exact_app by apply zlen_be_bytes.
  cbn [mbind res_bind]. by rewrite be_i32_roundtrip.
Qed.

Lemma take_i16_app v r : in_i 16 v -> take_i16 (be_bytes 2 v ++ r) = Val (Ok (v, r)).
Proof.
  intros. unfold take_i16. rewrite take_bytes_app by apply zlen_be_bytes.
  cbn [mbind res_bind]. by rewrite index_be_exact by (lia || done).
Qed.

Lemma take_i32_app v r : in_i 32 v -> take_i32 (be_bytes 4 v ++ r) = Val (Ok (v, r)).
Proof.
  intros. unfold take_i32. rewrite take_bytes_app by apply zlen_be_bytes.
  cbn [mbind res_bind]. by rewrite index_be_exact by (lia || done).
Qed.

Lemma take_count_app {A} (l : list A) r :
  zlen l < 2 ^ 15 -> take_count (be_bytes 2 (zlen l) ++ r) = Val (Ok (length l, r)).
Proof.
  intros H. pose proof (zlen_nonneg l). unfold take_count.
  rewrite take_i16_app by (unfold in_i; cbn in *; lia). cbn [mbind res_bind].
  zfalse (zlen l <? 0). unfold zlen. by rewrite Nat2Z.id.
Qed.

Lemma split_nul_app s r : Forall (fun c => c <> 0) s -> split_nul (s ++ 0 :: r) = Some (s, r).
Proof.
  induction 1 as [|c s Hc Hs IH]; [done|]. cbn [app split_nul]. zfalse (c =? 0). by rewrite IH.
Qed.

Lemma read_cstr_app s r : cstr_ok s -> read_cstr_slice (s ++ 0 :: r) = Val (Ok (s, r)).
Proof.
  intros [U N]. unfold read_cstr_slice. rewrite split_nul_app by done.
  by rewrite from_utf8_lossy_valid.
Qed.

Lemma take_many_app {A} (take : list Z -> pres (A * list Z)) (enc : A -> list Z) l r :
  (forall x r, x ∈ l -> take (enc x ++ r) = Val (Ok (x, r))) ->
  take_many take (length l) (flat_map enc l ++ r) = Val (Ok (l, r)).
Proof.
  induction l as [|x l IH]; intros H; [done|]. cbn [length take_many flat_map]. rewrite <- app_assoc.
  rewrite H by (apply elem_of_cons; by left). cbn [mbind res_bind].
  rewrite IH by (intros; apply H, elem_of_cons; by right). done.
Qed.

(** ** The bodies the builder produces *)

Definition enc_param (p : option (list Z)) : list Z :=
  match p with None => be_bytes 4 (-1) | Some b => be_bytes 4 (zlen b) ++ b end.

Lemma put_all_body {A} (put : A -> MessageBuilder -> MessageBuilder) (enc : A -> list Z) l mb :
  (forall x mb, put x mb = mk_mb (mb_tag mb) (mb_body mb ++ enc x)) ->
  put_all put l mb = mk_mb (mb_tag mb) (mb_body mb ++ flat_map enc l).
Proof.
  intros H. revert mb. induction l as [|x l IH]; intros mb; cbn.
  - rewrite app_nil_r. by destruct mb.
  - fold (put_all put l (put x mb)). rewrite IH, H. cbn. by rewrite <- app_assoc.
Qed.

Lemma put_param_enc p mb : put_param p mb = mk_mb (mb_tag mb) (mb_body mb ++ enc_param p).
Proof. destruct p; [|done]. unfold put_param, put_bytes, put_i32. cbn. by rewrite <- app_assoc. Qed.

Lemma take_param_app p r :
  match p with Some b => zlen b < 2 ^ 31 | None => True end ->
  take_param (enc_param p ++ r) = Val (Ok (p, r)).
Proof.
  intros Hp. unfold take_param. destruct p as [b|]; cbn [enc_param].
  - pose proof (zlen_nonneg b). rewrite <- app_assoc, take_i32_app by (unfold in_i; cbn in *; lia).
    cbn [mbind res_bind]. zfalse (zlen b <? 0). by rewrite take_bytes_app.
  - rewrite take_i32_app by (unfold in_i; cbn; lia). done.
Qed.

(** A parameter is not longer than the body that carries it. *)
Lemma param_len p l : p ∈ l -> zlen (enc_param p) <= zlen (flat_map enc_param l).
Proof.
  induction l as [|x l IH]; intros Hin; [by apply elem_of_nil in Hin|]. cbn [flat_map]. rewrite zlen_app.
  pose proof (zlen_nonneg (flat_map enc_param l)). pose proof (zlen_nonneg (enc_param x)).
  apply elem_of_cons in Hin as [->|Hin]; [lia|]. specialize (IH Hin). lia.
Qed.

Lemma bind_body portal stmt params pf rf :
  mb_body (client (Bind portal stmt params pf rf)) =
  portal ++ 0 :: stmt ++ 0 :: be_bytes 2 (zlen pf) ++ flat_map (be_bytes 2) pf
  ++ be_bytes 2 (zlen params) ++ flat_map enc_param params
  ++ be_bytes 2 (zlen rf) ++ flat_map (be_bytes 2) rf ++ [].
Proof.
  cbn [client]. rewrite !(put_all_body put_i16 (be_bytes 2)), !(put_all_body put_param enc_param)
    by (intros; done || apply put_param_enc).
  unfold put_i16, put_cstr. cbn [mb_body mb_tag mb_new]. rewrite app_nil_r.
  rewrite <- !app_assoc. cbn [app]. rewrite <- ?app_assoc. done.
Qed.

Lemma parse_bind_ok portal stmt params pf rf :
  msg_ok (Bind portal stmt params pf rf) ->
  parse_bind (mb_body (client (Bind portal stmt params pf rf))) = Val (Ok (Bind portal stmt params pf rf)).
Proof.
  intros [(Hp & Hs & Lp & Lf & Lr & Ff & Fr) Hlen]. rewrite bind_body in Hlen |- *.
  assert (forall b, Some b ∈ params -> zlen b < 2 ^ 31) as HB.
  { intros b Hb. apply param_len in Hb. cbn [enc_param] in Hb. rewrite zlen_app, zlen_be_bytes in Hb.
    rewrite !zlen_app, !zlen_cons, !zlen_app, !zlen_cons, !zlen_app in Hlen.
    pose proof (zlen_nonneg portal). pose proof (zlen_nonneg stmt). rewrite !zlen_be_bytes in Hlen.
    pose proof (zlen_nonneg (flat_map (be_bytes 2) pf)). pose proof (zlen_nonneg (flat_map (be_bytes 2) rf)).
    change (zlen (@nil Z)) with 0 in Hlen. lia. }
  unfold parse_bind. rewrite read_cstr_app by done. cbn [mbind res_bind].
  rewrite read_cstr_app by done. cbn [mbind res_bind]. rewrite take_count_app by done. cbn [mbind res_bind].
  rewrite (take_many_app take_i16 (be_bytes 2)).
  2: { intros x r Hx. apply take_i16_app. by apply (proj1 (Forall_forall _ _) Ff). }
  cbn [mbind res_bind]. rewrite take_count_app by done. cbn [mbind res_bind].
  rewrite (take_many_app take_param enc_param).
  2: { intros x r Hx. apply take_param_app. destruct x; [by apply HB|done]. }
  cbn [mbind res_bind]. rewrite take_count_app by done. cbn [mbind res_bind].
  rewrite (take_many_app take_i16 (be_bytes 2)).
  2: { intros x r Hx. apply take_i16_app. by apply (proj1 (Forall_forall _ _) Fr). }
  done.
Qed.

Lemma parse_parse_ok name query tys :
  msg_ok (Parse name query tys) ->
  parse_parse (mb_body (client (Parse name query tys))) = Val (Ok (Parse name query tys)).
Proof.
  intros [(Hn & Hq & Lt & Ft) _]. cbn [client].
  rewrite (put_all_body put_i32 (be_bytes 4)) by done.
  unfold put_i16, put_cstr. cbn [mb_body mb_tag mb_new app]. rewrite <- !app_assoc. cbn [app].
  unfold parse_parse. rewrite read_cstr_app by done. cbn [mbind res_bind].
  rewrite read_cstr_app by done. cbn [mbind res_bind]. rewrite take_count_app by done. cbn [mbind res_bind].
  rewrite <- (app_nil_r (flat_map (be_bytes 4) tys)). rewrite (take_many_app take_i32 (be_bytes 4)); [done|].
  intros x r Hx. apply take_i32_app. by apply (proj1 (Forall_forall _ _) Ft).
Qed.

Lemma parse_body_ok m :
  msg_ok m -> parse_body (mb_tag (client m)) (mb_body (client m)) = Val (Ok m).
Proof.
  intros M. pose proof (proj1 M) as F. destruct m; cbn [fields_ok] in F.
  - unfold parse_body. cbn -[read_cstr_slice]. by rewrite read_cstr_app.
  - rewrite <- (parse_parse_ok name query param_types M).
    cbn [client]. rewrite (put_all_body put_i32 (be_bytes 4)) by done. done.
  - rewrite <- (parse_bind_ok portal statement params param_formats result_formats M).
    assert (mb_tag (client (Bind portal statement params param_formats result_formats)) = 66) as ->; [|done].
    cbn [client]. by rewrite !(put_all_body put_i16 (be_bytes 2)), !(put_all_body put_param enc_param)
      by (intros; done || apply put_param_enc).
  - unfold parse_body. cbn -[read_cstr_slice]. by rewrite read_cstr_app.
  - destruct F as [Fp Fn]. unfold parse_body. cbn -[read_cstr_slice be_bytes]. rewrite <- app_assoc.
    cbn [app]. rewrite read_cstr_app by done. cbn [mbind res_bind]. unfold read_be_i32.
    rewrite zlen_be_bytes. rewrite index_be_exact by (lia || done). done.
  - unfold parse_body. cbn -[read_cstr_slice]. by rewrite read_cstr_app.
  - done.
  - done.
  - done.
  - done.
  - done.
  - unfold parse_body. cbn -[read_cstr_slice]. by rewrite read_cstr_app.
  - done.
  - unfold known_tags in F. rewrite !not_elem_of_cons in F. unfold parse_body. cbn.
    repeat (rewrite (proj2 (Z.eqb_neq _ _)) by tauto). done.
Qed.

Lemma read_message_encode m r : msg_ok m -> read_message (encode m ++ r) = Val (Ok (Some m, r)).
Proof.
  intros M. pose proof (proj2 M) as L. pose proof (zlen_nonneg (mb_body (client m))).
  unfold encode, finish. cbn [app read_message]. rewrite <- app_assoc.
  rewrite read_i32_app by (unfold in_i; cbn in *; lia). cbn [mbind res_bind].
  zfalse (zlen (mb_body (client m)) + 4 <? 4). rewrite read_exact_app by lia. cbn [mbind res_bind].
  by rewrite parse_body_ok.
Qed.

Lemma read_messages_encode ms r :
  Forall msg_ok ms -> read_messages (length ms) (flat_map encode ms ++ r) = Val (Ok (ms, r)).
Proof.
  induction 1 as [|m ms M _ IH]; [done|]. cbn [length read_messages flat_map]. rewrite <- app_assoc.
  rewrite read_message_encode by done. cbn [mbind res_bind]. by rewrite IH.
Qed.

(** ** Totality *)

Definition no_panic {A} (m : pres A) : Prop := m <> Panic.

Lemma no_panic_bind {A B} (m : pres A) (f : A -> pres B) :
  no_panic m -> (forall x, m = Val (Ok x) -> no_panic (f x)) -> no_panic (m ≫= f).
Proof. unfold no_panic. destruct m as [[x|e]|]; cbn; intros H1 H2; [by apply H2|done|done]. Qed.

Lemma no_panic_read_exact n r : no_panic (read_exact n r).
Proof. unfold read_exact. by zcase. Qed.

Lemma no_panic_take_bytes n r : no_panic (take_bytes n r).
Proof. unfold take_bytes. by zcase. Qed.

Lemma no_panic_cstr b : no_panic (read_cstr_slice b).
Proof. unfold read_cstr_slice. by destruct (split_nul b) as [[? ?]|]. Qed.

Lemma no_panic_index n b i : 0 <= i -> i + Z.of_nat n <= zlen b -> no_panic (index_be n b i).
Proof. intros. unfold index_be. by rewrite get_range_ok by lia. Qed.

Lemma read_exact_len n r a r' : 0 <= n -> read_exact n r = Val (Ok (a, r')) -> zlen a = n /\ r = a ++ r'.
Proof.
  intros Hn. unfold read_exact. zcase; [done|]. intros [= <- <-].
  rewrite zlen_ztake by lia. by rewrite ztake_zdrop.
Qed.

Lemma take_bytes_len n r a r' : 0 <= n -> take_bytes n r = Val (Ok (a, r')) -> zlen a = n /\ r = a ++ r'.
Proof.
  intros Hn. unfold take_bytes. zcase; [done|]. intros [= <- <-].
  rewrite zlen_ztake by lia. by rewrite ztake_zdrop.
Qed.

Lemma no_panic_take_i16 c : no_panic (take_i16 c).
Proof.
  unfold take_i16. apply no_panic_bind; [apply no_panic_take_bytes|]. intros [b c'] E.
  apply take_bytes_len in E as [L _]; [|lia]. apply no_panic_bind; [|done]. apply no_panic_index; lia.
Qed.

Lemma no_panic_take_i32 c : no_panic (take_i32 c).
Proof.
  unfold take_i32. apply no_panic_bind; [apply no_panic_take_bytes|]. intros [b c'] E.
  apply take_bytes_len in E as [L _]; [|lia]. apply no_panic_bind; [|done]. apply no_panic_index; lia.
Qed.

Lemma no_panic_take_count c : no_panic (take_count c).
Proof. unfold take_count. apply no_panic_bind; [apply no_panic_take_i16|]. intros [? ?] _. by zcase. Qed.

Lemma no_panic_take_many {A} (take : list Z -> pres (A * list Z)) n c :
  (forall c, no_panic (take c)) -> no_panic (take_many take n c).
Proof.
  intros H. revert c. induction n as [|n IH]; intros c; [done|]. cbn [take_many].
  apply no_panic_bind; [apply H|]. intros [? ?] _. apply no_panic_bind; [apply IH|]. by intros [? ?] _.
Qed.

Lemma no_panic_take_param c : no_panic (take_param c).
Proof.
  unfold take_param. apply no_panic_bind; [apply no_panic_take_i32|]. intros [? ?] _. zcase; [done|].
  apply no_panic_bind; [apply no_panic_take_bytes|]. by intros [? ?] _.
Qed.

#[local] Hint Resolve no_panic_take_i16 no_panic_take_i32 no_panic_take_count no_panic_take_many
  no_panic_take_param no_panic_cstr : pgrs.

Lemma no_panic_parse_body tag body : no_panic (parse_body tag body).
Proof.
  unfold parse_body. repeat zcase; try done;
    try (apply no_panic_bind; [apply no_panic_cstr|by intros [? ?] _]).
  - unfold parse_parse.
    repeat (apply no_panic_bind; [auto with pgrs|intros [? ?] _]); done.
  - unfold parse_bind.
    repeat (apply no_panic_bind; [auto with pgrs|intros [? ?] _]); done.
  - apply no_panic_bind; [apply no_panic_cstr|]. intros [p rest] _.
    apply no_panic_bind; [|done]. unfold read_be_i32. zcase; [done|]. apply no_panic_index; lia.
Qed.

Lemma split_nul_len b s r : split_nul b = Some (s, r) -> (length r < length b)%nat.
Proof.
  revert s r. induction b as [|c b IH]; intros s r; [done|]. cbn [split_nul].
  destruct (c =? 0); [intros [= <- <-]; cbn; lia|].
  destruct (split_nul b) as [[s' r']|]; [|done]. intros [= <- <-].
  specialize (IH s' r' eq_refl). cbn. lia.
Qed.

Lemma cstr_len b s r : read_cstr_slice b = Val (Ok (s, r)) -> (length r < length b)%nat.
Proof.
  unfold read_cstr_slice. destruct (split_nul b) as [[s' r']|] eqn:E; [|done].
  intros [= _ <-]. by eapply split_nul_len.
Qed.

Lemma no_panic_params fuel cur : (length cur < fuel)%nat -> no_panic (read_params fuel cur).
Proof.
  revert cur. induction fuel as [|fuel IH]; intros cur Hf; [lia|]. cbn [read_params].
  apply no_panic_bind; [apply no_panic_cstr|]. intros [k rest] Ek. apply cstr_len in Ek.
  destruct k; [done|]. apply no_panic_bind; [apply no_panic_cstr|]. intros [v rest2] Ev.
  apply cstr_len in Ev. apply no_panic_bind; [apply IH; lia|done].
Qed.

Lemma no_panic_startup r : no_panic (read_startup r).
Proof.
  unfold read_startup, read_i32.
  apply no_panic_bind; [apply no_panic_bind; [apply no_panic_read_exact|by intros [? ?] _]|].
  intros [len r1] _. destruct (negb _) eqn:Hl; [done|]. zb.
  apply no_panic_bind; [apply no_panic_read_exact|]. intros [body r2] E.
  apply read_exact_len in E as [L _]; [|lia]. zfalse (zlen body <? 4). 
  apply no_panic_bind; [apply no_panic_index; lia|]. intros code _. repeat zcase; try done.
  - apply no_panic_bind; [apply no_panic_index; lia|]. intros ? _.
    apply no_panic_bind; [apply no_panic_index; lia|]. done.
  - apply no_panic_bind; [|done]. apply no_panic_params. unfold zdrop. rewrite length_drop. lia.
Qed.

Lemma no_panic_message r : no_panic (read_message r).
Proof.
  destruct r as [|tag r]; [done|]. cbn [read_message]. unfold read_i32.
  apply no_panic_bind; [apply no_panic_bind; [apply no_panic_read_exact|by intros [? ?] _]|].
  intros [len r1] _. zcase; [done|]. apply no_panic_bind; [apply no_panic_read_exact|]. intros [body r2] _.
  apply no_panic_bind; [apply no_panic_parse_body|done].
Qed.

Lemma protocol_total_message r : exists x, read_message r = Val x.
Proof. pose proof (no_panic_message r) as H. unfold no_panic in H. destruct (read_message r); [by eexists|done]. Qed.

(** ** Startup *)

Lemma read_params_app kvs r fuel :
  Forall (fun '(k, v) => cstr_ok k /\ cstr_ok v /\ k <> []) kvs ->
  (length kvs < fuel)%nat ->
  read_params fuel (flat_map (fun '(k, v) => k ++ [0] ++ v ++ [0]) kvs ++ 0 :: r) = Val (Ok kvs).
Proof.
  intros F. revert fuel. induction F as [|[k v] kvs (Hk & Hv & Nk) F IH]; intros fuel Hf.
  - destruct fuel; [lia|]. cbn [flat_map app read_params].
    change (0 :: r) with (@nil Z ++ 0 :: r). by rewrite read_cstr_app.
  - destruct fuel; [lia|]. cbn [flat_map read_params length] in *. rewrite <- !app_assoc. cbn [app].
    rewrite read_cstr_app by done. cbn [mbind res_bind]. destruct k; [done|].
    rewrite read_cstr_app by done. cbn [mbind res_bind]. rewrite IH by lia. done.
Qed.

Lemma kvs_len kvs :
  (2 * length kvs <= length (flat_map (fun '(k, v) => k ++ [0%Z] ++ v ++ [0%Z]) kvs))%nat.
Proof.
  induction kvs as [|[k v] kvs IH]; [done|]. cbn [flat_map length].
  rewrite length_app. assert (2 <= length (k ++ [0%Z] ++ v ++ [0%Z]))%nat; [|lia].
  rewrite !length_app. cbn. lia.
Qed.

Lemma read_startup_encode s r : startup_ok s -> read_startup (encode_startup s ++ r) = Val (Ok (s, r)).
Proof.
  intros [L F]. unfold encode_startup, read_startup. rewrite <- app_assoc.
  assert (4 <= zlen (startup_body s)) as L4.
  { destruct s; cbn [startup_body]; rewrite ?zlen_app, ?zlen_be_bytes; [|lia..].
    pose proof (zlen_nonneg (flat_map (fun '(k, v) => k ++ [0] ++ v ++ [0]) kvs)).
    change (zlen [0]) with 1. lia. }
  rewrite read_i32_app by (unfold in_i; change (2 ^ (32 - 1)) with 2147483648; lia). cbn [mbind res_bind].
  replace (negb _) with false.
  2: { symmetry. apply negb_false_iff, andb_true_iff. rewrite !Z.leb_le. lia. }
  rewrite read_exact_app by lia. cbn [mbind res_bind]. zfalse (zlen (startup_body s) <? 4).
  destruct s as [kvs| | |pid secret]; cbn [startup_body].
  - rewrite index_be_start by (lia || (split; [vm_compute; discriminate|vm_compute; reflexivity])). cbn [mbind res_bind].
    change (PROTOCOL_VERSION_3 =? SSL_REQUEST_CODE) with false.
    change (PROTOCOL_VERSION_3 =? GSS_ENC_REQUEST_CODE) with false.
    change (PROTOCOL_VERSION_3 =? CANCEL_REQUEST_CODE) with false.
    change (PROTOCOL_VERSION_3 =? PROTOCOL_VERSION_3) with true. cbv iota.
    rewrite zdrop_app_exact by (rewrite zlen_be_bytes; done).
    rewrite read_params_app; [done|done|]. pose proof (kvs_len kvs).
    rewrite !length_app. cbn [length]. lia.
  - rewrite index_be_exact by (lia || (split; [vm_compute; discriminate|vm_compute; reflexivity])). done.
  - rewrite index_be_exact by (lia || (split; [vm_compute; discriminate|vm_compute; reflexivity])). done.
  - destruct F as [Fp Fs]. rewrite index_be_start by (lia || (split; [vm_compute; discriminate|vm_compute; reflexivity])). cbn [mbind res_bind].
    change (CANCEL_REQUEST_CODE =? SSL_REQUEST_CODE) with false.
    change (CANCEL_REQUEST_CODE =? GSS_ENC_REQUEST_CODE) with false.
    change (CANCEL_REQUEST_CODE =? CANCEL_REQUEST_CODE) with true. cbv iota.
    rewrite !zlen_app, !zlen_be_bytes.
    change (Z.of_nat 4 + (Z.of_nat 4 + Z.of_nat 4) <? 12) with false. cbv iota.
    rewrite (index_be_bytes 4 pid (be_bytes 4 CANCEL_REQUEST_CODE) (be_bytes 4 secret) 4 ltac:(lia) Fp)
      by (symmetry; apply zlen_be_bytes).
    cbn [mbind res_bind]. rewrite app_assoc. rewrite <- (app_nil_r (be_bytes 4 secret)).
    rewrite (index_be_bytes 4 secret (be_bytes 4 CANCEL_REQUEST_CODE ++ be_bytes 4 pid) [] 8 ltac:(lia) Fs)
      by (rewrite zlen_app, !zlen_be_bytes; reflexivity).
    done.
Qed.

(** ** Framing *)

Lemma read_i32_inv r v r' :
  read_i32 r = Val (Ok (v, r')) -> exists h, r = h ++ r' /\ zlen h = 4 /\ v = to_signed 32 (be_val h).
Proof.
  unfold read_i32. destruct (read_exact 4 r) as [[[h r1]|e]|] eqn:E; [|done|done].
  cbn [mbind res_bind]. intros [= <- <-]. apply read_exact_len in E as [L ->]; [|lia]. by exists h.
Qed.

Lemma read_exact_short n r : zlen r < n -> read_exact n r = Val (Err UnexpectedEof).
Proof. intros. unfold read_exact. by ztrue (zlen r <? n). Qed.

Lemma prefix_split {A} (p q a b : list A) :
  p ++ q = a ++ b -> zlen a <= zlen p -> exists p', p = a ++ p' /\ b = p' ++ q.
Proof.
  intros E L. exists (drop (length a) p).
  assert (take (length a) p = a) as Ta.
  { apply (f_equal (take (length a))) in E. unfold zlen in L. rewrite take_app_le in E by lia.
    by rewrite take_app_length in E. }
  assert (p = a ++ drop (length a) p) as Ep by (rewrite <- Ta at 1; by rewrite take_drop).
  split; [done|]. rewrite Ep in E. rewrite <- app_assoc in E. by apply app_inv_head in E.
Qed.

(** * Theorems *)

(** The reader inverts the protocol's encoding.  Any sequence of
    representable frontend messages, encoded back to back and followed by
    anything, is read back message by message, field by field, and the bytes
    after it are left untouched. *)
Theorem protocol_messages_roundtrip ms rest :
  Forall msg_ok ms -> read_messages (length ms) (flat_map encode ms ++ rest) = Val (Ok (ms, rest)).
Proof. apply read_messages_encode. Qed.

Definition demo_msgs : list FrontendMessage :=
  [Parse (lit "s1") (lit "SELECT $1") [23]; Bind [] (lit "s1") [Some (lit "42"); None] [0] [1; 0];
   Describe 80 []; Execute [] 0; Sync].

Lemma cstr_ok_check s :
  (utf8_valid s && forallb (fun c => negb (c =? 0)) s)%bool = true -> cstr_ok s.
Proof.
  intros [U F]%andb_prop. split; [done|]. apply Forall_forall. intros c Hc.
  rewrite forallb_forall in F. apply list_elem_of_In in Hc. specialize (F c Hc). zb. done.
Qed.

Lemma demo_msgs_ok : Forall msg_ok demo_msgs.
Proof.
  assert (forall v, (- 2 ^ 15 <=? v) && (v <? 2 ^ 15) = true -> in_i 16 v) as H16
    by (intros v Hv; zb; split; cbn in *; lia).
  repeat (apply List.Forall_cons; [split; [|vm_compute; reflexivity]|]); [..|constructor]; cbn [fields_ok].
  - split; [apply cstr_ok_check; reflexivity|]. split; [apply cstr_ok_check; reflexivity|].
    split; [reflexivity|]. constructor; [split; cbn; lia|constructor].
  - split; [apply cstr_ok_check; reflexivity|]. split; [apply cstr_ok_check; reflexivity|].
    split; [reflexivity|]. split; [reflexivity|]. split; [reflexivity|].
    split; repeat (apply List.Forall_cons; [apply H16; reflexivity|]); constructor.
  - apply cstr_ok_check; reflexivity.
  - split; [apply cstr_ok_check; reflexivity|split; cbn; lia].
  - exact I.
Qed.

Lemma protocol_messages_roundtrip_witness :
  read_messages 5 (flat_map encode demo_msgs ++ [88]) = Val (Ok (demo_msgs, [88])).
Proof. exact (protocol_messages_roundtrip demo_msgs [88] demo_msgs_ok). Defined.

(** No input makes the reader panic: on every byte sequence both
    [read_startup] and [read_message] return a value or an [io::Error] (all
    index expressions and slices are in range, and the parameter loop ends). *)
Theorem protocol_reader_total r :
  (exists x, read_startup r = Val x) /\ (exists x, read_message r = Val x).
Proof.
  pose proof (no_panic_startup r) as H1. pose proof (no_panic_message r) as H2. unfold no_panic in *.
  split; [destruct (read_startup r)|destruct (read_message r)]; eauto; done.
Qed.

(** A message and a startup packet consume at least one byte. *)
Lemma read_message_less r m rest : read_message r = Val (Ok (Some m, rest)) -> (length rest < length r)%nat.
Proof.
  destruct r as [|tag r]; [done|]. cbn [read_message].
  destruct (read_i32 r) as [[[len r1]|e]|] eqn:E1; [|done|done]. cbn [mbind res_bind].
  zcase; [done|]. destruct (read_exact (len - 4) r1) as [[[body r2]|e]|] eqn:E2; [|done|done].
  cbn [mbind res_bind]. destruct (parse_body tag body) as [[m'|e]|]; [|done|done].
  cbn [mbind res_bind]. intros [= _ <-]. apply read_exact_len in E2 as [_ ->]; [|lia].
  apply read_i32_inv in E1 as (h & -> & _). cbn [length]. rewrite !length_app. lia.
Qed.
Lemma read_startup_less r s rest : read_startup r = Val (Ok (s, rest)) -> (length rest < length r)%nat.
Proof.
  unfold read_startup. destruct (read_i32 r) as [[[len r1]|e]|] eqn:E1; [|done|done]. cbn [mbind res_bind].
  destruct (negb _) eqn:El; [done|]. destruct (read_exact (len - 4) r1) as [[[body r2]|e]|] eqn:E2; [|done|done]. cbn [mbind res_bind].
  apply read_exact_len in E2 as [_ ->]; [|lia]. apply read_i32_inv in E1 as (h & -> & Lh & _).
  assert (length r2 < length (h ++ body ++ r2))%nat as L by (rewrite !length_app; unfold zlen in Lh; lia).
  destruct (zlen body <? 4); [done|]. destruct (index_be 4 body 0) as [[code|e]|]; cbn [mbind res_bind]; [|done|done].
  destruct (code =? SSL_REQUEST_CODE); [by intros [= _ <-]|]. destruct (code =? GSS_ENC_REQUEST_CODE); [by intros [= _ <-]|].
  destruct (code =? CANCEL_REQUEST_CODE).
  - destruct (zlen body <? 12); [done|]. destruct (index_be 4 body 4) as [[p|e]|]; cbn [mbind res_bind]; [|done|done].
    destruct (index_be 4 body 8) as [[q|e]|]; cbn [mbind res_bind]; [|done|done]. by intros [= _ <-].
  - destruct (code =? PROTOCOL_VERSION_3); [|done]. destruct (read_params _ _) as [[kvs|e]|]; cbn [mbind res_bind]; [|done|done]. by intros [= _ <-].
Qed.

(** Framing.  A message that is accepted consumed exactly its type byte and
    the number of bytes its length field announces; and a message of which only
    a proper nonempty prefix has arrived is never accepted: the reader reports
    the end of input. *)
Theorem protocol_framing m p q :
  (forall r x rest, read_message r = Val (Ok (Some x, rest)) ->
     exists tag h body, r = tag :: h ++ body ++ rest /\ zlen h = 4
       /\ to_signed 32 (be_val h) = zlen body + 4 /\ parse_body tag body = Val (Ok x))
  /\ (msg_ok m -> encode m = p ++ q -> p <> [] -> q <> [] -> read_message p = Val (Err UnexpectedEof)).
Proof.
  split.
  - intros [|tag r] x rest; [done|]. cbn [read_message].
    destruct (read_i32 r) as [[[len r1]|e]|] eqn:E1; [|done|done]. cbn [mbind res_bind].
    zcase; [done|]. destruct (read_exact (len - 4) r1) as [[[body r2]|e]|] eqn:E2; [|done|done].
    cbn [mbind res_bind]. destruct (parse_body tag body) as [[m'|e]|] eqn:E3; [|done|done].
    cbn [mbind res_bind]. intros [= <- <-]. apply read_exact_len in E2 as [L ->]; [|lia].
    apply read_i32_inv in E1 as (h & -> & Lh & ->). exists tag, h, body. split_and!; [done|done|lia|done].
  - intros [_ HL] E Hp Hq. destruct p as [|tag p]; [done|]. unfold encode, finish in E.
    set (body := mb_body (client m)) in *. injection E as _ E. cbn [read_message].
    pose proof (zlen_nonneg body). assert (0 < zlen q) as Lq by (destruct q; [done|rewrite zlen_cons; pose proof (zlen_nonneg q); lia]).
    destruct (decide (zlen p < 4)) as [Hs|Hs].
    + unfold read_i32. by rewrite read_exact_short.
    + destruct (prefix_split p q (be_bytes 4 (zlen body + 4)) body) as (p' & -> & Eb);
        [done|rewrite zlen_be_bytes; lia|].
      rewrite read_i32_app by (unfold in_i; cbn in *; lia). cbn [mbind res_bind].
      zfalse (zlen body + 4 <? 4). rewrite read_exact_short; [done|].
      apply (f_equal zlen) in Eb. rewrite zlen_app in Eb. lia.
Qed.

Lemma protocol_framing_witness :
  read_message (ztake 7 (encode (Query (lit "SELECT 1")))) = Val (Err UnexpectedEof).
Proof.
  apply (protocol_framing (Query (lit "SELECT 1")) (ztake 7 (encode (Query (lit "SELECT 1"))))
           (zdrop 7 (encode (Query (lit "SELECT 1"))))).
  - split; [apply cstr_ok_check; reflexivity|vm_compute; reflexivity].
  - vm_compute. reflexivity.
  - vm_compute. discriminate.
  - vm_compute. discriminate.
Defined.

(** The startup packet of a client (parameters, SSL, GSS or cancel
    request) within the size limit is read back exactly, leaving what follows. *)
Theorem protocol_startup_roundtrip s rest :
  startup_ok s -> read_startup (encode_startup s ++ rest) = Val (Ok (s, rest)).
Proof. apply read_startup_encode. Qed.

Lemma protocol_startup_roundtrip_witness :
  read_startup (encode_startup (Params [(lit "user", lit "bob")]) ++ [81])
  = Val (Ok (Params [(lit "user", lit "bob")], [81])).
Proof.
  apply protocol_startup_roundtrip. split; [vm_compute; discriminate|].
  apply List.Forall_cons; [|constructor]. split; [apply cstr_ok_check; reflexivity|].
  split; [apply cstr_ok_check; reflexivity|discriminate].
Defined.
