(* ===== verification/Wire.v ===== *)
(** Values on the wire: the result serialization and the small backend messages
    of crates/server/src/server.rs, and the decoding of bound parameters of
    crates/server/src/bind.rs.  What a function writes is the list of bytes it
    hands to the writer. *)

From S2P Require Import Prelude Utf8 Numeric Types Float Protocol.

(** * Numbers *)

(** [str::parse::<i64>] *)
Definition parse_i64 (s : str) : option Z :=
  match s with
  | c :: ds =>
      if c =? 45 then
        match ds with
        | [] => None
        | _ => if forallb is_ascii_digit ds
               then let v := dval 10 (reverse ((fun c => c - 48) <$> ds)) in if v <=? 2 ^ 63 then Some (- v) else None
               else None
        end
      else parse_uint 63 s
  | [] => None
  end.

(** The digits at the front of a string. *)
Fixpoint digit_run (s : str) : str * str :=
  match s with
  | c :: s' => if is_ascii_digit c then let '(a, b) := digit_run s' in (c :: a, b) else ([], s)
  | [] => ([], [])
  end.
Definition digits_val (ds : str) : Z := dval 10 (reverse ((fun c => c - 48) <$> ds)).

(** The exponent part of a float literal. *)
Definition f64_exponent (s : str) : option Z :=
  match s with
  | [] => Some 0
  | c :: s =>
      if (c =? 101) || (c =? 69) then
        let '(neg, s) := match s with
                         | c :: s' => if c =? 45 then (true, s') else if c =? 43 then (false, s') else (false, s)
                         | [] => (false, s)
                         end in
        let '(ds, r) := digit_run s in
        match ds, r with
        | _ :: _, [] => Some (if neg then - digits_val ds else digits_val ds)
        | _, _ => None
        end
      else None
  end.

Definition F64_NAN : Z := 2047 * 2 ^ 52 + 2 ^ 51.

(** [str::parse::<f64>]: a decimal literal rounded to nearest, or a name of an
    infinity or of NaN in any case. *)
Definition parse_f64 (s : str) : option Z :=
  let '(neg, s) := match s with
                   | c :: s' => if c =? 45 then (true, s') else if c =? 43 then (false, s') else (false, s)
                   | [] => (false, s)
                   end in
  let sign := if neg then 2 ^ 63 else 0 in
  let name := to_ascii_lower <$> s in
  if str_eqb name (lit "inf") || str_eqb name (lit "infinity") then Some (sign + F64_INF)
  else if str_eqb name (lit "nan") then Some (sign + F64_NAN)
  else
    let '(ip, r) := digit_run s in
    let '(fp, r) := match r with c :: r' => if c =? 46 then digit_run r' else ([], r) | [] => ([], []) end in
    match ip ++ fp with
    | [] => None
    | ds =>
        e ← f64_exponent r;
        let e := e - zlen fp in
        Some (f64_of_ratio neg (digits_val ds * 10 ^ Z.max 0 e) (10 ^ Z.max 0 (- e)))
    end.

(** ** [f32] *)

Definition F32_INF : Z := 255 * 2 ^ 23.

(** [f as f32]: rounded to nearest even; a NaN keeps its sign and the upper bits
    of its payload, and is quiet. *)
Definition f32_ex (n d : Z) : Z :=
  let l := Z.log2 n - Z.log2 d in Z.max (-149) ((if lt_pow2 n d l then l else l + 1) - 24).
Definition f64_as_f32 (bits : Z) : Z :=
  let sign := if f64_neg bits then 2 ^ 31 else 0 in
  if is_nan bits then Z.lor (sign + F32_INF + 2 ^ 22) (Z.shiftr (f64_frac bits) 29)
  else if is_infinite bits then sign + F32_INF
  else if f64_is_zero bits then sign
  else
    let n := f64_mant bits * 2 ^ Z.max 0 (f64_ex bits) in
    let d := 2 ^ Z.max 0 (- f64_ex bits) in
    let e := f32_ex n d in
    let '(num, den) := scaled n d e in
    sign + Z.min F32_INF ((e + 149) * 2 ^ 23 + round_even num den).

(** [f as f64] of an [f32]: exact. *)
Definition f32_as_f64 (bits : Z) : Z :=
  let neg := Z.testbit bits 31 in
  let ex := Z.land (Z.shiftr bits 23) 255 in
  let frac := Z.land bits (2 ^ 23 - 1) in
  let sign := if neg then 2 ^ 63 else 0 in
  if ex =? 255 then
    if frac =? 0 then sign + F64_INF else Z.lor (sign + F64_NAN) (Z.shiftl frac 29)
  else
    let m := if ex =? 0 then frac else frac + 2 ^ 23 in
    let e := if ex =? 0 then -149 else ex - 150 in
    f64_of_ratio neg (m * 2 ^ Z.max 0 e) (2 ^ Z.max 0 (- e)).

(** * Results *)

Record FieldDescription := mk_field { f_name : str; f_type : DataType }.

Inductive ExecOutcome :=
| Rows (fields : list FieldDescription) (rows : list (list Value)) (tag : str)
| Command (tag : str)
| Empty.

Definition as_i64 (v : Value) : Z :=
  match v with
  | Int i => i
  | Float f => f64_as_i64 f
  | Num n => f64_as_i64 (to_f64 n)
  | Bool b => if b then 1 else 0
  | Text s => default 0 (parse_i64 s)
  | Null => 0
  end.

Definition as_f64 (v : Value) : Z :=
  match v with
  | Int i => i64_as_f64 i
  | Float f => f
  | Num n => to_f64 n
  | Bool b => i64_as_f64 (if b then 1 else 0)
  | Text s => default 0 (parse_f64 s)
  | Null => 0
  end.

(** [encode_value]; [None] is NULL.  [as i16] and [as i32] keep the low bits,
    which is what [be_bytes] writes. *)
Definition encode_value (v : Value) (dt : DataType) (format : Z) : option (list Z) :=
  if is_null v then None
  else if format =? 0 then to_text v
  else Some match dt with
            | TBool => [if is_true v then 1 else 0]
            | TInt2 => be_bytes 2 (as_i64 v)
            | TInt4 => be_bytes 4 (as_i64 v)
            | TInt8 => be_bytes 8 (as_i64 v)
            | TFloat4 => be_bytes 4 (f64_as_f32 (as_f64 v))
            | TFloat8 => be_bytes 8 (as_f64 v)
            | _ => default [] (to_text v)
            end.

(** [format_at]; [formats[0]] of one code never fails. *)
Definition format_at (formats : list Z) (i : nat) : Z :=
  match formats with
  | [] => 0
  | [f] => f
  | _ => default 0 (formats !! i)
  end.

Definition put_value (dts : list FieldDescription) (formats : list Z) (mb : MessageBuilder) (iv : nat * Value) : MessageBuilder :=
  let '(i, v) := iv in
  let dt := default TText (f_type <$> dts !! i) in
  match encode_value v dt (format_at formats i) with
  | Some bytes => put_bytes bytes (put_i32 (zlen bytes) mb)
  | None => put_i32 (-1) mb
  end.

(** [row.iter().enumerate()] *)
Definition enumerate {A} (l : list A) : list (nat * A) := zip (seq 0 (length l)) l.

Definition data_row (fields : list FieldDescription) (formats : list Z) (row : list Value) : list Z :=
  finish (foldl (put_value fields formats) (put_i16 (zlen row) (mb_new 68)) (enumerate row)).
Definition send_data_rows (fields : list FieldDescription) (rows : list (list Value)) (formats : list Z) : list Z :=
  flat_map (data_row fields formats) rows.

Definition put_field (formats : list Z) (mb : MessageBuilder) (jf : nat * FieldDescription) : MessageBuilder :=
  let '(i, f) := jf in
  put_i16 (format_at formats i) (put_i32 (-1) (put_i16 (type_size (f_type f)) (put_i32 (oid (f_type f))
    (put_i16 0 (put_i32 0 (put_cstr (f_name f) mb)))))).
Definition send_row_description (fields : list FieldDescription) (formats : list Z) : list Z :=
  finish (foldl (put_field formats) (put_i16 (zlen fields) (mb_new 84)) (enumerate fields)).

Definition send_command_complete (tag : str) : list Z := finish (put_cstr tag (mb_new 67)).
Definition send_simple (tag : Z) : list Z := finish (mb_new tag).

Definition send_result (res : ExecOutcome) (formats : list Z) : list Z :=
  match res with
  | Rows fields rows tag =>
      send_row_description fields formats ++ send_data_rows fields rows formats ++ send_command_complete tag
  | Command tag => send_command_complete tag
  | Empty => send_simple 73
  end.

Definition send_execute_result (res : ExecOutcome) (formats : list Z) : list Z :=
  match res with
  | Rows fields rows tag => send_data_rows fields rows formats ++ send_command_complete tag
  | Command tag => send_command_complete tag
  | Empty => send_simple 73
  end.

(** ** Small messages *)

Definition send_authentication_ok : list Z := finish (put_i32 0 (mb_new 82)).
Definition send_backend_key_data (pid secret : Z) : list Z := finish (put_i32 secret (put_i32 pid (mb_new 75))).
Definition send_ready_for_query (status : Z) : list Z := finish (put_u8 status (mb_new 90)).
Definition send_parameter_description (oids : list Z) : list Z :=
  finish (foldl (fun mb o => put_i32 o mb) (put_i16 (zlen oids) (mb_new 116)) oids).

(** A field of an error or notice: its code, then its text. *)
Definition put_tagged (c : Z) (s : str) (mb : MessageBuilder) : MessageBuilder := put_cstr s (put_u8 c mb).
Definition send_error (code message : str) : list Z :=
  finish (put_u8 0 (put_tagged 77 message (put_tagged 67 code (put_tagged 86 (lit "ERROR") (put_tagged 83 (lit "ERROR") (mb_new 69)))))).

(** [str::contains] *)
Fixpoint substring (needle s : str) : bool :=
  starts_with s needle || match s with [] => false | _ :: s' => substring needle s' end.

Definition sqlstate_for (msg : str) : str :=
  let has s := substring (lit s) msg in
  if has "does not exist"%string then lit "42P01"
  else if has "already exists"%string then lit "42P07"
  else if has "division by zero"%string then lit "22012"
  else if has "not-null"%string then lit "23502"
  else if has "syntax"%string || has "expected"%string || has "unexpected"%string then lit "42601"
  else if has "invalid input syntax"%string || has "cannot coerce"%string then lit "22P02"
  else if has "canceling statement"%string then lit "57014"
  else if has "could not serialize access"%string then lit "40001"
  else if has "deadlock detected"%string then lit "40P01"
  else if has "could not obtain lock"%string then lit "55P03"
  else if has "read-only transaction"%string then lit "25006"
  else lit "XX000".

(** * Bound parameters (bind.rs) *)

Definition bad_length (t : str) : str := lit "invalid binary length for " ++ t.

(** [bytes.try_into()] an array of [n] bytes, read big endian. *)
Definition fixed_be (n : nat) (t : str) (bytes : list Z) : result str Z :=
  if bool_decide (length bytes = n) then Ok (be_val bytes) else Err (bad_length t).
Definition fixed_i (n : nat) (t : str) (bytes : list Z) : result str Value :=
  (fun v => Int (to_signed (8 * Z.of_nat n) v)) <$> fixed_be n t bytes.

Definition decode_binary (bytes : list Z) (o : Z) : result str Value :=
  if o =? 16 then Ok (Bool (negb (default 0 (head bytes) =? 0)))
  else if o =? 21 then fixed_i 2 (lit "int2") bytes
  else if o =? 23 then fixed_i 4 (lit "int4") bytes
  else if o =? 20 then fixed_i 8 (lit "int8") bytes
  else if o =? 700 then (fun v => Float (f32_as_f64 v)) <$> fixed_be 4 (lit "float4") bytes
  else if o =? 701 then Float <$> fixed_be 8 (lit "float8") bytes
  else Ok (Text (from_utf8_lossy bytes)).

Definition decode_text (s : str) (o : Z) : run Value :=
  let or_text {A} (f : A -> Value) (x : option A) := match x with Some a => f a | None => Text s end in
  if o =? 16 then Val (Bool (existsb (str_eqb s) (lit <$> ["t"; "true"; "1"; "yes"; "on"]%string)))
  else if (o =? 20) || (o =? 21) || (o =? 23) then Val (or_text Int (parse_i64 s))
  else if (o =? 700) || (o =? 701) then Val (or_text Float (parse_f64 s))
  else if o =? 1700 then or_text Num <$> Numeric.parse s
  else if o =? 0 then Val (match parse_i64 s with Some i => Int i | None => or_text Float (parse_f64 s) end)
  else Val (Text s).

Definition decode_param (raw : option (list Z)) (format o : Z) : res str Value :=
  match raw with
  | None => Val (Ok Null)
  | Some bytes => if format =? 1 then Val (decode_binary bytes o) else lift (decode_text (from_utf8_lossy bytes) o)
  end.

(** * Examples *)

Example parse_floats :
  parse_f64 (lit "0.1") = Some 4591870180066957722 /\ parse_f64 (lit "-.5e0") = Some 13826050856027422720
  /\ parse_f64 (lit "-Inf") = Some (2 ^ 63 + F64_INF) /\ parse_f64 (lit ".") = None /\ parse_f64 (lit "1e") = None
  /\ parse_f64 (lit "1e400") = Some F64_INF.
Proof. vm_compute. split_and!; reflexivity. Qed.
Example f32_casts :
  f64_as_f32 4591870180066957722 = 1036831949 /\ f32_as_f64 1036831949 = 4591870180174331904
  /\ f64_as_f32 (2 ^ 63) = 2 ^ 31 /\ f64_as_f32 F64_NAN = 0x7FC00000 /\ f32_as_f64 1 = 3936146074321813504.
Proof. vm_compute. split_and!; reflexivity. Qed.
Example parse_ints :
  parse_i64 (lit "-9223372036854775808") = Some (- 2 ^ 63) /\ parse_i64 (lit "9223372036854775808") = None
  /\ parse_i64 (lit "+7") = Some 7 /\ parse_i64 (lit "-") = None /\ parse_i64 (lit "+-1") = None.
Proof. vm_compute. split_and!; reflexivity. Qed.

(** * Specification *)

(** The types whose values travel as their text. *)
Definition text_like (dt : DataType) : bool :=
  match dt with TBool | TInt2 | TInt4 | TInt8 | TFloat4 | TFloat8 | TNumeric => false | _ => true end.

(** The values of a column of type [dt] that survive the format [fmt]. *)
Definition transmits (dt : DataType) (fmt : Z) (v : Value) : Prop :=
  match v with
  | Null => True
  | Bool _ => dt = TBool
  | Int i => (dt = TInt2 /\ in_i 16 i) \/ (dt = TInt4 /\ in_i 32 i) \/ (dt = TInt8 /\ in_i 64 i)
  | Float f => dt = TFloat8 /\ fmt = 1 /\ in_u 64 f
  | Num n => dt = TNumeric /\ fmt = 0 /\ bd_wf n /\ scale n < 2 ^ 63
  | Text s => text_like dt = true /\ utf8_valid s = true
  end.

(** Equality up to the representation of a decimal. *)
Definition wire_eq (v v' : Value) : Prop :=
  match v, v' with
  | Num n, Num n' => negative n' = negative n /\ scale n' = scale n /\ unscaled n' = unscaled n
  | _, _ => v' = v
  end.

(** A client's reading of backend messages, per the protocol's formats. *)
Definition read_frame (r : list Z) : pres (Z * list Z * list Z) :=
  match r with
  | [] => fail UnexpectedEof
  | tag :: r => '(len, r) ← read_i32 r; '(body, r) ← read_exact (len - 4) r; mret (tag, body, r)
  end.
Definition client_field (cur : list Z) : pres (str * Z * Z * list Z) :=
  '(name, cur) ← read_cstr_slice cur;
  '(_, cur) ← take_i32 cur;
  '(_, cur) ← take_i16 cur;
  '(o, cur) ← take_i32 cur;
  '(_, cur) ← take_i16 cur;
  '(_, cur) ← take_i32 cur;
  '(fmt, cur) ← take_i16 cur;
  mret (name, o, fmt, cur).
Definition client_fields (body : list Z) : pres (list (str * Z * Z)) :=
  '(n, cur) ← take_count body;
  '(fs, _) ← take_many client_field n cur;
  mret fs.
Definition client_row (body : list Z) : pres (list (option (list Z))) :=
  '(n, cur) ← take_count body;
  '(ps, _) ← take_many take_param n cur;
  mret ps.
Fixpoint client_rows (fuel : nat) (r : list Z) : pres (list (list (option (list Z))) * str * list Z) :=
  match fuel with
  | O => Panic
  | S fuel =>
      '(tag, body, r) ← read_frame r;
      if tag =? 68 then
        row ← client_row body;
        '(rows, t, r) ← client_rows fuel r;
        mret (row :: rows, t, r)
      else if tag =? 67 then '(t, _) ← read_cstr_slice body; mret ([], t, r)
      else fail (InvalidData [])
  end.

(** A whole result set: fields with type and format, raw rows, command tag. *)
Definition client_result (r : list Z) : pres (list (str * Z * Z) * list (list (option (list Z))) * str * list Z) :=
  '(tag, body, r) ← read_frame r;
  if tag =? 84 then
    fs ← client_fields body;
    '(rows, t, r) ← client_rows (S (length r)) r;
    mret (fs, rows, t, r)
  else fail (InvalidData []).

Definition field_header (formats : list Z) (jf : nat * FieldDescription) : str * Z * Z :=
  (f_name jf.2, oid (f_type jf.2), format_at formats jf.1).
Definition raw_value (fields : list FieldDescription) (formats : list Z) (iv : nat * Value) : option (list Z) :=
  encode_value iv.2 (default TText (f_type <$> fields !! iv.1)) (format_at formats iv.1).

(** The sizes the message formats can carry. *)
Definition row_sendable (fields : list FieldDescription) (formats : list Z) (row : list Value) : Prop :=
  zlen row < 2 ^ 15 /\ zlen (data_row fields formats row) < 2 ^ 31.

(** * Proofs *)

(** ** Values *)

Lemma parse_i64_display i : in_i 64 i -> parse_i64 (i64_display i) = Some i.
Proof.
  intros Hi. destruct (decide (0 <= i)) as [H|H].
  - destruct Hi as [_ Hi]. change (64 - 1) with 63 in Hi.
    pose proof (parse_uint_display 63 i ltac:(lia) ltac:(lia)) as P.
    destruct (u64_display_digits i ltac:(lia)) as (ds & E & D & N & V). rewrite E in P |- *.
    destruct ds as [|d ds]; [done|]. inversion D as [|? ? Hd D']; subst. unfold is_digit in Hd. cbn [fmap list_fmap] in P |- *.
    unfold parse_i64. unfold digit_char at 1. zfalse (48 + d =? 45). exact P.
  - destruct (i64_display_shape i Hi) as (ip & E & D & N & V). rewrite E. ztrue (i <? 0). rewrite app_nil_r. cbn [lit map].
    change (lit "-") with [45]. cbn [app]. unfold parse_i64. ztrue (45 =? 45).
    destruct (digit_char <$> ip) as [|c s] eqn:Es; [by destruct ip|]. rewrite <- Es, digits_are_digits, undigit by done.
    fold (mval ip). unfold signed in V. rewrite (proj2 (Z.ltb_lt i 0) ltac:(lia)) in V. unfold in_i in Hi. cbn in Hi.
    cbv zeta. ztrue (mval ip <=? 2 ^ 63). f_equal. lia.
Qed.

Lemma fixed_i_ok n t i : (0 < n)%nat -> in_i (8 * Z.of_nat n) i -> fixed_i n t (be_bytes n i) = Ok (Int i).
Proof.
  intros Hn Hi. unfold fixed_i, fixed_be. rewrite bool_decide_eq_true_2.
  - cbn. unfold be_val, be_bytes. rewrite reverse_involutive. fold (le_val (le_bytes n i)). rewrite le_val_bytes_mod.
    replace (256 ^ Z.of_nat n) with (2 ^ (8 * Z.of_nat n)) by (rewrite Z.pow_mul_r by lia; done).
    by rewrite to_signed_small by (lia || done).
  - unfold be_bytes. rewrite length_reverse. apply length_le_bytes.
Qed.

Lemma text_like_oid dt : text_like dt = true ->
  oid dt <> 16 /\ oid dt <> 21 /\ oid dt <> 23 /\ oid dt <> 20 /\ oid dt <> 700 /\ oid dt <> 701 /\ oid dt <> 1700 /\ oid dt <> 0.
Proof. destruct dt; intros H; try discriminate H; cbn; lia. Qed.

Lemma binary_roundtrip dt v : transmits dt 1 v -> v <> Null ->
  exists b, encode_value v dt 1 = Some b /\ decode_binary b (oid dt) = Ok v.
Proof.
  intros T N. destruct v as [|i|f|n|s|b]; [done|..]; cbn [transmits] in T; eexists; (split; [reflexivity|]).
  - destruct T as [[-> H]|[[-> H]|[-> H]]]; cbn -[be_bytes fixed_i]; by apply fixed_i_ok; [lia|].
  - destruct T as (-> & _ & H). cbn -[be_bytes fixed_be]. unfold fixed_be. rewrite bool_decide_eq_true_2.
    + cbn -[be_val be_bytes]. by rewrite be_val_bytes.
    + unfold be_bytes. rewrite length_reverse. apply length_le_bytes.
  - by destruct T as (-> & ? & _).
  - destruct T as [T V]. pose proof (text_like_oid dt T) as O. unfold decode_binary.
    zfalse (oid dt =? 16). zfalse (oid dt =? 21). zfalse (oid dt =? 23). zfalse (oid dt =? 20). zfalse (oid dt =? 700). zfalse (oid dt =? 701).
    destruct dt; try discriminate T; cbn [default to_text]; by rewrite from_utf8_lossy_valid.
  - subst dt. by destruct b.
Qed.

Lemma i64_display_valid i : in_i 64 i -> utf8_valid (i64_display i) = true.
Proof.
  intros H. destruct (i64_display_shape i H) as (ip & -> & D & _). rewrite app_nil_r. apply utf8_valid_ascii.
  apply Forall_app. split; [destruct (i <? 0); repeat constructor; lia|].
  apply Forall_fmap. eapply Forall_impl; [exact D|]. intros d Hd. unfold is_digit in Hd. cbn. unfold digit_char. lia.
Qed.

Lemma text_roundtrip dt v : transmits dt 0 v -> v <> Null ->
  exists s v', encode_value v dt 0 = Some s /\ utf8_valid s = true /\ decode_text s (oid dt) = Val v' /\ wire_eq v v'.
Proof.
  intros T N. destruct v as [|i|f|n|s|b]; [done|..]; cbn [transmits] in T.
  - assert (in_i 64 i /\ (oid dt =? 20) || (oid dt =? 21) || (oid dt =? 23) = true /\ oid dt <> 16) as (H & O & O').
    { unfold in_i in *. cbn in *. destruct T as [[-> ?]|[[-> ?]|[-> ?]]]; cbn; (split; [lia|split; [reflexivity|lia]]). }
    exists (i64_display i), (Int i). split_and!; [done|by apply i64_display_valid| |done].
    unfold decode_text. zfalse (oid dt =? 16). rewrite O. by rewrite parse_i64_display.
  - by destruct T as (_ & ? & _).
  - destruct T as (-> & _ & W & S). destruct (print_parse_ok n W S) as (d & E & _ & D). exists (to_canonical_string n), (Num d).
    split_and!; [done|by apply canonical_valid| |exact D]. unfold decode_text. cbn. by rewrite E.
  - destruct T as [T V]. pose proof (text_like_oid dt T) as O. exists s, (Text s). split_and!; [done|done| |done].
    unfold decode_text. zfalse (oid dt =? 16). zfalse (oid dt =? 20). zfalse (oid dt =? 21). zfalse (oid dt =? 23).
    zfalse (oid dt =? 700). zfalse (oid dt =? 701). zfalse (oid dt =? 1700). zfalse (oid dt =? 0). done.
  - subst dt. exists (if b then lit "t" else lit "f"), (Bool b). by destruct b.
Qed.

Lemma value_roundtrip dt fmt v : fmt = 0 \/ fmt = 1 -> transmits dt fmt v ->
  exists v', decode_param (encode_value v dt fmt) fmt (oid dt) = Val (Ok v') /\ wire_eq v v'.
Proof.
  intros F T. assert (v = Null \/ v <> Null) as [->|N] by (destruct v; [by left|by right..]); [by exists Null|]. destruct F as [-> | ->].
  - destruct (text_roundtrip dt v T N) as (s & v' & -> & V & D & E). exists v'. split; [|done].
    cbn. by rewrite from_utf8_lossy_valid, D.
  - destruct (binary_roundtrip dt v T N) as (b & -> & D). exists v. split; [cbn; by rewrite D|by destruct v].
Qed.

(** ** Messages *)

Lemma read_frame_finish mb r : zlen (finish mb) < 2 ^ 31 -> read_frame (finish mb ++ r) = Val (Ok (mb_tag mb, mb_body mb, r)).
Proof.
  unfold finish, read_frame. cbn [app]. rewrite zlen_cons, zlen_app, zlen_be_bytes. pose proof (zlen_nonneg (mb_body mb)). intros H'.
  rewrite <- app_assoc, read_i32_app by (unfold in_i; cbn in *; lia). cbn [mbind res_bind].
  by rewrite read_exact_app by lia.
Qed.

Lemma foldl_put {A} (put : MessageBuilder -> A -> MessageBuilder) (enc : A -> list Z) l mb :
  (forall mb x, put mb x = mk_mb (mb_tag mb) (mb_body mb ++ enc x)) ->
  foldl put mb l = mk_mb (mb_tag mb) (mb_body mb ++ flat_map enc l).
Proof. intros H. apply (put_all_body (fun x mb => put mb x) enc l mb). intros x mb'. apply H. Qed.

Lemma put_value_enc fields formats mb iv :
  put_value fields formats mb iv = mk_mb (mb_tag mb) (mb_body mb ++ enc_param (raw_value fields formats iv)).
Proof.
  destruct iv as [i v]. unfold put_value, raw_value. cbn [fst snd]. destruct (encode_value _ _ _) as [b|]; [|done].
  unfold put_bytes, put_i32, enc_param. cbn [mb_tag mb_body]. by rewrite <- app_assoc.
Qed.

Lemma length_enumerate {A} (l : list A) : length (enumerate l) = length l.
Proof. unfold enumerate. rewrite length_zip, length_seq. lia. Qed.

Lemma flat_map_fmap {A B C} (f : A -> B) (g : B -> list C) l : flat_map (fun x => g (f x)) l = flat_map g (f <$> l).
Proof. induction l as [|x l IH]; cbn; [done|]. by rewrite IH. Qed.

Lemma data_row_message fields formats row :
  data_row fields formats row
  = finish (mk_mb 68 (be_bytes 2 (zlen row) ++ flat_map enc_param (raw_value fields formats <$> enumerate row))).
Proof.
  unfold data_row. rewrite (foldl_put _ (fun iv => enc_param (raw_value fields formats iv))) by apply put_value_enc.
  cbn [mb_new put_i16 mb_tag mb_body app]. by rewrite flat_map_fmap.
Qed.

Lemma client_row_reads fields formats row : row_sendable fields formats row ->
  client_row (be_bytes 2 (zlen row) ++ flat_map enc_param (raw_value fields formats <$> enumerate row))
  = Val (Ok (raw_value fields formats <$> enumerate row)).
Proof.
  intros [L M]. rewrite data_row_message in M. unfold finish in M. cbn [mb_body mb_tag] in M.
  rewrite zlen_cons, !zlen_app, !zlen_be_bytes in M. unfold client_row. set (ps := raw_value fields formats <$> enumerate row) in *.
  assert (length ps = length row) as E by (subst ps; by rewrite length_fmap, length_enumerate).
  replace (zlen row) with (zlen ps) by (unfold zlen; by rewrite E).
  rewrite take_count_app by (unfold zlen in *; lia). cbn [mbind res_bind].
  rewrite <- (app_nil_r (flat_map enc_param ps)). rewrite (take_many_app take_param enc_param); [done|].
  intros p r Hp. apply take_param_app. destruct p as [b|]; [|done]. apply param_len in Hp. cbn [enc_param] in Hp.
  rewrite zlen_app, zlen_be_bytes in Hp. lia.
Qed.

Lemma client_rows_read fields formats rows tag : forall fuel rest,
  Forall (row_sendable fields formats) rows -> cstr_ok tag -> zlen (send_command_complete tag) < 2 ^ 31 -> (length rows < fuel)%nat ->
  client_rows fuel (send_data_rows fields rows formats ++ send_command_complete tag ++ rest)
  = Val (Ok ((fun row => raw_value fields formats <$> enumerate row) <$> rows, tag, rest)).
Proof.
  induction rows as [|row rows IH]; intros [|fuel] rest F T L Hf; cbn [length] in Hf; try lia; unfold send_data_rows; cbn [flat_map client_rows app].
  - unfold send_command_complete in *. rewrite read_frame_finish by done. cbn [mbind res_bind mb_tag mb_body put_cstr mb_new].
    change (67 =? 68) with false. change (67 =? 67) with true. cbv iota. cbn [app]. by rewrite read_cstr_app.
  - apply Forall_cons in F as [Hr F]. fold (send_data_rows fields rows formats).
    rewrite <- app_assoc, data_row_message, read_frame_finish by (rewrite <- data_row_message; apply Hr).
    cbn [mbind res_bind mb_tag mb_body]. change (68 =? 68) with true. cbv iota.
    rewrite client_row_reads by done. cbn [mbind res_bind]. by rewrite IH by (done || lia).
Qed.

Definition enc_field (formats : list Z) (jf : nat * FieldDescription) : list Z :=
  f_name jf.2 ++ 0 :: be_bytes 4 0 ++ be_bytes 2 0 ++ be_bytes 4 (oid (f_type jf.2)) ++ be_bytes 2 (type_size (f_type jf.2))
  ++ be_bytes 4 (-1) ++ be_bytes 2 (format_at formats jf.1).

Lemma put_field_enc formats mb jf : put_field formats mb jf = mk_mb (mb_tag mb) (mb_body mb ++ enc_field formats jf).
Proof.
  destruct jf as [j f]. unfold put_field, enc_field, put_i16, put_i32, put_cstr. cbn [mb_tag mb_body fst snd]. f_equal.
  rewrite <- !app_assoc. done.
Qed.

Lemma oid_range dt : in_i 32 (oid dt) /\ in_i 16 (type_size dt).
Proof. destruct dt; unfold in_i; cbn; lia. Qed.

(** The field names a RowDescription can carry. *)
Definition fields_sendable (fields : list FieldDescription) (formats : list Z) : Prop :=
  Forall (fun f => cstr_ok (f_name f)) fields /\ Forall (in_i 16) formats /\ zlen fields < 2 ^ 15
  /\ zlen (send_row_description fields formats) < 2 ^ 31.

Lemma format_in formats i : Forall (in_i 16) formats -> in_i 16 (format_at formats i).
Proof.
  intros F. assert (in_i 16 0) as Z0 by (unfold in_i; cbn; lia). unfold format_at.
  destruct formats as [|f [|g fs]]; [done|by apply Forall_cons in F as [? _]|].
  destruct ((f :: g :: fs) !! i) as [x|] eqn:E; cbn [default]; [|done]. by apply (Forall_lookup_1 _ _ _ _ F E).
Qed.

Lemma client_field_reads formats jf r : cstr_ok (f_name jf.2) -> Forall (in_i 16) formats ->
  client_field (enc_field formats jf ++ r) = Val (Ok (field_header formats jf, r)).
Proof.
  intros C F. pose proof (oid_range (f_type jf.2)) as [O S]. pose proof (format_in formats jf.1 F) as Fm.
  assert (in_i 32 0 /\ in_i 16 0 /\ in_i 32 (-1)) as (I1 & I2 & I3) by (unfold in_i; cbn; lia).
  unfold client_field, enc_field. rewrite <- app_assoc. cbn [app]. rewrite read_cstr_app by done. cbn [mbind res_bind].
  rewrite <- !app_assoc. rewrite take_i32_app by done. cbn [mbind res_bind]. rewrite take_i16_app by done. cbn [mbind res_bind].
  rewrite take_i32_app by done. cbn [mbind res_bind]. rewrite take_i16_app by done. cbn [mbind res_bind].
  rewrite take_i32_app by done. cbn [mbind res_bind]. rewrite take_i16_app by done. done.
Qed.

Lemma row_description_message fields formats :
  send_row_description fields formats = finish (mk_mb 84 (be_bytes 2 (zlen fields) ++ flat_map (enc_field formats) (enumerate fields))).
Proof. unfold send_row_description. rewrite (foldl_put _ (enc_field formats)) by apply put_field_enc. done. Qed.

Lemma take_many_map {A B} (take : list Z -> pres (B * list Z)) (enc : A -> list Z) (h : A -> B) l r :
  (forall x r, x ∈ l -> take (enc x ++ r) = Val (Ok (h x, r))) ->
  take_many take (length l) (flat_map enc l ++ r) = Val (Ok (h <$> l, r)).
Proof.
  induction l as [|x l IH]; intros H; [done|]. cbn [length take_many flat_map]. rewrite <- app_assoc.
  rewrite H by (apply elem_of_cons; by left). cbn [mbind res_bind].
  rewrite IH by (intros; apply H, elem_of_cons; by right). done.
Qed.

Lemma elem_of_enumerate {A} (l : list A) i x : (i, x) ∈ enumerate l -> l !! i = Some x.
Proof.
  intros H. apply list_elem_of_lookup in H as [k H]. unfold enumerate in H. rewrite lookup_zip_Some in H. destruct H as [H1 H2].
  apply lookup_seq in H1 as [-> _]. done.
Qed.

Lemma client_fields_read fields formats : fields_sendable fields formats ->
  client_fields (be_bytes 2 (zlen fields) ++ flat_map (enc_field formats) (enumerate fields))
  = Val (Ok (field_header formats <$> enumerate fields)).
Proof.
  intros (C & F & L & _). unfold client_fields. rewrite take_count_app by done. cbn [mbind res_bind].
  rewrite <- (length_enumerate fields), <- (app_nil_r (flat_map _ _)).
  rewrite (take_many_map client_field (enc_field formats) (field_header formats)); [done|].
  intros [i f] r H. apply elem_of_enumerate in H. apply client_field_reads; [|done]. apply (Forall_lookup_1 _ _ _ _ C H).
Qed.

Lemma rows_len fields formats rows : (length rows <= length (send_data_rows fields rows formats))%nat.
Proof. unfold send_data_rows. induction rows as [|r rows IH]; [done|]. cbn [flat_map length]. rewrite length_app. cbn [data_row finish length]. lia. Qed.

Lemma client_result_reads fields rows tag formats rest :
  fields_sendable fields formats -> Forall (row_sendable fields formats) rows -> cstr_ok tag ->
  zlen (send_command_complete tag) < 2 ^ 31 ->
  client_result (send_result (Rows fields rows tag) formats ++ rest)
  = Val (Ok (field_header formats <$> enumerate fields, (fun row => raw_value fields formats <$> enumerate row) <$> rows, tag, rest)).
Proof.
  intros Hf Hr Ht Hc. unfold client_result. cbn [send_result]. rewrite <- !app_assoc.
  rewrite row_description_message, read_frame_finish by (rewrite <- row_description_message; apply Hf).
  cbn [mbind res_bind mb_tag mb_body]. change (84 =? 84) with true. cbv iota. rewrite client_fields_read by done. cbn [mbind res_bind].
  rewrite client_rows_read; [done..|]. rewrite !length_app. pose proof (rows_len fields formats rows). lia.
Qed.

(** The values a client decodes, by the type and format of each column. *)
Definition client_value (h : str * Z * Z) (raw : option (list Z)) : res str Value := decode_param raw h.2 h.1.2.
Definition client_values (hs : list (str * Z * Z)) (raw : list (option (list Z))) : res str (list Value) :=
  mapM (fun '(h, p) => client_value h p) (zip hs raw).

(** A row of the shape the fields describe. *)
Definition row_typed (fields : list FieldDescription) (formats : list Z) (row : list Value) : Prop :=
  length row = length fields
  /\ forall i f v, fields !! i = Some f -> row !! i = Some v ->
       (format_at formats i = 0 \/ format_at formats i = 1) /\ transmits (f_type f) (format_at formats i) v.

Lemma mapM_res {A B E} (f : A -> res E B) (R : A -> B -> Prop) l :
  Forall (fun x => exists y, f x = Val (Ok y) /\ R x y) l -> exists ys, mapM f l = Val (Ok ys) /\ Forall2 R l ys.
Proof.
  induction 1 as [|x l (y & E1 & Hy) _ (ys & E2 & Hys)]; [by exists []|]. exists (y :: ys). split; [|by constructor].
  cbn [mapM]. rewrite E1. cbn [mbind res_bind]. by rewrite E2.
Qed.

Lemma zip_enumerate {A B C D} (h : nat * A -> C) (r : nat * B -> D) (fields : list A) : forall k (row : list B), length row = length fields ->
  zip (h <$> zip (seq k (length fields)) fields) (r <$> zip (seq k (length row)) row)
  = (fun x => (h (x.1, x.2.1), r (x.1, x.2.2))) <$> zip (seq k (length row)) (zip fields row).
Proof.
  induction fields as [|f fields IH]; intros k [|v row] L; cbn in *; try done. f_equal. apply IH. lia.
Qed.

Lemma snd_enumerate {A B} (fields : list A) : forall k (row : list B), length row = length fields ->
  (fun x => x.2.2) <$> zip (seq k (length row)) (zip fields row) = row.
Proof. induction fields as [|f fields IH]; intros k [|v row] L; cbn in *; try done. f_equal. apply IH. lia. Qed.

Lemma mapM_fmap_res {A B C E} (f : B -> res E C) (g : A -> B) l : mapM f (g <$> l) = mapM (fun x => f (g x)) l.
Proof. induction l as [|x l IH]; [done|]. cbn [fmap list_fmap mapM]. by rewrite <- IH. Qed.

Lemma client_values_typed fields formats row : row_typed fields formats row ->
  exists row', client_values (field_header formats <$> enumerate fields) (raw_value fields formats <$> enumerate row) = Val (Ok row')
    /\ Forall2 wire_eq row row'.
Proof.
  intros [L T]. unfold client_values, enumerate. rewrite zip_enumerate, mapM_fmap_res by done.
  destruct (mapM_res (E := str) (fun x => client_value (field_header formats (x.1, x.2.1)) (raw_value fields formats (x.1, x.2.2)))
    (fun x v' => wire_eq x.2.2 v') (zip (seq 0 (length row)) (zip fields row))) as (row' & E & F).
  - apply Forall_lookup. intros k [i [f v]] H. rewrite lookup_zip_Some in H. destruct H as [S H].
    apply lookup_seq in S as [-> _]. rewrite lookup_zip_Some in H. destruct H as [Hf Hv]. cbn [Nat.add fst snd].
    destruct (T k f v Hf Hv) as [Hm Ht]. destruct (value_roundtrip _ _ _ Hm Ht) as (v' & D & W).
    exists v'. split; [|done]. unfold client_value, field_header, raw_value. cbn [fst snd]. by rewrite Hf.
  - exists row'. split; [exact E|]. rewrite <- (snd_enumerate fields 0 row L). by apply Forall2_fmap_l.
Qed.

(** ** Theorems *)

(** C37: a result set survives the wire, for the values their format can carry.  A client
    that reads what the server sends gets the column names, type oids and formats,
    the command tag, and, decoding each field by its column's oid and format with
    the server's own parameter decoder, every value of every row (decimals up to
    their representation); nothing of the following messages is consumed.  Covered
    are ([row_typed]): NULL; booleans; integers within the width of their int2, int4
    or int8 column; doubles in a float8 column in the binary format only; decimals in
    the text format only; UTF-8 texts in the columns of the other types.  Not
    covered: doubles in the text format, float4, decimals in the binary format.
    Messages must be shorter than 2 GiB, rows below 2^15 columns, and the names
    and the tag free of NUL. *)
Theorem wire_result_roundtrip fields rows tag formats rest :
  fields_sendable fields formats -> Forall (row_sendable fields formats) rows -> Forall (row_typed fields formats) rows ->
  cstr_ok tag -> zlen (send_command_complete tag) < 2 ^ 31 ->
  exists raw rows',
    client_result (send_result (Rows fields rows tag) formats ++ rest)
      = Val (Ok (field_header formats <$> enumerate fields, raw, tag, rest))
    /\ mapM (client_values (field_header formats <$> enumerate fields)) raw = Val (Ok rows')
    /\ Forall2 (Forall2 wire_eq) rows rows'.
Proof.
  intros Hf Hr Ht Hc Hl. exists ((fun row => raw_value fields formats <$> enumerate row) <$> rows).
  rewrite (mapM_fmap_res (E := str)).
  destruct (mapM_res (E := str) (fun row : list Value => client_values (field_header formats <$> enumerate fields) (raw_value fields formats <$> enumerate row))
    (Forall2 wire_eq) rows) as (rows' & E & F).
  { eapply Forall_impl; [exact Ht|]. intros row H. by apply client_values_typed. }
  exists rows'. split_and!; [by apply client_result_reads|exact E|exact F].
Qed.

Lemma wire_result_roundtrip_witness :
  exists raw rows',
    client_result (send_result (Rows [mk_field (lit "id") TInt4; mk_field (lit "n") TText] [[Int (-7); Text (lit "x")]; [Null; Null]] (lit "SELECT 2")) [1] ++ [])
      = Val (Ok (field_header [1] <$> enumerate [mk_field (lit "id") TInt4; mk_field (lit "n") TText], raw, lit "SELECT 2", []))
    /\ mapM (client_values (field_header [1] <$> enumerate [mk_field (lit "id") TInt4; mk_field (lit "n") TText])) raw = Val (Ok rows')
    /\ Forall2 (Forall2 wire_eq) [[Int (-7); Text (lit "x")]; [Null; Null]] rows'.
Proof.
  apply wire_result_roundtrip.
  - split_and!; [repeat constructor; vm_compute; congruence|repeat constructor; vm_compute; congruence|vm_compute; reflexivity..].
  - repeat constructor; vm_compute; reflexivity.
  - repeat apply Forall_cons_2; [..|apply Forall_nil_2]; (split; [reflexivity|]); intros [|[|i]] f v Hf Hv; cbn in Hf, Hv;
      inversion Hf; inversion Hv; subst; (split; [right; reflexivity|]); cbn; try exact I; try (split; reflexivity).
    right. left. split; [reflexivity|]. unfold in_i. cbn. lia.
  - split; [reflexivity|]. repeat constructor; discriminate.
  - vm_compute. reflexivity.
Defined.
