(* ===== verification/LockStmt.v ===== *)
(** Locking statements of crates/server/src/server.rs: the blocking
    [acquire_lock], LOCK TABLE, and SELECT ... FOR UPDATE / FOR SHARE with its
    wait policies.  The mutex of the lock table is taken once per turn; what the
    other backends have done to the table before a turn, and whether the cancel
    flag is set by then, are functions of the number of turns so far. *)

From stdpp Require Import gmap.
From S2P Require Import Prelude Utf8 Types Storage Database Disk Lock Txn Wire.

#[local] Open Scope Z_scope.

(** * Statements (ast.rs) *)

Inductive RowLockingMode := Update | NoKeyUpdate | ForShare | KeyShare.
Inductive RowLockingWaitPolicy := NoWait | SkipLocked.
Record RowLockingClause := mk_clause { rc_mode : RowLockingMode; rc_tables : list str; rc_wait_policy : option RowLockingWaitPolicy }.

(** * Handlers *)


(** [row_key]: the texts of the cells, separated by U+0001. *)
Definition cell_key (v : Value) : str := default (0 :: lit "NULL") (to_text v).
Fixpoint row_key (row : list Value) : str :=
  match row with
  | [] => []
  | [v] => cell_key v
  | v :: row => cell_key v ++ 1 :: row_key row
  end.

Definition is_update (m : RowLockingMode) : bool := match m with Update | NoKeyUpdate => true | _ => false end.

(** The strongest of the clauses' modes, the first wait policy, the first named
    table. *)
Definition locking_mode (cs : list RowLockingClause) : LockMode := if existsb (fun c => is_update (rc_mode c)) cs then Exclusive else Share.
Definition locking_policy (cs : list RowLockingClause) : option RowLockingWaitPolicy := head (omap rc_wait_policy cs).
Definition locking_target (cs : list RowLockingClause) (base : option str) : option str :=
  match flat_map rc_tables cs with t :: _ => Some t | [] => base end.

Section locking.
Context {Expr Select P : Type}.
Abbreviation DB := (Database Expr Select).
Abbreviation Sh := (@Shared Expr Select).
Abbreviation Ss := (@Session Expr Select).
Abbreviation reply := (result str (ExecResult (R := ExecOutcome))).
Variable execute : DB -> Statement P -> run (DB * result str ExecOutcome).
Variable statement_to_sql : Statement P -> str.
Variable others : nat -> LockManager -> LockManager.
Variable cancel : nat -> bool.

(** [acquire_lock], at most [fuel] turns; [None] while it is still parked, else
    the lock table, the turns taken so far and the result. *)
Fixpoint acquire_lock (fuel k : nat) (m : LockManager) (p : Z) (obj : LockObject) (mode : LockMode) (nowait : bool)
  : run (option (LockManager * nat * result str unit)) :=
  match fuel with
  | O => Val None
  | S fuel =>
      match acquire_turn (others k m) p obj mode nowait (cancel k) with
      | Panic => Panic
      | Val (m, Acquired) => Val (Some (m, S k, Ok tt))
      | Val (m, Failed e) => Val (Some (m, S k, Err e))
      | Val (m, Parked) => acquire_lock fuel (S k) m p obj mode nowait
      end
  end.

Definition set_locks (sh : Sh) (m : LockManager) : Sh := mk_shared (sh_db sh) (sh_wal sh) (sh_disk sh) (backends sh) (listeners sh) m.

(** [tx.failed = true] and the status byte, when a transaction is open. *)
Definition fail_session (ss : Ss) : Ss :=
  match tx ss with
  | Some t => set_tx ss FAILED_TX (Some (mk_tx (tx_db t) (buffered t) (savepoints t) true (isolation t) (read_only t) (snapshot_version t) (write_set t)))
  | None => ss
  end.

(** ** LOCK TABLE *)



(** ** SELECT ... FOR UPDATE *)

Definition run_plain (sh : Sh) (ss : Ss) (s : Statement P) : run (Sh * Ss * reply) :=
  match tx ss with
  | Some t =>
      if failed t then Val (sh, ss, Err ABORTED)
      else
        '(db, r) ← execute (tx_db t) s;
        let t := mk_tx db (buffered t) (savepoints t) (failed t) (isolation t) (read_only t) (snapshot_version t) (write_set t) in
        let ss := set_tx ss (tx_status ss) (Some t) in
        Val (match r with Ok r => (sh, ss, Ok (Result r)) | Err e => (sh, fail_session ss, Err e) end)
  | None => '(sh, r) ← execute_autocommit execute statement_to_sql sh s; Val (sh, ss, r)
  end.

(** The row loop: the kept rows, or the error. *)
Fixpoint lock_rows (fuel k : nat) (m : LockManager) (p : Z) (target : str) (mode : LockMode) (policy : option RowLockingWaitPolicy)
    (rows : list (list Value)) : run (option (LockManager * nat * result str (list (list Value)))) :=
  match rows with
  | [] => Val (Some (m, k, Ok []))
  | row :: rows =>
      let obj := RowLock target (row_key row) in
      match policy with
      | Some SkipLocked =>
          match skip_locked (others k m) p obj mode with
          | Panic => Panic
          | Val (m, locked) =>
              match lock_rows fuel (S k) m p target mode policy rows with
              | Val (Some (m, k, Ok kept)) => Val (Some (m, k, Ok (if locked : bool then kept else row :: kept)))
              | r => r
              end
          end
      | _ =>
          match acquire_lock fuel k m p obj mode (match policy with Some NoWait => true | _ => false end) with
          | Panic => Panic
          | Val None => Val None
          | Val (Some (m, k, Err e)) => Val (Some (m, k, Err e))
          | Val (Some (m, k, Ok _)) =>
              match lock_rows fuel k m p target mode policy rows with
              | Val (Some (m, k, Ok kept)) => Val (Some (m, k, Ok (row :: kept)))
              | r => r
              end
          end
      end
  end.

(** [run_select_for_locking]; [base] is the first table of the FROM clause. *)
Definition run_select_for_locking (fuel : nat) (sh : Sh) (ss : Ss) (s : Statement P) (cs : list RowLockingClause) (base : option str)
  : run (option (Sh * Ss * reply)) :=
  match run_plain sh ss s with
  | Panic => Panic
  | Val (sh, ss, Ok (Result (Rows fields rows tag))) =>
      match locking_target cs base with
      | None => Val (Some (sh, ss, Ok (Result (Rows fields rows tag))))
      | Some target =>
          match lock_rows fuel 0 (locks sh) (pid ss) target (locking_mode cs) (locking_policy cs) rows with
          | Panic => Panic
          | Val None => Val None
          | Val (Some (m, _, Err e)) => Val (Some (set_locks sh m, fail_session ss, Err e))
          | Val (Some (m, _, Ok kept)) =>
              let tag := if starts_with tag (lit "SELECT") then lit "SELECT " ++ i64_display (zlen kept) else tag in
              Val (Some (set_locks sh m, ss, Ok (Result (Rows fields kept tag))))
          end
      end
  | Val (sh, ss, r) => Val (Some (sh, ss, r))
  end.
End locking.

(** * Specification *)

(** Backend [p] holds [o] in [md] or in a mode that stands later in the mode table.
    [grant] keeps the mode with the larger index, and the index does not order
    the modes by what they conflict with: a backend that holds SHARE and asks for
    ROW SHARE keeps SHARE, and one that holds SHARE and asks for ROW EXCLUSIVE
    keeps SHARE too, which lets other SHARE holders in. *)
Definition HasLock (m : LockManager) (p : Z) (o : LockObject) (md : LockMode) : Prop :=
  exists e, Holds m o e /\ h_pid e = p /\ mode_index md <= mode_index (h_mode e).
(** The other backends leave [p]'s locks alone. *)
Definition respects (others : nat -> LockManager -> LockManager) (p : Z) : Prop :=
  forall k m o md, HasLock m p o md -> HasLock (others k m) p o md.
(** Nobody else takes or gives up a lock. *)
Definition quiet (others : nat -> LockManager -> LockManager) (p : Z) : Prop :=
  forall k m o h, h_pid h <> p -> Holds (others k m) o h <-> Holds m o h.

(** * Proofs *)

Lemma upgrade_spec p mode hs hs' : upgrade p mode hs = Some hs' ->
  (exists e, e ∈ hs' /\ h_pid e = p /\ mode_index mode <= mode_index (h_mode e))
  /\ (forall h, h ∈ hs -> exists h', h' ∈ hs' /\ h_pid h' = h_pid h /\ mode_index (h_mode h) <= mode_index (h_mode h') /\ (h_pid h <> p -> h' = h)).
Proof.
  revert hs'. induction hs as [|x hs IH]; intros hs' E; [done|]. cbn [upgrade] in E. destruct (h_pid x =? p) eqn:Ep; zb.
  - injection E as <-. split.
    + eexists. split; [apply elem_of_cons; by left|]. destruct (_ <? _) eqn:El; zb; [cbn; lia|]. subst. lia.
    + intros h [->|Hh]%elem_of_cons; [|exists h; split_and!; [apply elem_of_cons; by right|done|lia|done]].
      eexists. split; [apply elem_of_cons; by left|]. destruct (_ <? _) eqn:El; zb; cbn; split_and!; try done; lia.
  - destruct (upgrade p mode hs) as [l|]; [|done]. injection E as <-. destruct (IH l eq_refl) as [(e & He & Hp) H]. split.
    + exists e. split; [apply elem_of_cons; by right|done].
    + intros h [->|Hh]%elem_of_cons; [exists x; split_and!; [apply elem_of_cons; by left|done|lia|done]|].
      destruct (H h Hh) as (h' & H1 & H2). exists h'. split; [apply elem_of_cons; by right|done].
Qed.

(** What a grant does to the holders. *)
Lemma grant_holders m p obj mode :
  HasLock (grant m p obj mode) p obj mode
  /\ (forall o h, Holds m o h -> exists h', Holds (grant m p obj mode) o h' /\ h_pid h' = h_pid h
        /\ mode_index (h_mode h) <= mode_index (h_mode h') /\ (h_pid h <> p -> h' = h)).
Proof.
  unfold grant. set (st := default obj_default (m !! obj)).
  set (hs := match upgrade p mode (holders st) with Some hs => hs | None => _ end).
  assert (forall e, Holds (<[obj := mk_obj hs (List.filter (not_pid p) (waiters st))]> m) obj e <-> e ∈ hs) as Ho.
  { intros e. unfold Holds. rewrite lookup_insert_eq. naive_solver. }
  assert ((exists e, e ∈ hs /\ h_pid e = p /\ mode_index mode <= mode_index (h_mode e))
    /\ (forall h, h ∈ holders st -> exists h', h' ∈ hs /\ h_pid h' = h_pid h /\ mode_index (h_mode h) <= mode_index (h_mode h') /\ (h_pid h <> p -> h' = h))) as [He Hh].
  { subst hs. destruct (upgrade p mode (holders st)) as [l|] eqn:E; [by apply upgrade_spec|]. split.
    - exists (mk_holder p mode). split_and!; [apply elem_of_app; right; by apply list_elem_of_singleton|done|cbn; lia].
    - intros h H. exists h. split_and!; [apply elem_of_app; by left|done|lia|done]. }
  split.
  - destruct He as (e & He & Hp & Hm). exists e. split_and!; [by apply Ho|done|done].
  - intros o h H. destruct (decide (o = obj)) as [->|N].
    + destruct (Hh h) as (h' & H1 & H2); [subst st; by apply default_holders|]. exists h'. split; [by apply Ho|done].
    + exists h. split_and!; [|done|lia|done]. destruct H as (st' & E & H). exists st'. by rewrite lookup_insert_ne.
Qed.

Lemma grant_keeps_lock m p obj mode o md : HasLock m p o md -> HasLock (grant m p obj mode) p o md.
Proof.
  intros (e & H & Hp & Hm). destruct (proj2 (grant_holders m p obj mode) o e H) as (e' & H1 & H2 & H3 & _).
  exists e'. split_and!; [done|congruence|lia].
Qed.

Lemma locked_by_other_spec m p o mode : is_locked_by_other m p o mode = true <-> exists h, Holds m o h /\ h_pid h <> p /\ conflicts_with (h_mode h) mode = true.
Proof.
  unfold is_locked_by_other, Holds. destruct (m !! o) as [st|]; [|naive_solver]. rewrite existsb_exists. setoid_rewrite <- list_elem_of_In.
  setoid_rewrite blocks_spec. naive_solver.
Qed.

Lemma locked_by_other_grant m p obj md o mode : is_locked_by_other (grant m p obj md) p o mode = is_locked_by_other m p o mode.
Proof.
  apply eq_bool_prop_intro. rewrite !Is_true_true, !locked_by_other_spec. split.
  - intros (h & H & N & C). exists h. split_and!; [|done|done]. apply grant_mem in H as [H|[_ ->]]; [done|by cbn in N].
  - intros (h & H & N & C). destruct (proj2 (grant_holders m p obj md) o h H) as (h' & H1 & _ & _ & E). exists h. by rewrite <- (E N) at 1.
Qed.

Lemma grant_quiet m p obj mode o h : h_pid h <> p -> Holds (grant m p obj mode) o h <-> Holds m o h.
Proof.
  intros N. split.
  - intros H. apply grant_mem in H as [H|[_ ->]]; [done|by cbn in N].
  - intros H. destruct (proj2 (grant_holders m p obj mode) o h H) as (h' & H' & _ & _ & Eh). by rewrite <- (Eh N).
Qed.







(** The rows of SKIP LOCKED. *)
Definition free_row (m : LockManager) (p : Z) (target : str) (mode : LockMode) (row : list Value) : bool :=
  negb (is_locked_by_other m p (RowLock target (row_key row)) mode).

Lemma locked_by_other_quiet others p k m o mode : quiet others p -> is_locked_by_other (others k m) p o mode = is_locked_by_other m p o mode.
Proof. intros Q. apply eq_bool_prop_intro. rewrite !Is_true_true, !locked_by_other_spec. split; intros (h & H & N & C); exists h; split_and!; try done; by apply (Q k m). Qed.

(** One row of SKIP LOCKED. *)
Lemma skip_locked_cases m p o mode :
  (is_locked_by_other m p o mode = true /\ skip_locked m p o mode = Val (m, true))
  \/ (is_locked_by_other m p o mode = false /\ skip_locked m p o mode = Val (grant m p o mode, false)).
Proof.
  unfold skip_locked. destruct (is_locked_by_other m p o mode) eqn:El; [by left|right].
  destruct (try_acquire_cases m p o mode) as [[-> _]|[(h & Hh & N & C) _]]; [done|].
  exfalso. assert (is_locked_by_other m p o mode = true) by (apply locked_by_other_spec; by exists h). congruence.
Qed.

Lemma skip_rows_ok others cancel p target mode fuel rows : respects others p -> quiet others p -> forall k m, exists m' k',
  lock_rows others cancel fuel k m p target mode (Some SkipLocked) rows = Val (Some (m', k', Ok (List.filter (free_row m p target mode) rows)))
  /\ (forall row, row ∈ List.filter (free_row m p target mode) rows -> HasLock m' p (RowLock target (row_key row)) mode)
  /\ (forall o md, HasLock m p o md -> HasLock m' p o md)
  /\ (forall o h, h_pid h <> p -> Holds m' o h <-> Holds m o h).
Proof.
  intros R Q. induction rows as [|row rows IH]; intros k m; cbn [lock_rows List.filter].
  { exists m, k. split_and!; [done|by intros row ?%elem_of_nil|done|done]. }
  unfold free_row at 1 4. rewrite <- (locked_by_other_quiet others p k m _ mode Q).
  destruct (skip_locked_cases (others k m) p (RowLock target (row_key row)) mode) as [[-> ->]|[-> ->]]; cbn [negb].
  all: match goal with |- context [lock_rows _ _ _ _ ?m1 _ _ _ _ _] => destruct (IH (S k) m1) as (m' & k' & -> & H1 & H2 & H3);
    assert (List.filter (free_row m1 p target mode) rows = List.filter (free_row m p target mode) rows) as E end.
  1, 3: apply List.filter_ext; intros r; unfold free_row; rewrite ?locked_by_other_grant, locked_by_other_quiet by done; done.
  all: rewrite E in H1 |- *; exists m', k'; split_and!; [done| | |].
  - done.
  - intros o md H. by apply H2, R.
  - intros o h N. by rewrite H3, (Q k m).
  - intros r [->|Hr]%elem_of_cons; [|by apply H1]. apply H2, grant_holders.
  - intros o md H. by apply H2, grant_keeps_lock, R.
  - intros o h N. by rewrite H3, grant_quiet, (Q k m).
Qed.

(** ** Theorems *)



Definition toy_lock_session : @Session unit unit :=
  set_tx (session_new 1) IN_TX (Some (mk_tx (set_tables db_new {[ lit "t" := table_new (lit "t") [] ]}) [] [] false ReadCommitted false 0 ∅)).
Definition toy_lock_shared : @Shared unit unit := mk_shared db_new None None ∅ ∅ ∅.


(** C33: SELECT ... FOR UPDATE SKIP LOCKED, while nobody else takes or gives up a
    lock.  It never waits or fails for a lock: the rows it returns are exactly those
    of the query that no other backend holds in a conflicting mode, in order; the backend then holds a lock on each of them, keeps
    the locks it had, and nobody else's locks change. *)
Theorem skip_locked_exact {Expr Select P} (execute : Database Expr Select -> Statement P -> run (Database Expr Select * result str ExecOutcome)) to_sql
    others cancel fuel sh ss s cs base sh1 ss1 fields rows tag target :
  respects others (pid ss1) -> quiet others (pid ss1) ->
  run_plain execute to_sql sh ss s = Val (sh1, ss1, Ok (Result (Rows fields rows tag))) ->
  locking_target cs base = Some target -> locking_policy cs = Some SkipLocked ->
  let kept := List.filter (free_row (locks sh1) (pid ss1) target (locking_mode cs)) rows in
  exists sh' tag', run_select_for_locking execute to_sql others cancel fuel sh ss s cs base = Val (Some (sh', ss1, Ok (Result (Rows fields kept tag'))))
  /\ (forall row, row ∈ kept -> HasLock (locks sh') (pid ss1) (RowLock target (row_key row)) (locking_mode cs))
  /\ (forall o md, HasLock (locks sh1) (pid ss1) o md -> HasLock (locks sh') (pid ss1) o md)
  /\ (forall o h, h_pid h <> pid ss1 -> Holds (locks sh') o h <-> Holds (locks sh1) o h).
Proof.
  intros R Q Hp Ht Hs kept. unfold run_select_for_locking. rewrite Hp, Ht, Hs.
  destruct (skip_rows_ok others cancel (pid ss1) target (locking_mode cs) fuel rows R Q 0 (locks sh1)) as (m' & k' & -> & H).
  eexists (set_locks sh1 m'), _. split; [reflexivity|exact H].
Qed.

Definition toy_rows (db : Database unit unit) (s : Statement unit) : run (Database unit unit * result str ExecOutcome) :=
  Val (db, Ok (Rows [mk_field (lit "id") TInt4] [[Int 1]; [Int 2]] (lit "SELECT 2"))).
Definition toy_held : @Shared unit unit := set_locks toy_lock_shared (grant ∅ 2 (RowLock (lit "t") (row_key [Int 1])) Exclusive).
Definition toy_clause (w : option RowLockingWaitPolicy) : list RowLockingClause := [mk_clause Update [] w].

Lemma skip_locked_exact_witness :
  exists sh' tag', run_select_for_locking toy_rows (fun _ => []) (fun _ m => m) (fun _ => false) 1 toy_held toy_lock_session (SOther tt)
      (toy_clause (Some SkipLocked)) (Some (lit "t"))
    = Val (Some (sh', toy_lock_session, Ok (Result (Rows [mk_field (lit "id") TInt4] [[Int 2]] tag'))))
  /\ HasLock (locks sh') 1 (RowLock (lit "t") (row_key [Int 2])) Exclusive.
Proof.
  destruct (skip_locked_exact toy_rows (fun _ => []) (fun _ m => m) (fun _ => false) 1 toy_held toy_lock_session (SOther tt)
    (toy_clause (Some SkipLocked)) (Some (lit "t")) toy_held toy_lock_session [mk_field (lit "id") TInt4] [[Int 1]; [Int 2]] (lit "SELECT 2") (lit "t"))
    as (sh' & tag' & E & H & _); [intros k m o md H; exact H|intros k m o h N; reflexivity|reflexivity..|].
  assert (List.filter (free_row (locks toy_held) (pid toy_lock_session) (lit "t") (locking_mode (toy_clause (Some SkipLocked)))) [[Int 1]; [Int 2]]
    = [[Int 2]]) as Ek by (vm_compute; reflexivity).
  rewrite Ek in E, H. exists sh', tag'. split; [exact E|]. apply H. apply elem_of_cons. by left.
Defined.

(** Outside a transaction the row locks outlive the statement: nothing releases
    them before the session's next COMMIT or ROLLBACK, or its end. *)
Lemma locking_select_keeps_locks :
  match run_select_for_locking toy_rows (fun _ => []) (fun _ m => m) (fun _ => false) 1 toy_lock_shared (session_new 1) (SOther tt)
    (toy_clause None) (Some (lit "t")) with
  | Val (Some (sh', ss', Ok _)) => tx ss' = None /\ is_locked_by_other (locks sh') 2 (RowLock (lit "t") (row_key [Int 1])) Exclusive = true
  | _ => False
  end.
Proof. vm_compute. by split. Qed.

(** The lock of a row depends on the columns that were selected: two sessions that
    select different columns of the same rows FOR UPDATE both get their locks. *)
Lemma row_key_depends_on_projection :
  is_locked_by_other (grant ∅ 1 (RowLock (lit "t") (row_key [Int 1])) Exclusive) 2 (RowLock (lit "t") (row_key [Int 1; Text (lit "a")])) Exclusive = false.
Proof. vm_compute. reflexivity. Qed.
