(* ===== verification/Copy.v ===== *)
(** COPY of crates/server/src/server.rs: the text, CSV and binary formats, the
    COPY sub-protocol with the client and COPY to and from a server-side file.
    The executor, the serializer and the SQL parser are parameters, as in [Txn];
    the file system is a map from paths to contents. *)

From stdpp Require Import gmap.
From S2P Require Import Prelude Utf8 Numeric Types Float Storage Database Disk Txn Protocol Wire.

#[local] Open Scope Z_scope.

(** * The statement *)

Inductive CopyDirection := CopyFrom | CopyTo.
Inductive CopyTarget := Stdin | Stdout | File (path : str).
Inductive CopyFormat := FText | FCsv | FBinary.
#[export] Instance copy_format_eq_dec : EqDecision CopyFormat.
Proof. solve_decision. Defined.

(** [Copy]; a delimiter is the UTF-8 encoding of its character, and [Q] is a
    parsed query. *)
Record Copy (Q : Type) := mk_copy {
  c_table : str;
  c_query : option Q;
  c_columns : option (list str);
  c_direction : CopyDirection;
  c_target : CopyTarget;
  c_format : CopyFormat;
  c_delimiter : option str;
  c_header : bool;
  c_null : option str
}.
Arguments mk_copy {Q}.
Arguments c_table {Q}.
Arguments c_query {Q}.
Arguments c_columns {Q}.
Arguments c_direction {Q}.
Arguments c_target {Q}.
Arguments c_format {Q}.
Arguments c_delimiter {Q}.
Arguments c_header {Q}.
Arguments c_null {Q}.

Definition copy_delimiter {Q} (c : Copy Q) : str :=
  default (match c_format c with FCsv => lit "," | FText | FBinary => [9] end) (c_delimiter c).
Definition copy_null_marker {Q} (c : Copy Q) : str :=
  default (match c_format c with FCsv => [] | FText | FBinary => [92; 78] end) (c_null c).

(** * Text and CSV fields *)

Definition encode_copy_field (value : option str) (delimiter null_marker : str) (csv : bool) : str :=
  match value with
  | None => null_marker
  | Some s =>
      if csv then
        if substring delimiter s || substring [34] s || substring [10] s || substring [13] s
        then 34 :: replace_char 34 [34; 34] s ++ [34]
        else s
      else replace_char 13 [92; 114] (replace_char 10 [92; 110] (replace_char 9 [92; 116] (replace_char 92 [92; 92] s)))
  end.

(** [unescape_text_field]; a character after a backslash stands for itself but
    for the three letters. *)
Fixpoint unescape_text_field (s : str) : str :=
  match s with
  | [] => []
  | c :: s =>
      if c =? 92 then
        match s with
        | [] => [92]
        | o :: s => (if o =? 116 then 9 else if o =? 110 then 10 else if o =? 114 then 13 else o) :: unescape_text_field s
        end
      else c :: unescape_text_field s
  end.

(** [line.split(delimiter)]; [skip] counts the bytes of a delimiter still to
    pass over. *)
Fixpoint split_str (delim : str) (skip : nat) (s : str) : list str :=
  match s with
  | [] => [[]]
  | c :: s' =>
      match skip with
      | S k => split_str delim k s'
      | O => if starts_with s delim then [] :: split_str delim (length delim - 1) s'
             else match split_str delim 0 s' with p :: ps => (c :: p) :: ps | [] => [[c]] end
      end
  end.

Definition parse_text_line (line delimiter null_marker : str) : list (option str) :=
  (fun tok => if str_eqb tok null_marker then None else Some (unescape_text_field tok)) <$> split_str delimiter 0 line.

Definition finish_csv_field (value : str) (was_quoted : bool) (null_marker : str) : option str :=
  if negb was_quoted && str_eqb value null_marker then None else Some value.

(** The loop of [parse_csv_line], field by field. *)
Fixpoint csv_loop (delim null_marker cur : str) (in_quotes was_quoted : bool) (skip : nat) (s : str) : list (option str) :=
  match s with
  | [] => [finish_csv_field cur was_quoted null_marker]
  | c :: s' =>
      match skip with
      | S k => csv_loop delim null_marker cur in_quotes was_quoted k s'
      | O =>
          if in_quotes then
            if c =? 34 then
              match s' with
              | c' :: _ => if c' =? 34 then csv_loop delim null_marker (cur ++ [34]) true was_quoted 1 s'
                           else csv_loop delim null_marker cur false was_quoted 0 s'
              | [] => csv_loop delim null_marker cur false was_quoted 0 s'
              end
            else csv_loop delim null_marker (cur ++ [c]) true was_quoted 0 s'
          else if c =? 34 then csv_loop delim null_marker cur true true 0 s'
          else if starts_with s delim then
            finish_csv_field cur was_quoted null_marker :: csv_loop delim null_marker [] false false (length delim - 1) s'
          else csv_loop delim null_marker (cur ++ [c]) false was_quoted 0 s'
      end
  end.
Definition parse_csv_line (line delimiter null_marker : str) : list (option str) := csv_loop delimiter null_marker [] false false 0 line.

(** * Rows *)

(** [fields.join(delimiter)] *)
Fixpoint join_with (sep : str) (l : list str) : str :=
  match l with
  | [] => []
  | [x] => x
  | x :: l => x ++ sep ++ join_with sep l
  end.

Definition copy_line (delimiter null_marker : str) (csv : bool) (fields : list (option str)) : str :=
  join_with delimiter ((fun v => encode_copy_field v delimiter null_marker csv) <$> fields) ++ [10].

(** ** The binary format *)

Definition COPY_BINARY_SIGNATURE : list Z := [80; 71; 67; 79; 80; 89; 10; 255; 13; 10; 0].

Definition encode_binary_field (fields : list FieldDescription) (iv : nat * Value) : list Z :=
  match encode_value iv.2 (default TText (f_type <$> fields !! iv.1)) 1 with
  | Some bytes => be_bytes 4 (zlen bytes) ++ bytes
  | None => be_bytes 4 (-1)
  end.
Definition encode_copy_binary (fields : list FieldDescription) (rows : list (list Value)) : list Z :=
  COPY_BINARY_SIGNATURE ++ be_bytes 4 0 ++ be_bytes 4 0
  ++ flat_map (fun row => be_bytes 2 (zlen row) ++ flat_map (encode_binary_field fields) (enumerate row)) rows
  ++ be_bytes 2 (-1).

Definition decode_binary_value (bytes : list Z) (dt : DataType) : result str Value :=
  match dt with
  | TBool => Ok (Bool (negb (default 0 (head bytes) =? 0)))
  | TInt2 => fixed_i 2 (lit "int2") bytes
  | TInt4 => fixed_i 4 (lit "int4") bytes
  | TInt8 => fixed_i 8 (lit "int8") bytes
  | TFloat4 => (fun v => Float (f32_as_f64 v)) <$> fixed_be 4 (lit "float4") bytes
  | TFloat8 => Float <$> fixed_be 8 (lit "float8") bytes
  | _ => Ok (Text (from_utf8_lossy bytes))
  end.

Definition TRUNCATED : str := lit "malformed binary COPY data: unexpected end of stream".

(** [need(pos, n)?] and the read of [n] bytes at [pos]; [pos + n] is computed on
    [usize]: when it wraps around, the check passes and the slice, which ends before
    it starts, panics. *)
Definition need (buf : list Z) (pos n : Z) : res str unit :=
  if 2 ^ 64 <=? pos + n then Panic else if zlen buf <? pos + n then fail TRUNCATED else mret tt.
Definition take_at (buf : list Z) (pos n : Z) : res str (list Z) :=
  _ ← need buf pos n; mret (zslice pos (pos + n) buf).

(** One field, its length as the [i32] read; [as usize] of a negative length is
    beyond every buffer. *)
Definition decode_field (buf : list Z) (types : list DataType) (pos : Z) (i : nat) : res str (Value * Z) :=
  lenb ← take_at buf pos 4;
  let len := to_signed 32 (be_val lenb) in
  let pos := pos + 4 in
  if len =? -1 then mret (Null, pos)
  else
    let len := wrap 64 len in
    bytes ← take_at buf pos len;
    v ← (Val (decode_binary_value bytes (default TText (types !! i))) : res str Value);
    mret (v, pos + len).

Fixpoint decode_fields (buf : list Z) (types : list DataType) (pos : Z) (i n : nat) : res str (list Value * Z) :=
  match n with
  | O => mret ([], pos)
  | S n =>
      '(v, pos) ← decode_field buf types pos i;
      '(vs, pos) ← decode_fields buf types pos (S i) n;
      mret (v :: vs, pos)
  end.

(** The row loop; every row takes at least two bytes.  [Vec::with_capacity] of a
    negative count cast to [usize] panics. *)
Fixpoint decode_rows (fuel : nat) (buf : list Z) (types : list DataType) (pos : Z) : res str (list (list Value)) :=
  match fuel with
  | O => Panic
  | S fuel =>
      nb ← take_at buf pos 2;
      let n := to_signed 16 (be_val nb) in
      if n =? -1 then mret []
      else if n <? 0 then Panic
      else
        '(row, pos) ← decode_fields buf types (pos + 2) 0 (Z.to_nat n);
        rows ← decode_rows fuel buf types pos;
        mret (row :: rows)
  end.

Definition decode_copy_binary (buf : list Z) (types : list DataType) : res str (list (list Value)) :=
  sig ← take_at buf 0 (zlen COPY_BINARY_SIGNATURE);
  if negb (str_eqb sig COPY_BINARY_SIGNATURE) then fail (lit "invalid binary COPY signature")
  else
    let pos := zlen COPY_BINARY_SIGNATURE in
    hdr ← take_at buf pos 8;
    let ext_len := to_signed 32 (be_val (zdrop 4 hdr)) in
    let pos := pos + 8 in
    if ext_len <? 0 then fail (lit "invalid binary COPY header extension length")
    else decode_rows (S (length buf)) buf types (pos + ext_len).

(** ** Payloads *)

Definition encode_copy_payload {Q} (fields : list FieldDescription) (rows : list (list Value)) (c : Copy Q)
    (delimiter null_marker : str) : list Z :=
  if bool_decide (c_format c = FBinary) then encode_copy_binary fields rows
  else
    let csv := bool_decide (c_format c = FCsv) in
    (if c_header c && csv then copy_line delimiter null_marker csv ((fun f => Some (f_name f)) <$> fields) else [])
    ++ flat_map (fun row => copy_line delimiter null_marker csv (to_text <$> row)) rows.

(** The literals COPY inserts. *)
Inductive LitExpr := ENull | EInt (i : Z) | EFloat (bits : Z) | EStr (s : str) | EBool (b : bool) | ECast (e : LitExpr) (dt : DataType).
Definition value_to_expr (v : Value) : LitExpr :=
  match v with
  | Null => ENull
  | Int i => EInt i
  | Float f => EFloat f
  | Num n => ECast (EStr (to_canonical_string n)) TNumeric
  | Text s => EStr s
  | Bool b => EBool b
  end.
Definition text_expr (f : option str) : LitExpr := match f with Some s => EStr s | None => ENull end.

(** The line loop of [copy_from_bytes]. *)
Fixpoint copy_lines (csv header first : bool) (delimiter null_marker : str) (raw : list str) : list (list (option str)) :=
  match raw with
  | [] => []
  | raw_line :: raw =>
      let line := strip_cr raw_line in
      if negb csv && str_eqb line [92; 46] then []
      else if str_eqb line [] && str_eqb raw_line [] then copy_lines csv header first delimiter null_marker raw
      else if first && header then copy_lines csv header false delimiter null_marker raw
      else (if csv then parse_csv_line line delimiter null_marker else parse_text_line line delimiter null_marker)
             :: copy_lines csv header false delimiter null_marker raw
  end.

Definition copy_rows_of_text {Q} (c : Copy Q) (delimiter null_marker : str) (buf : list Z) : list (list (option str)) :=
  let csv := bool_decide (c_format c = FCsv) in
  copy_lines csv (c_header c) true delimiter null_marker (split 10 (from_utf8_lossy buf)).

(** * Handlers *)

Section copy.
(** [run_stmt] is [run_statement], [parse_sql] is [Parser::parse_sql], [select_stmt]
    the statement of a parsed query, and [insert_payload columns rows] what the
    executor needs of the bulk INSERT besides its table. *)
Context {Expr Select P : Type}.
Abbreviation DB := (Database Expr Select).
Abbreviation Stmt := (Statement P).
Abbreviation Sh := (@Shared Expr Select).
Abbreviation Ss := (@Session Expr Select).
Abbreviation reply := (result str (ExecResult (R := ExecOutcome))).
Variable run_stmt : Sh -> Ss -> Stmt -> run (Sh * Ss * reply).
Variable parse_sql : str -> res str (list Stmt).
Variable select_stmt : Select -> Stmt.
Variable insert_payload : option (list str) -> list (list LitExpr) -> P.
Abbreviation CopyStmt := (Copy Select).

(** The database a session reads: its working copy or the shared one. *)
Definition session_db (sh : Sh) (ss : Ss) : DB := match tx ss with Some t => tx_db t | None => sh_db sh end.

Definition copy_columns (sh : Sh) (ss : Ss) (table : str) (explicit : option (list str)) : result str (list str) :=
  match explicit with
  | Some cols => Ok cols
  | None =>
      match table with
      | [] => Ok []
      | _ => ok_or (column_names <$> tables (session_db sh ss) !! table) (does_not_exist table)
      end
  end.

Definition copy_column_types (sh : Sh) (ss : Ss) (table : str) (columns : list str) : result str (list DataType) :=
  match tables (session_db sh ss) !! table with
  | None => Err (does_not_exist table)
  | Some t =>
      mapM (fun name => ok_or (data_type <$> find (fun c => str_eqb (col_name c) name) (Storage.columns t))
                          (lit "column " ++ quoted name ++ lit " of relation " ++ quoted table ++ lit " does not exist")) columns
  end.

(** The query text of [COPY table TO]. *)
Definition copy_select_sql (table : str) (columns : list str) : str :=
  lit "SELECT " ++ join_with (lit ", ") ((fun c => 34 :: replace_char 34 [34; 34] c ++ [34]) <$> columns) ++ lit " FROM " ++ table.

Definition copy_to_rows (sh : Sh) (ss : Ss) (c : CopyStmt) (columns : list str)
  : run (Sh * Ss * result str (list FieldDescription * list (list Value))) :=
  match (match c_query c with
         | Some q => mret (select_stmt q)
         | None =>
             stmts ← parse_sql (copy_select_sql (c_table c) columns);
             match stmts with s :: _ => mret s | [] => fail (lit "COPY TO produced no query") end
         end : res str Stmt) with
  | Panic => Panic
  | Val (Err e) => Val (sh, ss, Err e)
  | Val (Ok s) =>
      '(sh, ss, r) ← run_stmt sh ss s;
      Val (sh, ss, match r with
                   | Ok (Result (Rows fields rows _)) => Ok (fields, rows)
                   | Ok _ => Err (lit "COPY TO source did not return rows")
                   | Err e => Err e
                   end)
  end.

(** The tuples a payload stands for. *)
Definition copy_tuples (sh : Sh) (ss : Ss) (c : CopyStmt) (columns : list str) (delimiter null_marker : str) (buf : list Z)
  : res str (list (list LitExpr)) :=
  if bool_decide (c_format c = FBinary) then
    match copy_column_types sh ss (c_table c) columns with
    | Err e => fail e
    | Ok types => rows ← decode_copy_binary buf types; mret (map (map value_to_expr) rows)
    end
  else mret (map (map text_expr) (copy_rows_of_text c delimiter null_marker buf)).

Definition copy_from_bytes (sh : Sh) (ss : Ss) (c : CopyStmt) (columns : list str) (delimiter null_marker : str) (buf : list Z)
  : run (Sh * Ss * result str Z) :=
  match copy_tuples sh ss c columns delimiter null_marker buf with
  | Panic => Panic
  | Val (Err e) => Val (sh, ss, Err e)
  | Val (Ok []) => Val (sh, ss, Ok 0)
  | Val (Ok rows) =>
      '(sh, ss, r) ← run_stmt sh ss (SInsert (c_table c) (insert_payload (c_columns c) rows));
      Val (sh, ss, match r with Ok _ => Ok (zlen rows) | Err e => Err e end)
  end.

(** ** COPY with a file *)

Abbreviation FS := (gmap str (list Z)).

(** [run_copy_file]; [read_error] is the operating system's message for a file
    that cannot be read.  Writing a file succeeds. *)
Definition copy_done (n : Z) : ExecResult (R := ExecOutcome) := Txn.Command (lit "COPY " ++ i64_display n).
Definition run_copy_file (read_error : str) (fs : FS) (sh : Sh) (ss : Ss) (c : CopyStmt)
  : run (FS * Sh * Ss * result str (ExecResult (R := ExecOutcome))) :=
  match c_target c with
  | File path =>
      match copy_columns sh ss (c_table c) (c_columns c) with
      | Err e => Val (fs, sh, ss, Err e)
      | Ok columns =>
          let delimiter := copy_delimiter c in
          let null_marker := copy_null_marker c in
          match c_direction c with
          | CopyTo =>
              match copy_to_rows sh ss c columns with
              | Panic => Panic
              | Val (sh, ss, Err e) => Val (fs, sh, ss, Err e)
              | Val (sh, ss, Ok (fields, rows)) =>
                  Val (<[path := encode_copy_payload fields rows c delimiter null_marker]> fs, sh, ss, Ok (copy_done (zlen rows)))
              end
          | CopyFrom =>
              match fs !! path with
              | None => Val (fs, sh, ss, Err (lit "could not read COPY source " ++ quoted path ++ lit ": " ++ read_error))
              | Some buf =>
                  match copy_from_bytes sh ss c columns delimiter null_marker buf with
                  | Panic => Panic
                  | Val (sh, ss, Err e) => Val (fs, sh, ss, Err e)
                  | Val (sh, ss, Ok n) => Val (fs, sh, ss, Ok (copy_done n))
                  end
              end
          end
      end
  | _ => Val (fs, sh, ss, Err (lit "COPY STDIN/STDOUT must use the COPY sub-protocol"))
  end.

(** ** The COPY sub-protocol *)

Definition copy_response (tag code : Z) (n : nat) : list Z :=
  finish (foldl (fun mb _ => put_i16 code mb) (put_i16 (Z.of_nat n) (put_u8 code (mb_new tag))) (replicate n tt)).

Definition copy_to_stdout (sh : Sh) (ss : Ss) (c : CopyStmt) (columns : list str) : run (Sh * Ss * list Z * result str unit) :=
  match copy_to_rows sh ss c columns with
  | Panic => Panic
  | Val (sh, ss, Err e) => Val (sh, ss, [], Err e)
  | Val (sh, ss, Ok (fields, rows)) =>
      let code := if bool_decide (c_format c = FBinary) then 1 else 0 in
      let payload := encode_copy_payload fields rows c (copy_delimiter c) (copy_null_marker c) in
      Val (sh, ss, copy_response 72 code (length fields) ++ finish (put_bytes payload (mb_new 100)) ++ send_simple 99
                   ++ send_command_complete (lit "COPY " ++ i64_display (zlen rows)), Ok tt)
  end.

(** The messages of a COPY FROM STDIN; every message takes at least five bytes.
    The outer error ends the connection. *)
Fixpoint copy_collect (fuel : nat) (buf : list Z) (input : list Z) : res ProtoError (result str (list Z) * list Z) :=
  match fuel with
  | O => Panic
  | S fuel =>
      '(m, input) ← read_message input;
      match m with
      | Some (CopyData chunk) => copy_collect fuel (buf ++ chunk) input
      | Some CopyDone => mret (Ok buf, input)
      | Some (CopyFail msg) => mret (Err (lit "COPY from stdin failed: " ++ msg), input)
      | Some Flush => copy_collect fuel buf input
      | None | Some Terminate => fail UnexpectedEof
      | Some _ => mret (Err (lit "unexpected message during COPY FROM STDIN"), input)
      end
  end.

Definition copy_from_stdin (sh : Sh) (ss : Ss) (c : CopyStmt) (columns : list str) (input : list Z)
  : res ProtoError (Sh * Ss * list Z * result str unit * list Z) :=
  let hello := copy_response 71 0 (length columns) in
  '(buf, input) ← copy_collect (S (length input)) [] input;
  match buf with
  | Err e => mret (sh, ss, hello, Err e, input)
  | Ok buf =>
      '(sh, ss, r) ← lift (copy_from_bytes sh ss c columns (copy_delimiter c) (copy_null_marker c) buf);
      match r with
      | Err e => mret (sh, ss, hello, Err e, input)
      | Ok n => mret (sh, ss, hello ++ send_command_complete (lit "COPY " ++ i64_display n), Ok tt, input)
      end
  end.

(** [run_copy]: the new state, what was sent, the SQL error if any, and the
    input that is left. *)
Definition run_copy (sh : Sh) (ss : Ss) (c : CopyStmt) (input : list Z)
  : res ProtoError (Sh * Ss * list Z * result str unit * list Z) :=
  match copy_columns sh ss (c_table c) (c_columns c) with
  | Err e => mret (sh, ss, [], Err e, input)
  | Ok columns =>
      match c_direction c with
      | CopyTo => '(sh, ss, out, r) ← lift (copy_to_stdout sh ss c columns); mret (sh, ss, out, r, input)
      | CopyFrom => copy_from_stdin sh ss c columns input
      end
  end.
End copy.

(** * Specification *)

(** The rows the text format carries: at least one column, and not just one
    empty string. *)
Definition text_row_ok (row : list (option str)) : Prop :=
  row <> [] /\ row <> [Some []] /\ Forall (fun f => match f with Some s => utf8_valid s = true | None => True end) row.

(** CSV also loses empty strings, embedded newlines and a lone NULL. *)
Definition csv_field_ok (f : option str) : Prop :=
  match f with Some s => s <> [] /\ Forall (fun c => c <> 10) s /\ utf8_valid s = true | None => True end.
Definition csv_row_ok (row : list (option str)) : Prop := row <> [] /\ row <> [None] /\ Forall csv_field_ok row.

(** The result sets that survive COPY in the format and options of [c]. *)
Definition copyable {Q} (c : Copy Q) (fields : list FieldDescription) (rows : list (list Value)) : Prop :=
  match c_format c with
  | FText => c_header c = false /\ Forall (fun row => text_row_ok (to_text <$> row)) rows
  | FCsv =>
      Forall (fun row => csv_row_ok (to_text <$> row)) rows
      /\ (c_header c = true -> csv_row_ok ((fun f => Some (f_name f)) <$> fields))
  | FBinary =>
      zlen (encode_copy_binary fields rows) < 2 ^ 31
      /\ Forall (fun row => length row = length fields /\ zlen row < 2 ^ 15
           /\ forall i f v, fields !! i = Some f -> row !! i = Some v -> transmits (f_type f) 1 v) rows
  end.

(** The literal a value comes back as. *)
Definition copy_literal {Q} (c : Copy Q) (v : Value) : LitExpr :=
  if bool_decide (c_format c = FBinary) then value_to_expr v else text_expr (to_text v).

(** * Proofs *)

(** ** UTF-8 *)

(** Rewriting ASCII bytes to ASCII text keeps a string valid. *)
Lemma flat_map_valid (f : Z -> str) s :
  (forall c, c < 128 -> Forall (fun b => b < 128) (f c)) -> (forall c, 128 <= c -> f c = [c]) ->
  utf8_valid s = true -> utf8_valid (flat_map f s) = true.
Proof.
  intros Ha Hb. revert s. apply utf8_valid_ind; [done|]. intros ch rest Hc _ IH. rewrite flat_map_app.
  destruct (char_ok_bytes ch Hc) as [(c & -> & H)|F].
  - cbn [flat_map]. rewrite app_nil_r. apply utf8_valid_app; [|done]. by apply utf8_valid_ascii, Ha.
  - replace (flat_map f ch) with ch; [by rewrite utf8_valid_char|]. clear -F Hb. induction F as [|c ch Hc F IH]; [done|].
    cbn [flat_map]. rewrite <- IH, Hb by done. done.
Qed.

Lemma concat_valid l : Forall (fun s => utf8_valid s = true) l -> utf8_valid (concat l) = true.
Proof. induction 1 as [|s l Hs _ IH]; [done|]. cbn [concat]. by apply utf8_valid_app. Qed.

Lemma join_valid sep l : utf8_valid sep = true -> Forall (fun s => utf8_valid s = true) l -> utf8_valid (join_with sep l) = true.
Proof.
  intros Hs. induction 1 as [|s l V F IH]; [done|]. cbn [join_with]. destruct l; [done|]. by repeat apply utf8_valid_app.
Qed.

(** ** Escaping *)

Definition text_esc (c : Z) : str :=
  if c =? 92 then [92; 92] else if c =? 9 then [92; 116] else if c =? 10 then [92; 110] else if c =? 13 then [92; 114] else [c].

Lemma encode_text_field d nm s : encode_copy_field (Some s) d nm false = flat_map text_esc s.
Proof.
  cbn [encode_copy_field]. unfold replace_char. induction s as [|c s IH]; [done|]. cbn [flat_map]. rewrite !flat_map_app, IH. f_equal.
  unfold text_esc. destruct (c =? 92) eqn:E1; [done|]. destruct (c =? 9) eqn:E2; cbn [flat_map]; rewrite ?E2; [done|]. cbn [flat_map].
  destruct (c =? 10) eqn:E3; cbn [app flat_map]; rewrite ?E3; [done|]. cbn [app flat_map]. by destruct (c =? 13) eqn:E4.
Qed.

Lemma copy_unescape_escape s : unescape_text_field (flat_map text_esc s) = s.
Proof.
  induction s as [|c s IH]; [done|]. cbn [flat_map]. unfold text_esc at 1.
  destruct (c =? 92) eqn:E1; [zb; subst; cbn; by rewrite IH|]. destruct (c =? 9) eqn:E2; [zb; subst; cbn; by rewrite IH|].
  destruct (c =? 10) eqn:E3; [zb; subst; cbn; by rewrite IH|]. destruct (c =? 13) eqn:E4; [zb; subst; cbn; by rewrite IH|].
  cbn [app unescape_text_field]. rewrite E1. by rewrite IH.
Qed.

Lemma copy_escape_clean s : Forall (fun c => c <> 9 /\ c <> 10 /\ c <> 13) (flat_map text_esc s).
Proof.
  induction s as [|c s IH]; [done|]. cbn [flat_map]. apply Forall_app. split; [|done]. unfold text_esc.
  repeat case_match; zb; repeat constructor; lia.
Qed.

Lemma escape_markers s : flat_map text_esc s <> [92; 78] /\ flat_map text_esc s <> [92; 46].
Proof.
  destruct s as [|c s]; [done|]. cbn [flat_map]. unfold text_esc. repeat case_match; cbn [app]; try done. zb.
  split; intros [= Hc]; lia.
Qed.

Lemma escape_nil s : flat_map text_esc s = [] -> s = [].
Proof. destruct s as [|c s]; [done|]. cbn [flat_map]. unfold text_esc. by repeat case_match. Qed.

(** ** Lines *)

Lemma split_str_byte b : forall s, split_str [b] 0 s = split b s.
Proof.
  induction s as [|c s IH]; [done|]. cbn [split_str split]. unfold starts_with. cbn [length take Nat.sub].
  destruct (c =? b) eqn:E.
  - zb. subst. rewrite bool_decide_eq_true_2 by (by destruct s). by rewrite IH.
  - rewrite bool_decide_eq_false_2; [by rewrite IH|]. zb. destruct s; cbn; congruence.
Qed.

Lemma split_join b l : l <> [] -> Forall (Forall (fun x => x <> b)) l -> split b (join_with [b] l) = l.
Proof.
  intros N F. induction F as [|s l Hs F IH]; [done|]. cbn [join_with]. destruct l as [|s' l]; [by apply split_none|].
  cbn [app]. rewrite split_app by done. by rewrite IH.
Qed.

Lemma split_lines (ls : list str) : Forall (Forall (fun x => x <> 10)) ls -> split 10 (flat_map (fun l => l ++ [10]) ls) = ls ++ [[]].
Proof.
  induction 1 as [|l ls Hl F IH]; [done|]. cbn [flat_map]. rewrite <- app_assoc. cbn [app]. rewrite split_app by done. by rewrite IH.
Qed.

Lemma strip_cr_id s : last s <> Some 13 -> strip_cr s = s.
Proof. unfold strip_cr. destruct (last s) as [c|]; [|done]. intros H. assert (c <> 13) by congruence. by zfalse (c =? 13). Qed.

Lemma join_forall (Pr : Z -> Prop) b l : Pr b -> Forall (Forall Pr) l -> Forall Pr (join_with [b] l).
Proof.
  intros Hb. induction 1 as [|s l Hs F IH]; [done|]. cbn [join_with]. destruct l; [done|].
  apply Forall_app. split; [done|]. by apply Forall_cons.
Qed.

Lemma forall_last (Pr : Z -> Prop) s c : Forall Pr s -> last s = Some c -> Pr c.
Proof. intros F H. apply last_Some_elem_of in H. by apply (proj1 (Forall_forall _ _) F). Qed.

(** A line the reader does not drop or cut. *)
Definition line_ok (csv : bool) (l : str) : Prop :=
  l <> [] /\ last l <> Some 13 /\ Forall (fun c => c <> 10) l /\ (csv = false -> l <> [92; 46]).

Lemma copy_lines_rows csv header first d nm (ls : list str) : Forall (line_ok csv) ls -> first && header = false ->
  copy_lines csv header first d nm (ls ++ [[]])
  = (fun l => if csv then parse_csv_line l d nm else parse_text_line l d nm) <$> ls.
Proof.
  intros F. revert first. induction F as [|l ls (N & C & _ & M) F IH]; intros first Hf.
  - cbn. by rewrite andb_false_r.
  - cbn [app copy_lines fmap list_fmap]. rewrite strip_cr_id by done. unfold str_eqb at 1 2.
    rewrite (bool_decide_eq_false_2 (l = [])) by done. cbn [andb].
    assert (negb csv && bool_decide (l = [92; 46]) = false) as ->
      by (destruct csv; [done|]; cbn; by apply bool_decide_eq_false_2, M).
    rewrite Hf. by rewrite IH.
Qed.

Lemma copy_lines_header csv d nm (h : str) (ls : list str) : Forall (line_ok csv) (h :: ls) ->
  copy_lines csv true true d nm (h :: ls ++ [[]])
  = (fun l => if csv then parse_csv_line l d nm else parse_text_line l d nm) <$> ls.
Proof.
  intros [(N & C & _ & M) F]%Forall_cons. cbn [copy_lines]. rewrite strip_cr_id by done. unfold str_eqb at 1 2.
  rewrite (bool_decide_eq_false_2 (h = [])) by done. cbn [andb].
  assert (negb csv && bool_decide (h = [92; 46]) = false) as ->
    by (destruct csv; [done|]; cbn; by apply bool_decide_eq_false_2, M).
  by apply copy_lines_rows.
Qed.

(** ** The text format *)

Lemma text_field_clean v : Forall (fun c => c <> 9 /\ c <> 10 /\ c <> 13) (encode_copy_field v [9] [92; 78] false).
Proof. destruct v as [s|]; [rewrite encode_text_field; apply copy_escape_clean|]. repeat constructor; lia. Qed.

Lemma text_line_reads row : text_row_ok row ->
  let line := join_with [9] ((fun v => encode_copy_field v [9] [92; 78] false) <$> row) in
  line_ok false line /\ utf8_valid line = true /\ parse_text_line line [9] [92; 78] = row.
Proof.
  intros (N & N1 & V) line. set (encs := (fun v => encode_copy_field v [9] [92; 78] false) <$> row) in *.
  assert (Forall (Forall (fun c => c <> 9 /\ c <> 10 /\ c <> 13)) encs) as C.
  { apply Forall_fmap, Forall_forall. intros v _. apply text_field_clean. }
  assert (split 9 line = encs) as S.
  { apply split_join; [subst encs; by destruct row|]. eapply Forall_impl; [exact C|]. intros s H. eapply Forall_impl; [exact H|]. cbn. tauto. }
  assert (Forall (fun c => c <> 10 /\ c <> 13) line) as L.
  { apply join_forall; [lia|]. eapply Forall_impl; [exact C|]. intros s H. eapply Forall_impl; [exact H|]. cbn. tauto. }
  assert (forall w, Forall (fun c => c <> 9) w -> (forall v, row = [v] -> encode_copy_field v [9] [92; 78] false <> w) -> line <> w) as G.
  { intros w Hw H1 E. rewrite E, split_none in S by done. subst encs. destruct row as [|v [|v' row]]; cbn in S; [done| |done].
    injection S as S. by apply (H1 v). }
  split_and!.
  - split_and!.
    + apply G; [done|]. intros v ->. destruct v as [s|]; [|done]. rewrite encode_text_field. intros H%escape_nil. by subst.
    + intros H. by apply (forall_last _ _ _ L) in H as [_ ?].
    + eapply Forall_impl; [exact L|]. cbn. tauto.
    + intros _. apply G; [repeat constructor; lia|]. intros v ->. destruct v as [s|]; [|done]. rewrite encode_text_field. apply escape_markers.
  - apply join_valid; [done|]. apply Forall_fmap. eapply Forall_impl; [exact V|]. intros [s|] H; [|done]. cbn [compose].
    unfold compose. rewrite encode_text_field. apply flat_map_valid; [..|exact H].
    + intros c Hc. unfold text_esc. repeat case_match; repeat constructor; lia.
    + intros c Hc. unfold text_esc. zfalse (c =? 92). zfalse (c =? 9). zfalse (c =? 10). by zfalse (c =? 13).
  - unfold parse_text_line. rewrite split_str_byte, S. subst encs. rewrite <- list_fmap_compose.
    rewrite <- (list_fmap_id row) at 2. apply list_fmap_ext. intros i [s|] _; cbn; [|done]. unfold str_eqb.
    fold (encode_copy_field (Some s) [9] [92; 78] false). rewrite encode_text_field.
    rewrite bool_decide_eq_false_2 by apply escape_markers. by rewrite copy_unescape_escape.
Qed.

(** ** CSV *)

Lemma csv_plain d nm s : forall cur wq rest, Forall (fun c => c <> d /\ c <> 34) s ->
  csv_loop [d] nm cur false wq 0 (s ++ rest) = csv_loop [d] nm (cur ++ s) false wq 0 rest.
Proof.
  induction s as [|c s IH]; intros cur wq rest F; [by rewrite app_nil_r|]. apply Forall_cons in F as [[H1 H2] F].
  cbn [app csv_loop]. zfalse (c =? 34). unfold starts_with. rewrite bool_decide_eq_false_2 by (cbn; congruence).
  rewrite IH by done. by rewrite <- app_assoc.
Qed.

Lemma csv_quoted d nm s : forall cur wq rest, head rest <> Some 34 ->
  csv_loop [d] nm cur true wq 0 (replace_char 34 [34; 34] s ++ 34 :: rest) = csv_loop [d] nm (cur ++ s) false wq 0 rest.
Proof.
  induction s as [|c s IH]; intros cur wq rest Hr.
  - cbn. rewrite app_nil_r. destruct rest as [|c' rest]; [done|]. assert (c' <> 34) by (intros ->; by apply Hr). by zfalse (c' =? 34).
  - unfold replace_char. cbn [flat_map]. fold (replace_char 34 [34; 34] s). destruct (c =? 34) eqn:E.
    + apply Z.eqb_eq in E. subst c. cbn. rewrite IH by done. by rewrite <- app_assoc.
    + cbn [app csv_loop]. rewrite E, IH by done. by rewrite <- app_assoc.
Qed.

Lemma substring_byte b s : substring [b] s = false -> Forall (fun c => c <> b) s.
Proof.
  induction s as [|c s IH]; intros H; [done|]. cbn [substring] in H. apply orb_false_iff in H as [H1 H2].
  constructor; [|by apply IH]. intros ->. unfold starts_with in H1. cbn in H1. by apply bool_decide_eq_false in H1.
Qed.

Abbreviation csv_enc := (fun v => encode_copy_field v [44] [] true).

(** What a CSV field is written as: bare text without special bytes, or quoted. *)
Lemma csv_enc_cases v : csv_field_ok v ->
  (v = None /\ csv_enc v = [])
  \/ (exists s, v = Some s /\ s <> [] /\ Forall (fun c => c <> 44 /\ c <> 34 /\ c <> 10 /\ c <> 13) s /\ csv_enc v = s)
  \/ (exists s, v = Some s /\ Forall (fun c => c <> 10) s /\ csv_enc v = 34 :: replace_char 34 [34; 34] s ++ [34]).
Proof.
  destruct v as [s|]; [|by left]. intros (N & F & V). right. cbn.
  destruct (substring [44] s) eqn:E1; [right; by exists s|]. destruct (substring [34] s) eqn:E2; [right; by exists s|].
  destruct (substring [10] s) eqn:E3; [right; by exists s|]. destruct (substring [13] s) eqn:E4; [right; by exists s|].
  left. exists s. split_and!; [done|done| |done].
  pose proof (substring_byte _ _ E1) as F1. pose proof (substring_byte _ _ E2) as F2.
  pose proof (substring_byte _ _ E3) as F3. pose proof (substring_byte _ _ E4) as F4.
  rewrite Forall_forall in *. intros c Hc. split_and!; auto.
Qed.

Lemma csv_field_reads v rest : csv_field_ok v -> rest = [] \/ head rest = Some 44 ->
  csv_loop [44] [] [] false false 0 (csv_enc v ++ rest)
  = v :: match rest with [] => [] | _ :: r => csv_loop [44] [] [] false false 0 r end.
Proof.
  intros H R. assert (forall wq cur, finish_csv_field cur wq [] = v -> csv_loop [44] [] cur false wq 0 rest
      = v :: match rest with [] => [] | _ :: r => csv_loop [44] [] [] false false 0 r end) as G.
  { intros wq cur E. destruct rest as [|c r]; [cbn; by rewrite E|]. destruct R as [R|[= ->]]; [done|]. cbn. by rewrite E. }
  destruct (csv_enc_cases v H) as [[-> ->]|[(s & -> & N & F & ->)|(s & -> & F & ->)]].
  - by apply G.
  - rewrite csv_plain; [|eapply Forall_impl; [exact F|]; cbn; tauto]. apply G. unfold finish_csv_field, str_eqb. cbn.
    by rewrite bool_decide_eq_false_2.
  - cbn [app csv_loop]. change (34 =? 34) with true. cbv iota. rewrite <- app_assoc. cbn [app]. rewrite csv_quoted.
    + by apply G.
    + destruct R as [->|R]; [done|]. by rewrite R.
Qed.

Lemma csv_enc_facts v : csv_field_ok v ->
  Forall (fun c => c <> 10) (csv_enc v) /\ last (csv_enc v) <> Some 13 /\ utf8_valid (csv_enc v) = true /\ (csv_enc v = [] -> v = None).
Proof.
  intros H. destruct (csv_enc_cases v H) as [[-> E]|[(s & -> & N & F & E)|(s & -> & F & E)]]; cbv beta in E; rewrite E.
  - done.
  - split_and!; [eapply Forall_impl; [exact F|]; cbn; tauto| |apply H|done]. intros L. apply (forall_last _ _ _ F) in L. cbn in L. tauto.
  - split_and!; [| | |done].
    + constructor; [lia|]. apply Forall_app. split; [|repeat constructor; lia]. apply Forall_forall. intros c Hc.
      unfold replace_char in Hc. apply list_elem_of_In, in_flat_map in Hc as (x & Hx & Hc). apply list_elem_of_In in Hx.
      rewrite Forall_forall in F. specialize (F x Hx). destruct (x =? 34); cbn in Hc; lia.
    + rewrite app_comm_cons, last_snoc. done.
    + change (34 :: replace_char 34 [34; 34] s ++ [34]) with ([34] ++ replace_char 34 [34; 34] s ++ [34]).
      apply utf8_valid_app; [done|]. apply utf8_valid_app; [|done]. unfold replace_char. apply flat_map_valid; [..|apply H].
      * intros c Hc. destruct (c =? 34); repeat constructor; lia.
      * intros c Hc. by zfalse (c =? 34).
Qed.

Lemma csv_line_reads row : csv_row_ok row ->
  let line := join_with [44] (csv_enc <$> row) in
  line_ok true line /\ utf8_valid line = true /\ parse_csv_line line [44] [] = row.
Proof.
  intros (N & N1 & F) line. assert (parse_csv_line line [44] [] = row) as Pr.
  { subst line. clear N1. unfold parse_csv_line. induction F as [|v row Hv F IH]; [done|]. cbn [fmap list_fmap join_with].
    destruct row as [|v' row].
    - cbn [fmap list_fmap]. rewrite <- (app_nil_r (encode_copy_field v [44] [] true)). by rewrite csv_field_reads by auto.
    - cbn [fmap list_fmap] in IH |- *. rewrite csv_field_reads by (done || by right). cbn [app]. by rewrite IH. }
  split_and!; [|..|exact Pr].
  - split_and!; [| | |done].
    + intros E. rewrite E in Pr. cbn in Pr. by subst row.
    + subst line. clear -F. induction F as [|v row Hv F IH]; [done|]. cbn [fmap list_fmap join_with].
      destruct row as [|v' row]; [apply (csv_enc_facts v Hv)|]. cbn [fmap list_fmap] in *. set (l := join_with _ _) in *.
      rewrite app_assoc, last_app. destruct (last l) eqn:E; [done|]. by rewrite last_snoc.
    + apply join_forall; [lia|]. apply Forall_fmap. eapply Forall_impl; [exact F|]. intros v Hv. by apply (csv_enc_facts v Hv).
  - apply join_valid; [done|]. apply Forall_fmap. eapply Forall_impl; [exact F|]. intros v Hv. by apply (csv_enc_facts v Hv).
Qed.

(** ** Payloads of lines *)

Lemma lines_read csv (ls : list str) : Forall (line_ok csv) ls -> Forall (fun l => utf8_valid l = true) ls ->
  split 10 (from_utf8_lossy (flat_map (fun l => l ++ [10]) ls)) = ls ++ [[]].
Proof.
  intros F V. rewrite from_utf8_lossy_valid; [apply split_lines; eapply Forall_impl; [exact F|]; intros l H; apply H|].
  rewrite flat_map_concat_map. apply concat_valid. apply Forall_fmap. eapply Forall_impl; [exact V|]. intros l H. by apply utf8_valid_app.
Qed.

Lemma text_payload_reads {Q} (c : Copy Q) fields rows :
  c_format c = FText -> c_delimiter c = None -> c_null c = None -> copyable c fields rows ->
  copy_rows_of_text c (copy_delimiter c) (copy_null_marker c)
    (encode_copy_payload fields rows c (copy_delimiter c) (copy_null_marker c)) = (fun row : list Value => to_text <$> row) <$> rows.
Proof.
  intros Ef Ed En. unfold copyable, copy_delimiter, copy_null_marker, copy_rows_of_text, encode_copy_payload. rewrite Ef, Ed, En.
  intros [Eh F]. rewrite Eh. cbn [default from_option id].
  rewrite !bool_decide_eq_false_2 by discriminate. cbn [andb app]. cbv zeta iota.
  set (line := fun row : list Value => join_with [9] ((fun v => encode_copy_field v [9] [92; 78] false) <$> (to_text <$> row))).
  assert (flat_map (fun row => copy_line [9] [92; 78] false (to_text <$> row)) rows = flat_map (fun l => l ++ [10]) (line <$> rows)) as ->.
  { apply (flat_map_fmap line (fun l => l ++ [10]) rows). }
  assert (Forall (line_ok false) (line <$> rows)) as Fl.
  { apply Forall_fmap. eapply Forall_impl; [exact F|]. intros row H. apply (text_line_reads _ H). }
  rewrite (lines_read false) by (done || (apply Forall_fmap; eapply Forall_impl; [exact F|]; intros row H; apply (text_line_reads _ H))).
  rewrite copy_lines_rows by done. rewrite <- list_fmap_compose. apply list_fmap_ext. intros i row Hr. cbn.
  rewrite Forall_lookup in F. apply (text_line_reads _ (F i row Hr)).
Qed.

Lemma csv_payload_reads {Q} (c : Copy Q) fields rows :
  c_format c = FCsv -> c_delimiter c = None -> c_null c = None -> copyable c fields rows ->
  copy_rows_of_text c (copy_delimiter c) (copy_null_marker c)
    (encode_copy_payload fields rows c (copy_delimiter c) (copy_null_marker c)) = (fun row : list Value => to_text <$> row) <$> rows.
Proof.
  intros Ef Ed En. unfold copyable, copy_delimiter, copy_null_marker, copy_rows_of_text, encode_copy_payload. rewrite Ef, Ed, En.
  intros [F Hh]. cbn [default from_option id]. rewrite bool_decide_eq_true_2, bool_decide_eq_false_2 by done. rewrite andb_true_r.
  change (lit ",") with [44]. set (line := fun row : list (option str) => join_with [44] (csv_enc <$> row)).
  assert (flat_map (fun row => copy_line [44] [] true (to_text <$> row)) rows = flat_map (fun l => l ++ [10]) ((fun row : list Value => line (to_text <$> row)) <$> rows)) as ->.
  { apply (flat_map_fmap (fun row : list Value => line (to_text <$> row)) (fun l => l ++ [10]) rows). }
  set (ls := (fun row : list Value => line (to_text <$> row)) <$> rows).
  assert (Forall (line_ok true) ls /\ Forall (fun l => utf8_valid l = true) ls
          /\ (fun l => parse_csv_line l [44] []) <$> ls = (fun row : list Value => to_text <$> row) <$> rows) as (L & V & E).
  { subst ls. rewrite <- list_fmap_compose. split_and!; [apply Forall_fmap; eapply Forall_impl; [exact F|]; intros row H; apply (csv_line_reads _ H)..|].
    apply list_fmap_ext. intros i row Hr. rewrite Forall_lookup in F. apply (csv_line_reads _ (F i row Hr)). }
  destruct (c_header c).
  - destruct (csv_line_reads _ (Hh eq_refl)) as (L' & V' & _).
    change (copy_line [44] [] true ((fun f => Some (f_name f)) <$> fields)) with (line ((fun f => Some (f_name f)) <$> fields) ++ [10]).
    change ((line ((fun f => Some (f_name f)) <$> fields) ++ [10]) ++ flat_map (fun l => l ++ [10]) ls)
      with (flat_map (fun l => l ++ [10]) (line ((fun f => Some (f_name f)) <$> fields) :: ls)).
    rewrite (lines_read true) by (by constructor). cbn [app]. rewrite copy_lines_header by (by constructor). exact E.
  - cbn [app]. rewrite (lines_read true) by done. rewrite copy_lines_rows by done. exact E.
Qed.

(** ** The binary format *)

Lemma take_at_mid pre a post n : zlen a = n -> zlen (pre ++ a ++ post) < 2 ^ 64 -> take_at (pre ++ a ++ post) (zlen pre) n = Val (Ok a).
Proof.
  intros <- L. unfold take_at, need. rewrite !zlen_app in *. pose proof (zlen_nonneg post). pose proof (zlen_nonneg pre). pose proof (zlen_nonneg a).
  zfalse (2 ^ 64 <=? zlen pre + zlen a). zfalse (zlen pre + (zlen a + zlen post) <? zlen pre + zlen a). cbn [mbind res_bind].
  by rewrite zslice_app_mid.
Qed.

Lemma decode_binary_same bytes dt : decode_binary_value bytes dt = decode_binary bytes (oid dt).
Proof. destruct dt; reflexivity. Qed.

(** A field written at the end of [pre]. *)
Lemma decode_field_reads pre post fields types i v :
  (forall f, fields !! i = Some f -> types !! i = Some (f_type f) /\ transmits (f_type f) 1 v) -> (i < length fields)%nat ->
  zlen (pre ++ encode_binary_field fields (i, v) ++ post) < 2 ^ 31 ->
  decode_field (pre ++ encode_binary_field fields (i, v) ++ post) types (zlen pre) i
  = Val (Ok (v, zlen (pre ++ encode_binary_field fields (i, v)))).
Proof.
  intros H Hi L. destruct (lookup_lt_is_Some_2 fields i Hi) as [f Hf]. destruct (H f Hf) as [Ht Tv].
  unfold encode_binary_field in *. cbn [fst snd] in *. rewrite Hf in *. cbn [fmap option_fmap option_map from_option id] in *. unfold id in *.
  assert (v = Null \/ v <> Null) as [->|N] by (destruct v; [by left|by right..]).
  - cbn [encode_value is_null] in *. unfold decode_field. rewrite take_at_mid by (rewrite ?zlen_be_bytes; lia). cbn [mbind res_bind].
    rewrite be_i32_roundtrip by (unfold in_i; cbn; lia). change (-1 =? -1) with true. cbv iota. by rewrite zlen_app, zlen_be_bytes.
  - destruct (binary_roundtrip (f_type f) v Tv N) as (b & Eb & D). rewrite Eb in *. unfold decode_field.
    pose proof (zlen_nonneg b). pose proof (zlen_nonneg pre). pose proof (zlen_nonneg post). rewrite !zlen_app, zlen_be_bytes in L.
    rewrite <- app_assoc, take_at_mid by (rewrite ?zlen_app, ?zlen_be_bytes; lia). cbn [mbind res_bind].
    rewrite be_i32_roundtrip by (unfold in_i; cbn in *; lia). zfalse (zlen b =? -1). unfold wrap. rewrite Z.mod_small by lia.
    replace (zlen pre + 4) with (zlen (pre ++ be_bytes 4 (zlen b))) by (by rewrite zlen_app, zlen_be_bytes).
    replace (pre ++ be_bytes 4 (zlen b) ++ b ++ post) with ((pre ++ be_bytes 4 (zlen b)) ++ b ++ post) by (by rewrite <- app_assoc).
    rewrite take_at_mid by (rewrite ?zlen_app, ?zlen_be_bytes; lia). cbn [mbind res_bind]. rewrite Ht. cbn [from_option]. unfold id.
    rewrite decode_binary_same, D. cbn [mbind res_bind]. by rewrite !zlen_app, Z.add_assoc.
Qed.

Definition enc_brow (fields : list FieldDescription) (row : list Value) : list Z :=
  be_bytes 2 (zlen row) ++ flat_map (encode_binary_field fields) (enumerate row).

(** The types and values of the columns from [k] on agree. *)
Definition typed_from (fields : list FieldDescription) (types : list DataType) (k : nat) (vs : list Value) : Prop :=
  forall i v f, vs !! i = Some v -> fields !! (k + i)%nat = Some f -> types !! (k + i)%nat = Some (f_type f) /\ transmits (f_type f) 1 v.

Lemma decode_fields_read fields types vs : forall k pre post,
  typed_from fields types k vs -> (k + length vs <= length fields)%nat ->
  zlen (pre ++ flat_map (encode_binary_field fields) (zip (seq k (length vs)) vs) ++ post) < 2 ^ 31 ->
  decode_fields (pre ++ flat_map (encode_binary_field fields) (zip (seq k (length vs)) vs) ++ post) types (zlen pre) k (length vs)
  = Val (Ok (vs, zlen (pre ++ flat_map (encode_binary_field fields) (zip (seq k (length vs)) vs)))).
Proof.
  induction vs as [|v vs IH]; intros k pre post T Hk L; cbn [length seq zip zip_with flat_map decode_fields] in *; [by rewrite app_nil_r|].
  rewrite <- app_assoc in *. fold (zip (seq (S k) (length vs)) vs) in *.
  set (tl := flat_map (encode_binary_field fields) (zip (seq (S k) (length vs)) vs)) in *.
  rewrite decode_field_reads by (done || lia || (intros f Hf; specialize (T 0%nat v f); rewrite Nat.add_0_r in T; by apply T)).
  cbn [mbind res_bind]. rewrite (app_assoc pre) in L |- *. rewrite (IH (S k)); [..|done].
  - cbn [mbind res_bind]. by rewrite <- app_assoc.
  - intros i w f Hw Hf. replace (S k + i)%nat with (k + S i)%nat in * by lia. by apply (T (S i) w f).
  - lia.
Qed.

Lemma decode_rows_read fields types rows : forall fuel pre,
  Forall (fun row => length row = length fields /\ zlen row < 2 ^ 15 /\ typed_from fields types 0 row) rows ->
  zlen (pre ++ flat_map (enc_brow fields) rows ++ be_bytes 2 (-1)) < 2 ^ 31 -> (length rows < fuel)%nat ->
  decode_rows fuel (pre ++ flat_map (enc_brow fields) rows ++ be_bytes 2 (-1)) types (zlen pre) = Val (Ok rows).
Proof.
  induction rows as [|row rows IH]; intros [|fuel] pre F L Hf; cbn [length] in Hf; try lia; cbn [flat_map decode_rows app].
  - cbn [flat_map app] in L. rewrite <- (app_nil_r (be_bytes 2 (-1))) in L |- *. rewrite take_at_mid by (rewrite ?zlen_be_bytes; lia). done.
  - apply Forall_cons in F as [(El & Ez & T) F]. cbn [flat_map] in L. rewrite <- app_assoc in L |- *.
    set (tl := flat_map (enc_brow fields) rows ++ be_bytes 2 (-1)) in *. unfold enc_brow in L |- *. rewrite <- app_assoc in L |- *.
    rewrite take_at_mid by (rewrite ?zlen_be_bytes; lia). cbn [mbind res_bind]. pose proof (zlen_nonneg row).
    rewrite be_i16_roundtrip by (unfold in_i; cbn in *; lia). zfalse (zlen row =? -1). zfalse (zlen row <? 0).
    replace (zlen pre + 2) with (zlen (pre ++ be_bytes 2 (zlen row))) by (by rewrite zlen_app, zlen_be_bytes).
    rewrite (app_assoc pre) in L |- *. replace (Z.to_nat (zlen row)) with (length row) by (unfold zlen; lia). unfold enumerate in *.
    rewrite decode_fields_read by (done || lia). cbn [mbind res_bind].
    rewrite (app_assoc (pre ++ _)) in L |- *. rewrite IH by (done || lia). done.
Qed.

Lemma binary_roundtrip_rows fields rows :
  zlen (encode_copy_binary fields rows) < 2 ^ 31 ->
  Forall (fun row => length row = length fields /\ zlen row < 2 ^ 15
    /\ forall i f v, fields !! i = Some f -> row !! i = Some v -> transmits (f_type f) 1 v) rows ->
  decode_copy_binary (encode_copy_binary fields rows) (f_type <$> fields) = Val (Ok rows).
Proof.
  intros L F. unfold decode_copy_binary, encode_copy_binary in *. set (body := flat_map _ rows ++ be_bytes 2 (-1)) in *.
  pose proof (zlen_nonneg body). pose proof (take_at_mid [] COPY_BINARY_SIGNATURE (be_bytes 4 0 ++ be_bytes 4 0 ++ body) _ eq_refl) as Hs.
  change (zlen (@nil Z)) with 0 in Hs. cbn [app] in Hs. rewrite Hs by lia. cbn [mbind res_bind].
  change (str_eqb COPY_BINARY_SIGNATURE COPY_BINARY_SIGNATURE) with true. cbn [negb]. cbv iota.
  rewrite (app_assoc (be_bytes 4 0)) in L |- *. rewrite take_at_mid by (done || lia). cbn [mbind res_bind].
  change (to_signed 32 (be_val (zdrop 4 (be_bytes 4 0 ++ be_bytes 4 0)))) with 0. cbn [Z.ltb Z.compare]. rewrite Z.add_0_r.
  rewrite (app_assoc COPY_BINARY_SIGNATURE) in L |- *. set (hd := COPY_BINARY_SIGNATURE ++ _) in *.
  change (zlen COPY_BINARY_SIGNATURE + 8) with (zlen hd). apply decode_rows_read; [|done|].
  - eapply Forall_impl; [exact F|]. intros row (E1 & E2 & T). split_and!; [done|done|]. intros i v f Hv Hf. cbn in Hf |- *.
    rewrite list_lookup_fmap, Hf. split; [done|]. by apply (T i f v).
  - clear. subst body. rewrite !length_app.
    assert (length rows <= length (flat_map (fun row => be_bytes 2 (zlen row) ++ flat_map (encode_binary_field fields) (enumerate row)) rows))%nat; [|lia].
    induction rows as [|r rows IH]; [done|]. cbn [flat_map length]. rewrite !length_app. unfold be_bytes at 1. rewrite length_reverse, length_le_bytes. lia.
Qed.

(** ** Theorems *)

(** C36: COPY survives a round trip, for the result sets that its format can carry.  With
    the default delimiter and NULL marker, reading back the payload that COPY TO
    wrote gives tuples of literals for exactly the values in order: their texts in
    the text and CSV formats, the values themselves in the binary one.  Not
    covered ([copyable]): in the text format HEADER, rows without columns and rows
    whose only column is an empty string; in CSV a field or (with HEADER) a column
    name that is empty or contains a newline, and rows whose only column is NULL; in
    the binary format decimals, float4, integers outside their column's width and
    payloads of 2 GiB or more, and the columns read must have the types of the
    fields written; in all formats texts that are not UTF-8. *)
Theorem copy_roundtrip {Expr Select} (sh : @Shared Expr Select) (ss : @Session Expr Select) (c : Copy Select) fields rows columns :
  c_delimiter c = None -> c_null c = None -> copyable c fields rows ->
  (c_format c = FBinary -> copy_column_types sh ss (c_table c) columns = Ok (f_type <$> fields)) ->
  copy_tuples sh ss c columns (copy_delimiter c) (copy_null_marker c)
    (encode_copy_payload fields rows c (copy_delimiter c) (copy_null_marker c))
  = Val (Ok (map (map (copy_literal c)) rows)).
Proof.
  intros Ed En Hc Ht. unfold copy_tuples, copy_literal. destruct (c_format c) eqn:Ef.
  - rewrite bool_decide_eq_false_2 by done. rewrite text_payload_reads by done.
    unfold mret, res_ret. rewrite map_map. do 2 f_equal. apply map_ext. intros row. apply map_map.
  - rewrite bool_decide_eq_false_2 by done. rewrite csv_payload_reads by done.
    unfold mret, res_ret. rewrite map_map. do 2 f_equal. apply map_ext. intros row. apply map_map.
  - rewrite bool_decide_eq_true_2 by done. rewrite Ht by done. unfold copyable in Hc. rewrite Ef in Hc. destruct Hc as [L F].
    unfold encode_copy_payload. rewrite bool_decide_eq_true_2 by done. by rewrite binary_roundtrip_rows.
Qed.

Definition demo_copy (f : CopyFormat) (h : bool) (d : option str) : Copy unit := mk_copy (lit "t") None None CopyTo Stdout f d h None.
Definition demo_sh : @Shared unit unit := mk_shared db_new None None ∅ ∅ ∅.

Lemma copy_roundtrip_witness :
  copy_tuples demo_sh (session_new 1) (demo_copy FCsv true None) [] (lit ",") []
    (encode_copy_payload [mk_field (lit "a") TInt4; mk_field (lit "b") TText]
       [[Int 7; Null]; [Null; Text [34; 44; 13]]] (demo_copy FCsv true None) (lit ",") [])
  = Val (Ok [[EStr (lit "7"); ENull]; [ENull; EStr [34; 44; 13]]]).
Proof.
  refine (copy_roundtrip demo_sh (session_new 1) (demo_copy FCsv true None) _ _ [] _ _ _ _).
  - reflexivity.
  - reflexivity.
  - split.
    + repeat apply Forall_cons_2; [..|apply Forall_nil_2]; (split; [discriminate|split; [discriminate|]]);
        repeat apply Forall_cons_2; try apply Forall_nil_2; try exact I; (split; [discriminate|split; [|reflexivity]]); repeat constructor; discriminate.
    + intros _. split; [discriminate|split; [discriminate|]].
      repeat apply Forall_cons_2; try apply Forall_nil_2; (split; [discriminate|split; [|reflexivity]]); repeat constructor; discriminate.
  - discriminate.
Defined.

(** The restrictions of [copyable] are real.  Text: a row of one empty string is
    dropped, a custom delimiter is not escaped, HEADER skips a row that was never
    written.  CSV: an empty string comes back as NULL, an embedded newline breaks
    the row. *)
Lemma copy_format_gaps :
  copy_rows_of_text (demo_copy FText false None) [9] [92; 78]
    (encode_copy_payload [] [[Text []]; [Text [97]]] (demo_copy FText false None) [9] [92; 78]) = [[Some [97]]]
  /\ copy_rows_of_text (demo_copy FText false (Some [124])) [124] [92; 78]
    (encode_copy_payload [] [[Text (lit "a|b")]] (demo_copy FText false (Some [124])) [124] [92; 78]) = [[Some [97]; Some [98]]]
  /\ copy_rows_of_text (demo_copy FText true None) [9] [92; 78]
    (encode_copy_payload [] [[Text [97]]; [Text [98]]] (demo_copy FText true None) [9] [92; 78]) = [[Some [98]]]
  /\ copy_rows_of_text (demo_copy FCsv false None) [44] []
    (encode_copy_payload [] [[Int 1; Text []]] (demo_copy FCsv false None) [44] []) = [[Some [49]; None]]
  /\ copy_rows_of_text (demo_copy FCsv false None) [44] []
    (encode_copy_payload [] [[Text [97; 10; 98]]] (demo_copy FCsv false None) [44] []) = [[Some [97]]; [Some [98]]].
Proof. split_and!; vm_compute; reflexivity. Qed.

(** A negative field length other than the NULL marker, or a negative column
    count, takes the backend down. *)
Lemma copy_binary_negative_length_panics :
  decode_copy_binary (COPY_BINARY_SIGNATURE ++ be_bytes 4 0 ++ be_bytes 4 0 ++ be_bytes 2 1 ++ be_bytes 4 (-2) ++ be_bytes 2 (-1)) [TInt4] = Panic
  /\ decode_copy_binary (COPY_BINARY_SIGNATURE ++ be_bytes 4 0 ++ be_bytes 4 0 ++ be_bytes 2 (-2)) [TInt4] = Panic.
Proof. split; vm_compute; reflexivity. Qed.

(** The query of COPY TO names its table without quotes: a table whose name needs
    them is not the one that is read. *)
Lemma copy_source_unquoted :
  copy_select_sql (lit "my table") [lit "a"] = lit "SELECT " ++ quoted (lit "a") ++ lit " FROM my table".
Proof. reflexivity. Qed.
