(* ===== verification/Crypto.v ===== *)
(** The cryptographic primitives of crates/auth/src/crypto.rs: SHA-256, MD5,
    HMAC-SHA-256, PBKDF2 and Base64, on bytes and 32-bit words kept as [Z]. *)

From S2P Require Import Prelude.

(** * 32-bit words *)

Definition add32 (a b : Z) : Z := (a + b) mod 2 ^ 32.
Definition not32 (a : Z) : Z := Z.lxor a (2 ^ 32 - 1).
Definition rotr (n x : Z) : Z := Z.lor (Z.shiftr x n) (Z.shiftl x (32 - n) mod 2 ^ 32).
Definition rotl (n x : Z) : Z := rotr (32 - n) x.

(** Element [i] of a fixed-size array whose index is in range. *)
Definition at_ (l : list Z) (i : nat) : Z := nth i l 0.

(** [chunks(n)] / [chunks_exact(n)] of a list whose length is a multiple. *)
Fixpoint chunks_fuel {A} (fuel : nat) (n : nat) (l : list A) : list (list A) :=
  match fuel, l with
  | _, [] => []
  | O, _ => []
  | S fuel, _ => take n l :: chunks_fuel fuel n (drop n l)
  end.
Definition chunks {A} (n : nat) (l : list A) : list (list A) := chunks_fuel (length l) n l.

(** [msg.push(0x80)], zeros up to 56 modulo 64, then the 8 length bytes. *)
Definition pad (len_bytes : Z -> list Z) (data : list Z) : list Z :=
  data ++ [0x80] ++ zreplicate ((55 - zlen data) mod 64) 0 ++ len_bytes ((zlen data * 8) mod 2 ^ 64).

(** * SHA-256 *)

Definition SHA256_INIT : list Z :=
  [0x6a09e667; 0xbb67ae85; 0x3c6ef372; 0xa54ff53a; 0x510e527f; 0x9b05688c; 0x1f83d9ab; 0x5be0cd19].

(** The 64 round constants of FIPS 180-4 in decimal; the first is 0x428a2f98. *)
Definition SHA256_K : list Z :=
  [1116352408; 1899447441; 3049323471; 3921009573; 961987163; 1508970993; 2453635748; 2870763221;
   3624381080; 310598401; 607225278; 1426881987; 1925078388; 2162078206; 2614888103; 3248222580;
   3835390401; 4022224774; 264347078; 604807628; 770255983; 1249150122; 1555081692; 1996064986;
   2554220882; 2821834349; 2952996808; 3210313671; 3336571891; 3584528711; 113926993; 338241895;
   666307205; 773529912; 1294757372; 1396182291; 1695183700; 1986661051; 2177026350; 2456956037;
   2730485921; 2820302411; 3259730800; 3345764771; 3516065817; 3600352804; 4094571909; 275423344;
   430227734; 506948616; 659060556; 883997877; 958139571; 1322822218; 1537002063; 1747873779;
   1955562222; 2024104815; 2227730452; 2361852424; 2428436474; 2756734187; 3204031479; 3329325298].

Definition sched_word (w : list Z) (i : nat) : Z :=
  let x := at_ w (i - 15) in
  let y := at_ w (i - 2) in
  let s0 := Z.lxor (Z.lxor (rotr 7 x) (rotr 18 x)) (Z.shiftr x 3) in
  let s1 := Z.lxor (Z.lxor (rotr 17 y) (rotr 19 y)) (Z.shiftr y 10) in
  add32 (add32 (add32 (at_ w (i - 16)) s0) (at_ w (i - 7))) s1.

(** The message schedule: 16 words of the chunk, then 48 computed ones. *)
Fixpoint schedule (n : nat) (w : list Z) : list Z :=
  match n with
  | O => w
  | S n => schedule n (w ++ [sched_word w (length w)])
  end.
Definition chunk_words (val : list Z -> Z) (chunk : list Z) : list Z := val <$> chunks 4 chunk.

Definition sha_round (st : list Z) (k w : Z) : list Z :=
  match st with
  | [a; b; c; d; e; f; g; hh] =>
      let s1 := Z.lxor (Z.lxor (rotr 6 e) (rotr 11 e)) (rotr 25 e) in
      let ch := Z.lxor (Z.land e f) (Z.land (not32 e) g) in
      let t1 := add32 (add32 (add32 (add32 hh s1) ch) k) w in
      let s0 := Z.lxor (Z.lxor (rotr 2 a) (rotr 13 a)) (rotr 22 a) in
      let maj := Z.lxor (Z.lxor (Z.land a b) (Z.land a c)) (Z.land b c) in
      let t2 := add32 s0 maj in
      [add32 t1 t2; a; b; c; add32 d t1; e; f; g]
  | _ => st
  end.

Definition sha_chunk (h : list Z) (chunk : list Z) : list Z :=
  let w := schedule 48 (chunk_words be_val chunk) in
  zip_with add32 h (foldl (fun st kw => sha_round st (fst kw) (snd kw)) h (zip SHA256_K w)).

Definition sha256 (data : list Z) : list Z :=
  flat_map (be_bytes 4) (foldl sha_chunk SHA256_INIT (chunks 64 (pad (be_bytes 8) data))).

(** * MD5 *)

Definition MD5_S : list Z :=
  [7; 12; 17; 22; 7; 12; 17; 22;
   7; 12; 17; 22; 7; 12; 17; 22;
   5; 9; 14; 20; 5; 9; 14; 20;
   5; 9; 14; 20; 5; 9; 14; 20;
   4; 11; 16; 23; 4; 11; 16; 23;
   4; 11; 16; 23; 4; 11; 16; 23;
   6; 10; 15; 21; 6; 10; 15; 21;
   6; 10; 15; 21; 6; 10; 15; 21].

Definition MD5_K : list Z :=
  [0xd76aa478; 0xe8c7b756; 0x242070db; 0xc1bdceee; 0xf57c0faf; 0x4787c62a; 0xa8304613; 0xfd469501;
   0x698098d8; 0x8b44f7af; 0xffff5bb1; 0x895cd7be; 0x6b901122; 0xfd987193; 0xa679438e; 0x49b40821;
   0xf61e2562; 0xc040b340; 0x265e5a51; 0xe9b6c7aa; 0xd62f105d; 0x02441453; 0xd8a1e681; 0xe7d3fbc8;
   0x21e1cde6; 0xc33707d6; 0xf4d50d87; 0x455a14ed; 0xa9e3e905; 0xfcefa3f8; 0x676f02d9; 0x8d2a4c8a;
   0xfffa3942; 0x8771f681; 0x6d9d6122; 0xfde5380c; 0xa4beea44; 0x4bdecfa9; 0xf6bb4b60; 0xbebfbc70;
   0x289b7ec6; 0xeaa127fa; 0xd4ef3085; 0x04881d05; 0xd9d4d039; 0xe6db99e5; 0x1fa27cf8; 0xc4ac5665;
   0xf4292244; 0x432aff97; 0xab9423a7; 0xfc93a039; 0x655b59c3; 0x8f0ccc92; 0xffeff47d; 0x85845dd1;
   0x6fa87e4f; 0xfe2ce6e0; 0xa3014314; 0x4e0811a1; 0xf7537e82; 0xbd3af235; 0x2ad7d2bb; 0xeb86d391].

Definition md5_mix (i : Z) (b c d : Z) : Z * Z :=
  if i <? 16 then (Z.lor (Z.land b c) (Z.land (not32 b) d), i)
  else if i <? 32 then (Z.lor (Z.land d b) (Z.land (not32 d) c), (5 * i + 1) mod 16)
  else if i <? 48 then (Z.lxor (Z.lxor b c) d, (3 * i + 5) mod 16)
  else (Z.lxor c (Z.lor b (not32 d)), (7 * i) mod 16).

Definition md5_round (m : list Z) (st : list Z) (i : nat) : list Z :=
  match st with
  | [a; b; c; d] =>
      let '(f, g) := md5_mix (Z.of_nat i) b c d in
      let f := add32 (add32 (add32 f a) (at_ MD5_K i)) (at_ m (Z.to_nat g)) in
      [d; add32 b (rotl (at_ MD5_S i) f); b; c]
  | _ => st
  end.

Definition md5_chunk (h : list Z) (chunk : list Z) : list Z :=
  let m := chunk_words le_val chunk in
  zip_with add32 h (foldl (md5_round m) h (seq 0 64)).

Definition md5 (data : list Z) : list Z :=
  flat_map (le_bytes 4)
    (foldl md5_chunk [0x67452301; 0xefcdab89; 0x98badcfe; 0x10325476] (chunks 64 (pad (le_bytes 8) data))).

Definition hex_digit (d : Z) : Z := if d <? 10 then 48 + d else 87 + d.
(** [md5_hex]: two lowercase hex digits per byte. *)
Definition md5_hex (data : list Z) : str :=
  flat_map (fun b => [hex_digit (b / 16); hex_digit (b mod 16)]) (md5 data).

(** * HMAC-SHA-256 and PBKDF2 *)

Definition BLOCK : Z := 64.

Definition hmac_sha256 (key msg : list Z) : list Z :=
  let k := if BLOCK <? zlen key then sha256 key else key in
  let block_key := k ++ zreplicate (BLOCK - zlen k) 0 in
  let ipad := (fun b => Z.lxor 0x36 b) <$> block_key in
  let opad := (fun b => Z.lxor 0x5c b) <$> block_key in
  sha256 (opad ++ sha256 (ipad ++ msg)).

(** The loop [for _ in 1..iterations] of [pbkdf2_sha256]. *)
Fixpoint pbkdf2_loop (n : nat) (password u result : list Z) : list Z :=
  match n with
  | O => result
  | S n => let u := hmac_sha256 password u in pbkdf2_loop n password u (zip_with Z.lxor result u)
  end.

Definition pbkdf2_sha256 (password salt : list Z) (iterations : Z) : list Z :=
  let u := hmac_sha256 password (salt ++ be_bytes 4 1) in
  pbkdf2_loop (Z.to_nat (iterations - 1)) password u u.

(** * Base64 *)

Definition B64 : list Z := lit "ABCDEFGHIJKLMNOPQRSTUVWXYZabcdefghijklmnopqrstuvwxyz0123456789+/".

Definition b64_char (v : Z) : Z := nth (Z.to_nat (Z.land v 63)) B64 0.

Definition b64_chunk (chunk : list Z) : str :=
  let n := Z.lor (Z.lor (Z.shiftl (at_ chunk 0) 16) (Z.shiftl (at_ chunk 1) 8)) (at_ chunk 2) in
  [b64_char (Z.shiftr n 18); b64_char (Z.shiftr n 12);
   if (1 <? length chunk)%nat then b64_char (Z.shiftr n 6) else 61;
   if (2 <? length chunk)%nat then b64_char n else 61].

Definition base64_encode (data : list Z) : str := flat_map b64_chunk (chunks 3 data).

(** The inner function [val] of [base64_decode]. *)
Definition b64_val (c : Z) : option Z :=
  if is_ascii_upper c then Some (c - 65)
  else if is_ascii_lower c then Some (c - 97 + 26)
  else if is_ascii_digit c then Some (c - 48 + 52)
  else if c =? 43 then Some 62
  else if c =? 47 then Some 63
  else None.

(** [n |= val(c)? << (18 - 6 * i)] over a chunk. *)
Fixpoint b64_acc (chunk : list Z) (i n : Z) : option Z :=
  match chunk with
  | [] => Some n
  | c :: chunk => v ← b64_val c; b64_acc chunk (i + 1) (Z.lor n (Z.shiftl v (18 - 6 * i)))
  end.

Definition b64_bytes (chunk : list Z) : option (list Z) :=
  n ← b64_acc chunk 0 0;
  Some ([Z.land (Z.shiftr n 16) 255]
        ++ (if (2 <? length chunk)%nat then [Z.land (Z.shiftr n 8) 255] else [])
        ++ (if (3 <? length chunk)%nat then [Z.land n 255] else [])).

Definition base64_decode (s : str) : result str (list Z) :=
  let bytes := List.filter (fun b => negb (b =? 61) && negb (is_ascii_whitespace b)) s in
  ok_or (@List.concat Z <$> mapM b64_bytes (chunks 4 bytes)) (lit "invalid base64 character").

(** * Test vectors (FIPS 180-4, RFC 1321, RFC 4231, RFC 4648) *)

Definition hex (l : list Z) : str := flat_map (fun b => [hex_digit (b / 16); hex_digit (b mod 16)]) l.

Example sha_abc : hex (sha256 (lit "abc")) = lit "ba7816bf8f01cfea414140de5dae2223b00361a396177a9cb410ff61f20015ad".
Proof. vm_compute. reflexivity. Qed.
Example md5_abc : md5_hex (lit "abc") = lit "900150983cd24fb0d6963f7d28e17f72".
Proof. vm_compute. reflexivity. Qed.
Example hmac_jefe : hex (hmac_sha256 (lit "Jefe") (lit "what do ya want for nothing?"))
  = lit "5bdcc146bf60754e6a042426089575c75a003f089d2739839dec58b964ec3843".
Proof. vm_compute. reflexivity. Qed.
Example pbkdf2_two : hex (pbkdf2_sha256 (lit "password") (lit "salt") 2)
  = lit "ae4d0c95af6b46d32d0adff928f06dd02a303f8ef3c251dfd6e2d85a95474c43".
Proof. vm_compute. reflexivity. Qed.
Example b64_foob : base64_encode (lit "foob") = lit "Zm9vYg==" /\ base64_decode (lit "Zm9vYg==") = Ok (lit "foob").
Proof. vm_compute. split; reflexivity. Qed.

(** * Proofs *)

(** ** Chunks *)

Lemma chunks_fuel_enough {A} f n (l : list A) :
  (0 < n)%nat -> (length l <= f)%nat -> chunks_fuel f n l = chunks n l.
Proof.
  intros Hn. unfold chunks. revert l. induction f as [f IH] using lt_wf_ind. intros l Hl.
  destruct l as [|x l]; [by destruct f|]. destruct f as [|f]; [cbn in Hl; lia|].
  cbn [length chunks_fuel]. f_equal. cbn [length] in Hl.
  assert (length (drop n (x :: l)) <= length l)%nat by (rewrite length_drop; cbn; lia).
  rewrite (IH f) by lia.
  destruct (decide (length l = f)) as [->|]; [by rewrite (IH f) by lia|].
  by rewrite (IH (length l)) by lia.
Qed.

Lemma chunks_app {A} n (c r : list A) : (0 < n)%nat -> length c = n -> chunks n (c ++ r) = c :: chunks n r.
Proof.
  intros Hn <-. destruct c as [|x c]; [cbn in Hn; lia|]. unfold chunks at 1. cbn [length app chunks_fuel].
  change (x :: c ++ r) with ((x :: c) ++ r). change (S (length c)) with (length (x :: c)).
  rewrite take_app_length, drop_app_length. f_equal.
  apply chunks_fuel_enough; [cbn; lia|]. rewrite length_app. lia.
Qed.

Lemma chunks_short {A} n (c : list A) : c <> [] -> (length c <= n)%nat -> chunks n c = [c].
Proof.
  intros Hc Hl. destruct c as [|x c]; [done|]. unfold chunks. cbn [length chunks_fuel].
  rewrite take_ge, drop_ge by (cbn in *; lia). by destruct (length c).
Qed.

Lemma chunks_length {A} n (l : list A) : (0 < n)%nat -> (length l mod n = 0)%nat ->
  Forall (fun c => length c = n) (chunks n l).
Proof.
  intros Hn. remember (length l) as k eqn:Hk. revert l Hk. induction k as [k IH] using lt_wf_ind.
  intros l -> Hm. destruct l as [|x l]; [constructor|].
  assert (n <= length (x :: l))%nat as Hle.
  { destruct (decide (length (x :: l) < n)%nat) as [Hlt|]; [|lia].
    rewrite Nat.mod_small in Hm by done. cbn in Hm. lia. }
  rewrite <- (take_drop n (x :: l)). rewrite chunks_app by (rewrite ?length_take; lia).
  constructor; [rewrite length_take; lia|]. eapply IH; [|reflexivity|].
  - rewrite length_drop. cbn in *. lia.
  - rewrite length_drop. rewrite <- Hm. replace (length (x :: l)) with (length (x :: l) - n + 1 * n)%nat at 2 by lia.
    by rewrite Nat.Div0.mod_add.
Qed.

(** ** Base64 *)

Lemma b64_val_char v : 0 <= v < 64 -> b64_val (b64_char v) = Some v.
Proof.
  intros Hv. assert (forallb (fun n => bool_decide (b64_val (b64_char (Z.of_nat n)) = Some (Z.of_nat n))) (seq 0 64) = true)
    as H by (vm_compute; reflexivity).
  rewrite forallb_forall in H. specialize (H (Z.to_nat v)). rewrite Z2Nat.id in H by lia.
  specialize (H ltac:(apply in_seq; lia)). by apply bool_decide_eq_true in H.
Qed.

Lemma b64_char_clean v :
  0 <= v < 64 -> negb (b64_char v =? 61) && negb (is_ascii_whitespace (b64_char v)) = true
  /\ b64_char v <> 44 /\ 33 <= b64_char v <= 126.
Proof.
  intros Hv. assert (forallb (fun n => let c := b64_char (Z.of_nat n) in
      negb (c =? 61) && negb (is_ascii_whitespace c) && negb (c =? 44) && (33 <=? c) && (c <=? 126)) (seq 0 64) = true)
    as H by (vm_compute; reflexivity).
  rewrite forallb_forall in H. specialize (H (Z.to_nat v)). rewrite Z2Nat.id in H by lia.
  specialize (H ltac:(apply in_seq; lia)). cbv zeta in H. zb. split_and!; [|done|done|done].
  rewrite andb_true_iff, !negb_true_iff. split; [by apply Z.eqb_neq|done].
Qed.

Lemma b64_char_land v : b64_char (Z.land v 63) = b64_char v.
Proof. unfold b64_char. by rewrite <- Z.land_assoc. Qed.

Lemma land63 v : Z.land v 63 = v mod 64.
Proof. change 63 with (Z.ones 6). by rewrite Z.land_ones. Qed.
Lemma land255 v : Z.land v 255 = v mod 256.
Proof. change 255 with (Z.ones 8). by rewrite Z.land_ones. Qed.

Lemma b64_char_mod v : b64_char v = b64_char (v mod 64).
Proof. by rewrite <- land63, b64_char_land. Qed.

(** Or-ing bits below a multiple of a power of two is addition. *)
Lemma lor_low x k y : 0 <= k -> 0 <= y < 2 ^ k -> Z.lor (x * 2 ^ k) y = x * 2 ^ k + y.
Proof.
  intros Hk Hy. rewrite <- Z.shiftl_mul_pow2 by done.
  assert (Z.land (Z.shiftl x k) y = 0) as HL.
  { apply Z.bits_inj'. intros i Hi. rewrite Z.land_spec, Z.bits_0, Z.shiftl_spec by done.
    destruct (decide (i < k)); [by rewrite Z.testbit_neg_r by lia|].
    destruct (decide (y = 0)) as [->|]; [by rewrite Z.bits_0, andb_false_r|].
    rewrite (Z.bits_above_log2 y i), andb_false_r; [done|lia|].
    apply Z.log2_lt_pow2; [lia|]. eapply Z.lt_le_trans; [apply Hy|]. apply Z.pow_le_mono_r; lia. }
  rewrite <- Z.lxor_lor, Z.add_nocarry_lxor by done. done.
Qed.

Lemma b64_pack a b c :
  is_byte a -> is_byte b -> is_byte c ->
  Z.lor (Z.lor (Z.shiftl a 16) (Z.shiftl b 8)) c = a * 65536 + b * 256 + c.
Proof.
  unfold is_byte. intros Ha Hb Hc. rewrite !Z.shiftl_mul_pow2 by lia.
  rewrite (lor_low a 16) by (change (2 ^ 16) with 65536; change (2 ^ 8) with 256; lia).
  replace (a * 2 ^ 16 + b * 2 ^ 8) with ((a * 256 + b) * 2 ^ 8) by (cbn; lia).
  rewrite lor_low by (cbn; lia). cbn. lia.
Qed.

(** The value accumulated over the six-bit groups. *)
Fixpoint b64_sum (vs : list Z) (i : Z) : Z :=
  match vs with
  | [] => 0
  | v :: vs => v * 2 ^ (18 - 6 * i) + b64_sum vs (i + 1)
  end.

Lemma b64_sum_bound vs i :
  Forall (fun v => 0 <= v < 64) vs -> 0 <= i -> i + zlen vs <= 4 -> 0 <= b64_sum vs i < 2 ^ (24 - 6 * i).
Proof.
  intros F. revert i. induction F as [|v vs Hv F IH]; intros i Hi Hl; cbn [b64_sum].
  - split; [lia|]. apply Z.pow_pos_nonneg; [lia|]. change (zlen []) with 0 in Hl. lia.
  - rewrite zlen_cons in Hl. pose proof (zlen_nonneg vs). specialize (IH (i + 1) ltac:(lia) ltac:(lia)).
    replace (24 - 6 * (i + 1)) with (18 - 6 * i) in IH by lia.
    replace (24 - 6 * i) with (6 + (18 - 6 * i)) by lia. rewrite Z.pow_add_r by lia.
    change (2 ^ 6) with 64. nia.
Qed.

Lemma b64_acc_ok vs i x :
  Forall (fun v => 0 <= v < 64) vs -> 0 <= i -> i + zlen vs <= 4 ->
  b64_acc (b64_char <$> vs) i (x * 2 ^ (24 - 6 * i)) = Some (x * 2 ^ (24 - 6 * i) + b64_sum vs i).
Proof.
  intros F. revert i x. induction F as [|v vs Hv F IH]; intros i x Hi Hl; cbn [fmap list_fmap b64_acc b64_sum].
  - f_equal. lia.
  - rewrite zlen_cons in Hl. pose proof (zlen_nonneg vs). rewrite b64_val_char by done.
    cbn [mbind option_bind]. rewrite Z.shiftl_mul_pow2 by lia.
    assert (2 ^ (24 - 6 * i) = 64 * 2 ^ (18 - 6 * i)) as E.
    { replace (24 - 6 * i) with (6 + (18 - 6 * i)) by lia. by rewrite Z.pow_add_r by lia. }
    assert (0 < 2 ^ (18 - 6 * i)) by (apply Z.pow_pos_nonneg; lia).
    rewrite lor_low by (rewrite ?E; nia).
    replace (x * 2 ^ (24 - 6 * i) + v * 2 ^ (18 - 6 * i)) with ((64 * x + v) * 2 ^ (24 - 6 * (i + 1))).
    + rewrite IH by lia. f_equal. replace (24 - 6 * (i + 1)) with (18 - 6 * i) by lia. rewrite E. lia.
    + replace (24 - 6 * (i + 1)) with (18 - 6 * i) by lia. rewrite E. lia.
Qed.

Lemma b64_acc_start vs :
  Forall (fun v => 0 <= v < 64) vs -> zlen vs <= 4 -> b64_acc (b64_char <$> vs) 0 0 = Some (b64_sum vs 0).
Proof. intros. rewrite <- (Z.mul_0_l (2 ^ (24 - 6 * 0))), b64_acc_ok by (done || lia). f_equal. Qed.

Lemma mod64 v : 0 <= v mod 64 < 64.
Proof. apply Z.mod_pos_bound. lia. Qed.

(** The six-bit groups of a chunk, and the characters printed for them. *)
Definition b64_groups (chunk : list Z) : list Z :=
  let n := at_ chunk 0 * 65536 + at_ chunk 1 * 256 + at_ chunk 2 in
  take (S (length chunk)) [n / 262144 mod 64; n / 4096 mod 64; n / 64 mod 64; n mod 64].

Lemma b64_groups_range c : Forall (fun v => 0 <= v < 64) (b64_groups c).
Proof. apply Forall_take. repeat (constructor; [apply mod64|]). constructor. Qed.

Lemma at_byte c i : Forall is_byte c -> is_byte (at_ c i).
Proof.
  intros F. unfold at_. destruct (nth_in_or_default i c 0) as [Hin| ->]; [|unfold is_byte; lia].
  apply (proj1 (Forall_forall _ _) F). by apply list_elem_of_In.
Qed.

Lemma b64_chunk_groups c :
  Forall is_byte c -> (1 <= length c <= 3)%nat ->
  b64_chunk c = (b64_char <$> b64_groups c) ++ replicate (3 - length c) 61.
Proof.
  intros F L. unfold b64_chunk, b64_groups. rewrite b64_pack by (by apply at_byte).
  set (n := at_ c 0 * 65536 + at_ c 1 * 256 + at_ c 2).
  rewrite !Z.shiftr_div_pow2 by lia. change (2 ^ 18) with 262144. change (2 ^ 12) with 4096. change (2 ^ 6) with 64.
  rewrite (b64_char_mod (n / 262144)), (b64_char_mod (n / 4096)), (b64_char_mod (n / 64)), (b64_char_mod n).
  destruct c as [|a [|b [|d [|]]]]; cbn in L; try lia; reflexivity.
Qed.

Lemma b64_bytes_groups c :
  Forall is_byte c -> (1 <= length c <= 3)%nat -> b64_bytes (b64_char <$> b64_groups c) = Some c.
Proof.
  intros F L. unfold b64_bytes. rewrite b64_acc_start by (apply b64_groups_range || (unfold zlen, b64_groups; rewrite length_take; cbn; lia)).
  cbn [mbind option_bind]. f_equal. rewrite !Z.shiftr_div_pow2, !land255 by lia.
  destruct c as [|a [|b [|d [|]]]]; cbn in L; try lia.
  - inversion F as [|? ? Ha _]; subst. unfold is_byte in Ha. cbn -[Z.div Z.modulo Z.mul Z.add Z.pow].
    f_equal. unfold at_. cbn [nth]. Z.div_mod_to_equations. lia.
  - inversion F as [|? ? Ha F']; subst. inversion F' as [|? ? Hb _]; subst. unfold is_byte in *.
    cbn -[Z.div Z.modulo Z.mul Z.add Z.pow]. unfold at_. cbn [nth]. f_equal; [|f_equal]; Z.div_mod_to_equations; lia.
  - inversion F as [|? ? Ha F']; subst. inversion F' as [|? ? Hb F'']; subst. inversion F'' as [|? ? Hd _]; subst.
    unfold is_byte in *. cbn -[Z.div Z.modulo Z.mul Z.add Z.pow]. unfold at_. cbn [nth].
    f_equal; [|f_equal; [|f_equal]]; Z.div_mod_to_equations; lia.
Qed.

Definition b64_clean (b : Z) : bool := negb (b =? 61) && negb (is_ascii_whitespace b).

Lemma filter_clean vs :
  Forall (fun v => 0 <= v < 64) vs -> List.filter b64_clean (b64_char <$> vs) = b64_char <$> vs.
Proof.
  induction 1 as [|v vs Hv F IH]; [done|]. cbn [fmap list_fmap List.filter].
  unfold b64_clean at 1. destruct (b64_char_clean v Hv) as [-> _]. f_equal. exact IH.
Qed.

Lemma filter_chunk c :
  Forall is_byte c -> (1 <= length c <= 3)%nat ->
  List.filter b64_clean (b64_chunk c) = b64_char <$> b64_groups c.
Proof.
  intros F L. rewrite b64_chunk_groups, List.filter_app, filter_clean by (done || apply b64_groups_range).
  rewrite <- (app_nil_r (b64_char <$> b64_groups c)) at 2. f_equal.
  induction (3 - length c)%nat as [|k IH]; [done|exact IH].
Qed.

Lemma groups_len c : (length c <= 3)%nat -> length (b64_char <$> b64_groups c) = S (length c).
Proof. intros. rewrite length_fmap. unfold b64_groups. rewrite length_take. cbn. lia. Qed.

Lemma b64_decode_chunks data :
  Forall is_byte data ->
  exists ls, mapM b64_bytes (chunks 4 (List.filter b64_clean (base64_encode data))) = Some ls
    /\ List.concat ls = data.
Proof.
  remember (length data) as k eqn:Hk. revert data Hk. induction k as [k IH] using lt_wf_ind.
  intros data -> F. unfold base64_encode in *. destruct (decide (length data <= 3)%nat) as [Hs|Hl].
  - destruct data as [|a data]; [by exists []|].
    assert (1 <= length (a :: data))%nat by (cbn; lia).
    rewrite (chunks_short 3) by (done || lia). cbn [flat_map]. rewrite app_nil_r, filter_chunk by (done || lia).
    rewrite (chunks_short 4); [|intros E; apply (f_equal length) in E; rewrite groups_len in E by lia; done
                              |rewrite groups_len by lia; lia].
    cbn [mapM]. rewrite b64_bytes_groups by (done || lia). eexists. split; [done|]. cbn. by rewrite app_nil_r.
  - rewrite <- (take_drop 3 data) in F |- *. set (c := take 3 data) in *. set (r := drop 3 data) in *.
    assert (length c = 3)%nat as Lc by (unfold c; rewrite length_take; lia).
    apply Forall_app in F as [Fc Fr]. rewrite (chunks_app 3) by (done || lia). cbn [flat_map].
    rewrite List.filter_app, filter_chunk by (done || lia).
    rewrite (chunks_app 4) by (lia || (rewrite groups_len by lia; lia)).
    destruct (IH (length r)) with (data := r) as (ls & E & <-); [unfold r; rewrite length_drop; lia|done|done|].
    cbn [mapM]. rewrite b64_bytes_groups by (done || lia). cbn [mbind option_bind]. rewrite E.
    eexists. split; [done|]. done.
Qed.

Lemma base64_decode_encode data : Forall is_byte data -> base64_decode (base64_encode data) = Ok data.
Proof.
  intros F. destruct (b64_decode_chunks data F) as (ls & E & <-). unfold base64_decode.
  fold b64_clean. change (fun b : Z => negb (b =? 61) && negb (is_ascii_whitespace b)) with b64_clean.
  by rewrite E.
Qed.

(** The text has no comma and is printable ASCII. *)
Lemma base64_printable data :
  Forall is_byte data -> Forall (fun c => 33 <= c <= 126 /\ c <> 44) (base64_encode data).
Proof.
  intros F. unfold base64_encode.
  remember (length data) as k eqn:Hk. revert data Hk F. induction k as [k IH] using lt_wf_ind.
  intros data -> F.
  assert (forall c, Forall is_byte c -> (1 <= length c <= 3)%nat ->
            Forall (fun c => 33 <= c <= 126 /\ c <> 44) (b64_chunk c)) as HC.
  { intros c Fc Lc. rewrite b64_chunk_groups by done. apply Forall_app. split.
    - apply Forall_fmap. eapply Forall_impl; [apply b64_groups_range|]. intros v Hv.
      destruct (b64_char_clean v Hv) as (_ & ? & ?). done.
    - apply Forall_replicate. lia. }
  destruct (decide (length data <= 3)%nat) as [Hs|Hl].
  - destruct data as [|a data]; [constructor|]. rewrite (chunks_short 3) by (done || lia). cbn [flat_map].
    rewrite app_nil_r. apply HC; [done|cbn in *; lia].
  - rewrite <- (take_drop 3 data) in F |- *. apply Forall_app in F as [Fc Fr].
    rewrite (chunks_app 3) by (rewrite ?length_take; lia). cbn [flat_map]. apply Forall_app. split.
    + apply HC; [done|]. rewrite length_take. lia.
    + eapply IH; [|reflexivity|done]. rewrite length_drop. lia.
Qed.

(** ** Digests *)

Lemma sha_round_length st k w : length st = 8%nat -> length (sha_round st k w) = 8%nat.
Proof. intros. by destruct st as [|? [|? [|? [|? [|? [|? [|? [|? [|]]]]]]]]]. Qed.

Lemma sha_chunk_length h c : length h = 8%nat -> length (sha_chunk h c) = 8%nat.
Proof.
  intros Hh. unfold sha_chunk. rewrite length_zip_with.
  assert (forall l st, length st = 8%nat ->
    length (foldl (fun st kw => sha_round st (fst kw) (snd kw)) st l) = 8%nat) as HF.
  { induction l as [|kw l IH]; intros st Hst; [done|]. cbn [foldl]. by apply IH, sha_round_length. }
  rewrite HF by done. lia.
Qed.

Lemma flat_bytes_length (f : Z -> list Z) k l :
  (forall v, length (f v) = k) -> length (flat_map f l) = (k * length l)%nat.
Proof. intros H. induction l as [|v l IH]; [cbn; lia|]. cbn [flat_map length]. rewrite length_app, H, IH. lia. Qed.

Lemma flat_bytes_byte (f : Z -> list Z) l : (forall v, Forall is_byte (f v)) -> Forall is_byte (flat_map f l).
Proof. intros H. induction l as [|v l IH]; [constructor|]. cbn [flat_map]. apply Forall_app. by split. Qed.

Lemma sha256_shape d : length (sha256 d) = 32%nat /\ Forall is_byte (sha256 d).
Proof.
  unfold sha256. split; [|apply flat_bytes_byte; intros; apply be_bytes_byte].
  rewrite (flat_bytes_length _ 4) by (intros; unfold be_bytes; rewrite length_reverse; apply length_le_bytes).
  assert (forall cs h, length h = 8%nat -> length (foldl sha_chunk h cs) = 8%nat) as HF.
  { induction cs as [|c cs IH]; intros h Hh; [done|]. cbn [foldl]. by apply IH, sha_chunk_length. }
  by rewrite HF.
Qed.

Lemma md5_shape d : length (md5 d) = 16%nat /\ Forall is_byte (md5 d).
Proof.
  unfold md5. split; [|apply flat_bytes_byte; intros; apply le_bytes_byte].
  rewrite (flat_bytes_length _ 4) by (intros; apply length_le_bytes).
  assert (forall m l st, length st = 4%nat -> length (foldl (md5_round m) st l) = 4%nat) as HR.
  { intros m. induction l as [|i l IH]; intros st Hst; [done|]. cbn [foldl]. apply IH.
    destruct st as [|? [|? [|? [|? [|]]]]]; try done. unfold md5_round. by destruct (md5_mix _ _ _ _). }
  assert (forall cs h, length h = 4%nat -> length (foldl md5_chunk h cs) = 4%nat) as HF.
  { induction cs as [|c cs IH]; intros h Hh; [done|]. cbn [foldl]. apply IH. unfold md5_chunk.
    rewrite length_zip_with, HR by done. lia. }
  by rewrite HF.
Qed.

Lemma hmac_shape k m : length (hmac_sha256 k m) = 32%nat /\ Forall is_byte (hmac_sha256 k m).
Proof. apply sha256_shape. Qed.

Lemma byte_lxor a b : is_byte a -> is_byte b -> is_byte (Z.lxor a b).
Proof. apply (lxor_range 8). lia. Qed.

Lemma zip_lxor_shape a b :
  length a = length b -> Forall is_byte a -> Forall is_byte b ->
  length (zip_with Z.lxor a b) = length a /\ Forall is_byte (zip_with Z.lxor a b).
Proof.
  intros L Fa Fb. split; [rewrite length_zip_with; lia|]. revert b L Fb.
  induction Fa as [|x a Hx Fa IH]; intros [|y b] L Fb; try done. inversion Fb; subst.
  cbn. constructor; [by apply byte_lxor|apply IH; [cbn in L; lia|done]].
Qed.

Lemma pbkdf2_shape p s n : length (pbkdf2_sha256 p s n) = 32%nat /\ Forall is_byte (pbkdf2_sha256 p s n).
Proof.
  unfold pbkdf2_sha256.
  assert (forall k u r, length r = 32%nat -> Forall is_byte r ->
    length (pbkdf2_loop k p u r) = 32%nat /\ Forall is_byte (pbkdf2_loop k p u r)) as H.
  { induction k as [|k IH]; intros u r L F; [done|]. cbn [pbkdf2_loop].
    destruct (hmac_shape p u) as [Lh Fh].
    destruct (zip_lxor_shape r (hmac_sha256 p u)) as [Lz Fz]; [lia|done|done|].
    apply IH; [lia|done]. }
  apply H; apply hmac_shape.
Qed.

Lemma pad_length f d : (forall v, zlen (f v) = 8) -> zlen (pad f d) mod 64 = 0.
Proof.
  intros H. unfold pad. rewrite !zlen_app, H. change (zlen [0x80]) with 1.
  pose proof (Z.mod_pos_bound (55 - zlen d) 64 ltac:(lia)). rewrite zlen_replicate by lia.
  Z.div_mod_to_equations. lia.
Qed.

(** * Theorems *)

(** Base64 decoding inverts encoding for every byte string, and the
    encoded text is printable ASCII without commas (so it can be a SCRAM
    attribute value). *)
Theorem base64_roundtrip data :
  Forall is_byte data ->
  base64_decode (base64_encode data) = Ok data
  /\ Forall (fun c => 33 <= c <= 126 /\ c <> 44) (base64_encode data).
Proof. intros F. split; [by apply base64_decode_encode|by apply base64_printable]. Qed.

Lemma base64_roundtrip_witness :
  Forall is_byte [0; 255; 16; 131] /\ base64_decode (base64_encode [0; 255; 16; 131]) = Ok [0; 255; 16; 131].
Proof.
  assert (Forall is_byte [0; 255; 16; 131]) as F by (repeat constructor; discriminate).
  split; [exact F|]. apply (base64_roundtrip [0; 255; 16; 131] F).
Defined.

(** The digests are total functions of the right shape on every input:
    padding fills whole 64-byte chunks (so no input byte is dropped by
    [chunks_exact]), every schedule chunk has 64 bytes, and SHA-256, HMAC and
    PBKDF2 yield 32 bytes, MD5 16 bytes. *)
Theorem digest_shapes data key salt n :
  Forall (fun c => length c = 64%nat) (chunks 64 (pad (be_bytes 8) data))
  /\ Forall (fun c => length c = 64%nat) (chunks 64 (pad (le_bytes 8) data))
  /\ (length (sha256 data) = 32%nat /\ Forall is_byte (sha256 data))
  /\ (length (hmac_sha256 key data) = 32%nat /\ Forall is_byte (hmac_sha256 key data))
  /\ (length (pbkdf2_sha256 key salt n) = 32%nat /\ Forall is_byte (pbkdf2_sha256 key salt n))
  /\ (length (md5 data) = 16%nat /\ Forall is_byte (md5 data)).
Proof.
  assert (forall f, (forall v, zlen (f v) = 8) ->
    Forall (fun c => length c = 64%nat) (chunks 64 (pad f data))) as HP.
  { intros f Hf. apply chunks_length; [lia|]. pose proof (pad_length f data Hf) as H. unfold zlen in H.
    apply Nat2Z.inj. rewrite Nat2Z.inj_mod. exact H. }
  split; [apply HP; intros; apply zlen_be_bytes|]. split; [apply HP; intros; apply zlen_le_bytes|].
  split; [apply sha256_shape|]. split; [apply hmac_shape|]. split; [apply pbkdf2_shape|apply md5_shape].
Qed.
