(* ===== verification/Auth.v ===== *)
(** Server-side SCRAM-SHA-256 and the MD5 password digest of
    crates/auth/src/auth.rs. *)

From S2P Require Import Prelude Utf8 Crypto.

Definition SCRAM_ITERATIONS : Z := 4096.

(** * String helpers of the standard library *)

(** [s.splitn(3, ',').nth(2)]: what follows the second comma. *)
Definition after_second_comma (s : str) : option str :=
  '(_, r) ← split_once 44 s; '(_, r) ← split_once 44 r; Some r.

(** [s[..s.rfind(pat)?]]: what precedes the last occurrence of [pat]. *)
Fixpoint before_last (pat s : str) : option str :=
  match s with
  | [] => if starts_with [] pat then Some [] else None
  | x :: s' =>
      match before_last pat s' with
      | Some p => Some (x :: p)
      | None => if starts_with s pat then Some [] else None
      end
  end.

(** * SCRAM *)

Record ScramServer := mk_scram {
  password : str;
  salt : list Z;
  server_nonce : str;
  client_first_bare : str;
  server_first_msg : str;
  combined_nonce : str
}.

(** [attr]: the value of the first [key=value] part with a one-byte key. *)
Definition attr (s : str) (key : Z) : option str :=
  head (omap (fun kv => '(k, v) ← split_once 61 kv; if bool_decide (k = [key]) then Some v else None) (split 44 s)).

(** [ScramServer::new], with the two calls of [random_bytes] as arguments. *)
Definition scram_new (pw : str) (random_salt random_nonce : list Z) : ScramServer :=
  mk_scram pw random_salt (base64_encode random_nonce) [] [] [].

Definition server_first (self : ScramServer) (client_first : list Z) : ScramServer * result str (list Z) :=
  if negb (utf8_valid client_first) then (self, Err (lit "invalid SASL utf-8"))
  else
    match after_second_comma client_first with
    | None => (self, Err (lit "malformed client-first"))
    | Some bare =>
        let self := mk_scram (password self) (salt self) (server_nonce self) bare
                      (server_first_msg self) (combined_nonce self) in
        match attr bare 114 with
        | None => (self, Err (lit "client-first missing r="))
        | Some client_nonce =>
            let combined := client_nonce ++ server_nonce self in
            let msg := lit "r=" ++ combined ++ lit ",s=" ++ base64_encode (salt self) ++ lit ",i=4096" in
            (mk_scram (password self) (salt self) (server_nonce self) bare msg combined, Ok msg)
        end
    end.

(** The key derivation shared by both sides. *)
Definition salted_password (pw : str) (salt : list Z) : list Z := pbkdf2_sha256 pw salt SCRAM_ITERATIONS.

(** [server_final] after the message has been taken apart: check the proof
    against the stored key and sign the exchange. *)
Definition check_proof (self : ScramServer) (proof : list Z) (without_proof : str) : result str (list Z) :=
  let auth_message := client_first_bare self ++ lit "," ++ server_first_msg self ++ lit "," ++ without_proof in
  let salted := salted_password (password self) (salt self) in
  let client_key := hmac_sha256 salted (lit "Client Key") in
  let stored_key := sha256 client_key in
  let client_sig := hmac_sha256 stored_key auth_message in
  let recovered := zip_with Z.lxor proof client_sig in
  if negb (str_eqb (sha256 recovered) stored_key) then Err (lit "password authentication failed")
  else
    let server_key := hmac_sha256 salted (lit "Server Key") in
    let server_sig := hmac_sha256 server_key auth_message in
    Ok (lit "v=" ++ base64_encode server_sig).

Definition server_final (self : ScramServer) (client_final : list Z) : result str (list Z) :=
  if negb (utf8_valid client_final) then Err (lit "invalid SASL utf-8")
  else
    nonce ← ok_or (attr client_final 114) (lit "client-final missing r=");
    if negb (str_eqb nonce (combined_nonce self)) then Err (lit "SCRAM nonce mismatch")
    else
      proof_b64 ← ok_or (attr client_final 112) (lit "client-final missing p=");
      proof ← base64_decode proof_b64;
      if negb (zlen proof =? 32) then Err (lit "invalid SCRAM proof length")
      else
        without_proof ← ok_or (before_last (lit ",p=") client_final) (lit "malformed client-final");
        check_proof self proof without_proof.

(** [md5_password_digest] *)
Definition md5_password_digest (pw username : str) (salt : list Z) : str :=
  lit "md5" ++ md5_hex (md5_hex (pw ++ username) ++ salt).

(** * Specification: a client that follows RFC 5802 *)

Definition client_first_bare_of (user cnonce : str) : str := lit "n=" ++ user ++ lit ",r=" ++ cnonce.
Definition client_first_of (user cnonce : str) : str := lit "n,," ++ client_first_bare_of user cnonce.

(** The client-final message of a client that knows [pw], given the
    server-first message [sf] with nonce [nonce] and salt [salt]. *)
Definition client_final_of (pw : str) (bare sf nonce : str) (salt : list Z) : str :=
  let without_proof := lit "c=biws,r=" ++ nonce in
  let auth_message := bare ++ lit "," ++ sf ++ lit "," ++ without_proof in
  let client_key := hmac_sha256 (salted_password pw salt) (lit "Client Key") in
  let client_sig := hmac_sha256 (sha256 client_key) auth_message in
  without_proof ++ lit ",p=" ++ base64_encode (zip_with Z.lxor client_key client_sig).

(** Printable ASCII without a comma. *)
Definition token (s : str) : Prop := Forall (fun c => 32 <= c <= 126 /\ c <> 44) s.

(** A full exchange: the server's answers to both client messages. *)
Definition exchange (srv : ScramServer) (cf : str) (final : ScramServer -> str) : result str (list Z) :=
  match server_first srv cf with
  | (srv, Err e) => Err e
  | (srv, Ok _) => server_final srv (final srv)
  end.

(** * Proofs *)

Lemma before_last_none c pat s : Forall (fun x => x <> c) s -> before_last (c :: pat) s = None.
Proof.
  induction 1 as [|x s Hx F IH]; [done|]. cbn [before_last]. rewrite IH. unfold starts_with.
  rewrite bool_decide_eq_false_2; [done|]. cbn. congruence.
Qed.

Lemma before_last_app c pat a b :
  Forall (fun x => x <> c) pat -> Forall (fun x => x <> c) b ->
  before_last (c :: pat) (a ++ (c :: pat) ++ b) = Some a.
Proof.
  intros Fp Fb. induction a as [|x a IH]; cbn [app before_last].
  - rewrite before_last_none by (by apply Forall_app). unfold starts_with.
    rewrite bool_decide_eq_true_2; [done|]. cbn [length take]. f_equal. apply take_app_length.
  - cbn [app] in IH. by rewrite IH.
Qed.

Lemma token_no_comma s : token s -> Forall (fun x => x <> 44) s.
Proof. intros H. eapply Forall_impl; [exact H|]. by intros x [_ ?]. Qed.

Lemma token_ascii s : token s -> Forall (fun b => b < 128) s.
Proof. intros H. eapply Forall_impl; [exact H|]. intros x [? _]. lia. Qed.

Lemma token_base64 d : Forall is_byte d -> token (base64_encode d).
Proof. intros F. eapply Forall_impl; [by apply base64_printable|]. cbn. intros x [? ?]. lia. Qed.

Lemma token_app a b : token a -> token b -> token (a ++ b).
Proof. intros. by apply Forall_app. Qed.

Lemma attr_hit (k : Z) v rest :
  k <> 61 -> k <> 44 -> Forall (fun x => x <> 44) v ->
  attr (k :: 61 :: v) k = Some v /\ attr ((k :: 61 :: v) ++ 44 :: rest) k = Some v.
Proof.
  intros Hk Hc Fv. assert (Forall (fun x => x <> 44) (k :: 61 :: v)) as F by (repeat constructor; done).
  unfold attr. rewrite split_none, split_app by done.
  cbn [omap list_omap split_once]. zfalse (k =? 61). cbn [Z.eqb Pos.eqb mbind option_bind].
  rewrite bool_decide_eq_true_2 by done. done.
Qed.

Lemma attr_skip (k key : Z) v rest :
  k <> 61 -> k <> 44 -> k <> key -> Forall (fun x => x <> 44) v ->
  attr ((k :: 61 :: v) ++ 44 :: rest) key = attr rest key.
Proof.
  intros Hk Hc Hn Fv. assert (Forall (fun x => x <> 44) (k :: 61 :: v)) as F by (repeat constructor; done).
  unfold attr. rewrite split_app by done. cbn [omap list_omap split_once]. zfalse (k =? 61).
  cbn [Z.eqb Pos.eqb mbind option_bind]. rewrite bool_decide_eq_false_2 by congruence. done.
Qed.

Lemma lit_ascii_b s : forallb (fun c => (0 <=? c) && (c <? 128)) s = true -> Forall (fun b => b < 128) s.
Proof.
  intros H. apply Forall_forall. intros x Hx. rewrite forallb_forall in H.
  apply list_elem_of_In in Hx. specialize (H x Hx). zb. lia.
Qed.

(** The server's answer to a client-first message. *)
Lemma server_first_ok self user cnonce :
  token user -> token cnonce ->
  let combined := cnonce ++ server_nonce self in
  let msg := lit "r=" ++ combined ++ lit ",s=" ++ base64_encode (salt self) ++ lit ",i=4096" in
  server_first self (client_first_of user cnonce)
  = (mk_scram (password self) (salt self) (server_nonce self) (client_first_bare_of user cnonce) msg combined, Ok msg).
Proof.
  intros Hu Hn combined msg. unfold server_first, client_first_of.
  assert (Forall (fun b => b < 128) (client_first_bare_of user cnonce)) as A.
  { unfold client_first_bare_of. apply Forall_app. split; [by apply lit_ascii_b|].
    apply Forall_app. split; [by apply token_ascii|]. apply Forall_app.
    split; [by apply lit_ascii_b|by apply token_ascii]. }
  rewrite utf8_valid_ascii by (apply Forall_app; split; [by apply lit_ascii_b|done]).
  cbn [negb]. change (after_second_comma (lit "n,," ++ client_first_bare_of user cnonce))
    with (Some (client_first_bare_of user cnonce)). cbv iota.
  replace (attr (client_first_bare_of user cnonce) 114) with (Some cnonce); [done|]. symmetry.
  unfold client_first_bare_of.
  change (lit "n=" ++ user ++ lit ",r=" ++ cnonce) with ((110 :: 61 :: user) ++ 44 :: 114 :: 61 :: cnonce).
  rewrite attr_skip by (done || by apply token_no_comma). by apply (attr_hit 114 cnonce []); [..|apply token_no_comma].
Qed.

Lemma final_parts nonce proof :
  token nonce -> Forall is_byte proof ->
  let s := (lit "c=biws,r=" ++ nonce) ++ lit ",p=" ++ base64_encode proof in
  utf8_valid s = true /\ attr s 114 = Some nonce /\ attr s 112 = Some (base64_encode proof)
  /\ before_last (lit ",p=") s = Some (lit "c=biws,r=" ++ nonce).
Proof.
  intros Hn Fp s. pose proof (token_base64 _ Fp) as Tb.
  assert (s = (99 :: 61 :: lit "biws") ++ 44 :: (114 :: 61 :: nonce) ++ 44 :: 112 :: 61 :: base64_encode proof) as Es.
  { unfold s. change (lit "c=biws,r=") with (99 :: 61 :: lit "biws" ++ [44; 114; 61]).
    cbn [app]. rewrite <- !app_assoc. done. }
  assert (Forall (fun x => x <> 44) (lit "biws")) as Fb.
  { apply Forall_forall. intros x Hx. apply list_elem_of_In in Hx. vm_compute in Hx. lia. }
  split_and!.
  - apply utf8_valid_ascii. unfold s. repeat (apply Forall_app; split);
      first [by apply lit_ascii_b | by apply token_ascii].
  - rewrite Es, attr_skip by done. by apply attr_hit; [..|apply token_no_comma].
  - rewrite Es, attr_skip by done. rewrite attr_skip by (done || by apply token_no_comma).
    by apply (attr_hit 112 _ []); [..|apply token_no_comma].
  - unfold s. change (lit ",p=") with (44 :: [112; 61]). apply before_last_app; [repeat constructor; done|].
    by apply token_no_comma.
Qed.

Lemma lxor_twice a b : length a = length b -> zip_with Z.lxor (zip_with Z.lxor a b) b = a.
Proof.
  revert b. induction a as [|x a IH]; intros [|y b] L; try done. cbn. f_equal; [|apply IH; cbn in L; lia].
  by rewrite Z.lxor_assoc, Z.lxor_nilpotent, Z.lxor_0_r.
Qed.

(** An honest proof passes the check. *)
Lemma check_proof_honest self wp :
  let ck := hmac_sha256 (salted_password (password self) (salt self)) (lit "Client Key") in
  let am := client_first_bare self ++ lit "," ++ server_first_msg self ++ lit "," ++ wp in
  check_proof self (zip_with Z.lxor ck (hmac_sha256 (sha256 ck) am)) wp
  = Ok (lit "v=" ++ base64_encode (hmac_sha256 (hmac_sha256 (salted_password (password self) (salt self)) (lit "Server Key")) am)).
Proof.
  intros ck am. unfold check_proof. fold ck. fold am.
  rewrite lxor_twice by (unfold ck; by rewrite (proj1 (hmac_shape _ _)), (proj1 (hmac_shape _ _))).
  unfold str_eqb. rewrite bool_decide_eq_true_2 by reflexivity. reflexivity.
Qed.

(** A well-formed client-final for the right nonce reaches the proof check. *)
Lemma server_final_reaches self proof :
  token (combined_nonce self) -> Forall is_byte proof -> length proof = 32%nat ->
  server_final self ((lit "c=biws,r=" ++ combined_nonce self) ++ lit ",p=" ++ base64_encode proof)
  = check_proof self proof (lit "c=biws,r=" ++ combined_nonce self).
Proof.
  intros Tn Fp Lp. destruct (final_parts (combined_nonce self) proof Tn Fp) as (U & A1 & A2 & B).
  unfold server_final. rewrite U, A1, A2, B. cbn [negb ok_or mbind result_bind].
  unfold str_eqb. rewrite bool_decide_eq_true_2 by reflexivity. cbn [negb].
  rewrite base64_decode_encode by done. cbn [mbind result_bind].
  replace (zlen proof =? 32) with true by (symmetry; apply Z.eqb_eq; unfold zlen; lia). reflexivity.
Qed.

Lemma server_final_honest self :
  token (combined_nonce self) ->
  server_final self (client_final_of (password self) (client_first_bare self) (server_first_msg self)
                       (combined_nonce self) (salt self))
  = Ok (lit "v=" ++ base64_encode
          (hmac_sha256 (hmac_sha256 (salted_password (password self) (salt self)) (lit "Server Key"))
             (client_first_bare self ++ lit "," ++ server_first_msg self ++ lit ","
              ++ (lit "c=biws,r=" ++ combined_nonce self)))).
Proof.
  intros Tn. unfold client_final_of.
  assert (forall k1 m1 k2 m2, length (zip_with Z.lxor (hmac_sha256 k1 m1) (hmac_sha256 k2 m2)) = 32%nat
    /\ Forall is_byte (zip_with Z.lxor (hmac_sha256 k1 m1) (hmac_sha256 k2 m2))) as H.
  { intros. destruct (hmac_shape k1 m1) as [L1 F1]. destruct (hmac_shape k2 m2) as [L2 F2].
    destruct (zip_lxor_shape (hmac_sha256 k1 m1) (hmac_sha256 k2 m2)) as [L F]; [congruence|exact F1|exact F2|].
    split; [congruence|exact F]. }
  rewrite server_final_reaches; [apply check_proof_honest|exact Tn|apply H|apply H].
Qed.

(** What an accepted client-final message carries. *)
Lemma server_final_proof self cf v : server_final self cf = Ok v ->
  exists proof wp, attr cf 114 = Some (combined_nonce self) /\ length proof = 32%nat /\ before_last (lit ",p=") cf = Some wp
    /\ let sk := sha256 (hmac_sha256 (salted_password (password self) (salt self)) (lit "Client Key")) in
       let am := client_first_bare self ++ lit "," ++ server_first_msg self ++ lit "," ++ wp in
       sha256 (zip_with Z.lxor proof (hmac_sha256 sk am)) = sk.
Proof.
  unfold server_final. destruct (utf8_valid cf); [|done]. cbn [negb].
  destruct (attr cf 114) as [nonce|]; [|done]. cbn [ok_or mbind result_bind].
  unfold str_eqb. case_bool_decide as En; [|done]. cbn [negb]. subst nonce.
  destruct (attr cf 112) as [p64|]; [|done]. cbn [ok_or mbind result_bind].
  destruct (base64_decode p64) as [proof|e]; [|done]. cbn [mbind result_bind].
  destruct (zlen proof =? 32) eqn:Lp; [|done]. zb. cbn [negb].
  destruct (before_last (lit ",p=") cf) as [wp|]; [|done]. cbn [ok_or mbind result_bind].
  intros H. exists proof, wp. split_and!; [done|unfold zlen in Lp; lia|done|]. unfold check_proof in H. cbv zeta.
  unfold str_eqb in H. case_bool_decide as Ek; [done|]. discriminate H.
Qed.

(** * Theorems *)

#[local] Strategy opaque [salted_password hmac_sha256 sha256 pbkdf2_sha256].

(** SCRAM completeness.  A client that follows the RFC and knows the
    password is authenticated, whatever the salt, the nonces and the user name
    (printable, comma-free), and receives the server signature over the full
    transcript, computed from the same salted password. *)
Theorem scram_complete pw user cnonce rsalt rnonce :
  token user -> token cnonce -> Forall is_byte rnonce ->
  let nonce := cnonce ++ base64_encode rnonce in
  let bare := client_first_bare_of user cnonce in
  let sf := lit "r=" ++ nonce ++ lit ",s=" ++ base64_encode rsalt ++ lit ",i=4096" in
  exchange (scram_new pw rsalt rnonce) (client_first_of user cnonce)
    (fun _ => client_final_of pw bare sf nonce rsalt)
  = Ok (lit "v=" ++ base64_encode
          (hmac_sha256 (hmac_sha256 (salted_password pw rsalt) (lit "Server Key"))
             (bare ++ lit "," ++ sf ++ lit "," ++ (lit "c=biws,r=" ++ nonce)))).
Proof.
  intros Hu Hc Fr nonce bare sf. unfold exchange.
  rewrite (server_first_ok (scram_new pw rsalt rnonce) user cnonce Hu Hc).
  apply server_final_honest. apply token_app; [done|by apply token_base64].
Qed.

Lemma scram_complete_witness :
  exists sig, exchange (scram_new (lit "secret") [1; 2; 3] [4; 5; 6]) (client_first_of (lit "bob") (lit "rOprNGfw"))
    (fun _ => client_final_of (lit "secret") (client_first_bare_of (lit "bob") (lit "rOprNGfw"))
       (lit "r=" ++ (lit "rOprNGfw" ++ base64_encode [4; 5; 6]) ++ lit ",s=" ++ base64_encode [1; 2; 3] ++ lit ",i=4096")
       (lit "rOprNGfw" ++ base64_encode [4; 5; 6]) [1; 2; 3]) = Ok (lit "v=" ++ base64_encode sig).
Proof.
  eexists. apply (scram_complete (lit "secret") (lit "bob") (lit "rOprNGfw") [1; 2; 3] [4; 5; 6]).
  - repeat constructor; discriminate.
  - repeat constructor; discriminate.
  - repeat constructor; discriminate.
Defined.

(** SCRAM soundness.  An accepted client-final carries exactly the combined
    nonce of this exchange and a 32-byte proof that unmasks (with the signature
    of the whole transcript) to a preimage of the stored key; and it is rejected
    by any exchange with another combined nonce, so it cannot be replayed. *)
Theorem scram_sound self cf v :
  server_final self cf = Ok v ->
  (exists proof wp, attr cf 114 = Some (combined_nonce self)
    /\ length proof = 32%nat /\ before_last (lit ",p=") cf = Some wp
    /\ let sk := sha256 (hmac_sha256 (salted_password (password self) (salt self)) (lit "Client Key")) in
       let am := client_first_bare self ++ lit "," ++ server_first_msg self ++ lit "," ++ wp in
       sha256 (zip_with Z.lxor proof (hmac_sha256 sk am)) = sk)
  /\ forall other, combined_nonce other <> combined_nonce self ->
       server_final other cf = Err (lit "SCRAM nonce mismatch").
Proof.
  intros H. split; [by eapply server_final_proof|]. intros other Hne.
  unfold server_final in *. destruct (utf8_valid cf); [|done]. cbn [negb] in *.
  destruct (attr cf 114) as [nonce|]; [|done]. cbn [ok_or mbind result_bind] in *.
  unfold str_eqb in *. case_bool_decide as En; [|done]. cbn [negb] in *. subst nonce.
  case_bool_decide as E; [congruence|done].
Qed.

Lemma scram_sound_witness :
  let srv := mk_scram (lit "secret") [1; 2; 3] (base64_encode [4; 5; 6]) (client_first_bare_of (lit "bob") (lit "r"))
    (lit "r=" ++ (lit "r" ++ base64_encode [4; 5; 6]) ++ lit ",s=" ++ base64_encode [1; 2; 3] ++ lit ",i=4096")
    (lit "r" ++ base64_encode [4; 5; 6]) in
  let cf := client_final_of (lit "secret") (client_first_bare srv) (server_first_msg srv) (combined_nonce srv) [1; 2; 3] in
  (exists v, server_final srv cf = Ok v)
  /\ server_final (mk_scram (lit "secret") [1; 2; 3] [] [] [] (lit "other")) cf = Err (lit "SCRAM nonce mismatch").
Proof.
  cbv zeta.
  assert (token (lit "bob")) as T1 by (repeat constructor; discriminate).
  assert (token (lit "r")) as T2 by (repeat constructor; discriminate).
  assert (Forall is_byte [4; 5; 6]) as F by (repeat constructor; discriminate).
  pose proof (scram_complete (lit "secret") (lit "bob") (lit "r") [1; 2; 3] [4; 5; 6] T1 T2 F) as E.
  unfold exchange in E.
  rewrite (server_first_ok (scram_new (lit "secret") [1; 2; 3] [4; 5; 6]) (lit "bob") (lit "r") T1 T2) in E.
  cbn [server_nonce password salt scram_new client_first_bare server_first_msg combined_nonce] in E |- *.
  split; [eexists; exact E|].
  apply (scram_sound _ _ _ E). cbn [combined_nonce]. vm_compute. discriminate.
Defined.
