(* ===== verification/Hba.v ===== *)
(** Host-based authentication rules of crates/auth/src/hba.rs, and the server's
    authentication step that applies them (authenticate, the three password
    exchanges and their helpers in crates/server/src/server.rs). *)

From S2P Require Import Prelude Utf8 Numeric Types Protocol Crypto Auth.

(** * Rules *)

Inductive HbaType := Local | Host | HostSsl | HostNoSsl.
Inductive HbaMethod := Trust | Reject | PasswordAuth | Md5 | ScramSha256.

#[export] Instance HbaType_eq_dec : EqDecision HbaType.
Proof. solve_decision. Defined.
#[export] Instance HbaMethod_eq_dec : EqDecision HbaMethod.
Proof. solve_decision. Defined.

Definition lower (s : str) : str := to_ascii_lower <$> s.

(** [HbaMethod::parse] *)
Definition method_parse (s : str) : option HbaMethod :=
  let l := lower s in
  if str_eqb l (lit "trust") then Some Trust
  else if str_eqb l (lit "reject") then Some Reject
  else if str_eqb l (lit "password") then Some PasswordAuth
  else if str_eqb l (lit "md5") then Some Md5
  else if str_eqb l (lit "scram-sha-256") then Some ScramSha256
  else None.

Inductive HbaAddress :=
| AnyAddr
| Exact (addr : str)
| Loopback
| Cidr (base : list Z) (prefix : Z).

(** [parse_ipv4] *)
Definition parse_ipv4 (s : str) : option (list Z) :=
  let parts := split 46 s in
  if negb (zlen parts =? 4) then None else mapM (parse_uint 8) parts.

(** [ipv4_in_cidr]; the octets are big-endian. *)
Definition ipv4_in_cidr (ip base : list Z) (prefix : Z) : bool :=
  if prefix =? 0 then true
  else
    let mask := Z.shiftl (2 ^ 32 - 1) (32 - prefix) mod 2 ^ 32 in
    Z.land (be_val ip) mask =? Z.land (be_val base) mask.

(** [is_loopback] *)
Definition is_loopback (peer_ip : str) : bool :=
  str_eqb peer_ip [] || str_eqb peer_ip (lit "127.0.0.1") || str_eqb peer_ip (lit "::1")
  || starts_with peer_ip (lit "127.").

(** [HbaAddress::parse] *)
Definition address_parse (s : str) : option HbaAddress :=
  let l := lower s in
  if str_eqb l (lit "all") then Some AnyAddr
  else if str_eqb l (lit "samehost") || str_eqb l (lit "localhost") || str_eqb l (lit "samenet")
  then Some Loopback
  else match split_once 47 s with
       | Some (base, prefix) =>
           octets ← parse_ipv4 base;
           prefix ← parse_uint 8 prefix;
           if 32 <? prefix then None else Some (Cidr octets prefix)
       | None => Some (Exact s)
       end.

(** [HbaAddress::matches] *)
Definition address_matches (a : HbaAddress) (peer_ip : str) : bool :=
  match a with
  | AnyAddr => true
  | Exact addr => str_eqb addr peer_ip
  | Loopback => is_loopback peer_ip
  | Cidr base prefix =>
      match parse_ipv4 peer_ip with Some ip => ipv4_in_cidr ip base prefix | None => false end
  end.

Record HbaRule := mk_rule {
  conn_type : HbaType;
  database : option str;
  user : option str;
  address : HbaAddress;
  method : HbaMethod
}.

Definition opt_matches (o : option str) (s : str) : bool :=
  match o with None => true | Some x => str_eqb x s end.

(** [HbaRule::matches] *)
Definition rule_matches (r : HbaRule) (db usr peer_ip : str) : bool :=
  if negb (opt_matches (database r) db) || negb (opt_matches (user r) usr) then false
  else match conn_type r with
       | Local => is_loopback peer_ip
       | Host | HostSsl | HostNoSsl => address_matches (address r) peer_ip
       end.

Definition type_parse (s : str) : option HbaType :=
  let l := lower s in
  if str_eqb l (lit "local") then Some Local
  else if str_eqb l (lit "host") then Some Host
  else if str_eqb l (lit "hostssl") then Some HostSsl
  else if str_eqb l (lit "hostnossl") then Some HostNoSsl
  else None.

Definition wildcard (s : str) : option str := if str_eqb (lower s) (lit "all") then None else Some s.

(** [parse_rule_line] *)
Definition parse_rule_line (line : str) : option HbaRule :=
  match split_whitespace line with
  | [] => None
  | ty :: fields =>
      ct ← type_parse ty;
      match ct, fields with
      | Local, db :: usr :: m :: _ =>
          m ← method_parse m; Some (mk_rule ct (wildcard db) (wildcard usr) AnyAddr m)
      | Local, _ => None
      | _, db :: usr :: addr :: m :: _ =>
          addr ← address_parse addr;
          m ← method_parse m;
          Some (mk_rule ct (wildcard db) (wildcard usr) addr m)
      | _, _ => None
      end
  end.

(** The part of a line before a hash sign. *)
Definition strip_comment (raw : str) : str :=
  match split_once 35 raw with Some (a, _) => a | None => raw end.

(** [HbaConfig::parse] *)
Definition config_parse (text : str) : list HbaRule :=
  omap (fun raw =>
          let line := trim (strip_comment raw) in
          match line with [] => None | _ => parse_rule_line line end) (lines text).

(** [HbaConfig::match_method] *)
Definition match_method (rules : list HbaRule) (db usr peer_ip : str) : option HbaMethod :=
  method <$> List.find (fun r => rule_matches r db usr peer_ip) rules.

(** * The authentication step of a connection *)

(** The environment variables (and the file [PGRS_HBA] names) that select the
    method; [None] is an unset variable. *)
Record AuthEnv := mk_env {
  pgrs_password : option str;
  pgrs_hba : option str;
  hba_file : option str;
  pgrs_hba_rules : option str;
  pgrs_auth_method : option str
}.

Definition nonempty (o : option str) : option str :=
  match o with Some [] => None | o => o end.

(** [load_hba_config]; an unreadable file reads as empty. *)
Definition load_hba_config (env : AuthEnv) : option (list HbaRule) :=
  match nonempty (pgrs_hba env) with
  | Some _ => Some (config_parse (default [] (hba_file env)))
  | None =>
      match nonempty (pgrs_hba_rules env) with
      | Some rules => Some (config_parse (replace_char 59 [10] rules))
      | None => None
      end
  end.

Inductive AuthOutcome := AuthOk | AuthFailed | AuthRejected.
Definition bool_outcome (ok : bool) : AuthOutcome := if ok then AuthOk else AuthFailed.

(** A connection: the bytes the client will send, and those sent to it. *)
Record Conn := mk_conn { inp : list Z; out : list Z }.
Definition send (b : list Z) (c : Conn) : Conn := mk_conn (inp c) (out c ++ b).

(** [strip_nul] *)
Definition strip_nul (body : list Z) : list Z :=
  match last body with Some 0 => take (length body - 1) body | _ => body end.

(** Read a message and keep it if it is a password message. *)
Definition read_password (c : Conn) : pres (option (list Z) * Conn) :=
  '(m, r) ← read_message (inp c);
  mret (match m with Some (Password body) => Some body | _ => None end, mk_conn r (out c)).

(** [cleartext_authenticate] *)
Definition cleartext_authenticate (expected : str) (c : Conn) : pres (bool * Conn) :=
  let c := send (finish (put_i32 3 (mb_new 82))) c in
  '(m, c) ← read_password c;
  mret (match m with Some body => str_eqb (strip_nul body) expected | None => false end, c).

(** [md5_authenticate]; [secret] is the value of [weak_secret()]. *)
Definition md5_authenticate (secret : Z) (password username : str) (c : Conn) : pres (bool * Conn) :=
  let salt := be_bytes 4 secret in
  let c := send (finish (put_bytes salt (put_i32 5 (mb_new 82)))) c in
  '(m, c) ← read_password c;
  mret (match m with
        | Some body => str_eqb (strip_nul body) (md5_password_digest password username salt)
        | None => false
        end, c).

(** [parse_sasl_initial] *)
Definition parse_sasl_initial (body : list Z) : pres (option (list Z)) :=
  match split_nul body with
  | None => mret None
  | Some (_, rest) =>
      if zlen rest <? 4 then mret None
      else
        len ← index_be 4 rest 0;
        let data := zdrop 4 rest in
        if len <? 0 then mret (Some []) else mret (Some (ztake (Z.min len (zlen data)) data))
  end.

(** [scram_authenticate]; [rsalt] and [rnonce] are what [random_bytes] yields. *)
Definition scram_authenticate (rsalt rnonce : list Z) (password : str) (c : Conn) : pres (bool * Conn) :=
  let c := send (finish (put_u8 0 (put_cstr (lit "SCRAM-SHA-256") (put_i32 10 (mb_new 82))))) c in
  '(m, c) ← read_password c;
  match m with
  | None => mret (false, c)
  | Some body =>
      cf ← parse_sasl_initial body;
      match cf with
      | None => mret (false, c)
      | Some client_first =>
          match server_first (scram_new password rsalt rnonce) client_first with
          | (_, Err _) => mret (false, c)
          | (scram, Ok sf) =>
              let c := send (finish (put_bytes sf (put_i32 11 (mb_new 82)))) c in
              '(m, c) ← read_password c;
              match m with
              | None => mret (false, c)
              | Some client_final =>
                  match server_final scram client_final with
                  | Ok sfin => mret (true, send (finish (put_bytes sfin (put_i32 12 (mb_new 82)))) c)
                  | Err _ => mret (false, c)
                  end
              end
          end
      end
  end.

(** [authenticate] *)
Definition outcome_of (m : pres (bool * Conn)) : pres (AuthOutcome * Conn) :=
  '(ok, c) ← m; mret (bool_outcome ok, c).

Definition authenticate (env : AuthEnv) (secret : Z) (rsalt rnonce : list Z)
    (username db peer_ip : str) (c : Conn) : pres (AuthOutcome * Conn) :=
  let password := default [] (pgrs_password env) in
  match load_hba_config env with
  | Some config =>
      match match_method config db username peer_ip with
      | Some Trust => mret (AuthOk, c)
      | Some Reject | None => mret (AuthRejected, c)
      | Some PasswordAuth => outcome_of (cleartext_authenticate password c)
      | Some Md5 => outcome_of (md5_authenticate secret password username c)
      | Some ScramSha256 => outcome_of (scram_authenticate rsalt rnonce password c)
      end
  | None =>
      match nonempty (pgrs_auth_method env) with
      | None =>
          match password with
          | [] => mret (AuthOk, c)
          | _ => outcome_of (scram_authenticate rsalt rnonce password c)
          end
      | Some m =>
          if str_eqb m (lit "trust") then mret (AuthOk, c)
          else if str_eqb m (lit "password") then outcome_of (cleartext_authenticate password c)
          else if str_eqb m (lit "md5") then outcome_of (md5_authenticate secret password username c)
          else if str_eqb m (lit "scram") then outcome_of (scram_authenticate rsalt rnonce password c)
          else mret (AuthOk, c)
      end
  end.

(** * Specification *)

(** The number of an IPv4 address, and membership in a block. *)
Definition ip_num (o : list Z) : Z := be_val o.
Definition octets_ok (o : list Z) : Prop := length o = 4%nat /\ Forall is_byte o.




(** What the bytes the client sends must be for a method to accept it. *)
Definition accepts (m : HbaMethod) (password username : str) (secret : Z) (rsalt rnonce : list Z)
    (c : Conn) : Prop :=
  match m with
  | Trust => True
  | Reject => False
  | PasswordAuth => exists body r, read_message (inp c) = Val (Ok (Some (Password body), r))
      /\ strip_nul body = password
  | Md5 => exists body r, read_message (inp c) = Val (Ok (Some (Password body), r))
      /\ strip_nul body = md5_password_digest password username (be_bytes 4 secret)
  | ScramSha256 => exists body r cf scram sf final r' v,
      read_message (inp c) = Val (Ok (Some (Password body), r))
      /\ parse_sasl_initial body = Val (Ok (Some cf))
      /\ server_first (scram_new password rsalt rnonce) cf = (scram, Ok sf)
      /\ read_message r = Val (Ok (Some (Password final), r'))
      /\ server_final scram final = Ok v
  end.

(** ** A printer for rules *)

Definition dotted (o : list Z) : str :=
  match o with
  | [a; b; c; d] => i64_display a ++ [46] ++ i64_display b ++ [46] ++ i64_display c ++ [46] ++ i64_display d
  | _ => []
  end.
Definition render_type (t : HbaType) : str :=
  match t with Local => lit "local" | Host => lit "host" | HostSsl => lit "hostssl" | HostNoSsl => lit "hostnossl" end.
Definition render_method (m : HbaMethod) : str :=
  match m with
  | Trust => lit "trust" | Reject => lit "reject" | PasswordAuth => lit "password"
  | Md5 => lit "md5" | ScramSha256 => lit "scram-sha-256"
  end.
Definition render_address (a : HbaAddress) : str :=
  match a with
  | AnyAddr => lit "all" | Loopback => lit "samehost" | Exact s => s
  | Cidr o p => dotted o ++ [47] ++ i64_display p
  end.
Definition render_fields (r : HbaRule) : list str :=
  [render_type (conn_type r); default (lit "all") (database r); default (lit "all") (user r)]
  ++ (if bool_decide (conn_type r = Local) then [] else [render_address (address r)])
  ++ [render_method (method r)].
Fixpoint join (fs : list str) : str :=
  match fs with [] => [] | [f] => f | f :: fs => f ++ 32 :: join fs end.
Definition render_rule (r : HbaRule) : str := join (render_fields r) ++ lit "# rule".
Definition render (rules : list HbaRule) : str := flat_map (fun r => render_rule r ++ [10]) rules.

(** A word: printable ASCII, nonempty, no hash sign. *)
Definition word (s : str) : Prop := s <> [] /\ Forall (fun c => 33 <= c <= 126 /\ c <> 35) s.
Definition name_ok (o : option str) : Prop :=
  match o with None => True | Some s => word s /\ lower s <> lit "all" end.
Definition address_ok (a : HbaAddress) : Prop :=
  match a with
  | AnyAddr | Loopback => True
  | Exact s => word s /\ Forall (fun c => c <> 47) s
               /\ lower s ∉ [lit "all"; lit "samehost"; lit "localhost"; lit "samenet"]
  | Cidr o p => octets_ok o /\ 0 <= p <= 32
  end.
Definition rule_ok (r : HbaRule) : Prop :=
  name_ok (database r) /\ name_ok (user r) /\ address_ok (address r)
  /\ (conn_type r = Local -> address r = AnyAddr).

Example ex_rules :
  match_method (config_parse (lit "# policy
host all all 10.0.0.0/8 md5
host all bob 0.0.0.0/0 reject")) (lit "db") (lit "bob") (lit "192.168.0.1") = Some Reject.
Proof. vm_compute. reflexivity. Qed.

(** * Proofs *)

(** ** Words *)

Lemma ws_len_graph c s : 33 <= c <= 126 -> ws_len ws_chars (c :: s) = 0%nat.
Proof.
  intros Hc. unfold ws_len. rewrite filter_none; [done|]. apply Forall_forall. intros w Hw.
  assert (forallb (fun w => match w with x :: _ => negb ((33 <=? x) && (x <=? 126)) | [] => false end) ws_chars = true)
    as HB by (vm_compute; reflexivity).
  rewrite forallb_forall in HB. apply list_elem_of_In in Hw. specialize (HB w Hw).
  destruct w as [|x w]; [done|]. unfold starts_with. cbn [length take]. intros Hs. apply Is_true_true in Hs.
  apply bool_decide_eq_true in Hs. injection Hs as -> _. zb. lia.
Qed.

Lemma ws_len_space s : ws_len ws_chars (32 :: s) = 1%nat.
Proof.
  unfold ws_len.
  assert (filter (fun w => starts_with (32 :: s) w) ws_chars = [[32]]) as ->; [|done].
  unfold ws_chars. cbn [map app]. unfold starts_with. cbn [length take].
  repeat (rewrite filter_cons; case_decide as HH; [try (apply Is_true_true, bool_decide_eq_true in HH; discriminate HH)|]);
    try done.
  all: try (exfalso; apply HH; by apply Is_true_true, bool_decide_eq_true).
Qed.

Lemma words_graph w fuel cur s :
  Forall (fun c => 33 <= c <= 126) w ->
  words_fuel (length w + fuel) cur (w ++ s) = words_fuel fuel (cur ++ w) s.
Proof.
  intros F. revert cur. induction F as [|c w Hc F IH]; intros cur; [by rewrite app_nil_r|].
  cbn [length Nat.add app words_fuel]. rewrite ws_len_graph by done. rewrite IH, <- app_assoc. done.
Qed.

Lemma word_graph w : word w -> Forall (fun c => 33 <= c <= 126) w.
Proof. intros [_ F]. eapply Forall_impl; [exact F|]. by intros c [? _]. Qed.

Lemma split_ws_one w : word w -> split_whitespace w = [w].
Proof.
  intros W. unfold split_whitespace. rewrite <- (app_nil_r w) at 2. rewrite <- (Nat.add_0_r (length w)).
  rewrite words_graph by (by apply word_graph). destruct W as [N _]. by destruct w.
Qed.

Lemma split_ws_cons w rest : word w -> split_whitespace (w ++ 32 :: rest) = w :: split_whitespace rest.
Proof.
  intros W. unfold split_whitespace. rewrite length_app. cbn [length].
  rewrite words_graph by (by apply word_graph). cbn [app words_fuel]. rewrite ws_len_space. cbn [drop].
  destruct W as [N _]. by destruct w.
Qed.

Lemma split_ws_join fs : Forall word fs -> split_whitespace (join fs) = fs.
Proof.
  induction 1 as [|f fs W F IH]; [done|]. destruct fs as [|g fs]; [by apply split_ws_one|].
  change (join (f :: g :: fs)) with (f ++ 32 :: join (g :: fs)). by rewrite split_ws_cons, IH.
Qed.

(** ** Numbers *)

(** A displayed octet is a word of digits: no dot, slash or hash sign. *)
Lemma display_chars v c : 0 <= v < 256 -> c ∈ i64_display v -> 48 <= c <= 57.
Proof.
  intros Hv Hc. destruct (u64_display_digits v) as (ds & E & D & _); [lia|]. rewrite E in Hc.
  apply list_elem_of_fmap in Hc as (d & -> & Hd). pose proof (proj1 (Forall_forall _ _) D d Hd) as H.
  unfold is_digit in H. unfold digit_char. lia.
Qed.

Lemma display_no v x : 0 <= v < 256 -> x < 48 -> Forall (fun c => c <> x) (i64_display v).
Proof. intros Hv Hx. apply Forall_forall. intros c Hc. pose proof (display_chars v c Hv Hc). lia. Qed.

Lemma display_word v : 0 <= v < 256 -> word (i64_display v).
Proof.
  intros Hv. split.
  - destruct (u64_display_digits v) as (ds & -> & _ & N & _); [lia|]. by destruct ds.
  - apply Forall_forall. intros c Hc. pose proof (display_chars v c Hv Hc). lia.
Qed.

Lemma octets_inv o : octets_ok o -> exists a b c d, o = [a; b; c; d] /\ is_byte a /\ is_byte b /\ is_byte c /\ is_byte d.
Proof.
  intros [L F]. destruct o as [|a [|b [|c [|d [|]]]]]; try done. exists a, b, c, d.
  repeat match goal with H : Forall _ (_ :: _) |- _ => inversion H; clear H; subst end. done.
Qed.

Lemma parse_ipv4_dotted o : octets_ok o -> parse_ipv4 (dotted o) = Some o.
Proof.
  intros O. destruct (octets_inv o O) as (a & b & c & d & -> & Ha & Hb & Hc & Hd).
  unfold is_byte in *. unfold parse_ipv4, dotted. cbn [app].
  rewrite !(split_app 46), split_none by (apply display_no; lia).
  change (negb (zlen _ =? 4)) with false. cbv iota. cbn [mapM].
  rewrite !parse_uint_display by lia. done.
Qed.

(** ** Rules *)

Lemma lower_head c s : 48 <= c <= 57 -> forall x y, lower (c :: s) = x :: y -> x = c.
Proof.
  intros Hc x y. unfold lower. cbn [fmap list_fmap]. intros [= <- _]. unfold to_ascii_lower, is_ascii_upper.
  by zfalse (65 <=? c).
Qed.

Lemma address_roundtrip a : address_ok a -> address_parse (render_address a) = Some a.
Proof.
  destruct a as [|s| |o p]; cbn [address_ok render_address].
  - done.
  - intros (W & NS & NK). unfold address_parse. rewrite !not_elem_of_cons in NK.
    destruct NK as (N1 & N2 & N3 & N4 & _). rewrite !(proj2 (str_eqb_false _ _)) by done. cbn [orb].
    assert (split_once 47 s = None) as ->; [|done].
    clear -NS. induction NS as [|c s Hc F IH]; [done|]. cbn [split_once]. zfalse (c =? 47). by rewrite IH.
  - done.
  - intros [O Hp]. destruct (octets_inv o O) as (a & b & c & d & E & Ha & _).
    assert (exists x s, dotted o ++ [47] ++ i64_display p = x :: s /\ 48 <= x <= 57) as (x & s & Ex & Hx).
    { subst o. cbn [dotted]. destruct (display_word a) as [Na _]; [exact Ha|].
      destruct (i64_display a) as [|x s] eqn:Ed; [done|]. eexists x, _. split; [done|].
      apply (display_chars a); [exact Ha|]. rewrite Ed. apply elem_of_cons. by left. }
    unfold address_parse.
    assert (forall k y z, k = y :: z -> ~ (48 <= y <= 57) -> str_eqb (lower (dotted o ++ [47] ++ i64_display p)) k = false) as HK.
    { intros k y z -> Hy. apply str_eqb_false. rewrite Ex. intros HL. by pose proof (lower_head _ _ Hx _ _ HL); subst. }
    rewrite (HK (lit "all") 97 (lit "ll")), (HK (lit "samehost") 115 (lit "amehost")),
      (HK (lit "localhost") 108 (lit "ocalhost")), (HK (lit "samenet") 115 (lit "amenet")) by (done || lia).
    cbn [orb]. cbn [app]. rewrite split_once_app.
    + rewrite parse_ipv4_dotted by done. cbn [mbind option_bind]. rewrite parse_uint_display by lia.
      cbn [mbind option_bind]. by zfalse (32 <? p).
    + subst o. cbn [dotted]. destruct O as [_ F].
      repeat match goal with H : Forall _ (_ :: _) |- _ => inversion H; clear H; subst end.
      unfold is_byte in *. repeat (apply Forall_app; split); try (apply display_no; lia);
        (constructor; [lia|constructor]).
Qed.

Lemma word_lit s :
  negb (str_eqb s []) && forallb (fun c => (33 <=? c) && (c <=? 126) && negb (c =? 35)) s = true -> word s.
Proof.
  intros [N F]%andb_prop. split; [by apply negb_true_iff, str_eqb_false in N|].
  apply Forall_forall. intros c Hc. rewrite forallb_forall in F. apply list_elem_of_In in Hc.
  specialize (F c Hc). zb. lia.
Qed.

Lemma address_word a : address_ok a -> word (render_address a).
Proof.
  destruct a as [|s| |o p]; cbn [address_ok render_address].
  - intros _. by apply word_lit.
  - by intros (W & _).
  - intros _. by apply word_lit.
  - intros [O Hp]. destruct (octets_inv o O) as (a & b & c & d & -> & Ha & Hb & Hc & Hd).
    unfold is_byte in *. cbn [dotted]. pose proof (display_word a) as [Na _]; [lia|]. split.
    + intros E. apply app_eq_nil in E as [E _]. apply app_eq_nil in E as [E _]. done.
    + repeat (apply Forall_app; split); try (apply display_word; lia); (constructor; [lia|constructor]).
Qed.

Lemma fields_words r : rule_ok r -> Forall word (render_fields r).
Proof.
  intros (Hd & Hu & Ha & _). unfold render_fields.
  assert (forall o, name_ok o -> word (default (lit "all") o)) as HN.
  { intros [s|]; [by intros [? _]|]. intros _. by apply word_lit. }
  repeat (apply Forall_app; split).
  - constructor; [destruct (conn_type r); by apply word_lit|]. constructor; [by apply HN|].
    constructor; [by apply HN|constructor].
  - destruct (bool_decide _); constructor; [by apply address_word|constructor].
  - constructor; [|constructor]. destruct (method r); by apply word_lit.
Qed.

Lemma wildcard_name o : name_ok o -> wildcard (default (lit "all") o) = o.
Proof.
  destruct o as [s|]; [|done]. intros [_ N]. unfold wildcard. cbn [default]. unfold id.
  by rewrite (proj2 (str_eqb_false _ _)).
Qed.

Lemma rule_line_roundtrip r : rule_ok r -> parse_rule_line (join (render_fields r)) = Some r.
Proof.
  intros R. pose proof R as (Hd & Hu & Ha & HL). unfold parse_rule_line.
  rewrite split_ws_join by (by apply fields_words). unfold render_fields. cbn [app].
  assert (type_parse (render_type (conn_type r)) = Some (conn_type r)) as -> by (by destruct (conn_type r)).
  assert (forall m, method_parse (render_method m) = Some m) as HM by (by intros []).
  cbn [mbind option_bind]. destruct r as [ct db us ad me]. cbn [conn_type database user address method] in *.
  destruct ct.
  - rewrite bool_decide_eq_true_2 by done. cbn [app]. rewrite HM. cbn [mbind option_bind].
    rewrite !wildcard_name by done. by rewrite HL.
  - rewrite bool_decide_eq_false_2 by done. cbn [app]. rewrite address_roundtrip, HM by done.
    cbn [mbind option_bind]. by rewrite !wildcard_name.
  - rewrite bool_decide_eq_false_2 by done. cbn [app]. rewrite address_roundtrip, HM by done.
    cbn [mbind option_bind]. by rewrite !wildcard_name.
  - rewrite bool_decide_eq_false_2 by done. cbn [app]. rewrite address_roundtrip, HM by done.
    cbn [mbind option_bind]. by rewrite !wildcard_name.
Qed.

(** A joined line: its characters, and its first and last one. *)
Lemma join_chars fs : Forall word fs -> Forall (fun c => 32 <= c <= 126 /\ c <> 35) (join fs).
Proof.
  assert (forall w, word w -> Forall (fun c => 32 <= c <= 126 /\ c <> 35) w) as HW.
  { intros w [_ F]. eapply Forall_impl; [exact F|]. cbn. intros c [? ?]. lia. }
  induction 1 as [|f fs W F IH]; [constructor|]. destruct fs as [|g fs]; [by apply HW|].
  change (join (f :: g :: fs)) with (f ++ 32 :: join (g :: fs)). apply Forall_app. split; [by apply HW|].
  constructor; [lia|done].
Qed.

Lemma join_ends fs : Forall word fs -> fs <> [] ->
  exists c s l d, join fs = c :: s /\ join fs = l ++ [d] /\ 33 <= c <= 126 /\ 33 <= d <= 126.
Proof.
  assert (forall w, word w -> exists c s l d, w = c :: s /\ w = l ++ [d] /\ 33 <= c <= 126 /\ 33 <= d <= 126) as HW.
  { intros w [N F]. destruct w as [|c s] eqn:E; [done|]. rewrite <- E in *.
    destruct w as [|d l _] using rev_ind; [done|]. exists c, s, l, d.
    apply Forall_app in F as [F1 F2]. inversion F2 as [|? ? [? _] _]; subst.
    split_and!; try lia; [done|done| |].
    all: assert (c ∈ l ++ [d]) as Hc by (rewrite E; apply elem_of_cons; by left).
    all: apply elem_of_app in Hc as [Hc|Hc];
      [pose proof (proj1 (Forall_forall _ _) F1 c Hc) as Hx; cbn in Hx; lia
      |apply list_elem_of_singleton in Hc; subst; lia]. }
  induction 1 as [|f fs W F IH]; [done|]. intros _. destruct fs as [|g fs]; [by apply HW|].
  change (join (f :: g :: fs)) with (f ++ 32 :: join (g :: fs)).
  destruct (HW f W) as (c & s & _ & _ & -> & _ & Hc & _).
  destruct (IH ltac:(done)) as (_ & _ & l & d & _ & -> & _ & Hd).
  exists c, (s ++ 32 :: l ++ [d]), (c :: s ++ 32 :: l), d. split_and!; try lia; [done|].
  cbn. by rewrite <- app_assoc.
Qed.

Lemma config_line r :
  rule_ok r ->
  (let line := trim (strip_comment (render_rule r)) in
   match line with [] => None | _ => parse_rule_line line end) = Some r.
Proof.
  intros R. pose proof (fields_words r R) as FW. cbv zeta. unfold render_rule, strip_comment.
  change (lit "# rule") with (35 :: lit " rule").
  rewrite split_once_app by (eapply Forall_impl; [by apply join_chars|by intros c [_ ?]]).
  destruct (join_ends (render_fields r) FW) as (c & s & l & d & E & E' & Hc & Hd); [by unfold render_fields|].
  rewrite <- (rule_line_roundtrip r R). rewrite E in E' |- *.
  by rewrite (trim_graph c s l d).
Qed.

Lemma config_roundtrip rules : Forall rule_ok rules -> config_parse (render rules) = rules.
Proof.
  intros F. unfold config_parse, render. rewrite (lines_flat render_rule).
  - induction F as [|r rules R F IH]; [done|]. cbn [fmap list_fmap omap list_omap].
    rewrite config_line by done. by f_equal.
  - intros r Hr. pose proof (proj1 (Forall_forall _ _) F r Hr) as R. unfold render_rule. split.
    + apply Forall_app. split; [|vm_compute; repeat constructor; discriminate].
      eapply Forall_impl; [by apply join_chars, fields_words|]. intros c [? _]. lia.
    + exists (join (render_fields r) ++ lit "# rul"), 101. split; [by rewrite <- app_assoc|lia].
Qed.

(** ** CIDR *)

Lemma land_mask v k : 0 <= v < 2 ^ 32 -> 0 <= k <= 32 ->
  Z.land v (Z.shiftl (2 ^ 32 - 1) k mod 2 ^ 32) = 2 ^ k * (v / 2 ^ k).
Proof.
  intros Hv Hk. rewrite <- Z.land_ones by lia. change (2 ^ 32 - 1) with (Z.ones 32).
  rewrite (Z.mul_comm (2 ^ k)), <- Z.shiftr_div_pow2, <- Z.shiftl_mul_pow2 by lia.
  apply Z.bits_inj'. intros i Hi. rewrite !Z.land_spec, !Z.shiftl_spec, !Z.testbit_ones by lia.
  destruct (decide (i < k)).
  - rewrite (Z.testbit_neg_r (Z.shiftr v k)) by lia. zfalse (0 <=? i - k). by rewrite andb_false_r.
  - rewrite Z.shiftr_spec by lia. replace (i - k + k) with i by lia.
    ztrue (0 <=? i - k). ztrue (0 <=? i). cbn [andb]. destruct (decide (i < 32)).
    + ztrue (i - k <? 32). ztrue (i <? 32). by rewrite !andb_true_r.
    + zfalse (i <? 32). rewrite !andb_false_r. symmetry.
      destruct (decide (v = 0)) as [->|]; [apply Z.bits_0|]. apply Z.bits_above_log2; [lia|].
      apply Z.log2_lt_pow2; [lia|]. eapply Z.lt_le_trans; [apply Hv|]. apply Z.pow_le_mono_r; lia.
Qed.

Lemma octets_num o : octets_ok o -> 0 <= be_val o < 2 ^ 32.
Proof.
  intros [L F]. pose proof (be_val_bounds o F) as B. unfold zlen in B. rewrite L in B. exact B.
Qed.

Lemma cidr_exact ip base p :
  octets_ok ip -> octets_ok base -> 0 <= p <= 32 ->
  ipv4_in_cidr ip base p = true <-> be_val ip / 2 ^ (32 - p) = be_val base / 2 ^ (32 - p).
Proof.
  intros Oi Ob Hp. pose proof (octets_num _ Oi). pose proof (octets_num _ Ob). unfold ipv4_in_cidr. zcase.
  - subst. rewrite !Z.div_small by (cbn in *; lia). done.
  - rewrite !land_mask by lia. rewrite Z.eqb_eq.
    assert (0 < 2 ^ (32 - p)) by (apply Z.pow_pos_nonneg; lia). split; [nia|by intros ->].
Qed.

(** ** The authentication step *)

Lemma read_password_cases c :
  (exists body r, read_message (inp c) = Val (Ok (Some (Password body), r))
      /\ read_password c = Val (Ok (Some body, mk_conn r (out c))))
  \/ (exists r, read_password c = Val (Ok (None, mk_conn r (out c)))
      /\ forall body r', read_message (inp c) <> Val (Ok (Some (Password body), r')))
  \/ (exists e, read_password c = Val (Err e) /\ read_message (inp c) = Val (Err e)).
Proof.
  unfold read_password. destruct (protocol_total_message (inp c)) as [x E]. rewrite E. cbn [mbind res_bind].
  destruct x as [[m r]|e]; [|right; right; by exists e]. destruct m as [[]|];
    try (right; left; eexists; split; [done|by intros ? ? [=]]).
  left. eexists _, _. done.
Qed.

Lemma parse_sasl_total body : exists x, parse_sasl_initial body = Val (Ok x).
Proof.
  unfold parse_sasl_initial. destruct (split_nul body) as [[s rest]|]; [|by eexists].
  zcase; [by eexists|]. unfold index_be. rewrite get_range_ok by lia. cbn [mbind res_bind mret res_ret].
  zcase; by eexists.
Qed.

(** What an exchange may do: decide with [true] exactly when [P], or fail on
    the input only when not [P]; it never panics. *)
Definition judged (m : pres (bool * Conn)) (P : Prop) : Prop :=
  match m with
  | Val (Ok (b, _)) => b = true <-> P
  | Val (Err _) => ~ P
  | Panic => False
  end.

Lemma cleartext_ok pw usr secret rsalt rnonce c :
  judged (cleartext_authenticate pw c) (accepts PasswordAuth pw usr secret rsalt rnonce c).
Proof.
  unfold cleartext_authenticate. set (c0 := send _ c). cbn [accepts]. change (inp c) with (inp c0).
  destruct (read_password_cases c0) as [(body & r & E & ->)|[(r & -> & N)|(e & -> & E)]];
    cbn [mbind res_bind mret res_ret judged].
  - rewrite E, str_eqb_true. split; [by eauto|]. by intros (? & ? & [= <- <-] & ?).
  - split; [done|]. intros (body & r' & E & _). by destruct (N body r').
  - rewrite E. by intros (? & ? & ? & _).
Qed.

Lemma md5_ok secret pw usr rsalt rnonce c :
  judged (md5_authenticate secret pw usr c) (accepts Md5 pw usr secret rsalt rnonce c).
Proof.
  unfold md5_authenticate. set (c0 := send _ c). cbn [accepts]. change (inp c) with (inp c0).
  destruct (read_password_cases c0) as [(body & r & E & ->)|[(r & -> & N)|(e & -> & E)]];
    cbn [mbind res_bind mret res_ret judged].
  - rewrite E, str_eqb_true. split; [by eauto|]. by intros (? & ? & [= <- <-] & ?).
  - split; [done|]. intros (body & r' & E & _). by destruct (N body r').
  - rewrite E. by intros (? & ? & ? & _).
Qed.

Lemma scram_ok rsalt rnonce pw usr secret c :
  judged (scram_authenticate rsalt rnonce pw c) (accepts ScramSha256 pw usr secret rsalt rnonce c).
Proof.
  unfold scram_authenticate. set (c0 := send _ c). cbn [accepts]. change (inp c) with (inp c0).
  destruct (read_password_cases c0) as [(body & r & E & ->)|[(r & -> & N)|(e & -> & E)]];
    cbn [mbind res_bind mret res_ret judged].
  2: { split; [done|]. intros (body & r' & ? & ? & ? & ? & ? & ? & E & _). by destruct (N body r'). }
  2: { rewrite E. by intros (? & ? & ? & ? & ? & ? & ? & ? & ? & _). }
  rewrite E. destruct (parse_sasl_total body) as [[cf|] Ep]; rewrite Ep; cbn [mbind res_bind mret res_ret judged].
  2: { split; [done|]. by intros (? & ? & ? & ? & ? & ? & ? & ? & [= <- <-] & E2 & _); rewrite Ep in E2. }
  destruct (server_first (scram_new pw rsalt rnonce) cf) as [scram [sf|e]] eqn:Es; cbn [mret res_ret judged].
  2: { split; [done|].
       by intros (? & ? & ? & ? & ? & ? & ? & ? & [= <- <-] & E2 & E3 & _); rewrite Ep in E2; injection E2 as <-;
         rewrite Es in E3. }
  set (c1 := send _ (mk_conn r (out c0))).
  destruct (read_password_cases c1) as [(body2 & r2 & E4 & ->)|[(r2 & -> & N)|(e & -> & E4)]];
    cbn [mbind res_bind mret res_ret judged].
  2: { split; [done|].
       intros (? & ? & ? & ? & ? & ? & ? & ? & [= <- <-] & _ & _ & E5 & _). by destruct (N _ _ E5). }
  2: { change (inp c1) with r in E4. intros (? & ? & ? & ? & ? & ? & ? & ? & [= <- <-] & _ & _ & E5 & _).
       rewrite E4 in E5. discriminate. }
  change (inp c1) with r in E4.
  destruct (server_final scram body2) as [v|e] eqn:Ef; cbn [mret res_ret judged].
  - split; [|done]. intros _. exists body, r, cf, scram, sf, body2, r2, v. done.
  - split; [done|]. intros (? & ? & ? & ? & ? & ? & ? & ? & [= <- <-] & E2 & E3 & E5 & E6).
    rewrite Ep in E2. injection E2 as <-. rewrite Es in E3. injection E3 as <- <-. rewrite E4 in E5.
    injection E5 as <- <-. congruence.
Qed.




Lemma outcome_total m (Q : Prop) : judged m Q -> exists x, outcome_of m = Val x.
Proof. unfold outcome_of. destruct m as [[[b c1]|e]|]; cbn; [by eexists|by eexists|done]. Qed.

(** Authentication never panics. *)
Lemma authenticate_total env secret rsalt rnonce usr db ip c : exists x, authenticate env secret rsalt rnonce usr db ip c = Val x.
Proof.
  unfold authenticate. pose proof (fun p => outcome_total _ _ (cleartext_ok p usr secret rsalt rnonce c)).
  pose proof (fun p => outcome_total _ _ (md5_ok secret p usr rsalt rnonce c)). pose proof (fun p => outcome_total _ _ (scram_ok rsalt rnonce p usr secret c)).
  repeat case_match; eauto; by eexists.
Qed.

(** ** The first rule that covers a connection *)







(** * Theorems *)


Definition demo_env : AuthEnv := mk_env (Some (lit "secret")) None None (Some (lit "host all all all password")) None.
Definition demo_conn (pw : str) : Conn := mk_conn (encode (Password (pw ++ [0]))) [].

Example authenticate_runs :
  let run pw := authenticate demo_env 7 [] [] (lit "bob") (lit "db") (lit "10.0.0.1") (demo_conn pw) in
  match run (lit "secret"), run (lit "guess") with
  | Val (Ok (AuthOk, _)), Val (Ok (AuthFailed, _)) => True
  | _, _ => False
  end.
Proof. vm_compute. exact I. Qed.


(** The rule language.  Printing well-formed rules and parsing the text
    (with comments) gives the same rules back; and the method chosen for a
    connection is that of the first rule that matches it, [None] only when no
    rule does. *)
Theorem hba_rules_roundtrip rules db usr ip :
  Forall rule_ok rules ->
  config_parse (render rules) = rules
  /\ match match_method (config_parse (render rules)) db usr ip with
     | Some m => exists pre r post, rules = pre ++ r :: post /\ rule_matches r db usr ip = true
                   /\ method r = m /\ Forall (fun r => rule_matches r db usr ip = false) pre
     | None => Forall (fun r => rule_matches r db usr ip = false) rules
     end.
Proof.
  intros F. rewrite config_roundtrip by done. split; [done|]. clear F. unfold match_method.
  induction rules as [|r rules IH]; cbn [List.find fmap option_fmap option_map]; [constructor|].
  destruct (rule_matches r db usr ip) eqn:E.
  - exists [], r, rules. done.
  - destruct (List.find _ rules) as [r'|]; cbn [fmap option_fmap option_map] in *; [|by constructor].
    destruct IH as (pre & r1 & post & -> & ? & ? & ?). exists (r :: pre), r1, post. split_and!; try done. by constructor.
Qed.

Definition demo_rules : list HbaRule :=
  [mk_rule Host None (Some (lit "bob")) (Cidr [10; 0; 0; 0] 8) Reject; mk_rule Local None None AnyAddr Trust].

Lemma hba_rules_roundtrip_witness :
  Forall rule_ok demo_rules /\ config_parse (render demo_rules) = demo_rules.
Proof.
  assert (Forall rule_ok demo_rules) as F.
  { apply List.Forall_cons; [|apply List.Forall_cons; [|constructor]].
    - split; [exact I|]. split; [split; [apply word_lit; reflexivity|vm_compute; discriminate]|].
      split; [split; [split; [reflexivity|repeat constructor; discriminate]|lia]|discriminate].
    - split; [exact I|]. split; [exact I|]. split; [exact I|reflexivity]. }
  split; [exact F|]. exact (proj1 (hba_rules_roundtrip demo_rules [] [] [] F)).
Defined.

(** A CIDR rule matches exactly the addresses of its block: those that
    agree with the base on the leading [prefix] bits. *)
Theorem hba_cidr_exact ip base p :
  octets_ok ip -> octets_ok base -> 0 <= p <= 32 ->
  address_matches (Cidr base p) (dotted ip) = true <-> be_val ip / 2 ^ (32 - p) = be_val base / 2 ^ (32 - p).
Proof. intros Oi Ob Hp. cbn [address_matches]. rewrite parse_ipv4_dotted by done. by apply cidr_exact. Qed.

Lemma hba_cidr_exact_witness : address_matches (Cidr [10; 0; 0; 0] 8) (dotted [10; 1; 2; 3]) = true.
Proof.
  apply (hba_cidr_exact [10; 1; 2; 3] [10; 0; 0; 0] 8).
  - split; [reflexivity|repeat constructor; discriminate].
  - split; [reflexivity|repeat constructor; discriminate].
  - lia.
  - vm_compute. reflexivity.
Defined.

(** The connection type of a rule does not look at TLS: a [hostssl] and a
    [hostnossl] rule match exactly the connections the [host] rule with the
    same columns matches. *)
Lemma hba_ssl_types_ignored db usr a m x y ip :
  rule_matches (mk_rule HostSsl db usr a m) x y ip = rule_matches (mk_rule Host db usr a m) x y ip
  /\ rule_matches (mk_rule HostNoSsl db usr a m) x y ip = rule_matches (mk_rule Host db usr a m) x y ip.
Proof. done. Qed.
