(* ===== verification/Server.v ===== *)
(** The connection loop of crates/server/src/server.rs: startup, authentication,
    the simple and the extended query protocol, notices and notifications, and
    the clean-up at the end of a connection.  The transaction layer is behind an
    interface, [StatementRunner], which [Txn.run_statement] implements; the parser,
    parameter substitution and [describe_statement] are parameters. *)

From stdpp Require Import gmap.
From S2P Require Import Prelude Utf8 Numeric Types Float Storage Database Disk Lock Txn Protocol Wire Copy Crypto Auth Hba.

#[local] Open Scope Z_scope.

(** * Settings (storage.rs) *)

Definition GUC_DEFAULTS : list (str * str) :=
  (fun '(n, v) => (lit n, lit v)) <$>
  [("server_encoding", "UTF8"); ("client_encoding", "UTF8"); ("standard_conforming_strings", "on"); ("DateStyle", "ISO, MDY");
   ("TimeZone", "UTC"); ("IntervalStyle", "postgres"); ("integer_datetimes", "on"); ("transaction_isolation", "read committed");
   ("transaction_read_only", "off"); ("application_name", ""); ("statement_timeout", "0"); ("idle_in_transaction_session_timeout", "0");
   ("lock_timeout", "0"); ("bytea_output", "hex"); ("extra_float_digits", "1")]%string.
Definition guc_default (name : str) : option str :=
  snd <$> find (fun '(n, _) => str_eqb (ascii_lowercase n) (ascii_lowercase name)) GUC_DEFAULTS.
Definition search_path_text {E S} (db : Database E S) : str := join_with (lit ", ") (search_path db).
Definition guc {E S} (db : Database E S) (name : str) : option str :=
  let key := ascii_lowercase name in
  if str_eqb key (lit "search_path") then Some (search_path_text db)
  else match system_settings db !! key with Some v => Some v | None => guc_default key end.

(** * Sessions *)

Section server.
Context {Expr Select P : Type}.
Abbreviation DB := (Database Expr Select).
Abbreviation Stmt := (Statement P).
Abbreviation Sh := (@Shared Expr Select).
Abbreviation Ss := (@Session Expr Select).
Abbreviation reply := (result str (ExecResult (R := ExecOutcome))).

(** [Statement]: the variants the connection layer looks at. *)
Inductive SqlStatement :=
| SqlEmpty
| SqlCopy (c : Copy Select)
| SqlOther (s : Stmt).

Variable run_stmt : Sh -> Ss -> Stmt -> run (Sh * Ss * reply).
Variable parse_sql : str -> res str (list SqlStatement).
Variable bind_statement : SqlStatement -> list Value -> result str SqlStatement.
Variable describe_statement : DB -> SqlStatement -> res str (option (list FieldDescription)).
Variable select_stmt : Select -> Stmt.
Variable insert_payload : option (list str) -> list (list LitExpr) -> P.
Variable read_error : str.

Record Prepared := mk_prepared { pr_statements : list SqlStatement; param_oids : list Z }.
Record Portal := mk_portal { po_statements : list SqlStatement; result_formats : list Z }.

(** The part of [Session] that the transaction layer does not see. *)
Record Client := mk_client {
  session : Ss;
  prepared : gmap str Prepared;
  portals : gmap str Portal;
  skip_until_sync : bool
}.
Definition set_session (cl : Client) (ss : Ss) : Client := mk_client ss (prepared cl) (portals cl) (skip_until_sync cl).
Definition set_skip (cl : Client) (b : bool) : Client := mk_client (session cl) (prepared cl) (portals cl) b.

(** What the outside does while statements run: for each statement, whether a
    connection with a matching CancelRequest set the backend's cancel flag since
    the one before, and whether its timeout fired; the contents of the files. *)
Record World := mk_world { events : list (bool * bool); files : gmap str (list Z) }.
Definition next_event (w : World) : bool * bool * World :=
  match events w with e :: es => (e, mk_world es (files w)) | [] => (false, false, w) end.

(** An [io::Error] that ends a connection, with the state it ends in. *)
Definition ConnError : Type := ProtoError * (World * Sh).
Definition at_state {A} (w : World) (sh : Sh) (m : res ProtoError A) : res ConnError A :=
  match m with Panic => Panic | Val (Ok a) => Val (Ok a) | Val (Err e) => Val (Err (e, (w, sh))) end.

(** * Small steps *)

Definition mark_error (ss : Ss) : Ss :=
  match tx ss with
  | Some t => set_tx ss FAILED_TX (Some (mk_tx (tx_db t) (buffered t) (savepoints t) true (isolation t) (read_only t) (snapshot_version t) (write_set t)))
  | None => ss
  end.

Definition clear_notices (ss : Ss) : Ss :=
  mk_session (tx_status ss) (tx ss) (pid ss) [] (prepared_gids ss) (default_isolation ss) (default_read_only ss).
Definition send_notice (n : Notice) : list Z :=
  finish (put_u8 0 (put_tagged 77 (message n) (put_tagged 67 (code n) (put_tagged 86 (severity n) (put_tagged 83 (severity n) (mb_new 78)))))).
Definition flush_notices (ss : Ss) : Ss * list Z := (clear_notices ss, flat_map send_notice (notices ss)).

Definition send_notification (n : Notification) : list Z :=
  finish (put_cstr (note_payload n) (put_cstr (note_channel n) (put_i32 (sender_pid n) (mb_new 65)))).
Definition deliver_notifications (sh : Sh) (p : Z) : Sh * list Z :=
  match backends sh !! p with
  | Some b => (set_backends sh (<[p := mk_handle (secret b) (cancel b) []]> (backends sh)), flat_map send_notification (notifications b))
  | None => (sh, [])
  end.
Definition ready_for_query (sh : Sh) (ss : Ss) : Sh * list Z :=
  let '(sh, out) := deliver_notifications sh (pid ss) in (sh, out ++ send_ready_for_query (tx_status ss)).

Definition CANCELED : str := lit "canceling statement due to user request".
Definition TIMED_OUT : str := lit "canceling statement due to statement timeout".

(** [cancel.store(b)] on the flag a backend shares with its session, and
    [check_canceled], which takes the flag. *)
Definition store_cancel (sh : Sh) (p : Z) (b : bool) : Sh := set_backends sh (alter (set_cancel b) p (backends sh)).
Definition check_canceled (sh : Sh) (p : Z) : Sh * bool :=
  (store_cancel sh p false, match backends sh !! p with Some h => cancel h | None => false end).

(** The cancel request, if one arrived, and the check before a statement. *)
Definition before_statement (sh : Sh) (p : Z) (arrived : bool) : Sh * bool :=
  check_canceled (if arrived then store_cancel sh p true else sh) p.

(** [v.trim().parse::<i64>()], positive or off. *)
Definition current_guc_ms (sh : Sh) (ss : Ss) (name : str) : Z :=
  match (v ← guc (session_db sh ss) name; parse_i64 (trim v)) with Some ms => if 0 <? ms then ms else 0 | None => 0 end.

(** An ordinary statement: file COPY goes to its own handler. *)
Definition stmts_of (l : list SqlStatement) : list Stmt := omap (fun s => match s with SqlOther s => Some s | _ => None end) l.
Definition parse_select (sql : str) : res str (list Stmt) := l ← parse_sql sql; mret (stmts_of l).
Definition run_sql (w : World) (sh : Sh) (ss : Ss) (s : SqlStatement) : run (World * Sh * Ss * reply) :=
  match s with
  | SqlEmpty => Val (w, sh, ss, Ok (Result Empty))
  | SqlCopy c =>
      match run_copy_file run_stmt parse_select select_stmt insert_payload read_error (files w) sh ss c with
      | Panic => Panic
      | Val (fs, sh, ss, r) => Val (mk_world (events w) fs, sh, ss, r)
      end
  | SqlOther s =>
      match run_stmt sh ss s with
      | Panic => Panic
      | Val (sh, ss, r) => Val (w, sh, ss, r)
      end
  end.

(** [run_statement_timed]; [fired] is the watchdog's verdict. *)
Definition run_statement_timed (w : World) (sh : Sh) (ss : Ss) (s : SqlStatement) (fired : bool) : run (World * Sh * Ss * reply) :=
  match run_sql w sh ss s with
  | Panic => Panic
  | Val (w, sh', ss', r) =>
      if (0 <? current_guc_ms sh ss (lit "statement_timeout")) && fired then Val (w, store_cancel sh' (pid ss') false, ss', Err TIMED_OUT)
      else Val (w, sh', ss', r)
  end.

Definition outcome (r : ExecResult (R := ExecOutcome)) : ExecOutcome :=
  match r with Txn.Command tag => Command tag | Result o => o end.

(** * Simple queries *)

(** The failure path of a batch: notices, the error, the ready message. *)
Definition simple_error (sh : Sh) (ss : Ss) (e : str) : Sh * Ss * list Z :=
  let ss := mark_error ss in
  let '(sh, ready) := ready_for_query sh ss in
  (sh, ss, send_error (sqlstate_for e) e ++ ready).

Definition is_stream (t : CopyTarget) : bool := match t with Stdin | Stdout => true | File _ => false end.

(** The statement loop of [handle_simple_query]; [input] is what the client
    sends during a COPY. *)
Fixpoint simple_loop (w : World) (sh : Sh) (ss : Ss) (stmts : list SqlStatement) (input : list Z)
  : res ConnError (World * Sh * Ss * list Z * list Z) :=
  match stmts with
  | [] => let '(sh, ready) := ready_for_query sh ss in mret (w, sh, ss, ready, input)
  | SqlEmpty :: stmts => simple_loop w sh ss stmts input
  | s :: stmts =>
      let '(arrived, fired, w) := next_event w in
      let '(sh, canceled) := before_statement sh (pid ss) arrived in
      if (canceled : bool) then let '(sh, ss, out) := simple_error sh ss CANCELED in mret (w, sh, ss, out, input)
      else
        let ordinary :=
          '(w, sh, ss, r) ← lift (run_statement_timed w sh ss s fired);
          let '(ss, notes) := flush_notices ss in
          match r with
          | Ok r =>
              '(w, sh, ss, out, input) ← simple_loop w sh ss stmts input;
              mret (w, sh, ss, notes ++ send_result (outcome r) [] ++ out, input)
          | Err e => let '(sh, ss, out) := simple_error sh ss e in mret (w, sh, ss, notes ++ out, input)
          end in
        match s with
        | SqlCopy c =>
            if is_stream (c_target c) then
              '(sh, ss, sent, r, input) ← at_state w sh (run_copy run_stmt parse_select select_stmt insert_payload sh ss c input);
              match r with
              | Ok _ =>
                  '(w, sh, ss, out, input) ← simple_loop w sh ss stmts input;
                  mret (w, sh, ss, sent ++ out, input)
              | Err e =>
                  let '(ss, notes) := flush_notices ss in
                  let '(sh, ss, out) := simple_error sh ss e in
                  mret (w, sh, ss, sent ++ notes ++ out, input)
              end
            else ordinary
        | _ => ordinary
        end
  end.

Definition is_empty_stmt (s : SqlStatement) : bool := match s with SqlEmpty => true | _ => false end.

Definition handle_simple_query (w : World) (sh : Sh) (ss : Ss) (sql : str) (input : list Z)
  : res ConnError (World * Sh * Ss * list Z * list Z) :=
  match parse_sql sql with
  | Panic => Panic
  | Val (Err e) =>
      let ss := mark_error ss in
      mret (w, sh, ss, send_error (lit "42601") e ++ send_ready_for_query (tx_status ss), input)
  | Val (Ok stmts) =>
      if forallb is_empty_stmt stmts then
        let '(sh, ready) := ready_for_query sh ss in mret (w, sh, ss, send_simple 73 ++ ready, input)
      else simple_loop w sh ss stmts input
  end.

(** * Extended queries *)

Definition handle_parse (cl : Client) (name query : str) (oids : list Z) : run (Client * list Z) :=
  match parse_sql query with
  | Panic => Panic
  | Val (Ok stmts) =>
      Val (mk_client (session cl) (<[name := mk_prepared stmts oids]> (prepared cl)) (portals cl) (skip_until_sync cl), send_simple 49)
  | Val (Err e) => Val (set_skip cl true, send_error (lit "42601") e)
  end.

Definition no_prepared (name : str) : str := lit "prepared statement " ++ quoted name ++ lit " does not exist".
Definition no_portal (name : str) : str := lit "portal " ++ quoted name ++ lit " does not exist".

(** The parameter loop of [handle_bind]. *)
Fixpoint decode_params (i : nat) (raw : list (option (list Z))) (formats oids : list Z) : res str (list Value) :=
  match raw with
  | [] => mret []
  | r :: raw =>
      v ← decode_param r (format_at formats i) (default 0 (oids !! i));
      vs ← decode_params (S i) raw formats oids;
      mret (v :: vs)
  end.

Definition handle_bind (cl : Client) (portal statement : str) (raw : list (option (list Z))) (param_formats rformats : list Z)
  : run (Client * list Z) :=
  match prepared cl !! statement with
  | None => Val (set_skip cl true, send_error (lit "26000") (no_prepared statement))
  | Some p =>
      match decode_params 0 raw param_formats (param_oids p) with
      | Panic => Panic
      | Val (Err e) => Val (set_skip cl true, send_error (lit "22P02") e)
      | Val (Ok values) =>
          match mapM (fun s => bind_statement s values) (pr_statements p) with
          | Err e => Val (set_skip cl true, send_error (lit "08P01") e)
          | Ok stmts =>
              Val (mk_client (session cl) (prepared cl) (<[portal := mk_portal stmts rformats]> (portals cl)) (skip_until_sync cl), send_simple 50)
          end
      end
  end.

Definition describe_row_shape (sh : Sh) (ss : Ss) (s : option SqlStatement) : run (list Z) :=
  match s with
  | None => Val (send_simple 110)
  | Some s =>
      match describe_statement (session_db sh ss) s with
      | Panic => Panic
      | Val (Ok (Some fields)) => Val (send_row_description fields [])
      | Val (Ok None) | Val (Err _) => Val (send_simple 110)
      end
  end.

Definition handle_describe (sh : Sh) (cl : Client) (kind : Z) (name : str) : run (Client * list Z) :=
  if kind =? 83 then
    match prepared cl !! name with
    | None => Val (set_skip cl true, send_error (lit "26000") (no_prepared name))
    | Some p =>
        shape ← describe_row_shape sh (session cl) (head (pr_statements p));
        Val (cl, send_parameter_description (param_oids p) ++ shape)
    end
  else
    match portals cl !! name with
    | None => Val (set_skip cl true, send_error (lit "34000") (no_portal name))
    | Some p => shape ← describe_row_shape sh (session cl) (head (po_statements p)); Val (cl, shape)
    end.

Definition execute_error (cl : Client) (ss : Ss) (e : str) : Client * list Z :=
  (set_skip (set_session cl (mark_error ss)) true, send_error (sqlstate_for e) e).

(** The statement loop of [handle_execute]. *)
Fixpoint execute_loop (w : World) (sh : Sh) (cl : Client) (formats : list Z) (stmts : list SqlStatement)
  : run (World * Sh * Client * list Z) :=
  match stmts with
  | [] => Val (w, sh, cl, [])
  | SqlEmpty :: stmts =>
      '(w, sh, cl, out) ← execute_loop w sh cl formats stmts;
      Val (w, sh, cl, send_simple 73 ++ out)
  | s :: stmts =>
      let '(arrived, fired, w) := next_event w in
      let '(sh, canceled) := before_statement sh (pid (session cl)) arrived in
      if (canceled : bool) then let '(cl, out) := execute_error cl (session cl) CANCELED in Val (w, sh, cl, out)
      else
        match run_statement_timed w sh (session cl) s fired with
        | Panic => Panic
        | Val (w, sh, ss, r) =>
            let '(ss, notes) := flush_notices ss in
            match r with
            | Ok r =>
                '(w, sh, cl, out) ← execute_loop w sh (set_session cl ss) formats stmts;
                Val (w, sh, cl, notes ++ send_execute_result (outcome r) formats ++ out)
            | Err e => let '(cl, out) := execute_error cl ss e in Val (w, sh, cl, notes ++ out)
            end
        end
  end.

Definition handle_execute (w : World) (sh : Sh) (cl : Client) (portal_name : str) : run (World * Sh * Client * list Z) :=
  match portals cl !! portal_name with
  | None => Val (w, sh, set_skip cl true, send_error (lit "34000") (no_portal portal_name))
  | Some p => execute_loop w sh cl (result_formats p) (po_statements p)
  end.

(** * The message loop *)

Definition abort_idle_transaction (ss : Ss) : Ss := set_tx ss IDLE None.

(** One message, [idle] telling whether the session was idle for longer than its
    timeout when it arrived; [None] once the client ended the session. *)
Definition handle_message (w : World) (sh : Sh) (cl : Client) (idle : bool) (msg : FrontendMessage) (input : list Z)
  : res ConnError (option (World * Sh * Client * list Z * list Z)) :=
  let ss := session cl in
  let stay (x : Client * list Z) := let '(cl, out) := x in mret (Some (w, sh, cl, out, input)) in
  let in_tx := match tx ss with Some _ => true | None => false end in
  let ends := match msg with Terminate => true | _ => false end in
  if in_tx && negb ends && (0 <? current_guc_ms sh ss (lit "idle_in_transaction_session_timeout")) && idle then
    let ss := abort_idle_transaction ss in
    mret (Some (w, unlock_all sh (pid ss), set_session cl ss,
      send_error (lit "25P03") (lit "terminating connection due to idle-in-transaction timeout") ++ send_ready_for_query (tx_status ss), input))
  else if skip_until_sync cl && negb (match msg with Sync => true | _ => false end) then stay (cl, [])
  else
    match msg with
    | Query sql =>
        '(w, sh, ss, out, input) ← handle_simple_query w sh ss sql input;
        mret (Some (w, sh, set_session cl ss, out, input))
    | Parse name query oids => x ← lift (handle_parse cl name query oids); stay x
    | Bind portal statement params pf rf => x ← lift (handle_bind cl portal statement params pf rf); stay x
    | Describe kind name => x ← lift (handle_describe sh cl kind name); stay x
    | Execute portal _ =>
        '(w, sh, cl, out) ← lift (handle_execute w sh cl portal);
        mret (Some (w, sh, cl, out, input))
    | Close kind name =>
        stay (if kind =? 83 then mk_client ss (delete name (prepared cl)) (portals cl) (skip_until_sync cl)
              else mk_client ss (prepared cl) (delete name (portals cl)) (skip_until_sync cl), send_simple 51)
    | Sync =>
        let '(sh, ready) := ready_for_query sh ss in
        mret (Some (w, sh, set_skip cl false, ready, input))
    | Flush | Password _ | CopyData _ | CopyDone => stay (cl, [])
    | CopyFail _ => stay (set_skip cl true, send_error (lit "57014") (lit "COPY from stdin failed"))
    | Terminate => mret None
    | Unknown tag _ =>
        stay (set_skip cl true, send_error (lit "08P01") (lit "unsupported protocol message '" ++ push_byte_char tag ++ lit "'"))
    end.

(** The loop over the client's input, at most [fuel] messages; [idles] tells for
    each message whether the session was idle too long. *)
Fixpoint session_loop (fuel : nat) (w : World) (sh : Sh) (cl : Client) (idles : list bool) (input : list Z)
  : res ConnError (World * Sh * Client * list Z) :=
  match fuel with
  | O => Panic
  | S fuel =>
      '(m, input) ← at_state w sh (read_message input);
      match m with
      | None => mret (w, sh, cl, [])
      | Some msg =>
          r ← handle_message w sh cl (default false (head idles)) msg input;
          match r with
          | None => mret (w, sh, cl, [])
          | Some (w, sh, cl, out, input) =>
              '(w, sh, cl, out') ← session_loop fuel w sh cl (tail idles) input;
              mret (w, sh, cl, out ++ out')
          end
      end
  end.

(** The end of a connection ([ConnGuard::drop]). *)
Definition conn_drop (sh : Sh) (p : Z) : Sh :=
  let sh := unlock_all sh p in
  let sh := set_backends sh (delete p (backends sh)) in
  set_listeners sh (without p <$> listeners sh).

(** ** Startup *)

(** [find(|(k, _)| k == key)] *)
Definition param (key : string) (ps : list (str * str)) : option str := snd <$> find (fun '(k, _) => str_eqb k (lit key)) ps.

(** What a CancelRequest does: the flag of the backend it names is set when the
    secret is that backend's. *)
Definition cancel_request (sh : Sh) (p s : Z) : Sh :=
  match backends sh !! p with
  | Some h => if secret h =? s then store_cancel sh p true else sh
  | None => sh
  end.

(** The negotiation loop: TLS and GSS requests are declined, a cancel request
    ends the connection.  Every packet takes at least eight bytes. *)
Fixpoint negotiate (fuel : nat) (sh : Sh) (c : Conn) : pres (Sh * option (list (str * str)) * Conn) :=
  match fuel with
  | O => Panic
  | S fuel =>
      '(s, r) ← read_startup (inp c);
      let c := mk_conn r (out c) in
      match s with
      | SslRequest | GssEncRequest => negotiate fuel sh (send [78] c)
      | CancelRequest p s => mret (cancel_request sh p s, None, c)
      | Params p => mret (sh, Some p, c)
      end
  end.

Definition INITIAL_PARAMETERS (version : str) : list (str * str) :=
  (lit "server_version", version) ::
  ((fun '(k, v) => (lit k, lit v)) <$>
   [("server_encoding", "UTF8"); ("client_encoding", "UTF8"); ("DateStyle", "ISO, MDY"); ("TimeZone", "UTC");
    ("integer_datetimes", "on"); ("standard_conforming_strings", "on"); ("application_name", "")]%string).
Definition send_initial_parameters (version : str) : list Z :=
  flat_map (fun '(k, v) => finish (put_cstr v (put_cstr k (mb_new 83)))) (INITIAL_PARAMETERS version).

(** What the process and the operating system provide: the environment, the
    random bytes, the two values of [weak_secret()] (the MD5 challenge and the
    cancel secret), the backend's number. *)
Record Host := mk_host { host_env : AuthEnv; host_challenge : Z; host_salt : list Z; host_nonce : list Z; host_pid : Z; host_secret : Z; host_version : str }.

Definition rejection (peer_ip username database : str) : str :=
  lit "pg_hba.conf rejects connection for host " ++ quoted peer_ip ++ lit ", user " ++ quoted username ++ lit ", database " ++ quoted database.

Definition greeting (h : Host) : list Z :=
  send_authentication_ok ++ send_initial_parameters (host_version h) ++ send_backend_key_data (host_pid h) (host_secret h) ++ send_ready_for_query IDLE.

(** The part of [handle_connection] behind the registration of the backend: the
    guard's [drop] runs however the message loop ends. *)
Definition serve_session (h : Host) (w : World) (sh : Sh) (idles : list bool) (c : Conn) : run (World * Sh * result ProtoError (list Z)) :=
  let sh := set_backends sh (<[host_pid h := mk_handle (host_secret h) false []]> (backends sh)) in
  match session_loop (S (length (inp c))) w sh (mk_client (session_new (host_pid h)) ∅ ∅ false) idles (inp c) with
  | Panic => Panic
  | Val (Ok (w, sh, _, sent)) => Val (w, conn_drop sh (host_pid h), Ok (out c ++ greeting h ++ sent))
  | Val (Err (e, (w, sh))) => Val (w, conn_drop sh (host_pid h), Err e)
  end.

(** [handle_connection]: the state it leaves, and all that was sent or the error
    it ended with. *)
Definition handle_connection (h : Host) (w : World) (sh : Sh) (idles : list bool) (peer_ip : str) (input : list Z)
  : run (World * Sh * result ProtoError (list Z)) :=
  match negotiate (S (length input)) sh (mk_conn input []) with
  | Panic => Panic
  | Val (Err e) => Val (w, sh, Err e)
  | Val (Ok (sh, None, c)) => Val (w, sh, Ok (out c))
  | Val (Ok (sh, Some ps, c)) =>
      let username := default (lit "postgres") (param "user" ps) in
      let database := default username (param "database" ps) in
      match authenticate (host_env h) (host_challenge h) (host_salt h) (host_nonce h) username database peer_ip c with
      | Panic => Panic
      | Val (Err e) => Val (w, sh, Err e)
      | Val (Ok (AuthFailed, c)) => Val (w, sh, Ok (out c ++ send_error (lit "28P01") (lit "password authentication failed")))
      | Val (Ok (AuthRejected, c)) => Val (w, sh, Ok (out c ++ send_error (lit "28000") (rejection peer_ip username database)))
      | Val (Ok (AuthOk, c)) => serve_session h w sh idles c
      end
  end.
End server.

(** * The start of the server *)

Section boot.
Context {Expr Select S : Type}.
Abbreviation DB := (Database Expr Select).
Variable execute : DB -> S -> run (DB * result str ExecOutcome).
Variable parse_sql : str -> res str (list S).
Variable is_empty : S -> bool.
(** Evaluation of index expressions, as in [Storage]. *)
Variable eval : Expr -> list str -> list Value -> result str Value.

(** [parse_wal_statements]: the whole log, or the records before the first that
    does not parse. *)
Fixpoint parse_records (records : list str) : run (list S) :=
  match records with
  | [] => Val []
  | r :: records =>
      match parse_sql r with
      | Panic => Panic
      | Val (Ok ss) => rest ← parse_records records; Val (ss ++ rest)
      | Val (Err _) => Val []
      end
  end.
Definition parse_wal_statements (contents : str) : run (list S) :=
  match parse_sql contents with
  | Panic => Panic
  | Val (Ok ss) => Val ss
  | Val (Err _) => parse_records (wal_records contents)
  end.

(** [replay]: the database and the number of statements that succeeded. *)
Fixpoint replay_all (db : DB) (ss : list S) : run (DB * Z) :=
  match ss with
  | [] => Val (db, 0)
  | s :: ss =>
      if is_empty s then replay_all db ss
      else
        '(db, r) ← execute db s;
        '(db, n) ← replay_all db ss;
        Val (db, match r with Ok _ => n + 1 | Err _ => n end)
  end.
Definition replay (db : DB) (contents : str) : run (DB * Z) :=
  match trim contents with [] => Val (db, 0) | _ => ss ← parse_wal_statements contents; replay_all db ss end.

(** [serve_on] up to the accept loop: the database it serves.  [wal] is the log
    file's bytes when a data directory is configured, [disk] the store when one is. *)
Definition boot (wal : option (option (list Z))) (disk : option DiskStore) : run DB :=
  db ← match wal with Some file => fst <$> replay db_new (wal_contents file) | None => Val db_new end;
  match disk with
  | None => Val db
  | Some store =>
      match recover eval store with
      | Panic => Panic
      | Val (Ok recovered) => Val (match table_names recovered with [] => db | _ => recovered end)
      | Val (Err _) => Val db
      end
  end.
End boot.

(** * Specification *)

(** [out] is a sequence of whole backend messages with these type bytes. *)
Inductive frames : list Z -> list Z -> Prop :=
| frames_nil : frames [] []
| frames_cons mb r ts : frames r ts -> frames (finish mb ++ r) (mb_tag mb :: ts).

(** Whole messages without ReadyForQuery; an ErrorResponse only if [err]. *)
Definition quiet (err : bool) (out : list Z) : Prop :=
  exists ts, frames out ts /\ ~ (90 ∈ ts) /\ (69 ∈ ts -> err = true).

(** Whole messages, the last of them the only ReadyForQuery. *)
Definition ends_ready (status : Z) (out : list Z) : Prop :=
  exists out', out = out' ++ send_ready_for_query status /\ quiet true out'.

(** The status byte tells the transaction's state: idle, open or failed. *)
Definition status_ok {E S} (ss : @Session E S) : Prop :=
  tx_status ss = match tx ss with None => IDLE | Some t => if failed t then FAILED_TX else IN_TX end.

(** What the connection loop needs of the statement layer. *)
Class StatementRunner {E S P} (run_stmt : @Shared E S -> @Session E S -> Statement P
    -> run (@Shared E S * @Session E S * result str (ExecResult (R := ExecOutcome)))) : Prop := {
  runner_status sh ss s sh' ss' r : status_ok ss -> run_stmt sh ss s = Val (sh', ss', r) -> status_ok ss';
  runner_pid sh ss s sh' ss' r : run_stmt sh ss s = Val (sh', ss', r) -> pid ss' = pid ss
}.

(** * Proofs *)

#[local] Opaque finish copy_response.

(** ** Messages *)

Lemma frames_app a b s t : frames a s -> frames b t -> frames (a ++ b) (s ++ t).
Proof.
  induction 1 as [|mb r ts H IH]; intros Hb; [done|]. rewrite <- app_assoc. cbn [app]. by apply frames_cons, IH.
Qed.

Lemma quiet_nil err : quiet err [].
Proof. exists []. split; [constructor|]. split; [apply not_elem_of_nil|]. by intros ?%elem_of_nil. Qed.

Lemma quiet_app err a b : quiet err a -> quiet err b -> quiet err (a ++ b).
Proof.
  intros (s & Fs & Zs & Es) (t & Ft & Zt & Et). exists (s ++ t). split_and!; [by apply frames_app|rewrite elem_of_app; tauto|].
  rewrite elem_of_app. tauto.
Qed.

Lemma quiet_finish err mb : mb_tag mb <> 90 -> (mb_tag mb = 69 -> err = true) -> quiet err (finish mb).
Proof.
  intros Z E. exists [mb_tag mb]. split_and!.
  - rewrite <- (app_nil_r (finish mb)). apply frames_cons, frames_nil.
  - rewrite list_elem_of_singleton. congruence.
  - intros H%list_elem_of_singleton. auto.
Qed.

Lemma quiet_flat_map {A} err (f : A -> list Z) l : (forall x, x ∈ l -> quiet err (f x)) -> quiet err (flat_map f l).
Proof.
  induction l as [|x l IH]; intros H; [apply quiet_nil|]. cbn [flat_map].
  apply quiet_app; [apply H, elem_of_cons; by left|]. apply IH. intros y Hy. apply H, elem_of_cons. by right.
Qed.

Lemma quiet_weaken err out : quiet false out -> quiet err out.
Proof. intros (ts & F & Z & E). exists ts. split_and!; [done|done|]. intros H. by specialize (E H). Qed.

Lemma quiet_error code message : quiet true (send_error code message).
Proof. apply quiet_finish; [cbn; lia|done]. Qed.

Create HintDb wire.
#[local] Hint Resolve quiet_nil quiet_error quiet_weaken : wire.

Lemma foldl_tag {A} (put : MessageBuilder -> A -> MessageBuilder) l : forall mb,
  (forall mb x, mb_tag (put mb x) = mb_tag mb) -> mb_tag (foldl put mb l) = mb_tag mb.
Proof. induction l as [|x l IH]; intros mb H; [done|]. cbn [foldl]. by rewrite IH, H. Qed.

Lemma quiet_simple tag : tag <> 90 -> tag <> 69 -> quiet false (send_simple tag).
Proof. intros. apply quiet_finish; cbn; [done|congruence]. Qed.
Lemma quiet_complete tag : quiet false (send_command_complete tag).
Proof. apply quiet_finish; cbn; [lia|discriminate]. Qed.

Lemma quiet_description fields formats : quiet false (send_row_description fields formats).
Proof. rewrite row_description_message. apply quiet_finish; cbn; [lia|discriminate]. Qed.
Lemma quiet_data fields rows formats : quiet false (send_data_rows fields rows formats).
Proof. apply quiet_flat_map. intros row _. rewrite data_row_message. apply quiet_finish; cbn; [lia|discriminate]. Qed.

Lemma quiet_result r formats : quiet false (send_result r formats) /\ quiet false (send_execute_result r formats).
Proof.
  destruct r as [fields rows tag|tag|]; cbn [send_result send_execute_result].
  - split; [apply quiet_app; [apply quiet_description|]|]; (apply quiet_app; [apply quiet_data|apply quiet_complete]).
  - split; apply quiet_complete.
  - split; apply quiet_simple; lia.
Qed.

Lemma quiet_params oids : quiet false (send_parameter_description oids).
Proof.
  unfold send_parameter_description. apply quiet_finish; rewrite foldl_tag by (by intros); cbn; [lia|discriminate].
Qed.

Lemma quiet_copy_response tag code n : tag <> 90 -> tag <> 69 -> quiet false (copy_response tag code n).
Proof. intros. with_strategy transparent [copy_response] unfold copy_response. apply quiet_finish; rewrite foldl_tag by (by intros); cbn; [done|congruence]. Qed.

Lemma quiet_notices {E S} (ss : @Session E S) : quiet false (flush_notices ss).2.
Proof. cbn. apply quiet_flat_map. intros n _. apply quiet_finish; cbn; [lia|discriminate]. Qed.

Lemma quiet_notifications {E S} (sh : @Shared E S) p : quiet false (deliver_notifications sh p).2.
Proof.
  unfold deliver_notifications. destruct (backends sh !! p) as [ns|]; [|apply quiet_nil]. cbn.
  apply quiet_flat_map. intros n _. apply quiet_finish; cbn; [lia|discriminate].
Qed.

Lemma ready_ends {E S} (sh : @Shared E S) (ss : @Session E S) pre : quiet true pre ->
  ends_ready (tx_status ss) (pre ++ (ready_for_query sh ss).2).
Proof.
  intros H. unfold ready_for_query. destruct (deliver_notifications sh (pid ss)) as [sh' o] eqn:Eo. cbn [snd].
  exists (pre ++ o). split; [by rewrite app_assoc|]. apply quiet_app; [done|]. apply quiet_weaken.
  pose proof (quiet_notifications sh (pid ss)) as Q. by rewrite Eo in Q.
Qed.

Lemma ends_ready_app status pre out : quiet true pre -> ends_ready status out -> ends_ready status (pre ++ out).
Proof. intros H (o & -> & Q). exists (pre ++ o). split; [by rewrite app_assoc|]. by apply quiet_app. Qed.

(** ** Status *)

Lemma mark_error_ok {E S} (ss : @Session E S) : status_ok ss -> status_ok (mark_error ss) /\ pid (mark_error ss) = pid ss.
Proof. unfold mark_error, status_ok. destruct (tx ss) as [t|] eqn:E'; [by cbn|]. by rewrite E'. Qed.
Lemma clear_notices_ok {E S} (ss : @Session E S) : status_ok ss -> status_ok (flush_notices ss).1 /\ pid (flush_notices ss).1 = pid ss.
Proof. done. Qed.

#[local] Hint Resolve quiet_simple quiet_complete quiet_description quiet_data quiet_params quiet_copy_response quiet_notices : wire.

(** The transaction layer implements the interface. *)
#[export] Instance txn_runner {E S P} (execute : Database E S -> Statement P -> run (Database E S * result str ExecOutcome)) to_sql :
  StatementRunner (run_statement execute to_sql).
Proof.
  assert (forall sh ss s sh' ss' r, run_statement execute to_sql sh ss s = Val (sh', ss', r) ->
    (status_ok ss -> status_ok ss') /\ pid ss' = pid ss) as G.
  { intros sh ss s sh' ss' r H. unfold run_statement in H.
    assert (forall ss1, (status_ok ss -> status_ok ss1) /\ pid ss1 = pid ss -> ss' = ss1 -> (status_ok ss -> status_ok ss') /\ pid ss' = pid ss)
      as K by (by intros ? ? ->).
    assert (match tx ss with
            | Some t => '(ss, r) ← in_transaction execute to_sql ss t s; Val (sh, ss, r)
            | None => '(sh, r) ← execute_autocommit execute to_sql sh s; Val (sh, ss, r)
            end = Val (sh', ss', r) -> (status_ok ss -> status_ok ss') /\ pid ss' = pid ss) as Plain.
    { clear H. unfold status_ok. destruct (tx ss) as [t|] eqn:Et.
      - unfold in_transaction. destruct (failed t) eqn:Ef; [intros [= _ <- _]; by rewrite Et, Ef|].
        destruct (read_only t && is_data_mutation s); [by intros [= _ <- _]|].
        destruct (execute (tx_db t) s) as [[db [o|e]]|]; cbn [mbind run_bind]; [|by intros [= _ <- _]|done]. intros [= _ <- _]. cbn.
        rewrite ?Ef. destruct (is_mutation s); cbn; by rewrite ?Ef.
      - destruct (execute_autocommit execute to_sql sh s) as [[sh1 r1]|]; cbn; [|done]. intros [= _ <- _]. by rewrite Et. }
    destruct s; try (by apply Plain); clear Plain.
    - injection H as _ <- _. unfold begin, status_ok. destruct (tx ss) eqn:Et; cbn; [by rewrite Et|done].
    - injection H as _ <- _. unfold set_transaction, status_ok. destruct session0; [done|]. destruct (tx ss) eqn:Et; cbn; [done|by rewrite Et].
    - by injection H as _ <- _.
    - by injection H as _ <- _.
    - by injection H as _ <- _.
    - unfold commit, status_ok in *. destruct (tx ss) as [t|] eqn:Et; [|injection H as _ <- _; cbn; by rewrite Et].
      destruct (failed t); [by injection H as _ <- _|]. destruct (publish sh t); by injection H as _ <- _.
    - unfold rollback in H. injection H as _ <- _. unfold status_ok. destruct (tx ss); done.
    - unfold prepare_transaction, status_ok in *. destruct (tx ss) as [t|] eqn:Et; [|injection H as _ <- _; by rewrite Et].
      destruct (failed t); [by injection H as _ <- _|]. destruct (publish sh t); by injection H as _ <- _.
    - unfold finish_prepared in H. destruct (bool_decide _); by injection H as _ <- _.
    - unfold finish_prepared in H. destruct (bool_decide _); by injection H as _ <- _.
    - unfold savepoint, status_ok in *. destruct (tx ss) as [t|] eqn:Et; injection H as _ <- _; cbn; [done|by rewrite Et].
    - unfold release_savepoint, status_ok in *. destruct (tx ss) as [t|] eqn:Et; [|injection H as _ <- _; by rewrite Et].
      destruct (rposition _ _); injection H as _ <- _; cbn; [done|by rewrite Et].
    - unfold rollback_to_savepoint, status_ok in *. destruct (tx ss) as [t|] eqn:Et; [|injection H as _ <- _; by rewrite Et].
      destruct (_ ≫= _) as [[pos sp]|]; injection H as _ <- _; cbn; [done|by rewrite Et]. }
  split; intros; [by eapply G|by apply (G _ _ _ _ _ _ H)].
Qed.

Section conformance.
Context {Expr Select P : Type}.
Abbreviation Sh := (@Shared Expr Select).
Abbreviation Ss := (@Session Expr Select).
Context (run_stmt : Sh -> Ss -> Statement P -> run (Sh * Ss * result str (ExecResult (R := ExecOutcome)))) `{!StatementRunner run_stmt}.
Context (parse_sql : str -> res str (list (@SqlStatement Select P))).
Context (bind_statement : @SqlStatement Select P -> list Value -> result str (@SqlStatement Select P)).
Context (describe_statement : Database Expr Select -> @SqlStatement Select P -> res str (option (list FieldDescription))).
Context (select_stmt : Select -> Statement P) (insert_payload : option (list str) -> list (list LitExpr) -> P) (read_error : str).
Implicit Types (sh : Sh) (ss : Ss).

(** The session [ss'] continues [ss]. *)
Definition continues ss ss' : Prop := (status_ok ss -> status_ok ss') /\ pid ss' = pid ss.

Lemma continues_refl ss : continues ss ss.
Proof. done. Qed.
Lemma continues_trans ss1 ss2 ss3 : continues ss1 ss2 -> continues ss2 ss3 -> continues ss1 ss3.
Proof. intros [S1 P1] [S2 P2]. split; [auto|congruence]. Qed.
Lemma continues_stmt sh ss s sh' ss' r : run_stmt sh ss s = Val (sh', ss', r) -> continues ss ss'.
Proof. intros H. split; [intros; by eapply runner_status|by eapply runner_pid]. Qed.
Lemma continues_error ss : continues ss (mark_error ss).
Proof. split; [intros; by apply mark_error_ok|]. unfold mark_error. by destruct (tx ss). Qed.
Lemma continues_notices ss : continues ss (flush_notices ss).1.
Proof. done. Qed.

Lemma copy_to_rows_session sh ss c cols sh' ss' r :
  copy_to_rows run_stmt (parse_select parse_sql) select_stmt sh ss c cols = Val (sh', ss', r) -> continues ss ss'.
Proof.
  unfold copy_to_rows. destruct (match c_query c with Some _ => _ | None => _ end) as [[s|e]|]; [|by intros [= _ <- _]|done].
  destruct (run_stmt sh ss s) as [[[sh1 ss1] r1]|] eqn:E; cbn; [|done]. intros [= _ <- _]. by eapply continues_stmt.
Qed.

Lemma copy_from_bytes_session sh ss c cols d nm buf sh' ss' r :
  copy_from_bytes run_stmt insert_payload sh ss c cols d nm buf = Val (sh', ss', r) -> continues ss ss'.
Proof.
  unfold copy_from_bytes. destruct (copy_tuples _ _ _ _ _ _ _) as [[[|row rows]|e]|]; [by intros [= _ <- _]| |by intros [= _ <- _]|done].
  destruct (run_stmt _ _ _) as [[[sh1 ss1] r1]|] eqn:E; cbn; [|done]. intros [= _ <- _]. by eapply continues_stmt.
Qed.

Lemma run_copy_file_session fs sh ss c fs' sh' ss' r :
  run_copy_file run_stmt (parse_select parse_sql) select_stmt insert_payload read_error fs sh ss c = Val (fs', sh', ss', r) -> continues ss ss'.
Proof.
  unfold run_copy_file. destruct (c_target c); [by intros [= _ _ <- _]..|].
  destruct (copy_columns _ _ _ _) as [cols|e]; [|by intros [= _ _ <- _]]. destruct (c_direction c).
  - destruct (fs !! path) as [buf|]; [|by intros [= _ _ <- _]].
    destruct (copy_from_bytes _ _ _ _ _ _ _ _ _) as [[[sh1 ss1] [n|e]]|] eqn:E; intros H; try discriminate H; injection H as _ _ <- _;
      by eapply copy_from_bytes_session.
  - destruct (copy_to_rows _ _ _ _ _ _ _) as [[[sh1 ss1] [[f rs]|e]]|] eqn:E; intros H; try discriminate H; injection H as _ _ <- _;
      by eapply copy_to_rows_session.
Qed.

Lemma run_sql_session w sh ss s w' sh' ss' r :
  run_sql run_stmt parse_sql select_stmt insert_payload read_error w sh ss s = Val (w', sh', ss', r) -> continues ss ss'.
Proof.
  destruct s as [|c|s]; cbn [run_sql]; [by intros [= _ _ <- _]|..].
  - destruct (run_copy_file _ _ _ _ _ _ _ _ _) as [[[[fs sh1] ss1] r1]|] eqn:E; [|done]. intros [= _ _ <- _]. by eapply run_copy_file_session.
  - destruct (run_stmt sh ss s) as [[[sh1 ss1] r1]|] eqn:E; [|done]. intros [= _ _ <- _]. by eapply continues_stmt.
Qed.

Lemma timed_session w sh ss s fired w' sh' ss' r :
  run_statement_timed run_stmt parse_sql select_stmt insert_payload read_error w sh ss s fired = Val (w', sh', ss', r) -> continues ss ss'.
Proof.
  unfold run_statement_timed. destruct (run_sql _ _ _ _ _ _ _ _ _) as [[[[w1 sh1] ss1] r1]|] eqn:E; [|done].
  intros H. assert (ss' = ss1) as -> by (by destruct (_ && _); injection H). by eapply run_sql_session.
Qed.

(** What a COPY sends is quiet. *)
Lemma run_copy_session sh ss c input sh' ss' out r input' :
  run_copy run_stmt (parse_select parse_sql) select_stmt insert_payload sh ss c input = Val (Ok (sh', ss', out, r, input')) ->
  continues ss ss' /\ quiet false out.
Proof.
  unfold run_copy. destruct (copy_columns _ _ _ _) as [cols|e].
  2: { intros [= _ <- <- _ _]. split; [done|apply quiet_nil]. }
  destruct (c_direction c).
  - unfold copy_from_stdin. destruct (copy_collect _ _ _) as [[[[buf|e] input1]|]|]; cbn; try done.
    2: { intros [= _ <- <- _ _]. split; [done|]. by apply quiet_copy_response. }
    destruct (copy_from_bytes _ _ _ _ _ _ _ _ _) as [[[sh1 ss1] [n|e]]|] eqn:E; cbn; intros H; try discriminate H; injection H as _ <- <- _ _;
      (split; [by eapply copy_from_bytes_session|]); [|by apply quiet_copy_response].
    apply quiet_app; [by apply quiet_copy_response|apply quiet_complete].
  - unfold copy_to_stdout. destruct (copy_to_rows _ _ _ _ _ _ _) as [[[sh1 ss1] [[f rs]|e]]|] eqn:E; cbn; intros H; try discriminate H;
      injection H as _ <- <- _ _; (split; [by eapply copy_to_rows_session|]); [|apply quiet_nil].
    apply quiet_app; [by apply quiet_copy_response|]. apply quiet_app; [apply quiet_finish; cbn; [lia|discriminate]|].
    apply quiet_app; [by apply quiet_simple|apply quiet_complete].
Qed.

(** The end of a failed batch. *)
Lemma simple_error_session sh ss e sh' ss' out : simple_error sh ss e = (sh', ss', out) -> continues ss ss' /\ ends_ready (tx_status ss') out.
Proof.
  unfold simple_error. destruct (ready_for_query sh (mark_error ss)) as [sh1 o] eqn:Er. intros [= _ <- <-].
  split; [apply continues_error|]. pose proof (ready_ends sh (mark_error ss) _ (quiet_error (sqlstate_for e) e)) as H. by rewrite Er in H.
Qed.

Abbreviation answer := (res (@ConnError Expr Select) (World * Sh * Ss * list Z * list Z)).
(** Every normal return of [x] continues [ss] and ends with ReadyForQuery. *)
Definition replies ss (x : answer) : Prop := forall w' sh' ss' out input',
  x = Val (Ok (w', sh', ss', out, input')) -> continues ss ss' /\ ends_ready (tx_status ss') out.

Lemma replies_error w sh ss e input pre ss0 : continues ss0 ss -> quiet true pre ->
  replies ss0 (let '(sh, ss, out) := simple_error sh ss e in mret (w, sh, ss, pre ++ out, input)).
Proof.
  intros C Q w' sh' ss' out input'. destruct (simple_error sh ss e) as [[sh1 ss1] o] eqn:Ee. intros H. injection H as _ _ <- <- _.
  apply simple_error_session in Ee as [C1 E]. split; [by eapply continues_trans|]. by apply ends_ready_app.
Qed.

Lemma replies_then ss0 ss (x : answer) pre : continues ss0 ss -> quiet true pre -> replies ss x ->
  replies ss0 ('(w, sh, ss, out, input) ← x; mret (w, sh, ss, pre ++ out, input)).
Proof.
  intros C Q R w' sh' ss' out input'. destruct x as [[[[[[w1 sh1] ss1] o1] i1]|]|] eqn:Ex; cbn [mbind res_bind]; try done.
  intros H. injection H as _ _ <- <- _. destruct (R _ _ _ _ _ eq_refl) as [C1 E]. split; [by eapply continues_trans|]. by apply ends_ready_app.
Qed.

(** An ordinary statement of a batch, the rest of the batch being [k]. *)
Lemma replies_statement w sh ss s fired input (k : World -> Sh -> Ss -> answer) :
  (forall w sh ss, replies ss (k w sh ss)) ->
  replies ss ('(w, sh, ss, r) ← lift (run_statement_timed run_stmt parse_sql select_stmt insert_payload read_error w sh ss s fired);
    let '(ss, notes) := flush_notices ss in
    match r with
    | Ok r => '(w, sh, ss, out, input) ← k w sh ss; mret (w, sh, ss, notes ++ send_result (outcome r) [] ++ out, input)
    | Err e => let '(sh, ss, out) := simple_error sh ss e in mret (w, sh, ss, notes ++ out, input)
    end).
Proof.
  intros R. destruct (run_statement_timed _ _ _ _ _ _ _ _ _ _) as [[[[w2 sh2] ss2] r]|] eqn:Et; cbn [mbind res_bind lift]; [|by intros ?????].
  apply timed_session in Et. cbn [flush_notices].
  assert (continues ss (clear_notices ss2)) as C by (eapply continues_trans; [exact Et|apply continues_notices]).
  pose proof (quiet_weaken true _ (quiet_notices ss2)) as Q. cbn [flush_notices snd] in Q. destruct r as [r|e].
  - pose proof (replies_then ss _ (k w2 sh2 (clear_notices ss2)) (flat_map send_notice (notices ss2) ++ send_result (outcome r) []) C) as T.
    intros w' sh' ss' out input' H. refine (T _ _ w' sh' ss' out input' _); [apply quiet_app; [exact Q|apply quiet_weaken, quiet_result]|apply R|].
    rewrite <- H. destruct (k w2 sh2 (clear_notices ss2)) as [[[[[[w3 sh3] ss3] o3] i3]|]|]; cbn [mbind res_bind]; [|done..]. by rewrite app_assoc.
  - by apply replies_error.
Qed.

Lemma simple_loop_session stmts : forall w sh ss input,
  replies ss (simple_loop run_stmt parse_sql select_stmt insert_payload read_error w sh ss stmts input).
Proof.
  induction stmts as [|s stmts IH]; intros w sh ss input; cbn [simple_loop].
  - destruct (ready_for_query sh ss) as [sh1 o] eqn:Er. intros w' sh' ss' out input' H. injection H as _ _ <- <- _. split; [done|].
    pose proof (ready_ends sh ss [] (quiet_nil true)) as H. by rewrite Er in H.
  - destruct s as [|c|s]; [apply IH|..]; destruct (next_event w) as [[arrived fired] w1]; destruct (before_statement sh (pid ss) arrived) as [sh0 []];
      try apply (replies_error w1 sh0 ss CANCELED input [] ss (continues_refl ss) (quiet_nil true)).
    + cbv zeta. destruct (is_stream (c_target c)); [|apply (replies_statement w1 sh0 ss (SqlCopy c) fired input (fun w sh ss => simple_loop _ _ _ _ _ w sh ss stmts input)); intros; apply IH].
      destruct (run_copy _ _ _ _ _ _ _ _) as [[[[[[sh2 ss2] o2] [u|e]] i2]|]|] eqn:Ec; cbn [at_state mbind res_bind]; try (by intros ?????);
        apply run_copy_session in Ec as [C2 Q2].
      * apply (replies_then ss ss2); [done|by apply quiet_weaken|apply IH].
      * cbn [flush_notices]. pose proof (replies_error w1 sh2 (clear_notices ss2) e i2 (o2 ++ flat_map send_notice (notices ss2)) ss) as R.
        intros w' sh' ss' out input' H. refine (R _ _ w' sh' ss' out input' _);
          [eapply continues_trans; [exact C2|apply continues_notices]|apply quiet_app; apply quiet_weaken; [done|apply (quiet_notices ss2)]|].
        rewrite <- H. destruct (simple_error sh2 _ e) as [[sh3 ss3] o3]. by rewrite app_assoc.
    + apply (replies_statement w1 sh0 ss (SqlOther s) fired input (fun w sh ss => simple_loop _ _ _ _ _ w sh ss stmts input)). intros. apply IH.
Qed.

Lemma simple_query_session w sh ss sql input :
  replies ss (handle_simple_query run_stmt parse_sql select_stmt insert_payload read_error w sh ss sql input).
Proof.
  unfold handle_simple_query. destruct (parse_sql sql) as [[stmts|e]|]; [..|by intros ?????].
  - destruct (forallb is_empty_stmt stmts); [|apply simple_loop_session]. destruct (ready_for_query sh ss) as [sh1 o] eqn:Er.
    intros w' sh' ss' out input' H. injection H as _ _ <- <- _. split; [done|].
    pose proof (ready_ends sh ss (send_simple 73) (quiet_weaken true _ (quiet_simple 73 ltac:(lia) ltac:(lia)))) as R. by rewrite Er in R.
  - intros w' sh' ss' out input' H. injection H as _ _ <- <- _. split; [apply continues_error|].
    exists (send_error (lit "42601") e). split; [done|apply quiet_error].
Qed.

(** An extended-protocol step: the session continues, nothing ready is sent, and
    an error makes the session skip to the next Sync. *)
Definition step_ok (cl cl' : @Client Expr Select P) (out : list Z) : Prop :=
  continues (session cl) (session cl') /\ quiet (skip_until_sync cl') out.

Lemma step_error cl ss code message : continues (session cl) ss ->
  step_ok cl (set_skip (set_session cl ss) true) (send_error code message).
Proof. intros C. split; [exact C|apply quiet_error]. Qed.

Lemma execute_loop_session stmts : forall w sh cl formats w' sh' cl' out,
  execute_loop run_stmt parse_sql select_stmt insert_payload read_error w sh cl formats stmts = Val (w', sh', cl', out) ->
  step_ok cl cl' out.
Proof.
  induction stmts as [|s stmts IH]; intros w sh cl formats w' sh' cl' out; cbn [execute_loop].
  { intros [= _ _ <- <-]. split; [done|apply quiet_nil]. }
  assert (forall w1 sh fired, match run_statement_timed run_stmt parse_sql select_stmt insert_payload read_error w1 sh (session cl) s fired with
      | Panic => Panic
      | Val (w, sh, ss, r) =>
          let '(ss, notes) := flush_notices ss in
          match r with
          | Ok r => '(w, sh, cl, out) ← execute_loop run_stmt parse_sql select_stmt insert_payload read_error w sh (set_session cl ss) formats stmts;
                    Val (w, sh, cl, notes ++ send_execute_result (outcome r) formats ++ out)
          | Err e => let '(cl, out) := execute_error cl ss e in Val (w, sh, cl, notes ++ out)
          end
      end = Val (w', sh', cl', out) -> step_ok cl cl' out) as G.
  { intros w1 sh0 fired. destruct (run_statement_timed _ _ _ _ _ _ _ _ _ _) as [[[[w2 sh2] ss2] r]|] eqn:Et; [|done].
    apply timed_session in Et. cbn [flush_notices]. pose proof (quiet_notices ss2) as Q. cbn [flush_notices snd] in Q.
    assert (continues (session cl) (clear_notices ss2)) as C by (eapply continues_trans; [exact Et|apply continues_notices]).
    destruct r as [r|e].
    - destruct (execute_loop _ _ _ _ _ _ _ _ _ _) as [[[[w3 sh3] cl3] o3]|] eqn:El; cbn [mbind run_bind]; [|done].
      intros H. injection H as _ _ <- <-. apply IH in El as [C3 Q3]. split; [by eapply continues_trans; [exact C|exact C3]|].
      apply quiet_app; [by apply quiet_weaken|]. apply quiet_app; [apply quiet_weaken, quiet_result|exact Q3].
    - cbn [execute_error]. intros H. injection H as _ _ <- <-.
      split; [by eapply continues_trans; [exact C|apply continues_error]|]. apply quiet_app; [by apply quiet_weaken|apply quiet_error]. }
  destruct s as [|c|s]; [|destruct (next_event w) as [[arrived fired] w1]; destruct (before_statement sh (pid (session cl)) arrived) as [sh0 []]..].
  - destruct (execute_loop _ _ _ _ _ _ _ _ _ _) as [[[[w3 sh3] cl3] o3]|] eqn:El; cbn [mbind run_bind]; [|done].
    intros H. injection H as _ _ <- <-. apply IH in El as [C3 Q3]. split; [exact C3|].
    apply quiet_app; [apply quiet_weaken, quiet_simple; lia|exact Q3].
  - cbn [execute_error]. intros H. injection H as _ _ <- <-. apply (step_error cl (mark_error (session cl))), continues_error.
  - apply G.
  - cbn [execute_error]. intros H. injection H as _ _ <- <-. apply (step_error cl (mark_error (session cl))), continues_error.
  - apply G.
Qed.

Lemma describe_quiet sh ss s shape : describe_row_shape describe_statement sh ss s = Val shape -> quiet false shape.
Proof.
  unfold describe_row_shape. destruct s as [s|]; [|intros [= <-]; apply quiet_simple; lia].
  destruct (describe_statement _ s) as [[[f|]|e]|]; [..|done]; intros [= <-]; [apply quiet_description|apply quiet_simple; lia..].
Qed.

Lemma skip_error cl code message : step_ok cl (set_skip cl true) (send_error code message).
Proof. split; [done|apply quiet_error]. Qed.

Lemma bind_session cl portal statement raw pf rf cl' out :
  handle_bind bind_statement cl portal statement raw pf rf = Val (cl', out) -> step_ok cl cl' out.
Proof.
  unfold handle_bind. destruct (prepared cl !! statement) as [p|]; [|intros [= <- <-]; apply skip_error].
  destruct (decode_params _ _ _ _) as [[vs|e]|]; [|intros [= <- <-]; apply skip_error|done].
  destruct (mapM _ _); intros [= <- <-]; [|apply skip_error]. split; [done|]. apply quiet_weaken, quiet_simple; lia.
Qed.

Lemma parse_session cl name query oids cl' out : handle_parse parse_sql cl name query oids = Val (cl', out) -> step_ok cl cl' out.
Proof.
  unfold handle_parse. destruct (parse_sql query) as [[stmts|e]|]; [..|done]; intros [= <- <-]; [|apply skip_error].
  split; [done|]. apply quiet_weaken, quiet_simple; lia.
Qed.

Lemma describe_session sh cl kind name cl' out : handle_describe describe_statement sh cl kind name = Val (cl', out) -> step_ok cl cl' out.
Proof.
  unfold handle_describe. destruct (kind =? 83).
  - destruct (prepared cl !! name); [|intros [= <- <-]; apply skip_error]. destruct (describe_row_shape _ _ _ _) as [shape|] eqn:E; cbn; [|done].
    intros [= <- <-]. split; [done|]. apply quiet_weaken, quiet_app; [apply quiet_params|by eapply describe_quiet].
  - destruct (portals cl !! name); [|intros [= <- <-]; apply skip_error]. destruct (describe_row_shape _ _ _ _) as [shape|] eqn:E; cbn; [|done].
    intros [= <- <-]. split; [done|]. by eapply quiet_weaken, describe_quiet.
Qed.

Lemma step_quiet cl cl' out : continues (session cl) (session cl') -> quiet false out -> step_ok cl cl' out.
Proof. intros C Q. split; [exact C|by apply quiet_weaken]. Qed.
End conformance.

(** Whether a message finds the session idle in a transaction for too long, and
    whether ReadyForQuery is due after it. *)
Definition idle_out {E S P} (sh : @Shared E S) (cl : @Client E S P) (idle : bool) (msg : FrontendMessage) : bool :=
  match tx (session cl) with Some _ => true | None => false end && negb (match msg with Terminate => true | _ => false end)
  && (0 <? current_guc_ms sh (session cl) (lit "idle_in_transaction_session_timeout")) && idle.
Definition ready_due {E S P} (sh : @Shared E S) (cl : @Client E S P) (idle : bool) (msg : FrontendMessage) : bool :=
  idle_out sh cl idle msg || match msg with Sync => true | Query _ => negb (skip_until_sync cl) | _ => false end.

Section loop.
Context {Expr Select P : Type}.
Context (run_stmt : @Shared Expr Select -> @Session Expr Select -> Statement P
  -> run (@Shared Expr Select * @Session Expr Select * result str (ExecResult (R := ExecOutcome)))) `{!StatementRunner run_stmt}.
Context (parse_sql : str -> res str (list (@SqlStatement Select P))).
Context (bind_statement : @SqlStatement Select P -> list Value -> result str (@SqlStatement Select P)).
Context (describe_statement : Database Expr Select -> @SqlStatement Select P -> res str (option (list FieldDescription))).
Context (select_stmt : Select -> Statement P) (insert_payload : option (list str) -> list (list LitExpr) -> P) (read_error : str).
Abbreviation handle := (handle_message run_stmt parse_sql bind_statement describe_statement select_stmt insert_payload read_error).

Lemma handle_message_ok w sh cl idle msg input w' sh' cl' out input' :
  handle w sh cl idle msg input = Val (Ok (Some (w', sh', cl', out, input'))) ->
  continues (session cl) (session cl')
  /\ (if ready_due sh cl idle msg then ends_ready (tx_status (session cl')) out else quiet (skip_until_sync cl') out)
  /\ (skip_until_sync cl = true -> msg <> Sync -> idle_out sh cl idle msg = false -> out = [] /\ cl' = cl /\ sh' = sh).
Proof.
  unfold handle_message, ready_due. fold (idle_out sh cl idle msg). destruct (idle_out sh cl idle msg).
  { intros [= _ _ <- <- _]. split_and!; [done| |done]. cbn [orb].
    exists (send_error (lit "25P03") (lit "terminating connection due to idle-in-transaction timeout")). split; [done|apply quiet_error]. }
  cbn [orb]. destruct (skip_until_sync cl) eqn:Es; cbn [andb negb].
  { destruct msg; cbn [negb]; try (intros [= _ <- <- <- _]; split_and!; [done|apply quiet_nil|done]).
    destruct (ready_for_query sh (session cl)) as [sh1 o] eqn:Er. intros [= _ _ <- <- _]. split_and!; [done| |done].
    pose proof (ready_ends sh (session cl) [] (quiet_nil true)) as R. by rewrite Er in R. }
  assert (forall x : @Client Expr Select P * list Z, step_ok cl x.1 x.2 -> (let '(cl, out) := x in mret (Some (w, sh, cl, out, input)) : res (@ConnError Expr Select) _)
      = Val (Ok (Some (w', sh', cl', out, input'))) -> continues (session cl) (session cl') /\ quiet (skip_until_sync cl') out /\ (false = true ->
      msg <> Sync -> false = false -> out = [] /\ cl' = cl /\ sh' = sh)) as Stay.
  { intros [cl1 o1] [C Q] H. injection H as _ _ <- <- _. split_and!; [done|done|by intros [=]]. }
  destruct msg; try (apply (Stay (cl, [])); apply step_quiet; [done|apply quiet_nil]).
  - pose proof (simple_query_session run_stmt parse_sql select_stmt insert_payload read_error w sh (session cl) q input) as R.
    destruct (handle_simple_query _ _ _ _ _ _ _ _ _ _) as [[[[[[w1 sh1] ss1] o1] i1]|]|]; cbn [mbind res_bind]; try done.
    intros H. injection H as _ _ <- <- _. destruct (R _ _ _ _ _ eq_refl) as [C E]. split_and!; [exact C|exact E|by intros [=]].
  - destruct (handle_parse _ _ _ _ _) as [[cl1 o1]|] eqn:Eb; cbn [mbind res_bind lift]; [|done]. apply parse_session in Eb. by apply (Stay (cl1, o1)).
  - destruct (handle_bind _ _ _ _ _ _ _) as [[cl1 o1]|] eqn:Eb; cbn [mbind res_bind lift]; [|done]. apply bind_session in Eb. by apply (Stay (cl1, o1)).
  - destruct (handle_describe _ _ _ _ _) as [[cl1 o1]|] eqn:Eb; cbn [mbind res_bind lift]; [|done]. apply describe_session in Eb. by apply (Stay (cl1, o1)).
  - unfold handle_execute. destruct (portals cl !! portal) as [p|].
    + destruct (execute_loop _ _ _ _ _ _ _ _ _ _) as [[[[w1 sh1] cl1] o1]|] eqn:Ee; cbn [mbind res_bind lift]; [|done].
      apply execute_loop_session in Ee as [C Q]; [|done]. intros H. injection H as _ _ <- <- _. split_and!; [done|done|by intros [=]].
    + cbn [mbind res_bind lift]. intros H. injection H as _ _ <- <- _. split_and!; [done|apply quiet_error|by intros [=]].
  - apply (Stay (_, _)). apply step_quiet; [by destruct (kind =? 83)|apply quiet_simple; lia].
  - destruct (ready_for_query sh (session cl)) as [sh1 o] eqn:Er. intros [= _ _ <- <- _]. split_and!; [done| |by intros [=]].
    pose proof (ready_ends sh (session cl) [] (quiet_nil true)) as R. by rewrite Er in R.
  - apply (Stay (_, _)), skip_error.
  - done.
  - apply (Stay (_, _)), skip_error.
Qed.
End loop.

(** * The end of input *)

(** The loop reads on to the end of its input: its fuel is enough. *)
Section input.
Context {Expr Select P : Type}.
Context (run_stmt : @Shared Expr Select -> @Session Expr Select -> Statement P
  -> run (@Shared Expr Select * @Session Expr Select * result str (ExecResult (R := ExecOutcome)))).
Context (parse_sql : str -> res str (list (@SqlStatement Select P))).
Context (bind_statement : @SqlStatement Select P -> list Value -> result str (@SqlStatement Select P)).
Context (describe_statement : Database Expr Select -> @SqlStatement Select P -> res str (option (list FieldDescription))).
Context (select_stmt : Select -> Statement P) (insert_payload : option (list str) -> list (list LitExpr) -> P) (read_error : str).
Abbreviation handle := (handle_message run_stmt parse_sql bind_statement describe_statement select_stmt insert_payload read_error).
Abbreviation loop := (session_loop run_stmt parse_sql bind_statement describe_statement select_stmt insert_payload read_error).

Lemma copy_collect_less fuel : forall buf input r input', copy_collect fuel buf input = Val (Ok (r, input')) -> (length input' <= length input)%nat.
Proof.
  induction fuel as [|fuel IH]; intros buf input r input'; cbn [copy_collect]; [done|].
  destruct (read_message input) as [[[m i1]|e]|] eqn:Er; cbn [mbind res_bind]; [|done..].
  destruct m as [m|]; [|done]. apply read_message_less in Er.
  destruct m; try done; try (intros [= _ <-]; lia); intros H; apply IH in H; lia.
Qed.

Lemma run_copy_less sh ss c input sh' ss' out r input' :
  run_copy run_stmt (parse_select parse_sql) select_stmt insert_payload sh ss c input = Val (Ok (sh', ss', out, r, input')) -> (length input' <= length input)%nat.
Proof.
  unfold run_copy. destruct (copy_columns _ _ _ _); [|intros [= _ _ _ _ <-]; lia]. destruct (c_direction c).
  - unfold copy_from_stdin. destruct (copy_collect _ _ _) as [[[[buf|e] i1]|]|] eqn:Ec; cbn [mbind res_bind]; try done;
      apply copy_collect_less in Ec; [|intros [= _ _ _ _ <-]; done].
    destruct (copy_from_bytes _ _ _ _ _ _ _ _ _) as [[[sh1 ss1] [n|e]]|]; cbn [lift mbind res_bind]; try done; intros [= _ _ _ _ <-]; done.
  - destruct (copy_to_stdout _ _ _ _ _ _ _) as [[[[sh1 ss1] o1] r1]|]; cbn [lift mbind res_bind]; [|done]. intros [= _ _ _ _ <-]. lia.
Qed.

Lemma simple_loop_less stmts : forall w sh ss input w' sh' ss' out input',
  simple_loop run_stmt parse_sql select_stmt insert_payload read_error w sh ss stmts input = Val (Ok (w', sh', ss', out, input')) -> (length input' <= length input)%nat.
Proof.
  induction stmts as [|s stmts IH]; intros w sh ss input w' sh' ss' out input'; cbn [simple_loop].
  { destruct (ready_for_query sh ss). intros [= _ _ _ _ <-]. lia. }
  destruct s as [|c|s]; [apply IH|destruct (next_event w) as [[arrived fired] w1]; destruct (before_statement sh (pid ss) arrived) as [sh0 []];
    [destruct (simple_error sh0 ss CANCELED) as [[? ?] ?]; intros [= _ _ _ _ <-]; lia|]..].
  all: assert (forall w sh ss r pre, (let '(ss, notes) := flush_notices ss in
      match r with
      | Ok r => '(w, sh, ss, out, input) ← simple_loop run_stmt parse_sql select_stmt insert_payload read_error w sh ss stmts input;
          mret (w, sh, ss, notes ++ send_result (outcome r) [] ++ out, input)
      | Err e => let '(sh, ss, out) := simple_error sh ss e in mret (w, sh, ss, pre ++ notes ++ out, input)
      end : res (@ConnError Expr Select) _) = Val (Ok (w', sh', ss', out, input')) -> (length input' <= length input)%nat) as G.
  1, 3: (intros w2 sh2 ss2 r pre; cbn [flush_notices]; destruct r as [r|e];
    [destruct (simple_loop _ _ _ _ _ _ _ _ _ _) as [[[[[[w3 sh3] ss3] o3] i3]|]|] eqn:El; cbn [mbind res_bind]; try done; intros [= _ _ _ _ <-]; by eapply IH
    |destruct (simple_error _ _ e) as [[? ?] ?]; intros [= _ _ _ _ <-]; lia]).
  - cbv zeta. destruct (is_stream (c_target c)).
    + destruct (run_copy _ _ _ _ _ _ _ _) as [[[[[[sh2 ss2] o2] [u|e]] i2]|]|] eqn:Ec; cbn [at_state mbind res_bind]; try done; apply run_copy_less in Ec.
      * destruct (simple_loop _ _ _ _ _ _ _ _ _ _) as [[[[[[w3 sh3] ss3] o3] i3]|]|] eqn:El; cbn [mbind res_bind]; try done. intros [= _ _ _ _ <-].
        apply IH in El. lia.
      * cbn [flush_notices]. destruct (simple_error _ _ e) as [[? ?] ?]. intros [= _ _ _ _ <-]. done.
    + destruct (run_statement_timed _ _ _ _ _ _ _ _ _ _) as [[[[w2 sh2] ss2] r]|]; cbn [lift mbind res_bind]; [|done]. apply (G w2 sh2 ss2 r []).
  - cbv zeta. destruct (run_statement_timed _ _ _ _ _ _ _ _ _ _) as [[[[w2 sh2] ss2] r]|]; cbn [lift mbind res_bind]; [|done]. apply (G w2 sh2 ss2 r []).
Qed.

Lemma handle_message_less w sh cl idle msg input w' sh' cl' out input' :
  handle w sh cl idle msg input = Val (Ok (Some (w', sh', cl', out, input'))) -> (length input' <= length input)%nat.
Proof.
  unfold handle_message. destruct (_ && idle); [intros [= _ _ _ _ <-]; lia|]. destruct (skip_until_sync cl && _); [intros [= _ _ _ _ <-]; lia|].
  destruct msg; try (intros [= _ _ _ _ <-]; lia).
  - unfold handle_simple_query. destruct (parse_sql q) as [[stmts|e]|]; cbn [mbind res_bind]; [|intros [= _ _ _ _ <-]; lia|done].
    destruct (forallb is_empty_stmt stmts); [destruct (ready_for_query sh (session cl)); intros [= _ _ _ _ <-]; lia|].
    destruct (simple_loop _ _ _ _ _ _ _ _ _ _) as [[[[[[w3 sh3] ss3] o3] i3]|]|] eqn:El; cbn [mbind res_bind]; try done.
    intros [= _ _ _ _ <-]. by eapply simple_loop_less.
  - destruct (handle_parse _ _ _ _ _) as [[cl1 o1]|]; cbn [lift mbind res_bind]; [|done]. intros [= _ _ _ _ <-]. lia.
  - destruct (handle_bind _ _ _ _ _ _ _) as [[cl1 o1]|]; cbn [lift mbind res_bind]; [|done]. intros [= _ _ _ _ <-]. lia.
  - destruct (handle_describe _ _ _ _ _) as [[cl1 o1]|]; cbn [lift mbind res_bind]; [|done]. intros [= _ _ _ _ <-]. lia.
  - destruct (handle_execute _ _ _ _ _ _ _ _ _) as [[[[w1 sh1] cl1] o1]|]; cbn [lift mbind res_bind]; [|done]. intros [= _ _ _ _ <-]. lia.
  - destruct (ready_for_query sh (session cl)). intros [= _ _ _ _ <-]. lia.
Qed.

(** The message loop panics only where a message handler does. *)
Lemma session_loop_panics fuel : forall w sh cl idles input, (length input < fuel)%nat -> loop fuel w sh cl idles input = Panic ->
  exists w sh cl idle msg input, handle w sh cl idle msg input = Panic.
Proof.
  induction fuel as [|fuel IH]; intros w sh cl idles input L; [lia|]. cbn [session_loop].
  destruct (protocol_total_message input) as [[[m i1]|e] Er]; rewrite Er; cbn [at_state mbind res_bind]; [|done]. destruct m as [msg|]; [|done].
  apply read_message_less in Er.
  destruct (handle w sh cl (default false (head idles)) msg i1) as [[[[[[[w1 sh1] cl1] o1] i2]|]|e]|] eqn:Eh; cbn [mbind res_bind]; try done; [|by intros _; eexists _, _, _, _, _, _].
  apply handle_message_less in Eh. destruct (loop fuel w1 sh1 cl1 (tail idles) i2) as [[[[[w2 sh2] cl2] o2]|e]|] eqn:El; cbn [mbind res_bind]; try done.
  intros _. eapply IH; [|exact El]. lia.
Qed.
End input.

(** ** Startup *)

(** The input begins with [n] requests for TLS or GSS encryption and then this
    startup packet. *)
Inductive opens : list Z -> nat -> Startup -> list Z -> Prop :=
| opens_with input s rest : read_startup input = Val (Ok (s, rest)) -> s <> SslRequest -> s <> GssEncRequest -> opens input 0 s rest
| opens_after input s0 i1 n s rest : read_startup input = Val (Ok (s0, i1)) -> s0 = SslRequest \/ s0 = GssEncRequest -> opens i1 n s rest -> opens input (S n) s rest.

Lemma opens_fun input n s rest : opens input n s rest -> forall n' s' rest', opens input n' s' rest' -> n = n' /\ s = s' /\ rest = rest'.
Proof.
  induction 1 as [input s rest R N1 N2|input s0 i1 n s rest R D _ IH]; intros n' s' rest' H'; destruct H' as [input s' rest' R' N1' N2'|input s0' i1' n' s' rest' R' D' H'];
    rewrite R in R'; injection R' as <- <-; try done; try tauto. destruct (IH _ _ _ H') as (-> & -> & ->). done.
Qed.

(** The negotiation reads the packet, declining what comes before, and never panics. *)
Lemma negotiate_spec {Expr Select} fuel : forall (sh : @Shared Expr Select) c, (length (inp c) < fuel)%nat ->
  match negotiate fuel sh c with
  | Panic => False
  | Val (Err _) => forall n s rest, ~ opens (inp c) n s rest
  | Val (Ok (sh', o, c')) => exists n s, opens (inp c) n s (inp c') /\ out c' = out c ++ replicate n 78
      /\ match s with CancelRequest p k => o = None /\ sh' = cancel_request sh p k | Params ps => o = Some ps /\ sh' = sh | _ => False end
  end.
Proof.
  induction fuel as [|fuel IH]; intros sh c L; [lia|]. cbn [negotiate].
  destruct (read_startup (inp c)) as [[[s r]|e]|] eqn:Er; cbn [mbind res_bind].
  2: { intros n s rest H. inversion H; congruence. }
  2: { by apply no_panic_startup in Er. }
  pose proof (read_startup_less _ _ _ Er) as Lr.
  assert (s = SslRequest \/ s = GssEncRequest -> match negotiate fuel sh (send [78] (mk_conn r (out c))) with
    | Panic => False
    | Val (Err _) => forall n s rest, ~ opens (inp c) n s rest
    | Val (Ok (sh', o, c')) => exists n s, opens (inp c) n s (inp c') /\ out c' = out c ++ replicate n 78
        /\ match s with CancelRequest p k => o = None /\ sh' = cancel_request sh p k | Params ps => o = Some ps /\ sh' = sh | _ => False end
    end) as G.
  { intros D. specialize (IH sh (send [78] (mk_conn r (out c)))). cbn [inp send] in IH. specialize (IH ltac:(lia)).
    destruct (negotiate fuel sh (send [78] (mk_conn r (out c)))) as [[[[sh' o] c']|e]|]; [| |done].
    - destruct IH as (n & s1 & O & E & H). exists (S n), s1. split_and!; [by eapply opens_after| |done]. rewrite E. cbn. by rewrite <- app_assoc.
    - intros n s1 rest O. inversion O as [? ? ? R N1 N2|? s0 i1 n' ? ? R D' O']; subst; rewrite Er in R; injection R as <- <-; [tauto|by eapply IH]. }
  destruct s; try (by apply G; auto); cbn [mret res_ret];
    (eexists 0%nat, _; split; [by apply opens_with|]; cbn; by rewrite app_nil_r).
Qed.

(** The client passes authentication: after the encryption requests it sends
    startup parameters, and the authentication step, which reads on from there,
    accepts the user and database they name. *)
Definition logged_in (h : Host) (peer_ip : str) (input : list Z) : Prop :=
  exists n ps rest c, opens input n (Params ps) rest
    /\ let username := default (lit "postgres") (param "user" ps) in
       authenticate (host_env h) (host_challenge h) (host_salt h) (host_nonce h) username (default username (param "database" ps)) peer_ip
         (mk_conn rest (replicate n 78)) = Val (Ok (AuthOk, c)).

(** Nothing of backend [p] is left: it holds and awaits no lock, is not registered
    and listens to nothing. *)
Definition gone {Expr Select} (sh : @Shared Expr Select) (p : Z) : Prop :=
  (forall o e, WaitsOn (locks sh) o e \/ Holds (locks sh) o e -> h_pid e <> p)
  /\ backends sh !! p = None
  /\ (forall ch pids, listeners sh !! ch = Some pids -> p ∉ pids).

Lemma conn_drop_gone {Expr Select} p (sh : @Shared Expr Select) : gone (conn_drop sh p) p.
Proof.
  split_and!.
  - intros o e. cbn. intros [H|H]; apply release_all_mem in H; apply H.
  - cbn. apply lookup_delete_eq.
  - intros ch pids. cbn. rewrite lookup_fmap. destruct (listeners sh !! ch) as [l|]; [|done]. cbn. intros [= <-].
    unfold without. rewrite list_elem_of_filter. tauto.
Qed.

(** The cancel flag of backend [p] is set if its secret is [k]; nothing else changes. *)
Definition flagged {Expr Select} (sh sh' : @Shared Expr Select) (p k : Z) : Prop :=
  (exists hd, backends sh !! p = Some hd /\ secret hd = k /\ sh' = set_backends sh (<[p := mk_handle k true (notifications hd)]> (backends sh)))
  \/ ((forall hd, backends sh !! p = Some hd -> secret hd <> k) /\ sh' = sh).

Lemma cancel_request_spec {Expr Select} (sh : @Shared Expr Select) p k : flagged sh (cancel_request sh p k) p k.
Proof.
  unfold flagged, cancel_request. destruct (backends sh !! p) as [hd|] eqn:E; [|right; split; [by intros hd [=]|done]].
  destruct (secret hd =? k) eqn:Ek; zb; [left|right; split; [by intros ? [= <-]|done]].
  exists hd. split_and!; [done|done|]. unfold store_cancel. f_equal. rewrite <- Ek.
  apply map_eq. intros q. destruct (decide (p = q)) as [<-|Nq].
  - by rewrite lookup_alter_eq, E, lookup_insert_eq.
  - by rewrite lookup_alter_ne, lookup_insert_ne.
Qed.

(** The cancel flag is taken by the next statement: with the flag set, a query
    runs none of its statements, whatever they are, answers with the
    cancellation error and ReadyForQuery, and clears the flag. *)
Lemma canceled_query {Expr Select P} run_stmt parse_sql select_stmt insert_payload read_error
    w (sh : @Shared Expr Select) ss sql input hd s stmts :
  backends sh !! pid ss = Some hd -> cancel hd = true -> parse_sql sql = Val (Ok (s :: stmts)) -> s <> SqlEmpty ->
  exists w' sh' out, handle_simple_query (P := P) run_stmt parse_sql select_stmt insert_payload read_error w sh ss sql input
      = Val (Ok (w', sh', mark_error ss, out, input))
    /\ out = send_error (lit "57014") CANCELED ++ flat_map send_notification (notifications hd) ++ send_ready_for_query (tx_status (mark_error ss))
    /\ sh' = set_backends sh (<[pid ss := mk_handle (secret hd) false []]> (backends sh)) /\ files w' = files w.
Proof.
  intros Hb Hc Hp Ns. unfold handle_simple_query. rewrite Hp.
  assert (forallb is_empty_stmt (s :: stmts) = false) as -> by (by destruct s).
  assert (forall arrived, before_statement sh (pid ss) arrived = (set_backends sh (<[pid ss := mk_handle (secret hd) false (notifications hd)]> (backends sh)), true)) as Eb.
  { intros arrived. unfold before_statement, check_canceled, store_cancel.
    assert (forall b, alter (set_cancel b) (pid ss) (backends sh) = <[pid ss := mk_handle (secret hd) b (notifications hd)]> (backends sh)) as Ea.
    { intros b. apply map_eq. intros q. destruct (decide (pid ss = q)) as [<-|Nq]; [by rewrite lookup_alter_eq, Hb, lookup_insert_eq|by rewrite lookup_alter_ne, lookup_insert_ne]. }
    destruct arrived; cbn [backends set_backends]; [|by rewrite Ea, Hb, Hc]. rewrite Ea, lookup_insert_eq. cbn [cancel]. do 2 f_equal.
    apply map_eq. intros q. destruct (decide (pid ss = q)) as [<-|Nq]; [by rewrite lookup_alter_eq, !lookup_insert_eq|by rewrite lookup_alter_ne, !lookup_insert_ne]. }
  assert (pid (mark_error ss) = pid ss) as Ep by (unfold mark_error; by destruct (tx ss)).
  destruct (next_event w) as [[arrived fired] w1] eqn:Ew.
  assert (files w1 = files w) as Ef by (unfold next_event in Ew; destruct (events w) as [|[] es]; by injection Ew as _ _ <-).
  exists w1. destruct s as [|c|s]; [done|..]; cbn [simple_loop]; rewrite Ew, Eb; unfold simple_error, ready_for_query, deliver_notifications;
    cbn [backends set_backends]; rewrite Ep, lookup_insert_eq; cbn [notifications secret cancel];
    rewrite insert_insert_eq; (eexists _, _; split_and!; [reflexivity|by rewrite <- ?app_assoc|done|done]).
Qed.

(** * Theorems *)

(** C9: Protocol conformance of the connection loop, against any statement layer
    that keeps the status byte.  Whatever a client sends, the server answers with
    whole messages; a query and a Sync (and a session that was idle in a
    transaction for too long) end with exactly one ReadyForQuery, whose status byte
    is the state of the session's transaction, and no other message carries one;
    an error in the extended protocol makes the session skip, and while it skips
    nothing but Sync has any effect or answer. *)
Theorem server_conforms {Expr Select P} run_stmt `{!StatementRunner (E := Expr) (S := Select) (P := P) run_stmt}
    parse_sql bind_statement describe_statement select_stmt insert_payload read_error w sh cl idle msg input w' sh' cl' out input' :
  status_ok (session cl) ->
  handle_message run_stmt parse_sql bind_statement describe_statement select_stmt insert_payload read_error w sh cl idle msg input
    = Val (Ok (Some (w', sh', cl', out, input'))) ->
  status_ok (session cl') /\ pid (session cl') = pid (session cl)
  /\ (if ready_due sh cl idle msg then ends_ready (tx_status (session cl')) out else quiet (skip_until_sync cl') out)
  /\ (skip_until_sync cl = true -> msg <> Sync -> idle_out sh cl idle msg = false -> out = [] /\ cl' = cl /\ sh' = sh).
Proof.
  intros S H. apply handle_message_ok in H as ([C Pd] & R & K); [|done]. split_and!; [by apply C|exact Pd|exact R|exact K].
Qed.

(** A one-statement server: every query is BEGIN. *)
Definition toy_run : @Shared unit unit -> @Session unit unit -> Statement unit -> run (@Shared unit unit * @Session unit unit * result str (ExecResult (R := ExecOutcome))) :=
  run_statement (fun db _ => Val (db, Ok (Command (lit "OK")))) (fun _ => []).
Definition toy_client : @Client unit unit unit := mk_client (session_new 1) ∅ ∅ false.
Definition toy_world : World := mk_world [] ∅.
Definition toy_server : @Shared unit unit := mk_shared db_new None None ∅ ∅ ∅.

Lemma server_conforms_witness :
  exists out cl', ends_ready IN_TX out /\ status_ok (E := unit) (S := unit) cl'
    /\ tx_status cl' = IN_TX.
Proof.
  destruct (handle_message toy_run (fun _ => mret [SqlOther (SBegin None None)]) (fun s _ => Ok s) (fun _ _ => mret None)
    (fun _ => SOther tt) (fun _ _ => tt) [] toy_world toy_server toy_client false (Query (lit "BEGIN")) [])
    as [[[[[[[w' sh'] cl'] out] input']|]|]|] eqn:H; try (vm_compute in H; discriminate).
  pose proof H as H0. apply server_conforms in H as (S & _ & R & _); [|apply txn_runner|reflexivity].
  exists out, (session cl').
  assert (tx_status (session cl') = IN_TX) as E.
  { assert (tx_status (session toy_client) = IDLE) as _ by reflexivity.
    vm_compute in H0. injection H0 as _ _ <- _ _. reflexivity. }
  split; [|split; [exact S|exact E]]. rewrite <- E. exact R.
Defined.

(** C35: the life of a connection, however it ends.  (1) A connection whose first
    packet (after requests for TLS or GSS, which are answered N) is a CancelRequest
    changes at most one thing: the cancel flag of the backend it names is set if
    that backend exists and has the secret of the request; the answer is the Ns.
    (2) Any other connection that does not pass authentication, also one that breaks
    off with an error, leaves the shared state and the files as they were.  (3) After
    a connection that passed authentication, whether it ended in order or with an
    I/O error in the middle of a message or of a COPY, its backend is no longer
    registered, holds and awaits no lock and listens to nothing.  A panic can only
    come from the handler of a message of an authenticated client.  Writes to the
    socket are taken to succeed. *)
Theorem connection_guarded {Expr Select P} run_stmt parse_sql bind_statement describe_statement select_stmt insert_payload read_error
    h w (sh : @Shared Expr Select) idles peer_ip input :
  match handle_connection (P := P) run_stmt parse_sql bind_statement describe_statement select_stmt insert_payload read_error h w sh idles peer_ip input with
  | Panic => logged_in h peer_ip input
      /\ exists w sh cl idle msg input, handle_message run_stmt parse_sql bind_statement describe_statement select_stmt insert_payload read_error w sh cl idle msg input = Panic
  | Val (w', sh', r) =>
      (forall n p k rest, opens input n (CancelRequest p k) rest -> w' = w /\ r = Ok (replicate n 78) /\ flagged sh sh' p k)
      /\ ((forall n p k rest, ~ opens input n (CancelRequest p k) rest) -> ~ logged_in h peer_ip input -> w' = w /\ sh' = sh)
      /\ (logged_in h peer_ip input -> gone sh' (host_pid h))
  end.
Proof.
  unfold handle_connection. pose proof (negotiate_spec (S (length input)) sh (mk_conn input []) (Nat.lt_succ_diag_r _)) as N. cbn [inp out] in N.
  destruct (negotiate _ _ _) as [[[[sh1 [ps|]] c]|e]|]; [| | |done].
  - destruct N as (n & s & O & Ho & Hs). destruct s as [ps'| | |p k]; [|done|done|by destruct Hs]. destruct Hs as [[= <-] ->]. cbv zeta.
    assert (forall n p k rest, ~ opens input n (CancelRequest p k) rest) as Nc
      by (intros n' p k rest H; by destruct (opens_fun _ _ _ _ O _ _ _ H) as (_ & ? & _)).
    set (usr := default (lit "postgres") (param "user" ps)). set (db := default usr (param "database" ps)).
    assert (c = mk_conn (inp c) (replicate n 78)) as Ec by (destruct c; cbn in *; by rewrite Ho).
    assert (logged_in h peer_ip input -> exists c', authenticate (host_env h) (host_challenge h) (host_salt h) (host_nonce h) usr db peer_ip c = Val (Ok (AuthOk, c'))) as Li.
    { intros (n' & ps' & rest & c' & O' & A). destruct (opens_fun _ _ _ _ O _ _ _ O') as (<- & [= <-] & <-). cbv zeta in A. fold usr db in A. rewrite <- Ec in A. by eexists. }
    destruct (authenticate_total (host_env h) (host_challenge h) (host_salt h) (host_nonce h) usr db peer_ip c) as [x Ea]. rewrite Ea in Li |- *.
    destruct x as [[[] c']|e]; try (split_and!; [by intros n' p k rest H; destruct (Nc n' p k rest)|done|by intros (? & [=])%Li]).
    assert (logged_in h peer_ip input) as Lg.
    { exists n, ps, (inp c), c'. split; [done|]. cbv zeta. fold usr db. by rewrite <- Ec. }
    unfold serve_session. cbv zeta. set (sh0 := set_backends sh _). set (cl0 := mk_client _ _ _ _).
    pose proof (session_loop_panics run_stmt parse_sql bind_statement describe_statement select_stmt insert_payload read_error
      (S (length (inp c'))) w sh0 cl0 idles (inp c') (Nat.lt_succ_diag_r _)) as Pn.
    destruct (session_loop _ _ _ _ _ _ _ _ _ _ _ _ _) as [[[[[w1 sh1] cl1] o1]|[e [w1 sh1]]]|]; [..|split; [done|by apply Pn]];
      (split_and!; [by intros n' p k rest H; destruct (Nc n' p k rest)|done|intros _; apply conn_drop_gone]).
  - destruct N as (n & s & O & Ho & Hs). destruct s as [ps'| | |p k]; [by destruct Hs|done|done|]. destruct Hs as [_ ->].
    split_and!.
    + intros n' p' k' rest' O'. destruct (opens_fun _ _ _ _ O _ _ _ O') as (<- & [= <- <-] & _). split_and!; [done|by rewrite Ho|]. apply cancel_request_spec.
    + intros Nc. by destruct (Nc n p k (inp c)).
    + intros (n' & ps & rest & c' & O' & _). by destruct (opens_fun _ _ _ _ O _ _ _ O') as (_ & ? & _).
  - split_and!; [by intros n p k rest H; destruct (N _ _ _ H)|done|]. intros (n & ps & rest & c' & O & _). by destruct (N _ _ _ O).
Qed.

Definition toy_host : Host := mk_host (mk_env None None None None None) 5 [] [] 7 9 (lit "16.0").
Definition toy_input : list Z := encode_startup (Params [(lit "user", lit "bob")]) ++ encode (Query (lit "BEGIN")) ++ encode Terminate.
Definition toy_connection (sh : @Shared unit unit) (input : list Z) : run (World * @Shared unit unit * result ProtoError (list Z)) :=
  handle_connection toy_run (fun _ => mret [SqlOther (SBegin None None)]) (fun s _ => Ok s) (fun _ _ => mret None)
    (fun _ => SOther tt) (fun _ _ => tt) [] toy_host toy_world sh [] (lit "127.0.0.1") input.

(** A whole session, one that breaks off in the middle of a message, and a cancel
    request for a registered backend. *)
Example connections_run :
  match toy_connection toy_server toy_input, toy_connection toy_server (take 25 toy_input),
        toy_connection (set_backends toy_server {[ 3 := mk_handle 8 false [] ]}) (encode_startup SslRequest ++ encode_startup (CancelRequest 3 8)) with
  | Val (_, sh1, Ok _), Val (_, sh2, Err _), Val (_, sh3, Ok [78]) =>
      backends sh1 !! 7 = None /\ backends sh2 !! 7 = None /\ cancel <$> backends sh3 !! 3 = Some true
  | _, _, _ => False
  end.
Proof. vm_compute. repeat split. Qed.

(** ** The start of the server *)

(** The statements executed one after the other. *)
Fixpoint run_each {Expr Select S} (execute : Database Expr Select -> S -> run (Database Expr Select * result str ExecOutcome)) (db : Database Expr Select) (ss : list S)
  : run (Database Expr Select) :=
  match ss with [] => Val db | s :: ss => '(db, _) ← execute db s; run_each execute db ss end.

(** Replay executes the statements in order. *)
Lemma replay_all_fold {Expr Select S} (execute : Database Expr Select -> S -> run (Database Expr Select * result str ExecOutcome)) is_empty ss :
  Forall (fun s => is_empty s = false) ss -> forall db, fst <$> replay_all execute is_empty db ss = run_each execute db ss.
Proof.
  induction 1 as [|s ss Hs _ IH]; intros db; [done|]. cbn [replay_all run_each]. rewrite Hs. destruct (execute db s) as [[db' r]|]; cbn [mbind run_bind]; [|done].
  specialize (IH db'). rewrite <- IH. by destruct (replay_all execute is_empty db' ss) as [[db2 n]|].
Qed.

(** With a disk store that holds any table, the log is read and then ignored:
    what was committed after the last CHECKPOINT is gone after a restart. *)
Lemma boot_disk_shadows_log {Expr Select S} (execute : Database Expr Select -> S -> run (Database Expr Select * result str ExecOutcome))
    parse_sql is_empty eval wal store recovered :
  (exists db, boot execute parse_sql is_empty eval wal None = Val db) ->
  recover eval store = Val (Ok recovered) -> table_names recovered <> [] ->
  boot execute parse_sql is_empty eval wal (Some store) = Val recovered.
Proof.
  intros [db B] H N. unfold boot in *. rewrite H. destruct (match wal with Some _ => _ | None => _ end); cbn [mbind run_bind] in *; [|done].
  by destruct (table_names recovered).
Qed.

(** A statement whose timeout fires is reported as canceled, but what it did
    stays: here a COMMIT ends the transaction and publishes its work. *)
Lemma timeout_keeps_effects {Expr Select P} run_stmt parse_sql select_stmt insert_payload read_error
    w sh ss s (sh' : @Shared Expr Select) ss' r :
  0 < current_guc_ms sh ss (lit "statement_timeout") -> run_stmt sh ss s = Val (sh', ss', Ok r) ->
  run_statement_timed (P := P) run_stmt parse_sql select_stmt insert_payload read_error w sh ss (SqlOther s) true = Val (w, store_cancel sh' (pid ss') false, ss', Err TIMED_OUT).
Proof. intros Ht H. unfold run_statement_timed. cbn [run_sql]. rewrite H. by ztrue (0 <? current_guc_ms sh ss (lit "statement_timeout")). Qed.
