(* ===== verification/Lexer.v ===== *)
(** The SQL tokenizer of crates/sql/src/lexer.rs, and the quoting functions of
    crates/sql/src/serialize.rs whose output it must read back.  The lexer's
    state is the input from its position on. *)

From S2P Require Import Prelude Utf8 Numeric Types.

(** * Tokens *)

Inductive Token :=
| Word (s : str)
| QuotedIdent (s : str)
| StringLit (s : str)
| Number (s : str)
| Param (n : Z)
| Comma | Semicolon | LParen | RParen | LBracket | RBracket | Star | Plus | Minus
| Arrow | ArrowText | ArrayContains | TextSearchMatch | ArrayContainedBy | ArrayOverlap
| NetworkContainedBy | NetworkContainedByEq | NetworkContains | NetworkContainsEq
| Slash | Percent | TEq | NotEq | TLt | LtEq | TGt | GtEq | Dot | Concat | DoubleColon
| Match | MatchCi | NotMatch | NotMatchCi.

#[export] Instance token_eq_dec : EqDecision Token.
Proof. solve_decision. Defined.

(** * Whitespace and comments *)

(** A line comment ends before the newline. *)
Fixpoint skip_line (s : str) : str :=
  match s with
  | [] => []
  | c :: s' => if c =? 10 then s else skip_line s'
  end.

(** Nested block comments; an unterminated one extends to the end. *)
Fixpoint skip_block (depth : nat) (s : str) : str :=
  match depth with
  | O => s
  | S d =>
      match s with
      | [] => []
      | c :: s' =>
          match s' with
          | c' :: s'' =>
              if (c =? 47) && (c' =? 42) then skip_block (S depth) s''
              else if (c =? 42) && (c' =? 47) then skip_block d s''
              else skip_block depth s'
          | [] => []
          end
      end
  end.

(** [skip_whitespace_and_comments]; every round consumes a byte. *)
Fixpoint skip_fuel (fuel : nat) (s : str) : str :=
  match fuel with
  | O => s
  | S fuel =>
      match s with
      | c :: s' =>
          if is_ascii_whitespace c then skip_fuel fuel s'
          else match s' with
               | c' :: s'' =>
                   if (c =? 45) && (c' =? 45) then skip_fuel fuel (skip_line s)
                   else if (c =? 47) && (c' =? 42) then skip_fuel fuel (skip_block 1 s'')
                   else s
               | [] => s
               end
      | [] => s
      end
  end.
Definition skip_whitespace_and_comments (s : str) : str := skip_fuel (length s) s.

(** * Literals *)

(** The longest prefix of bytes that satisfy [p], and the rest. *)
Fixpoint span (p : Z -> bool) (s : str) : str * str :=
  match s with
  | c :: s' => if p c then let '(a, b) := span p s' in (c :: a, b) else ([], s)
  | [] => ([], [])
  end.

Definition word_char (c : Z) : bool := (c =? 95) || (c =? 36) || is_ascii_alphanumeric c.
Definition word_start (c : Z) : bool := (c =? 95) || is_ascii_alphabetic c.
Definition read_word (s : str) : Token * str := let '(w, r) := span word_char s in (Word w, r).

Fixpoint scan_number (seen_dot seen_exp : bool) (s : str) : str * str :=
  match s with
  | c :: s' =>
      if is_ascii_digit c then let '(a, b) := scan_number seen_dot seen_exp s' in (c :: a, b)
      else if (c =? 46) && negb seen_dot && negb seen_exp then let '(a, b) := scan_number true seen_exp s' in (c :: a, b)
      else if ((c =? 101) || (c =? 69)) && negb seen_exp then
        match s' with
        | sg :: s'' =>
            if (sg =? 43) || (sg =? 45) then let '(a, b) := scan_number seen_dot true s'' in (c :: sg :: a, b)
            else let '(a, b) := scan_number seen_dot true s' in (c :: a, b)
        | [] => ([c], [])
        end
      else ([], s)
  | [] => ([], [])
  end.
Definition read_number (s : str) : Token * str := let '(n, r) := scan_number false false s in (Number n, r).

(** [read_param] after the dollar sign; a number beyond [u32] reads as 0. *)
Definition read_param (s : str) : Token * str :=
  let '(ds, r) := span is_ascii_digit s in (Param (default 0 (parse_uint 32 ds)), r).

(** [starts_dollar_quote] after the dollar sign, [i] bytes further on. *)
Fixpoint dollar_tag (first : bool) (s : str) : bool :=
  match s with
  | [] => false
  | c :: s =>
      if c =? 36 then true
      else if first then if word_start c then dollar_tag false s else false
      else if (c =? 95) || is_ascii_alphanumeric c then dollar_tag false s else false
  end.

(** The search for the closing delimiter. *)
Fixpoint find_delim (delim : str) (acc : str) (s : str) : option (str * str) :=
  if (length delim <=? length s)%nat then
    if starts_with s delim then Some (reverse acc, drop (length delim) s)
    else match s with
         | c :: s' => find_delim delim (c :: acc) s'
         | [] => None
         end
  else None.

Definition utf8_lit (bytes : list Z) (rest : str) (what : str) : result str (Token * str) :=
  if utf8_valid bytes then Ok (StringLit bytes, rest) else Err (lit "invalid UTF-8 in " ++ what).

(** [read_dollar_string] on the input after the first dollar sign. *)
Definition read_dollar_string (s : str) : result str (Token * str) :=
  let '(tag, r) := span (fun c => negb (c =? 36)) s in
  let delim := 36 :: tag ++ [36] in
  match find_delim delim [] (drop 1 r) with
  | Some (bytes, rest) => utf8_lit bytes rest (lit "dollar-quoted string literal")
  | None => Err (lit "unterminated dollar-quoted string literal")
  end.

(** [read_quoted_ident] after the opening quote: each byte is pushed as the
    character of that code. *)
Fixpoint read_quoted_ident (acc : str) (s : str) : result str (Token * str) :=
  match s with
  | [] => Err (lit "unterminated quoted identifier")
  | c :: s' =>
      if c =? 34 then
        match s' with
        | c' :: s'' => if c' =? 34 then read_quoted_ident (acc ++ [34]) s'' else Ok (QuotedIdent acc, s')
        | [] => Ok (QuotedIdent acc, s')
        end
      else read_quoted_ident (acc ++ push_byte_char c) s'
  end.

Definition UNTERMINATED : str := lit "unterminated string literal".

Definition escape_byte (o : Z) : Z :=
  if o =? 110 then 10 else if o =? 116 then 9 else if o =? 114 then 13 else if o =? 98 then 8 else if o =? 102 then 12 else o.

(** [read_escape_string] and [read_string] after the opening quote. *)
Fixpoint read_escape_string (acc : list Z) (s : str) : result str (Token * str) :=
  match s with
  | [] => Err UNTERMINATED
  | c :: s' =>
      if c =? 39 then
        match s' with
        | c' :: s'' => if c' =? 39 then read_escape_string (acc ++ [39]) s'' else utf8_lit acc s' (lit "string literal")
        | [] => utf8_lit acc s' (lit "string literal")
        end
      else if c =? 92 then
        match s' with
        | o :: s'' => read_escape_string (acc ++ [escape_byte o]) s''
        | [] => Err UNTERMINATED
        end
      else read_escape_string (acc ++ [c]) s'
  end.

Fixpoint read_string (acc : list Z) (s : str) : result str (Token * str) :=
  match s with
  | [] => Err UNTERMINATED
  | c :: s' =>
      if c =? 39 then
        match s' with
        | c' :: s'' => if c' =? 39 then read_string (acc ++ [39]) s'' else utf8_lit acc s' (lit "string literal")
        | [] => utf8_lit acc s' (lit "string literal")
        end
      else read_string (acc ++ [c]) s'
  end.

(** * Operators *)

Definition unexpected (c : Z) : str := lit "unexpected character '" ++ push_byte_char c ++ lit "'".

(** [tok] if the next byte is [c], and what follows otherwise. *)
Definition if_next (c : Z) (s : str) (yes : str -> result str (Token * str)) (no : result str (Token * str)) : result str (Token * str) :=
  match s with
  | c' :: s' => if c' =? c then yes s' else no
  | [] => no
  end.
Definition tok (t : Token) (s : str) : result str (Token * str) := Ok (t, s).

(** The match on the operator byte [c] that was just consumed. *)
Definition read_operator (c : Z) (s : str) : result str (Token * str) :=
  match c with
  | 44 => tok Comma s
  | 59 => tok Semicolon s
  | 40 => tok LParen s
  | 41 => tok RParen s
  | 91 => tok LBracket s
  | 93 => tok RBracket s
  | 42 => tok Star s
  | 43 => tok Plus s
  | 45 => if_next 62 s (fun s => if_next 62 s (tok ArrowText) (tok Arrow s)) (tok Minus s)
  | 47 => tok Slash s
  | 37 => tok Percent s
  | 46 => tok Dot s
  | 58 => if_next 58 s (tok DoubleColon) (Err (unexpected c))
  | 61 => tok TEq s
  | 60 =>
      if_next 60 s (fun s => if_next 61 s (tok NetworkContainedByEq) (tok NetworkContainedBy s))
        (if_next 62 s (tok NotEq) (if_next 64 s (tok ArrayContainedBy) (if_next 61 s (tok LtEq) (tok TLt s))))
  | 62 =>
      if_next 62 s (fun s => if_next 61 s (tok NetworkContainsEq) (tok NetworkContains s))
        (if_next 61 s (tok GtEq) (tok TGt s))
  | 33 =>
      if_next 61 s (tok NotEq)
        (if_next 126 s (fun s => if_next 42 s (tok NotMatchCi) (tok NotMatch s)) (Err (unexpected c)))
  | 126 => if_next 42 s (tok MatchCi) (tok Match s)
  | 64 => if_next 64 s (tok TextSearchMatch) (if_next 62 s (tok ArrayContains) (Err (unexpected c)))
  | 38 => if_next 38 s (tok ArrayOverlap) (Err (unexpected c))
  | 124 => if_next 124 s (tok Concat) (Err (unexpected c))
  | _ => Err (unexpected c)
  end.

(** * The lexer *)

Definition starts_digit (s : str) : bool := match s with d :: _ => is_ascii_digit d | [] => false end.
Definition starts_byte (c : Z) (s : str) : bool := match s with d :: _ => d =? c | [] => false end.

(** [next_token]; [None] at the end of the input. *)
Definition next_token (s : str) : result str (option (Token * str)) :=
  match skip_whitespace_and_comments s with
  | [] => Ok None
  | c :: s' =>
      let s := c :: s' in
      Some <$>
      (if ((c =? 69) || (c =? 101)) && starts_byte 39 s' then read_escape_string [] (drop 1 s')
       else if word_start c then Ok (read_word s)
       else if is_ascii_digit c || ((c =? 46) && starts_digit s') then Ok (read_number s)
       else if c =? 34 then read_quoted_ident [] s'
       else if c =? 39 then read_string [] s'
       else if (c =? 36) && dollar_tag true s' then read_dollar_string s'
       else if (c =? 36) && starts_digit s' then Ok (read_param s')
       else read_operator c s')
  end.

(** [tokenize]; [None] if the loop does not end within the fuel. *)
Fixpoint tokenize_fuel (fuel : nat) (s : str) : option (result str (list Token)) :=
  match fuel with
  | O => None
  | S fuel =>
      match next_token s with
      | Err e => Some (Err e)
      | Ok None => Some (Ok [])
      | Ok (Some (t, s)) => (fun r => ts ← r; Ok (t :: ts)) <$> tokenize_fuel fuel s
      end
  end.
Definition tokenize (s : str) : option (result str (list Token)) := tokenize_fuel (S (length s)) s.

(** * Quoting (serialize.rs) *)

(** [ident] *)
Definition simple_ident (name : str) : bool :=
  match name with
  | [] => false
  | c :: _ => ((c =? 95) || is_ascii_lower c) && forallb (fun b => (b =? 95) || is_ascii_lower b || is_ascii_digit b) name
  end.
Definition ident (name : str) : str := if simple_ident name then name else 34 :: replace_char 34 [34; 34] name ++ [34].

(** [quote_string] and [string_literal] *)
Definition quote_string (s : str) : str := 39 :: replace_char 39 [39; 39] s ++ [39].

(** [dollar_quote]: the first delimiter that does not occur in the body; the
    numbers tried are bounded by [fuel]. *)
Fixpoint contains (needle s : str) : bool :=
  starts_with s needle || match s with [] => false | _ :: s' => contains needle s' end.
Definition body_tag (n : Z) : str := lit "$body" ++ i64_display n ++ lit "$".
Fixpoint free_tag (fuel : nat) (n : Z) (body : str) : option str :=
  match fuel with
  | O => None
  | S fuel => if contains (body_tag n) body then free_tag fuel (n + 1) body else Some (body_tag n)
  end.
Definition dollar_quote (body : str) : option str :=
  if contains (lit "$$") body then tag ← free_tag (S (length body)) 0 body; Some (tag ++ body ++ tag)
  else Some (lit "$$" ++ body ++ lit "$$").

(** * Examples *)

Example lex_ex : tokenize (lit "SELECT a->>'x' /* c /* d */ */ <> $1 -- end")
  = Some (Ok [Word (lit "SELECT"); Word (lit "a"); ArrowText; StringLit (lit "x"); NotEq; Param 1]).
Proof. vm_compute. reflexivity. Qed.
Example lex_dollar : tokenize (lit "$f$ a $ b $f$ 1.5e-3 .5 x::int")
  = Some (Ok [StringLit (lit " a $ b "); Number (lit "1.5e-3"); Number (lit ".5"); Word (lit "x"); DoubleColon; Word (lit "int")]).
Proof. vm_compute. reflexivity. Qed.

(** * Specification *)

(** The canonical text of a token. *)
Definition op_text (t : Token) : str :=
  match t with
  | Comma => lit "," | Semicolon => lit ";" | LParen => lit "(" | RParen => lit ")" | LBracket => lit "[" | RBracket => lit "]"
  | Star => lit "*" | Plus => lit "+" | Minus => lit "-" | Arrow => lit "->" | ArrowText => lit "->>" | ArrayContains => lit "@>"
  | TextSearchMatch => lit "@@" | ArrayContainedBy => lit "<@" | ArrayOverlap => lit "&&" | NetworkContainedBy => lit "<<"
  | NetworkContainedByEq => lit "<<=" | NetworkContains => lit ">>" | NetworkContainsEq => lit ">>=" | Slash => lit "/"
  | Percent => lit "%" | TEq => lit "=" | NotEq => lit "<>" | TLt => lit "<" | LtEq => lit "<=" | TGt => lit ">" | GtEq => lit ">="
  | Dot => lit "." | Concat => lit "||" | DoubleColon => lit "::" | Match => lit "~" | MatchCi => lit "~*" | NotMatch => lit "!~"
  | NotMatchCi => lit "!~*"
  | _ => []
  end.
Definition token_text (t : Token) : str :=
  match t with
  | Word s | Number s => s
  | QuotedIdent s => 34 :: replace_char 34 [34; 34] s ++ [34]
  | StringLit s => quote_string s
  | Param n => 36 :: i64_display n
  | _ => op_text t
  end.

(** The tokens that have a text: identifiers and numbers as the lexer delimits
    them, any valid UTF-8 in a string literal, ASCII in a quoted identifier. *)
Definition token_ok (t : Token) : Prop :=
  match t with
  | Word s => match s with c :: _ => word_start c = true /\ Forall (fun b => word_char b = true) s | [] => False end
  | Number s =>
      match s with
      | c :: s' => (is_ascii_digit c || ((c =? 46) && starts_digit s')) = true /\ scan_number false false s = (s, [])
      | [] => False
      end
  | QuotedIdent s => Forall (fun b => 0 <= b < 128) s
  | StringLit s => utf8_valid s = true
  | Param n => 0 <= n < 2 ^ 32
  | _ => True
  end.
(** The bytes that end a token: what may follow its text. *)
Definition stop (t : Token) (c : Z) : bool :=
  match t with
  | Comma | Semicolon | LParen | RParen | LBracket | RBracket | Star => true
  | Word _ => negb (word_char c) && negb (c =? 39)
  | QuotedIdent _ => negb (c =? 34)
  | StringLit _ => negb (c =? 39)
  | Number _ => negb (is_ascii_digit c || (c =? 46) || (c =? 101) || (c =? 69) || (c =? 43) || (c =? 45))
  | Param _ | Dot => negb (is_ascii_digit c)
  | Minus => negb ((c =? 45) || (c =? 62))
  | _ => c =? 32
  end.
Definition stops (t : Token) (rest : str) : bool := match rest with c :: _ => stop t c | [] => true end.
Definition render (ts : list Token) : str := flat_map (fun t => token_text t ++ [32]) ts.

(** * Proofs *)

(** ** Progress *)

Lemma skip_line_len s : (length (skip_line s) <= length s)%nat.
Proof. induction s as [|c s IH]; cbn; [done|]. destruct (c =? 10); cbn; lia. Qed.

Lemma skip_block_len s : forall d, (length (skip_block d s) <= length s)%nat.
Proof.
  remember (length s) as n eqn:Hn. revert s Hn. induction (lt_wf n) as [n _ IH]. intros s -> [|d]; [by destruct s|].
  destruct s as [|c [|c' s]]; [done|cbn; lia|].
  change (skip_block (S d) (c :: c' :: s)) with
    (if (c =? 47) && (c' =? 42) then skip_block (S (S d)) s
     else if (c =? 42) && (c' =? 47) then skip_block d s else skip_block (S d) (c' :: s)).
  destruct ((c =? 47) && (c' =? 42)); [pose proof (IH (length s) ltac:(cbn; lia) s eq_refl (S (S d))); cbn; lia|].
  destruct ((c =? 42) && (c' =? 47)); [pose proof (IH (length s) ltac:(cbn; lia) s eq_refl d); cbn; lia|].
  pose proof (IH (length (c' :: s)) ltac:(cbn; lia) (c' :: s) eq_refl (S d)). cbn [length] in *. lia.
Qed.

Lemma skip_fuel_len fuel : forall s, (length (skip_fuel fuel s) <= length s)%nat.
Proof.
  induction fuel as [|fuel IH]; intros s; [done|]. destruct s as [|c s]; [done|]. cbn [skip_fuel].
  destruct (is_ascii_whitespace c); [pose proof (IH s); cbn; lia|]. destruct s as [|c' s]; [done|].
  destruct ((c =? 45) && (c' =? 45)); [etransitivity; [apply IH|apply skip_line_len]|].
  destruct ((c =? 47) && (c' =? 42)); [|done]. etransitivity; [apply IH|]. etransitivity; [apply skip_block_len|]. cbn. lia.
Qed.

Lemma span_len p s : (length (span p s).2 <= length s)%nat.
Proof. induction s as [|c s IH]; cbn; [done|]. destruct (p c); [|done]. destruct (span p s); cbn in *. lia. Qed.

Lemma scan_number_len s : forall d e, (length (scan_number d e s).2 <= length s)%nat.
Proof.
  remember (length s) as n eqn:Hn. revert s Hn. induction (lt_wf n) as [n _ IH]. intros s -> d e.
  destruct s as [|c s]; [done|]. cbn [scan_number].
  assert (forall s', (length s' < length (c :: s))%nat -> forall d e, (length (scan_number d e s').2 <= length s')%nat) as G
    by (intros s' Hs' d' e'; by apply (IH (length s'))).
  destruct (is_ascii_digit c).
  { pose proof (G s ltac:(cbn; lia) d e). destruct (scan_number d e s); cbn in *. lia. }
  destruct ((c =? 46) && negb d && negb e).
  { pose proof (G s ltac:(cbn; lia) true e). destruct (scan_number true e s); cbn in *. lia. }
  destruct (((c =? 101) || (c =? 69)) && negb e); [|done]. destruct s as [|sg s]; [cbn; lia|].
  destruct ((sg =? 43) || (sg =? 45)).
  - pose proof (G s ltac:(cbn; lia) d true). destruct (scan_number d true s); cbn in *. lia.
  - pose proof (G (sg :: s) ltac:(cbn; lia) d true). destruct (scan_number d true (sg :: s)); cbn in *. lia.
Qed.

Lemma utf8_lit_rest bytes rest what t r : utf8_lit bytes rest what = Ok (t, r) -> r = rest.
Proof. unfold utf8_lit. destruct (utf8_valid bytes); [|done]. by intros [= _ <-]. Qed.

Lemma find_delim_len delim s : forall acc b r, find_delim delim acc s = Some (b, r) -> (length r <= length s)%nat.
Proof.
  induction s as [|c s IH]; intros acc b r; cbn [find_delim].
  - destruct (_ <=? _)%nat; [|done]. destruct (starts_with [] delim); [|done]. intros [= _ <-]. rewrite length_drop. lia.
  - destruct (_ <=? _)%nat; [|done]. destruct (starts_with (c :: s) delim); [intros [= _ <-]; rewrite length_drop; lia|].
    intros H%IH. cbn. lia.
Qed.

Lemma read_dollar_len s t r : read_dollar_string s = Ok (t, r) -> (length r <= length s)%nat.
Proof.
  unfold read_dollar_string. pose proof (span_len (fun c => negb (c =? 36)) s) as L. destruct (span _ s) as [tag r0]. cbn in L.
  destruct (find_delim _ [] (drop 1 r0)) as [[b r1]|] eqn:E; [|done]. apply find_delim_len in E. rewrite length_drop in E.
  intros ->%utf8_lit_rest. lia.
Qed.

Lemma read_quoted_len s : forall acc t r, read_quoted_ident acc s = Ok (t, r) -> (length r <= length s)%nat.
Proof.
  remember (length s) as n eqn:Hn. revert s Hn. induction (lt_wf n) as [n _ IH]. intros s -> acc t r. destruct s as [|c s]; [done|].
  cbn [read_quoted_ident]. destruct (c =? 34).
  - destruct s as [|c' s]; [intros [= _ <-]; cbn; lia|]. destruct (c' =? 34); [|intros [= _ <-]; cbn; lia].
    intros H. pose proof (IH (length s) ltac:(cbn; lia) s eq_refl _ _ _ H). cbn; lia.
  - intros H. pose proof (IH (length s) ltac:(cbn; lia) s eq_refl _ _ _ H). cbn; lia.
Qed.

Lemma read_escape_len s : forall acc t r, read_escape_string acc s = Ok (t, r) -> (length r <= length s)%nat.
Proof.
  remember (length s) as n eqn:Hn. revert s Hn. induction (lt_wf n) as [n _ IH]. intros s -> acc t r. destruct s as [|c s]; [done|].
  cbn [read_escape_string]. destruct (c =? 39).
  - destruct s as [|c' s]; [intros ->%utf8_lit_rest; cbn; lia|]. destruct (c' =? 39); [|intros ->%utf8_lit_rest; cbn; lia].
    intros H. pose proof (IH (length s) ltac:(cbn; lia) s eq_refl _ _ _ H). cbn; lia.
  - destruct (c =? 92).
    + destruct s as [|o s]; [done|]. intros H. pose proof (IH (length s) ltac:(cbn; lia) s eq_refl _ _ _ H). cbn; lia.
    + intros H. pose proof (IH (length s) ltac:(cbn; lia) s eq_refl _ _ _ H). cbn; lia.
Qed.

Lemma read_string_len s : forall acc t r, read_string acc s = Ok (t, r) -> (length r <= length s)%nat.
Proof.
  remember (length s) as n eqn:Hn. revert s Hn. induction (lt_wf n) as [n _ IH]. intros s -> acc t r. destruct s as [|c s]; [done|].
  cbn [read_string]. destruct (c =? 39).
  - destruct s as [|c' s]; [intros ->%utf8_lit_rest; cbn; lia|]. destruct (c' =? 39); [|intros ->%utf8_lit_rest; cbn; lia].
    intros H. pose proof (IH (length s) ltac:(cbn; lia) s eq_refl _ _ _ H). cbn; lia.
  - intros H. pose proof (IH (length s) ltac:(cbn; lia) s eq_refl _ _ _ H). cbn; lia.
Qed.

(** A reader that leaves no more than [s]. *)
Definition leaves (s : str) (res : result str (Token * str)) : Prop :=
  match res with Ok (_, r) => (length r <= length s)%nat | Err _ => True end.

Lemma leaves_tok s t : leaves s (tok t s).
Proof. cbn. lia. Qed.
Lemma leaves_next c s yes no :
  (forall s', s = c :: s' -> leaves s' (yes s')) -> leaves s no -> leaves s (if_next c s yes no).
Proof.
  intros Hy Hn. destruct s as [|c' s]; [done|]. cbn [if_next]. destruct (c' =? c) eqn:E; [|done]. zb. subst.
  specialize (Hy s eq_refl). unfold leaves in *. destruct (yes s) as [[t r]|]; [cbn; lia|done].
Qed.

Lemma operator_len c s : leaves s (read_operator c s).
Proof.
  unfold read_operator. repeat (case_match; try exact I; try apply leaves_tok);
    repeat (apply leaves_next; [intros ? _; try apply leaves_tok|]; try apply leaves_tok); try exact I.
Qed.

Lemma span_leaves p c s : p c = true -> (length (span p (c :: s)).2 <= length s)%nat.
Proof. intros Hc. cbn. rewrite Hc. pose proof (span_len p s). by destruct (span p s). Qed.

Lemma word_start_char c : word_start c = true -> word_char c = true.
Proof.
  unfold word_start, word_char, is_ascii_alphanumeric. intros H. destruct (c =? 95); [done|]. cbn in H. rewrite H. by destruct (c =? 36).
Qed.

Lemma number_leaves c s : is_ascii_digit c || (c =? 46) = true -> (length (scan_number false false (c :: s)).2 <= length s)%nat.
Proof.
  intros H. cbn [scan_number]. destruct (is_ascii_digit c).
  - pose proof (scan_number_len s false false). by destruct (scan_number false false s).
  - cbn in H. rewrite H. cbn [andb negb]. pose proof (scan_number_len s true false). by destruct (scan_number true false s).
Qed.

(** Every token consumes at least one byte. *)
Lemma next_token_len s t r : next_token s = Ok (Some (t, r)) -> (length r < length s)%nat.
Proof.
  unfold next_token. pose proof (skip_fuel_len (length s) s) as L. fold (skip_whitespace_and_comments s) in L.
  destruct (skip_whitespace_and_comments s) as [|c s']; [done|]. cbn [length] in L.
  match goal with |- Some <$> ?x = _ -> _ => set (res := x) end.
  assert (leaves s' res) as H.
  { subst res. destruct (((c =? 69) || (c =? 101)) && starts_byte 39 s').
    { destruct (read_escape_string [] (drop 1 s')) as [[t0 r0]|] eqn:E; [|done]. apply read_escape_len in E. rewrite length_drop in E. cbn. lia. }
    destruct (word_start c) eqn:Ew.
    { unfold read_word. pose proof (span_leaves word_char c s' (word_start_char c Ew)). by destruct (span word_char (c :: s')). }
    destruct (is_ascii_digit c || ((c =? 46) && starts_digit s')) eqn:En.
    { unfold read_number. assert (is_ascii_digit c || (c =? 46) = true) as En' by (destruct (is_ascii_digit c), (c =? 46); done).
      pose proof (number_leaves c s' En'). by destruct (scan_number false false (c :: s')). }
    destruct (c =? 34).
    { destruct (read_quoted_ident [] s') as [[t0 r0]|] eqn:E; [|done]. by apply read_quoted_len in E. }
    destruct (c =? 39).
    { destruct (read_string [] s') as [[t0 r0]|] eqn:E; [|done]. by apply read_string_len in E. }
    destruct ((c =? 36) && dollar_tag true s').
    { destruct (read_dollar_string s') as [[t0 r0]|] eqn:E; [|done]. by apply read_dollar_len in E. }
    destruct ((c =? 36) && starts_digit s'); [|apply operator_len].
    unfold read_param. pose proof (span_len is_ascii_digit s'). by destruct (span is_ascii_digit s'). }
  destruct res as [[t0 r0]|]; cbn; [|done]. intros [= <- <-]. cbn in H. lia.
Qed.

Lemma tokenize_fuel_total fuel : forall s, (length s < fuel)%nat -> is_Some (tokenize_fuel fuel s).
Proof.
  induction fuel as [|fuel IH]; intros s H; [lia|]. cbn [tokenize_fuel].
  destruct (next_token s) as [[[t r]|]|e] eqn:E; [|by eexists..]. apply next_token_len in E.
  destruct (IH r ltac:(lia)) as [x ->]. by eexists.
Qed.

(** More fuel does not change the tokens. *)
Lemma tokenize_fuel_more fuel : forall fuel' s x, tokenize_fuel fuel s = Some x -> (fuel <= fuel')%nat -> tokenize_fuel fuel' s = Some x.
Proof.
  induction fuel as [|fuel IH]; intros [|fuel'] s x; cbn [tokenize_fuel]; try done; try lia. intros H L.
  destruct (next_token s) as [[[t r]|]|e]; [|done..]. destruct (tokenize_fuel fuel r) as [y|] eqn:Ey; [|done].
  by rewrite (IH fuel' r y Ey ltac:(lia)).
Qed.

(** ** Reading back *)

Lemma skip_blank s : skip_whitespace_and_comments (32 :: s) = skip_whitespace_and_comments s.
Proof. done. Qed.
Lemma next_token_blank s : next_token (32 :: s) = next_token s.
Proof. done. Qed.

(** A byte that starts neither blank space nor a comment. *)
Definition starts_token (c : Z) : bool := negb (is_ascii_whitespace c) && negb (c =? 45) && negb (c =? 47).

Lemma skip_none c s : starts_token c = true -> skip_whitespace_and_comments (c :: s) = c :: s.
Proof.
  unfold starts_token, skip_whitespace_and_comments. cbn [length skip_fuel]. intros H.
  apply andb_prop in H as [[H1 H2]%andb_prop H3]. apply negb_true_iff in H1, H2, H3. rewrite H1, H2, H3. cbn. by destruct s.
Qed.

Lemma span_all p a s : Forall (fun c => p c = true) a -> match s with b :: _ => p b | [] => false end = false -> span p (a ++ s) = (a, s).
Proof.
  intros F Hb. induction F as [|c a Hc F IH]; cbn; [destruct s; [done|]; cbn; by rewrite Hb|]. by rewrite Hc, IH.
Qed.

Lemma scan_number_stop s : stops (Number []) s = true -> forall d e, scan_number d e s = ([], s).
Proof.
  intros Hs d e. destruct s as [|c s]; [done|]. cbn in Hs |- *. apply negb_true_iff in Hs.
  apply orb_false_elim in Hs as [[[[[-> ->]%orb_false_elim ->]%orb_false_elim ->]%orb_false_elim _]%orb_false_elim _]. done.
Qed.

Lemma scan_number_app a s : stops (Number []) s = true -> forall d e, scan_number d e a = (a, []) -> scan_number d e (a ++ s) = (a, s).
Proof.
  intros Hs. remember (length a) as n eqn:Hn. revert a Hn. induction (lt_wf n) as [n _ IH]. intros a -> d e. destruct a as [|c a].
  { intros _. by apply scan_number_stop. }
  cbn [app scan_number]. destruct (is_ascii_digit c) eqn:Ed.
  { destruct (scan_number d e a) as [x y] eqn:E. intros [= -> ->]. by rewrite (IH (length a) ltac:(cbn; lia) a eq_refl d e E). }
  destruct ((c =? 46) && negb d && negb e) eqn:Edot.
  { destruct (scan_number true e a) as [x y] eqn:E. intros [= -> ->]. by rewrite (IH (length a) ltac:(cbn; lia) a eq_refl true e E). }
  destruct (((c =? 101) || (c =? 69)) && negb e) eqn:Eexp; [|done].
  destruct a as [|sg a]; cbn [app].
  - intros _. destruct s as [|c' s]; [done|]. rewrite (scan_number_stop (c' :: s) Hs). cbn in Hs. apply negb_true_iff in Hs.
    apply orb_false_elim in Hs as [[_ ->]%orb_false_elim ->]. done.
  - destruct ((sg =? 43) || (sg =? 45)) eqn:Esg.
    + destruct (scan_number d true a) as [x y] eqn:E. intros [= -> ->]. by rewrite (IH (length a) ltac:(cbn; lia) a eq_refl d true E).
    + destruct (scan_number d true (sg :: a)) as [x y] eqn:E. intros [= -> ->].
      pose proof (IH (length (sg :: a)) ltac:(cbn; lia) (sg :: a) eq_refl d true E) as H. cbn [app] in H. by rewrite H.
Qed.

Lemma read_string_quoted s : forall acc rest, utf8_valid (acc ++ s) = true -> starts_byte 39 rest = false ->
  read_string acc (replace_char 39 [39; 39] s ++ 39 :: rest) = Ok (StringLit (acc ++ s), rest).
Proof.
  induction s as [|c s IH]; intros acc rest V Hr.
  - cbn. rewrite app_nil_r in *. destruct rest as [|c' rest]; [unfold utf8_lit; by rewrite V|]. cbn in Hr. rewrite Hr.
    unfold utf8_lit. by rewrite V.
  - unfold replace_char. cbn [flat_map]. fold (replace_char 39 [39; 39] s).
    assert (utf8_valid ((acc ++ [c]) ++ s) = true) as V' by (by rewrite <- app_assoc).
    destruct (c =? 39) eqn:E.
    + apply Z.eqb_eq in E. subst c. cbn. rewrite (IH (acc ++ [39]) rest V' Hr). by rewrite <- app_assoc.
    + cbn [app read_string]. rewrite E. rewrite (IH (acc ++ [c]) rest V' Hr). by rewrite <- app_assoc.
Qed.

Lemma read_quoted_ident_quoted s : forall acc rest, Forall (fun b => 0 <= b < 128) s -> starts_byte 34 rest = false ->
  read_quoted_ident acc (replace_char 34 [34; 34] s ++ 34 :: rest) = Ok (QuotedIdent (acc ++ s), rest).
Proof.
  induction s as [|c s IH]; intros acc rest F Hr.
  - cbn. rewrite app_nil_r. destruct rest as [|c' rest]; [done|]. cbn in Hr. by rewrite Hr.
  - apply Forall_cons in F as [Hc F]. unfold replace_char. cbn [flat_map]. fold (replace_char 34 [34; 34] s).
    destruct (c =? 34) eqn:E.
    + apply Z.eqb_eq in E. subst c. cbn. rewrite (IH (acc ++ [34]) rest F Hr). by rewrite <- app_assoc.
    + cbn [app read_quoted_ident]. rewrite E. unfold push_byte_char. ztrue (c <? 128).
      rewrite (IH (acc ++ [c]) rest F Hr). by rewrite <- app_assoc.
Qed.

Lemma class_bounds c :
  (is_ascii_digit c = true -> 48 <= c <= 57) /\ (word_start c = true -> 65 <= c <= 122) /\ (word_char c = true -> 36 <= c <= 122 /\ c <> 39).
Proof.
  unfold word_char, word_start, is_ascii_alphanumeric, is_ascii_alphabetic, is_ascii_upper, is_ascii_lower, is_ascii_digit.
  split_and!; intros H; zb; lia.
Qed.

Lemma mid_starts c : 48 <= c <= 122 \/ c = 34 \/ c = 36 \/ c = 39 \/ c = 46 -> starts_token c = true.
Proof.
  unfold starts_token, is_ascii_whitespace. intros H.
  destruct (c =? 45) eqn:E1; [zb; lia|]. destruct (c =? 47) eqn:E2; [zb; lia|].
  repeat match goal with |- context [c =? ?k] => zfalse (c =? k) end. done.
Qed.

(** Canonical text reads as its token. *)
Lemma word_reads s rest : token_ok (Word s) -> stops (Word s) rest = true -> next_token (s ++ rest) = Ok (Some (Word s, rest)).
Proof.
  destruct s as [|c s]; [done|]. intros [Hc F] Hr. pose proof (proj1 (proj2 (class_bounds c)) Hc) as Bc. cbn [app]. unfold next_token.
  rewrite skip_none by (apply mid_starts; lia).
  assert (match rest with b :: _ => word_char b | [] => false end = false /\ starts_byte 39 rest = false) as [Hw Hq].
  { destruct rest; [done|]. cbn in Hr |- *. by apply andb_prop in Hr as [->%negb_true_iff ->%negb_true_iff]. }
  assert (starts_byte 39 (s ++ rest) = false) as ->.
  { destruct s as [|c' s]; [done|]. apply Forall_cons in F as [_ [Hc' _]%Forall_cons].
    apply class_bounds in Hc' as [_ Hc']. cbn. by apply Z.eqb_neq. }
  rewrite andb_false_r, Hc. unfold read_word. change (c :: s ++ rest) with ((c :: s) ++ rest).
  by rewrite (span_all word_char (c :: s) rest F).
Qed.

Lemma not_e_start c s : is_ascii_digit c || (c =? 46) = true -> ((c =? 69) || (c =? 101)) && starts_byte 39 s = false /\ word_start c = false.
Proof.
  unfold word_start, is_ascii_alphabetic, is_ascii_upper, is_ascii_lower, is_ascii_digit. intros H.
  assert (46 <= c <= 57) as B by (zb; lia).
  zfalse (c =? 69). zfalse (c =? 101). zfalse (c =? 95). zfalse (65 <=? c). zfalse (97 <=? c). done.
Qed.

Lemma number_reads s rest : token_ok (Number s) -> stops (Number s) rest = true -> next_token (s ++ rest) = Ok (Some (Number s, rest)).
Proof.
  destruct s as [|c s]; [done|]. intros [Hc Hs] Hr. cbn [app]. unfold next_token.
  assert (is_ascii_digit c || (c =? 46) = true) as Hc' by (destruct (is_ascii_digit c), (c =? 46); done).
  assert (48 <= c <= 122 \/ c = 46) as B.
  { destruct (is_ascii_digit c) eqn:Ed; [apply class_bounds in Ed; lia|]. cbn in Hc'. apply Z.eqb_eq in Hc'. lia. }
  rewrite skip_none by (apply mid_starts; lia). destruct (not_e_start c (s ++ rest) Hc') as [-> ->].
  assert (is_ascii_digit c || (c =? 46) && starts_digit (s ++ rest) = true) as ->.
  { destruct (is_ascii_digit c); [done|]. cbn in Hc |- *. apply andb_prop in Hc as [-> Hs']. by destruct s. }
  unfold read_number. change (c :: s ++ rest) with ((c :: s) ++ rest). by rewrite scan_number_app by done.
Qed.

Lemma param_reads n rest : 0 <= n < 2 ^ 32 -> stops (Param n) rest = true ->
  next_token (token_text (Param n) ++ rest) = Ok (Some (Param n, rest)).
Proof.
  intros Hn Hr. destruct (u64_display_digits n ltac:(lia)) as (ds & E & D & N & V). cbn [token_text app]. rewrite E.
  assert (Forall (fun c => is_ascii_digit c = true) (digit_char <$> ds)) as F.
  { apply Forall_fmap. eapply Forall_impl; [exact D|]. intros d Hd. unfold is_digit in Hd. cbn. unfold is_ascii_digit, digit_char. ztrue (48 <=? 48 + d). ztrue (48 + d <=? 57). done. }
  destruct ds as [|d ds]; [done|]. cbn [fmap list_fmap] in *. pose proof F as F'. apply Forall_cons in F' as [Hd _].
  pose proof (proj1 (class_bounds _) Hd) as Bd. cbn [app]. unfold next_token. rewrite skip_none by done.
  change ((36 =? 69) || (36 =? 101)) with false. change (word_start 36) with false. change (is_ascii_digit 36) with false. cbn [andb orb Z.eqb Pos.eqb].
  assert (dollar_tag true (digit_char d :: (digit_char <$> ds) ++ rest) = false) as ->.
  { cbn [dollar_tag]. zfalse (digit_char d =? 36). unfold word_start, is_ascii_alphabetic, is_ascii_upper, is_ascii_lower.
    zfalse (digit_char d =? 95). zfalse (65 <=? digit_char d). zfalse (97 <=? digit_char d). done. }
  cbn [starts_digit]. rewrite Hd. unfold read_param.
  change (digit_char d :: (digit_char <$> ds) ++ rest) with ((digit_char d :: (digit_char <$> ds)) ++ rest).
  rewrite (span_all is_ascii_digit _ rest F) by (destruct rest; [done|]; by apply negb_true_iff in Hr). rewrite <- E, parse_uint_display by lia. done.
Qed.

Lemma string_reads s rest : utf8_valid s = true -> stops (StringLit s) rest = true ->
  next_token (token_text (StringLit s) ++ rest) = Ok (Some (StringLit s, rest)).
Proof.
  intros V Hr. unfold token_text, quote_string. cbn [app]. rewrite <- app_assoc. unfold next_token. rewrite skip_none by done.
  cbn [app]. cbn -[replace_char read_string]. rewrite (read_string_quoted s [] rest V); [done|]. destruct rest; [done|]. by apply negb_true_iff in Hr.
Qed.

Lemma quoted_ident_reads s rest : Forall (fun b => 0 <= b < 128) s -> stops (QuotedIdent s) rest = true ->
  next_token (token_text (QuotedIdent s) ++ rest) = Ok (Some (QuotedIdent s, rest)).
Proof.
  intros V Hr. unfold token_text. cbn [app]. rewrite <- app_assoc. unfold next_token. rewrite skip_none by done.
  cbn [app]. cbn -[replace_char read_quoted_ident]. rewrite (read_quoted_ident_quoted s [] rest V); [done|]. destruct rest; [done|]. by apply negb_true_iff in Hr.
Qed.

Lemma minus_reads rest : stops Minus rest = true -> next_token (45 :: rest) = Ok (Some (Minus, rest)).
Proof.
  intros Hr. destruct rest as [|c rest]; [done|]. cbn in Hr. apply negb_true_iff, orb_false_elim in Hr as [H1 H2].
  unfold next_token, skip_whitespace_and_comments. cbn [length skip_fuel]. change (is_ascii_whitespace 45) with false. cbn [andb Z.eqb Pos.eqb].
  rewrite H1. cbn -[if_next]. cbn [if_next]. by rewrite H2.
Qed.
Lemma dot_reads rest : stops Dot rest = true -> next_token (46 :: rest) = Ok (Some (Dot, rest)).
Proof.
  intros Hr. unfold next_token. rewrite skip_none by done. destruct rest as [|c rest]; [done|]. cbn in Hr. apply negb_true_iff in Hr.
  cbn -[is_ascii_digit]. change (is_ascii_digit 46) with false. cbn [orb]. by rewrite Hr.
Qed.

Lemma token_reads t rest : token_ok t -> stops t rest = true -> next_token (token_text t ++ rest) = Ok (Some (t, rest)).
Proof.
  destruct t; try (intros _ Hr; destruct rest as [|c rest]; [reflexivity|]; cbn in Hr; try reflexivity; apply Z.eqb_eq in Hr; subst c; reflexivity).
  - apply word_reads.
  - apply quoted_ident_reads.
  - apply string_reads.
  - apply number_reads.
  - apply param_reads.
  - intros _ Hr. apply minus_reads. exact Hr.
  - intros _ Hr. apply dot_reads. exact Hr.
Qed.

Lemma render_reads ts : forall fuel, Forall token_ok ts -> (length ts < fuel)%nat ->
  tokenize_fuel fuel (render ts) = Some (Ok ts) /\ tokenize_fuel fuel (32 :: render ts) = Some (Ok ts).
Proof.
  induction ts as [|t ts IH]; intros [|fuel] F L; cbn [length] in L; try lia; [done|].
  apply Forall_cons in F as [Ht F]. destruct (IH fuel F ltac:(lia)) as [_ H2]. cbn [render flat_map tokenize_fuel]. fold (render ts).
  rewrite next_token_blank, <- app_assoc. cbn [app]. rewrite (token_reads t _ Ht), H2 by (by destruct t). done.
Qed.

Lemma render_len ts : (length ts <= length (render ts))%nat.
Proof. unfold render. induction ts as [|t ts IH]; [done|]. cbn [flat_map length]. rewrite !length_app. cbn. lia. Qed.

(** ** The blank-skipping loop has enough fuel *)

Lemma skip_fuel_more fuel : forall fuel' s, (length s <= fuel)%nat -> (length s <= fuel')%nat -> skip_fuel fuel s = skip_fuel fuel' s.
Proof.
  induction fuel as [|fuel IH]; intros [|fuel'] s L L'; try (by (destruct s; cbn in *; [|lia])).
  destruct s as [|c s]; [done|]. cbn [skip_fuel length] in *.
  destruct (is_ascii_whitespace c); [apply IH; lia|]. destruct s as [|c' s]; [done|].
  destruct ((c =? 45) && (c' =? 45)) eqn:E.
  - apply andb_prop in E as [->%Z.eqb_eq ->%Z.eqb_eq]. change (skip_line (45 :: 45 :: s)) with (skip_line s).
    pose proof (skip_line_len s). apply IH; cbn in *; lia.
  - destruct ((c =? 47) && (c' =? 42)); [|done]. pose proof (skip_block_len s 1). apply IH; cbn in *; lia.
Qed.

(** ** Theorems *)

(** The tokenizer returns on every input, tokens or an error: every round
    of its loop consumes at least one byte. *)
Theorem lexer_total : forall s, is_Some (tokenize s) /\ skip_whitespace_and_comments s = skip_fuel (S (length s)) s.
Proof. intros s. split; [apply tokenize_fuel_total; lia|apply skip_fuel_more; lia]. Qed.

(** Tokens survive a round trip through their text: the canonical texts of
    any tokens, separated by blanks, tokenize to exactly those tokens.  String
    literals are written as [quote_string] writes them and may hold any valid
    UTF-8, quotes included. *)
Theorem lexer_reads_back ts : Forall token_ok ts -> tokenize (render ts) = Some (Ok ts).
Proof. intros F. apply render_reads; [done|]. pose proof (render_len ts). lia. Qed.

Lemma lexer_reads_back_witness :
  tokenize (render [Word (lit "select"); StringLit [39; 195; 169]; ArrowText; QuotedIdent [65; 34]; Number (lit "1.5e-3"); Param 7])
  = Some (Ok [Word (lit "select"); StringLit [39; 195; 169]; ArrowText; QuotedIdent [65; 34]; Number (lit "1.5e-3"); Param 7]).
Proof.
  apply lexer_reads_back. repeat constructor; cbn; try done; try lia.
Defined.

(** The names that [ident] writes are read back as that name, bare or quoted. *)
Theorem ident_reads_back name rest : Forall (fun b => 0 <= b < 128) name ->
  next_token (ident name ++ 32 :: rest) = Ok (Some (if simple_ident name then Word name else QuotedIdent name, 32 :: rest)).
Proof.
  intros F. unfold ident. destruct (simple_ident name) eqn:E.
  - apply (token_reads (Word name)); [|done]. destruct name as [|c name]; [done|]. cbn [simple_ident] in E. apply andb_prop in E as [Hc Hn].
    split.
    + unfold word_start, is_ascii_alphabetic. destruct (c =? 95); [done|]. cbn in Hc. rewrite Hc. by rewrite orb_true_r.
    + apply Is_true_true, forallb_True in Hn. eapply Forall_impl; [exact Hn|]. intros b Hb. apply Is_true_true in Hb.
      unfold word_char, is_ascii_alphanumeric, is_ascii_alphabetic.
      destruct (b =? 95), (is_ascii_lower b), (is_ascii_digit b); try done; by rewrite ?orb_true_r.
  - by apply (token_reads (QuotedIdent name) (32 :: rest) F).
Qed.

(** A quoted identifier with a character beyond ASCII is not read as it was
    written: each of its bytes becomes a character. *)
Lemma quoted_ident_mangles_utf8 :
  ident [195; 169] = [34; 195; 169; 34] /\ tokenize (ident [195; 169]) = Some (Ok [QuotedIdent [195; 131; 194; 169]]).
Proof. split; vm_compute; reflexivity. Qed.

(** A body that ends in a dollar sign does not survive [dollar_quote]. *)
Lemma dollar_quote_breaks_trailing_dollar :
  dollar_quote (lit "a$") = Some (lit "$$a$$$") /\ (exists e, tokenize (lit "$$a$$$") = Some (Err e)).
Proof. split; [vm_compute; reflexivity|]. eexists. vm_compute. reflexivity. Qed.
