(* ===== verification/Pattern.v ===== *)
(** Pattern matching of crates/engine/src/executor.rs: SQL LIKE with its
    backtracking matcher, and the small POSIX-style regular expressions.  A [char]
    is the list of its UTF-8 bytes; [str::to_lowercase] is a parameter. *)

From S2P Require Import Prelude Utf8.

(** [s.chars()] *)
Fixpoint chars_fuel (fuel : nat) (l : str) : list str :=
  match fuel, l with
  | S fuel, b0 :: t => let n := (utf8_step b0 t).2 in take n (b0 :: t) :: chars_fuel fuel (drop n (b0 :: t))
  | _, _ => []
  end.
Definition chars (l : str) : list str := chars_fuel (length l) l.

Abbreviation PCT := (lit "%").
Abbreviation UND := (lit "_").

(** * LIKE *)

(** The loop of [like_match_inner]; the indices [ti] and [pi] are the rests of the
    text and of the pattern, [star] the rests after the last percent sign. *)
Fixpoint like_loop (fuel : nat) (t p : list str) (star : option (list str * list str)) : bool :=
  match fuel with
  | O => false
  | S fuel =>
      match t with
      | [] => forallb (fun c => str_eqb c PCT) p
      | x :: t' =>
          let backtrack :=
            match star with
            | Some (sp, _ :: st) => like_loop fuel st sp (Some (sp, st))
            | _ => false
            end in
          match p with
          | c :: p' =>
              if str_eqb c UND || str_eqb c x then like_loop fuel t' p' star
              else if str_eqb c PCT then like_loop fuel t p' (Some (p', t))
              else backtrack
          | [] => backtrack
          end
      end
  end.
Definition like_match_inner (t p : list str) : bool :=
  like_loop (S ((S (length t)) * S (length p) + length p)) t p None.

Definition fold_case (to_lowercase : str -> str) (ci : bool) (s : str) : list str :=
  chars (if ci then to_lowercase s else s).

Definition like_match (to_lowercase : str -> str) (text pattern : str) (ci : bool) : bool :=
  like_match_inner (fold_case to_lowercase ci text) (fold_case to_lowercase ci pattern).

(** * Regular expressions *)

(** [regex_star] with the rest of the pattern as a predicate on the rest of the
    text. *)
Fixpoint regex_star (c : str) (rest : list str -> bool) (t : list str) : bool :=
  rest t || match t with
            | x :: t' => (str_eqb c (lit ".") || str_eqb c x) && regex_star c rest t'
            | [] => false
            end.

Fixpoint regex_here (p t : list str) : bool :=
  match p with
  | [] => true
  | c :: p' =>
      if str_eqb c (lit "(") || str_eqb c (lit ")") then regex_here p' t
      else
        let single :=
          if str_eqb c (lit "$") && match p' with [] => true | _ => false end then match t with [] => true | _ => false end
          else match t with
               | x :: t' => (str_eqb c (lit ".") || str_eqb c x) && regex_here p' t'
               | [] => false
               end in
        match p' with
        | s :: p'' => if str_eqb s (lit "*") then regex_star c (regex_here p'') t else single
        | [] => single
        end
  end.

(** The loop over the start positions. *)
Fixpoint regex_anywhere (p t : list str) : bool :=
  regex_here p t || match t with _ :: t' => regex_anywhere p t' | [] => false end.

Definition regex_match (to_lowercase : str -> str) (pattern text : str) (ci : bool) : bool :=
  let p := fold_case to_lowercase ci pattern in
  let t := fold_case to_lowercase ci text in
  match p with
  | c :: p' => if str_eqb c (lit "^") then regex_here p' t else regex_anywhere p t
  | [] => regex_anywhere p t
  end.

Example like_examples :
  (fun '(t, p) => like_match id (lit t) (lit p) false)
  <$> [("hello", "h%o"); ("hello", "h_llo"); ("hello", "%l%l%"); ("hello", "%x%"); ("", "%"); ("abab", "%ab"); ("abc", "ab")]%string
  = [true; true; true; false; true; true; false].
Proof. vm_compute. reflexivity. Qed.
Example regex_examples :
  (fun '(p, t) => regex_match id (lit p) (lit t) false)
  <$> [("^pg_", "pg_toast"); ("^(users)$", "users"); ("^(users)$", "users2"); ("a.*c$", "xxabbc"); ("b", "abc"); ("^b", "abc")]%string
  = [true; true; false; true; true; false].
Proof. vm_compute. reflexivity. Qed.
Example chars_examples : chars [97; 195; 169; 226; 130; 172] = [[97]; [195; 169]; [226; 130; 172]].
Proof. vm_compute. reflexivity. Qed.

(** * Specification *)

(** What LIKE means. *)
Inductive Like : list str -> list str -> Prop :=
| like_nil : Like [] []
| like_any p u t : Like p t -> Like (PCT :: p) (u ++ t)
| like_one c p t : Like p t -> Like (UND :: p) (c :: t)
| like_lit c p t : c <> PCT -> c <> UND -> Like p t -> Like (c :: p) (c :: t).

(** What the regular expressions mean: parentheses are ignored, a dot is any
    character, a star repeats the character before it, a final dollar sign is the
    end of the text. *)
Definition rx_char (c x : str) : Prop := c = lit "." \/ c = x.
Inductive Rx : list str -> list str -> Prop :=
| rx_nil t : Rx [] t
| rx_paren c p t : c = lit "(" \/ c = lit ")" -> Rx p t -> Rx (c :: p) t
| rx_star c p u t : c <> lit "(" -> c <> lit ")" -> Forall (rx_char c) u -> Rx p t -> Rx (c :: lit "*" :: p) (u ++ t)
| rx_end : Rx [lit "$"] []
| rx_one c p x t : c <> lit "(" -> c <> lit ")" -> head p <> Some (lit "*") -> (c = lit "$" -> p <> []) ->
    rx_char c x -> Rx p t -> Rx (c :: p) (x :: t).

(** * Proofs *)

Lemma chars_concat_fuel n l : (length l <= n)%nat -> mjoin (chars_fuel n l) = l.
Proof.
  revert l. induction n as [|n IH]; intros [|b t] H; cbn [length] in *; try done; [lia|]. cbn [chars_fuel]. cbn [mjoin list_join].
  assert (0 < (utf8_step b t).2)%nat as Hs.
  { unfold utf8_step. repeat case_match; cbn; lia. }
  destruct ((utf8_step b t).2) as [|k] eqn:E; [lia|]. rewrite IH; [by rewrite take_drop|]. cbn [drop]. rewrite length_drop. lia.
Qed.

(** Nothing of the text is lost in its characters. *)
Lemma chars_concat l : mjoin (chars l) = l.
Proof. by apply chars_concat_fuel. Qed.

Lemma like_pcts p : forallb (fun c => str_eqb c PCT) p = true <-> Like p [].
Proof.
  induction p as [|c p IH]; cbn [forallb]; [split; [constructor|done]|]. rewrite andb_true_iff, IH. unfold str_eqb. split.
  - intros [->%bool_decide_eq_true H]. by apply (like_any p [] []).
  - intros H. inversion H; subst; [|done..]. destruct u; [|done]. cbn in *; subst. split; [by apply bool_decide_eq_true|done].
Qed.

(** The text has an end that matches [p]. *)
Definition LikeEnd (p st : list str) : Prop := exists u t, st = u ++ t /\ Like p t.

Lemma like_any_iff p t : Like (PCT :: p) t <-> LikeEnd p t.
Proof.
  split.
  - intros H. inversion H; subst; [by exists u, t0|done..].
  - intros (u & t' & -> & H). by constructor.
Qed.

Lemma like_end_cons p x st : LikeEnd p (x :: st) <-> Like p (x :: st) \/ LikeEnd p st.
Proof.
  split.
  - intros (u & t & E & H). destruct u as [|y u]; cbn in E; [left; by subst|]. injection E as -> ->. right. by exists u, t.
  - intros [H|(u & t & -> & H)]; [by exists [], (x :: st)|by exists (x :: u), t].
Qed.

(** Whatever the older percent sign could still give, the newer one gives too. *)
Lemma like_split q p t : Forall (fun c => c <> PCT) q -> Like (q ++ p) t -> exists v w, t = v ++ w /\ length v = length q /\ Like p w.
Proof.
  intros Hq. revert t. induction Hq as [|c q Hc _ IH]; intros t H; [by exists [], t|]. cbn [app] in H.
  inversion H; subst; [done| |]; destruct (IH _ ltac:(eassumption)) as (v & w & -> & Hl & Hw).
  - eexists (_ :: v), w. split_and!; [done|cbn; lia|done].
  - eexists (_ :: v), w. split_and!; [done|cbn; lia|done].
Qed.

Lemma newer_star q p u t : Forall (fun c => c <> PCT) q -> length u = length q ->
  LikeEnd (q ++ PCT :: p) (u ++ t) -> LikeEnd p t.
Proof.
  intros Hq Hl (a & b & E & H). destruct (like_split q _ _ Hq H) as (v & w & -> & Hv & Hw).
  apply like_any_iff in Hw as (x & y & -> & Hy). rewrite app_assoc in E.
  apply app_eq_inv in E as [(k & Eu & Ek)|(k & Eu & ->)].
  - apply (f_equal length) in Eu. rewrite !length_app in Eu. destruct k; [|cbn in Eu; lia]. exists x, y. by split.
  - exists (k ++ x), y. by rewrite <- app_assoc.
Qed.

(** What the loop still has to find: a match of the rests, or of the rests after
    the last percent sign, begun later. *)
Definition pending (t p : list str) (star : option (list str * list str)) : Prop :=
  Like p t \/ match star with Some (sp, _ :: st) => LikeEnd sp st | _ => False end.

(** The pattern since the last percent sign is free of them and has been matched
    against the text since then. *)
Definition star_ok (t p : list str) (star : option (list str * list str)) : Prop :=
  match star with
  | None => True
  | Some (sp, st) => exists q u, sp = q ++ p /\ st = u ++ t /\ length u = length q /\ Forall (fun c => c <> PCT) q
  end.

Definition star_len (n : nat) (star : option (list str * list str)) : nat :=
  match star with None => S n | Some (_, st) => length st end.
Definition pat_len (p : list str) (star : option (list str * list str)) (k : nat) : Prop :=
  (length p <= k)%nat /\ match star with None => True | Some (sp, _) => (length sp <= k)%nat end.

Lemma like_cons_iff c p x t : c <> PCT -> Like (c :: p) (x :: t) <-> (c = UND \/ c = x) /\ Like p t.
Proof.
  intros N. split.
  - intros H. inversion H; subst; [done|by split; [left|]|by split; [right|]].
  - intros [[->|<-] H]; [by constructor|]. destruct (decide (c = UND)) as [->|]; by constructor.
Qed.

Lemma like_loop_correct n k fuel : forall t p star,
  Forall (fun c => c <> PCT) t -> star_ok t p star -> pat_len p star k -> match star with Some (_, st) => Forall (fun c => c <> PCT) st | None => (length t <= n)%nat end ->
  (star_len n star * S k + length p < fuel)%nat ->
  like_loop fuel t p star = true <-> pending t p star.
Proof.
  induction fuel as [|fuel IH]; intros t p star Ht Hs Hk Hn Hf; [lia|]. cbn [like_loop].
  destruct t as [|x t'].
  { rewrite like_pcts. unfold pending. split; [by left|]. intros [H|H]; [done|]. destruct star as [[sp [|y st]]|]; try done.
    destruct Hs as (q & u & -> & E & Hl & Hq). rewrite app_nil_r in E. subst u. destruct H as (a & b & -> & H).
    destruct (like_split q p b Hq H) as (v & w & -> & Hv & Hw). exfalso. cbn in Hl. rewrite !length_app in Hl. lia. }
  inversion Ht as [|? ? Hx Ht']; subst.
  assert (forall b, (forall sp y st, star = Some (sp, y :: st) -> b = like_loop fuel st sp (Some (sp, st))) ->
    (match star with Some (_, _ :: _) => True | _ => b = false end) ->
    (b = true <-> match star with Some (sp, _ :: st) => LikeEnd sp st | _ => False end)) as Back.
  { intros b Hb Hb'. destruct star as [[sp [|y st]]|]; [by rewrite Hb'| |by rewrite Hb']. rewrite (Hb sp y st eq_refl). clear Hb Hb'.
    inversion Hn as [|? ? Hy Hst]; subst. destruct Hk as [Hk1 Hk2]. rewrite IH; [|done|exists [], []; by repeat split|done|done|cbn [star_len length] in *; nia].
    unfold pending. destruct st as [|z st]; [|by rewrite like_end_cons].
    split; [intros [H|[]]; by exists [], []|]. intros (u & w & E & H). destruct u; [|done]. cbn in E. subst. by left. }
  assert (match star with Some (sp, _ :: st) => like_loop fuel st sp (Some (sp, st)) | _ => false end = true
    <-> match star with Some (sp, _ :: st) => LikeEnd sp st | _ => False end) as B.
  { apply Back; [by intros sp y st ->|by destruct star as [[? [|? ?]]|]]. }
  clear Back. destruct p as [|c p'].
  { rewrite B. unfold pending. split; [by right|]. intros [H|H]; [by inversion H|done]. }
  destruct (str_eqb c UND || str_eqb c x) eqn:E1.
  - assert (c <> PCT) as Nc. { apply orb_prop in E1 as [->%str_eqb_true| ->%str_eqb_true]; [done|congruence]. }
    rewrite IH; [|done| | | |].
    + unfold pending. rewrite like_cons_iff by done. apply orb_prop in E1. rewrite !str_eqb_true in E1. tauto.
    + destruct star as [[sp st]|]; [|done]. destruct Hs as (q & u & -> & -> & Hl & Hq). exists (q ++ [c]), (u ++ [x]). rewrite <- !app_assoc.
      split_and!; [done|done|rewrite !length_app; cbn; lia|]. apply Forall_app. by split; [|constructor].
    + destruct Hk as [H1 H2]. split; [cbn in H1; lia|done].
    + destruct star as [[sp st]|]; [done|cbn in Hn; lia].
    + cbn [length] in Hf. lia.
  - apply orb_false_elim in E1 as [Eu%str_eqb_false Ex%str_eqb_false]. destruct (str_eqb c PCT) eqn:Ep.
    + apply str_eqb_true in Ep as ->. assert (match star with Some (sp, _ :: st) => LikeEnd sp st | _ => False end -> LikeEnd p' (x :: t')) as Old.
      { destruct star as [[sp [|y st]]|]; [done| |done]. intros H. destruct Hs as (q & u & -> & E & Hl & Hq).
        apply (newer_star q p' u (x :: t') Hq Hl). rewrite <- E. apply like_end_cons. by right. }
      destruct Hk as [Hk1 Hk2]. cbn [length] in Hk1, Hf. rewrite IH; [|done|exists [], []; by repeat split|split; lia|done|].
      * unfold pending. rewrite like_any_iff, !like_end_cons. rewrite like_end_cons in Old. tauto.
      * cbn [star_len]. destruct star as [[sp st]|]; cbn [star_len length] in *; [|nia].
        destruct Hs as (q & u & _ & -> & _). rewrite length_app in Hf. cbn [length] in Hf. nia.
    + apply str_eqb_false in Ep. rewrite B. unfold pending. rewrite like_cons_iff by done. tauto.
Qed.

Lemma regex_star_iff c rest t : regex_star c rest t = true <-> exists u w, t = u ++ w /\ Forall (rx_char c) u /\ rest w = true.
Proof.
  induction t as [|x t IH]; cbn [regex_star]; rewrite orb_true_iff.
  - split; [intros [H|H]; [by exists [], []|done]|]. intros (u & w & E & _ & H). symmetry in E. apply app_eq_nil in E as [-> ->]. by left.
  - rewrite andb_true_iff, orb_true_iff, !str_eqb_true, IH. split.
    + intros [H|[Hc (u & w & -> & Hu & H)]]; [by exists [], (x :: t)|]. exists (x :: u), w. split_and!; [done|by constructor|done].
    + intros (u & w & E & Hu & H). destruct u as [|y u]; cbn in E; [left; by subst|]. injection E as -> ->. inversion Hu; subst.
      right. split; [done|]. by exists u, w.
Qed.

(** The character after the first one is not a star: one character is matched. *)
Lemma rx_single c p t : c <> lit "(" -> c <> lit ")" -> head p <> Some (lit "*") ->
  Rx (c :: p) t <-> (if decide (c = lit "$" /\ p = []) then t = [] else exists x t', t = x :: t' /\ rx_char c x /\ Rx p t').
Proof.
  intros N1 N2 Ns. destruct (decide (c = lit "$" /\ p = [])) as [[-> ->]|N].
  - split; [|intros ->; apply rx_end]. intros H. inversion H; subst; try done; naive_solver.
  - split.
    + intros H. inversion H; subst; [naive_solver|done|naive_solver|]. by eexists _, _.
    + intros (x & t' & -> & Hc & H). apply rx_one; try done. intros -> ->. by apply N.
Qed.

Lemma regex_here_iff n : forall p t, (length p <= n)%nat -> regex_here p t = true <-> Rx p t.
Proof.
  induction n as [|n IH]; intros [|c p] t Hn; try (cbn in Hn; lia); [split; [constructor|done]..|].
  cbn [regex_here length] in *. destruct (str_eqb c (lit "(") || str_eqb c (lit ")")) eqn:Ep.
  { apply orb_prop in Ep. rewrite !str_eqb_true in Ep. rewrite IH by lia. split; [by apply rx_paren|]. intros H. inversion H; subst; naive_solver. }
  apply orb_false_elim in Ep as [N1%str_eqb_false N2%str_eqb_false].
  assert (head p <> Some (lit "*") -> forall b, b = (if str_eqb c (lit "$") && match p with [] => true | _ => false end then match t with [] => true | _ => false end
     else match t with x :: t' => (str_eqb c (lit ".") || str_eqb c x) && regex_here p t' | [] => false end) -> b = true <-> Rx (c :: p) t) as Single.
  { intros Ns b ->. rewrite rx_single by done. destruct (decide _) as [[-> ->]|N].
    - cbn. by destruct t.
    - replace (str_eqb c (lit "$") && _) with false.
      2: { symmetry. apply andb_false_iff. destruct p; [left; apply str_eqb_false; naive_solver|by right]. }
      destruct t as [|x t']; [split; [done|intros (? & ? & ? & _); done]|]. rewrite andb_true_iff, orb_true_iff, !str_eqb_true, IH by lia.
      split; [intros [? ?]; by exists x, t'|]. intros (? & ? & [= <- <-] & ? & ?). by split. }
  destruct p as [|s p]; [by apply Single|]. destruct (str_eqb s (lit "*")) eqn:Es.
  - apply str_eqb_true in Es as ->. rewrite regex_star_iff. split.
    + intros (u & w & -> & Hu & H). apply rx_star; [done..|]. apply IH; [cbn in Hn; lia|done].
    + intros H. inversion H; subst; [naive_solver| |by destruct H3]. exists u, t0. split_and!; [done..|]. apply IH; [cbn in Hn; lia|done].
  - apply str_eqb_false in Es. apply Single; [cbn [head]; congruence|done].
Qed.

(** ** Theorems *)

(** LIKE.  On a text without a percent sign the backtracking matcher
    terminates and accepts exactly the texts the pattern describes: a percent sign
    stands for any run of characters, an underscore for one. *)
Theorem like_match_exact t p : Forall (fun c => c <> PCT) t -> like_match_inner t p = true <-> Like p t.
Proof.
  intros Ht. unfold like_match_inner. rewrite (like_loop_correct (length t) (length p)); [|done|done|by split|done|cbn [star_len]; nia].
  unfold pending. tauto.
Qed.

Lemma like_match_exact_witness : like_match_inner (chars (lit "abab")) (chars (lit "%ab")) = true <-> Like (chars (lit "%ab")) (chars (lit "abab")).
Proof. apply like_match_exact. vm_compute. repeat constructor; discriminate. Defined.

(** A percent sign in the text breaks it: the matcher takes the percent sign of the
    pattern for that character, so the pattern that matches everything rejects this
    text. *)
Lemma like_percent_in_text : like_match id (lit "%a") (lit "%") false = false /\ Like (chars (lit "%")) (chars (lit "%a")).
Proof. split; [vm_compute; reflexivity|]. change (Like [PCT] ([lit "%"; lit "a"] ++ [])). repeat constructor. Qed.

(** The regular expressions: a text matches when some end of it, or the text
    itself under a leading circumflex, begins as the pattern says. *)
Theorem regex_match_exact lower pattern text ci :
  regex_match lower pattern text ci = true <->
  match fold_case lower ci pattern with
  | c :: p => if decide (c = lit "^") then Rx p (fold_case lower ci text)
              else exists u w, fold_case lower ci text = u ++ w /\ Rx (c :: p) w
  | [] => True
  end.
Proof.
  assert (forall p t, regex_anywhere p t = true <-> exists u w, t = u ++ w /\ Rx p w) as Any.
  { intros p t. induction t as [|x t IH]; cbn [regex_anywhere]; rewrite orb_true_iff, (regex_here_iff (length p)) by done.
    - split; [intros [H|H]; [by exists [], []|done]|]. intros (u & w & E & H). symmetry in E. apply app_eq_nil in E as [-> ->]. by left.
    - rewrite IH. split.
      + intros [H|(u & w & -> & H)]; [by exists [], (x :: t)|by exists (x :: u), w].
      + intros (u & w & E & H). destruct u as [|y u]; cbn in E; [left; by subst|]. injection E as -> ->. right. by exists u, w. }
  unfold regex_match. destruct (fold_case lower ci pattern) as [|c p].
  - rewrite Any. split; [done|]. intros _. exists [], (fold_case lower ci text). split; [done|constructor].
  - destruct (str_eqb c (lit "^")) eqn:E.
    + apply str_eqb_true in E as ->. rewrite decide_True by done. by apply (regex_here_iff (length p)).
    + apply str_eqb_false in E. rewrite decide_False by done. apply Any.
Qed.
