(* ===== verification/FloatOps.v ===== *)
(** Arithmetic on [f64] as the executor uses it: the four operations and the
    remainder, correctly rounded, with signed zeros, infinities and NaN, and the
    roundings to integers.  A NaN result is the canonical one (Rust leaves its
    payload open). *)

From S2P Require Import Prelude Numeric Types Float Wire.

(** * Definitions *)

Definition F64_SIGN : Z := 2 ^ 63.
Definition signed_inf (neg : bool) : Z := (if neg then F64_SIGN else 0) + F64_INF.
Definition f64_opp (a : Z) : Z := Z.lxor a F64_SIGN.
Definition f64_abs (a : Z) : Z := Z.land a (F64_SIGN - 1).

(** A finite double is [f64_int a * 2 ^ f64_ex a]. *)
Definition f64_int (a : Z) : Z := if f64_neg a then - f64_mant a else f64_mant a.
(** The double nearest to [m * 2 ^ e], with the sign of a zero given. *)
Definition f64_of_dyadic (zero_neg : bool) (m e : Z) : Z :=
  f64_of_ratio (if m =? 0 then zero_neg else m <? 0) (Z.abs m * 2 ^ Z.max 0 e) (2 ^ Z.max 0 (- e)).

Definition f64_add (a b : Z) : Z :=
  if is_nan a || is_nan b then F64_NAN
  else if is_infinite a then (if is_infinite b && xorb (f64_neg a) (f64_neg b) then F64_NAN else a)
  else if is_infinite b then b
  else
    let e := Z.min (f64_ex a) (f64_ex b) in
    f64_of_dyadic (f64_neg a && f64_neg b) (f64_int a * 2 ^ (f64_ex a - e) + f64_int b * 2 ^ (f64_ex b - e)) e.
Definition f64_sub (a b : Z) : Z := f64_add a (f64_opp b).

Definition f64_times (a b : Z) : Z :=
  if is_nan a || is_nan b then F64_NAN
  else if is_infinite a || is_infinite b then
    if f64_is_zero a || f64_is_zero b then F64_NAN else signed_inf (xorb (f64_neg a) (f64_neg b))
  else f64_mul a b.

Definition f64_div (a b : Z) : Z :=
  let neg := xorb (f64_neg a) (f64_neg b) in
  if is_nan a || is_nan b then F64_NAN
  else if is_infinite a then (if is_infinite b then F64_NAN else signed_inf neg)
  else if is_infinite b then (if neg then F64_SIGN else 0)
  else if f64_is_zero b then (if f64_is_zero a then F64_NAN else signed_inf neg)
  else
    let e := f64_ex a - f64_ex b in
    f64_of_ratio neg (f64_mant a * 2 ^ Z.max 0 e) (f64_mant b * 2 ^ Z.max 0 (- e)).

(** [a % b]: the exact remainder of the truncated division. *)
Definition f64_rem (a b : Z) : Z :=
  if is_nan a || is_nan b || is_infinite a || f64_is_zero b then F64_NAN
  else if is_infinite b then a
  else
    let e := Z.min (f64_ex a) (f64_ex b) in
    f64_of_dyadic (f64_neg a) (Z.rem (f64_int a * 2 ^ (f64_ex a - e)) (f64_int b * 2 ^ (f64_ex b - e))) e.

Definition f64_special (a : Z) : bool := is_nan a || is_infinite a.
(** [f.trunc()], [f.round()] (half away from zero), [f.fract()] *)
Definition f64_trunc (a : Z) : Z := if f64_special a then a else f64_of_ratio (f64_neg a) (f64_trunc_mag a) 1.
Definition f64_round_mag (a : Z) : Z :=
  let e := f64_ex a in if 0 <=? e then f64_mant a * 2 ^ e else (2 * f64_mant a + 2 ^ (- e)) / (2 * 2 ^ (- e)).
Definition f64_round (a : Z) : Z := if f64_special a then a else f64_of_ratio (f64_neg a) (f64_round_mag a) 1.
Definition f64_fract (a : Z) : Z := f64_sub a (f64_trunc a).

Definition f64_lt (a b : Z) : bool := match f64_partial_cmp a b with Some Lt => true | _ => false end.
Definition f64_eq (a b : Z) : bool := match f64_partial_cmp a b with Some Eq => true | _ => false end.

Abbreviation fl s := (default 0 (parse_f64 (lit s))) (only parsing).

Example f64_arith_examples :
  [f64_add (fl "0.1") (fl "0.2"); f64_sub (fl "1") (fl "1"); f64_add (fl "-0") (fl "-0"); f64_times (fl "1.5") (fl "-2");
   f64_div (fl "1") (fl "3"); f64_rem (fl "5.5") (fl "2"); f64_rem (fl "-7") (fl "3"); f64_div (fl "1") (fl "0"); f64_add (fl "inf") (fl "-inf")]
  = [fl "0.30000000000000004"; 0; F64_SIGN; fl "-3"; fl "0.3333333333333333"; fl "1.5"; fl "-1"; F64_INF; F64_NAN].
Proof. vm_compute. reflexivity. Qed.
Example f64_rounding_examples :
  (f64_round <$> [fl "2.5"; fl "-2.5"; fl "0.49999999999999994"; fl "4503599627370497.5"])
  = [fl "3"; fl "-3"; 0; fl "4503599627370498"]
  /\ (f64_trunc <$> [fl "2.9"; fl "-2.9"]) = [fl "2"; fl "-2"] /\ f64_fract (fl "2.75") = fl "0.75".
Proof. vm_compute. repeat split. Qed.
