(* ===== verification/Datetime.v ===== *)
(** Dates and intervals of crates/engine/src/executor.rs: the conversion between
    civil dates and day numbers, adding days to a date, the ISO reader, and the
    canonical text of intervals.  Arithmetic on [i64] wraps around. *)

From S2P Require Import Prelude Utf8 Numeric Types Float Wire FloatOps.

(** * Definitions *)

(** An [i64] result: in the release profile [+], [-], [*] and [neg] wrap around. *)
Definition i64 (v : Z) : run Z := Val (to_signed 64 v).

Definition days_from_civil (year month day : Z) : run Z :=
  year ← i64 (year - (if month <=? 2 then 1 else 0));
  n ← (if 0 <=? year then Val year else i64 (year - 399));
  let era := Z.quot n 400 in
  yoe ← i64 (year - era * 400);
  month ← i64 (month + (if 2 <? month then -3 else 9));
  a ← i64 (153 * month);
  a ← i64 (a + 2);
  a ← i64 (Z.quot a 5 + day);
  doy ← i64 (a - 1);
  doe ← i64 (yoe * 365 + Z.quot yoe 4 - Z.quot yoe 100 + doy);
  b ← i64 (era * 146097);
  b ← i64 (b + doe);
  i64 (b - 719468).

Definition civil_from_days (days : Z) : run (Z * Z * Z) :=
  days ← i64 (days + 719468);
  n ← (if 0 <=? days then Val days else i64 (days - 146096));
  let era := Z.quot n 146097 in
  doe ← i64 (days - era * 146097);
  let yoe := Z.quot (doe - Z.quot doe 1460 + Z.quot doe 36524 - Z.quot doe 146096) 365 in
  let year := yoe + era * 400 in
  let doy := doe - (365 * yoe + Z.quot yoe 4 - Z.quot yoe 100) in
  let mp := Z.quot (5 * doy + 2) 153 in
  let day := doy - Z.quot (153 * mp + 2) 5 + 1 in
  let month := mp + (if mp <? 10 then 3 else -9) in
  let year := year + (if month <=? 2 then 1 else 0) in
  Val (year, month, day).

Record DateTimeParts := mk_parts { year : Z; month : Z; day : Z; hour : Z; minute : Z; second : Z }.

(** [s.split_once(['T', ' '])] *)
Fixpoint split_date (s : str) : option (str * str) :=
  match s with
  | [] => None
  | c :: s => if (c =? 84) || (c =? 32) then Some ([], s) else '(a, b) ← split_date s; Some (c :: a, b)
  end.
(** The text before the first plus sign or [Z]. *)
Fixpoint before_zone (s : str) : str :=
  match s with
  | [] => []
  | c :: s => if (c =? 43) || (c =? 90) then [] else c :: before_zone s
  end.

Definition nth_or (parts : list str) (i : nat) (d : Z) : Z := default d (s ← parts !! i; parse_i64 s).

Definition parse_iso_datetime (s : str) : option DateTimeParts :=
  let s := trim s in
  let '(date, time) := match split_date s with Some (d, t) => (d, Some t) | None => (s, None) end in
  let d := split 45 date in
  y ← head d;
  y ← parse_i64 y;
  let '(h, mi, sec) :=
    match time with
    | None => (0, 0, 0)
    | Some t =>
        let parts := split 58 (before_zone t) in
        (nth_or parts 0 0, nth_or parts 1 0, default 0 (s ← parts !! 2%nat; s ← head (split 46 s); parse_i64 s))
    end in
  Some (mk_parts y (nth_or d 1 1) (nth_or d 2 1) h mi sec).

(** [format!("{v:0w}")]: the sign counts as one of the [w] places. *)
Definition pad0 (w : nat) (v : Z) : str :=
  let ds := i64_display (Z.abs v) in
  let w := if v <? 0 then (w - 1)%nat else w in
  (if v <? 0 then [45] else []) ++ replicate (w - length ds) 48 ++ ds.

Definition format_date (y m d : Z) : str := pad0 4 y ++ [45] ++ pad0 2 m ++ [45] ++ pad0 2 d.

Definition add_days_to_date (value : str) (days : Z) : run (option str) :=
  match parse_iso_datetime value with
  | None => Val None
  | Some p =>
      n ← days_from_civil (year p) (month p) (day p);
      if (- 2 ^ 63 <=? n + days) && (n + days <? 2 ^ 63) then
        '(y, m, d) ← civil_from_days (n + days);
        Val (Some (format_date y m d))
      else Val None
  end.

(** ** Intervals *)

Record Interval := mk_interval { iv_months : Z; iv_days : Z; iv_seconds : Z (* f64 *) }.
Definition iv_default : Interval := mk_interval 0 0 0.

Definition plural (n : Z) (unit : str) : str := i64_display n ++ lit " " ++ unit ++ (if Z.abs n =? 1 then [] else lit "s").

(** [while f.ends_with('0') { f.pop(); }] *)
Fixpoint drop_zeros (s : str) : str := match s with c :: s' => if c =? 48 then drop_zeros s' else s | [] => [] end.
Definition trim_zeros (s : str) : str := reverse (drop_zeros (reverse s)).

Definition clock (neg : bool) (h m s : Z) : str :=
  (if neg then lit "-" else []) ++ pad0 2 h ++ [58] ++ pad0 2 m ++ [58] ++ pad0 2 s.

Fixpoint join (sep : str) (l : list str) : str :=
  match l with
  | [] => []
  | [x] => x
  | x :: l => x ++ sep ++ join sep l
  end.

Definition format_interval (iv : Interval) : str :=
  let years := Z.quot (iv_months iv) 12 in
  let mons := Z.rem (iv_months iv) 12 in
  let parts := (if years =? 0 then [] else [plural years (lit "year")])
            ++ (if mons =? 0 then [] else [plural mons (lit "mon")])
            ++ (if iv_days iv =? 0 then [] else [plural (iv_days iv) (lit "day")]) in
  let parts :=
    if negb (f64_eq (iv_seconds iv) 0) || match parts with [] => true | _ => false end then
      let neg := f64_lt (iv_seconds iv) 0 in
      let total := f64_abs (iv_seconds iv) in
      let whole := f64_as_i64 (f64_trunc total) in
      let h := Z.quot whole 3600 in
      let m := Z.quot (Z.rem whole 3600) 60 in
      let s := Z.rem whole 60 in
      let frac := f64_fract total in
      if f64_lt (fl "1e-9") (f64_abs frac) then
        let micros := f64_as_i64 (f64_round (f64_times frac (fl "1000000"))) in
        parts ++ [clock neg h m s ++ [46] ++ trim_zeros (pad0 6 micros)]
      else parts ++ [clock neg h m s]
    else parts in
  join (lit " ") parts.

Definition add_time_component (iv : Interval) (tok : str) : result str Interval :=
  let '(neg, tok) := match tok with c :: t => if c =? 45 then (true, t) else (false, tok) | [] => (false, tok) end in
  let parts := split 58 tok in
  let num i := ok_or (parse_f64 (default (lit "0") (parts !! i))) (lit "invalid interval time") in
  h ← num 0%nat; m ← num 1%nat; s ← num 2%nat;
  let secs := f64_add (f64_add (f64_times h (fl "3600")) (f64_times m (fl "60"))) s in
  Ok (mk_interval (iv_months iv) (iv_days iv) (f64_add (iv_seconds iv) (if neg : bool then f64_opp secs else secs))).

(** [u.trim_end_matches('s')] *)
Fixpoint drop_s (s : str) : str := match s with c :: s' => if c =? 115 then drop_s s' else s | [] => [] end.
Definition is_one_of (s : str) (l : list string) : bool := existsb (fun x => str_eqb s (lit x)) l.

Definition apply_interval_unit (iv : Interval) (value : Z) (unit : str) : res str Interval :=
  let u := reverse (drop_s (reverse (to_ascii_lower <$> unit))) in
  let '(mk_interval mo d s) := iv in
  if is_one_of u ["year"; "yr"; "y"]%string then mo ← lift (i64 (mo + f64_as_i64 (f64_times value (fl "12")))); mret (mk_interval mo d s)
  else if is_one_of u ["mon"; "month"; "mo"]%string then mo ← lift (i64 (mo + f64_as_i64 value)); mret (mk_interval mo d s)
  else if is_one_of u ["week"; "w"]%string then d ← lift (i64 (d + f64_as_i64 (f64_times value (fl "7")))); mret (mk_interval mo d s)
  else if is_one_of u ["day"; "d"]%string then d ← lift (i64 (d + f64_as_i64 value)); mret (mk_interval mo d s)
  else if is_one_of u ["hour"; "hr"; "h"]%string then mret (mk_interval mo d (f64_add s (f64_times value (fl "3600"))))
  else if is_one_of u ["minute"; "min"; "m"]%string then mret (mk_interval mo d (f64_add s (f64_times value (fl "60"))))
  else if is_one_of u ["second"; "sec"]%string then mret (mk_interval mo d (f64_add s value))
  else if is_one_of u ["millisecond"; "msec"; "ms"]%string then mret (mk_interval mo d (f64_add s (f64_div value (fl "1000"))))
  else if is_one_of u ["microsecond"; "usec"; "us"]%string then mret (mk_interval mo d (f64_add s (f64_div value (fl "1000000"))))
  else fail (lit "unknown interval unit: " ++ u).

(** The token loop. *)
Fixpoint interval_tokens (iv : Interval) (toks : list str) : res str Interval :=
  match toks with
  | [] => mret iv
  | tok :: toks =>
      if existsb (Z.eqb 58) tok then iv ← (Val (add_time_component iv tok) : res str Interval); interval_tokens iv toks
      else
        match parse_f64 tok with
        | None => fail (lit "invalid interval value: " ++ tok)
        | Some value =>
            match toks with
            | [] => fail (lit "interval value " ++ tok ++ lit " has no unit")
            | unit :: toks => iv ← apply_interval_unit iv value unit; interval_tokens iv toks
            end
        end
  end.

Definition packed_form (p : str) : bool :=
  match split_once 45 p with
  | Some (a, b) => match a with [] => false | _ => forallb is_ascii_digit a && forallb is_ascii_digit b end
  | None => false
  end.

Definition normalize_interval (input : str) : res str str :=
  let '(body, qualifier) := match split_once 1 input with Some (b, q) => (trim b, Some q) | None => (trim input, None) end in
  let '(neg, rest) := match body with c :: r => if c =? 45 then (true, r) else (false, body) | [] => (false, body) end in
  let words :=
    iv ← interval_tokens iv_default (split_whitespace body);
    mret (format_interval iv) in
  if bool_decide (qualifier = Some (lit "year to month")) || (packed_form rest && negb (existsb (Z.eqb 32) body)) then
    match split_once 45 rest with
    | Some (y, m) =>
        y ← (Val (ok_or (parse_i64 y) (lit "invalid interval")) : res str Z);
        m ← (Val (ok_or (parse_i64 m) (lit "invalid interval")) : res str Z);
        y12 ← lift (i64 (y * 12));
        t ← lift (i64 (y12 + m));
        t ← lift (i64 (if neg : bool then - t else t));
        mret (format_interval (mk_interval t 0 0))
    | None => words
    end
  else words.

Example normalize_interval_examples :
  (fun s => normalize_interval (lit s)) <$> ["1 year 2 months 3 days"; "2 hours 30 minutes"; "1-2"; "-1-2"; "1.5 seconds"; "90 seconds"; "0 days"; "-01:30:00"; "1 foo"]%string
  = [Val (Ok (lit "1 year 2 mons 3 days")); Val (Ok (lit "02:30:00")); Val (Ok (lit "1 year 2 mons")); Val (Ok (lit "-1 year -2 mons"));
     Val (Ok (lit "00:00:01.5")); Val (Ok (lit "00:01:30")); Val (Ok (lit "00:00:00")); Val (Ok (lit "-01:30:00")); Val (Err (lit "unknown interval unit: foo"))].
Proof. vm_compute. reflexivity. Qed.
Example add_days_examples :
  (fun '(s, n) => add_days_to_date (lit s) n) <$> [("2024-02-28", 1); ("2023-02-28", 1); ("1970-01-01 10:00:00", -1); ("2000-12-31", 366); ("x", 1)]%string
  = Val <$> [Some (lit "2024-02-29"); Some (lit "2023-03-01"); Some (lit "1969-12-31"); Some (lit "2002-01-01"); None].
Proof. vm_compute. reflexivity. Qed.

(** * Specification: the Gregorian calendar *)

Definition leap (y : Z) : bool := (y mod 4 =? 0) && (negb (y mod 100 =? 0) || (y mod 400 =? 0)).
Definition days_in_month (y m : Z) : Z :=
  if m =? 2 then (if leap y then 29 else 28)
  else if (m =? 4) || (m =? 6) || (m =? 9) || (m =? 11) then 30 else 31.
Definition valid_date (y m d : Z) : bool := (1 <=? m) && (m <=? 12) && (1 <=? d) && (d <=? days_in_month y m).
Definition next_day (y m d : Z) : Z * Z * Z :=
  if d <? days_in_month y m then (y, m, d + 1) else if m <? 12 then (y, m + 1, 1) else (y + 1, 1, 1).

(** * Proofs *)

Lemma i64_Val v : - 2 ^ 63 <= v < 2 ^ 63 -> i64 v = Val v.
Proof. intros H. unfold i64, to_signed. change (2 ^ (64 - 1)) with (2 ^ 63). rewrite Z.mod_small by lia. f_equal. lia. Qed.

(** The two conversions within one 400-year era, which begins on 1 March: the year
    of a day, the month and day of a day of the year, and back. *)
Definition yoe_of (doe : Z) : Z := (doe - doe / 1460 + doe / 36524 - doe / 146096) / 365.
Definition year_start (yoe : Z) : Z := 365 * yoe + yoe / 4 - yoe / 100.
Definition year_len (yoe : Z) : Z := if leap (yoe + 1) then 366 else 365.
Definition month_day (doy : Z) : Z * Z :=
  let mp := (5 * doy + 2) / 153 in
  (mp + (if mp <? 10 then 3 else -9), doy - (153 * mp + 2) / 5 + 1).
Definition doy_of (m d : Z) : Z := (153 * (m + (if 2 <? m then -3 else 9)) + 2) / 5 + d - 1.
Definition carry (m : Z) : Z := if m <=? 2 then 1 else 0.
Definition civ (doe : Z) : Z * Z * Z :=
  let '(m, d) := month_day (doe - year_start (yoe_of doe)) in (yoe_of doe + carry m, m, d).
Definition doe_of (yoe m d : Z) : Z := yoe * 365 + yoe / 4 - yoe / 100 + doy_of m d.
Definition march (y m : Z) : Z := y - carry m.

Definition range (a : Z) (n : nat) : list Z := (fun i => a + Z.of_nat i) <$> seq 0 n.
Lemma range_all f a n : forallb f (range a n) = true -> forall z, a <= z < a + Z.of_nat n -> f z = true.
Proof.
  intros A z H. rewrite forallb_forall in A. apply A. unfold range. apply list_elem_of_In, list_elem_of_fmap.
  exists (Z.to_nat (z - a)). split; [lia|]. apply elem_of_seq. lia.
Qed.

(** The first and the last day of every year of the era have its number. *)
Lemma years_ok yoe : 0 <= yoe < 400 ->
  yoe_of (year_start yoe) = yoe /\ yoe_of (year_start yoe + year_len yoe - 1) = yoe
  /\ (yoe = 399 \/ year_start (yoe + 1) = year_start yoe + year_len yoe).
Proof.
  intros H. assert (forallb (fun y => (yoe_of (year_start y) =? y) && (yoe_of (year_start y + year_len y - 1) =? y)
    && ((y =? 399) || (year_start (y + 1) =? year_start y + year_len y))) (range 0 400) = true) as A by (vm_compute; reflexivity).
  pose proof (range_all _ _ _ A yoe ltac:(lia)) as B. cbn beta in B. apply andb_prop in B as [B B3]. apply orb_prop in B3. zb.
  split_and!; [done..|]. destruct B3; zb; auto.
Qed.

(** Every day of a year, and every date of one; [lp] tells whether its February
    has 29 days. *)
Definition dim (lp : bool) (m : Z) : Z := if m =? 2 then (if lp then 29 else 28) else days_in_month 1 m.
Definition doy_ok (lp : bool) (doy : Z) : bool :=
  let '(m, d) := month_day doy in
  (365 + (if lp then 1 else 0) <=? doy)
  || (1 <=? m) && (m <=? 12) && (1 <=? d) && (d <=? dim lp m) && (doy_of m d =? doy)
     && (if doy =? 364 + (if lp then 1 else 0) then (m =? 2) && (d =? dim lp m)
         else bool_decide (month_day (doy + 1) = if d <? dim lp m then (m, d + 1) else if m <? 12 then (m + 1, 1) else (1, 1))
              && negb ((m =? 2) && (d =? dim lp m))).
Lemma doys_ok lp doy : 0 <= doy < 366 -> doy_ok lp doy = true.
Proof. intros H. assert (forallb (doy_ok lp) (range 0 366) = true) as A by (destruct lp; vm_compute; reflexivity). by apply (range_all _ _ _ A). Qed.

Definition date_ok (lp : bool) (m d : Z) : bool :=
  (dim lp m <? d) || (0 <=? doy_of m d) && (doy_of m d <? 365 + (if lp then 1 else 0)) && bool_decide (month_day (doy_of m d) = (m, d)).
Lemma dates_ok lp m d : 1 <= m <= 12 -> 1 <= d <= 31 -> date_ok lp m d = true.
Proof.
  intros Hm Hd. assert (forallb (fun m => forallb (date_ok lp m) (range 1 31)) (range 1 12) = true) as A by (destruct lp; vm_compute; reflexivity).
  pose proof (range_all _ _ _ A m ltac:(lia)) as B. apply (range_all _ _ _ B). lia.
Qed.

Lemma days_in_month_dim y m : days_in_month y m = dim (leap y) m.
Proof. unfold dim, days_in_month. by destruct (m =? 2). Qed.

Lemma yoe_of_mono a b : 0 <= a <= b -> yoe_of a <= yoe_of b.
Proof. intros H. unfold yoe_of. apply Z.div_le_mono; [lia|]. Z.to_euclidean_division_equations. lia. Qed.

(** The year a day of the era belongs to. *)
Lemma day_year doe : 0 <= doe < 146097 ->
  exists yoe, 0 <= yoe < 400 /\ year_start yoe <= doe < year_start yoe + year_len yoe /\ yoe_of doe = yoe.
Proof.
  intros H. assert (exists yoe, 0 <= yoe < 400 /\ year_start yoe <= doe < year_start yoe + year_len yoe) as (yoe & Hy & Hd).
  { assert (forall n : nat, (n < 400)%nat -> doe < year_start (Z.of_nat n) + year_len (Z.of_nat n) ->
      exists yoe, 0 <= yoe < 400 /\ year_start yoe <= doe < year_start yoe + year_len yoe) as A.
    { induction n as [|n IH]; intros Hn Hl; [exists 0; change (Z.of_nat 0) with 0 in Hl; change (year_start 0) with 0 in *; lia|].
      destruct (decide (year_start (Z.of_nat (S n)) <= doe)); [exists (Z.of_nat (S n)); lia|]. apply IH; [lia|].
      destruct (years_ok (Z.of_nat n) ltac:(lia)) as (_ & _ & [?|E]); [lia|]. rewrite <- E. replace (Z.of_nat n + 1) with (Z.of_nat (S n)) by lia. lia. }
    apply (A 399%nat); [lia|]. change (year_start (Z.of_nat 399) + year_len (Z.of_nat 399)) with 146097. lia. }
  exists yoe. split_and!; [lia..|]. destruct (years_ok yoe Hy) as (E1 & E2 & _). assert (0 <= year_start yoe) by (unfold year_start; Z.to_euclidean_division_equations; lia).
  pose proof (yoe_of_mono (year_start yoe) doe ltac:(lia)). pose proof (yoe_of_mono doe (year_start yoe + year_len yoe - 1) ltac:(lia)). lia.
Qed.

Lemma civ_in_year yoe doy : 0 <= yoe < 400 -> 0 <= doy < year_len yoe ->
  yoe_of (year_start yoe + doy) = yoe /\ civ (year_start yoe + doy) = let '(m, d) := month_day doy in (yoe + carry m, m, d).
Proof.
  intros Hy Hd. assert (yoe_of (year_start yoe + doy) = yoe) as E.
  { destruct (years_ok yoe Hy) as (E1 & E2 & _). assert (0 <= year_start yoe) by (unfold year_start; Z.to_euclidean_division_equations; lia).
    pose proof (yoe_of_mono (year_start yoe) (year_start yoe + doy) ltac:(lia)).
    pose proof (yoe_of_mono (year_start yoe + doy) (year_start yoe + year_len yoe - 1) ltac:(lia)). lia. }
  split; [done|]. unfold civ. rewrite E. by replace (year_start yoe + doy - year_start yoe) with doy by lia.
Qed.

(** Every day of an era: it is a date, it converts back, and the next day is the
    next date. *)
Lemma era_day doe : 0 <= doe < 146097 ->
  let '(y, m, d) := civ doe in
  valid_date y m d = true /\ 0 <= march y m < 400 /\ doe_of (march y m) m d = doe
  /\ next_day y m d = if doe =? 146096 then (400, 3, 1) else civ (doe + 1).
Proof.
  intros H. destruct (day_year doe H) as (yoe & Hy & Hd & _). set (doy := doe - year_start yoe).
  replace doe with (year_start yoe + doy) in * by lia. clearbody doy. destruct (civ_in_year yoe doy Hy ltac:(lia)) as [_ ->].
  pose proof (doys_ok (leap (yoe + 1)) doy ltac:(unfold year_len in Hd; case_match; lia)) as K. unfold doy_ok in K.
  assert (365 + (if leap (yoe + 1) then 1 else 0) = year_len yoe) as EL by (unfold year_len; by destruct (leap (yoe + 1))).
  destruct (month_day doy) as [m d] eqn:Em. rewrite EL in K. replace (year_len yoe <=? doy) with false in K by (symmetry; apply Z.leb_gt; lia). cbn [orb] in K.
  apply andb_prop in K as [K Kn]. apply andb_prop in K as [K Ed]. zb.
  assert (dim (leap (yoe + 1)) m = days_in_month (yoe + carry m) m) as Edim.
  { rewrite days_in_month_dim. unfold dim, carry. destruct (m =? 2) eqn:E2; zb; [|done]. subst m. done. }
  rewrite Edim in *. replace (march (yoe + carry m) m) with yoe by (unfold march; lia). split_and!; [|lia|lia|unfold doe_of, year_start in *; lia|].
  { unfold valid_date. by ztrue ((1 <=? m) && (m <=? 12) && (1 <=? d) && (d <=? days_in_month (yoe + carry m) m)). }
  unfold next_day. destruct (decide (doy = year_len yoe - 1)) as [E|N].
  - replace (364 + (if leap (yoe + 1) then 1 else 0)) with (year_len yoe - 1) in Kn by lia. rewrite E, Z.eqb_refl in Kn. zb. subst m d.
    rewrite Z.ltb_irrefl. cbn [Z.ltb Z.compare Pos.compare Pos.compare_cont]. destruct (years_ok yoe Hy) as (_ & _ & [->|Es]).
    + replace (year_start 399 + doy) with 146096 by (rewrite E; reflexivity). reflexivity.
    + assert (yoe <> 399) by (intros ->; vm_compute in Es; discriminate).
      assert (year_start yoe + doy <> 146096) by (rewrite E in *; clear - H Es Hy H0; unfold year_start in *; Z.to_euclidean_division_equations; lia).
      zfalse (year_start yoe + doy =? 146096).
      replace (year_start yoe + doy + 1) with (year_start (yoe + 1) + 0) by lia.
      assert (0 <= 0 < year_len (yoe + 1)) as H6 by (unfold year_len; destruct (leap (yoe + 1 + 1)); lia).
      destruct (civ_in_year (yoe + 1) 0 ltac:(lia) H6) as [_ ->]. change (month_day 0) with (3, 1). cbv beta iota.
      change (carry 2) with 1. change (carry 3) with 0. by rewrite Z.add_0_r.
  - replace (364 + (if leap (yoe + 1) then 1 else 0)) with (year_len yoe - 1) in Kn by lia. replace (doy =? year_len yoe - 1) with false in Kn by (symmetry; apply Z.eqb_neq; lia).
    apply andb_prop in Kn as [Kn Kl]. apply bool_decide_eq_true in Kn.
    assert (year_start yoe + doy <> 146096) by (unfold year_start, year_len in *; case_match; Z.to_euclidean_division_equations; lia).
    zfalse (year_start yoe + doy =? 146096). replace (year_start yoe + doy + 1) with (year_start yoe + (doy + 1)) by lia. destruct (civ_in_year yoe (doy + 1) Hy ltac:(lia)) as [_ ->]. rewrite Kn.
    destruct (d <? days_in_month (yoe + carry m) m) eqn:El; zb; [done|].
    assert (m <> 2) by (destruct Kl; lia). destruct (m <? 12) eqn:E12; zb; cbv beta iota.
    + replace (carry (m + 1)) with (carry m); [done|]. unfold carry. destruct (m <=? 2) eqn:?, (m + 1 <=? 2) eqn:?; zb; lia.
    + replace m with 12 by lia. change (carry 12) with 0. change (carry 1) with 1. by rewrite Z.add_0_r.
Qed.

(** Every date of an era is one of its days. *)
Lemma era_date yoe m d : 0 <= yoe < 400 -> valid_date (yoe + carry m) m d = true ->
  0 <= doe_of yoe m d < 146097 /\ civ (doe_of yoe m d) = (yoe + carry m, m, d).
Proof.
  intros Hy Hv. unfold valid_date in Hv. zb. rewrite days_in_month_dim in *.
  assert (d <= 31) by (unfold dim, days_in_month in *; repeat case_match; lia).
  pose proof (dates_ok (leap (yoe + 1)) m d ltac:(lia) ltac:(lia)) as K. unfold date_ok in K.
  assert (dim (leap (yoe + carry m)) m = dim (leap (yoe + 1)) m) as Ed.
  { unfold dim, carry. destruct (m =? 2) eqn:E2; zb; [by subst|done]. }
  rewrite Ed in *. replace (dim (leap (yoe + 1)) m <? d) with false in K by (symmetry; apply Z.ltb_ge; lia). cbn [orb] in K.
  apply andb_prop in K as [K Kb]. zb. apply bool_decide_eq_true in Kb.
  assert (365 + (if leap (yoe + 1) then 1 else 0) = year_len yoe) as EL by (unfold year_len; by destruct (leap (yoe + 1))).
  assert (doe_of yoe m d = year_start yoe + doy_of m d) as -> by (unfold doe_of, year_start; lia).
  destruct (civ_in_year yoe (doy_of m d) Hy ltac:(lia)) as [_ ->]. rewrite Kb. split; [|done].
  assert (year_start yoe + year_len yoe <= 146097) by (unfold year_start, year_len; case_match eqn:E; [Z.to_euclidean_division_equations; lia|];
    destruct (decide (yoe = 399)) as [->|]; [done|Z.to_euclidean_division_equations; lia]).
  unfold year_start in *. Z.to_euclidean_division_equations. lia.
Qed.

(** The code's conversions, era by era. *)
Lemma civil_from_days_era n : - 2 ^ 62 <= n <= 2 ^ 62 ->
  civil_from_days n = let z := n + 719468 in let '(y, m, d) := civ (z mod 146097) in Val (y + 400 * (z / 146097), m, d).
Proof.
  intros H. unfold civil_from_days. rewrite i64_Val by lia. cbn [mbind run_bind]. set (z := n + 719468).
  assert (exists k, (if 0 <=? z then Val z else i64 (z - 146096)) = Val k /\ Z.quot k 146097 = z / 146097) as (k & -> & E).
  { destruct (0 <=? z) eqn:Ez; zb; [|rewrite i64_Val by lia]; eexists; split; try done; Z.to_euclidean_division_equations; lia. }
  cbn [mbind run_bind]. rewrite E. replace (z - z / 146097 * 146097) with (z mod 146097) by (rewrite Z.mod_eq by lia; lia).
  pose proof (Z.mod_pos_bound z 146097 ltac:(lia)). rewrite i64_Val by lia. cbn [mbind run_bind]. unfold civ, yoe_of, year_start, month_day, carry. set (doe := z mod 146097) in *.
  rewrite !(Z.quot_div_nonneg doe) by lia.
  assert (0 <= doe - doe / 1460 + doe / 36524 - doe / 146096) as H1 by (Z.to_euclidean_division_equations; lia).
  rewrite (Z.quot_div_nonneg (doe - _ + _ - _)) by lia. set (yoe := (doe - doe / 1460 + doe / 36524 - doe / 146096) / 365).
  assert (0 <= yoe) by (apply Z.div_pos; lia). rewrite !(Z.quot_div_nonneg yoe) by lia.
  assert (0 <= doe - (365 * yoe + yoe / 4 - yoe / 100)) by (subst yoe; Z.to_euclidean_division_equations; lia).
  set (doy := doe - (365 * yoe + yoe / 4 - yoe / 100)) in *. rewrite (Z.quot_div_nonneg (5 * doy + 2)) by lia. set (mp := (5 * doy + 2) / 153).
  assert (0 <= mp) by (apply Z.div_pos; lia). rewrite (Z.quot_div_nonneg (153 * mp + 2)) by lia. f_equal. f_equal. f_equal. lia.
Qed.

Lemma days_from_civil_era y m d : - 10 ^ 15 <= y <= 10 ^ 15 -> 1 <= m <= 12 -> 1 <= d <= 31 ->
  days_from_civil y m d = Val (march y m / 400 * 146097 + doe_of (march y m mod 400) m d - 719468).
Proof.
  intros Hy Hm Hd. unfold days_from_civil. assert (- 10 ^ 15 - 1 <= march y m <= 10 ^ 15) as Hr by (unfold march, carry; case_match; lia).
  change (y - (if m <=? 2 then 1 else 0)) with (march y m). set (z := march y m) in *. rewrite (i64_Val z) by lia. cbn [mbind run_bind].
  assert (exists k, (if 0 <=? z then Val z else i64 (z - 399)) = Val k /\ Z.quot k 400 = z / 400) as (k & -> & E).
  { destruct (0 <=? z) eqn:Ez; zb; [|rewrite i64_Val by lia]; eexists; split; try done; Z.to_euclidean_division_equations; lia. }
  cbn [mbind run_bind]. rewrite E. replace (z - z / 400 * 400) with (z mod 400) by (rewrite Z.mod_eq by lia; lia).
  pose proof (Z.mod_pos_bound z 400 ltac:(lia)). rewrite (i64_Val (z mod 400)) by lia. cbn [mbind run_bind]. assert (- 10 ^ 13 <= z / 400 <= 10 ^ 13) by (Z.to_euclidean_division_equations; lia).
  set (yoe := z mod 400) in *. set (era := z / 400) in *. rewrite !(Z.quot_div_nonneg yoe) by lia.
  assert (0 <= m + (if 2 <? m then -3 else 9) <= 11) by (case_match; zb; lia). set (mp := m + _) in *.
  rewrite (i64_Val mp) by lia. cbn [mbind run_bind]. rewrite (i64_Val (153 * mp)) by lia. cbn [mbind run_bind].
  rewrite (i64_Val (153 * mp + 2)) by lia. cbn [mbind run_bind]. rewrite (Z.quot_div_nonneg (153 * mp + 2)) by lia.
  assert (0 <= (153 * mp + 2) / 5 <= 337) by (Z.to_euclidean_division_equations; lia).
  assert (0 <= yoe / 4 <= 99 /\ 0 <= yoe / 100 <= 3) by (Z.to_euclidean_division_equations; lia).
  unfold doe_of, doy_of. fold mp. set (q := (153 * mp + 2) / 5) in *.
  rewrite (i64_Val (q + d)) by lia. cbn [mbind run_bind]. rewrite (i64_Val (q + d - 1)) by lia. cbn [mbind run_bind].
  set (doe := yoe * 365 + yoe / 4 - yoe / 100 + (q + d - 1)) in *. assert (-3 <= doe <= 150000) by (unfold doe; lia).
  rewrite (i64_Val doe) by lia. cbn [mbind run_bind]. rewrite (i64_Val (era * 146097)) by lia. cbn [mbind run_bind].
  rewrite (i64_Val (era * 146097 + doe)) by lia. cbn [mbind run_bind]. rewrite i64_Val by lia. done.
Qed.

Definition tomorrow (t : Z * Z * Z) : Z * Z * Z := let '(y, m, d) := t in next_day y m d.
Definition valid (t : Z * Z * Z) : Prop := let '(y, m, d) := t in valid_date y m d = true.

Lemma leap_shift y k : leap (y + 400 * k) = leap y.
Proof.
  unfold leap. replace (y + 400 * k) with (y + (100 * k) * 4) at 1 by lia. rewrite Z.mod_add by lia.
  replace (y + 400 * k) with (y + (4 * k) * 100) at 1 by lia. rewrite Z.mod_add by lia.
  replace (y + 400 * k) with (y + k * 400) by lia. by rewrite Z.mod_add by lia.
Qed.
Lemma days_in_month_shift y k m : days_in_month (y + 400 * k) m = days_in_month y m.
Proof. unfold days_in_month. by rewrite leap_shift. Qed.

(** One day: its date is valid, converts back, and the next day has the next date. *)
Lemma civil_step n : - 2 ^ 62 <= n < 2 ^ 62 -> exists t, civil_from_days n = Val t /\ valid t /\ civil_from_days (n + 1) = Val (tomorrow t)
  /\ march t.1.1 t.1.2 / 400 = (n + 719468) / 146097
  /\ doe_of (march t.1.1 t.1.2 mod 400) t.1.2 t.2 = (n + 719468) mod 146097.
Proof.
  intros H. rewrite !civil_from_days_era by lia. cbv zeta. set (z := n + 719468). replace (n + 1 + 719468) with (z + 1) by lia.
  pose proof (Z.mod_pos_bound z 146097 ltac:(lia)) as Hz. pose proof (era_day (z mod 146097) Hz) as E.
  destruct (civ (z mod 146097)) as [[y m] d] eqn:Ec. destruct E as (Hv & Hm & Hd & Hn).
  exists (y + 400 * (z / 146097), m, d). cbn [fst snd]. assert (march (y + 400 * (z / 146097)) m = march y m + z / 146097 * 400) as Em by (unfold march; lia).
  split_and!; [done|unfold valid, valid_date in *; by rewrite days_in_month_shift| | |].
  - unfold tomorrow. assert (next_day (y + 400 * (z / 146097)) m d = let '(y, m, d) := next_day y m d in (y + 400 * (z / 146097), m, d)) as ->.
    { unfold next_day. rewrite days_in_month_shift. destruct (d <? _); [done|]. destruct (m <? 12); [done|]. cbv beta iota. do 2 f_equal. lia. }
    rewrite Hn. destruct (z mod 146097 =? 146096) eqn:El; zb.
    + assert ((z + 1) / 146097 = z / 146097 + 1 /\ (z + 1) mod 146097 = 0) as [-> ->] by (Z.to_euclidean_division_equations; lia).
      change (civ 0) with (0, 3, 1). cbv beta iota. f_equal. f_equal. f_equal. lia.
    + assert ((z + 1) / 146097 = z / 146097 /\ (z + 1) mod 146097 = z mod 146097 + 1) as [-> ->] by (Z.to_euclidean_division_equations; lia). done.
  - rewrite Em, Z.div_add by lia. rewrite (Z.div_small (march y m)) by lia. lia.
  - by rewrite Em, Z.mod_add, (Z.mod_small (march y m)) by lia.
Qed.

Lemma civil_iter n (k : nat) t : - 2 ^ 62 <= n -> n + Z.of_nat k <= 2 ^ 62 -> civil_from_days n = Val t ->
  civil_from_days (n + Z.of_nat k) = Val (Nat.iter k tomorrow t).
Proof.
  intros H1 H2 E. induction k as [|k IH]; [by rewrite Z.add_0_r|].
  destruct (civil_step (n + Z.of_nat k) ltac:(lia)) as (t' & Et & _ & Es & _). rewrite IH in Et by lia. injection Et as <-.
  replace (n + Z.of_nat (S k)) with (n + Z.of_nat k + 1) by lia. by rewrite Es.
Qed.

Lemma valid_bounds y m d : valid_date y m d = true -> 1 <= m <= 12 /\ 1 <= d <= 31.
Proof. unfold valid_date. intros H. zb. split; [lia|]. unfold days_in_month in *. repeat case_match; lia. Qed.

(** A valid date has a day number, from which it is read back. *)
Lemma days_of_date y m d : - 10 ^ 15 <= y <= 10 ^ 15 -> valid_date y m d = true ->
  exists n, days_from_civil y m d = Val n /\ civil_from_days n = Val (y, m, d) /\ - 10 ^ 18 <= n <= 10 ^ 18.
Proof.
  intros Hy Hv. destruct (valid_bounds y m d Hv) as [Hm Hd]. rewrite days_from_civil_era by lia. set (z := march y m).
  assert (- 10 ^ 15 - 1 <= z <= 10 ^ 15) by (unfold z, march, carry; case_match; lia).
  pose proof (Z.mod_pos_bound z 400 ltac:(lia)) as Hz. assert (y = z mod 400 + carry m + 400 * (z / 400)) as Ey.
  { rewrite (Z.mod_eq z 400) by lia. unfold z, march. lia. }
  destruct (era_date (z mod 400) m d Hz) as [Hr Hc].
  { unfold valid_date in *. by rewrite Ey, days_in_month_shift in Hv. }
  assert (- 3 * 10 ^ 12 <= z / 400 <= 3 * 10 ^ 12) by (Z.to_euclidean_division_equations; lia).
  eexists. split; [done|]. split; [|lia]. rewrite civil_from_days_era by lia. cbv zeta.
  replace (z / 400 * 146097 + doe_of (z mod 400) m d - 719468 + 719468) with (doe_of (z mod 400) m d + z / 400 * 146097) by lia.
  rewrite Z.mod_add, Z.div_add, Z.mod_small, Z.div_small, Hc by lia. f_equal. f_equal. f_equal. lia.
Qed.

(** ** Reading dates back *)

Lemma pad0_digits w v : 0 <= v < 2 ^ 63 -> exists ds, pad0 w v = digit_char <$> ds /\ Forall is_digit ds /\ ds <> [] /\ mval ds = v.
Proof.
  intros H. unfold pad0. zfalse (v <? 0). rewrite Z.abs_eq by lia. destruct (u64_display_digits v ltac:(lia)) as (ds & -> & D & N & V). cbn [app].
  set (k := (w - _)%nat). exists (replicate k 0 ++ ds). rewrite fmap_app, fmap_replicate. split_and!; [done| | |].
  - apply Forall_app. split; [apply Forall_replicate; unfold is_digit; lia|done].
  - by destruct ds, k.
  - unfold mval in *. by rewrite reverse_app, dval_app, reverse_replicate, dval_replicate_0, V, Z.mul_0_r, Z.add_0_r.
Qed.

Lemma digits_no ds x : Forall is_digit ds -> x < 48 \/ 57 < x -> Forall (fun c => c <> x) (digit_char <$> ds).
Proof. intros D Hx. apply Forall_fmap. eapply Forall_impl; [exact D|]. intros d. unfold compose, digit_char, is_digit. lia. Qed.

Lemma parse_i64_digits ds : Forall is_digit ds -> ds <> [] -> mval ds < 2 ^ 63 -> parse_i64 (digit_char <$> ds) = Some (mval ds).
Proof.
  intros D N V. destruct ds as [|d ds]; [done|]. inversion D as [|? ? Hd D']; subst. unfold is_digit in Hd.
  pose proof (digits_are_digits _ D) as HD. cbn [fmap list_fmap] in HD |- *. unfold parse_i64.
  assert (48 <= digit_char d <= 57) by (unfold digit_char; lia). zfalse (digit_char d =? 45).
  rewrite parse_uint_digits by (done || lia). change (digit_char d :: (digit_char <$> ds)) with (digit_char <$> d :: ds). cbv zeta.
  rewrite undigit. fold (mval (d :: ds)). by rewrite (proj2 (Z.ltb_lt _ _) V).
Qed.

Lemma split_date_none s : Forall (fun c => c <> 84) s -> Forall (fun c => c <> 32) s -> split_date s = None.
Proof. induction 1 as [|c s Hc F IH]; [done|]. inversion 1; subst. cbn [split_date]. zfalse (c =? 84). zfalse (c =? 32). cbn [orb]. by rewrite IH. Qed.

Lemma parse_format_date y m d : 0 <= y < 2 ^ 63 -> 0 <= m < 2 ^ 63 -> 0 <= d < 2 ^ 63 ->
  parse_iso_datetime (format_date y m d) = Some (mk_parts y m d 0 0 0).
Proof.
  intros Hy Hm Hd. unfold format_date. destruct (pad0_digits 4 y Hy) as (ys & -> & Dy & Ny & Vy).
  destruct (pad0_digits 2 m Hm) as (ms & -> & Dm & Nm & Vm). destruct (pad0_digits 2 d Hd) as (ds & -> & Dd & Nd & Vd).
  set (s := (digit_char <$> ys) ++ [45] ++ (digit_char <$> ms) ++ [45] ++ (digit_char <$> ds)).
  assert (forall c, c <> 45 -> c < 48 \/ 57 < c -> Forall (fun x => x <> c) s) as No.
  { intros c N Hc. unfold s. repeat (apply Forall_app; split); try (by apply digits_no); constructor; auto. }
  assert (trim s = s) as Et.
  { destruct ys as [|a ys]; [done|]. destruct (exists_last Nd) as (ds' & e & ->). inversion Dy as [|? ? Da _]; subst.
    apply Forall_app in Dd as [_ De]. inversion De as [|? ? De' _]; subst. unfold is_digit in *.
    unfold s. rewrite fmap_app. cbn [fmap list_fmap app]. eapply (trim_graph _ _ (digit_char a :: (digit_char <$> ys) ++ 45 :: (digit_char <$> ms) ++ 45 :: (digit_char <$> ds')) (digit_char e)); unfold digit_char; try lia.
    cbn [app]. rewrite <- !app_assoc. cbn [app]. by rewrite <- !app_assoc. }
  unfold parse_iso_datetime. rewrite Et, split_date_none by (apply No; lia).
  assert (split 45 s = [digit_char <$> ys; digit_char <$> ms; digit_char <$> ds]) as ->.
  { unfold s. cbn [app]. rewrite split_app by (apply digits_no; [done|lia]). rewrite split_app by (apply digits_no; [done|lia]).
    by rewrite split_none by (apply digits_no; [done|lia]). }
  cbn [head mbind option_bind]. rewrite parse_i64_digits by (done || lia). cbn [mbind option_bind].
  unfold nth_or. cbn [lookup list_lookup mbind option_bind]. rewrite !parse_i64_digits by (done || lia). cbn [default from_option id]. by subst.
Qed.

(** ** Theorems *)

(** The calendar.  Day 0 is 1 January 1970; every day number has a valid date,
    from which the number is recovered, and the next number has the next date of
    the Gregorian calendar; every valid date has a day number, from which it is
    recovered.  No intermediate result overflows in the range. *)
Theorem calendar_exact :
  civil_from_days 0 = Val (1970, 1, 1)
  /\ (forall n, - 10 ^ 17 <= n <= 10 ^ 17 -> exists y m d, civil_from_days n = Val (y, m, d) /\ valid_date y m d = true
        /\ days_from_civil y m d = Val n /\ civil_from_days (n + 1) = Val (next_day y m d))
  /\ (forall y m d, - 10 ^ 15 <= y <= 10 ^ 15 -> valid_date y m d = true ->
        exists n, days_from_civil y m d = Val n /\ civil_from_days n = Val (y, m, d)).
Proof.
  split_and!; [vm_compute; reflexivity| |].
  - intros n H. destruct (civil_step n ltac:(lia)) as ([[y m] d] & E & V & S & Ed & Em). cbn [fst snd] in *.
    exists y, m, d. split_and!; [done|done| |done]. destruct (valid_bounds y m d V).
    assert (- 10 ^ 15 <= y <= 10 ^ 15) by (unfold march, carry in Ed; case_match; Z.to_euclidean_division_equations; lia).
    rewrite days_from_civil_era, Ed, Em by lia. f_equal. rewrite (Z.mod_eq _ 146097) by lia. lia.
  - intros y m d Hy Hv. destruct (days_of_date y m d Hy Hv) as (n & E1 & E2 & _). by exists n.
Qed.

(** Date arithmetic on text.  Adding k days to a date gives the text of the date
    k calendar days later; for negative k, of the date of which it is -k days
    later. *)
Theorem date_add_exact y m d k :
  0 <= y <= 10 ^ 6 -> valid_date y m d = true -> - 10 ^ 17 <= k <= 10 ^ 17 ->
  exists y' m' d', add_days_to_date (format_date y m d) k = Val (Some (format_date y' m' d')) /\ valid_date y' m' d' = true
  /\ (if 0 <=? k then Nat.iter (Z.to_nat k) tomorrow (y, m, d) = (y', m', d') else Nat.iter (Z.to_nat (- k)) tomorrow (y', m', d') = (y, m, d)).
Proof.
  intros Hy Hv Hk. destruct (valid_bounds y m d Hv). destruct (days_of_date y m d ltac:(lia) Hv) as (n & E1 & E2 & Hn).
  unfold add_days_to_date. rewrite parse_format_date by lia. cbn [year month day]. rewrite E1. cbn [mbind run_bind].
  ztrue ((- 2 ^ 63 <=? n + k) && (n + k <? 2 ^ 63)). destruct (civil_step (n + k) ltac:(lia)) as ([[y' m'] d'] & E & V & _). rewrite E. cbn [mbind run_bind].
  exists y', m', d'. split_and!; [done|done|]. zcase.
  - pose proof (civil_iter n (Z.to_nat k) (y, m, d) ltac:(lia) ltac:(lia) E2) as I. rewrite Z2Nat.id, E in I by lia. by injection I as <-.
  - pose proof (civil_iter (n + k) (Z.to_nat (- k)) (y', m', d') ltac:(lia) ltac:(lia) E) as I. rewrite Z2Nat.id in I by lia.
    replace (n + k + - k) with n in I by lia. rewrite E2 in I. by injection I as <-.
Qed.

Lemma date_add_exact_witness :
  exists y m d, add_days_to_date (format_date 2024 2 28) 2 = Val (Some (format_date y m d)) /\ valid_date y m d = true
  /\ Nat.iter 2 tomorrow (2024, 2, 28) = (y, m, d).
Proof. apply (date_add_exact 2024 2 28 2); [lia|reflexivity|lia]. Defined.
