(* ===== verification/Json.v ===== *)
(** JSON of crates/engine/src/executor.rs: the scanner, lookups by key, index and
    path, the jsonb parser and its canonical printer, and containment.  A position
    in the text is the rest of the text from it; the texts are cut only at ASCII
    bytes, so their pieces are valid UTF-8 again. *)

From S2P Require Import Prelude Utf8 Numeric Types Float Wire Pattern.

(** * Scanner *)

Fixpoint skip_json_ws (s : str) : str :=
  match s with c :: s' => if is_ascii_whitespace c then skip_json_ws s' else s | [] => [] end.

Definition UNTERMINATED : str := lit "unterminated json string".

(** [json_string_end] after the opening quote: the raw text before the closing
    quote and the text after it. *)
Fixpoint json_string_end (s : str) : result str (str * str) :=
  match s with
  | [] => Err UNTERMINATED
  | c :: s' =>
      if c =? 92 then
        match s' with
        | [] => Err UNTERMINATED
        | d :: s'' => '(a, r) ← json_string_end s''; Ok (c :: d :: a, r)
        end
      else if c =? 34 then Ok ([], s')
      else '(a, r) ← json_string_end s'; Ok (c :: a, r)
  end.

Definition is_delim (c : Z) : bool := (c =? 44) || (c =? 125) || (c =? 93).
Fixpoint scan_token (s : str) : str * str :=
  match s with
  | c :: s' => if is_delim c then ([], s) else let '(a, r) := scan_token s' in (c :: a, r)
  | [] => ([], [])
  end.

(** [json_container_end]: the container's text and the rest. *)
Fixpoint json_container_end (fuel : nat) (open close : Z) (depth : Z) (s : str) : result str (str * str) :=
  match fuel with
  | O => Err (lit "invalid json container")
  | S fuel =>
      match s with
      | [] => Err (lit "invalid json container")
      | c :: s' =>
          if c =? 34 then
            '(a, r) ← json_string_end s';
            '(b, r) ← json_container_end fuel open close depth r;
            Ok (c :: a ++ 34 :: b, r)
          else if c =? open then '(b, r) ← json_container_end fuel open close (depth + 1) s'; Ok (c :: b, r)
          else if c =? close then
            if depth - 1 =? 0 then Ok ([c], s')
            else '(b, r) ← json_container_end fuel open close (depth - 1) s'; Ok (c :: b, r)
          else '(b, r) ← json_container_end fuel open close depth s'; Ok (c :: b, r)
      end
  end.

(** [json_value_end]: the value's text and the rest. *)
Definition json_value_end (s : str) : result str (str * str) :=
  match s with
  | [] => Err (lit "invalid json value")
  | c :: s' =>
      if c =? 34 then '(a, r) ← json_string_end s'; Ok (c :: a ++ [34], r)
      else if c =? 123 then json_container_end (length s) 123 125 0 s
      else if c =? 91 then json_container_end (length s) 91 93 0 s
      else Ok (scan_token s)
  end.

(** ** Escapes *)

Definition hex_digit (c : Z) : option Z :=
  if is_ascii_digit c then Some (c - 48)
  else if (97 <=? c) && (c <=? 102) then Some (c - 87)
  else if (65 <=? c) && (c <=? 70) then Some (c - 55) else None.

(** [u16::from_str_radix(hex, 16)] of four characters. *)
Definition parse_hex4 (a b c d : Z) : option Z :=
  x ← (if a =? 43 then Some 0 else hex_digit a);
  y ← hex_digit b; z ← hex_digit c; w ← hex_digit d;
  Some (((x * 16 + y) * 16 + z) * 16 + w).

(** [char::from_u32] of a 16-bit code and its UTF-8 encoding. *)
Definition push_char16 (code : Z) : option str :=
  if (0xD800 <=? code) && (code <=? 0xDFFF) then None
  else if code <? 0x80 then Some [code]
  else if code <? 0x800 then Some [Z.lor 0xC0 (code / 64); Z.lor 0x80 (code mod 64)]
  else Some [Z.lor 0xE0 (code / 4096); Z.lor 0x80 (code / 64 mod 64); Z.lor 0x80 (code mod 64)].

Definition BAD_ESCAPE : str := lit "invalid json unicode escape".
Definition simple_escape (c : Z) : option Z :=
  if (c =? 34) || (c =? 92) || (c =? 47) then Some c
  else if c =? 98 then Some 8
  else if c =? 102 then Some 12
  else if c =? 110 then Some 10
  else if c =? 114 then Some 13
  else if c =? 116 then Some 9 else None.

Fixpoint json_unescape (s : str) : result str str :=
  match s with
  | [] => Ok []
  | c :: s' =>
      if negb (c =? 92) then r ← json_unescape s'; Ok (c :: r)
      else
        match s' with
        | [] => Err (lit "unterminated json escape")
        | e :: s'' =>
            match simple_escape e with
            | Some x => r ← json_unescape s''; Ok (x :: r)
            | None =>
                if e =? 117 then
                  match s'' with
                  | h1 :: h2 :: h3 :: h4 :: s3 =>
                      ch ← ok_or (code ← parse_hex4 h1 h2 h3 h4; push_char16 code) BAD_ESCAPE;
                      r ← json_unescape s3; Ok (ch ++ r)
                  | _ => Err BAD_ESCAPE
                  end
                else Err (lit "invalid json escape \" ++ default [] (head (chars s')))
            end
        end
  end.

(** * Lookups *)

Definition ends_with_byte (s : str) (b : Z) : bool := bool_decide (last s = Some b).

Fixpoint object_scan (fuel : nat) (wanted : str) (s : str) : result str (option str) :=
  match fuel with
  | O => Ok None
  | S fuel =>
      match skip_json_ws s with
      | [] | [_] => Ok None
      | c :: s =>
          if negb (c =? 34) then Err (lit "invalid json object key")
          else
            '(raw, r) ← json_string_end s;
            key ← json_unescape raw;
            match skip_json_ws r with
            | col :: r =>
                if negb (col =? 58) then Err (lit "invalid json object")
                else
                  '(v, r) ← json_value_end (skip_json_ws r);
                  if str_eqb key wanted then Ok (Some v)
                  else match skip_json_ws r with
                       | d :: r => if d =? 44 then object_scan fuel wanted r
                                   else if d =? 125 then Ok None else Err (lit "invalid json object")
                       | [] => Err (lit "invalid json object")
                       end
            | [] => Err (lit "invalid json object")
            end
      end
  end.
Definition json_object_lookup (json wanted : str) : result str (option str) :=
  if ends_with_byte json 125 then object_scan (length json) wanted (tail json) else Err (lit "invalid json object").

Fixpoint array_scan (fuel : nat) (index wanted : Z) (s : str) : result str (option str) :=
  match fuel with
  | O => Ok None
  | S fuel =>
      match skip_json_ws s with
      | [] | [_] => Ok None
      | s =>
          '(v, r) ← json_value_end s;
          if index =? wanted then Ok (Some v)
          else match skip_json_ws r with
               | d :: r => if d =? 44 then array_scan fuel (index + 1) wanted r
                           else if d =? 93 then Ok None else Err (lit "invalid json array")
               | [] => Err (lit "invalid json array")
               end
      end
  end.
Definition json_array_lookup (json : str) (wanted : Z) : result str (option str) :=
  if ends_with_byte json 93 then array_scan (length json) 0 wanted (tail json) else Err (lit "invalid json array").

Definition json_lookup (json : str) (key : Value) : result str (option str) :=
  let json := trim json in
  match json with
  | c :: _ =>
      if c =? 123 then match to_text key with None => Ok None | Some k => json_object_lookup json (trim k) end
      else if c =? 91 then
        match key with
        | Int i => if 0 <=? i then json_array_lookup json i else Ok None
        | Text s => match parse_uint 64 (trim s) with Some i => json_array_lookup json i | None => Ok None end
        | _ => Ok None
        end
      else Ok None
  | [] => Ok None
  end.

Definition eq_ignore_case (a b : str) : bool := str_eqb (to_ascii_lower <$> a) (to_ascii_lower <$> b).

(** A lone quote starts and ends with itself: the slice panics. *)
Definition json_to_text (raw : str) : res str Value :=
  let raw := trim raw in
  if eq_ignore_case raw (lit "null") then mret Null
  else if bool_decide (head raw = Some 34) && ends_with_byte raw 34 then
    if zlen raw <? 2 then Panic else t ← (Val (json_unescape (zslice 1 (zlen raw - 1) raw)) : res str str); mret (Text t)
  else mret (Text raw).

Definition json_extract (source key : Value) (as_text : bool) : res str Value :=
  match to_text source with
  | None => mret Null
  | Some json =>
      raw ← (Val (json_lookup (trim json) key) : res str (option str));
      match raw with
      | None => mret Null
      | Some raw => if as_text then json_to_text raw else mret (Text (trim raw))
      end
  end.

Fixpoint path_text (current : str) (path : list Value) : res str Value :=
  match path with
  | [] => json_to_text current
  | key :: path =>
      raw ← (Val (json_lookup current key) : res str (option str));
      match raw with None => mret Null | Some raw => path_text (trim raw) path end
  end.
Definition json_path_text (source : Value) (path : list Value) : res str Value :=
  match to_text source with None => mret Null | Some json => path_text (trim json) path end.

Definition json_typeof_text (source : Value) : result str Value :=
  match to_text source with
  | None => Ok Null
  | Some json =>
      let json := trim json in
      match json with
      | [] => Err (lit "invalid json value")
      | c :: _ =>
          if c =? 123 then Ok (Text (lit "object"))
          else if c =? 91 then Ok (Text (lit "array"))
          else if c =? 34 then Ok (Text (lit "string"))
          else if ((c =? 116) || (c =? 102)) && (str_eqb json (lit "true") || str_eqb json (lit "false")) then Ok (Text (lit "boolean"))
          else if (c =? 110) && str_eqb json (lit "null") then Ok (Text (lit "null"))
          else if (c =? 45) || is_ascii_digit c then Ok (Text (lit "number"))
          else Err (lit "invalid json value")
      end
  end.

Fixpoint array_count (fuel : nat) (count : Z) (s : str) : result str Z :=
  match fuel with
  | O => Err (lit "invalid json array")
  | S fuel =>
      '(_, r) ← json_value_end s;
      match skip_json_ws r with
      | d :: r => if d =? 44 then array_count fuel (count + 1) (skip_json_ws r)
                  else if d =? 93 then Ok (count + 1) else Err (lit "invalid json array")
      | [] => Err (lit "invalid json array")
      end
  end.
Definition json_array_length_text (source : Value) : result str Value :=
  match to_text source with
  | None => Ok Null
  | Some json =>
      let json := trim json in
      if negb (bool_decide (head json = Some 91) && ends_with_byte json 93) then Err (lit "cannot get array length of a non-array")
      else
        let s := skip_json_ws (tail json) in
        if bool_decide (head s = Some 93) then Ok (Int 0)
        else n ← array_count (length json) 0 s; Ok (Int n)
  end.

(** ** Paths *)

Inductive JsonPathStep := Key (k : str) | Index (i : Z) | Wildcard.

Fixpoint until (stop : Z -> bool) (s : str) : str * str :=
  match s with
  | c :: s' => if stop c then ([], s) else let '(a, r) := until stop s' in (c :: a, r)
  | [] => ([], [])
  end.

(** The member name or index after a dot or a bracket; the quoted form shared by
    both skips the closing quote, when there is one. *)
Definition quoted_key (s : str) : str * str := let '(k, r) := until (Z.eqb 34) s in (k, tail r).

Fixpoint path_steps (fuel : nat) (path : str) (s : str) : result str (list JsonPathStep) :=
  match fuel with
  | O => Ok []
  | S fuel =>
      match s with
      | [] => Ok []
      | c :: s =>
          if c =? 46 then
            match s with
            | d :: s' =>
                if d =? 42 then rest ← path_steps fuel path s'; Ok (Wildcard :: rest)
                else if d =? 34 then let '(k, r) := quoted_key s' in rest ← path_steps fuel path r; Ok (Key k :: rest)
                else let '(k, r) := until (fun c => (c =? 46) || (c =? 91)) s in rest ← path_steps fuel path r; Ok (Key k :: rest)
            | [] => Ok [Key []]
            end
          else if c =? 91 then
            '(step, r) ←
              match s with
              | d :: s' =>
                  if d =? 42 then Ok (Wildcard, s')
                  else if d =? 34 then let '(k, r) := quoted_key s' in Ok (Key k, r)
                  else let '(t, r) := until (Z.eqb 93) s in
                       i ← ok_or (parse_uint 64 (trim t)) (lit "invalid array index in jsonpath: " ++ path); Ok (Index i, r)
              | [] => i ← ok_or (parse_uint 64 []) (lit "invalid array index in jsonpath: " ++ path); Ok (Index i, [])
              end;
            match r with
            | e :: r => if e =? 93 then rest ← path_steps fuel path r; Ok (step :: rest)
                        else Err (lit "unterminated [ in jsonpath: " ++ path)
            | [] => Err (lit "unterminated [ in jsonpath: " ++ path)
            end
          else if (c =? 32) || (c =? 9) then path_steps fuel path s
          else Err (lit "unsupported jsonpath token '" ++ push_byte_char c ++ lit "' in: " ++ path)
      end
  end.
Definition parse_jsonpath (path : str) : result str (list JsonPathStep) :=
  let path := trim path in
  match path with
  | c :: s => if c =? 36 then path_steps (length path) path s else Err (lit "invalid jsonpath (must start with $): " ++ path)
  | [] => Err (lit "invalid jsonpath (must start with $): " ++ path)
  end.

(** The two loops of [json_all_members]. *)
Fixpoint array_members (fuel : nat) (frag : str) (idx : Z) : result str (list str) :=
  match fuel with
  | O => Ok []
  | S fuel =>
      v ← json_array_lookup frag idx;
      match v with
      | None => Ok []
      | Some v => rest ← array_members fuel frag (idx + 1); Ok (trim v :: rest)
      end
  end.
Fixpoint object_members (fuel : nat) (s : str) : result str (list str) :=
  match fuel with
  | O => Ok []
  | S fuel =>
      match skip_json_ws s with
      | [] | [_] => Ok []
      | c :: s =>
          if negb (c =? 34) then Err (lit "invalid json object")
          else
            '(_, r) ← json_string_end s;
            match skip_json_ws r with
            | col :: r =>
                if negb (col =? 58) then Err (lit "invalid json object")
                else
                  '(v, r) ← json_value_end (skip_json_ws r);
                  rest ← match skip_json_ws r with
                         | d :: r => if d =? 44 then object_members fuel r else Ok []
                         | [] => Ok []
                         end;
                  Ok (trim v :: rest)
            | [] => Err (lit "invalid json object")
            end
      end
  end.
Definition json_all_members (frag : str) : result str (list str) :=
  let frag := trim frag in
  match frag with
  | c :: s => if c =? 91 then array_members (length frag) frag 0
              else if c =? 123 then object_members (length frag) s else Ok []
  | [] => Ok []
  end.

Definition path_step (step : JsonPathStep) (frag : str) : result str (list str) :=
  let found o := match o with Some v => [trim v] | None => [] end in
  match step with
  | Key k => found <$> json_lookup frag (Text k)
  | Index i => found <$> json_lookup frag (Int (to_signed 64 i))
  | Wildcard => json_all_members frag
  end.
Fixpoint step_all (step : JsonPathStep) (frags : list str) : result str (list str) :=
  match frags with
  | [] => Ok []
  | f :: frags => a ← path_step step f; b ← step_all step frags; Ok (a ++ b)
  end.
Fixpoint walk (steps : list JsonPathStep) (current : list str) : result str (list str) :=
  match steps with
  | [] => Ok current
  | s :: steps => next ← step_all s current; walk steps next
  end.
Definition jsonpath_query (source : Value) (path : str) : result str (list str) :=
  match to_text source with
  | None => Ok []
  | Some json => steps ← parse_jsonpath path; walk steps [trim json]
  end.

(** * jsonb *)

#[local] Set Warnings "-register-all".
Inductive JsonValue :=
| JNull
| JBool (b : bool)
| JNumber (n : str)
| JString (s : str)
| JArray (elems : list JsonValue)
| JObject (members : list (str * JsonValue)).

Definition JSON_ERR : str := lit "invalid input syntax for type json".

Definition token_value (tok : str) : result str JsonValue :=
  if str_eqb tok (lit "null") then Ok JNull
  else if str_eqb tok (lit "true") then Ok (JBool true)
  else if str_eqb tok (lit "false") then Ok (JBool false)
  else match parse_f64 tok with Some _ => Ok (JNumber tok) | None => Err JSON_ERR end.

(** [members.retain(|(k, _)| k != &key); members.push((key, value))] *)
Definition set_member (ms : list (str * JsonValue)) (key : str) (v : JsonValue) : list (str * JsonValue) :=
  List.filter (fun m => negb (str_eqb m.1 key)) ms ++ [(key, v)].

(** The loops of [parse_json_array] and [parse_json_object], over the parser of
    the values in them. *)
Section loops.
Variable value : str -> result str (JsonValue * str).

Fixpoint array_loop (n : nat) (elems : list JsonValue) (s : str) : result str (JsonValue * str) :=
  match n with
  | O => Err JSON_ERR
  | S n =>
      '(v, r) ← value (skip_json_ws s);
      let elems := elems ++ [v] in
      match skip_json_ws r with
      | d :: r => if d =? 44 then array_loop n elems r
                  else if d =? 93 then Ok (JArray elems, r) else Err JSON_ERR
      | [] => Err JSON_ERR
      end
  end.

Fixpoint object_loop (n : nat) (members : list (str * JsonValue)) (s : str) : result str (JsonValue * str) :=
  match n with
  | O => Err JSON_ERR
  | S n =>
      match skip_json_ws s with
      | q :: s =>
          if negb (q =? 34) then Err JSON_ERR
          else
            '(raw, r) ← json_string_end s;
            key ← json_unescape raw;
            match skip_json_ws r with
            | col :: r =>
                if negb (col =? 58) then Err JSON_ERR
                else
                  '(v, r) ← value (skip_json_ws r);
                  let members := set_member members key v in
                  match skip_json_ws r with
                  | d :: r => if d =? 44 then object_loop n members r
                              else if d =? 125 then Ok (JObject members, r) else Err JSON_ERR
                  | [] => Err JSON_ERR
                  end
            | [] => Err JSON_ERR
            end
      | [] => Err JSON_ERR
      end
  end.
End loops.

(** [parse_json_value]; a call has more fuel than the text it is given is long. *)
Fixpoint parse_json_value (fuel : nat) (s : str) : result str (JsonValue * str) :=
  match fuel with
  | O => Err JSON_ERR
  | S fuel =>
      match s with
      | [] => Err JSON_ERR
      | c :: s' =>
          if c =? 123 then
            match skip_json_ws s' with
            | d :: r => if d =? 125 then Ok (JObject [], r) else object_loop (parse_json_value fuel) fuel [] (d :: r)
            | [] => Err JSON_ERR
            end
          else if c =? 91 then
            match skip_json_ws s' with
            | d :: r => if d =? 93 then Ok (JArray [], r) else array_loop (parse_json_value fuel) fuel [] (d :: r)
            | [] => Err JSON_ERR
            end
          else if c =? 34 then
            '(raw, r) ← json_string_end s';
            str ← json_unescape raw;
            Ok (JString str, r)
          else
            let '(tok, r) := scan_token s in
            v ← token_value (trim tok);
            Ok (v, r)
      end
  end.

Definition parse_json (text : str) : result str (JsonValue * str) := parse_json_value (S (length text)) (skip_json_ws text).

(** [parse_json_full] *)
Definition parse_json_full (text : str) : option JsonValue :=
  match parse_json text with
  | Ok (v, r) => match skip_json_ws r with [] => Some v | _ => None end
  | Err _ => None
  end.

(** ** Printer *)

(** [format!("{:04x}", c)] for a control character. *)
Definition hex4 (c : Z) : str :=
  let h d := if d <? 10 then 48 + d else 87 + d in [48; 48; h (c / 16); h (c mod 16)].
Definition write_json_char (c : Z) : str :=
  if c =? 34 then [92; 34]
  else if c =? 92 then [92; 92]
  else if c =? 8 then [92; 98]
  else if c =? 12 then [92; 102]
  else if c =? 10 then [92; 110]
  else if c =? 13 then [92; 114]
  else if c =? 9 then [92; 116]
  else if c <? 32 then [92; 117] ++ hex4 c
  else [c].
Definition write_json_string (s : str) : str := [34] ++ flat_map write_json_char s ++ [34].

Fixpoint bytes_cmp (a b : str) : comparison :=
  match a, b with
  | [], [] => Eq
  | [], _ => Lt
  | _, [] => Gt
  | x :: a, y :: b => match x ?= y with Eq => bytes_cmp a b | c => c end
  end.
(** The order of jsonb keys: by length, then bytewise. *)
Definition key_cmp (a b : str) : comparison := match zlen a ?= zlen b with Eq => bytes_cmp a b | c => c end.

(** [ordered.sort_by(..)], which is stable. *)
Fixpoint insert_member {A} (m : str * A) (l : list (str * A)) : list (str * A) :=
  match l with
  | [] => [m]
  | x :: l => match key_cmp m.1 x.1 with Gt => x :: insert_member m l | _ => m :: x :: l end
  end.
Definition sort_members {A} (l : list (str * A)) : list (str * A) := foldr insert_member [] l.

Fixpoint join_comma (l : list str) : str :=
  match l with
  | [] => []
  | [x] => x
  | x :: l => x ++ lit ", " ++ join_comma l
  end.

Fixpoint write_jsonb (v : JsonValue) : str :=
  match v with
  | JNull => lit "null"
  | JBool b => if b then lit "true" else lit "false"
  | JNumber n => n
  | JString s => write_json_string s
  | JArray es => [91] ++ join_comma (map write_jsonb es) ++ [93]
  | JObject ms =>
      let ordered := sort_members (map (fun m => (m.1, write_jsonb m.2)) ms) in
      [123] ++ join_comma (map (fun m => write_json_string m.1 ++ lit ": " ++ m.2) ordered) ++ [125]
  end.

Definition normalize_jsonb (text : str) : result str str :=
  '(v, r) ← parse_json text;
  match skip_json_ws r with
  | [] => Ok (write_jsonb v)
  | _ => Err (JSON_ERR ++ lit ": " ++ [34] ++ text ++ [34])
  end.

(** ** Containment *)

Definition find_member {A} (k : str) (ms : list (str * A)) : option A := snd <$> List.find (fun m => str_eqb m.1 k) ms.
Definition opt_f64_eq (a b : option Z) : bool :=
  match a, b with Some x, Some y => match f64_partial_cmp x y with Some Eq => true | _ => false end | None, None => true | _, _ => false end.

Fixpoint json_equal (a b : JsonValue) : bool :=
  match a, b with
  | JNull, JNull => true
  | JBool x, JBool y => Bool.eqb x y
  | JNumber x, JNumber y => str_eqb x y || opt_f64_eq (parse_f64 x) (parse_f64 y)
  | JString x, JString y => str_eqb x y
  | JArray x, JArray y =>
      (zlen x =? zlen y)
      && (fix all2 (x y : list JsonValue) : bool :=
            match x, y with a :: x, b :: y => json_equal a b && all2 x y | _, _ => true end) x y
  | JObject x, JObject y =>
      (zlen x =? zlen y)
      && forallb (fun m => match find_member m.1 y with Some yv => json_equal m.2 yv | None => false end) x
  | _, _ => false
  end.

(** The recursion is on the contained value. *)
Fixpoint json_contains (inner outer : JsonValue) : bool :=
  match inner, outer with
  | JObject i, JObject o => forallb (fun m => match find_member m.1 o with Some ov => json_contains m.2 ov | None => false end) i
  | JArray i, JArray o => forallb (fun ie => existsb (json_contains ie) o) i
  | scalar, JArray o => existsb (fun oe => json_equal oe scalar) o
  | b, a => json_equal a b
  end.

Definition is_container (v : JsonValue) : bool := match v with JObject _ | JArray _ => true | _ => false end.
(** [jsonb_contains_operator] for [@>]; for [<@] the operands are swapped. *)
Definition jsonb_contains_operator (left right : str) : option bool :=
  l ← parse_json_full left;
  r ← parse_json_full right;
  if is_container l && is_container r then Some (json_contains r l) else None.

Definition q (s : string) : str := flat_map (fun c => if c =? 39 then [34] else [c]) (lit s).
Example normalize_examples :
  (fun s => normalize_jsonb (q s)) <$> ["{'b':1, 'a' : [true,null ,'x\n'],'b':2}"; " [1, 2.50 ] "; "'\u0041'"; "[1,]"; "{'a'}"; "1 2"; "nan"]%string
  = [Ok (q "{'a': [true, null, 'x\n'], 'b': 2}"); Ok (lit "[1, 2.50]"); Ok (q "'A'"); Err JSON_ERR; Err JSON_ERR; Err JSON_ERR; Ok (lit "nan")].
Proof. vm_compute. reflexivity. Qed.
Example lookup_examples :
  [json_lookup (q "{'a': {'b': [1, 2]}, 'c': 3}") (Text (lit "c")); json_lookup (q "[10, [20], 30]") (Int 1); json_lookup (q "[10]") (Int 5);
   json_lookup (q "{'a': 1}") (Text (lit "z"))]
  = [Ok (Some (lit "3")); Ok (Some (lit "[20]")); Ok None; Ok None]
  /\ jsonpath_query (Text (q "{'a': [{'b': 1}, {'b': 2}]}")) (lit "$.a[*].b") = Ok [lit "1"; lit "2"].
Proof. vm_compute. split; reflexivity. Qed.
Example contains_examples :
  (fun '(a, b) => jsonb_contains_operator (q a) (q b))
  <$> [("{'a':1,'b':2}", "{'b':2.0}"); ("[1,2,3]", "[3,1]"); ("[[1]]", "[1]"); ("{'a':1}", "{'a':2}"); ("1", "1")]%string
  = [Some true; Some true; Some true; Some false; None].
Proof. vm_compute. reflexivity. Qed.

(** * Specification *)

(** What the parser produces: numbers are [f64] texts, strings are bytes, the keys
    of an object differ. *)
Fixpoint json_wf (v : JsonValue) : Prop :=
  match v with
  | JNumber n => is_Some (parse_f64 n)
  | JString s => Forall is_byte s
  | JArray es => (fix all (es : list JsonValue) : Prop := match es with [] => True | e :: es => json_wf e /\ all es end) es
  | JObject ms =>
      NoDup (fst <$> ms) /\ Forall (Forall is_byte) (fst <$> ms)
      /\ (fix all (ms : list (str * JsonValue)) : Prop := match ms with [] => True | m :: ms => json_wf m.2 /\ all ms end) ms
  | _ => True
  end.

(** The value with the members of every object in order. *)
Fixpoint canon (v : JsonValue) : JsonValue :=
  match v with
  | JArray es => JArray (map canon es)
  | JObject ms => JObject (sort_members (map (fun m => (m.1, canon m.2)) ms))
  | v => v
  end.

(** * Proofs *)

Lemma json_ind' (P : JsonValue -> Prop) :
  P JNull -> (forall b, P (JBool b)) -> (forall n, P (JNumber n)) -> (forall s, P (JString s)) ->
  (forall es, Forall P es -> P (JArray es)) -> (forall ms, Forall (fun m => P m.2) ms -> P (JObject ms)) -> forall v, P v.
Proof.
  intros Hn Hb Hm Hs Ha Ho. fix IH 1. intros [|b|n|s|es|ms]; [exact Hn|apply Hb|apply Hm|apply Hs| |].
  - apply Ha. induction es as [|e es IHes]; constructor; [apply IH|exact IHes].
  - apply Ho. induction ms as [|m ms IHms]; constructor; [apply IH|exact IHms].
Qed.

Lemma json_wf_array es : json_wf (JArray es) <-> Forall json_wf es.
Proof. cbn. induction es as [|e es IH]; [split; [constructor|done]|]. rewrite Forall_cons, <- IH. done. Qed.
Lemma json_wf_object ms : json_wf (JObject ms) <-> NoDup (fst <$> ms) /\ Forall (Forall is_byte) (fst <$> ms) /\ Forall (fun m => json_wf m.2) ms.
Proof.
  cbn [json_wf]. assert (forall ms : list (str * JsonValue), (fix all (ms : list (str * JsonValue)) : Prop := match ms with [] => True | m :: ms => json_wf m.2 /\ all ms end) ms
    <-> Forall (fun m => json_wf m.2) ms) as ->; [|done].
  clear ms. induction ms as [|m ms IH]; [split; [constructor|done]|]. by rewrite Forall_cons, <- IH.
Qed.

(** ** Number tokens *)

Definition num_char (c : Z) : bool := is_ascii_alphanumeric c || (c =? 43) || (c =? 45) || (c =? 46).

Lemma digit_run_chars s : forall a r, digit_run s = (a, r) -> Forall (fun c => num_char c = true) a /\ s = a ++ r.
Proof.
  induction s as [|c s IH]; intros a r E; cbn [digit_run] in E; [by injection E as <- <-|].
  destruct (is_ascii_digit c) eqn:Ed; [|by injection E as <- <-]. destruct (digit_run s) as [a' r'] eqn:Er. injection E as <- <-.
  destruct (IH a' r' eq_refl) as [H ->]. split; [|done]. constructor; [|done]. unfold num_char, is_ascii_alphanumeric. by rewrite Ed, orb_true_r.
Qed.

Lemma lower_alpha s w : forallb is_ascii_lower w = true -> to_ascii_lower <$> s = w -> Forall (fun c => num_char c = true) s.
Proof.
  intros Hw E. rewrite forallb_forall in Hw. apply Forall_forall. intros c Hc.
  assert (is_ascii_lower (to_ascii_lower c) = true) as H. { apply Hw, list_elem_of_In. rewrite <- E. by apply list_elem_of_fmap_2. }
  unfold num_char, is_ascii_alphanumeric, is_ascii_alphabetic. unfold to_ascii_lower in H. destruct (is_ascii_upper c); [done|]. by rewrite H.
Qed.

Lemma f64_exponent_chars s e : f64_exponent s = Some e -> Forall (fun c => num_char c = true) s.
Proof.
  unfold f64_exponent. destruct s as [|c s]; [constructor|]. destruct ((c =? 101) || (c =? 69)) eqn:Ec; [|done].
  assert (num_char c = true) as Hc by (apply orb_prop in Ec as [?|?]; zb; subst; reflexivity).
  destruct (match s with [] => (false, s) | _ => _ end) as [neg s'] eqn:Es. destruct (digit_run s') as [ds r] eqn:Er. intros E.
  destruct ds; [done|]. destruct r; [|done]. apply digit_run_chars in Er as [Hd E']. rewrite app_nil_r in E'. subst s'. constructor; [done|].
  destruct s as [|x s]; [done|]. destruct (x =? 45) eqn:?; [zb; simplify_eq; by constructor|].
  destruct (x =? 43) eqn:?; zb; simplify_eq; [by constructor|done].
Qed.

Lemma parse_f64_chars s x : parse_f64 s = Some x -> s <> [] /\ Forall (fun c => num_char c = true) s.
Proof.
  unfold parse_f64. destruct (match s with [] => (false, s) | _ => _ end) as [neg s'] eqn:Es. intros E.
  assert (Forall (fun c => num_char c = true) s' /\ s' <> []) as [H N].
  { destruct (str_eqb (to_ascii_lower <$> s') (lit "inf") || _) eqn:Ei.
    { apply orb_prop in Ei as [Ei|Ei]; apply str_eqb_true in Ei; (split; [by eapply lower_alpha; [|exact Ei]|by intros ->]). }
    destruct (str_eqb _ (lit "nan")) eqn:En; [apply str_eqb_true in En; split; [by eapply lower_alpha; [|exact En]|by intros ->]|].
    clear Ei En. destruct (digit_run s') as [ip r] eqn:Ed. apply digit_run_chars in Ed as [Hi ->].
    destruct (match r with [] => ([], []) | _ => _ end) as [fp r'] eqn:Ef.
    assert (exists dot, r = dot ++ fp ++ r' /\ Forall (fun c => num_char c = true) dot /\ Forall (fun c => num_char c = true) fp) as (dot & -> & Hd & Hf).
    { destruct r as [|c r]; [injection Ef as <- <-; by exists []|]. destruct (c =? 46) eqn:?; [|injection Ef as <- <-; exists []; repeat constructor]. zb. subst.
      apply digit_run_chars in Ef as [Hf ->]. exists [46]. split; [done|]. by repeat constructor. }
    destruct (ip ++ fp) eqn:Eip; [done|]. destruct (f64_exponent r') as [e|] eqn:Ee; [|done]. apply f64_exponent_chars in Ee.
    split; [|destruct ip; [|done]; destruct fp; [done|by destruct dot]]. by repeat (apply Forall_app; split). }
  destruct s as [|c s]; [simplify_eq; done|]. split; [done|].
  destruct (c =? 45) eqn:?; [zb; simplify_eq; by constructor|]. destruct (c =? 43) eqn:?; zb; simplify_eq; [by constructor|done].
Qed.

Lemma num_char_graph c : num_char c = true -> 33 <= c <= 126 /\ is_delim c = false /\ c <> 34 /\ c <> 123 /\ c <> 91 /\ is_ascii_whitespace c = false.
Proof.
  unfold num_char, is_ascii_alphanumeric, is_ascii_alphabetic, is_ascii_upper, is_ascii_lower, is_ascii_digit, is_delim, is_ascii_whitespace.
  intros H. rewrite !orb_true_iff, !andb_true_iff, !Z.leb_le, !Z.eqb_eq in H. rewrite !orb_false_iff, !Z.eqb_neq. lia.
Qed.

Lemma num_trim n : n <> [] -> Forall (fun c => num_char c = true) n -> trim n = n.
Proof.
  intros N H. destruct n as [|c n]; [done|]. destruct (exists_last N) as (l & d & E). rewrite E in H.
  pose proof H as H'. rewrite <- E in H'. inversion H' as [|? ? Hc _]; subst. apply Forall_app in H as [_ Hd]. inversion Hd as [|? ? Hd' _]; subst.
  apply (trim_graph c n l d E); by apply num_char_graph.
Qed.

Lemma scan_token_app n r : Forall (fun c => num_char c = true) n -> match r with [] => True | c :: _ => is_delim c = true end -> scan_token (n ++ r) = (n, r).
Proof.
  intros H Hr. induction H as [|c n Hc H IH]; cbn [app scan_token].
  - destruct r as [|c r]; [done|]. cbn [scan_token]. by rewrite Hr.
  - destruct (num_char_graph c Hc) as (_ & -> & _). by rewrite IH.
Qed.

(** ** Strings *)

(** What a written character is: itself, a short escape, or a \u00xx escape. *)
Lemma write_json_char_cases c : is_byte c ->
  (write_json_char c = [c] /\ c <> 34 /\ c <> 92)
  \/ (exists e, write_json_char c = [92; e] /\ simple_escape e = Some c)
  \/ (exists h l, write_json_char c = [92; 117; 48; 48; h; l] /\ parse_hex4 48 48 h l = Some c /\ c < 32 /\ h <> 34 /\ h <> 92 /\ l <> 34 /\ l <> 92).
Proof.
  intros [H1 H2]. unfold write_json_char.
  repeat match goal with |- context [c =? ?k] => destruct (c =? k) eqn:?; [zb; subst; right; left; eexists; split; reflexivity|] end.
  zb. zcase; [|left; by repeat split]. right. right. eexists _, _. split; [reflexivity|].
  assert (c ∈ seqZ 0 32) as Hc by (apply elem_of_seqZ; lia). revert Hc. generalize c.
  apply Forall_forall. apply (bool_decide_unpack _). vm_compute. exact I.
Qed.

Lemma json_string_write s r : Forall is_byte s -> json_string_end (flat_map write_json_char s ++ 34 :: r) = Ok (flat_map write_json_char s, r).
Proof.
  induction 1 as [|c s Hc H IH]; [done|]. cbn [flat_map]. rewrite <- app_assoc.
  destruct (write_json_char_cases c Hc) as [(-> & N1 & N2)|[(e & -> & _)|(h & l & -> & _ & _ & N1 & N2 & N3 & N4)]]; cbn [app json_string_end].
  - zfalse (c =? 92). zfalse (c =? 34). by rewrite IH.
  - cbn [Z.eqb Pos.eqb]. by rewrite IH.
  - cbn [Z.eqb Pos.eqb]. zfalse (h =? 92). zfalse (h =? 34). zfalse (l =? 92). zfalse (l =? 34). by rewrite IH.
Qed.

Lemma push_char16_small c : 0 <= c < 32 -> push_char16 c = Some [c].
Proof. intros H. unfold push_char16. zfalse (0xD800 <=? c). cbn [andb]. by ztrue (c <? 0x80). Qed.

Lemma json_unescape_write s : Forall is_byte s -> json_unescape (flat_map write_json_char s) = Ok s.
Proof.
  induction 1 as [|c s Hc H IH]; [done|]. cbn [flat_map].
  destruct (write_json_char_cases c Hc) as [(-> & N1 & N2)|[(e & -> & E)|(h & l & -> & E & Hl & _)]]; cbn [app json_unescape].
  - zfalse (c =? 92). cbn [negb]. by rewrite IH.
  - cbn [Z.eqb Pos.eqb negb]. rewrite E. by rewrite IH.
  - cbn [Z.eqb Pos.eqb negb simple_escape orb]. rewrite E. cbn [mbind option_bind]. rewrite push_char16_small by (destruct Hc; lia).
    cbn [ok_or mbind result_bind]. by rewrite IH.
Qed.

(** ** Order of the members *)

Lemma bytes_cmp_antisym a b : bytes_cmp b a = CompOpp (bytes_cmp a b).
Proof.
  revert b. induction a as [|x a IH]; intros [|y b]; [done..|]. cbn [bytes_cmp]. rewrite (Z.compare_antisym x y). destruct (x ?= y); [apply IH|done|done].
Qed.
Lemma key_cmp_antisym a b : key_cmp b a = CompOpp (key_cmp a b).
Proof. unfold key_cmp. rewrite (Z.compare_antisym (zlen a)). destruct (zlen a ?= zlen b); [apply bytes_cmp_antisym|done|done]. Qed.

Section sorting.
Context {A : Type}.
Implicit Types l : list (str * A).

Fixpoint sorted l : Prop :=
  match l with x :: l' => match l' with y :: _ => key_cmp x.1 y.1 <> Gt | [] => True end /\ sorted l' | [] => True end.

Lemma sorted_cons x l : sorted (x :: l) <-> match l with y :: _ => key_cmp x.1 y.1 <> Gt | [] => True end /\ sorted l.
Proof. done. Qed.

Lemma insert_sorted m l : sorted l -> sorted (insert_member m l).
Proof.
  induction l as [|x l IH]; intros H; [done|]. cbn [insert_member]. destruct (key_cmp m.1 x.1) eqn:E.
  1, 2: apply sorted_cons; split; [congruence|done].
  apply sorted_cons in H as [Hx H]. specialize (IH H). apply sorted_cons. split; [|done].
  destruct l as [|y l]; cbn [insert_member].
  - rewrite key_cmp_antisym, E. done.
  - destruct (key_cmp m.1 y.1); [rewrite key_cmp_antisym, E; done..|done].
Qed.
Lemma sort_sorted l : sorted (sort_members l).
Proof. induction l as [|x l IH]; [done|]. by apply insert_sorted. Qed.
Lemma sort_id l : sorted l -> sort_members l = l.
Proof.
  induction l as [|x l IH]; intros H; [done|]. apply sorted_cons in H as [Hx H]. cbn [sort_members foldr]. fold (sort_members l). rewrite IH by done.
  destruct l as [|y l]; [done|]. cbn [insert_member]. by destruct (key_cmp x.1 y.1).
Qed.
Lemma insert_perm m l : insert_member m l ≡ₚ m :: l.
Proof. induction l as [|x l IH]; [done|]. cbn [insert_member]. destruct (key_cmp _ _); [done..|]. rewrite IH. constructor. Qed.
Lemma sort_perm l : sort_members l ≡ₚ l.
Proof. induction l as [|x l IH]; [done|]. cbn [sort_members foldr]. rewrite insert_perm. by constructor. Qed.
End sorting.

Lemma sort_map {A B} (f : A -> B) (l : list (str * A)) : sort_members (map (fun m => (m.1, f m.2)) l) = map (fun m => (m.1, f m.2)) (sort_members l).
Proof.
  induction l as [|x l IH]; [done|]. cbn [map sort_members foldr]. fold (sort_members (map (fun m => (m.1, f m.2)) l)). fold (sort_members l). rewrite IH.
  generalize (sort_members l). clear. intros l. induction l as [|y l IH]; [done|]. cbn [map insert_member fst]. destruct (key_cmp x.1 y.1); [done..|]. by rewrite IH.
Qed.

(** The canonical value is printed the same way. *)
Lemma write_canon v : write_jsonb (canon v) = write_jsonb v.
Proof.
  induction v as [| | | |es IH|ms IH] using json_ind'; try done; cbn [canon write_jsonb].
  - do 3 f_equal. rewrite map_map. induction IH; [done|]. cbn [map]. by f_equal.
  - do 3 f_equal. rewrite (sort_map write_jsonb (sort_members _)), (sort_id (sort_members _)) by apply sort_sorted.
    rewrite <- (sort_map write_jsonb). do 2 f_equal. rewrite map_map. cbn [fst snd]. induction IH as [|m ms Hm H IH]; [done|]. cbn [map]. by rewrite Hm, IH.
Qed.

(** ** Printing and parsing *)

Lemma skip_ws_id c s : is_ascii_whitespace c = false -> skip_json_ws (c :: s) = c :: s.
Proof. intros E. cbn [skip_json_ws]. by rewrite E. Qed.

Definition starts_value (c : Z) : Prop := is_ascii_whitespace c = false /\ is_delim c = false.
Lemma write_head v : json_wf v -> exists c s, write_jsonb v = c :: s /\ starts_value c.
Proof.
  destruct v as [|[]|n|s|es|ms]; intros W; try (by eexists _, _).
  destruct W as (x & W). apply parse_f64_chars in W as [N H]. destruct n as [|c n]; [done|]. inversion H; subst.
  exists c, n. split; [done|]. by destruct (num_char_graph c ltac:(done)) as (_ & ? & _ & _ & _ & ?).
Qed.

Definition at_end (r : str) : Prop := match r with [] => True | c :: _ => is_delim c = true end.
(** [pv] reads back what is written for [v]. *)
Definition reads (pv : str -> result str (JsonValue * str)) (v : JsonValue) : Prop :=
  forall r, at_end r -> pv (write_jsonb v ++ r) = Ok (canon v, r).

Lemma skip_write v r : json_wf v -> skip_json_ws (write_jsonb v ++ r) = write_jsonb v ++ r.
Proof. intros W. destruct (write_head v W) as (c & s & -> & Hc & _). by apply skip_ws_id. Qed.

Lemma array_loop_ws pv n acc s s' : skip_json_ws s = skip_json_ws s' -> array_loop pv n acc s = array_loop pv n acc s'.
Proof. intros E. destruct n; [done|]. cbn [array_loop]. by rewrite E. Qed.
Lemma object_loop_ws pv n acc s s' : skip_json_ws s = skip_json_ws s' -> object_loop pv n acc s = object_loop pv n acc s'.
Proof. intros E. destruct n; [done|]. cbn [object_loop]. by rewrite E. Qed.

Lemma array_loop_write pv es r : es <> [] -> Forall json_wf es -> Forall (reads pv) es -> forall n acc, (length es <= n)%nat ->
  array_loop pv n acc (join_comma (map write_jsonb es) ++ 93 :: r) = Ok (JArray (acc ++ map canon es), r).
Proof.
  intros N W R. induction es as [|e es IH]; [done|]. clear N. inversion W as [|? ? We Ws]; subst. inversion R as [|? ? Re Rs]; subst.
  intros [|n] acc Hn; cbn [length] in Hn; [lia|]. cbn [array_loop]. destruct es as [|e' es].
  - cbn [map join_comma]. rewrite skip_write, (Re (93 :: r)) by done. cbn [mbind result_bind]. rewrite skip_ws_id by done. done.
  - change (join_comma (map write_jsonb (e :: e' :: es))) with (write_jsonb e ++ lit ", " ++ join_comma (map write_jsonb (e' :: es))).
    rewrite <- !app_assoc, skip_write, Re by done. cbn [mbind result_bind]. change (lit ", ") with [44; 32]. cbn [app].
    rewrite skip_ws_id by done. cbn [Z.eqb Pos.eqb]. rewrite (array_loop_ws _ _ _ _ (join_comma (map write_jsonb (e' :: es)) ++ 93 :: r)) by done.
    rewrite IH by (done || lia). rewrite <- app_assoc. done.
Qed.

Lemma set_member_new ms k v : k ∉ fst <$> ms -> set_member ms k v = ms ++ [(k, v)].
Proof.
  intros H. unfold set_member. f_equal. induction ms as [|m ms IH]; [done|]. cbn [fmap list_fmap] in H. apply not_elem_of_cons in H as [H1 H2].
  cbn [List.filter]. replace (str_eqb m.1 k) with false by (symmetry; apply str_eqb_false; congruence). cbn [negb]. by rewrite IH.
Qed.

Definition write_member (m : str * JsonValue) : str := write_json_string m.1 ++ lit ": " ++ write_jsonb m.2.

Lemma object_loop_write pv ms r : ms <> [] -> Forall (fun m => Forall is_byte m.1 /\ json_wf m.2 /\ reads pv m.2) ms -> forall n acc,
  (length ms <= n)%nat -> NoDup (fst <$> (acc ++ ms)) ->
  object_loop pv n acc (join_comma (map write_member ms) ++ 125 :: r) = Ok (JObject (acc ++ map (fun m => (m.1, canon m.2)) ms), r).
Proof.
  intros N W. induction ms as [|[k v] ms IH]; [done|]. clear N. inversion W as [|? ? (Wk & Wv & Rv) Ws]; subst. cbn [fst snd] in *.
  intros [|n] acc Hn Hd; cbn [length] in Hn; [lia|]. cbn [object_loop].
  assert (k ∉ fst <$> acc) as Hk.
  { rewrite fmap_app in Hd. apply NoDup_app in Hd as (_ & Hd & _). intros E. apply (Hd k E). cbn. apply elem_of_cons. by left. }
  assert (forall rest, match skip_json_ws (write_member (k, v) ++ rest) with
    | q :: s => if negb (q =? 34) then Err JSON_ERR else
        '(raw, r) ← json_string_end s; key ← json_unescape raw;
        match skip_json_ws r with
        | col :: r => if negb (col =? 58) then Err JSON_ERR else
            '(v, r) ← pv (skip_json_ws r);
            match skip_json_ws r with
            | d :: r => if d =? 44 then object_loop pv n (set_member acc key v) r else if d =? 125 then Ok (JObject (set_member acc key v), r) else Err JSON_ERR
            | [] => Err JSON_ERR
            end
        | [] => Err JSON_ERR
        end
    | [] => Err JSON_ERR
    end = '(v', r) ← pv (write_jsonb v ++ rest);
      match skip_json_ws r with
      | d :: r => if d =? 44 then object_loop pv n (set_member acc k v') r else if d =? 125 then Ok (JObject (set_member acc k v'), r) else Err JSON_ERR
      | [] => Err JSON_ERR
      end) as Step.
  { intros rest. unfold write_member, write_json_string. cbn [fst snd]. rewrite <- !app_assoc. cbn [app]. rewrite skip_ws_id by done. cbn [Z.eqb Pos.eqb negb].
    rewrite json_string_write by done. cbn [mbind result_bind]. rewrite json_unescape_write by done. cbn [mbind result_bind].
    change (lit ": ") with [58; 32]. cbn [app]. rewrite skip_ws_id by done. cbn [Z.eqb Pos.eqb negb].
    change (skip_json_ws (32 :: write_jsonb v ++ rest)) with (skip_json_ws (write_jsonb v ++ rest)). by rewrite skip_write. }
  destruct ms as [|m' ms].
  - cbn [map join_comma]. rewrite Step, Rv by done. cbn [mbind result_bind]. rewrite skip_ws_id by done. cbn [Z.eqb Pos.eqb].
    by rewrite set_member_new.
  - change (join_comma (map write_member ((k, v) :: m' :: ms))) with (write_member (k, v) ++ lit ", " ++ join_comma (map write_member (m' :: ms))).
    rewrite <- !app_assoc, Step, Rv by done. cbn [mbind result_bind]. change (lit ", ") with [44; 32]. cbn [app]. rewrite skip_ws_id by done. cbn [Z.eqb Pos.eqb].
    rewrite (object_loop_ws _ _ _ _ (join_comma (map write_member (m' :: ms)) ++ 125 :: r)) by done.
    rewrite set_member_new by done. rewrite IH; [|done|done|lia|rewrite <- app_assoc, fmap_app; by rewrite fmap_app in Hd]. rewrite <- app_assoc. done.
Qed.

Lemma join_comma_length l : Forall (fun x : str => x <> []) l -> (length l <= length (join_comma l))%nat /\ forall x, x ∈ l -> (length x <= length (join_comma l))%nat.
Proof.
  induction 1 as [|x l Hx F [IH1 IH2]]; [split; [done|by intros x ?%elem_of_nil]|]. destruct l as [|y l].
  - cbn [join_comma]. split; [destruct x; cbn; [done|lia]|]. by intros z ->%list_elem_of_singleton.
  - change (join_comma (x :: y :: l)) with (x ++ lit ", " ++ join_comma (y :: l)). rewrite !length_app. split.
    + cbn [length] in *. destruct x; [done|]. cbn [length]. lia.
    + intros z [->|Hz]%elem_of_cons; [lia|]. specialize (IH2 z Hz). lia.
Qed.

Lemma write_nonempty v : json_wf v -> write_jsonb v <> [].
Proof. intros W. by destruct (write_head v W) as (c & s & -> & _). Qed.

Lemma parse_token fuel n r v : n <> [] -> Forall (fun c => num_char c = true) n -> at_end r -> token_value n = Ok v ->
  parse_json_value (S fuel) (n ++ r) = Ok (v, r).
Proof.
  intros N H Hr E. rewrite <- (num_trim n N H) in E. cbn [parse_json_value]. destruct n as [|c n]; [done|].
  inversion H as [|? ? Hc _]; subst. destruct (num_char_graph c Hc) as (_ & _ & N1 & N2 & N3 & _). cbn [app].
  zfalse (c =? 123). zfalse (c =? 91). zfalse (c =? 34). change (c :: n ++ r) with ((c :: n) ++ r). rewrite scan_token_app by done.
  by rewrite E.
Qed.

(** What is printed for a value is read back as its canonical form. *)
Lemma parse_write v : json_wf v -> forall fuel, (length (write_jsonb v) < fuel)%nat -> reads (parse_json_value fuel) v.
Proof.
  induction v as [|b|n|s|es IH|ms IH] using json_ind'; intros W [|fuel] Hf r Hr; try lia.
  - apply parse_token; [done|by repeat constructor|done|done].
  - destruct b; (apply parse_token; [done|by repeat constructor|done|done]).
  - pose proof W as [x Hx]. pose proof (parse_f64_chars n x Hx) as [N H]. apply (parse_token fuel n); [done..|]. unfold token_value.
    assert (forall w, parse_f64 (lit w) = None -> str_eqb n (lit w) = false) as T.
    { intros w E. apply str_eqb_false. intros Ew. rewrite Ew in Hx. congruence. }
    rewrite !T by (vm_compute; reflexivity). by rewrite Hx.
  - cbn [write_jsonb parse_json_value]. unfold write_json_string. rewrite <- !app_assoc. cbn [app Z.eqb Pos.eqb].
    rewrite json_string_write by done. cbn [mbind result_bind]. by rewrite json_unescape_write.
  - apply json_wf_array in W. cbn [write_jsonb] in Hf |- *. rewrite <- !app_assoc. cbn [app parse_json_value Z.eqb Pos.eqb].
    destruct es as [|e es]; [cbn [map join_comma app]; rewrite skip_ws_id by done; done|].
    set (l := e :: es) in *. assert (Forall (fun x : str => x <> []) (map write_jsonb l)) as F.
    { apply list.Forall_forall. intros x (v & -> & Hv)%list_elem_of_fmap. apply write_nonempty. by eapply Forall_forall in W. }
    destruct (join_comma_length _ F) as [L1 L2]. rewrite length_map in L1. rewrite !length_app in Hf. cbn [length] in Hf.
    assert (Forall (reads (parse_json_value fuel)) l) as R.
    { apply Forall_forall. intros v Hv. eapply Forall_forall in IH; [|exact Hv]. eapply Forall_forall in W; [|exact Hv]. apply IH; [done|].
      specialize (L2 (write_jsonb v) ltac:(by apply list_elem_of_fmap_2)). lia. }
    pose proof (array_loop_write (parse_json_value fuel) l r ltac:(done) W R fuel [] ltac:(lia)) as E.
    assert (exists c t, join_comma (map write_jsonb l) ++ 93 :: r = c :: t /\ starts_value c) as (c & t & Et & Hc & Hd).
    { destruct (write_head e ltac:(by inversion W)) as (c & t & Ec & Hc). unfold l. cbn [map]. destruct es; cbn [join_comma map]; rewrite Ec; by eexists _, _. }
    rewrite Et in E |- *. rewrite skip_ws_id by done. unfold is_delim in Hd. replace (c =? 93) with false by (destruct (c =? 93); [by rewrite orb_true_r in Hd|done]).
    exact E.
  - apply json_wf_object in W as (Wd & Wk & Wv). cbn [write_jsonb] in Hf |- *. rewrite sort_map in *.
    assert (map (fun m : str * str => write_json_string m.1 ++ lit ": " ++ m.2) (map (fun m => (m.1, write_jsonb m.2)) (sort_members ms)) = map write_member (sort_members ms)) as Em.
    { rewrite map_map. done. }
    rewrite Em in *. clear Em. cbn [canon]. rewrite sort_map. pose proof (sort_perm ms) as P. set (l := sort_members ms) in *. clearbody l.
    assert (Forall (fun m => Forall is_byte m.1 /\ json_wf m.2 /\ (forall fuel, (length (write_jsonb m.2) < fuel)%nat -> reads (parse_json_value fuel) m.2)) l) as A.
    { rewrite P. apply Forall_forall. intros m Hm. eapply Forall_forall in IH; [|exact Hm]. eapply Forall_forall in Wv; [|exact Hm].
      split_and!; [|done|by apply IH]. eapply Forall_forall in Wk; [exact Wk|]. by apply list_elem_of_fmap_2. }
    assert (NoDup (fst <$> l)) as D by (by rewrite P). clear P IH Wd Wk Wv. rewrite <- !app_assoc. cbn [app parse_json_value Z.eqb Pos.eqb].
    destruct l as [|m l0]; [cbn [map join_comma app]; rewrite skip_ws_id by done; done|].
    set (l := m :: l0) in *. assert (Forall (fun x : str => x <> []) (map write_member l)) as F.
    { apply list.Forall_forall. intros x (v & -> & Hv)%list_elem_of_fmap. done. }
    destruct (join_comma_length _ F) as [L1 L2]. rewrite length_map in L1. rewrite !length_app in Hf. cbn [length] in Hf.
    assert (Forall (fun m => Forall is_byte m.1 /\ json_wf m.2 /\ reads (parse_json_value fuel) m.2) l) as R.
    { apply Forall_forall. intros v Hv. eapply Forall_forall in A as (A1 & A2 & A3); [|exact Hv]. split_and!; [done|done|]. apply A3.
      specialize (L2 (write_member v) ltac:(by apply list_elem_of_fmap_2)).
      assert (length (write_jsonb v.2) <= length (write_member v))%nat by (unfold write_member; rewrite !length_app; lia). lia. }
    pose proof (object_loop_write (parse_json_value fuel) l r ltac:(done) R fuel [] ltac:(lia) D) as E.
    assert (exists t, join_comma (map write_member l) ++ 125 :: r = 34 :: t) as (t & Et).
    { unfold l. cbn [map]. destruct l0; cbn [join_comma map]; by eexists. }
    rewrite Et in E |- *. rewrite skip_ws_id by done. exact E.
Qed.

(** ** What the parser produces *)

Lemma bind_Ok_inv {E A B} (m : result E A) (f : A -> result E B) b : m ≫= f = Ok b -> exists a, m = Ok a /\ f a = Ok b.
Proof. destruct m as [a|e]; [|done]. by exists a. Qed.

(** Takes apart a successful sequence of steps. *)
Ltac inv_ok :=
  repeat match goal with
  | H : _ ≫= _ = Ok _ |- _ => apply bind_Ok_inv in H as (? & ? & H)
  | H : Ok _ = Ok _ |- _ => injection H as H || (injection H; clear H; intros)
  | H : Err _ = Ok _ |- _ => discriminate H
  | H : ok_or ?o _ = Ok _ |- _ => destruct o eqn:?; cbn [ok_or] in H
  | H : (let '(_, _) := ?p in _) = Ok _ |- _ => destruct p eqn:?
  | H : (if ?b then _ else _) = Ok _ |- _ => destruct b eqn:?
  | H : match ?l with [] => _ | _ :: _ => _ end = Ok _ |- _ => destruct l eqn:?
  | H : match ?o with Some _ => _ | None => _ end = Ok _ |- _ => destruct o eqn:?
  end; simplify_eq.

Lemma skip_ws_bytes s : Forall is_byte s -> Forall is_byte (skip_json_ws s).
Proof. induction 1 as [|c s Hc H IH]; [constructor|]. cbn [skip_json_ws]. destruct (is_ascii_whitespace c); [done|by constructor]. Qed.

Lemma string_end_bytes n : forall s a r, (length s <= n)%nat -> Forall is_byte s -> json_string_end s = Ok (a, r) -> Forall is_byte a /\ Forall is_byte r.
Proof.
  induction n as [|n IH]; intros [|c s] a r Hn H E; cbn [length] in Hn; try lia; cbn [json_string_end] in E; try discriminate.
  inversion H as [|? ? Hc Hs]; subst. inv_ok.
  - inversion Hs; subst. apply IH in H0 as [? ?]; [|cbn in Hn; lia|done]. split; [|done]. by do 2 (apply Forall_cons; split; [done|]).
  - by split.
  - apply IH in H0 as [? ?]; [|lia|done]. split; [|done]. by constructor.
Qed.

Lemma hex_digit_range c x : hex_digit c = Some x -> 0 <= x < 16.
Proof. unfold hex_digit, is_ascii_digit. intros H. repeat case_match; simplify_eq; zb; lia. Qed.
Lemma parse_hex4_range a b c d x : parse_hex4 a b c d = Some x -> 0 <= x < 65536.
Proof.
  unfold parse_hex4. destruct (if a =? 43 then Some 0 else hex_digit a) as [xa|] eqn:Ea; [|done]. cbn [mbind option_bind].
  destruct (hex_digit b) eqn:Eb; [|done]. destruct (hex_digit c) eqn:Ec; [|done]. destruct (hex_digit d) eqn:Ed; [|done]. cbn [mbind option_bind]. intros [= <-].
  apply hex_digit_range in Eb, Ec, Ed. assert (0 <= xa < 16) by (case_match; [simplify_eq; lia|by apply hex_digit_range in Ea]). lia.
Qed.
Lemma push_char16_bytes c s : 0 <= c < 65536 -> push_char16 c = Some s -> Forall is_byte s.
Proof.
  intros H. assert (forall k x, (k = 0xC0 \/ k = 0x80 \/ k = 0xE0) -> 0 <= x < 64 -> is_byte (Z.lor k x)) as B.
  { intros k x Hk Hx. assert (x ∈ seqZ 0 64) as Hi by (apply elem_of_seqZ; lia). revert Hi. generalize x. clear x Hx. apply Forall_forall.
    unfold is_byte. destruct Hk as [->|[->| ->]]; vm_compute; repeat constructor; discriminate. }
  unfold push_char16. destruct ((_ <=? _) && _); [done|]. pose proof (Z.mod_pos_bound c 64 ltac:(lia)). pose proof (Z.mod_pos_bound (c / 64) 64 ltac:(lia)).
  destruct (c <? 0x80) eqn:?; zb.
  { intros [= <-]. apply Forall_singleton. unfold is_byte. lia. }
  destruct (c <? 0x800) eqn:?; zb; intros [= <-]; rewrite ?Forall_cons; split_and!; try apply Forall_nil_2; apply B; auto.
  - clear - Heqb0 H. Z.to_euclidean_division_equations. lia.
  - clear - H. Z.to_euclidean_division_equations. lia.
Qed.

Lemma unescape_bytes n : forall s o, (length s <= n)%nat -> Forall is_byte s -> json_unescape s = Ok o -> Forall is_byte o.
Proof.
  induction n as [|n IH]; intros [|c s] o Hn H E; cbn [length] in Hn; try lia; cbn [json_unescape] in E; simplify_eq; try constructor.
  inversion H as [|? ? Hc Hs]; subst. inv_ok.
  - constructor; [done|]. by eapply IH; [| |eassumption]; [lia|].
  - inversion Hs; subst. cbn in Hn. constructor; [|eapply IH; [| |eassumption]; [lia|done]].
    match goal with H : simple_escape ?e = Some _ |- _ => clear - H; unfold simple_escape in H; repeat case_match; simplify_eq; zb; unfold is_byte; try lia end.
  - apply Forall_app. repeat match goal with H : Forall is_byte (_ :: _) |- _ => inversion H; subst; clear H end.
    cbn [length] in Hn. split; [|eapply IH; [| |eassumption]; [lia|done]].
    match goal with H : (_ ≫= _) = Some _ |- _ => apply bind_Some in H as (code & Hh & Hp) end. apply parse_hex4_range in Hh. by eapply push_char16_bytes.
Qed.

Lemma scan_token_split s : forall a r, scan_token s = (a, r) -> s = a ++ r.
Proof.
  induction s as [|c s IH]; intros a r E; cbn [scan_token] in E; [by simplify_eq|]. destruct (is_delim c); [by simplify_eq|].
  destruct (scan_token s) as [a' r'] eqn:Es. simplify_eq. cbn [app]. f_equal. by apply IH.
Qed.

Lemma token_wf tok v : token_value tok = Ok v -> json_wf v.
Proof. unfold token_value. intros E. inv_ok; try done. by eexists. Qed.

(** A property of the values a parser returns on bytes. *)
Definition sound (pv : str -> result str (JsonValue * str)) : Prop :=
  forall s v r, Forall is_byte s -> pv s = Ok (v, r) -> json_wf v /\ Forall is_byte r.

Lemma array_loop_wf pv n : sound pv -> forall acc s v r, Forall is_byte s -> Forall json_wf acc -> array_loop pv n acc s = Ok (v, r) -> json_wf v /\ Forall is_byte r.
Proof.
  intros P. induction n as [|n IH]; intros acc s v r Hs Ha E; [done|]. cbn [array_loop] in E. inv_ok.
  all: apply P in H as [Hw Hl]; [|by apply skip_ws_bytes]; apply skip_ws_bytes in Hl; rewrite Heql0 in Hl; inversion Hl; subst.
  - apply IH in E; [done|done|]. apply Forall_app. by split; [|constructor].
  - split; [|done]. apply json_wf_array, Forall_app. by split; [|constructor].
Qed.

Lemma set_member_wf ms k v : Forall is_byte k -> json_wf v -> json_wf (JObject ms) -> json_wf (JObject (set_member ms k v)).
Proof.
  intros Hk Hv Hm. apply json_wf_object in Hm as (D & B & W). apply json_wf_object. unfold set_member.
  assert (forall m, m ∈ List.filter (fun m : str * JsonValue => negb (str_eqb m.1 k)) ms -> m ∈ ms /\ m.1 <> k) as F.
  { intros m [H1 H2]%list_elem_of_In%filter_In. apply list_elem_of_In in H1. split; [done|]. by apply negb_true_iff, str_eqb_false in H2. }
  rewrite fmap_app. cbn [fmap list_fmap fst]. split_and!.
  - apply NoDup_app. split_and!; [| |apply NoDup_singleton].
    + clear - D. induction ms as [|m ms IH]; [done|]. cbn [fmap list_fmap] in D. apply NoDup_cons in D as [D1 D2]. cbn [List.filter].
      destruct (negb _); [|by apply IH]. cbn [fmap list_fmap]. apply NoDup_cons. split; [|by apply IH]. intros (m' & E & Hm')%list_elem_of_fmap.
      apply D1. rewrite E. apply list_elem_of_fmap_2. apply list_elem_of_In in Hm' as [Hm' _]%filter_In. by apply list_elem_of_In.
    + intros x (m & -> & Hm)%list_elem_of_fmap. apply F in Hm as [_ N]. by intros Hx%list_elem_of_singleton.
  - apply Forall_app. split; [|by constructor]. apply Forall_forall. intros x (m & -> & Hm)%list_elem_of_fmap. apply F in Hm as [Hm _].
    eapply Forall_forall in B; [exact B|]. by apply list_elem_of_fmap_2.
  - apply Forall_app. split; [|by constructor]. apply Forall_forall. intros m Hm. apply F in Hm as [Hm _]. by eapply Forall_forall in W.
Qed.

Lemma object_loop_wf pv n : sound pv -> forall acc s v r, Forall is_byte s -> json_wf (JObject acc) -> object_loop pv n acc s = Ok (v, r) -> json_wf v /\ Forall is_byte r.
Proof.
  intros P. induction n as [|n IH]; intros acc s v r Hs Ha E; [done|]. cbn [object_loop] in E. apply skip_ws_bytes in Hs. inv_ok.
  all: inversion Hs as [|? ? Hq Hl]; subst.
  all: eapply string_end_bytes in H as [Ba Bb]; [|reflexivity|done]; eapply unescape_bytes in H0 as Bk; [|reflexivity|done].
  all: apply skip_ws_bytes in Bb; rewrite Heql2 in Bb; inversion Bb as [|? ? _ Bl]; subst.
  all: apply P in H1 as [Hw Hr]; [|by apply skip_ws_bytes]; apply skip_ws_bytes in Hr; rewrite Heql4 in Hr; inversion Hr as [|? ? _ Br]; subst.
  - apply IH in E; [done|done|]. by apply set_member_wf.
  - split; [|done]. by apply set_member_wf.
Qed.

Lemma parse_json_wf fuel : sound (parse_json_value fuel).
Proof.
  induction fuel as [|fuel IH]; intros s v r Hs E; [done|]. cbn [parse_json_value] in E. destruct s as [|c s]; [done|].
  inversion Hs as [|? ? Hc Hs']; subst. destruct (c =? 123).
  { apply skip_ws_bytes in Hs'. destruct (skip_json_ws s) as [|d l] eqn:El; [done|]. destruct (d =? 125).
    - simplify_eq. inversion Hs'; subst. split; [|done]. by repeat constructor.
    - apply object_loop_wf in E; [done|done|done|by repeat constructor]. }
  destruct (c =? 91).
  { apply skip_ws_bytes in Hs'. destruct (skip_json_ws s) as [|d l] eqn:El; [done|]. destruct (d =? 93).
    - simplify_eq. inversion Hs'; subst. by split.
    - by apply array_loop_wf in E. }
  destruct (c =? 34).
  - inv_ok. eapply string_end_bytes in H as [Ba Bb]; [|reflexivity|done]. eapply unescape_bytes in H0; [|reflexivity|done]. by split.
  - inv_ok. apply scan_token_split in Heqp. split; [by eapply token_wf|]. rewrite Heqp in Hs. by apply Forall_app in Hs as [_ ?].
Qed.

Lemma find_member_in {A} (ms : list (str * A)) m : NoDup (fst <$> ms) -> m ∈ ms -> find_member m.1 ms = Some m.2.
Proof.
  intros D H. unfold find_member. induction ms as [|x ms IH]; [by apply elem_of_nil in H|]. cbn [fmap list_fmap] in D. apply NoDup_cons in D as [D1 D2].
  cbn [List.find]. apply elem_of_cons in H as [->|H].
  - replace (str_eqb x.1 x.1) with true by (symmetry; by apply str_eqb_true). done.
  - replace (str_eqb x.1 m.1) with false; [by apply IH|]. symmetry. apply str_eqb_false. intros E. apply D1. rewrite E. by apply list_elem_of_fmap_2.
Qed.

(** A value equals its canonical form. *)
Lemma json_equal_canon v : json_wf v -> json_equal v (canon v) = true.
Proof.
  induction v as [|b|n|s|es IH|ms IH] using json_ind'; intros W; cbn [canon json_equal]; [done|by destruct b| | | |].
  - replace (str_eqb n n) with true by (symmetry; by apply str_eqb_true). done.
  - by apply str_eqb_true.
  - apply json_wf_array in W. apply andb_true_iff. split; [apply Z.eqb_eq; unfold zlen; by rewrite length_map|].
    induction IH as [|e es He IH IHes]; [done|]. inversion W; subst. cbn [map]. by rewrite He, IHes.
  - apply json_wf_object in W as (D & _ & W). pose proof (sort_perm (map (fun m => (m.1, canon m.2)) ms)) as P. apply andb_true_iff. split.
    + apply Z.eqb_eq. unfold zlen. by rewrite P, length_map.
    + apply forallb_forall. intros m Hm%list_elem_of_In. eapply Forall_forall in IH; [|exact Hm]. eapply Forall_forall in W; [|exact Hm].
      assert (NoDup (fst <$> sort_members (map (fun m => (m.1, canon m.2)) ms))) as D'.
      { rewrite P. assert (fst <$> map (fun m : str * JsonValue => (m.1, canon m.2)) ms = fst <$> ms) as ->; [|done].
        clear. induction ms as [|m ms IH]; [done|]. cbn [map fmap list_fmap fst]. f_equal. exact IH. }
      pose proof (find_member_in _ (m.1, canon m.2) D') as F. cbn [fst snd] in F. rewrite F; [by apply IH|]. rewrite P. by apply (list_elem_of_fmap_2 (fun m => (m.1, canon m.2))).
Qed.

(** ** Theorems *)

(** Jsonb normal form.  When a text is accepted as jsonb, the text it is stored as
    is its own normal form, parses again, and stands for an equal value. *)
Theorem jsonb_normal_form text out :
  Forall is_byte text -> normalize_jsonb text = Ok out ->
  normalize_jsonb out = Ok out
  /\ exists v v', parse_json_full text = Some v /\ parse_json_full out = Some v' /\ json_equal v v' = true.
Proof.
  intros B E. unfold normalize_jsonb in E. inv_ok. rename j into v, H into Hp, l into r, Heql0 into Hr.
  assert (json_wf v) as W. { eapply parse_json_wf; [|exact Hp]. by apply skip_ws_bytes. }
  assert (parse_json (write_jsonb v) = Ok (canon v, [])) as P.
  { unfold parse_json. rewrite <- (app_nil_r (write_jsonb v)) at 2. rewrite skip_write by done. by apply parse_write; [done|lia|]. }
  split.
  - unfold normalize_jsonb. rewrite P. cbn [mbind result_bind skip_json_ws]. by rewrite write_canon.
  - exists v, (canon v). unfold parse_json_full. rewrite Hp, Hr, P. cbn [skip_json_ws]. split_and!; [done..|]. by apply json_equal_canon.
Qed.

Lemma jsonb_normal_form_witness :
  normalize_jsonb (q "{'b':1, 'a' : [true,null]}") = Ok (q "{'a': [true, null], 'b': 1}")
  /\ normalize_jsonb (q "{'a': [true, null], 'b': 1}") = Ok (q "{'a': [true, null], 'b': 1}").
Proof.
  split; [vm_compute; reflexivity|]. apply (jsonb_normal_form (q "{'b':1, 'a' : [true,null]}")).
  - vm_compute. repeat constructor; discriminate.
  - vm_compute. reflexivity.
Defined.

(** The scanner of numbers is that of [f64], so texts that are not JSON are
    accepted; a scalar is found in an array at any depth; a lone quote panics. *)
Lemma jsonb_anomalies :
  normalize_jsonb (lit "infinity") = Ok (lit "infinity") /\ normalize_jsonb (lit "[+.5]") = Ok (lit "[+.5]")
  /\ jsonb_contains_operator (lit "[[1]]") (lit "[1]") = Some true
  /\ json_path_text (Text [34]) [] = Panic.
Proof. vm_compute. repeat split. Qed.
