(* ===== verification/Containers.v ===== *)
(** Containers kept as text by crates/engine/src/executor.rs: array and row
    literals, ranges, IPv4 networks and text search vectors, with the operators on
    them.  Their delimiters are ASCII, so the texts are handled byte by byte. *)

From S2P Require Import Prelude Utf8 Numeric Types Float Wire Pattern FloatOps Datetime Json.

(** * Arrays and rows *)

Definition contains_any (cs : list Z) (s : str) : bool := existsb (fun c => existsb (Z.eqb c) cs) s.
(** The element between quotes, with a backslash before quotes and backslashes. *)
Definition quote_element (s : str) : str := [34] ++ flat_map (fun c => if (c =? 92) || (c =? 34) then [92; c] else [c]) s ++ [34].

Definition row_part (v : Value) : str :=
  match to_text v with
  | None => []
  | Some t => if contains_any [44; 40; 41; 34; 92] t then quote_element t else t
  end.
Definition row_value_to_text (vs : list Value) : str := [40] ++ join [44] (row_part <$> vs) ++ [41].

Definition element_text (e : option str) : str :=
  match e with
  | None => lit "NULL"
  | Some t => if contains_any [44; 123; 125; 34; 92] t || match t with [] => true | _ => false end then quote_element t else t
  end.
Definition array_text_from_elements (vs : list (option str)) : str := [123] ++ join [44] (element_text <$> vs) ++ [125].
Definition array_value_to_text (vs : list Value) : str := array_text_from_elements (to_text <$> vs).

Definition array_element (raw : str) (was_quoted : bool) : option str :=
  if negb was_quoted && eq_ignore_case raw (lit "NULL") then None else Some raw.

(** The loop of [parse_array_text] over the text between the braces. *)
Fixpoint array_chars (cur : str) (quoted was_quoted escape : bool) (s : str) : list (option str) :=
  match s with
  | [] => [array_element cur was_quoted]
  | c :: s =>
      if escape then array_chars (cur ++ [c]) quoted was_quoted false s
      else if quoted then
        if c =? 92 then array_chars cur quoted was_quoted true s
        else if c =? 34 then array_chars cur false was_quoted false s
        else array_chars (cur ++ [c]) quoted was_quoted false s
      else if c =? 34 then array_chars cur true true false s
      else if c =? 44 then array_element cur was_quoted :: array_chars [] false false false s
      else array_chars (cur ++ [c]) false was_quoted false s
  end.
Definition parse_array_text (text : str) : option (list (option str)) :=
  if negb (bool_decide (head text = Some 123) && ends_with_byte text 125) then None
  else if zlen text =? 2 then Some []
  else Some (array_chars [] false false false (zslice 1 (zlen text - 1) text)).

(** * Ranges *)

Record Range := mk_range { r_empty : bool; r_lower : option str; r_upper : option str; r_lower_inc : bool; r_upper_inc : bool }.

Definition is_range_text (v : Value) : bool :=
  match to_text v with
  | None => false
  | Some t =>
      let t := trim t in
      eq_ignore_case t (lit "empty")
      || (bool_decide (head t = Some 91) || bool_decide (head t = Some 40)) && (ends_with_byte t 93 || ends_with_byte t 41) && existsb (Z.eqb 44) t
  end.

(** [s.trim_matches(..)] of the double quote. *)
Fixpoint drop_quotes (s : str) : str := match s with c :: s' => if c =? 34 then drop_quotes s' else s | [] => [] end.
Definition trim_quotes (s : str) : str := reverse (drop_quotes (reverse (drop_quotes s))).

Definition parse_bound (s : str) : option str := match trim_quotes (trim s) with [] => None | s => Some s end.
Definition parse_range_text (text : str) : option Range :=
  let t := trim text in
  if eq_ignore_case t (lit "empty") then Some (mk_range true None None false false)
  else
    a ← head t;
    li ← (if a =? 91 then Some true else if a =? 40 then Some false else None);
    b ← last t;
    ui ← (if b =? 93 then Some true else if b =? 41 then Some false else None);
    '(lo, hi) ← split_once 44 (zslice 1 (zlen t - 1) t);
    Some (mk_range false (parse_bound lo) (parse_bound hi) li ui).

Definition cmp_bound (a b : str) : comparison :=
  match parse_f64 a, parse_f64 b with
  | Some x, Some y => default Eq (f64_partial_cmp x y)
  | _, _ => bytes_cmp a b
  end.

Definition is_lt (c : comparison) : bool := match c with Lt => true | _ => false end.
Definition is_gt (c : comparison) : bool := match c with Gt => true | _ => false end.
Definition is_eq (c : comparison) : bool := match c with Eq => true | _ => false end.

(** The point is not cut off by the lower or the upper bound. *)
Definition above (lo : option str) (inc : bool) (p : str) : bool :=
  match lo with Some lo => negb (is_lt (cmp_bound p lo) || is_eq (cmp_bound p lo) && negb inc) | None => true end.
Definition below (hi : option str) (inc : bool) (p : str) : bool :=
  match hi with Some hi => negb (is_gt (cmp_bound p hi) || is_eq (cmp_bound p hi) && negb inc) | None => true end.
Definition contains_point (r : Range) (p : str) : bool :=
  if r_empty r then false else above (r_lower r) (r_lower_inc r) p && below (r_upper r) (r_upper_inc r) p.

(** The bounds [a] of the containing range against the bounds [b] of the other; the
    code tests the containing side's inclusivity twice. *)
Definition lower_covers (a : option str) (inc : bool) (b : option str) : bool :=
  match a, b with
  | None, _ => true
  | Some _, None => false
  | Some a, Some b => is_lt (cmp_bound a b) || is_eq (cmp_bound a b) && (inc || inc)
  end.
Definition upper_covers (a : option str) (inc : bool) (b : option str) : bool :=
  match a, b with
  | None, _ => true
  | Some _, None => false
  | Some a, Some b => is_gt (cmp_bound a b) || is_eq (cmp_bound a b) && (inc || inc)
  end.
Definition contains_range (self other : Range) : bool :=
  if r_empty other then true
  else if r_empty self then false
  else lower_covers (r_lower self) (r_lower_inc self) (r_lower other) && upper_covers (r_upper self) (r_upper_inc self) (r_upper other).

(** A lower edge is not above an upper one. *)
Definition edge_le (l : option str) (li : bool) (u : option str) (ui : bool) : bool :=
  match l, u with
  | Some l, Some u => is_lt (cmp_bound l u) || is_eq (cmp_bound l u) && li && ui
  | _, _ => true
  end.
Definition overlaps (self other : Range) : bool :=
  if r_empty self || r_empty other then false
  else edge_le (r_lower self) (r_lower_inc self) (r_upper other) (r_upper_inc other)
    && edge_le (r_lower other) (r_lower_inc other) (r_upper self) (r_upper_inc self).

Definition range_constructor (vs : list Value) : Value :=
  let bounds := default (lit "[)") (v ← vs !! 2%nat; to_text v) in
  let text i := default [] (v ← vs !! (i : nat); to_text v) in
  Text ([if bool_decide (head bounds = Some 91) then 91 else 40] ++ text 0%nat ++ [44] ++ text 1%nat
        ++ [if ends_with_byte bounds 93 then 93 else 41]).

Definition range_bound (v : Value) (want_lower : bool) : Value :=
  match t ← to_text v; parse_range_text t with
  | None => Null
  | Some r =>
      match if want_lower then r_lower r else r_upper r with
      | Some s => match parse_i64 s with Some i => Int i | None => Text s end
      | None => Null
      end
  end.

Inductive ArrayOp := ArrayContains | ArrayContainedBy | ArrayOverlap.

Definition range_operator (op : ArrayOp) (left right : str) : option bool :=
  let lr := parse_range_text left in
  let rr := parse_range_text right in
  match op with
  | ArrayContains =>
      lr ← lr; Some (match rr with Some rr => contains_range lr rr | None => contains_point lr (trim_quotes (trim right)) end)
  | ArrayContainedBy =>
      rr ← rr; Some (match lr with Some lr => contains_range rr lr | None => contains_point rr (trim_quotes (trim left)) end)
  | ArrayOverlap => lr ← lr; rr ← rr; Some (overlaps lr rr)
  end.

(** * Networks *)

Record Ipv4Network := mk_net { n_addr : Z; n_prefix : Z }.
#[export] Instance net_eq_dec : EqDecision Ipv4Network.
Proof. solve_decision. Defined.

Definition parse_ipv4_network (input : str) : option Ipv4Network :=
  '(addr, prefix) ← match split_once 47 input with
                    | Some (addr, p) => p ← parse_uint 8 p; Some (addr, p)
                    | None => Some (input, 32)
                    end;
  if 32 <? prefix then None
  else match split 46 addr with
       | [a; b; c; d] =>
           a ← parse_uint 8 a; b ← parse_uint 8 b; c ← parse_uint 8 c; d ← parse_uint 8 d;
           Some (mk_net (be_val [a; b; c; d]) prefix)
       | _ => None
       end.

Definition network_mask (prefix : Z) : Z := if prefix =? 0 then 0 else wrap 32 (Z.shiftl (2 ^ 32 - 1) (32 - prefix)).
Definition network_start (n : Ipv4Network) : Z := Z.land (n_addr n) (network_mask (n_prefix n)).
Definition network_end (n : Ipv4Network) : Z := Z.lor (network_start n) (Z.lxor (network_mask (n_prefix n)) (2 ^ 32 - 1)).
Definition network_contains (parent child : Ipv4Network) : bool :=
  (n_prefix parent <=? n_prefix child) && (Z.land (n_addr child) (network_mask (n_prefix parent)) =? network_start parent).
Definition networks_overlap (l r : Ipv4Network) : bool := (network_start l <=? network_end r) && (network_start r <=? network_end l).

Inductive NetworkOp := NetworkContainedBy | NetworkContainedByEq | NetworkContains | NetworkContainsEq.

Definition network_operator (op : NetworkOp) (left right : Value) : result str Value :=
  match to_text left, to_text right with
  | Some lt, Some rt =>
      l ← ok_or (parse_ipv4_network lt) (lit "network operator requires inet/cidr values");
      r ← ok_or (parse_ipv4_network rt) (lit "network operator requires inet/cidr values");
      Ok (Bool (match op with
                | NetworkContainedBy => network_contains r l && negb (bool_decide (l = r))
                | NetworkContainedByEq => network_contains r l
                | NetworkContains => network_contains l r && negb (bool_decide (l = r))
                | NetworkContainsEq => network_contains l r
                end))
  | _, _ => Ok Null
  end.

(** * The array operators *)

Definition has_element (vs : list (option str)) (e : option str) : bool := existsb (fun v => bool_decide (v = e)) vs.
Definition contains_all (haystack needles : list (option str)) : bool := forallb (has_element haystack) needles.

Definition array_operator (op : ArrayOp) (left right : Value) : result str Value :=
  let nets := match op with
              | ArrayOverlap => l ← (t ← to_text left; parse_ipv4_network t); r ← (t ← to_text right; parse_ipv4_network t); Some (networks_overlap l r)
              | _ => None
              end in
  match nets with
  | Some b => Ok (Bool b)
  | None =>
      match to_text left, to_text right with
      | Some lt, Some rt =>
          match range_operator op lt rt with
          | Some b => Ok (Bool b)
          | None =>
              match match op with ArrayContains => jsonb_contains_operator lt rt | ArrayContainedBy => jsonb_contains_operator rt lt | ArrayOverlap => None end with
              | Some b => Ok (Bool b)
              | None =>
                  l ← ok_or (parse_array_text lt) (lit "array operator requires array values");
                  r ← ok_or (parse_array_text rt) (lit "array operator requires array values");
                  Ok (Bool (match op with
                            | ArrayContains => contains_all l r
                            | ArrayContainedBy => contains_all r l
                            | ArrayOverlap => existsb (has_element r) l
                            end))
              end
          end
      | _, _ => Ok Null
      end
  end.

(** * Text search *)

Definition term_char (c : Z) : bool := is_ascii_alphanumeric c || (c =? 95).
Fixpoint terms_loop (cur : str) (s : str) : list str :=
  match s with
  | [] => match cur with [] => [] | _ => [cur] end
  | c :: s =>
      if term_char c then terms_loop (cur ++ [to_ascii_lower c]) s
      else match cur with [] => terms_loop [] s | _ => cur :: terms_loop [] s end
  end.
Definition text_search_terms (input : str) : list str := terms_loop [] input.

Definition terms_of (v : Value) : list str := match to_text v with Some t => text_search_terms t | None => [] end.
Definition text_search_match (vector query : Value) : bool :=
  let vt := terms_of vector in
  let qt := terms_of query in
  match qt with [] => false | _ => forallb (fun t => bool_decide (t ∈ vt)) qt end.

Definition plainto_tsquery_text (input : str) : str := join (lit " & ") ((fun t => [39] ++ t ++ [39]) <$> text_search_terms input).

(** [positions.entry(term).or_default().push(pos)] on the ordered map. *)
Fixpoint add_position (m : list (str * list Z)) (t : str) (p : Z) : list (str * list Z) :=
  match m with
  | [] => [(t, [p])]
  | (t', ps) :: m' =>
      match bytes_cmp t t' with
      | Lt => (t, [p]) :: m
      | Eq => (t', ps ++ [p]) :: m'
      | Gt => (t', ps) :: add_position m' t p
      end
  end.
Definition to_tsvector_text (input : str) : str :=
  let m := foldl (fun m '(i, t) => add_position m t (Z.of_nat i + 1)) [] (enumerate (text_search_terms input)) in
  join [32] ((fun '(t, ps) => [39] ++ t ++ lit "':" ++ join [44] (i64_display <$> ps)) <$> m).

Fixpoint tsquery_loop (cur : str) (s : str) : list str :=
  let quoted := match cur with [] => [] | _ => [[39] ++ cur ++ [39]] end in
  match s with
  | [] => quoted
  | c :: s =>
      if term_char c then tsquery_loop (cur ++ [to_ascii_lower c]) s
      else quoted ++ (if existsb (Z.eqb c) (lit "&|!()") then [[c]] else []) ++ tsquery_loop [] s
  end.
Definition to_tsquery_text (input : str) : str := join [32] (tsquery_loop [] input).

Definition ts_rank_text (vector query : Value) : Z :=
  let vt := terms_of vector in
  let qt := terms_of query in
  match qt with
  | [] => 0
  | _ => f64_div (i64_as_f64 (zlen (List.filter (fun t => bool_decide (t ∈ vt)) qt))) (i64_as_f64 (zlen qt))
  end.

Example array_examples :
  array_value_to_text [Int 1; Text (lit "a,b"); Null; Text []] = q "{1,'a,b',NULL,''}"
  /\ parse_array_text (q "{1,'a,b',NULL,''}") = Some [Some (lit "1"); Some (lit "a,b"); None; Some []]
  /\ row_value_to_text [Int 1; Null; Text (lit "x(y")] = q "(1,,'x(y')".
Proof. vm_compute. repeat split. Qed.
Example operator_examples :
  [array_operator ArrayContains (Text (lit "{1,2,3}")) (Text (lit "{3,1}")); array_operator ArrayContains (Text (lit "[1,10)")) (Text (lit "10"));
   array_operator ArrayOverlap (Text (lit "[1,5)")) (Text (lit "[5,6]")); array_operator ArrayContains (Text (lit "{}")) (Int 1);
   network_operator NetworkContains (Text (lit "10.0.0.0/8")) (Text (lit "10.1.2.3")); network_operator NetworkContainedBy (Text (lit "10.0.0.0/8")) (Text (lit "10.0.0.0/8"))]
  = [Ok (Bool true); Ok (Bool false); Ok (Bool false); Err (lit "array operator requires array values"); Ok (Bool true); Ok (Bool false)]
  /\ to_tsvector_text (lit "The cat and the dog") = lit "'and':3 'cat':2 'dog':5 'the':1,4"
  /\ to_tsquery_text (lit "cat & !dog") = lit "'cat' & ! 'dog'".
Proof. vm_compute. repeat split. Qed.

(** * Specification *)

(** An element that is written without quotes and read as NULL. *)
Definition looks_null (e : option str) : bool := match e with Some t => eq_ignore_case t (lit "NULL") | None => false end.

(** The addresses of a network. *)
Definition in_network (n : Ipv4Network) (x : Z) : Prop := 0 <= x < 2 ^ 32 /\ Z.land x (network_mask (n_prefix n)) = network_start n.
Definition net_wf (n : Ipv4Network) : Prop := 0 <= n_addr n < 2 ^ 32 /\ 0 <= n_prefix n <= 32.

(** The bounds of a range, and a point, as numbers. *)
Definition numeric (s : str) : Prop := exists x, parse_f64 s = Some x /\ is_nan x = false.
Definition numeric_bound (b : option str) : Prop := match b with Some s => numeric s | None => True end.
Definition numeric_range (r : Range) : Prop := numeric_bound (r_lower r) /\ numeric_bound (r_upper r).

(** * Proofs *)

Lemma array_chars_plain t : forall cur w rest, contains_any [44; 123; 125; 34; 92] t = false ->
  array_chars cur false w false (t ++ rest) = array_chars (cur ++ t) false w false rest.
Proof.
  induction t as [|c t IH]; intros cur w rest H; cbn [app]; [by rewrite app_nil_r|]. cbn [contains_any existsb] in H.
  apply orb_false_elim in H as [Hc H]. rewrite !orb_false_r, !orb_false_iff, !Z.eqb_neq in Hc. destruct Hc as (N1 & N2 & N3 & N4 & N5).
  cbn [array_chars]. zfalse (c =? 34). zfalse (c =? 44). rewrite IH by done. by rewrite <- app_assoc.
Qed.

Lemma array_chars_quoted t : forall cur rest,
  array_chars cur true true false (flat_map (fun c => if (c =? 92) || (c =? 34) then [92; c] else [c]) t ++ 34 :: rest)
  = array_chars (cur ++ t) false true false rest.
Proof.
  induction t as [|c t IH]; intros cur rest; cbn [flat_map app]; [by rewrite app_nil_r|]. destruct ((c =? 92) || (c =? 34)) eqn:E.
  - cbn [app array_chars Z.eqb Pos.eqb]. rewrite IH. by rewrite <- app_assoc.
  - apply orb_false_elim in E as [E1 E2]. cbn [app array_chars]. rewrite E1, E2, IH. by rewrite <- app_assoc.
Qed.

Lemma array_chars_element e rest : looks_null e = false -> match rest with [] => True | c :: _ => c = 44 end ->
  array_chars [] false false false (element_text e ++ rest) = match rest with [] => [e] | _ :: rest => e :: array_chars [] false false false rest end.
Proof.
  intros N Hr. assert (forall t w, array_element t w = e -> array_chars t false w false rest = match rest with [] => [e] | _ :: rest => e :: array_chars [] false false false rest end) as Last.
  { intros t w E. destruct rest as [|c rest]; cbn [array_chars]; [by rewrite E|]. subst c. cbn [Z.eqb Pos.eqb]. by rewrite E. }
  destruct e as [t|]; cbn [element_text looks_null] in *.
  - destruct (contains_any _ t || _) eqn:E.
    + unfold quote_element. rewrite <- !app_assoc. cbn [app array_chars Z.eqb Pos.eqb]. rewrite array_chars_quoted. by apply Last.
    + apply orb_false_elim in E as [E _]. rewrite array_chars_plain by done. apply Last. unfold array_element. cbn [app negb andb]. by rewrite N.
  - rewrite array_chars_plain by done. by apply Last.
Qed.

Lemma array_chars_join es : es <> [] -> Forall (fun e => looks_null e = false) es -> array_chars [] false false false (join [44] (element_text <$> es)) = es.
Proof.
  intros N H. induction H as [|e es He H IH]; [done|]. destruct es as [|e' es].
  - cbn [fmap list_fmap join]. rewrite <- (app_nil_r (element_text e)). by rewrite array_chars_element.
  - change (join [44] (element_text <$> e :: e' :: es)) with (element_text e ++ 44 :: join [44] (element_text <$> e' :: es)).
    rewrite array_chars_element by done. by rewrite IH.
Qed.

Lemma element_text_nonempty e : element_text e <> [].
Proof. destruct e as [[|c t]|]; [done| |done]. cbn [element_text]. destruct (_ || _); done. Qed.

Lemma join_length_pos es : es <> [] -> 0 < zlen (join [44] (element_text <$> es)).
Proof.
  destruct es as [|e es]; [done|]. intros _. pose proof (element_text_nonempty e) as N. cbn [fmap list_fmap].
  destruct (element_text e) as [|c t] eqn:E; [done|]. destruct (element_text <$> es); cbn [join app]; rewrite zlen_cons;
    match goal with |- _ < 1 + zlen ?x => pose proof (zlen_nonneg x) end; lia.
Qed.

(** ** Networks *)

Lemma mask_bits p i : 0 <= p <= 32 -> 0 <= i -> Z.testbit (network_mask p) i = (32 - p <=? i) && (i <? 32).
Proof.
  intros Hp Hi. unfold network_mask, wrap. destruct (p =? 0) eqn:E; zb.
  - subst. rewrite Z.testbit_0_l. symmetry. apply andb_false_iff. rewrite Z.leb_gt, Z.ltb_ge. lia.
  - destruct (i <? 32) eqn:Ei; zb.
    + rewrite Z.mod_pow2_bits_low, Z.shiftl_spec by lia. rewrite andb_true_r. destruct (32 - p <=? i) eqn:El; zb.
      * change (2 ^ 32 - 1) with (Z.ones 32). apply Z.ones_spec_low. lia.
      * apply Z.testbit_neg_r. lia.
    + rewrite Z.mod_pow2_bits_high by lia. by rewrite andb_false_r.
Qed.

Lemma in_network_bits n x : net_wf n -> 0 <= x < 2 ^ 32 ->
  in_network n x <-> forall i, 32 - n_prefix n <= i < 32 -> Z.testbit x i = Z.testbit (n_addr n) i.
Proof.
  intros [Ha Hp] Hx. unfold in_network, network_start. split.
  - intros [_ E] i Hi. apply (f_equal (fun z => Z.testbit z i)) in E. rewrite !Z.land_spec, !mask_bits in E by lia.
    replace ((32 - n_prefix n <=? i) && (i <? 32)) with true in E by (symmetry; apply andb_true_iff; rewrite Z.leb_le, Z.ltb_lt; lia). by rewrite !andb_true_r in E.
  - intros H. split; [done|]. apply Z.bits_inj'. intros i Hi. rewrite !Z.land_spec, !mask_bits by lia.
    destruct ((32 - n_prefix n <=? i) && (i <? 32)) eqn:E; [|by rewrite !andb_false_r]. zb. rewrite H by lia. done.
Qed.

Lemma network_contains_bits p c : net_wf p -> net_wf c ->
  network_contains p c = true <-> n_prefix p <= n_prefix c /\ in_network p (n_addr c).
Proof. intros Hp [Hc _]. unfold network_contains, in_network. rewrite andb_true_iff, Z.leb_le, Z.eqb_eq. tauto. Qed.

(** Containment of networks is inclusion of their addresses. *)
Lemma network_contains_exact p c : net_wf p -> net_wf c ->
  network_contains p c = true <-> forall x, in_network c x -> in_network p x.
Proof.
  intros Hp Hc. pose proof Hp as [Hp1 Hp2]. pose proof Hc as [Hc1 Hc2]. rewrite network_contains_bits by done. split.
  - intros [Hl Ha] x Hx. pose proof Hx as [Hr _]. apply in_network_bits; [done|done|]. intros i Hi.
    rewrite (proj1 (in_network_bits c x Hc Hr) Hx i) by lia. by apply (proj1 (in_network_bits p (n_addr c) Hp Hc1) Ha).
  - intros H. assert (in_network p (n_addr c)) as Ha by (apply H, in_network_bits; done). split; [|done].
    destruct (decide (n_prefix p <= n_prefix c)); [done|exfalso]. set (k := 32 - n_prefix p). set (x := Z.lxor (n_addr c) (2 ^ k)).
    assert (0 <= x < 2 ^ 32) as Hx.
    { assert (x = x mod 2 ^ 32) as ->; [|apply Z.mod_pos_bound; lia]. symmetry. apply Z.bits_inj'. intros i Hi. destruct (decide (i < 32)).
      - by rewrite Z.mod_pow2_bits_low.
      - rewrite Z.mod_pow2_bits_high by lia. unfold x. rewrite Z.lxor_spec, Z.pow2_bits_false by lia.
        rewrite (Z.bits_above_log2 (n_addr c)); [done|lia|]. destruct (decide (n_addr c = 0)) as [->|]; [change (Z.log2 0) with 0; lia|].
        assert (Z.log2 (n_addr c) < 32) by (apply Z.log2_lt_pow2; lia). lia. }
    assert (in_network c x) as Hin.
    { apply in_network_bits; [done|done|]. intros i Hi. unfold x. rewrite Z.lxor_spec, Z.pow2_bits_false by lia. apply xorb_false_r. }
    apply H in Hin. pose proof (proj1 (in_network_bits p x Hp Hx) Hin k ltac:(lia)) as E1.
    pose proof (proj1 (in_network_bits p (n_addr c) Hp Hc1) Ha k ltac:(lia)) as E2. unfold x in E1.
    rewrite Z.lxor_spec, Z.pow2_bits_true in E1 by lia. rewrite E2 in E1. by destruct (Z.testbit (n_addr p) k).
Qed.

(** ** Ranges *)

(** On numbers the order of bounds is that of the doubles. *)
Definition pos_of (s : str) : Z := default 0 (f64_pos <$> parse_f64 s).
Lemma cmp_bound_pos a b : numeric a -> numeric b -> cmp_bound a b = (pos_of a ?= pos_of b).
Proof. intros (x & Ex & Nx) (y & Ey & Ny). unfold cmp_bound, f64_partial_cmp, pos_of. by rewrite Ex, Ey, Nx, Ny. Qed.

(** Replaces the comparisons of bounds by comparisons of numbers. *)
Ltac by_pos :=
  rewrite ?cmp_bound_pos by assumption;
  repeat match goal with |- context [?x ?= ?y] => destruct (Z.compare_spec x y) end;
  cbn [is_lt is_gt is_eq negb andb orb]; try done; try lia.

Lemma above_covers a ai b bi p : numeric_bound a -> numeric_bound b -> numeric p ->
  lower_covers a ai b = true -> above b bi p = true -> above a ai p = true.
Proof. destruct a as [a|], b as [b|]; cbn; try done. intros Ha Hb Hp. by_pos; destruct ai, bi; cbn; try done; lia. Qed.
Lemma below_covers a ai b bi p : numeric_bound a -> numeric_bound b -> numeric p ->
  upper_covers a ai b = true -> below b bi p = true -> below a ai p = true.
Proof. destruct a as [a|], b as [b|]; cbn; try done. intros Ha Hb Hp. by_pos; destruct ai, bi; cbn; try done; lia. Qed.
Lemma point_edges l li u ui p : numeric_bound l -> numeric_bound u -> numeric p -> above l li p = true -> below u ui p = true -> edge_le l li u ui = true.
Proof. destruct l as [l|], u as [u|]; cbn; try done. intros Hl Hu Hp. by_pos; destruct li, ui; cbn; try done; lia. Qed.

(** A range that contains another contains its points, and ranges that share a
    point overlap. *)
Lemma ranges_sound r s p : numeric_range r -> numeric_range s -> numeric p -> contains_point s p = true ->
  (contains_range r s = true -> contains_point r p = true) /\ (contains_point r p = true -> overlaps r s = true).
Proof.
  intros [Hr1 Hr2] [Hs1 Hs2] Hp. unfold contains_point, contains_range, overlaps. destruct (r_empty s); [done|]. destruct (r_empty r); [done|]. cbn [orb].
  rewrite !andb_true_iff. intros [Ps1 Ps2]. split.
  - intros [C1 C2]. split; [by apply (above_covers _ _ (r_lower s) (r_lower_inc s))|by apply (below_covers _ _ (r_upper s) (r_upper_inc s))].
  - intros [P1 P2]. split; by apply (point_edges _ _ _ _ p).
Qed.

(** ** Theorems *)

(** Array literals.  What is written for a list of elements is read back as that
    list, NULLs, quotes and empty strings included, unless an element spells the
    word NULL. *)
Theorem array_literal_roundtrip es : Forall (fun e => looks_null e = false) es -> parse_array_text (array_text_from_elements es) = Some es.
Proof.
  intros H. unfold parse_array_text, array_text_from_elements. set (body := join [44] (element_text <$> es)).
  assert (ends_with_byte ([123] ++ body ++ [125]) 125 = true) as ->. { apply bool_decide_eq_true. by rewrite app_assoc, last_snoc. }
  rewrite bool_decide_eq_true_2 by done. cbn [andb negb]. rewrite !zlen_app. change (zlen [123]) with 1. change (zlen [125]) with 1.
  destruct es as [|e es]; [done|]. pose proof (join_length_pos (e :: es) ltac:(done)). fold body in H0. zfalse (1 + (zlen body + 1) =? 2).
  rewrite (zslice_app_mid [123] body [125]); [|done|change (zlen [123]) with 1; lia]. unfold body. by rewrite array_chars_join.
Qed.

Lemma array_literal_roundtrip_witness : parse_array_text (array_text_from_elements [Some (q "a,'b"); None; Some []]) = Some [Some (q "a,'b"); None; Some []].
Proof. apply array_literal_roundtrip. repeat constructor. Defined.

(** The word NULL is not quoted when it is written, so a string that spells it comes
    back as NULL; a range with an open bound does not contain itself. *)
Lemma container_anomalies :
  parse_array_text (array_text_from_elements [Some (lit "null")]) = Some [None]
  /\ array_operator ArrayContains (Text (lit "(1,5)")) (Text (lit "(1,5)")) = Ok (Bool false).
Proof. vm_compute. split; reflexivity. Qed.
