(* ===== verification/Ast.v ===== *)
(** Expressions and queries of crates/sql/src/ast.rs.  [Expr] is over the type of
    its subqueries, which [Select] closes; the array and network operators are
    grouped.  Equality of expressions is the derived [PartialEq], in which doubles
    compare as numbers. *)

From S2P Require Import Prelude Utf8 Numeric Types Float Index Wire Containers LockStmt.

#[local] Open Scope Z_scope.

#[local] Set Warnings "-register-all".

(** * Expressions *)

Inductive UnaryOp := Neg | Not.
Inductive Quantifier := Any | SomeOf | All.
Inductive BinaryOp :=
| Add | Sub | Mul | Div | Mod | Concat | JsonGet | JsonGetText
| ArrayOperator (op : ArrayOp) | NetworkOperator (op : NetworkOp) | TextSearchMatch
| OpEq | NotEq | OpLt | LtEq | OpGt | GtEq | And | Or
| RegexMatch (ci : bool) | RegexNotMatch (ci : bool).

#[export] Instance unary_eq_dec : EqDecision UnaryOp. Proof. solve_decision. Defined.
#[export] Instance quantifier_eq_dec : EqDecision Quantifier. Proof. solve_decision. Defined.
#[export] Instance array_op_eq_dec : EqDecision ArrayOp. Proof. solve_decision. Defined.
#[export] Instance network_op_eq_dec : EqDecision NetworkOp. Proof. solve_decision. Defined.
#[export] Instance binary_eq_dec : EqDecision BinaryOp. Proof. solve_decision. Defined.

Record OrderByItem (E : Type) := mk_order { o_expr : E; o_asc : bool }.
Arguments mk_order {E} o_expr o_asc.
Arguments o_expr {E} _.
Arguments o_asc {E} _.
Record WindowSpec (E : Type) := mk_window { partition_by : list E; w_order_by : list (OrderByItem E) }.
Arguments mk_window {E} partition_by w_order_by.
Arguments partition_by {E} _.
Arguments w_order_by {E} _.

Inductive Expr (Q : Type) :=
| EInt (i : Z)
| EFloat (f : Z)
| EStr (s : str)
| EBool (b : bool)
| ENull
| EParam (n : Z)
| EColumn (name : str)
| EQualified (qualifier name : str)
| EUnary (op : UnaryOp) (e : Expr Q)
| EBinary (op : BinaryOp) (l r : Expr Q)
| EQuantified (l : Expr Q) (op : BinaryOp) (k : Quantifier) (list : list (Expr Q))
| ERow (items : list (Expr Q))
| EArray (items : list (Expr Q))
| EIsNull (e : Expr Q) (negated : bool)
| EIsDistinct (l r : Expr Q) (negated : bool)
| ELike (e pattern : Expr Q) (negated ci : bool)
| EInList (e : Expr Q) (list : list (Expr Q)) (negated : bool)
| EBetween (e low high : Expr Q) (negated : bool)
| ECase (operand : option (Expr Q)) (whens : list (Expr Q * Expr Q)) (else_expr : option (Expr Q))
| ECast (e : Expr Q) (target : DataType)
| EScalarSubquery (q : Q)
| EExists (q : Q)
| EInSubquery (e : Expr Q) (q : Q) (negated : bool)
| EFunction (name : str) (args : list (Expr Q)) (star distinct : bool) (filter : option (Expr Q)) (over : option (WindowSpec (Expr Q))).

Arguments EInt {Q} i.
Arguments EFloat {Q} f.
Arguments EStr {Q} s.
Arguments EBool {Q} b.
Arguments ENull {Q}.
Arguments EParam {Q} n.
Arguments EColumn {Q} name.
Arguments EQualified {Q} qualifier name.
Arguments EUnary {Q} op e.
Arguments EBinary {Q} op l r.
Arguments EQuantified {Q} l op k list.
Arguments ERow {Q} items.
Arguments EArray {Q} items.
Arguments EIsNull {Q} e negated.
Arguments EIsDistinct {Q} l r negated.
Arguments ELike {Q} e pattern negated ci.
Arguments EInList {Q} e list negated.
Arguments EBetween {Q} e low high negated.
Arguments ECase {Q} operand whens else_expr.
Arguments ECast {Q} e target.
Arguments EScalarSubquery {Q} q.
Arguments EExists {Q} q.
Arguments EInSubquery {Q} e q negated.
Arguments EFunction {Q} name args star distinct filter over.

(** * Queries *)

Inductive SetOperator := Union | Intersect | Except.
Inductive JoinKind := Inner | LeftJoin | RightJoin | FullJoin | Cross.

Inductive SelectItem (E : Type) := Wildcard | SelectExpr (e : E) (alias : option str).
Arguments Wildcard {E}.
Arguments SelectExpr {E} e alias.
(** Queries and the statements that hold queries; [O] is every other statement,
    which a data-modifying CTE does not have. *)
Inductive Select (O : Type) :=
| mk_select (ctes : list (Cte O)) (distinct : bool) (distinct_on : list (Expr (Select O))) (projection : list (SelectItem (Expr (Select O))))
    (from : option (FromClause O)) (filter : option (Expr (Select O))) (group_by : list (Expr (Select O)))
    (grouping_sets : list (list (Expr (Select O)))) (having : option (Expr (Select O))) (order_by : list (OrderByItem (Expr (Select O))))
    (limit offset : option (Expr (Select O))) (locking : list RowLockingClause) (set_ops : list (SetOperation O))
with Cte (O : Type) :=
| mk_cte (name : str) (columns : list str) (select : Select O) (dml : option (Statement O)) (recursive : bool)
with TableRef (O : Type) :=
| mk_tref (schema : option str) (name : str) (args : list (Expr (Select O))) (alias : option str) (subquery : option (Select O))
    (lateral only : bool) (column_aliases : list str) (with_ordinality : bool)
with Join (O : Type) :=
| mk_join (kind : JoinKind) (table : TableRef O) (on : option (Expr (Select O)))
with FromClause (O : Type) :=
| mk_from (base : TableRef O) (joins : list (Join O))
with SetOperation (O : Type) :=
| mk_set_op (op : SetOperator) (all : bool) (select : Select O)
with OnConflict (O : Type) :=
| DoNothing (target : list str)
| DoUpdate (target : list str) (assignments : list (str * Expr (Select O))) (filter : option (Expr (Select O)))
with Insert (O : Type) :=
| mk_insert (table : str) (columns : option (list str)) (default_values overriding_system_value : bool) (rows : list (list (Expr (Select O))))
    (select : option (Select O)) (on_conflict : option (OnConflict O)) (returning : list (SelectItem (Expr (Select O))))
with Update (O : Type) :=
| mk_update (table : str) (assignments : list (str * Expr (Select O))) (from : option (FromClause O)) (filter : option (Expr (Select O)))
    (returning : list (SelectItem (Expr (Select O))))
with Delete (O : Type) :=
| mk_delete (table : str) (using_ : option (FromClause O)) (filter : option (Expr (Select O))) (returning : list (SelectItem (Expr (Select O))))
with Statement (O : Type) :=
| SInsert (i : Insert O)
| SSelect (s : Select O)
| SUpdate (u : Update O)
| SDelete (d : Delete O)
| SExplain (analyze : bool) (s : Statement O)
| SOther (o : O).
Arguments mk_select {O}.
Arguments mk_cte {O}.
Arguments mk_tref {O}.
Arguments mk_join {O}.
Arguments mk_from {O}.
Arguments mk_set_op {O}.
Arguments DoNothing {O}.
Arguments DoUpdate {O}.
Arguments mk_insert {O}.
Arguments mk_update {O}.
Arguments mk_delete {O}.
Arguments SInsert {O}.
Arguments SSelect {O}.
Arguments SUpdate {O}.
Arguments SDelete {O}.
Arguments SExplain {O}.
Arguments SOther {O}.

(** [Select::default()] *)
Definition select_default {O} : Select O := mk_select [] false [] [] None None [] [] None [] None None [] [].

(** * Equality *)

Section equality.
Context {A : Type} (eqb : A -> A -> bool).

Fixpoint list_eqb (l1 l2 : list A) : bool :=
  match l1, l2 with
  | [], [] => true
  | x :: l1, y :: l2 => eqb x y && list_eqb l1 l2
  | _, _ => false
  end.
Definition option_eqb (o1 o2 : option A) : bool :=
  match o1, o2 with Some x, Some y => eqb x y | None, None => true | _, _ => false end.
End equality.
Definition pair_eqb {A B} (eqa : A -> A -> bool) (eqb : B -> B -> bool) (p q : A * B) : bool :=
  match p, q with (a1, b1), (a2, b2) => eqa a1 a2 && eqb b1 b2 end.
Definition order_eqb {E} (eq : E -> E -> bool) (a b : OrderByItem E) : bool :=
  match a, b with mk_order e1 a1, mk_order e2 a2 => eq e1 e2 && Bool.eqb a1 a2 end.
Definition window_eqb {E} (eq : E -> E -> bool) (a b : WindowSpec E) : bool :=
  match a, b with mk_window p1 o1, mk_window p2 o2 => list_eqb eq p1 p2 && list_eqb (order_eqb eq) o1 o2 end.
Definition dec_eqb {A} `{EqDecision A} (x y : A) : bool := bool_decide (x = y).
Definition f64_eqb (a b : Z) : bool := match f64_partial_cmp a b with Some Eq => true | _ => false end.

Fixpoint expr_eqb {Q} (q_eqb : Q -> Q -> bool) (a b : Expr Q) {struct a} : bool :=
  let eq := expr_eqb q_eqb in
  match a, b with
  | EInt x, EInt y => x =? y
  | EFloat x, EFloat y => f64_eqb x y
  | EStr x, EStr y => str_eqb x y
  | EBool x, EBool y => Bool.eqb x y
  | ENull, ENull => true
  | EParam x, EParam y => x =? y
  | EColumn x, EColumn y => str_eqb x y
  | EQualified q1 n1, EQualified q2 n2 => str_eqb q1 q2 && str_eqb n1 n2
  | EUnary o1 e1, EUnary o2 e2 => dec_eqb o1 o2 && eq e1 e2
  | EBinary o1 l1 r1, EBinary o2 l2 r2 => dec_eqb o1 o2 && eq l1 l2 && eq r1 r2
  | EQuantified l1 o1 k1 es1, EQuantified l2 o2 k2 es2 => eq l1 l2 && dec_eqb o1 o2 && dec_eqb k1 k2 && list_eqb eq es1 es2
  | ERow es1, ERow es2 | EArray es1, EArray es2 => list_eqb eq es1 es2
  | EIsNull e1 n1, EIsNull e2 n2 => eq e1 e2 && Bool.eqb n1 n2
  | EIsDistinct l1 r1 n1, EIsDistinct l2 r2 n2 => eq l1 l2 && eq r1 r2 && Bool.eqb n1 n2
  | ELike e1 p1 n1 c1, ELike e2 p2 n2 c2 => eq e1 e2 && eq p1 p2 && Bool.eqb n1 n2 && Bool.eqb c1 c2
  | EInList e1 es1 n1, EInList e2 es2 n2 => eq e1 e2 && list_eqb eq es1 es2 && Bool.eqb n1 n2
  | EBetween e1 l1 h1 n1, EBetween e2 l2 h2 n2 => eq e1 e2 && eq l1 l2 && eq h1 h2 && Bool.eqb n1 n2
  | ECase o1 w1 e1, ECase o2 w2 e2 =>
      option_eqb eq o1 o2
      && list_eqb (pair_eqb eq eq) w1 w2
      && option_eqb eq e1 e2
  | ECast e1 t1, ECast e2 t2 => eq e1 e2 && dec_eqb t1 t2
  | EScalarSubquery q1, EScalarSubquery q2 | EExists q1, EExists q2 => q_eqb q1 q2
  | EInSubquery e1 q1 n1, EInSubquery e2 q2 n2 => eq e1 e2 && q_eqb q1 q2 && Bool.eqb n1 n2
  | EFunction f1 a1 s1 d1 w1 o1, EFunction f2 a2 s2 d2 w2 o2 =>
      str_eqb f1 f2 && list_eqb eq a1 a2 && Bool.eqb s1 s2 && Bool.eqb d1 d2 && option_eqb eq w1 w2 && option_eqb (window_eqb eq) o1 o2
  | _, _ => false
  end.

(** Whether [p] holds of every node of an expression (subqueries aside). *)
Fixpoint expr_forall {Q} (p : Expr Q -> bool) (e : Expr Q) : bool :=
  let all := expr_forall p in
  p e &&
  match e with
  | EUnary _ e | EIsNull e _ | ECast e _ | EInSubquery e _ _ => all e
  | EBinary _ l r | EIsDistinct l r _ | ELike l r _ _ => all l && all r
  | EQuantified e _ _ es | EInList e es _ => all e && forallb all es
  | ERow es | EArray es => forallb all es
  | EBetween e l h _ => all e && all l && all h
  | ECase o ws el =>
      match o with Some o => all o | None => true end
      && forallb (fun w => match w with (c, r) => all c && all r end) ws
      && match el with Some e => all e | None => true end
  | EFunction _ args _ _ filter over =>
      forallb all args
      && match filter with Some e => all e | None => true end
      && match over with
         | Some (mk_window ps os) => forallb all ps && forallb (fun o => match o with mk_order e _ => all e end) os
         | None => true
         end
  | _ => true
  end.

(** * Induction *)

Section expr_induction.
Context {Q : Type} (P : Expr Q -> Prop).

Definition opt_all {A} (R : A -> Prop) (o : option A) : Prop := match o with Some x => R x | None => True end.
Definition window_all (R : Expr Q -> Prop) (w : WindowSpec (Expr Q)) : Prop :=
  Forall R (partition_by w) /\ Forall (fun o => R (o_expr o)) (w_order_by w).

Context (Hint : forall i, P (EInt i)) (Hfloat : forall f, P (EFloat f)) (Hstr : forall s, P (EStr s)) (Hbool : forall b, P (EBool b))
  (Hnull : P ENull) (Hparam : forall n, P (EParam n)) (Hcol : forall n, P (EColumn n)) (Hqual : forall t n, P (EQualified t n))
  (Hun : forall op e, P e -> P (EUnary op e))
  (Hbin : forall op l r, P l -> P r -> P (EBinary op l r))
  (Hquant : forall l op k es, P l -> Forall P es -> P (EQuantified l op k es))
  (Hrow : forall es, Forall P es -> P (ERow es)) (Harr : forall es, Forall P es -> P (EArray es))
  (Hisn : forall e n, P e -> P (EIsNull e n))
  (Hdist : forall l r n, P l -> P r -> P (EIsDistinct l r n))
  (Hlike : forall e p n c, P e -> P p -> P (ELike e p n c))
  (Hin : forall e es n, P e -> Forall P es -> P (EInList e es n))
  (Hbetw : forall e l h n, P e -> P l -> P h -> P (EBetween e l h n))
  (Hcase : forall o ws el, opt_all P o -> Forall (fun w => P w.1 /\ P w.2) ws -> opt_all P el -> P (ECase o ws el))
  (Hcast : forall e t, P e -> P (ECast e t))
  (Hsub : forall s, P (EScalarSubquery s)) (Hex : forall s, P (EExists s)) (Hins : forall e s n, P e -> P (EInSubquery e s n))
  (Hfun : forall f args st d fl ov, Forall P args -> opt_all P fl -> opt_all (window_all P) ov -> P (EFunction f args st d fl ov)).

Fixpoint Expr_induct (e : Expr Q) : P e :=
  let all := fix all (l : list (Expr Q)) : Forall P l :=
    match l with [] => @List.Forall_nil _ P | e :: l => @List.Forall_cons _ P e l (Expr_induct e) (all l) end in
  let opt (o : option (Expr Q)) : opt_all P o := match o with Some e => Expr_induct e | None => I end in
  match e with
  | EInt i => Hint i | EFloat f => Hfloat f | EStr s => Hstr s | EBool b => Hbool b | ENull => Hnull | EParam n => Hparam n
  | EColumn n => Hcol n | EQualified t n => Hqual t n
  | EUnary op e => Hun op e (Expr_induct e)
  | EBinary op l r => Hbin op l r (Expr_induct l) (Expr_induct r)
  | EQuantified l op k es => Hquant l op k es (Expr_induct l) (all es)
  | ERow es => Hrow es (all es) | EArray es => Harr es (all es)
  | EIsNull e n => Hisn e n (Expr_induct e)
  | EIsDistinct l r n => Hdist l r n (Expr_induct l) (Expr_induct r)
  | ELike e p n c => Hlike e p n c (Expr_induct e) (Expr_induct p)
  | EInList e es n => Hin e es n (Expr_induct e) (all es)
  | EBetween e l h n => Hbetw e l h n (Expr_induct e) (Expr_induct l) (Expr_induct h)
  | ECase o ws el =>
      Hcase o ws el (opt o)
        ((fix arms (ws : list (Expr Q * Expr Q)) : Forall (fun w => P w.1 /\ P w.2) ws :=
            match ws with
            | [] => @List.Forall_nil _ _
            | w :: ws => @List.Forall_cons _ _ w ws (match w return P w.1 /\ P w.2 with (c, r) => conj (Expr_induct c) (Expr_induct r) end) (arms ws)
            end) ws) (opt el)
  | ECast e t => Hcast e t (Expr_induct e)
  | EScalarSubquery s => Hsub s | EExists s => Hex s
  | EInSubquery e s n => Hins e s n (Expr_induct e)
  | EFunction f args st d fl ov =>
      Hfun f args st d fl ov (all args) (opt fl)
        (match ov with
         | Some (mk_window p o) =>
             conj (all p)
               ((fix keys (o : list (OrderByItem (Expr Q))) : Forall (fun i => P (o_expr i)) o :=
                   match o with
                   | [] => @List.Forall_nil _ _
                   | i :: o => @List.Forall_cons _ _ i o (match i return P (o_expr i) with mk_order e _ => Expr_induct e end) (keys o)
                   end) o)
         | None => I
         end)
  end.
End expr_induction.

(** * Equality is sound *)

(** Doubles 0.0 and -0.0 are equal but not the same: expressions without such
    literals that compare equal are the same. *)
Definition f64_lit {Q} (e : Expr Q) : bool := match e with EFloat f => (0 <=? f) && (f <? 2 ^ 64) | _ => true end.
Definition nonzero_lit {Q} (e : Expr Q) : bool := f64_lit e && match e with EFloat f => negb (f64_is_zero f) | _ => true end.

Lemma dec_eqb_eq {A} `{EqDecision A} (x y : A) : dec_eqb x y = true -> x = y.
Proof. apply bool_decide_eq_true. Qed.
Lemma bool_eqb_eq a b : Bool.eqb a b = true -> a = b.
Proof. by destruct a, b. Qed.
Lemma f64_eqb_sym a b : f64_eqb a b = f64_eqb b a.
Proof. unfold f64_eqb, f64_partial_cmp. rewrite orb_comm. destruct (_ || _); [done|]. rewrite Z.compare_antisym. by destruct (_ ?= _). Qed.
Lemma f64_eqb_eq a b : in_u 64 a -> in_u 64 b -> f64_is_zero a = false -> f64_eqb a b = true -> a = b.
Proof.
  intros Ua Ub Hz. unfold f64_eqb, f64_partial_cmp. destruct (_ || _); [done|]. destruct (_ ?= _) eqn:E; try done. intros _.
  apply Z.compare_eq in E. destruct (f64_pos_eq a b Ua Ub E) as [->|[Za _]]; [done|]. by rewrite Hz in Za.
Qed.

Section eqb_sound.
Context {Q : Type} (q_eqb : Q -> Q -> bool) (Hq : forall a b, q_eqb a b = true -> a = b).
Context (pa pb : Expr Q -> bool) (Hf : forall f g, pa (EFloat f) = true -> pb (EFloat g) = true -> f64_eqb f g = true -> f = g).
Abbreviation nz := (expr_forall pa).
Abbreviation rg := (expr_forall pb).

Definition eqb_ok (a : Expr Q) : Prop := nz a = true -> forall b, rg b = true -> expr_eqb q_eqb a b = true -> a = b.

Lemma eqb_list {A} (f : A -> A -> bool) (p r : A -> bool) l1 l2 : Forall (fun x => p x = true -> forall y, r y = true -> f x y = true -> x = y) l1 ->
  forallb p l1 = true -> forallb r l2 = true -> list_eqb f l1 l2 = true -> l1 = l2.
Proof.
  intros H. revert l2. induction H as [|x l1 Hx _ IH]; intros [|y l2] Hp Hr He; try done. cbn in Hp, Hr, He.
  apply andb_prop in Hp as [Hp1 Hp2]. apply andb_prop in Hr as [Hr1 Hr2]. apply andb_prop in He as [He1 He2]. f_equal; auto.
Qed.

Lemma eqb_option o1 o2 : opt_all eqb_ok o1 -> match o1 with Some e => nz e | None => true end = true ->
  match o2 with Some e => rg e | None => true end = true -> option_eqb (expr_eqb q_eqb) o1 o2 = true -> o1 = o2.
Proof. destruct o1, o2; cbn; try done. intros H Hp Hr He. f_equal. by apply H. Qed.

Lemma eqb_arms ws1 ws2 : Forall (fun w => eqb_ok w.1 /\ eqb_ok w.2) ws1 ->
  forallb (fun w => match w with (c, r) => nz c && nz r end) ws1 = true -> forallb (fun w => match w with (c, r) => rg c && rg r end) ws2 = true ->
  list_eqb (pair_eqb (expr_eqb q_eqb) (expr_eqb q_eqb)) ws1 ws2 = true -> ws1 = ws2.
Proof.
  intros H. apply eqb_list. eapply Forall_impl; [exact H|]. intros [c r] [Hc Hr] [Hp1 Hp2]%andb_prop [c' r'] [Hr1 Hr2]%andb_prop [He1 He2]%andb_prop.
  cbn in Hc, Hr. f_equal; auto.
Qed.

Lemma eqb_window w1 w2 : window_all eqb_ok w1 ->
  match w1 with mk_window ps os => forallb nz ps && forallb (fun o => match o with mk_order e _ => nz e end) os end = true ->
  match w2 with mk_window ps os => forallb rg ps && forallb (fun o => match o with mk_order e _ => rg e end) os end = true ->
  window_eqb (expr_eqb q_eqb) w1 w2 = true -> w1 = w2.
Proof.
  destruct w1 as [p1 o1], w2 as [p2 o2]. intros [Hp Ho] [A1 A2]%andb_prop [B1 B2]%andb_prop [C1 C2]%andb_prop. cbn in Hp, Ho. f_equal.
  - eapply eqb_list; [exact Hp|done..].
  - eapply eqb_list; [|exact A2|exact B2|exact C2]. eapply Forall_impl; [exact Ho|].
    intros [e a] He P [e' a'] R [E1 E2]%andb_prop. cbn in He. apply bool_eqb_eq in E2 as ->. f_equal. by apply He.
Qed.

Ltac split_andb := repeat match goal with H : (_ && _)%bool = true |- _ => apply andb_prop in H as [? ?] end.

Lemma expr_eqb_eq a : eqb_ok a.
Proof.
  induction a using Expr_induct; intros Hp y Hr He; destruct y; try discriminate He; cbn in Hp, Hr, He; split_andb;
    repeat match goal with
    | H : dec_eqb _ _ = true |- _ => apply dec_eqb_eq in H; subst
    | H : Bool.eqb _ _ = true |- _ => apply bool_eqb_eq in H; subst
    | H : str_eqb _ _ = true |- _ => apply bool_decide_eq_true in H; subst
    | H : (_ =? _) = true |- _ => apply Z.eqb_eq in H; subst
    | H : q_eqb _ _ = true |- _ => apply Hq in H; subst
    | IH : eqb_ok ?a, H : expr_eqb _ ?a _ = true |- _ => apply IH in H; [subst|done..]
    | H : list_eqb (expr_eqb q_eqb) _ _ = true |- _ => apply (eqb_list _ nz rg) in H; [subst|done..]
    | H : option_eqb (expr_eqb q_eqb) _ _ = true |- _ => apply eqb_option in H; [subst|done..]
    | H : list_eqb (pair_eqb _ _) _ _ = true |- _ => apply eqb_arms in H; [subst|done..]
    end; try done.
  - f_equal. by apply Hf.
  - f_equal. destruct ov, over; try done. f_equal. by apply eqb_window.
Qed.
End eqb_sound.

Lemma nonzero_lit_eq {Q} f g : nonzero_lit (EFloat f : Expr Q) = true -> f64_lit (EFloat g : Expr Q) = true -> f64_eqb f g = true -> f = g.
Proof. cbn. intros [H1 H2]%andb_prop H3. cbn in H1. zb. apply f64_eqb_eq; unfold in_u; done. Qed.

(** An expression that compares equal to one without zero literals is that one. *)
Lemma expr_eqb_known {Q} (q_eqb : Q -> Q -> bool) (c known : Expr Q) : (forall a b, q_eqb a b = true -> a = b) ->
  expr_forall nonzero_lit known = true -> expr_forall f64_lit c = true -> expr_eqb q_eqb c known = true -> c = known.
Proof.
  intros Hq Hk Hc He. eapply (expr_eqb_eq q_eqb Hq f64_lit nonzero_lit); [|done..].
  intros f g Hf Hg E. symmetry. rewrite f64_eqb_sym in E. exact (nonzero_lit_eq (Q := Q) g f Hg Hf E).
Qed.
