(* ===== verification/Eval.v ===== *)
(** Expression evaluation of crates/engine/src/executor.rs: column resolution,
    operators, comparison, casts, [eval_expr] and [infer_expr_type].  Unicode case
    folding and the scalar function library are arguments of the evaluator. *)

From S2P Require Import Prelude Utf8 Numeric Types Float Wire Index FloatOps Datetime Json Containers Pattern LockStmt Ast.

#[local] Open Scope Z_scope.

(** * Columns *)

(** [str::rsplit_once] *)
Definition rsplit_once (c : Z) (s : str) : option (str * str) :=
  match split_once c (reverse s) with Some (b, a) => Some (reverse a, reverse b) | None => None end.

Definition bare (c : str) : bool := match rsplit_once 46 c with Some _ => false | None => true end.

(** Whether the stored name [c] answers the reference. *)
Definition column_matches (col_names : list str) (qualifier : option str) (name c : str) : bool :=
  let has_exact_qualifier :=
    match qualifier with
    | Some q => existsb (fun c => match rsplit_once 46 c with Some (cq, _) => str_eqb cq q | None => false end) col_names
    | None => false
    end in
  let has_bare_match :=
    match qualifier with Some _ => false | None => existsb (fun c => bare c && str_eqb c name) col_names end in
  let '(cq, cn) := match rsplit_once 46 c with Some (q, n) => (Some q, n) | None => (None, c) end in
  match qualifier with
  | Some q => if has_exact_qualifier then bool_decide (cq = Some q) && str_eqb cn name else bool_decide (cq = None) && str_eqb cn name
  | None => if has_bare_match then bool_decide (cq = None) && str_eqb cn name else str_eqb cn name
  end.

Fixpoint resolve_loop (hit : str -> bool) (i : nat) (found : option nat) (ambiguous : bool) (names : list str) : option nat * bool :=
  match names with
  | [] => (found, ambiguous)
  | c :: names =>
      if hit c then resolve_loop hit (S i) (Some i) (ambiguous || bool_decide (is_Some found)) names
      else resolve_loop hit (S i) found ambiguous names
  end.

(** [resolve_column] *)
Definition resolve_column (col_names : list str) (qualifier : option str) (name : str) : result str nat :=
  match resolve_loop (column_matches col_names qualifier name) 0 None false col_names with
  | (Some _, true) => Err (q "column reference '" ++ name ++ q "' is ambiguous")
  | (Some i, false) => Ok i
  | (None, _) => Err (q "column '" ++ name ++ q "' does not exist")
  end.

(** * Comparison *)

(** [num_to_f64] *)
Definition num_to_f64 (v : Value) : Z :=
  match v with Int i => i64_as_f64 i | Float f => f | Num n => to_f64 n | _ => F64_NAN end.

(** Number against text: as numbers when the text parses, as text otherwise. *)
Definition cmp_num_text (n : Value) (s : str) : option comparison :=
  match parse_f64 s with
  | Some b => f64_partial_cmp (num_to_f64 n) b
  | None => t ← to_text n; Some (str_cmp t s)
  end.
Definition cmp_text_num (s : str) (n : Value) : option comparison :=
  match parse_f64 s with
  | Some a => f64_partial_cmp a (num_to_f64 n)
  | None => t ← to_text n; Some (str_cmp s t)
  end.

(** [compare_values] *)
Definition compare_values (l r : Value) : option comparison :=
  match l, r with
  | Null, Null => Some Eq
  | Null, _ => Some Gt
  | _, Null => Some Lt
  | Int a, Int b => Some (Z.compare a b)
  | Bool a, Bool b => Some (bool_cmp a b)
  | Text a, Text b => Some (str_cmp a b)
  | Num a, Num b => Some (bd_cmp a b)
  | Num a, Int b => Some (bd_cmp a (from_i64 b))
  | Int a, Num b => Some (bd_cmp (from_i64 a) b)
  | Float _, (Int _ | Float _ | Num _) | (Int _ | Num _), Float _ => f64_partial_cmp (num_to_f64 l) (num_to_f64 r)
  | (Int _ | Float _ | Num _), Text s => cmp_num_text l s
  | Text s, (Int _ | Float _ | Num _) => cmp_text_num s r
  | _, _ => None
  end.

Definition equal_values (l r : Value) : bool := match compare_values l r with Some Eq => true | _ => false end.

(** * Arithmetic *)

(** [to_f64] *)
Definition value_to_f64 (v : Value) : result str Z :=
  match v with
  | Int i => Ok (i64_as_f64 i)
  | Float f => Ok f
  | Num n => Ok (to_f64 n)
  | Text s => ok_or (parse_f64 s) (lit "invalid number: " ++ s)
  | Bool _ | Null => Err (lit "operand is not numeric")
  end.

(** [to_bigdecimal] *)
Definition to_bigdecimal (v : Value) : run (option BigDecimal) :=
  match v with
  | Num n => Val (Some n)
  | Int i => Val (Some (from_i64 i))
  | Text s => parse (trim s)
  | _ => Val None
  end.

(** [-i], which wraps around for the least integer *)
Definition neg_i64 (i : Z) : run Z := i64 (- i).

Definition dated_text (o : run (option str)) : run (option Value) := fmap (M := run) (option_map Text) o.

(** [date_arithmetic] *)
Definition date_arithmetic (op : BinaryOp) (left right : Value) : run (option Value) :=
  match op, left, right with
  | Add, Text date, Int days | Add, Int days, Text date => dated_text (add_days_to_date date days)
  | Sub, Text date, Int days => match neg_i64 days with Val d => dated_text (add_days_to_date date d) | Panic => Panic end
  | _, _, _ => Val None
  end.

Definition OUT_OF_RANGE : str := lit "integer out of range".
Definition DIVISION_BY_ZERO : str := lit "division by zero".

Definition checked_int (v : Z) : res str Value :=
  if bool_decide (in_i 64 v) then mret (Int v) else fail OUT_OF_RANGE.

Definition int_arithmetic (op : BinaryOp) (a b : Z) : res str Value :=
  match op with
  | Add => checked_int (a + b)
  | Sub => checked_int (a - b)
  | Mul => checked_int (a * b)
  | Div => if b =? 0 then fail DIVISION_BY_ZERO
           else if (a =? - 2 ^ 63) && (b =? -1) then Panic else mret (Int (Z.quot a b))
  | Mod => if b =? 0 then fail DIVISION_BY_ZERO
           else if (a =? - 2 ^ 63) && (b =? -1) then Panic else mret (Int (Z.rem a b))
  | _ => Panic
  end.

Definition numeric_arithmetic (op : BinaryOp) (a b : BigDecimal) : res str Value :=
  match op with
  | Add => mret (Num (add a b))
  | Sub => mret (Num (sub a b))
  | Mul => v ← lift (mul a b); mret (Num v)
  | Div => match div a b with Some v => mret (Num v) | None => fail DIVISION_BY_ZERO end
  | Mod => match bd_rem a b with Some v => mret (Num v) | None => fail DIVISION_BY_ZERO end
  | _ => Panic
  end.

Definition float_arithmetic (op : BinaryOp) (a b : Z) : res str Value :=
  match op with
  | Add => mret (Float (f64_add a b))
  | Sub => mret (Float (f64_sub a b))
  | Mul => mret (Float (f64_times a b))
  | Div => if f64_eq b 0 then fail DIVISION_BY_ZERO else mret (Float (f64_div a b))
  | Mod => mret (Float (f64_rem a b))
  | _ => Panic
  end.

Definition is_num (v : Value) : bool := match v with Num _ => true | _ => false end.
Definition is_float (v : Value) : bool := match v with Float _ => true | _ => false end.

Definition in_float (op : BinaryOp) (l r : Value) : res str Value :=
  a ← Val (value_to_f64 l) : res str Z; b ← Val (value_to_f64 r) : res str Z; float_arithmetic op a b.

(** [arithmetic] *)
Definition arithmetic (op : BinaryOp) (l r : Value) : res str Value :=
  dated ← lift (match op with Add | Sub => date_arithmetic op l r | _ => Val None end);
  match dated with
  | Some v => mret v
  | None =>
      match l, r with
      | Int a, Int b => int_arithmetic op a b
      | _, _ =>
          if (is_num l || is_num r) && negb (is_float l || is_float r) then
            a ← lift (to_bigdecimal l); b ← lift (to_bigdecimal r);
            match a, b with
            | Some a, Some b => numeric_arithmetic op a b
            | _, _ => in_float op l r
            end
          else in_float op l r
      end
  end.

(** * Casts *)

Definition quoted (s : str) : str := [34] ++ s ++ [34].
Definition bad_syntax (ty s : str) : str := lit "invalid input syntax for type " ++ ty ++ lit ": " ++ quoted s.

Definition coerce_int (target : DataType) (v : Value) : result str Value :=
  match v with
  | Int i => Ok (Int i)
  | Float f => Ok (Int (f64_as_i64 (f64_round f)))
  | Text s => ok_or (Int <$> parse_i64 (trim s)) (bad_syntax (lit "integer") s)
  | Bool b => Ok (Int (Z.b2z b))
  | _ => Err (lit "cannot coerce value to " ++ sql_name target)
  end.

Definition coerce_numeric (v : Value) : res str Value :=
  match v with
  | Num n => mret (Num n)
  | Int i => mret (Num (from_i64 i))
  | Float f => let text := default [] (to_text (Float f)) in
               o ← lift (parse text); Val (ok_or (Num <$> o) (bad_syntax (lit "numeric") text))
  | Text s => o ← lift (parse (trim s)); Val (ok_or (Num <$> o) (bad_syntax (lit "numeric") s))
  | _ => fail (lit "cannot coerce value to " ++ sql_name TNumeric)
  end.

Definition coerce_float (target : DataType) (v : Value) : result str Value :=
  match v with
  | Float f => Ok (Float f)
  | Int i => Ok (Float (i64_as_f64 i))
  | Num n => Ok (Float (to_f64 n))
  | Text s => ok_or (Float <$> parse_f64 (trim s)) (bad_syntax (sql_name target) s)
  | _ => Err (lit "cannot coerce value to " ++ sql_name target)
  end.

Definition coerce_bool (v : Value) : result str Value :=
  match v with
  | Bool b => Ok (Bool b)
  | Int i => Ok (Bool (negb (i =? 0)))
  | Text s =>
      let t := to_ascii_lower <$> trim s in
      if is_one_of t ["t"; "true"; "yes"; "on"; "1"] then Ok (Bool true)
      else if is_one_of t ["f"; "false"; "no"; "off"; "0"] then Ok (Bool false)
      else Err (bad_syntax (lit "boolean") s)
  | _ => Err (lit "cannot coerce value to " ++ sql_name TBool)
  end.

(** [coerce] *)
Definition coerce (v : Value) (target : DataType) : res str Value :=
  if is_null v then mret Null else
  let text := default [] (to_text v) in
  match target with
  | TInt2 | TInt4 | TInt8 => Val (coerce_int target v)
  | TNumeric => coerce_numeric v
  | TFloat4 | TFloat8 | TMoney => Val (coerce_float target v)
  | TBool => Val (coerce_bool v)
  | TInterval => t ← normalize_interval text; mret (Text t)
  | TJsonb => t ← Val (normalize_jsonb text) : res str str; mret (Text t)
  | _ => mret (Text text)
  end.

(** * Operators *)

(** [eval_unary] *)
Definition eval_unary (op : UnaryOp) (v : Value) : res str Value :=
  if is_null v then mret Null else
  match op with
  | Neg => match v with
           | Int i => n ← lift (neg_i64 i); mret (Int n)
           | Float f => mret (Float (f64_opp f))
           | other => fail (lit "cannot negate " ++ sql_name (inferred_type other))
           end
  | Not => mret (Bool (negb (is_true v)))
  end.

Definition text_of (v : Value) : str := default [] (to_text v).

(** The comparison operator of an ordering. *)
Definition compare_op (op : BinaryOp) (c : comparison) : option bool :=
  match op with
  | OpEq => Some (is_eq c)
  | NotEq => Some (negb (is_eq c))
  | OpLt => Some (is_lt c)
  | LtEq => Some (negb (is_gt c))
  | OpGt => Some (is_gt c)
  | GtEq => Some (negb (is_lt c))
  | _ => None
  end.

Definition is_logical (op : BinaryOp) : bool := match op with And | Or => true | _ => false end.

Section evaluator.
Context (to_lowercase : str -> str).

(** [eval_binary] *)
Definition eval_binary (op : BinaryOp) (l r : Value) : res str Value :=
  if negb (is_logical op) && (is_null l || is_null r) then mret Null else
  match op with
  | Add | Sub | Mul | Div | Mod => arithmetic op l r
  | JsonGet => json_extract l r false
  | JsonGetText => json_extract l r true
  | ArrayOperator o => Val (array_operator o l r)
  | NetworkOperator o => Val (network_operator o l r)
  | TextSearchMatch => mret (Bool (text_search_match l r))
  | RegexMatch ci => mret (Bool (regex_match to_lowercase (text_of r) (text_of l) ci))
  | RegexNotMatch ci => mret (Bool (negb (regex_match to_lowercase (text_of r) (text_of l) ci)))
  | Concat => mret (Text (text_of l ++ text_of r))
  | OpEq | NotEq | OpLt | LtEq | OpGt | GtEq =>
      match compare_values l r with
      | Some c => b ← lift (expect (compare_op op c)); mret (Bool b)
      | None => fail (lit "cannot compare values of incompatible types")
      end
  | And => if is_null l || is_null r then mret Null else mret (Bool (is_true l && is_true r))
  | Or => if is_null l || is_null r then mret Null else mret (Bool (is_true l || is_true r))
  end.

Definition sign_bool (negated b : bool) : Value := Bool (if negated then negb b else b).

(** The loops over argument lists, over the evaluation [ev] of one item. *)
Section loops.
Context {Q : Type} (ev : Expr Q -> res str Value).

Fixpoint eval_all (l : list (Expr Q)) : res str (list Value) :=
  match l with
  | [] => mret []
  | e :: l => v ← ev e; vs ← eval_all l; mret (v :: vs)
  end.

(** the loop of [eval_in_list] *)
Fixpoint in_list_loop (target : Value) (negated saw_null : bool) (l : list (Expr Q)) : res str Value :=
  match l with
  | [] => mret (if saw_null then Null else Bool negated)
  | e :: l =>
      v ← ev e;
      if is_null v then in_list_loop target negated true l
      else if equal_values target v then mret (Bool (negb negated))
      else in_list_loop target negated saw_null l
  end.

(** the loops of [eval_quantified_compare]; [stop] is the deciding outcome *)
Fixpoint quantified_loop (op : BinaryOp) (lhs : Value) (stop saw_null : bool) (l : list (Expr Q)) : res str Value :=
  match l with
  | [] => mret (if saw_null then Null else Bool (negb stop))
  | e :: l =>
      rhs ← ev e;
      c ← eval_binary op lhs rhs;
      match c with
      | Bool b => if Bool.eqb b stop then mret (Bool stop) else quantified_loop op lhs stop saw_null l
      | Null => quantified_loop op lhs stop true l
      | _ => quantified_loop op lhs stop saw_null l
      end
  end.

Definition stops (k : Quantifier) : bool := match k with Any | SomeOf => true | All => false end.

(** the WHEN arms of a CASE; [None] when no arm applies *)
Fixpoint case_loop (operand : option Value) (whens : list (Expr Q * Expr Q)) : res str (option Value) :=
  match whens with
  | [] => mret None
  | (cond, result) :: whens =>
      c ← ev cond;
      let hit := match operand with
                 | Some o => negb (is_null o) && negb (is_null c) && equal_values o c
                 | None => is_true c
                 end in
      if hit then v ← ev result; mret (Some v) else case_loop operand whens
  end.
End loops.

Context (call : str -> list Value -> res str Value).
Context {Q : Type}.

(** [eval_expr] *)
Fixpoint eval_expr (col_names : list str) (row : list Value) (e : Expr Q) : res str Value :=
  let ev := eval_expr col_names row in
  match e with
  | EInt i => mret (Int i)
  | EFloat f => mret (Float f)
  | EStr s => mret (Text s)
  | EBool b => mret (Bool b)
  | ENull => mret Null
  | EParam n => fail (lit "unbound parameter $" ++ i64_display n)
  | EColumn name => i ← Val (resolve_column col_names None name) : res str nat; lift (expect (row !! i))
  | EQualified qualifier name => i ← Val (resolve_column col_names (Some qualifier) name) : res str nat; lift (expect (row !! i))
  | EUnary op e => v ← ev e; eval_unary op v
  | EBinary op l r =>
      l ← ev l;
      match op with
      | And => if negb (is_null l) && negb (is_true l) then mret (Bool false) else r ← ev r; eval_binary op l r
      | Or => if is_true l then mret (Bool true) else r ← ev r; eval_binary op l r
      | _ => r ← ev r; eval_binary op l r
      end
  | EQuantified l op k es => lhs ← ev l; quantified_loop ev op lhs (stops k) (is_null lhs) es
  | ERow items => vs ← eval_all ev items; mret (Text (row_value_to_text vs))
  | EArray items => vs ← eval_all ev items; mret (Text (array_value_to_text vs))
  | EIsNull e negated => v ← ev e; mret (sign_bool negated (is_null v))
  | EIsDistinct l r negated =>
      l ← ev l; r ← ev r;
      mret (sign_bool negated (match is_null l, is_null r with
                               | true, true => false
                               | true, false | false, true => true
                               | false, false => negb (equal_values l r)
                               end))
  | ELike e pattern negated ci =>
      v ← ev e; p ← ev pattern;
      if is_null v || is_null p then mret Null
      else mret (sign_bool negated (like_match to_lowercase (text_of v) (text_of p) ci))
  | EInList e es negated =>
      target ← ev e;
      if is_null target then mret Null else in_list_loop ev target negated false es
  | EBetween e low high negated =>
      v ← ev e; lo ← ev low; hi ← ev high;
      if is_null v || is_null lo || is_null hi then mret Null
      else mret (sign_bool negated (from_option (fun c => negb (is_lt c)) false (compare_values v lo)
                                    && from_option (fun c => negb (is_gt c)) false (compare_values v hi)))
  | ECase operand whens else_expr =>
      o ← match operand with Some o => v ← ev o; mret (Some v) | None => mret None end;
      r ← case_loop ev o whens;
      match r with
      | Some v => mret v
      | None => match else_expr with Some e => ev e | None => mret Null end
      end
  | ECast e target => v ← ev e; coerce v target
  | EScalarSubquery _ | EExists _ | EInSubquery _ _ _ => fail (lit "correlated subqueries are not supported")
  | EFunction name args _ _ _ _ => vs ← eval_all ev args; call (to_ascii_lower <$> name) vs
  end.
End evaluator.

(** * Static types *)

(** [default_column_name] *)
Definition default_column_name {Q} (e : Expr Q) : str :=
  match e with
  | EColumn name | EQualified _ name => name
  | EFunction name _ _ _ _ _ => to_ascii_lower <$> name
  | _ => lit "?column?"
  end.

Definition column_type (col_names : list str) (col_types : list DataType) (qualifier : option str) (name : str) : run DataType :=
  match resolve_column col_names qualifier name with
  | Ok i => expect (col_types !! i)
  | Err _ => Val TText
  end.

(** The result type of a window function ([first] types the first argument). *)
Definition window_type (name : str) (first : option (run DataType)) : run DataType :=
  if is_one_of name ["row_number"; "rank"; "dense_rank"; "ntile"; "count"] then Val TInt8
  else if is_one_of name ["lag"; "lead"; "first_value"; "last_value"; "nth_value"; "min"; "max"; "sum"] then default (Val TInt8) first
  else if is_one_of name ["avg"] then Val TFloat8
  else Val TText.

(** The result type of a plain function ([last] types the last argument). *)
Definition function_type (name : str) (last : option (run DataType)) : run DataType :=
  let one_of := is_one_of name in
  if one_of ["count"; "sum"; "abs"] then Val TInt8
  else if one_of ["percentile_cont"] then Val TFloat8
  else if one_of ["percentile_disc"; "mode"] then default (Val TFloat8) last
  else if one_of ["stddev"; "stddev_samp"; "stddev_pop"; "variance"; "var_samp"; "var_pop"] then Val TFloat8
  else if one_of ["bool_and"; "bool_or"; "every"] then Val TBool
  else if one_of ["avg"; "round"; "date_part"; "extract"; "ts_rank"] then Val TFloat8
  else if one_of ["length"; "char_length"; "character_length"; "array_length"; "cardinality"; "array_position"] then Val TInt8
  else if one_of ["ascii"; "strpos"; "div"; "gcd"; "lcm"] then Val TInt8
  else if one_of ["sqrt"; "cbrt"; "exp"; "ln"; "log"; "log10"; "power"; "pow"; "pi"; "radians"; "degrees"; "sin"; "cos"; "tan"; "cot";
              "asin"; "acos"; "atan"; "atan2"; "ceil"; "ceiling"; "floor"; "sign"; "mod"] then Val TFloat8
  else if one_of ["starts_with"; "jsonb_path_exists"; "json_path_exists"] then Val TBool
  else if one_of ["jsonb_path_query"; "json_path_query"] then Val TJsonb
  else if one_of ["json_array_length"; "jsonb_array_length"] then Val TInt8
  else if one_of ["to_tsvector"] then Val TTsVector
  else if one_of ["plainto_tsquery"; "to_tsquery"] then Val TTsQuery
  else if one_of ["pg_try_advisory_lock"; "pg_advisory_unlock"] then Val TBool
  else Val TText.

Fixpoint last_of {A B} (f : A -> B) (l : list A) : option B :=
  match l with [] => None | [x] => Some (f x) | _ :: l => last_of f l end.

Definition arith_type (l r : DataType) : DataType := if bool_decide (l = TFloat8) || bool_decide (r = TFloat8) then TFloat8 else TInt8.

(** [infer_expr_type]; indexing [col_types] out of range panics. *)
Fixpoint infer_expr_type {Q} (col_names : list str) (col_types : list DataType) (e : Expr Q) : run DataType :=
  let infer := infer_expr_type col_names col_types in
  match e with
  | EInt _ => Val TInt8
  | EFloat _ => Val TFloat8
  | EStr _ | ENull | EParam _ | ERow _ | EArray _ | EScalarSubquery _ => Val TText
  | EBool _ | EIsNull _ _ | EIsDistinct _ _ _ | ELike _ _ _ _ | EInList _ _ _ | EBetween _ _ _ _ | EQuantified _ _ _ _
  | EExists _ | EInSubquery _ _ _ => Val TBool
  | EColumn name => column_type col_names col_types None name
  | EQualified qualifier name => column_type col_names col_types (Some qualifier) name
  | ECast _ target => Val target
  | ECase _ whens else_expr =>
      match whens, else_expr with
      | (_, result) :: _, _ => infer result
      | [], Some e => infer e
      | [], None => Val TText
      end
  | EUnary Not _ => Val TBool
  | EUnary Neg e => infer e
  | EBinary op l r =>
      match op with
      | OpEq | NotEq | OpLt | LtEq | OpGt | GtEq | And | Or | RegexMatch _ | RegexNotMatch _ | ArrayOperator _ | NetworkOperator _
      | TextSearchMatch => Val TBool
      | Concat | JsonGet | JsonGetText => Val TText
      | Add | Sub | Mul | Div | Mod => lt ← infer l; rt ← infer r; Val (arith_type lt rt)
      end
  | EFunction name args _ _ _ over =>
      let name := to_ascii_lower <$> name in
      match over with
      | Some _ => window_type name (match args with a :: _ => Some (infer a) | [] => None end)
      | None => function_type name (last_of infer args)
      end
  end.

(** * What a computation can yield *)

Definition yields {A} (P : A -> Prop) (m : res str A) : Prop := forall v, m = Val (Ok v) -> P v.

Lemma yields_ret {A} (P : A -> Prop) v : P v -> yields P (mret v).
Proof. intros H w [= <-]. done. Qed.
Lemma yields_ok {A} (P : A -> Prop) v : P v -> yields P (Val (Ok v)).
Proof. apply yields_ret. Qed.
Lemma yields_err {A} (P : A -> Prop) e : yields P (Val (Err e)).
Proof. done. Qed.
Lemma yields_fail {A} (P : A -> Prop) e : yields P (fail e).
Proof. done. Qed.
Lemma yields_panic {A} (P : A -> Prop) : yields P Panic.
Proof. done. Qed.
Lemma yields_bind {A B} (R : A -> Prop) (P : B -> Prop) (m : res str A) (f : A -> res str B) :
  yields R m -> (forall a, R a -> yields P (f a)) -> yields P (m ≫= f).
Proof. intros Hm Hf. destruct m as [[a|e]|]; [|done..]. apply Hf, Hm. done. Qed.
Lemma yields_any {A B} (P : B -> Prop) (m : res str A) (f : A -> res str B) : (forall a, yields P (f a)) -> yields P (m ≫= f).
Proof. intros. eapply (yields_bind (fun _ => True)); [done|auto]. Qed.
Lemma yields_lift {A} (P : A -> Prop) (m : run A) : (forall v, m = Val v -> P v) -> yields P (lift m).
Proof. intros H v. destruct m; [|done]. intros [= <-]. auto. Qed.
Lemma yields_ok_or {A} (P : A -> Prop) o e : (forall v, o = Some v -> P v) -> yields P (Val (ok_or o e)).
Proof. intros H v. destruct o; [|done]. intros [= <-]. auto. Qed.
Lemma yields_impl {A} (P R : A -> Prop) m : yields P m -> (forall v, P v -> R v) -> yields R m.
Proof. unfold yields. auto. Qed.

Create HintDb yields.
#[export] Hint Resolve yields_ret yields_ok yields_err yields_fail yields_panic : yields.

(** Walks through a computation, leaving the conditions on its results. *)
Ltac yields :=
  repeat match goal with
  | |- yields _ (mret _) => apply yields_ret
  | |- yields _ (Val (Ok _)) => apply yields_ok
  | |- yields _ (Val (Err _)) => apply yields_err
  | |- yields _ (fail _) => apply yields_fail
  | |- yields _ Panic => apply yields_panic
  | |- yields _ (Val (ok_or _ _)) => apply yields_ok_or; intros ? ?
  | |- yields _ (_ ≫= _) => apply yields_any; intros ?
  | |- yields _ (if ?b then _ else _) => destruct b eqn:?
  | |- yields _ (match ?x with _ => _ end) => destruct x eqn:?
  | |- yields _ (Val (match ?x with _ => _ end)) => destruct x eqn:?
  end; simplify_eq.

(** * Types *)

(** How the values of a type are stored. *)
Definition storage (t : DataType) : Kind :=
  match t with
  | TInt2 | TInt4 | TInt8 => KInt
  | TFloat4 | TFloat8 | TMoney => KFloat
  | TNumeric => KNum
  | TBool => KBool
  | _ => KText
  end.
Definition of_kind (c : Kind) (v : Value) : Prop :=
  match v with Null => True | Int _ => c = KInt | Float _ => c = KFloat | Num _ => c = KNum | Text _ => c = KText | Bool _ => c = KBool end.
(** [v] is NULL or of the variant of [Value] in which the values of type [t] are
    stored.  The integer types share one variant, as do text, dates and JSON: the
    width of an integer is [in_width] below, the syntax of a text is not part of this. *)
Definition represents (t : DataType) (v : Value) : Prop := of_kind (storage t) v.
Definition int_width (t : DataType) : option Z := match t with TInt2 => Some 16 | TInt4 => Some 32 | TInt8 => Some 64 | _ => None end.
Definition narrow (t : DataType) : bool := match t with TInt2 | TInt4 => true | _ => false end.
(** An integer in a column of type [t] is within its width. *)
Definition in_width (t : DataType) (v : Value) : Prop := match v, int_width t with Int i, Some w => in_i w i | _, _ => True end.

#[export] Instance kind_eq_dec : EqDecision Kind. Proof. solve_decision. Defined.

(** The expressions whose static type is reliable: no function calls, arithmetic
    on integers or with a double, CASE arms stored alike. *)
Definition arith_ok (l r : DataType) : bool :=
  bool_decide (l = TFloat8) || bool_decide (r = TFloat8) || bool_decide (storage l = KInt) && bool_decide (storage r = KInt).
Definition stored_as (t : DataType) (m : run DataType) : bool := match m with Val u => bool_decide (storage u = storage t) | Panic => false end.
Fixpoint typable {Q} (col_names : list str) (col_types : list DataType) (e : Expr Q) : bool :=
  let go := typable col_names col_types in
  let infer := infer_expr_type col_names col_types in
  match e with
  | EUnary Neg e => go e
  | EBinary (Add | Sub | Mul | Div | Mod) l r =>
      go l && go r && match infer l, infer r with Val lt, Val rt => arith_ok lt rt | _, _ => false end
  | ECase _ whens else_expr =>
      match infer e with
      | Val t =>
          forallb (fun w => match w with (_, r) => go r && stored_as t (infer r) end) whens
          && match else_expr with Some e => go e && stored_as t (infer e) | None => true end
      | Panic => false
      end
  | EFunction _ _ _ _ _ _ => false
  | _ => true
  end.

(** The expressions whose announced integer width is reliable as well: no cast to
    int2 or int4, no negation of one, no function call, CASE arms of one type. *)
Definition announced (t : DataType) (m : run DataType) : bool := match m with Val u => bool_decide (u = t) | Panic => false end.
Definition not_narrow (m : run DataType) : bool := match m with Val u => negb (narrow u) | Panic => false end.
Fixpoint width_exact {Q} (col_names : list str) (col_types : list DataType) (e : Expr Q) : bool :=
  let go := width_exact col_names col_types in
  let infer := infer_expr_type col_names col_types in
  match e with
  | EUnary Neg e => not_narrow (infer e)
  | ECast _ t => negb (narrow t)
  | ECase _ whens else_expr =>
      match infer e with
      | Val t =>
          forallb (fun w => match w with (_, r) => go r && announced t (infer r) end) whens
          && match else_expr with Some e => go e && announced t (infer e) | None => true end
      | Panic => false
      end
  | EFunction _ _ _ _ _ _ => false
  | _ => true
  end.

(** A row of a relation whose columns have the given types. *)
Definition row_typed (col_types : list DataType) (row : list Value) : Prop := Forall2 represents col_types row.

Lemma coerce_typed v t : yields (represents t) (coerce v t).
Proof.
  unfold coerce. destruct (is_null v); [by apply yields_ret|].
  destruct t; unfold coerce_numeric, coerce_int, coerce_float, coerce_bool; destruct v; yields; try done;
    by match goal with H : _ <$> _ = Some _ |- _ => apply fmap_Some in H as (? & _ & ->) end.
Qed.

Lemma json_extract_text l r b : yields (of_kind KText) (json_extract l r b).
Proof. unfold json_extract, json_to_text. yields; done. Qed.

Lemma array_operator_bool op l r : yields (of_kind KBool) (Val (array_operator op l r)).
Proof. unfold array_operator. yields; try done; intros v H; injection H as H; inv_ok; done. Qed.
Lemma network_operator_bool op l r : yields (of_kind KBool) (Val (network_operator op l r)).
Proof. unfold network_operator. yields; try done; intros v H; injection H as H; inv_ok; done. Qed.

Lemma int_arithmetic_int op a b : yields (of_kind KInt) (int_arithmetic op a b).
Proof. unfold int_arithmetic, checked_int. yields; done. Qed.
Lemma in_float_float op l r : yields (of_kind KFloat) (in_float op l r).
Proof. unfold in_float, float_arithmetic. yields; done. Qed.

Lemma arithmetic_kind op l r c d : arith_ok c d = true -> represents c l -> represents d r -> is_null l || is_null r = false ->
  yields (represents (arith_type c d)) (arithmetic op l r).
Proof.
  intros Hok Hl Hr Hn. unfold arith_ok, arith_type in *. apply orb_prop in Hok as [Hf|Hi].
  - rewrite Hf. assert (is_float l || is_float r = true) as Hfl.
    { apply orb_prop in Hf as [Hf%bool_decide_eq_true|Hf%bool_decide_eq_true]; subst; destruct l, r; done. }
    assert (match op with Add | Sub => date_arithmetic op l r | _ => Val None end = Val None) as Hd.
    { destruct op, l, r; done. }
    unfold arithmetic. rewrite Hd, Hfl, andb_false_r. cbn. destruct l, r; try apply in_float_float; done.
  - apply andb_prop in Hi as [Hc%bool_decide_eq_true Hd%bool_decide_eq_true]. unfold represents in Hl, Hr. rewrite Hc in Hl. rewrite Hd in Hr.
    destruct l; try done. destruct r; try done.
    replace (bool_decide (c = TFloat8)) with false by (symmetry; apply bool_decide_eq_false; intros ->; done).
    replace (bool_decide (d = TFloat8)) with false by (symmetry; apply bool_decide_eq_false; intros ->; done).
    pose proof (int_arithmetic_int op i i0) as HH. destruct op; exact HH.
Qed.

Definition is_arith (op : BinaryOp) : bool := match op with Add | Sub | Mul | Div | Mod => true | _ => false end.
Definition op_kind (op : BinaryOp) : Kind := match op with Concat | JsonGet | JsonGetText => KText | _ => KBool end.

Lemma eval_binary_kind lower op l r : is_arith op = false -> yields (of_kind (op_kind op)) (eval_binary lower op l r).
Proof.
  intros Ha. unfold eval_binary. destruct op; try done; cbn [is_logical negb andb op_kind];
    repeat case_match; try (by apply yields_ret); try exact (yields_fail _ _);
    apply json_extract_text || apply array_operator_bool || apply network_operator_bool || (yields; done).
Qed.

Section typing.
Context (to_lowercase : str -> str) (call : str -> list Value -> res str Value) {Q : Type}.
Context (col_names : list str) (col_types : list DataType) (row : list Value).
Abbreviation ev := (eval_expr to_lowercase call (Q := Q) col_names row).

Lemma in_list_bool f t n sn (l : list (Expr Q)) : yields (of_kind KBool) (in_list_loop f t n sn l).
Proof. revert sn. induction l as [|e l IH]; intros sn; cbn; yields; by destruct sn || apply IH. Qed.
Lemma quantified_bool f op l st sn (es : list (Expr Q)) : yields (of_kind KBool) (quantified_loop to_lowercase f op l st sn es).
Proof. revert sn. induction es as [|e es IH]; intros sn; cbn; yields; by destruct sn || apply IH. Qed.
Lemma case_yields (P : Value -> Prop) f o (ws : list (Expr Q * Expr Q)) :
  Forall (fun w => yields P (f w.2)) ws -> yields (opt_all P) (case_loop f o ws).
Proof.
  induction 1 as [|[c r] ws Hw _ IH]; cbn; [by apply yields_ret|]. apply yields_any. intros v.
  match goal with |- context [if ?b then _ else _] => destruct b end; [|apply IH].
  apply (yields_bind _ _ _ _ Hw). intros. by apply yields_ret.
Qed.

Lemma column_typed (P : DataType -> Value -> Prop) qual name t : Forall2 P col_types row -> column_type col_names col_types qual name = Val t ->
  yields (P t) (i ← Val (resolve_column col_names qual name) : res str nat; lift (expect (row !! i))).
Proof.
  intros Hr. unfold column_type. destruct (resolve_column _ _ _) as [i|]; [|done]. cbn. intros Ht.
  apply yields_lift. intros v Hv. unfold expect in *.
  destruct (col_types !! i) as [u|] eqn:Hu; [|done]. destruct (row !! i) as [w|] eqn:Hw; [|done]. simplify_eq.
  exact (Forall2_lookup_lr _ _ _ _ _ _ Hr Hu Hw).
Qed.

Lemma stored_as_type t m : stored_as t m = true -> exists u, m = Val u /\ storage u = storage t.
Proof. destruct m as [u|]; [|done]. cbn. intros H%bool_decide_eq_true. eauto. Qed.

Definition sound_type (e : Expr Q) : Prop :=
  forall t, typable col_names col_types e = true -> infer_expr_type col_names col_types e = Val t -> yields (represents t) (ev e).

Lemma unary_sound op e : sound_type e -> sound_type (EUnary op e).
Proof.
  intros IH t Hok Ht. destruct op; cbn in Hok, Ht.
  - apply (yields_bind _ _ _ _ (IH t Hok Ht)). intros [] Hv; cbn; yields; done.
  - simplify_eq. cbn. apply yields_any. intros v. unfold eval_unary. yields; done.
Qed.

Lemma binary_sound op l r : sound_type l -> sound_type r -> sound_type (EBinary op l r).
Proof.
  intros IHl IHr t Hok Ht. destruct (is_arith op) eqn:Ha.
  - assert (exists lt rt, (typable col_names col_types l = true /\ infer_expr_type col_names col_types l = Val lt)
      /\ (typable col_names col_types r = true /\ infer_expr_type col_names col_types r = Val rt)
      /\ arith_ok lt rt = true /\ t = arith_type lt rt) as (lt & rt & [Hl Hlt] & [Hr Hrt] & Hlr & ->).
    { destruct op; try done; cbn in Hok, Ht; apply andb_prop in Hok as [[Hl Hr]%andb_prop Ho];
        destruct (infer_expr_type _ _ l) as [lt|]; try done; destruct (infer_expr_type _ _ r) as [rt|]; try done;
        injection Ht as <-; eauto 10. }
    assert (ev (EBinary op l r) = (a ← ev l; b ← ev r; eval_binary to_lowercase op a b)) as -> by (by destruct op).
    apply (yields_bind _ _ _ _ (IHl lt Hl Hlt)). intros a Ha'. apply (yields_bind _ _ _ _ (IHr rt Hr Hrt)). intros b Hb.
    unfold eval_binary. destruct (is_null a || is_null b) eqn:Hn; [destruct op; by apply yields_ret|].
    pose proof (arithmetic_kind op a b lt rt Hlr Ha' Hb Hn) as HH. destruct op; try done; rewrite andb_false_r; exact HH.
  - assert (storage t = op_kind op) as Hk by (destruct op; try done; cbn in Ht; by simplify_eq).
    unfold represents. rewrite Hk. pose proof (fun a b => eval_binary_kind to_lowercase op a b Ha) as HH.
    cbn [eval_expr]. apply yields_any. intros a.
    destruct op; try done; yields; try done; apply HH.
Qed.

Lemma case_sound o ws el : Forall (fun w => sound_type w.1 /\ sound_type w.2) ws -> opt_all sound_type el -> sound_type (ECase o ws el).
Proof.
  intros IHw IHe t Hok Ht. cbn [typable] in Hok. rewrite Ht in Hok. apply andb_prop in Hok as [Hw He].
  assert (Forall (fun w => yields (represents t) (ev w.2)) ws) as Harms.
  { clear Ht. induction IHw as [|[c r] ws [_ IHr] _ IHws]; constructor; cbn in Hw; apply andb_prop in Hw as [[Hr Hs]%andb_prop Hw]; [|by apply IHws].
    destruct (stored_as_type _ _ Hs) as (u & Hu & Hut). unfold represents. rewrite <- Hut. by apply IHr. }
  cbn [eval_expr]. apply yields_any. intros ov. apply (yields_bind _ _ _ _ (case_yields _ _ ov _ Harms)). intros [v|] Hv; [by apply yields_ret|].
  destruct el as [e|]; [|by apply yields_ret]. apply andb_prop in He as [He Hs].
  destruct (stored_as_type _ _ Hs) as (u & Hu & Hut). unfold represents. rewrite <- Hut. by apply IHe.
Qed.

Lemma expr_sound e : row_typed col_types row -> sound_type e.
Proof.
  intros Hrow. induction e using Expr_induct; try (by intros t0 _ Ht; cbn in Ht; simplify_eq; cbn; yields; done).
  - intros t0 _ Ht. by apply column_typed.
  - intros t0 _ Ht. by apply column_typed.
  - by apply unary_sound.
  - by apply binary_sound.
  - intros t0 _ Ht. cbn in Ht. simplify_eq. cbn. apply yields_any. intros v. apply quantified_bool.
  - intros t0 _ Ht. cbn in Ht. simplify_eq. cbn. apply yields_any. intros v. destruct (is_null v); [by apply yields_ret|apply in_list_bool].
  - by apply case_sound.
  - intros t' _ Ht. cbn in Ht. simplify_eq. cbn. apply yields_any. intros v. apply coerce_typed.
  - by intros t0 [=].
Qed.

Definition sound_width (e : Expr Q) : Prop :=
  forall t, width_exact col_names col_types e = true -> infer_expr_type col_names col_types e = Val t -> narrow t = true -> yields (in_width t) (ev e).

Lemma case_width o ws el : Forall (fun w => sound_width w.1 /\ sound_width w.2) ws -> opt_all sound_width el -> sound_width (ECase o ws el).
Proof.
  intros IHw IHe t Hok Ht Hn. cbn [width_exact] in Hok. rewrite Ht in Hok. apply andb_prop in Hok as [Hw He].
  assert (forall m, announced t m = true -> m = Val t) as An by (intros [u|]; [|done]; by intros ->%bool_decide_eq_true).
  assert (Forall (fun w => yields (in_width t) (ev w.2)) ws) as Harms.
  { clear Ht. induction IHw as [|[c r] ws [_ IHr] _ IHws]; constructor; cbn in Hw; apply andb_prop in Hw as [[Hr Hs]%andb_prop Hw]; [|by apply IHws].
    apply IHr; auto. }
  cbn [eval_expr]. apply yields_any. intros ov. apply (yields_bind _ _ _ _ (case_yields _ _ ov _ Harms)). intros [v|] Hv; [by apply yields_ret|].
  destruct el as [e|]; [|by apply yields_ret]. apply andb_prop in He as [He Hs]. apply IHe; auto.
Qed.

Lemma expr_width e : Forall2 in_width col_types row -> sound_width e.
Proof.
  intros Hrow. induction e using Expr_induct; intros ty Hok Ht Hn; try (cbn in Ht; by simplify_eq).
  - by apply (column_typed in_width).
  - by apply (column_typed in_width).
  - destruct op; cbn in Hok, Ht; [|by simplify_eq]. rewrite Ht in Hok. cbn in Hok. by rewrite Hn in Hok.
  - destruct op; cbn in Ht; try (by simplify_eq);
      (destruct (infer_expr_type _ _ e1); [|done]; destruct (infer_expr_type _ _ e2); [|done]; cbn in Ht; injection Ht as <-;
       unfold arith_type in Hn; by repeat case_bool_decide).
  - by apply case_width.
  - cbn in Hok, Ht. simplify_eq. by rewrite Hn in Hok.
Qed.
End typing.

(** * Numbers stay in range *)

(** Integers are machine integers and decimals are well formed. *)
Definition num_ok (v : Value) : Prop := match v with Int i => in_i 64 i | Num n => bd_wf n | _ => True end.
Definition lit_ok {Q} (e : Expr Q) : bool := match e with EInt i => bool_decide (in_i 64 i) | _ => true end.

Lemma of_kind_num_ok c v : c <> KInt -> c <> KNum -> of_kind c v -> num_ok v.
Proof. intros. by destruct v. Qed.

Lemma i64_in v w : i64 v = Val w -> in_i 64 w.
Proof. intros [= <-]. by apply to_signed_range. Qed.

Lemma parse_i64_in s v : parse_i64 s = Some v -> in_i 64 v.
Proof.
  unfold parse_i64, in_i. change (2 ^ (64 - 1)) with (2 ^ 63). destruct s as [|c ds]; [done|]. destruct (c =? 45).
  - destruct ds as [|d ds]; [done|]. pose proof (digits_nonneg (d :: ds)) as Hd. revert Hd.
    generalize (dval 10 (reverse ((fun c => c - 48) <$> d :: ds))). intros n Hd.
    destruct (forallb _ _); [|done]. specialize (Hd eq_refl). cbn zeta. destruct (n <=? 2 ^ 63) eqn:Hn; [|done]. intros [= <-]. zb. lia.
  - intros H%parse_uint_range. lia.
Qed.

Lemma f64_as_i64_in f : in_i 64 (f64_as_i64 f).
Proof. unfold f64_as_i64, in_i. change (2 ^ (64 - 1)) with (2 ^ 63). destruct (is_nan f); [lia|]. cbn zeta. lia. Qed.

Lemma parse_yields s : yields (opt_all bd_wf) (lift (parse s)).
Proof. apply yields_lift. intros [d|] H; [by apply Numeric.parse_wf in H|done]. Qed.

Lemma parsed_num_ok s e : yields num_ok (o ← lift (parse s); Val (ok_or (Num <$> o) e)).
Proof. apply (yields_bind _ _ _ _ (parse_yields s)). intros [d|] Hd; [by apply yields_ok|done]. Qed.

Lemma coerce_num_ok v t : num_ok v -> yields num_ok (coerce v t).
Proof.
  intros Hv. unfold coerce. destruct (is_null v); [by apply yields_ret|].
  destruct t; unfold coerce_numeric, coerce_int, coerce_float, coerce_bool; destruct v; try apply parsed_num_ok; yields; try done;
    try match goal with H : _ <$> _ = Some _ |- _ => apply fmap_Some in H as (? & H & ->) end;
    try done; try (by eapply parse_i64_in); try apply f64_as_i64_in; try (by apply from_i64_ok); try (destruct b; done).
Qed.

Lemma int_arithmetic_ok op a b : in_i 64 a -> in_i 64 b -> yields num_ok (int_arithmetic op a b).
Proof.
  unfold int_arithmetic, checked_int. intros Ha Hb. destruct op; try exact (yields_panic _);
    repeat match goal with |- context [if ?c then _ else _] => destruct c eqn:? end; try exact (yields_fail _ _); try exact (yields_panic _);
    try (match goal with H : bool_decide _ = true |- _ => by apply yields_ret; apply bool_decide_eq_true in H end).
  - apply yields_ret. cbn [num_ok]. unfold in_i in *. change (2 ^ (64 - 1)) with (2 ^ 63) in *.
    assert (b <> 0 /\ (a <> - 2 ^ 63 \/ b <> -1)) as [Nb N] by lia. destruct (decide (b = 1)) as [->|N1]; [rewrite Z.quot_1_r; lia|].
    destruct (decide (b = -1)) as [->|N2]; [replace (Z.quot a (-1)) with (- a); [lia|]; by rewrite <- (Z.quot_1_r a) at 1; rewrite <- Z.quot_opp_r|].
    pose proof (Z.quot_abs a b Nb). assert (Z.quot (Z.abs a) (Z.abs b) < 2 ^ 63); [|lia]. apply Z.quot_lt_upper_bound; lia.
  - apply yields_ret. unfold in_i in *. zb. pose proof (Z.rem_bound_abs a b ltac:(lia)). cbn [num_ok]. unfold in_i. change (2 ^ (64 - 1)) with (2 ^ 63) in *. lia.
Qed.

Lemma numeric_arithmetic_ok op a b : bd_wf a -> bd_wf b -> yields num_ok (numeric_arithmetic op a b).
Proof.
  intros Wa Wb. destruct op; cbn [numeric_arithmetic]; try exact (yields_panic _).
  - apply yields_ret. by apply add_ok.
  - apply yields_ret. by apply sub_ok.
  - destruct (mul_ok a b Wa Wb) as (d & -> & Wd & _). by apply yields_ret.
  - destruct (is_zero b) eqn:Hz; [unfold div, div_scale; by rewrite Hz|].
    destruct (div_scale_ok a b DIV_SCALE Wa Wb ltac:(done) Hz) as (d & Hd & Wd & _). unfold div. rewrite Hd. by apply yields_ret.
  - destruct (is_zero b) eqn:Hz; [unfold bd_rem; by rewrite Hz|].
    destruct (bd_rem_ok a b Wa Wb Hz) as (d & -> & Wd & _). by apply yields_ret.
Qed.

Lemma to_bigdecimal_ok v : num_ok v -> yields (opt_all bd_wf) (lift (to_bigdecimal v)).
Proof. destruct v; intros Hv; cbn; try (by apply yields_ret); [apply yields_ret; by apply from_i64_ok|apply parse_yields]. Qed.

Lemma dated_num_ok m o : dated_text m = Val o -> opt_all num_ok o.
Proof. destruct m as [[t|]|]; by intros [= <-]. Qed.

Lemma date_arithmetic_ok op l r o : date_arithmetic op l r = Val o -> opt_all num_ok o.
Proof.
  destruct op, l, r; cbn [date_arithmetic]; try (intros H; injection H as <-; exact I); try apply dated_num_ok.
Qed.

Lemma arithmetic_num_ok op l r : num_ok l -> num_ok r -> yields num_ok (arithmetic op l r).
Proof.
  intros Hl Hr. unfold arithmetic.
  apply (yields_bind (opt_all num_ok)).
  { apply yields_lift. intros o H. pose proof (date_arithmetic_ok op l r o). destruct op; try (injection H as <-; exact I); auto. }
  intros [v|] Hv; [by apply yields_ret|].
  assert (yields num_ok (in_float op l r)) as Hf.
  { eapply yields_impl; [apply in_float_float|]. intros v. by apply of_kind_num_ok. }
  assert (yields num_ok (if (is_num l || is_num r) && negb (is_float l || is_float r) then
            a ← lift (to_bigdecimal l); b ← lift (to_bigdecimal r);
            match a, b with Some a, Some b => numeric_arithmetic op a b | _, _ => in_float op l r end else in_float op l r)) as Hn.
  { destruct (_ && _); [|done]. apply (yields_bind _ _ _ _ (to_bigdecimal_ok l Hl)). intros a Ha.
    apply (yields_bind _ _ _ _ (to_bigdecimal_ok r Hr)). intros b Hb. destruct a, b; try done. by apply numeric_arithmetic_ok. }
  destruct l, r; try exact Hn. by apply int_arithmetic_ok.
Qed.

Lemma eval_binary_num_ok lower op l r : num_ok l -> num_ok r -> yields num_ok (eval_binary lower op l r).
Proof.
  intros Hl Hr. destruct (is_arith op) eqn:Ha.
  - unfold eval_binary. destruct (_ && _); [by apply yields_ret|].
    pose proof (arithmetic_num_ok op l r Hl Hr) as HH. destruct op; try done; exact HH.
  - eapply yields_impl; [by apply eval_binary_kind|]. intros v. apply of_kind_num_ok; by destruct op.
Qed.

Section numbers.
Context (to_lowercase : str -> str) (call : str -> list Value -> res str Value) {Q : Type}.
Context (Hcall : forall f vs, Forall num_ok vs -> yields num_ok (call f vs)).
Context (col_names : list str) (row : list Value) (Hrow : Forall num_ok row).
Abbreviation ev := (eval_expr to_lowercase call (Q := Q) col_names row).

Definition safe (e : Expr Q) : Prop := expr_forall lit_ok e = true -> yields num_ok (ev e).

Lemma safe_all es : Forall safe es -> forallb (expr_forall lit_ok) es = true -> yields (Forall num_ok) (eval_all ev es).
Proof.
  induction 1 as [|e es He _ IH]; cbn; intros H; [by apply yields_ret|]. apply andb_prop in H as [H1 H2].
  apply (yields_bind _ _ _ _ (He H1)). intros v Hv. apply (yields_bind _ _ _ _ (IH H2)). intros vs Hvs. apply yields_ret. by constructor.
Qed.

Lemma bool_num_ok m : yields (of_kind KBool) m -> yields num_ok m.
Proof. intros H. apply (yields_impl _ _ _ H). intros v. by apply of_kind_num_ok. Qed.

Lemma safe_binary op l r : safe l -> safe r -> safe (EBinary op l r).
Proof.
  intros IHl IHr [_ [Hl Hr]%andb_prop]%andb_prop. cbn [eval_expr]. apply (yields_bind _ _ _ _ (IHl Hl)). intros a Ha.
  assert (yields num_ok (b ← ev r; eval_binary to_lowercase op a b)) as HH.
  { apply (yields_bind _ _ _ _ (IHr Hr)). intros b Hb. by apply eval_binary_num_ok. }
  destruct op; try exact HH; match goal with |- context [if ?b then _ else _] => destruct b end; try exact HH; by apply yields_ret.
Qed.

Lemma safe_case o ws el : Forall (fun w => safe w.1 /\ safe w.2) ws -> opt_all safe el -> safe (ECase o ws el).
Proof.
  intros IHw IHe [_ [[_ Hw]%andb_prop He]%andb_prop]%andb_prop. cbn [eval_expr]. apply yields_any. intros ov.
  assert (Forall (fun w => yields num_ok (ev w.2)) ws) as Harms.
  { induction IHw as [|[c r] ws [_ IHr] _ IHws]; constructor; cbn in Hw; apply andb_prop in Hw as [[_ Hr]%andb_prop Hw]; [by apply IHr|by apply IHws]. }
  apply (yields_bind _ _ _ _ (case_yields _ _ ov _ Harms)). intros [v|] Hv; [by apply yields_ret|].
  destruct el as [e|]; [by apply IHe|by apply yields_ret].
Qed.

Lemma safe_column qual name : yields num_ok (i ← Val (resolve_column col_names qual name) : res str nat; lift (expect (row !! i))).
Proof.
  apply yields_any. intros i. apply yields_lift. intros v H. destruct (row !! i) as [w|] eqn:Hw; [|done]. injection H as <-.
  exact (Forall_lookup_1 _ _ _ _ Hrow Hw).
Qed.

Lemma safe_unary op e : safe e -> safe (EUnary op e).
Proof.
  intros IH [_ Hok]%andb_prop. cbn [eval_expr]. apply (yields_bind _ _ _ _ (IH Hok)). intros v Hv. unfold eval_unary.
  destruct (is_null v); [by apply yields_ret|]. destruct op; [|by apply yields_ret]. destruct v; try exact (yields_fail _ _); [|by apply yields_ret].
  apply (yields_bind (in_i 64)); [|intros; by apply yields_ret]. apply yields_lift. intros w. apply i64_in.
Qed.

Lemma expr_safe e : safe e.
Proof.
  induction e using Expr_induct; try (by apply safe_unary || apply safe_binary || apply safe_case);
    try (by intros _; apply safe_column); intros Hok; cbn [eval_expr].
  all: try (by apply yields_ret || apply yields_fail).
  - apply yields_ret. by apply andb_prop in Hok as [H%bool_decide_eq_true _].
  - apply yields_any. intros v. apply bool_num_ok, quantified_bool.
  - apply yields_any. intros v. by apply yields_ret.
  - apply yields_any. intros v. by apply yields_ret.
  - apply yields_any. intros v. by apply yields_ret.
  - apply yields_any. intros v. apply yields_any. intros w. by apply yields_ret.
  - apply yields_any. intros v. apply yields_any. intros w. destruct (_ || _); by apply yields_ret.
  - apply yields_any. intros v. destruct (is_null v); [by apply yields_ret|]. apply bool_num_ok, in_list_bool.
  - apply yields_any. intros v. apply yields_any. intros w. apply yields_any. intros x. destruct (_ || _); by apply yields_ret.
  - apply andb_prop in Hok as [_ Hok]. apply (yields_bind _ _ _ _ (IHe Hok)). intros v. apply coerce_num_ok.
  - apply andb_prop in Hok as [_ [[Hok _]%andb_prop _]%andb_prop]. apply (yields_bind (Forall num_ok)); [by apply safe_all|]. intros vs. apply Hcall.
Qed.
End numbers.

(** * Derived forms *)

Lemma bind_val_inv {A B} (m : res str A) (f : A -> res str B) v : m ≫= f = Val (Ok v) -> exists a, m = Val (Ok a) /\ f a = Val (Ok v).
Proof. destruct m as [[a|e]|]; [|done..]. by exists a. Qed.

Lemma compare_eval lower op l r v : compare_op op Eq <> None -> is_null l = false -> is_null r = false -> eval_binary lower op l r = Val (Ok v) ->
  exists c b, compare_values l r = Some c /\ compare_op op c = Some b /\ v = Bool b.
Proof.
  intros Hop Hl Hr. unfold eval_binary. rewrite Hl, Hr, andb_false_r.
  destruct op; try done; destruct (compare_values l r) as [c|]; try done; intros [= <-]; eauto.
Qed.

Lemma compare_null lower op l r : is_logical op = false -> is_null l = true \/ is_null r = true -> eval_binary lower op l r = Val (Ok Null).
Proof. intros Hop H. unfold eval_binary. rewrite Hop. destruct H as [-> | ->]; [|rewrite orb_true_r]; done. Qed.

Section derived.
Context (to_lowercase : str -> str) (call : str -> list Value -> res str Value) {Q : Type}.
Context (col_names : list str) (row : list Value).
Abbreviation ev := (eval_expr to_lowercase call (Q := Q) col_names row).

Lemma quantified_null op stop es v : is_logical op = false ->
  quantified_loop to_lowercase ev op Null stop true es = Val (Ok v) -> v = Null.
Proof.
  intros Hop. induction es as [|e es IH]; cbn [quantified_loop]; [by intros [= <-]|].
  intros (r & _ & H)%bind_val_inv. rewrite compare_null in H; auto.
Qed.

Lemma in_list_is_any l es sn v : is_null l = false ->
  quantified_loop to_lowercase ev OpEq l true sn es = Val (Ok v) -> in_list_loop ev l false sn es = Val (Ok v).
Proof.
  intros Hl. revert sn. induction es as [|e es IH]; intros sn; cbn [quantified_loop in_list_loop]; [done|].
  intros (r & -> & H)%bind_val_inv. cbn. destruct (is_null r) eqn:Hr.
  - rewrite compare_null in H; [by apply IH|done|by right].
  - apply bind_val_inv in H as (c & Hc & H). destruct (compare_eval _ OpEq _ _ _ ltac:(done) Hl Hr Hc) as (o & b & Ho & Hb & ->).
    unfold equal_values. rewrite Ho. destruct o; cbn in Hb; injection Hb as <-; cbn in H; auto.
Qed.

Lemma not_in_is_all l es sn v : is_null l = false ->
  quantified_loop to_lowercase ev NotEq l false sn es = Val (Ok v) -> in_list_loop ev l true sn es = Val (Ok v).
Proof.
  intros Hl. revert sn. induction es as [|e es IH]; intros sn; cbn [quantified_loop in_list_loop]; [done|].
  intros (r & -> & H)%bind_val_inv. cbn. destruct (is_null r) eqn:Hr.
  - rewrite compare_null in H; [by apply IH|done|by right].
  - apply bind_val_inv in H as (c & Hc & H). destruct (compare_eval _ NotEq _ _ _ ltac:(done) Hl Hr Hc) as (o & b & Ho & Hb & ->).
    unfold equal_values. rewrite Ho. destruct o; cbn in Hb; injection Hb as <-; cbn in H; auto.
Qed.

Abbreviation between_and e lo hi := (EBinary And (EBinary GtEq e lo) (EBinary LtEq e hi)).

Lemma between_to_and e lo hi : ev (EBetween e lo hi false) = Val (Ok (Bool true)) -> ev (between_and e lo hi) = Val (Ok (Bool true)).
Proof.
  cbn [eval_expr]. intros (x & Hx & H)%bind_val_inv. rewrite Hx. apply bind_val_inv in H as (a & Ha & H). rewrite Ha.
  apply bind_val_inv in H as (b & Hb & H). rewrite Hb. cbn [mbind res_bind].
  destruct (is_null x || is_null a || is_null b) eqn:Hn; [done|]. apply orb_false_elim in Hn as [[Hxn Han]%orb_false_elim Hbn].
  injection H as H. apply andb_prop in H as [H1 H2]. unfold eval_binary. rewrite Hxn, Han, Hbn. cbn [is_logical negb andb orb].
  destruct (compare_values x a) as [[]|]; try done; (destruct (compare_values x b) as [[]|]; done).
Qed.

Lemma comparison_true op l r : is_logical op = false -> compare_op op Eq <> None -> forall v, is_null v = false -> is_true v = true ->
  eval_binary to_lowercase op l r = Val (Ok v) -> is_null l || is_null r = false /\ exists c, compare_values l r = Some c /\ compare_op op c = Some true.
Proof.
  intros Hop Hc v Hv Ht H. destruct (is_null l || is_null r) eqn:Hn.
  { rewrite compare_null in H by (done || by apply orb_prop in Hn). by injection H as <-. }
  apply orb_false_elim in Hn as [Hl Hr]. destruct (compare_eval _ op l r v Hc Hl Hr H) as (c & b & Hlr & Hb & ->).
  split; [done|]. exists c. split; [done|]. by destruct b.
Qed.

Lemma and_to_between e lo hi : ev (between_and e lo hi) = Val (Ok (Bool true)) -> ev (EBetween e lo hi false) = Val (Ok (Bool true)).
Proof.
  cbn [eval_expr]. intros (g & Hg & H)%bind_val_inv. destruct (negb (is_null g) && negb (is_true g)) eqn:Hs; [done|].
  apply bind_val_inv in H as (r & Hr & H). unfold eval_binary in H. cbn [is_logical negb andb] in H.
  destruct (is_null g || is_null r) eqn:Hn; [done|]. apply orb_false_elim in Hn as [Hgn Hrn]. injection H as H. apply andb_prop in H as [Hgt Hrt].
  apply bind_val_inv in Hg as (x & Hx & Hg). apply bind_val_inv in Hg as (a & Ha & Hg).
  rewrite Hx in Hr |- *. cbn [mbind res_bind] in Hr |- *. apply bind_val_inv in Hr as (b & Hb & Hr). rewrite Ha, Hb. cbn [mbind res_bind].
  destruct (comparison_true GtEq x a eq_refl ltac:(done) g Hgn Hgt Hg) as (Hxa & c & Hc & Hct).
  destruct (comparison_true LtEq x b eq_refl ltac:(done) r Hrn Hrt Hr) as (Hxb & d & Hd & Hdt).
  apply orb_false_elim in Hxb as [_ Hbn]. rewrite Hxa, Hbn, Hc, Hd. by destruct c, d.
Qed.

Lemma simple_case_loop o ws r :
  ev o ≫= (fun v => case_loop ev None ((fun w => (EBinary OpEq o w.1, w.2)) <$> ws)) = Val (Ok r) ->
  ev o ≫= (fun v => case_loop ev (Some v) ws) = Val (Ok r).
Proof.
  intros (v & Hv & H)%bind_val_inv. rewrite Hv. cbn. induction ws as [|[c e] ws IH]; [done|]. cbn [fmap list_fmap case_loop fst snd] in *.
  apply bind_val_inv in H as (x & Hx & H). cbn [eval_expr] in Hx. rewrite Hv in Hx. cbn in Hx. apply bind_val_inv in Hx as (y & -> & Hx). cbn.
  destruct (is_null v) eqn:Hvn; [rewrite compare_null in Hx by auto; injection Hx as <-; cbn in *; auto|].
  destruct (is_null y) eqn:Hyn; [rewrite compare_null in Hx by auto; injection Hx as <-; cbn in *; auto|].
  destruct (compare_eval _ OpEq _ _ _ ltac:(done) Hvn Hyn Hx) as (k & b & Hk & Hb & ->). unfold equal_values. rewrite Hk. cbn in Hb.
  injection Hb as <-. destruct k; cbn in *; auto.
Qed.
End derived.

(** * Evaluation depends on columns only through their lookup *)

(** [m2] yields whatever [m1] yields. *)
Definition covers {A} (m1 m2 : res str A) : Prop := forall v, m1 = Val (Ok v) -> m2 = Val (Ok v).

Lemma covers_refl {A} (m : res str A) : covers m m.
Proof. by intros v. Qed.
Lemma covers_bind {A B} (m1 m2 : res str A) (f g : A -> res str B) : covers m1 m2 -> (forall a, covers (f a) (g a)) -> covers (m1 ≫= f) (m2 ≫= g).
Proof. intros Hm Hf v (a & Ha & H)%bind_val_inv. rewrite (Hm a Ha). by apply Hf. Qed.
#[export] Hint Resolve covers_refl : yields.

Definition lookup_column (col_names : list str) (row : list Value) (qualifier : option str) (name : str) : res str Value :=
  i ← Val (resolve_column col_names qualifier name) : res str nat; lift (expect (row !! i)).

Section monotone.
Context (to_lowercase : str -> str) (call : str -> list Value -> res str Value) {Q : Type}.

Section loops_mono.
Context (f g : Expr Q -> res str Value).
Abbreviation mono := (fun e => covers (f e) (g e)).

Lemma eval_all_mono es : Forall mono es -> covers (eval_all f es) (eval_all g es).
Proof. induction 1; cbn; [apply covers_refl|]. apply covers_bind; [done|]. intros v. apply covers_bind; [done|]. intros; apply covers_refl. Qed.
Lemma in_list_mono t n sn es : Forall mono es -> covers (in_list_loop f t n sn es) (in_list_loop g t n sn es).
Proof.
  intros H. revert sn. induction H as [|e es He _ IH]; intros sn; cbn; [apply covers_refl|]. apply covers_bind; [done|]. intros v.
  destruct (is_null v); [apply IH|]. destruct (equal_values t v); [apply covers_refl|apply IH].
Qed.
Lemma quantified_mono op l st sn es : Forall mono es -> covers (quantified_loop to_lowercase f op l st sn es) (quantified_loop to_lowercase g op l st sn es).
Proof.
  intros H. revert sn. induction H as [|e es He _ IH]; intros sn; cbn; [apply covers_refl|]. apply covers_bind; [done|]. intros v.
  apply covers_bind; [apply covers_refl|]. intros c. destruct c; try apply IH. destruct (Bool.eqb b st); [apply covers_refl|apply IH].
Qed.
Lemma case_mono o ws : Forall (fun w => mono w.1 /\ mono w.2) ws -> covers (case_loop f o ws) (case_loop g o ws).
Proof.
  induction 1 as [|[c r] ws [Hc Hr] _ IH]; cbn; [apply covers_refl|]. apply covers_bind; [done|]. intros v.
  match goal with |- context [if ?b then _ else _] => destruct b end; [|apply IH]. apply covers_bind; [done|]. intros; apply covers_refl.
Qed.
End loops_mono.

Lemma eval_mono names1 row1 names2 row2 :
  (forall qual name, covers (lookup_column names1 row1 qual name) (lookup_column names2 row2 qual name)) ->
  forall e : Expr Q, covers (eval_expr to_lowercase call names1 row1 e) (eval_expr to_lowercase call names2 row2 e).
Proof.
  intros Hcol. induction e using Expr_induct; cbn [eval_expr]; try apply covers_refl; try apply Hcol;
    repeat (apply covers_bind; [done|]; intros ?); try apply covers_refl.
  - destruct op; try (apply covers_bind; [done|]; intros; apply covers_refl);
      (match goal with |- context [if ?b then _ else _] => destruct b end; [apply covers_refl|]; apply covers_bind; [done|]; intros; apply covers_refl).
  - by apply quantified_mono.
  - apply covers_bind; [by apply eval_all_mono|]. intros; apply covers_refl.
  - apply covers_bind; [by apply eval_all_mono|]. intros; apply covers_refl.
  - destruct (is_null a); [apply covers_refl|by apply in_list_mono].
  - apply covers_bind; [destruct o; [apply covers_bind; [done|]; intros; apply covers_refl|apply covers_refl]|]. intros ov.
    apply covers_bind; [by apply case_mono|]. intros [v|]; [apply covers_refl|]. destruct el; [done|apply covers_refl].
  - apply covers_bind; [by apply eval_all_mono|]. intros; apply covers_refl.
Qed.

(** A constant has its value on every row. *)
Lemma eval_closed (e : Expr Q) v names row :
  eval_expr to_lowercase call [] [] e = Val (Ok v) -> eval_expr to_lowercase call names row e = Val (Ok v).
Proof. apply eval_mono. by intros qual name w. Qed.
End monotone.

(** * Theorems *)

(** C20: static types tell how results are stored, and how wide integers are.  Let a
    row hold in each column NULL or a value of the variant (integer, double, decimal,
    boolean, text) that stores the column's type, and let the expression have no
    function call, do arithmetic only on integers or with a double, and have CASE
    arms stored alike ([typable]).  Then every value its evaluation yields is NULL or
    of the variant that stores the type [infer_expr_type] announces for the column.
    If moreover the row, the literals and the results of calls are in range, each
    column within its width, and the expression has no cast to int2 or int4 (which
    checks no range), no negation of one, and CASE arms of one type ([width_exact]),
    then an integer it yields fits the announced int2, int4 or int8.  Nothing is said
    about the syntax of texts (dates, JSON). *)
Theorem static_types_sound to_lowercase call {Q} col_names col_types row (e : Expr Q) t v :
  row_typed col_types row -> typable col_names col_types e = true -> infer_expr_type col_names col_types e = Val t ->
  eval_expr to_lowercase call col_names row e = Val (Ok v) ->
  represents t v
  /\ ((forall f vs, Forall num_ok vs -> forall w, call f vs = Val (Ok w) -> num_ok w) -> Forall num_ok row -> expr_forall lit_ok e = true ->
      Forall2 in_width col_types row -> width_exact col_names col_types e = true -> in_width t v).
Proof.
  intros Hrow Hok Ht Hv. split; [exact (expr_sound to_lowercase call col_names col_types row e Hrow t Hok Ht v Hv)|].
  intros Hcall Hnum Hlit Hfit Hw. destruct (narrow t) eqn:Hn; [exact (expr_width to_lowercase call col_names col_types row e Hfit t Hw Ht Hn v Hv)|].
  pose proof (expr_safe to_lowercase call Hcall col_names row Hnum e Hlit v Hv). by destruct v, t.
Qed.

Definition no_call (f : str) (vs : list Value) : res str Value := fail (lit "function does not exist: " ++ f).
Definition demo_expr : Expr unit :=
  ECase None [(EBinary OpGt (EColumn (lit "a")) (EInt 2), EBinary Mul (EQualified (lit "t") (lit "a")) (EInt 10))] (Some (ECast (EStr (lit " 7 ")) TInt4)).
Definition demo_cols : list str := [lit "t.a"; lit "t.b"].

Definition wide_expr : Expr unit := EBinary Mul (EQualified (lit "t") (lit "a")) (EInt 10).

Lemma static_types_sound_witness :
  (represents TInt8 (Int 50) /\ eval_expr id no_call demo_cols [Int 5; Null] demo_expr = Val (Ok (Int 50)))
  /\ in_width TInt8 (Int 50) /\ eval_expr id no_call demo_cols [Int 5; Null] wide_expr = Val (Ok (Int 50)).
Proof.
  assert (row_typed [TInt4; TText] [Int 5; Null]) as R by (constructor; [reflexivity|constructor; [exact I|constructor]]).
  split_and!; [|reflexivity| |reflexivity].
  - apply (static_types_sound id no_call demo_cols [TInt4; TText] [Int 5; Null] demo_expr); [exact R|reflexivity..].
  - apply (static_types_sound id no_call demo_cols [TInt4; TText] [Int 5; Null] wide_expr); [exact R|reflexivity..|done| |reflexivity| |reflexivity].
    + repeat constructor; done.
    + repeat constructor; done.
Defined.

(** The integer operators with an exact result. *)
Definition ring_op (op : BinaryOp) (x y : Z) : option Z :=
  match op with Add => Some (x + y) | Sub => Some (x - y) | Mul => Some (x * y) | _ => None end.

(** C21: numbers stay in range.  When the integer literals, the row and the results
    of functions are 64-bit integers and well-formed decimals, so is every number
    that an evaluation yields, whatever the operators, casts and branches taken.
    And +, - and * of two integers yield their exact result when it fits 64 bits
    and the error integer out of range otherwise.  Nothing is said about
    evaluations that end in an error or a panic; the least integer negated is itself
    and divided by -1 panics, and casts of doubles to integers saturate. *)
Theorem eval_numbers_in_range to_lowercase call {Q} col_names row (e : Expr Q) :
  (forall f vs, Forall num_ok vs -> forall w, call f vs = Val (Ok w) -> num_ok w) -> Forall num_ok row -> expr_forall lit_ok e = true ->
  let ev := eval_expr to_lowercase call col_names row in
  (forall v, ev e = Val (Ok v) -> num_ok v)
  /\ (forall op a b x y z, e = EBinary op a b -> ev a = Val (Ok (Int x)) -> ev b = Val (Ok (Int y)) -> ring_op op x y = Some z ->
        (in_i 64 z -> ev e = Val (Ok (Int z))) /\ (~ in_i 64 z -> ev e = Val (Err OUT_OF_RANGE))).
Proof.
  intros Hcall Hrow Hok ev. split.
  - intros v Hv. exact (expr_safe to_lowercase call Hcall col_names row Hrow e Hok v Hv).
  - intros op a b x y z -> Ha Hb Hz. unfold ev in *.
    assert (eval_expr to_lowercase call col_names row (EBinary op a b) = checked_int z) as ->.
    { destruct op; try discriminate Hz; injection Hz as <-; cbn [eval_expr]; rewrite Ha; cbn [mbind res_bind]; rewrite Hb; reflexivity. }
    unfold checked_int. split; intros H; [by rewrite bool_decide_eq_true_2|by rewrite bool_decide_eq_false_2].
Qed.

Lemma eval_numbers_in_range_witness :
  num_ok (Int (2 ^ 63 - 1)) /\ eval_expr id no_call demo_cols [Int (2 ^ 63 - 1); Null] (EBinary Add (EColumn (lit "a")) (EInt 1) : Expr unit) = Val (Err OUT_OF_RANGE).
Proof.
  assert (Forall num_ok [Int (2 ^ 63 - 1); Null]) as F by (constructor; [done|]; constructor; [exact I|constructor]).
  split.
  - apply (eval_numbers_in_range id no_call demo_cols [Int (2 ^ 63 - 1); Null] (EColumn (lit "a") : Expr unit)); [done|done|reflexivity..].
  - destruct (eval_numbers_in_range id no_call demo_cols [Int (2 ^ 63 - 1); Null] (EBinary Add (EColumn (lit "a")) (EInt 1) : Expr unit)) as [_ H]; [done|done|reflexivity|].
    apply (H Add (EColumn (lit "a")) (EInt 1) (2 ^ 63 - 1) 1 (2 ^ 63)); [reflexivity..|]. unfold in_i. lia.
Defined.

(** C22: the derived forms against what SQL says they abbreviate, in the directions
    that hold: where [e = ANY (es)] yields a value, [e IN (es)] yields the same one;
    where [e <> ALL (es)] yields one, [e NOT IN (es)] yields the same one; [e BETWEEN lo AND hi]
    yields true exactly when [e >= lo AND e <= hi] does (where they do not, one may
    yield false and the other NULL or an error); and where the searched CASE of the
    equalities [o = w] yields a value, with at least one WHEN, the simple CASE over
    [o] yields the same one.  The converses of the first, second and last fail, since IN and the simple CASE take
    values of different kinds for unequal where [=] is an error. *)
Theorem derived_forms_agree to_lowercase call {Q} col_names row (e o lo hi : Expr Q) es ws el v :
  let ev := eval_expr to_lowercase call col_names row in
  (ev (EQuantified e OpEq Any es) = Val (Ok v) -> ev (EInList e es false) = Val (Ok v))
  /\ (ev (EQuantified e NotEq All es) = Val (Ok v) -> ev (EInList e es true) = Val (Ok v))
  /\ (ev (EBetween e lo hi false) = Val (Ok (Bool true)) <-> ev (EBinary And (EBinary GtEq e lo) (EBinary LtEq e hi)) = Val (Ok (Bool true)))
  /\ (ws <> [] ->
      ev (ECase None ((fun w => (EBinary OpEq o w.1, w.2)) <$> ws) el) = Val (Ok v) -> ev (ECase (Some o) ws el) = Val (Ok v)).
Proof.
  cbn zeta. split_and!.
  - cbn [eval_expr stops]. intros (l & -> & H)%bind_val_inv. cbn. destruct (is_null l) eqn:Hl; [|by eapply in_list_is_any].
    destruct l; try done. by rewrite (quantified_null to_lowercase call col_names row OpEq true es v eq_refl H).
  - cbn [eval_expr stops]. intros (l & -> & H)%bind_val_inv. cbn. destruct (is_null l) eqn:Hl; [|by eapply not_in_is_all].
    destruct l; try done. by rewrite (quantified_null to_lowercase call col_names row NotEq false es v eq_refl H).
  - split; [apply between_to_and|apply and_to_between].
  - destruct ws as [|[c r] ws]; [done|]. intros _. cbn [eval_expr]. intros (? & [= <-] & H)%bind_val_inv.
    apply bind_val_inv in H as (x & Hx & H).
    assert (exists ov, eval_expr to_lowercase call col_names row o = Val (Ok ov)) as [ov Hov].
    { cbn [fmap list_fmap case_loop] in Hx. apply bind_val_inv in Hx as (? & Hx & _). cbn [eval_expr fst] in Hx. apply bind_val_inv in Hx as (ov & Hov & _). eauto. }
    pose proof (simple_case_loop to_lowercase call col_names row o ((c, r) :: ws) x) as HH. rewrite Hov in *. cbn [mbind res_bind] in HH.
    cbn [mbind res_bind mret res_ret]. rewrite (HH Hx). exact H.
Qed.

Lemma derived_forms_agree_witness :
  eval_expr id no_call demo_cols [Int 5; Null] (EInList (EColumn (lit "a")) [EInt 4; EColumn (lit "b")] false : Expr unit) = Val (Ok Null)
  /\ eval_expr id no_call demo_cols [Int 5; Null] (ECase (Some (EColumn (lit "a"))) [(EInt 5, EStr (lit "five"))] None : Expr unit) = Val (Ok (Text (lit "five"))).
Proof.
  split.
  - refine (proj1 (derived_forms_agree id no_call (Q := unit) demo_cols [Int 5; Null] (EColumn (lit "a")) ENull ENull ENull [EInt 4; EColumn (lit "b")] [] None Null) _). reflexivity.
  - refine (proj2 (proj2 (proj2 (derived_forms_agree id no_call (Q := unit) demo_cols [Int 5; Null] ENull (EColumn (lit "a")) ENull ENull [] [(EInt 5, EStr (lit "five"))] None (Text (lit "five"))))) _ _); [done|reflexivity].
Defined.

(** Where the evaluator departs from SQL: NULL OR true and NULL AND false are NULL,
    a decimal sum is announced as bigint, a decimal cannot be negated or cast to
    an integer, a cast to smallint does not check its range, negating the least
    integer yields it again, and dividing it by -1 panics. *)
Lemma eval_anomalies :
  let ev := eval_expr id no_call (Q := unit) [lit "n"] [Num (bd "1.5")] in
  ev (EBinary Or ENull (EBool true)) = Val (Ok Null)
  /\ ev (EBinary And ENull (EBool false)) = Val (Ok Null)
  /\ infer_expr_type [lit "n"] [TNumeric] (EBinary Add (EColumn (lit "n")) (EInt 1) : Expr unit) = Val TInt8
  /\ ev (EBinary Add (EColumn (lit "n")) (EInt 1)) = Val (Ok (Num (bd "2.5")))
  /\ ev (EUnary Neg (EColumn (lit "n"))) = Val (Err (lit "cannot negate numeric"))
  /\ ev (ECast (EColumn (lit "n")) TInt4) = Val (Err (lit "cannot coerce value to integer"))
  /\ ev (ECast (EInt 70000) TInt2) = Val (Ok (Int 70000))
  /\ ev (EUnary Neg (EInt (- 2 ^ 63))) = Val (Ok (Int (- 2 ^ 63)))
  /\ ev (EBinary Div (EInt (- 2 ^ 63)) (EInt (-1))) = Panic.
Proof. vm_compute. split_and!; reflexivity. Qed.
