(* ===== verification/Planner.v ===== *)
(** Index planning of crates/engine/src/executor.rs: the access paths that the
    WHERE clause of a scan, an UPDATE or a DELETE opens through the indexes of a
    table, with the lookups of storage.rs that serve them.  Evaluating a constant
    may panic, so planning runs in [run]. *)

From S2P Require Import Prelude Utf8 Numeric Types Float BTree Index Storage Wire FloatOps Datetime Json Containers Pattern LockStmt Ast Eval.
From stdpp Require Import gmap.

#[local] Open Scope Z_scope.

(** * Lookups of a table *)

Section lookups.
Context {E : Type}.
Implicit Types t : Table E.

Fixpoint position {A} (p : A -> bool) (i : Z) (l : list A) : option Z :=
  match l with [] => None | x :: l => if p x then Some i else position p (i + 1) l end.

(** [Table::column_index] *)
Definition column_index t (name : str) : option Z := position (fun c => str_eqb (col_name c) name) 0 (columns t).
(** [Table::index_prefix_multi], [Table::index_all_positions], [Table::index_eq_expr] *)
Definition index_prefix_multi t (i : Z) (values : list Value) : run (list Z) :=
  idx ← expect (zget (indexes t) i); Val (ids_to_positions t (store_lookup_prefix (idx_store idx) values)).
Definition index_all_positions t (i : Z) : run (list Z) :=
  idx ← expect (zget (indexes t) i); Val (ids_to_positions t (store_all (idx_store idx))).
Definition index_eq_expr t (i : Z) (key : Value) : run (list Z) := index_eq_multi t i [key].
(** [Table::gin_index_on] and [Table::gin_contains_positions] *)
Definition gin_index_on t (column : Z) : option Z :=
  position (fun idx => plain_on column idx && bool_decide (idx_method idx = Gin)) 0 (indexes t).
Definition gin_contains_positions t (i : Z) (needles : list str) : run (option (list Z)) :=
  idx ← expect (zget (indexes t) i);
  Val (option_map (ids_to_positions t) (store_gin_contains (idx_store idx) needles)).
End lookups.

(** * Plans *)

Inductive IndexPlan :=
| PlanEq (v : Value)
| PlanIn (vs : list Value)
| PlanRange (lo hi : option Bound).

(** [range_from_op]; other operators are unreachable. *)
Definition range_from_op (op : BinaryOp) (v : Value) : run IndexPlan :=
  match op with
  | OpLt => Val (PlanRange None (Some (mk_bound v false)))
  | LtEq => Val (PlanRange None (Some (mk_bound v true)))
  | OpGt => Val (PlanRange (Some (mk_bound v false)) None)
  | GtEq => Val (PlanRange (Some (mk_bound v true)) None)
  | _ => Panic
  end.

(** [flip_op] *)
Definition flip_op (op : BinaryOp) : BinaryOp :=
  match op with OpLt => OpGt | LtEq => GtEq | OpGt => OpLt | GtEq => LtEq | other => other end.

(** [positions.into_iter().filter(|p| seen.insert( *p))] *)
Fixpoint dedup_seen (seen : list Z) (l : list Z) : list Z :=
  match l with
  | [] => []
  | p :: l => if bool_decide (p ∈ seen) then dedup_seen seen l else p :: dedup_seen (p :: seen) l
  end.

Section planner.
Context (to_lowercase : str -> str) (call : str -> list Value -> res str Value) {Q : Type} (q_eqb : Q -> Q -> bool).
Abbreviation E := (Expr Q).
Abbreviation ev := (eval_expr to_lowercase call (Q := Q)).
Implicit Types t : Table E.

(** [column_index_of] *)
Definition column_index_of (e : E) t : option Z :=
  match e with EColumn name | EQualified _ name => column_index t name | _ => None end.

(** [eval_expr(..).ok()] *)
Definition eval_ok (e : E) : run (option Value) :=
  match ev [] [] e with Val (Ok v) => Val (Some v) | Val (Err _) => Val None | Panic => Panic end.

(** [const_value] *)
Definition const_value (e : E) : run (option Value) :=
  match e with
  | EInt _ | EFloat _ | EStr _ | EBool _ | ENull | EUnary _ _ | ECast _ _ => eval_ok e
  | _ => Val None
  end.

(** [(column_index_of(l), const_value(r))] when both are there *)
Definition col_const t (l r : E) : run (option (Z * Value)) :=
  v ← const_value r; Val (c ← column_index_of l t; v ← v; Some (c, v)).

Fixpoint const_values (es : list E) : run (option (list Value)) :=
  match es with
  | [] => Val (Some [])
  | e :: es =>
      v ← const_value e;
      match v with
      | Some v => vs ← const_values es; Val (option_map (cons v) vs)
      | None => Val None
      end
  end.

(** [plan_index_access] *)
Fixpoint plan_index_access (filter : E) t : run (option (Z * IndexPlan)) :=
  match filter with
  | EBinary OpEq lhs rhs =>
      p ← col_const t lhs rhs;
      match p with
      | Some (col, v) => Val (Some (col, PlanEq v))
      | None =>
          p ← col_const t rhs lhs;
          match p with Some (col, v) => Val (Some (col, PlanEq v)) | None => Val None end
      end
  | EBinary ((OpLt | LtEq | OpGt | GtEq) as op) lhs rhs =>
      p ← col_const t lhs rhs;
      match p with
      | Some (col, v) => plan ← range_from_op op v; Val (Some (col, plan))
      | None =>
          p ← col_const t rhs lhs;
          match p with Some (col, v) => plan ← range_from_op (flip_op op) v; Val (Some (col, plan)) | None => Val None end
      end
  | EInList e es false =>
      match column_index_of e t with
      | Some col => vs ← const_values es; Val (vs ← vs; Some (col, PlanIn vs))
      | None => Val None
      end
  | EBetween e low high false =>
      match column_index_of e t with
      | Some col =>
          lo ← const_value low;
          match lo with
          | Some lo => hi ← const_value high; Val (hi ← hi; Some (col, PlanRange (Some (mk_bound lo true)) (Some (mk_bound hi true))))
          | None => Val None
          end
      | None => Val None
      end
  | EBinary And lhs rhs =>
      p ← plan_index_access lhs t;
      match p with Some p => Val (Some p) | None => plan_index_access rhs t end
  | _ => Val None
  end.

(** [and_conjuncts] *)
Fixpoint and_conjuncts (filter : E) : list E :=
  match filter with
  | EBinary And lhs rhs => and_conjuncts lhs ++ and_conjuncts rhs
  | other => [other]
  end.

Record EqFacts := mk_facts { by_column : gmap Z Value; pairs : list (E * E) }.

Definition or_insert (m : gmap Z Value) (p : option (Z * Value)) : gmap Z Value :=
  match p with
  | Some (c, v) => match m !! c with Some _ => m | None => <[c := v]> m end
  | None => m
  end.

(** [collect_eq_facts] *)
Fixpoint collect_eq_facts (conjuncts : list E) t (facts : EqFacts) : run EqFacts :=
  match conjuncts with
  | [] => Val facts
  | EBinary OpEq lhs rhs :: conjuncts =>
      p ← col_const t lhs rhs;
      p ← match p with Some p => Val (Some p) | None => col_const t rhs lhs end;
      collect_eq_facts conjuncts t (mk_facts (or_insert (by_column facts) p) (pairs facts ++ [(lhs, rhs)]))
  | _ :: conjuncts => collect_eq_facts conjuncts t facts
  end.

(** the elements that [col @> rhs] asks for, when [rhs] is an array constant *)
Definition gin_needles (rhs : E) : run (option (list str)) :=
  v ← eval_ok rhs;
  Val (match v with
       | Some v => match to_text v with Some text => option_map (omap id) (parse_array_text text) | None => None end
       | None => None
       end).
(** the body of the loop of [gin_index_positions] *)
Definition gin_column t (col : Z) (rhs : E) : run (option (list Z)) :=
  ty ← (match zget (columns t) col with Some c => Val (data_type c) | None => Panic end);
  if bool_decide (ty = TJsonb) then Val None
  else
    match gin_index_on t col with
    | None => Val None
    | Some i => ns ← gin_needles rhs; match ns with Some ns => gin_contains_positions t i ns | None => Val None end
    end.
Definition gin_conjunct t (c : E) : run (option (list Z)) :=
  match c with
  | EBinary (ArrayOperator ArrayContains) lhs rhs => match column_index_of lhs t with Some col => gin_column t col rhs | None => Val None end
  | _ => Val None
  end.
(** [gin_index_positions] *)
Fixpoint gin_index_positions t (conjuncts : list E) : run (option (list Z)) :=
  match conjuncts with
  | [] => Val None
  | c :: conjuncts => r ← gin_conjunct t c; match r with Some ps => Val (Some ps) | None => gin_index_positions t conjuncts end
  end.

Definition exprs_equal (a b : E) : bool := expr_eqb q_eqb a b.

(** the loop over the equality pairs for an expression index *)
Fixpoint expr_key (iexpr : E) (ps : list (E * E)) : run (option Value) :=
  match ps with
  | [] => Val None
  | (l, r) :: ps =>
      k ← (if exprs_equal l iexpr then const_value r else if exprs_equal r iexpr then const_value l else Val None);
      match k with Some v => Val (Some v) | None => expr_key iexpr ps end
  end.

(** the longest prefix of the columns with an equality *)
Fixpoint eq_prefix (facts : EqFacts) (cols : list Z) : list Value :=
  match cols with
  | [] => []
  | c :: cols => match by_column facts !! c with Some v => v :: eq_prefix facts cols | None => [] end
  end.

(** the body of the loop of [advanced_index_positions]; [None] continues *)
Definition advanced_index t (conjuncts : list E) (facts : EqFacts) (i : Z) (idx : Index.Index E) : run (option (list Z)) :=
  if match idx_predicate idx with Some pred => negb (existsb (fun c => exprs_equal c pred) conjuncts) | None => false end then Val None
  else
    match idx_expr idx with
    | Some iexpr =>
        k ← expr_key iexpr (pairs facts);
        match k with Some v => ps ← index_eq_expr t i v; Val (Some ps) | None => Val None end
    | None =>
        match idx_columns idx with
        | [col] =>
            match idx_predicate idx with
            | None => Val None
            | Some _ =>
                match by_column facts !! col with
                | Some v => ps ← index_eq_multi t i [v]; Val (Some ps)
                | None => ps ← index_all_positions t i; Val (Some ps)
                end
            end
        | cols =>
            match eq_prefix facts cols with
            | [] => Val None
            | key =>
                if (length key =? length cols)%nat then ps ← index_eq_multi t i key; Val (Some ps)
                else if is_ordered (idx_method idx) then ps ← index_prefix_multi t i key; Val (Some ps)
                else Val None
            end
        end
    end.
Fixpoint advanced_loop t (conjuncts : list E) (facts : EqFacts) (i : Z) (ixs : list (Index.Index E)) : run (option (list Z)) :=
  match ixs with
  | [] => Val None
  | idx :: ixs =>
      r ← advanced_index t conjuncts facts i idx;
      match r with Some ps => Val (Some ps) | None => advanced_loop t conjuncts facts (i + 1) ixs end
  end.

(** [advanced_index_positions] *)
Definition advanced_index_positions t (filter : E) : run (option (list Z)) :=
  let conjuncts := and_conjuncts filter in
  g ← gin_index_positions t conjuncts;
  match g with
  | Some ps => Val (Some ps)
  | None => facts ← collect_eq_facts conjuncts t (mk_facts ∅ []); advanced_loop t conjuncts facts 0 (indexes t)
  end.

Definition plan_positions t (col : Z) (plan : IndexPlan) : run (option (list Z)) :=
  match plan with
  | PlanEq v => Val (index_eq t col v)
  | PlanIn vs => Val (Some (flat_map (fun v => default [] (index_eq t col v)) vs))
  | PlanRange lo hi => match index_range t col lo hi with Some r => ps ← r; Val (Some ps) | None => Val None end
  end.

(** [index_candidate_positions] *)
Definition index_candidate_positions t (filter : E) : run (option (list Z)) :=
  a ← advanced_index_positions t filter;
  match a with
  | Some ps => Val (Some (dedup_seen [] ps))
  | None =>
      p ← plan_index_access filter t;
      match p with
      | None => Val None
      | Some (col, plan) =>
          match index_on t col with
          | None => Val None
          | Some _ => ps ← plan_positions t col plan; Val (option_map (dedup_seen []) ps)
          end
      end
  end.

(** [candidate_positions] *)
Definition candidate_positions t (filter : option E) : run (list Z) :=
  c ← match filter with Some pred => index_candidate_positions t pred | None => Val None end;
  Val (match c with Some ps => ps | None => Z.of_nat <$> seq 0 (length (rows t)) end).
End planner.

(** * Tokens of an array are its elements *)

Lemma upper_lower_char c d : to_ascii_upper c = to_ascii_upper d <-> to_ascii_lower c = to_ascii_lower d.
Proof.
  unfold to_ascii_upper, to_ascii_lower, is_ascii_lower, is_ascii_upper.
  destruct ((97 <=? c) && (c <=? 122)) eqn:A, ((97 <=? d) && (d <=? 122)) eqn:B, ((65 <=? c) && (c <=? 90)) eqn:C, ((65 <=? d) && (d <=? 90)) eqn:D;
    zb; lia.
Qed.

Lemma upper_lower_eq (a b : str) : to_ascii_upper <$> a = to_ascii_upper <$> b <-> to_ascii_lower <$> a = to_ascii_lower <$> b.
Proof.
  revert b. induction a as [|c a IH]; intros [|d b]; [done..|]. rewrite !fmap_cons.
  split; intros H; injection H as H1 H2; f_equal; (by apply upper_lower_char) || (by apply IH).
Qed.

Lemma gin_push_element cur wq out : gin_push cur wq out = out ++ omap id [array_element cur wq].
Proof.
  unfold gin_push, array_element, eq_ignore_case. replace (str_eqb (to_ascii_upper <$> cur) (lit "NULL")) with (str_eqb (to_ascii_lower <$> cur) (to_ascii_lower <$> lit "NULL")).
  - destruct (negb wq && _); cbn; by rewrite ?app_nil_r.
  - unfold str_eqb. apply bool_decide_ext. change (lit "NULL") with (to_ascii_upper <$> lit "NULL") at 2. by rewrite upper_lower_eq.
Qed.

(** The GIN tokenizer and the array parser split a literal alike. *)
Lemma gin_scan_chars s : forall cur qd wq esc out, (esc = true -> qd = true) -> gin_scan s cur qd wq esc out = out ++ omap id (array_chars cur qd wq esc s).
Proof.
  induction s as [|c s IH]; intros cur qd wq esc out He; cbn [gin_scan array_chars]; [apply gin_push_element|].
  destruct esc; [by apply IH|]. destruct qd.
  - destruct (c =? 92); [by apply IH|]. destruct (c =? 34); by apply IH.
  - destruct (c =? 34); [by apply IH|]. destruct (c =? 44); [|by apply IH].
    rewrite IH by done. rewrite gin_push_element, <- app_assoc. f_equal. cbn. by destruct (array_element cur wq).
Qed.

Lemma gin_tokens_array x text es : to_text x = Some text -> parse_array_text text = Some es -> gin_tokens x = omap id es.
Proof.
  unfold gin_tokens, parse_array_text, ends_with_byte. intros ->. rewrite <- negb_andb.
  destruct (negb (_ && _)); [done|]. destruct (_ =? 2); intros [= <-]; [done|]. by rewrite gin_scan_chars.
Qed.

(** * Comparison of values of one kind *)

Lemma compare_same_kind k a b c : kind_ok k a -> kind_ok k b -> is_null a = false -> is_null b = false ->
  compare_values a b = Some c -> cmp_value a b = c.
Proof.
  destruct a, b; cbn [kind_ok is_null]; try done; intros; destruct_and?; subst; try done; cbn in *; try congruence.
  rewrite H3. done.
Qed.

Lemma compare_true lower op a b w : compare_op op Eq <> None -> eval_binary lower op a b = Val (Ok w) -> is_true w = true ->
  is_null a = false /\ is_null b = false /\ exists c, compare_values a b = Some c /\ compare_op op c = Some true.
Proof.
  intros Hop H Hw. assert (is_logical op = false) as Hl by (by destruct op).
  destruct (is_null a) eqn:Ha; [rewrite compare_null in H by auto; by injection H as <-|].
  destruct (is_null b) eqn:Hb; [rewrite compare_null in H by auto; by injection H as <-|].
  destruct (compare_eval lower op a b w Hop Ha Hb H) as (c & r & Hc & Hr & ->). split_and!; [done..|]. exists c. by destruct r.
Qed.

(** * The indexes hold the rows *)

Lemma store_all_complete kinds m s A id k : tracks kinds m s A -> m <> Hash -> A !! id = Some k -> id ∈ store_all s.
Proof.
  intros T Hm L. pose proof (tracks_method _ _ _ _ T) as M. pose proof (tracks_rep _ _ _ _ T) as R.
  destruct s as [tree|mp|ranges|postings all]; cbn [store_rep store_all store_method] in *; [| | |].
  - apply (all_spec kinds m (SBtree tree) A T M). eauto.
  - done.
  - destruct R as (S & _ & B). destruct (B (id / BRIN_RANGE_SIZE)) as [_ I]. specialize (I id (first_key k)).
    destruct (bt_get Z.compare (id / BRIN_RANGE_SIZE) ranges) as [ms|] eqn:G; cbn in I.
    + apply list_elem_of_In, in_flat_map. apply (bt_get_elem (cmp := Z.compare) (ok := fun _ => True)) in G as (b & Hb & _); [|done..].
      exists (b, ms). split; [by apply list_elem_of_In|]. apply list_elem_of_In, list_elem_of_fmap. exists (id, first_key k). split; [done|].
      apply I. eauto.
    + exfalso. apply (not_elem_of_nil (id, first_key k)). apply I. eauto.
  - destruct R as (_ & _ & I & _). apply I. eauto.
Qed.

(** * The rows a filter selects are among the candidates *)

Lemma array_not_range text es : parse_array_text text = Some es -> parse_range_text text = None.
Proof.
  unfold parse_array_text, ends_with_byte. destruct (negb (_ && _)) eqn:H; [done|]. intros _.
  apply negb_false_iff, andb_prop in H as [Hh%bool_decide_eq_true Hl%bool_decide_eq_true].
  destruct text as [|c s]; [done|]. injection Hh as ->. apply last_Some in Hl as [l Hl].
  unfold parse_range_text. rewrite (trim_graph 123 s l 125 Hl) by lia. done.
Qed.

Lemma array_contains_elements x v lt rt els ers : to_text x = Some lt -> to_text v = Some rt -> parse_array_text lt = Some els ->
  parse_array_text rt = Some ers -> parse_json_full rt = None -> array_operator ArrayContains x v = Ok (Bool true) -> contains_all els ers = true.
Proof.
  unfold array_operator. intros -> -> Hl Hr Hj. unfold range_operator. rewrite (array_not_range lt els Hl). unfold jsonb_contains_operator. rewrite Hj.
  cbn [mbind option_bind]. destruct (parse_json_full lt); cbn [mbind option_bind]; rewrite Hl, Hr; cbn; by intros [= ->].
Qed.

Lemma dedup_seen_spec l seen p : p ∈ dedup_seen seen l <-> p ∈ l /\ p ∉ seen.
Proof.
  revert seen. induction l as [|x l IH]; intros seen; cbn; [split; [by intros ?%elem_of_nil|by intros [?%elem_of_nil _]]|].
  destruct (bool_decide_reflect (x ∈ seen)).
  - rewrite IH, elem_of_cons. naive_solver.
  - rewrite elem_of_cons, IH, !elem_of_cons. destruct (decide (p = x)); naive_solver.
Qed.
Lemma dedup_seen_NoDup l seen : NoDup (dedup_seen seen l).
Proof.
  revert seen. induction l as [|x l IH]; intros seen; cbn; [constructor|]. destruct (bool_decide _); [done|]. constructor; [|done].
  rewrite dedup_seen_spec, elem_of_cons. naive_solver.
Qed.

Lemma position_spec {A} (p : A -> bool) l : forall i n, position p i l = Some n -> exists x, zget l (n - i) = Some x /\ p x = true /\ i <= n.
Proof.
  induction l as [|x l IH]; intros i n; cbn; [done|]. destruct (p x) eqn:Hp.
  - intros [= <-]. exists x. rewrite Z.sub_diag. split_and!; [done|done|lia].
  - intros (y & Hy & Py & Hn)%IH. exists y. split_and!; [|done|lia]. replace (n - i) with (1 + (n - (i + 1))) by lia. by rewrite zget_cons_S by lia.
Qed.

Section completeness.
Context (to_lowercase : str -> str) (call : str -> list Value -> res str Value) {Q : Type} (q_eqb : Q -> Q -> bool).
Abbreviation E := (Expr Q).
Abbreviation ev := (eval_expr to_lowercase call (Q := Q)).

(** The evaluator the tables of the engine use; a panic yields no key. *)
Definition table_eval (e : E) (names : list str) (row : list Value) : result str Value :=
  match ev names row e with Val r => r | Panic => Err (lit "panic") end.

Context (kinds : str -> nat -> Kind) (t : Table E) (L : list (RowId * list Value)) (R : table_rep table_eval kinds t L).
(** The names the scan gives to the columns resolve as the table's own. *)
Definition names_agree (names : list str) : Prop := forall qual name i, resolve_column names qual name = Ok i ->
  resolve_column (column_names t) qual name = Ok i /\ column_index t name = Some (Z.of_nat i).
Context (names : list str) (Hnames : names_agree names).

Definition holds (row : list Value) (c : E) : Prop := exists w, ev names row c = Val (Ok w) /\ is_true w = true.

Lemma and_holds row l r : holds row (EBinary And l r) -> holds row l /\ holds row r.
Proof.
  intros (w & Hw & Ht). cbn [eval_expr] in Hw. apply bind_val_inv in Hw as (a & Ha & Hw).
  destruct (negb (is_null a) && negb (is_true a)) eqn:Hs; [by injection Hw as <-|]. apply bind_val_inv in Hw as (b & Hb & Hw). cbn in Hw.
  destruct (is_null a || is_null b); injection Hw as <-; [done|]. cbn in Ht. apply andb_prop in Ht as [? ?]. split; eexists; eauto.
Qed.

Lemma holds_conjuncts row f : holds row f -> Forall (holds row) (and_conjuncts f).
Proof.
  induction f; intros H; try (by constructor). destruct op; try (by constructor). cbn [and_conjuncts]. apply and_holds in H as [? ?].
  apply Forall_app; auto.
Qed.

Lemma column_holds e col row v : column_index_of e t = Some col -> ev names row e = Val (Ok v) -> zget row col = Some v.
Proof.
  assert (forall qual name, column_index t name = Some col -> lookup_column names row qual name = Val (Ok v) -> zget row col = Some v) as H.
  { intros qual name Hc Hl. unfold lookup_column in Hl. apply bind_val_inv in Hl as (i & Hi & Hl). injection Hi as Hi. apply Hnames in Hi as [_ Hi]. rewrite Hi in Hc. injection Hc as <-.
    rewrite zget_nat. destruct (row !! i); [|done]. by injection Hl as ->. }
  destruct e; try done; cbn [column_index_of]; apply H.
Qed.

Lemma const_holds e v row : const_value to_lowercase call e = Val (Some v) -> ev names row e = Val (Ok v).
Proof.
  intros H. apply eval_closed. assert (eval_ok to_lowercase call e = Val (Some v)) as He by (by destruct e). unfold eval_ok in He.
  destruct (ev [] [] e) as [[w|]|]; try done. by injection He as ->.
Qed.

Lemma col_const_inv l r col v : col_const to_lowercase call t l r = Val (Some (col, v)) ->
  column_index_of l t = Some col /\ const_value to_lowercase call r = Val (Some v).
Proof.
  unfold col_const. destruct (const_value _ _ r) as [[w|]|]; cbn; [| |done]; destruct (column_index_of l t); cbn; try done. by intros [= -> ->].
Qed.

(** A comparison that holds relates the column's value with the constant. *)
Lemma comparison_holds op l r col v row : compare_op op Eq <> None -> col_const to_lowercase call t l r = Val (Some (col, v)) -> holds row (EBinary op l r) ->
  exists x c, zget row col = Some x /\ is_null x = false /\ is_null v = false /\ compare_values x v = Some c /\ compare_op op c = Some true.
Proof.
  intros Hop [Hl Hr]%col_const_inv (w & Hw & Ht). assert (exists x, ev names row l = Val (Ok x) /\ eval_binary to_lowercase op x v = Val (Ok w)) as (x & Hx & Hb).
  { cbn [eval_expr] in Hw. apply bind_val_inv in Hw as (x & Hx & Hw). exists x. split; [done|]. pose proof (const_holds r v row Hr) as Hv.
    destruct op; try done; by rewrite Hv in Hw. }
  destruct (compare_true _ _ _ _ _ Hop Hb Ht) as (Nx & Nv & c & Hc & Ho). exists x, c. split_and!; try done. by eapply column_holds.
Qed.
Lemma comparison_holds_flip op l r col v row : compare_op op Eq <> None -> col_const to_lowercase call t r l = Val (Some (col, v)) -> holds row (EBinary op l r) ->
  exists x c, zget row col = Some x /\ is_null x = false /\ is_null v = false /\ compare_values v x = Some c /\ compare_op op c = Some true.
Proof.
  intros Hop [Hr Hl]%col_const_inv (w & Hw & Ht).
  assert (exists x, ev names row r = Val (Ok x) /\ eval_binary to_lowercase op v x = Val (Ok w)) as (x & Hx & Hb).
  { cbn [eval_expr] in Hw. rewrite (const_holds l v row Hl) in Hw. cbn [mbind res_bind] in Hw. destruct op; try done; apply bind_val_inv in Hw as (x & Hx & Hw); by exists x. }
  destruct (compare_true _ _ _ _ _ Hop Hb Ht) as (Nv & Nx & c & Hc & Ho). exists x, c. split_and!; try done. by eapply column_holds.
Qed.

(** ** Entries *)

Abbreviation entry := (entry_of table_eval (column_names t)).

Lemma row_in_map p id row : zget L p = Some (id, row) -> (list_to_map L : gmap RowId (list Value)) !! id = Some row.
Proof. intros H. apply (table_lookup table_eval kinds t L id row R). by exists p. Qed.

Lemma located ids p id row : zget L p = Some (id, row) -> id ∈ ids -> p ∈ ids_to_positions t ids.
Proof.
  intros Hp Hi. unfold ids_to_positions. apply list_elem_of_omap. exists id. split; [done|]. unfold position_of.
  apply (tr_pos _ _ t L R). exact (zget_fst L p id row Hp).
Qed.

Lemma entry_tracked idx p id row k : idx ∈ indexes t -> zget L p = Some (id, row) -> entry idx row = Some k ->
  exists A, tracks (kinds (idx_name idx)) (idx_method idx) (idx_store idx) A /\ A !! id = Some k /\ key_ok (kinds (idx_name idx)) k.
Proof.
  intros Hi Hp Hk. exists (omap (entry idx) (list_to_map L)). pose proof (tr_ixs _ _ t L R) as I. unfold ixs_inv in I. rewrite Forall_forall in I.
  split_and!; [by apply I|by rewrite lookup_omap, (row_in_map p id row Hp)|].
  pose proof (tr_fits _ _ t L R) as F. rewrite Forall_forall in F. specialize (F row).
  assert (row ∈ L.*2) as Hr. { apply zget_Some_nat in Hp as (n & _ & Hp). apply list_elem_of_fmap. exists (id, row). split; [done|]. by eapply list_elem_of_lookup_2. }
  specialize (F Hr). unfold fits in F. rewrite Forall_forall in F. specialize (F idx Hi). unfold fits_index in F. unfold entry_of in Hk.
  destruct (row_qualifies _ _ idx row); [|done]. destruct (F eq_refl) as (o & Ho & Hok). rewrite Ho in Hk. by apply Hok.
Qed.

Lemma mapM_expect (row : list Value) (cols : list Z) (ks : list Value) : mapM (M := run) (fun c => expect (zget row c)) cols = Val ks ->
  length ks = length cols /\ forall n c, cols !! n = Some c -> ks !! n = zget row c.
Proof.
  revert ks. induction cols as [|c cols IH]; intros ks; cbn; [intros [= <-]; split; [done|intros n c; by rewrite lookup_nil]|].
  destruct (zget row c) as [x|] eqn:Hx; cbn; [|done]. destruct (mapM _ cols) as [ks'|] eqn:Hm; cbn; [|done]. intros [= <-].
  destruct (IH ks' eq_refl) as [IH1 IH2]. split; [cbn; by f_equal|]. intros [|n] c'; cbn; [intros [= <-]; done|apply IH2].
Qed.

Lemma entry_columns idx p id row : idx ∈ indexes t -> zget L p = Some (id, row) -> idx_expr idx = None -> row_qualifies table_eval (column_names t) idx row = true ->
  exists k, entry idx row = Some k /\ length k = length (idx_columns idx) /\ forall n c, idx_columns idx !! n = Some c -> k !! n = zget row c.
Proof.
  intros Hi Hp He Hq. pose proof (tr_fits _ _ t L R) as F. rewrite Forall_forall in F. specialize (F row).
  assert (row ∈ L.*2) as Hr. { apply zget_Some_nat in Hp as (n & _ & Hp). apply list_elem_of_fmap. exists (id, row). split; [done|]. by eapply list_elem_of_lookup_2. }
  specialize (F Hr). unfold fits in F. rewrite Forall_forall in F. specialize (F idx Hi Hq) as (o & Ho & _). unfold entry_of. rewrite Hq, Ho.
  unfold index_key in Ho. rewrite He in Ho. destruct (mapM _ _) as [ks|] eqn:Hm; [|done]. cbn in Ho. injection Ho as <-.
  exists ks. split; [done|]. by apply mapM_expect.
Qed.

Lemma key_cmp_pointwise key k : length key = length k -> (forall n v x, key !! n = Some v -> k !! n = Some x -> cmp_value v x = Eq) -> Index.key_cmp key k = Eq.
Proof.
  revert k. induction key as [|v key IH]; intros [|x k] Hl H; try done. cbn. unfold Index.key_cmp in *. cbn. rewrite (H 0%nat v x) by done.
  apply IH; [by injection Hl|]. intros n. apply (H (S n)).
Qed.

Lemma eq_multi_complete i idx key p id row k ps : zget (indexes t) i = Some idx -> zget L p = Some (id, row) -> entry idx row = Some k ->
  key_ok (kinds (idx_name idx)) key -> key <> [] -> key_has_null key = false -> Index.key_cmp key k = Eq -> index_eq_multi t i key = Val ps -> p ∈ ps.
Proof.
  intros Hi Hp Hk Ko Kn Kz Hc. unfold index_eq_multi. rewrite Hi. cbn. intros [= <-]. apply (located _ p id row Hp).
  assert (idx ∈ indexes t) as He by (apply zget_Some_nat in Hi as (n & _ & Hi); by eapply list_elem_of_lookup_2).
  destruct (entry_tracked idx p id row k He Hp Hk) as (A & T & Ha & _). destruct (lookup_eq_spec _ _ _ _ _ T Ko Kn Kz) as (_ & _ & C & _). apply C. by exists k.
Qed.

(** ** Constants of the right kind *)

Definition const_ok (col : Z) (v : Value) : Prop :=
  forall idx n, idx ∈ indexes t -> idx_expr idx = None -> idx_columns idx !! n = Some col -> kind_ok (kinds (idx_name idx) n) v.

(** The constants that a conjunct compares a column with. *)
Inductive uses_const : E -> Z -> Value -> Prop :=
| uses_left op l r col v : col_const to_lowercase call t l r = Val (Some (col, v)) -> uses_const (EBinary op l r) col v
| uses_right op l r col v : col_const to_lowercase call t r l = Val (Some (col, v)) -> uses_const (EBinary op l r) col v
| uses_in e es item col v : column_index_of e t = Some col -> item ∈ es -> const_value to_lowercase call item = Val (Some v) ->
    uses_const (EInList e es false) col v
| uses_low e lo hi col v : column_index_of e t = Some col -> const_value to_lowercase call lo = Val (Some v) -> uses_const (EBetween e lo hi false) col v
| uses_high e lo hi col v : column_index_of e t = Some col -> const_value to_lowercase call hi = Val (Some v) -> uses_const (EBetween e lo hi false) col v.

(** The value of the column equals the constant, whatever their common kind. *)
Definition equals (row : list Value) (col : Z) (v : Value) : Prop :=
  exists x, zget row col = Some x /\ is_null x = false /\ is_null v = false /\ forall k, kind_ok k x -> kind_ok k v -> cmp_value v x = Eq.

Lemma cmp_flip a b k : kind_ok k a -> kind_ok k b -> cmp_value b a = CompOpp (cmp_value a b).
Proof. apply (key_antisym cmp_value (ok := kind_ok k)). Qed.

(** A comparison that holds, in terms of the order of the indexes. *)
Lemma left_cmp op l r col v row : compare_op op Eq <> None -> col_const to_lowercase call t l r = Val (Some (col, v)) -> holds row (EBinary op l r) ->
  exists x, zget row col = Some x /\ is_null x = false /\ is_null v = false
    /\ forall k, kind_ok k x -> kind_ok k v -> exists c, cmp_value x v = c /\ cmp_value v x = CompOpp c /\ compare_op op c = Some true.
Proof.
  intros Hop Hc H. destruct (comparison_holds op l r col v row Hop Hc H) as (x & c & Hx & Nx & Nv & Hcv & Ho). exists x. split_and!; [done..|].
  intros k Kx Kv. apply (compare_same_kind k) in Hcv; [|done..]. exists c. by rewrite (cmp_flip x v k), Hcv.
Qed.
Lemma right_cmp op l r col v row : compare_op op Eq <> None -> col_const to_lowercase call t r l = Val (Some (col, v)) -> holds row (EBinary op l r) ->
  exists x, zget row col = Some x /\ is_null x = false /\ is_null v = false
    /\ forall k, kind_ok k x -> kind_ok k v -> exists c, cmp_value v x = c /\ cmp_value x v = CompOpp c /\ compare_op op c = Some true.
Proof.
  intros Hop Hc H. destruct (comparison_holds_flip op l r col v row Hop Hc H) as (x & c & Hx & Nx & Nv & Hcv & Ho). exists x. split_and!; [done..|].
  intros k Kx Kv. apply (compare_same_kind k) in Hcv; [|done..]. exists c. by rewrite (cmp_flip v x k), Hcv.
Qed.

Lemma eq_holds l r col v row :
  col_const to_lowercase call t l r = Val (Some (col, v)) \/ col_const to_lowercase call t r l = Val (Some (col, v)) ->
  holds row (EBinary OpEq l r) -> equals row col v.
Proof.
  intros [Hc|Hc] H; [destruct (left_cmp OpEq l r col v row ltac:(done) Hc H) as (x & Hx & Nx & Nv & Hk)
                    |destruct (right_cmp OpEq l r col v row ltac:(done) Hc H) as (x & Hx & Nx & Nv & Hk)];
    exists x; split_and!; try done; intros k Kx Kv; destruct (Hk k Kx Kv) as (c & E1 & E2 & Ho); by destruct c.
Qed.

(** ** Equality facts *)

Section one_filter.
Context (conj : list E) (Hconst : forall c col v, c ∈ conj -> uses_const c col v -> const_ok col v).

Record facts_ok (facts : EqFacts) : Prop := {
  fo_columns col v : by_column facts !! col = Some v -> const_ok col v /\ forall row, Forall (holds row) conj -> equals row col v;
  fo_pairs l r : (l, r) ∈ pairs facts -> EBinary OpEq l r ∈ conj
}.

Lemma or_insert_ok m p col v : or_insert m p !! col = Some v -> m !! col = Some v \/ p = Some (col, v).
Proof.
  destruct p as [[c w]|]; cbn; [|by left]. destruct (m !! c) eqn:Hc; [by left|].
  destruct (decide (c = col)) as [->|Hn]; [rewrite lookup_insert_eq; intros [= ->]; by right|rewrite lookup_insert_ne by done; by left].
Qed.

Lemma collect_ok cs : forall facts facts', cs ⊆ conj -> facts_ok facts -> collect_eq_facts to_lowercase call cs t facts = Val facts' -> facts_ok facts'.
Proof.
  assert (forall p : option (Z * Value), forall m q, (p ← m; match p with Some p => Val (Some p) | None => q end) = Val p -> m = Val p \/ q = Val p) as Hor.
  { intros p [[x|]|] q0; cbn; [intros [= <-]; by left|by right|done]. }
  induction cs as [|c cs IH]; intros facts facts' Hsub Hok; cbn [collect_eq_facts]; [by intros [= <-]|].
  assert (c ∈ conj /\ cs ⊆ conj) as [Hc Hcs] by (split; [apply Hsub, list_elem_of_here|intros x Hx; by apply Hsub, list_elem_of_further]).
  assert (collect_eq_facts to_lowercase call cs t facts = Val facts' -> facts_ok facts') as Hskip by (by apply IH).
  destruct c; try exact Hskip. destruct op; try exact Hskip.
  destruct (col_const to_lowercase call t c1 c2) as [p|] eqn:E1; [|done]. cbn [mbind run_bind].
  destruct (match p with Some p => Val (Some p) | None => col_const to_lowercase call t c2 c1 end) as [p'|] eqn:E2; [|done]. cbn [mbind run_bind].
  apply IH; [done|]. split; cbn [by_column pairs].
  - intros col v [Hm| ->]%or_insert_ok; [by apply Hok|].
    assert (col_const to_lowercase call t c1 c2 = Val (Some (col, v)) \/ col_const to_lowercase call t c2 c1 = Val (Some (col, v))) as Hcc.
    { destruct p as [p|]; [injection E2 as ->; by left|by right]. }
    split; [apply (Hconst _ _ _ Hc); destruct Hcc; [by apply uses_left|by apply uses_right]|].
    intros row Hrow. apply (eq_holds c1 c2); [done|]. rewrite Forall_forall in Hrow. by apply Hrow.
  - intros l r [H|H]%elem_of_app; [by apply (fo_pairs _ Hok)|]. apply list_elem_of_singleton in H. by injection H as -> ->.
Qed.

Lemma no_facts : facts_ok (mk_facts ∅ []).
Proof. split; cbn; [intros col v; by rewrite lookup_empty|by intros l r ?%elem_of_nil]. Qed.

Lemma eq_prefix_spec (facts : @EqFacts Q) (cols : list Z) : let key := eq_prefix facts cols in
  (length key <= length cols)%nat /\ forall n v, key !! n = Some v -> exists c, cols !! n = Some c /\ by_column facts !! c = Some v.
Proof.
  induction cols as [|c cols IH]; cbn; [split; [done|intros n v; by rewrite lookup_nil]|].
  destruct (by_column facts !! c) as [v|] eqn:Hv; [|split; [cbn; lia|intros n w; by rewrite lookup_nil]]. destruct IH as [IH1 IH2].
  split; [cbn; lia|]. intros [|n] w; cbn; [intros [= <-]; by exists c|apply IH2].
Qed.

(** The key built from the facts matches the entry of a row that satisfies them. *)
Lemma prefix_matches facts idx p id row k key : facts_ok facts -> Forall (holds row) conj -> idx ∈ indexes t -> idx_expr idx = None ->
  zget L p = Some (id, row) -> entry idx row = Some k -> length k = length (idx_columns idx) ->
  (forall n c, idx_columns idx !! n = Some c -> k !! n = zget row c) -> (length key <= length (idx_columns idx))%nat ->
  (forall n v, key !! n = Some v -> exists c, idx_columns idx !! n = Some c /\ by_column facts !! c = Some v) ->
  key_ok (kinds (idx_name idx)) key /\ key_has_null key = false /\ Index.key_cmp key (take (length key) k) = Eq.
Proof.
  intros Hok Hrow Hi He Hp Hk Hlen Hcols Hle Hkey. destruct (entry_tracked idx p id row k Hi Hp Hk) as (_ & _ & _ & Kk).
  split_and!.
  - intros n v Hv. destruct (Hkey n v Hv) as (c & Hc & Hf). by apply (fo_columns _ Hok c v Hf).
  - unfold key_has_null. apply not_true_iff_false. rewrite existsb_exists. intros (v & Hv%list_elem_of_In & Hn). apply list_elem_of_lookup in Hv as [n Hv].
    destruct (Hkey n v Hv) as (c & Hc & Hf). destruct (fo_columns _ Hok c v Hf) as [_ Heq]. destruct (Heq row Hrow) as (x & _ & _ & Nv & _). by rewrite Nv in Hn.
  - apply key_cmp_pointwise; [rewrite length_take; lia|]. intros n v x Hv Hx. apply lookup_take_Some in Hx as [Hx _].
    destruct (Hkey n v Hv) as (c & Hc & Hf). destruct (fo_columns _ Hok c v Hf) as [Kc Heq]. destruct (Heq row Hrow) as (y & Hy & _ & _ & Hcmp).
    rewrite (Hcols n c Hc), Hy in Hx. injection Hx as <-. apply (Hcmp (kinds (idx_name idx) n)); [|by apply Kc].
    apply (Kk n). by rewrite (Hcols n c Hc).
Qed.

(** ** Multi-column, expression and partial indexes *)

Context (Hpred : forall idx e c, idx ∈ indexes t -> idx_predicate idx = Some e -> c ∈ conj -> expr_eqb q_eqb c e = true -> c = e).
Context (Hexpr : forall idx e l r, idx ∈ indexes t -> idx_expr idx = Some e -> EBinary OpEq l r ∈ conj ->
  (expr_eqb q_eqb l e = true -> l = e) /\ (expr_eqb q_eqb r e = true -> r = e)).
Context (Hkeys : forall idx e l r v, idx ∈ indexes t -> idx_expr idx = Some e -> EBinary OpEq l r ∈ conj ->
  (l = e /\ const_value to_lowercase call r = Val (Some v)) \/ (r = e /\ const_value to_lowercase call l = Val (Some v)) ->
  kind_ok (kinds (idx_name idx) 0%nat) v).
Context (Hpartial : forall idx e, idx ∈ indexes t -> idx_predicate idx = Some e -> idx_method idx <> Hash).

Lemma names_mono row e v : ev names row e = Val (Ok v) -> ev (column_names t) row e = Val (Ok v).
Proof.
  apply eval_mono. intros qual name w H. unfold lookup_column in *. apply bind_val_inv in H as (i & Hi & H). injection Hi as Hi.
  apply Hnames in Hi as [-> _]. exact H.
Qed.

Definition pred_matched (idx : Index.Index E) : bool :=
  match idx_predicate idx with Some pred => existsb (fun c => exprs_equal q_eqb c pred) conj | None => true end.

Lemma qualifies idx row : idx ∈ indexes t -> pred_matched idx = true -> Forall (holds row) conj -> row_qualifies table_eval (column_names t) idx row = true.
Proof.
  intros Hi Hm Hrow. unfold row_qualifies, pred_matched in *. destruct (idx_predicate idx) as [e|] eqn:Hp; [|done].
  apply existsb_exists in Hm as (c & Hc%list_elem_of_In & He). rewrite (Hpred idx e c Hi Hp Hc He) in Hc. rewrite Forall_forall in Hrow.
  destruct (Hrow e Hc) as (w & Hw & Ht). unfold table_eval. by rewrite (names_mono _ _ _ Hw).
Qed.

Lemma expr_key_spec idx e ps v : idx ∈ indexes t -> idx_expr idx = Some e -> (forall l r, (l, r) ∈ ps -> EBinary OpEq l r ∈ conj) ->
  expr_key to_lowercase call q_eqb e ps = Val (Some v) ->
  exists l r, EBinary OpEq l r ∈ conj /\ ((l = e /\ const_value to_lowercase call r = Val (Some v)) \/ (r = e /\ const_value to_lowercase call l = Val (Some v))).
Proof.
  intros Hi He. induction ps as [|[l r] ps IH]; intros Hps; cbn [expr_key]; [done|].
  assert (EBinary OpEq l r ∈ conj) as Hlr by (apply Hps, list_elem_of_here). destruct (Hexpr idx e l r Hi He Hlr) as [Hl Hr].
  unfold exprs_equal. specialize (IH (fun l r H => Hps l r (list_elem_of_further _ _ _ H))).
  destruct (expr_eqb q_eqb l e) eqn:El; [|destruct (expr_eqb q_eqb r e) eqn:Er].
  - destruct (const_value _ _ r) as [[w|]|] eqn:Hc; cbn; [intros [= ->]|exact IH|done]. exists l, r. auto.
  - destruct (const_value _ _ l) as [[w|]|] eqn:Hc; cbn; [intros [= ->]|exact IH|done]. exists l, r. auto.
  - exact IH.
Qed.

Lemma expr_complete idx e i l r v p id row ps : zget (indexes t) i = Some idx -> idx ∈ indexes t -> idx_expr idx = Some e ->
  pred_matched idx = true -> Forall (holds row) conj -> EBinary OpEq l r ∈ conj ->
  (l = e /\ const_value to_lowercase call r = Val (Some v)) \/ (r = e /\ const_value to_lowercase call l = Val (Some v)) ->
  zget L p = Some (id, row) -> index_eq_expr t i v = Val ps -> p ∈ ps.
Proof.
  intros Hz Hi He Hm Hrow Hlr Hside Hp. pose proof (Hkeys idx e l r v Hi He Hlr Hside) as Kv.
  assert (holds row (EBinary OpEq l r)) as (w & Hw & Ht) by (rewrite Forall_forall in Hrow; by apply Hrow).
  cbn [eval_expr] in Hw. apply bind_val_inv in Hw as (a & Ha & Hw). apply bind_val_inv in Hw as (b & Hb & Hw).
  destruct (compare_true _ OpEq _ _ _ ltac:(done) Hw Ht) as (Na & Nb & c & Hc & Ho).
  assert (exists x, ev names row e = Val (Ok x) /\ is_null v = false /\ forall k, kind_ok k x -> kind_ok k v -> cmp_value v x = Eq) as (x & Hx & Nv & Hcmp).
  { destruct Hside as [[-> Hcv]|[-> Hcv]]; rewrite (const_holds _ _ _ Hcv) in *; simplify_eq.
    - exists a. split_and!; [done..|]. intros k Ka Kb. apply (compare_same_kind k) in Hc; [|done..]. destruct c; try done. by apply (key_eq_sym cmp_value (ok := kind_ok k)).
    - exists b. split_and!; [done..|]. intros k Ka Kb. apply (compare_same_kind k) in Hc; [|done..]. by destruct c. }
  assert (entry idx row = Some [x]) as Hk.
  { unfold entry_of. rewrite (qualifies idx row Hi Hm Hrow). unfold index_key. rewrite He. unfold table_eval. by rewrite (names_mono _ _ _ Hx). }
  destruct (entry_tracked idx p id row [x] Hi Hp Hk) as (_ & _ & _ & Kx).
  apply (eq_multi_complete i idx [v] p id row [x]); try done.
  - intros [|[|n]] y Hy; try done. by injection Hy as <-.
  - cbn. by rewrite Nv.
  - rewrite key_cmp_single. apply (Hcmp (kinds (idx_name idx) 0%nat)); [by apply (Kx 0%nat)|done].
Qed.

Lemma advanced_complete facts i idx p id row ps : facts_ok facts -> zget (indexes t) i = Some idx -> Forall (holds row) conj ->
  zget L p = Some (id, row) -> advanced_index to_lowercase call q_eqb t conj facts i idx = Val (Some ps) -> p ∈ ps.
Proof.
  intros Hok Hz Hrow Hp. assert (idx ∈ indexes t) as Hi by (apply zget_Some_nat in Hz as (n & _ & Hz'); by eapply list_elem_of_lookup_2).
  unfold advanced_index. destruct (match idx_predicate idx with Some _ => _ | None => false end) eqn:Hskip; [done|].
  assert (pred_matched idx = true) as Hm by (unfold pred_matched; destruct (idx_predicate idx); [by apply negb_false_iff|done]).
  destruct (idx_expr idx) as [e|] eqn:He.
  { destruct (expr_key _ _ _ e (pairs facts)) as [[v|]|] eqn:Hek; try done. cbn. destruct (index_eq_expr t i v) as [qs|] eqn:Hq; [|done]. intros [= <-].
    destruct (expr_key_spec idx e (pairs facts) v Hi He (fo_pairs _ Hok) Hek) as (l & r & Hlr & Hside). by apply (expr_complete idx e i l r v p id row qs). }
  destruct (entry_columns idx p id row Hi Hp He (qualifies idx row Hi Hm Hrow)) as (k & Hk & Hlen & Hcols).
  pose proof (fun key H1 H2 => prefix_matches facts idx p id row k key Hok Hrow Hi He Hp Hk Hlen Hcols H1 H2) as Hpre.
  assert (forall key qs, key <> [] -> length key = length (idx_columns idx) -> (forall n v, key !! n = Some v -> exists c, idx_columns idx !! n = Some c /\ by_column facts !! c = Some v) ->
    index_eq_multi t i key = Val qs -> p ∈ qs) as Hfull.
  { intros key qs Hne Hl Hkey Hqs. destruct (Hpre key ltac:(lia) Hkey) as (Ko & Kn & Kc). apply (eq_multi_complete i idx key p id row k); try done.
    rewrite take_ge in Kc by lia. done. }
  assert (forall cols, idx_columns idx = cols -> match eq_prefix facts cols with [] => Val None | key =>
      if (length key =? length cols)%nat then ps ← index_eq_multi t i key; Val (Some ps)
      else if is_ordered (idx_method idx) then ps ← index_prefix_multi t i key; Val (Some ps) else Val None end = Val (Some ps) -> p ∈ ps) as Hmulti.
  { intros cols <-. destruct (eq_prefix_spec facts (idx_columns idx)) as [Hle Hkey]. destruct (eq_prefix facts (idx_columns idx)) as [|v key] eqn:Ek; [done|].
    cbn zeta. destruct (Nat.eqb_spec (length (v :: key)) (length (idx_columns idx))) as [Hl|Hl].
    - destruct (index_eq_multi t i (v :: key)) as [qs|] eqn:Hq; [|done]. cbn. intros [= <-]. by apply (Hfull (v :: key)).
    - destruct (is_ordered (idx_method idx)) eqn:Ho; [|done]. unfold index_prefix_multi. rewrite Hz. cbn. intros [= <-].
      destruct (Hpre (v :: key) Hle Hkey) as (Ko & Kn & Kc). destruct (entry_tracked idx p id row k Hi Hp Hk) as (A & T & Ha & _).
      apply (located _ p id row Hp). apply (prefix_spec _ _ _ _ _ T Ho Ko). exists k. split; [done|]. unfold Index.prefix_eq. rewrite Kc.
      by rewrite (proj2 (Nat.leb_le _ _)) by lia. }
  destruct (idx_columns idx) as [|col [|col' cols]] eqn:Ec; try (by apply Hmulti).
  destruct (idx_predicate idx) as [e|] eqn:Hpd; [|done]. destruct (by_column facts !! col) as [v|] eqn:Hv.
  - destruct (index_eq_multi t i [v]) as [qs|] eqn:Hq; [|done]. cbn. intros [= <-]. apply (Hfull [v]); try done.
    intros [|[|n]] w Hw; try done. injection Hw as <-. by exists col.
  - unfold index_all_positions. rewrite Hz. cbn. intros [= <-]. apply (located _ p id row Hp).
    destruct (entry_tracked idx p id row k Hi Hp Hk) as (A & T & Ha & _). by eapply store_all_complete; [exact T|apply (Hpartial idx e)|].
Qed.

(** ** GIN indexes *)

(** The probe of a GIN-indexed column is an array and not a JSON text, and the column holds arrays. *)
Context (Hgin : forall l r col i v rt es, EBinary (ArrayOperator ArrayContains) l r ∈ conj -> column_index_of l t = Some col -> gin_index_on t col = Some i ->
  eval_ok to_lowercase call r = Val (Some v) -> to_text v = Some rt -> parse_array_text rt = Some es ->
  (omap id es = [] \/ parse_json_full rt = None)
  /\ forall p id row x, zget L p = Some (id, row) -> zget row col = Some x -> is_null x = false -> exists lt els, to_text x = Some lt /\ parse_array_text lt = Some els).

Lemma contains_holds l r col v row : column_index_of l t = Some col -> eval_ok to_lowercase call r = Val (Some v) ->
  holds row (EBinary (ArrayOperator ArrayContains) l r) -> exists x, zget row col = Some x /\ is_null x = false /\ array_operator ArrayContains x v = Ok (Bool true).
Proof.
  intros Hl Hr (w & Hw & Ht). cbn [eval_expr] in Hw. apply bind_val_inv in Hw as (x & Hx & Hw). apply bind_val_inv in Hw as (y & Hy & Hw).
  assert (ev [] [] r = Val (Ok v)) as Hc by (unfold eval_ok in Hr; destruct (ev [] [] r) as [[?|]|]; [injection Hr as ->|done|done]; done).
  rewrite (eval_closed to_lowercase call r v names row Hc) in Hy. injection Hy as <-. exists x. split; [by eapply column_holds|].
  unfold eval_binary in Hw. cbn [is_logical negb andb] in Hw. destruct (is_null x || is_null v) eqn:Hn; [by injection Hw as <-|].
  apply orb_false_elim in Hn as [Nx _]. split; [done|]. pose proof (array_operator_bool ArrayContains x v w Hw) as Kw.
  injection Hw as ->. destruct w; try done. cbn in Ht. by subst.
Qed.

Lemma gin_complete c p id row ps : c ∈ conj -> Forall (holds row) conj -> zget L p = Some (id, row) -> gin_conjunct to_lowercase call t c = Val (Some ps) -> p ∈ ps.
Proof.
  intros Hc Hrow Hp Hg. destruct c; try done. destruct op; try done. destruct op; try done. cbn [gin_conjunct] in Hg.
  destruct (column_index_of c1 t) as [col|] eqn:Hl; [|done]. unfold gin_column in Hg.
  destruct (match zget (columns t) col with Some _ => _ | None => _ end) as [ty|]; [|done]. cbn [mbind run_bind] in Hg.
  destruct (bool_decide (ty = TJsonb)); [done|]. destruct (gin_index_on t col) as [i|] eqn:Hi; [|done]. unfold gin_needles in Hg.
  destruct (eval_ok to_lowercase call c2) as [[v|]|] eqn:Hv; try done. cbn [mbind run_bind] in Hg. destruct (to_text v) as [rt|] eqn:Hrt; [|done].
  destruct (parse_array_text rt) as [es|] eqn:Hes; [|done]. cbn [option_map] in Hg. unfold gin_contains_positions in Hg.
  destruct (position_spec _ _ _ _ Hi) as (idx & Hz & Hpl & _). rewrite Z.sub_0_r in Hz. rewrite Hz in Hg. cbn in Hg.
  apply andb_prop in Hpl as [Hpl Hm%bool_decide_eq_true].
  assert (idx ∈ indexes t) as Hin by (apply zget_Some_nat in Hz as (n & _ & Hz'); by eapply list_elem_of_lookup_2).
  destruct (Hgin c1 c2 col i v rt es Hc Hl Hi Hv Hrt Hes) as [Hneed Harr].
  assert (holds row (EBinary (ArrayOperator ArrayContains) c1 c2)) as Hh by (rewrite Forall_forall in Hrow; by apply Hrow).
  destruct (contains_holds c1 c2 col v row Hl Hv Hh) as (x & Hx & Nx & Ha). destruct (Harr p id row x Hp Hx Nx) as (lt & els & Hlt & Hels).
  destruct (entry_tracked idx p id row [x] Hin Hp (plain_entry _ _ _ _ _ _ Hpl Hx)) as (A & T & HA & _). rewrite Hm in T.
  destruct (gin_spec _ _ _ (omap Datatypes.id es) T) as (ids & Hids & _ & I). rewrite Hids in Hg. cbn in Hg. injection Hg as <-.
  apply (located _ p id row Hp). apply I. exists [x]. split; [done|]. change (first_key [x]) with x. intros n Hn.
  destruct Hneed as [He|Hj]; [rewrite He in Hn; by apply elem_of_nil in Hn|].
  rewrite (gin_tokens_array x lt els Hlt Hels). apply list_elem_of_omap in Hn as (o & Ho & Hn). cbn in Hn. subst o. apply list_elem_of_omap. exists (Some n). split; [|done].
  pose proof (array_contains_elements x v lt rt els es Hlt Hrt Hels Hes Hj Ha) as Hall. unfold contains_all in Hall. rewrite forallb_forall in Hall.
  specialize (Hall _ (proj1 (list_elem_of_In _ _) Ho)). unfold has_element in Hall. apply existsb_exists in Hall as (y & Hy%list_elem_of_In & E%bool_decide_eq_true). by subst.
Qed.

(** ** Single-column plans *)

Definition bounds_const (col : Z) (lo hi : option Bound) : Prop := forall b, lo = Some b \/ hi = Some b -> const_ok col (b_value b).
Definition ranges (row : list Value) (col : Z) (lo hi : option Bound) : Prop :=
  exists x, zget row col = Some x /\ is_null x = false
    /\ forall k, kind_ok k x -> (forall b, lo = Some b \/ hi = Some b -> kind_ok k (b_value b)) -> in_range lo hi x = true.
Definition plan_covers (row : list Value) (col : Z) (plan : IndexPlan) : Prop :=
  match plan with
  | PlanEq v => const_ok col v /\ equals row col v
  | PlanIn vs => exists v, v ∈ vs /\ const_ok col v /\ equals row col v
  | PlanRange lo hi => bounds_const col lo hi /\ ranges row col lo hi
  end.

Definition is_range_op (op : BinaryOp) : bool := match op with OpLt | LtEq | OpGt | GtEq => true | _ => false end.

Lemma bound_covers row col v lo hi x : const_ok col v -> (lo = None /\ b_value <$> hi = Some v) \/ (b_value <$> lo = Some v /\ hi = None) ->
  zget row col = Some x -> is_null x = false -> (forall k, kind_ok k x -> kind_ok k v -> in_range lo hi x = true) -> plan_covers row col (PlanRange lo hi).
Proof.
  intros Hv Hb Hx Nx Hr.
  assert (forall b, lo = Some b \/ hi = Some b -> b_value b = v) as Hbv by (intros b [-> | ->]; destruct Hb as [[? ?]|[? ?]]; simplify_eq/=; done).
  split; [intros b Hb'; by rewrite (Hbv b Hb')|]. exists x. split_and!; [done..|]. intros k Kx Kb. apply (Hr k Kx).
  destruct Hb as [[_ H]|[H _]]; apply fmap_Some in H as (b & -> & ->); apply Kb; auto.
Qed.

(** A range comparison that holds puts the column's value within its bound. *)
Lemma range_covers op l r col v plan row : is_range_op op = true -> EBinary op l r ∈ conj -> holds row (EBinary op l r) ->
  (col_const to_lowercase call t l r = Val (Some (col, v)) /\ range_from_op op v = Val plan)
  \/ (col_const to_lowercase call t r l = Val (Some (col, v)) /\ range_from_op (flip_op op) v = Val plan) -> plan_covers row col plan.
Proof.
  intros Hop Hin Hh Hc. assert (compare_op op Eq <> None) as Hcmp by (by destruct op).
  assert (const_ok col v) as Hv by (destruct Hc as [[Hc _]|[Hc _]]; apply (Hconst _ _ _ Hin); [by apply uses_left|by apply uses_right]).
  destruct Hc as [[Hc Hr]|[Hc Hr]].
  - destruct (left_cmp op l r col v row Hcmp Hc Hh) as (x & Hx & Nx & _ & Hk).
    destruct op; try done; injection Hr as <-; (eapply bound_covers; [exact Hv|auto|exact Hx|exact Nx|]); intros k Kx Kv;
      destruct (Hk k Kx Kv) as (c & E1 & E2 & Ho); unfold in_range; cbn [b_value inclusive]; rewrite ?E1, ?E2; by destruct c.
  - destruct (right_cmp op l r col v row Hcmp Hc Hh) as (x & Hx & Nx & _ & Hk).
    destruct op; try done; injection Hr as <-; (eapply bound_covers; [exact Hv|auto|exact Hx|exact Nx|]); intros k Kx Kv;
      destruct (Hk k Kx Kv) as (c & E1 & E2 & Ho); unfold in_range; cbn [b_value inclusive]; rewrite ?E1, ?E2; by destruct c.
Qed.

Lemma in_list_true row x sn es w : in_list_loop (ev names row) x false sn es = Val (Ok w) -> is_true w = true ->
  exists item v, item ∈ es /\ ev names row item = Val (Ok v) /\ is_null v = false /\ equal_values x v = true.
Proof.
  intros H Ht. revert sn H. induction es as [|e es IH]; intros sn; cbn [in_list_loop]; [by destruct sn; intros [= <-]|].
  intros (v & Hv & H)%bind_val_inv. assert (forall sn, in_list_loop (ev names row) x false sn es = Val (Ok w) -> exists item v, item ∈ e :: es /\
    ev names row item = Val (Ok v) /\ is_null v = false /\ equal_values x v = true) as Hrec.
  { intros sn' H'. destruct (IH sn' H') as (item & v' & Hi & Hr). exists item, v'. split; [by apply list_elem_of_further|done]. }
  destruct (is_null v) eqn:Nv; [by eapply Hrec|]. destruct (equal_values x v) eqn:He; [|by eapply Hrec].
  exists e, v. split_and!; [apply list_elem_of_here|done..].
Qed.

Lemma const_values_spec (es : list E) vs item : const_values to_lowercase call es = Val (Some vs) -> item ∈ es ->
  exists v, v ∈ vs /\ const_value to_lowercase call item = Val (Some v).
Proof.
  revert vs. induction es as [|e es IH]; intros vs; cbn [const_values]; [by intros _ ?%elem_of_nil|].
  destruct (const_value to_lowercase call e) as [[v|]|] eqn:Hv; try done. cbn. destruct (const_values to_lowercase call es) as [[vs'|]|]; try done. cbn.
  intros [= <-] [->|Hi]%elem_of_cons; [exists v; split; [apply list_elem_of_here|done]|].
  destruct (IH vs' eq_refl Hi) as (w & Hw & Hc). exists w. split; [by apply list_elem_of_further|done].
Qed.

Lemma in_covers e es col vs row : EInList e es false ∈ conj -> column_index_of e t = Some col -> const_values to_lowercase call es = Val (Some vs) ->
  holds row (EInList e es false) -> plan_covers row col (PlanIn vs).
Proof.
  intros Hin Hc Hvs (w & Hw & Ht). cbn [eval_expr] in Hw. apply bind_val_inv in Hw as (x & Hx & Hw). destruct (is_null x) eqn:Nx; [by injection Hw as <-|].
  destruct (in_list_true row x false es w Hw Ht) as (item & v & Hi & Hv & Nv & He). destruct (const_values_spec es vs item Hvs Hi) as (v' & Hv' & Hcv).
  rewrite (const_holds item v' row Hcv) in Hv. injection Hv as ->. exists v. split_and!; [done|by apply (Hconst _ _ _ Hin); eapply uses_in|].
  exists x. split_and!; [by eapply column_holds|done|done|]. intros k Kx Kv. unfold equal_values in He. destruct (compare_values x v) as [c|] eqn:Hcmp; [|done].
  apply (compare_same_kind k) in Hcmp; [|done..]. rewrite (cmp_flip x v k), Hcmp by done. by destruct c.
Qed.

Lemma between_covers e low high col lo hi row : EBetween e low high false ∈ conj -> column_index_of e t = Some col ->
  const_value to_lowercase call low = Val (Some lo) -> const_value to_lowercase call high = Val (Some hi) ->
  holds row (EBetween e low high false) -> plan_covers row col (PlanRange (Some (mk_bound lo true)) (Some (mk_bound hi true))).
Proof.
  intros Hin Hc Hlo Hhi (w & Hw & Ht). cbn [eval_expr] in Hw. apply bind_val_inv in Hw as (x & Hx & Hw).
  rewrite (const_holds low lo row Hlo), (const_holds high hi row Hhi) in Hw. cbn [mbind res_bind] in Hw.
  destruct (is_null x || is_null lo || is_null hi) eqn:Hn; [by injection Hw as <-|]. apply orb_false_elim in Hn as [[Nx Nl]%orb_false_elim Nh].
  injection Hw as <-. cbn in Ht. apply andb_prop in Ht as [H1 H2].
  destruct (compare_values x lo) as [c1|] eqn:C1; [|done]. destruct (compare_values x hi) as [c2|] eqn:C2; [|done].
  split; [intros b [H|H]; injection H as <-; apply (Hconst _ _ _ Hin); [by apply uses_low|by apply uses_high]|].
  exists x. split_and!; [by eapply column_holds|done|]. intros k Kx Kb.
  pose proof (Kb _ (or_introl eq_refl)) as Kl. pose proof (Kb _ (or_intror eq_refl)) as Kh. cbn in Kl, Kh.
  apply (compare_same_kind k) in C1; [|done..]. apply (compare_same_kind k) in C2; [|done..].
  unfold in_range. cbn [b_value inclusive]. rewrite (cmp_flip x lo k), C1, C2 by done. by destruct c1, c2.
Qed.

Lemma eq_case l r col plan row : EBinary OpEq l r ∈ conj -> plan_index_access to_lowercase call (EBinary OpEq l r) t = Val (Some (col, plan)) ->
  holds row (EBinary OpEq l r) -> plan_covers row col plan.
Proof.
  intros Hin. cbn [plan_index_access]. destruct (col_const to_lowercase call t l r) as [[[c v]|]|] eqn:E1; cbn; [intros [= -> <-] Hh| |done].
  { split; [apply (Hconst _ _ _ Hin); by apply uses_left|]. apply (eq_holds l r); auto. }
  destruct (col_const to_lowercase call t r l) as [[[c v]|]|] eqn:E2; cbn; [intros [= -> <-] Hh|done|done].
  split; [apply (Hconst _ _ _ Hin); by apply uses_right|]. apply (eq_holds l r); auto.
Qed.

Lemma range_case op l r col plan row : is_range_op op = true -> EBinary op l r ∈ conj ->
  plan_index_access to_lowercase call (EBinary op l r) t = Val (Some (col, plan)) -> holds row (EBinary op l r) -> plan_covers row col plan.
Proof.
  intros Hop Hin Hp Hh. assert ((p ← col_const to_lowercase call t l r; match p with
      | Some (col, v) => plan ← range_from_op op v; Val (Some (col, plan))
      | None => p ← col_const to_lowercase call t r l; match p with Some (col, v) => plan ← range_from_op (flip_op op) v; Val (Some (col, plan)) | None => Val None end
      end) = Val (Some (col, plan))) as H by (by destruct op). clear Hp.
  destruct (col_const to_lowercase call t l r) as [[[c v]|]|] eqn:E1; cbn [mbind run_bind] in H; [| |done].
  { destruct (range_from_op op v) as [pl|] eqn:Er; [|done]. cbn in H. injection H as -> ->. by eapply (range_covers op l r col v); auto. }
  destruct (col_const to_lowercase call t r l) as [[[c v]|]|] eqn:E2; cbn [mbind run_bind] in H; [|done|done].
  destruct (range_from_op (flip_op op) v) as [pl|] eqn:Er; [|done]. cbn in H. injection H as -> ->. by eapply (range_covers op l r col v); auto.
Qed.

Lemma plan_sound f : forall col plan, and_conjuncts f ⊆ conj -> plan_index_access to_lowercase call f t = Val (Some (col, plan)) ->
  forall row, holds row f -> plan_covers row col plan.
Proof.
  induction f; intros col plan Hsub Hp row Hh; try done.
  - assert (is_logical op = false -> EBinary op f1 f2 ∈ conj) as Hin by (intros Ho; apply Hsub; destruct op; try done; apply list_elem_of_here).
    destruct op; try done; try (by apply (eq_case f1 f2); auto); try (by eapply (range_case _ f1 f2 col plan row); [|auto|exact Hp|exact Hh]).
    cbn [plan_index_access] in Hp. destruct (and_holds row f1 f2 Hh) as [H1 H2].
    cbn [and_conjuncts] in Hsub. destruct (plan_index_access to_lowercase call f1 t) as [[[c pl]|]|]; cbn in Hp; [|by eapply IHf2; [set_solver|done|done]|done].
    eapply IHf1; [set_solver|done|done].
  - destruct negated; [done|]. cbn [plan_index_access] in Hp. destruct (column_index_of f t) as [c|] eqn:Hc; [|done].
    destruct (const_values to_lowercase call list) as [[vs|]|] eqn:Hvs; [|done|done]. cbn in Hp. injection Hp as -> <-.
    apply (in_covers f list); try done. apply Hsub, list_elem_of_here.
  - destruct negated; [done|]. cbn [plan_index_access] in Hp. destruct (column_index_of f1 t) as [c|] eqn:Hc; [|done].
    destruct (const_value to_lowercase call f2) as [[lo|]|] eqn:Hlo; [|done|done]. cbn in Hp.
    destruct (const_value to_lowercase call f3) as [[hi|]|] eqn:Hhi; [|done|done]. cbn in Hp. injection Hp as -> <-.
    apply (between_covers f1 f2 f3); try done. apply Hsub, list_elem_of_here.
Qed.

(** ** Candidates *)

Definition valid (ps : list Z) : Prop := Forall (fun p => is_Some (zget L p)) ps.

Lemma ids_valid ids : valid (ids_to_positions t ids).
Proof.
  apply Forall_forall. intros p Hp. apply list_elem_of_omap in Hp as (id & _ & Hp). apply (tr_pos _ _ t L R) in Hp.
  apply zget_Some_nat in Hp as (n & -> & Hp). rewrite zget_nat. rewrite list_lookup_fmap in Hp. by destruct (L !! n).
Qed.

Lemma choose_some (p : Index.Index E -> bool) ixs idx : idx ∈ ixs -> p idx = true -> is_Some (Storage.choose p ixs).
Proof.
  unfold Storage.choose. assert (forall c l, is_Some c \/ (exists i, i ∈ l /\ p i = true) -> is_Some (foldl (fun chosen idx =>
    if p idx then match chosen with Some c => if idx_unique c then chosen else Some idx | None => Some idx end else chosen) c l)) as G; [|eauto].
  intros c l. revert c. induction l as [|i l IH]; intros c Hc; cbn; [destruct Hc as [?|(i & ?%elem_of_nil & _)]; done|]. apply IH.
  destruct Hc as [[c' ->]|(j & [->|Hj]%elem_of_cons & Pj)].
  - left. destruct (p i); [destruct (idx_unique c')|]; eauto.
  - left. rewrite Pj. destruct c as [c|]; [destruct (idx_unique c)|]; eauto.
  - right. eauto.
Qed.

Lemma plain_kind idx col p id row x : idx ∈ indexes t -> plain_on col idx = true -> zget L p = Some (id, row) -> zget row col = Some x ->
  kind_ok (kinds (idx_name idx) 0%nat) x.
Proof.
  intros Hi Hp Hz Hx. destruct (entry_tracked idx p id row [x] Hi Hz (plain_entry _ _ _ _ _ _ Hp Hx)) as (_ & _ & _ & K). by apply (K 0%nat).
Qed.

Lemma plain_const idx col v : idx ∈ indexes t -> plain_on col idx = true -> const_ok col v -> kind_ok (kinds (idx_name idx) 0%nat) v.
Proof.
  intros Hi Hp Hv. unfold plain_on in Hp. apply andb_prop in Hp as [[Hc He]%andb_prop _]. apply bool_decide_eq_true in Hc.
  apply (Hv idx 0%nat Hi); [by destruct (idx_expr idx)|by rewrite Hc].
Qed.

Lemma eq_complete col v p id row : is_Some (eq_index_on t col) -> zget L p = Some (id, row) -> const_ok col v -> equals row col v ->
  exists ps, index_eq t col v = Some ps /\ p ∈ ps.
Proof.
  intros [idx Hi] Hp Hv (x & Hx & Nx & Nv & Hcmp). destruct (index_eq t col v) as [ps|] eqn:Hq; [|unfold index_eq in Hq; by rewrite Hi in Hq].
  exists ps. split; [done|]. destruct (index_eq_ok table_eval kinds t L col v ps R Hq Nv) as (_ & _ & C & _); [intros i' Hi' Hp'; by eapply plain_const|].
  apply (C p id row x Hp Hx). apply choose_spec in Hi as [Hin Hpl]. eapply Hcmp; [by eapply plain_kind|by eapply plain_const].
Qed.

Lemma plan_complete col plan p id row ps : is_Some (index_on t col) -> zget L p = Some (id, row) -> plan_covers row col plan ->
  plan_positions t col plan = Val (Some ps) -> p ∈ ps.
Proof.
  intros [idx Hi] Hp Hc. pose proof (choose_spec _ _ _ Hi) as [Hin Hpl]. apply andb_prop in Hpl as [Hpl _].
  assert (is_Some (eq_index_on t col)) as He by (by eapply choose_some).
  destruct plan as [v|vs|lo hi]; cbn [plan_positions plan_covers] in *.
  - destruct Hc as [Hv Heq]. destruct (eq_complete col v p id row He Hp Hv Heq) as (qs & -> & Hq). by intros [= <-].
  - destruct Hc as (v & Hvs & Hv & Heq). intros [= <-]. apply list_elem_of_In, in_flat_map. exists v. split; [by apply list_elem_of_In|].
    destruct (eq_complete col v p id row He Hp Hv Heq) as (qs & -> & Hq). by apply list_elem_of_In.
  - destruct Hc as [Hb (x & Hx & Nx & Hr)]. destruct (index_range t col lo hi) as [r|] eqn:Hrg; [|done].
    assert (forall i', i' ∈ indexes t -> plain_on col i' = true -> forall o, o = lo \/ o = hi -> bound_ok (kinds (idx_name i')) o) as Hbo.
    { intros i' Hi' Hp' o Ho b ->. apply (plain_const i' col _ Hi' Hp'). apply Hb. destruct Ho; auto. }
    pose proof (index_range_ok table_eval kinds t L col lo hi r R Hrg (fun i' H1 H2 => Logic.conj (Hbo i' H1 H2 lo (or_introl eq_refl)) (Hbo i' H1 H2 hi (or_intror eq_refl))) idx Hi) as Hok.
    destruct (is_ordered (idx_method idx) && negb (bounds_ordered lo hi)); [by rewrite Hok|]. destruct Hok as (qs & -> & _ & C & _). cbn. intros [= <-].
    apply (C p id row x Hp Hx Nx). apply (Hr (kinds (idx_name idx) 0%nat)); [by eapply plain_kind|]. intros b Hb'. by eapply plain_const; [..|apply Hb].
Qed.

(** ** Validity *)

Lemma eq_multi_valid i key ps : index_eq_multi t i key = Val ps -> valid ps.
Proof. unfold index_eq_multi. destruct (zget (indexes t) i); [|done]. intros [= <-]. apply ids_valid. Qed.
Lemma gin_positions_valid i ns ps : gin_contains_positions t i ns = Val (Some ps) -> valid ps.
Proof.
  unfold gin_contains_positions. destruct (zget (indexes t) i) as [idx|]; [|done]. cbn. destruct (store_gin_contains _ _); [|done].
  intros [= <-]. apply ids_valid.
Qed.

Lemma gin_valid cs ps : gin_index_positions to_lowercase call t cs = Val (Some ps) -> valid ps.
Proof.
  induction cs as [|c cs IH]; cbn [gin_index_positions]; [done|]. destruct (gin_conjunct to_lowercase call t c) as [[qs|]|] eqn:Hc; cbn; [intros [= <-]|exact IH|done].
  destruct c; try done. destruct op; try done. destruct op; try done. cbn [gin_conjunct] in Hc. destruct (column_index_of c1 t) as [col|]; [|done].
  unfold gin_column in Hc. destruct (match zget (columns t) col with Some _ => _ | None => _ end) as [ty|]; [|done]. cbn [mbind run_bind] in Hc.
  destruct (bool_decide (ty = TJsonb)); [done|]. destruct (gin_index_on t col) as [i|]; [|done].
  destruct (gin_needles to_lowercase call c2) as [[ns|]|]; [|done|done]. by eapply gin_positions_valid.
Qed.

Lemma advanced_valid facts i idx ps : advanced_index to_lowercase call q_eqb t conj facts i idx = Val (Some ps) -> valid ps.
Proof.
  assert (forall m qs, (forall rs, m = Val rs -> valid rs) -> (ps ← m; Val (Some ps)) = Val (Some qs) -> valid qs) as Hb.
  { intros [rs|] qs Hm; [|done]. cbn. intros [= <-]. by apply Hm. }
  assert (forall key qs, index_prefix_multi t i key = Val qs -> valid qs) as Hpre.
  { intros key qs. unfold index_prefix_multi. destruct (zget (indexes t) i); [|done]. intros [= <-]. apply ids_valid. }
  assert (forall qs, index_all_positions t i = Val qs -> valid qs) as Hall.
  { intros qs. unfold index_all_positions. destruct (zget (indexes t) i); [|done]. intros [= <-]. apply ids_valid. }
  unfold advanced_index. destruct (match idx_predicate idx with Some _ => _ | None => false end); [done|]. destruct (idx_expr idx) as [e|].
  { destruct (expr_key _ _ _ e (pairs facts)) as [[v|]|]; try done. apply Hb. apply eq_multi_valid. }
  assert (forall cols, match eq_prefix facts cols with [] => Val None | key =>
      if (length key =? length cols)%nat then ps ← index_eq_multi t i key; Val (Some ps)
      else if is_ordered (idx_method idx) then ps ← index_prefix_multi t i key; Val (Some ps) else Val None end = Val (Some ps) -> valid ps) as Hm.
  { intros cols. destruct (eq_prefix facts cols); [done|]. cbn zeta. destruct (_ =? _)%nat; [apply Hb, eq_multi_valid|].
    destruct (is_ordered _); [|done]. apply Hb, Hpre. }
  destruct (idx_columns idx) as [|col [|col' cols]]; try apply Hm. destruct (idx_predicate idx); [|done].
  destruct (by_column facts !! col); apply Hb; [apply eq_multi_valid|done].
Qed.

Lemma plan_valid col plan ps : plan_positions t col plan = Val (Some ps) -> valid ps.
Proof.
  assert (forall v qs, index_eq t col v = Some qs -> valid qs) as Heq.
  { intros v qs. unfold index_eq. destruct (eq_index_on t col); [|done]. cbn. intros [= <-]. apply ids_valid. }
  destruct plan as [v|vs|lo hi]; cbn [plan_positions].
  - intros [= H]. by eapply Heq.
  - intros [= <-]. apply Forall_forall. intros p Hp. apply list_elem_of_In, in_flat_map in Hp as (v & _ & Hp%list_elem_of_In).
    destruct (index_eq t col v) as [qs|] eqn:Hq; [|by apply elem_of_nil in Hp]. apply Heq in Hq. unfold valid in Hq. rewrite Forall_forall in Hq. by apply Hq.
  - unfold index_range. destruct (index_on t col) as [idx|]; [|done]. cbn. destruct (store_lookup_range _ lo hi); [|done]. cbn. intros [= <-]. apply ids_valid.
Qed.

(** ** All together *)

Lemma gin_loop_complete cs p id row ps : cs ⊆ conj -> Forall (holds row) conj -> zget L p = Some (id, row) ->
  gin_index_positions to_lowercase call t cs = Val (Some ps) -> p ∈ ps.
Proof.
  intros Hsub Hrow Hp. induction cs as [|c cs IH]; cbn [gin_index_positions]; [done|].
  destruct (gin_conjunct to_lowercase call t c) as [[qs|]|] eqn:Hc; cbn; [intros [= <-]|apply IH; set_solver|done].
  eapply (gin_complete c); try done. set_solver.
Qed.

Lemma advanced_loop_complete facts p id row ps : facts_ok facts -> Forall (holds row) conj -> zget L p = Some (id, row) -> forall pre ixs,
  pre ++ ixs = indexes t -> advanced_loop to_lowercase call q_eqb t conj facts (zlen pre) ixs = Val (Some ps) -> p ∈ ps.
Proof.
  intros Hok Hrow Hp pre ixs. revert pre. induction ixs as [|idx ixs IH]; intros pre Hpre; cbn [advanced_loop]; [done|].
  destruct (advanced_index to_lowercase call q_eqb t conj facts (zlen pre) idx) as [[qs|]|] eqn:Ha; cbn; [intros [= <-]| |done].
  - eapply (advanced_complete facts (zlen pre) idx); try done. rewrite <- Hpre. rewrite zget_app_r by lia. by rewrite Z.sub_diag.
  - replace (zlen pre + 1) with (zlen (pre ++ [idx])) by (rewrite zlen_app; done). apply IH. by rewrite <- app_assoc.
Qed.

Lemma advanced_loop_valid facts ps : forall i ixs, advanced_loop to_lowercase call q_eqb t conj facts i ixs = Val (Some ps) -> valid ps.
Proof.
  intros i ixs. revert i. induction ixs as [|idx ixs IH]; intros i; cbn [advanced_loop]; [done|].
  destruct (advanced_index to_lowercase call q_eqb t conj facts i idx) as [[qs|]|] eqn:Ha; cbn; [intros [= <-]; by eapply advanced_valid|apply IH|done].
Qed.

Lemma dedup_ok ps : valid ps -> NoDup (dedup_seen [] ps) /\ valid (dedup_seen [] ps).
Proof.
  intros Hv. split; [apply dedup_seen_NoDup|]. unfold valid in *. rewrite Forall_forall in *. intros p [Hp _]%dedup_seen_spec. by apply Hv.
Qed.

Lemma candidates_complete filter ps : conj = and_conjuncts filter -> index_candidate_positions to_lowercase call q_eqb t filter = Val (Some ps) ->
  NoDup ps /\ valid ps /\ forall p id row, zget L p = Some (id, row) -> holds row filter -> p ∈ ps.
Proof.
  intros Hconj H. assert (forall row, holds row filter -> Forall (holds row) conj) as Hh by (intros row Hr; rewrite Hconj; by apply holds_conjuncts).
  assert (forall qs, valid qs -> (forall p id row, zget L p = Some (id, row) -> holds row filter -> p ∈ qs) -> ps = dedup_seen [] qs ->
    NoDup ps /\ valid ps /\ forall p id row, zget L p = Some (id, row) -> holds row filter -> p ∈ ps) as Hdone.
  { intros qs Hv Hc ->. destruct (dedup_ok qs Hv) as [? ?]. split_and!; [done..|]. intros p id row Hp Hr. apply dedup_seen_spec.
    split; [by eapply Hc|apply not_elem_of_nil]. }
  unfold index_candidate_positions, advanced_index_positions in H. rewrite <- Hconj in H.
  destruct (gin_index_positions to_lowercase call t conj) as [[qs|]|] eqn:Hg; [| |done]; cbn [mbind run_bind] in H.
  { injection H as <-. apply (Hdone qs); [by eapply gin_valid| |done]. intros p id row Hp Hr. eapply (gin_loop_complete conj p id row qs); auto. }
  destruct (collect_eq_facts to_lowercase call conj t (mk_facts ∅ [])) as [facts|] eqn:Hf; [|done]. cbn [mbind run_bind] in H.
  pose proof (collect_ok conj _ _ ltac:(done) no_facts Hf) as Hok.
  destruct (advanced_loop to_lowercase call q_eqb t conj facts 0 (indexes t)) as [[qs|]|] eqn:Ha; [| |done]; cbn [mbind run_bind] in H.
  { injection H as <-. apply (Hdone qs); [by eapply advanced_loop_valid| |done]. intros p id row Hp Hr.
    by eapply (advanced_loop_complete facts p id row qs Hok (Hh row Hr) Hp [] (indexes t)). }
  destruct (plan_index_access to_lowercase call filter t) as [[[col plan]|]|] eqn:Hpl; [|done|done]; cbn [mbind run_bind] in H.
  destruct (index_on t col) as [idx|] eqn:Hi; [|done]. destruct (plan_positions t col plan) as [[qs|]|] eqn:Hq; [|done|done]. cbn in H. injection H as <-.
  apply (Hdone qs); [by eapply plan_valid| |done]. intros p id row Hp Hr. eapply (plan_complete col plan p id row qs); try done.
  eapply (plan_sound filter); try done. by rewrite Hconj.
Qed.
End one_filter.
End completeness.

(** The conditions under which an index scan is complete: the constants compared
    with indexed columns and expressions are of the kind of the index, indexed
    expressions and predicates have no zero double literal, partial indexes are
    not hash indexes, and GIN indexes hold arrays probed with arrays. *)
Record scan_ok {Q} to_lowercase call (kinds : str -> nat -> Kind) (t : Table (Expr Q)) (L : list (RowId * list Value)) (filter : Expr Q) : Prop := {
  sc_consts c col v : c ∈ and_conjuncts filter -> uses_const to_lowercase call t c col v -> const_ok kinds t col v;
  sc_lits c : c ∈ and_conjuncts filter -> expr_forall f64_lit c = true;
  sc_exprs idx e : idx ∈ indexes t -> idx_expr idx = Some e \/ idx_predicate idx = Some e -> expr_forall nonzero_lit e = true;
  sc_keys idx e l r v : idx ∈ indexes t -> idx_expr idx = Some e -> EBinary OpEq l r ∈ and_conjuncts filter ->
    (l = e /\ const_value to_lowercase call r = Val (Some v)) \/ (r = e /\ const_value to_lowercase call l = Val (Some v)) ->
    kind_ok (kinds (idx_name idx) 0%nat) v;
  sc_partial idx e : idx ∈ indexes t -> idx_predicate idx = Some e -> idx_method idx <> Hash;
  sc_gin l r col i v rt es : EBinary (ArrayOperator ArrayContains) l r ∈ and_conjuncts filter -> column_index_of l t = Some col ->
    gin_index_on t col = Some i -> eval_ok to_lowercase call r = Val (Some v) -> to_text v = Some rt -> parse_array_text rt = Some es ->
    (omap id es = [] \/ parse_json_full rt = None)
    /\ forall p id row x, zget L p = Some (id, row) -> zget row col = Some x -> is_null x = false ->
         exists lt els, to_text x = Some lt /\ parse_array_text lt = Some els
}.

(** * The names of a scan *)

Lemma rsplit_none s : Forall (fun x => x <> 46) s -> rsplit_once 46 s = None.
Proof.
  intros H. unfold rsplit_once. assert (Forall (fun x => x <> 46) (reverse s)) as H' by (by apply Forall_reverse). revert H'. generalize (reverse s).
  intros l Hl. replace (split_once 46 l) with (@None (str * str)); [done|]. induction Hl as [|x l Hx _ IH]; cbn; [done|]. zfalse (x =? 46). by rewrite <- IH.
Qed.

Lemma rsplit_qualified q n : Forall (fun x => x <> 46) n -> rsplit_once 46 (q ++ [46] ++ n) = Some (q, n).
Proof.
  intros H. unfold rsplit_once. rewrite !reverse_app, <- app_assoc. change (reverse [46] ++ reverse q) with (46 :: reverse q).
  rewrite split_once_app by (by apply Forall_reverse). by rewrite !reverse_involutive.
Qed.

Lemma resolve_loop_miss hit l : forall i f a, (forall c, c ∈ l -> hit c = false) -> resolve_loop hit i f a l = (f, a).
Proof.
  induction l as [|c l IH]; intros i f a H; cbn; [done|]. rewrite H by apply list_elem_of_here. apply IH. intros d Hd. by apply H, list_elem_of_further.
Qed.
Lemma resolve_loop_hit hit l n c : forall i, l !! n = Some c -> hit c = true -> (forall m d, l !! m = Some d -> hit d = true -> m = n) ->
  resolve_loop hit i None false l = (Some (i + n)%nat, false).
Proof.
  revert n. induction l as [|d l IH]; intros n i; [by rewrite lookup_nil|]. intros Hn Hc Hu. cbn. destruct n as [|n].
  - injection Hn as ->. rewrite Hc, resolve_loop_miss; [cbn; f_equal; f_equal; lia|]. intros e He. destruct (hit e) eqn:Hh; [|done].
    apply list_elem_of_lookup in He as [m Hm]. by specialize (Hu (S m) e Hm Hh).
  - destruct (hit d) eqn:Hd; [by specialize (Hu 0%nat d eq_refl Hd)|]. rewrite (IH n); [f_equal; f_equal; lia|done..|].
    intros m e Hm He. specialize (Hu (S m) e Hm He). lia.
Qed.
Lemma resolve_loop_found hit l : forall i f a j b, resolve_loop hit i f a l = (Some j, b) -> f = Some j \/ exists c, l !! (j - i)%nat = Some c /\ hit c = true /\ (i <= j)%nat.
Proof.
  induction l as [|c l IH]; intros i f a j b; cbn; [intros [= ->]; by left|]. destruct (hit c) eqn:Hc.
  - intros [[= <-]|(d & Hd & Hh & Hj)]%IH; right.
    + exists c. rewrite Nat.sub_diag. split_and!; [done|done|lia].
    + exists d. replace (j - i)%nat with (S (j - S i)) by lia. split_and!; [done|done|lia].
  - intros [->|(d & Hd & Hh & Hj)]%IH; [by left|right]. exists d. replace (j - i)%nat with (S (j - S i)) by lia. split_and!; [done|done|lia].
Qed.

Lemma resolve_found names qual name i : resolve_column names qual name = Ok i -> exists c, names !! i = Some c /\ column_matches names qual name c = true.
Proof.
  unfold resolve_column. destruct (resolve_loop _ 0 None false names) as [[j|] []] eqn:Hr; try done. intros [= ->].
  apply resolve_loop_found in Hr as [|(c & Hc & Hh & _)]; [done|]. rewrite Nat.sub_0_r in Hc. eauto.
Qed.

(** Distinct names without dots. *)
Definition clean_names (ns : list str) : Prop := NoDup ns /\ Forall (Forall (fun x => x <> 46)) ns.

Lemma clean_lookup ns n c : clean_names ns -> ns !! n = Some c -> rsplit_once 46 c = None.
Proof. intros [_ H] Hc. apply rsplit_none. exact (Forall_lookup_1 _ _ _ _ H Hc). Qed.

Lemma resolve_clean ns qual name n : clean_names ns -> ns !! n = Some name -> resolve_column ns qual name = Ok n.
Proof.
  intros Hcl Hn. unfold resolve_column. rewrite (resolve_loop_hit _ ns n name 0 Hn).
  - by rewrite Nat.add_0_l.
  - unfold column_matches. rewrite (clean_lookup ns n name Hcl Hn). assert (str_eqb name name = true) as -> by (by apply bool_decide_eq_true).
    destruct qual; [|by destruct (existsb _ _)]. destruct (existsb _ _) eqn:He; [|done].
    apply existsb_exists in He as (c & Hc%list_elem_of_In & Hq). apply list_elem_of_lookup in Hc as [m Hm]. by rewrite (clean_lookup ns m c Hcl Hm) in Hq.
  - intros m d Hm Hd. unfold column_matches in Hd. rewrite (clean_lookup ns m d Hcl Hm) in Hd.
    assert (str_eqb d name = true) as E%bool_decide_eq_true.
    { destruct qual; [|destruct (existsb _ _); by try apply andb_prop in Hd as [_ ?]].
      destruct (existsb _ _); apply andb_prop in Hd as [? ?]; done. }
    subst. destruct Hcl as [Hnd _]. by eapply NoDup_lookup.
Qed.

Lemma column_index_clean {E} (t : Table E) n name : NoDup (column_names t) -> column_names t !! n = Some name -> column_index t name = Some (Z.of_nat n).
Proof.
  unfold column_names, column_index. intros Hnd Hn. enough (forall l k i, NoDup (col_name <$> l) -> (col_name <$> l) !! k = Some name ->
    position (fun c : Column E => str_eqb (col_name c) name) i l = Some (i + Z.of_nat k)) as H by (by apply (H (columns t) n 0)).
  clear. induction l as [|c l IH]; intros k i Hnd Hk; [by destruct k|]. cbn [position]. rewrite fmap_cons in Hnd, Hk. apply NoDup_cons in Hnd as [Hc Hnd].
  destruct k as [|k]; cbn [lookup list_lookup] in Hk.
  - injection Hk as ->. replace (str_eqb name name) with true by (symmetry; by apply bool_decide_eq_true). f_equal. lia.
  - replace (str_eqb (col_name c) name) with false; [rewrite (IH k (i + 1)) by done; f_equal; lia|]. symmetry. apply bool_decide_eq_false. intros Ec.
    apply Hc. rewrite Ec. by eapply list_elem_of_lookup_2.
Qed.

(** UPDATE and DELETE scan under the table's own names, SELECT under qualified ones. *)
Lemma own_names_agree {Q} (t : Table (Expr Q)) : clean_names (column_names t) -> names_agree t (column_names t).
Proof.
  intros Hcl qual name i Hi. split; [done|]. apply resolve_found in Hi as (c & Hc & Hm). apply column_index_clean; [apply Hcl|].
  assert (c = name) as ->; [|done]. unfold column_matches in Hm. rewrite (clean_lookup _ _ _ Hcl Hc) in Hm.
  destruct qual; destruct (existsb _ _); try (apply andb_prop in Hm as [_ Hm]); by apply bool_decide_eq_true in Hm.
Qed.

Definition qualified_names (alias : str) (ns : list str) : list str := (fun n => alias ++ [46] ++ n) <$> ns.

Lemma qualified_names_agree {Q} (t : Table (Expr Q)) alias : clean_names (column_names t) -> names_agree t (qualified_names alias (column_names t)).
Proof.
  intros Hcl qual name i Hi. apply resolve_found in Hi as (c & Hc & Hm). unfold qualified_names in Hc. rewrite list_lookup_fmap in Hc.
  destruct (column_names t !! i) as [n|] eqn:Hn; [|done]. cbn in Hc. injection Hc as <-.
  assert (n = name) as ->; [|split; [by apply resolve_clean|by apply column_index_clean; [apply Hcl|]]].
  unfold column_matches in Hm. change (alias ++ 46 :: n) with (alias ++ [46] ++ n) in Hm. rewrite rsplit_qualified in Hm by exact (Forall_lookup_1 _ _ _ _ (proj2 Hcl) Hn).
  destruct qual; destruct (existsb _ _); try (apply andb_prop in Hm as [_ Hm]); by apply bool_decide_eq_true in Hm.
Qed.

(** * Theorems *)

Lemma candidate_positions_ok {Q} to_lowercase call (q_eqb : Q -> Q -> bool) kinds (t : Table (Expr Q)) L names filter ps :
  (forall a b, q_eqb a b = true -> a = b) -> table_rep (table_eval to_lowercase call) kinds t L -> names_agree t names ->
  (forall f, filter = Some f -> scan_ok to_lowercase call kinds t L f) ->
  candidate_positions to_lowercase call q_eqb t filter = Val ps ->
  NoDup ps /\ (forall p, p ∈ ps -> is_Some (zget L p))
  /\ forall p id row f w, filter = Some f -> zget L p = Some (id, row) -> eval_expr to_lowercase call names row f = Val (Ok w) -> is_true w = true -> p ∈ ps.
Proof.
  intros Hq R Hn Hok H. unfold candidate_positions in H.
  assert (NoDup (Z.of_nat <$> seq 0 (length (rows t))) /\ forall p, p ∈ Z.of_nat <$> seq 0 (length (rows t)) <-> is_Some (zget L p)) as [Hnd Hall].
  { split; [apply NoDup_fmap; [exact Nat2Z.inj|apply NoDup_seq]|]. intros p. rewrite (tr_rows _ _ t L R), list_elem_of_fmap. split.
    - intros (n & -> & Hs%elem_of_seq). rewrite zget_nat. apply lookup_lt_is_Some. lia.
    - intros [x Hx]. apply zget_Some_nat in Hx as (n & -> & Hx). exists n. split; [done|]. apply elem_of_seq. apply lookup_lt_Some in Hx. lia. }
  destruct filter as [f|].
  2: { injection H as <-. split_and!; [done|intros p; apply Hall|done]. }
  specialize (Hok f eq_refl). destruct (index_candidate_positions to_lowercase call q_eqb t f) as [[qs|]|] eqn:Hc; [| |done]; cbn in H; injection H as <-.
  - assert (forall idx e c, idx ∈ indexes t -> idx_expr idx = Some e \/ idx_predicate idx = Some e -> expr_forall f64_lit c = true -> expr_eqb q_eqb c e = true -> c = e) as Heq.
    { intros idx e c Hi He Hl. apply expr_eqb_known; [done|by apply (sc_exprs _ _ _ _ _ _ Hok idx)|done]. }
    destruct (candidates_complete to_lowercase call q_eqb kinds t L R names Hn (and_conjuncts f) (sc_consts _ _ _ _ _ _ Hok)) with (filter := f) (ps := qs) as (N & V & C); try done.
    + intros idx e c Hi He Hcj. apply (Heq idx); [done|auto|by apply (sc_lits _ _ _ _ _ _ Hok)].
    + intros idx e l r Hi He Hcj. pose proof (sc_lits _ _ _ _ _ _ Hok _ Hcj) as Hl. apply andb_prop in Hl as [_ [Hl Hr]%andb_prop].
      split; (apply (Heq idx); [done|auto|done]).
    + apply (sc_keys _ _ _ _ _ _ Hok).
    + apply (sc_partial _ _ _ _ _ _ Hok).
    + apply (sc_gin _ _ _ _ _ _ Hok).
    + split_and!; [done|by apply Forall_forall|]. intros p id row f' w [= <-] Hp He Ht. eapply C; [done|]. by exists w.
  - split_and!; [done|intros p; apply Hall|]. intros p id row f' w [= <-] Hp _ _. apply Hall. by exists (id, row).
Qed.

(** C19: index access is complete where it applies.  For a table in the state its
    operations leave it in, and a WHERE clause such that constants compared with an
    indexed column or expression have the kind of the index, indexed expressions and
    predicates have no zero double literal, no partial index is a hash index, and
    GIN indexes hold arrays and are probed with arrays that are not also JSON
    ([scan_ok]): if the planner returns candidate positions (it can panic, for
    instance on BETWEEN 5 AND 3), they are distinct positions of rows, and every row
    on which the clause evaluates to true is among them.  So rechecking the clause on
    the candidates of a scan, an UPDATE or a DELETE selects exactly the rows a full
    scan selects, through plain, multi-column, expression, partial or GIN indexes. *)
Theorem index_candidates_complete {Q} to_lowercase call (q_eqb : Q -> Q -> bool) kinds (t : Table (Expr Q)) L names filter ps :
  (forall a b, q_eqb a b = true -> a = b) -> table_rep (table_eval to_lowercase call) kinds t L -> names_agree t names ->
  (forall f, filter = Some f -> scan_ok to_lowercase call kinds t L f) ->
  candidate_positions to_lowercase call q_eqb t filter = Val ps ->
  NoDup ps /\ (forall p, p ∈ ps -> is_Some (zget L p))
  /\ forall p id row f w, filter = Some f -> zget L p = Some (id, row) -> eval_expr to_lowercase call names row f = Val (Ok w) -> is_true w = true -> p ∈ ps.
Proof. exact (candidate_positions_ok to_lowercase call q_eqb kinds t L names filter ps). Qed.

Definition demo_eval := table_eval id no_call (Q := unit).
Definition demo_columns : list (Column (Expr unit)) := [column_basic (lit "a") TInt8 false; column_basic (lit "b") TText false].
Definition demo_index : Index.Index (Expr unit) := index_new (lit "i") 0 false.
Definition demo_base : Table (Expr unit) := with_indexes (table_new (lit "t") demo_columns) [demo_index].
Definition demo_rows : list (RowId * list Value) := [(0, [Int 5; Text (lit "x")]); (1, [Int 7; Text (lit "y")])].
Definition push_all {Q} (t : Table (Expr Q)) (rows : list (list Value)) : run (Table (Expr Q)) :=
  foldl (fun t row => t ← t; push_row (table_eval id no_call) t row) (Val t) rows.
Definition demo_loaded : Table (Expr unit) := match push_all demo_base (demo_rows.*2) with Val t => t | Panic => demo_base end.

Lemma demo_base_rep : table_rep demo_eval int_kinds demo_base [].
Proof.
  destruct (table_new_ok demo_eval int_kinds (lit "t") demo_columns) as [R1 R2 R3 R4 R5 R6 R7 R8]. split; try done.
  constructor; [|constructor]. unfold idx_inv. replace (omap _ _) with (∅ : gmap RowId (list Value)) by (symmetry; apply omap_empty). apply tracks_empty.
Qed.

Lemma demo_fits (t : Table (Expr unit)) i s : column_names t = [lit "a"; lit "b"] -> Forall2 same_meta [demo_index] (indexes t) ->
  next_toast_id (toast t) <= 5 -> starts_with s TOAST_PREFIX = false -> row_ok demo_eval int_kinds t [Int i; Text s].
Proof.
  intros Hc Hm Hn Hs. split_and!; [by repeat constructor| |rewrite !zlen_cons, zlen_nil; lia].
  apply (fits_meta _ _ _ _ _ _ Hm). apply Forall_cons. split; [|constructor]. intros _. exists (Some [Int i]). split; [done|].
  intros k [= <-] [|[]] x [= <-]. done.
Qed.

Lemma demo_loaded_rep : table_rep demo_eval int_kinds demo_loaded demo_rows.
Proof.
  destruct (push_ok demo_eval int_kinds demo_base [] [Int 5; Text (lit "x")] demo_base_rep) as (t1 & E1 & R1 & C1 & M1).
  { apply demo_fits; [reflexivity|repeat constructor|vm_compute; discriminate|reflexivity]. }
  destruct (push_ok demo_eval int_kinds t1 _ [Int 7; Text (lit "y")] R1) as (t2 & E2 & R2 & _).
  { apply demo_fits; [unfold column_names; rewrite C1; reflexivity|exact M1| |reflexivity].
    assert (Val t1 = push_row demo_eval demo_base [Int 5; Text (lit "x")]) as H1 by (by rewrite E1). vm_compute in H1. injection H1 as ->. vm_compute. discriminate. }
  assert (next_row_id t1 = 1) as N1. { assert (Val t1 = push_row demo_eval demo_base [Int 5; Text (lit "x")]) as H1 by (by rewrite E1). vm_compute in H1. injection H1 as ->. reflexivity. }
  rewrite N1 in R2. unfold demo_loaded, push_all. cbn [fmap list_fmap demo_rows foldl]. change (table_eval id no_call) with demo_eval. cbn [snd mbind run_bind]. rewrite E1. cbn [mbind run_bind]. rewrite E2. exact R2.
Qed.

Definition demo_filter : Expr unit := EBinary And (EBinary OpEq (EColumn (lit "a")) (EInt 7)) (EBinary OpEq (EQualified (lit "u") (lit "b")) (EStr (lit "y"))).

Lemma demo_scan_ok : scan_ok id no_call int_kinds demo_loaded demo_rows demo_filter.
Proof.
  assert (forall idx, idx ∈ indexes demo_loaded -> idx_columns idx = [0] /\ idx_expr idx = None /\ idx_predicate idx = None) as Hix.
  { intros idx Hi. assert (Forall (fun idx => idx_columns idx = [0] /\ idx_expr idx = None /\ idx_predicate idx = None) (indexes demo_loaded)) as F by (vm_compute; by repeat constructor).
    rewrite Forall_forall in F. by apply F. }
  split.
  - intros c col v Hc Hu idx n Hi He Hn. destruct (Hix idx Hi) as (Hcols & _). rewrite Hcols in Hn. destruct n as [|[|n]]; try done. injection Hn as <-.
    assert (forall l r, (l, r) ∈ [(EColumn (lit "a"), EInt 7); (EInt 7, EColumn (lit "a")); (EQualified (lit "u") (lit "b"), EStr (lit "y")); (EStr (lit "y"), EQualified (lit "u") (lit "b"))] ->
      forall w, col_const id no_call demo_loaded (Q := unit) l r = Val (Some (0, w)) -> w = Int 7) as Hcc.
    { clear. intros l r H. repeat (apply elem_of_cons in H as [H|H]; [injection H as -> ->; intros w Hw; vm_compute in Hw; congruence|]). by apply elem_of_nil in H. }
    change (kind_ok KInt v). enough (v = Int 7) as -> by done.
    apply elem_of_cons in Hc as [-> | Hc%list_elem_of_singleton]; [|subst c]; inversion Hu; subst; (eapply Hcc; [|eassumption]); set_solver.
  - intros c Hc. apply elem_of_cons in Hc as [-> | Hc%list_elem_of_singleton]; [|subst c]; reflexivity.
  - intros idx e Hi [He|He]; destruct (Hix idx Hi) as (_ & H1 & H2); congruence.
  - intros idx e l r v Hi He. destruct (Hix idx Hi) as (_ & H1 & H2). congruence.
  - intros idx e Hi He. destruct (Hix idx Hi) as (_ & H1 & H2). congruence.
  - intros l r col i v rt es Hc. apply elem_of_cons in Hc as [Hc| Hc%list_elem_of_singleton]; discriminate Hc.
Qed.

Lemma demo_names : names_agree demo_loaded (qualified_names (lit "u") (column_names demo_loaded)).
Proof. apply qualified_names_agree. split; [|repeat constructor; done]. vm_compute. repeat constructor; set_solver. Qed.

Lemma index_candidates_complete_witness :
  candidate_positions id no_call (fun _ _ => true) demo_loaded (Some demo_filter) = Val [1] /\ NoDup [1] /\ 1 ∈ [1].
Proof.
  assert (candidate_positions id no_call (fun _ _ => true) demo_loaded (Some demo_filter) = Val [1]) as E by (vm_compute; reflexivity).
  destruct (index_candidates_complete id no_call (fun _ _ => true) int_kinds demo_loaded demo_rows (qualified_names (lit "u") (column_names demo_loaded))
    (Some demo_filter) [1] ltac:(by intros [] [] _) demo_loaded_rep demo_names ltac:(intros f [= <-]; exact demo_scan_ok) E) as (N & _ & C).
  split; [exact E|]. split; [exact N|].
  apply (C 1 1 [Int 7; Text (lit "y")] demo_filter (Bool true)); reflexivity.
Defined.

Definition hash_partial : Table (Expr unit) :=
  with_indexes (table_new (lit "t") demo_columns)
    [mk_index (lit "h") [0] None (Some (EBinary OpEq (EColumn (lit "b")) (EStr (lit "y")))) [] false Hash (empty_store Hash)].
Definition gin_text : Table (Expr unit) :=
  with_indexes (table_new (lit "t") demo_columns) [mk_index (lit "g") [1] None None [] false Gin (empty_store Gin)].
Definition loaded (t : Table (Expr unit)) (row : list Value) : Table (Expr unit) := match push_all t [row] with Val t => t | Panic => t end.

(** Where the conditions fail rows are lost, and some plans panic: an integer
    column compared with a text constant, a hash partial index and a NULL key, a
    GIN index over JSON kept in a text column; a comparison with NULL and a
    reversed BETWEEN on an indexed column panic. *)
Lemma index_scan_anomalies :
  let cands t f := candidate_positions id no_call (fun _ _ => true) t (Some f) in
  let sel (row : list Value) f := eval_expr id no_call (Q := unit) [lit "a"; lit "b"] row f in
  let a := EColumn (lit "a") in let b := EColumn (lit "b") in
  let by_text := EBinary OpEq a (EStr (lit "7")) in
  let pred := EBinary OpEq b (EStr (lit "y")) in
  let json := EBinary (ArrayOperator ArrayContains) b (EStr (q "{'k':1}")) in
  cands demo_loaded by_text = Val [] /\ sel [Int 7; Text (lit "y")] by_text = Val (Ok (Bool true))
  /\ cands (loaded hash_partial [Null; Text (lit "y")]) pred = Val [] /\ sel [Null; Text (lit "y")] pred = Val (Ok (Bool true))
  /\ cands (loaded gin_text [Int 1; Text (q "{'k': 1}")]) json = Val [] /\ sel [Int 1; Text (q "{'k': 1}")] json = Val (Ok (Bool true))
  /\ cands demo_loaded (EBinary OpGt a ENull) = Panic
  /\ cands demo_loaded (EBetween a (EInt 5) (EInt 3) false) = Panic.
Proof. vm_compute. split_and!; reflexivity. Qed.
