(* ===== verification/Bind.v ===== *)
(** Binding of extended-protocol parameters, crates/server/src/bind.rs: the
    substitution of [$N] placeholders by the values of the Bind message. *)

From S2P Require Import Prelude Utf8 Numeric Types Float Index Wire FloatOps Datetime Json Containers Pattern LockStmt Ast Eval.

#[local] Open Scope Z_scope.

(** * Substitution *)

Section loops.
Context {A B : Type} (f : A -> result str B).

Fixpoint bind_all (l : list A) : result str (list B) :=
  match l with [] => Ok [] | x :: l => y ← f x; ys ← bind_all l; Ok (y :: ys) end.
Definition bind_opt (o : option A) : result str (option B) := match o with Some x => y ← f x; Ok (Some y) | None => Ok None end.
End loops.

(** [value_to_expr] *)
Definition value_to_expr {Q} (v : Value) : Expr Q :=
  match v with
  | Null => ENull
  | Int i => EInt i
  | Float f => EFloat f
  | Num n => ECast (EStr (to_canonical_string n)) TNumeric
  | Text s => EStr s
  | Bool b => EBool b
  end.

(** the [Param] arm of [bind_expr] *)
Definition bind_param {Q} (params : list Value) (n : Z) : result str (Expr Q) :=
  if n =? 0 then Err (lit "parameter $0 is invalid")
  else match zget params (n - 1) with
       | Some v => Ok (value_to_expr v)
       | None => Err (lit "bind message supplies too few parameters for $" ++ i64_display n)
       end.

(** [bind_expr]; subqueries and the OVER clause are left as they are. *)
Fixpoint bind_expr {Q} (params : list Value) (e : Expr Q) : result str (Expr Q) :=
  let go := bind_expr params in
  match e with
  | EParam n => bind_param params n
  | EUnary op e => e ← go e; Ok (EUnary op e)
  | EBinary op l r => l ← go l; r ← go r; Ok (EBinary op l r)
  | EQuantified l op k es => l ← go l; es ← bind_all go es; Ok (EQuantified l op k es)
  | EIsNull e n => e ← go e; Ok (EIsNull e n)
  | EIsDistinct l r n => l ← go l; r ← go r; Ok (EIsDistinct l r n)
  | ECast e t => e ← go e; Ok (ECast e t)
  | EInSubquery e q n => e ← go e; Ok (EInSubquery e q n)
  | ELike e p n ci => e ← go e; p ← go p; Ok (ELike e p n ci)
  | EInList e es n => e ← go e; es ← bind_all go es; Ok (EInList e es n)
  | ERow es => es ← bind_all go es; Ok (ERow es)
  | EArray es => es ← bind_all go es; Ok (EArray es)
  | EBetween e lo hi n => e ← go e; lo ← go lo; hi ← go hi; Ok (EBetween e lo hi n)
  | ECase o ws el =>
      o ← bind_opt go o;
      ws ← bind_all (fun w => match w with (c, r) => c ← go c; r ← go r; Ok (c, r) end) ws;
      el ← bind_opt go el;
      Ok (ECase o ws el)
  | EFunction f args st d fl ov => args ← bind_all go args; fl ← bind_opt go fl; Ok (EFunction f args st d fl ov)
  | other => Ok other
  end.

Section select.
Context {O : Type} (params : list Value).
Abbreviation E := (Expr (Select O)).

Definition bind_item (i : SelectItem E) : result str (SelectItem E) :=
  match i with Wildcard => Ok Wildcard | SelectExpr e a => e ← bind_expr params e; Ok (SelectExpr e a) end.
Definition bind_order (o : OrderByItem E) : result str (OrderByItem E) :=
  match o with mk_order e a => e ← bind_expr params e; Ok (mk_order e a) end.

(** [bind_table_ref] *)
Definition bind_table_ref (t : TableRef O) : result str (TableRef O) :=
  match t with
  | mk_tref schema name args alias sub lateral only cols ord =>
      args ← bind_all (bind_expr params) args; Ok (mk_tref schema name args alias sub lateral only cols ord)
  end.
Definition bind_join (j : Join O) : result str (Join O) :=
  match j with mk_join kind table on => table ← bind_table_ref table; on ← bind_opt (bind_expr params) on; Ok (mk_join kind table on) end.
Definition bind_from (f : FromClause O) : result str (FromClause O) :=
  match f with mk_from base joins => base ← bind_table_ref base; joins ← bind_all bind_join joins; Ok (mk_from base joins) end.

(** [bind_select], in the order of the code *)
Fixpoint bind_select (s : Select O) : result str (Select O) :=
  match s with
  | mk_select ctes distinct don proj from filter grp sets having ord limit offset locking set_ops =>
      proj ← bind_all bind_item proj;
      filter ← bind_opt (bind_expr params) filter;
      from ← bind_opt bind_from from;
      grp ← bind_all (bind_expr params) grp;
      having ← bind_opt (bind_expr params) having;
      don ← bind_all (bind_expr params) don;
      ord ← bind_all bind_order ord;
      limit ← bind_opt (bind_expr params) limit;
      offset ← bind_opt (bind_expr params) offset;
      set_ops ← bind_all (fun o => match o with mk_set_op op all s => s ← bind_select s; Ok (mk_set_op op all s) end) set_ops;
      Ok (mk_select ctes distinct don proj from filter grp sets having ord limit offset locking set_ops)
  end.

Definition bind_assignment (a : str * E) : result str (str * E) := match a with (n, e) => e ← bind_expr params e; Ok (n, e) end.

(** [bind_statement] *)
Fixpoint bind_statement (stmt : Statement O) : result str (Statement O) :=
  match stmt with
  | SInsert (mk_insert table columns dv ov rows sel conflict ret) =>
      rows ← bind_all (bind_all (bind_expr params)) rows;
      sel ← bind_opt bind_select sel;
      Ok (SInsert (mk_insert table columns dv ov rows sel conflict ret))
  | SSelect s => s ← bind_select s; Ok (SSelect s)
  | SUpdate (mk_update table asg from filter ret) =>
      asg ← bind_all bind_assignment asg;
      filter ← bind_opt (bind_expr params) filter;
      Ok (SUpdate (mk_update table asg from filter ret))
  | SDelete (mk_delete table using_ filter ret) =>
      filter ← bind_opt (bind_expr params) filter;
      Ok (SDelete (mk_delete table using_ filter ret))
  | SExplain a s => s ← bind_statement s; Ok (SExplain a s)
  | SOther o => Ok (SOther o)
  end.
End select.

(** * Specification *)

(** Evaluation in which [$n] denotes the [n]th parameter. *)
Section reference.
Context (to_lowercase : str -> str) (call : str -> list Value -> res str Value) {Q : Type} (params : list Value).
Context (col_names : list str) (row : list Value).

Definition param_value (n : Z) : res str Value :=
  match zget params (n - 1) with Some v => mret v | None => fail (lit "unbound parameter $" ++ i64_display n) end.

Fixpoint eval_bound (e : Expr Q) : res str Value :=
  match e with
  | EParam n => param_value n
  | EInt _ | EFloat _ | EStr _ | EBool _ | ENull | EColumn _ | EQualified _ _ | EScalarSubquery _ | EExists _ =>
      eval_expr to_lowercase call col_names row e
  | EUnary op e => v ← eval_bound e; eval_unary op v
  | EBinary op l r =>
      l ← eval_bound l;
      match op with
      | And => if negb (is_null l) && negb (is_true l) then mret (Bool false) else r ← eval_bound r; eval_binary to_lowercase op l r
      | Or => if is_true l then mret (Bool true) else r ← eval_bound r; eval_binary to_lowercase op l r
      | _ => r ← eval_bound r; eval_binary to_lowercase op l r
      end
  | EQuantified l op k es => lhs ← eval_bound l; quantified_loop to_lowercase eval_bound op lhs (stops k) (is_null lhs) es
  | ERow items => vs ← eval_all eval_bound items; mret (Text (row_value_to_text vs))
  | EArray items => vs ← eval_all eval_bound items; mret (Text (array_value_to_text vs))
  | EIsNull e negated => v ← eval_bound e; mret (sign_bool negated (is_null v))
  | EIsDistinct l r negated =>
      l ← eval_bound l; r ← eval_bound r;
      mret (sign_bool negated (match is_null l, is_null r with true, true => false | true, false | false, true => true | false, false => negb (equal_values l r) end))
  | ELike e pattern negated ci =>
      v ← eval_bound e; p ← eval_bound pattern;
      if is_null v || is_null p then mret Null else mret (sign_bool negated (like_match to_lowercase (text_of v) (text_of p) ci))
  | EInList e es negated => target ← eval_bound e; if is_null target then mret Null else in_list_loop eval_bound target negated false es
  | EBetween e low high negated =>
      v ← eval_bound e; lo ← eval_bound low; hi ← eval_bound high;
      if is_null v || is_null lo || is_null hi then mret Null
      else mret (sign_bool negated (from_option (fun c => negb (is_lt c)) false (compare_values v lo) && from_option (fun c => negb (is_gt c)) false (compare_values v hi)))
  | ECase operand whens else_expr =>
      o ← match operand with Some o => v ← eval_bound o; mret (Some v) | None => mret None end;
      r ← case_loop eval_bound o whens;
      match r with Some v => mret v | None => match else_expr with Some e => eval_bound e | None => mret Null end end
  | ECast e target => v ← eval_bound e; coerce v target
  | EInSubquery _ _ _ => fail (lit "correlated subqueries are not supported")
  | EFunction name args _ _ _ _ => vs ← eval_all eval_bound args; call (to_ascii_lower <$> name) vs
  end.
End reference.

(** A parameter that its literal denotes exactly; every value but a decimal whose
    digits are not in the form the parser builds. *)
Definition param_exact (v : Value) : Prop := match v with Num n => Numeric.parse (to_canonical_string n) = Val (Some n) | _ => True end.

(** The parameters a substitution reaches. *)
Definition param_ok {Q} (params : list Value) (e : Expr Q) : bool := match e with EParam n => (1 <=? n) && (n <=? zlen params) | _ => true end.
Definition no_param {Q} (e : Expr Q) : bool := match e with EParam _ => false | _ => true end.
Definition no_over {Q} (e : Expr Q) : bool := match e with EFunction _ _ _ _ _ (Some _) => false | _ => true end.

Lemma bind_all_Forall2 {A B} (f : A -> result str B) l l' : bind_all f l = Ok l' -> Forall2 (fun x y => f x = Ok y) l l'.
Proof.
  revert l'. induction l as [|x l IH]; intros l' H; cbn in H; [by injection H as <-|]. inv_ok. constructor; auto.
Qed.

Section semantics.
Context (to_lowercase : str -> str) (call : str -> list Value -> res str Value) {Q : Type} (params : list Value).
Context (col_names : list str) (row : list Value) (Hexact : Forall param_exact params).
Abbreviation ev := (eval_expr to_lowercase call (Q := Q) col_names row).
Abbreviation eb := (eval_bound to_lowercase call params (Q := Q) col_names row).

Definition same (e : Expr Q) : Prop := forall e', bind_expr params e = Ok e' -> ev e' = eb e.
Definition rel (e e' : Expr Q) : Prop := ev e' = eb e.

Lemma bound_list es es' : Forall same es -> bind_all (bind_expr params) es = Ok es' -> Forall2 rel es es'.
Proof.
  intros H Hb%bind_all_Forall2. revert H. induction Hb as [|e e' es es' He Hb IH]; intros H; [constructor|].
  apply Forall_cons in H as [H1 H2]. constructor; [by apply H1|by apply IH].
Qed.

Lemma all_rel es es' : Forall2 rel es es' -> eval_all ev es' = eval_all eb es.
Proof. induction 1 as [|e e' es es' H _ IH]; cbn; [done|]. by rewrite H, IH. Qed.
Lemma in_list_rel t n sn es es' : Forall2 rel es es' -> in_list_loop ev t n sn es' = in_list_loop eb t n sn es.
Proof.
  intros H. revert sn. induction H as [|e e' es es' H _ IH]; intros sn; cbn; [done|]. rewrite H. destruct (eb e) as [[v|]|]; cbn; try done.
  destruct (is_null v); [apply IH|]. destruct (equal_values t v); [done|apply IH].
Qed.
Lemma quantified_rel op l st sn es es' : Forall2 rel es es' -> quantified_loop to_lowercase ev op l st sn es' = quantified_loop to_lowercase eb op l st sn es.
Proof.
  intros H. revert sn. induction H as [|e e' es es' H _ IH]; intros sn; cbn; [done|]. rewrite H. destruct (eb e) as [[v|]|]; cbn; try done.
  destruct (eval_binary to_lowercase op l v) as [[c|]|]; cbn; try done. destruct c; try apply IH. destruct (Bool.eqb b st); [done|apply IH].
Qed.
Lemma case_rel o ws ws' : Forall2 (fun w w' => rel w.1 w'.1 /\ rel w.2 w'.2) ws ws' -> case_loop ev o ws' = case_loop eb o ws.
Proof.
  induction 1 as [|[c r] [c' r'] ws ws' [Hc Hr] _ IH]; cbn in *; [done|]. unfold rel in *. rewrite Hc, Hr, IH. done.
Qed.

Lemma canonical_trim n : bd_wf n -> trim (to_canonical_string n) = to_canonical_string n.
Proof.
  intros W. destruct (print_digits n W) as (D1 & N1 & D2 & _ & _). rewrite print_shape.
  assert (forall ds, Forall is_digit ds -> Forall (fun c => num_char c = true) (digit_char <$> ds)) as G.
  { intros ds H. apply Forall_fmap. eapply Forall_impl; [exact H|]. intros d Hd. unfold compose, num_char, is_ascii_alphanumeric. by rewrite digit_char_digit, orb_true_r. }
  apply num_trim.
  - destruct (int_digits n); [done|]. by destruct (negative n && _).
  - repeat (apply Forall_app; split); [by destruct (_ && _); repeat constructor|by apply G|]. destruct (0 <? scale n); [|constructor]. constructor; [done|by apply G].
Qed.

Lemma param_same n : same (EParam n).
Proof.
  intros e' H. cbn in H. unfold bind_param in H. destruct (n =? 0); [done|]. destruct (zget params (n - 1)) as [v|] eqn:Hv; [|done]. injection H as <-.
  cbn [eval_bound]. unfold param_value. rewrite Hv. assert (param_exact v) as Hx.
  { apply zget_Some_nat in Hv as (k & _ & Hv). exact (Forall_lookup_1 _ _ _ _ Hexact Hv). }
  destruct v; try done. cbn [param_exact] in Hx. change (coerce (Text (to_canonical_string n0)) TNumeric = mret (Num n0)). unfold coerce. cbn [is_null coerce_numeric].
  rewrite canonical_trim by (by apply Numeric.parse_wf in Hx). by rewrite Hx.
Qed.

Lemma bound_opt o o' : opt_all same o -> bind_opt (bind_expr params) o = Ok o' -> option_Forall2 rel o o'.
Proof. destruct o as [e|]; cbn; intros H He; inv_ok; constructor. by apply H. Qed.

Lemma bound_arms ws ws' : Forall (fun w => same w.1 /\ same w.2) ws ->
  bind_all (fun w => match w with (c, r) => c ← bind_expr params c; r ← bind_expr params r; Ok (c, r) end) ws = Ok ws' ->
  Forall2 (fun w w' => rel w.1 w'.1 /\ rel w.2 w'.2) ws ws'.
Proof.
  intros H Hb%bind_all_Forall2. revert H. induction Hb as [|[c r] w' ws ws' Hw _ IH]; intros H; [constructor|]. apply Forall_cons in H as [[Hc Hr] Hws].
  constructor; [|by apply IH]. inv_ok. split; [by apply Hc|by apply Hr].
Qed.

Lemma case_same o ws el : opt_all same o -> Forall (fun w => same w.1 /\ same w.2) ws -> opt_all same el -> same (ECase o ws el).
Proof.
  intros Ho Hw Hel e' He. cbn [bind_expr] in He. apply bind_Ok_inv in He as (o' & Eo & He). apply bind_Ok_inv in He as (ws' & Ew & He).
  apply bind_Ok_inv in He as (el' & Ee & He). injection He as <-. apply bound_opt in Eo; [|done]. apply bound_arms in Ew; [|done]. apply bound_opt in Ee; [|done].
  cbn [eval_expr eval_bound].
  assert (match o' with Some o => v ← ev o; mret (Some v) | None => mret None end = match o with Some o => v ← eb o; mret (Some v) | None => mret None end) as ->
    by (destruct Eo as [a b E|]; [by rewrite E|done]).
  destruct (match o with Some o => v ← eb o; mret (Some v) | None => mret None end) as [[ov|]|]; cbn [mbind res_bind]; try done.
  rewrite (case_rel ov ws ws' Ew). destruct (case_loop eb ov ws) as [[[v|]|]|]; cbn [mbind res_bind]; try done. by destruct Ee.
Qed.

Lemma expr_same e : same e.
Proof.
  induction e using Expr_induct; try (apply param_same); try (by apply case_same); intros e' He; cbn [bind_expr] in He; inv_ok; cbn [eval_expr eval_bound]; try done.
  all: repeat match goal with
    | IH : same ?e, H : bind_expr _ ?e = Ok _ |- _ => rewrite (IH _ H); clear H
    | IH : Forall _ ?es, H : bind_all (bind_expr params) ?es = Ok _ |- _ => apply (bound_list _ _ IH) in H
    end; try done.
  - destruct (eb e) as [[v|]|]; cbn; try done. by apply quantified_rel.
  - by erewrite all_rel by done.
  - by erewrite all_rel by done.
  - destruct (eb e) as [[v|]|]; cbn; try done. destruct (is_null v); [done|]. by apply in_list_rel.
  - by erewrite all_rel by done.
Qed.
End semantics.

Section totality.
Context {Q : Type} (params : list Value).
Abbreviation ok := (expr_forall (Q := Q) (param_ok params)).
Abbreviation flat := (expr_forall (Q := Q) no_over).
Abbreviation closed := (expr_forall (Q := Q) no_param).

Definition binds (e : Expr Q) : Prop := ok e = true -> exists e', bind_expr params e = Ok e'.
Definition closes (e : Expr Q) : Prop := flat e = true -> forall e', bind_expr params e = Ok e' -> closed e' = true.

Lemma binds_all es : Forall binds es -> forallb ok es = true -> exists es', bind_all (bind_expr params) es = Ok es'.
Proof.
  induction 1 as [|e es He _ IH]; cbn; [by exists []|]. intros [H1 H2]%andb_prop. destruct (He H1) as [e' ->]. destruct (IH H2) as [es' ->]. by exists (e' :: es').
Qed.
Lemma binds_opt o : opt_all binds o -> match o with Some e => ok e | None => true end = true -> exists o', bind_opt (bind_expr params) o = Ok o'.
Proof. destruct o as [e|]; cbn; [|by exists None]. intros H Ho. destruct (H Ho) as [e' ->]. by exists (Some e'). Qed.
Lemma binds_arms ws : Forall (fun w => binds w.1 /\ binds w.2) ws -> forallb (fun w => match w with (c, r) => ok c && ok r end) ws = true ->
  exists ws', bind_all (fun w => match w with (c, r) => c ← bind_expr params c; r ← bind_expr params r; Ok (c, r) end) ws = Ok ws'.
Proof.
  induction 1 as [|[c r] ws [Hc Hr] _ IH]; cbn; [by exists []|]. intros [[H1 H2]%andb_prop H3]%andb_prop. cbn in Hc, Hr. destruct (Hc H1) as [c' ->]. destruct (Hr H2) as [r' ->].
  destruct (IH H3) as [ws' ->]. by exists ((c', r') :: ws').
Qed.

Ltac split_ok := repeat match goal with H : (_ && _)%bool = true |- _ => apply andb_prop in H as [? ?] end.

Lemma expr_binds e : binds e.
Proof.
  induction e using Expr_induct; intros Hok; cbn [expr_forall] in Hok; split_ok; cbn [bind_expr];
    repeat match goal with
    | IH : binds ?e, H : ok ?e = true |- context [bind_expr params ?e] => destruct (IH H) as [? ->]; clear IH; cbn [mbind result_bind]
    | IH : Forall binds ?es, H : forallb _ ?es = true |- context [bind_all (bind_expr params) ?es] => destruct (binds_all es IH H) as [? ->]; clear IH; cbn [mbind result_bind]
    | IH : Forall _ ?es, H : forallb _ ?es = true |- context [bind_all (bind_expr params) ?es] => destruct (binds_all es IH H) as [? ->]; clear IH; cbn [mbind result_bind]
    | IH : Forall _ ?ws, H : forallb _ ?ws = true |- context [bind_all _ ?ws] => destruct (binds_arms ws IH H) as [? ->]; clear IH; cbn [mbind result_bind]
    | IH : opt_all binds ?o |- context [bind_opt (bind_expr params) ?o] => destruct (binds_opt o IH) as [? ->]; [done|]; clear IH; cbn [mbind result_bind]
    | IH : opt_all _ ?o |- context [bind_opt (bind_expr params) ?o] => destruct (binds_opt o IH) as [? ->]; [done|]; clear IH; cbn [mbind result_bind]
    end; eauto.
  cbn in H. zb. unfold bind_param. zfalse (n =? 0). destruct (zget_is_Some params (n - 1)) as [v ->]; [lia|]. eauto.
Qed.

Lemma closes_all es es' : Forall closes es -> forallb flat es = true -> bind_all (bind_expr params) es = Ok es' -> forallb closed es' = true.
Proof.
  intros H Hf Hb%bind_all_Forall2. revert H Hf. induction Hb as [|e e' es es' He _ IH]; [done|]. intros [H1 H2]%Forall_cons [F1 F2]%andb_prop. cbn.
  by rewrite (H1 F1 e' He), IH.
Qed.
Lemma closes_opt o o' : opt_all closes o -> match o with Some e => flat e | None => true end = true -> bind_opt (bind_expr params) o = Ok o' ->
  match o' with Some e => closed e | None => true end = true.
Proof. destruct o as [e|]; cbn; intros H Hf Hb; inv_ok; [by apply H|done]. Qed.
Lemma closes_arms ws ws' : Forall (fun w => closes w.1 /\ closes w.2) ws -> forallb (fun w => match w with (c, r) => flat c && flat r end) ws = true ->
  bind_all (fun w => match w with (c, r) => c ← bind_expr params c; r ← bind_expr params r; Ok (c, r) end) ws = Ok ws' ->
  forallb (fun w => match w with (c, r) => closed c && closed r end) ws' = true.
Proof.
  intros H Hf Hb%bind_all_Forall2. revert H Hf. induction Hb as [|[c r] w' ws ws' Hw _ IH]; [done|]. intros [[Hc Hr] H2]%Forall_cons [[F1 F2]%andb_prop F3]%andb_prop.
  inv_ok. cbn. cbn in Hc, Hr. rewrite (Hc F1 _ H), (Hr F2 _ H0). by apply IH.
Qed.

Lemma value_closed v : closed (value_to_expr v) = true.
Proof. by destruct v. Qed.

Lemma expr_closes e : closes e.
Proof.
  induction e using Expr_induct; intros Hf e' He; cbn [expr_forall] in Hf; split_ok; cbn [bind_expr] in He;
    try (unfold bind_param in He; destruct (n =? 0); [done|]; destruct (zget params (n - 1)); [|done]; injection He as <-; apply value_closed);
    inv_ok; cbn [expr_forall no_param andb];
    repeat match goal with
    | IH : closes ?e, H : bind_expr params ?e = Ok _ |- _ => rewrite (IH ltac:(assumption) _ H); clear H; cbn [andb]
    | IH : Forall _ ?es, H : bind_all (bind_expr params) ?es = Ok _ |- _ => rewrite (closes_all _ _ IH ltac:(assumption) H); clear H; cbn [andb]
    | IH : Forall _ ?ws, H : bind_all _ ?ws = Ok _ |- _ => rewrite (closes_arms _ _ IH ltac:(assumption) H); clear H; cbn [andb]
    | IH : opt_all _ ?o, H : bind_opt (bind_expr params) ?o = Ok _ |- _ => rewrite (closes_opt _ _ IH ltac:(assumption) H); clear H; cbn [andb]
    end; try done.
  by destruct ov.
Qed.
End totality.

(** * Theorems *)

(** C23: binding parameters is substitution of their values (decimals in the form the
    parser gives them).  When an expression binds,
    evaluating the result on any row is evaluating the original with [$n] denoting
    the [n]th parameter, errors and panics included, and no placeholder is left
    outside subqueries and OVER clauses; and it binds whenever every placeholder
    names a parameter that the client sent. *)
Theorem bind_expr_correct to_lowercase call {Q} params (e : Expr Q) :
  Forall param_exact params ->
  (forall e', bind_expr params e = Ok e' ->
     (forall col_names row, eval_expr to_lowercase call col_names row e' = eval_bound to_lowercase call params col_names row e)
     /\ (expr_forall no_over e = true -> expr_forall no_param e' = true))
  /\ (expr_forall (param_ok params) e = true -> exists e', bind_expr params e = Ok e').
Proof.
  intros Hx. split; [|apply expr_binds]. intros e' He. split; [|intros Hf; by eapply expr_closes].
  intros col_names row. by apply expr_same.
Qed.

Definition demo_param_expr : Expr unit :=
  EBinary And (EBinary OpGt (EColumn (lit "a")) (EParam 1)) (EBinary OpLt (EParam 2) (EColumn (lit "b"))).

Lemma bind_expr_correct_witness :
  exists e', bind_expr [Int 3; Num (bd "1.5")] demo_param_expr = Ok e' /\
    eval_expr id no_call [lit "a"; lit "b"] [Int 5; Num (bd "2")] e' = eval_bound id no_call [Int 3; Num (bd "1.5")] [lit "a"; lit "b"] [Int 5; Num (bd "2")] demo_param_expr.
Proof.
  destruct (bind_expr_correct id no_call [Int 3; Num (bd "1.5")] demo_param_expr) as [H1 H2].
  { constructor; [exact I|]. constructor; [vm_compute; reflexivity|constructor]. }
  destruct (H2 ltac:(reflexivity)) as [e' He]. exists e'. split; [exact He|]. apply (H1 e' He).
Defined.

(** A derived table [SELECT 1 FROM (SELECT 1 WHERE $1) s]. *)
Definition plain_select {D} (proj : list (SelectItem (Expr (Select D)))) (from : option (FromClause D)) (filter : option (Expr (Select D))) : Select D :=
  mk_select [] false [] proj from filter [] [] None [] None None [] [].
Definition derived : Select unit :=
  plain_select [SelectExpr (EInt 1) None]
    (Some (mk_from (mk_tref None (lit "s") [] None (Some (plain_select [SelectExpr (EInt 1) None] None (Some (EParam 1)))) false false [] false) [])) None.
Definition upsert : Insert unit :=
  mk_insert (lit "t") None false false [[EParam 1]] None (Some (DoUpdate [lit "a"] [(lit "a", EParam 1)] None)) [SelectExpr (EParam 1) None].

(** Placeholders that binding does not reach: derived tables, ON CONFLICT and
    RETURNING keep theirs, and the executor then reports them as unbound. *)
Lemma bind_anomalies :
  bind_statement [Int 1] (SSelect derived : Statement unit) = Ok (SSelect derived)
  /\ bind_statement [Int 1] (SInsert upsert : Statement unit)
     = Ok (SInsert (mk_insert (lit "t") None false false [[EInt 1]] None (Some (DoUpdate [lit "a"] [(lit "a", EParam 1)] None)) [SelectExpr (EParam 1) None]))
  /\ eval_expr id no_call [] [] (EParam 1 : Expr unit) = Val (Err (lit "unbound parameter $1")).
Proof. split_and!; reflexivity. Qed.
