(* ===== verification/Serialize.v ===== *)
(** The SQL serializer of crates/sql/src/serialize.rs: the text of expressions,
    queries and data-modifying statements that the logical log persists. *)

From S2P Require Import Prelude Utf8 Numeric Types Float Index Wire FloatOps Datetime Json Containers LockStmt Lexer Ast.

#[local] Open Scope Z_scope.

(** * Operators *)

(** [binop_sql] *)
Definition binop_sql (op : BinaryOp) : str :=
  match op with
  | Add => lit "+" | Sub => lit "-" | Mul => lit "*" | Div => lit "/" | Mod => lit "%"
  | Ast.Concat => lit "||" | JsonGet => lit "->" | JsonGetText => lit "->>"
  | ArrayOperator Containers.ArrayContains => lit "@>" | Ast.TextSearchMatch => lit "@@"
  | ArrayOperator Containers.ArrayContainedBy => lit "<@" | ArrayOperator Containers.ArrayOverlap => lit "&&"
  | NetworkOperator Containers.NetworkContainedBy => lit "<<" | NetworkOperator Containers.NetworkContainedByEq => lit "<<="
  | NetworkOperator Containers.NetworkContains => lit ">>" | NetworkOperator Containers.NetworkContainsEq => lit ">>="
  | OpEq => lit "=" | Ast.NotEq => lit "<>" | OpLt => lit "<" | Ast.LtEq => lit "<=" | OpGt => lit ">" | Ast.GtEq => lit ">="
  | And => lit "AND" | Or => lit "OR"
  | RegexMatch false => lit "~" | RegexMatch true => lit "~*" | RegexNotMatch false => lit "!~" | RegexNotMatch true => lit "!~*"
  end.
(** [quantifier_sql] *)
Definition quantifier_sql (q : Quantifier) : str :=
  match q with Any => lit "ANY" | SomeOf => lit "SOME" | All => lit "ALL" end.

Definition SEP : str := lit ", ".
(** An optional part printed by a closure ([map] and [unwrap_or_default]). *)
Definition part {A} (f : A -> str) (o : option A) : str := match o with Some x => f x | None => [] end.

(** The keyword pairs of the negatable predicates. *)
Definition is_null_sql (negated : bool) : str := if negated then lit "IS NOT NULL" else lit "IS NULL".
Definition is_distinct_sql (negated : bool) : str := if negated then lit "IS NOT DISTINCT FROM" else lit "IS DISTINCT FROM".
Definition like_sql (negated ci : bool) : str :=
  match negated, ci with
  | false, false => lit "LIKE" | true, false => lit "NOT LIKE" | false, true => lit "ILIKE" | true, true => lit "NOT ILIKE"
  end.
Definition in_sql (negated : bool) : str := if negated then lit "NOT IN" else lit "IN".
Definition between_sql (negated : bool) : str := if negated then lit "NOT BETWEEN" else lit "BETWEEN".

(** The internal function that subscripts are parsed to. *)
Definition SUBSCRIPT : str := lit "__subscript".

(** * Expressions *)

Section items.
Context {E : Type} (expr_sql : E -> str).
(** one item of an ORDER BY list *)
Definition order_item_sql (o : OrderByItem E) : str := match o with mk_order e asc => expr_sql e ++ (if asc then [] else lit " DESC") end.
(** [window_spec_sql] *)
Definition window_spec_sql (spec : WindowSpec E) : str :=
  match spec with
  | mk_window partition order =>
      join [32] (match partition with [] => [] | _ => [lit "PARTITION BY " ++ join SEP (expr_sql <$> partition)] end
                 ++ match order with [] => [] | _ => [lit "ORDER BY " ++ join SEP (order_item_sql <$> order)] end)
  end.
(** a parenthesized list *)
Definition paren_list (es : list E) : str := lit "(" ++ join SEP (expr_sql <$> es) ++ lit ")".
(** one [WHEN .. THEN ..] arm *)
Definition when_sql (w : E * E) : str := match w with (c, r) => lit " WHEN " ++ expr_sql c ++ lit " THEN " ++ expr_sql r end.
(** a function call with its FILTER and OVER clauses *)
Definition call_sql (name : str) (args : list E) (star distinct : bool) (filter : option E) (over : option (WindowSpec E)) : str :=
  (if star then name ++ lit "(*)" else name ++ lit "(" ++ (if distinct then lit "DISTINCT " else []) ++ join SEP (expr_sql <$> args) ++ lit ")")
  ++ part (fun f => lit " FILTER (WHERE " ++ expr_sql f ++ lit ")") filter
  ++ part (fun spec => lit " OVER (" ++ window_spec_sql spec ++ lit ")") over.
End items.

(** [expr_to_sql]; [select_sql] prints subqueries. *)
Section expr.
Context {Q : Type} (select_sql : Q -> str).

Fixpoint expr_to_sql (e : Expr Q) : str :=
  match e with
  | EInt i => i64_display i
  | EFloat f => default (lit "0") (to_text (Float f))
  | EStr s => quote_string s
  | EBool b => if b then lit "TRUE" else lit "FALSE"
  | ENull => lit "NULL"
  | EParam n => lit "$" ++ i64_display n
  | EColumn name => ident name
  | EQualified qualifier name => ident qualifier ++ lit "." ++ ident name
  | EUnary Neg e => lit "(-" ++ expr_to_sql e ++ lit ")"
  | EUnary Not e => lit "(NOT " ++ expr_to_sql e ++ lit ")"
  | EBinary op l r => lit "(" ++ expr_to_sql l ++ lit " " ++ binop_sql op ++ lit " " ++ expr_to_sql r ++ lit ")"
  | EQuantified l op k es =>
      lit "(" ++ expr_to_sql l ++ lit " " ++ binop_sql op ++ lit " " ++ quantifier_sql k ++ lit " " ++ paren_list expr_to_sql es ++ lit ")"
  | ERow es => lit "ROW" ++ paren_list expr_to_sql es
  | EArray es => lit "ARRAY[" ++ join SEP (expr_to_sql <$> es) ++ lit "]"
  | EIsNull e n => lit "(" ++ expr_to_sql e ++ lit " " ++ is_null_sql n ++ lit ")"
  | EIsDistinct l r n => lit "(" ++ expr_to_sql l ++ lit " " ++ is_distinct_sql n ++ lit " " ++ expr_to_sql r ++ lit ")"
  | ELike e p n ci => lit "(" ++ expr_to_sql e ++ lit " " ++ like_sql n ci ++ lit " " ++ expr_to_sql p ++ lit ")"
  | EInList e es n => lit "(" ++ expr_to_sql e ++ lit " " ++ in_sql n ++ lit " " ++ paren_list expr_to_sql es ++ lit ")"
  | EBetween e lo hi n =>
      lit "(" ++ expr_to_sql e ++ lit " " ++ between_sql n ++ lit " " ++ expr_to_sql lo ++ lit " AND " ++ expr_to_sql hi ++ lit ")"
  | ECase o ws el =>
      lit "CASE" ++ part (fun o => lit " " ++ expr_to_sql o) o ++ concat (when_sql expr_to_sql <$> ws)
      ++ part (fun e => lit " ELSE " ++ expr_to_sql e) el ++ lit " END"
  | ECast e t => lit "CAST(" ++ expr_to_sql e ++ lit " AS " ++ sql_name t ++ lit ")"
  | EScalarSubquery q => lit "(" ++ select_sql q ++ lit ")"
  | EExists q => lit "EXISTS (" ++ select_sql q ++ lit ")"
  | EInSubquery e q n => lit "(" ++ expr_to_sql e ++ lit " " ++ in_sql n ++ lit " (" ++ select_sql q ++ lit "))"
  | EFunction name args star distinct filter over =>
      match str_eqb name SUBSCRIPT, args with
      | true, [a; i] => expr_to_sql a ++ lit "[" ++ expr_to_sql i ++ lit "]"
      | _, _ => call_sql expr_to_sql name args star distinct filter over
      end
  end.
End expr.

(** * Queries *)

(** [row_locking_clause_to_sql] *)
Definition row_locking_clause_to_sql (c : RowLockingClause) : str :=
  lit " " ++ (match rc_mode c with
              | LockStmt.Update => lit "FOR UPDATE" | NoKeyUpdate => lit "FOR NO KEY UPDATE"
              | ForShare => lit "FOR SHARE" | KeyShare => lit "FOR KEY SHARE"
              end)
  ++ (match rc_tables c with [] => [] | ts => lit " OF " ++ join SEP (ident <$> ts) end)
  ++ (match rc_wait_policy c with Some NoWait => lit " NOWAIT" | Some SkipLocked => lit " SKIP LOCKED" | None => [] end).

(** [select_item_to_sql] *)
Definition select_item_to_sql {E} (expr_sql : E -> str) (i : SelectItem E) : str :=
  match i with
  | Wildcard => lit "*"
  | SelectExpr e (Some a) => expr_sql e ++ lit " AS " ++ ident a
  | SelectExpr e None => expr_sql e
  end.
(** [push_column_aliases] *)
Definition column_aliases_sql (aliases : list str) : str := match aliases with [] => [] | _ => paren_list ident aliases end.
Definition join_sql (k : JoinKind) : str :=
  match k with
  | Inner => lit "JOIN" | LeftJoin => lit "LEFT JOIN" | RightJoin => lit "RIGHT JOIN" | FullJoin => lit "FULL JOIN" | Cross => lit "CROSS JOIN"
  end.
Definition set_operator_sql (o : SetOperator) : str :=
  match o with Union => lit "UNION" | Intersect => lit "INTERSECT" | Except => lit "EXCEPT" end.
Definition alias_sql (a : option str) : str := part (fun a => lit " AS " ++ ident a) a.
(** a column list after a space, when there is one *)
Definition columns_sql (names : list str) : str := match names with [] => [] | _ => lit " " ++ paren_list ident names end.
(** the GROUP BY clause *)
Definition group_by_sql {E} (expr_sql : E -> str) (group_by : list E) (sets : list (list E)) : str :=
  match group_by, sets with
  | _ :: _, _ => lit " GROUP BY " ++ join SEP (expr_sql <$> group_by)
  | [], _ :: _ => lit " GROUP BY GROUPING SETS " ++ paren_list (paren_list expr_sql) sets
  | [], [] => []
  end.
Definition assignment_sql {E} (expr_sql : E -> str) (a : str * E) : str := match a with (n, e) => ident n ++ lit " = " ++ expr_sql e end.
Definition clause_sql {E} (kw : str) (expr_sql : E -> str) (o : option E) : str := part (fun e => lit " " ++ kw ++ lit " " ++ expr_sql e) o.

(** * Statements *)

(** The printers of the parts, over those of the queries and statements they hold. *)
Section parts.
Context {O : Type} (select_sql : Select O -> str) (statement_sql : Statement O -> str).
Abbreviation expr := (expr_to_sql select_sql).

(** one common table expression *)
Definition cte_to_sql (c : Cte O) : str :=
  match c with
  | mk_cte name columns select dml _ =>
      ident name ++ columns_sql columns ++ lit " AS (" ++ (match dml with Some stmt => statement_sql stmt | None => select_sql select end) ++ lit ")"
  end.
(** [table_ref_to_sql] *)
Definition table_ref_to_sql (t : TableRef O) : str :=
  match t with
  | mk_tref schema name args alias sub lateral _ cols ord =>
      (if lateral then lit "LATERAL " else [])
      ++ match sub with
         | Some sub => lit "(" ++ select_sql sub ++ lit ")" ++ alias_sql alias ++ column_aliases_sql cols
         | None =>
             part (fun s => ident s ++ lit ".") schema ++ ident name
             ++ (match args with [] => [] | _ => paren_list expr args end)
             ++ (if ord then lit " WITH ORDINALITY" else []) ++ alias_sql alias ++ column_aliases_sql cols
         end
  end.
(** [from_clause_to_sql] *)
Definition join_to_sql (j : Join O) : str :=
  match j with
  | mk_join kind table on => lit " " ++ join_sql kind ++ lit " " ++ table_ref_to_sql table ++ clause_sql (lit "ON") expr on
  end.
Definition from_clause_to_sql (f : FromClause O) : str :=
  match f with mk_from base joins => table_ref_to_sql base ++ concat (join_to_sql <$> joins) end.
Definition set_op_to_sql (o : SetOperation O) : str :=
  match o with mk_set_op op all s => lit " " ++ set_operator_sql op ++ (if all then lit " ALL" else []) ++ lit " " ++ select_sql s end.
(** [on_conflict_sql] *)
Definition on_conflict_sql (c : OnConflict O) : str :=
  match c with
  | DoNothing target => lit " ON CONFLICT" ++ columns_sql target ++ lit " DO NOTHING"
  | DoUpdate target assignments filter =>
      lit " ON CONFLICT" ++ columns_sql target ++ lit " DO UPDATE SET "
      ++ join SEP (assignment_sql expr <$> assignments) ++ clause_sql (lit "WHERE") expr filter
  end.
(** [insert_sql] *)
Definition insert_sql (i : Insert O) : str :=
  match i with
  | mk_insert table columns default_values overriding rows select conflict _ =>
      lit "INSERT INTO " ++ ident table ++ part (fun ns => lit " " ++ paren_list ident ns) columns
      ++ (if overriding then lit " OVERRIDING SYSTEM VALUE" else [])
      ++ (if default_values then lit " DEFAULT VALUES"
          else match select with
               | Some s => lit " " ++ select_sql s
               | None => lit " VALUES " ++ join SEP (paren_list expr <$> rows)
               end)
      ++ part on_conflict_sql conflict
  end.
(** [update_sql] *)
Definition update_sql (u : Update O) : str :=
  match u with
  | mk_update table assignments from filter _ =>
      lit "UPDATE " ++ ident table ++ lit " SET " ++ join SEP (assignment_sql expr <$> assignments)
      ++ part (fun f => lit " FROM " ++ from_clause_to_sql f) from ++ clause_sql (lit "WHERE") expr filter
  end.
(** [delete_sql] *)
Definition delete_sql (d : Delete O) : str :=
  match d with
  | mk_delete table using_ filter _ =>
      lit "DELETE FROM " ++ ident table
      ++ part (fun f => lit " USING " ++ from_clause_to_sql f) using_ ++ clause_sql (lit "WHERE") expr filter
  end.
(** [select_to_sql] *)
Definition is_recursive (c : Cte O) : bool := match c with mk_cte _ _ _ _ r => r end.
Definition select_body_sql (s : Select O) : str :=
  match s with
  | mk_select ctes distinct don proj from filter grp sets having ord limit offset locking set_ops =>
      (match ctes with
       | [] => []
       | _ => (if existsb is_recursive ctes then lit "WITH RECURSIVE " else lit "WITH ") ++ join SEP (cte_to_sql <$> ctes) ++ lit " "
       end)
      ++ lit "SELECT "
      ++ (if distinct then match don with [] => lit "DISTINCT " | _ => lit "DISTINCT ON " ++ paren_list expr don ++ lit " " end else [])
      ++ join SEP (select_item_to_sql expr <$> proj)
      ++ part (fun f => lit " FROM " ++ from_clause_to_sql f) from
      ++ clause_sql (lit "WHERE") expr filter
      ++ group_by_sql expr grp sets
      ++ clause_sql (lit "HAVING") expr having
      ++ concat (set_op_to_sql <$> set_ops)
      ++ (match ord with [] => [] | _ => lit " ORDER BY " ++ join SEP (order_item_sql expr <$> ord) end)
      ++ clause_sql (lit "LIMIT") expr limit
      ++ clause_sql (lit "OFFSET") expr offset
      ++ concat (row_locking_clause_to_sql <$> locking)
  end.
End parts.

(** [other_sql] prints the statements that hold no query. *)
Section statements.
Context {O : Type} (other_sql : O -> str).

Fixpoint select_to_sql (s : Select O) : str := select_body_sql select_to_sql statement_to_sql s
with statement_to_sql (s : Statement O) : str :=
  match s with
  | SInsert i => insert_sql select_to_sql i
  | SSelect s => select_to_sql s
  | SUpdate u => update_sql select_to_sql u
  | SDelete d => delete_sql select_to_sql d
  | SExplain analyze s => (if analyze then lit "EXPLAIN ANALYZE " else lit "EXPLAIN ") ++ statement_to_sql s
  | SOther o => other_sql o
  end.
End statements.
