(* ===== verification/Parser.v ===== *)
(** The recursive-descent parser of crates/sql/src/parser.rs: expressions by
    precedence climbing, queries, INSERT, UPDATE and DELETE.  The cursor into the
    token vector is the list of the tokens from it on. *)

From S2P Require Import Prelude Utf8 Numeric Types Float Index Wire FloatOps Datetime Json Containers LockStmt Hba Lexer Ast.

#[local] Open Scope Z_scope.

(** * Outcomes *)

(** The errors, with what their messages show of the tokens. *)
Inductive ParseError :=
| Expected (t : Token) (found : option Token)
| ExpectedKeyword (kw : str) (found : option Token)
| ExpectedIdent (found : option Token)
| ExpectedStatement (found : option Token)
| UnexpectedInExpr (found : option Token)
| ExpectedPredicate (found : option Token)
| UnsupportedOperator (found : option Token)
| UnexpectedAfter (found : option Token)
| LexError (m : str)
| Message (m : str).

(** [Stuck] is a recursion deeper than the fuel, [Aborted] a panic. *)
Inductive outcome (A : Type) := Parsed (a : A) (rest : list Token) | Rejected (e : ParseError) | Stuck | Aborted.
Arguments Parsed {A} a rest.
Arguments Rejected {A} e.
Arguments Stuck {A}.
Arguments Aborted {A}.

Definition parser (A : Type) : Type := list Token -> outcome A.
Definition pret {A} (a : A) : parser A := fun ts => Parsed a ts.
Definition pbind {A B} (p : parser A) (k : A -> parser B) : parser B := fun ts =>
  match p ts with Parsed a ts => k a ts | Rejected e => Rejected e | Stuck => Stuck | Aborted => Aborted end.
Declare Scope parser_scope.
Notation "'let*' x := p 'in' k" := (pbind p (fun x => k)) (at level 10, x name, p at level 200, k at level 200) : parser_scope.
#[local] Open Scope parser_scope.
Definition reject {A} (e : ParseError) : parser A := fun _ => Rejected e.
Definition stuck {A} : parser A := fun _ => Stuck.
Definition aborted {A} : parser A := fun _ => Aborted.

(** * Token cursor *)

Definition peek : parser (option Token) := fun ts => Parsed (head ts) ts.
Definition peek_at (n : nat) : parser (option Token) := fun ts => Parsed (ts !! n) ts.
Definition advance : parser (option Token) := fun ts => Parsed (head ts) (tail ts).
Definition next_is (t : Token) (ts : list Token) : bool := match ts with u :: _ => bool_decide (u = t) | [] => false end.
Definition eat (t : Token) : parser bool := fun ts => if next_is t ts then Parsed true (tail ts) else Parsed false ts.
Definition expect (t : Token) : parser () := fun ts => if next_is t ts then Parsed () (tail ts) else Rejected (Expected t (head ts)).
Definition at_token (t : Token) : parser bool := fun ts => Parsed (next_is t ts) ts.

(** [eq_ignore_ascii_case] with a keyword in lower case *)
Definition is_kw (kw : str) (t : option Token) : bool := match t with Some (Word w) => str_eqb (lower w) kw | _ => false end.
Definition is_keyword (kw : string) : parser bool := fun ts => Parsed (is_kw (lit kw) (head ts)) ts.
Definition is_keyword_at (n : nat) (kw : string) : parser bool := fun ts => Parsed (is_kw (lit kw) (ts !! n)) ts.
Definition eat_keyword (kw : string) : parser bool := fun ts => if is_kw (lit kw) (head ts) then Parsed true (tail ts) else Parsed false ts.
Definition expect_keyword (kw : string) : parser () := fun ts =>
  if is_kw (lit kw) (head ts) then Parsed () (tail ts) else Rejected (ExpectedKeyword (lit kw) (head ts)).

Definition parse_ident : parser str := fun ts =>
  match ts with
  | Word w :: ts | QuotedIdent w :: ts => Parsed w ts
  | _ => Rejected (ExpectedIdent (head ts))
  end.

(** [loop { items.push(p()?); if eat(Comma) { continue } break }] *)
Fixpoint comma_list {A} (fuel : nat) (p : parser A) : parser (list A) :=
  match fuel with
  | O => stuck
  | S fuel => let* x := p in let* more := eat Comma in if more then let* xs := comma_list fuel p in pret (x :: xs) else pret [x]
  end.
(** a list that may be empty before the closing token [t] *)
Definition list_until {A} (fuel : nat) (p : parser A) (t : Token) : parser (list A) :=
  let* closed := at_token t in
  let* l := (if closed then pret [] else comma_list fuel p) in
  let* _ := expect t in
  pret l.

(** [while self.eat(&Token::Dot)] of a dotted name, keeping the last two parts *)
Fixpoint dotted (fuel : nat) (schema : option str) (name : str) : parser (option str * str) :=
  match fuel with
  | O => stuck
  | S fuel => let* more := eat Dot in if more then let* next := parse_ident in dotted fuel (Some name) next else pret (schema, name)
  end.
Definition parse_qualified_name (fuel : nat) : parser (option str * str) := let* name := parse_ident in dotted fuel None name.
Definition parse_object_name (fuel : nat) : parser str := let* p := parse_qualified_name fuel in pret p.2.

(** * Types *)

(** [while !self.eat(t) { if self.advance().is_none() { return Err } }] *)
Fixpoint skip_past (t : Token) (msg : str) (ts : list Token) : outcome () :=
  match ts with
  | [] => Rejected (Message msg)
  | u :: ts => if bool_decide (u = t) then Parsed () ts else skip_past t msg ts
  end.
Definition lower_ident : parser str := let* w := parse_ident in pret (lower w).

Fixpoint array_dims (fuel : nat) (is_array : bool) : parser bool :=
  match fuel with
  | O => stuck
  | S fuel =>
      let* more := eat LBracket in
      if more then let* _ := skip_past RBracket (lit "unterminated array dimension") in array_dims fuel true else pret is_array
  end.

(** [parse_data_type_named] *)
Definition parse_data_type_named (fuel : nat) : parser (DataType * option str) :=
  let* name := lower_ident in
  let* qualified := eat Dot in
  let* name := (if qualified then lower_ident else pret name) in
  let* precision := is_keyword "precision" in let* varying := is_keyword "varying" in
  let* with_ := is_keyword "with" in let* without := is_keyword "without" in
  let* name := (if (str_eqb name (lit "double") && precision) || (str_eqb name (lit "character") && varying) then
            let* second := lower_ident in pret (name ++ lit " " ++ second)
          else if (str_eqb name (lit "timestamp") || str_eqb name (lit "time")) && (with_ || without) then
            let* wo := lower_ident in let* _ := eat_keyword "time" in let* _ := eat_keyword "zone" in pret (name ++ lit " " ++ wo ++ lit " time zone")
          else pret name) in
  let* modifier := eat LParen in
  let* _ := (if modifier then skip_past RParen (lit "unterminated type modifier") else pret tt) in
  let* is_array := eat_keyword "array" in
  let* is_array := array_dims fuel is_array in
  if is_array then
    let elem := match from_sql_name name with Some dt => pg_type_name dt | None => name end in
    pret (TText, Some (elem ++ lit "[]"))
  else match from_sql_name name with Some dt => pret (dt, None) | None => pret (TText, Some name) end.
Definition parse_data_type (fuel : nat) : parser DataType := let* p := parse_data_type_named fuel in pret p.1.

(** [parse_interval_qualifier] *)
Definition INTERVAL_FIELDS : list str := lit <$> ["year"; "month"; "day"; "hour"; "minute"; "second"]%string.
Definition parse_interval_qualifier : parser (option str) := fun ts =>
  match ts with
  | Word first :: ts' =>
      if existsb (str_eqb (lower first)) INTERVAL_FIELDS then
        (let* to := eat_keyword "to" in
         if to then
           let* second := advance in
           pret (Some (lower first ++ match second with Some (Word w) => lit " to " ++ lower w | _ => [] end))
         else pret (Some (lower first))) ts'
      else Parsed None ts
  | _ => Parsed None ts
  end.

(** * Operators *)

(** [binding_power] *)
Definition binding_power (op : BinaryOp) : Z * Z :=
  match op with
  | Or => (1, 2)
  | And => (3, 4)
  | Ast.Concat | JsonGet | JsonGetText => (8, 9)
  | Add | Sub => (10, 11)
  | Mul | Div | Mod => (12, 13)
  | _ => (5, 6)
  end.
(** the operators that both [peek_binary_op] and [parse_operator_construct] know *)
Definition symbol_op (t : Token) : option BinaryOp :=
  match t with
  | Arrow => Some JsonGet | ArrowText => Some JsonGetText
  | Lexer.ArrayContains => Some (ArrayOperator Containers.ArrayContains) | Lexer.TextSearchMatch => Some Ast.TextSearchMatch
  | Lexer.ArrayContainedBy => Some (ArrayOperator Containers.ArrayContainedBy) | Lexer.ArrayOverlap => Some (ArrayOperator Containers.ArrayOverlap)
  | Lexer.NetworkContainedBy => Some (NetworkOperator Containers.NetworkContainedBy)
  | Lexer.NetworkContainedByEq => Some (NetworkOperator Containers.NetworkContainedByEq)
  | Lexer.NetworkContains => Some (NetworkOperator Containers.NetworkContains)
  | Lexer.NetworkContainsEq => Some (NetworkOperator Containers.NetworkContainsEq)
  | TEq => Some OpEq | Lexer.NotEq => Some Ast.NotEq | TLt => Some OpLt | Lexer.LtEq => Some Ast.LtEq
  | TGt => Some OpGt | Lexer.GtEq => Some Ast.GtEq
  | Match => Some (RegexMatch false) | MatchCi => Some (RegexMatch true)
  | NotMatch => Some (RegexNotMatch false) | NotMatchCi => Some (RegexNotMatch true)
  | _ => None
  end.
(** [peek_binary_op] *)
Definition binary_op (t : option Token) : option BinaryOp :=
  match t with
  | Some Plus => Some Add | Some Minus => Some Sub | Some Star => Some Mul | Some Slash => Some Div
  | Some Percent => Some Mod | Some Lexer.Concat => Some Ast.Concat
  | Some (Word w) => if str_eqb (lower w) (lit "and") then Some And else if str_eqb (lower w) (lit "or") then Some Or else None
  | Some t => symbol_op t
  | None => None
  end.
(** [parse_operator_construct] *)
Definition parse_operator_construct : parser BinaryOp :=
  let* _ := expect_keyword "operator" in let* _ := expect LParen in
  (fun ts =>
    let ts := match ts with Word _ :: Dot :: ts => ts | _ => ts end in
    match head ts ≫= symbol_op with
    | Some op => (let* _ := expect RParen in pret op) (tail ts)
    | None => Rejected (UnsupportedOperator (head ts))
    end).
(** [eat_quantifier] *)
Definition eat_quantifier : parser (option Quantifier) :=
  let* any := eat_keyword "any" in if any then pret (Some Any) else
  let* some := eat_keyword "some" in if some then pret (Some SomeOf) else
  let* all := eat_keyword "all" in if all then pret (Some All) else pret None.
(** [peek_predicate_keyword] *)
Definition PREDICATES : list str := lit <$> ["like"; "ilike"; "in"; "between"]%string.
Definition at_predicate : parser bool := fun ts =>
  let offset := if is_kw (lit "not") (head ts) then 1%nat else 0%nat in
  Parsed (existsb (fun kw => is_kw kw (ts !! offset)) PREDICATES) ts.

Definition REG_TYPES : list str :=
  lit <$> ["regclass"; "regtype"; "regnamespace"; "regproc"; "regrole"; "regprocedure"; "regoper"; "regoperator"; "regconfig"; "regdictionary"]%string.
Definition NILADIC : list str :=
  lit <$> ["current_user"; "current_role"; "session_user"; "current_schema"; "current_catalog"; "current_date"; "current_timestamp"]%string.
Definition mem (w : str) (l : list str) : bool := existsb (str_eqb w) l.
Definition contains_char (c : Z) (s : str) : bool := existsb (Z.eqb c) s.

(** the number arm of [parse_atom_inner] *)
Definition float_number {Q} (n : str) : parser (Expr Q) :=
  match parse_f64 n with Some f => pret (EFloat f) | None => reject (Message (lit "invalid number `" ++ n ++ lit "`")) end.
Definition parse_number {Q} (n : str) : parser (Expr Q) :=
  if contains_char 46 n || contains_char 101 n || contains_char 69 n then float_number n
  else match parse_i64 n with Some i => pret (EInt i) | None => float_number n end.

Definition plain_call {Q} (name : str) (args : list (Expr Q)) : Expr Q := EFunction name args false false None None.

(** * Expressions *)

(** The bodies of the recursive functions over the functions they call:
    [expr_bp] is [parse_expr_bp], [select] is [parse_select]; [fuel] bounds loops. *)
Section expr.
Context {Q : Type} (expr_bp : Z -> parser (Expr Q)) (select : parser Q) (fuel : nat).
Abbreviation E := (Expr Q).

Definition parse_expr : parser E := expr_bp 0.
Definition parse_expr_list_until_rparen : parser (list E) := list_until fuel parse_expr RParen.

(** [parse_order_by_items] *)
Definition parse_order_by_item : parser (OrderByItem E) :=
  let* e := parse_expr in
  let* desc := eat_keyword "desc" in
  if desc then pret (mk_order e false) else let* _ := eat_keyword "asc" in pret (mk_order e true).
Definition parse_order_by_items : parser (list (OrderByItem E)) := comma_list fuel parse_order_by_item.

(** [parse_call_args] *)
Definition parse_call_args : parser (list E) :=
  let* closed := at_token RParen in
  let* args := (if closed then pret [] else comma_list fuel parse_expr) in
  let* ordered := is_keyword "order" in
  let* _ := (if ordered then
               let* _ := expect_keyword "order" in let* _ := expect_keyword "by" in let* _ := parse_order_by_items in pret tt
             else pret tt) in
  let* _ := expect RParen in
  pret args.

(** [parse_aggregate_filter] *)
Definition parse_aggregate_filter : parser (option E) :=
  let* filter := eat_keyword "filter" in
  if filter then
    let* _ := expect LParen in let* _ := expect_keyword "where" in
    let* e := parse_expr in let* _ := expect RParen in
    pret (Some e)
  else pret None.

(** [while self.peek() != Some(t) { if self.advance().is_none() { return Err } }] *)
Fixpoint skip_to (t : Token) (msg : str) (ts : list Token) : outcome () :=
  match ts with
  | [] => Rejected (Message msg)
  | u :: ts' => if bool_decide (u = t) then Parsed tt ts else skip_to t msg ts'
  end.
(** [parse_over_clause] *)
Definition parse_over_clause : parser (option (WindowSpec E)) :=
  let* over := eat_keyword "over" in
  if over then
    let* _ := expect LParen in
    let* partitioned := eat_keyword "partition" in
    let* partition := (if partitioned then let* _ := expect_keyword "by" in comma_list fuel parse_expr else pret []) in
    let* ordered := eat_keyword "order" in
    let* order := (if ordered then let* _ := expect_keyword "by" in parse_order_by_items else pret []) in
    let* _ := skip_to RParen (lit "unterminated OVER clause") in
    let* _ := expect RParen in
    pret (Some (mk_window partition order))
  else pret None.

(** [parse_function_args] *)
Definition parse_function_args (name : str) : parser E :=
  let* star := eat Star in
  if star then
    let* _ := expect RParen in
    let* filter := parse_aggregate_filter in
    let* over := parse_over_clause in
    pret (EFunction name [] true false filter over)
  else
    let* closed := at_token RParen in
    let* distinct := (if closed then pret false else eat_keyword "distinct") in
    let* args := (if closed then let* _ := expect RParen in pret [] else parse_call_args) in
    let* within := is_keyword "within" in
    let* args := (if within then
        let* _ := expect_keyword "within" in let* _ := expect_keyword "group" in let* _ := expect LParen in
        let* _ := expect_keyword "order" in let* _ := expect_keyword "by" in
        let* e := parse_expr in
        let* _ := eat_keyword "asc" in let* _ := eat_keyword "desc" in
        let* _ := expect RParen in
        pret (args ++ [e])
      else pret args) in
    let* filter := parse_aggregate_filter in
    let* over := parse_over_clause in
    pret (EFunction name args false distinct filter over).

(** [parse_case], after the keyword *)
Fixpoint parse_whens (n : nat) : parser (list (E * E)) :=
  match n with
  | O => stuck
  | S n =>
      let* when := eat_keyword "when" in
      if when then
        let* c := parse_expr in let* _ := expect_keyword "then" in let* r := parse_expr in
        let* ws := parse_whens n in
        pret ((c, r) :: ws)
      else pret []
  end.
Definition parse_case : parser E :=
  let* searched := is_keyword "when" in
  let* operand := (if searched then pret None else let* o := parse_expr in pret (Some o)) in
  let* whens := parse_whens fuel in
  match whens with
  | [] => reject (Message (lit "CASE requires at least one WHEN clause"))
  | _ =>
      let* has_else := eat_keyword "else" in
      let* else_expr := (if has_else then let* e := parse_expr in pret (Some e) else pret None) in
      let* _ := expect_keyword "end" in
      pret (ECase operand whens else_expr)
  end.

(** a parenthesized query *)
Definition parse_subquery : parser Q := let* _ := expect LParen in let* q := select in let* _ := expect RParen in pret q.

(** a grouped expression, a row or a scalar subquery, after the parenthesis *)
Definition parse_paren : parser E :=
  let* sub := is_keyword "select" in
  if sub then let* q := select in let* _ := expect RParen in pret (EScalarSubquery q)
  else
    let* first := parse_expr in
    let* row := eat Comma in
    if row then let* items := comma_list fuel parse_expr in let* _ := expect RParen in pret (ERow (first :: items))
    else let* _ := expect RParen in pret first.

(** the target of a typed literal such as [DATE '2020-01-01'] *)
Definition typed_literal (lw : str) : option DataType :=
  if str_eqb lw (lit "date") then Some TDate
  else if str_eqb lw (lit "time") then Some TTime
  else if str_eqb lw (lit "timestamptz") then Some TTimestampTz
  else if str_eqb lw (lit "timestamp") then Some TTimestamp
  else None.

(** a column, a qualified column or a call: the last arm of [parse_atom_inner] *)
Definition parse_name (w : str) : parser E :=
  let* call := eat LParen in
  if call then parse_function_args w
  else
    let* dot := eat Dot in
    if dot then
      let* col := parse_ident in
      let* dot := eat Dot in
      if dot then
        let* col2 := parse_ident in
        let* call := eat LParen in
        if call then parse_function_args col2 else pret (EQualified col col2)
      else
        let* call := eat LParen in
        if call then parse_function_args col else pret (EQualified w col)
    else pret (EColumn w).

(** the arms of the [Word] case after the literals *)
Definition parse_keyword (w : str) : parser E := fun ts =>
  let lw := lower w in
  let kwd k := str_eqb lw (lit k) in
  if kwd "array"%string && next_is LBracket ts then
    (let* _ := advance in let* es := list_until fuel parse_expr RBracket in pret (EArray es)) ts
  else if kwd "array"%string && next_is LParen ts then (let* q := parse_subquery in pret (EScalarSubquery q)) ts
  else if kwd "extract"%string then
    (let* _ := expect LParen in let* field := lower_ident in let* _ := expect_keyword "from" in
     let* source := parse_expr in let* _ := expect RParen in
     pret (plain_call (lit "date_part") [EStr field; source])) ts
  else if kwd "exists"%string then (let* q := parse_subquery in pret (EExists q)) ts
  else if kwd "case"%string then parse_case ts
  else if kwd "cast"%string then
    (let* _ := expect LParen in let* e := parse_expr in let* _ := expect_keyword "as" in
     let* t := parse_data_type fuel in let* _ := expect RParen in
     pret (ECast e t)) ts
  else if mem lw NILADIC && negb (next_is LParen ts) then pret (plain_call lw []) ts
  else parse_name w ts.

(** the [Word] arm of [parse_atom_inner] *)
Definition parse_word (w : str) : parser E := fun ts =>
  let lw := lower w in
  let kwd k := str_eqb lw (lit k) in
  if kwd "true"%string then pret (EBool true) ts
  else if kwd "false"%string then pret (EBool false) ts
  else if kwd "null"%string then pret ENull ts
  else if kwd "row"%string && next_is LParen ts then (let* _ := advance in let* es := parse_call_args in pret (ERow es)) ts
  else match ts with
  | StringLit s :: ts' =>
      if kwd "interval"%string then
        (let* q := parse_interval_qualifier in
         pret (ECast (EStr (match q with Some q => s ++ [1] ++ q | None => s end)) TInterval)) ts'
      else match typed_literal lw with
           | Some t => pret (ECast (EStr s) t) ts'
           | None => parse_keyword w ts
           end
  | _ => parse_keyword w ts
  end.

(** [parse_atom_inner] *)
Definition parse_atom_inner : parser E := fun ts =>
  match ts with
  | Number n :: ts => parse_number n ts
  | StringLit s :: ts => pret (EStr s) ts
  | Param n :: ts => pret (EParam n) ts
  | QuotedIdent name :: ts => pret (EColumn name) ts
  | LParen :: ts => parse_paren ts
  | Word w :: ts => parse_word w ts
  | _ => Rejected (UnexpectedInExpr (head ts))
  end.

(** the cast, subscript and COLLATE suffixes of [parse_atom] *)
Definition cast_to (e : E) (t : DataType * option str) : E :=
  match t.2 with
  | Some name => if mem name REG_TYPES then plain_call (lit "__cast_" ++ name) [e] else ECast e t.1
  | None => ECast e t.1
  end.
Fixpoint parse_suffixes (n : nat) (e : E) : parser E :=
  match n with
  | O => stuck
  | S n =>
      let* cast := eat DoubleColon in
      if cast then let* t := parse_data_type_named fuel in parse_suffixes n (cast_to e t)
      else
        let* sub := eat LBracket in
        if sub then
          let* i := parse_expr in let* _ := expect RBracket in
          parse_suffixes n (plain_call (lit "__subscript") [e; i])
        else
          let* collate := eat_keyword "collate" in
          if collate then let* _ := parse_qualified_name fuel in parse_suffixes n e else pret e
  end.
Definition parse_atom : parser E := let* e := parse_atom_inner in parse_suffixes fuel e.

(** [parse_prefix] *)
Definition parse_prefix : parser E :=
  let* negation := eat_keyword "not" in
  if negation then let* e := expr_bp 3 in pret (EUnary Not e)
  else
    let* minus := eat Minus in
    if minus then let* e := expr_bp 9 in pret (EUnary Neg e)
    else let* plus := eat Plus in if plus then expr_bp 9 else parse_atom.

(** [parse_predicate] *)
Definition parse_predicate (lhs : E) : parser E :=
  let* negated := eat_keyword "not" in
  let* like := eat_keyword "like" in
  let* ilike := (if like then pret false else eat_keyword "ilike") in
  if like || ilike then let* p := expr_bp 7 in pret (ELike lhs p negated ilike)
  else
    let* between := eat_keyword "between" in
    if between then
      let* lo := expr_bp 7 in let* _ := expect_keyword "and" in let* hi := expr_bp 7 in
      pret (EBetween lhs lo hi negated)
    else
      let* in_ := eat_keyword "in" in
      if in_ then
        let* _ := expect LParen in
        let* sub := is_keyword "select" in
        if sub then let* q := select in let* _ := expect RParen in pret (EInSubquery lhs q negated)
        else let* es := parse_expr_list_until_rparen in pret (EInList lhs es negated)
      else let* t := peek in reject (ExpectedPredicate t).

(** the loop of [parse_expr_bp] *)
Fixpoint parse_infix (n : nat) (min_bp : Z) (lhs : E) : parser E :=
  match n with
  | O => stuck
  | S n =>
      let* is_ := is_keyword "is" in
      if is_ then
        if 7 <? min_bp then pret lhs
        else
          let* _ := advance in
          let* negated := eat_keyword "not" in
          let* null := eat_keyword "null" in
          if null then parse_infix n min_bp (EIsNull lhs negated)
          else
            let* _ := expect_keyword "distinct" in let* _ := expect_keyword "from" in
            let* rhs := expr_bp 8 in
            parse_infix n min_bp (EIsDistinct lhs rhs negated)
      else
        let* predicate := at_predicate in
        if predicate then
          if 5 <? min_bp then pret lhs else let* lhs := parse_predicate lhs in parse_infix n min_bp lhs
        else
          let* operator := is_keyword "operator" in
          if operator then
            if 5 <? min_bp then pret lhs
            else
              let* op := parse_operator_construct in
              let* rhs := expr_bp 6 in
              parse_infix n min_bp (EBinary op lhs rhs)
          else
            let* t := peek in
            match binary_op t with
            | None => pret lhs
            | Some op =>
                if (binding_power op).1 <? min_bp then pret lhs
                else
                  let* _ := advance in
                  let* quantifier := eat_quantifier in
                  match quantifier with
                  | Some k =>
                      let* _ := expect LParen in
                      let* es := parse_expr_list_until_rparen in
                      parse_infix n min_bp (EQuantified lhs op k es)
                  | None =>
                      let* rhs := expr_bp (binding_power op).2 in
                      parse_infix n min_bp (EBinary op lhs rhs)
                  end
            end
  end.
Definition expr_bp_body (min_bp : Z) : parser E := let* lhs := parse_prefix in parse_infix fuel min_bp lhs.
End expr.

(** * Queries *)

Definition SELECT_CLAUSES : list str :=
  lit <$> ["from"; "where"; "order"; "limit"; "offset"; "group"; "having"; "as"; "and"; "or"; "union"; "intersect"; "except"; "for"; "fetch"]%string.
Definition is_select_clause_keyword (w : str) : bool := mem (lower w) SELECT_CLAUSES.
Definition TABLE_CLAUSES : list str :=
  lit <$> ["where"; "order"; "limit"; "offset"; "group"; "having"; "join"; "inner"; "left"; "right"; "full"; "cross"; "outer"; "on";
           "union"; "intersect"; "except"; "for"; "as"]%string.
Definition is_table_ref_keyword (w : str) : bool := mem (lower w) TABLE_CLAUSES.

(** [parse_optional_table_alias], and the alias of a select item *)
Definition parse_optional_alias (is_clause : str -> bool) : parser (option str) :=
  let* as_ := eat_keyword "as" in
  if as_ then let* a := parse_ident in pret (Some a)
  else fun ts => match ts with Word w :: ts' => if is_clause w then Parsed None ts else Parsed (Some w) ts' | _ => Parsed None ts end.

(** [rollup_sets]; and [cube_sets] in the release profile, where a shift takes its
    amount modulo the width.  [Vec::with_capacity(1 << n)] panics when [2 ^ (n mod 64)]
    vectors of 24 bytes exceed [isize::MAX]; smaller allocations succeed.  The masks
    are counted in a [u32]: from 32 columns on the subsets are not all there. *)
Definition rollup_sets {E} (cols : list E) : list (list E) := (fun n => take n cols) <$> reverse (seq 0 (S (length cols))).
Definition masked {E} (mask : Z) (cols : list E) : list E :=
  snd <$> filter (fun p => Z.testbit mask (fst p mod 32) = true) (zip (seqZ 0 (zlen cols)) cols).
Definition cube_sets {E} (cols : list E) : option (list (list E)) :=
  let n := zlen cols in
  if 2 ^ 63 - 1 <? 24 * 2 ^ (n mod 64) then None
  else Some ((fun mask => masked mask cols) <$> reverse (seqZ 0 (2 ^ (n mod 32)))).
(** the cross product of the grouping sets of the elements *)
Definition cross_sets {E} (elements : list (list (list E))) : list (list E) :=
  foldl (fun acc el => p ← acc; s ← el; [p ++ s]) [[]] elements.

(** [parse_row_locking_clause] *)
Definition parse_row_locking_clause (fuel : nat) : parser RowLockingClause :=
  let* _ := expect_keyword "for" in
  let* no := eat_keyword "no" in
  let* mode :=
    (if no then let* _ := expect_keyword "key" in let* _ := expect_keyword "update" in pret NoKeyUpdate
     else
       let* key := eat_keyword "key" in
       if key then let* _ := expect_keyword "share" in pret KeyShare
       else
         let* share := eat_keyword "share" in
         if share then pret ForShare else let* _ := expect_keyword "update" in pret LockStmt.Update) in
  let* of_ := eat_keyword "of" in
  let* tables := (if of_ then comma_list fuel (parse_object_name fuel) else pret []) in
  let* nowait := eat_keyword "nowait" in
  let* policy :=
    (if nowait then pret (Some NoWait)
     else let* skip := eat_keyword "skip" in if skip then let* _ := expect_keyword "locked" in pret (Some SkipLocked) else pret None) in
  pret (mk_clause mode tables policy).
(** [while self.is_keyword("for")] *)
Fixpoint parse_locking (fuel n : nat) : parser (list RowLockingClause) :=
  match n with
  | O => stuck
  | S n =>
      let* for_ := is_keyword "for" in
      if for_ then let* c := parse_row_locking_clause fuel in let* cs := parse_locking fuel n in pret (c :: cs) else pret []
  end.

(** [eat_set_operator] *)
Definition eat_set_operator : parser (option SetOperator) :=
  let* u := eat_keyword "union" in if u then pret (Some Union) else
  let* i := eat_keyword "intersect" in if i then pret (Some Intersect) else
  let* e := eat_keyword "except" in if e then pret (Some Except) else pret None.

(** an optional keyword and what follows it *)
Definition clause {A} (kw : string) (p : parser A) : parser (option A) :=
  let* present := eat_keyword kw in
  if present then let* x := p in pret (Some x) else pret None.

Section query.
Context {X : Type}.
Abbreviation E := (Expr (Select X)).
Context (expr_bp : Z -> parser E) (select : parser (Select X)) (statement : parser (Statement X)) (fuel : nat).
Abbreviation expr := (parse_expr expr_bp).

(** [parse_values_tuples] *)
Definition parse_values_tuples : parser (list (list E)) := comma_list fuel (let* _ := expect LParen in list_until fuel expr RParen).

(** [parse_select_list] *)
Definition parse_select_item : parser (SelectItem E) :=
  let* star := eat Star in
  if star then pret Wildcard
  else let* e := expr in let* a := parse_optional_alias is_select_clause_keyword in pret (SelectExpr e a).
Definition parse_select_list : parser (list (SelectItem E)) := comma_list fuel parse_select_item.
(** [parse_returning] *)
Definition parse_returning : parser (list (SelectItem E)) :=
  let* r := eat_keyword "returning" in if r then parse_select_list else pret [].

(** [parse_with_clause] *)
Definition parse_columns : parser (list str) :=
  let* open := eat LParen in
  if open then let* l := comma_list fuel parse_ident in let* _ := expect RParen in pret l else pret [].
Definition parse_cte (recursive : bool) : parser (Cte X) :=
  let* name := parse_ident in
  let* columns := parse_columns in
  let* _ := expect_keyword "as" in
  let* _ := expect LParen in
  let* i := is_keyword "insert" in let* u := is_keyword "update" in let* d := is_keyword "delete" in
  let* body := (if i || u || d then let* s := statement in pret (select_default, Some s) else let* s := select in pret (s, None)) in
  let* _ := expect RParen in
  pret (mk_cte name columns body.1 body.2 recursive).
Definition parse_with_clause : parser (list (Cte X)) :=
  let* _ := expect_keyword "with" in
  let* recursive := eat_keyword "recursive" in
  comma_list fuel (parse_cte recursive).

(** [parse_table_ref] *)
Definition parse_derived (lateral : bool) : parser (TableRef X) :=
  let* _ := expect LParen in
  let* sub := select in
  let* _ := expect RParen in
  let* alias := parse_optional_alias is_table_ref_keyword in
  let* columns := parse_columns in
  pret (mk_tref None (default [] alias) [] alias (Some sub) lateral false columns false).
Definition parse_named (lateral : bool) : parser (TableRef X) :=
  let* only := eat_keyword "only" in
  let* qname := parse_qualified_name fuel in
  let* call := eat LParen in
  let* args := (if call then parse_call_args expr_bp fuel else pret []) in
  let* with_ := is_keyword "with" in
  let* ordinality := is_keyword_at 1 "ordinality" in
  let* _ := (if with_ && ordinality then let* _ := advance in let* _ := advance in pret tt else pret tt) in
  let* alias := parse_optional_alias is_table_ref_keyword in
  let* columns := parse_columns in
  pret (mk_tref qname.1 qname.2 args alias None lateral only columns (with_ && ordinality)).
Definition parse_table_ref : parser (TableRef X) :=
  let* lateral := eat_keyword "lateral" in
  let* open := at_token LParen in
  let* sel := is_keyword_at 1 "select" in let* with_ := is_keyword_at 1 "with" in
  if open && (sel || with_) then parse_derived lateral else parse_named lateral.

(** [parse_from_clause] *)
Definition parse_join_kind : parser (option JoinKind) :=
  let outer k := let* _ := eat_keyword "outer" in let* _ := expect_keyword "join" in pret (Some k) in
  let* b := eat_keyword "inner" in if b then let* _ := expect_keyword "join" in pret (Some Inner) else
  let* b := eat_keyword "left" in if b then outer LeftJoin else
  let* b := eat_keyword "right" in if b then outer RightJoin else
  let* b := eat_keyword "full" in if b then outer FullJoin else
  let* b := eat_keyword "cross" in if b then let* _ := expect_keyword "join" in pret (Some Cross) else
  let* b := eat_keyword "join" in if b then pret (Some Inner) else pret None.
Fixpoint parse_joins (n : nat) : parser (list (Join X)) :=
  match n with
  | O => stuck
  | S n =>
      let* comma := eat Comma in
      if comma then let* t := parse_table_ref in let* js := parse_joins n in pret (mk_join Cross t None :: js)
      else
        let* kind := parse_join_kind in
        match kind with
        | None => pret []
        | Some k =>
            let* t := parse_table_ref in
            let* on := match k with Cross => pret None | _ => let* _ := expect_keyword "on" in let* e := expr in pret (Some e) end in
            let* js := parse_joins n in
            pret (mk_join k t on :: js)
        end
  end.
Definition parse_from_clause : parser (FromClause X) := let* base := parse_table_ref in let* joins := parse_joins fuel in pret (mk_from base joins).

(** the GROUP BY clause of [parse_select_core] *)
Definition parse_grouping_set : parser (list E) :=
  let* open := eat LParen in
  if open then parse_expr_list_until_rparen expr_bp fuel else let* e := expr in pret [e].
Definition parse_group_element : parser (bool * list (list E)) :=
  let* rollup := is_keyword "rollup" in let* cube := eat_keyword "cube" in
  if rollup || cube then
    let* _ := (if cube then pret tt else expect_keyword "rollup") in
    let* _ := expect LParen in
    let* cols := parse_expr_list_until_rparen expr_bp fuel in
    match (if cube then cube_sets cols else Some (rollup_sets cols)) with Some sets => pret (true, sets) | None => aborted end
  else
    let* grouping := eat_keyword "grouping" in
    if grouping then
      let* _ := expect_keyword "sets" in let* _ := expect LParen in
      let* sets := comma_list fuel parse_grouping_set in
      let* _ := expect RParen in
      pret (true, sets)
    else let* e := expr in pret (false, [[e]]).
Definition parse_group_by : parser (list E * list (list E)) :=
  let* group := eat_keyword "group" in
  if group then
    let* _ := expect_keyword "by" in
    let* elements := comma_list fuel parse_group_element in
    if existsb fst elements then pret ([], cross_sets (snd <$> elements))
    else pret (concat (concat (snd <$> elements)), [])
  else pret ([], []).

(** the VALUES arm of [parse_select_core] *)
Definition values_row (tuple : list E) : Select X :=
  mk_select [] false [] ((fun e => SelectExpr e None) <$> tuple) None None [] [] None [] None None [] [].
Definition values_select (tuples : list (list E)) : Select X :=
  let first := default [] (head tuples) in
  mk_select [] false [] (zip_with (fun i e => SelectExpr e (Some (lit "column" ++ i64_display (i + 1)))) (seqZ 0 (zlen first)) first)
    None None [] [] None [] None None [] ((fun t => mk_set_op Union true (values_row t)) <$> tail tuples).

(** [parse_select_core] *)
Definition parse_select_core : parser (Select X) :=
  let* values := eat_keyword "values" in
  if values then let* tuples := parse_values_tuples in pret (values_select tuples)
  else
    let* _ := expect_keyword "select" in
    let* _ := eat_keyword "all" in
    let* distinct := eat_keyword "distinct" in
    let* on := (if distinct then eat_keyword "on" else pret false) in
    let* distinct_on := (if on then let* _ := expect LParen in let* l := comma_list fuel expr in let* _ := expect RParen in pret l else pret []) in
    let* projection := parse_select_list in
    let* from := clause "from" parse_from_clause in
    let* filter := clause "where" expr in
    let* groups := parse_group_by in
    let* having := clause "having" expr in
    pret (mk_select [] distinct distinct_on projection from filter groups.1 groups.2 having [] None None [] []).

(** the LIMIT and OFFSET loop of [parse_select_tail] *)
Fixpoint parse_limits (n : nat) (limit offset : option E) : parser (option E * option E) :=
  match n with
  | O => stuck
  | S n =>
      let* l := (match limit with None => eat_keyword "limit" | Some _ => pret false end) in
      if l then let* e := expr in parse_limits n (Some e) offset
      else
        let* o := (match offset with None => eat_keyword "offset" | Some _ => pret false end) in
        if o then
          let* e := expr in let* _ := eat_keyword "row" in let* _ := eat_keyword "rows" in
          parse_limits n limit (Some e)
        else pret (limit, offset)
  end.
(** [parse_select_tail] *)
Definition parse_order_clause : parser (list (OrderByItem E)) :=
  let* order := eat_keyword "order" in
  if order then let* _ := expect_keyword "by" in parse_order_by_items expr_bp fuel else pret [].
Fixpoint parse_set_ops (n : nat) : parser (list (SetOperation X)) :=
  match n with
  | O => stuck
  | S n =>
      let* op := eat_set_operator in
      match op with
      | None => pret []
      | Some op =>
          let* all := eat_keyword "all" in
          let* rhs := parse_select_core in
          let* ops := parse_set_ops n in
          pret (mk_set_op op all rhs :: ops)
      end
  end.

(** [parse_select] *)
Definition select_body : parser (Select X) :=
  let* with_ := is_keyword "with" in
  let* ctes := (if with_ then parse_with_clause else pret []) in
  let* core := parse_select_core in
  let* ops := parse_set_ops fuel in
  let* order := parse_order_clause in
  let* locking1 := parse_locking fuel fuel in
  let* limits := parse_limits fuel None None in
  let* locking2 := parse_locking fuel fuel in
  match core with
  | mk_select _ distinct don proj from filter grp sets having _ _ _ locking set_ops =>
      pret (mk_select ctes distinct don proj from filter grp sets having order limits.1 limits.2 (locking ++ locking1 ++ locking2) (set_ops ++ ops))
  end.

(** * Statements *)

Definition parse_assignment : parser (str * E) := let* n := parse_ident in let* _ := expect TEq in let* e := expr in pret (n, e).

(** [parse_on_conflict] *)
Definition parse_on_conflict : parser (option (OnConflict X)) :=
  let* on := eat_keyword "on" in
  if on then
    let* _ := expect_keyword "conflict" in
    let* target := parse_columns in
    let* _ := expect_keyword "do" in
    let* nothing := eat_keyword "nothing" in
    if nothing then pret (Some (DoNothing target))
    else
      let* update := eat_keyword "update" in
      if update then
        let* _ := expect_keyword "set" in
        let* assignments := comma_list fuel parse_assignment in
        let* filter := clause "where" expr in
        pret (Some (DoUpdate target assignments filter))
      else reject (Message (lit "expected NOTHING or UPDATE after ON CONFLICT DO"))
  else pret None.

(** [parse_insert] *)
Definition parse_insert : parser (Insert X) :=
  let* _ := expect_keyword "insert" in let* _ := expect_keyword "into" in
  let* table := parse_object_name fuel in
  let* open := eat LParen in
  let* columns := (if open then let* l := comma_list fuel parse_ident in let* _ := expect RParen in pret (Some l) else pret None) in
  let* overriding := eat_keyword "overriding" in
  let* _ := (if overriding then let* _ := expect_keyword "system" in expect_keyword "value" else pret tt) in
  let* default_values := eat_keyword "default" in
  let* source :=
    (if default_values then let* _ := expect_keyword "values" in pret ([], None)
     else
       let* sel := is_keyword "select" in
       if sel then let* s := select in pret ([], Some s)
       else let* _ := expect_keyword "values" in let* rows := parse_values_tuples in pret (rows, None)) in
  let* on_conflict := parse_on_conflict in
  let* returning := parse_returning in
  pret (mk_insert table columns default_values overriding source.1 source.2 on_conflict returning).

(** [parse_update] *)
Definition parse_update : parser (Update X) :=
  let* _ := expect_keyword "update" in
  let* table := parse_object_name fuel in
  let* _ := expect_keyword "set" in
  let* assignments := comma_list fuel parse_assignment in
  let* from := clause "from" parse_from_clause in
  let* filter := clause "where" expr in
  let* returning := parse_returning in
  pret (mk_update table assignments from filter returning).

(** [parse_delete] *)
Definition parse_delete : parser (Delete X) :=
  let* _ := expect_keyword "delete" in let* _ := expect_keyword "from" in
  let* table := parse_object_name fuel in
  let* using_ := clause "using" parse_from_clause in
  let* filter := clause "where" expr in
  let* returning := parse_returning in
  pret (mk_delete table using_ filter returning).

(** [parse_statement]; [other] parses the statements that hold no query. *)
Definition statement_body (other : parser X) : parser (Statement X) := fun ts =>
  match ts with
  | Word w :: _ =>
      let kwd k := str_eqb (lower w) (lit k) in
      if kwd "insert"%string then (let* i := parse_insert in pret (SInsert i)) ts
      else if kwd "select"%string || kwd "with"%string then (let* s := select in pret (SSelect s)) ts
      else if kwd "update"%string then (let* u := parse_update in pret (SUpdate u)) ts
      else if kwd "delete"%string then (let* d := parse_delete in pret (SDelete d)) ts
      else if kwd "explain"%string then
        (let* _ := advance in let* analyze := eat_keyword "analyze" in let* s := statement in pret (SExplain analyze s)) ts
      else (let* o := other in pret (SOther o)) ts
  | _ => Rejected (ExpectedStatement (head ts))
  end.
End query.

(** * The recursive functions *)

Section knot.
Context {X : Type} (other : parser X).

Fixpoint parse_expr_bp (fuel : nat) (min_bp : Z) (ts : list Token) : outcome (Expr (Select X)) :=
  match fuel with
  | O => Stuck
  | S f => expr_bp_body (fun bp ts => parse_expr_bp f bp ts) (fun ts => parse_select f ts) fuel min_bp ts
  end
with parse_select (fuel : nat) (ts : list Token) : outcome (Select X) :=
  match fuel with
  | O => Stuck
  | S f => select_body (fun bp ts => parse_expr_bp f bp ts) (fun ts => parse_select f ts) (fun ts => parse_statement f ts) fuel ts
  end
with parse_statement (fuel : nat) (ts : list Token) : outcome (Statement X) :=
  match fuel with
  | O => Stuck
  | S f => statement_body (fun bp ts => parse_expr_bp f bp ts) (fun ts => parse_select f ts) (fun ts => parse_statement f ts) fuel other ts
  end.

(** [parse_sql] on the tokens *)
Fixpoint skip_semicolons (ts : list Token) : list Token := match ts with Semicolon :: ts => skip_semicolons ts | _ => ts end.
Fixpoint parse_statements (n : nat) (ts : list Token) : outcome (list (Statement X)) :=
  match n with
  | O => Stuck
  | S n =>
      match skip_semicolons ts with
      | [] => Parsed [] []
      | ts =>
          match parse_statement (S (S (length ts))) ts with
          | Parsed s (Semicolon :: ts) => (let* l := parse_statements n in pret (s :: l)) ts
          | Parsed s [] => Parsed [s] []
          | Parsed _ (t :: _) => Rejected (UnexpectedAfter (Some t))
          | Rejected e => Rejected e
          | Stuck => Stuck
          | Aborted => Aborted
          end
      end
  end.
(** [Parser::parse_sql]; [empty] is [Statement::Empty]. *)
Definition parse_sql (empty : X) (sql : str) : outcome (list (Statement X)) :=
  match tokenize sql with
  | None => Stuck
  | Some (Err m) => Rejected (LexError m)
  | Some (Ok ts) => match parse_statements (S (length ts)) ts with Parsed [] r => Parsed [SOther empty] r | o => o end
  end.
End knot.
