(* ===== verification/Printed.v ===== *)
(** What the serializer writes, as tokens: every printed expression, query and
    statement is a sequence of canonical tokens and single blanks that the lexer
    reads back, for the printable part of the syntax tree. *)

From S2P Require Import Prelude Utf8 Numeric Types Float Index Wire Hba FloatOps Datetime Json Containers LockStmt Lexer Ast Serialize Parser.

#[local] Open Scope Z_scope.
#[local] Set Warnings "-register-all".

(** * Pieces *)

Inductive piece := T (t : Token) | Sp.
Definition piece_text (p : piece) : str := match p with T t => token_text t | Sp => [32] end.
Definition text (ps : list piece) : str := concat (piece_text <$> ps).
Definition piece_tok (p : piece) : option Token := match p with T t => Some t | Sp => None end.
Definition toks (ps : list piece) : list Token := omap piece_tok ps.

Definition W (w : string) : piece := T (Word (lit w)).
(** words separated by blanks *)
Fixpoint words (l : list string) : list piece :=
  match l with [] => [] | [w] => [W w] | w :: l => W w :: Sp :: words l end.
Fixpoint commas (l : list (list piece)) : list piece :=
  match l with [] => [] | [x] => x | x :: l => x ++ [T Comma; Sp] ++ commas l end.
Definition parens (ps : list piece) : list piece := [T LParen] ++ ps ++ [T RParen].
Definition maybe {A} (f : A -> list piece) (o : option A) : list piece := match o with Some x => f x | None => [] end.

(** * Tokens of the parts *)

Definition id_tok (name : str) : Token := if simple_ident name then Word name else QuotedIdent name.
Definition op_tok (op : BinaryOp) : Token :=
  match op with
  | Add => Plus | Sub => Minus | Mul => Star | Div => Slash | Mod => Percent
  | Ast.Concat => Lexer.Concat | JsonGet => Arrow | JsonGetText => ArrowText
  | ArrayOperator Containers.ArrayContains => Lexer.ArrayContains | Ast.TextSearchMatch => Lexer.TextSearchMatch
  | ArrayOperator Containers.ArrayContainedBy => Lexer.ArrayContainedBy | ArrayOperator Containers.ArrayOverlap => Lexer.ArrayOverlap
  | NetworkOperator Containers.NetworkContainedBy => Lexer.NetworkContainedBy
  | NetworkOperator Containers.NetworkContainedByEq => Lexer.NetworkContainedByEq
  | NetworkOperator Containers.NetworkContains => Lexer.NetworkContains
  | NetworkOperator Containers.NetworkContainsEq => Lexer.NetworkContainsEq
  | OpEq => TEq | Ast.NotEq => Lexer.NotEq | OpLt => TLt | Ast.LtEq => Lexer.LtEq | OpGt => TGt | Ast.GtEq => Lexer.GtEq
  | And => Word (lit "AND") | Or => Word (lit "OR")
  | RegexMatch false => Match | RegexMatch true => MatchCi | RegexNotMatch false => NotMatch | RegexNotMatch true => NotMatchCi
  end.
Definition quantifier_word (q : Quantifier) : string := match q with Any => "ANY" | SomeOf => "SOME" | All => "ALL" end.
Definition type_words (t : DataType) : list piece :=
  match t with
  | TFloat8 => words ["double"; "precision"]
  | TTime => words ["time"; "without"; "time"; "zone"]
  | TTimeTz => words ["time"; "with"; "time"; "zone"]
  | TTimestamp => words ["timestamp"; "without"; "time"; "zone"]
  | TTimestampTz => words ["timestamp"; "with"; "time"; "zone"]
  | t => [T (Word (sql_name t))]
  end%string.
Definition not_words (negated : bool) (l : list string) : list piece := words ((if negated then ["NOT"%string] else []) ++ l).

(** * Pieces of expressions *)

Section items.
Context {E : Type} (pc : E -> list piece).

Definition order_item_pc (o : OrderByItem E) : list piece := match o with mk_order e asc => pc e ++ (if asc then [] else [Sp; W "DESC"]) end.
Definition window_pc (spec : WindowSpec E) : list piece :=
  match spec with
  | mk_window partition order =>
      (match partition with [] => [] | _ => words ["PARTITION"; "BY"] ++ [Sp] ++ commas (pc <$> partition) end)
      ++ (match partition, order with _ :: _, _ :: _ => [Sp] | _, _ => [] end)
      ++ (match order with [] => [] | _ => words ["ORDER"; "BY"] ++ [Sp] ++ commas (order_item_pc <$> order) end)
  end.
Definition paren_pc (es : list E) : list piece := parens (commas (pc <$> es)).
Definition when_pc (w : E * E) : list piece := match w with (c, r) => [Sp; W "WHEN"; Sp] ++ pc c ++ [Sp; W "THEN"; Sp] ++ pc r end.
Definition call_pc (name : str) (args : list E) (star distinct : bool) (filter : option E) (over : option (WindowSpec E)) : list piece :=
  [T (Word name); T LParen] ++ (if star then [T Star] else (if distinct then [W "DISTINCT"; Sp] else []) ++ commas (pc <$> args)) ++ [T RParen]
  ++ maybe (fun f => [Sp; W "FILTER"; Sp; T LParen; W "WHERE"; Sp] ++ pc f ++ [T RParen]) filter
  ++ maybe (fun spec => [Sp; W "OVER"; Sp] ++ parens (window_pc spec)) over.
Definition item_pc (i : SelectItem E) : list piece :=
  match i with
  | Wildcard => [T Star]
  | SelectExpr e (Some a) => pc e ++ [Sp; W "AS"; Sp; T (id_tok a)]
  | SelectExpr e None => pc e
  end.
Definition group_pc (group_by : list E) (sets : list (list E)) : list piece :=
  match group_by, sets with
  | _ :: _, _ => [Sp; W "GROUP"; Sp; W "BY"; Sp] ++ commas (pc <$> group_by)
  | [], _ :: _ => [Sp; W "GROUP"; Sp; W "BY"; Sp; W "GROUPING"; Sp; W "SETS"; Sp] ++ parens (commas (paren_pc <$> sets))
  | [], [] => []
  end.
Definition assignment_pc (a : str * E) : list piece := match a with (n, e) => [T (id_tok n); Sp; T TEq; Sp] ++ pc e end.
Definition clause_pc (kw : string) (o : option E) : list piece := maybe (fun e => [Sp; W kw; Sp] ++ pc e) o.
End items.

Section expr.
Context {Q : Type} (qpc : Q -> list piece).

Fixpoint expr_pc (e : Expr Q) : list piece :=
  match e with
  | EInt i => [T (Number (i64_display i))]
  | EFloat f => [T (Number (default (lit "0") (to_text (Float f))))]
  | EStr s => [T (StringLit s)]
  | EBool b => [W (if b then "TRUE" else "FALSE")]
  | ENull => [W "NULL"]
  | EParam n => [T (Param n)]
  | EColumn name => [T (id_tok name)]
  | EQualified q name => [T (id_tok q); T Dot; T (id_tok name)]
  | EUnary Neg e => parens (T Minus :: expr_pc e)
  | EUnary Not e => parens ([W "NOT"; Sp] ++ expr_pc e)
  | EBinary op l r => parens (expr_pc l ++ [Sp; T (op_tok op); Sp] ++ expr_pc r)
  | EQuantified l op k es => parens (expr_pc l ++ [Sp; T (op_tok op); Sp; W (quantifier_word k); Sp] ++ paren_pc expr_pc es)
  | ERow es => [W "ROW"] ++ paren_pc expr_pc es
  | EArray es => [W "ARRAY"; T LBracket] ++ commas (expr_pc <$> es) ++ [T RBracket]
  | EIsNull e n => parens (expr_pc e ++ [Sp; W "IS"; Sp] ++ not_words n ["NULL"%string])
  | EIsDistinct l r n => parens (expr_pc l ++ [Sp; W "IS"; Sp] ++ not_words n ["DISTINCT"; "FROM"]%string ++ [Sp] ++ expr_pc r)
  | ELike e p n ci => parens (expr_pc e ++ [Sp] ++ not_words n [if ci then "ILIKE" else "LIKE"]%string ++ [Sp] ++ expr_pc p)
  | EInList e es n => parens (expr_pc e ++ [Sp] ++ not_words n ["IN"%string] ++ [Sp] ++ paren_pc expr_pc es)
  | EBetween e lo hi n => parens (expr_pc e ++ [Sp] ++ not_words n ["BETWEEN"%string] ++ [Sp] ++ expr_pc lo ++ [Sp; W "AND"; Sp] ++ expr_pc hi)
  | ECase o ws el =>
      [W "CASE"] ++ maybe (fun o => [Sp] ++ expr_pc o) o ++ concat (when_pc expr_pc <$> ws)
      ++ maybe (fun e => [Sp; W "ELSE"; Sp] ++ expr_pc e) el ++ [Sp; W "END"]
  | ECast e t => [W "CAST"] ++ parens (expr_pc e ++ [Sp; W "AS"; Sp] ++ type_words t)
  | EScalarSubquery q => parens (qpc q)
  | EExists q => [W "EXISTS"; Sp] ++ parens (qpc q)
  | EInSubquery e q n => parens (expr_pc e ++ [Sp] ++ not_words n ["IN"%string] ++ [Sp] ++ parens (qpc q))
  | EFunction name args star distinct filter over =>
      match str_eqb name SUBSCRIPT, args with
      | true, [a; i] => expr_pc a ++ [T LBracket] ++ expr_pc i ++ [T RBracket]
      | _, _ => call_pc expr_pc name args star distinct filter over
      end
  end.
End expr.

(** * Pieces of queries and statements *)

Definition ids_pc (names : list str) : list piece := parens (commas ((fun n => [T (id_tok n)]) <$> names)).
Definition columns_pc (names : list str) : list piece := match names with [] => [] | _ => Sp :: ids_pc names end.
Definition aliases_pc (names : list str) : list piece := match names with [] => [] | _ => ids_pc names end.
Definition alias_pc (a : option str) : list piece := maybe (fun a => [Sp; W "AS"; Sp; T (id_tok a)]) a.
Definition join_words (k : JoinKind) : list piece :=
  words (match k with
         | Inner => ["JOIN"] | LeftJoin => ["LEFT"; "JOIN"] | RightJoin => ["RIGHT"; "JOIN"] | FullJoin => ["FULL"; "JOIN"] | Cross => ["CROSS"; "JOIN"]
         end)%string.
Definition set_operator_word (o : SetOperator) : string := match o with Union => "UNION" | Intersect => "INTERSECT" | Except => "EXCEPT" end.
Definition locking_words (m : RowLockingMode) : list piece :=
  words (match m with
         | LockStmt.Update => ["FOR"; "UPDATE"] | NoKeyUpdate => ["FOR"; "NO"; "KEY"; "UPDATE"]
         | ForShare => ["FOR"; "SHARE"] | KeyShare => ["FOR"; "KEY"; "SHARE"]
         end)%string.
Definition locking_pc (c : RowLockingClause) : list piece :=
  [Sp] ++ locking_words (rc_mode c)
  ++ (match rc_tables c with [] => [] | ts => [Sp; W "OF"; Sp] ++ commas ((fun n => [T (id_tok n)]) <$> ts) end)
  ++ (match rc_wait_policy c with Some NoWait => [Sp; W "NOWAIT"] | Some SkipLocked => [Sp; W "SKIP"; Sp; W "LOCKED"] | None => [] end).

Section parts.
Context {X : Type} (spc : Select X -> list piece) (stpc : Statement X -> list piece).
Abbreviation epc := (expr_pc spc).

Definition cte_pc (c : Cte X) : list piece :=
  match c with
  | mk_cte name columns select dml _ =>
      [T (id_tok name)] ++ columns_pc columns ++ [Sp; W "AS"; Sp] ++ parens (match dml with Some stmt => stpc stmt | None => spc select end)
  end.
Definition tref_pc (t : TableRef X) : list piece :=
  match t with
  | mk_tref schema name args alias sub lateral _ cols ord =>
      (if lateral then [W "LATERAL"; Sp] else [])
      ++ match sub with
         | Some sub => parens (spc sub) ++ alias_pc alias ++ aliases_pc cols
         | None =>
             maybe (fun s => [T (id_tok s); T Dot]) schema ++ [T (id_tok name)]
             ++ (match args with [] => [] | _ => paren_pc epc args end)
             ++ (if ord then [Sp; W "WITH"; Sp; W "ORDINALITY"] else []) ++ alias_pc alias ++ aliases_pc cols
         end
  end.
Definition join_pc (j : Join X) : list piece :=
  match j with mk_join kind table on => [Sp] ++ join_words kind ++ [Sp] ++ tref_pc table ++ clause_pc epc "ON" on end.
Definition from_pc (f : FromClause X) : list piece := match f with mk_from base joins => tref_pc base ++ concat (join_pc <$> joins) end.
Definition set_op_pc (o : SetOperation X) : list piece :=
  match o with mk_set_op op all s => [Sp; W (set_operator_word op)] ++ (if all then [Sp; W "ALL"] else []) ++ [Sp] ++ spc s end.
Definition conflict_pc (c : OnConflict X) : list piece :=
  match c with
  | DoNothing target => [Sp; W "ON"; Sp; W "CONFLICT"] ++ columns_pc target ++ [Sp; W "DO"; Sp; W "NOTHING"]
  | DoUpdate target assignments filter =>
      [Sp; W "ON"; Sp; W "CONFLICT"] ++ columns_pc target ++ [Sp; W "DO"; Sp; W "UPDATE"; Sp; W "SET"; Sp]
      ++ commas (assignment_pc epc <$> assignments) ++ clause_pc epc "WHERE" filter
  end.
Definition source_pc (default_values : bool) (select : option (Select X)) (rows : list (list (Expr (Select X)))) : list piece :=
  if default_values then [Sp; W "DEFAULT"; Sp; W "VALUES"]
  else match select with
       | Some s => [Sp] ++ spc s
       | None => [Sp; W "VALUES"; Sp] ++ commas (paren_pc epc <$> rows)
       end.
Definition insert_pc (i : Insert X) : list piece :=
  match i with
  | mk_insert table columns default_values overriding rows select conflict _ =>
      [W "INSERT"; Sp; W "INTO"; Sp; T (id_tok table)] ++ maybe (fun ns => Sp :: ids_pc ns) columns
      ++ (if overriding then [Sp; W "OVERRIDING"; Sp; W "SYSTEM"; Sp; W "VALUE"] else [])
      ++ source_pc default_values select rows ++ maybe conflict_pc conflict
  end.
Definition from_clause_pc (kw : string) (f : option (FromClause X)) : list piece := maybe (fun f => [Sp; W kw; Sp] ++ from_pc f) f.
Definition update_pc (u : Update X) : list piece :=
  match u with
  | mk_update table assignments from filter _ =>
      [W "UPDATE"; Sp; T (id_tok table); Sp; W "SET"; Sp] ++ commas (assignment_pc epc <$> assignments)
      ++ from_clause_pc "FROM" from ++ clause_pc epc "WHERE" filter
  end.
Definition delete_pc (d : Delete X) : list piece :=
  match d with
  | mk_delete table using_ filter _ =>
      [W "DELETE"; Sp; W "FROM"; Sp; T (id_tok table)] ++ from_clause_pc "USING" using_ ++ clause_pc epc "WHERE" filter
  end.
Definition with_pc (ctes : list (Cte X)) : list piece :=
  match ctes with
  | [] => []
  | _ => [W "WITH"; Sp] ++ (if existsb is_recursive ctes then [W "RECURSIVE"; Sp] else []) ++ commas (cte_pc <$> ctes) ++ [Sp]
  end.
Definition distinct_pc (distinct : bool) (don : list (Expr (Select X))) : list piece :=
  if distinct then match don with [] => [W "DISTINCT"; Sp] | _ => [W "DISTINCT"; Sp; W "ON"; Sp] ++ paren_pc epc don ++ [Sp] end else [].
Definition order_pc (ord : list (OrderByItem (Expr (Select X)))) : list piece :=
  match ord with [] => [] | _ => [Sp; W "ORDER"; Sp; W "BY"; Sp] ++ commas (order_item_pc epc <$> ord) end.
Definition select_body_pc (s : Select X) : list piece :=
  match s with
  | mk_select ctes distinct don proj from filter grp sets having ord limit offset locking set_ops =>
      with_pc ctes ++ [W "SELECT"; Sp] ++ distinct_pc distinct don ++ commas (item_pc epc <$> proj)
      ++ from_clause_pc "FROM" from ++ clause_pc epc "WHERE" filter ++ group_pc epc grp sets ++ clause_pc epc "HAVING" having
      ++ concat (set_op_pc <$> set_ops) ++ order_pc ord ++ clause_pc epc "LIMIT" limit ++ clause_pc epc "OFFSET" offset
      ++ concat (locking_pc <$> locking)
  end.
End parts.

Section statements.
Context {X : Type} (xpc : X -> list piece).

Fixpoint select_pc (s : Select X) : list piece := select_body_pc select_pc statement_pc s
with statement_pc (s : Statement X) : list piece :=
  match s with
  | SInsert i => insert_pc select_pc i
  | SSelect s => select_pc s
  | SUpdate u => update_pc select_pc u
  | SDelete d => delete_pc select_pc d
  | SExplain analyze s => [W "EXPLAIN"; Sp] ++ (if analyze then [W "ANALYZE"; Sp] else []) ++ statement_pc s
  | SOther o => xpc o
  end.
End statements.

(** * The printable trees *)

Definition ascii_name (s : str) : bool := forallb (fun b => (0 <=? b) && (b <? 128)) s.
(** words that mean something else at the start of an expression *)
Definition RESERVED : list str :=
  (lit <$> ["not"; "true"; "false"; "null"; "array"; "extract"; "exists"; "case"; "cast"; "select"; "when"; "distinct"; "all"; "any"; "some"; "on";
            "rollup"; "cube"; "grouping"; "current_user"; "current_role"; "session_user"; "current_schema"; "current_catalog"; "current_date";
            "current_timestamp"]%string).
Definition CALL_RESERVED : list str :=
  lit <$> ["not"; "true"; "false"; "null"; "row"; "array"; "extract"; "exists"; "case"; "cast"; "select"; "when"; "distinct"; "all"; "any"; "some"; "on";
           "rollup"; "cube"; "grouping"]%string.
Definition word_ok (w : str) : bool := match w with c :: _ => word_start c && forallb word_char w | [] => false end.
Definition number_ok (s : str) : bool :=
  match s with
  | c :: s' => (is_ascii_digit c || ((c =? 46) && starts_digit s')) && bool_decide (scan_number false false s = (s, []))
  | [] => false
  end.
Definition float_text (f : Z) : str := default (lit "0") (to_text (Float f)).
Definition float_ok (f : Z) : bool :=
  let s := float_text f in
  number_ok s && (contains_char 46 s || contains_char 101 s || contains_char 69 s) && bool_decide (parse_f64 s = Some f).
Definition nil {A} (l : list A) : bool := match l with [] => true | _ => false end.
Definition none {A} (o : option A) : bool := match o with None => true | Some _ => false end.
Definition no_ctes {X} (s : Select X) : bool := match s with mk_select ctes _ _ _ _ _ _ _ _ _ _ _ _ _ => nil ctes end.

(** the local condition on each node *)
Definition expr_ok {X} (e : Expr (Select X)) : bool :=
  match e with
  | EInt i => (0 <=? i) && (i <? 2 ^ 63)
  | EFloat f => float_ok f
  | EStr s => utf8_valid s
  | EParam n => (0 <=? n) && (n <? 2 ^ 32)
  | EColumn name => ascii_name name && negb (simple_ident name && mem name RESERVED)
  | EQualified q name => simple_ident q && negb (mem q RESERVED) && ascii_name name
  | ECase _ ws _ => negb (nil ws)
  | EScalarSubquery q | EInSubquery _ q _ => no_ctes q
  | EFunction name args star distinct filter over =>
      match str_eqb name SUBSCRIPT, args with
      | true, [_; _] => negb star && negb distinct && none filter && none over
      | _, _ => word_ok name && negb (mem (lower name) CALL_RESERVED) && (negb star || (nil args && negb distinct))
      end
  | _ => true
  end.

Definition clause_ok (c : RowLockingClause) : bool := forallb ascii_name (rc_tables c).
Definition table_name_ok (n : str) : bool := ascii_name n && negb (mem n (lit <$> ["lateral"; "only"]%string)).
Definition tref_ok {X} (t : TableRef X) : bool :=
  match t with
  | mk_tref schema name args alias sub lateral only cols ord =>
      negb only && forallb ascii_name cols && (nil cols || negb (none alias)) && match alias with Some a => ascii_name a | None => true end
      && match sub with
         | Some _ => none schema && str_eqb name (default [] alias) && nil args && negb ord
         | None => match schema with Some s => table_name_ok s && ascii_name name | None => table_name_ok name end
         end
  end.
Definition join_ok {X} (j : Join X) : bool :=
  match j with mk_join kind t on => tref_ok t && match kind with Cross => none on | _ => negb (none on) end end.
Definition from_ok {X} (f : FromClause X) : bool := match f with mk_from base joins => tref_ok base && forallb join_ok joins end.
Definition core_only {X} (o : SetOperation X) : bool :=
  match o with
  | mk_set_op _ _ (mk_select ctes _ _ _ _ _ _ _ _ ord limit offset locking set_ops) =>
      nil ctes && nil ord && none limit && none offset && nil locking && nil set_ops
  end.
Definition is_dml {X} (s : Statement X) : bool := match s with SInsert _ | SUpdate _ | SDelete _ => true | _ => false end.
Definition is_default {X} (s : Select X) : bool :=
  match s with
  | mk_select ctes distinct don proj from filter grp sets having ord limit offset locking set_ops =>
      nil ctes && negb distinct && nil don && nil proj && none from && none filter && nil grp && nil sets && none having && nil ord
      && none limit && none offset && nil locking && nil set_ops
  end.
Definition returning_free {X} (s : Statement X) : bool :=
  match s with
  | SInsert (mk_insert _ _ _ _ _ _ _ ret) => nil ret
  | SUpdate (mk_update _ _ _ _ ret) => nil ret
  | SDelete (mk_delete _ _ _ ret) => nil ret
  | _ => true
  end.
Definition cte_ok {X} (recursive : bool) (c : Cte X) : bool :=
  match c with
  | mk_cte name columns select dml r =>
      ascii_name name && negb (str_eqb name (lit "recursive")) && forallb ascii_name columns && Bool.eqb r recursive
      && match dml with Some s => is_dml s && returning_free s && is_default select | None => true end
  end.
Definition item_ok {E} (i : SelectItem E) : bool := match i with SelectExpr _ (Some a) => ascii_name a | _ => true end.
Definition select_ok {X} (s : Select X) : bool :=
  match s with
  | mk_select ctes distinct don proj from filter grp sets having ord limit offset locking set_ops =>
      forallb (cte_ok (existsb is_recursive ctes)) ctes
      && (distinct || nil don) && negb (nil proj) && forallb item_ok proj && match from with Some f => from_ok f | None => true end
      && (nil grp || nil sets) && forallb clause_ok locking && forallb core_only set_ops
  end.
Definition assignment_ok {E} (a : str * E) : bool := ascii_name a.1.
Definition conflict_ok {X} (c : OnConflict X) : bool :=
  match c with
  | DoNothing target => forallb ascii_name target
  | DoUpdate target assignments _ => forallb ascii_name target && negb (nil assignments) && forallb assignment_ok assignments
  end.
(** an INSERT ... SELECT may be followed by ON CONFLICT when the query has a FROM clause *)
Definition conflict_safe {X} (s : Select X) : bool :=
  match s with mk_select _ _ _ _ from _ _ _ _ _ _ _ _ set_ops => negb (none from) && nil set_ops end.
Definition statement_ok {X} (s : Statement X) : bool :=
  match s with
  | SInsert (mk_insert table columns dv _ rows select conflict _) =>
      ascii_name table && match columns with Some ns => negb (nil ns) && forallb ascii_name ns | None => true end
      && match conflict with Some c => conflict_ok c | None => true end
      && match dv, select with
         | true, _ => nil rows && none select
         | false, Some s => nil rows && no_ctes s && (none conflict || conflict_safe s)
         | false, None => negb (nil rows)
         end
  | SUpdate (mk_update table assignments from _ _) =>
      ascii_name table && negb (nil assignments) && forallb assignment_ok assignments && match from with Some f => from_ok f | None => true end
  | SDelete (mk_delete table using_ _ _) => ascii_name table && match using_ with Some f => from_ok f | None => true end
  | SExplain _ s => returning_free s
  | SSelect _ => true
  | SOther _ => false
  end.

(** ** The nodes below a node *)

Definition opt {A} (o : option A) : list A := match o with Some x => [x] | None => [] end.
Definition over_kids {E} (w : WindowSpec E) : list E := match w with mk_window p o => p ++ (o_expr <$> o) end.
Definition expr_kids {X} (e : Expr (Select X)) : list (Expr (Select X)) :=
  match e with
  | EUnary _ e | EIsNull e _ | ECast e _ | EInSubquery e _ _ => [e]
  | EBinary _ l r | EIsDistinct l r _ | ELike l r _ _ => [l; r]
  | EQuantified l _ _ es => l :: es
  | EInList e es _ => e :: es
  | ERow es | EArray es => es
  | EBetween e lo hi _ => [e; lo; hi]
  | ECase o ws el => opt o ++ concat ((fun w => [w.1; w.2]) <$> ws) ++ opt el
  | EFunction _ args _ _ filter over => args ++ opt filter ++ concat (over_kids <$> opt over)
  | _ => []
  end.
Definition expr_queries {X} (e : Expr (Select X)) : list (Select X) :=
  match e with EScalarSubquery q | EExists q | EInSubquery _ q _ => [q] | _ => [] end.

Section kids.
Context {X : Type}.
Abbreviation E := (Expr (Select X)).

Definition item_kids (i : SelectItem E) : list E := match i with SelectExpr e _ => [e] | Wildcard => [] end.
Definition tref_kids (t : TableRef X) : list E := match t with mk_tref _ _ args _ _ _ _ _ _ => args end.
Definition tref_queries (t : TableRef X) : list (Select X) := match t with mk_tref _ _ _ _ sub _ _ _ _ => opt sub end.
Definition join_kids (j : Join X) : list E := match j with mk_join _ t on => tref_kids t ++ opt on end.
Definition join_queries (j : Join X) : list (Select X) := match j with mk_join _ t _ => tref_queries t end.
Definition from_kids (f : FromClause X) : list E := match f with mk_from b js => tref_kids b ++ concat (join_kids <$> js) end.
Definition from_queries (f : FromClause X) : list (Select X) := match f with mk_from b js => tref_queries b ++ concat (join_queries <$> js) end.
Definition cte_query (c : Cte X) : list (Select X) := match c with mk_cte _ _ s None _ => [s] | _ => [] end.
Definition cte_stmt (c : Cte X) : list (Statement X) := match c with mk_cte _ _ _ dml _ => opt dml end.
Definition select_kids (s : Select X) : list E :=
  match s with
  | mk_select _ _ don proj from filter grp sets having ord limit offset _ _ =>
      don ++ concat (item_kids <$> proj) ++ concat (from_kids <$> opt from) ++ opt filter ++ grp ++ concat sets ++ opt having
      ++ (o_expr <$> ord) ++ opt limit ++ opt offset
  end.
Definition select_queries (s : Select X) : list (Select X) :=
  match s with
  | mk_select ctes _ _ _ from _ _ _ _ _ _ _ _ set_ops =>
      concat (cte_query <$> ctes) ++ concat (from_queries <$> opt from) ++ ((fun o => match o with mk_set_op _ _ s => s end) <$> set_ops)
  end.
Definition select_stmts (s : Select X) : list (Statement X) :=
  match s with mk_select ctes _ _ _ _ _ _ _ _ _ _ _ _ _ => concat (cte_stmt <$> ctes) end.
Definition conflict_kids (c : OnConflict X) : list E :=
  match c with DoNothing _ => [] | DoUpdate _ asg filter => (snd <$> asg) ++ opt filter end.
Definition statement_kids (s : Statement X) : list E :=
  match s with
  | SInsert (mk_insert _ _ _ _ rows _ conflict _) => concat rows ++ concat (conflict_kids <$> opt conflict)
  | SUpdate (mk_update _ asg from filter _) => (snd <$> asg) ++ concat (from_kids <$> opt from) ++ opt filter
  | SDelete (mk_delete _ using_ filter _) => concat (from_kids <$> opt using_) ++ opt filter
  | _ => []
  end.
Definition statement_queries (s : Statement X) : list (Select X) :=
  match s with
  | SInsert (mk_insert _ _ _ _ _ select _ _) => opt select
  | SUpdate (mk_update _ _ from _ _) => concat (from_queries <$> opt from)
  | SDelete (mk_delete _ using_ _ _) => concat (from_queries <$> opt using_)
  | SSelect s => [s]
  | _ => []
  end.
Definition statement_stmts (s : Statement X) : list (Statement X) := match s with SExplain _ s => [s] | _ => [] end.

(** A tree is printable when every node meets its condition. *)
Inductive ok_expr : E -> Prop :=
| ok_expr_intro e : expr_ok e = true -> Forall ok_expr (expr_kids e) -> Forall ok_select (expr_queries e) -> ok_expr e
with ok_select : Select X -> Prop :=
| ok_select_intro s : select_ok s = true -> Forall ok_expr (select_kids s) -> Forall ok_select (select_queries s) ->
    Forall ok_statement (select_stmts s) -> ok_select s
with ok_statement : Statement X -> Prop :=
| ok_statement_intro s : statement_ok s = true -> Forall ok_expr (statement_kids s) -> Forall ok_select (statement_queries s) ->
    Forall ok_statement (statement_stmts s) -> ok_statement s.

Definition forall_map {A} {P R : A -> Prop} (f : forall x, P x -> R x) : forall l, Forall P l -> Forall R l :=
  fix go l (H : Forall P l) := match H with List.Forall_nil _ => List.Forall_nil _ | List.Forall_cons _ x l Hx Hl => List.Forall_cons _ x l (f x Hx) (go l Hl) end.

Section induct.
Context (PE : E -> Prop) (PS : Select X -> Prop) (PT : Statement X -> Prop).
Context (HE : forall e, expr_ok e = true -> Forall PE (expr_kids e) -> Forall PS (expr_queries e) -> PE e).
Context (HS : forall s, select_ok s = true -> Forall PE (select_kids s) -> Forall PS (select_queries s) -> Forall PT (select_stmts s) -> PS s).
Context (HT : forall s, statement_ok s = true -> Forall PE (statement_kids s) -> Forall PS (statement_queries s) -> Forall PT (statement_stmts s) -> PT s).

Fixpoint ok_expr_ind' e (H : ok_expr e) {struct H} : PE e :=
  match H with ok_expr_intro e K1 K2 K3 => HE e K1 (forall_map ok_expr_ind' _ K2) (forall_map ok_select_ind' _ K3) end
with ok_select_ind' s (H : ok_select s) {struct H} : PS s :=
  match H with
  | ok_select_intro s K1 K2 K3 K4 => HS s K1 (forall_map ok_expr_ind' _ K2) (forall_map ok_select_ind' _ K3) (forall_map ok_statement_ind' _ K4)
  end
with ok_statement_ind' s (H : ok_statement s) {struct H} : PT s :=
  match H with
  | ok_statement_intro s K1 K2 K3 K4 => HT s K1 (forall_map ok_expr_ind' _ K2) (forall_map ok_select_ind' _ K3) (forall_map ok_statement_ind' _ K4)
  end.

(** the three at once *)
Lemma ok_ind : (forall e, ok_expr e -> PE e) /\ (forall s, ok_select s -> PS s) /\ (forall s, ok_statement s -> PT s).
Proof. split_and!; [exact ok_expr_ind'|exact ok_select_ind'|exact ok_statement_ind']. Qed.
End induct.
End kids.

(** * Texts *)

Lemma text_app a b : text (a ++ b) = text a ++ text b.
Proof. unfold text. by rewrite fmap_app, concat_app. Qed.
Lemma text_nil : text [] = [].
Proof. done. Qed.
Lemma text_tok t ps : text (T t :: ps) = token_text t ++ text ps.
Proof. done. Qed.
Lemma text_sp ps : text (Sp :: ps) = 32 :: text ps.
Proof. done. Qed.
Lemma text_word w ps : text (W w :: ps) = lit w ++ text ps.
Proof. done. Qed.
Lemma text_id name : token_text (id_tok name) = ident name.
Proof. unfold id_tok, ident. by destruct (simple_ident name). Qed.
Lemma text_op op : token_text (op_tok op) = binop_sql op.
Proof. by destruct op as [| | | | | | | |[]|[]| | | | | | | | | |[]|[]]. Qed.
Lemma text_type t : text (type_words t) = sql_name t.
Proof. by destruct t. Qed.

Lemma text_commas {A} (f : A -> list piece) (g : A -> str) l :
  Forall (fun x => text (f x) = g x) l -> text (commas (f <$> l)) = join SEP (g <$> l).
Proof.
  induction 1 as [|x l Hx Hl IH]; [done|]. destruct l as [|y l]; [exact Hx|].
  change (text (f x ++ [T Comma; Sp] ++ commas (f <$> (y :: l))) = g x ++ SEP ++ join SEP (g <$> (y :: l))).
  by rewrite !text_app, Hx, IH.
Qed.
Lemma text_concat {A} (f : A -> list piece) (g : A -> str) l :
  Forall (fun x => text (f x) = g x) l -> text (concat (f <$> l)) = concat (g <$> l).
Proof. induction 1 as [|x l Hx Hl IH]; [done|]. cbn [fmap list_fmap concat]. by rewrite text_app, Hx, IH. Qed.

Create Rewrite HintDb txt.
#[local] Hint Rewrite text_app text_nil text_tok text_sp text_word text_id text_op text_type : txt.
(** Normalizes both texts to right-nested concatenations of bytes and parts. *)
Ltac lits := repeat match goal with |- context [lit ?s] => let v := eval vm_compute in (lit s) in progress change (lit s) with v end.
Ltac txt :=
  unfold parens; autorewrite with txt; cbn [token_text op_text]; lits; cbn [app];
  repeat (rewrite <- ?app_assoc; cbn [app]); rewrite ?app_nil_r.

Section text.
Context {X : Type} (other_sql : X -> str) (xpc : X -> list piece).
Abbreviation E := (Expr (Select X)).
Abbreviation epc := (expr_pc (select_pc xpc)).
Abbreviation esql := (expr_to_sql (select_to_sql other_sql)).

Lemma select_pc_eq s : select_pc xpc s = select_body_pc (select_pc xpc) (statement_pc xpc) s.
Proof. by destruct s. Qed.
Lemma select_to_sql_eq s : select_to_sql other_sql s = select_body_sql (select_to_sql other_sql) (statement_to_sql other_sql) s.
Proof. by destruct s. Qed.

Definition text_e (e : E) : Prop := text (epc e) = esql e.
Definition text_s (s : Select X) : Prop := text (select_pc xpc s) = select_to_sql other_sql s.
Definition text_t (s : Statement X) : Prop := text (statement_pc xpc s) = statement_to_sql other_sql s.

Lemma text_ids names : text (ids_pc names) = paren_list ident names.
Proof.
  unfold ids_pc, parens, paren_list. txt. rewrite (text_commas _ ident); [done|]. apply Forall_forall. intros n _. by txt.
Qed.
Lemma text_paren es : Forall text_e es -> text (paren_pc epc es) = paren_list esql es.
Proof. intros H. unfold paren_pc, parens, paren_list. txt. by rewrite (text_commas _ esql). Qed.

Lemma text_order items : Forall text_e (o_expr <$> items) -> text (commas (order_item_pc epc <$> items)) = join SEP (order_item_sql esql <$> items).
Proof.
  intros H. apply text_commas. rewrite Forall_fmap in H. eapply Forall_impl; [exact H|]. intros [e []] He; change (text (epc e) = esql e) in He; unfold order_item_pc, order_item_sql; txt; by rewrite He.
Qed.
Lemma text_window w : Forall text_e (over_kids w) -> text (window_pc epc w) = window_spec_sql esql w.
Proof.
  destruct w as [p o]. cbn [over_kids]. intros [Hp Ho]%Forall_app. unfold window_pc, window_spec_sql.
  apply text_order in Ho. apply (text_commas _ esql) in Hp.
  destruct p, o; cbn [app join words]; txt; rewrite ?Hp, ?Ho; done.
Qed.
Lemma text_call name args star distinct filter over :
  Forall text_e (args ++ opt filter ++ concat (over_kids <$> opt over)) ->
  text (call_pc epc name args star distinct filter over) = call_sql esql name args star distinct filter over.
Proof.
  intros [Ha [Hf Ho]%Forall_app]%Forall_app. unfold call_pc, call_sql. apply (text_commas _ esql) in Ha.
  destruct filter; cbn [opt] in Hf; [apply Forall_cons in Hf as [Hf _]|]; destruct over; cbn [opt fmap list_fmap concat] in Ho;
    [rewrite app_nil_r in Ho; apply text_window in Ho| |rewrite app_nil_r in Ho; apply text_window in Ho|];
    destruct star, distinct; cbn [maybe part]; txt; rewrite ?Ha, ?Hf, ?Ho; txt; done.
Qed.
Lemma text_whens ws : Forall text_e (concat ((fun w => [w.1; w.2]) <$> ws)) -> text (concat (when_pc epc <$> ws)) = concat (when_sql esql <$> ws).
Proof.
  intros H. apply text_concat. induction ws as [|[c r] ws IH]; [done|]. cbn [fmap list_fmap concat app] in H.
  apply Forall_cons in H as [Hc [Hr H]%Forall_cons]. constructor; [|by apply IH]. change (text (epc c) = esql c) in Hc. change (text (epc r) = esql r) in Hr. unfold when_pc, when_sql. txt. by rewrite Hc, Hr.
Qed.

Lemma text_expr e : expr_ok e = true -> Forall text_e (expr_kids e) -> Forall text_s (expr_queries e) -> text_e e.
Proof.
  intros _ HE HQ. unfold text_e. destruct e; cbn [expr_kids expr_queries] in *; cbn [expr_pc expr_to_sql].
  all: repeat match goal with H : Forall _ (_ :: _) |- _ => apply Forall_cons in H as [? H] | H : Forall _ [] |- _ => clear H end.
  all: unfold not_words, is_null_sql, is_distinct_sql, like_sql, in_sql, between_sql, quantifier_sql.
  all: repeat match goal with b : bool |- _ => destruct b | k : Quantifier |- _ => destruct k | o : UnaryOp |- _ => destruct o end.
  all: cbn [app words quantifier_word].
  all: try (txt;
    repeat match goal with
    | H : text_e _ |- _ => rewrite H; clear H
    | H : text_s _ |- _ => rewrite H; clear H
    | H : Forall text_e _ |- _ => first [rewrite (text_paren _ H)|rewrite (text_commas _ esql _ H)]; clear H
    end; done).
  { apply Forall_app in HE as [Ho [Hw He]%Forall_app]. apply text_whens in Hw.
    destruct operand as [o|]; cbn [opt] in Ho; [apply Forall_cons in Ho as [Ho _]; unfold text_e in Ho|];
    (destruct else_expr as [e|]; cbn [opt] in He; [apply Forall_cons in He as [He _]; unfold text_e in He|]);
    cbn [maybe part]; txt; rewrite Hw, ?Ho, ?He; done. }
  all: pose proof (fun st d => text_call name args st d _ _ HE) as HC.
  all: destruct (str_eqb name SUBSCRIPT); [|apply HC]; destruct args as [|a [|i [|]]]; try apply HC.
  all: cbn [app] in HE; apply Forall_cons in HE as [Ha [Hi _]%Forall_cons]; unfold text_e in Ha, Hi; txt; by rewrite Ha, Hi.
Qed.

Ltac kids H :=
  repeat match type of H with
  | Forall _ (_ ++ _) => let H' := fresh H in apply Forall_app in H as [H' H]; kids H'
  end.
Lemma text_clause kw e : Forall text_e (opt e) -> text (clause_pc epc kw e) = clause_sql (lit kw) esql e.
Proof. destruct e as [e|]; cbn [opt]; [intros [He _]%Forall_cons|done]. unfold clause_pc, clause_sql. cbn [maybe part]. txt. by rewrite He. Qed.
Lemma text_alias a : text (alias_pc a) = alias_sql a.
Proof. destruct a; [|done]. unfold alias_pc, alias_sql. cbn [maybe part]. by txt. Qed.
Lemma text_aliases l : text (aliases_pc l) = column_aliases_sql l.
Proof. unfold aliases_pc, column_aliases_sql. destruct l; [done|]. apply text_ids. Qed.
Lemma text_columns l : text (columns_pc l) = columns_sql l.
Proof. unfold columns_pc, columns_sql. destruct l; [done|]. txt. by rewrite text_ids. Qed.
Lemma text_assignments l : Forall text_e (snd <$> l) -> text (commas (assignment_pc epc <$> l)) = join SEP (assignment_sql esql <$> l).
Proof.
  intros H. apply text_commas. rewrite Forall_fmap in H. eapply Forall_impl; [exact H|]. intros [n e] He. change (text_e e) in He.
  unfold assignment_pc, assignment_sql. txt. by rewrite He.
Qed.
Lemma text_group g sets : Forall text_e (g ++ concat sets) -> text (group_pc epc g sets) = group_by_sql esql g sets.
Proof.
  intros [Hg Hs]%Forall_app. apply (text_commas _ esql) in Hg. unfold group_pc, group_by_sql. destruct g as [|e g]; [|txt; by rewrite Hg].
  destruct sets as [|s sets]; [done|]. unfold paren_list at 1. txt. rewrite (text_commas _ (paren_list esql)); [done|].
  apply Forall_concat in Hs. eapply Forall_impl; [exact Hs|]. intros l Hl. by apply text_paren.
Qed.
Lemma text_items l : Forall text_e (concat (item_kids <$> l)) -> text (commas (item_pc epc <$> l)) = join SEP (select_item_to_sql esql <$> l).
Proof.
  intros H. apply text_commas. rewrite Forall_concat, Forall_fmap in H. eapply Forall_impl; [exact H|].
  intros [|e [a|]] Hi; [done| |]; apply Forall_cons in Hi as [Hi _]; unfold item_pc, select_item_to_sql; txt; by rewrite Hi.
Qed.
Lemma text_tref t : Forall text_e (tref_kids t) -> Forall text_s (tref_queries t) -> text (tref_pc (select_pc xpc) t) = table_ref_to_sql (select_to_sql other_sql) t.
Proof.
  destruct t as [schema name args alias sub lateral only cols ord]. cbn [tref_kids tref_queries tref_pc table_ref_to_sql]. intros HE HS.
  destruct lateral, sub as [s|]; cbn [opt] in HS; try apply Forall_cons in HS as [HS _]; unfold text_s in HS;
    try (txt; rewrite HS, text_alias, text_aliases; done).
  all: destruct schema, ord, args as [|a args]; cbn [maybe part]; txt; rewrite ?text_alias, ?text_aliases, ?text_paren by done; done.
Qed.
Lemma text_from f : Forall text_e (from_kids f) -> Forall text_s (from_queries f) -> text (from_pc (select_pc xpc) f) = from_clause_to_sql (select_to_sql other_sql) f.
Proof.
  destruct f as [b js]. cbn [from_kids from_queries from_pc from_clause_to_sql]. intros [Hb Hj]%Forall_app [Qb Qj]%Forall_app.
  rewrite text_app, text_tref by done. f_equal. apply text_concat. rewrite Forall_concat, Forall_fmap in Hj. rewrite Forall_concat, Forall_fmap in Qj.
  assert (H := proj2 (Forall_and _ _) (Logic.conj Hj Qj)). eapply Forall_impl; [exact H|]. intros [k t on] [HE HQ].
  cbn in HE, HQ. apply Forall_app in HE as [HE Ho]. cbn [join_pc join_to_sql]. unfold join_words, join_sql.
  destruct k; cbn [words]; txt; rewrite text_tref, text_clause by done; done.
Qed.
Lemma text_locking l : text (concat (locking_pc <$> l)) = concat (row_locking_clause_to_sql <$> l).
Proof.
  apply text_concat. apply Forall_forall. intros [m ts w] _. unfold locking_pc, row_locking_clause_to_sql. cbn [rc_mode rc_tables rc_wait_policy].
  assert (text (commas ((fun n => [T (id_tok n)]) <$> ts)) = join SEP (ident <$> ts)) as Ht.
  { apply text_commas, Forall_forall. intros n _. by txt. }
  destruct m, w as [[]|], ts as [|t ts]; unfold locking_words; cbn [words]; txt; rewrite ?Ht; txt; done.
Qed.
Lemma text_cte c : Forall text_s (cte_query c) -> Forall text_t (cte_stmt c) -> text (cte_pc (select_pc xpc) (statement_pc xpc) c) = cte_to_sql (select_to_sql other_sql) (statement_to_sql other_sql) c.
Proof.
  destruct c as [name cols s [st|] r]; cbn [cte_query cte_stmt opt cte_pc cte_to_sql]; intros HS HT.
  - apply Forall_cons in HT as [HT _]. txt. rewrite text_columns, HT. by txt.
  - apply Forall_cons in HS as [HS _]. txt. rewrite text_columns, HS. by txt.
Qed.

Lemma text_from_clause kw f : Forall text_e (concat (from_kids <$> opt f)) -> Forall text_s (concat (from_queries <$> opt f)) ->
  text (from_clause_pc (select_pc xpc) kw f) = part (fun f => lit " " ++ lit kw ++ lit " " ++ from_clause_to_sql (select_to_sql other_sql) f) f.
Proof.
  destruct f as [f|]; [|done]. unfold from_clause_pc. cbn [opt fmap list_fmap concat maybe part]. rewrite !app_nil_r. intros HE HS.
  txt. by rewrite text_from.
Qed.
Lemma text_with ctes : Forall text_s (concat (cte_query <$> ctes)) -> Forall text_t (concat (cte_stmt <$> ctes)) ->
  text (with_pc (select_pc xpc) (statement_pc xpc) ctes)
  = match ctes with
    | [] => []
    | _ => (if existsb is_recursive ctes then lit "WITH RECURSIVE " else lit "WITH ")
           ++ join SEP (cte_to_sql (select_to_sql other_sql) (statement_to_sql other_sql) <$> ctes) ++ lit " "
    end.
Proof.
  intros HS HT. rewrite Forall_concat, Forall_fmap in HS. rewrite Forall_concat, Forall_fmap in HT.
  assert (H := proj2 (Forall_and _ _) (Logic.conj HS HT)).
  apply (Forall_impl _ (fun c => text (cte_pc (select_pc xpc) (statement_pc xpc) c) = cte_to_sql (select_to_sql other_sql) (statement_to_sql other_sql) c)) in H;
    [|intros c [H1 H2]; by apply text_cte].
  apply text_commas in H. unfold with_pc. destruct ctes as [|c ctes]; [done|]. destruct (existsb is_recursive (c :: ctes)); txt; by rewrite H.
Qed.
Lemma text_set_ops ops : Forall text_s ((fun o => match o with mk_set_op _ _ s => s end) <$> ops) ->
  text (concat (set_op_pc (select_pc xpc) <$> ops)) = concat (set_op_to_sql (select_to_sql other_sql) <$> ops).
Proof.
  intros H. apply text_concat. rewrite Forall_fmap in H. eapply Forall_impl; [exact H|]. intros [op all s] Hs. change (text_s s) in Hs.
  unfold set_op_pc, set_op_to_sql. destruct op, all; cbn [set_operator_word set_operator_sql]; txt; by rewrite Hs.
Qed.
Lemma text_order_by ord : Forall text_e (o_expr <$> ord) ->
  text (order_pc (select_pc xpc) ord) = match ord with [] => [] | _ => lit " ORDER BY " ++ join SEP (order_item_sql esql <$> ord) end.
Proof. intros H. apply text_order in H. unfold order_pc. destruct ord; [done|]. txt. by rewrite H. Qed.
Lemma text_distinct d don : Forall text_e don ->
  text (distinct_pc (select_pc xpc) d don) = if d then match don with [] => lit "DISTINCT " | _ => lit "DISTINCT ON " ++ paren_list esql don ++ lit " " end else [].
Proof. intros H. unfold distinct_pc. destruct d; [|done]. destruct don; [done|]. txt. by rewrite text_paren. Qed.

Lemma text_select s : select_ok s = true -> Forall text_e (select_kids s) -> Forall text_s (select_queries s) -> Forall text_t (select_stmts s) -> text_s s.
Proof.
  intros _ HE HS HT. unfold text_s. rewrite select_pc_eq, select_to_sql_eq.
  destruct s as [ctes distinct don proj from filter grp sets having ord limit offset locking set_ops].
  cbn [select_kids select_queries select_stmts select_body_pc select_body_sql] in *.
  apply Forall_app in HE as [Hdon [Hproj [Hfrom [Hfil HE]%Forall_app]%Forall_app]%Forall_app]. rewrite app_assoc in HE.
  apply Forall_app in HE as [Hg [Hhav [Hord [Hlim Hoff]%Forall_app]%Forall_app]%Forall_app].
  apply Forall_app in HS as [Qc [Qf Qs]%Forall_app].
  rewrite !text_app, text_with, text_distinct, text_items, text_from_clause, !text_clause, text_group, text_set_ops, text_order_by, text_locking by done.
  reflexivity.
Qed.

Lemma text_conflict c : Forall text_e (conflict_kids c) -> text (conflict_pc (select_pc xpc) c) = on_conflict_sql (select_to_sql other_sql) c.
Proof.
  destruct c as [target|target asg filter]; unfold conflict_pc, on_conflict_sql; cbn [conflict_kids].
  - intros _. txt. by rewrite text_columns.
  - intros [Ha Hf]%Forall_app. txt. by rewrite text_columns, text_assignments, text_clause.
Qed.

Lemma text_statement s : statement_ok s = true -> Forall text_e (statement_kids s) -> Forall text_s (statement_queries s) ->
  Forall text_t (statement_stmts s) -> text_t s.
Proof.
  unfold text_t. destruct s as [[table cols dv ov rows sel conflict ret]|s|[table asg from filter ret]|[table from filter ret]|a s|x];
    cbn [statement_kids statement_queries statement_stmts]; intros Hok HE HS HT.
  - apply Forall_app in HE as [Hr Hc]. rewrite Forall_concat in Hr. change (text (insert_pc (select_pc xpc) (mk_insert table cols dv ov rows sel conflict ret)) = insert_sql (select_to_sql other_sql) (mk_insert table cols dv ov rows sel conflict ret)).
    unfold insert_pc, insert_sql.
    assert (text (maybe (conflict_pc (select_pc xpc)) conflict) = part (on_conflict_sql (select_to_sql other_sql)) conflict) as Hcon.
    { destruct conflict; [|done]. cbn [opt fmap list_fmap concat maybe part] in *. rewrite app_nil_r in Hc. by apply text_conflict. }
    assert (text (maybe (fun ns => Sp :: ids_pc ns) cols) = part (fun ns => lit " " ++ paren_list ident ns) cols) as Hcol.
    { destruct cols; [|done]. cbn [maybe part]. txt. by rewrite text_ids. }
    assert (text (commas (paren_pc epc <$> rows)) = join SEP (paren_list esql <$> rows)) as Hrows.
    { apply text_commas. eapply Forall_impl; [exact Hr|]. intros r. apply text_paren. }
    rewrite !text_app, Hcon, Hcol. unfold source_pc.
    destruct ov, dv, sel as [s|]; cbn [opt] in HS; try (apply Forall_cons in HS as [HS _]; unfold text_s in HS); txt; rewrite ?Hrows, ?HS; by txt.
  - by apply Forall_cons in HS as [HS _].
  - apply Forall_app in HE as [Ha [Hf Hw]%Forall_app]. change (text (update_pc (select_pc xpc) (mk_update table asg from filter ret)) = update_sql (select_to_sql other_sql) (mk_update table asg from filter ret)).
    unfold update_pc, update_sql. rewrite !text_app, text_assignments, text_from_clause, text_clause by done.
    txt. by destruct from.
  - apply Forall_app in HE as [Hf Hw]. change (text (delete_pc (select_pc xpc) (mk_delete table from filter ret)) = delete_sql (select_to_sql other_sql) (mk_delete table from filter ret)).
    unfold delete_pc, delete_sql. rewrite !text_app, text_from_clause, text_clause by done. txt. by destruct from.
  - apply Forall_cons in HT as [HT _]. unfold text_t in HT.
    change (text ([W "EXPLAIN"; Sp] ++ (if a then [W "ANALYZE"; Sp] else []) ++ statement_pc xpc s)
            = (if a then lit "EXPLAIN ANALYZE " else lit "EXPLAIN ") ++ statement_to_sql other_sql s). destruct a; txt; by rewrite HT.
  - done.
Qed.
End text.

(** * Lexing *)

(** The tokens that may stand next to each other without a blank. *)
Definition glue (a b : Token) : bool :=
  match a, b with
  | (LParen | RParen | LBracket | RBracket | Comma), _ => true
  | (Word _ | QuotedIdent _), (LParen | RParen | LBracket | RBracket | Comma | Dot) => true
  | (Number _ | StringLit _ | Param _), (LParen | RParen | LBracket | RBracket | Comma) => true
  | Dot, (Word _ | QuotedIdent _) => true
  | Minus, (LParen | Star | Word _ | QuotedIdent _ | Number _ | StringLit _ | Param _) => true
  | Star, _ => true
  | _, _ => false
  end.
(** [None] stands for the start of the text and for a blank. *)
Definition link (p : option Token) (t : Token) : bool := match p with Some a => glue a t | None => true end.
Fixpoint spaced (p : option Token) (ps : list piece) : bool :=
  match ps with
  | [] => true
  | Sp :: ps => spaced None ps
  | T t :: ps => link p t && spaced (Some t) ps
  end.
Fixpoint final (p : option Token) (ps : list piece) : option Token :=
  match ps with [] => p | Sp :: ps => final None ps | T t :: ps => final (Some t) ps end.

Lemma spaced_app a : forall p b, spaced p (a ++ b) = spaced p a && spaced (final p a) b.
Proof. induction a as [|[t|] a IH]; intros p b; cbn; [done| |apply IH]. by rewrite IH, andb_assoc. Qed.
Lemma final_app a : forall p b, final p (a ++ b) = final (final p a) b.
Proof. induction a as [|[t|] a IH]; intros p b; cbn; done. Qed.
Lemma toks_app a b : toks (a ++ b) = toks a ++ toks b.
Proof. unfold toks. apply omap_app. Qed.

Lemma toks_tok t ps : toks (T t :: ps) = t :: toks ps.
Proof. done. Qed.
Lemma toks_sp ps : toks (Sp :: ps) = toks ps.
Proof. done. Qed.

Lemma text_head t : token_ok t -> exists c s, token_text t = c :: s /\
  match t with
  | Word _ => word_start c = true
  | Number _ => is_ascii_digit c || (c =? 46) = true
  | QuotedIdent _ => c = 34 | StringLit _ => c = 39 | Param _ => c = 36
  | _ => token_text t = op_text t
  end.
Proof.
  destruct t as [s|s|s|s|n| | | | | | | | | | | | | | | | | | | | | | | | | | | | | | | | | |]; cbn [token_ok]; try (intros _; by eexists _, _).
  - destruct s as [|c s]; [done|]. intros [H _]. by exists c, s.
  - destruct s as [|c s]; [done|]. intros [H _]. exists c, s. split; [done|]. by destruct (is_ascii_digit c), (c =? 46).
Qed.

Lemma glue_stops a b rest : glue a b = true -> token_ok b -> stops a (token_text b ++ rest) = true.
Proof.
  intros Hg Hb. destruct (text_head b Hb) as (c & s & Ht & Hc). rewrite Ht. cbn [app stops].
  destruct a; try done; destruct b; try done; cbn [token_text op_text] in Ht; try (injection Ht as <- _; reflexivity); subst; try reflexivity; cbn [stop].
  all: try (pose proof (proj1 (proj2 (class_bounds c)) Hc) as B; unfold is_ascii_digit; apply negb_true_iff; first [by zfalse (c =? 45); zfalse (c =? 62)|zfalse (c <=? 57); by rewrite andb_false_r]).
  apply orb_prop in Hc as [Hc|Hc%Z.eqb_eq]; [|by subst]. apply class_bounds in Hc. apply negb_true_iff. zfalse (c =? 45). by zfalse (c =? 62).
Qed.

(** Well-spaced canonical tokens tokenize to themselves. *)
Lemma pieces_tokenize ps : forall fuel p, spaced p ps = true -> Forall token_ok (toks ps) -> (length (toks ps) < fuel)%nat ->
  tokenize_fuel fuel (text ps) = Some (Ok (toks ps)).
Proof.
  induction ps as [|[t|] ps IH]; intros fuel p Hs Hok Hl.
  - destruct fuel; [cbn in Hl; lia|]. reflexivity.
  - cbn [spaced] in Hs. apply andb_prop in Hs as [_ Hs]. rewrite toks_tok in *. apply Forall_cons in Hok as [Ht Hok].
    destruct fuel as [|fuel]; [cbn in Hl; lia|]. rewrite text_tok. cbn [tokenize_fuel]. rewrite token_reads; [|done|].
    + rewrite (IH fuel (Some t) Hs Hok) by (cbn in Hl; lia). reflexivity.
    + destruct ps as [|[u|] ps]; [done| |by destruct t]. rewrite toks_tok in Hok. cbn [spaced link] in Hs. apply andb_prop in Hs as [Hg _].
      rewrite text_tok. apply glue_stops; [done|]. by apply Forall_cons in Hok as [? _].
  - rewrite text_sp. rewrite toks_sp in *. destruct fuel as [|fuel]; [cbn in Hl; lia|]. cbn [tokenize_fuel]. rewrite next_token_blank.
    exact (IH (S fuel) None Hs Hok Hl).
Qed.
Lemma toks_len ps : Forall token_ok (toks ps) -> (length (toks ps) <= length (text ps))%nat.
Proof.
  induction ps as [|[t|] ps IH]; intros Hok; [cbn; lia| |].
  - rewrite toks_tok in *. apply Forall_cons in Hok as [Ht Hok]. rewrite text_tok, length_app. destruct (text_head t Ht) as (c & s & -> & _). specialize (IH Hok). cbn in *. lia.
  - rewrite toks_sp in *. rewrite text_sp. specialize (IH Hok). cbn in *. lia.
Qed.
Lemma pieces_read ps : spaced None ps = true -> Forall token_ok (toks ps) -> tokenize (text ps) = Some (Ok (toks ps)).
Proof. intros Hs Hok. apply (pieces_tokenize ps _ None); [done..|]. pose proof (toks_len ps Hok). lia. Qed.

(** ** Chunks: texts that may follow an opening token and precede a closing one *)

Definition opener (p : option Token) : bool := match p with None | Some (LParen | LBracket | Minus) => true | _ => false end.
Definition closer (p : option Token) : bool :=
  match p with Some (Word _ | QuotedIdent _ | Number _ | StringLit _ | Param _ | RParen | RBracket | Star) => true | _ => false end.
Definition atom (t : Token) : bool := match t with Word _ | QuotedIdent _ | Number _ | StringLit _ | Param _ | Star => true | _ => false end.
Definition chunk (ps : list piece) : Prop :=
  (forall p, opener p = true -> spaced p ps = true) /\ (forall p, closer (final p ps) = true) /\ Forall token_ok (toks ps).
(** an optional part after a blank *)
Definition trailer (ps : list piece) : Prop := ps = [] \/ exists b, ps = Sp :: b /\ chunk b.

Lemma closer_link p t : closer p = true -> match t with LParen | RParen | LBracket | RBracket | Comma => true | _ => false end = true -> link p t = true.
Proof. destruct p as [a|]; [|done]. destruct a, t; done. Qed.
Lemma opener_link p t : opener p = true -> atom t = true \/ t = LParen -> link p t = true.
Proof. destruct p as [a|]; [|done]. destruct a; try done; destruct t; by intros _ [|]. Qed.

Ltac chunky :=
  unfold parens; split_and!; intros;
  repeat first [rewrite spaced_app|rewrite final_app|rewrite toks_app|rewrite toks_tok|rewrite toks_sp|progress cbn [spaced final app]];
  repeat match goal with
  | H : chunk ?a |- context [spaced ?p ?a] => rewrite (proj1 H p) by first [reflexivity|assumption]
  | H : chunk ?a |- context [link (final ?p ?a) ?t] => rewrite (closer_link (final p a) t (proj1 (proj2 H) p) eq_refl)
  end;
  rewrite ?opener_link by (first [assumption|tauto]); cbn [link glue andb opener closer];
  try match goal with H : chunk ?a |- closer (final _ ?a) = true => apply H end; 
  change (toks []) with (@Datatypes.nil Token); repeat first [apply Forall_app_2|apply List.Forall_cons|apply List.Forall_nil];
  try match goal with H : chunk ?a |- Forall token_ok (toks ?a) => apply H end; try done.

Lemma chunk_tok t : atom t = true -> token_ok t -> chunk [T t].
Proof. intros Ha Ht. chunky; by destruct t. Qed.
Lemma chunk_parens a : chunk a -> chunk (parens a).
Proof. intros Ha. chunky. Qed.
Lemma chunk_unit : chunk (parens []).
Proof. chunky. Qed.
Lemma chunk_neg a : chunk a -> chunk (parens (T Minus :: a)).
Proof. intros Ha. chunky. Qed.
Lemma chunk_sp a b : chunk a -> chunk b -> chunk (a ++ Sp :: b).
Proof. intros Ha Hb. chunky. Qed.
Lemma chunk_op a t b : chunk a -> chunk b -> token_ok t -> chunk (a ++ Sp :: T t :: Sp :: b).
Proof. intros Ha Hb Ht. chunky. Qed.
Lemma chunk_dot a b : chunk [T (id_tok a)] -> chunk [T (id_tok b)] -> chunk [T (id_tok a); T Dot; T (id_tok b)].
Proof.
  intros (_ & _ & Ha) (_ & _ & Hb). apply Forall_cons in Ha as [Ha _]. apply Forall_cons in Hb as [Hb _]. unfold id_tok in *.
  destruct (simple_ident a), (simple_ident b); chunky.
Qed.
Lemma chunk_apply a b : chunk a -> chunk b -> chunk (a ++ parens b).
Proof. intros Ha Hb. chunky. Qed.
Lemma chunk_apply_unit a : chunk a -> chunk (a ++ parens []).
Proof. intros Ha. chunky. Qed.
Lemma chunk_distinct a : chunk a -> chunk (a ++ parens [W "DISTINCT"; Sp]).
Proof. intros Ha. chunky. split; [done|]. repeat constructor. Qed.
Lemma chunk_brackets a i : chunk a -> chunk i -> chunk (a ++ T LBracket :: i ++ [T RBracket]).
Proof. intros Ha Hi. chunky. Qed.
Lemma chunk_brackets_unit a : chunk a -> chunk (a ++ [T LBracket; T RBracket]).
Proof. intros Ha. chunky. Qed.
Lemma chunk_comma a b : chunk a -> chunk b -> chunk (a ++ [T Comma; Sp] ++ b).
Proof. intros Ha Hb. chunky. Qed.
Lemma chunk_commas l : l <> [] -> Forall chunk l -> chunk (commas l).
Proof.
  intros N H. induction H as [|x l Hx Hl IH]; [done|]. destruct l as [|y l]; [exact Hx|]. apply chunk_comma; [done|]. by apply IH.
Qed.
Lemma chunk_trailer a b : chunk a -> trailer b -> chunk (a ++ b).
Proof. intros Ha [->|(b' & -> & Hb)]; [by rewrite app_nil_r|by apply chunk_sp]. Qed.
Lemma trailer_app a b : trailer a -> trailer b -> trailer (a ++ b).
Proof. intros [->|(a' & -> & Ha)] Hb; [done|]. right. eexists. split; [reflexivity|]. by apply chunk_trailer. Qed.
Lemma trailer_concat l : Forall trailer l -> trailer (concat l).
Proof. induction 1 as [|x l Hx Hl IH]; [by left|]. by apply trailer_app. Qed.
Lemma trailer_chunk a : chunk a -> trailer (Sp :: a).
Proof. intros Ha. right. eauto. Qed.

(** ** Tokens of the parts *)

Lemma word_token w : word_ok w = true -> token_ok (Word w).
Proof.
  destruct w as [|c w]; [done|]. intros [Hc Hw]%andb_prop. split; [done|]. apply Is_true_true, forallb_True in Hw.
  eapply Forall_impl; [exact Hw|]. intros b. by apply Is_true_true.
Qed.
Lemma number_token s : number_ok s = true -> token_ok (Number s).
Proof. destruct s as [|c s]; [done|]. intros [Hc Hs]%andb_prop. by apply bool_decide_eq_true in Hs. Qed.
Lemma int_number i : 0 <= i < 2 ^ 64 -> number_ok (i64_display i) = true.
Proof.
  intros Hi. destruct (u64_display_digits i Hi) as (ds & -> & D & N & _).
  assert (forall ds, Forall is_digit ds -> scan_number false false (digit_char <$> ds) = (digit_char <$> ds, [])) as Hs.
  { clear. induction 1 as [|d ds Hd H IH]; [done|]. cbn [fmap list_fmap scan_number]. unfold is_digit in Hd.
    unfold is_ascii_digit at 1, digit_char at 1 2. ztrue (48 <=? 48 + d). ztrue (48 + d <=? 57). cbn [andb]. by rewrite IH. }
  destruct ds as [|d ds]; [done|]. pose proof (Hs _ D) as E. apply Forall_cons in D as [Hd _]. cbn [fmap list_fmap number_ok] in *.
  rewrite bool_decide_true by exact E. unfold is_digit in Hd. unfold is_ascii_digit, digit_char. ztrue (48 <=? 48 + d). by ztrue (48 + d <=? 57).
Qed.
Lemma id_token name : ascii_name name = true -> token_ok (id_tok name).
Proof.
  intros Ha. unfold id_tok. destruct (simple_ident name) eqn:E.
  - apply word_token. destruct name as [|c name]; [done|]. cbn [simple_ident] in E. apply andb_prop in E as [Hc Hn]. cbn [word_ok].
    apply andb_true_intro. split; [unfold word_start, is_ascii_alphabetic; destruct (c =? 95); [done|]; cbn in Hc; rewrite Hc; by rewrite orb_true_r|].
    rewrite forallb_forall in *. intros b Hb. specialize (Hn b Hb). unfold word_char, is_ascii_alphanumeric, is_ascii_alphabetic.
    destruct (b =? 95), (is_ascii_lower b), (is_ascii_digit b); try done; by rewrite ?orb_true_r.
  - apply Is_true_true, forallb_True in Ha. eapply Forall_impl; [exact Ha|]. intros b [H1 H2]%Is_true_true%andb_prop. lia.
Qed.
Lemma simple_ascii name : simple_ident name = true -> ascii_name name = true.
Proof.
  destruct name as [|c name]; [done|]. cbn [simple_ident]. intros [_ H]%andb_prop. unfold ascii_name. rewrite forallb_forall in *.
  intros b Hb. specialize (H b Hb). unfold is_ascii_lower, is_ascii_digit in H. zb; lia.
Qed.
Lemma chunk_id name : ascii_name name = true -> chunk [T (id_tok name)].
Proof. intros H. apply chunk_tok; [unfold id_tok; by destruct (simple_ident name)|by apply id_token]. Qed.
Lemma chunk_word w : word_ok (lit w) = true -> chunk [W w].
Proof. intros H. apply chunk_tok; [done|by apply word_token]. Qed.
Lemma op_token op : token_ok (op_tok op).
Proof. destruct op as [| | | | | | | |[]|[]| | | | | | | | | |[]|[]]; try exact I; by apply word_token. Qed.

Create HintDb chunks.
#[local] Hint Resolve chunk_id chunk_word chunk_parens chunk_unit chunk_neg chunk_apply chunk_apply_unit chunk_brackets chunk_brackets_unit
  chunk_trailer trailer_app trailer_concat trailer_chunk op_token : chunks.
#[local] Hint Extern 1 (word_ok _ = true) => reflexivity : chunks.

Lemma chunk_kw w a : word_ok (lit w) = true -> chunk a -> chunk (W w :: Sp :: a).
Proof. intros Hw Ha. apply (chunk_sp [W w] a); auto with chunks. Qed.
Lemma chunk_ids names : names <> [] -> forallb ascii_name names = true -> chunk (commas ((fun n => [T (id_tok n)]) <$> names)).
Proof.
  intros N H. apply chunk_commas; [by destruct names|]. apply Forall_fmap. apply Is_true_true, forallb_True in H.
  eapply Forall_impl; [exact H|]. intros n Hn%Is_true_true. cbn. auto with chunks.
Qed.
Lemma trailer_columns names : forallb ascii_name names = true -> trailer (columns_pc names).
Proof. intros H. destruct names as [|n names]; [by left|]. apply trailer_chunk. apply chunk_parens, chunk_ids; done. Qed.
Lemma trailer_alias a : match a with Some a => ascii_name a | None => true end = true -> trailer (alias_pc a).
Proof. destruct a; [|by left]. intros H. apply trailer_chunk. apply chunk_kw; auto with chunks. Qed.
Lemma chunk_aliases a cols : chunk a -> forallb ascii_name cols = true -> chunk (a ++ aliases_pc cols).
Proof. intros Ha H. destruct cols as [|c cols]; [by rewrite app_nil_r|]. apply chunk_apply; [done|]. by apply chunk_ids. Qed.
Lemma chunk_not_words n l : l <> [] -> Forall (fun w => word_ok (lit w) = true) l -> chunk (not_words n l).
Proof.
  intros N H. assert (chunk (words l)) as Hw.
  { induction H as [|w l Hw H IH]; [done|]. destruct l as [|v l]; [by apply chunk_word|]. apply chunk_kw; [done|]. by apply IH. }
  destruct n; [|done]. destruct l as [|w l]; [done|]. by apply chunk_kw.
Qed.
Lemma chunk_type t : chunk (type_words t).
Proof. destruct t; first [by apply chunk_word|by apply (chunk_not_words false); [|repeat constructor]|apply chunk_tok; [done|by apply word_token]]. Qed.

Section lexing.
Context {X : Type} (xpc : X -> list piece).
Abbreviation E := (Expr (Select X)).
Abbreviation epc := (expr_pc (select_pc xpc)).
Definition lex_e (e : E) : Prop := chunk (epc e).
Definition lex_s (s : Select X) : Prop := chunk (select_pc xpc s).
Definition lex_t (s : Statement X) : Prop := chunk (statement_pc xpc s).

Lemma lex_commas {A} (f : A -> list piece) (l : list A) : l <> [] -> Forall (fun x => chunk (f x)) l -> chunk (commas (f <$> l)).
Proof. intros N H. apply chunk_commas; [by destruct l|]. by apply Forall_fmap. Qed.
Lemma lex_paren es : Forall lex_e es -> chunk (paren_pc epc es).
Proof. intros H. destruct es as [|e es]; [apply chunk_unit|]. by apply chunk_parens, lex_commas. Qed.
Lemma lex_apply a es : chunk a -> Forall lex_e es -> chunk (a ++ paren_pc epc es).
Proof. intros Ha H. destruct es as [|e es]; [by apply chunk_apply_unit|]. by apply chunk_apply, lex_commas. Qed.
Lemma lex_order items : items <> [] -> Forall lex_e (o_expr <$> items) -> chunk (commas (order_item_pc epc <$> items)).
Proof.
  intros N H. apply lex_commas; [done|]. rewrite Forall_fmap in H. eapply Forall_impl; [exact H|]. intros [e []] He; change (lex_e e) in He; unfold order_item_pc.
  - by rewrite app_nil_r.
  - apply chunk_sp; auto with chunks.
Qed.
Lemma lex_window w : Forall lex_e (over_kids w) -> chunk (parens (window_pc epc w)).
Proof.
  destruct w as [p o]. cbn [over_kids]. intros [Hp Ho]%Forall_app. unfold window_pc.
  destruct p as [|e p], o as [|i o]; cbn [app words]; [apply chunk_unit|..]; rewrite ?app_nil_r; apply chunk_parens.
  - do 2 (apply chunk_kw; [done|]). by apply lex_order.
  - do 2 (apply chunk_kw; [done|]). by apply lex_commas.
  - do 2 (apply chunk_kw; [done|]). apply (chunk_sp (commas _)); [by apply lex_commas|].
    do 2 (apply chunk_kw; [done|]). by apply lex_order.
Qed.
Lemma lex_call name args star distinct filter over :
  word_ok name = true -> Forall lex_e (args ++ opt filter ++ concat (over_kids <$> opt over)) ->
  chunk (call_pc epc name args star distinct filter over).
Proof.
  intros Hn [Ha [Hf Ho]%Forall_app]%Forall_app. unfold call_pc.
  assert (chunk [T (Word name)]) as Cn by (apply chunk_tok; [done|by apply word_token]).
  assert (trailer (maybe (fun f => [Sp; W "FILTER"; Sp; T LParen; W "WHERE"; Sp] ++ epc f ++ [T RParen]) filter)) as Tf.
  { destruct filter as [f|]; [|by left]. apply Forall_cons in Hf as [Hf _]. apply trailer_chunk. apply chunk_kw; [done|].
    apply (chunk_parens (W "WHERE" :: Sp :: epc f)), chunk_kw; done. }
  assert (trailer (maybe (fun spec => [Sp; W "OVER"; Sp] ++ parens (window_pc epc spec)) over)) as To.
  { destruct over as [w|]; [|by left]. cbn [opt fmap list_fmap concat] in Ho. rewrite app_nil_r in Ho. apply trailer_chunk. apply chunk_kw; [done|]. by apply lex_window. }
  match goal with |- chunk ([T (Word name); T LParen] ++ ?in_ ++ [T RParen] ++ ?t1 ++ ?t2) =>
    replace ([T (Word name); T LParen] ++ in_ ++ [T RParen] ++ t1 ++ t2) with (([T (Word name)] ++ parens in_) ++ t1 ++ t2)
      by (unfold parens; by rewrite <- !app_assoc) end.
  apply chunk_trailer; [|by apply trailer_app]. destruct star; [apply chunk_apply; [done|by apply chunk_tok]|].
  destruct distinct, args as [|a args]; cbn [app].
  - apply (chunk_distinct [T (Word name)]). done.
  - apply (chunk_apply [T (Word name)]); [done|]. apply chunk_kw; [done|]. by apply lex_commas.
  - by apply (chunk_apply_unit [T (Word name)]).
  - apply (chunk_apply [T (Word name)]); [done|]. by apply lex_commas.
Qed.

Lemma lex_whens ws : Forall lex_e (concat ((fun w => [w.1; w.2]) <$> ws)) -> trailer (concat (when_pc epc <$> ws)).
Proof.
  intros H. apply trailer_concat, Forall_fmap. induction ws as [|[c r] ws IH]; [done|]. cbn [fmap list_fmap concat app] in H.
  apply Forall_cons in H as [Hc [Hr H]%Forall_cons]. constructor; [|by apply IH]. apply trailer_chunk. apply chunk_kw; [done|].
  apply (chunk_sp (epc c)); [done|]. by apply chunk_kw.
Qed.

Lemma lex_expr e : expr_ok e = true -> Forall lex_e (expr_kids e) -> Forall lex_s (expr_queries e) -> lex_e e.
Proof.
  intros Hok HE HQ. unfold lex_e. destruct e; cbn [expr_kids expr_queries expr_ok] in *; cbn [expr_pc].
  all: repeat match goal with H : Forall _ (_ :: _) |- _ => apply Forall_cons in H as [? H] | H : Forall _ [] |- _ => clear H end.
  all: unfold lex_e, lex_s in *.
  - (* Int *) apply andb_prop in Hok as [H1 H2]. apply chunk_tok; [done|]. apply number_token, int_number. lia.
  - (* Float *) apply andb_prop in Hok as [[H1 _]%andb_prop _]. apply chunk_tok; [done|]. by apply number_token.
  - by apply chunk_tok.
  - destruct b; by apply chunk_word.
  - by apply chunk_word.
  - apply chunk_tok; [done|]. apply andb_prop in Hok as [H1 H2]. cbn. lia.
  - apply andb_prop in Hok as [H1 _]. by apply chunk_id.
  - apply andb_prop in Hok as [[H1 _]%andb_prop H2]. apply chunk_dot; [|by apply chunk_id]. apply chunk_id. by apply simple_ascii.
  - destruct op; [by apply chunk_neg|]. apply chunk_parens, chunk_kw; done.
  - apply chunk_parens. apply chunk_op; auto with chunks.
  - apply chunk_parens. apply (chunk_op _ _ (W _ :: Sp :: paren_pc epc list)); auto with chunks. apply chunk_kw; [by destruct k|by apply lex_paren].
  - by apply (lex_apply [W "ROW"]); [apply chunk_word|].
  - destruct items as [|i items]; [by apply (chunk_brackets_unit [W "ARRAY"]), chunk_word|].
    apply (chunk_brackets [W "ARRAY"]); [by apply chunk_word|by apply lex_commas].
  - apply chunk_parens. apply (chunk_sp _ (W "IS" :: Sp :: _)); [done|]. apply chunk_kw; [done|]. apply chunk_not_words; [done|repeat constructor].
  - apply chunk_parens. apply (chunk_sp _ (W "IS" :: Sp :: _)); [done|]. apply chunk_kw; [done|]. apply chunk_sp; [|done].
    apply chunk_not_words; [done|repeat constructor].
  - apply chunk_parens. apply (chunk_sp _ (not_words _ _ ++ _)); [done|]. apply chunk_sp; [|done]. destruct ci; apply chunk_not_words; try done; repeat constructor.
  - apply chunk_parens. apply (chunk_sp _ (not_words _ _ ++ _)); [done|]. apply chunk_sp; [|by apply lex_paren]. apply chunk_not_words; try done; repeat constructor.
  - apply chunk_parens. apply (chunk_sp _ (not_words _ _ ++ _)); [done|]. apply chunk_sp; [apply chunk_not_words; try done; repeat constructor|].
    apply chunk_sp; [done|]. by apply chunk_kw.
  - apply Forall_app in HE as [Ho [Hw He]%Forall_app]. apply lex_whens in Hw.
    assert (trailer (maybe (fun o => [Sp] ++ epc o) operand)) as To.
    { destruct operand; [|by left]. apply Forall_cons in Ho as [Ho _]. by apply trailer_chunk. }
    assert (trailer (maybe (fun e => [Sp; W "ELSE"; Sp] ++ epc e) else_expr)) as Te.
    { destruct else_expr; [|by left]. apply Forall_cons in He as [He _]. by apply trailer_chunk, chunk_kw. }
    apply chunk_trailer; [by apply chunk_word|]. do 3 (apply trailer_app; [done|]). by apply trailer_chunk, chunk_word.
  - apply (chunk_apply [W "CAST"]); [by apply chunk_word|]. apply chunk_sp; [done|]. apply chunk_kw; [done|]. apply chunk_type.
  - by apply chunk_parens.
  - by apply chunk_kw, chunk_parens.
  - apply chunk_parens. apply (chunk_sp _ (not_words _ _ ++ _)); [done|]. apply chunk_sp; [|by apply chunk_parens]. apply chunk_not_words; try done; repeat constructor.
  - assert (word_ok name = true -> chunk (call_pc epc name args star distinct filter over)) as HC by (intros; by apply lex_call).
    destruct (str_eqb name SUBSCRIPT) eqn:En; [|apply HC; by apply andb_prop in Hok as [[-> _]%andb_prop _]].
    assert (word_ok name = true) as Hn by (by apply str_eqb_true in En as ->).
    destruct args as [|a [|i [|]]]; try by apply HC. cbn [app] in HE. apply Forall_cons in HE as [Ha [Hi _]%Forall_cons].
    by apply chunk_brackets.
Qed.

Lemma lex_clause kw e : word_ok (lit kw) = true -> Forall lex_e (opt e) -> trailer (clause_pc epc kw e).
Proof. intros Hk H. destruct e as [e|]; [|by left]. apply Forall_cons in H as [H _]. by apply trailer_chunk, chunk_kw. Qed.
Lemma lex_tref t : tref_ok t = true -> Forall lex_e (tref_kids t) -> Forall lex_s (tref_queries t) -> chunk (tref_pc (select_pc xpc) t).
Proof.
  destruct t as [schema name args alias sub lateral only cols ord]. cbn [tref_kids tref_queries tref_pc tref_ok]. intros Hok HE HS.
  apply andb_prop in Hok as [[[[_ Hc]%andb_prop _]%andb_prop Ha]%andb_prop Hs]. apply trailer_alias in Ha.
  match goal with |- chunk (_ ++ ?body) => assert (chunk body) as Hb end; [|by destruct lateral; [apply chunk_kw|]].
  destruct sub as [s|].
  - apply Forall_cons in HS as [HS _]. rewrite app_assoc. apply chunk_aliases; [|done]. apply chunk_trailer; [by apply chunk_parens|done].
  - rewrite !app_assoc. apply chunk_aliases; [|done]. apply chunk_trailer; [|done].
    apply chunk_trailer; [|destruct ord; [apply trailer_chunk, chunk_kw; [done|by apply chunk_word]|by left]].
    assert (chunk (maybe (fun s => [T (id_tok s); T Dot]) schema ++ [T (id_tok name)])) as Hn.
    { unfold table_name_ok in Hs. destruct schema as [s|]; cbn [maybe app].
      - apply andb_prop in Hs as [[H1 _]%andb_prop H2]. by apply chunk_dot; apply chunk_id.
      - apply andb_prop in Hs as [H1 _]. by apply chunk_id. }
    destruct args as [|a args]; [by rewrite app_nil_r|]. by apply lex_apply.
Qed.
Lemma lex_joins js : forallb join_ok js = true -> Forall lex_e (concat (join_kids <$> js)) -> Forall lex_s (concat (join_queries <$> js)) ->
  trailer (concat (join_pc (select_pc xpc) <$> js)).
Proof.
  intros Hok HE HS. apply trailer_concat, Forall_fmap. induction js as [|[k t on] js IH]; [done|].
  cbn [fmap list_fmap concat join_kids join_queries] in *. apply Forall_app in HE as [[Ht Ho]%Forall_app HE]. apply Forall_app in HS as [Qt HS].
  apply andb_prop in Hok as [[Hk Hon]%andb_prop Hok]. constructor; [|by apply IH]. cbn. apply trailer_chunk.
  apply (chunk_sp (join_words k)); [destruct k; by apply (chunk_not_words false); [|repeat constructor]|].
  apply chunk_trailer; [by apply lex_tref|by apply lex_clause].
Qed.
Lemma lex_from kw f : word_ok (lit kw) = true -> match f with Some f => from_ok f | None => true end = true ->
  Forall lex_e (concat (from_kids <$> opt f)) -> Forall lex_s (concat (from_queries <$> opt f)) -> trailer (from_clause_pc (select_pc xpc) kw f).
Proof.
  intros Hk Hok HE HS. destruct f as [[b js]|]; [|by left]. cbn in HE, HS. rewrite app_nil_r in HE, HS.
  apply Forall_app in HE as [Eb Ej]. apply Forall_app in HS as [Sb Sj]. apply andb_prop in Hok as [Hb Hj].
  apply trailer_chunk, chunk_kw; [done|]. apply chunk_trailer; [by apply lex_tref|by apply lex_joins].
Qed.
Lemma lex_group g sets : Forall lex_e (g ++ concat sets) -> trailer (group_pc epc g sets).
Proof.
  intros [Hg Hs]%Forall_app. unfold group_pc. destruct g as [|e g].
  - destruct sets as [|s sets]; [by left|]. apply trailer_chunk. do 4 (apply chunk_kw; [done|]). apply chunk_parens, lex_commas; [done|].
    rewrite Forall_concat in Hs. eapply Forall_impl; [exact Hs|]. intros l. apply lex_paren.
  - apply trailer_chunk. do 2 (apply chunk_kw; [done|]). by apply lex_commas.
Qed.
Lemma lex_items l : l <> [] -> forallb item_ok l = true -> Forall lex_e (concat (item_kids <$> l)) -> chunk (commas (item_pc epc <$> l)).
Proof.
  intros N Hok H. apply lex_commas; [done|]. clear N. induction l as [|i l IH]; [done|]. cbn [fmap list_fmap concat] in H. apply Forall_app in H as [Hi H].
  apply andb_prop in Hok as [Ho Hok]. constructor; [|by apply IH]. destruct i as [|e [a|]]; cbn in Hi |- *; [by apply chunk_tok|..]; apply Forall_cons in Hi as [Hi _].
  - apply chunk_sp; [done|]. apply chunk_kw; auto with chunks.
  - done.
Qed.
Lemma lex_locking l : forallb clause_ok l = true -> trailer (concat (locking_pc <$> l)).
Proof.
  intros H. apply trailer_concat, Forall_fmap. apply Is_true_true, forallb_True in H. eapply Forall_impl; [exact H|].
  intros [m ts w] Hok%Is_true_true. unfold clause_ok in Hok. cbn [rc_tables] in Hok. change (trailer (locking_pc (mk_clause m ts w))). unfold locking_pc. cbn [rc_mode rc_tables rc_wait_policy app].
  apply trailer_chunk. apply chunk_trailer; [destruct m; by apply (chunk_not_words false); [|repeat constructor]|]. apply trailer_app.
  - destruct ts as [|t ts]; [by left|]. apply trailer_chunk, chunk_kw; [done|]. by apply chunk_ids.
  - destruct w as [[]|]; [apply trailer_chunk; by apply chunk_word|apply trailer_chunk, chunk_kw; [done|by apply chunk_word]|by left].
Qed.
Lemma lex_cte r c : cte_ok r c = true -> Forall lex_s (cte_query c) -> Forall lex_t (cte_stmt c) -> chunk (cte_pc (select_pc xpc) (statement_pc xpc) c).
Proof.
  destruct c as [name cols s dml r']. cbn [cte_ok]. intros [[[[Hn _]%andb_prop Hc]%andb_prop _]%andb_prop _]%andb_prop HS HT.
  unfold cte_pc. rewrite app_assoc. apply chunk_sp; [apply chunk_trailer; [by apply chunk_id|by apply trailer_columns]|]. apply chunk_kw; [done|]. apply chunk_parens.
  destruct dml; [by apply Forall_cons in HT as [HT _]|by apply Forall_cons in HS as [HS _]].
Qed.
Lemma lex_with r ctes a : forallb (cte_ok r) ctes = true -> Forall lex_s (concat (cte_query <$> ctes)) -> Forall lex_t (concat (cte_stmt <$> ctes)) -> chunk a ->
  chunk (with_pc (select_pc xpc) (statement_pc xpc) ctes ++ a).
Proof.
  intros Hok HS HT Ha. destruct ctes as [|c ctes]; [done|]. unfold with_pc.
  assert (chunk (commas (cte_pc (select_pc xpc) (statement_pc xpc) <$> (c :: ctes)))) as Hc.
  { apply lex_commas; [done|]. revert Hok HS HT. generalize (c :: ctes). clear. induction l as [|c l IH]; [done|]. cbn [fmap list_fmap concat forallb].
    intros [H1 H2]%andb_prop [H3 H4]%Forall_app [H5 H6]%Forall_app. constructor; [by eapply lex_cte|by apply IH]. }
  destruct (existsb is_recursive (c :: ctes)); rewrite <- !app_assoc; cbn [app].
  - do 2 (apply chunk_kw; [done|]). by apply chunk_sp.
  - apply chunk_kw; [done|]. by apply chunk_sp.
Qed.
Lemma lex_set_ops ops : Forall lex_s ((fun o => match o with mk_set_op _ _ s => s end) <$> ops) -> trailer (concat (set_op_pc (select_pc xpc) <$> ops)).
Proof.
  intros H. apply trailer_concat, Forall_fmap. rewrite Forall_fmap in H. eapply Forall_impl; [exact H|]. intros [op all s] Hs. change (lex_s s) in Hs.
  cbn. apply trailer_chunk. destruct all; [apply chunk_kw; [by destruct op|]; apply chunk_kw; [done|done]|apply chunk_kw; [by destruct op|done]].
Qed.

Lemma lex_select s : select_ok s = true -> Forall lex_e (select_kids s) -> Forall lex_s (select_queries s) -> Forall lex_t (select_stmts s) -> lex_s s.
Proof.
  intros Hok HE HS HT. unfold lex_s. rewrite select_pc_eq. destruct s as [ctes distinct don proj from filter grp sets having ord limit offset locking set_ops].
  cbn [select_kids select_queries select_stmts select_body_pc select_ok] in *.
  apply Forall_app in HE as [Hdon [Hproj [Hfrom [Hfil HE]%Forall_app]%Forall_app]%Forall_app]. rewrite app_assoc in HE.
  apply Forall_app in HE as [Hg [Hhav [Hord [Hlim Hoff]%Forall_app]%Forall_app]%Forall_app].
  apply Forall_app in HS as [Qc [Qf Qs]%Forall_app].
  apply andb_prop in Hok as [[[[[[[Oc _]%andb_prop Op]%andb_prop Oi]%andb_prop Of]%andb_prop _]%andb_prop Ol]%andb_prop _].
  eapply lex_with; [done..|]. apply chunk_kw; [done|].
  assert (forall a, chunk a -> chunk (distinct_pc (select_pc xpc) distinct don ++ a)) as Hd.
  { intros a Ha. unfold distinct_pc. destruct distinct; [|done]. destruct don as [|e don]; [by apply chunk_kw|]. rewrite <- !app_assoc. cbn [app].
    do 2 (apply chunk_kw; [done|]). apply chunk_sp; [by apply lex_paren|done]. }
  apply Hd. apply chunk_trailer; [apply lex_items; [by destruct proj|done..]|].
  apply trailer_app; [by apply lex_from|]. apply trailer_app; [by apply lex_clause|]. apply trailer_app; [by apply lex_group|].
  apply trailer_app; [by apply lex_clause|]. apply trailer_app; [by apply lex_set_ops|].
  apply trailer_app. { unfold order_pc. destruct ord; [by left|]. apply trailer_chunk. do 2 (apply chunk_kw; [done|]). by apply lex_order. }
  apply trailer_app; [by apply lex_clause|]. apply trailer_app; [by apply lex_clause|]. by apply lex_locking.
Qed.

Lemma lex_assignments l : l <> [] -> forallb assignment_ok l = true -> Forall lex_e (snd <$> l) -> chunk (commas (assignment_pc epc <$> l)).
Proof.
  intros N Hok H. apply lex_commas; [done|]. clear N. induction l as [|[n e] l IH]; [done|]. cbn [fmap list_fmap] in H. apply Forall_cons in H as [He H].
  apply andb_prop in Hok as [Ho Hok]. constructor; [|by apply IH]. apply (chunk_op [T (id_tok n)]); [by apply chunk_id|done|done].
Qed.
Lemma lex_conflict c : conflict_ok c = true -> Forall lex_e (conflict_kids c) -> trailer (conflict_pc (select_pc xpc) c).
Proof.
  destruct c as [target|target asg filter]; cbn [conflict_ok conflict_kids]; intros Hok HE; apply trailer_chunk; apply chunk_kw; try done.
  - apply (chunk_trailer [W "CONFLICT"]); [by apply chunk_word|]. apply trailer_app; [by apply trailer_columns|]. apply trailer_chunk, chunk_kw; [done|by apply chunk_word].
  - apply andb_prop in Hok as [[Ht Hn]%andb_prop Ha]. apply Forall_app in HE as [Ea Ef].
    apply (chunk_trailer [W "CONFLICT"]); [by apply chunk_word|]. apply trailer_app; [by apply trailer_columns|]. apply trailer_chunk.
    do 3 (apply chunk_kw; [done|]). apply chunk_trailer; [apply lex_assignments; [by destruct asg|done..]|by apply lex_clause].
Qed.

Lemma lex_statement s : statement_ok s = true -> Forall lex_e (statement_kids s) -> Forall lex_s (statement_queries s) ->
  Forall lex_t (statement_stmts s) -> lex_t s.
Proof.
  unfold lex_t. destruct s as [[table cols dv ov rows sel conflict ret]|s|[table asg from filter ret]|[table from filter ret]|a s|x];
    cbn [statement_kids statement_queries statement_stmts statement_ok]; intros Hok HE HS HT.
  - change (chunk (insert_pc (select_pc xpc) (mk_insert table cols dv ov rows sel conflict ret))). unfold insert_pc.
    apply Forall_app in HE as [Hr Hc]. rewrite Forall_concat in Hr. apply andb_prop in Hok as [[[Ht Hcol]%andb_prop Hcon]%andb_prop Hsrc].
    do 2 (apply chunk_kw; [done|]). apply (chunk_trailer [T (id_tok table)]); [by apply chunk_id|].
    apply trailer_app. { destruct cols as [ns|]; [|by left]. apply andb_prop in Hcol as [N Hn]. apply trailer_chunk, chunk_parens, chunk_ids; [by destruct ns|done]. }
    apply trailer_app. { destruct ov; [|by left]. apply trailer_chunk. do 2 (apply chunk_kw; [done|]). by apply chunk_word. }
    apply trailer_app.
    { unfold source_pc. destruct dv; [apply trailer_chunk, chunk_kw; [done|by apply chunk_word]|].
      destruct sel as [s|]; [apply Forall_cons in HS as [HS _]; by apply trailer_chunk|]. apply trailer_chunk, chunk_kw; [done|].
      apply lex_commas; [by destruct rows|]. eapply Forall_impl; [exact Hr|]. intros r. apply lex_paren. }
    destruct conflict as [c|]; [|by left]. apply lex_conflict; [done|]. cbn in Hc. by rewrite app_nil_r in Hc.
  - by apply Forall_cons in HS as [HS _].
  - change (chunk (update_pc (select_pc xpc) (mk_update table asg from filter ret))). unfold update_pc.
    apply Forall_app in HE as [Ha [Hf Hw]%Forall_app]. apply andb_prop in Hok as [[[Ht Hn]%andb_prop Has]%andb_prop Hfr].
    apply chunk_kw; [done|]. apply (chunk_sp [T (id_tok table)]); [by apply chunk_id|]. apply chunk_kw; [done|].
    apply chunk_trailer; [apply lex_assignments; [by destruct asg|done..]|]. apply trailer_app; [by apply lex_from|by apply lex_clause].
  - change (chunk (delete_pc (select_pc xpc) (mk_delete table from filter ret))). unfold delete_pc.
    apply Forall_app in HE as [Hf Hw]. apply andb_prop in Hok as [Ht Hfr].
    do 2 (apply chunk_kw; [done|]). apply (chunk_trailer [T (id_tok table)]); [by apply chunk_id|]. apply trailer_app; [by apply lex_from|by apply lex_clause].
  - apply Forall_cons in HT as [HT _]. change (chunk ([W "EXPLAIN"; Sp] ++ (if a then [W "ANALYZE"; Sp] else []) ++ statement_pc xpc s)).
    apply chunk_kw; [done|]. destruct a; [by apply chunk_kw|done].
  - done.
Qed.
End lexing.

(** The text of a printable statement tokenizes to its tokens. *)
Theorem printed_tokens {X} (other_sql : X -> str) (xpc : X -> list piece) (s : Statement X) : ok_statement s ->
  tokenize (statement_to_sql other_sql s) = Some (Ok (toks (statement_pc xpc s))).
Proof.
  intros Hs. destruct (ok_ind (text_e other_sql xpc) (text_s other_sql xpc) (text_t other_sql xpc) (text_expr _ _) (text_select _ _) (text_statement _ _)) as (_ & _ & HT).
  destruct (ok_ind (lex_e xpc) (lex_s xpc) (lex_t xpc) (lex_expr xpc) (lex_select xpc) (lex_statement xpc)) as (_ & _ & HL).
  rewrite <- (HT s Hs). destruct (HL s Hs) as (H1 & _ & H3). apply pieces_read; [by apply H1|done].
Qed.
