(* ===== verification/ExprRead.v ===== *)
(** The expression parser reads back what the serializer writes: the tokens of a
    printable expression parse to that expression, at every binding power and in
    every context the serializer prints it in. *)

From S2P Require Import Prelude Utf8 Numeric Types Float Index Wire Hba FloatOps Datetime Json Containers LockStmt Lexer Ast Serialize Parser Printed.

#[local] Open Scope Z_scope.
#[local] Open Scope parser_scope.

(** * Running parsers *)

Lemma bind_parsed {A B} (p : parser A) (k : A -> parser B) ts a ts' : p ts = Parsed a ts' -> (let* x := p in k x) ts = k a ts'.
Proof. unfold pbind. by intros ->. Qed.

Lemma eat_hit t ts : eat t (t :: ts) = Parsed true ts.
Proof. unfold eat, next_is. by rewrite bool_decide_true. Qed.
Lemma eat_miss t ts : next_is t ts = false -> eat t ts = Parsed false ts.
Proof. unfold eat. by intros ->. Qed.
Lemma expect_hit t ts : expect t (t :: ts) = Parsed () ts.
Proof. unfold expect, next_is. by rewrite bool_decide_true. Qed.
Lemma kw_hit kw w ts : is_kw (lit kw) (Some (Word w)) = true -> eat_keyword kw (Word w :: ts) = Parsed true ts.
Proof. unfold eat_keyword. cbn [head]. by intros ->. Qed.
Lemma kw_miss kw ts : is_kw (lit kw) (head ts) = false -> eat_keyword kw ts = Parsed false ts.
Proof. unfold eat_keyword. by intros ->. Qed.
Lemma expect_kw_hit kw w ts : is_kw (lit kw) (Some (Word w)) = true -> expect_keyword kw (Word w :: ts) = Parsed () ts.
Proof. unfold expect_keyword. cbn [head]. by intros ->. Qed.
Lemma is_keyword_eq kw ts b : is_kw (lit kw) (head ts) = b -> is_keyword kw ts = Parsed b ts.
Proof. unfold is_keyword. by intros ->. Qed.
Lemma at_token_eq t ts b : next_is t ts = b -> at_token t ts = Parsed b ts.
Proof. unfold at_token. by intros ->. Qed.

Lemma ident_hit n ts : parse_ident (id_tok n :: ts) = Parsed n ts.
Proof. unfold id_tok. by destruct (simple_ident n). Qed.

(** ** Membership in keyword lists *)

Lemma mem_forall (c : str -> bool) v l : mem v l = true -> forallb c l = true -> c v = true.
Proof.
  unfold mem. intros (x & Hx & ->%str_eqb_true)%existsb_exists H. rewrite forallb_forall in H. by apply H.
Qed.
(** [v] is none of the words [l] *)
Definition not_in (l : list string) (v : str) : bool := negb (mem v (lit <$> l)).
Lemma not_in_kw l v kw : not_in l v = true -> kw ∈ l -> str_eqb v (lit kw) = false.
Proof.
  intros H Hk. apply not_true_iff_false. intros ->%str_eqb_true. apply negb_true_iff in H. apply not_true_iff_false in H. apply H.
  apply existsb_exists. exists (lit kw). split; [|by apply str_eqb_true]. apply list_elem_of_In. by apply list_elem_of_fmap_2.
Qed.

(** * What may follow *)

Definition FOLLOW : list str :=
  lit <$> ["then"; "else"; "end"; "when"; "as"; "from"; "where"; "group"; "having"; "order"; "limit"; "offset"; "for"; "union"; "intersect";
           "except"; "on"; "join"; "left"; "right"; "full"; "cross"; "desc"]%string.
(** the token after a whole expression *)
Definition expr_end (ts : list Token) : bool :=
  match ts with
  | [] => true
  | (RParen | RBracket | Comma | Semicolon) :: _ => true
  | Word w :: _ => mem (lower w) FOLLOW
  | _ => false
  end.
(** the token after an atom, suffixes aside *)
Definition inner_end (ts : list Token) : bool :=
  match ts with
  | (Dot | LParen | StringLit _) :: _ => false
  | Word w :: _ => not_in ["within"; "filter"; "over"] (lower w)
  | _ => true
  end.
(** the token after an atom with its suffixes *)
Definition atom_end (ts : list Token) : bool :=
  inner_end ts && match ts with (DoubleColon | LBracket) :: _ => false | Word w :: _ => not_in ["collate"] (lower w) | _ => true end.
(** the token that starts a printed expression *)
Definition starts (t : Token) : bool :=
  match t with
  | Number _ | StringLit _ | Param _ | QuotedIdent _ | LParen => true
  | Word w => not_in ["not"; "select"; "when"; "distinct"; "all"; "any"; "some"; "on"; "rollup"; "cube"; "grouping"] (lower w)
  | _ => false
  end.

Lemma expr_end_atom ts : expr_end ts = true -> atom_end ts = true.
Proof.
  destruct ts as [|[] ts]; try done. cbn [expr_end]. intros H. unfold atom_end. cbn [inner_end].
  by apply (mem_forall (fun v => not_in ["within"; "filter"; "over"]%string v && not_in ["collate"%string] v) _ _ H).
Qed.

Section infix.
Context {Q : Type} (expr_bp : Z -> parser (Expr Q)) (select : parser Q) (fuel : nat).

Lemma suffixes_stop n e ts : (0 < n)%nat -> atom_end ts = true -> parse_suffixes expr_bp fuel n e ts = Parsed e ts.
Proof.
  destruct n; [lia|]. intros _ [H1 H2]%andb_prop. cbn [parse_suffixes].
  rewrite (bind_parsed _ _ _ false ts) by (apply eat_miss; by destruct ts as [|[] ts]).
  rewrite (bind_parsed _ _ _ false ts) by (apply eat_miss; by destruct ts as [|[] ts]).
  rewrite (bind_parsed _ _ _ false ts); [done|]. apply kw_miss. destruct ts as [|[] ts]; try done. cbn [head is_kw]. apply (not_in_kw _ _ _ H2). by left.
Qed.

(** No infix operator starts here. *)
Definition quiet (t : option Token) : bool :=
  negb (is_kw (lit "is") t) && negb (is_kw (lit "not") t) && negb (existsb (fun kw => is_kw kw t) PREDICATES)
  && negb (is_kw (lit "operator") t) && none (binary_op t).
Lemma quiet_stop n bp e ts : (0 < n)%nat -> quiet (head ts) = true -> parse_infix expr_bp select fuel n bp e ts = Parsed e ts.
Proof.
  destruct n; [lia|]. intros _ H. unfold quiet in H.
  apply andb_prop in H as [[[[H1 H2]%andb_prop H3]%andb_prop H4]%andb_prop H5]. apply negb_true_iff in H1, H2, H3, H4. cbn [parse_infix].
  rewrite (bind_parsed _ _ _ false ts) by (by apply is_keyword_eq).
  rewrite (bind_parsed _ _ _ false ts) by (unfold at_predicate; rewrite H2; rewrite <- head_lookup; by rewrite H3).
  rewrite (bind_parsed _ _ _ false ts) by (by apply is_keyword_eq).
  rewrite (bind_parsed _ _ _ (head ts) ts) by done. by destruct (binary_op (head ts)).
Qed.
Lemma expr_end_quiet ts : expr_end ts = true -> quiet (head ts) = true.
Proof.
  destruct ts as [|[] ts]; try done. cbn [expr_end head]. intros H. unfold quiet. cbn [is_kw binary_op].
  apply (mem_forall (fun v => negb (str_eqb v (lit "is")) && negb (str_eqb v (lit "not")) && negb (existsb (fun kw => str_eqb v kw) PREDICATES)
    && negb (str_eqb v (lit "operator")) && none (if str_eqb v (lit "and") then Some And else if str_eqb v (lit "or") then Some Or else None)) _ _ H).
  vm_compute. reflexivity.
Qed.
Lemma infix_stop n bp e ts : (0 < n)%nat -> expr_end ts = true -> parse_infix expr_bp select fuel n bp e ts = Parsed e ts.
Proof. intros Hn H. apply quiet_stop; [done|]. by apply expr_end_quiet. Qed.
End infix.

(** ** Starts of expressions *)

Definition STARTS : list string := ["not"; "select"; "when"; "distinct"; "all"; "any"; "some"; "on"; "rollup"; "cube"; "grouping"]%string.
Definition begins (ts : list Token) : Prop := exists h tl, ts = h :: tl /\ starts h = true.
Lemma begins_kw ts rest kw : begins ts -> kw ∈ STARTS -> is_kw (lit kw) (head (ts ++ rest)) = false.
Proof. intros (h & tl & -> & H) Hk. destruct h; try done. cbn [app head is_kw]. by apply (not_in_kw _ _ _ H). Qed.
Lemma begins_next ts rest t : begins ts -> starts t = false -> next_is t (ts ++ rest) = false.
Proof. intros (h & tl & -> & H) Ht. cbn [app next_is]. apply bool_decide_eq_false. intros ->. congruence. Qed.
Lemma begins_app ts rest : begins ts -> begins (ts ++ rest).
Proof. intros (h & tl & -> & H). by exists h, (tl ++ rest). Qed.

(** Evaluates keyword tests on literal words. *)
Ltac closed_kw :=
  repeat match goal with
  | |- context [is_kw (lit ?k) (Some (Word (lit ?w)))] => let v := eval vm_compute in (is_kw (lit k) (Some (Word (lit w)))) in progress change (is_kw (lit k) (Some (Word (lit w)))) with v
  end.
Ltac in_list := first [by left|right; in_list].
(** Solves [p ts = Parsed ?a ?ts'] for the primitive parsers. *)
Ltac kw_test :=
  lazymatch goal with
  | |- is_kw _ (head (Word (lit _) :: _)) = _ => vm_compute; reflexivity
  | |- is_kw _ (Some (Word (lit _))) = _ => vm_compute; reflexivity
  | |- is_kw _ (head (_ :: _)) = _ => first [eassumption|reflexivity]
  | |- is_kw _ (head []) = _ => reflexivity
  | |- is_kw _ (head (_ ++ _)) = _ => first [eassumption|apply begins_kw; [eassumption|in_list]]
  | |- is_kw _ (head _) = _ => eassumption
  end.
Ltac next_test :=
  lazymatch goal with
  | |- next_is _ (_ :: _) = _ => first [eassumption|reflexivity]
  | |- next_is _ [] = _ => reflexivity
  | |- next_is _ (_ ++ _) = _ => first [eassumption|apply begins_next; [eassumption|reflexivity]]
  | |- next_is _ _ = _ => eassumption
  end.
Ltac prim :=
  lazymatch goal with
  | |- eat ?t (?t :: _) = _ => apply eat_hit
  | |- eat _ _ = _ => apply eat_miss; next_test
  | |- expect _ _ = _ => apply expect_hit
  | |- eat_keyword _ (Word _ :: _) = _ => first [apply kw_hit; kw_test|apply kw_miss; kw_test]
  | |- eat_keyword _ _ = _ => apply kw_miss; kw_test
  | |- expect_keyword _ _ = _ => apply expect_kw_hit; kw_test
  | |- is_keyword _ _ = _ => apply is_keyword_eq; kw_test
  | |- at_token _ _ = _ => apply at_token_eq; next_test
  | |- parse_ident _ = _ => apply ident_hit
  | |- pret _ _ = _ => reflexivity
  | |- advance _ = _ => reflexivity
  | |- peek _ = _ => reflexivity
  end.
Ltac step :=
  lazymatch goal with
  | |- pbind ?p ?k ?ts = _ =>
      let H := fresh in eassert (p ts = Parsed _ _) as H; [solve [prim]|]; rewrite (bind_parsed p k ts _ _ H); clear H; cbv beta iota; cbn [orb andb negb]
  end.
Ltac steps := repeat step.
Tactic Notation "run" tactic3(t) := (erewrite bind_parsed; [|t]; cbv beta iota).

(** ** Lists *)

Fixpoint tcommas (l : list (list Token)) : list Token :=
  match l with [] => [] | [x] => x | x :: l => x ++ Comma :: tcommas l end.
Lemma toks_commas {A} (f : A -> list piece) l : toks (commas (f <$> l)) = tcommas ((fun x => toks (f x)) <$> l).
Proof.
  induction l as [|x l IH]; [done|]. destruct l as [|y l]; [done|].
  change (toks (f x ++ [T Comma; Sp] ++ commas (f <$> (y :: l))) = toks (f x) ++ Comma :: tcommas ((fun x => toks (f x)) <$> (y :: l))).
  rewrite toks_app. f_equal. cbn [app]. rewrite toks_tok, toks_sp. f_equal. exact IH.
Qed.
Lemma comma_list_ok {A} (p : parser A) (tk : A -> list Token) M rest : next_is Comma rest = false -> forall l n,
  l <> [] -> (length (tcommas (tk <$> l) ++ rest) <= M)%nat -> (length (tcommas (tk <$> l) ++ rest) < n)%nat ->
  Forall (fun x => forall r, r = rest \/ head r = Some Comma -> (length (tk x ++ r) <= M)%nat -> p (tk x ++ r) = Parsed x r) l ->
  comma_list n p (tcommas (tk <$> l) ++ rest) = Parsed l rest.
Proof.
  intros Hr l. induction l as [|x l IH]; [done|]. intros n _ LM Ln F. apply Forall_cons in F as [Hx F]. destruct n as [|n]; [lia|].
  cbn [comma_list]. destruct l as [|y l].
  - change (tcommas (tk <$> [x])) with (tk x) in *. erewrite bind_parsed; [|apply Hx; [by left|done]]. by rewrite (bind_parsed _ _ _ _ _ (eat_miss _ _ Hr)).
  - change (tcommas (tk <$> (x :: y :: l))) with (tk x ++ Comma :: tcommas (tk <$> (y :: l))) in *. rewrite <- app_assoc in *. cbn [app] in *.
    rewrite length_app in LM, Ln. cbn [length] in LM, Ln.
    erewrite bind_parsed; [|apply Hx; [by right|rewrite length_app; cbn [length]; lia]]. rewrite (bind_parsed _ _ _ _ _ (eat_hit _ _)).
    erewrite bind_parsed; [|apply IH; [done|lia|lia|done]]. done.
Qed.
Lemma tcommas_begins {A} (tk : A -> list Token) l : l <> [] -> Forall (fun x => begins (tk x)) l -> begins (tcommas (tk <$> l)).
Proof. intros N F. destruct F as [|x l Hx F]; [done|]. destruct l; [exact Hx|]. cbn [fmap list_fmap tcommas]. by apply begins_app. Qed.

Ltac len := cbn [tail] in *; repeat (rewrite ?length_app in *; cbn [length app] in *); lia.
Ltac norm := repeat (rewrite <- ?app_assoc in *; cbn [app] in *).
Ltac words_eval :=
  repeat match goal with |- context [str_eqb (lower (lit ?a)) (lit ?b)] => let v := eval vm_compute in (str_eqb (lower (lit a)) (lit b)) in progress change (str_eqb (lower (lit a)) (lit b)) with v end;
  cbv beta iota zeta; cbn [andb orb negb].

(** * Expressions *)

Section reading.
Context {X : Type} (other : parser X) (xpc : X -> list piece).
Abbreviation E := (Expr (Select X)).
Abbreviation eb f := (fun (bp : Z) (ts : list Token) => parse_expr_bp other f bp ts).
Abbreviation sel f := (fun (ts : list Token) => parse_select other f ts).
Abbreviation stm f := (fun (ts : list Token) => parse_statement other f ts).
Abbreviation epc := (expr_pc (select_pc xpc)).
Definition te (e : E) : list Token := toks (epc e).
Definition tq (s : Select X) : list Token := toks (select_pc xpc s).
Definition tt' (s : Statement X) : list Token := toks (statement_pc xpc s).

Definition atom_reads (e : E) : Prop :=
  forall f rest, (length (te e ++ rest) <= f)%nat -> inner_end rest = true ->
  exists k, (length rest < k)%nat /\ parse_atom (eb f) (sel f) (S f) (te e ++ rest) = parse_suffixes (eb f) (S f) k e rest.
Definition reads (e : E) : Prop := begins (te e) /\ atom_reads e.

Lemma expr_bp_eq f bp ts : parse_expr_bp other (S f) bp ts = expr_bp_body (eb f) (sel f) (S f) bp ts.
Proof. done. Qed.

(** An atom, up to the infix operator after it. *)
Lemma reads_infix e bp f rest : reads e -> (length (te e ++ rest) <= f)%nat -> atom_end rest = true ->
  parse_expr_bp other (S f) bp (te e ++ rest) = parse_infix (eb f) (sel f) (S f) (S f) bp e rest.
Proof.
  intros [B A] L H. rewrite expr_bp_eq. unfold expr_bp_body. pose proof H as [Hi _]%andb_prop.
  destruct (A f rest L Hi) as (k & Hk & Ha). rewrite suffixes_stop in Ha by (done || lia).
  apply bind_parsed. unfold parse_prefix. steps. exact Ha.
Qed.
(** A whole expression. *)
Lemma reads_expr e bp f rest : reads e -> (length (te e ++ rest) < f)%nat -> expr_end rest = true ->
  parse_expr_bp other f bp (te e ++ rest) = Parsed e rest.
Proof.
  intros R L H. destruct f as [|f]; [lia|]. rewrite reads_infix; [|done|lia|by apply expr_end_atom]. apply infix_stop; [lia|done].
Qed.
Lemma reads_list es f rest : Forall reads es -> es <> [] -> (length (tcommas (te <$> es) ++ rest) < f)%nat -> expr_end rest = true -> next_is Comma rest = false ->
  comma_list (S f) (parse_expr (eb f)) (tcommas (te <$> es) ++ rest) = Parsed es rest.
Proof.
  intros F N L He Hc. apply (comma_list_ok _ te (pred f)); [done..|lia|lia|]. eapply Forall_impl; [exact F|]. intros e R r Hr Lr.
  apply reads_expr; [done|destruct f; lia|]. destruct Hr as [->|Hr]; [done|]. destruct r as [|[] r]; done.
Qed.
Lemma reads_begins es : Forall reads es -> Forall (fun e => begins (te e)) es.
Proof. intros F. eapply Forall_impl; [exact F|]. by intros e [B _]. Qed.
Lemma reads_until es f rest t : Forall reads es -> (length (tcommas (te <$> es) ++ t :: rest) < f)%nat -> t = RParen \/ t = RBracket ->
  list_until (S f) (parse_expr (eb f)) t (tcommas (te <$> es) ++ t :: rest) = Parsed es rest.
Proof.
  intros F L Ht. unfold list_until. destruct es as [|e es].
  - cbn [fmap list_fmap tcommas app]. rewrite (bind_parsed _ _ _ true (t :: rest)) by (apply at_token_eq; cbn; by rewrite bool_decide_true). steps. done.
  - pose proof (tcommas_begins te (e :: es) ltac:(done) (reads_begins _ F)) as B.
    rewrite (bind_parsed _ _ _ false _) by (apply at_token_eq, begins_next; [done|by destruct Ht; subst]).
    erewrite bind_parsed; [|apply reads_list; [done|done|done|by destruct Ht; subst|by destruct Ht; subst]]. steps. done.
Qed.

(** ** Atoms *)

Lemma inner_reads e f rest : (length rest <= f)%nat ->
  parse_atom_inner (eb f) (sel f) (S f) (te e ++ rest) = Parsed e rest ->
  exists k, (length rest < k)%nat /\ parse_atom (eb f) (sel f) (S f) (te e ++ rest) = parse_suffixes (eb f) (S f) k e rest.
Proof. intros L H. exists (S f). split; [lia|]. unfold parse_atom. by rewrite (bind_parsed _ _ _ _ _ H). Qed.

(** A parenthesized expression that is read inside its parentheses. *)
Lemma paren_reads e ts f rest : is_kw (lit "select") (head (ts ++ RParen :: rest)) = false ->
  parse_expr_bp other f 0 (ts ++ RParen :: rest) = Parsed e (RParen :: rest) ->
  parse_atom_inner (eb f) (sel f) (S f) (LParen :: ts ++ RParen :: rest) = Parsed e rest.
Proof.
  intros H1 H2. cbn [parse_atom_inner]. unfold parse_paren. step. erewrite bind_parsed; [|exact H2]. steps. done.
Qed.

(** ** Tokens of each node *)

Lemma toks_nil : toks [] = [].
Proof. done. Qed.
Lemma toks_word w ps : toks (W w :: ps) = Word (lit w) :: toks ps.
Proof. done. Qed.
Definition nots (n : bool) : list Token := if n then [Word (lit "NOT")] else [].
Lemma toks_not_words n l : toks (not_words n l) = nots n ++ toks (words l).
Proof. destruct n; [|done]. by destruct l. Qed.
Lemma toks_paren es : toks (paren_pc epc es) = LParen :: tcommas (te <$> es) ++ [RParen].
Proof. unfold paren_pc, parens. by rewrite !toks_app, toks_commas. Qed.
Ltac tk :=
  unfold parens; repeat first [rewrite toks_app|rewrite toks_tok|rewrite toks_sp|rewrite toks_word|rewrite toks_nil|rewrite toks_not_words|rewrite toks_paren|progress cbn [app words]];
  rewrite ?toks_commas; repeat change (toks (epc ?e)) with (te e); repeat change (toks (select_pc xpc ?q)) with (tq q);
  repeat (rewrite <- ?app_assoc; cbn [app]).

Lemma te_unary op e : te (EUnary op e) = LParen :: (match op with Neg => Minus | Not => Word (lit "NOT") end) :: te e ++ [RParen].
Proof. unfold te at 1. destruct op; cbn [expr_pc]; by tk. Qed.
Lemma te_binary op l r : te (EBinary op l r) = LParen :: te l ++ op_tok op :: te r ++ [RParen].
Proof. unfold te at 1. cbn [expr_pc]. by tk. Qed.
Lemma te_quantified l op k es : te (EQuantified l op k es) = LParen :: te l ++ op_tok op :: Word (lit (quantifier_word k)) :: LParen :: tcommas (te <$> es) ++ [RParen; RParen].
Proof. unfold te at 1. cbn [expr_pc]. by tk. Qed.
Lemma te_row es : te (ERow es) = Word (lit "ROW") :: LParen :: tcommas (te <$> es) ++ [RParen].
Proof. unfold te at 1. cbn [expr_pc]. by tk. Qed.
Lemma te_array es : te (EArray es) = Word (lit "ARRAY") :: LBracket :: tcommas (te <$> es) ++ [RBracket].
Proof. unfold te at 1. cbn [expr_pc]. by tk. Qed.
Lemma te_is_null e n : te (EIsNull e n) = LParen :: te e ++ Word (lit "IS") :: nots n ++ [Word (lit "NULL"); RParen].
Proof. unfold te at 1. cbn [expr_pc]. by tk. Qed.
Lemma te_is_distinct l r n : te (EIsDistinct l r n) = LParen :: te l ++ Word (lit "IS") :: nots n ++ Word (lit "DISTINCT") :: Word (lit "FROM") :: te r ++ [RParen].
Proof. unfold te at 1. cbn [expr_pc]. by tk. Qed.
Lemma te_like e p n ci : te (ELike e p n ci) = LParen :: te e ++ nots n ++ Word (lit (if ci then "ILIKE" else "LIKE")) :: te p ++ [RParen].
Proof. unfold te at 1. cbn [expr_pc]. by tk. Qed.
Lemma te_in_list e es n : te (EInList e es n) = LParen :: te e ++ nots n ++ Word (lit "IN") :: LParen :: tcommas (te <$> es) ++ [RParen; RParen].
Proof. unfold te at 1. cbn [expr_pc]. by tk. Qed.
Lemma te_between e lo hi n : te (EBetween e lo hi n) = LParen :: te e ++ nots n ++ Word (lit "BETWEEN") :: te lo ++ Word (lit "AND") :: te hi ++ [RParen].
Proof. unfold te at 1. cbn [expr_pc]. by tk. Qed.
Lemma te_cast e t : te (ECast e t) = Word (lit "CAST") :: LParen :: te e ++ Word (lit "AS") :: toks (type_words t) ++ [RParen].
Proof. unfold te at 1. cbn [expr_pc]. by tk. Qed.
Lemma te_scalar q : te (EScalarSubquery q) = LParen :: tq q ++ [RParen].
Proof. unfold te at 1. cbn [expr_pc]. by tk. Qed.
Lemma te_exists q : te (EExists q) = Word (lit "EXISTS") :: LParen :: tq q ++ [RParen].
Proof. unfold te at 1. cbn [expr_pc]. by tk. Qed.
Lemma te_in_subquery e q n : te (EInSubquery e q n) = LParen :: te e ++ nots n ++ Word (lit "IN") :: LParen :: tq q ++ [RParen; RParen].
Proof. unfold te at 1. cbn [expr_pc]. by tk. Qed.
Definition twhen (w : E * E) : list Token := Word (lit "WHEN") :: te w.1 ++ Word (lit "THEN") :: te w.2.
Lemma te_case o ws el : te (ECase o ws el)
  = Word (lit "CASE") :: match o with Some o => te o | None => [] end ++ concat (twhen <$> ws)
    ++ match el with Some e => Word (lit "ELSE") :: te e | None => [] end ++ [Word (lit "END")].
Proof.
  unfold te at 1. cbn [expr_pc]. assert (toks (concat (when_pc epc <$> ws)) = concat (twhen <$> ws)) as Hw.
  { induction ws as [|[c r] ws IH]; [done|]. cbn [fmap list_fmap concat]. rewrite toks_app, IH. f_equal. unfold when_pc. by tk. }
  destruct o, el; cbn [maybe]; tk; by rewrite Hw.
Qed.
Definition torder (o : OrderByItem E) : list Token := te (o_expr o) ++ (if o_asc o then [] else [Word (lit "DESC")]).
Definition twindow (w : WindowSpec E) : list Token :=
  match partition_by w with [] => [] | p => Word (lit "PARTITION") :: Word (lit "BY") :: tcommas (te <$> p) end
  ++ match w_order_by w with [] => [] | o => Word (lit "ORDER") :: Word (lit "BY") :: tcommas (torder <$> o) end.
Lemma toks_order o : toks (commas (order_item_pc epc <$> o)) = tcommas (torder <$> o).
Proof. rewrite toks_commas. f_equal. apply list_fmap_ext. intros i [e []] _; unfold order_item_pc, torder; cbn [o_expr o_asc]; by tk. Qed.
Lemma toks_window w : toks (window_pc epc w) = twindow w.
Proof.
  destruct w as [[|e p] [|i o]]; unfold window_pc, twindow; cbn [partition_by w_order_by]; rewrite ?toks_app, ?toks_order, ?toks_commas; cbn [words];
    repeat first [rewrite toks_app|rewrite toks_tok|rewrite toks_sp|rewrite toks_word|rewrite toks_nil|progress cbn [app]]; done.
Qed.
Definition tcall (name : str) (args : list E) (star distinct : bool) (filter : option E) (over : option (WindowSpec E)) : list Token :=
  Word name :: LParen :: (if star then [Star] else (if distinct then [Word (lit "DISTINCT")] else []) ++ tcommas (te <$> args)) ++ RParen ::
  match filter with Some e => Word (lit "FILTER") :: LParen :: Word (lit "WHERE") :: te e ++ [RParen] | None => [] end
  ++ match over with Some w => Word (lit "OVER") :: LParen :: twindow w ++ [RParen] | None => [] end.
Lemma te_call name args star distinct filter over : (str_eqb name SUBSCRIPT = true -> length args <> 2%nat) ->
  te (EFunction name args star distinct filter over) = tcall name args star distinct filter over.
Proof.
  intros H. assert (epc (EFunction name args star distinct filter over) = call_pc epc name args star distinct filter over) as E.
  { cbn [expr_pc]. destruct (str_eqb name SUBSCRIPT); [|done]. destruct args as [|a [|i [|]]]; try done. by specialize (H eq_refl). }
  unfold te at 1. rewrite E. unfold call_pc, tcall. destruct star, distinct, filter, over; cbn [maybe]; tk; rewrite ?toks_window; tk; done.
Qed.
Lemma te_subscript a i star distinct filter over : te (EFunction SUBSCRIPT [a; i] star distinct filter over) = te a ++ LBracket :: te i ++ [RBracket].
Proof. unfold te at 1. change (toks (epc a ++ [T LBracket] ++ epc i ++ [T RBracket]) = te a ++ LBracket :: te i ++ [RBracket]). by tk. Qed.

(** ** Infix operators *)


Lemma op_reads op : binary_op (Some (op_tok op)) = Some op /\ is_kw (lit "is") (Some (op_tok op)) = false /\ is_kw (lit "not") (Some (op_tok op)) = false
  /\ existsb (fun kw => is_kw kw (Some (op_tok op))) PREDICATES = false /\ is_kw (lit "operator") (Some (op_tok op)) = false
  /\ forall ts, atom_end (op_tok op :: ts) = true.
Proof. destruct op as [| | | | | | | |[]|[]| | | | | | | | | |[]|[]]; split_and!; intros; vm_compute; reflexivity. Qed.

Lemma infix_op f n bp lhs op ts : ((binding_power op).1 <? bp) = false ->
  parse_infix (eb f) (sel f) (S f) (S n) bp lhs (op_tok op :: ts)
  = (let* quantifier := eat_quantifier in
     match quantifier with
     | Some k => let* _ := expect LParen in let* es := parse_expr_list_until_rparen (eb f) (S f) in parse_infix (eb f) (sel f) (S f) n bp (EQuantified lhs op k es)
     | None => let* rhs := eb f (binding_power op).2 in parse_infix (eb f) (sel f) (S f) n bp (EBinary op lhs rhs)
     end) ts.
Proof.
  intros Hb. destruct (op_reads op) as (H1 & H2 & H3 & H4 & H5 & _). cbn [parse_infix].
  rewrite (bind_parsed _ _ _ false _) by (by apply is_keyword_eq).
  rewrite (bind_parsed _ _ _ false _) by (unfold at_predicate; cbn [head]; rewrite H3; cbn [lookup list_lookup]; by rewrite H4).
  rewrite (bind_parsed _ _ _ false _) by (by apply is_keyword_eq).
  rewrite (bind_parsed _ _ _ (Some (op_tok op)) _) by done. rewrite H1, Hb. by rewrite (bind_parsed _ _ _ (Some (op_tok op)) ts).
Qed.
Lemma quantifier_hit k ts : eat_quantifier (Word (lit (quantifier_word k)) :: ts) = Parsed (Some k) ts.
Proof. by destruct k. Qed.
Lemma quantifier_none ts : begins ts -> forall rest, eat_quantifier (ts ++ rest) = Parsed None (ts ++ rest).
Proof. intros B rest. unfold eat_quantifier. steps. done. Qed.

(** AND ends an operand that binds tighter. *)
Lemma infix_low f e ts : parse_infix (eb f) (sel f) (S f) (S f) 7 e (Word (lit "AND") :: ts) = Parsed e (Word (lit "AND") :: ts).
Proof. reflexivity. Qed.

Lemma atom_of_inner e :
  (forall f rest, (length (te e ++ rest) <= f)%nat -> inner_end rest = true -> parse_atom_inner (eb f) (sel f) (S f) (te e ++ rest) = Parsed e rest) -> atom_reads e.
Proof. intros H f rest L Hr. apply inner_reads; [len|by apply H]. Qed.
Lemma atom_of_paren e ts : te e = LParen :: ts ++ [RParen] ->
  (forall rest, is_kw (lit "select") (head (ts ++ rest)) = false) ->
  (forall f rest, (length (ts ++ RParen :: rest) <= f)%nat -> parse_expr_bp other (S f) 0 (ts ++ RParen :: rest) = Parsed e (RParen :: rest)) -> reads e.
Proof.
  intros Ht Hs H. split; [rewrite Ht; by eexists _, _|]. apply atom_of_inner. intros f rest L _. rewrite Ht in *. cbn [app] in *. rewrite <- app_assoc in *. cbn [app] in *.
  apply paren_reads; [apply Hs|]. destruct f as [|f]; [cbn in L; lia|]. apply H. cbn in L. lia.
Qed.

Lemma binary_reads op l r : reads l -> reads r -> reads (EBinary op l r).
Proof.
  intros Hl Hr. pose proof (proj1 Hl) as Bl. pose proof (proj1 Hr) as Br. apply (atom_of_paren _ (te l ++ op_tok op :: te r)).
  { rewrite te_binary, <- app_assoc. done. }
  { intros rest. rewrite <- app_assoc. apply begins_kw; [done|in_list]. }
  intros f rest L. rewrite <- app_assoc in *. cbn [app] in *. rewrite reads_infix; [|done|len|apply op_reads].
  rewrite infix_op by (by destruct op). run (by apply quantifier_none).
  run (apply reads_expr; [done|len|done]). apply infix_stop; [|done]. len.
Qed.
Lemma unary_reads op e : reads e -> reads (EUnary op e).
Proof.
  intros He. pose proof (proj1 He) as Be. apply (atom_of_paren _ ((match op with Neg => Minus | Not => Word (lit "NOT") end) :: te e)).
  { by rewrite te_unary. }
  { intros rest. by destruct op. }
  intros f rest L. rewrite expr_bp_eq. unfold expr_bp_body. cbn [app] in *.
  assert (forall bp, parse_expr_bp other f bp (te e ++ RParen :: rest) = Parsed e (RParen :: rest)) as Re.
  { intros bp. apply reads_expr; [done|len|done]. }
  rewrite (bind_parsed _ _ _ (EUnary op e) (RParen :: rest)); [apply infix_stop; [lia|done]|].
  unfold parse_prefix. destruct op; steps; by run (apply Re).
Qed.

(** ** Postfix predicates *)

(** The start of the loop of [parse_expr_bp] at a keyword. *)
Lemma infix_is f n e ts :
  parse_infix (eb f) (sel f) (S f) (S n) 0 e (Word (lit "IS") :: ts)
  = (let* negated := eat_keyword "not" in
     let* null := eat_keyword "null" in
     if null then parse_infix (eb f) (sel f) (S f) n 0 (EIsNull e negated)
     else
       let* _ := expect_keyword "distinct" in let* _ := expect_keyword "from" in
       let* rhs := eb f 8 in
       parse_infix (eb f) (sel f) (S f) n 0 (EIsDistinct e rhs negated)) ts.
Proof. cbn [parse_infix]. steps. done. Qed.
Lemma infix_predicate f n e neg w ts e' ts' : mem (lower (lit w)) PREDICATES = true -> is_kw (lit "is") (Some (Word (lit w))) = false ->
  is_kw (lit "not") (Some (Word (lit w))) = false ->
  parse_predicate (eb f) (sel f) (S f) e (nots neg ++ Word (lit w) :: ts) = Parsed e' ts' ->
  parse_infix (eb f) (sel f) (S f) (S n) 0 e (nots neg ++ Word (lit w) :: ts) = parse_infix (eb f) (sel f) (S f) n 0 e' ts'.
Proof.
  intros Hm Hi Hn H. cbn [parse_infix].
  rewrite (bind_parsed _ _ _ false _) by (apply is_keyword_eq; by destruct neg).
  rewrite (bind_parsed _ _ _ true (nots neg ++ Word (lit w) :: ts)).
  - cbv iota. cbn [Z.ltb Z.compare]. by rewrite (bind_parsed _ _ _ _ _ H).
  - unfold at_predicate. destruct neg; cbn [nots app head].
    + change (is_kw (lit "not") (Some (Word (lit "NOT")))) with true. cbv iota. f_equal. exact Hm.
    + rewrite Hn. f_equal. exact Hm.
Qed.
Lemma nots_eat neg w ts : is_kw (lit "not") (Some (Word (lit w))) = false -> eat_keyword "not" (nots neg ++ Word (lit w) :: ts) = Parsed neg (Word (lit w) :: ts).
Proof. intros H. destruct neg; cbn [nots app]; [by apply kw_hit|by apply kw_miss]. Qed.
Lemma nots_end neg w ts : atom_end (Word (lit w) :: ts) = true -> atom_end (nots neg ++ Word (lit w) :: ts) = true.
Proof. destruct neg; [|done]. intros _. vm_compute. reflexivity. Qed.

Lemma is_null_reads e n : reads e -> reads (EIsNull e n).
Proof.
  intros He. pose proof (proj1 He) as Be. apply (atom_of_paren _ (te e ++ Word (lit "IS") :: nots n ++ [Word (lit "NULL")])).
  { rewrite te_is_null. by rewrite <- !app_assoc; cbn [app]; rewrite <- !app_assoc. }
  { intros rest. rewrite <- app_assoc. apply begins_kw; [done|in_list]. }
  intros f rest L. rewrite <- app_assoc in *. cbn [app] in *. rewrite <- app_assoc in *. cbn [app] in *.
  rewrite reads_infix; [|done|len|done]. rewrite infix_is. run (by apply nots_eat). steps. apply infix_stop; [len|done].
Qed.
Lemma is_distinct_reads l r n : reads l -> reads r -> reads (EIsDistinct l r n).
Proof.
  intros He Hr. pose proof (proj1 He) as Be. pose proof (proj1 Hr) as Br. apply (atom_of_paren _ (te l ++ Word (lit "IS") :: nots n ++ Word (lit "DISTINCT") :: Word (lit "FROM") :: te r)).
  { rewrite te_is_distinct. by rewrite <- !app_assoc; cbn [app]; rewrite <- !app_assoc. }
  { intros rest. rewrite <- app_assoc. apply begins_kw; [done|in_list]. }
  intros f rest L. rewrite <- app_assoc in *. cbn [app] in *. rewrite <- app_assoc in *. cbn [app] in *.
  rewrite reads_infix; [|done|len|done]. rewrite infix_is. run (by apply nots_eat). steps.
  run (apply reads_expr; [done|len|done]). apply infix_stop; [len|done].
Qed.

(** ** Queries, as far as expressions need them *)

(** the token after a query *)
Definition select_end (s : Select X) (ts : list Token) : bool :=
  match ts with
  | [] | (RParen | Semicolon) :: _ => true
  | Word w :: _ => str_eqb (lower w) (lit "on") && conflict_safe s
  | _ => false
  end.
Definition reads_s (s : Select X) : Prop :=
  (exists tl, tq s = Word (lit (if no_ctes s then "SELECT" else "WITH")) :: tl)
  /\ forall f rest, (length (tq s ++ rest) < f)%nat -> select_end s rest = true -> parse_select other f (tq s ++ rest) = Parsed s rest.

Lemma like_reads e p n ci : reads e -> reads p -> reads (ELike e p n ci).
Proof.
  intros He Hp. pose proof (proj1 He) as Be. pose proof (proj1 Hp) as Bp.
  apply (atom_of_paren _ (te e ++ nots n ++ Word (lit (if ci then "ILIKE" else "LIKE")) :: te p)).
  { rewrite te_like. by rewrite <- !app_assoc; cbn [app]. }
  { intros rest. rewrite <- app_assoc. apply begins_kw; [done|in_list]. }
  intros f rest L. rewrite <- !app_assoc in *. cbn [app] in *.
  rewrite reads_infix; [|done|len|apply nots_end; by destruct ci].
  erewrite infix_predicate; [|by destruct ci..|]; [apply infix_stop with (e := ELike e p n ci); [len|done]|].
  unfold parse_predicate. run (apply nots_eat; by destruct ci). destruct ci; steps; by run (apply reads_expr; [done|len|done]).
Qed.
Lemma between_reads e lo hi n : reads e -> reads lo -> reads hi -> reads (EBetween e lo hi n).
Proof.
  intros He Hl Hh. pose proof (proj1 He) as Be. apply (atom_of_paren _ (te e ++ nots n ++ Word (lit "BETWEEN") :: te lo ++ Word (lit "AND") :: te hi)).
  { rewrite te_between. by rewrite <- !app_assoc; cbn [app]; rewrite <- !app_assoc. }
  { intros rest. rewrite <- app_assoc. apply begins_kw; [done|in_list]. }
  intros f rest L. rewrite <- !app_assoc in *. cbn [app] in *. rewrite <- !app_assoc in *. cbn [app] in *.
  rewrite reads_infix; [|done|len|by apply nots_end].
  erewrite infix_predicate; [|done..|]; [apply infix_stop with (e := EBetween e lo hi n); [len|done]|].
  unfold parse_predicate. run (by apply nots_eat). steps.
  destruct f as [|f]; [len|].
  run (rewrite reads_infix; [rewrite (infix_low f); reflexivity|done|len|done]).
  steps. by run (apply reads_expr; [done|len|done]).
Qed.

(** the head of a list before its closing token *)
Lemma list_head es ts kw : Forall reads es -> kw ∈ STARTS -> is_kw (lit kw) (head (tcommas (te <$> es) ++ RParen :: ts)) = false.
Proof.
  intros F Hk. destruct es as [|e es]; [done|]. apply begins_kw; [|done]. apply tcommas_begins; [done|]. by apply reads_begins.
Qed.

Lemma in_list_reads e es n : reads e -> Forall reads es -> reads (EInList e es n).
Proof.
  intros He Hes. pose proof (proj1 He) as Be. apply (atom_of_paren _ (te e ++ nots n ++ Word (lit "IN") :: LParen :: tcommas (te <$> es) ++ [RParen])).
  { rewrite te_in_list. by norm. }
  { intros rest. rewrite <- app_assoc. apply begins_kw; [done|in_list]. }
  intros f rest L. norm. rewrite reads_infix; [|done|len|by apply nots_end].
  erewrite infix_predicate; [|done..|]; [apply infix_stop with (e := EInList e es n); [len|done]|].
  unfold parse_predicate. run (by apply nots_eat). steps. run (apply is_keyword_eq, list_head; [done|in_list]).
  unfold parse_expr_list_until_rparen. by run (apply reads_until; [done|len|by left]).
Qed.
Lemma in_subquery_reads e q n : no_ctes q = true -> reads e -> reads_s q -> reads (EInSubquery e q n).
Proof.
  intros Hc He [[tl Hq] Rq]. rewrite Hc in Hq. pose proof (proj1 He) as Be.
  apply (atom_of_paren _ (te e ++ nots n ++ Word (lit "IN") :: LParen :: tq q ++ [RParen])).
  { rewrite te_in_subquery. by norm. }
  { intros rest. rewrite <- app_assoc. apply begins_kw; [done|in_list]. }
  intros f rest L. norm. rewrite reads_infix; [|done|len|by apply nots_end].
  erewrite infix_predicate; [|done..|]; [apply infix_stop with (e := EInSubquery e q n); [len|done]|].
  unfold parse_predicate. run (by apply nots_eat). steps. run (apply is_keyword_eq; rewrite Hq; vm_compute; reflexivity).
  run (apply Rq; [len|done]). steps. done.
Qed.
Lemma scalar_reads q : no_ctes q = true -> reads_s q -> reads (EScalarSubquery q).
Proof.
  intros Hc [[tl Hq] Rq]. rewrite Hc in Hq. split; [rewrite te_scalar; by eexists _, _|]. apply atom_of_inner. intros f rest L _. rewrite te_scalar in *. norm.
  cbn [parse_atom_inner]. unfold parse_paren. run (apply is_keyword_eq; rewrite Hq; vm_compute; reflexivity).
  run (apply Rq; [len|done]). steps. done.
Qed.
Lemma quantified_reads l op k es : reads l -> Forall reads es -> reads (EQuantified l op k es).
Proof.
  intros Hl Hes. pose proof (proj1 Hl) as Bl. apply (atom_of_paren _ (te l ++ op_tok op :: Word (lit (quantifier_word k)) :: LParen :: tcommas (te <$> es) ++ [RParen])).
  { rewrite te_quantified. by norm. }
  { intros rest. rewrite <- app_assoc. apply begins_kw; [done|in_list]. }
  intros f rest L. norm. rewrite reads_infix; [|done|len|apply op_reads]. rewrite infix_op by (by destruct op).
  run (apply quantifier_hit). steps. unfold parse_expr_list_until_rparen. run (apply reads_until; [done|len|by left]).
  apply infix_stop; [len|done].
Qed.

(** *** Words *)

Lemma word_inner w f ts : parse_atom_inner (eb f) (sel f) (S f) (Word w :: ts) = parse_word (eb f) (sel f) (S f) w ts.
Proof. done. Qed.

Lemma call_args_reads es f rest : Forall reads es -> (length (tcommas (te <$> es) ++ RParen :: rest) < f)%nat ->
  parse_call_args (eb f) (S f) (tcommas (te <$> es) ++ RParen :: rest) = Parsed es rest.
Proof.
  intros F L. unfold parse_call_args. destruct es as [|e es].
  - cbn [fmap list_fmap tcommas app]. steps. done.
  - pose proof (tcommas_begins te (e :: es) ltac:(done) (reads_begins _ F)) as B. step.
    run (apply reads_list; [done..]). steps. done.
Qed.
Lemma row_reads es : Forall reads es -> reads (ERow es).
Proof.
  intros F. split; [rewrite te_row; eexists _, _; split; [done|vm_compute; reflexivity]|]. apply atom_of_inner. intros f rest L _. rewrite te_row in *. norm.
  rewrite word_inner. unfold parse_word. words_eval. cbn [next_is]. rewrite bool_decide_true by done.
  step. run (apply call_args_reads; [done|len]). done.
Qed.
Lemma array_reads es : Forall reads es -> reads (EArray es).
Proof.
  intros F. split; [rewrite te_array; eexists _, _; split; [done|vm_compute; reflexivity]|]. apply atom_of_inner. intros f rest L _. rewrite te_array in *. norm.
  rewrite word_inner. unfold parse_word. words_eval. unfold parse_keyword. words_eval. cbn [next_is]. rewrite bool_decide_true by done.
  step. run (apply reads_until; [done|len|by right]). done.
Qed.
Lemma exists_reads q : reads_s q -> reads (EExists q).
Proof.
  intros [[tl Hq] Rq]. split; [rewrite te_exists; eexists _, _; split; [done|vm_compute; reflexivity]|]. apply atom_of_inner. intros f rest L _. rewrite te_exists in *. norm.
  rewrite word_inner. unfold parse_word. words_eval. unfold parse_keyword. words_eval. unfold parse_subquery.
  apply bind_parsed with (k := fun q => pret (EExists q)). steps. run (apply Rq; [len|done]). steps. done.
Qed.
Lemma type_reads t f rest : (0 < f)%nat -> parse_data_type f (toks (type_words t) ++ RParen :: rest) = Parsed t (RParen :: rest).
Proof. intros Hf. destruct f; [lia|]. destruct t; reflexivity. Qed.
Lemma cast_reads e t : reads e -> reads (ECast e t).
Proof.
  intros He. split; [rewrite te_cast; eexists _, _; split; [done|vm_compute; reflexivity]|]. apply atom_of_inner. intros f rest L _. rewrite te_cast in *. norm.
  rewrite word_inner. unfold parse_word. words_eval. unfold parse_keyword. words_eval.
  steps. run (apply reads_expr; [done|len|vm_compute; reflexivity]). steps. run (apply type_reads; lia). steps. done.
Qed.

(** *** CASE *)

Lemma twhen_eq c r : twhen (c, r) = Word (lit "WHEN") :: te c ++ Word (lit "THEN") :: te r.
Proof. done. Qed.
Lemma whens_end ws ts : expr_end ts = true -> expr_end (concat (twhen <$> ws) ++ ts) = true.
Proof. intros H. destruct ws as [|w ws]; [done|]. vm_compute. reflexivity. Qed.
Lemma whens_reads f ws ts : Forall reads (concat ((fun w => [w.1; w.2]) <$> ws)) -> expr_end ts = true -> is_kw (lit "when") (head ts) = false ->
  (length (concat (twhen <$> ws) ++ ts) < f)%nat -> forall n, (length (concat (twhen <$> ws) ++ ts) < n)%nat ->
  parse_whens (eb f) n (concat (twhen <$> ws) ++ ts) = Parsed ws ts.
Proof.
  intros F He Hw. induction ws as [|[c r] ws IH]; intros L [|n] Ln; try lia; cbn [parse_whens].
  - cbn [fmap list_fmap concat app]. step. done.
  - cbn [fmap list_fmap concat] in *. cbn [app] in F. apply Forall_cons in F as [Hc [Hr F]%Forall_cons]. rewrite twhen_eq in *. norm.
    steps. run (apply reads_expr; [done|len|vm_compute; reflexivity]). steps. run (apply reads_expr; [done|len|by apply whens_end]).
    run (apply IH; [done|len|len]). done.
Qed.
Lemma word_case f ts : parse_word (eb f) (sel f) (S f) (lit "CASE") ts = parse_case (eb f) (S f) ts.
Proof. unfold parse_word, parse_keyword. words_eval. by destruct ts as [|[] ts]. Qed.
Lemma case_reads o ws el : ws <> [] -> Forall reads (opt o ++ concat ((fun w => [w.1; w.2]) <$> ws) ++ opt el) -> reads (ECase o ws el).
Proof.
  intros N [Ho [Hw He]%Forall_app]%Forall_app. split; [rewrite te_case; eexists _, _; split; [done|vm_compute; reflexivity]|].
  apply atom_of_inner. intros f rest L _. rewrite te_case in *. norm.
  rewrite word_inner, word_case.
  set (tail := match el with Some e => Word (lit "ELSE") :: te e | None => [] end ++ Word (lit "END") :: rest) in *.
  assert (expr_end tail = true /\ is_kw (lit "when") (head tail) = false) as [T1 T2] by (unfold tail; destruct el; split; vm_compute; reflexivity).
  assert (parse_case (eb f) (S f) (match o with Some o => te o | None => [] end ++ concat (twhen <$> ws) ++ tail)
    = (let* whens := parse_whens (eb f) (S f) in match whens with
       | [] => reject (Message (lit "CASE requires at least one WHEN clause"))
       | _ => let* has_else := eat_keyword "else" in
              let* else_expr := (if has_else then let* e := parse_expr (eb f) in pret (Some e) else pret None) in
              let* _ := expect_keyword "end" in pret (ECase o whens else_expr) end) (concat (twhen <$> ws) ++ tail)) as E.
  { unfold parse_case. destruct o as [o|]; cbn [opt] in Ho.
    - apply Forall_cons in Ho as [Ho _]. pose proof (proj1 Ho) as Bo. step.
      run (by run (apply reads_expr; [done|len|by apply whens_end])). done.
    - cbn [app]. destruct ws as [|w ws]; [done|]. by rewrite (bind_parsed _ _ _ true _) by (apply is_keyword_eq; reflexivity). }
  rewrite E. run (apply whens_reads; [done|done|done|len|len]). destruct ws as [|w ws]; [done|]. unfold tail. destruct el as [e|]; cbn [opt app] in *.
  - apply Forall_cons in He as [He _]. steps. run (run (apply reads_expr; [done|unfold tail in L; len|vm_compute; reflexivity]); done). steps. done.
  - steps. done.
Qed.

(** *** Literals and names *)

Lemma digits_no_mark i : 0 <= i < 2 ^ 63 -> contains_char 46 (i64_display i) || contains_char 101 (i64_display i) || contains_char 69 (i64_display i) = false.
Proof.
  intros Hi. destruct (u64_display_digits i ltac:(lia)) as (ds & -> & D & _).
  assert (forall c, (c < 48 \/ 57 < c) -> contains_char c (digit_char <$> ds) = false) as H.
  { intros c Hc. apply not_true_iff_false. intros (x & Hx & Ex)%existsb_exists. apply list_elem_of_In, list_elem_of_fmap in Hx as (d & -> & Hd).
    rewrite Forall_forall in D. specialize (D d Hd). unfold is_digit in D. unfold digit_char in Ex. lia. }
  rewrite !H by lia. done.
Qed.
Lemma int_reads i : 0 <= i < 2 ^ 63 -> reads (EInt i).
Proof.
  intros Hi. split; [by eexists _, _|]. apply atom_of_inner. intros f rest _ _. change (te (EInt i)) with [Number (i64_display i)]. cbn [app parse_atom_inner].
  unfold parse_number. rewrite digits_no_mark by done. rewrite parse_i64_display; [done|]. unfold in_i. lia.
Qed.
Lemma float_reads x : float_ok x = true -> reads (EFloat x).
Proof.
  intros [[_ Hc]%andb_prop Hp%bool_decide_eq_true]%andb_prop. split; [by eexists _, _|]. apply atom_of_inner. intros f rest _ _.
  change (te (EFloat x)) with [Number (float_text x)]. cbn [app parse_atom_inner]. unfold parse_number, float_number. by rewrite Hc, Hp.
Qed.
Lemma bool_reads b : reads (EBool b).
Proof.
  assert (forall b, te (EBool b) = [Word (lit (if b then "TRUE" else "FALSE"))]) as Et by done.
  split; [rewrite Et; eexists _, _; split; [done|by destruct b]|]. apply atom_of_inner. intros f rest _ _.
  rewrite Et. cbn [app]. rewrite word_inner. unfold parse_word. by destruct b; words_eval.
Qed.
Lemma null_reads : reads ENull.
Proof.
  split; [eexists _, _; split; [done|vm_compute; reflexivity]|]. apply atom_of_inner. intros f rest _ _.
  change (te ENull) with [Word (lit "NULL")]. cbn [app]. rewrite word_inner. unfold parse_word. by words_eval.
Qed.

Lemma simple_lower n : simple_ident n = true -> lower n = n.
Proof.
  destruct n as [|c n]; [done|]. cbn [simple_ident]. intros [Hc Hn]%andb_prop. rewrite forallb_forall in Hn.
  unfold lower. apply list_eq_same_length with (n := length (c :: n)); [done|by rewrite length_fmap|].
  intros i x y Hi H1 H2. rewrite list_lookup_fmap in H1. rewrite H2 in H1. injection H1 as <-.
  apply list_elem_of_lookup_2, list_elem_of_In in H2. specialize (Hn y H2). unfold to_ascii_lower, is_ascii_upper, is_ascii_lower, is_ascii_digit in *.
  destruct ((65 <=? y) && (y <=? 90)) eqn:E; [|done]. zb; lia.
Qed.

(** A word that is no keyword in this position. *)
Lemma word_name f w ts : not_in ["true"; "false"; "null"; "extract"; "exists"; "case"; "cast"] (lower w) = true ->
  negb (str_eqb (lower w) (lit "row") && next_is LParen ts) = true ->
  negb (str_eqb (lower w) (lit "array") && (next_is LBracket ts || next_is LParen ts)) = true ->
  negb (mem (lower w) NILADIC && negb (next_is LParen ts)) = true -> match ts with StringLit _ :: _ => false | _ => true end = true ->
  parse_word (eb f) (sel f) (S f) w ts = parse_name (eb f) (S f) w ts.
Proof.
  intros H Hr%negb_true_iff Ha%negb_true_iff Hn%negb_true_iff Hs. unfold parse_word, parse_keyword.
  assert (forall kw, kw ∈ ["true"; "false"; "null"; "extract"; "exists"; "case"; "cast"]%string -> str_eqb (lower w) (lit kw) = false) as K by (intros kw; by apply not_in_kw).
  rewrite (K "true"%string), (K "false"%string), (K "null"%string), (K "extract"%string), (K "exists"%string), (K "case"%string), (K "cast"%string), Hr by in_list.
  cbv beta iota zeta.
  assert (str_eqb (lower w) (lit "array") && next_is LBracket ts = false /\ str_eqb (lower w) (lit "array") && next_is LParen ts = false) as [-> ->].
  { by destruct (str_eqb (lower w) (lit "array")), (next_is LBracket ts), (next_is LParen ts). }
  rewrite Hn. by destruct ts as [|[] ts].
Qed.
Lemma reserved_free n : simple_ident n = true -> negb (mem n RESERVED) = true ->
  not_in ["true"; "false"; "null"; "extract"; "exists"; "case"; "cast"] (lower n) = true /\ str_eqb (lower n) (lit "array") = false
  /\ mem (lower n) NILADIC = false /\ starts (Word n) = true.
Proof.
  intros Hs Hr. cbn [starts]. rewrite (simple_lower n Hs). apply negb_true_iff in Hr.
  assert (forall l, forallb (fun v => mem v RESERVED) l = true -> mem n l = false) as K.
  { intros l Hl. apply not_true_iff_false. intros Hm. rewrite (mem_forall _ _ _ Hm Hl) in Hr. done. }
  split_and!.
  - unfold not_in. by rewrite K by (vm_compute; reflexivity).
  - pose proof (K [lit "array"] ltac:(vm_compute; reflexivity)) as H. cbn [mem existsb] in H. by apply orb_false_elim in H as [H _].
  - apply K. vm_compute. reflexivity.
  - unfold not_in. by rewrite K by (vm_compute; reflexivity).
Qed.
Lemma inner_end_next rest t : inner_end rest = true -> t = Dot \/ t = LParen -> next_is t rest = false.
Proof. intros H Ht. destruct rest as [|u rest]; [done|]. cbn [next_is]. apply bool_decide_eq_false. intros ->. by destruct Ht; subst. Qed.
Lemma column_reads n : negb (simple_ident n && mem n RESERVED) = true -> reads (EColumn n).
Proof.
  intros H. change (te (EColumn n)) with [id_tok n] in *. unfold reads, atom_reads. change (te (EColumn n)) with [id_tok n]. unfold id_tok.
  destruct (simple_ident n) eqn:Es.
  - destruct (reserved_free n Es H) as (R1 & R2 & R3 & R4). split; [by eexists _, _|]. intros f rest L Hi.
    exists (S f). split; [len|]. unfold parse_atom. apply bind_parsed. cbn [app]. rewrite word_inner, word_name; [|done|..].
    + unfold parse_name. run (apply eat_miss, inner_end_next; [done|by right]). run (apply eat_miss, inner_end_next; [done|by left]). done.
    + rewrite inner_end_next by tauto. by rewrite andb_false_r.
    + by rewrite R2.
    + by rewrite R3.
    + by destruct rest as [|[] rest].
  - split; [by eexists _, _|]. intros f rest L Hi. exists (S f). split; [len|]. unfold parse_atom. by apply bind_parsed.
Qed.
Lemma qualified_reads q n : simple_ident q = true -> negb (mem q RESERVED) = true -> reads (EQualified q n).
Proof.
  intros Hq Hr. assert (te (EQualified q n) = [Word q; Dot; id_tok n]) as Et.
  { unfold te. cbn [expr_pc]. rewrite !toks_tok. unfold id_tok at 1. by rewrite Hq. }
  destruct (reserved_free q Hq Hr) as (R1 & R2 & R3 & R4). split; [rewrite Et; by eexists _, _|]. apply atom_of_inner. intros f rest L Hi. rewrite Et. cbn [app].
  rewrite word_inner, word_name; [|done|..].
  - unfold parse_name. steps. run (apply eat_miss, inner_end_next; [done|by left]). run (apply eat_miss, inner_end_next; [done|by right]). done.
  - by rewrite andb_comm.
  - by rewrite R2.
  - by rewrite R3.
  - done.
Qed.

(** *** Calls *)

Lemma follow_kw kw ts : expr_end ts = true -> forallb (fun v => negb (str_eqb v (lit kw))) FOLLOW = true -> is_kw (lit kw) (head ts) = false.
Proof.
  intros H K. destruct ts as [|[] ts]; try done. cbn [expr_end] in H. cbn [head is_kw]. apply negb_true_iff. apply (mem_forall (fun v => negb (str_eqb v (lit kw))) _ _ H K).
Qed.
Lemma orders_reads f os rest : os <> [] -> Forall reads (o_expr <$> os) -> (length (tcommas (torder <$> os) ++ rest) < f)%nat -> expr_end rest = true ->
  next_is Comma rest = false -> is_kw (lit "desc") (head rest) = false ->
  parse_order_by_items (eb f) (S f) (tcommas (torder <$> os) ++ rest) = Parsed os rest.
Proof.
  intros N F L He Hc Hd. apply (comma_list_ok _ torder (pred f)); [done..|lia|lia|]. rewrite Forall_fmap in F. eapply Forall_impl; [exact F|].
  intros [e asc] R r Hr Lr. change (reads e) in R. unfold torder, parse_order_by_item in *. cbn [o_expr o_asc] in *. norm.
  assert (expr_end r = true /\ is_kw (lit "desc") (head r) = false) as [He' Hd'].
  { destruct Hr as [->|Hr]; [done|]. by destruct r as [|[] r]. }
  destruct asc; cbn [app] in *.
  - run (apply reads_expr; [done|len|done]). steps. run (apply kw_miss, follow_kw; [done|vm_compute; reflexivity]). done.
  - run (apply reads_expr; [done|len|vm_compute; reflexivity]). steps. done.
Qed.
Lemma skip_to_hit t m ts : skip_to t m (t :: ts) = Parsed tt (t :: ts).
Proof. cbn. by rewrite bool_decide_true. Qed.
Lemma over_reads f w rest : Forall reads (over_kids w) -> (length (twindow w ++ RParen :: rest) < f)%nat ->
  parse_over_clause (eb f) (S f) (Word (lit "OVER") :: LParen :: twindow w ++ RParen :: rest) = Parsed (Some w) rest.
Proof.
  destruct w as [p o]. unfold twindow. cbn [over_kids partition_by w_order_by]. intros [Hp Ho]%Forall_app L. unfold parse_over_clause. norm. steps.
  assert (forall ts, (o = [] -> ts = RParen :: rest) -> (o <> [] -> ts = Word (lit "ORDER") :: Word (lit "BY") :: tcommas (torder <$> o) ++ RParen :: rest) ->
    (length ts <= f)%nat ->
    (let* ordered := eat_keyword "order" in
     let* order := (if ordered then let* _ := expect_keyword "by" in parse_order_by_items (eb f) (S f) else pret []) in
     let* _ := skip_to RParen (lit "unterminated OVER clause") in
     let* _ := expect RParen in pret (Some (mk_window p order))) ts = Parsed (Some (mk_window p o)) rest) as K.
  { intros ts H1 H2 Lt. destruct o as [|i o].
    - rewrite H1 by done. steps. run (apply skip_to_hit). steps. done.
    - rewrite H2 in * by done. step. run (steps; apply orders_reads; [done|done|len|done..]). run (apply skip_to_hit). steps. done. }
  destruct p as [|e p].
  - cbn [app] in *. run (apply kw_miss; by destruct o). step. destruct o as [|i o]; apply K; try done; len.
  - norm. step. run (steps; apply reads_list; [done|done|destruct o; len|by destruct o|by destruct o]). destruct o as [|i o]; apply K; try done; norm; len.
Qed.
Lemma filter_reads f e rest : reads e -> (length (te e ++ RParen :: rest) < f)%nat ->
  parse_aggregate_filter (eb f) (Word (lit "FILTER") :: LParen :: Word (lit "WHERE") :: te e ++ RParen :: rest) = Parsed (Some e) rest.
Proof. intros R L. unfold parse_aggregate_filter. steps. run (apply reads_expr; [done|len|done]). steps. done. Qed.
Lemma tails_reads f filter over rest : Forall reads (opt filter) -> Forall reads (concat (over_kids <$> opt over)) -> inner_end rest = true ->
  (length ((match filter with Some e => Word (lit "FILTER") :: LParen :: Word (lit "WHERE") :: te e ++ [RParen] | None => [] end
    ++ match over with Some w => Word (lit "OVER") :: LParen :: twindow w ++ [RParen] | None => [] end) ++ rest) < f)%nat ->
  forall A (k : option E -> option (WindowSpec E) -> A),
  (let* filter := parse_aggregate_filter (eb f) in let* over := parse_over_clause (eb f) (S f) in pret (k filter over))
    ((match filter with Some e => Word (lit "FILTER") :: LParen :: Word (lit "WHERE") :: te e ++ [RParen] | None => [] end
      ++ match over with Some w => Word (lit "OVER") :: LParen :: twindow w ++ [RParen] | None => [] end) ++ rest) = Parsed (k filter over) rest.
Proof.
  intros Hf Ho Hi L A k. rewrite <- app_assoc in *.
  assert (forall kw, kw ∈ ["within"; "filter"; "over"]%string -> is_kw (lit kw) (head rest) = false) as Hk.
  { intros kw Hk. destruct rest as [|[] rest]; try done. cbn [inner_end] in Hi. cbn [head is_kw]. by apply (not_in_kw _ _ _ Hi). }
  assert (forall ts, (over = None -> ts = rest) -> (forall w, over = Some w -> ts = Word (lit "OVER") :: LParen :: twindow w ++ RParen :: rest) -> (length ts < f)%nat ->
    parse_over_clause (eb f) (S f) ts = Parsed over rest) as KO.
  { intros ts H1 H2 Lt. destruct over as [w|].
    - rewrite (H2 w) in * by done. cbn [opt fmap list_fmap concat] in Ho. rewrite app_nil_r in Ho. apply over_reads; [done|len].
    - rewrite H1 by done. unfold parse_over_clause. run (apply kw_miss, Hk; in_list). done. }
  destruct filter as [e|]; cbn [opt] in Hf.
  - apply Forall_cons in Hf as [Hf _]. norm. run (apply filter_reads; [done|len]). run (apply KO; destruct over; intros; simplify_eq; norm; try done; len). done.
  - cbn [app] in *. run (instantiate (2 := None); unfold parse_aggregate_filter; run (apply kw_miss; destruct over; [vm_compute; reflexivity|apply Hk; in_list]); done).
    run (apply KO; destruct over; intros; simplify_eq; norm; try done; len). done.
Qed.

Lemma call_free name : negb (mem (lower name) CALL_RESERVED) = true ->
  not_in ["true"; "false"; "null"; "extract"; "exists"; "case"; "cast"] (lower name) = true /\ str_eqb (lower name) (lit "row") = false
  /\ str_eqb (lower name) (lit "array") = false /\ starts (Word name) = true.
Proof.
  intros Hr%negb_true_iff. cbn [starts].
  assert (forall l, forallb (fun v => mem v CALL_RESERVED) l = true -> mem (lower name) l = false) as K.
  { intros l Hl. apply not_true_iff_false. intros Hm. rewrite (mem_forall _ _ _ Hm Hl) in Hr. done. }
  split_and!; [unfold not_in; by rewrite K by (vm_compute; reflexivity)|..|unfold not_in; by rewrite K by (vm_compute; reflexivity)].
  - pose proof (K [lit "row"] ltac:(vm_compute; reflexivity)) as H. cbn [mem existsb] in H. by apply orb_false_elim in H as [H _].
  - pose proof (K [lit "array"] ltac:(vm_compute; reflexivity)) as H. cbn [mem existsb] in H. by apply orb_false_elim in H as [H _].
Qed.
Lemma tails_head filter over rest kw : kw ∈ ["within"]%string -> inner_end rest = true ->
  is_kw (lit kw) (head ((match filter with Some e => Word (lit "FILTER") :: LParen :: Word (lit "WHERE") :: te e ++ [RParen] | None => [] end
    ++ match over with Some w => Word (lit "OVER") :: LParen :: twindow w ++ [RParen] | None => [] end) ++ rest)) = false.
Proof.
  intros ->%list_elem_of_singleton Hi. destruct filter; [by vm_compute|]. destruct over; [by vm_compute|].
  destruct rest as [|[] rest]; try done. cbn [inner_end] in Hi. cbn [app head is_kw]. apply (not_in_kw _ _ _ Hi). in_list.
Qed.

Lemma call_reads name args star distinct filter over : (str_eqb name SUBSCRIPT = true -> length args <> 2%nat) ->
  negb (mem (lower name) CALL_RESERVED) = true -> negb star || (nil args && negb distinct) = true ->
  Forall reads (args ++ opt filter ++ concat (over_kids <$> opt over)) -> reads (EFunction name args star distinct filter over).
Proof.
  intros Hsub Hr Hstar [Ha [Hf Ho]%Forall_app]%Forall_app. destruct (call_free name Hr) as (R1 & R2 & R3 & R4).
  split; [rewrite te_call by done; by eexists _, _|]. apply atom_of_inner. intros f rest L Hi. rewrite te_call in * by done. unfold tcall in *. norm.
  set (tails := match filter with Some e => Word (lit "FILTER") :: LParen :: Word (lit "WHERE") :: te e ++ [RParen] | None => [] end
    ++ match over with Some w => Word (lit "OVER") :: LParen :: twindow w ++ [RParen] | None => [] end ++ rest) in *.
  assert (is_kw (lit "within") (head tails) = false) as Hw by (unfold tails; rewrite app_assoc; apply tails_head; [in_list|done]).
  assert (forall A (k : option E -> option (WindowSpec E) -> A),
    (let* filter := parse_aggregate_filter (eb f) in let* over := parse_over_clause (eb f) (S f) in pret (k filter over)) tails = Parsed (k filter over) rest) as K.
  { unfold tails in *. rewrite app_assoc. apply tails_reads; try done. len. }
  clearbody tails.
  rewrite word_inner, word_name; [|done|by rewrite R2|by rewrite R3|cbn; by rewrite bool_decide_true, andb_false_r by done|done].
  unfold parse_name. steps. unfold parse_function_args. destruct star.
  - cbn [negb orb] in Hstar. apply andb_prop in Hstar as [Hn Hd]. destruct args; [|done]. destruct distinct; [done|]. cbn [app] in *.
    steps. apply (K _ (fun a b => EFunction name [] true false a b)).
  - assert (forall ts d, ts = tcommas (te <$> args) ++ RParen :: tails -> (length ts < f)%nat ->
      (let* args := parse_call_args (eb f) (S f) in
       let* within := is_keyword "within" in
       let* args := (if within then
           let* _ := expect_keyword "within" in let* _ := expect_keyword "group" in let* _ := expect LParen in
           let* _ := expect_keyword "order" in let* _ := expect_keyword "by" in
           let* e := parse_expr (eb f) in
           let* _ := eat_keyword "asc" in let* _ := eat_keyword "desc" in
           let* _ := expect RParen in
           pret (args ++ [e])
         else pret args) in
       let* filter := parse_aggregate_filter (eb f) in
       let* over := parse_over_clause (eb f) (S f) in
       pret (EFunction name args false d filter over)) ts = Parsed (EFunction name args false d filter over) rest) as KA.
    { intros ts d -> Lt. run (apply call_args_reads; [done|done]). steps. apply (K _ (fun a b => EFunction name args false d a b)). }
    destruct distinct; cbn [app] in *.
    + steps. apply KA; [done|]. clear - L. len.
    + destruct args as [|a args].
      * cbn [fmap list_fmap tcommas app] in *. steps. run (steps; done). steps. apply (K _ (fun a b => EFunction name [] false false a b)).
      * pose proof (tcommas_begins te (a :: args) ltac:(done) (reads_begins _ Ha)) as B. steps. apply KA; [done|]. clear - L. len.
Qed.

(** *** Subscripts *)

Lemma subscript_reads a i : reads a -> reads i -> reads (EFunction SUBSCRIPT [a; i] false false None None).
Proof.
  intros Ra Ri. split; [rewrite te_subscript; apply begins_app, Ra|]. intros f rest L Hr. rewrite te_subscript in *. norm.
  destruct (proj2 Ra f (LBracket :: te i ++ RBracket :: rest) L eq_refl) as (k & Hk & ->). destruct k as [|k]; [lia|].
  exists k. split; [len|]. cbn [parse_suffixes]. steps. run (apply reads_expr; [done|len|done]). steps. done.
Qed.

(** ** All expressions *)

Lemma expr_reads e : expr_ok e = true -> Forall reads (expr_kids e) -> Forall reads_s (expr_queries e) -> reads e.
Proof.
  intros Hok HE HQ. destruct e; cbn [expr_kids expr_queries expr_ok] in *.
  all: repeat match goal with H : Forall _ (_ :: _) |- _ => apply Forall_cons in H as [? H] | H : Forall _ [] |- _ => clear H end.
  - apply int_reads. apply andb_prop in Hok as [H1 H2]. lia.
  - by apply float_reads.
  - split; [by eexists _, _|]. apply atom_of_inner. by intros.
  - apply bool_reads.
  - apply null_reads.
  - split; [by eexists _, _|]. apply atom_of_inner. by intros.
  - apply andb_prop in Hok as [_ H]. by apply column_reads.
  - apply andb_prop in Hok as [[H1 H2]%andb_prop _]. by apply qualified_reads.
  - by apply unary_reads.
  - by apply binary_reads.
  - by apply quantified_reads.
  - by apply row_reads.
  - by apply array_reads.
  - by apply is_null_reads.
  - by apply is_distinct_reads.
  - by apply like_reads.
  - by apply in_list_reads.
  - by apply between_reads.
  - apply case_reads; [by destruct whens|done].
  - by apply cast_reads.
  - by apply scalar_reads.
  - by apply exists_reads.
  - by apply in_subquery_reads.
  - destruct (str_eqb name SUBSCRIPT) eqn:En.
    + destruct (decide (length args = 2%nat)) as [H2|H2].
      * destruct args as [|a [|i [|]]]; try done. apply str_eqb_true in En as ->. cbn [app] in HE.
        apply andb_prop in Hok as [[[H3 H4]%andb_prop H5]%andb_prop H6]. destruct star, distinct, filter, over; try done.
        apply Forall_cons in HE as [Ha [Hi _]%Forall_cons]. by apply subscript_reads.
      * assert (word_ok name && negb (mem (lower name) CALL_RESERVED) && (negb star || nil args && negb distinct) = true) as K
          by (destruct args as [|? [|? [|]]]; done).
        apply andb_prop in K as [[_ K1]%andb_prop K2]. by apply call_reads.
    + apply andb_prop in Hok as [[_ K1]%andb_prop K2]. apply call_reads; try done. congruence.
Qed.
End reading.
