(* ===== verification/Roundtrip.v ===== *)
(** The round trip of the logical log: the text the serializer writes for a
    printable statement tokenizes and parses back to that statement. *)

From S2P Require Import Prelude Utf8 Numeric Types Float Index Wire Hba FloatOps Datetime Json Containers LockStmt Lexer Ast Serialize Parser Printed ExprRead.

#[local] Open Scope Z_scope.
#[local] Open Scope parser_scope.

(** * What may follow a clause *)

(** the end of a query, or one of the words [l] *)
Definition heads (l : list string) (ts : list Token) : bool :=
  match ts with
  | [] | (RParen | Semicolon) :: _ => true
  | Word w :: _ => mem (lower w) (lit <$> l)
  | _ => false
  end.
Lemma heads_all (c : str -> bool) l w ts : heads l (Word w :: ts) = true -> forallb (fun k => c (lit k)) l = true -> c (lower w) = true.
Proof. intros H F. apply (mem_forall c _ _ H). rewrite forallb_forall in F |- *. intros v Hv. apply list_elem_of_In, list_elem_of_fmap in Hv as (k & -> & Hk). by apply F, list_elem_of_In. Qed.
Lemma heads_kw l ts kw : heads l ts = true -> forallb (fun k => negb (str_eqb (lit k) (lit kw))) l = true -> is_kw (lit kw) (head ts) = false.
Proof. destruct ts as [|[] ts]; try done. intros H F. cbn [head is_kw]. apply negb_true_iff. by apply (heads_all (fun v => negb (str_eqb v (lit kw))) l _ ts). Qed.
Definition ending (t : Token) : bool := match t with RParen | Semicolon | Word _ => true | _ => false end.
Lemma heads_next l ts t : heads l ts = true -> ending t = false -> next_is t ts = false.
Proof. destruct ts as [|u ts]; [done|]. intros H Ht. cbn [next_is]. apply bool_decide_eq_false. intros ->. by destruct t. Qed.
Lemma heads_end l ts : heads l ts = true -> forallb (fun k => mem (lit k) FOLLOW) l = true -> expr_end ts = true.
Proof. destruct ts as [|[] ts]; try done. intros H F. by apply (heads_all (fun v => mem v FOLLOW) l _ ts). Qed.
Lemma heads_sub l l' ts : heads l ts = true -> forallb (fun k => mem (lit k) (lit <$> l')) l = true -> heads l' ts = true.
Proof. destruct ts as [|[] ts]; try done. intros H F. by apply (heads_all (fun v => mem v (lit <$> l')) l _ ts). Qed.
Lemma heads_app l l' ts rest : heads l rest = true -> heads l' ts = true -> forallb (fun k => mem (lit k) (lit <$> l')) l = true -> heads l' (ts ++ rest) = true.
Proof. destruct ts as [|[] ts]; try done. intros H _ F. by eapply heads_sub. Qed.
Lemma heads_clause l ts : heads l ts = true -> forallb (fun k => mem (lit k) TABLE_CLAUSES) l = true ->
  forall w ts', ts = Word w :: ts' -> is_table_ref_keyword w = true.
Proof. intros H F w ts' ->. by apply (heads_all (fun v => mem v TABLE_CLAUSES) l _ ts'). Qed.

(** the clauses from the [n]-th on, then ON when [b] *)
Definition clauses (n : nat) (b : bool) : list string :=
  drop n ["from"; "where"; "group"; "having"; "union"; "intersect"; "except"; "order"; "limit"; "offset"; "for"]%string ++ (if b then ["on"%string] else []).

Ltac closed_list := try (match goal with |- context [clauses _ ?b] => is_var b; destruct b end); vm_compute; reflexivity.
Ltac kw_test ::=
  lazymatch goal with
  | |- is_kw _ (head (Word (lit _) :: _)) = _ => vm_compute; reflexivity
  | |- is_kw _ (Some (Word (lit _))) = _ => vm_compute; reflexivity
  | |- is_kw _ (head (_ :: _)) = _ => first [eassumption|reflexivity]
  | |- is_kw _ (head []) = _ => reflexivity
  | |- is_kw _ (head _) = _ => first [eassumption|eapply heads_kw; [eassumption|closed_list]|apply begins_kw; [eassumption|in_list]]
  end.
Ltac next_test ::=
  lazymatch goal with
  | |- next_is _ (_ :: _) = _ => first [eassumption|reflexivity]
  | |- next_is _ [] = _ => reflexivity
  | |- next_is _ _ = _ => first [eassumption|eapply heads_next; [eassumption|reflexivity]|apply begins_next; [eassumption|reflexivity]]
  end.

(** * Names *)

Definition tids (names : list str) : list Token := LParen :: tcommas ((fun n => [id_tok n]) <$> names) ++ [RParen].
Definition taliases (names : list str) : list Token := match names with [] => [] | _ => tids names end.
Definition talias (a : option str) : list Token := match a with Some a => [Word (lit "AS"); id_tok a] | None => [] end.

Lemma toks_ids names : toks (ids_pc names) = tids names.
Proof. unfold ids_pc, parens, tids. by rewrite !toks_app, toks_commas. Qed.
Lemma toks_aliases names : toks (aliases_pc names) = taliases names.
Proof. destruct names; [done|]. apply toks_ids. Qed.
Lemma toks_columns names : toks (columns_pc names) = taliases names.
Proof. destruct names; [done|]. unfold columns_pc. rewrite toks_sp. apply toks_ids. Qed.
Lemma toks_alias a : toks (alias_pc a) = talias a.
Proof. by destruct a. Qed.

Lemma idents_reads l n rest : l <> [] -> next_is Comma rest = false -> (length (tcommas ((fun n => [id_tok n]) <$> l) ++ rest) < n)%nat ->
  comma_list n parse_ident (tcommas ((fun n => [id_tok n]) <$> l) ++ rest) = Parsed l rest.
Proof.
  intros N Hr L. eapply (comma_list_ok _ (fun n => [id_tok n])); [done|done|reflexivity|done|]. apply Forall_forall. intros x _ r _ _. apply ident_hit.
Qed.
Lemma columns_reads names f rest : (length (taliases names ++ rest) < f)%nat -> next_is LParen rest = false ->
  parse_columns f (taliases names ++ rest) = Parsed names rest.
Proof.
  intros L H. unfold parse_columns. destruct names as [|n names]; [cbn [taliases app]; by step|].
  cbn [taliases] in *. unfold tids in *. norm. step. run (apply idents_reads; [done..|len]). by steps.
Qed.
Lemma object_reads n f rest : (0 < f)%nat -> next_is Dot rest = false -> parse_object_name f (id_tok n :: rest) = Parsed n rest.
Proof.
  destruct f; [lia|]. intros _ H. unfold parse_object_name, parse_qualified_name. rewrite (bind_parsed _ _ _ (None, n) rest); [done|].
  step. cbn [dotted]. by steps.
Qed.
Lemma id_kw n kw : negb (str_eqb n (lit kw)) = true -> is_kw (lit kw) (Some (id_tok n)) = false.
Proof.
  intros H. unfold id_tok. destruct (simple_ident n) eqn:E; [|done]. cbn [is_kw]. rewrite (simple_lower _ E). by apply negb_true_iff.
Qed.
Lemma id_next n ts t : (match t with Word _ | QuotedIdent _ => false | _ => true end) = true -> next_is t (id_tok n :: ts) = false.
Proof. intros H. cbn [next_is]. apply bool_decide_eq_false. unfold id_tok. destruct (simple_ident n); intros <-; done. Qed.

(** An optional alias, before a clause. *)
Lemma alias_reads is_clause a rest : is_kw (lit "as") (head rest) = false -> (a = None -> forall w ts, rest = Word w :: ts -> is_clause w = true) ->
  parse_optional_alias is_clause (talias a ++ rest) = Parsed a rest.
Proof.
  intros Has H. unfold parse_optional_alias. destruct a as [a|]; cbn [talias app].
  - by steps.
  - step. destruct rest as [|[] rest]; try done. match goal with |- context [is_clause ?w] => by rewrite (H eq_refl w rest eq_refl) end.
Qed.

(** * Queries *)

Section queries.
Context {X : Type} (other : parser X) (xpc : X -> list piece).
Abbreviation E := (Expr (Select X)).
Abbreviation eb f := (fun (bp : Z) (ts : list Token) => parse_expr_bp other f bp ts).
Abbreviation sel f := (fun (ts : list Token) => parse_select other f ts).
Abbreviation stm f := (fun (ts : list Token) => parse_statement other f ts).
Abbreviation epc := (expr_pc (select_pc xpc)).
Abbreviation te := (te xpc).
Abbreviation tq := (tq xpc).
Abbreviation tt' := (tt' xpc).
Abbreviation reads := (reads other xpc).
Abbreviation reads_s := (reads_s other xpc).

Ltac tk :=
  unfold parens; repeat first [rewrite toks_app|rewrite toks_tok|rewrite toks_sp|rewrite toks_word|rewrite toks_nil|rewrite toks_paren|rewrite toks_ids
    |rewrite toks_aliases|rewrite toks_columns|rewrite toks_alias|progress cbn [app words]];
  rewrite ?toks_commas; repeat change (toks (epc ?e)) with (te e); repeat change (toks (select_pc xpc ?q)) with (tq q); repeat change (toks (statement_pc xpc ?q)) with (tt' q);
  repeat (rewrite <- ?app_assoc; cbn [app]).

Definition tclause (kw : string) (o : option E) : list Token := match o with Some e => Word (lit kw) :: te e | None => [] end.
Lemma toks_clause kw o : toks (clause_pc epc kw o) = tclause kw o.
Proof. destruct o; [|done]. unfold clause_pc, maybe. by tk. Qed.

(** An optional clause of one expression. *)
Lemma clause_reads kw KW o l f rest : is_kw (lit kw) (Some (Word (lit KW))) = true -> Forall reads (opt o) -> heads l rest = true ->
  forallb (fun k => mem (lit k) FOLLOW && negb (str_eqb (lit k) (lit kw))) l = true -> (length (tclause KW o ++ rest) <= f)%nat ->
  clause kw (parse_expr (eb f)) (tclause KW o ++ rest) = Parsed o rest.
Proof.
  intros Hk F H Hl L. assert (forallb (fun k => mem (lit k) FOLLOW) l = true /\ forallb (fun k => negb (str_eqb (lit k) (lit kw))) l = true) as [Hl1 Hl2].
  { rewrite !forallb_forall in *. split; intros k Kk; by apply Hl, andb_prop in Kk as [? ?]. }
  unfold clause. destruct o as [e|]; cbn [tclause app opt] in *.
  - apply Forall_cons in F as [He _]. run (by apply kw_hit). run (apply reads_expr; [done|len|by eapply heads_end]). done.
  - by run (by apply kw_miss; eapply heads_kw).
Qed.
Lemma tclause_heads KW o l : mem (lower (lit KW)) (lit <$> l) = true -> heads l (tclause KW o) = true.
Proof. by destruct o. Qed.

(** ** The FROM clause *)

Definition tlateral (b : bool) : list Token := if b then [Word (lit "LATERAL")] else [].
Definition targs (args : list E) : list Token := match args with [] => [] | _ => LParen :: tcommas (te <$> args) ++ [RParen] end.
Definition tordinality (b : bool) : list Token := if b then [Word (lit "WITH"); Word (lit "ORDINALITY")] else [].
Definition ttref (t : TableRef X) : list Token :=
  match t with
  | mk_tref schema name args alias sub lateral _ cols ord =>
      tlateral lateral
      ++ match sub with
         | Some sub => LParen :: tq sub ++ RParen :: talias alias ++ taliases cols
         | None =>
             match schema with Some s => [id_tok s; Dot; id_tok name] | None => [id_tok name] end
             ++ targs args ++ tordinality ord ++ talias alias ++ taliases cols
         end
  end.
Lemma toks_tref t : toks (tref_pc (select_pc xpc) t) = ttref t.
Proof.
  destruct t as [schema name args alias sub lateral only cols ord]. unfold tref_pc, ttref, targs, tordinality, tlateral.
  destruct lateral, sub as [sub|], schema as [s|], args as [|a args], ord; cbn [maybe]; tk; done.
Qed.
(** the words after a table reference *)
Definition TABLE_END : list string :=
  ["where"; "order"; "limit"; "offset"; "group"; "having"; "join"; "left"; "right"; "full"; "cross"; "on"; "union"; "intersect"; "except"; "for"]%string.

Lemma alias_table a cols rest : (nil cols || negb (none a)) = true -> heads TABLE_END rest = true ->
  parse_optional_alias is_table_ref_keyword (talias a ++ taliases cols ++ rest) = Parsed a (taliases cols ++ rest).
Proof.
  intros Hc H. apply alias_reads.
  - destruct cols; [kw_test|done].
  - intros ->. destruct cols; [|done]. eapply heads_clause; [exact H|by vm_compute].
Qed.
Lemma lateral_reads b n rest : (b = false -> is_kw (lit "lateral") (Some n) = false) -> eat_keyword "lateral" (tlateral b ++ n :: rest) = Parsed b (n :: rest).
Proof. destruct b; cbn [tlateral app]; intros H; [by apply kw_hit|]. apply kw_miss. by apply H. Qed.
Lemma not_in_list n l kw : negb (mem n (lit <$> l)) = true -> kw ∈ l -> negb (str_eqb n (lit kw)) = true.
Proof. intros H Hk. apply negb_true_iff. by apply (not_in_kw l). Qed.

Lemma qualified_name_reads (schema : option str) name f rest : (0 < f)%nat -> next_is Dot rest = false ->
  parse_qualified_name (S f) (match schema with Some s => [id_tok s; Dot; id_tok name] | None => [id_tok name] end ++ rest) = Parsed (schema, name) rest.
Proof.
  destruct f; [lia|]. intros _ H. unfold parse_qualified_name. destruct schema as [s|]; cbn [app].
  - step. cbn [dotted]. steps. done.
  - step. cbn [dotted]. steps. done.
Qed.
Lemma table_tail a cols rest t : (nil cols || negb (none a)) = true -> heads TABLE_END rest = true -> t = LParen \/ t = Dot ->
  next_is t (talias a ++ taliases cols ++ rest) = false.
Proof. intros Hc H T. destruct a; [by destruct T; subst|]. destruct cols; [|done]. by apply (heads_next TABLE_END); [|destruct T; subst]. Qed.
Lemma args_reads {B} args f rest (k : list E -> parser B) : Forall reads args -> (length (targs args ++ rest) <= f)%nat -> next_is LParen rest = false ->
  (let* call := eat LParen in let* args := (if call then parse_call_args (eb f) (S f) else pret []) in k args) (targs args ++ rest) = k args rest.
Proof.
  intros F L H. destruct args as [|a args]; [cbn [targs app]; by steps|]. cbn [targs] in *. norm. step. by run (apply call_args_reads; [done|len]).
Qed.

Lemma derived_reads alias sub lateral cols f rest : reads_s sub -> (nil cols || negb (none alias)) = true -> heads TABLE_END rest = true ->
  (length (ttref (mk_tref None (default [] alias) [] alias (Some sub) lateral false cols false) ++ rest) <= f)%nat ->
  parse_table_ref (eb f) (sel f) (S f) (ttref (mk_tref None (default [] alias) [] alias (Some sub) lateral false cols false) ++ rest)
  = Parsed (mk_tref None (default [] alias) [] alias (Some sub) lateral false cols false) rest.
Proof.
  intros [[tl Hq] Rq] Hc H L. assert (next_is LParen rest = false) as HL by next_test. unfold parse_table_ref, ttref in *. norm.
  run (by apply lateral_reads). step. run (reflexivity). run (reflexivity). cbn [andb lookup list_lookup].
  match goal with |- (if ?c then _ else _) _ = _ => assert (c = true) as -> by (rewrite Hq; by destruct (no_ctes sub)) end.
  unfold parse_derived. step. run (apply Rq; [destruct lateral; len|done]). step. run (by apply alias_table).
  run (apply columns_reads; [destruct lateral; len|done]). done.
Qed.
Lemma named_reads schema name args alias lateral cols ord f rest : Forall reads args ->
  table_name_ok (default name schema) = true -> (nil cols || negb (none alias)) = true -> heads TABLE_END rest = true ->
  (length (ttref (mk_tref schema name args alias None lateral false cols ord) ++ rest) <= f)%nat ->
  parse_table_ref (eb f) (sel f) (S f) (ttref (mk_tref schema name args alias None lateral false cols ord) ++ rest)
  = Parsed (mk_tref schema name args alias None lateral false cols ord) rest.
Proof.
  intros Ha Hn Hc H L. assert (next_is LParen rest = false) as HL by next_test.
  apply andb_prop in Hn as [_ Hn]. set (n := default name schema) in *.
  assert (exists tl, match schema with Some s => [id_tok s; Dot; id_tok name] | None => [id_tok name] end = id_tok n :: tl) as [tl Htl] by (by destruct schema; eexists).
  unfold parse_table_ref, ttref in *. rewrite Htl in *. norm.
  run (apply lateral_reads; intros _; apply id_kw; by apply (not_in_list _ _ _ Hn); left).
  run (by apply at_token_eq, id_next). run (reflexivity). run (reflexivity). cbn [andb].
  unfold parse_named. run (apply kw_miss, id_kw; apply (not_in_list _ _ _ Hn); in_list).
  assert (forall t, t = LParen \/ t = Dot -> next_is t (tordinality ord ++ talias alias ++ taliases cols ++ rest) = false) as Ht.
  { intros t T. destruct ord; [by destruct T; subst|]. by apply table_tail. }
  assert (next_is Dot (targs args ++ tordinality ord ++ talias alias ++ taliases cols ++ rest) = false) as Hd by (destruct args; [by apply Ht; right|done]).
  run (rewrite app_comm_cons, <- Htl; apply qualified_name_reads; [by destruct lateral; len|done]).
  rewrite args_reads; [|done|by destruct lateral; len|apply Ht; by left].
  rewrite (bind_parsed _ _ _ ord (tordinality ord ++ talias alias ++ taliases cols ++ rest)).
  2: { apply is_keyword_eq. destruct ord; [done|]. destruct alias; [done|]. destruct cols; [|done]. cbn [tordinality talias taliases app]. kw_test. }
  run (reflexivity). destruct ord; cbn [tordinality app andb].
  - run (reflexivity). run (by apply alias_table). run (apply columns_reads; [destruct lateral; len|done]). done.
  - steps. run (by apply alias_table). run (apply columns_reads; [destruct lateral; len|done]). done.
Qed.
Lemma tref_reads t f rest : tref_ok t = true -> Forall reads (tref_kids t) -> Forall reads_s (tref_queries t) -> heads TABLE_END rest = true ->
  (length (ttref t ++ rest) <= f)%nat -> parse_table_ref (eb f) (sel f) (S f) (ttref t ++ rest) = Parsed t rest.
Proof.
  destruct t as [schema name args alias sub lateral only cols ord]. cbn [tref_ok tref_kids tref_queries]. intros Hok HE HQ H L.
  apply andb_prop in Hok as [[[[Ho _]%andb_prop Hc]%andb_prop _]%andb_prop Hok]. destruct only; [done|]. destruct sub as [sub|].
  - apply Forall_cons in HQ as [HQ _]. apply andb_prop in Hok as [[[H1 H2]%andb_prop H3]%andb_prop H4]. destruct schema, args, ord; try done.
    apply str_eqb_true in H2 as ->. by apply derived_reads.
  - apply named_reads; try done. destruct schema; [|done]. by apply andb_prop in Hok as [Hok _].
Qed.

Definition tjoin (j : Join X) : list Token := match j with mk_join kind t on => toks (join_words kind) ++ ttref t ++ tclause "ON" on end.
Definition tfrom (f : FromClause X) : list Token := match f with mk_from base joins => ttref base ++ concat (tjoin <$> joins) end.
Lemma toks_from f : toks (from_pc (select_pc xpc) f) = tfrom f.
Proof.
  destruct f as [base joins]. unfold from_pc, tfrom. rewrite toks_app, toks_tref. f_equal. induction joins as [|[kind t on] js IH]; [done|].
  cbn [fmap list_fmap concat]. rewrite toks_app, IH. f_equal. unfold join_pc, tjoin. tk. by rewrite toks_tref, toks_clause.
Qed.
(** the words after a FROM clause *)
Definition FROM_END : list string := ["where"; "order"; "limit"; "offset"; "group"; "having"; "on"; "union"; "intersect"; "except"; "for"]%string.

Lemma join_kind_reads k rest : parse_join_kind (toks (join_words k) ++ rest) = Parsed (Some k) rest.
Proof. by destruct k. Qed.
Lemma join_kind_none rest : heads FROM_END rest = true -> parse_join_kind rest = Parsed None rest.
Proof. intros H. unfold parse_join_kind. by steps. Qed.
Lemma joins_heads js rest : heads FROM_END rest = true -> heads TABLE_END (concat (tjoin <$> js) ++ rest) = true.
Proof.
  intros H. eapply heads_app; [exact H| |by vm_compute]. destruct js as [|[k t on] js]; [done|]. by destruct k.
Qed.
Lemma on_heads on js rest : heads FROM_END rest = true -> heads TABLE_END (tclause "ON" on ++ concat (tjoin <$> js) ++ rest) = true.
Proof. intros H. eapply heads_app; [by apply joins_heads|by apply tclause_heads|by vm_compute]. Qed.
Lemma joins_reads f js rest : forallb join_ok js = true -> Forall reads (concat (join_kids <$> js)) -> Forall reads_s (concat (join_queries <$> js)) ->
  heads FROM_END rest = true -> (length (concat (tjoin <$> js) ++ rest) <= f)%nat ->
  forall n, (length (concat (tjoin <$> js) ++ rest) < n)%nat -> parse_joins (eb f) (sel f) (S f) n (concat (tjoin <$> js) ++ rest) = Parsed js rest.
Proof.
  intros Hok HE HQ H. induction js as [|[k t on] js IH]; intros L n Ln; (destruct n as [|n]; [lia|]); cbn [parse_joins].
  - cbn [fmap list_fmap concat app]. step. by run (by apply join_kind_none).
  - cbn [fmap list_fmap concat forallb] in *. change (tjoin (mk_join k t on)) with (toks (join_words k) ++ ttref t ++ tclause "ON" on) in *. apply andb_prop in Hok as [Hj Hok]. apply Forall_app in HE as [Ej HE], HQ as [Qj HQ].
    cbn [join_ok join_kids join_queries] in *. apply andb_prop in Hj as [Ht Ho]. apply Forall_app in Ej as [Et Eo]. norm.
    assert (length (toks (join_words k)) <> 0)%nat as Lk by (by destruct k).
    rewrite (bind_parsed _ _ _ false _) by (apply eat_miss; by destruct k).
    run (by apply join_kind_reads). run (apply tref_reads; [done..|by apply on_heads|len]).
    rewrite (bind_parsed _ _ _ on (concat (tjoin <$> js) ++ rest)); [run (apply IH; [done..|len|len]); done|].
    destruct k, on as [e|]; try done; cbn [tclause app opt] in *; apply Forall_cons in Eo as [Eo _]; step;
      by run (apply reads_expr; [done|len|eapply heads_end; [by apply joins_heads|by vm_compute]]).
Qed.
Lemma from_reads fc f rest : from_ok fc = true -> Forall reads (from_kids fc) -> Forall reads_s (from_queries fc) -> heads FROM_END rest = true ->
  (length (tfrom fc ++ rest) <= f)%nat -> parse_from_clause (eb f) (sel f) (S f) (tfrom fc ++ rest) = Parsed fc rest.
Proof.
  destruct fc as [base js]. cbn [from_ok from_kids from_queries tfrom]. intros Hok HE HQ H L. norm.
  apply andb_prop in Hok as [Hb Hj]. apply Forall_app in HE as [Eb Ej], HQ as [Qb Qj]. unfold parse_from_clause.
  run (apply tref_reads; [done..|by apply joins_heads|done]). run (apply joins_reads; [done..|len|len]). done.
Qed.
Definition tfromc (kw : string) (o : option (FromClause X)) : list Token := match o with Some f => Word (lit kw) :: tfrom f | None => [] end.
Lemma toks_fromc kw o : toks (from_clause_pc (select_pc xpc) kw o) = tfromc kw o.
Proof. destruct o; [|done]. unfold from_clause_pc, maybe. tk. by rewrite toks_from. Qed.
Lemma fromc_reads kw KW o l f rest : is_kw (lit kw) (Some (Word (lit KW))) = true -> match o with Some f => from_ok f | None => true end = true ->
  Forall reads (concat (from_kids <$> opt o)) -> Forall reads_s (concat (from_queries <$> opt o)) -> heads l rest = true ->
  forallb (fun k => mem (lit k) (lit <$> FROM_END)) l = true -> forallb (fun k => negb (str_eqb (lit k) (lit kw))) l = true -> (length (tfromc KW o ++ rest) <= f)%nat ->
  clause kw (parse_from_clause (eb f) (sel f) (S f)) (tfromc KW o ++ rest) = Parsed o rest.
Proof.
  intros Hk Hok HE HQ H H1 H2 L. unfold clause. destruct o as [fc|]; cbn [tfromc app opt fmap list_fmap concat] in *.
  - rewrite app_nil_r in HE, HQ. run (by apply kw_hit). run (apply from_reads; [done..|by eapply heads_sub|len]). done.
  - by run (by apply kw_miss; eapply heads_kw).
Qed.
Lemma tfromc_heads KW o l : mem (lower (lit KW)) (lit <$> l) = true -> heads l (tfromc KW o) = true.
Proof. by destruct o. Qed.

(** ** The select list and the GROUP BY clause *)

Definition titem (i : SelectItem E) : list Token := match i with Wildcard => [Star] | SelectExpr e a => te e ++ talias a end.
Lemma toks_items l : toks (commas (item_pc epc <$> l)) = tcommas (titem <$> l).
Proof. rewrite toks_commas. f_equal. apply list_fmap_ext. intros i [|e [a|]] _; unfold item_pc, titem; tk; cbn [talias]; by rewrite ?app_nil_r. Qed.
Lemma item_clause rest : heads (clauses 0 false) rest = true -> forall w ts, rest = Word w :: ts -> is_select_clause_keyword w = true.
Proof. intros H w ts ->. apply (heads_all (fun v => mem v SELECT_CLAUSES) _ _ ts H). by vm_compute. Qed.
Lemma items_reads l f rest : l <> [] -> Forall reads (concat (item_kids <$> l)) -> heads (clauses 0 false) rest = true -> (length (tcommas (titem <$> l) ++ rest) < f)%nat ->
  parse_select_list (eb f) (S f) (tcommas (titem <$> l) ++ rest) = Parsed l rest.
Proof.
  intros N HE H L. unfold parse_select_list. apply (comma_list_ok _ titem (pred f)); [next_test|done|lia|lia|].
  assert (0 < f)%nat as Hf by lia. clear N L. induction l as [|i l IH]; [done|]. cbn [fmap list_fmap concat] in HE. apply Forall_app in HE as [Hi HE].
  constructor; [|by apply IH]. intros r Hr L. unfold parse_select_item. destruct i as [|e a]; cbn [titem app] in *; [by steps|].
  cbn [item_kids] in Hi. apply Forall_cons in Hi as [Hi _]. pose proof (proj1 Hi) as B. norm.
  assert (is_kw (lit "as") (head r) = false) as Has. { destruct Hr as [->|Hr]; [kw_test|by rewrite Hr]. }
  rewrite (bind_parsed _ _ _ false _) by (apply eat_miss; by apply begins_next).
  rewrite (bind_parsed _ _ _ e (talias a ++ r)).
  - by run (apply alias_reads; [done|]; intros ->; destruct Hr as [->|Hr]; [|intros w ts ->; done]; by eapply item_clause).
  - apply reads_expr; [done|destruct f; len|]. destruct a; [done|]. destruct Hr as [->|Hr]; [eapply heads_end; [exact H|by vm_compute]|]. by destruct r as [|[] r].
Qed.

Definition tgroup (grp : list E) (sets : list (list E)) : list Token :=
  match grp, sets with
  | _ :: _, _ => Word (lit "GROUP") :: Word (lit "BY") :: tcommas (te <$> grp)
  | [], _ :: _ => Word (lit "GROUP") :: Word (lit "BY") :: Word (lit "GROUPING") :: Word (lit "SETS") :: LParen :: tcommas ((fun s => LParen :: tcommas (te <$> s) ++ [RParen]) <$> sets) ++ [RParen]
  | [], [] => []
  end.
Lemma toks_group grp sets : toks (group_pc epc grp sets) = tgroup grp sets.
Proof.
  unfold group_pc, tgroup. destruct grp as [|e grp]; [destruct sets as [|s sets]|]; tk; try done. do 6 f_equal.
  f_equal. apply list_fmap_ext. intros i s' _. apply toks_paren.
Qed.
Lemma tgroup_heads grp sets l : mem (lit "group") (lit <$> l) = true -> heads l (tgroup grp sets) = true.
Proof. by destruct grp, sets. Qed.

Lemma cross_one (sets : list (list E)) : cross_sets [sets] = sets.
Proof.
  unfold cross_sets. cbn [foldl mbind list_bind]. rewrite app_nil_r. induction sets as [|s l IH]; [done|]. rewrite bind_cons. cbn [app]. f_equal. exact IH.
Qed.
Definition element (e : E) : bool * list (list E) := (false, [[e]]).
Definition telement (p : bool * list (list E)) : list Token := match p with (false, [[e]]) => te e | _ => [] end.
Lemma elements_plain (grp : list E) : existsb fst (element <$> grp) = false /\ concat (concat (snd <$> (element <$> grp))) = grp /\ telement <$> (element <$> grp) = te <$> grp.
Proof.
  induction grp as [|e grp (IH1 & IH2 & IH3)]; [done|]. split_and!; [exact IH1| |].
  - change (e :: concat (concat (snd <$> (element <$> grp))) = e :: grp). by rewrite IH2.
  - cbn [fmap list_fmap]. f_equal. exact IH3.
Qed.
Lemma group_reads grp sets b f rest : (nil grp || nil sets) = true -> Forall reads grp -> Forall reads (concat sets) -> heads (clauses 3 b) rest = true ->
  (length (tgroup grp sets ++ rest) <= f)%nat -> parse_group_by (eb f) (S f) (tgroup grp sets ++ rest) = Parsed (grp, sets) rest.
Proof.
  intros Hok Hg Hs H L. unfold parse_group_by. destruct grp as [|e grp]; [destruct sets as [|s sets]|destruct sets; [|done]].
  - cbn [tgroup app]. by step.
  - cbn [tgroup] in *. norm. steps. rewrite (bind_parsed _ _ _ [(true, s :: sets)] rest); [cbn [existsb fst orb fmap list_fmap snd]; by rewrite cross_one|].
    cbn [comma_list]. rewrite (bind_parsed _ _ _ (true, s :: sets) rest); [by step|]. unfold parse_group_element. steps.
    run (apply (comma_list_ok _ (fun s => LParen :: tcommas (te <$> s) ++ [RParen]) (pred f)); [done|done|len|len|]); [by steps|].
    assert (0 < f)%nat as Hf by len. clear L Hok. rewrite Forall_concat in Hs. eapply Forall_impl; [exact Hs|]. intros x Hx r _ L. unfold parse_grouping_set, parse_expr_list_until_rparen.
    norm. step. apply reads_until; [done|destruct f; len|by left].
  - cbn [tgroup] in *. norm. steps. destruct (elements_plain (e :: grp)) as (H1 & H2 & H3). rewrite (bind_parsed _ _ _ (element <$> (e :: grp)) rest); [by rewrite H1, H2|].
    rewrite <- H3. apply (comma_list_ok _ telement (pred f)); [next_test|done|rewrite H3; len|rewrite H3; len|]. assert (0 < f)%nat as Hf by len. clear H1 H2 H3 L.
    apply Forall_fmap. eapply Forall_impl; [exact Hg|]. intros x Hx r Hr L. pose proof (proj1 Hx) as B. unfold parse_group_element. cbn [compose telement element] in *.
    steps. run (apply reads_expr; [done|lia|]); [done|]. destruct Hr as [->|Hr]; [eapply heads_end; [exact H|closed_list]|]. by destruct r as [|[] r].
Qed.

(** ** The core of a query *)

Definition tdistinct (distinct : bool) (don : list E) : list Token :=
  if distinct then Word (lit "DISTINCT") :: match don with [] => [] | _ => Word (lit "ON") :: LParen :: tcommas (te <$> don) ++ [RParen] end else [].
Definition tcore (s : Select X) : list Token :=
  match s with
  | mk_select _ distinct don proj from filter grp sets having _ _ _ _ _ =>
      Word (lit "SELECT") :: tdistinct distinct don ++ tcommas (titem <$> proj) ++ tfromc "FROM" from ++ tclause "WHERE" filter ++ tgroup grp sets ++ tclause "HAVING" having
  end.
Definition core (s : Select X) : Select X :=
  match s with
  | mk_select _ distinct don proj from filter grp sets having _ _ _ _ _ => mk_select [] distinct don proj from filter grp sets having [] None None [] []
  end.
Definition has_from (s : Select X) : bool := match s with mk_select _ _ _ _ from _ _ _ _ _ _ _ _ _ => negb (none from) end.
Lemma toks_distinct distinct don : toks (distinct_pc (select_pc xpc) distinct don) = tdistinct distinct don.
Proof. unfold distinct_pc, tdistinct. destruct distinct; [|done]. destruct don; [done|]. by tk. Qed.

Lemma items_begin (l : list (SelectItem E)) : l <> [] -> Forall reads (concat (item_kids <$> l)) ->
  forall rest kw, kw ∈ STARTS -> is_kw (lit kw) (head (tcommas (titem <$> l) ++ rest)) = false.
Proof.
  intros N F rest kw Hk. destruct l as [|i l]; [done|]. cbn [fmap list_fmap concat] in F. apply Forall_app in F as [Fi _].
  assert (exists tl, tcommas (titem <$> (i :: l)) = titem i ++ tl) as [tl Htl] by (destruct l; [exists []; by rewrite app_nil_r|by eexists]).
  cbn [fmap list_fmap] in Htl |- *. rewrite Htl, <- app_assoc. destruct i as [|e a]; [done|]. cbn [item_kids titem] in *. apply Forall_cons in Fi as [[B _] _].
  rewrite <- app_assoc. by apply begins_kw.
Qed.

Definition core_reads (s : Select X) : Prop := forall b f rest, (length (tcore s ++ rest) <= f)%nat -> (b = true -> has_from s = true) ->
  heads (clauses 4 b) rest = true -> parse_select_core (eb f) (sel f) (S f) (tcore s ++ rest) = Parsed (core s) rest.

Lemma distinct_reads {B} distinct don ts f (k : bool -> list E -> parser B) : (distinct || nil don) = true -> Forall reads don ->
  (forall kw, kw ∈ STARTS -> is_kw (lit kw) (head ts) = false) -> (length (tdistinct distinct don ++ ts) <= f)%nat ->
  (let* distinct := eat_keyword "distinct" in
   let* on := (if distinct then eat_keyword "on" else pret false) in
   let* distinct_on := (if on then let* _ := expect LParen in let* l := comma_list (S f) (parse_expr (eb f)) in let* _ := expect RParen in pret l else pret []) in
   k distinct distinct_on) (tdistinct distinct don ++ ts) = k distinct don ts.
Proof.
  intros Hok F H L. unfold tdistinct in *. destruct distinct; [destruct don as [|e don]|destruct don; [|done]]; cbn [app] in *.
  - step. run (by apply kw_miss, H; in_list). by steps.
  - norm. steps. rewrite (bind_parsed _ _ _ (e :: don) ts); [done|]. step. run (apply reads_list; [done|done|len|done|done]). by steps.
  - run (by apply kw_miss, H; in_list). by steps.
Qed.

Lemma core_ok ctes distinct don proj from filter grp sets having ord limit offset locking set_ops
  (s := mk_select ctes distinct don proj from filter grp sets having ord limit offset locking set_ops) :
  select_ok s = true -> Forall reads (select_kids s) -> Forall reads_s (concat (from_queries <$> opt from)) -> core_reads s.
Proof.
  intros Hok HE Qf b f rest L Hb H. subst s. cbn [select_ok select_kids tcore core has_from] in *.
  apply andb_prop in Hok as [[[[[[[_ Od]%andb_prop Op]%andb_prop _]%andb_prop Of]%andb_prop Og]%andb_prop _]%andb_prop _].
  apply Forall_app in HE as [Hdon [Hproj [Hfrom [Hfil [Hg [Hs [Hhav _]%Forall_app]%Forall_app]%Forall_app]%Forall_app]%Forall_app]%Forall_app].
  assert (proj <> []) as N by (by destruct proj). norm.
  assert (heads (clauses 3 b) (tclause "HAVING" having ++ rest) = true) as H3 by (eapply heads_app; [exact H|apply tclause_heads; closed_list|closed_list]).
  assert (heads (clauses 2 b) (tgroup grp sets ++ tclause "HAVING" having ++ rest) = true) as H2
    by (eapply heads_app; [exact H3|apply tgroup_heads; closed_list|closed_list]).
  assert (heads (clauses 1 b) (tclause "WHERE" filter ++ tgroup grp sets ++ tclause "HAVING" having ++ rest) = true) as H1
    by (eapply heads_app; [exact H2|apply tclause_heads; closed_list|closed_list]).
  assert (heads (clauses 0 false) (tfromc "FROM" from ++ tclause "WHERE" filter ++ tgroup grp sets ++ tclause "HAVING" having ++ rest) = true) as H0.
  { destruct from; [vm_compute; reflexivity|]. destruct b; [by specialize (Hb eq_refl)|]. eapply heads_sub; [exact H1|closed_list]. }
  unfold parse_select_core. step. step.
  erewrite (bind_parsed _ _ _ false).
  2: { apply kw_miss. destruct distinct; [vm_compute; reflexivity|]. apply items_begin; [done..|in_list]. }
  rewrite distinct_reads; [|done|done|intros; by apply items_begin|len].
  run (apply items_reads; [done..|len]).
  run (apply (fromc_reads _ _ _ (clauses 1 b)); [vm_compute; reflexivity|done..|closed_list|closed_list|len]).
  run (apply (clause_reads _ _ _ (clauses 2 b)); [vm_compute; reflexivity|done..|closed_list|len]).
  run (apply (group_reads _ _ b); [done..|len]).
  run (apply (clause_reads _ _ _ (clauses 4 b)); [vm_compute; reflexivity|done..|closed_list|len]). done.
Qed.

(** ** The tail of a query *)

Definition tset_op (o : SetOperation X) : list Token :=
  match o with mk_set_op op all s => Word (lit (set_operator_word op)) :: (if all then [Word (lit "ALL")] else []) ++ tcore s end.
Lemma set_ops_heads ops b : heads (clauses 4 b) (concat (tset_op <$> ops)) = true.
Proof. destruct ops as [|[op all s] ops]; [done|]. by destruct op, b. Qed.
Lemma set_ops_reads b f ops rest : Forall (fun o => match o with mk_set_op _ _ s => core_reads s /\ core s = s end) ops -> heads (clauses 7 b) rest = true -> (b = true -> ops = []) ->
  (length (concat (tset_op <$> ops) ++ rest) <= f)%nat ->
  forall n, (length (concat (tset_op <$> ops) ++ rest) < n)%nat -> parse_set_ops (eb f) (sel f) (S f) n (concat (tset_op <$> ops) ++ rest) = Parsed ops rest.
Proof.
  intros F H. induction F as [|[op all s] ops [Rs Cs] F IH]; intros Hb L n Ln; (destruct n as [|n]; [lia|]); cbn [parse_set_ops].
  - cbn [fmap list_fmap concat app]. unfold eat_set_operator. rewrite (bind_parsed _ _ _ None rest); [done|]. by steps.
  - cbn [fmap list_fmap concat] in *. change (tset_op (mk_set_op op all s)) with (Word (lit (set_operator_word op)) :: (if all then [Word (lit "ALL")] else []) ++ tcore s) in *. norm.
    destruct b; [by specialize (Hb eq_refl)|].
    rewrite (bind_parsed _ _ _ (Some op) ((if all then [Word (lit "ALL")] else []) ++ tcore s ++ concat (tset_op <$> ops) ++ rest)) by (by destruct op).
    rewrite (bind_parsed _ _ _ all (tcore s ++ concat (tset_op <$> ops) ++ rest)) by (destruct all, s; reflexivity).
    assert (heads (clauses 4 false) (concat (tset_op <$> ops) ++ rest) = true) as H4.
    { eapply heads_app; [exact H|apply set_ops_heads|closed_list]. }
    run (apply (Rs false); [destruct all; len|done|done]). run (apply IH; [done|destruct all; len|destruct all; len]). by rewrite Cs.
Qed.

Definition torders (ord : list (OrderByItem E)) : list Token := match ord with [] => [] | _ => Word (lit "ORDER") :: Word (lit "BY") :: tcommas (torder xpc <$> ord) end.
Lemma toks_orders ord : toks (order_pc (select_pc xpc) ord) = torders ord.
Proof. unfold order_pc, torders. destruct ord; [done|]. by rewrite toks_app, toks_order. Qed.
Lemma order_reads ord b f rest : Forall reads (o_expr <$> ord) -> heads (clauses 8 b) rest = true -> (length (torders ord ++ rest) <= f)%nat ->
  parse_order_clause (eb f) (S f) (torders ord ++ rest) = Parsed ord rest.
Proof.
  intros F H L. unfold parse_order_clause, torders in *. destruct ord as [|o ord]; [cbn [app]; by step|]. norm. steps.
  apply orders_reads; [done|done|len|eapply heads_end; [exact H|closed_list]|next_test|kw_test].
Qed.

Lemma limits_reads limit offset b f rest : Forall reads (opt limit) -> Forall reads (opt offset) -> heads (clauses 10 b) rest = true ->
  (length (tclause "LIMIT" limit ++ tclause "OFFSET" offset ++ rest) <= f)%nat ->
  parse_limits (eb f) (S f) None None (tclause "LIMIT" limit ++ tclause "OFFSET" offset ++ rest) = Parsed (limit, offset) rest.
Proof.
  intros Fl Fo H L. destruct limit as [l|], offset as [o|]; cbn [tclause app opt] in *; norm;
    repeat match goal with F : Forall _ [_] |- _ => apply Forall_cons in F as [F _] end; pose proof (heads_end _ _ H) as He; cbn [parse_limits].
  - destruct f as [|[|f]]; [len..|]. step. run (apply reads_expr; [done|len|done]). cbn [parse_limits]. steps.
    run (apply reads_expr; [done|len|apply He; closed_list]). steps. done.
  - destruct f as [|f]; [len|]. step. run (apply reads_expr; [done|len|apply He; closed_list]). cbn [parse_limits]. steps. done.
  - destruct f as [|f]; [len|]. steps. run (apply reads_expr; [done|len|apply He; closed_list]). steps. cbn [parse_limits]. steps. done.
  - steps. done.
Qed.

Definition tlock (c : RowLockingClause) : list Token := toks (locking_pc c).
Definition tof (tables : list str) : list Token := match tables with [] => [] | _ => Word (lit "OF") :: tcommas ((fun n => [id_tok n]) <$> tables) end.
Definition twait (w : option RowLockingWaitPolicy) : list Token :=
  match w with Some NoWait => [Word (lit "NOWAIT")] | Some SkipLocked => [Word (lit "SKIP"); Word (lit "LOCKED")] | None => [] end.
Lemma tlock_eq c : tlock c = toks (locking_words (rc_mode c)) ++ tof (rc_tables c) ++ twait (rc_wait_policy c).
Proof. destruct c as [[] [|t ts] [[]|]]; unfold tlock, locking_pc; cbn [rc_mode rc_tables rc_wait_policy]; tk; done. Qed.
Lemma lock_heads l b rest : heads (clauses 11 b) rest = true -> heads (clauses 10 b) (concat (tlock <$> l) ++ rest) = true.
Proof.
  intros H. eapply heads_app; [exact H| |closed_list]. destruct l as [|c l]; [done|]. cbn [fmap list_fmap concat]. rewrite tlock_eq. destruct (rc_mode c), b; done.
Qed.
Lemma lock_tail_reads mode tables policy b f rest : heads (clauses 10 b) rest = true -> (length (tof tables ++ twait policy ++ rest) <= f)%nat ->
  (let* of_ := eat_keyword "of" in
   let* tables := (if of_ then comma_list (S f) (parse_object_name (S f)) else pret []) in
   let* nowait := eat_keyword "nowait" in
   let* policy :=
     (if nowait then pret (Some NoWait)
      else let* skip := eat_keyword "skip" in if skip then let* _ := expect_keyword "locked" in pret (Some SkipLocked) else pret None) in
   pret (mk_clause mode tables policy)) (tof tables ++ twait policy ++ rest) = Parsed (mk_clause mode tables policy) rest.
Proof.
  intros H L.
  assert (forall ts, (let* nowait := eat_keyword "nowait" in
   let* policy :=
     (if nowait then pret (Some NoWait)
      else let* skip := eat_keyword "skip" in if skip then let* _ := expect_keyword "locked" in pret (Some SkipLocked) else pret None) in
   pret (mk_clause mode ts policy)) (twait policy ++ rest) = Parsed (mk_clause mode ts policy) rest) as Hp.
  { intros ts. destruct policy as [[]|]; cbn [twait app]; steps; [done..|]. rewrite (bind_parsed _ _ _ None rest); [done|]. by steps. }
  assert (heads ("nowait" :: "skip" :: clauses 10 b)%string (twait policy ++ rest) = true) as Hw.
  { eapply heads_app; [exact H|by destruct policy as [[]|]|closed_list]. }
  destruct tables as [|t ts]; cbn [tof app] in *.
  - rewrite (bind_parsed _ _ _ false _) by (apply kw_miss; kw_test). steps. apply Hp.
  - norm. steps. rewrite (bind_parsed _ _ _ (t :: ts) (twait policy ++ rest)); [apply Hp|].
    apply (comma_list_ok _ (fun n => [id_tok n]) f); [next_test|done|len|len|]. apply Forall_forall. intros n _ r Hr _. cbn [app].
    apply object_reads; [lia|]. destruct Hr as [->|Hr]; [next_test|]. by destruct r as [|[] r].
Qed.
Lemma clause_row_reads c b f rest : heads (clauses 10 b) rest = true -> (length (tlock c ++ rest) <= f)%nat ->
  parse_row_locking_clause (S f) (tlock c ++ rest) = Parsed c rest.
Proof.
  intros H L. rewrite tlock_eq in *. destruct c as [mode tables policy]. cbn [rc_mode rc_tables rc_wait_policy] in *. norm. unfold parse_row_locking_clause.
  assert (length (tof tables ++ twait policy ++ rest) <= f)%nat as L' by (destruct mode; len). clear L.
  pose proof (lock_tail_reads mode tables policy b f rest H L') as Ht. generalize dependent (tof tables ++ twait policy ++ rest). intros ts _ Ht.
  destruct mode; unfold locking_words, words; rewrite ?toks_word, ?toks_sp, ?toks_word, ?toks_nil; cbn [app]; steps;
    (match type of Ht with _ = Parsed (mk_clause ?m _ _) _ => rewrite (bind_parsed _ _ _ m ts); [exact Ht|by steps] end).
Qed.
Lemma locking_reads l b f rest : heads (clauses 11 b) rest = true -> (length (concat (tlock <$> l) ++ rest) <= f)%nat ->
  forall n, (length (concat (tlock <$> l) ++ rest) < n)%nat -> parse_locking (S f) n (concat (tlock <$> l) ++ rest) = Parsed l rest.
Proof.
  intros H. induction l as [|c l IH]; intros L n Ln; (destruct n as [|n]; [lia|]); cbn [parse_locking].
  - cbn [fmap list_fmap concat app]. by step.
  - cbn [fmap list_fmap concat] in *. assert (exists tl, tlock c = Word (lit "FOR") :: tl) as [tl Htl]. { rewrite tlock_eq. destruct (rc_mode c); by eexists. }
    norm. rewrite (bind_parsed _ _ _ true (tlock c ++ concat (tlock <$> l) ++ rest)) by (apply is_keyword_eq; by rewrite Htl).
    run (eapply clause_row_reads; [by apply lock_heads|done]). rewrite Htl in *. run (apply IH; [len|len]). done.
Qed.

(** ** WITH *)

Definition tcte (c : Cte X) : list Token :=
  match c with
  | mk_cte name columns select dml _ =>
      id_tok name :: taliases columns ++ Word (lit "AS") :: LParen :: match dml with Some s => tt' s | None => tq select end ++ [RParen]
  end.
Definition twith (ctes : list (Cte X)) : list Token :=
  match ctes with
  | [] => []
  | _ => Word (lit "WITH") :: (if existsb is_recursive ctes then [Word (lit "RECURSIVE")] else []) ++ tcommas (tcte <$> ctes)
  end.
Lemma toks_with ctes : toks (with_pc (select_pc xpc) (statement_pc xpc) ctes) = twith ctes.
Proof.
  destruct ctes as [|c ctes]; [done|]. unfold with_pc, twith.
  assert (toks (commas (cte_pc (select_pc xpc) (statement_pc xpc) <$> (c :: ctes))) = tcommas (tcte <$> (c :: ctes))) as Hc.
  { rewrite toks_commas. f_equal. apply list_fmap_ext. intros i [name columns select dml r] _. unfold cte_pc, tcte. destruct dml; by tk. }
  rewrite !toks_app, Hc. change (toks [Sp]) with ([] : list Token). rewrite app_nil_r. by destruct (existsb is_recursive (c :: ctes)).
Qed.

(** a statement, up to its RETURNING clause, which the serializer leaves out *)
Definition no_returning (s : Statement X) : Statement X :=
  match s with
  | SInsert (mk_insert table columns dv ov rows select conflict _) => SInsert (mk_insert table columns dv ov rows select conflict [])
  | SUpdate (mk_update table asg from filter _) => SUpdate (mk_update table asg from filter [])
  | SDelete (mk_delete table using_ filter _) => SDelete (mk_delete table using_ filter [])
  | s => s
  end.
Lemma returning_free_eq s : returning_free s = true -> no_returning s = s.
Proof. by destruct s as [[? ? ? ? ? ? ? []]|?|[? ? ? ? []]|[? ? ? []]|? ?|?]. Qed.
Definition STATEMENTS : list string := ["INSERT"; "SELECT"; "WITH"; "UPDATE"; "DELETE"; "EXPLAIN"]%string.
Definition dml_word (s : Statement X) : string := match s with SInsert _ => "INSERT" | SUpdate _ => "UPDATE" | _ => "DELETE" end.
Definition reads_t (s : Statement X) : Prop :=
  (exists w tl, tt' s = Word (lit w) :: tl /\ w ∈ STATEMENTS)
  /\ forall f rest, (S (length (tt' s ++ rest)) < f)%nat -> heads [] rest = true -> parse_statement other f (tt' s ++ rest) = Parsed (no_returning s) rest.
Lemma dml_head s : is_dml s = true -> exists tl, tt' s = Word (lit (dml_word s)) :: tl.
Proof. destruct s as [[]|?|[]|[]|? ?|?]; try done; intros _; by eexists. Qed.
Lemma default_eq (s : Select X) : is_default s = true -> s = select_default.
Proof.
  destruct s. cbn [is_default]. intros H. repeat (apply andb_prop in H as [H ?]).
  repeat match goal with H : nil ?x = true |- _ => destruct x; [clear H|done] | H : none ?x = true |- _ => destruct x; [done|clear H] | H : negb ?x = true |- _ => destruct x; [done|clear H] end.
  done.
Qed.

Lemma cte_reads c recursive f rest : cte_ok recursive c = true -> Forall reads_s (cte_query c) -> Forall reads_t (cte_stmt c) ->
  (length (tcte c ++ rest) < f)%nat -> parse_cte (sel f) (stm f) (S f) recursive (tcte c ++ rest) = Parsed c rest.
Proof.
  destruct c as [name columns select dml r]. cbn [cte_ok cte_query cte_stmt tcte]. intros Hok HS HT L.
  apply andb_prop in Hok as [[_ Hr]%andb_prop Hd]. apply Bool.eqb_prop in Hr as ->. unfold parse_cte. norm. step.
  run (apply columns_reads; [len|done]). steps. destruct dml as [s|]; cbn [cte_query opt] in *.
  - apply Forall_cons in HT as [[_ HT] _]. apply andb_prop in Hd as [[D1 D2]%andb_prop D3]. destruct (dml_head s D1) as [tl Htl].
    rewrite (default_eq _ D3). do 3 run (reflexivity).
    match goal with |- context [if ?c then _ else _] => assert (c = true) as -> by (rewrite Htl; destruct s; done) end.
    rewrite (bind_parsed _ _ _ (select_default, Some s) (RParen :: rest)); [by step|].
    rewrite <- (returning_free_eq s D2) at 2. by run (apply HT; [len|done]).
  - apply Forall_cons in HS as [[[tl Hq] Rq] _]. do 3 run (reflexivity).
    match goal with |- context [if ?c then _ else _] => assert (c = false) as -> by (rewrite Hq; by destruct (no_ctes select)) end.
    rewrite (bind_parsed _ _ _ (select, None) (RParen :: rest)); [by step|]. by run (apply Rq; [len|done]).
Qed.
Lemma with_reads ctes f rest : ctes <> [] -> forallb (cte_ok (existsb is_recursive ctes)) ctes = true -> Forall reads_s (concat (cte_query <$> ctes)) ->
  Forall reads_t (concat (cte_stmt <$> ctes)) -> (length (twith ctes ++ rest) <= f)%nat -> next_is Comma rest = false ->
  parse_with_clause (sel f) (stm f) (S f) (twith ctes ++ rest) = Parsed ctes rest.
Proof.
  intros N Hok HS HT L H. unfold parse_with_clause, twith in *. destruct ctes as [|c ctes]; [done|]. generalize dependent (existsb is_recursive (c :: ctes)). intros r Hok L. norm. step.
  rewrite (bind_parsed _ _ _ r (tcommas (tcte <$> (c :: ctes)) ++ rest)).
  - apply (comma_list_ok _ tcte (pred f)); [done|done|len|len|]. assert (0 < f)%nat as Hf by len. clear N L H.
    induction (c :: ctes) as [|d l IH]; [done|]. cbn [fmap list_fmap concat forallb] in *. apply andb_prop in Hok as [Hd Hok].
    apply Forall_app in HS as [Sd HS], HT as [Td HT]. constructor; [|by apply IH]. intros r' _ L. apply cte_reads; [done..|lia].
  - destruct r; [done|]. apply kw_miss. cbn [forallb] in Hok. apply andb_prop in Hok as [Hc _]. destruct c as [name columns select dml r].
    cbn [cte_ok] in Hc. apply andb_prop in Hc as [[[[_ Hn]%andb_prop _]%andb_prop _]%andb_prop _].
    destruct ctes; by apply id_kw.
Qed.

(** ** Queries *)

Lemma toks_concat {A} (f : A -> list piece) (g : A -> list Token) l : Forall (fun x => toks (f x) = g x) l -> toks (concat (f <$> l)) = concat (g <$> l).
Proof. induction 1 as [|x l Hx Hl IH]; [done|]. cbn [fmap list_fmap concat]. by rewrite toks_app, Hx, IH. Qed.
Lemma tq_parts ctes distinct don proj from filter grp sets having ord limit offset locking set_ops
  (s := mk_select ctes distinct don proj from filter grp sets having ord limit offset locking set_ops) :
  tq s = twith ctes ++ tcore s ++ toks (concat (set_op_pc (select_pc xpc) <$> set_ops))
         ++ torders ord ++ tclause "LIMIT" limit ++ tclause "OFFSET" offset ++ concat (tlock <$> locking).
Proof.
  subst s. unfold ExprRead.tq. rewrite select_pc_eq. unfold select_body_pc.
  rewrite !toks_app, toks_with, toks_distinct, toks_items, toks_fromc, !toks_clause, toks_group, toks_orders.
  rewrite (toks_concat locking_pc tlock) by (by apply Forall_forall). unfold tcore. norm. done.
Qed.
Lemma core_only_tq op all s : core_only (mk_set_op op all s) = true -> tq s = tcore s /\ core s = s.
Proof.
  destruct s as [ctes distinct don proj from filter grp sets having ord limit offset locking set_ops]. cbn [core_only]. intros H.
  repeat (apply andb_prop in H as [H ?]). destruct ctes, ord, limit, offset, locking, set_ops; try done. rewrite tq_parts. split; [|done].
  change (toks (concat (set_op_pc (select_pc xpc) <$> []))) with ([] : list Token). by rewrite !app_nil_r.
Qed.
Lemma tset_ops ops : forallb core_only ops = true -> toks (concat (set_op_pc (select_pc xpc) <$> ops)) = concat (tset_op <$> ops).
Proof.
  intros H. apply toks_concat. rewrite forallb_forall in H. apply Forall_forall. intros [op all s] Hin%list_elem_of_In%H.
  unfold set_op_pc, tset_op. rewrite <- (proj1 (core_only_tq _ _ _ Hin)). destruct all; by tk.
Qed.

Lemma select_eq f ts : parse_select other (S f) ts = select_body (eb f) (sel f) (stm f) (S f) ts.
Proof. done. Qed.
Lemma select_ends (s : Select X) rest : select_end s rest = true -> heads (clauses 11 (conflict_safe s)) rest = true.
Proof.
  destruct rest as [|[] rest]; try done. cbn [select_end]. intros [H1 H2]%andb_prop. rewrite H2. apply str_eqb_true in H1. cbn [heads]. rewrite H1. by vm_compute.
Qed.

(** The LIMIT, OFFSET and locking clauses: locking is read before and after the limits. *)
Lemma tail_reads {B} limit offset locking b f rest (k : option E * option E -> list RowLockingClause -> parser B) :
  Forall reads (opt limit) -> Forall reads (opt offset) -> heads (clauses 11 b) rest = true ->
  (length (tclause "LIMIT" limit ++ tclause "OFFSET" offset ++ concat (tlock <$> locking) ++ rest) <= f)%nat ->
  (let* locking1 := parse_locking (S f) (S f) in let* limits := parse_limits (eb f) (S f) None None in let* locking2 := parse_locking (S f) (S f) in
   k limits (locking1 ++ locking2)) (tclause "LIMIT" limit ++ tclause "OFFSET" offset ++ concat (tlock <$> locking) ++ rest)
  = k (limit, offset) locking rest.
Proof.
  intros Fl Fo H L. assert (heads (clauses 10 b) rest = true) as H10 by (eapply heads_sub; [exact H|closed_list]).
  assert (forall limit offset, heads (clauses 8 b) (tclause "LIMIT" limit ++ tclause "OFFSET" offset ++ concat (tlock <$> locking) ++ rest) = true) as H8.
  { intros l o. eapply heads_app; [|apply tclause_heads; closed_list|]; [eapply heads_app; [by apply lock_heads|apply (tclause_heads _ _ (clauses 9 b)); closed_list|closed_list]|closed_list]. }
  destruct (decide (limit = None /\ offset = None)) as [[-> ->]|Hn].
  - cbn [tclause app] in *. run (apply (locking_reads _ b); [done|done|lia]).
    run (apply (limits_reads None None b); [done..|cbn [tclause app]; len]).
    run (apply (locking_reads [] b); [done|cbn [fmap list_fmap concat]; len|cbn [fmap list_fmap concat]; len]). by rewrite app_nil_r.
  - rewrite (bind_parsed _ _ _ [] (tclause "LIMIT" limit ++ tclause "OFFSET" offset ++ concat (tlock <$> locking) ++ rest)).
    2: { cbn [parse_locking]. rewrite (bind_parsed _ _ _ false (tclause "LIMIT" limit ++ tclause "OFFSET" offset ++ concat (tlock <$> locking) ++ rest)); [done|].
         apply is_keyword_eq. destruct limit; [done|]. destruct offset; [done|]. by destruct Hn. }
    run (apply (limits_reads _ _ b); [done..|by apply lock_heads|len]).
    run (apply (locking_reads _ b); [done|len|len]). done.
Qed.

Lemma with_head {B} ctes s rest f (k : list (Cte X) -> parser B) : forallb (cte_ok (existsb is_recursive ctes)) ctes = true ->
  Forall reads_s (concat (cte_query <$> ctes)) -> Forall reads_t (concat (cte_stmt <$> ctes)) -> (length (twith ctes ++ tcore s ++ rest) <= f)%nat ->
  (let* with_ := is_keyword "with" in let* ctes := (if with_ then parse_with_clause (sel f) (stm f) (S f) else pret []) in k ctes) (twith ctes ++ tcore s ++ rest)
  = k ctes (tcore s ++ rest).
Proof.
  intros Hok HS HT L. destruct ctes as [|c ctes].
  - cbn [twith app]. rewrite (bind_parsed _ _ _ false (tcore s ++ rest)) by (by destruct s). done.
  - rewrite (bind_parsed _ _ _ true (twith (c :: ctes) ++ tcore s ++ rest)) by done. run (apply with_reads; [done..|by destruct s]). done.
Qed.
Lemma select_reads s : select_ok s = true -> Forall reads (select_kids s) -> Forall (fun s => reads_s s /\ core_reads s) (select_queries s) -> Forall reads_t (select_stmts s) ->
  reads_s s /\ core_reads s.
Proof.
  destruct s as [ctes distinct don proj from filter grp sets having ord limit offset locking set_ops]. intros Hok HE HS HT.
  cbn [select_queries select_stmts] in HS, HT. apply Forall_app in HS as [Sc [Sf Ss]%Forall_app].
  assert (core_reads (mk_select ctes distinct don proj from filter grp sets having ord limit offset locking set_ops)) as HC.
  { apply core_ok; [done|done|]. eapply Forall_impl; [exact Sf|]. by intros ? [? _]. }
  split; [|done]. assert (forallb (cte_ok (existsb is_recursive ctes)) ctes = true /\ forallb core_only set_ops = true) as [Oc Os].
  { clear - Hok. cbn [select_ok] in Hok. by apply andb_prop in Hok as [[[[[[[H _]%andb_prop _]%andb_prop _]%andb_prop _]%andb_prop _]%andb_prop _]%andb_prop H']. }
  assert (Forall (fun o => match o with mk_set_op _ _ s => core_reads s /\ core s = s end) set_ops) as Fs.
  { rewrite Forall_fmap in Ss. rewrite forallb_forall in Os. apply Forall_forall. intros [op all s] Hin. split; [|by apply (core_only_tq op all), Os, list_elem_of_In].
    rewrite Forall_forall in Ss. apply (Ss _ Hin). }
  set (s := mk_select ctes distinct don proj from filter grp sets having ord limit offset locking set_ops) in *.
  assert (tq s = twith ctes ++ tcore s ++ concat (tset_op <$> set_ops) ++ torders ord ++ tclause "LIMIT" limit ++ tclause "OFFSET" offset ++ concat (tlock <$> locking)) as Hq
    by (subst s; by rewrite tq_parts, tset_ops).
  split; [rewrite Hq; subst s; destruct ctes; by eexists|]. intros f rest L Hr%select_ends. destruct f as [|f]; [lia|]. rewrite select_eq.
  rewrite Hq in *. norm. unfold select_body. subst s. cbn [conflict_safe] in Hr.
  remember (negb (none from) && nil set_ops) as b eqn:Eb.
  assert (heads (clauses 10 b) (concat (tlock <$> locking) ++ rest) = true) as H10 by (by apply lock_heads).
  assert (heads (clauses 9 b) (tclause "OFFSET" offset ++ concat (tlock <$> locking) ++ rest) = true) as H9
    by (eapply heads_app; [exact H10|apply tclause_heads; closed_list|closed_list]).
  assert (heads (clauses 8 b) (tclause "LIMIT" limit ++ tclause "OFFSET" offset ++ concat (tlock <$> locking) ++ rest) = true) as H8
    by (eapply heads_app; [exact H9|apply tclause_heads; closed_list|closed_list]).
  assert (heads (clauses 7 b) (torders ord ++ tclause "LIMIT" limit ++ tclause "OFFSET" offset ++ concat (tlock <$> locking) ++ rest) = true) as H7
    by (eapply heads_app; [exact H8|destruct ord, b; done|closed_list]).
  cbn [select_kids] in HE. repeat (apply Forall_app in HE as [? HE]).
  rewrite with_head; [|done|eapply Forall_impl; [exact Sc|]; by intros ? [? _]|done|lia].
  run (apply (HC b); [len|intros ->; by destruct from|]).
  { run (apply (set_ops_reads b); [done|done|intros ->; destruct from, set_ops; done|len|len]).
    run (apply (order_reads _ b); [done|done|len]). cbn [core app].
    apply (tail_reads limit offset locking b f rest (fun limits locking => pret (mk_select ctes distinct don proj from filter grp sets having ord limits.1 limits.2 locking set_ops)));
      [done|done|done|len]. }
  eapply heads_app; [exact H7|apply set_ops_heads|closed_list].
Qed.

(** * Statements *)

Definition tassign (a : str * E) : list Token := id_tok a.1 :: TEq :: te a.2.
Lemma toks_assign l : toks (commas (assignment_pc epc <$> l)) = tcommas (tassign <$> l).
Proof. rewrite toks_commas. f_equal. apply list_fmap_ext. intros i [n e] _. unfold assignment_pc, tassign. by tk. Qed.
Lemma assignments_reads l hs f rest : l <> [] -> Forall reads (snd <$> l) -> heads hs rest = true -> forallb (fun k => mem (lit k) FOLLOW) hs = true ->
  (length (tcommas (tassign <$> l) ++ rest) < f)%nat -> comma_list (S f) (parse_assignment (eb f)) (tcommas (tassign <$> l) ++ rest) = Parsed l rest.
Proof.
  intros N F H Hs L. apply (comma_list_ok _ tassign (pred f)); [next_test|done|lia|lia|]. assert (0 < f)%nat as Hf by lia. clear L N. rewrite Forall_fmap in F.
  eapply Forall_impl; [exact F|]. intros [n e] He r Hr L. unfold parse_assignment. unfold tassign in *. cbn [compose fst snd app] in *. steps.
  run (apply reads_expr; [done|cbn [length] in L; lia|]); [done|]. destruct Hr as [->|Hr]; [by eapply heads_end|]. by destruct r as [|[] r].
Qed.

Definition tconflict (c : OnConflict X) : list Token :=
  match c with
  | DoNothing target => Word (lit "ON") :: Word (lit "CONFLICT") :: taliases target ++ [Word (lit "DO"); Word (lit "NOTHING")]
  | DoUpdate target asg filter =>
      Word (lit "ON") :: Word (lit "CONFLICT") :: taliases target ++ Word (lit "DO") :: Word (lit "UPDATE") :: Word (lit "SET")
      :: tcommas (tassign <$> asg) ++ tclause "WHERE" filter
  end.
Definition tconflicts (c : option (OnConflict X)) : list Token := match c with Some c => tconflict c | None => [] end.
Lemma toks_conflict c : toks (conflict_pc (select_pc xpc) c) = tconflict c.
Proof.
  destruct c as [target|target asg filter]; unfold conflict_pc, tconflict; rewrite ?toks_app, ?toks_columns, ?toks_assign, ?toks_clause; [done|].
  cbn [app]. done.
Qed.
Lemma conflict_reads c f rest : match c with Some c => conflict_ok c | None => true end = true -> Forall reads (concat (conflict_kids <$> opt c)) -> heads [] rest = true ->
  (length (tconflicts c ++ rest) <= f)%nat -> parse_on_conflict (eb f) (S f) (tconflicts c ++ rest) = Parsed c rest.
Proof.
  intros Hok HE H L. unfold parse_on_conflict. destruct c as [[target|target asg filter]|]; cbn [tconflicts tconflict conflict_ok opt fmap list_fmap concat conflict_kids] in *.
  - norm. steps. run (apply columns_reads; [len|done]). by steps.
  - norm. apply andb_prop in Hok as [[_ N]%andb_prop _]. rewrite app_nil_r in HE. apply Forall_app in HE as [Ha Hf]. steps. run (apply columns_reads; [len|done]). steps.
    assert (heads ["where"%string] (tclause "WHERE" filter ++ rest) = true) as Hw by (eapply heads_app; [exact H|by apply tclause_heads|done]).
    run (apply (assignments_reads _ ["where"%string]); [by destruct asg|done|done|by vm_compute|len]).
    run (apply (clause_reads _ _ _ []); [by vm_compute|done|done|done|len]). done.
  - cbn [app]. by step.
Qed.

Definition tsource (dv : bool) (sq : option (Select X)) (rows : list (list E)) : list Token :=
  if dv then [Word (lit "DEFAULT"); Word (lit "VALUES")]
  else match sq with
       | Some s => tq s
       | None => Word (lit "VALUES") :: tcommas ((fun r => LParen :: tcommas (te <$> r) ++ [RParen]) <$> rows)
       end.
Lemma toks_source dv sq rows : toks (source_pc (select_pc xpc) dv sq rows) = tsource dv sq rows.
Proof.
  unfold source_pc, tsource. destruct dv; [done|]. destruct sq; [done|]. tk. do 2 f_equal. apply list_fmap_ext. intros i r _. apply toks_paren.
Qed.
Lemma rows_reads rows f rest : rows <> [] -> Forall reads (concat rows) -> next_is Comma rest = false ->
  (length (tcommas ((fun r => LParen :: tcommas (te <$> r) ++ [RParen]) <$> rows) ++ rest) < f)%nat ->
  parse_values_tuples (eb f) (S f) (tcommas ((fun r => LParen :: tcommas (te <$> r) ++ [RParen]) <$> rows) ++ rest) = Parsed rows rest.
Proof.
  intros N F H L. apply (comma_list_ok _ (fun r => LParen :: tcommas (te <$> r) ++ [RParen]) (pred f)); [done|done|lia|lia|].
  assert (0 < f)%nat as Hf by lia. clear L N. rewrite Forall_concat in F. eapply Forall_impl; [exact F|]. intros r Hr r' _ L. norm. step. apply reads_until; [done|len|by left].
Qed.
(** what an INSERT inserts *)
Definition source_ok (dv : bool) (rows : list (list E)) (sq : option (Select X)) (conflict : option (OnConflict X)) : bool :=
  match dv, sq with
  | true, _ => nil rows && none sq
  | false, Some s => nil rows && no_ctes s && (none conflict || conflict_safe s)
  | false, None => negb (nil rows)
  end.
Lemma source_reads {B} dv rows sq conflict f rest (k : bool -> list (list E) * option (Select X) -> parser B) : source_ok dv rows sq conflict = true ->
  Forall reads (concat rows) -> Forall reads_s (opt sq) -> heads [] rest = true -> (length (tsource dv sq rows ++ tconflicts conflict ++ rest) < f)%nat ->
  (let* default_values := eat_keyword "default" in
   let* source :=
     (if default_values then let* _ := expect_keyword "values" in pret ([], None)
      else
        let* query := is_keyword "select" in
        if query then let* s := sel f in pret ([], Some s)
        else let* _ := expect_keyword "values" in let* rows := parse_values_tuples (eb f) (S f) in pret (rows, None)) in
   k default_values source) (tsource dv sq rows ++ tconflicts conflict ++ rest) = k dv (rows, sq) (tconflicts conflict ++ rest).
Proof.
  intros Hok HE HS H L. assert (heads ["on"%string] (tconflicts conflict ++ rest) = true) as Hc by (eapply heads_app; [exact H|by destruct conflict as [[]|]|done]).
  destruct dv; cbn [source_ok tsource app] in *.
  - by destruct rows, sq.
  - destruct sq as [s|].
    + apply andb_prop in Hok as [[H1 H2]%andb_prop H3]. destruct rows; [|done]. apply Forall_cons in HS as [[[tl Hq] Rq] _]. rewrite H2 in Hq.
      rewrite (bind_parsed _ _ _ false (tq s ++ tconflicts conflict ++ rest)) by (rewrite Hq; done).
      rewrite (bind_parsed _ _ _ ([], Some s) (tconflicts conflict ++ rest)); [done|].
      rewrite (bind_parsed _ _ _ true (tq s ++ tconflicts conflict ++ rest)) by (rewrite Hq; done). cbv iota.
      run (apply Rq; [done|]); [done|]. destruct conflict as [[]|]; cbn [none orb] in H3; [cbn [tconflicts tconflict app select_end]; by rewrite H3..|].
      cbn [tconflicts app]. by destruct rest as [|[] rest].
    + assert (rows <> []) as N by (by destruct rows). cbn [app] in *. step. rewrite (bind_parsed _ _ _ (rows, None) (tconflicts conflict ++ rest)); [done|].
      steps. run (apply rows_reads; [done|done|next_test|len]). done.
Qed.

Definition tover (ov : bool) : list Token := if ov then [Word (lit "OVERRIDING"); Word (lit "SYSTEM"); Word (lit "VALUE")] else [].
Definition tinsert (i : Insert X) : list Token :=
  match i with
  | mk_insert table columns dv ov rows sq conflict _ =>
      Word (lit "INSERT") :: Word (lit "INTO") :: id_tok table :: match columns with Some ns => tids ns | None => [] end
      ++ tover ov ++ tsource dv sq rows ++ tconflicts conflict
  end.
Lemma tt_insert i : tt' (SInsert i) = tinsert i.
Proof.
  destruct i as [table columns dv ov rows sq conflict ret]. unfold ExprRead.tt'. cbn [statement_pc]. unfold insert_pc, tinsert.
  rewrite !toks_app, toks_source. cbn [app]. do 3 (rewrite ?toks_word, ?toks_sp, ?toks_tok; cbn [app]). do 3 f_equal.
  destruct columns, ov, conflict; cbn [maybe tconflicts]; rewrite ?toks_conflict, ?toks_sp, ?toks_ids; done.
Qed.
Lemma source_head dv rows sq conflict : source_ok dv rows sq conflict = true -> Forall reads_s (opt sq) ->
  exists w tl, tsource dv sq rows = Word (lit w) :: tl /\ w ∈ ["DEFAULT"; "SELECT"; "VALUES"]%string.
Proof.
  intros Hok HS. destruct dv; [by eexists "DEFAULT"%string, _; split; [|in_list]|]. destruct sq as [s|]; cbn [source_ok tsource] in *.
  - apply andb_prop in Hok as [[_ H2]%andb_prop _]. apply Forall_cons in HS as [[[tl Hq] _] _]. rewrite H2 in Hq. eexists "SELECT"%string, _; split; [exact Hq|in_list].
  - by eexists "VALUES"%string, _; split; [|in_list].
Qed.

(** the optional parts between the table and the source *)
Lemma insert_columns_reads {B} columns f rest (k : option (list str) -> parser B) : match columns with Some ns => negb (nil ns) | None => true end = true ->
  next_is LParen rest = false -> (length (match columns with Some ns => tids ns | None => [] end ++ rest) <= f)%nat ->
  (let* open := eat LParen in
   let* columns := (if open then let* l := comma_list (S f) parse_ident in let* _ := expect RParen in pret (Some l) else pret None) in k columns)
    (match columns with Some ns => tids ns | None => [] end ++ rest) = k columns rest.
Proof.
  intros N H L. destruct columns as [ns|]; cbn [app] in *; [|by steps]. unfold tids in *. norm. step.
  rewrite (bind_parsed _ _ _ (Some ns) rest); [done|]. run (apply idents_reads; [by destruct ns|done|len]). by steps.
Qed.
Lemma over_clause_reads {B} ov rest (k : bool -> parser B) : is_kw (lit "overriding") (head rest) = false ->
  (let* overriding := eat_keyword "overriding" in
   let* _ := (if overriding then let* _ := expect_keyword "system" in expect_keyword "value" else pret tt) in k overriding) (tover ov ++ rest) = k ov rest.
Proof. intros H. destruct ov; cbn [tover app]; [done|]. by steps. Qed.

Lemma insert_reads table columns dv ov rows sq conflict ret f rest (i := mk_insert table columns dv ov rows sq conflict ret) : statement_ok (SInsert i) = true ->
  Forall reads (statement_kids (SInsert i)) -> Forall reads_s (opt sq) -> heads [] rest = true -> (length (tinsert i ++ rest) <= f)%nat ->
  parse_insert (eb f) (sel f) (S f) (tinsert i ++ rest) = Parsed (mk_insert table columns dv ov rows sq conflict []) rest.
Proof.
  subst i. cbn [statement_ok statement_kids tinsert]. intros Hok HE HS H L. apply andb_prop in Hok as [[[_ Hcol]%andb_prop Hcon]%andb_prop Hsrc].
  apply Forall_app in HE as [Hr Hk]. destruct (source_head _ _ _ _ Hsrc HS) as (w & tl & Hw & Iw).  norm.
  assert (forall t, ending t = false -> next_is t (tover ov ++ tsource dv sq rows ++ tconflicts conflict ++ rest) = false) as Ht.
  { intros t T. rewrite Hw. destruct ov; apply bool_decide_eq_false; intros <-; done. }
  unfold parse_insert. step. step.
  run (apply object_reads; [lia|destruct columns; [done|by apply Ht]]).
  rewrite insert_columns_reads; [|destruct columns; [by apply andb_prop in Hcol as [? _]|done]|by apply Ht|len].
  rewrite over_clause_reads. 2: { rewrite Hw. apply list_elem_of_In in Iw. destruct Iw as [<-|[<-|[<-|[]]]]; by vm_compute. }
  rewrite source_reads; [|done|done|done|done|len]. cbn [fst snd].
  run (apply conflict_reads; [done..|len]). unfold parse_returning. run (by step). done.
Qed.

Definition tupdate (u : Update X) : list Token :=
  match u with
  | mk_update table asg from filter _ =>
      Word (lit "UPDATE") :: id_tok table :: Word (lit "SET") :: tcommas (tassign <$> asg) ++ tfromc "FROM" from ++ tclause "WHERE" filter
  end.
Lemma tt_update u : tt' (SUpdate u) = tupdate u.
Proof.
  destruct u as [table asg from filter ret]. unfold ExprRead.tt'. cbn [statement_pc]. unfold update_pc, tupdate.
  by rewrite !toks_app, toks_assign, toks_fromc, toks_clause.
Qed.
Lemma update_reads table asg from filter ret f rest (u := mk_update table asg from filter ret) : statement_ok (SUpdate u) = true ->
  Forall reads (statement_kids (SUpdate u)) -> Forall reads_s (statement_queries (SUpdate u)) -> heads [] rest = true -> (length (tupdate u ++ rest) <= f)%nat ->
  parse_update (eb f) (sel f) (S f) (tupdate u ++ rest) = Parsed (mk_update table asg from filter []) rest.
Proof.
  subst u. cbn [statement_ok statement_kids statement_queries tupdate]. intros Hok HE HS H L. apply andb_prop in Hok as [[[_ N]%andb_prop _]%andb_prop Hf].
  apply Forall_app in HE as [Ha [Hk Hw]%Forall_app]. norm.
  assert (heads ["where"%string] (tclause "WHERE" filter ++ rest) = true) as H1 by (eapply heads_app; [exact H|by apply tclause_heads|done]).
  assert (heads ["from"; "where"]%string (tfromc "FROM" from ++ tclause "WHERE" filter ++ rest) = true) as H2
    by (eapply heads_app; [exact H1|by apply tfromc_heads|by vm_compute]).
  unfold parse_update. step. run (apply object_reads; [lia|done]). step.
  run (apply (assignments_reads _ ["from"; "where"]%string); [by destruct asg|done|done|by vm_compute|len]).
  run (apply (fromc_reads _ _ _ ["where"%string]); [by vm_compute|done..|by vm_compute|by vm_compute|len]).
  run (apply (clause_reads _ _ _ []); [by vm_compute|done..|len]). unfold parse_returning. run (by step). done.
Qed.
Definition tdelete (d : Delete X) : list Token :=
  match d with
  | mk_delete table using_ filter _ => Word (lit "DELETE") :: Word (lit "FROM") :: id_tok table :: tfromc "USING" using_ ++ tclause "WHERE" filter
  end.
Lemma tt_delete d : tt' (SDelete d) = tdelete d.
Proof.
  destruct d as [table using_ filter ret]. unfold ExprRead.tt'. cbn [statement_pc]. unfold delete_pc, tdelete. by rewrite !toks_app, toks_fromc, toks_clause.
Qed.
Lemma delete_reads table using_ filter ret f rest (d := mk_delete table using_ filter ret) : statement_ok (SDelete d) = true ->
  Forall reads (statement_kids (SDelete d)) -> Forall reads_s (statement_queries (SDelete d)) -> heads [] rest = true -> (length (tdelete d ++ rest) <= f)%nat ->
  parse_delete (eb f) (sel f) (S f) (tdelete d ++ rest) = Parsed (mk_delete table using_ filter []) rest.
Proof.
  subst d. cbn [statement_ok statement_kids statement_queries tdelete]. intros Hok HE HS H L. apply andb_prop in Hok as [_ Hf].
  apply Forall_app in HE as [Hk Hw]. norm.
  assert (heads ["where"%string] (tclause "WHERE" filter ++ rest) = true) as H1 by (eapply heads_app; [exact H|by apply tclause_heads|done]).
  assert (heads ["using"; "where"]%string (tfromc "USING" using_ ++ tclause "WHERE" filter ++ rest) = true) as H2
    by (eapply heads_app; [exact H1|by apply tfromc_heads|by vm_compute]).
  unfold parse_delete. step. step. run (apply object_reads; [lia|next_test]).
  run (apply (fromc_reads _ _ _ ["where"%string]); [by vm_compute|done..|by vm_compute|by vm_compute|len]).
  run (apply (clause_reads _ _ _ []); [by vm_compute|done..|len]). unfold parse_returning. run (by step). done.
Qed.

Lemma statement_eq f ts : parse_statement other (S f) ts = statement_body (eb f) (sel f) (stm f) (S f) other ts.
Proof. done. Qed.
Lemma statement_reads s : statement_ok s = true -> Forall reads (statement_kids s) -> Forall reads_s (statement_queries s) -> Forall reads_t (statement_stmts s) -> reads_t s.
Proof.
  intros Hok HE HS HT. destruct s as [i|s|u|d|a s|x]; [| | | | |done].
  - destruct i as [table columns dv ov rows sq conflict ret]. split; [rewrite tt_insert; eexists "INSERT"%string, _; split; [reflexivity|in_list]|].
    intros [|f] rest L H; [lia|]. rewrite statement_eq, tt_insert in *. unfold statement_body. cbn [tinsert app]. words_eval.
    run (apply (insert_reads table columns dv ov rows sq conflict ret); [done..|lia]). done.
  - apply Forall_cons in HS as [[[tl Hq] Rq] _]. change (tt' (SSelect s)) with (tq s) in *.
    split; [change (tt' (SSelect s)) with (tq s); rewrite Hq; destruct (no_ctes s); eexists _, _; (split; [reflexivity|in_list])|].
    intros [|f] rest L H; [lia|]. change (tt' (SSelect s)) with (tq s) in *. rewrite statement_eq. specialize (Rq f rest).
    unfold statement_body. rewrite Hq in *. cbn [app] in *.
    destruct (no_ctes s); words_eval; (run (apply Rq; [lia|by destruct rest as [|[] rest]])); done.
  - destruct u as [table asg from filter ret]. split; [rewrite tt_update; eexists "UPDATE"%string, _; split; [reflexivity|in_list]|].
    intros [|f] rest L H; [lia|]. rewrite statement_eq, tt_update in *. unfold statement_body. cbn [tupdate app]. words_eval.
    run (apply (update_reads table asg from filter ret); [done..|lia]). done.
  - destruct d as [table using_ filter ret]. split; [rewrite tt_delete; eexists "DELETE"%string, _; split; [reflexivity|in_list]|].
    intros [|f] rest L H; [lia|]. rewrite statement_eq, tt_delete in *. unfold statement_body. cbn [tdelete app]. words_eval.
    run (apply (delete_reads table using_ filter ret); [done..|lia]). done.
  - apply Forall_cons in HT as [[(w & tl & Hw & Iw) HT] _].
    assert (tt' (SExplain a s) = Word (lit "EXPLAIN") :: (if a then [Word (lit "ANALYZE")] else []) ++ tt' s) as Ht by (by destruct a).
    split; [rewrite Ht; eexists "EXPLAIN"%string, _; split; [reflexivity|in_list]|].
    intros [|f] rest L H; [lia|]. rewrite statement_eq, Ht in *. unfold statement_body. norm. words_eval. steps.
    rewrite (bind_parsed _ _ _ a (tt' s ++ rest)).
    2: { destruct a; [done|]. rewrite Hw. apply kw_miss. apply list_elem_of_In in Iw. cbn [In STATEMENTS] in Iw. repeat destruct Iw as [<-|Iw]; try done; by vm_compute. }
    run (apply HT; [destruct a; len|done]). cbn [statement_ok] in Hok. by rewrite (returning_free_eq s Hok).
Qed.

(** Every printable tree is read back from its tokens. *)
Lemma printable_reads : (forall e, ok_expr e -> reads e) /\ (forall s, ok_select s -> reads_s s /\ core_reads s) /\ (forall s, ok_statement s -> reads_t s).
Proof.
  assert (forall l, Forall (fun s => reads_s s /\ core_reads s) l -> Forall reads_s l) as Hs by (intros l F; eapply Forall_impl; [exact F|by intros ? [? _]]).
  apply ok_ind.
  - intros e H1 H2 H3. apply expr_reads; [done..|by apply Hs].
  - exact select_reads.
  - intros s H1 H2 H3 H4. apply statement_reads; [done..|by apply Hs|done].
Qed.
End queries.

(** C3: Serializing a statement and parsing the text gives the statement back: for
    every printable query, INSERT, UPDATE, DELETE or EXPLAIN, however deeply
    expressions, subqueries, CTEs and set operations are nested, the text
    [statement_to_sql] writes is tokenized and parsed to exactly one statement, the
    one that was written, less the RETURNING clause, which is not written. *)
Theorem statement_reads_back {X} (other : parser X) (other_sql : X -> str) (empty : X) (s : Statement X) : ok_statement s ->
  parse_sql other empty (statement_to_sql other_sql s) = Parsed [no_returning s] [].
Proof.
  intros Hs. destruct (printable_reads other (fun _ => [])) as (_ & _ & H). destruct (H s Hs) as [(w & tl & Hw & _) R].
  unfold parse_sql. rewrite (printed_tokens other_sql (fun _ => []) s Hs). change (toks (statement_pc _ s)) with (tt' (fun _ => []) s).
  cbn [parse_statements]. rewrite Hw. cbn [skip_semicolons]. rewrite <- Hw. specialize (R (S (S (length (tt' (fun _ => []) s)))) []).
  rewrite app_nil_r in R. rewrite R by (done || lia). done.
Qed.


(** Discharges printability of a concrete tree. *)
Ltac printable :=
  repeat first
    [ match goal with |- Forall ?P ?l => let l' := eval vm_compute in l in change (Forall P l'); first [apply List.Forall_nil|apply List.Forall_cons] end
    | apply ok_expr_intro; [vm_compute; reflexivity|..]
    | apply ok_select_intro; [vm_compute; reflexivity|..]
    | apply ok_statement_intro; [vm_compute; reflexivity|..] ].

Definition no_statements : parser unit := fun _ => Stuck.
Abbreviation SE := (Expr (Select unit)).
Definition col (n : string) : SE := EColumn (lit n).
Definition items (l : list SE) : list (SelectItem SE) := (fun e => SelectExpr e None) <$> l.
Definition table_ref (n : string) (alias : option str) : TableRef unit := mk_tref None (lit n) [] alias None false false [] false.
(** SELECT DISTINCT max(b) AS m FROM t AS u LEFT JOIN s ON ... WHERE ... GROUP BY a ORDER BY m DESC LIMIT 3 FOR UPDATE *)
Definition demo_select : Select unit :=
  mk_select [] true [] [SelectExpr (EFunction (lit "max") [col "b"] false false None None) (Some (lit "M x"))]
    (Some (mk_from (table_ref "t" (Some (lit "u"))) [mk_join LeftJoin (table_ref "s" None) (Some (EBinary OpEq (EQualified (lit "u") (lit "a")) (EQualified (lit "s") (lit "a"))))]))
    (Some (EBinary And (EBetween (col "a") (EInt 1) (EUnary Neg (EInt 7)) true) (ELike (col "b") (EStr (lit "it's;")) false true)))
    [col "a"] [] None [mk_order (col "m") false] (Some (EInt 3)) None [mk_clause LockStmt.Update [lit "t"] (Some SkipLocked)] [].
Definition demo_insert : Statement unit :=
  SInsert (mk_insert (lit "Order") (Some [lit "a"; lit "b"]) false false
    [[EInt 5; ECase (Some (EParam 2)) [(ENull, EStr [195; 169])] (Some (EScalarSubquery demo_select))]; [EBool true; ECast (EStr (lit "1")) TInt8]] None
    (Some (DoUpdate [lit "a"] [(lit "b", EBinary Add (EQualified (lit "excluded") (lit "b")) (EInt 1))] (Some (EIsNull (col "b") true))))
    [Wildcard]).
Lemma demo_insert_ok : ok_statement demo_insert.
Proof. printable. Qed.

Lemma statement_reads_back_witness :
  parse_sql no_statements tt (statement_to_sql (fun _ => []) demo_insert) = Parsed [no_returning demo_insert] [].
Proof. apply (statement_reads_back no_statements (fun _ => []) tt demo_insert). printable. Defined.

(** What is not read back.  An upper-case qualifier is written in quotes, and the
    parser rejects a quoted name before a dot; a negated negative number is written
    with two minus signs, which start a comment; an integral double is written, and
    read, as an integer; a column named like a literal is read as the literal; ONLY
    and the RETURNING clause of a CTE are not written.  The parser takes the word
    after a table or a select item for an alias also where a clause starts. *)
Definition select_of (e : SE) : Statement unit := SSelect (mk_select [] false [] (items [e]) None None [] [] None [] None None [] []).
Definition again (o : outcome (list (Statement unit))) : outcome (list (Statement unit)) :=
  match o with Parsed [s] _ => parse_sql no_statements tt (statement_to_sql (fun _ => []) s) | o => o end.
Definition accepted {A} (o : outcome A) : bool := match o with Parsed _ _ => true | _ => false end.
Lemma roundtrip_anomalies :
  let read sql := parse_sql no_statements tt (lit sql) in
  let print s := statement_to_sql (fun _ : unit => []) s in
  accepted (read "UPDATE t SET a = (U.a + 1) FROM u AS U") = true /\ accepted (again (read "UPDATE t SET a = (U.a + 1) FROM u AS U")) = false
  /\ print (select_of (EUnary Neg (EInt (-5)))) = lit "SELECT (--5)" /\ accepted (parse_sql no_statements tt (print (select_of (EUnary Neg (EInt (-5)))))) = false
  /\ parse_sql no_statements tt (print (select_of (EBinary Div (EFloat 0x4014000000000000) (EInt 2)))) = Parsed [select_of (EBinary Div (EInt 5) (EInt 2))] []
  /\ parse_sql no_statements tt (print (select_of (col "null"))) = Parsed [select_of ENull] []
  /\ again (read "SELECT a FROM ONLY t") = read "SELECT a FROM t"
  /\ again (read "WITH w AS (DELETE FROM t RETURNING a) SELECT a FROM w") = read "WITH w AS (DELETE FROM t) SELECT a FROM w"
  /\ accepted (read "DELETE FROM t USING u RETURNING *") = false
  /\ accepted (read "INSERT INTO t SELECT 1 ON CONFLICT DO NOTHING") = false.
Proof. split_and!; vm_compute; reflexivity. Qed.
