(* ===== verification/Replay.v ===== *)
(** The logical log from end to end: what the serializer appends for a sequence of
    statements is decoded, tokenized and parsed back to these statements when the
    server starts. *)

From S2P Require Import Prelude Utf8 Numeric Types Float Index Storage Database Disk Lock Txn Wire Copy Hba Server FloatOps Datetime Json Containers LockStmt Lexer Ast Serialize Parser Printed ExprRead Roundtrip.

#[local] Open Scope Z_scope.

(** * The text of the log *)

(** the log file after the statements were appended to it *)
Definition log_text {X} (other_sql : X -> str) (ss : list (Statement X)) : str := foldl Txn.wal_append [] (statement_to_sql other_sql <$> ss).

Lemma next_token_newline s : next_token (10 :: s) = next_token s.
Proof. done. Qed.
Lemma tokenize_newline fuel s : tokenize_fuel fuel (10 :: s) = tokenize_fuel fuel s.
Proof. destruct fuel; [done|]. cbn [tokenize_fuel]. by rewrite next_token_newline. Qed.

Lemma closer_stops t s : closer (Some t) = true -> stops t (59 :: s) = true.
Proof. by destruct t. Qed.
(** A chunk and the semicolon after it. *)
Lemma pieces_prefix ps : forall p fuel s r, spaced p ps = true -> closer (final p ps) = true -> Forall token_ok (toks ps) -> tokenize_fuel fuel s = Some (Ok r) ->
  tokenize_fuel (length (toks ps) + S fuel) (text ps ++ 59 :: s) = Some (Ok (toks ps ++ Semicolon :: r)).
Proof.
  induction ps as [|[t|] ps IH]; intros p fuel s r Hs Hc Hok Hr.
  - cbn [toks omap list_omap length text fmap list_fmap concat app Nat.add]. cbn [tokenize_fuel]. assert (next_token (59 :: s) = Ok (Some (Semicolon, s))) as -> by (apply (token_reads Semicolon s I); by destruct s). by rewrite Hr.
  - cbn [spaced final] in Hs, Hc. apply andb_prop in Hs as [_ Hs]. rewrite toks_tok in *. apply Forall_cons in Hok as [Ht Hok].
    rewrite text_tok, <- app_assoc. cbn [length Nat.add tokenize_fuel app]. rewrite token_reads; [|done|].
    + by rewrite (IH (Some t) fuel s r).
    + destruct ps as [|[u|] ps]; [by apply closer_stops| |by destruct t]. rewrite toks_tok in Hok. cbn [spaced link] in Hs. apply andb_prop in Hs as [Hg _].
      rewrite text_tok, <- app_assoc. apply glue_stops; [done|]. by apply Forall_cons in Hok as [? _].
  - rewrite text_sp. rewrite toks_sp in *. cbn [app]. replace (length (toks ps) + S fuel)%nat with (S (length (toks ps) + fuel)) by lia. cbn [tokenize_fuel]. rewrite next_token_blank.
    cbn [spaced final] in Hs, Hc. specialize (IH None fuel s r Hs Hc Hok Hr). replace (length (toks ps) + S fuel)%nat with (S (length (toks ps) + fuel)) in IH by lia. exact IH.
Qed.

(** ** The text is UTF-8 *)

Lemma ascii_valid s : Forall (fun b => 0 <= b < 128) s -> utf8_valid s = true.
Proof. intros F. apply utf8_valid_ascii. eapply Forall_impl; [exact F|]. cbn. lia. Qed.
Lemma scan_number_ascii n : forall s d e, (length s <= n)%nat -> Forall (fun b => 0 <= b < 128) (scan_number d e s).1.
Proof.
  induction n as [|n IH]; intros [|c s] d e L; cbn [length] in L; try (cbn; constructor); try lia. cbn [scan_number]. destruct (is_ascii_digit c) eqn:Ed.
  { specialize (IH s d e ltac:(lia)). destruct (scan_number d e s). apply class_bounds in Ed. constructor; [lia|exact IH]. }
  destruct ((c =? 46) && negb d && negb e) eqn:E1.
  { specialize (IH s true e ltac:(lia)). destruct (scan_number true e s). constructor; [lia|exact IH]. }
  destruct (((c =? 101) || (c =? 69)) && negb e) eqn:E2; [|constructor]. destruct s as [|sg s]; [repeat constructor; lia|]. destruct ((sg =? 43) || (sg =? 45)) eqn:E3.
  - cbn [length] in L. specialize (IH s d true ltac:(lia)). destruct (scan_number d true s). repeat constructor; [lia..|exact IH].
  - specialize (IH (sg :: s) d true ltac:(lia)). destruct (scan_number d true (sg :: s)). constructor; [lia|exact IH].
Qed.
Lemma doubled_valid c s : 0 <= c < 128 -> utf8_valid s = true -> utf8_valid (replace_char c [c; c] s) = true.
Proof.
  intros Hc. apply (utf8_valid_ind (fun s => utf8_valid (replace_char c [c; c] s) = true)); [done|]. intros ch rest Hch _ IH.
  unfold replace_char in *. rewrite flat_map_app. apply utf8_valid_app; [|exact IH]. destruct (char_ok_bytes ch Hch) as [(b & -> & Hb)|F].
  - cbn. destruct (b =? c) eqn:E; cbn [app]; apply utf8_valid_ascii; repeat constructor; lia.
  - assert (flat_map (fun x => if x =? c then [c; c] else [x]) ch = ch) as ->.
    { clear - F Hc. induction F as [|b ch Hb F IH]; [done|]. cbn [flat_map]. zfalse (b =? c). cbn [app]. by f_equal. }
    rewrite <- (app_nil_r ch), utf8_valid_char by done. done.
Qed.
Lemma quoted_valid c s : 0 <= c < 128 -> utf8_valid s = true -> utf8_valid (c :: replace_char c [c; c] s ++ [c]) = true.
Proof.
  intros Hc V. assert (utf8_valid [c] = true) as Vc by (apply utf8_valid_ascii; repeat constructor; lia).
  apply (utf8_valid_app [c]); [done|]. apply utf8_valid_app; [by apply doubled_valid|done].
Qed.
Lemma token_valid t : token_ok t -> utf8_valid (token_text t) = true.
Proof.
  destruct t; try (intros _; vm_compute; reflexivity); cbn [token_ok token_text].
  - destruct s as [|c s]; [done|]. intros [_ F]. apply ascii_valid. eapply Forall_impl; [exact F|]. intros b Hb. apply class_bounds in Hb. lia.
  - intros F. apply quoted_valid; [lia|]. by apply ascii_valid.
  - intros V. apply quoted_valid; [lia|done].
  - destruct s as [|c s]; [done|]. intros [_ E]. pose proof (scan_number_ascii _ (c :: s) false false (le_n _)) as F. rewrite E in F. by apply ascii_valid.
  - intros Hn. apply (utf8_valid_app [36]); [done|]. apply i64_display_valid. unfold in_i. lia.
Qed.
Lemma text_valid ps : Forall token_ok (toks ps) -> utf8_valid (text ps) = true.
Proof.
  induction ps as [|[t|] ps IH]; intros Hok; [done| |].
  - rewrite toks_tok in Hok. apply Forall_cons in Hok as [Ht Hok]. rewrite text_tok. apply utf8_valid_app; [by apply token_valid|by apply IH].
  - rewrite text_sp. apply (utf8_valid_app [32]); [done|]. by apply IH.
Qed.

(** * The tokens of the log *)

Section log.
Context {X : Type} (other_sql : X -> str).
Abbreviation xpc := (fun _ : X => @Datatypes.nil piece).

Lemma statement_text (s : Statement X) : ok_statement s -> statement_to_sql other_sql s = text (statement_pc xpc s) /\ chunk (statement_pc xpc s).
Proof.
  intros Hs. destruct (ok_ind (text_e other_sql xpc) (text_s other_sql xpc) (text_t other_sql xpc) (text_expr _ _) (text_select _ _) (text_statement _ _)) as (_ & _ & HT).
  destruct (ok_ind (lex_e xpc) (lex_s xpc) (lex_t xpc) (lex_expr xpc) (lex_select xpc) (lex_statement xpc)) as (_ & _ & HL).
  split; [symmetry; by apply HT|by apply HL].
Qed.
Lemma statement_nonempty (s : Statement X) : ok_statement s -> statement_to_sql other_sql s <> [].
Proof.
  intros Hs. destruct (printable_reads (fun _ => Stuck) xpc) as (_ & _ & H). destruct (H s Hs) as [(w & tl & Hw & _) _].
  destruct (statement_text s Hs) as [-> (_ & _ & C)]. pose proof (toks_len _ C) as L. unfold ExprRead.tt' in Hw. rewrite Hw in L. intros E. rewrite E in L. cbn in L. lia.
Qed.
Definition tlog (ss : list (Statement X)) : list Token := concat ((fun s => toks (statement_pc xpc s) ++ [Semicolon]) <$> ss).
Lemma log_text_eq ss : Forall ok_statement ss -> log_text other_sql ss = flat_map (fun s => text (statement_pc xpc s) ++ Txn.SEP) ss.
Proof.
  intros F. unfold log_text. rewrite log_contents.
  - cbn [app]. induction F as [|s ss Hs F IH]; [done|]. cbn [fmap list_fmap flat_map]. rewrite IH. by rewrite (proj1 (statement_text s Hs)).
  - rewrite Forall_fmap. eapply Forall_impl; [exact F|]. intros s Hs. cbn [compose]. by apply statement_nonempty.
Qed.
Lemma log_tokens ss : Forall ok_statement ss -> tokenize (log_text other_sql ss) = Some (Ok (tlog ss)).
Proof.
  intros F. rewrite log_text_eq by done. unfold tokenize.
  assert (exists n, (n <= S (length (flat_map (fun s => text (statement_pc xpc s) ++ Txn.SEP) ss)))%nat
    /\ tokenize_fuel n (flat_map (fun s => text (statement_pc xpc s) ++ Txn.SEP) ss) = Some (Ok (tlog ss))) as (n & Hn & H).
  { induction F as [|s ss Hs F (n & Hn & IH)]; [exists 1%nat; by split; [cbn; lia|]|]. destruct (statement_text s Hs) as [_ (C1 & C2 & C3)].
    exists (length (toks (statement_pc xpc s)) + S n)%nat. cbn [flat_map]. split; [rewrite !length_app; pose proof (toks_len _ C3); change (length Txn.SEP) with 2%nat; lia|].
    change (tlog (s :: ss)) with ((toks (statement_pc xpc s) ++ [Semicolon]) ++ tlog ss). rewrite <- !app_assoc. unfold Txn.SEP. cbn [app].
    apply (pieces_prefix _ None); [by apply C1|by apply C2|done|]. by rewrite tokenize_newline. }
  by eapply tokenize_fuel_more.
Qed.

(** ** Its statements *)

Context (other : parser X).
Lemma statements_read ss : Forall ok_statement ss -> forall n, (length (tlog ss) < n)%nat -> parse_statements other n (tlog ss) = Parsed (no_returning <$> ss) [].
Proof.
  intros F. destruct (printable_reads other xpc) as (_ & _ & H). induction F as [|s ss Hs F IH]; intros n L; (destruct n as [|n]; [lia|]); [done|].
  destruct (H s Hs) as [(w & tl & Hw & _) R]. change (tlog (s :: ss)) with ((tt' xpc s ++ [Semicolon]) ++ tlog ss) in *. rewrite <- app_assoc in *. cbn [app] in *.
  specialize (R (S (S (length (tt' xpc s ++ Semicolon :: tlog ss)))) (Semicolon :: tlog ss) (Nat.lt_succ_diag_r _) eq_refl). rewrite Hw in *. cbn [app] in *. cbn [parse_statements skip_semicolons].
  rewrite R. cbn [length] in L. rewrite length_app in L. cbn [length] in L. erewrite bind_parsed; [|apply IH; lia]. done.
Qed.
Lemma log_parses empty ss : Forall ok_statement ss -> ss <> [] -> parse_sql other empty (log_text other_sql ss) = Parsed (no_returning <$> ss) [].
Proof. intros F N. unfold parse_sql. rewrite log_tokens, statements_read by (done || lia). by destruct ss. Qed.
End log.

(** ** Decoding *)

Lemma log_valid {X} (other_sql : X -> str) ss : Forall ok_statement ss -> utf8_valid (log_text other_sql ss) = true.
Proof.
  intros F. rewrite log_text_eq by done. induction F as [|s ss Hs F IH]; [done|]. cbn [flat_map]. destruct (statement_text other_sql s Hs) as [_ (_ & _ & C)].
  apply utf8_valid_app; [|done]. apply utf8_valid_app; [by apply text_valid|done].
Qed.
Lemma trim_fuel_keeps encs c fuel : (forall w, w ∈ encs -> c ∉ w) -> forall s, c ∈ s -> c ∈ trim_fuel encs fuel s.
Proof.
  intros H. induction fuel as [|fuel IH]; intros s Hs; [done|]. cbn [trim_fuel]. unfold ws_len. destruct (filter (fun w => starts_with s w) encs) as [|w ws] eqn:E; [done|].
  assert (w ∈ filter (fun w => starts_with s w) encs) as Hw by (rewrite E; by left). apply list_elem_of_filter in Hw as [Hw He]. destruct (length w) as [|n] eqn:Ew; [done|].
  apply IH. unfold starts_with in Hw. apply bool_decide_unpack in Hw. rewrite Ew in Hw. rewrite <- (take_drop (S n) s), Hw in Hs. apply elem_of_app in Hs as [Hs|Hs]; [|done].
  by apply H in He.
Qed.
Lemma trim_graphic c s : 33 <= c <= 126 -> c ∈ s -> trim s <> [].
Proof.
  intros Hc Hs. assert (forall w, w ∈ ws_chars -> c ∉ w) as Hw.
  { intros w Hw Hin. assert (forallb (forallb (fun x => (x <? 33) || (126 <? x))) ws_chars = true) as F by (by vm_compute).
    rewrite forallb_forall in F. apply list_elem_of_In in Hw. specialize (F w Hw). rewrite forallb_forall in F. apply list_elem_of_In in Hin. specialize (F c Hin). lia. }
  assert (c ∈ trim s) as H.
  { unfold trim, trim_end, trim_start. apply elem_of_reverse, trim_fuel_keeps; [|apply elem_of_reverse, trim_fuel_keeps; [done|done]].
    intros w (v & -> & Hv)%list_elem_of_fmap. rewrite elem_of_reverse. by apply Hw. }
  intros E. rewrite E in H. by apply not_elem_of_nil in H.
Qed.
Lemma log_trim {X} (other_sql : X -> str) ss rest : Forall ok_statement ss -> ss <> [] -> trim (log_text other_sql ss ++ rest) <> [].
Proof.
  intros F N. destruct F as [|s ss Hs F]; [done|]. rewrite log_text_eq by (by constructor). apply (trim_graphic 59); [lia|]. cbn [flat_map]. rewrite !elem_of_app. left. left. right. by left.
Qed.

Lemma log_text_one {X} (other_sql : X -> str) s : ok_statement s -> log_text other_sql [s] = statement_to_sql other_sql s ++ Txn.SEP.
Proof. intros Hs. rewrite log_text_eq by (by constructor). cbn [flat_map]. rewrite app_nil_r. by rewrite (proj1 (statement_text other_sql s Hs)). Qed.
Lemma printed_sql_ok {X} (other_sql : X -> str) s : ok_statement s -> sep_free false (statement_to_sql other_sql s) = true -> sql_ok (statement_to_sql other_sql s).
Proof.
  intros Hs H. split; [by apply statement_nonempty|]. split; [done|]. destruct (statement_text other_sql s Hs) as [-> (_ & _ & C)]. by apply text_valid.
Qed.

(** * The start of the server *)

(** the parser, as the server calls it *)
Definition read_sql {X} (show : ParseError -> str) (other : parser X) (empty : X) (sql : str) : res str (list (Statement X)) :=
  match parse_sql other empty sql with Parsed ss _ => mret ss | Rejected e => fail (show e) | Stuck | Aborted => Panic end.
Definition is_empty {X} (e : X -> bool) (s : Statement X) : bool := match s with SOther x => e x | _ => false end.
Lemma ok_not_empty {X} (e : X -> bool) s : ok_statement s -> is_empty e (no_returning s) = false.
Proof. intros [s' H _ _ _]. destruct s' as [[]|?|[]|[]|? ?|?]; done. Qed.

(** C2: the log is replayed.  Let the log hold the texts that the serializer gives
    for a nonempty sequence of printable statements, as COMMIT and autocommit append
    them.  If nothing follows them, or if a fragment follows such that the whole file
    does not parse, and neither the fragment nor the text of any of the statements
    has a semicolon before a line end (the separator of the log; a string literal
    may contain it, and such a statement is not covered), then a server
    that starts on this log without a disk store executes exactly these statements
    in order on the empty database, up to their RETURNING clauses, and serves the
    result, or panics where the executor does. *)
Theorem boot_replays_log {Expr Select X} (execute : Database Expr Select -> Statement X -> run (Database Expr Select * result str ExecOutcome))
    (show : ParseError -> str) (other : parser X) (empty : X) (e : X -> bool) eval (other_sql : X -> str) ss torn :
  Forall ok_statement ss -> ss <> [] ->
  (torn = [] \/ sep_free false torn = true /\ Forall (fun s => sep_free false (statement_to_sql other_sql s) = true) ss
    /\ exists err, read_sql show other empty (wal_contents (Some (log_text other_sql ss ++ torn))) = fail err) ->
  boot execute (read_sql show other empty) (is_empty e) eval (Some (Some (log_text other_sql ss ++ torn))) None
  = run_each execute db_new (no_returning <$> ss).
Proof.
  intros F N Ht. unfold boot, replay. set (contents := wal_contents _) in *.
  assert (contents = log_text other_sql ss ++ from_utf8_lossy torn) as Hc by (apply lossy_valid_app; by apply log_valid).
  destruct (trim contents) as [|c t] eqn:Et; [rewrite Hc in Et; by apply log_trim in Et|].
  assert (parse_wal_statements (read_sql show other empty) contents = Val (no_returning <$> ss)) as ->.
  { unfold parse_wal_statements. destruct Ht as [->|(T1 & T2 & err & ->)].
    - rewrite Hc. cbn [from_utf8_lossy lossy_fuel length]. rewrite app_nil_r. unfold read_sql. by rewrite log_parses.
    - cbn [fail]. assert (wal_records contents = (fun s => s ++ Txn.SEP) <$> (statement_to_sql other_sql <$> ss)) as ->.
      { apply logical_log_torn_tail; [|done]. rewrite Forall_fmap. apply Forall_forall. intros s Hs. rewrite Forall_forall in F, T2. by apply printed_sql_ok; [apply F|apply T2]. }
      clear - F. induction F as [|s ss Hs F IH]; [done|]. cbn [fmap list_fmap parse_records].
      assert (read_sql show other empty (statement_to_sql other_sql s ++ Txn.SEP) = mret [no_returning s]) as ->.
      { unfold read_sql. rewrite <- log_text_one by done. by rewrite log_parses; [|constructor|]. }
      cbn [mret res_ret]. match goal with |- context [parse_records ?f ?l] => change (parse_records f l) with (parse_records f ((fun s => s ++ Txn.SEP) <$> (statement_to_sql other_sql <$> ss))) end.
      by rewrite IH. }
  cbn [mbind run_bind]. rewrite replay_all_fold; [|rewrite Forall_fmap; eapply Forall_impl; [exact F|]; intros s Hs; by apply ok_not_empty].
  by destruct (run_each execute db_new (no_returning <$> ss)).
Qed.

Definition demo_update : Statement unit :=
  SUpdate (mk_update (lit "t") [(lit "a", EStr (lit "x;" ++ [10] ++ lit "y"))] None (Some (EBinary OpEq (EColumn (lit "id")) (EInt 1))) []).
Definition demo_delete : Statement unit := SDelete (mk_delete (lit "t") None (Some (EBinary OpEq (EColumn (lit "id")) (EInt 1))) []).
(** an executor that records the statements as schema names *)
Definition demo_exec (db : Database unit unit) (s : Statement unit) : run (Database unit unit * result str ExecOutcome) :=
  Val match create_schema db (statement_to_sql (fun _ => []) s) false with Ok (db, _) => (db, Ok (Command [])) | Err e => (db, Err e) end.

Lemma boot_replays_log_witness :
  boot demo_exec (read_sql (fun _ => []) no_statements tt) (is_empty (fun _ => true)) no_eval
    (Some (Some (log_text (fun _ => []) [demo_insert; demo_update; demo_delete]))) None
  = run_each demo_exec db_new (no_returning <$> [demo_insert; demo_update; demo_delete])
  /\ boot demo_exec (read_sql (fun _ => []) no_statements tt) (is_empty (fun _ => true)) no_eval
       (Some (Some (log_text (fun _ => []) [demo_insert; demo_delete] ++ lit "UPDATE t SET a = 'x" ++ [195]))) None
     = run_each demo_exec db_new (no_returning <$> [demo_insert; demo_delete]).
Proof.
  split.
  - rewrite <- (app_nil_r (log_text _ _)). apply (boot_replays_log demo_exec (fun _ => []) no_statements tt (fun _ => true) no_eval (fun _ => [])); [printable|done|by left].
  - apply (boot_replays_log demo_exec (fun _ => []) no_statements tt (fun _ => true) no_eval (fun _ => [])); [printable|done|]. right.
    split; [vm_compute; reflexivity|]. split; [repeat constructor|]. eexists. vm_compute. reflexivity.
Defined.

(** A fragment of a statement that happens to parse is replayed: a DELETE whose
    record was cut before its WHERE clause deletes every row. *)
Lemma torn_statement_replayed :
  parse_wal_statements (read_sql (fun _ => []) no_statements tt) (wal_contents (Some (log_text (fun _ => []) [demo_update] ++ take 13 (statement_to_sql (fun _ => []) demo_delete))))
  = Val [demo_update; SDelete (mk_delete (lit "t") None None [])].
Proof. vm_compute. reflexivity. Qed.
