(* ===== verification/ParseTotal.v ===== *)
(** The recursive descent ends: on every token sequence the parser returns a tree
    or an error, never running out of fuel, and it never moves its cursor back; it
    panics only on a CUBE with at least 59 columns. *)

From S2P Require Import Prelude Utf8 Numeric Types Float Index Wire Hba FloatOps Datetime Json Containers LockStmt Lexer Ast Parser.

#[local] Open Scope nat_scope.
#[local] Open Scope parser_scope.

(** * Progress *)

(** the word CUBE and enough tokens after it for 59 columns *)
Definition cubes (ts : list Token) : Prop := exists pre w r, ts = pre ++ Word w :: r /\ str_eqb (lower w) (lit "cube") = true /\ 59 <= length r.
(** a result that consumed nothing back, and one that consumed a token *)
Definition good {A} (ts : list Token) (o : outcome A) : Prop :=
  match o with Parsed _ r => r `suffix_of` ts | Rejected _ => True | Stuck => False | Aborted => cubes ts end.
Definition strict {A} (ts : list Token) (o : outcome A) : Prop :=
  match o with Parsed _ r => r `suffix_of` ts /\ length r < length ts | Rejected _ => True | Stuck => False | Aborted => cubes ts end.
(** on at most [n] tokens, [p] returns; [eats] if it consumes when it succeeds *)
Definition safe {A} (n : nat) (p : parser A) : Prop := forall ts, length ts <= n -> good ts (p ts).
Definition eats {A} (n : nat) (p : parser A) : Prop := forall ts, length ts <= n -> strict ts (p ts).

Lemma good_refl {A} ts (a : A) : good ts (Parsed a ts).
Proof. exact (reflexivity ts). Qed.
#[local] Hint Resolve good_refl : core.
Lemma cubes_suffix r ts : cubes r -> r `suffix_of` ts -> cubes ts.
Proof. intros (pre & w & r' & -> & H) [k ->]. exists (k ++ pre), w, r'. by rewrite <- app_assoc. Qed.
Lemma good_suffix {A} r ts (o : outcome A) : r `suffix_of` ts -> good r o -> good ts o.
Proof. intros S. destruct o; cbn; [intros H; by etrans|done|done|intros H; by eapply cubes_suffix]. Qed.
Lemma strict_suffix {A} r ts (o : outcome A) : r `suffix_of` ts -> strict r o -> strict ts o.
Proof.
  intros S. destruct o; cbn; [|done|done|intros H; by eapply cubes_suffix]. intros [H L]. split; [by etrans|]. apply suffix_length in S. lia.
Qed.
Lemma strict_shorter {A} r ts (o : outcome A) : r `suffix_of` ts -> length r < length ts -> good r o -> strict ts o.
Proof.
  intros S L. destruct o; cbn; [|done|done|intros H; by eapply cubes_suffix]. intros H. split; [by etrans|]. apply suffix_length in H. lia.
Qed.
Lemma strict_good {A} ts (o : outcome A) : strict ts o -> good ts o.
Proof. destruct o; cbn; [by intros []|done..]. Qed.
Lemma eats_safe {A} n (p : parser A) : eats n p -> safe n p.
Proof. intros H ts L. by apply strict_good, H. Qed.
Lemma safe_le {A} n m (p : parser A) : safe n p -> m <= n -> safe m p.
Proof. intros H L ts Lt. apply H. lia. Qed.
Lemma eats_le {A} n m (p : parser A) : eats n p -> m <= n -> eats m p.
Proof. intros H L ts Lt. apply H. lia. Qed.
Lemma safe_ret {A} n (a : A) : safe n (pret a).
Proof. intros ts L. by cbn. Qed.
Lemma safe_reject {A} n e : safe n (@reject A e).
Proof. done. Qed.
Lemma eats_reject {A} n e : eats n (@reject A e).
Proof. done. Qed.

(** a parser of the tokens at hand *)
Lemma good_of {A} k (p : parser A) ts : safe k p -> length ts <= k -> good ts (p ts).
Proof. intros H. apply H. Qed.
Lemma suffix_tl {A} (x : A) l : l `suffix_of` x :: l.
Proof. by apply suffix_cons_r. Qed.
Lemma strict_of {A} k (p : parser A) t ts : safe k p -> length ts <= k -> strict (t :: ts) (p ts).
Proof. intros H L. apply (strict_shorter ts); [apply suffix_tl|cbn; lia|by apply H]. Qed.
Lemma good_cons {A} t ts (o : outcome A) : good ts o -> good (t :: ts) o.
Proof. apply good_suffix, suffix_tl. Qed.

(** Sequencing: after a parser that eats, the rest sees fewer tokens. *)
Lemma safe_bind {A B} n (p : parser A) (k : A -> parser B) : safe n p -> (forall a, safe n (k a)) -> safe n (pbind p k).
Proof.
  intros Hp Hk ts L. unfold pbind. specialize (Hp ts L). destruct (p ts) as [a r| | |]; cbn in Hp |- *; [|done..].
  apply (good_suffix r); [done|]. apply Hk. apply suffix_length in Hp. lia.
Qed.
Lemma safe_then {A B} n (p : parser A) (k : A -> parser B) : eats n p -> (forall a m, m < n -> safe m (k a)) -> safe n (pbind p k).
Proof.
  intros Hp Hk ts L. unfold pbind. specialize (Hp ts L). destruct (p ts) as [a r| | |]; cbn in Hp |- *; [|done..]. destruct Hp as [S Lr].
  apply (good_suffix r); [done|]. apply (Hk a (length r)); lia.
Qed.
Lemma eats_then {A B} n (p : parser A) (k : A -> parser B) : eats n p -> (forall a m, m < n -> safe m (k a)) -> eats n (pbind p k).
Proof.
  intros Hp Hk ts L. unfold pbind. specialize (Hp ts L). destruct (p ts) as [a r| | |]; cbn in Hp |- *; [|done..]. destruct Hp as [S Lr].
  apply (strict_shorter r); [done|done|]. apply (Hk a (length r)); lia.
Qed.
Lemma eats_bind {A B} n (p : parser A) (k : A -> parser B) : safe n p -> (forall a, eats n (k a)) -> eats n (pbind p k).
Proof.
  intros Hp Hk ts L. unfold pbind. specialize (Hp ts L). destruct (p ts) as [a r| | |]; cbn in Hp |- *; [|done..].
  apply (strict_suffix r); [done|]. apply Hk. apply suffix_length in Hp. lia.
Qed.

(** Tests that may consume one token. *)
Definition tests (p : parser bool) : Prop := forall ts, (exists t r, ts = t :: r /\ p ts = Parsed true r) \/ p ts = Parsed false ts.
Lemma tests_eat t : tests (eat t).
Proof. intros ts. unfold eat. destruct (next_is t ts) eqn:E; [left|by right]. destruct ts as [|u r]; [done|]. by exists u, r. Qed.
Lemma tests_kw kw : tests (eat_keyword kw).
Proof. intros ts. unfold eat_keyword. destruct (is_kw (lit kw) (head ts)) eqn:E; [left|by right]. destruct ts as [|u r]; [done|]. by exists u, r. Qed.
Lemma safe_test {B} n p (k : bool -> parser B) : tests p -> (forall m, m < n -> safe m (k true)) -> safe n (k false) -> safe n (pbind p k).
Proof.
  intros Hp H1 H2 ts L. unfold pbind. destruct (Hp ts) as [(t & r & -> & ->)| ->]; [|by apply H2]. cbn [length] in L.
  apply good_cons, (H1 (length r)); lia.
Qed.
Lemma eats_test {B} n p (k : bool -> parser B) : tests p -> (forall m, m < n -> safe m (k true)) -> eats n (k false) -> eats n (pbind p k).
Proof.
  intros Hp H1 H2 ts L. unfold pbind. destruct (Hp ts) as [(t & r & -> & ->)| ->]; [|by apply H2]. cbn [length] in L.
  apply (strict_of (length r)); [apply H1; lia|lia].
Qed.
Lemma safe_tests n p : tests p -> safe n p.
Proof. intros H ts L. destruct (H ts) as [(t & r & -> & ->)| ->]; cbn; [apply suffix_tl|done]. Qed.

(** Primitives. *)
Lemma strict_tl {A} (a : A) t ts : strict (t :: ts) (Parsed a ts).
Proof. split; [apply suffix_tl|cbn; lia]. Qed.
Lemma eats_expect t n : eats n (expect t).
Proof. intros ts L. unfold expect. destruct (next_is t ts) eqn:E; [|done]. destruct ts; [done|]. apply strict_tl. Qed.
Lemma eats_expect_kw kw n : eats n (expect_keyword kw).
Proof. intros ts L. unfold expect_keyword. destruct (is_kw _ _) eqn:E; [|done]. destruct ts; [done|]. apply strict_tl. Qed.
Lemma eats_ident n : eats n parse_ident.
Proof. intros ts L. destruct ts as [|[] ts]; try done; apply strict_tl. Qed.
Lemma safe_advance n : safe n advance.
Proof. intros ts L. destruct ts; cbn; [done|apply suffix_tl]. Qed.
Lemma safe_peek n : safe n peek.
Proof. intros ts L. exact (reflexivity ts). Qed.
Lemma safe_is_keyword kw n : safe n (is_keyword kw).
Proof. intros ts L. exact (reflexivity ts). Qed.
Lemma safe_is_keyword_at i kw n : safe n (is_keyword_at i kw).
Proof. intros ts L. exact (reflexivity ts). Qed.
Lemma safe_at_token t n : safe n (at_token t).
Proof. intros ts L. exact (reflexivity ts). Qed.
Lemma safe_at_predicate n : safe n at_predicate.
Proof. intros ts L. exact (reflexivity ts). Qed.

Create HintDb parses.
#[export] Hint Resolve eats_expect eats_expect_kw eats_ident safe_advance safe_peek safe_is_keyword safe_is_keyword_at safe_at_token safe_at_predicate
  tests_eat tests_kw safe_tests safe_ret safe_reject eats_reject : parses.
#[export] Hint Extern 5 (_ < _)%nat => lia : parses.
#[export] Hint Extern 5 (_ <= _)%nat => lia : parses.

(** Follows the structure of a parser; leaves are closed by the hints. *)
Ltac known := solve [eauto 3 with parses | apply eats_safe; eauto 3 with parses].
Ltac walk :=
  lazymatch goal with
  | |- safe _ (pbind (eat _) _) => apply safe_test; [apply tests_eat|intros ? ?; cbv beta iota; walk|cbv beta iota; walk]
  | |- safe _ (pbind (eat_keyword _) _) => apply safe_test; [apply tests_kw|intros ? ?; cbv beta iota; walk|cbv beta iota; walk]
  | |- eats _ (pbind (eat _) _) => apply eats_test; [apply tests_eat|intros ? ?; cbv beta iota; walk|cbv beta iota; walk]
  | |- eats _ (pbind (eat_keyword _) _) => apply eats_test; [apply tests_kw|intros ? ?; cbv beta iota; walk|cbv beta iota; walk]
  | |- safe _ (pbind _ _) => first [apply safe_then; [solve [known|walk]|intros ? ? ?; cbv beta; walk] | apply safe_bind; [first [known|walk]|intros ?; cbv beta; walk]]
  | |- eats _ (pbind _ _) => first [apply eats_then; [solve [known|walk]|intros ? ? ?; cbv beta; walk] | apply eats_bind; [first [known|walk]|intros ?; cbv beta; walk]]
  | |- safe _ (if ?b then _ else _) => destruct b; cbv iota; walk
  | |- eats _ (if ?b then _ else _) => destruct b; cbv iota; walk
  | |- safe _ (match ?x with _ => _ end) => destruct x; cbv iota; walk
  | |- eats _ (match ?x with _ => _ end) => destruct x; cbv iota; walk
  | _ => try known
  end.

(** ** Loops *)

Lemma safe_comma_list {A} (p : parser A) n : forall m, m < n -> safe m p -> safe m (comma_list n p).
Proof.
  induction n as [|n IH]; intros m L Hp; [lia|]. cbn [comma_list]. apply safe_bind; [done|]. intros a. walk.
  apply IH; [lia|apply (safe_le m); [done|lia]].
Qed.
Lemma eats_comma_list {A} (p : parser A) n m : m < n -> eats m p -> eats m (comma_list n p).
Proof.
  intros L Hp. destruct n as [|n]; [lia|]. cbn [comma_list]. apply eats_then; [done|]. intros a k Lk. walk.
  apply safe_comma_list; [lia|]; apply eats_safe, (eats_le m); [done|lia].
Qed.
Lemma eats_list_until {A} (p : parser A) t n m : m < n -> safe m p -> eats m (list_until n p t).
Proof.
  intros L Hp. unfold list_until. apply eats_bind; [apply safe_at_token|]. intros c. apply eats_bind; [destruct c; [apply safe_ret|by apply safe_comma_list]|].
  intros l. apply eats_then; [apply eats_expect|]. intros. apply safe_ret.
Qed.
Lemma safe_dotted n : forall m s name, m < n -> safe m (dotted n s name).
Proof. induction n as [|n IH]; intros m s name L; [lia|]. cbn [dotted]. walk. Qed.
#[export] Hint Resolve safe_dotted : parses.
Lemma eats_qualified_name n m : m < n -> eats m (parse_qualified_name n).
Proof. intros L. unfold parse_qualified_name. walk. Qed.
#[export] Hint Resolve eats_qualified_name : parses.
Lemma eats_object_name n m : m < n -> eats m (parse_object_name n).
Proof. intros L. unfold parse_object_name. walk. Qed.
#[export] Hint Resolve eats_object_name : parses.

(** ** Types and operators *)

Lemma eats_skip_past t msg n : eats n (skip_past t msg).
Proof.
  intros ts _. induction ts as [|u ts IH]; [done|]. cbn [skip_past]. destruct (bool_decide (u = t)); [apply strict_tl|].
  by apply (strict_suffix ts); [apply suffix_tl|].
Qed.
Lemma safe_skip_to t msg n : safe n (skip_to t msg).
Proof.
  intros ts _. induction ts as [|u ts IH]; [done|]. cbn [skip_to]. destruct (bool_decide (u = t)); [done|]. by apply good_cons.
Qed.
#[export] Hint Resolve eats_skip_past safe_skip_to : parses.
Lemma safe_array_dims n : forall m b, m < n -> safe m (array_dims n b).
Proof. induction n as [|n IH]; intros m b L; [lia|]. cbn [array_dims]. walk. Qed.
Lemma eats_lower_ident n : eats n lower_ident.
Proof. unfold lower_ident. walk. Qed.
#[export] Hint Resolve safe_array_dims eats_lower_ident : parses.
Lemma eats_data_type_named n m : m < n -> eats m (parse_data_type_named n).
Proof. intros L. unfold parse_data_type_named. walk. Qed.
#[export] Hint Resolve eats_data_type_named : parses.
Lemma eats_data_type n m : m < n -> eats m (parse_data_type n).
Proof. intros L. unfold parse_data_type. walk. Qed.
Lemma safe_interval_qualifier n : safe n parse_interval_qualifier.
Proof.
  intros [|[] ts] L; try apply good_refl. cbn [parse_interval_qualifier]. case_match; [|apply good_refl].
  match goal with |- good _ (?p ts) => assert (safe n p) as H' by walk end. apply good_cons. apply (H' ts). cbn in L. lia.
Qed.
Lemma eats_operator_construct n : eats n parse_operator_construct.
Proof.
  unfold parse_operator_construct. walk. intros ts L. cbv beta zeta. set (ts' := match ts with Word _ :: Dot :: ts => ts | _ => ts end).
  assert (ts' `suffix_of` ts) as S by (subst ts'; destruct ts as [|[] [|[] ts]]; try done; by do 2 apply suffix_cons_r). destruct (head ts' ≫= symbol_op); [|done].
  assert (safe n (let* _ := expect RParen in pret b)) as H' by walk. apply suffix_length in S as L'.
  apply (good_suffix (tail ts')); [destruct ts'; [done|etrans; [apply suffix_tl|done]]|]. apply H'. destruct ts'; cbn in *; lia.
Qed.
Lemma safe_quantifier n : safe n eat_quantifier.
Proof. unfold eat_quantifier. walk. Qed.
Lemma safe_number {Q} s n : safe n (parse_number (Q := Q) s).
Proof. unfold parse_number, float_number. walk. Qed.
#[export] Hint Resolve eats_data_type safe_interval_qualifier eats_operator_construct safe_quantifier safe_number : parses.

(** * Expressions *)

Section expr.
Context {Q : Type} (expr_bp : Z -> parser (Expr Q)) (select : parser Q) (fuel m : nat).
Context (He : forall k bp, k <= m -> eats k (expr_bp bp)) (Hs : forall k, k <= m -> eats k select) (Hf : S m < fuel).
#[local] Hint Resolve He Hs : parses.

Lemma eats_expr k : k <= m -> eats k (parse_expr expr_bp).
Proof. intros L. by apply He. Qed.
#[local] Hint Resolve eats_expr : parses.
Lemma eats_exprs k : k <= m -> eats k (comma_list fuel (parse_expr expr_bp)).
Proof. intros L. apply eats_comma_list; [lia|]. by apply eats_expr. Qed.
Lemma eats_expr_list k t : k <= m -> eats k (list_until fuel (parse_expr expr_bp) t).
Proof. intros L. apply eats_list_until; [lia|]. by apply eats_safe, eats_expr. Qed.
#[local] Hint Resolve eats_exprs eats_expr_list : parses.
Lemma eats_until_rparen k : k <= m -> eats k (parse_expr_list_until_rparen expr_bp fuel).
Proof. apply eats_expr_list. Qed.
Lemma eats_order_items k : k <= m -> eats k (parse_order_by_items expr_bp fuel).
Proof. intros L. apply eats_comma_list; [lia|]. unfold parse_order_by_item. walk. Qed.
#[local] Hint Resolve eats_until_rparen eats_order_items : parses.
Lemma eats_call_args k : k <= m -> eats k (parse_call_args expr_bp fuel).
Proof. intros L. unfold parse_call_args. walk. Qed.
Lemma safe_filter k : k <= m -> safe k (parse_aggregate_filter expr_bp).
Proof. intros L. unfold parse_aggregate_filter. walk. Qed.
Lemma safe_over k : k <= m -> safe k (parse_over_clause expr_bp fuel).
Proof. intros L. unfold parse_over_clause. walk. Qed.
#[local] Hint Resolve eats_call_args safe_filter safe_over : parses.
Lemma safe_function_args k name : k <= m -> safe k (parse_function_args expr_bp fuel name).
Proof. intros L. unfold parse_function_args. walk. Qed.
Lemma safe_whens n : forall k, k < n -> k <= m -> safe k (parse_whens expr_bp n).
Proof. induction n as [|n IH]; intros k L Lm; [lia|]. cbn [parse_whens]. walk. Qed.
#[local] Hint Resolve safe_function_args safe_whens : parses.
Lemma safe_on k : k <= m -> safe k (parse_case expr_bp fuel).
Proof. intros L. unfold parse_case. walk. Qed.
Lemma eats_subquery k : k <= S m -> eats k (parse_subquery select).
Proof. intros L. unfold parse_subquery. walk. Qed.
Lemma safe_paren k : k <= m -> safe k (parse_paren expr_bp select fuel).
Proof. intros L. unfold parse_paren. walk. Qed.
Lemma safe_name k w : k <= m -> safe k (parse_name expr_bp fuel w).
Proof. intros L. unfold parse_name. walk. Qed.
#[local] Hint Resolve safe_on eats_subquery safe_paren safe_name : parses.

Lemma safe_keyword k w : k <= m -> safe k (parse_keyword expr_bp select fuel w).
Proof.
  intros L ts Lt. unfold parse_keyword. cbv beta zeta.
  repeat match goal with |- good _ ((if ?c then _ else _)) => destruct c end; (apply (good_of k); [|done]); walk.
Qed.
#[local] Hint Resolve safe_keyword : parses.
Lemma safe_word k w : k <= m -> safe k (parse_word expr_bp select fuel w).
Proof.
  intros L ts Lt. unfold parse_word. cbv beta zeta.
  repeat match goal with |- good _ ((if ?c then _ else _)) => destruct c; [apply (good_of k); [|done]; walk|] end.
  destruct ts as [|t ts]; [by apply (safe_keyword k w L)|]. destruct t; try by apply (safe_keyword k w L). cbn [length] in Lt.
  destruct (str_eqb _ _); [apply good_cons, (good_of k); [walk|lia]|]. destruct (typed_literal _); [apply suffix_tl|]. by apply (safe_keyword k w L).
Qed.
#[local] Hint Resolve safe_word : parses.
Lemma eats_atom_inner k : k <= S m -> eats k (parse_atom_inner expr_bp select fuel).
Proof.
  intros L [|t ts] Lt; [done|]. cbn [length] in Lt. destruct t; try done; cbn [parse_atom_inner]; (apply (strict_of (pred k)); [|lia]); walk.
Qed.
Lemma safe_suffixes n : forall k e, k < n -> k <= m -> safe k (parse_suffixes expr_bp fuel n e).
Proof. induction n as [|n IH]; intros k e L Lm; [lia|]. cbn [parse_suffixes]. walk. Qed.
#[local] Hint Resolve eats_atom_inner safe_suffixes : parses.
Lemma eats_atom k : k <= S m -> eats k (parse_atom expr_bp select fuel).
Proof. intros L. unfold parse_atom. walk. Qed.
#[local] Hint Resolve eats_atom : parses.
Lemma eats_prefix k : k <= S m -> eats k (parse_prefix expr_bp select fuel).
Proof. intros L. unfold parse_prefix. walk. Qed.
Lemma eats_predicate k e : k <= m -> eats k (parse_predicate expr_bp select fuel e).
Proof. intros L. unfold parse_predicate. walk. Qed.
#[local] Hint Resolve eats_prefix eats_predicate : parses.
Lemma safe_infix n : forall k bp e, k < n -> k <= m -> safe k (parse_infix expr_bp select fuel n bp e).
Proof. induction n as [|n IH]; intros k bp e L Lm; [lia|]. cbn [parse_infix]. walk. Qed.
#[local] Hint Resolve safe_infix : parses.
Lemma eats_expr_body k bp : k <= S m -> eats k (expr_bp_body expr_bp select fuel bp).
Proof. intros L. unfold expr_bp_body. walk. Qed.
End expr.

(** * Queries and statements *)

Lemma safe_alias c n : safe n (parse_optional_alias c).
Proof.
  unfold parse_optional_alias. walk. intros [|t ts] L; [apply good_refl|]. destruct t; try apply good_refl. destruct (c _); [apply good_refl|apply suffix_tl].
Qed.
#[export] Hint Resolve safe_alias : parses.
Lemma eats_row_locking n m : m < n -> eats m (parse_row_locking_clause n).
Proof.
  intros L. assert (forall k, k < n -> safe k (comma_list n (parse_object_name n))) as Ho.
  { intros k Lk. apply safe_comma_list; [lia|]. apply eats_safe. by apply eats_object_name. }
  unfold parse_row_locking_clause. walk.
Qed.
#[export] Hint Resolve eats_row_locking : parses.
Lemma safe_locking fuel n : forall m, m < n -> m < fuel -> safe m (parse_locking fuel n).
Proof. induction n as [|n IH]; intros m L Lf; [lia|]. cbn [parse_locking]. walk. Qed.
Lemma safe_clause {A} kw (p : parser A) n : safe n p -> safe n (clause kw p).
Proof. intros H. unfold clause. walk. apply (safe_le n); [done|lia]. Qed.
Lemma safe_idents n m : m < n -> safe m (comma_list n parse_ident).
Proof. intros L. apply safe_comma_list; [done|]. apply eats_safe, eats_ident. Qed.
#[export] Hint Resolve safe_locking safe_idents : parses.
Lemma safe_columns n m : m < n -> safe m (parse_columns n).
Proof. intros L. unfold parse_columns. walk. Qed.
#[export] Hint Resolve safe_columns : parses.

Section query.
Context {X : Type}.
Abbreviation E := (Expr (Select X)).
Context (expr_bp : Z -> parser E) (select : parser (Select X)) (statement : parser (Statement X)) (fuel m : nat).
Context (He : forall k bp, k <= m -> eats k (expr_bp bp)) (Hs : forall k, k <= m -> eats k select) (Ht : forall k, k < m -> eats k statement) (Hf : S m < fuel).
#[local] Hint Resolve He Hs Ht : parses.
#[local] Hint Resolve eats_expr eats_exprs eats_expr_list eats_until_rparen eats_order_items eats_call_args : parses.

Lemma eats_values k : k <= S m -> eats k (parse_values_tuples expr_bp fuel).
Proof. intros L. apply eats_comma_list; [lia|]. walk. Qed.
Lemma eats_select_item k : k <= m -> eats k (parse_select_item expr_bp).
Proof. intros L. unfold parse_select_item. walk. Qed.
#[local] Hint Resolve eats_values eats_select_item : parses.
Lemma eats_select_list k : k <= m -> eats k (parse_select_list expr_bp fuel).
Proof. intros L. apply eats_comma_list; [lia|]. walk. Qed.
#[local] Hint Resolve eats_select_list : parses.
Lemma safe_returning k : k <= m -> safe k (parse_returning expr_bp fuel).
Proof. intros L. unfold parse_returning. walk. Qed.
Lemma eats_cte k r : k <= m -> eats k (parse_cte select statement fuel r).
Proof. intros L. unfold parse_cte. walk. Qed.
#[local] Hint Resolve safe_returning eats_cte : parses.
Lemma safe_ctes k r : k <= m -> safe k (comma_list fuel (parse_cte select statement fuel r)).
Proof. intros L. apply safe_comma_list; [lia|]. walk. Qed.
#[local] Hint Resolve safe_ctes : parses.
Lemma eats_with k : k <= S m -> eats k (parse_with_clause select statement fuel).
Proof. intros L. unfold parse_with_clause. walk. Qed.
Lemma eats_derived k l : k <= S m -> eats k (parse_derived select fuel l).
Proof. intros L. unfold parse_derived. walk. Qed.
Lemma eats_named k l : k <= S m -> eats k (parse_named expr_bp fuel l).
Proof. intros L. unfold parse_named. walk. Qed.
#[local] Hint Resolve eats_with eats_derived eats_named : parses.
Lemma eats_table_ref k : k <= m -> eats k (parse_table_ref expr_bp select fuel).
Proof. intros L. unfold parse_table_ref. walk. Qed.
Lemma safe_join_kind k : safe k parse_join_kind.
Proof. unfold parse_join_kind. walk. Qed.
#[local] Hint Resolve eats_table_ref safe_join_kind : parses.
Lemma safe_joins n : forall k, k < n -> k <= m -> safe k (parse_joins expr_bp select fuel n).
Proof. induction n as [|n IH]; intros k L Lm; [lia|]. cbn [parse_joins]. walk. Qed.
#[local] Hint Resolve safe_joins : parses.
Lemma eats_from k : k <= m -> eats k (parse_from_clause expr_bp select fuel).
Proof. intros L. unfold parse_from_clause. walk. Qed.
#[local] Hint Resolve eats_from : parses.
Lemma eats_grouping_set k : k <= m -> eats k (parse_grouping_set expr_bp fuel).
Proof. intros L. unfold parse_grouping_set. walk. Qed.
#[local] Hint Resolve eats_grouping_set : parses.
Lemma safe_grouping_sets k : k <= m -> safe k (comma_list fuel (parse_grouping_set expr_bp fuel)).
Proof. intros L. apply safe_comma_list; [lia|]. walk. Qed.
#[local] Hint Resolve safe_grouping_sets : parses.
(** The columns of a CUBE are no more than its tokens. *)
Lemma comma_list_count {A} (p : parser A) n : forall k ts l r, k < n -> length ts <= k -> eats k p -> comma_list n p ts = Parsed l r -> length l <= length ts.
Proof.
  induction n as [|n IH]; intros k ts l r L Lt Hp; [lia|]. cbn [comma_list]. unfold pbind at 1. specialize (Hp ts Lt) as H.
  destruct (p ts) as [a r1| | |]; cbn in H; try done. destruct H as [S1 L1]. unfold pbind at 1.
  destruct (tests_eat Comma r1) as [(t & r2 & -> & ->)| ->]; [|intros [= <- _]; cbn; lia]. cbn [length] in L1. unfold pbind.
  destruct (comma_list n p r2) as [l' r'| | |] eqn:E; try done. intros [= <- _].
  apply (IH (pred k)) in E; [cbn; lia|lia|lia|]. apply (eats_le k); [done|lia].
Qed.
Lemma until_rparen_count k ts l r : k <= m -> length ts <= k -> parse_expr_list_until_rparen expr_bp fuel ts = Parsed l r -> length l <= length ts.
Proof.
  intros L Lt. unfold parse_expr_list_until_rparen, list_until, pbind, at_token. destruct (next_is RParen ts).
  - cbn [pret]. destruct (expect RParen ts); try done. intros [= <- _]. cbn. lia.
  - destruct (comma_list fuel (parse_expr expr_bp) ts) as [l' r'| | |] eqn:E; try done. destruct (expect RParen r'); try done. intros [= <- _].
    assert (eats k (parse_expr expr_bp)) as U by walk. eapply (comma_list_count _ _ k); [|exact Lt|exact U|exact E]. lia.
Qed.
Lemma cube_sets_none {A} (cols : list A) : cube_sets cols = None -> 59 <= length cols.
Proof.
  unfold cube_sets. destruct (_ <? _)%Z eqn:E; [|done]. intros _. apply Z.ltb_lt in E. unfold zlen in *.
  destruct (decide (59 <= length cols)) as [|N]; [done|]. exfalso. rewrite Z.mod_small in E by lia.
  assert (2 ^ Z.of_nat (length cols) <= 2 ^ 58)%Z by (apply Z.pow_le_mono_r; lia). lia.
Qed.
Lemma is_kw_word kw t : is_kw kw (Some t) = true -> exists w, t = Word w /\ str_eqb (lower w) kw = true.
Proof. destruct t; try done. intros H. by exists s. Qed.
Lemma safe_group_element k : k <= m -> safe k (parse_group_element expr_bp fuel).
Proof.
  intros L. unfold parse_group_element. apply safe_bind; [apply safe_is_keyword|]. intros rollup ts Lt. unfold pbind at 1.
  unfold eat_keyword at 1. destruct (is_kw (lit "cube") (head ts)) eqn:Ec.
  - rewrite orb_true_r. destruct ts as [|t ts]; [done|]. apply is_kw_word in Ec as (w & -> & Hw). cbn [tail length] in *. unfold pbind, pret, expect.
    destruct (next_is LParen ts) eqn:Ep; [|done]. destruct ts as [|t ts]; [done|]. cbn [tail length] in *.
    assert (eats k (parse_expr_list_until_rparen expr_bp fuel)) as U by walk. pose proof (U ts ltac:(lia)) as H. pose proof (until_rparen_count k ts) as C.
    destruct (parse_expr_list_until_rparen expr_bp fuel ts) as [cols r| | |]; cbn in H; [|done|done|].
    + specialize (C cols r L ltac:(lia) eq_refl). destruct (cube_sets cols) eqn:Es.
      * cbn. destruct H as [H _]. by do 2 apply suffix_cons_r.
      * cbn. apply cube_sets_none in Es. exists [], w, (t :: ts). split_and!; [done|done|cbn; lia].
    + cbn. eapply cubes_suffix; [exact H|]. by do 2 apply suffix_cons_r.
  - rewrite orb_false_r. revert ts Lt Ec. assert (safe k (if rollup then let* _ := expect_keyword "rollup" in let* _ := expect LParen in
      let* cols := parse_expr_list_until_rparen expr_bp fuel in pret (true, rollup_sets cols)
      else let* grouping := eat_keyword "grouping" in
        if grouping then let* _ := expect_keyword "sets" in let* _ := expect LParen in let* sets := comma_list fuel (parse_grouping_set expr_bp fuel) in
          let* _ := expect RParen in pret (true, sets)
        else let* e := parse_expr expr_bp in pret (false, [[e]]))) as H by walk.
    intros ts Lt _. specialize (H ts Lt). destruct rollup; exact H.
Qed.
Lemma safe_group_by k : k <= m -> safe k (parse_group_by expr_bp fuel).
Proof.
  intros L. assert (forall k, k <= m -> safe k (comma_list fuel (parse_group_element expr_bp fuel))) as H.
  { intros j Lj. apply safe_comma_list; [lia|]. by apply safe_group_element. }
  unfold parse_group_by. walk.
Qed.
Lemma safe_from_clause kw k : k <= m -> safe k (clause kw (parse_from_clause expr_bp select fuel)).
Proof. intros L. apply safe_clause. walk. Qed.
Lemma safe_expr_clause kw k : k <= m -> safe k (clause kw (parse_expr expr_bp)).
Proof. intros L. apply safe_clause. walk. Qed.
#[local] Hint Resolve safe_group_by safe_from_clause safe_expr_clause : parses.
Lemma eats_core k : k <= S m -> eats k (parse_select_core expr_bp select fuel).
Proof. intros L. unfold parse_select_core. walk. Qed.
#[local] Hint Resolve eats_core : parses.
Lemma safe_limits n : forall k l o, k < n -> k <= m -> safe k (parse_limits expr_bp n l o).
Proof. induction n as [|n IH]; intros k l o L Lm; [lia|]. cbn [parse_limits]. walk. Qed.
Lemma safe_order_clause k : k <= m -> safe k (parse_order_clause expr_bp fuel).
Proof. intros L. unfold parse_order_clause. walk. Qed.
Lemma safe_set_ops n : forall k, k < n -> k <= m -> safe k (parse_set_ops expr_bp select fuel n).
Proof. induction n as [|n IH]; intros k L Lm; [lia|]. cbn [parse_set_ops]. unfold eat_set_operator. walk. Qed.
#[local] Hint Resolve safe_limits safe_order_clause safe_set_ops : parses.
Lemma eats_select_body k : k <= S m -> eats k (select_body expr_bp select statement fuel).
Proof. intros L. unfold select_body. walk. Qed.

Lemma eats_assignments k : k <= S m -> eats k (comma_list fuel (parse_assignment expr_bp)).
Proof. intros L. apply eats_comma_list; [lia|]. unfold parse_assignment. walk. Qed.
#[local] Hint Resolve eats_assignments : parses.
Lemma safe_on_conflict k : k <= m -> safe k (parse_on_conflict expr_bp fuel).
Proof. intros L. unfold parse_on_conflict. walk. Qed.
#[local] Hint Resolve safe_on_conflict : parses.
Lemma eats_insert k : k <= S m -> eats k (parse_insert expr_bp select fuel).
Proof. intros L. unfold parse_insert. walk. Qed.
Lemma eats_update k : k <= S m -> eats k (parse_update expr_bp select fuel).
Proof. intros L. unfold parse_update. walk. Qed.
Lemma eats_delete k : k <= S m -> eats k (parse_delete expr_bp select fuel).
Proof. intros L. unfold parse_delete. walk. Qed.
#[local] Hint Resolve eats_insert eats_update eats_delete : parses.
Context (other : parser X) (Ho : forall k, eats k other).
#[local] Hint Resolve Ho : parses.
Lemma eats_statement_body k : k <= m -> eats k (statement_body expr_bp select statement fuel other).
Proof.
  intros L ts Lt. unfold statement_body. destruct ts as [|t ts]; [done|]. destruct t; try done. cbv beta zeta.
  repeat match goal with |- strict _ ((if ?c then _ else _) _) => destruct c | |- strict _ (if ?c then _ else _) => destruct c end.
  5: { cbn [length] in Lt. match goal with |- strict ?l _ => change (strict l ((let* analyze := eat_keyword "analyze" in let* s := statement in pret (SExplain analyze s)) ts)) end.
       apply (strict_of (pred k)); [walk|lia]. }
  all: match goal with |- strict ?l (?p ?l) => enough (eats k p) as H by (by apply H) end; walk.
Qed.
End query.

(** * The recursive functions *)

Section knot.
Context {X : Type} (other : parser X) (Ho : forall k, eats k other).

Lemma knot f : (forall k bp, k < f -> eats k (parse_expr_bp other f bp)) /\ (forall k, k < f -> eats k (parse_select other f)) /\ (forall k, S k < f -> eats k (parse_statement other f)).
Proof.
  induction f as [|f (IE & IS & IT)]; [split_and!; intros; lia|]. destruct f as [|f].
  - split_and!; [| |lia]; intros; (intros [|t ts] L; [|cbn in L; lia]); done.
  - assert (forall k bp, k <= f -> eats k (fun ts => parse_expr_bp other (S f) bp ts)) as HE by (intros k bp L ts; apply IE; lia).
    assert (forall k, k <= f -> eats k (fun ts => parse_select other (S f) ts)) as HS by (intros k L ts; apply IS; lia).
    assert (forall k, k < f -> eats k (fun ts => parse_statement other (S f) ts)) as HT by (intros k L ts; apply IT; lia).
    split_and!; intros k.
    + intros bp L ts Lt. apply (eats_expr_body (fun bp ts => parse_expr_bp other (S f) bp ts) (fun ts => parse_select other (S f) ts) (S (S f)) f HE HS ltac:(lia) k bp); lia.
    + intros L ts Lt. apply (eats_select_body _ (fun ts => parse_select other (S f) ts) (fun ts => parse_statement other (S f) ts) (S (S f)) f HE HS HT ltac:(lia) k); lia.
    + intros L ts Lt. apply (eats_statement_body _ (fun ts => parse_select other (S f) ts) (fun ts => parse_statement other (S f) ts) (S (S f)) f HE HS HT ltac:(lia) other Ho k); lia.
Qed.

Lemma skip_semicolons_suffix ts : skip_semicolons ts `suffix_of` ts.
Proof. induction ts as [|[] ts IH]; cbn [skip_semicolons]; try done. by apply suffix_cons_r. Qed.
Lemma statements_return n : forall ts, length ts < n -> good ts (parse_statements other n ts).
Proof.
  induction n as [|n IH]; intros ts L; [lia|]. cbn [parse_statements]. pose proof (skip_semicolons_suffix ts) as Ss. apply suffix_length in Ss as Ls.
  destruct (skip_semicolons ts) as [|t r]; [done|]. set (ts' := t :: r) in *. apply (good_suffix ts'); [done|]. destruct (knot (S (S (length ts')))) as (_ & _ & H).
  specialize (H (length ts') ltac:(lia) ts' ltac:(lia)). destruct (parse_statement other (S (S (length ts'))) ts') as [s [|u v]| | |]; cbn [strict length] in H; try done; [apply suffix_nil|].
  destruct H as [Sv Lv]. assert (length v < n) as Lv' by (subst ts'; cbn [length] in *; lia). destruct u; try done. assert (v `suffix_of` ts') as Sv' by (etrans; [apply suffix_tl|done]).
  unfold pbind. specialize (IH v Lv'). apply (good_suffix v); [done|]. by destruct (parse_statements other n v).
Qed.
End knot.

(** C4: the parser returns.  On every text [Parser::parse_sql] yields statements or an
    error, unless the text has the word CUBE with at least 59 tokens after it: then
    it may also panic, on allocating the subsets of 59 or more columns (shown by
    [cube_aborts]).  The parser of the statements without queries (DDL and utility
    statements) is a parameter, of which the same is assumed and that it consumes a
    token when it succeeds; memory and stack are not bounded. *)
Theorem parse_sql_returns {X} (other : parser X) (empty : X) : (forall n, eats n other) -> forall sql,
  match parse_sql other empty sql with
  | Parsed _ _ | Rejected _ => True
  | Stuck => False
  | Aborted => exists ts, tokenize sql = Some (Ok ts) /\ cubes ts
  end.
Proof.
  intros Ho sql. unfold parse_sql. destruct (proj1 (lexer_total sql)) as [[ts|e] ->]; [|done].
  pose proof (statements_return other Ho (S (length ts)) ts ltac:(lia)) as H. destruct (parse_statements other (S (length ts)) ts) as [[]| | |]; try done. by exists ts.
Qed.

Definition checkpoint_only : parser unit := fun ts => match ts with Word w :: ts => if is_kw (lit "checkpoint") (Some (Word w)) then Parsed tt ts else Rejected (Message (lit "unsupported statement")) | _ => Rejected (Message []) end.
Lemma parse_sql_returns_witness :
  match parse_sql checkpoint_only tt (lit "SELECT ((((1 + a[2 FROM t; ((") with Rejected _ => True | _ => False end
  /\ match parse_sql checkpoint_only tt (lit "CHECKPOINT") with Parsed _ _ => True | _ => False end.
Proof.
  assert (forall n, eats n checkpoint_only) as H. { intros n [|[] ts] L; try done. unfold checkpoint_only. destruct (is_kw _ _); [apply strict_tl|done]. }
  pose proof (parse_sql_returns checkpoint_only tt H (lit "SELECT ((((1 + a[2 FROM t; ((")) as H1.
  pose proof (parse_sql_returns checkpoint_only tt H (lit "CHECKPOINT")) as H2. revert H1 H2. vm_compute. done.
Defined.

(** CUBE over 59 columns panics, and over 32 columns it yields one grouping set
    instead of 2^32. *)
Definition columns (n : nat) : list nat := seq 0 n.
Example cube_aborts :
  parse_sql checkpoint_only tt (lit "SELECT 1 FROM t GROUP BY CUBE(a" ++ concat (replicate 58 (lit ", a")) ++ lit ")") = Aborted
  /\ cube_sets (columns 59) = None /\ cube_sets (columns 32) = Some [[]] /\ cube_sets (columns 2) = Some [[0; 1]; [1]; [0]; []].
Proof. vm_compute. done. Qed.
