(* ===== verification/Rowset.v ===== *)
(** Row sets of crates/engine/src/executor.rs: equality of rows, DISTINCT, the set
    operations, ORDER BY and LIMIT.  [slice::sort_by] is an interface: it is a
    stable sort when the comparison is a total preorder on the elements, and may
    permute them arbitrarily or panic otherwise. *)

From Stdlib Require Import Sorted.
From S2P Require Import Prelude Utf8 Numeric Types Float BTree Index Wire Containers LockStmt Ast Eval.

#[local] Open Scope Z_scope.

(** * Equality *)

(** the derived [PartialEq] of [Value] *)
Definition value_eqb (a b : Value) : bool :=
  match a, b with
  | Null, Null => true
  | Int x, Int y => x =? y
  | Float x, Float y => f64_eqb x y
  | Num x, Num y => bd_eqb x y
  | Text x, Text y => str_eqb x y
  | Bool x, Bool y => Bool.eqb x y
  | _, _ => false
  end.
Definition row_eqb : list Value -> list Value -> bool := list_eqb value_eqb.

(** [retain] with a list of the keys already seen: the first row of each key stays *)
Fixpoint keep_first {A} (key : A -> list Value) (seen : list (list Value)) (l : list A) : list A :=
  match l with
  | [] => []
  | x :: l => if existsb (fun s => row_eqb s (key x)) seen then keep_first key seen l else x :: keep_first key (seen ++ [key x]) l
  end.

(** [distinct_rows] *)
Definition distinct_rows (rows : list (list Value)) : list (list Value) := keep_first (fun r => r) [] rows.

(** [apply_set_operation] *)
Definition apply_set_operation (left right : list (list Value)) (op : SetOperator) (all : bool) : list (list Value) :=
  match op, all with
  | Union, true => left ++ right
  | Union, false => distinct_rows (left ++ right)
  | Intersect, _ => let right_distinct := distinct_rows right in
      List.filter (fun row => existsb (fun r => row_eqb r row) right_distinct) (distinct_rows left)
  | Except, _ => let right_distinct := distinct_rows right in
      List.filter (fun row => negb (existsb (fun r => row_eqb r row) right_distinct)) (distinct_rows left)
  end.

(** * Order *)

(** [l'] is [l] sorted by [cmp], equal elements in their order in [l] *)
Definition stably_sorted {A} (cmp : A -> A -> comparison) (l l' : list A) : Prop :=
  l' ≡ₚ l /\ StronglySorted (fun a b => cmp a b <> Gt) l'
  /\ forall x, x ∈ l -> List.filter (fun y => is_eq (cmp x y)) l' = List.filter (fun y => is_eq (cmp x y)) l.

(** [slice::sort_by] *)
Class StableSort := {
  sort_by : forall {A : Type}, (A -> A -> comparison) -> list A -> run (list A);
  sort_permutes : forall A (cmp : A -> A -> comparison) l l', sort_by cmp l = Val l' -> l' ≡ₚ l;
  sort_stable : forall A (cmp : A -> A -> comparison) (ok : A -> Prop) l, KeyOrder cmp ok -> Forall ok l ->
    exists l', sort_by cmp l = Val l' /\ stably_sorted cmp l l'
}.

(** [compare_order_keys] *)
Fixpoint compare_order_keys {E} (a b : list Value) (order_by : list (OrderByItem E)) {struct order_by} : comparison :=
  match order_by, a, b with
  | ob :: order_by, x :: a, y :: b =>
      let ord := default Eq (compare_values x y) in
      match (if o_asc ob then ord else CompOpp ord) with Eq => compare_order_keys a b order_by | ord => ord end
  | _, _, _ => Eq
  end.

(** the comparison of two positions by their keys *)
Definition at_keys {K} (cmp : K -> K -> comparison) (keys : list K) (a b : nat) : comparison :=
  match keys !! a, keys !! b with Some x, Some y => cmp x y | _, _ => Eq end.

(** sorting the positions by key and collecting the rows in that order *)
Definition order_rows `{StableSort} {E A} (keys : list (list Value)) (order_by : list (OrderByItem E)) (l : list A) : run (list A) :=
  match sort_by (at_keys (fun a b => compare_order_keys a b order_by) keys) (seq 0 (length l)) with
  | Val idx => Val (flat_map (fun i => option_list (l !! i)) idx)
  | Panic => Panic
  end.

(** [output_column_index] *)
Fixpoint field_position (name : str) (i : nat) (fields : list FieldDescription) : option nat :=
  match fields with
  | [] => None
  | f :: fields => if str_eqb (f_name f) name then Some i else field_position name (S i) fields
  end.
Definition output_column_index {Q} (e : Expr Q) (fields : list FieldDescription) : option nat :=
  match e with EColumn name => field_position name 0 fields | _ => None end.

(** [positional_index] *)
Definition positional_index {Q} (e : Expr Q) (num_cols : nat) : result str (option nat) :=
  match e with
  | EInt n =>
      if (1 <=? n) && (n <=? Z.of_nat num_cols) then Ok (Some (Z.to_nat n - 1)%nat)
      else Err (lit "ORDER BY position " ++ i64_display n ++ lit " is not in select list")
  | _ => Ok None
  end.

(** the rows between OFFSET and LIMIT; both are [i64], so their sum fits [usize] *)
Definition slice_rows {A} (offset limit : option Z) (rows : list A) : list A :=
  let start := Z.min (default 0 offset) (zlen rows) in
  let stop := match limit with Some l => Z.min (start + l) (zlen rows) | None => zlen rows end in
  zslice start stop rows.

(** * Equality is an equivalence where there is no NaN *)

Definition sound_value (v : Value) : Prop :=
  match v with Float f => in_u 64 f /\ is_nan f = false | Num n => bd_wf n | _ => True end.
Definition sound_row : list Value -> Prop := Forall sound_value.

Lemma kind_sound c v : kind_ok c v -> sound_value v.
Proof. destruct v; cbn; tauto. Qed.
Lemma f64_eqb_pos a b : is_nan a = false -> is_nan b = false -> f64_eqb a b = true <-> f64_pos a = f64_pos b.
Proof.
  intros Na Nb. unfold f64_eqb, f64_partial_cmp. rewrite Na, Nb. cbn. destruct (Z.compare_spec (f64_pos a) (f64_pos b)); split; try done; lia.
Qed.
Lemma bd_eqb_scale x y s : bd_wf x -> bd_wf y -> scale x <= s -> scale y <= s -> bd_eqb x y = true <-> at_scale x s = at_scale y s.
Proof.
  intros Wx Wy Sx Sy. unfold bd_eqb. rewrite (bd_cmp_ok x y s) by done.
  destruct (Z.compare_spec (at_scale x s) (at_scale y s)); split; try done; lia.
Qed.

Lemma value_eqb_refl v : sound_value v -> value_eqb v v = true.
Proof.
  destruct v; cbn; intros H; rewrite ?Z.eqb_refl; try done.
  - destruct H; by apply f64_eqb_pos.
  - by apply (bd_eqb_scale n n (scale n)).
  - unfold str_eqb. by rewrite bool_decide_eq_true.
  - by destruct b.
Qed.
Lemma value_eqb_sym a b : sound_value a -> sound_value b -> value_eqb a b = true -> value_eqb b a = true.
Proof.
  destruct a, b; cbn; intros Ha Hb H; try done.
  - by rewrite Z.eqb_sym.
  - by rewrite f64_eqb_sym.
  - apply (bd_eqb_scale _ _ (Z.max (scale n) (scale n0))) in H; [|done || lia..]. apply (bd_eqb_scale _ _ (Z.max (scale n) (scale n0))); try done; lia.
  - unfold str_eqb in *. rewrite bool_decide_eq_true in *. done.
  - by destruct b0, b.
Qed.
Lemma value_eqb_trans a b c : sound_value a -> sound_value b -> sound_value c -> value_eqb a b = true -> value_eqb b c = true -> value_eqb a c = true.
Proof.
  destruct a, b, c; cbn; intros Ha Hb Hc H1 H2; try done.
  - zb. lia.
  - destruct Ha as [_ Na], Hb as [_ Nb], Hc as [_ Nc]. apply f64_eqb_pos in H1, H2; try done. apply f64_eqb_pos; try done. congruence.
  - set (s := Z.max (scale n) (Z.max (scale n0) (scale n1))). apply (bd_eqb_scale _ _ s) in H1, H2; [|done || lia..].
    apply (bd_eqb_scale _ _ s); try done; (lia || congruence).
  - unfold str_eqb in *. rewrite bool_decide_eq_true in *. congruence.
  - by destruct b0, b, b1.
Qed.

Lemma row_eqb_refl r : sound_row r -> row_eqb r r = true.
Proof. induction 1 as [|v r Hv _ IH]; [done|]. cbn. rewrite value_eqb_refl by done. exact IH. Qed.
Lemma row_eqb_sym r s : sound_row r -> sound_row s -> row_eqb r s = true -> row_eqb s r = true.
Proof.
  intros Hr. revert s. induction Hr as [|v r Hv _ IH]; intros [|w s] Hs; try done. inversion Hs; subst.
  intros [E1 E2]%andb_prop. cbn. rewrite value_eqb_sym by done. by apply IH.
Qed.
Lemma row_eqb_trans r s t : sound_row r -> sound_row s -> sound_row t -> row_eqb r s = true -> row_eqb s t = true -> row_eqb r t = true.
Proof.
  intros Hr. revert s t. induction Hr as [|v r Hv _ IH]; intros [|w s] [|x t] Hs Ht; try done. inversion Hs; inversion Ht; subst.
  intros [E1 E2]%andb_prop [F1 F2]%andb_prop. cbn. rewrite (value_eqb_trans v w x) by done. by apply (IH s).
Qed.

(** * DISTINCT and the set operations *)

(** a row equal to [r] is in [l] *)
Definition holds (r : list Value) (l : list (list Value)) : bool := existsb (fun s => row_eqb s r) l.
Definition rows_unique (l : list (list Value)) : Prop :=
  forall i j r s, (i < j)%nat -> l !! i = Some r -> l !! j = Some s -> row_eqb r s = false.

Lemma holds_app r l1 l2 : holds r (l1 ++ l2) = holds r l1 || holds r l2.
Proof. apply existsb_app. Qed.
Lemma holds_elem r l : sound_row r -> r ∈ l -> holds r l = true.
Proof. intros H E. apply existsb_exists. exists r. rewrite row_eqb_refl by done. split; [by apply list_elem_of_In|done]. Qed.
Lemma holds_eq r s l : sound_row r -> sound_row s -> Forall sound_row l -> row_eqb r s = true -> holds r l = holds s l.
Proof.
  intros Hr Hs Hl E. induction Hl as [|x l Hx _ IH]; [done|]. cbn. unfold holds in IH. rewrite IH. f_equal.
  destruct (row_eqb x r) eqn:E1, (row_eqb x s) eqn:E2; try done.
  - by rewrite (row_eqb_trans x r s) in E2.
  - by rewrite (row_eqb_trans x s r) in E1 by (done || by apply row_eqb_sym).
Qed.
Lemma holds_filter (p : list Value -> bool) r l : sound_row r -> Forall sound_row l ->
  (forall s, sound_row s -> row_eqb s r = true -> p s = p r) -> holds r (List.filter p l) = holds r l && p r.
Proof.
  intros Hr Hl Hp. induction Hl as [|x l Hx _ IH]; [done|]. cbn. fold (holds r l). destruct (row_eqb x r) eqn:E; cbn.
  - rewrite (Hp x) by done. destruct (p r) eqn:Pr; [cbn; by rewrite E|]. unfold holds in IH; by rewrite IH, andb_comm.
  - destruct (p x); [cbn; rewrite E|]; exact IH.
Qed.
Lemma unique_snoc l k : rows_unique l -> holds k l = false -> rows_unique (l ++ [k]).
Proof.
  intros U H i j r s L E1 E2. pose proof (lookup_lt_Some _ _ _ E2) as Lj. rewrite length_app in Lj. cbn in Lj.
  rewrite lookup_app_l in E1 by lia. destruct (decide (j < length l)%nat) as [Lt|Ge].
  - rewrite lookup_app_l in E2 by done. by apply (U i j).
  - rewrite lookup_app_r in E2 by lia. replace (j - length l)%nat with 0%nat in E2 by lia. injection E2 as <-.
    destruct (row_eqb r k) eqn:E; [|done]. rewrite <- H. symmetry. apply existsb_exists. exists r. split; [|done].
    apply list_elem_of_In. by eapply list_elem_of_lookup_2.
Qed.
Lemma unique_filter p l : rows_unique l -> rows_unique (List.filter p l).
Proof.
  induction l as [|x l IH]; [done|]. intros U. assert (rows_unique l) as Ul by (intros i j r s L; apply (U (S i) (S j)); lia).
  cbn. destruct (p x); [|by apply IH]. intros [|i] [|j] r s L E1 E2; [lia| |lia|eapply (IH Ul i j); try done; lia].
  injection E1 as <-. cbn in E2. apply list_elem_of_lookup_2, list_elem_of_In, filter_In in E2 as [E2 _].
  apply list_elem_of_In, list_elem_of_lookup_1 in E2 as [m E2]. by apply (U 0%nat (S m)); [lia|..].
Qed.

Lemma keep_first_sub {A} (key : A -> list Value) l : forall seen, keep_first key seen l `sublist_of` l.
Proof. induction l as [|x l IH]; intros seen; cbn; [done|]. destruct (existsb _ _); [by constructor|]. by apply sublist_skip. Qed.
Lemma keep_first_spec {A} (key : A -> list Value) l : forall seen, Forall sound_row seen -> Forall (fun x => sound_row (key x)) l -> rows_unique seen ->
  rows_unique (seen ++ (key <$> keep_first key seen l))
  /\ forall r, sound_row r -> holds r (seen ++ (key <$> keep_first key seen l)) = holds r (seen ++ (key <$> l)).
Proof.
  induction l as [|x l IH]; intros seen Hs Hl U; [cbn; by rewrite app_nil_r|]. inversion Hl as [|? ? Hx Hl']; subst. cbn.
  destruct (existsb _ _) eqn:E; fold (holds (key x) seen) in E.
  - destruct (IH seen Hs Hl' U) as [U' H]. split; [done|]. intros r Hr. rewrite (H r Hr), !holds_app. cbn. fold (holds r (key <$> l)).
    destruct (row_eqb (key x) r) eqn:Er; [|done]. rewrite <- (holds_eq (key x) r seen) by done. by rewrite E.
  - destruct (IH (seen ++ [key x])) as [U' H]; [by apply Forall_app_2; [|constructor]|done|by apply unique_snoc|].
    rewrite <- !app_assoc in U'. split; [done|]. intros r Hr. specialize (H r Hr). by rewrite <- !app_assoc in H.
Qed.
Lemma distinct_spec l : Forall sound_row l -> rows_unique (distinct_rows l) /\ Forall sound_row (distinct_rows l)
  /\ forall r, sound_row r -> holds r (distinct_rows l) = holds r l.
Proof.
  intros Hl. destruct (keep_first_spec (fun r => r) l []) as [U H]; [done..|]. cbn in U, H. rewrite !list_fmap_id in U, H.
  split_and!; [done| |intros r Hr; specialize (H r Hr); by rewrite list_fmap_id in H].
  apply Forall_forall. intros r Hr. rewrite Forall_forall in Hl. apply Hl. by eapply elem_of_sublist; [|apply keep_first_sub].
Qed.

(** C17: the set operations are those of sets.  On rows without NaN, UNION, INTERSECT
    and EXCEPT produce each row once, and a row exactly when it is in one side, in
    both, or in the left side only; UNION ALL keeps every row of both sides. *)
Theorem set_operations_exact left right all : Forall sound_row left -> Forall sound_row right ->
  (forall op, (op, all) <> (Union, true) -> rows_unique (apply_set_operation left right op all))
  /\ apply_set_operation left right Union true = left ++ right
  /\ forall r, sound_row r ->
       holds r (apply_set_operation left right Union all) = holds r left || holds r right
       /\ holds r (apply_set_operation left right Intersect all) = holds r left && holds r right
       /\ holds r (apply_set_operation left right Except all) = holds r left && negb (holds r right).
Proof.
  intros Hl Hr. destruct (distinct_spec left Hl) as (Ul & Sl & El), (distinct_spec right Hr) as (Ur & Sr & Er).
  destruct (distinct_spec (left ++ right)) as (U & S & E); [by apply Forall_app|]. split_and!; [|done|].
  - intros [] N; cbn; try by apply unique_filter. destruct all; [done|exact U].
  - intros r Rr. cbn [apply_set_operation]. split_and!.
    + destruct all; [|rewrite E by done]; apply holds_app.
    + rewrite holds_filter; [rewrite El by done; f_equal; exact (Er r Rr)|done..|]. intros s Hs Es. by apply holds_eq.
    + rewrite holds_filter; [rewrite El by done; do 2 f_equal; exact (Er r Rr)|done..|]. intros s Hs Es. f_equal. by apply holds_eq.
Qed.

Definition ints (l : list Z) : list Value := Int <$> l.
Lemma set_operations_exact_witness :
  rows_unique (apply_set_operation [ints [1]; ints [2]; ints [1]] [ints [1]] Intersect true)
  /\ holds (ints [2]) (apply_set_operation [ints [1]; ints [2]; ints [1]] [ints [1]] Except false) = true.
Proof.
  destruct (set_operations_exact [ints [1]; ints [2]; ints [1]] [ints [1]] true) as (U & _ & _); [repeat constructor..|].
  destruct (set_operations_exact [ints [1]; ints [2]; ints [1]] [ints [1]] false) as (_ & _ & H); [repeat constructor..|].
  split; [by apply U|]. destruct (H (ints [2])) as (_ & _ & ->); [repeat constructor|]. done.
Defined.

(** * Sorting *)

Section stable_insertion.
Context {A : Type} (cmp : A -> A -> comparison).

Fixpoint sort_insert (x : A) (l : list A) : list A :=
  match l with
  | [] => [x]
  | y :: l' => match cmp x y with Gt => y :: sort_insert x l' | _ => x :: l end
  end.
Definition insertion_sort : list A -> list A := foldr sort_insert [].

Lemma sort_insert_perm x l : sort_insert x l ≡ₚ x :: l.
Proof. induction l as [|y l IH]; [done|]. cbn. destruct (cmp x y); [done..|]. rewrite IH. constructor. Qed.
Lemma insertion_sort_perm l : insertion_sort l ≡ₚ l.
Proof. induction l as [|x l IH]; [done|]. cbn. by rewrite sort_insert_perm, IH. Qed.

Context (ok : A -> Prop) `{KO : !KeyOrder cmp ok}.

Lemma sort_insert_sorted x l : ok x -> Forall ok l -> StronglySorted (fun a b => cmp a b <> Gt) l -> StronglySorted (fun a b => cmp a b <> Gt) (sort_insert x l).
Proof.
  intros Hx Hl S. induction S as [|y l S IH F]; [by repeat constructor|]. inversion Hl as [|? ? Hy Hl']; subst. cbn.
  assert (cmp x y <> Gt -> StronglySorted (fun a b => cmp a b <> Gt) (x :: y :: l)) as Small.
  { intros N. constructor; [by constructor|]. constructor; [done|]. apply Forall_forall. intros z Hz.
    rewrite Forall_forall in F, Hl'. apply (key_trans cmp (ok := ok) x y z); auto. }
  destruct (cmp x y) eqn:E; [by apply Small..|]. constructor; [by apply IH|]. rewrite sort_insert_perm. constructor; [|done].
  rewrite (key_antisym cmp (ok := ok) x y), E by done. done.
Qed.
Lemma sort_insert_filter x y l : ok x -> ok y -> Forall ok l ->
  List.filter (fun z => is_eq (cmp y z)) (sort_insert x l) = List.filter (fun z => is_eq (cmp y z)) (x :: l).
Proof.
  intros Hx Hy Hl. induction Hl as [|w l Hw _ IH]; [done|]. cbn [sort_insert]. destruct (cmp x w) eqn:E; [done..|].
  cbn [List.filter]. rewrite IH. cbn [List.filter]. destruct (cmp y x) eqn:E1, (cmp y w) eqn:E2; cbn; try done.
  exfalso. rewrite <- (key_eq_l cmp (ok := ok) y x w) in E by done. congruence.
Qed.
Lemma insertion_sort_filter y l : ok y -> Forall ok l ->
  List.filter (fun z => is_eq (cmp y z)) (insertion_sort l) = List.filter (fun z => is_eq (cmp y z)) l.
Proof.
  intros Hy Hl. induction Hl as [|x l Hx Hl IH]; [done|]. cbn [insertion_sort foldr]. rewrite sort_insert_filter; [|done..|].
  - cbn [List.filter]. by rewrite IH.
  - fold insertion_sort. by rewrite insertion_sort_perm.
Qed.
Lemma insertion_sort_sorted l : Forall ok l -> StronglySorted (fun a b => cmp a b <> Gt) (insertion_sort l).
Proof.
  induction 1 as [|x l Hx Hl IH]; [constructor|]. apply sort_insert_sorted; [done| |done]. by rewrite insertion_sort_perm.
Qed.
Lemma insertion_sort_stable l : Forall ok l -> stably_sorted cmp l (insertion_sort l).
Proof.
  intros Hl. split_and!; [apply insertion_sort_perm|by apply insertion_sort_sorted|]. intros x Hx. apply insertion_sort_filter; [|done].
  rewrite Forall_forall in Hl. by apply Hl.
Qed.
End stable_insertion.

(** a sort that never panics *)
#[export] Program Instance insertion_StableSort : StableSort := {| sort_by A cmp l := Val (insertion_sort cmp l) |}.
Next Obligation. intros A cmp l l' [= <-]. apply insertion_sort_perm. Qed.
Next Obligation. intros A cmp ok l KO Hl. exists (insertion_sort cmp l). split; [done|]. by apply (insertion_sort_stable cmp ok). Qed.

(** * ORDER BY *)

(** the comparison of sort keys whose columns have one kind each is a total preorder *)
Definition keys_ok {E} (kinds : nat -> Kind) (order_by : list (OrderByItem E)) (key : list Value) : Prop :=
  length key = length order_by /\ key_ok kinds key.

Lemma compare_kind c a b : kind_ok c a -> kind_ok c b -> default Eq (compare_values a b) = cmp_value a b.
Proof. destruct a, b; cbn; try done; intros; destruct_and?; subst; done. Qed.

#[export] Instance direction_KeyOrder {A} (asc : bool) (cmp : A -> A -> comparison) (ok : A -> Prop) :
  KeyOrder cmp ok -> KeyOrder (fun a b => if asc then cmp a b else CompOpp (cmp a b)) ok.
Proof.
  intros O. destruct asc; [split; apply O|]. split.
  - intros k Hk. by rewrite (key_refl cmp (ok := ok)).
  - intros a b Ha Hb. by rewrite (key_antisym cmp (ok := ok) a b).
  - intros a b c Ha Hb Hc. rewrite <- !(key_antisym cmp (ok := ok)) by done. intros H1 H2. by apply (key_trans cmp (ok := ok) c b a).
Qed.

#[export] Instance order_keys_KeyOrder {E} kinds (order_by : list (OrderByItem E)) : KeyOrder (fun a b => compare_order_keys a b order_by) (keys_ok kinds order_by).
Proof.
  revert kinds. induction order_by as [|ob order_by IH]; intros kinds; [by split|].
  specialize (IH (fun i => kinds (S i))). pose proof (direction_KeyOrder (o_asc ob) cmp_value (kind_ok (kinds 0%nat)) _) as D.
  set (dir := fun a b => if o_asc ob then cmp_value a b else CompOpp (cmp_value a b)) in D.
  assert (forall a b, keys_ok kinds (ob :: order_by) a -> keys_ok kinds (ob :: order_by) b -> exists x y a' b', a = x :: a' /\ b = y :: b'
    /\ kind_ok (kinds 0%nat) x /\ kind_ok (kinds 0%nat) y /\ keys_ok (fun i => kinds (S i)) order_by a' /\ keys_ok (fun i => kinds (S i)) order_by b'
    /\ compare_order_keys a b (ob :: order_by) = match dir x y with Eq => compare_order_keys a' b' order_by | o => o end) as Step.
  { intros [|x a] [|y b] [La Ka] [Lb Kb]; try done. apply list_ok_cons in Ka as [Kx Ka], Kb as [Ky Kb]. exists x, y, a, b.
    split_and!; try done; [split; [by injection La|done]|split; [by injection Lb|done]|]. cbn. by rewrite (compare_kind (kinds 0%nat)). }
  split.
  - intros a Ha. destruct (Step a a Ha Ha) as (x & y & a' & b' & E1 & E2 & Kx & Ky & Ka & Kb & ->). rewrite E1 in E2. injection E2 as <- <-.
    rewrite (key_refl dir (KeyOrder := D)) by done. by apply (key_refl _ (KeyOrder := IH)).
  - intros a b Ha Hb. pose proof (Step b a Hb Ha) as Sba. destruct (Step a b Ha Hb) as (x & y & a' & b' & -> & -> & Kx & Ky & Ka & Kb & ->), Sba as (? & ? & ? & ? & [= <- <-] & [= <- <-] & _ & _ & _ & _ & ->).
    rewrite (key_antisym dir (KeyOrder := D) x y) by done. destruct (dir x y); cbn; [|done..]. by apply (key_antisym _ (KeyOrder := IH)).
  - intros a b c Ha Hb Hc. pose proof (Step b c Hb Hc) as Sbc. pose proof (Step a c Ha Hc) as Sac.
    destruct (Step a b Ha Hb) as (x & y & a' & b' & -> & -> & Kx & Ky & Ka & Kb & ->), Sbc as (? & z & ? & c' & [= <- <-] & -> & _ & Kz & _ & Kc & ->), Sac as (? & ? & ? & ? & [= <- <-] & [= <- <-] & _ & _ & _ & _ & ->).
    destruct (dir x y) eqn:Exy; [| |done].
    + rewrite (key_eq_l dir (KeyOrder0 := D) x y z) by done. destruct (dir y z); [|done..]. by apply (key_trans _ (KeyOrder := IH)).
    + intros _ H. rewrite (key_lt_le dir (KeyOrder0 := D) x y z); try done. by destruct (dir y z).
Qed.

Lemma StronglySorted_fmap {A B} (f : A -> B) (R : B -> B -> Prop) l : StronglySorted (fun a b => R (f a) (f b)) l -> StronglySorted R (f <$> l).
Proof. induction 1 as [|x l S IH F]; constructor; [done|]. by apply Forall_fmap. Qed.
Lemma filter_fmap {A B} (f : A -> B) (p : B -> bool) l : List.filter p (f <$> l) = f <$> List.filter (fun x => p (f x)) l.
Proof. induction l as [|x l IH]; [done|]. cbn. destruct (p (f x)); cbn; [f_equal|]; exact IH. Qed.
Lemma stably_sorted_fmap {A B} (f : A -> B) (cmp : B -> B -> comparison) l l' :
  stably_sorted (fun a b => cmp (f a) (f b)) l l' -> stably_sorted cmp (f <$> l) (f <$> l').
Proof.
  intros (P & S & F). split_and!; [by rewrite P|by apply StronglySorted_fmap|]. intros x (y & -> & Hy)%list_elem_of_fmap.
  rewrite !filter_fmap. by rewrite F.
Qed.
Lemma sorted_ext {A} (R R' : A -> A -> Prop) (ok : A -> Prop) l : (forall a b, ok a -> ok b -> R a b -> R' a b) -> Forall ok l -> StronglySorted R l -> StronglySorted R' l.
Proof.
  intros H Hl S. induction S as [|x l S IH F]; constructor; inversion Hl; subst; [by apply IH|].
  apply Forall_forall. intros y Hy. rewrite Forall_forall in *. by auto.
Qed.

Lemma filter_ext_elem {A} (p q : A -> bool) l : (forall x, x ∈ l -> p x = q x) -> List.filter p l = List.filter q l.
Proof. intros H. apply List.filter_ext_in. intros x Hx. apply H. by apply list_elem_of_In. Qed.
Lemma stably_sorted_ext {A} (cmp cmp' : A -> A -> comparison) l l' : (forall a b, a ∈ l -> b ∈ l -> cmp a b = cmp' a b) ->
  stably_sorted cmp l l' -> stably_sorted cmp' l l'.
Proof.
  intros H (P & S & F). split_and!; [done| |].
  - apply (sorted_ext (fun a b => cmp a b <> Gt) _ (fun x => x ∈ l)); [|apply Forall_forall; intros x Hx; by rewrite <- P|done]. intros a b Ha Hb. by rewrite H.
  - intros x Hx. specialize (F x Hx). rewrite (filter_ext_elem _ (fun y => is_eq (cmp' x y)) l') in F by (intros y Hy; rewrite H; [done..|by rewrite <- P]).
    rewrite F. apply filter_ext_elem. intros y Hy. by rewrite H.
Qed.
Lemma fmap_positions {A} (d : A) l : (fun i => default d (l !! i)) <$> seq 0 (length l) = l.
Proof.
  apply list_eq. intros i. rewrite list_lookup_fmap. destruct (decide (i < length l)%nat) as [L|G].
  - rewrite lookup_seq_lt by done. cbn. destruct (l !! i) eqn:E; [done|]. apply lookup_ge_None in E. lia.
  - rewrite lookup_seq_ge by lia. symmetry. apply lookup_ge_None. lia.
Qed.

(** Sorting positions is sorting the rows paired with their keys. *)
Lemma order_rows_sorted `{StableSort} {E A} kinds keys (order_by : list (OrderByItem E)) (l : list A) :
  length keys = length l -> Forall (keys_ok kinds order_by) keys ->
  exists pairs, order_rows keys order_by l = Val (pairs.*2)
  /\ stably_sorted (fun p q => compare_order_keys (fst p) (fst q) order_by) (zip keys l) pairs.
Proof.
  intros Len Hk. set (cmp := fun a b => compare_order_keys a b order_by). assert (length (zip keys l) = length l) as Lz by (rewrite length_zip; lia).
  assert (forall i, (i < length l)%nat -> exists k x, keys !! i = Some k /\ l !! i = Some x /\ zip keys l !! i = Some (k, x) /\ keys_ok kinds order_by k) as At.
  { intros i L. destruct (lookup_lt_is_Some_2 keys i ltac:(lia)) as [k Hki], (lookup_lt_is_Some_2 l i L) as [x Hx]. exists k, x. split_and!; try done.
    - apply lookup_zip_with_Some. by exists k, x.
    - rewrite Forall_lookup in Hk. by eapply Hk. }
  destruct (sort_stable _ (at_keys cmp keys) (fun i => (i < length l)%nat) (seq 0 (length l))) as (idx & Hi & S).
  { destruct (order_keys_KeyOrder kinds order_by) as [R Y T]. unfold at_keys. split.
    - intros a La. destruct (At a La) as (k & x & -> & _ & _ & K). by apply R.
    - intros a b La Lb. destruct (At a La) as (k & x & -> & _ & _ & K), (At b Lb) as (k' & x' & -> & _ & _ & K'). by apply Y.
    - intros a b c La Lb Lc. destruct (At a La) as (k & x & -> & _ & _ & K), (At b Lb) as (k' & x' & -> & _ & _ & K'), (At c Lc) as (k'' & x'' & -> & _ & _ & K'').
      by apply T. }
  { apply Forall_forall. intros i Hin%elem_of_seq. lia. }
  unfold order_rows. fold cmp. rewrite Hi. destruct (zip keys l) as [|d z] eqn:Ez.
  { destruct l; [|done]. cbn in S. destruct S as (P & _ & _). apply Permutation_nil_r in P as ->. exists []. repeat split; constructor. }
  rewrite <- Ez in *. exists ((fun i => default d (zip keys l !! i)) <$> idx).
  assert (Forall (fun i => (i < length l)%nat) idx) as Hidx. { destruct S as (P & _ & _). rewrite P. apply Forall_forall. intros i Hin%elem_of_seq. lia. }
  split.
  - f_equal. clear S Hi. induction Hidx as [|i idx L _ IH]; [done|]. cbn. destruct (At i L) as (k & x & _ & -> & -> & _). cbn. by f_equal.
  - rewrite <- (fmap_positions d (zip keys l)) at 1. rewrite Lz. apply stably_sorted_fmap. eapply stably_sorted_ext; [|exact S].
    intros a b La%elem_of_seq Lb%elem_of_seq. unfold at_keys. destruct (At a ltac:(lia)) as (k & x & -> & _ & -> & _), (At b ltac:(lia)) as (k' & x' & -> & _ & -> & _). done.
Qed.
