(* ===== verification/Aggregate.v ===== *)
(** Aggregates and grouping of crates/engine/src/executor.rs: the aggregate
    functions over a set of rows, expressions with aggregates, GROUP BY, grouping
    sets and HAVING.  The equality of subqueries inside expressions is an argument. *)

From Stdlib Require Import Sorted.
From S2P Require Import Prelude Utf8 Numeric Types Float BTree Index Wire Hba FloatOps Datetime Json Containers Pattern LockStmt Ast Eval Rowset.

#[local] Open Scope Z_scope.

(** * The clauses of a query *)

Section clauses.
Context {O : Type}.
Abbreviation E := (Expr (Select O)).

Definition s_distinct (s : Select O) : bool := match s with mk_select _ d _ _ _ _ _ _ _ _ _ _ _ _ => d end.
Definition s_distinct_on (s : Select O) : list E := match s with mk_select _ _ d _ _ _ _ _ _ _ _ _ _ _ => d end.
Definition s_projection (s : Select O) : list (SelectItem E) := match s with mk_select _ _ _ p _ _ _ _ _ _ _ _ _ _ => p end.
Definition s_from (s : Select O) : option (FromClause O) := match s with mk_select _ _ _ _ f _ _ _ _ _ _ _ _ _ => f end.
Definition s_filter (s : Select O) : option E := match s with mk_select _ _ _ _ _ f _ _ _ _ _ _ _ _ => f end.
Definition s_group_by (s : Select O) : list E := match s with mk_select _ _ _ _ _ _ g _ _ _ _ _ _ _ => g end.
Definition s_grouping_sets (s : Select O) : list (list E) := match s with mk_select _ _ _ _ _ _ _ g _ _ _ _ _ _ => g end.
Definition s_having (s : Select O) : option E := match s with mk_select _ _ _ _ _ _ _ _ h _ _ _ _ _ => h end.
Definition s_order_by (s : Select O) : list (OrderByItem E) := match s with mk_select _ _ _ _ _ _ _ _ _ o _ _ _ _ => o end.
Definition s_limit (s : Select O) : option E := match s with mk_select _ _ _ _ _ _ _ _ _ _ l _ _ _ => l end.
Definition s_offset (s : Select O) : option E := match s with mk_select _ _ _ _ _ _ _ _ _ _ _ o _ _ => o end.
Definition s_ctes (s : Select O) : list (Cte O) := match s with mk_select c _ _ _ _ _ _ _ _ _ _ _ _ _ => c end.
Definition s_set_ops (s : Select O) : list (SetOperation O) := match s with mk_select _ _ _ _ _ _ _ _ _ _ _ _ _ s => s end.
End clauses.

(** * Aggregate functions *)

(** [is_aggregate_name] *)
Definition is_aggregate_name (name : str) : bool :=
  is_one_of (to_ascii_lower <$> name)
    ["count"; "sum"; "avg"; "min"; "max"; "string_agg"; "array_agg"; "stddev"; "stddev_samp"; "stddev_pop"; "variance"; "var_samp"; "var_pop";
     "bool_and"; "bool_or"; "every"; "percentile_cont"; "percentile_disc"; "mode"]%string.

(** [contains_aggregate] *)
Fixpoint contains_aggregate {Q} (e : Expr Q) : bool :=
  match e with
  | EFunction _ _ _ _ _ (Some _) => false
  | EFunction name args _ _ filter None =>
      is_aggregate_name name || existsb contains_aggregate args || match filter with Some f => contains_aggregate f | None => false end
  | ERow items | EArray items => existsb contains_aggregate items
  | EUnary _ e | EIsNull e _ | ECast e _ | EInSubquery e _ _ => contains_aggregate e
  | EBinary _ l r | EIsDistinct l r _ | ELike l r _ _ => contains_aggregate l || contains_aggregate r
  | EQuantified l _ _ es | EInList l es _ => contains_aggregate l || existsb contains_aggregate es
  | EBetween e lo hi _ => contains_aggregate e || contains_aggregate lo || contains_aggregate hi
  | ECase operand whens else_expr =>
      match operand with Some o => contains_aggregate o | None => false end
      || existsb (fun w => match w with (c, r) => contains_aggregate c || contains_aggregate r end) whens
      || match else_expr with Some e => contains_aggregate e | None => false end
  | _ => false
  end.

(** [f64::sqrt], rounded to nearest: the integer root of the mantissa scaled to
    more than 64 bits, its last bit sticky *)
Definition f64_sqrt (a : Z) : Z :=
  if is_nan a then F64_NAN
  else if f64_is_zero a then a
  else if f64_neg a then F64_NAN
  else if is_infinite a then a
  else
    let shift := 128 + Z.modulo (f64_ex a) 2 in
    let n := f64_mant a * 2 ^ shift in
    let s := Z.sqrt n in
    f64_of_dyadic false (2 * s + (if s * s =? n then 0 else 1)) ((f64_ex a - shift) / 2 - 1).

(** [retain] with a [HashSet] of the texts seen *)
Fixpoint keep_new {A} (key : A -> str) (seen : list str) (l : list A) : list A :=
  match l with
  | [] => []
  | x :: l => if existsb (str_eqb (key x)) seen then keep_new key seen l else x :: keep_new key (key x :: seen) l
  end.

(** mapping a fallible function, in order *)
Fixpoint try_map {A B} (f : A -> res str B) (l : list A) : res str (list B) :=
  match l with
  | [] => mret []
  | x :: l => y ← f x; ys ← try_map f l; mret (y :: ys)
  end.

(** the exact sum of numerics and integers *)
Fixpoint numeric_sum (what : str) (acc : BigDecimal) (vals : list Value) : res str BigDecimal :=
  match vals with
  | [] => mret acc
  | v :: vals => d ← lift (to_bigdecimal v);
                 match d with Some d => numeric_sum what (add acc d) vals | None => fail (what ++ lit "() requires numeric input") end
  end.
(** the sum of integers and floats; the integer sum wraps around *)
Fixpoint mixed_sum (int_sum float_sum : Z) (float : bool) (vals : list Value) : res str Value :=
  match vals with
  | [] => mret (if float then Float float_sum else Int int_sum)
  | Int i :: vals => s ← lift (i64 (int_sum + i)); mixed_sum s (f64_add float_sum (i64_as_f64 i)) float vals
  | Float f :: vals => mixed_sum int_sum (f64_add float_sum f) true vals
  | _ :: _ => fail (lit "sum() requires numeric input")
  end.
Definition exact (vals : list Value) : bool := existsb is_num vals && negb (existsb is_float vals).

Definition agg_sum (vals : list Value) : res str Value :=
  match vals with
  | [] => mret Null
  | _ => if exact vals then s ← numeric_sum (lit "sum") bd_zero vals; mret (Num s) else mixed_sum 0 0 false vals
  end.
Definition agg_avg (vals : list Value) : res str Value :=
  match vals with
  | [] => mret Null
  | _ =>
      if exact vals then
        s ← numeric_sum (lit "avg") bd_zero vals;
        match div s (from_i64 (zlen vals)) with Some v => mret (Num v) | None => fail DIVISION_BY_ZERO end
      else
        fs ← try_map (fun v => Val (value_to_f64 v)) vals;
        mret (Float (f64_div (foldl f64_add 0 fs) (i64_as_f64 (zlen vals))))
  end.
Definition agg_extremum (want : comparison) (vals : list Value) : Value :=
  default Null (foldl (fun best v =>
    match best with
    | None => Some v
    | Some cur => Some (if bool_decide (default Eq (compare_values v cur) = want) then v else cur)
    end) None vals).

(** the longest run of equal values of a sorted list, the first of the longest *)
Fixpoint mode_loop (best : Value) (best_count : Z) (cur : Value) (cur_count : Z) (vals : list Value) : Value :=
  match vals with
  | [] => best
  | v :: vals =>
      let '(cur, cur_count) := if bool_decide (compare_values v cur = Some Eq) then (cur, cur_count + 1) else (v, 1) in
      if best_count <? cur_count then mode_loop cur cur_count cur cur_count vals else mode_loop best best_count cur cur_count vals
  end.
(** the first position whose cumulative fraction reaches [frac] *)
Fixpoint disc_index (n : nat) (frac : Z) (i : nat) (todo : nat) : nat :=
  match todo with
  | 0%nat => (n - 1)%nat
  | S todo =>
      match f64_partial_cmp (f64_div (i64_as_f64 (Z.of_nat i + 1)) (i64_as_f64 (Z.of_nat n))) frac with
      | Some Lt | None => disc_index n frac (S i) todo
      | _ => i
      end
  end.

(** the statistical aggregates *)
Definition agg_variance (population : bool) (nums : list Z) : Z :=
  let n := i64_as_f64 (zlen nums) in
  let mean := f64_div (foldl f64_add 0 nums) n in
  let ss := foldl f64_add 0 ((fun x => let d := f64_sub x mean in f64_times d d) <$> nums) in
  f64_div ss (if population then n else f64_sub n (i64_as_f64 1)).
Definition agg_stat (lname : str) (vals : list Value) : res str Value :=
  nums ← try_map (fun v => Val (value_to_f64 v)) vals;
  let population := is_one_of lname ["stddev_pop"; "var_pop"]%string in
  if (length nums =? 0)%nat || negb population && (length nums <? 2)%nat then mret Null
  else let v := agg_variance population nums in mret (Float (if starts_with lname (lit "stddev") then f64_sqrt v else v)).

Section evaluated.
Context (to_lowercase : str -> str) (call : str -> list Value -> res str Value) {Q : Type} `{StableSort}.
Abbreviation E := (Expr Q).
Abbreviation ev := (eval_expr to_lowercase call (Q := Q)).
Abbreviation cmp_equal := (fun a b => default Eq (compare_values a b)).

(** the rows a predicate accepts *)
Fixpoint filter_rows (pred : E) (names : list str) (rows : list (list Value)) : res str (list (list Value)) :=
  match rows with
  | [] => mret []
  | row :: rows => v ← ev names row pred; kept ← filter_rows pred names rows; mret (if is_true v then row :: kept else kept)
  end.
(** the values of an expression that are not NULL *)
Definition non_null (e : E) (names : list str) (rows : list (list Value)) : res str (list Value) :=
  vs ← try_map (fun row => ev names row e) rows; mret (List.filter (fun v => negb (is_null v)) vs).
Definition first_row (rows : list (list Value)) : list Value := default [] (head rows).

(** [percentile_cont], [percentile_disc] and [mode] *)
Definition ordered_set (lname : str) (args : list E) (names : list str) (rows : list (list Value)) : res str Value :=
  match last args with
  | None => fail (lname ++ lit "() requires a WITHIN GROUP (ORDER BY ...) clause")
  | Some ordered_expr =>
      vals ← non_null ordered_expr names rows;
      if str_eqb lname (lit "mode") then
        match vals with
        | [] => mret Null
        | _ => sorted ← lift (sort_by cmp_equal vals);
               match sorted with v :: vs => mret (mode_loop v 1 v 1 vs) | [] => Panic end
        end
      else
        a0 ← lift (expect (head args));
        fv ← ev names (first_row rows) a0;
        frac ← Val (value_to_f64 fv) : res str Z;
        if negb (match f64_partial_cmp 0 frac with Some Lt | Some Eq => true | _ => false end
                 && match f64_partial_cmp frac (i64_as_f64 1) with Some Lt | Some Eq => true | _ => false end)
        then fail (lit "percentile value " ++ f64_display frac ++ lit " is not between 0 and 1")
        else match vals with
             | [] => mret Null
             | _ =>
                 sorted ← lift (sort_by cmp_equal vals);
                 let n := length sorted in
                 if str_eqb lname (lit "percentile_disc") then
                   lift (expect (sorted !! (if f64_eq frac 0 then 0%nat else disc_index n frac 0 n)))
                 else
                   nums ← try_map (fun v => Val (value_to_f64 v)) sorted;
                   let rank := f64_times frac (f64_sub (i64_as_f64 (Z.of_nat n)) (i64_as_f64 1)) in
                   let lo := f64_trunc_mag rank in
                   let hi := if f64_has_fract rank then lo + 1 else lo in
                   x ← lift (expect (zget nums lo)); y ← lift (expect (zget nums hi));
                   mret (Float (if lo =? hi then x
                                else f64_add x (f64_times (f64_sub y x) (f64_sub rank (i64_as_f64 lo)))))
             end
  end.

(** [eval_aggregate] *)
Definition eval_aggregate (name : str) (args : list E) (star distinct : bool) (filter : option E) (names : list str) (rows : list (list Value)) : res str Value :=
  let lname := to_ascii_lower <$> name in
  rows ← match filter with Some p => filter_rows p names rows | None => mret rows end;
  if str_eqb lname (lit "count") && star then mret (Int (zlen rows))
  else if is_one_of lname ["percentile_cont"; "percentile_disc"; "mode"]%string then ordered_set lname args names rows
  else match args with
  | [] => fail (lname ++ lit "() requires an argument")
  | arg :: more =>
      vals ← non_null arg names rows;
      let vals := if distinct then keep_new text_of [] vals else vals in
      if is_one_of lname ["count"]%string then mret (Int (zlen vals))
      else if is_one_of lname ["sum"]%string then agg_sum vals
      else if is_one_of lname ["avg"]%string then agg_avg vals
      else if is_one_of lname ["min"; "max"]%string then mret (agg_extremum (if str_eqb lname (lit "min") then Lt else Gt) vals)
      else if is_one_of lname ["string_agg"]%string then
        match vals with
        | [] => mret Null
        | _ => sep ← match head more with Some e => v ← ev names (first_row rows) e; mret (text_of v) | None => mret [] end;
               mret (Text (join sep (text_of <$> vals)))
        end
      else if is_one_of lname ["array_agg"]%string then
        elems ← try_map (fun row => v ← ev names row arg; mret (to_text v)) rows;
        let elems := if distinct then keep_new (default (0 :: lit "NULL")) [] elems else elems in
        mret (Text (array_text_from_elements elems))
      else if is_one_of lname ["stddev"; "stddev_samp"; "stddev_pop"; "variance"; "var_samp"; "var_pop"]%string then agg_stat lname vals
      else if is_one_of lname ["bool_and"; "every"; "bool_or"]%string then
        match vals with
        | [] => mret Null
        | _ => mret (Bool (if str_eqb lname (lit "bool_or") then existsb is_true vals else forallb is_true vals))
        end
      else fail (lit "unknown aggregate " ++ lname)
  end.

(** [eval_aggregate_expr] *)
Fixpoint eval_aggregate_expr (names : list str) (rows : list (list Value)) (e : E) : res str Value :=
  match e with
  | EFunction name args star distinct filter None =>
      if is_aggregate_name name then eval_aggregate name args star distinct filter names rows else ev names (first_row rows) e
  | EBinary op l r => l ← eval_aggregate_expr names rows l; r ← eval_aggregate_expr names rows r; eval_binary to_lowercase op l r
  | EUnary op e => v ← eval_aggregate_expr names rows e; eval_unary op v
  | _ => ev names (first_row rows) e
  end.
End evaluated.

(** * Grouping *)

Section null_out.
Context {Q : Type} (q_eqb : Q -> Q -> bool).

(** [slice::contains] for expressions *)
Definition expr_in (e : Expr Q) (l : list (Expr Q)) : bool := existsb (fun x => expr_eqb q_eqb x e) l.

(** [null_out_inactive] *)
Fixpoint null_out (inactive : list (Expr Q)) (e : Expr Q) : Expr Q :=
  if expr_in e inactive then ENull else
  match e with
  | EUnary op e => EUnary op (null_out inactive e)
  | EBinary op l r => EBinary op (null_out inactive l) (null_out inactive r)
  | ECast e target => ECast (null_out inactive e) target
  | ECase operand whens else_expr =>
      ECase (option_map (null_out inactive) operand)
        (map (fun w => match w with (c, r) => (null_out inactive c, null_out inactive r) end) whens)
        (option_map (null_out inactive) else_expr)
  | e => e
  end.
Definition null_out_inactive (e : Expr Q) (inactive : list (Expr Q)) : Expr Q :=
  match inactive with [] => e | _ => null_out inactive e end.
End null_out.

(** [groups] with a row added under its key, keys in first-seen order *)
Fixpoint add_to_group {A} (key : list Value) (x : A) (groups : list (list Value * list A)) : list (list Value * list A) :=
  match groups with
  | [] => [(key, [x])]
  | (k, g) :: groups => if row_eqb k key then (k, g ++ [x]) :: groups else (k, g) :: add_to_group key x groups
  end.
(** partitioning by key *)
Fixpoint group_rows {A} (key : A -> res str (list Value)) (groups : list (list Value * list A)) (l : list A) : res str (list (list Value * list A)) :=
  match l with
  | [] => mret groups
  | x :: l => k ← key x; group_rows key (add_to_group k x groups) l
  end.

Section grouped.
Context (to_lowercase : str -> str) (call : str -> list Value -> res str Value) {X : Type} (q_eqb : Select X -> Select X -> bool) `{StableSort}.
Abbreviation E := (Expr (Select X)).
Abbreviation ev := (eval_expr to_lowercase call (Q := Select X)).
Abbreviation aggregate := (eval_aggregate_expr to_lowercase call (Q := Select X)).

(** [eval_count] *)
Definition eval_count (e : option E) (names : list str) : res str (option Z) :=
  match e with
  | None => mret None
  | Some e =>
      v ← ev names [] e;
      match v with
      | Int i => if 0 <=? i then mret (Some i) else fail (lit "LIMIT/OFFSET must not be negative")
      | Null => mret None
      | _ => fail (lit "LIMIT/OFFSET must be an integer")
      end
  end.

Definition select_tag (n : Z) : str := lit "SELECT " ++ i64_display n.

(** the last steps of every query: OFFSET, LIMIT and the command tag *)
Definition finish_rows {A} (out : A -> list Value) (sel_offset sel_limit : option E) (names : list str) (fields : list FieldDescription) (rows : list A) : res str ExecOutcome :=
  offset ← eval_count sel_offset names;
  limit ← eval_count sel_limit names;
  let rows := out <$> slice_rows offset limit rows in
  mret (Wire.Rows fields rows (select_tag (zlen rows))).

(** the value of an ORDER BY item: a position, an output column or an expression *)
Definition order_value (item : E) (output : list Value) (fields : list FieldDescription) (other : res str Value) : res str Value :=
  i ← Val (positional_index item (length output)) : res str (option nat);
  match i with
  | Some i => lift (expect (output !! i))
  | None => match output_column_index item fields with Some i => lift (expect (output !! i)) | None => other end
  end.

Definition group_key (set : list E) (names : list str) (row : list Value) : res str (list Value) := try_map (ev names row) set.

(** the groups of a grouping set *)
Definition groups_of (set : list E) (names : list str) (rows : list (list Value)) : res str (list (list (list Value))) :=
  match set with
  | [] => mret [rows]
  | _ => gs ← group_rows (group_key set names) [] rows; mret (gs.*2)
  end.

(** the output row and sort key of one group; [None] when HAVING rejects it *)
Definition group_output (sel : Select X) (inactive : list E) (names : list str) (fields : list FieldDescription) (group : list (list Value)) : res str (option (list Value * list Value)) :=
  let active e := null_out_inactive q_eqb e inactive in
  keep ← match s_having sel with Some h => v ← aggregate names group (active h); mret (is_true v) | None => mret true end;
  if negb keep then mret None else
  out ← try_map (fun e => aggregate names group (active e)) (flat_map (fun item => match item with SelectExpr e _ => [e] | Wildcard => [] end) (s_projection sel));
  key ← try_map (fun ob => order_value (o_expr ob) out fields (aggregate names group (active (o_expr ob)))) (s_order_by sel);
  mret (Some (key, out)).

(** [grouped_set_rows] *)
Definition grouped_set_rows (sel : Select X) (set all_group_exprs : list E) (names : list str) (fields : list FieldDescription) (rows : list (list Value)) : res str (list (list Value * list Value)) :=
  let inactive := List.filter (fun g => negb (expr_in q_eqb g set)) all_group_exprs in
  groups ← groups_of set names rows;
  outs ← try_map (group_output sel inactive names fields) groups;
  mret (flat_map option_list outs).

(** the output fields of a projection; [*] is refused *)
Fixpoint grouped_fields (names : list str) (types : list DataType) (items : list (SelectItem E)) : res str (list FieldDescription) :=
  match items with
  | [] => mret []
  | Wildcard :: _ => fail (lit "cannot use * with GROUP BY or aggregate functions")
  | SelectExpr e alias :: items =>
      dt ← lift (infer_expr_type names types e);
      fs ← grouped_fields names types items;
      mret (mk_field (default (default_column_name e) alias) dt :: fs)
  end.

(** the distinct grouping expressions of all sets *)
Definition union_exprs (sets : list (list E)) : list E :=
  foldl (fun acc g => if expr_in q_eqb g acc then acc else acc ++ [g]) [] (concat sets).

(** [grouped_select] *)
Definition grouped_select (sel : Select X) (names : list str) (types : list DataType) (rows : list (list Value)) : res str ExecOutcome :=
  fields ← grouped_fields names types (s_projection sel);
  let sets := match s_grouping_sets sel with [] => [s_group_by sel] | sets => sets end in
  let all_group_exprs := union_exprs sets in
  keyed ← try_map (fun set => grouped_set_rows sel set all_group_exprs names fields rows) sets;
  let keyed := concat keyed in
  let keyed := if s_distinct sel then keep_first snd [] keyed else keyed in
  keyed ← match s_order_by sel with
          | [] => mret keyed
          | order_by => lift (sort_by (fun a b => compare_order_keys (fst a) (fst b) order_by) keyed)
          end;
  finish_rows snd (s_offset sel) (s_limit sel) names fields keyed.
End grouped.

(** * GROUP BY partitions the rows *)

Lemma filter_reject {A} (p : A -> bool) l : (forall x, x ∈ l -> p x = false) -> List.filter p l = [].
Proof. intros H. induction l as [|x l IH]; [done|]. cbn. rewrite H by left. apply IH. intros y Hy. apply H. by right. Qed.

Section partition.
Context {A : Type}.
Implicit Types (gs : list (list Value * list A)) (kxs : list (list Value * A)).

(** the values paired with the key [k], in order *)
Definition with_key (k : list Value) kxs : list A := (List.filter (fun p => row_eqb k (fst p)) kxs).*2.

(** [gs] groups the keyed values [kxs] *)
Record groups_rep gs kxs : Prop := {
  gr_sound : Forall sound_row (gs.*1);
  gr_unique : rows_unique (gs.*1);
  gr_all : forall p, p ∈ kxs -> holds (fst p) (gs.*1) = true;
  gr_members : forall k g, (k, g) ∈ gs -> g = with_key k kxs /\ g <> []
}.

Lemma unique_cons k l : rows_unique (k :: l) <-> (forall s, s ∈ l -> row_eqb k s = false) /\ rows_unique l.
Proof.
  split.
  - intros U. split; [|intros i j r s L; apply (U (S i) (S j)); lia]. intros s [j E]%list_elem_of_lookup_1. by apply (U 0%nat (S j)); [lia|..].
  - intros [H U] [|i] [|j] r s L E1 E2; [lia| |lia|by apply (U i j); [lia|..]]. injection E1 as <-. apply H. by eapply list_elem_of_lookup_2.
Qed.

Lemma add_to_group_keys key (x : A) gs : (add_to_group key x gs).*1 = if holds key (gs.*1) then gs.*1 else gs.*1 ++ [key].
Proof.
  induction gs as [|[k g] gs IH]; [done|]. cbn. destruct (row_eqb k key); [done|]. cbn. rewrite IH. unfold holds. by destruct (existsb _ _).
Qed.
Lemma add_to_group_members key (x : A) gs k g' : sound_row key -> Forall sound_row (gs.*1) -> rows_unique (gs.*1) -> (k, g') ∈ add_to_group key x gs ->
  (exists g, (k, g) ∈ gs /\ g' = if row_eqb k key then g ++ [x] else g) \/ (k = key /\ g' = [x] /\ holds key (gs.*1) = false).
Proof.
  intros Hk. induction gs as [|[k0 g0] gs IH]; cbn [add_to_group]; intros S U.
  { intros [= -> ->]%list_elem_of_singleton. by right. }
  cbn in S, U. inversion S as [|? ? S0 S1]; subst. apply unique_cons in U as [U0 U1]. cbn. destruct (row_eqb k0 key) eqn:E.
  - intros [[= -> ->]|H]%elem_of_cons; [left; exists g0; rewrite E; split; [left|done]|].
    left. exists g'. split; [by right|]. destruct (row_eqb k key) eqn:E'; [|done]. exfalso.
    assert (k ∈ gs.*1) as Kin by (apply list_elem_of_fmap; by exists (k, g')). rewrite Forall_forall in S1. specialize (S1 k Kin).
    specialize (U0 k Kin). rewrite (row_eqb_trans k0 key k) in U0; [done..|]. by apply row_eqb_sym.
  - intros [[= -> ->]|H]%elem_of_cons; [left; exists g0; rewrite E; split; [left|done]|].
    destruct (IH S1 U1 H) as [(g & Hg & ->)|(-> & -> & Hn)]; [left; exists g; split; [by right|done]|by right].
Qed.

Lemma add_to_group_rep key (x : A) gs kxs : sound_row key -> Forall (fun p => sound_row (fst p)) kxs -> groups_rep gs kxs ->
  groups_rep (add_to_group key x gs) (kxs ++ [(key, x)]).
Proof.
  intros Hk Hs [So Un Al Me]. split.
  - rewrite add_to_group_keys. destruct (holds _ _); [done|]. by apply Forall_app_2; [|constructor].
  - rewrite add_to_group_keys. destruct (holds _ _) eqn:E; [done|]. by apply unique_snoc.
  - intros p [Hp| ->%list_elem_of_singleton]%elem_of_app; rewrite add_to_group_keys; destruct (holds key _) eqn:E; rewrite ?holds_app; cbn [fst].
    + by apply Al.
    + by rewrite Al.
    + done.
    + rewrite (holds_elem key [key]) by (done || left). by rewrite orb_true_r.
  - intros k g' Hg. unfold with_key. rewrite List.filter_app, fmap_app. cbn. fold (with_key k kxs).
    destruct (add_to_group_members key x gs k g' Hk So Un Hg) as [(g & Hin & ->)|(-> & -> & Hn)].
    + destruct (Me k g Hin) as [-> Ne]. destruct (row_eqb k key); cbn; [|by rewrite app_nil_r]. split; [done|]. by destruct (with_key k kxs).
    + rewrite row_eqb_refl by done. cbn. split; [|done]. unfold with_key. rewrite filter_reject; [done|].
      intros p Hp. destruct (row_eqb key (fst p)) eqn:E; [|done]. rewrite <- Hn. symmetry. rewrite Forall_forall in Hs.
      rewrite (holds_eq key (fst p)); [by apply Al|done|by apply Hs|done..].
Qed.

(** [group_rows] groups every value under its key, or fails where a key does. *)
Lemma group_rows_rep (key : A -> res str (list Value)) l ks : try_map key l = Val (Ok ks) -> Forall sound_row ks ->
  forall gs kxs, Forall (fun p => sound_row (fst p)) kxs -> groups_rep gs kxs ->
  exists gs', group_rows key gs l = Val (Ok gs') /\ groups_rep gs' (kxs ++ zip ks l).
Proof.
  revert ks. induction l as [|x l IH]; intros ks Hm Hs gs kxs Hk R; cbn in Hm |- *.
  - injection Hm as <-. exists gs. by rewrite app_nil_r.
  - destruct (key x) as [[k|]|]; try done. cbn in Hm |- *. destruct (try_map key l) as [[ks'|]|]; try done. cbn in Hm. injection Hm as <-.
    inversion Hs; subst. destruct (IH ks' eq_refl ltac:(done) (add_to_group k x gs) (kxs ++ [(k, x)])) as (gs' & -> & R').
    + by apply Forall_app_2; [|constructor].
    + by apply add_to_group_rep.
    + exists gs'. by rewrite <- app_assoc in R'.
Qed.

Lemma add_to_group_perm key (x : A) gs : concat ((add_to_group key x gs).*2) ≡ₚ x :: concat (gs.*2).
Proof.
  induction gs as [|[k g] gs IH]; [done|]. cbn. destruct (row_eqb k key); cbn.
  - rewrite <- app_assoc. cbn. by rewrite <- Permutation_middle.
  - rewrite IH. by rewrite <- Permutation_middle.
Qed.
Lemma group_rows_perm (key : A -> res str (list Value)) l : forall gs gs', group_rows key gs l = Val (Ok gs') -> concat (gs'.*2) ≡ₚ concat (gs.*2) ++ l.
Proof.
  induction l as [|x l IH]; intros gs gs'; cbn; [intros [= <-]; by rewrite app_nil_r|].
  destruct (key x) as [[k|]|]; try done. cbn. intros H%IH. rewrite H, add_to_group_perm. cbn. by rewrite <- Permutation_middle.
Qed.
Lemma group_rows_keys (key : A -> res str (list Value)) l ks : try_map key l = Val (Ok ks) -> forall gs gs', group_rows key gs l = Val (Ok gs') ->
  gs'.*1 = gs.*1 ++ keep_first (fun k => k) (gs.*1) ks.
Proof.
  revert ks. induction l as [|x l IH]; intros ks Hm gs gs'; cbn in Hm |- *; [injection Hm as <-; intros [= <-]; by rewrite app_nil_r|].
  destruct (key x) as [[k|]|]; try done. cbn in Hm |- *. destruct (try_map key l) as [[ks'|]|]; try done. cbn in Hm. injection Hm as <-.
  intros H. rewrite (IH ks' eq_refl _ _ H), add_to_group_keys. cbn. fold (holds k (gs.*1)). destruct (holds k (gs.*1)); [done|]. by rewrite <- app_assoc.
Qed.
End partition.

Lemma members_fmap {A} (f : list Value -> list A) (gs : list (list Value * list A)) : (forall k g, (k, g) ∈ gs -> g = f k) -> gs.*2 = f <$> gs.*1.
Proof.
  induction gs as [|[k g] gs IH]; intros H; [done|]. cbn. rewrite (H k g) by left. f_equal. apply IH. intros k' g' Hg. apply H. by right.
Qed.

Lemma group_rows_partition {A} (key : A -> res str (list Value)) l ks : try_map key l = Val (Ok ks) -> Forall sound_row ks ->
  exists gs, group_rows key [] l = Val (Ok gs) /\ gs.*2 = (fun k => with_key k (zip ks l)) <$> distinct_rows ks
  /\ concat (gs.*2) ≡ₚ l /\ Forall (fun g => g <> []) (gs.*2).
Proof.
  intros Hk Hs. destruct (group_rows_rep _ l ks Hk Hs [] []) as (gs & Hg & R); [done| |].
  { split; [done| |by intros p ?%elem_of_nil|by intros k g ?%elem_of_nil]. intros i j r s _ E. done. }
  cbn in R. exists gs. split_and!; [done| | |].
  - rewrite (members_fmap (fun k => with_key k (zip ks l))); [|intros k g H; by apply (gr_members _ _ R)].
    f_equal. by rewrite (group_rows_keys _ _ ks Hk [] gs Hg).
  - by rewrite (group_rows_perm _ _ [] gs Hg).
  - apply Forall_fmap, Forall_forall. intros [k g] H. by apply (gr_members _ _ R k g).
Qed.

(** C15: GROUP BY partitions the rows.  When every key evaluates to values other than
    NaN, the groups are, for
    each distinct key in the order it is first seen, the rows with that key in their
    order; none is empty and together they are the rows. *)
Theorem group_by_partitions lower call {X} (set : list (Expr (Select X))) names rows ks : set <> [] ->
  try_map (group_key lower call set names) rows = Val (Ok ks) -> Forall sound_row ks ->
  exists groups, groups_of lower call set names rows = Val (Ok groups)
  /\ groups = (fun k => with_key k (zip ks rows)) <$> distinct_rows ks
  /\ concat groups ≡ₚ rows /\ Forall (fun g => g <> []) groups.
Proof.
  intros Hne Hk Hs. destruct (group_rows_partition _ rows ks Hk Hs) as (gs & Hg & E & P & F). exists (gs.*2).
  split_and!; [|done..]. unfold groups_of. destruct set; [done|]. by rewrite Hg.
Qed.

Definition demo_keys : list (Expr (Select unit)) := [EColumn (lit "a")].
Definition demo_rows : list (list Value) := [ints [1; 10]; ints [2; 20]; ints [1; 30]].
Lemma group_by_partitions_witness :
  exists groups, groups_of (fun s => s) no_call demo_keys [lit "a"; lit "b"] demo_rows = Val (Ok groups) /\ concat groups ≡ₚ demo_rows.
Proof.
  destruct (group_by_partitions (fun s => s) no_call demo_keys [lit "a"; lit "b"] demo_rows [ints [1]; ints [2]; ints [1]]) as (gs & H & _ & P & _).
  - done.
  - vm_compute. reflexivity.
  - repeat constructor.
  - by exists gs.
Defined.

(** * The aggregates of a column *)

Definition extremum_step (want : comparison) (cur v : Value) : Value := if bool_decide (default Eq (compare_values v cur) = want) then v else cur.
Lemma extremum_foldl want vals : forall cur,
  foldl (fun best v => match best with None => Some v | Some cur => Some (extremum_step want cur v) end) (Some cur) vals = Some (foldl (extremum_step want) cur vals).
Proof. induction vals as [|v vals IH]; intros cur; [done|]. cbn. apply IH. Qed.

Section extremum.
Context (c : Kind) (asc : bool).
Abbreviation dir := (fun a b => if asc then cmp_value a b else CompOpp (cmp_value a b)).

Lemma extremum_spec vals : forall cur, kind_ok c cur -> Forall (kind_ok c) vals ->
  let m := foldl (extremum_step (if asc then Lt else Gt)) cur vals in
  m ∈ cur :: vals /\ kind_ok c m /\ forall v, v ∈ cur :: vals -> dir m v <> Gt.
Proof.
  pose proof (direction_KeyOrder asc cmp_value (kind_ok c) _) as KO.
  assert (forall v cur, kind_ok c v -> kind_ok c cur -> bool_decide (default Eq (compare_values v cur) = if asc then Lt else Gt) = bool_decide (dir v cur = Lt)) as Dir.
  { intros v cur Hv Hc. rewrite (compare_kind c) by done. apply bool_decide_ext. destruct asc; [done|]. by destruct (cmp_value v cur). }
  induction vals as [|v vals IH]; intros cur Hc Hv; cbn.
  - split_and!; [left|done|]. intros w ->%list_elem_of_singleton. by rewrite (key_refl dir (KeyOrder := KO)).
  - inversion Hv as [|? ? Hv0 Hv']; subst. set (cur' := extremum_step _ cur v).
    assert (cur' ∈ [cur; v] /\ kind_ok c cur' /\ dir cur' cur <> Gt /\ dir cur' v <> Gt) as (In' & K' & B1 & B2).
    { unfold cur', extremum_step. rewrite Dir by done. case_bool_decide as D.
      - split_and!; [right; left|done|by rewrite D|by rewrite (key_refl dir (KeyOrder := KO))].
      - split_and!; [left|done|by rewrite (key_refl dir (KeyOrder := KO))|]. rewrite (key_antisym dir (KeyOrder := KO) v cur) by done. by destruct (dir v cur). }
    destruct (IH cur' K' Hv') as (Mi & Km & Bm). split_and!; [|done|].
    + apply elem_of_cons in Mi as [->|Mi]; [|by do 2 right]. apply elem_of_cons in In' as [->|Hv1]; [left|]. apply list_elem_of_singleton in Hv1 as ->. right; left.
    + assert (forall w, kind_ok c w -> dir cur' w <> Gt -> dir (foldl (extremum_step (if asc then Lt else Gt)) cur' vals) w <> Gt) as Tr.
      { intros w Kw L. apply (key_trans dir (KeyOrder := KO) _ cur' w); [done..| |done]. apply Bm. left. }
      intros w [->|[->|Hw]%elem_of_cons]%elem_of_cons; [by apply Tr..|]. apply Bm. by right.
Qed.
End extremum.

Lemma to_signed_wraps v : exists k, to_signed 64 v = v + k * 2 ^ 64.
Proof. unfold to_signed. change (2 ^ (64 - 1)) with (2 ^ 63). exists (- ((v + 2 ^ 63) / 2 ^ 64)). rewrite Z.mod_eq by lia. lia. Qed.
Lemma to_signed_shift v k : to_signed 64 (v + k * 2 ^ 64) = to_signed 64 v.
Proof. unfold to_signed. change (2 ^ (64 - 1)) with (2 ^ 63). replace (v + k * 2 ^ 64 + 2 ^ 63) with (v + 2 ^ 63 + k * 2 ^ 64) by lia. by rewrite Z.mod_add. Qed.
Lemma to_signed_id v : in_i 64 v -> to_signed 64 v = v.
Proof. unfold in_i, to_signed. change (64 - 1) with 63. intros. rewrite Z.mod_small; lia. Qed.
Lemma mixed_sum_ints zs : forall acc f, in_i 64 acc ->
  mixed_sum acc f false (Int <$> zs) = Val (Ok (Int (to_signed 64 (acc + foldr Z.add 0 zs)))).
Proof.
  induction zs as [|z zs IH]; intros acc f Ha; cbn [fmap list_fmap mixed_sum foldr].
  - by rewrite Z.add_0_r, to_signed_id.
  - unfold i64. cbn [lift mbind res_bind]. rewrite IH by (by apply to_signed_range). do 3 f_equal.
    destruct (to_signed_wraps (acc + z)) as [k ->]. rewrite <- (to_signed_shift (acc + (z + foldr Z.add 0 zs)) k). f_equal. lia.
Qed.

Section column.
Context (lower : str -> str) (call : str -> list Value -> res str Value) {Q : Type} `{StableSort}.
Context (e : Expr Q) (names : list str) (rows : list (list Value)) (vs : list Value).
Context (Hvs : try_map (fun row => eval_expr lower call names row e) rows = Val (Ok vs)).
Abbreviation nn := (List.filter (fun v => negb (is_null v)) vs).
Abbreviation agg f := (eval_aggregate lower call f [e] false false None names rows).

Lemma non_null_values : non_null lower call e names rows = Val (Ok nn).
Proof. unfold non_null. by rewrite Hvs. Qed.

Lemma count_column : agg (lit "COUNT") = Val (Ok (Int (zlen nn))).
Proof. unfold eval_aggregate. cbn -[non_null zlen]. rewrite non_null_values. done. Qed.
Lemma extremum_column (asc : bool) : agg (lit (if asc then "min" else "max")%string) = Val (Ok (agg_extremum (if asc then Lt else Gt) nn)).
Proof. unfold eval_aggregate. destruct asc; cbn -[non_null agg_extremum]; rewrite non_null_values; done. Qed.
Lemma sum_column : agg (lit "sum") = agg_sum nn.
Proof. unfold eval_aggregate. cbn -[non_null agg_sum]. rewrite non_null_values. done. Qed.
End column.

Lemma no_num zs : exact (Int <$> zs) = false.
Proof. unfold exact. induction zs as [|z zs IH]; [done|]. exact IH. Qed.

(** C16: the aggregates of a column.  Over rows on all of which the argument evaluates
    to a value: COUNT is the number of values that are not NULL.  MIN and MAX are
    NULL when there are none; and when the values are all of one kind (all integers,
    all texts, ..., the floats without NaN), they are one of them that is not above
    (not below) any other.  SUM over a nonempty column of integers is the
    mathematical sum wrapped around modulo 2^64 into the signed 64-bit range, so
    exactly the sum when that fits. *)
Theorem aggregates_exact lower call `{StableSort} {Q} (e : Expr Q) names rows vs :
  try_map (fun row => eval_expr lower call names row e) rows = Val (Ok vs) ->
  let nn := List.filter (fun v => negb (is_null v)) vs in
  let agg f := eval_aggregate lower call (lit f) [e] false false None names rows in
  agg "COUNT"%string = Val (Ok (Int (zlen nn)))
  /\ (forall c (asc : bool), Forall (kind_ok c) nn -> exists m, agg (if asc then "min" else "max")%string = Val (Ok m)
        /\ (nn = [] -> m = Null)
        /\ (nn <> [] -> m ∈ nn /\ forall v, v ∈ nn -> (if asc then cmp_value m v else cmp_value v m) <> Gt))
  /\ (forall zs, nn = Int <$> zs -> zs <> [] ->
        agg "sum"%string = Val (Ok (Int (to_signed 64 (foldr Z.add 0 zs))))
        /\ (in_i 64 (foldr Z.add 0 zs) -> agg "sum"%string = Val (Ok (Int (foldr Z.add 0 zs))))).
Proof.
  intros Hvs nn agg. split_and!.
  - by apply count_column.
  - intros c asc K. exists (agg_extremum (if asc then Lt else Gt) nn). split; [by apply extremum_column|]. split; [by intros ->|]. intros Hne.
    destruct nn as [|v0 ws] eqn:En; [done|]. inversion K as [|? ? K0 Kw]; subst. unfold agg_extremum. cbn [foldl].
    change (foldl _ (Some v0) ws) with (foldl (fun best v => match best with None => Some v | Some cur => Some (extremum_step (if asc then Lt else Gt) cur v) end) (Some v0) ws).
    rewrite extremum_foldl. cbn. destruct (extremum_spec c asc ws v0 K0 Kw) as (Mi & Km & Bd). split; [done|]. intros v Hv.
    specialize (Bd v Hv). destruct asc; [done|]. rewrite (key_antisym cmp_value (ok := kind_ok c) _ v); [done..|]. rewrite Forall_forall in K. by apply K.
  - intros zs Hz Hne. unfold agg. rewrite (sum_column lower call e names rows vs Hvs). fold nn. rewrite Hz. unfold agg_sum. rewrite no_num.
    pose proof (mixed_sum_ints zs 0 0 ltac:(unfold in_i; lia)) as S. rewrite Z.add_0_l in S. destruct zs as [|z zs]; [done|].
    split; [exact S|]. intros Hr. change (mixed_sum 0 0 false (Int <$> z :: zs) = Val (Ok (Int (foldr Z.add 0 (z :: zs))))). by rewrite S, to_signed_id.
Qed.

Lemma aggregates_exact_witness :
  eval_aggregate (fun s => s) no_call (lit "sum") [EColumn (lit "b") : Expr unit] false false None [lit "a"; lit "b"] demo_rows = Val (Ok (Int 60))
  /\ eval_aggregate (fun s => s) no_call (lit "sum") [EColumn (lit "a") : Expr unit] false false None [lit "a"] [ints [2 ^ 62]; ints [2 ^ 62]] = Val (Ok (Int (- 2 ^ 63))).
Proof.
  split.
  - destruct (aggregates_exact (fun s => s) no_call (EColumn (lit "b") : Expr unit) [lit "a"; lit "b"] demo_rows (ints [10; 20; 30])) as (_ & _ & S); [vm_compute; reflexivity|].
    apply (proj2 (S [10; 20; 30] eq_refl ltac:(done))). unfold in_i. cbn. lia.
  - destruct (aggregates_exact (fun s => s) no_call (EColumn (lit "a") : Expr unit) [lit "a"] [ints [2 ^ 62]; ints [2 ^ 62]] (ints [2 ^ 62; 2 ^ 62])) as (_ & _ & S); [vm_compute; reflexivity|].
    exact (proj1 (S [2 ^ 62; 2 ^ 62] eq_refl ltac:(done))).
Defined.
