(* ===== verification/Window.v ===== *)
(** Window functions of crates/engine/src/executor.rs: partitions, their order, the
    default frame, and the value of a window function for every row. *)

From Stdlib Require Import Sorted.
From S2P Require Import Prelude Utf8 Numeric Types Float BTree Index Wire Hba FloatOps Datetime Json Containers Pattern LockStmt Ast Eval Rowset Aggregate.

#[local] Open Scope Z_scope.

(** * Walking an expression *)

Section walk.
Context {Q : Type}.

(** [visit_child_exprs] with a predicate: whether some node satisfies [p]; the
    subqueries and the window specification are not visited *)
Fixpoint expr_any (p : Expr Q -> bool) (e : Expr Q) : bool :=
  let any := expr_any p in
  p e ||
  match e with
  | EUnary _ e | EIsNull e _ | ECast e _ => any e
  | EBinary _ l r | EIsDistinct l r _ | ELike l r _ _ => any l || any r
  | EQuantified l _ _ es | EInList l es _ => any l || existsb any es
  | ERow es | EArray es => existsb any es
  | EBetween e lo hi _ => any e || any lo || any hi
  | ECase o ws el =>
      match o with Some o => any o | None => false end
      || existsb (fun w => match w with (c, r) => any c || any r end) ws
      || match el with Some e => any e | None => false end
  | EFunction _ args _ _ filter _ => existsb any args || match filter with Some f => any f | None => false end
  | _ => false
  end.

(** [map_child_exprs]: the nodes [f] replaces, from the root *)
Fixpoint expr_map (f : Expr Q -> option (Expr Q)) (e : Expr Q) : Expr Q :=
  let go := expr_map f in
  match f e with
  | Some e' => e'
  | None =>
      match e with
      | EUnary op e => EUnary op (go e)
      | EIsNull e n => EIsNull (go e) n
      | ECast e t => ECast (go e) t
      | EBinary op l r => EBinary op (go l) (go r)
      | EIsDistinct l r n => EIsDistinct (go l) (go r) n
      | ELike e p n ci => ELike (go e) (go p) n ci
      | EQuantified l op k es => EQuantified (go l) op k (map go es)
      | EInList l es n => EInList (go l) (map go es) n
      | ERow es => ERow (map go es)
      | EArray es => EArray (map go es)
      | EBetween e lo hi n => EBetween (go e) (go lo) (go hi) n
      | ECase o ws el => ECase (option_map go o) (map (fun w => match w with (c, r) => (go c, go r) end) ws) (option_map go el)
      | EFunction name args star distinct filter over => EFunction name (map go args) star distinct (option_map go filter) over
      | e => e
      end
  end.

Definition is_window (e : Expr Q) : bool := match e with EFunction _ _ _ _ _ (Some _) => true | _ => false end.

(** [contains_window_function] *)
Definition contains_window_function : Expr Q -> bool := expr_any is_window.

(** the window functions of an expression, outermost first *)
Fixpoint window_nodes (e : Expr Q) : list (Expr Q) :=
  match e with
  | EFunction name args _ _ filter over =>
      match over with
      | Some _ => [e]
      | None => flat_map window_nodes args ++ match filter with Some f => window_nodes f | None => [] end
      end
  | EUnary _ e | EIsNull e _ | ECast e _ => window_nodes e
  | EBinary _ l r | EIsDistinct l r _ | ELike l r _ _ => window_nodes l ++ window_nodes r
  | EQuantified l _ _ es | EInList l es _ => window_nodes l ++ flat_map window_nodes es
  | ERow es | EArray es => flat_map window_nodes es
  | EBetween e lo hi _ => window_nodes e ++ window_nodes lo ++ window_nodes hi
  | ECase o ws el =>
      match o with Some o => window_nodes o | None => [] end
      ++ flat_map (fun w => match w with (c, r) => window_nodes c ++ window_nodes r end) ws
      ++ match el with Some e => window_nodes e | None => [] end
  | _ => []
  end.

Context (q_eqb : Q -> Q -> bool).

(** [collect_window_fns] *)
Definition collect_window_fns (e : Expr Q) (out : list (Expr Q)) : list (Expr Q) :=
  foldl (fun out w => if expr_in q_eqb w out then out else out ++ [w]) out (window_nodes e).

Fixpoint expr_position (e : Expr Q) (i : nat) (l : list (Expr Q)) : option nat :=
  match l with [] => None | w :: l => if expr_eqb q_eqb w e then Some i else expr_position e (S i) l end.

(** [value_to_literal] *)
Definition value_to_literal (v : Value) : Expr Q :=
  match v with
  | Null => ENull
  | Int i => EInt i
  | Float f => EFloat f
  | Num n => ECast (EStr (to_canonical_string n)) TNumeric
  | Text s => EStr s
  | Bool b => EBool b
  end.

(** [substitute_window_fns] *)
Definition substitute_window_fns (e : Expr Q) (wfns : list (Expr Q)) (wvals : list (list Value)) (row_idx : nat) : Expr Q :=
  expr_map (fun e =>
    if is_window e then
      match expr_position e 0 wfns with
      | Some k => Some (value_to_literal (default Null (vs ← wvals !! k; vs !! row_idx)))
      | None => None
      end
    else None) e.
End walk.

(** * Window values *)

Section window.
Context (to_lowercase : str -> str) (call : str -> list Value -> res str Value) {Q : Type} `{StableSort}.
Abbreviation E := (Expr Q).
Abbreviation ev := (eval_expr to_lowercase call (Q := Q)).

Section one.
Context (names : list str) (rows : list (list Value)).

Definition ev_at (idx : nat) (e : E) : res str Value := row ← lift (expect (rows !! idx)); ev names row e.
(** the partition or order key of a row *)
Definition key_at (es : list E) (idx : nat) : res str (list Value) := try_map (ev_at idx) es.

(** an optional integer argument, errors ignored *)
Definition int_arg (a : option E) (idx : nat) (dflt : Z) (f : Z -> Z) : run Z :=
  match a with
  | None => Val dflt
  | Some a => match ev_at idx a with Val (Ok (Int i)) => Val (f i) | Val _ => Val dflt | Panic => Panic end
  end.

Section frame.
Context (order : list E) (ordered : list nat).
Abbreviation order_key := (key_at order).

Definition at_pos (p : nat) : run nat := expect (ordered !! p).

(** the position of the first peer of the row at [pos] *)
Fixpoint first_peer (cur : list Value) (pos : nat) : res str nat :=
  match pos with
  | 0%nat => mret 0%nat
  | S p => i ← lift (at_pos p); k ← order_key i; if row_eqb k cur then first_peer cur p else mret pos
  end.
(** the position of the last peer, at most [todo] further *)
Fixpoint last_peer (cur : list Value) (pos todo : nat) : res str nat :=
  match todo with
  | 0%nat => mret pos
  | S todo => i ← lift (at_pos (S pos)); k ← order_key i; if row_eqb k cur then last_peer cur (S pos) todo else mret pos
  end.
(** the distinct keys of consecutive rows *)
Fixpoint count_changes (prev : option (list Value)) (l : list nat) : res str Z :=
  match l with
  | [] => mret 0
  | o :: l =>
      k ← order_key o;
      let same := match prev with Some p => row_eqb p k | None => false end in
      n ← count_changes (if same then prev else Some k) l;
      mret (if same then n else 1 + n)
  end.

(** [frame_end_index] *)
Definition frame_end_index (pos : nat) : res str nat :=
  match order with
  | [] => mret (length ordered - 1)%nat
  | _ => i ← lift (at_pos pos); cur ← order_key i; last_peer cur pos (length ordered - 1 - pos)
  end.
End frame.

(** the bucket of [ntile]; a row is placed by bucket [pos + 1] at the latest *)
Fixpoint ntile_loop (pos base rem b acc : Z) (todo : nat) : Z :=
  match todo with
  | 0%nat => 1
  | S todo =>
      let acc := acc + base + (if b <? rem then 1 else 0) in
      if pos <? acc then b + 1 else ntile_loop pos base rem (b + 1) acc todo
  end.
Definition ntile (pos plen buckets : Z) : Z := ntile_loop pos (plen / buckets) (plen mod buckets) 0 0 (S (Z.to_nat pos)).

(** the first argument on a row *)
Definition arg_value (args : list E) (idx : nat) : res str Value :=
  match args with a :: _ => ev_at idx a | [] => mret Null end.

(** the value of the window function [lname] for the row at [pos] of an ordered partition *)
Definition window_value (lname : str) (args : list E) (star distinct : bool) (order : list E) (ordered : list nat) (pos orig : nat) : res str Value :=
  let plen := zlen ordered in
  if is_one_of lname ["row_number"]%string then mret (Int (Z.of_nat pos + 1))
  else if is_one_of lname ["rank"]%string then
    cur ← key_at order orig; p ← first_peer order ordered cur pos; mret (Int (Z.of_nat p + 1))
  else if is_one_of lname ["dense_rank"]%string then
    n ← count_changes order None (take (S pos) ordered); mret (Int n)
  else if is_one_of lname ["ntile"]%string then
    buckets ← lift (int_arg (head args) orig 1 (Z.max 1)); mret (Int (ntile (Z.of_nat pos) plen buckets))
  else if is_one_of lname ["lag"; "lead"]%string then
    offset ← lift (int_arg (args !! 1%nat) orig 1 (fun i => i));
    target ← lift (i64 (if str_eqb lname (lit "lag") then Z.of_nat pos - offset else Z.of_nat pos + offset));
    if (0 <=? target) && (target <? plen) then src ← lift (expect (zget ordered target)); arg_value args src
    else match args !! 2%nat with Some a => ev_at orig a | None => mret Null end
  else if is_one_of lname ["first_value"]%string then
    match args with a :: _ => i ← lift (at_pos ordered 0); ev_at i a | [] => mret Null end
  else if is_one_of lname ["last_value"]%string then
    fe ← frame_end_index order ordered pos;
    match args with a :: _ => i ← lift (at_pos ordered fe); ev_at i a | [] => mret Null end
  else if is_one_of lname ["nth_value"]%string then
    nth ← lift (int_arg (args !! 1%nat) orig 1 (fun i => i));
    fe ← frame_end_index order ordered pos;
    target ← lift (i64 (nth - 1));
    if (1 <=? nth) && (target <=? Z.of_nat fe) then
      match args with a :: _ => i ← lift (expect (zget ordered target)); ev_at i a | [] => mret Null end
    else mret Null
  else if is_aggregate_name lname then
    fe ← frame_end_index order ordered pos;
    eval_aggregate to_lowercase call lname args star distinct None names (flat_map (fun i => option_list (rows !! i)) (take (S fe) ordered))
  else fail (lit "window function " ++ lname ++ lit "() is not supported").

(** a partition in the order of the window *)
Definition order_partition (order_by : list (OrderByItem E)) (part : list nat) : res str (list nat) :=
  match order_by with
  | [] => mret part
  | _ =>
      keyed ← try_map (fun idx => k ← key_at (o_expr <$> order_by) idx; mret (idx, k)) part;
      sorted ← lift (sort_by (fun a b => compare_order_keys (snd a) (snd b) order_by) keyed);
      mret (sorted.*1)
  end.

(** the values of one partition, with the rows they belong to *)
Definition partition_values (lname : str) (args : list E) (star distinct : bool) (order_by : list (OrderByItem E)) (part : list nat) : res str (list (nat * Value)) :=
  ordered ← order_partition order_by part;
  vs ← try_map (fun '(pos, orig) => window_value lname args star distinct (o_expr <$> order_by) ordered pos orig) (zip (seq 0 (length ordered)) ordered);
  mret (zip ordered vs).

(** [compute_window_values] *)
Definition compute_window_values (wfn : E) : res str (list Value) :=
  match wfn with
  | EFunction name args star distinct _ (Some spec) =>
      let lname := to_ascii_lower <$> name in
      partitions ← group_rows (key_at (partition_by spec)) [] (seq 0 (length rows));
      pvs ← try_map (partition_values lname args star distinct (w_order_by spec)) (partitions.*2);
      mret (foldl (fun result iv => <[fst iv := snd iv]> result) (replicate (length rows) Null) (concat pvs))
  | _ => fail (lit "not a window function")
  end.
End one.
End window.

(** * Row numbers *)

Lemma try_map_lookup {A B} (f : A -> res str B) l ys : try_map f l = Val (Ok ys) ->
  length ys = length l /\ forall i x, l !! i = Some x -> exists y, ys !! i = Some y /\ f x = Val (Ok y).
Proof.
  revert ys. induction l as [|x l IH]; intros ys; cbn; [intros [= <-]; split; [done|]; by intros [] x|].
  destruct (f x) as [[y|]|] eqn:E; try done. cbn. destruct (try_map f l) as [[zs|]|] eqn:E'; try done. intros [= <-].
  destruct (IH zs eq_refl) as [L H]. split; [cbn; by rewrite L|]. intros [|i] z Hz; [injection Hz as <-; by exists y|by apply H].
Qed.
Lemma try_map_ok {A B} (f : A -> res str B) (g : A -> B) l : (forall x, x ∈ l -> f x = Val (Ok (g x))) -> try_map f l = Val (Ok (g <$> l)).
Proof.
  induction l as [|x l IH]; intros H; [done|]. cbn. rewrite H by left. cbn. rewrite IH; [done|]. intros y Hy. apply H. by right.
Qed.

Definition assign (result : list Value) (ivs : list (nat * Value)) : list Value := foldl (fun result iv => <[fst iv := snd iv]> result) result ivs.
Lemma assign_length ivs : forall result, length (assign result ivs) = length result.
Proof. induction ivs as [|[i v] ivs IH]; intros result; [done|]. cbn. rewrite (IH (<[i:=v]> result)). apply length_insert. Qed.
Lemma assign_other ivs i : forall result, i ∉ ivs.*1 -> assign result ivs !! i = result !! i.
Proof.
  induction ivs as [|[j v] ivs IH]; intros result Hi; [done|]. cbn in *. apply not_elem_of_cons in Hi as [Hij Hi].
  rewrite (IH (<[j:=v]> result)) by done. by apply list_lookup_insert_ne.
Qed.
Lemma assign_lookup ivs i v : forall result, NoDup (ivs.*1) -> Forall (fun j => (j < length result)%nat) (ivs.*1) -> (i, v) ∈ ivs -> assign result ivs !! i = Some v.
Proof.
  induction ivs as [|[j w] ivs IH]; intros result ND F; [by intros ?%elem_of_nil|]. cbn in *. inversion ND; inversion F; subst.
  intros [[= -> ->]|Hin]%elem_of_cons.
  - rewrite (assign_other ivs j (<[j:=w]> result)) by done. by apply list_lookup_insert_eq.
  - apply (IH (<[j:=w]> result)); [done| |done]. eapply Forall_impl; [done|]. intros k Hk. by rewrite length_insert.
Qed.

Section row_number.
Context (lower : str -> str) (call : str -> list Value -> res str Value) {Q : Type} `{StableSort} (names : list str) (rows : list (list Value)).
Abbreviation n := (length rows).
Abbreviation keys es := (try_map (key_at lower call names rows (Q := Q) es) (seq 0 n)).

Definition before {E} (os : list (OrderByItem E)) (oks : list (list Value)) (i j : nat) : Prop := at_keys (fun a b => compare_order_keys a b os) oks i j <> Gt.

Lemma order_partition_sorted (os : list (OrderByItem (Expr Q))) kinds part oks : keys (o_expr <$> os) = Val (Ok oks) -> Forall (keys_ok kinds os) oks ->
  Forall (fun i => (i < n)%nat) part ->
  exists ordered, order_partition lower call names rows os part = Val (Ok ordered) /\ ordered ≡ₚ part /\ StronglySorted (before os oks) ordered.
Proof.
  intros Hk Ho Hp. destruct (try_map_lookup _ _ _ Hk) as [Len At]. rewrite length_seq in Len.
  assert (forall i, (i < n)%nat -> exists k, oks !! i = Some k /\ key_at lower call names rows (o_expr <$> os) i = Val (Ok k) /\ keys_ok kinds os k) as Key.
  { intros i L. destruct (At i i ltac:(by rewrite lookup_seq_lt)) as (k & E & Ek). exists k. split_and!; [done..|]. rewrite Forall_lookup in Ho. by eapply Ho. }
  destruct os as [|o os'] eqn:Eos.
  { exists part. split_and!; [done..|]. clear. assert (forall i j, before ([] : list (OrderByItem (Expr Q))) oks i j) as B.
    { intros i j. unfold before, at_keys. by destruct (oks !! i), (oks !! j). }
    induction part; constructor; [done|]. apply Forall_forall. intros j _. apply B. }
  rewrite <- Eos in *. unfold order_partition. rewrite Eos. rewrite <- Eos.
  rewrite (try_map_ok _ (fun i => (i, default [] (oks !! i)))).
  2: { intros i Hi. rewrite Forall_forall in Hp. destruct (Key i (Hp i Hi)) as (k & E & Ek & _). rewrite Ek, E. done. }
  set (keyed := (fun i => (i, default [] (oks !! i))) <$> part).
  destruct (sort_stable _ (fun a b : nat * list Value => compare_order_keys (snd a) (snd b) os) (fun p => keys_ok kinds os (snd p) /\ oks !! fst p = Some (snd p)) keyed) as (sorted & Hs & P & S & _).
  { destruct (order_keys_KeyOrder kinds os) as [R Y T]. split.
    - intros [i k] [K _]. by apply R.
    - intros [i k] [j k'] [K _] [K' _]. by apply Y.
    - intros [i k] [j k'] [m k''] [K _] [K' _] [K'' _]. by apply T. }
  { apply Forall_fmap, Forall_forall. intros i Hi. rewrite Forall_forall in Hp. destruct (Key i (Hp i Hi)) as (k & E & _ & K). cbn. by rewrite E. }
  cbn. rewrite Hs. cbn. exists (sorted.*1). split_and!; [done| |].
  - rewrite P. unfold keyed. rewrite <- list_fmap_compose. by rewrite list_fmap_id.
  - apply StronglySorted_fmap. eapply (sorted_ext _ _ (fun p => oks !! fst p = Some (snd p))); [| |exact S].
    + intros [i k] [j k'] E E' L. unfold before, at_keys. cbn in *. by rewrite E, E'.
    + rewrite P. apply Forall_fmap, Forall_forall. intros i Hi. rewrite Forall_forall in Hp. destruct (Key i (Hp i Hi)) as (k & E & _). cbn. by rewrite E.
Qed.

Lemma row_number_values (args : list (Expr Q)) star distinct os ordered part : order_partition lower call names rows os part = Val (Ok ordered) ->
  partition_values lower call names rows (lit "row_number") args star distinct os part
  = Val (Ok (zip ordered ((fun pos => Int (Z.of_nat pos + 1)) <$> seq 0 (length ordered)))).
Proof.
  intros Ho. unfold partition_values. rewrite Ho. cbn [mbind res_bind].
  rewrite (try_map_ok _ (fun po : nat * nat => Int (Z.of_nat (fst po) + 1))) by (by intros [pos orig] _). cbn. do 3 f_equal.
  rewrite <- (fst_zip (seq 0 (length ordered)) ordered) at 2 by (by rewrite length_seq). by rewrite <- list_fmap_compose.
Qed.

(** C18: ROW_NUMBER numbers each partition.  When the partition and order keys evaluate
    and are comparable, [row_number() OVER (PARTITION BY ps ORDER BY os)] has a value
    for every row, and the rows of each partition, in an order that sorts them by
    their order keys, have the values 1, 2, 3, and so on. *)
Theorem row_number_enumerates args star distinct filter ps (os : list (OrderByItem (Expr Q))) kinds pks oks :
  keys ps = Val (Ok pks) -> Forall sound_row pks -> keys (o_expr <$> os) = Val (Ok oks) -> Forall (keys_ok kinds os) oks ->
  exists result, compute_window_values lower call names rows (EFunction (lit "ROW_NUMBER") args star distinct filter (Some (mk_window ps os))) = Val (Ok result)
  /\ length result = n
  /\ forall k, k ∈ distinct_rows pks -> exists ordered, ordered ≡ₚ with_key k (zip pks (seq 0 n)) /\ StronglySorted (before os oks) ordered
       /\ forall pos i, ordered !! pos = Some i -> result !! i = Some (Int (Z.of_nat pos + 1)).
Proof.
  intros Hp Hs Hk Ho. destruct (group_rows_partition _ _ pks Hp Hs) as (gs & Hg & Eg & Pg & _).
  assert (forall g, g ∈ gs.*2 -> Forall (fun i => (i < n)%nat) g) as Lt.
  { intros g Hin. apply Forall_forall. intros i Hi. assert (i ∈ concat (gs.*2)) as Hc by (apply list_elem_of_In, in_concat; exists g; rewrite <- !list_elem_of_In; done).
    rewrite Pg in Hc. apply elem_of_seq in Hc. lia. }
  assert (exists ords, Forall2 (fun g o => order_partition lower call names rows os g = Val (Ok o) /\ o ≡ₚ g /\ StronglySorted (before os oks) o) (gs.*2) ords) as [ords Hords].
  { clear Eg Pg Hg. induction (gs.*2) as [|g l IH]; [by exists []|]. destruct (order_partition_sorted os kinds g oks Hk Ho) as (o & E & P & S); [apply Lt; left|].
    destruct IH as [ords F]; [intros g' H'; apply Lt; by right|]. exists (o :: ords). by constructor. }
  set (vals := fun o : list nat => zip o ((fun pos => Int (Z.of_nat pos + 1)) <$> seq 0 (length o))).
  assert (try_map (partition_values lower call names rows (lit "row_number") args star distinct os) (gs.*2) = Val (Ok (vals <$> ords))) as Hv.
  { clear -Hords. induction Hords as [|g o l ords (E & _ & _) _ IH]; [done|]. cbn [try_map]. rewrite (row_number_values args star distinct os o g E). cbn [mbind res_bind]. by rewrite IH. }
  exists (assign (replicate n Null) (concat (vals <$> ords))). split_and!.
  - unfold compute_window_values. cbn [partition_by w_order_by]. rewrite Hg. cbn [mbind res_bind]. change (to_ascii_lower <$> lit "ROW_NUMBER") with (lit "row_number"). by rewrite Hv.
  - rewrite assign_length. by rewrite length_replicate.
  - assert ((concat (vals <$> ords)).*1 = concat ords) as Keys.
    { clear. induction ords as [|o ords IH]; [done|]. cbn [fmap list_fmap concat]. rewrite fmap_app. f_equal; [|exact IH]. unfold vals. apply fst_zip. by rewrite length_fmap, length_seq. }
    assert (concat ords ≡ₚ seq 0 n) as Pn.
    { rewrite <- Pg. clear -Hords. induction Hords as [|g o l ords (_ & P & _) _ IH]; [done|]. cbn. by rewrite P, IH. }
    intros k Hin. assert (with_key k (zip pks (seq 0 n)) ∈ gs.*2) as Hgk by (rewrite Eg; apply list_elem_of_fmap; by exists k).
    apply list_elem_of_lookup_1 in Hgk as [m Hm]. destruct (Forall2_lookup_l _ _ _ _ _ Hords Hm) as (o & Eo & _ & P & S). exists o. split_and!; [done..|].
    intros pos i Hi. apply assign_lookup.
    + rewrite Keys, Pn. apply NoDup_seq.
    + rewrite Keys, Pn, length_replicate. apply Forall_forall. intros j Hj%elem_of_seq. lia.
    + apply list_elem_of_In, in_concat. exists (vals o). split; [apply list_elem_of_In, list_elem_of_fmap; exists o; split; [done|by eapply list_elem_of_lookup_2]|].
      apply list_elem_of_In, (list_elem_of_lookup_2 _ pos), lookup_zip_with_Some. exists i, (Int (Z.of_nat pos + 1)). split_and!; [done..|].
      rewrite list_lookup_fmap, lookup_seq_lt; [done|]. by eapply lookup_lt_Some.
Qed.
End row_number.

Definition demo_window : Expr unit :=
  EFunction (lit "ROW_NUMBER") [] false false None (Some (mk_window [EColumn (lit "a")] [mk_order (EColumn (lit "b")) false])).
Definition demo_input : list (list Value) := [ints [1; 10]; ints [2; 20]; ints [1; 30]].
Lemma row_number_enumerates_witness : exists result,
  compute_window_values (fun s => s) no_call [lit "a"; lit "b"] demo_input demo_window = Val (Ok result) /\ length result = 3%nat.
Proof.
  destruct (row_number_enumerates (fun s => s) no_call [lit "a"; lit "b"] demo_input [] false false None [EColumn (lit "a") : Expr unit]
    [mk_order (EColumn (lit "b")) false] (fun _ => KInt) [ints [1]; ints [2]; ints [1]] [ints [10]; ints [20]; ints [30]]) as (result & E & L & _).
  - vm_compute. reflexivity.
  - repeat constructor.
  - vm_compute. reflexivity.
  - repeat constructor; intros [|[]] x [= <-]; done.
  - by exists result.
Defined.
Example row_number_example : compute_window_values (fun s => s) no_call [lit "a"; lit "b"] demo_input demo_window = Val (Ok (ints [2; 1; 1])).
Proof. vm_compute. reflexivity. Qed.
