(* ===== verification/Source.v ===== *)
(** The sources of a query, crates/engine/src/executor.rs: the columns a FROM clause
    exposes, set-returning functions, and the references of a subquery to the query
    around it, found and replaced by the values of an outer row.  The catalog views
    and the descendants of a table are arguments. *)

From stdpp Require Import gmap.
From S2P Require Import Prelude Utf8 Numeric Types Float BTree Index Wire Hba FloatOps Datetime Json Containers Pattern LockStmt Ast Eval Storage Database Rowset Aggregate Window.

#[local] Open Scope Z_scope.

(** * Relations *)

(** qualified column names, types and rows *)
Definition Schema : Type := list str * list DataType.
Definition Source : Type := list str * list DataType * list (list Value).

(** [CteRelation], [CteMap] *)
Record CteRelation := mk_cter { cr_fields : list (str * DataType); cr_rows : list (list Value) }.
Definition CteMap : Type := gmap str CteRelation.

Definition dotted (qualifier name : str) : str := qualifier ++ lit "." ++ name.
(** [bare_name] *)
Definition bare_name (qualified : str) : str := match rsplit_once 46 qualified with Some (_, name) => name | None => qualified end.

Section refs.
Context {X : Type}.
Definition tr_schema (t : TableRef X) : option str := match t with mk_tref s _ _ _ _ _ _ _ _ => s end.
Definition tr_name (t : TableRef X) : str := match t with mk_tref _ n _ _ _ _ _ _ _ => n end.
Definition tr_args (t : TableRef X) : list (Expr (Select X)) := match t with mk_tref _ _ a _ _ _ _ _ _ => a end.
Definition tr_subquery (t : TableRef X) : option (Select X) := match t with mk_tref _ _ _ _ s _ _ _ _ => s end.
Definition tr_lateral (t : TableRef X) : bool := match t with mk_tref _ _ _ _ _ l _ _ _ => l end.
Definition tr_only (t : TableRef X) : bool := match t with mk_tref _ _ _ _ _ _ o _ _ => o end.
Definition tr_column_aliases (t : TableRef X) : list str := match t with mk_tref _ _ _ _ _ _ _ c _ => c end.
Definition tr_with_ordinality (t : TableRef X) : bool := match t with mk_tref _ _ _ _ _ _ _ _ w => w end.
(** [TableRef::qualifier] *)
Definition qualifier (t : TableRef X) : str := match t with mk_tref _ n _ a _ _ _ _ _ => default n a end.
Definition j_kind (j : Join X) : JoinKind := match j with mk_join k _ _ => k end.
Definition j_table (j : Join X) : TableRef X := match j with mk_join _ t _ => t end.
Definition j_on (j : Join X) : option (Expr (Select X)) := match j with mk_join _ _ on => on end.
Definition fc_base (f : FromClause X) : TableRef X := match f with mk_from b _ => b end.
Definition fc_joins (f : FromClause X) : list (Join X) := match f with mk_from _ j => j end.
End refs.

(** [apply_cte_column_aliases] *)
Definition apply_cte_column_aliases (name : str) (cols : list str) (fields : list (str * DataType)) : result str (list (str * DataType)) :=
  match cols with
  | [] => Ok fields
  | _ =>
      if (length cols =? length fields)%nat then Ok (zip cols (fields.*2))
      else Err (lit "WITH query " ++ Eval.quoted name ++ lit " has " ++ i64_display (zlen fields) ++ lit " columns available but "
                ++ i64_display (zlen cols) ++ lit " columns specified")
  end.

(** [cte_qualified_schema] *)
Definition cte_qualified_schema (c : CteRelation) (q : str) : Schema := ((fun f => dotted q (fst f)) <$> cr_fields c, (cr_fields c).*2).

(** the aliases of [apply_column_aliases], over the names of the first columns *)
Fixpoint alias_names (q : str) (names aliases : list str) : list str :=
  match names, aliases with
  | _ :: names, a :: aliases => dotted q a :: alias_names q names aliases
  | names, _ => names
  end.
Definition apply_column_aliases {X} (t : TableRef X) (s : Source) : Source :=
  let '(names, types, rows) := s in
  match tr_column_aliases t with
  | [] => s
  | aliases => (alias_names (qualifier t) names aliases, types, rows)
  end.
Definition schema_of (s : Source) : Schema := fst s.

(** * Set-returning functions *)

(** [i64::saturating_add] *)
Definition saturating_add (a b : Z) : Z := Z.max (- 2 ^ 63) (Z.min (2 ^ 63 - 1) (a + b)).

(** the loops of [eval_generate_series] *)
Fixpoint series (up : bool) (step stop : Z) (cur : Z) (fuel : nat) : list Z :=
  match fuel with
  | 0%nat => []
  | S fuel =>
      if (if up then cur <=? stop else stop <=? cur) then
        let next := saturating_add cur step in
        cur :: (if (next =? (if up then 2 ^ 63 - 1 else - 2 ^ 63)) && (cur =? (if up then 2 ^ 63 - 1 else - 2 ^ 63)) then [] else series up step stop next fuel)
      else []
  end.
(** the number of steps of a series, and two for its ends *)
Definition series_fuel (start stop step : Z) : nat := (Z.to_nat ((stop - start) / step) + 3)%nat.

Section functions.
Context (to_lowercase : str -> str) (call : str -> list Value -> res str Value) {X : Type}.
Abbreviation E := (Expr (Select X)).
Abbreviation ev := (eval_expr to_lowercase call (Q := Select X)).

(** [eval_int_arg] *)
Definition eval_int_arg (e : E) : res str Z :=
  v ← ev [] [] e;
  match v with
  | Int i => mret i
  | Float f => mret (f64_as_i64 (f64_round f))
  | Num n => mret (f64_as_i64 (f64_round (to_f64 n)))
  | Text s => Val (ok_or (parse_i64 (trim s)) (bad_syntax (lit "integer") s))
  | Bool b => mret (Z.b2z b)
  | Null => fail (lit "generate_series() arguments must not be null")
  end.

(** [eval_generate_series] *)
Definition eval_generate_series (args : list E) : res str (list Z) :=
  match args with
  | a :: b :: more =>
      if (1 <? length more)%nat then fail (lit "generate_series() expects 2 or 3 arguments") else
      start ← eval_int_arg a; stop ← eval_int_arg b;
      step ← match more with c :: _ => eval_int_arg c | [] => mret 1 end;
      if step =? 0 then fail (lit "step size cannot equal zero")
      else mret (series (0 <? step) step stop start (series_fuel start stop step))
  | _ => fail (lit "generate_series() expects 2 or 3 arguments")
  end.

(** [eval_unnest] *)
Definition eval_unnest (args : list E) : res str (list Value) :=
  match args with
  | [a] =>
      v ← ev [] [] a;
      if is_null v then mret [] else
      match parse_array_text (text_of v) with
      | Some vs => mret ((fun o => match o with Some s => Text s | None => Null end) <$> vs)
      | None => fail (lit "unnest() requires an array")
      end
  | _ => fail (lit "unnest() expects a single array argument")
  end.

(** [regclass_oid] is the number of a relation name *)
Context (regclass_oid : str -> option Z).

(** [virtual_set_returning_function] *)
Definition virtual_set_returning_function (t : TableRef X) : res str Source :=
  let name := to_ascii_lower <$> tr_name t in
  let q := qualifier t in
  if is_one_of name ["generate_series"]%string then
    vs ← eval_generate_series (tr_args t); mret ([dotted q (lit "generate_series")], [TInt8], (fun v => [Int v]) <$> vs)
  else if is_one_of name ["unnest"]%string then
    vs ← eval_unnest (tr_args t); mret ([dotted q (lit "unnest")], [TText], (fun v => [v]) <$> vs)
  else if is_one_of name ["pg_partition_ancestors"; "pg_partition_root"]%string then
    oid ← match tr_args t with
          | [] => mret 0
          | a :: _ => match ev [] [] a with
                      | Val (Ok (Int i)) => mret i
                      | Val (Ok other) => mret (default 0 (regclass_oid (trim_matches 34 (text_of other))))
                      | Val (Err _) => mret 0
                      | Panic => Panic
                      end
          end;
    mret ([dotted q name], [TInt8], [[Int oid]])
  else if is_one_of name ["pg_options_to_table"]%string then
    mret ([dotted q (lit "option_name"); dotted q (lit "option_value")], [TText; TText], [])
  else fail (lit "set-returning function " ++ name ++ lit "() is not supported").

(** [WITH ORDINALITY] *)
Definition add_ordinality (t : TableRef X) (s : Source) : Source :=
  let '(names, types, rows) := s in
  if tr_with_ordinality t then
    (names ++ [dotted (qualifier t) (lit "ordinality")], types ++ [TInt8], imap (fun i row => row ++ [Int (Z.of_nat i + 1)]) rows)
  else s.

(** [virtual_set_returning_function_schema] *)
Definition virtual_set_returning_function_schema (t : TableRef X) : option Schema :=
  let name := to_ascii_lower <$> tr_name t in
  let q := qualifier t in
  s ← (if is_one_of name ["generate_series"]%string then Some ([dotted q (lit "generate_series")], [TInt8])
       else if is_one_of name ["unnest"]%string then Some ([dotted q (lit "unnest")], [TText])
       else if is_one_of name ["pg_partition_ancestors"; "pg_partition_root"]%string then Some ([dotted q name], [TInt8])
       else if is_one_of name ["pg_options_to_table"]%string then Some ([dotted q (lit "option_name"); dotted q (lit "option_value")], [TText; TText])
       else None);
  Some (schema_of (apply_column_aliases t (add_ordinality t (fst s, snd s, [])))).
End functions.

(** * The columns of a FROM clause *)

Section schemas.
Context (to_lowercase : str -> str) (call : str -> list Value -> res str Value) {X : Type} (regclass_oid : str -> option Z).
Abbreviation E := (Expr (Select X)).
Abbreviation DB := (Database E (Select X)).
(** the relations of [information_schema] and [pg_catalog], by schema, name and qualifier *)
Context (virtual_table : DB -> option str -> str -> str -> option (result str Source)).

Definition qualified_fields (q : str) (fields : list (str * DataType)) : Schema := ((fun f => dotted q (fst f)) <$> fields, fields.*2).
Definition field_pair (f : FieldDescription) : str * DataType := (f_name f, f_type f).
Definition table_fields (t : Table E) : list (str * DataType) := (fun c => (col_name c, data_type c)) <$> columns t.

(** the fields of a projection over the columns of its source *)
Fixpoint item_fields (names : list str) (types : list DataType) (items : list (SelectItem E)) : run (list FieldDescription) :=
  match items with
  | [] => Val []
  | Wildcard :: items =>
      all ← mapM (M := run) (fun '(i, name) => t ← expect (types !! i); Val (mk_field (bare_name name) t)) (imap pair names);
      fs ← item_fields names types items; Val (all ++ fs)
  | SelectExpr e alias :: items =>
      dt ← infer_expr_type names types e;
      fs ← item_fields names types items;
      Val (mk_field (default (default_column_name e) alias) dt :: fs)
  end.

Section bodies.
Context (db : DB) (ctes : CteMap) (select_fields : Select X -> res str (list FieldDescription)).

(** [resolve_source_schema] *)
Definition source_schema_body (t : TableRef X) : res str Schema :=
  let q := qualifier t in
  match t with
  | mk_tref schema name args _ sub _ _ _ _ =>
      match sub with
      | Some sub =>
          fields ← select_fields sub;
          mret (schema_of (apply_column_aliases t (qualified_fields q (field_pair <$> fields), [])))
      | None =>
          match ctes !! name with
          | Some cte => mret (schema_of (apply_column_aliases t (cte_qualified_schema cte q, [])))
          | None =>
              match args with
              | _ :: _ =>
                  match virtual_set_returning_function_schema t with
                  | Some s => mret s
                  | None =>
                      s ← virtual_set_returning_function to_lowercase call regclass_oid t;
                      mret (schema_of (apply_column_aliases t (add_ordinality t s)))
                  end
              | [] =>
                  match virtual_table db schema name q with
                  | Some r => s ← Val r : res str Source; mret (schema_of s)
                  | None =>
                      match views db !! name, materialized_views db !! name with
                      | Some v, _ => mret (qualified_fields q (v_fields v))
                      | None, Some v => mret (qualified_fields q (mv_fields v))
                      | None, None =>
                          match tables db !! name with
                          | Some t => mret (qualified_fields q (table_fields t))
                          | None => fail (does_not_exist name)
                          end
                      end
                  end
              end
          end
      end
  end.

(** [from_schema_with_ctes] *)
Definition from_schema_body (f : FromClause X) : res str Schema :=
  match f with
  | mk_from base joins =>
      s ← source_schema_body base;
      ss ← try_map (fun j => match j with mk_join _ t _ => source_schema_body t end) joins;
      mret (fst s ++ concat (ss.*1), snd s ++ concat (ss.*2))
  end.

(** [select_fields_with_ctes] *)
Definition select_fields_body (s : Select X) : res str (list FieldDescription) :=
  match s with
  | mk_select _ _ _ projection from _ _ _ _ _ _ _ _ _ =>
      schema ← match from with Some f => from_schema_body f | None => mret ([], []) end;
      lift (item_fields (fst schema) (snd schema) projection)
  end.
End bodies.

Fixpoint select_fields_with_ctes (db : DB) (ctes : CteMap) (s : Select X) : res str (list FieldDescription) :=
  select_fields_body db ctes (select_fields_with_ctes db ctes) s.
Definition from_schema_with_ctes (db : DB) (ctes : CteMap) (f : FromClause X) : res str Schema :=
  from_schema_body db ctes (select_fields_with_ctes db ctes) f.

(** [select_own_columns] *)
Definition select_own_columns (db : DB) (ctes : CteMap) (s : Select X) : res str (list str) :=
  match s_from s with Some f => schema ← from_schema_with_ctes db ctes f; mret (fst schema) | None => mret [] end.

(** * Correlation *)

Definition resolves (names : list str) (q : option str) (name : str) : bool := match resolve_column names q name with Ok _ => true | Err _ => false end.

(** fallible searches, in order: the second step runs when the first finds nothing *)
Definition try_or (a b : res str bool) : res str bool :=
  match a with Val (Ok false) => b | a => a end.
Fixpoint try_any {A} (f : A -> res str bool) (l : list A) : res str bool :=
  match l with
  | [] => mret false
  | x :: l => try_or (f x) (try_any f l)
  end.
Definition try_opt {A} (f : A -> res str bool) (o : option A) : res str bool := match o with Some x => f x | None => mret false end.

Section correlated.
Context (outer_cols : list str).

(** [expr_correlated]; [sub] analyses a subquery under the visible columns *)
Section expr.
Context (sub : list str -> Select X -> res str bool).
Fixpoint expr_correlated (visible : list str) (e : E) : res str bool :=
  let go := expr_correlated visible in
  match e with
  | EColumn name => mret (negb (resolves visible None name) && resolves outer_cols None name)
  | EQualified q name => mret (negb (resolves visible (Some q) name) && resolves outer_cols (Some q) name)
  | EScalarSubquery s | EExists s => sub visible s
  | EInSubquery e s _ => try_or (go e) (sub visible s)
  | EUnary _ e | EIsNull e _ | ECast e _ => go e
  | EBinary _ l r | EIsDistinct l r _ | ELike l r _ _ => try_or (go l) (go r)
  | EQuantified l _ _ es | EInList l es _ => try_or (go l) (try_any go es)
  | ERow es | EArray es => try_any go es
  | EBetween e lo hi _ => try_or (go e) (try_or (go lo) (go hi))
  | ECase o ws el => try_or (try_opt go o) (try_or (try_any (fun w : E * E => match w with (c, r) => try_or (go c) (go r) end) ws) (try_opt go el))
  | EFunction _ args _ _ filter _ => try_or (try_any go args) (try_opt go filter)
  | _ => mret false
  end.
End expr.

Section body.
Context (db : DB) (ctes : CteMap) (inner : list str -> Select X -> res str bool).
(** a nested query sees its own columns too *)
Definition nested_correlated (visible : list str) (s : Select X) : res str bool := own ← select_own_columns db ctes s; inner (visible ++ own) s.
Definition tref_args_correlated (visible : list str) (t : TableRef X) : res str bool :=
  match t with mk_tref _ _ args _ _ _ _ _ _ => try_any (expr_correlated nested_correlated visible) args end.
Definition tref_sub_correlated (visible : list str) (t : TableRef X) : res str bool :=
  match t with mk_tref _ _ _ _ sub _ _ _ _ => try_opt (nested_correlated visible) sub end.

(** [select_correlated_inner]: the expressions of the clauses, then the derived tables *)
Definition select_correlated_body (visible : list str) (s : Select X) : res str bool :=
  let go := expr_correlated nested_correlated visible in
  match s with
  | mk_select _ _ distinct_on projection from filter group_by _ having order_by limit offset _ _ =>
      try_or (try_any (fun i : SelectItem E => match i with SelectExpr e _ => go e | Wildcard => mret false end) projection)
      (try_or (try_opt (fun f : FromClause X => match f with
                | mk_from base joins =>
                    try_or (tref_args_correlated visible base)
                      (try_any (fun j : Join X => match j with mk_join _ t on => try_or (tref_args_correlated visible t) (try_opt go on) end) joins)
                end) from)
      (try_or (try_opt go filter) (try_or (try_opt go having) (try_or (try_any go group_by) (try_or (try_any go distinct_on)
      (try_or (try_any (fun o : OrderByItem E => match o with mk_order e _ => go e end) order_by) (try_or (try_opt go limit) (try_or (try_opt go offset)
      (try_opt (fun f : FromClause X => match f with
         | mk_from base joins => try_or (tref_sub_correlated visible base) (try_any (fun j : Join X => match j with mk_join _ t _ => tref_sub_correlated visible t end) joins)
         end) from)))))))))
  end.
End body.

Fixpoint select_correlated_inner (db : DB) (ctes : CteMap) (visible : list str) (s : Select X) {struct s} : res str bool :=
  select_correlated_body db ctes (fun v s => select_correlated_inner db ctes v s) visible s.

(** [select_correlated_to] *)
Definition select_correlated_to (db : DB) (ctes : CteMap) (s : Select X) : res str bool :=
  match outer_cols with
  | [] => mret false
  | _ => own ← select_own_columns db ctes s; select_correlated_inner db ctes own s
  end.
End correlated.

(** * Specialisation to an outer row *)

Definition try_map_opt {A B} (f : A -> res str B) (o : option A) : res str (option B) :=
  match o with Some x => y ← f x; mret (Some y) | None => mret None end.

Section specialize.
Context (outer_cols : list str) (outer_row : list Value).

Definition specialize_column (shadow : list str) (q : option str) (name : str) (e : E) : res str E :=
  if resolves shadow q name then mret e else
  match resolve_column outer_cols q name with
  | Ok idx => v ← lift (expect (outer_row !! idx)); mret (value_to_literal v)
  | Err _ => mret e
  end.

(** [specialize_expr]; [sub] specialises a subquery under the shadowing columns *)
Section expr.
Context (sub : list str -> Select X -> res str (Select X)).
Fixpoint specialize_expr (shadow : list str) (e : E) : res str E :=
  let go := specialize_expr shadow in
  match e with
  | EColumn name => specialize_column shadow None name e
  | EQualified q name => specialize_column shadow (Some q) name e
  | EScalarSubquery s => s ← sub shadow s; mret (EScalarSubquery s)
  | EExists s => s ← sub shadow s; mret (EExists s)
  | EInSubquery e s n => e ← go e; s ← sub shadow s; mret (EInSubquery e s n)
  | EUnary op e => e ← go e; mret (EUnary op e)
  | EIsNull e n => e ← go e; mret (EIsNull e n)
  | ECast e t => e ← go e; mret (ECast e t)
  | EBinary op l r => l ← go l; r ← go r; mret (EBinary op l r)
  | EIsDistinct l r n => l ← go l; r ← go r; mret (EIsDistinct l r n)
  | ELike e p n ci => e ← go e; p ← go p; mret (ELike e p n ci)
  | EQuantified l op k es => l ← go l; es ← try_map go es; mret (EQuantified l op k es)
  | EInList l es n => l ← go l; es ← try_map go es; mret (EInList l es n)
  | ERow es => es ← try_map go es; mret (ERow es)
  | EArray es => es ← try_map go es; mret (EArray es)
  | EBetween e lo hi n => e ← go e; lo ← go lo; hi ← go hi; mret (EBetween e lo hi n)
  | ECase o ws el =>
      o ← try_map_opt go o;
      ws ← try_map (fun w : E * E => match w with (c, r) => c ← go c; r ← go r; mret (c, r) end) ws;
      el ← try_map_opt go el; mret (ECase o ws el)
  | EFunction name args star distinct filter over =>
      args ← try_map go args; filter ← try_map_opt go filter; mret (EFunction name args star distinct filter over)
  | e => mret e
  end.
End expr.

(** a table reference with new arguments and subquery *)
Definition with_args_sub (t : TableRef X) (args : list E) (sub : option (Select X)) : TableRef X :=
  match t with mk_tref schema name _ alias _ lateral only cols ord => mk_tref schema name args alias sub lateral only cols ord end.
Definition rebuild_join (j : Join X) (ao : list E * option E) (sub : option (Select X)) : Join X :=
  match j with mk_join kind t _ => mk_join kind (with_args_sub t (fst ao) sub) (snd ao) end.

Section body.
Context (db : DB) (ctes : CteMap) (inner : list str -> Select X -> res str (Select X)).
Definition nested_specialize (shadow : list str) (s : Select X) : res str (Select X) := own ← select_own_columns db ctes s; inner (shadow ++ own) s.
Definition args_specialize (shadow : list str) (t : TableRef X) : res str (list E) :=
  match t with mk_tref _ _ args _ _ _ _ _ _ => try_map (specialize_expr nested_specialize shadow) args end.
Definition sub_specialize (shadow : list str) (t : TableRef X) : res str (option (Select X)) :=
  match t with mk_tref _ _ _ _ sub _ _ _ _ => try_map_opt (nested_specialize shadow) sub end.

(** [specialize_select_inner]: the expressions of the clauses, then the derived tables *)
Definition specialize_select_body (shadow : list str) (s : Select X) : res str (Select X) :=
  let go := specialize_expr nested_specialize shadow in
  match s with
  | mk_select ctes_ distinct distinct_on projection from filter group_by sets having order_by limit offset locking set_ops =>
      projection ← try_map (fun i : SelectItem E => match i with SelectExpr e a => e ← go e; mret (SelectExpr e a) | Wildcard => mret Wildcard end) projection;
      parts ← try_map_opt (fun f : FromClause X => match f with
                mk_from base joins =>
                  b ← args_specialize shadow base;
                  js ← try_map (fun j : Join X => match j with mk_join _ t on => a ← args_specialize shadow t; on ← try_map_opt go on; mret (a, on) end) joins;
                  mret (b, js)
                end) from;
      filter ← try_map_opt go filter; having ← try_map_opt go having; group_by ← try_map go group_by; distinct_on ← try_map go distinct_on;
      order_by ← try_map (fun o : OrderByItem E => match o with mk_order e asc => e ← go e; mret (mk_order e asc) end) order_by;
      limit ← try_map_opt go limit; offset ← try_map_opt go offset;
      from ← match from, parts with
             | Some (mk_from base joins), Some (b, js) =>
                 s0 ← sub_specialize shadow base;
                 ss ← try_map (fun j : Join X => match j with mk_join _ t _ => sub_specialize shadow t end) joins;
                 mret (Some (mk_from (with_args_sub base b s0) (zip_with (fun j aos => rebuild_join j (fst aos) (snd aos)) joins (zip js ss))))
             | _, _ => mret None
             end;
      mret (mk_select ctes_ distinct distinct_on projection from filter group_by sets having order_by limit offset locking set_ops)
  end.
End body.

Fixpoint specialize_select_inner (db : DB) (ctes : CteMap) (shadow : list str) (s : Select X) {struct s} : res str (Select X) :=
  specialize_select_body db ctes (fun v s => specialize_select_inner db ctes v s) shadow s.
(** [specialize_select] *)
Definition specialize_select (db : DB) (ctes : CteMap) (s : Select X) : res str (Select X) :=
  own ← select_own_columns db ctes s; specialize_select_inner db ctes own s.

(** [specialize_table_ref] *)
Definition specialize_table_ref (db : DB) (ctes : CteMap) (t : TableRef X) : res str (TableRef X) :=
  sub ← try_map_opt (specialize_select db ctes) (tr_subquery t);
  args ← try_map (specialize_expr (nested_specialize db ctes (specialize_select_inner db ctes)) []) (tr_args t);
  mret (with_args_sub t args sub).
End specialize.
End schemas.
