(* ===== verification/Join.v ===== *)
(** Joins of crates/engine/src/executor.rs: the nested loop over a joined relation,
    its index probe, LATERAL joins, and the reordering of inner joins. *)

From stdpp Require Import gmap.
From S2P Require Import Prelude Utf8 Numeric Types Float BTree Index Wire Hba FloatOps Datetime Json Containers Pattern LockStmt Ast Eval Storage Database Planner Rowset Aggregate Window Source.

#[local] Open Scope Z_scope.

(** * The nested loop *)

Section loop.
Context (to_lowercase : str -> str) (call : str -> list Value -> res str Value) {X : Type}.
Abbreviation E := (Expr (Select X)).
Abbreviation ev := (eval_expr to_lowercase call (Q := Select X)).

Definition on_true (on : option E) (names : list str) (combo : list Value) : res str bool :=
  match on with None => mret true | Some pred => v ← ev names combo pred; mret (is_true v) end.

(** the matches of a left row among the candidate positions, with those positions *)
Fixpoint probe_loop (on : option E) (names : list str) (right_rows : list (list Value)) (left_row : list Value) (candidates : list Z) : res str (list (Z * list Value)) :=
  match candidates with
  | [] => mret []
  | ri :: candidates =>
      right_row ← lift (expect (zget right_rows ri));
      hit ← on_true on names (left_row ++ right_row);
      more ← probe_loop on names right_rows left_row candidates;
      mret (if (hit : bool) then (ri, left_row ++ right_row) :: more else more)
  end.

Definition keeps_left (k : JoinKind) : bool := match k with LeftJoin | FullJoin => true | _ => false end.
Definition keeps_right (k : JoinKind) : bool := match k with RightJoin | FullJoin => true | _ => false end.
Definition nulls (n : nat) : list Value := replicate n Null.

(** the rows of every left row, and the right positions they matched *)
Fixpoint left_loop (kind : JoinKind) (on : option E) (names : list str) (right_rows : list (list Value)) (right_width : nat)
    (candidates : list Value -> run (list Z)) (rows : list (list Value)) : res str (list (list Value) * list Z) :=
  match rows with
  | [] => mret ([], [])
  | left_row :: rows =>
      cs ← lift (candidates left_row);
      hits ← probe_loop on names right_rows left_row cs;
      rest ← left_loop kind on names right_rows right_width candidates rows;
      let extended := match hits with [] => if keeps_left kind then [left_row ++ nulls right_width] else [] | _ => [] end in
      mret (hits.*2 ++ extended ++ fst rest, hits.*1 ++ snd rest)
  end.

(** a join of the rows built so far with the rows of a relation *)
Definition join_rows (kind : JoinKind) (on : option E) (left_names right_names : list str) (right_rows : list (list Value))
    (candidates : list Value -> run (list Z)) (rows : list (list Value)) : res str (list (list Value)) :=
  r ← left_loop kind on (left_names ++ right_names) right_rows (length right_names) candidates rows;
  let unmatched := if keeps_right kind
                   then imap (fun ri right_row => (Z.of_nat ri, nulls (length left_names) ++ right_row)) right_rows
                   else [] in
  mret (fst r ++ (List.filter (fun p => negb (bool_decide (fst p ∈ snd r))) unmatched).*2).

Definition all_positions {A} (l : list A) : list Z := Z.of_nat <$> seq 0 (length l).

(** * The index probe *)

Record IndexedJoinProbe := mk_probe { pr_table : str; pr_right_col : Z; pr_left_col : nat }.

(** [column_ref_of_table] *)
Definition column_ref_of_table (e : E) (qual : str) (t : Table E) : option Z :=
  match e with
  | EQualified q name => if str_eqb q qual then column_index t name else None
  | EColumn name => column_index t name
  | _ => None
  end.
(** [resolve_left_column] *)
Definition resolve_left_column (e : E) (left_names : list str) : option nat :=
  match e with
  | EColumn name => match resolve_column left_names None name with Ok i => Some i | Err _ => None end
  | EQualified q name => match resolve_column left_names (Some q) name with Ok i => Some i | Err _ => None end
  | _ => None
  end.

Definition try_dir (j : Join X) (t : Table E) (left_names : list str) (a b : E) : option IndexedJoinProbe :=
  right_col ← column_ref_of_table a (qualifier (j_table j)) t;
  _ ← index_on t right_col;
  left_col ← resolve_left_column b left_names;
  Some (mk_probe (tr_name (j_table j)) right_col left_col).

(** [indexed_join_inner] *)
Definition indexed_join_inner (db : Database E (Select X)) (j : Join X) (left_names : list str) : option IndexedJoinProbe :=
  match j_kind j, j_on j with
  | (Inner | LeftJoin), Some (EBinary OpEq l r) =>
      t ← tables db !! tr_name (j_table j);
      match try_dir j t left_names l r with Some p => Some p | None => try_dir j t left_names r l end
  | _, _ => None
  end.

(** [candidates_for] *)
Definition candidates_for (db : Database E (Select X)) (p : IndexedJoinProbe) (left_row : list Value) : run (list Z) :=
  key ← expect (left_row !! pr_left_col p);
  if is_null key then Val [] else
  t ← expect (tables db !! pr_table p);
  Val (default [] (index_eq t (pr_right_col p) key)).

Definition join_candidates (db : Database E (Select X)) (probe : option IndexedJoinProbe) (right_rows : list (list Value)) (left_row : list Value) : run (list Z) :=
  match probe with Some p => candidates_for db p left_row | None => Val (all_positions right_rows) end.
End loop.
Arguments join_candidates {X}.

(** * Reordering *)

(** [collect_qualifiers]; [None] when a reference cannot be attributed *)
Fixpoint collect_qualifiers {Q} (e : Expr Q) (out : list str) : option (list str) :=
  match e with
  | EQualified q _ => Some (if existsb (str_eqb q) out then out else out ++ [q])
  | EBinary _ l r => out ← collect_qualifiers l out; collect_qualifiers r out
  | EUnary _ e | ECast e _ => collect_qualifiers e out
  | EInt _ | EFloat _ | EStr _ | EBool _ | ENull | EParam _ => Some out
  | _ => None
  end.

Section reorder.
Context {X : Type} (row_estimate : Table (Expr (Select X)) -> Z).
Abbreviation E := (Expr (Select X)).
Abbreviation DB := (Database E (Select X)).
Definition Rel : Type := TableRef X * option E.
(** a join condition with the qualifiers it names *)
Definition Cond : Type := list str * E.

Definition reorderable (db : DB) (r : Rel) : bool :=
  let t := fst r in
  negb (tr_lateral t) && bool_decide (tr_subquery t = None) && (length (tr_args t) =? 0)%nat && bool_decide (is_Some (tables db !! tr_name t)).

(** the pool of join conditions *)
Fixpoint cond_pool (qualifiers : list str) (rels : list Rel) : option (list Cond) :=
  match rels with
  | [] => Some []
  | (_, None) :: rels => cond_pool qualifiers rels
  | (_, Some pred) :: rels =>
      qs ← collect_qualifiers pred [];
      if forallb (fun q => existsb (str_eqb q) qualifiers) qs then pool ← cond_pool qualifiers rels; Some ((qs, pred) :: pool) else None
  end.

(** the index of the smallest estimate among the positions [p] accepts *)
Fixpoint smallest (p : nat -> bool) (i : nat) (est : list Z) (best : option (Z * nat)) : option (Z * nat) :=
  match est with
  | [] => best
  | e :: est =>
      let best := if p i then match best with
                              | Some (b, bi) => if (b <? e) || (b =? e) && (bi <=? i)%nat then best else Some (e, i)
                              | None => Some (e, i)
                              end
                  else best in
      smallest p (S i) est best
  end.

Definition mem (q : str) (l : list str) : bool := existsb (str_eqb q) l.
Definition connected (pool : list Cond) (q : str) (placed : list str) : bool :=
  existsb (fun c => mem q (fst c) && forallb (fun x => str_eqb x q || mem x placed) (fst c)) pool.

(** the greedy order: connected relations first, the smallest first *)
Fixpoint place (quals : list str) (est : list Z) (pool : list Cond) (placed : list nat) (todo : nat) : option (list nat) :=
  match todo with
  | 0%nat => Some placed
  | S todo =>
      let placed_quals := omap (fun i => quals !! i) placed in
      let free i := negb (bool_decide (i ∈ placed)) in
      let joined i := free i && match quals !! i with Some q => connected pool q placed_quals | None => false end in
      pick ← match smallest joined 0 est None with Some b => Some b | None => smallest free 0 est None end;
      place quals est pool (placed ++ [snd pick]) todo
  end.

(** the conditions all of whose relations are present, and the others *)
Definition attach (have : list str) (pool : list Cond) : list Cond * list Cond :=
  (List.filter (fun c => forallb (fun q => mem q have) (fst c)) pool, List.filter (fun c => negb (forallb (fun q => mem q have) (fst c))) pool).
Definition conjunction (cs : list Cond) : option E :=
  foldl (fun on c => Some (match on with Some prev => EBinary And prev (snd c) | None => snd c end)) None cs.

Fixpoint new_joins (rels : list Rel) (have : list str) (pool : list Cond) (order : list nat) : option (list (Join X) * list Cond) :=
  match order with
  | [] => Some ([], pool)
  | i :: order =>
      r ← rels !! i;
      let have := have ++ [qualifier (fst r)] in
      let '(now, later) := attach have pool in
      let on := conjunction now in
      rest ← new_joins rels have later order;
      Some (mk_join (match on with Some _ => Inner | None => Cross end) (fst r) on :: fst rest, snd rest)
  end.

(** [reorder_inner_joins] *)
Definition reorder_inner_joins (db : DB) (f : FromClause X) : option (FromClause X) :=
  match fc_joins f with
  | [] => None
  | joins =>
      if negb (forallb (fun j => match j_kind j with Inner | Cross => true | _ => false end) joins) then None else
      let rels := (fc_base f, None) :: ((fun j => (j_table j, j_on j)) <$> joins) in
      if negb (forallb (reorderable db) rels) then None else
      let quals := (fun r => qualifier (fst r)) <$> rels in
      pool ← cond_pool quals rels;
      let est := (fun r => default (2 ^ 64 - 1) (row_estimate <$> tables db !! tr_name (fst r))) <$> rels in
      seed ← smallest (fun _ => true) 0 est None;
      order ← place quals est pool [snd seed] (length rels - 1);
      if bool_decide (order = seq 0 (length rels)) then None else
      match order with
      | [] => None
      | b :: order =>
          base ← rels !! b;
          js ← new_joins rels [qualifier (fst base)] pool order;
          match snd js with [] => Some (mk_from (fst base) (fst js)) | _ => None end
      end
  end.
End reorder.
