(* ===== verification/Query.v ===== *)
(** SELECT of crates/engine/src/executor.rs: sources, subqueries, common table
    expressions, the clauses of a query and the set operations.  The database is
    threaded through, since a query may modify it.  Data-modifying statements, the
    catalog views, the functions with a session state and the number of threads are
    arguments; recursion is bounded by a depth, which stands for the stack. *)

From stdpp Require Import gmap.
From S2P Require Import Prelude Utf8 Numeric Types Float BTree Index Wire Hba FloatOps Datetime Json Containers Pattern LockStmt Ast Eval Storage Database Planner Rowset Aggregate Window Source Join.

#[local] Open Scope Z_scope.

(** * Filtering *)

Definition PARALLEL_SELECT_MIN_ROWS : Z := 128.
Definition PARALLEL_SELECT_MAX_WORKERS : Z := 4.

(** [parallel_select_worker_count]; [available] is [available_parallelism] *)
Definition parallel_select_worker_count (available row_count : Z) : Z :=
  if row_count <? PARALLEL_SELECT_MIN_ROWS then 1
  else Z.max 1 (Z.min (Z.min available PARALLEL_SELECT_MAX_WORKERS) row_count).

(** [slice::chunks] *)
Fixpoint row_chunks {A} (fuel n : nat) (l : list A) : list (list A) :=
  match fuel, l with
  | S fuel, _ :: _ => take n l :: row_chunks fuel n (drop n l)
  | _, _ => []
  end.

Definition panics {A} (r : res str A) : bool := match r with Panic => true | _ => false end.
(** joining the workers in order; leaving the scope early joins the rest, and a
    panic of one of these panics *)
Fixpoint join_workers {A} (results : list (res str (list A))) : res str (list A) :=
  match results with
  | [] => mret []
  | Val (Ok rows) :: results => more ← join_workers results; mret (rows ++ more)
  | Val (Err e) :: results => if existsb panics results then Panic else fail e
  | Panic :: results =>
      if existsb panics results then Panic else fail (lit "parallel SELECT worker panicked")
  end.

Section filtering.
Context (to_lowercase : str -> str) (call : str -> list Value -> res str Value) {X : Type}.

(** [filter_select_rows_serial] *)
Definition filter_select_rows_serial (names : list str) (filter : option (Expr (Select X))) (rows : list (list Value)) : res str (list (list Value)) :=
  match filter with Some pred => filter_rows to_lowercase call pred names rows | None => mret rows end.

(** [filter_select_rows] *)
Definition filter_select_rows (available : Z) (names : list str) (filter : option (Expr (Select X))) (rows : list (list Value)) : res str (list (list Value)) :=
  let workers := parallel_select_worker_count available (zlen rows) in
  if workers <=? 1 then filter_select_rows_serial names filter rows
  else
    let chunk_len := (zlen rows + workers - 1) / workers in
    join_workers (filter_select_rows_serial names filter <$> row_chunks (length rows) (Z.to_nat chunk_len) rows).
End filtering.

(** * Queries *)

Definition MAX_RECURSIVE_ITERATIONS : nat := Z.to_nat 100000.

Section query.
Context (to_lowercase : str -> str) (call : str -> list Value -> res str Value) {X : Type} (q_eqb : Select X -> Select X -> bool) `{StableSort}.
Abbreviation E := (Expr (Select X)).
Abbreviation DB := (Database E (Select X)).
Abbreviation ev := (eval_expr to_lowercase call (Q := Select X)).
Context (regclass_oid : str -> option Z) (virtual_table : DB -> option str -> str -> str -> option (result str Source)).
Context (descendant_tables : DB -> str -> list str) (row_estimate : Table E -> Z) (available_parallelism : Z).
(** the statements of data-modifying CTEs *)
Context (execute : Statement X -> DB -> run (DB * result str ExecOutcome)).
(** queries without FROM that call sequence, advisory lock, replication slot and large object functions *)
Context (session_function : Select X -> option (DB -> run (DB * result str ExecOutcome))).

(** a computation on the database that may fail *)
Definition M (A : Type) : Type := DB -> run (DB * result str A).
#[local] Instance M_ret : MRet M := fun A a db => Val (db, Ok a).
#[local] Instance M_bind : MBind M :=
  fun A B f m db => match m db with Val (db, Ok a) => f a db | Val (db, Err e) => Val (db, Err e) | Panic => Panic end.
Definition look {A} (f : DB -> res str A) : M A := fun db => match f db with Val r => Val (db, r) | Panic => Panic end.
Definition now {A} (r : res str A) : M A := look (fun _ => r).
Definition stop {A} (e : str) : M A := now (fail e).

Fixpoint each {A B} (f : A -> M B) (l : list A) : M (list B) :=
  match l with
  | [] => mret []
  | x :: l => y ← f x; ys ← each f l; mret (y :: ys)
  end.
Definition each_opt {A B} (f : A -> M B) (o : option A) : M (option B) :=
  match o with Some x => y ← f x; mret (Some y) | None => mret None end.

Abbreviation fields_of := (select_fields_with_ctes to_lowercase call regclass_oid virtual_table).
Abbreviation correlated_to := (select_correlated_to to_lowercase call regclass_oid virtual_table).
Abbreviation specialize := (specialize_select to_lowercase call regclass_oid virtual_table).
Abbreviation specialize_ref := (specialize_table_ref to_lowercase call regclass_oid virtual_table).

(** the sequence of this name, read as a relation *)
Definition sequence_named (db : DB) (name : str) : option Sequence := List.find (fun s => str_eqb (s_name s) name) ((map_to_list (sequences db)).*2).

(** the rows of a descendant, projected onto the columns of its parent *)
Definition descendant_rows (parent : list str) (child : Table E) : run (list (list Value)) :=
  let slots := column_index child <$> parent in
  mapM (M := run) (fun row => mapM (M := run) (fun slot => match slot with
    | Some i => v ← expect (zget row i); Val (detoast_value (Storage.chunks (toast child)) v)
    | None => Val Null
    end) slots) (rows child).

(** the rows of a table and, unless ONLY is written, of its descendants *)
Definition table_rows (db : DB) (only : bool) (name : str) (t : Table E) : run (list (list Value)) :=
  let own := detoast_row (Storage.chunks (toast t)) <$> rows t in
  if only then Val own else
  more ← mapM (M := run) (fun child => descendant_rows (column_names t) child) (omap (fun n => tables db !! n) (descendant_tables db name));
  Val (own ++ concat more).

(** [exec] runs a query under a map of common table expressions *)
Section recursion.
Context (exec : Select X -> CteMap -> M ExecOutcome).

(** a query that must return rows *)
Definition exec_rows (s : Select X) (ctes : CteMap) (what : str) : M (list FieldDescription * list (list Value)) :=
  r ← exec s ctes;
  match r with Wire.Rows fields rows _ => mret (fields, rows) | _ => stop what end.

(** * Sources *)

(** [resolve_subquery_source] *)
Definition resolve_subquery_source (sub : Select X) (qual : str) (ctes : CteMap) : M Source :=
  fr ← exec_rows sub ctes (lit "subquery in FROM did not produce rows");
  mret (qualified_fields qual (field_pair <$> fst fr), snd fr).

(** [resolve_source_table] *)
Definition resolve_source_table (t : TableRef X) (ctes : CteMap) : M Source :=
  let q := qualifier t in
  let name := tr_name t in
  match tr_subquery t, ctes !! name, tr_args t with
  | Some sub, _, _ => s ← resolve_subquery_source sub q ctes; mret (apply_column_aliases t s)
  | None, Some cte, _ => mret (apply_column_aliases t (cte_qualified_schema cte q, cr_rows cte))
  | None, None, _ :: _ =>
      s ← now (virtual_set_returning_function to_lowercase call regclass_oid t); mret (apply_column_aliases t (add_ordinality t s))
  | None, None, [] =>
      db ← look (fun db => mret db);
      match virtual_table db (tr_schema t) name q with
      | Some r => now (Val r)
      | None =>
          match views db !! name, materialized_views db !! name, sequence_named db name, tables db !! name with
          | Some v, _, _, _ =>
              fr ← exec_rows (v_select v) ∅ (lit "view " ++ Eval.quoted name ++ lit " did not produce rows");
              mret (qualified_fields q (v_fields v), snd fr)
          | None, Some v, _, _ => mret (qualified_fields q (mv_fields v), mv_rows v)
          | None, None, Some s, _ =>
              mret ([dotted q (lit "last_value"); dotted q (lit "log_cnt"); dotted q (lit "is_called")], [TInt8; TInt8; TBool],
                    [[Int (s_last_value s); Int 0; Bool (s_called s)]])
          | None, None, None, Some tab => rs ← now (lift (table_rows db (tr_only t) name tab)); mret (qualified_fields q (table_fields tab), rs)
          | None, None, None, None => stop (does_not_exist name)
          end
      end
  end.

(** [resolve_base_source]: the rows an index yields for the filter, when it can be used *)
Definition resolve_base_source (t : TableRef X) (filter : option E) (ctes : CteMap) : M Source :=
  let name := tr_name t in
  match ctes !! name with
  | Some _ => resolve_source_table t ctes
  | None =>
      db ← look (fun db => mret db);
      let is_real := bool_decide (virtual_table db (tr_schema t) name (qualifier t) = None) in
      let has_descendants := negb (tr_only t) && negb (bool_decide (descendant_tables db name = [])) in
      match is_real, has_descendants, filter, tables db !! name with
      | true, false, Some pred, Some tab =>
          ps ← now (lift (index_candidate_positions to_lowercase call q_eqb tab pred));
          match ps with
          | Some ps =>
              rs ← now (lift (mapM (M := run) (fun p => row ← expect (zget (rows tab) p); Val (detoast_row (Storage.chunks (toast tab)) row)) ps));
              mret (qualified_fields (qualifier t) (table_fields tab), rs)
          | None => resolve_source_table t ctes
          end
      | _, _, _, _ => resolve_source_table t ctes
      end
  end.

Abbreviation joined := (join_rows to_lowercase call).

(** [eval_lateral_join] *)
Definition eval_lateral_join (j : Join X) (left_names : list str) (left_rows : list (list Value)) (ctes : CteMap) : M Source :=
  let schema_row := default (nulls (length left_names)) (head left_rows) in
  schema_ref ← look (fun db => specialize_ref left_names schema_row db ctes (j_table j));
  schema ← resolve_source_table schema_ref ctes;
  let '(right_names, right_types, _) := schema in
  let names := left_names ++ right_names in
  rs ← each (fun left_row =>
         t ← look (fun db => specialize_ref left_names left_row db ctes (j_table j));
         right ← resolve_source_table t ctes;
         hits ← now (probe_loop to_lowercase call (j_on j) names (snd right) left_row (all_positions (snd right)));
         mret (match hits with [] => if keeps_left (j_kind j) then [left_row ++ nulls (length right_names)] else [] | _ => hits.*2 end)) left_rows;
  mret (names, right_types, concat rs).

(** one step of [build_source_ordered] *)
Definition join_step (ctes : CteMap) (acc : Source) (j : Join X) : M Source :=
  let '(names, types, rows) := acc in
  if tr_lateral (j_table j) then
    r ← eval_lateral_join j names rows ctes;
    let '(n, t, r) := r in mret (n, types ++ t, r)
  else
    schema ← resolve_source_table (j_table j) ctes;
    let '(right_names, right_types, _) := schema in
    inner ← look (fun db => mret (indexed_join_inner db j names));
    right ← resolve_source_table (j_table j) ctes;
    rows ← look (fun db => joined (j_kind j) (j_on j) names right_names (snd right) (join_candidates db inner (snd right)) rows);
    mret (names ++ right_names, types ++ right_types, rows).
Fixpoint join_steps (ctes : CteMap) (acc : Source) (js : list (Join X)) : M Source :=
  match js with [] => mret acc | j :: js => acc ← join_step ctes acc j; join_steps ctes acc js end.

(** [build_source_ordered] *)
Definition build_source_ordered (f : FromClause X) (filter : option E) (ctes : CteMap) : M Source :=
  base ← resolve_base_source (fc_base f) (match fc_joins f with [] => filter | _ => None end) ctes;
  join_steps ctes base (fc_joins f).

(** [build_source_with_ctes] *)
Definition build_source_with_ctes (f : FromClause X) (filter : option E) (ctes : CteMap) : M Source :=
  db ← look (fun db => mret db);
  build_source_ordered (default f (reorder_inner_joins row_estimate db f)) filter ctes.

(** * Subqueries *)

(** [exec_scalar_subquery] *)
Definition exec_scalar_subquery (s : Select X) (ctes : CteMap) : M Value :=
  fr ← exec_rows s ctes (lit "subquery did not return a result set");
  if negb (length (fst fr) =? 1)%nat then stop (lit "subquery must return only one column") else
  match snd fr with
  | [] => mret Null
  | [r] => now (lift (expect (head r)))
  | _ => stop (lit "more than one row returned by a subquery used as an expression")
  end.
(** [subquery_row_count] *)
Definition subquery_row_count (s : Select X) (ctes : CteMap) : M Z :=
  r ← exec s ctes; mret (match r with Wire.Rows _ rows _ => zlen rows | _ => 0 end).
(** [subquery_single_column] *)
Definition subquery_single_column (s : Select X) (ctes : CteMap) : M (list Value) :=
  fr ← exec_rows s ctes (lit "subquery did not return a result set");
  if negb (length (fst fr) =? 1)%nat then stop (lit "subquery must return only one column")
  else now (lift (mapM (M := run) (fun r : list Value => expect (head r)) (snd fr))).

(** the walk of [resolve_subqueries] and [resolve_correlated] *)
Section rewrite.
Context (on_scalar on_exists : Select X -> M E) (on_in : E -> Select X -> bool -> M E).
Fixpoint rewrite_subqueries (e : E) : M E :=
  let go := rewrite_subqueries in
  match e with
  | EScalarSubquery s => on_scalar s
  | EExists s => on_exists s
  | EInSubquery e s n => e ← go e; on_in e s n
  | EUnary op e => e ← go e; mret (EUnary op e)
  | EIsNull e n => e ← go e; mret (EIsNull e n)
  | ECast e t => e ← go e; mret (ECast e t)
  | EBinary op l r => l ← go l; r ← go r; mret (EBinary op l r)
  | EIsDistinct l r n => l ← go l; r ← go r; mret (EIsDistinct l r n)
  | ELike e p n ci => e ← go e; p ← go p; mret (ELike e p n ci)
  | EQuantified l op k es => l ← go l; es ← each go es; mret (EQuantified l op k es)
  | EInList l es n => l ← go l; es ← each go es; mret (EInList l es n)
  | ERow es => es ← each go es; mret (ERow es)
  | EArray es => es ← each go es; mret (EArray es)
  | EBetween e lo hi n => e ← go e; lo ← go lo; hi ← go hi; mret (EBetween e lo hi n)
  | ECase o ws el =>
      o ← each_opt go o;
      ws ← each (fun w : E * E => match w with (c, r) => c ← go c; r ← go r; mret (c, r) end) ws;
      el ← each_opt go el; mret (ECase o ws el)
  | EFunction name args star distinct filter over =>
      args ← each go args; filter ← each_opt go filter; mret (EFunction name args star distinct filter over)
  | e => mret e
  end.
End rewrite.

Definition in_values (e : E) (vs : list Value) (negated : bool) : E := EInList e (value_to_literal <$> vs) negated.

(** [resolve_subqueries] *)
Definition resolve_subqueries (outer_cols : list str) (ctes : CteMap) : E -> M E :=
  let unless_correlated (s : Select X) (e : E) (m : M E) : M E :=
    c ← look (fun db => correlated_to outer_cols db ctes s); if (c : bool) then mret e else m in
  rewrite_subqueries
    (fun s => unless_correlated s (EScalarSubquery s) (v ← exec_scalar_subquery s ctes; mret (value_to_literal v)))
    (fun s => unless_correlated s (EExists s) (n ← subquery_row_count s ctes; mret (EBool (0 <? n))))
    (fun e s n => unless_correlated s (EInSubquery e s n) (vs ← subquery_single_column s ctes; mret (in_values e vs n))).

(** [resolve_correlated] *)
Definition resolve_correlated (outer_cols : list str) (outer_row : list Value) (ctes : CteMap) : E -> M E :=
  let on_row (s : Select X) : M (Select X) := look (fun db => specialize outer_cols outer_row db ctes s) in
  rewrite_subqueries
    (fun s => s ← on_row s; v ← exec_scalar_subquery s ctes; mret (value_to_literal v))
    (fun s => s ← on_row s; n ← subquery_row_count s ctes; mret (EBool (0 <? n)))
    (fun e s n => s ← on_row s; vs ← subquery_single_column s ctes; mret (in_values e vs n)).

(** [resolve_subqueries_in_select] *)
Definition resolve_select_body (rec : Select X -> M (Select X)) (outer_cols : list str) (ctes : CteMap) (s : Select X) : M (Select X) :=
  let go := resolve_subqueries outer_cols ctes in
  match s with
  | mk_select ctes_ distinct distinct_on projection from filter group_by sets having order_by limit offset locking set_ops =>
      projection ← each (fun i : SelectItem E => match i with SelectExpr e a => e ← go e; mret (SelectExpr e a) | Wildcard => mret Wildcard end) projection;
      filter ← each_opt go filter; having ← each_opt go having; group_by ← each go group_by; distinct_on ← each go distinct_on;
      order_by ← each (fun o : OrderByItem E => match o with mk_order e asc => e ← go e; mret (mk_order e asc) end) order_by;
      limit ← each_opt go limit; offset ← each_opt go offset;
      set_ops ← each (fun o : SetOperation X => match o with mk_set_op op all s => s ← rec s; mret (mk_set_op op all s) end) set_ops;
      mret (mk_select ctes_ distinct distinct_on projection from filter group_by sets having order_by limit offset locking set_ops)
  end.
Fixpoint resolve_subqueries_in_select (outer_cols : list str) (ctes : CteMap) (s : Select X) {struct s} : M (Select X) :=
  resolve_select_body (fun s => resolve_subqueries_in_select outer_cols ctes s) outer_cols ctes s.

Definition is_subquery (e : E) : bool := match e with EScalarSubquery _ | EExists _ | EInSubquery _ _ _ => true | _ => false end.
(** [expr_contains_subquery] *)
Definition expr_contains_subquery : E -> bool := expr_any is_subquery.
Definition opt_any {A} (p : A -> bool) (o : option A) : bool := match o with Some x => p x | None => false end.
(** [select_has_subquery] *)
Definition select_has_subquery (s : Select X) : bool :=
  let has := expr_contains_subquery in
  existsb (fun i => match i with SelectExpr e _ => has e | Wildcard => false end) (s_projection s)
  || opt_any (fun f => existsb has (tr_args (fc_base f)) || existsb (fun j => existsb has (tr_args (j_table j)) || opt_any has (j_on j)) (fc_joins f)) (s_from s)
  || opt_any has (s_filter s) || opt_any has (s_having s) || existsb has (s_group_by s) || existsb has (s_distinct_on s)
  || existsb (fun o => has (o_expr o)) (s_order_by s) || opt_any has (s_limit s) || opt_any has (s_offset s).

(** * Common table expressions *)

Definition c_name (c : Cte X) : str := match c with mk_cte n _ _ _ _ => n end.
Definition no_rows_message (name : str) : str := lit "WITH query " ++ Eval.quoted name ++ lit " did not produce rows".

(** the relation of a CTE from the fields and rows of its body *)
Definition cte_relation (c : Cte X) (fields : list FieldDescription) (rows : list (list Value)) : M CteRelation :=
  match c with
  | mk_cte name columns _ _ _ => fs ← now (Val (apply_cte_column_aliases name columns (field_pair <$> fields))); mret (mk_cter fs rows)
  end.

(** [materialize_dml_cte] *)
Definition materialize_dml_cte (c : Cte X) (stmt : Statement X) : M CteRelation :=
  r ← (execute stmt : M ExecOutcome);
  match r with Wire.Rows fields rows _ => cte_relation c fields rows | _ => mret (mk_cter [] []) end.

(** [select_references_table] *)
Fixpoint select_references_table (name : str) (s : Select X) : bool :=
  match s with
  | mk_select _ _ _ _ from _ _ _ _ _ _ _ _ set_ops =>
      opt_any (fun f => str_eqb (tr_name (fc_base f)) name || existsb (fun j => str_eqb (tr_name (j_table j)) name) (fc_joins f)) from
      || existsb (fun o => match o with mk_set_op _ _ s => select_references_table name s end) set_ops
  end.
(** [recursive_term_self_references] *)
Definition recursive_term_self_references (c : Cte X) : bool :=
  match c with
  | mk_cte name _ s _ _ => existsb (fun o => match o with mk_set_op _ _ s => select_references_table name s end) (s_set_ops s)
  end.

(** a query without its set operations *)
Definition no_set_ops (s : Select X) : Select X :=
  match s with
  | mk_select ctes distinct distinct_on projection from filter group_by sets having order_by limit offset locking _ =>
      mk_select ctes distinct distinct_on projection from filter group_by sets having order_by limit offset locking []
  end.

(** the loop of [materialize_recursive_cte] *)
Fixpoint recursive_loop (name : str) (fields : list (str * DataType)) (union_all : bool) (term : Select X) (outer : CteMap)
    (result working : list (list Value)) (todo : nat) : M (list (list Value)) :=
  match working with
  | [] => mret result
  | _ =>
      match todo with
      | 0%nat => stop (lit "recursive query " ++ Eval.quoted name ++ lit " exceeded 100000 iterations")
      | S todo =>
          fr ← exec_rows term (<[name := mk_cter fields working]> outer) (no_rows_message name);
          let produced := snd fr in
          if union_all then recursive_loop name fields union_all term outer (result ++ produced) produced todo
          else
            let fresh := distinct_rows (List.filter (fun r => negb (existsb (fun s => row_eqb s r) result)) produced) in
            recursive_loop name fields union_all term outer (result ++ fresh) fresh todo
      end
  end.

(** [materialize_recursive_cte] *)
Definition materialize_recursive_cte (c : Cte X) (outer : CteMap) : M CteRelation :=
  match c with
  | mk_cte name columns s _ _ =>
      match s_set_ops s with
      | mk_set_op _ union_all term :: _ =>
          fr ← exec_rows (no_set_ops s) outer (no_rows_message name);
          fields ← now (Val (apply_cte_column_aliases name columns (field_pair <$> fst fr)));
          let seed := if (union_all : bool) then snd fr else distinct_rows (snd fr) in
          rows ← recursive_loop name fields union_all term outer seed seed MAX_RECURSIVE_ITERATIONS;
          mret (mk_cter fields rows)
      | [] => now Panic
      end
  end.

(** one step of [materialize_ctes] *)
Definition materialize_cte (map : CteMap) (c : Cte X) : M CteMap :=
  match c with
  | mk_cte name columns s dml recursive =>
      relation ← match dml with
                 | Some stmt => materialize_dml_cte c stmt
                 | None =>
                     if recursive && negb (bool_decide (length (s_set_ops s) = 0%nat)) && recursive_term_self_references c
                     then materialize_recursive_cte c map
                     else fr ← exec_rows s map (no_rows_message name); cte_relation c (fst fr) (snd fr)
                 end;
      mret (<[name := relation]> map)
  end.
(** [materialize_ctes] *)
Fixpoint materialize_ctes (map : CteMap) (cs : list (Cte X)) : M CteMap :=
  match cs with [] => mret map | c :: cs => map ← materialize_cte map c; materialize_ctes map cs end.

(** * The clauses of a query *)

(** [Producer] *)
Inductive Producer := Col (i : nat) | PExpr (e : E).
Definition producers_of (names : list str) (items : list (SelectItem E)) : list Producer :=
  flat_map (fun item => match item with Wildcard => Col <$> seq 0 (length names) | SelectExpr e _ => [PExpr e] end) items.
Definition producer_windows (out : list E) (p : Producer) : list E := match p with PExpr e => collect_window_fns q_eqb e out | Col _ => out end.

(** WHERE, when the predicate has a correlated subquery *)
Fixpoint filter_correlated (pred : E) (names : list str) (ctes : CteMap) (rows : list (list Value)) : M (list (list Value)) :=
  match rows with
  | [] => mret []
  | row :: rows =>
      resolved ← resolve_correlated names row ctes pred;
      v ← now (ev names row resolved);
      kept ← filter_correlated pred names ctes rows;
      mret (if is_true v then row :: kept else kept)
  end.
Definition where_rows (filter : option E) (names : list str) (ctes : CteMap) (rows : list (list Value)) : M (list (list Value)) :=
  match filter with
  | Some pred =>
      if expr_contains_subquery pred then filter_correlated pred names ctes rows
      else now (filter_select_rows to_lowercase call available_parallelism names filter rows)
  | None => now (filter_select_rows to_lowercase call available_parallelism names filter rows)
  end.

(** one output value *)
Definition produce (names : list str) (ctes : CteMap) (wfns : list E) (wvals : list (list Value)) (i : nat) (row : list Value) (p : Producer) : M Value :=
  match p with
  | Col c => now (lift (expect (row !! c)))
  | PExpr e =>
      if contains_window_function e then now (ev names row (substitute_window_fns q_eqb e wfns wvals i))
      else if expr_contains_subquery e then e ← resolve_correlated names row ctes e; now (ev names row e)
      else now (ev names row e)
  end.

(** DISTINCT ON: the first row of each key *)
Definition distinct_on_rows (exprs : list E) (names : list str) (fields : list FieldDescription) (combined : list (list Value * list Value)) : res str (list (list Value * list Value)) :=
  match exprs with
  | [] => mret combined
  | _ =>
      keys ← try_map (fun io => try_map (fun e => match output_column_index e fields with
                | Some i => lift (expect (snd io !! i))
                | None => ev names (fst io) e
                end) exprs) combined;
      mret ((keep_first fst [] (zip keys combined)).*2)
  end.

(** ORDER BY over the input and output of each row *)
Definition order_combined (order_by : list (OrderByItem E)) (names : list str) (fields : list FieldDescription) (combined : list (list Value * list Value)) : res str (list (list Value * list Value)) :=
  match order_by with
  | [] => mret combined
  | _ =>
      keys ← try_map (fun io => try_map (fun ob => order_value (o_expr ob) (snd io) fields (ev names (fst io) (o_expr ob))) order_by) combined;
      lift (order_rows keys order_by combined)
  end.

(** the projection of a query without grouping *)
Definition project_select (s : Select X) (ctes : CteMap) (names : list str) (types : list DataType) (rows : list (list Value)) : M ExecOutcome :=
  fields ← now (lift (item_fields names types (s_projection s)));
  let producers := producers_of names (s_projection s) in
  let wfns := foldl producer_windows [] producers in
  wvals ← now (try_map (compute_window_values to_lowercase call names rows) wfns);
  outs ← each (fun ir => each (produce names ctes wfns wvals (fst ir) (snd ir)) producers) (zip (seq 0 (length rows)) rows);
  let combined := zip rows outs in
  let combined := match s_distinct s, s_distinct_on s with true, [] => keep_first snd [] combined | _, _ => combined end in
  combined ← now (order_combined (s_order_by s) names fields combined);
  combined ← now (distinct_on_rows (s_distinct_on s) names fields combined);
  now (finish_rows to_lowercase call snd (s_offset s) (s_limit s) names fields combined).

(** ORDER BY of a set operation: [sort_set_rows] *)
Definition sort_set_rows (rows : list (list Value)) (fields : list FieldDescription) (order_by : list (OrderByItem E)) : res str (list (list Value)) :=
  let names := f_name <$> fields in
  keys ← try_map (fun row => try_map (fun ob => order_value (o_expr ob) row fields (ev names row (o_expr ob))) order_by) rows;
  lift (order_rows keys order_by rows).

Definition BRANCH_ROWS : str := lit "set operation branch did not produce rows".
Fixpoint apply_set_ops (width : nat) (rows : list (list Value)) (ops : list (SetOperation X)) : M (list (list Value)) :=
  match ops with
  | [] => mret rows
  | mk_set_op op all s :: ops =>
      right ← exec_rows s ∅ BRANCH_ROWS;
      if negb (length (fst right) =? width)%nat then stop (lit "each set operation query must have the same number of columns")
      else apply_set_ops width (apply_set_operation rows (snd right) op all) ops
  end.

(** [exec_set_select] *)
Definition first_branch (s : Select X) : Select X :=
  match s with
  | mk_select ctes distinct distinct_on projection from filter group_by sets having _ _ _ locking _ =>
      mk_select ctes distinct distinct_on projection from filter group_by sets having [] None None locking []
  end.
Definition exec_set_select (s : Select X) : M ExecOutcome :=
  left ← exec_rows (first_branch s) ∅ BRANCH_ROWS;
  let fields := fst left in
  rows ← apply_set_ops (length fields) (snd left) (s_set_ops s);
  rows ← match s_order_by s with [] => mret rows | order_by => now (sort_set_rows rows fields order_by) end;
  now (finish_rows to_lowercase call (fun r => r) (s_offset s) (s_limit s) (f_name <$> fields) fields rows).

(** the single call of a projection, when it is the function [fname] *)
Definition single_call (fname : string) (items : list (SelectItem E)) : option (list E * option str) :=
  match items with
  | [SelectExpr (EFunction name args _ _ _ _) alias] => if is_one_of (to_ascii_lower <$> name) [fname] then Some (args, alias) else None
  | _ => None
  end.
Definition one_column (name : str) (dt : DataType) (vs : list Value) : ExecOutcome :=
  Wire.Rows [mk_field name dt] ((fun v => [v]) <$> vs) (select_tag (zlen vs)).
(** [select_generate_series], [select_unnest] *)
Definition select_generate_series (args : list E) (alias : option str) : res str ExecOutcome :=
  vs ← eval_generate_series to_lowercase call args; mret (one_column (default (lit "generate_series") alias) TInt8 (Int <$> vs)).
Definition select_unnest (args : list E) (alias : option str) : res str ExecOutcome :=
  vs ← eval_unnest to_lowercase call args; mret (one_column (default (lit "unnest") alias) TText vs).

Definition is_grouped (s : Select X) : bool :=
  negb (length (s_group_by s) =? 0)%nat || negb (length (s_grouping_sets s) =? 0)%nat
  || existsb (fun i => match i with SelectExpr e _ => contains_aggregate e | Wildcard => false end) (s_projection s)
  || opt_any contains_aggregate (s_having s).

(** the source, WHERE, and the grouped or plain projection *)
Definition select_rows (s : Select X) (ctes : CteMap) : M ExecOutcome :=
  src ← match s_from s with Some f => build_source_with_ctes f (s_filter s) ctes | None => mret ([], [], [[]]) end;
  let '(names, types, source_rows) := src in
  rows ← where_rows (s_filter s) names ctes source_rows;
  if is_grouped s then now (grouped_select to_lowercase call q_eqb s names types rows)
  else project_select s ctes names types rows.

Definition no_ctes (s : Select X) : Select X :=
  match s with
  | mk_select _ distinct distinct_on projection from filter group_by sets having order_by limit offset locking set_ops =>
      mk_select [] distinct distinct_on projection from filter group_by sets having order_by limit offset locking set_ops
  end.

(** [exec_select_with_ctes] *)
Definition select_body (s : Select X) (inherited : CteMap) : M ExecOutcome :=
  ctes ← materialize_ctes inherited (s_ctes s);
  let s := no_ctes s in
  outer ← (if select_has_subquery s then
             match s_from s with
             | Some f => src ← build_source_with_ctes f None ctes; mret (fst (fst src))
             | None => mret []
             end
           else mret []);
  s ← resolve_subqueries_in_select outer ctes s;
  match s_set_ops s with
  | _ :: _ => exec_set_select s
  | [] =>
      match s_from s, single_call "generate_series" (s_projection s), single_call "unnest" (s_projection s), session_function s with
      | None, Some (args, alias), _, _ => now (select_generate_series args alias)
      | None, None, Some (args, alias), _ => now (select_unnest args alias)
      | None, None, None, Some m => m
      | _, _, _, _ => select_rows s ctes
      end
  end.
End recursion.

Fixpoint exec_select_with_ctes (depth : nat) (s : Select X) (ctes : CteMap) : M ExecOutcome :=
  match depth with
  | 0%nat => fun _ => Panic
  | S depth => select_body (exec_select_with_ctes depth) s ctes
  end.
(** [exec_select] *)
Definition exec_select (depth : nat) (s : Select X) : M ExecOutcome := exec_select_with_ctes depth s ∅.
End query.
