(* ===== verification/QueryLoops.v ===== *)
(** The parallel filter of a query and its serial reference, and the two recursions
    of a query whose end does not follow from its text: generated series and
    recursive common table expressions. *)

From stdpp Require Import gmap.
From S2P Require Import Prelude Utf8 Numeric Types Float BTree Index Wire Hba FloatOps Datetime Json Containers Pattern LockStmt Ast Eval Storage Database Planner Rowset Aggregate Window Source Join Query.

#[local] Open Scope Z_scope.

(** * Filtering in parallel *)

Section parallel.
Context (lower : str -> str) (call : str -> list Value -> res str Value) {X : Type}.
Abbreviation ev := (eval_expr lower call (Q := Select X)).
Abbreviation serial := (filter_select_rows_serial lower call (X := X)).

Lemma filter_rows_app (p : Expr (Select X)) names a b : filter_rows lower call p names (a ++ b)
  = (x ← filter_rows lower call p names a; y ← filter_rows lower call p names b; mret (x ++ y)).
Proof.
  induction a as [|r a IH]; cbn; [by destruct (filter_rows _ _ _ _ b) as [[]|]|]. rewrite IH. destruct (ev names r p) as [[v|e]|]; cbn; [|done..].
  destruct (filter_rows _ _ _ _ a) as [[x|]|]; cbn; [|done..]. destruct (filter_rows _ _ _ _ b) as [[y|]|]; cbn; [|done..]. by destruct (is_true v).
Qed.
Lemma serial_app names f a b : serial names f (a ++ b) = (x ← serial names f a; y ← serial names f b; mret (x ++ y)).
Proof. destruct f as [p|]; [apply filter_rows_app|done]. Qed.
Lemma serial_nil names f : serial names f [] = mret [].
Proof. by destruct f. Qed.

Lemma row_chunks_concat {A} n (l : list A) : (0 < n)%nat -> forall fuel, (length l <= fuel)%nat -> concat (row_chunks fuel n l) = l.
Proof.
  intros Hn fuel. revert l. induction fuel as [|fuel IH]; intros [|x l] L; try done; [cbn in L; lia|].
  cbn [row_chunks concat]. rewrite IH; [apply take_drop|]. rewrite length_drop. cbn in *. lia.
Qed.

Lemma workers_serial names f cs : existsb panics (serial names f <$> cs) = false -> join_workers (serial names f <$> cs) = serial names f (concat cs).
Proof.
  induction cs as [|c cs IH]; cbn [fmap list_fmap existsb]; [by rewrite serial_nil|]. intros [H1 H2]%orb_false_elim. cbn [concat]. rewrite serial_app.
  destruct (serial names f c) as [[rows|e]|] eqn:E; cbn [join_workers]; rewrite ?E; [|change (list_fmap _ _ (serial names f) cs) with (serial names f <$> cs); by rewrite H2|done].
  cbn. rewrite (IH H2). done.
Qed.

Lemma filter_rows_returns (p : Expr (Select X)) names rows : (forall r, r ∈ rows -> ev names r p <> Panic) -> filter_rows lower call p names rows <> Panic.
Proof.
  induction rows as [|r rows IH]; intros H; [done|]. cbn. specialize (H r ltac:(left)) as Hr. destruct (ev names r p) as [[v|e]|]; [|done..].
  cbn. assert (filter_rows lower call p names rows <> Panic) as N by (apply IH; intros s Hs; apply H; by right). by destruct (filter_rows _ _ _ _ rows) as [[]|].
Qed.
Lemma row_chunks_elem {A} n (l : list A) c x : forall fuel, c ∈ row_chunks fuel n l -> x ∈ c -> x ∈ l.
Proof.
  intros fuel. revert l. induction fuel as [|fuel IH]; intros [|y l] Hc Hx; try by apply elem_of_nil in Hc.
  cbn [row_chunks] in Hc. apply elem_of_cons in Hc as [->|Hc]; rewrite <- (take_drop n (y :: l)); apply elem_of_app; [by left|right; by eapply IH].
Qed.

Lemma parallel_filter_ok available names (filter : option (Expr (Select X))) rows :
  (forall p r, filter = Some p -> r ∈ rows -> ev names r p <> Panic) ->
  filter_select_rows lower call available names filter rows = filter_select_rows_serial lower call names filter rows.
Proof.
  intros Hp. unfold filter_select_rows. set (w := parallel_select_worker_count available (zlen rows)). destruct (Z.leb_spec w 1); [done|].
  assert (0 < zlen rows) as Hr. { unfold w, parallel_select_worker_count, PARALLEL_SELECT_MIN_ROWS in *. destruct (Z.ltb_spec (zlen rows) 128); lia. }
  assert (0 < (zlen rows + w - 1) / w) as Hc by (apply Z.div_str_pos; lia).
  rewrite workers_serial; [f_equal; apply row_chunks_concat; lia|].
  apply not_true_is_false. intros (r & Hr' & Pr)%existsb_exists. apply list_elem_of_In, list_elem_of_fmap in Hr' as (c & -> & Hin).
  destruct filter as [p|]; cbn in Pr; [|done]. pose proof (filter_rows_returns p names c) as N. destruct (filter_rows _ _ _ _ c) as [[]|]; try done.
  apply N; [|done]. intros r Hrc. apply (Hp p); [done|]. by eapply row_chunks_elem.
Qed.

(** C14: the parallel filter is the serial one.  When the predicate panics on no row,
    splitting the rows over any number of workers and joining them in order gives
    the rows, or the first error, of the loop over all rows. *)
Theorem parallel_filter_serial available names (filter : option (Expr (Select X))) rows :
  (forall p r, filter = Some p -> r ∈ rows -> ev names r p <> Panic) ->
  filter_select_rows lower call available names filter rows = filter_select_rows_serial lower call names filter rows.
Proof. exact (parallel_filter_ok available names filter rows). Qed.
End parallel.

Definition many_rows : list (list Value) := (fun i => ints [Z.of_nat i]) <$> seq 0 200.
Lemma parallel_filter_serial_witness :
  filter_select_rows (fun s => s) no_call 8 [lit "a"] (Some (EBinary OpLt (EColumn (lit "a")) (EInt 3)) : option (Expr (Select unit))) many_rows
  = Val (Ok [ints [0]; ints [1]; ints [2]]).
Proof.
  rewrite parallel_filter_serial; [vm_compute; reflexivity|]. intros p r [= <-] (i & -> & _)%list_elem_of_fmap. vm_compute. by destruct i.
Defined.

(** * Generated series *)

Lemma saturating_in a b : in_i 64 (a + b) -> saturating_add a b = a + b.
Proof. unfold in_i, saturating_add. intros. change (2 ^ (64 - 1)) with (2 ^ 63) in *. lia. Qed.

(** the loop counts [n] steps when the values and the one after them fit *)
Lemma series_steps step stop n : in_i 64 (stop + step) -> step <> 0 ->
  forall cur fuel, in_i 64 cur -> Z.of_nat n = Z.max 0 ((stop - cur) / step + 1) -> (n < fuel)%nat ->
  series (0 <? step) step stop cur fuel = (fun i => cur + Z.of_nat i * step) <$> seq 0 n.
Proof.
  intros Hs N. induction n as [|n IH]; intros cur fuel Hc Hn Hf; (destruct fuel as [|fuel]; [lia|]); cbn [series].
  - replace (if 0 <? step then cur <=? stop else stop <=? cur) with false; [done|]. symmetry. destruct (Z.ltb_spec 0 step); apply Z.leb_gt.
    + assert ((stop - cur) / step < 0) by lia. apply Z.nle_gt. intros L. assert (0 <= (stop - cur) / step) by (apply Z.div_pos; lia). lia.
    + assert ((stop - cur) / step < 0) by lia. apply Z.nle_gt. intros L. rewrite <- Z.div_opp_opp in * by lia. assert (0 <= - (stop - cur) / - step) by (apply Z.div_pos; lia). lia.
  - assert (0 <= (stop - cur) / step) as Hd by lia. pose proof (Z.div_mod (stop - cur) step N) as Dm.
    assert ((if 0 <? step then cur <=? stop else stop <=? cur) = true /\ in_i 64 (cur + step)) as [-> Hin].
    { unfold in_i in *. destruct (Z.ltb_spec 0 step).
      - pose proof (Z.mod_pos_bound (stop - cur) step ltac:(lia)). split; [apply Z.leb_le|]; nia.
      - pose proof (Z.mod_neg_bound (stop - cur) step ltac:(lia)). split; [apply Z.leb_le|]; nia. }
    rewrite saturating_in by done. cbn [seq fmap list_fmap]. f_equal; [lia|].
    replace ((cur + step =? (if 0 <? step then 2 ^ 63 - 1 else - 2 ^ 63)) && (cur =? (if 0 <? step then 2 ^ 63 - 1 else - 2 ^ 63))) with false.
    + rewrite (IH (cur + step) fuel); [|done| |lia].
      * change (list_fmap nat Z ?f ?l) with (f <$> l). rewrite <- (fmap_S_seq 0 n), <- list_fmap_compose. apply list_fmap_ext. intros _ i _. cbn. lia.
      * replace (stop - (cur + step)) with (stop - cur + (-1) * step) by lia. rewrite Z.div_add by done. lia.
    + symmetry. apply andb_false_iff. destruct (Z.eqb_spec cur (if 0 <? step then 2 ^ 63 - 1 else - 2 ^ 63)); [left; apply Z.eqb_neq; lia|by right].
Qed.

(** A generated series is the arithmetic progression up to its bound, also when it
    is empty or descends, provided that the step after the bound fits 64 bits. *)
Lemma generate_series_exact lower call {X} (a b c : Expr (Select X)) start stop step :
  eval_int_arg lower call a = Val (Ok start) -> eval_int_arg lower call b = Val (Ok stop) -> eval_int_arg lower call c = Val (Ok step) ->
  in_i 64 start -> in_i 64 (stop + step) -> step <> 0 ->
  eval_generate_series lower call [a; b; c] = Val (Ok ((fun i => start + Z.of_nat i * step) <$> seq 0 (Z.to_nat ((stop - start) / step + 1)))).
Proof.
  intros Ha Hb Hc I1 I2 N. unfold eval_generate_series. cbn [length Nat.ltb Nat.leb]. rewrite Ha, Hb, Hc. cbn [mbind res_bind].
  destruct (Z.eqb_spec step 0); [done|]. rewrite (series_steps step stop (Z.to_nat ((stop - start) / step + 1))); try done; [lia|unfold series_fuel; lia].
Qed.

(** * Recursive common table expressions *)

Lemma holds_elem_of r l : Forall sound_row l -> holds r l = true -> exists s, s ∈ l /\ sound_row s /\ row_eqb s r = true.
Proof.
  intros Hl (s & Hs & E)%existsb_exists. apply list_elem_of_In in Hs. rewrite Forall_forall in Hl. exists s. auto.
Qed.
Lemma holds_intro r s l : s ∈ l -> row_eqb s r = true -> holds r l = true.
Proof. intros Hs E. apply existsb_exists. exists s. split; [by apply list_elem_of_In|done]. Qed.

(** distinct rows that are all in [u] are no more than [u] has *)
Lemma unique_length u l : Forall sound_row u -> Forall sound_row l -> rows_unique l -> (forall r, r ∈ l -> holds r u = true) -> (length l <= length u)%nat.
Proof.
  intros Hu Hl U Hin.
  assert (exists ps, Forall2 (fun r p => exists s, u !! p = Some s /\ row_eqb s r = true) l ps) as [ps Hps].
  { clear U Hl. induction l as [|r l IH]; [by exists []|]. destruct IH as [ps IH]; [intros s Hs; apply Hin; by right|].
    destruct (holds_elem_of r u Hu) as (s & Hs & _ & E); [apply Hin; left|]. apply list_elem_of_lookup_1 in Hs as [p Hp]. exists (p :: ps). constructor; [by exists s|done]. }
  rewrite (Forall2_length _ _ _ Hps), <- (length_seq (length u) 0). apply submseteq_length, NoDup_submseteq.
  - apply NoDup_alt. intros i j p Ei Ej. destruct (Forall2_lookup_r _ _ _ _ _ Hps Ei) as (r & Er & s & Es & E), (Forall2_lookup_r _ _ _ _ _ Hps Ej) as (r' & Er' & s' & Es' & E').
    assert (s' = s) as -> by congruence. rewrite Forall_forall in Hu, Hl.
    assert (sound_row r /\ sound_row r' /\ sound_row s) as (Sr & Sr' & Ss) by (split_and!; [apply Hl|apply Hl|apply Hu]; by eapply list_elem_of_lookup_2).
    destruct (decide (i = j)) as [|N]; [done|]. exfalso. destruct (decide (i < j)%nat) as [L|L].
    + pose proof (U i j r r' L Er Er') as F. rewrite (row_eqb_trans r s r') in F; [done..| |done]. by apply row_eqb_sym.
    + pose proof (U j i r' r ltac:(lia) Er' Er) as F. rewrite (row_eqb_trans r' s r) in F; [done..| |done]. by apply row_eqb_sym.
  - intros p (i & Hi)%list_elem_of_lookup_1. destruct (Forall2_lookup_r _ _ _ _ _ Hps Hi) as (r & _ & s & Es & _). apply elem_of_seq. apply lookup_lt_Some in Es. lia.
Qed.

Section recursive.
Context {X : Type} (exec : Select X -> CteMap -> M (X := X) ExecOutcome).
Context (name : str) (fields : list (str * DataType)) (term : Select X) (outer : CteMap) (db : Database (Expr (Select X)) (Select X)).
Context (step : list (list Value) -> list (list Value)) (seed : list (list Value)).

(** the rows reached from the seed, up to equality of rows *)
Inductive reached : list Value -> Prop :=
| reached_seed r : sound_row r -> holds r seed = true -> reached r
| reached_step x r : sound_row r -> reached x -> holds r (step [x]) = true -> reached r.

(** the recursive term maps the rows of the working table one by one *)
Record linear_term : Prop := {
  lt_exec w : exists fs tag, exec term (<[name := mk_cter fields w]> outer) db = Val (db, Ok (Wire.Rows fs (step w) tag));
  lt_sound w : Forall sound_row w -> Forall sound_row (step w);
  lt_linear w r : sound_row r -> Forall sound_row w -> holds r (step w) = existsb (fun x => holds r (step [x])) w;
  lt_equal x y r : sound_row x -> sound_row y -> sound_row r -> row_eqb x y = true -> holds r (step [x]) = holds r (step [y])
}.
Context (L : linear_term) (Hseed : Forall sound_row seed).

Lemma reached_sound r : reached r -> sound_row r.
Proof. by destruct 1. Qed.

(** the state of the loop: the rows whose successors are in, and the working table *)
Record loop_inv (done_ working : list (list Value)) : Prop := {
  li_sound : Forall sound_row (done_ ++ working);
  li_unique : rows_unique (done_ ++ working);
  li_seed r : sound_row r -> holds r seed = true -> holds r (done_ ++ working) = true;
  li_closed r : sound_row r -> holds r (step done_) = true -> holds r (done_ ++ working) = true;
  li_reached r : r ∈ done_ ++ working -> reached r
}.

Definition fresh (result w : list (list Value)) : list (list Value) :=
  distinct_rows (List.filter (fun r => negb (existsb (fun s => row_eqb s r) result)) (step w)).

Lemma unique_app l1 l2 : rows_unique l1 -> rows_unique l2 -> (forall r, r ∈ l2 -> holds r l1 = false) -> rows_unique (l1 ++ l2).
Proof.
  induction l1 as [|x l1 IH]; intros U1 U2 D; [done|]. cbn. apply unique_cons in U1 as [H1 U1]. apply unique_cons. split.
  - intros s [Hs|Hs]%elem_of_app; [by apply H1|]. specialize (D s Hs). cbn in D. by apply orb_false_elim in D as [D _].
  - apply IH; [done..|]. intros r Hr. specialize (D r Hr). cbn in D. by apply orb_false_elim in D as [_ D].
Qed.

Lemma fresh_inv d w : loop_inv d w -> w <> [] -> loop_inv (d ++ w) (fresh (d ++ w) w).
Proof.
  intros [So Un Se Cl Re] _. pose proof (proj1 (Forall_app _ _ _) So) as [Sd Sw]. pose proof (lt_sound L w Sw) as Ss.
  set (cand := List.filter (fun r => negb (existsb (fun s => row_eqb s r) (d ++ w))) (step w)).
  assert (Forall sound_row cand) as Sc by (apply Forall_forall; intros r [Hr _]%list_elem_of_In%filter_In; rewrite Forall_forall in Ss; by apply Ss, list_elem_of_In).
  destruct (distinct_spec cand Sc) as (Uf & Sf & Hf).
  assert (forall r, r ∈ fresh (d ++ w) w -> r ∈ step w /\ holds r (d ++ w) = false) as Fr.
  { intros r Hr. apply (elem_of_sublist _ cand) in Hr; [|apply keep_first_sub]. apply list_elem_of_In, filter_In in Hr as [H1 H2].
    split; [by apply list_elem_of_In|]. by apply negb_true_iff in H2. }
  assert (Forall sound_row (d ++ w)) as Sdw by (by apply Forall_app_2).
  split.
  - by apply Forall_app_2.
  - apply unique_app; [done..|]. intros r Hr. by apply Fr.
  - intros r Sr Hr. by rewrite holds_app, Se.
  - intros r Sr Hr. rewrite (lt_linear L) in Hr by done. rewrite existsb_app in Hr. apply orb_prop in Hr as [Hr|Hr].
    + rewrite holds_app. rewrite (Cl r Sr); [done|]. by rewrite (lt_linear L).
    + rewrite <- (lt_linear L) in Hr by done. rewrite holds_app. destruct (holds r (d ++ w)) eqn:Eh; [done|]. cbn. unfold fresh. fold cand. rewrite Hf by done.
      destruct (holds_elem_of r (step w) Ss Hr) as (s & Hs & Ssn & Es). apply (holds_intro r s); [|done]. apply list_elem_of_In, filter_In. split; [by apply list_elem_of_In|].
      fold (holds s (d ++ w)). rewrite (holds_eq s r) by done. by rewrite Eh.
  - intros r [Hr|Hr]%elem_of_app; [by apply Re|]. destruct (Fr r Hr) as [Hs _].
    assert (sound_row r) as Sr by (rewrite Forall_forall in Ss; by apply Ss). pose proof (holds_elem r (step w) Sr Hs) as Hh.
    rewrite (lt_linear L) in Hh by done. apply existsb_exists in Hh as (x & Hx & Hh). apply list_elem_of_In in Hx.
    eapply (reached_step x); [done| |done]. apply Re, elem_of_app. by right.
Qed.

Lemma loop_done d : loop_inv d [] -> rows_unique d /\ Forall sound_row d /\ forall r, sound_row r -> holds r d = true <-> reached r.
Proof.
  intros [So Un Se Cl Re]. rewrite app_nil_r in So, Un. split_and!; [done..|]. intros r Sr. split.
  - intros (s & Hs & Ss & E)%holds_elem_of; [|done]. assert (reached s) as Rs by (apply Re; by rewrite app_nil_r).
    destruct Rs as [s _ H|x s _ Rx H].
    + apply reached_seed; [done|]. rewrite <- H. symmetry. by apply holds_eq.
    + apply (reached_step x); [done..|]. pose proof (reached_sound x Rx) as Sx. rewrite <- H. symmetry. apply holds_eq; try done. apply (lt_sound L). by repeat constructor.
  - intros R. induction R as [r Sr' H|x r Sr' Rx IH H]; [specialize (Se r Sr' H); by rewrite app_nil_r in Se|].
    pose proof (reached_sound x Rx) as Sx. destruct (holds_elem_of x d So (IH Sx)) as (y & Hy & Sy & E).
    rewrite <- (app_nil_r d). apply Cl; [done|]. rewrite (lt_linear L) by done. apply existsb_exists. exists y. split; [by apply list_elem_of_In|].
    by rewrite (lt_equal L y x).
Qed.

Lemma loop_returns u : Forall sound_row u -> (forall r, reached r -> holds r u = true) ->
  forall todo d w, loop_inv d w -> (length u < length (d ++ w) + todo)%nat ->
  exists result, recursive_loop exec name fields false term outer (d ++ w) w todo db = Val (db, Ok result) /\ loop_inv result [].
Proof.
  intros Hu Hb. induction todo as [|todo IH]; intros d w I Lt.
  - exfalso. destruct I as [So Un _ _ Re]. pose proof (unique_length u (d ++ w) Hu So Un) as Hl. assert (length (d ++ w) <= length u)%nat; [|lia].
    apply Hl. intros r Hr. by apply Hb, Re.
  - destruct w as [|x w']; [exists (d ++ []); rewrite app_nil_r in *; by destruct todo|]. set (w := x :: w') in *. cbn [recursive_loop].
    destruct (lt_exec L w) as (fs & tag & E). unfold w at 1. unfold exec_rows, mbind, M_bind. rewrite E. cbn [mret M_ret snd].
    fold (fresh (d ++ w) w). pose proof (fresh_inv d w I ltac:(done)) as I'.
    destruct (fresh (d ++ w) w) as [|y f] eqn:Ef.
    + exists (d ++ w). rewrite app_nil_r. by destruct todo.
    + rewrite <- Ef in *. apply IH; [done|]. rewrite (length_app (d ++ w)), Ef. cbn. lia.
Qed.
End recursive.

(** C13: a recursive CTE is the least fixpoint of its term.  If the recursive term maps
    the working table row by row, no row has a NaN, and the rows that can be reached from the base are
    among finitely many, fewer than the iteration limit, WITH RECURSIVE with UNION
    returns every reachable row exactly once, and no other. *)
Theorem recursive_cte_fixpoint {X} (exec : Select X -> CteMap -> M (X := X) ExecOutcome) name columns s dml op term ops outer db fs tag base fields step u :
  s_set_ops s = mk_set_op op false term :: ops ->
  exec (no_set_ops s) outer db = Val (db, Ok (Wire.Rows fs base tag)) ->
  apply_cte_column_aliases name columns (field_pair <$> fs) = Ok fields ->
  Forall sound_row base -> linear_term exec name fields term outer db step ->
  Forall sound_row u -> (forall r, reached step base r -> holds r u = true) -> (length u < MAX_RECURSIVE_ITERATIONS)%nat ->
  exists rows, materialize_recursive_cte exec (mk_cte name columns s dml true) outer db = Val (db, Ok (mk_cter fields rows))
  /\ rows_unique rows /\ forall r, sound_row r -> holds r rows = true <-> reached step base r.
Proof.
  intros Hs He Hf Hb L Hu Hbound Hlen. destruct (distinct_spec base Hb) as (Ud & Sd & Ed).
  assert (loop_inv step base [] (distinct_rows base)) as I.
  { split; cbn [app]; [done..| | |].
    - intros r Sr Hr. by rewrite Ed.
    - intros r Sr Hr. by rewrite (lt_linear _ _ _ _ _ _ _ L) in Hr.
    - intros r Hr. rewrite Forall_forall in Sd. specialize (Sd r Hr). apply reached_seed; [done|]. rewrite <- Ed by done. by apply holds_elem. }
  destruct (loop_returns exec name fields term outer db step base L u Hu Hbound MAX_RECURSIVE_ITERATIONS [] (distinct_rows base) I) as (rows & Er & Ir).
  { unfold app. lia. }
  cbn [app] in Er. exists rows. split.
  - unfold materialize_recursive_cte. rewrite Hs. unfold exec_rows, mbind, M_bind. rewrite He. cbn [mret M_ret fst snd]. unfold now, look. rewrite Hf. by rewrite Er.
  - destruct (loop_done exec name fields term outer db step base L Hb rows Ir) as (U & _ & H). done.
Qed.

(** counting up to three *)
Definition count_step (w : list (list Value)) : list (list Value) :=
  flat_map (fun r => match r with [Int i] => if i <? 3 then [[Int (i + 1)]] else [] | _ => [] end) w.
Definition count_exec (s : Select unit) (ctes : CteMap) : M (X := unit) ExecOutcome := fun db =>
  Val (db, Ok (Wire.Rows [mk_field (lit "n") TInt8] (match ctes !! lit "t" with Some c => count_step (cr_rows c) | None => [ints [1]] end) [])).
Definition count_query : Select unit := mk_select [] false [] [] None None [] [] None [] None None [] [mk_set_op Union false select_default].

Lemma count_linear : linear_term count_exec (lit "t") [(lit "n", TInt8)] select_default ∅ db_new count_step.
Proof.
  split.
  - intros w. exists [mk_field (lit "n") TInt8], []. unfold count_exec. by do 4 f_equal.
  - intros w Hw. apply Forall_forall. intros r Hr. unfold count_step in Hr. apply list_elem_of_In, in_flat_map in Hr as (x & _ & Hr).
    destruct x as [|[| | | | |] [|]]; cbn in Hr; try done. destruct (_ <? 3); [|done]. destruct Hr as [<-|[]]. repeat constructor.
  - intros w r Sr Sw. unfold holds. clear Sw. induction w as [|x w IH]; [done|]. cbn [count_step flat_map existsb]. rewrite existsb_app, app_nil_r. f_equal. exact IH.
  - intros x y r _ _ _ E. destruct x as [|[| | | | |] [|]], y as [|[| | | | |] [|]]; cbn in E; try done; rewrite ?andb_false_r in E; try done.
    rewrite andb_true_r in E. apply Z.eqb_eq in E as ->. done.
Qed.
Lemma recursive_cte_fixpoint_witness : exists rows,
  materialize_recursive_cte count_exec (mk_cte (lit "t") [] count_query None true) ∅ db_new = Val (db_new, Ok (mk_cter [(lit "n", TInt8)] rows))
  /\ rows_unique rows.
Proof.
  destruct (recursive_cte_fixpoint count_exec (lit "t") [] count_query None Union select_default [] ∅ db_new [mk_field (lit "n") TInt8] [] [ints [1]] [(lit "n", TInt8)] count_step
    [ints [1]; ints [2]; ints [3]]) as (rows & E & U & _).
  - done.
  - done.
  - done.
  - repeat constructor.
  - exact count_linear.
  - repeat constructor.
  - intros r R. induction R as [r Sr H|x r Sr Rx IH H].
    + cbn -[Z.eqb] in H. destruct r as [|v [|]]; try done; cbn -[Z.eqb] in H; [|by destruct v; rewrite ?andb_false_r in H]. destruct v; try done. rewrite andb_true_r, orb_false_r in H. apply Z.eqb_eq in H as <-. done.
    + destruct x as [|v [|]]; try done; cbn -[Z.eqb] in IH; [|by destruct v; rewrite ?andb_false_r in IH]. destruct v; try done. rewrite !andb_true_r, orb_false_r in IH.
      assert (i = 1 \/ i = 2 \/ i = 3) as Hi by (destruct (Z.eqb_spec 1 i), (Z.eqb_spec 2 i), (Z.eqb_spec 3 i); subst; try done; auto).
      destruct r as [|v [|]]; [by destruct Hi as [->|[->| ->]]| |by destruct Hi as [->|[->| ->]], v; cbn -[Z.eqb] in H; rewrite ?andb_false_r in H].
      destruct Hi as [->|[->| ->]], v; cbn -[Z.eqb] in H; try done; rewrite andb_true_r, orb_false_r in H; apply Z.eqb_eq in H as <-; done.
  - apply Nat.ltb_lt. vm_compute. reflexivity.
  - by exists rows.
Defined.
