(* ===== verification/JoinSpec.v ===== *)
(** Joins compute the relational join: the nested loop yields every pair of rows the
    ON predicate accepts and the unmatched rows of the outer sides padded with NULLs;
    probing an index instead of scanning the inner table yields the same rows. *)

From stdpp Require Import gmap.
From S2P Require Import Prelude Utf8 Numeric Types Float BTree Index Wire Hba FloatOps Datetime Json Containers Pattern LockStmt Ast Eval Storage Database Planner Rowset Aggregate Window Source Join.

#[local] Open Scope Z_scope.

Section spec.
Context (p : list Value -> list Value -> bool).

(** the rows of one left row *)
Definition left_matches (kind : JoinKind) (right_width : nat) (right_rows : list (list Value)) (l : list Value) : list (list Value) :=
  match List.filter (p l) right_rows with
  | [] => if keeps_left kind then [l ++ nulls right_width] else []
  | rs => (fun r => l ++ r) <$> rs
  end.
(** the relational join of [rows] and [right_rows] on [p] *)
Definition join_spec (kind : JoinKind) (left_width right_width : nat) (right_rows rows : list (list Value)) : list (list Value) :=
  flat_map (left_matches kind right_width right_rows) rows
  ++ (if keeps_right kind then (fun r => nulls left_width ++ r) <$> List.filter (fun r => negb (existsb (fun l => p l r) rows)) right_rows else []).
End spec.

Definition row_at (right_rows : list (list Value)) (ri : Z) : list Value := default [] (zget right_rows ri).
Lemma row_at_all right_rows : row_at right_rows <$> all_positions right_rows = right_rows.
Proof.
  unfold all_positions. rewrite <- list_fmap_compose. transitivity ((fun i => default [] (right_rows !! i)) <$> seq 0 (length right_rows)); [|apply fmap_positions].
  apply list_fmap_ext. intros i x _. unfold compose, row_at. by rewrite zget_nat.
Qed.
Lemma all_positions_spec {A} (l : list A) ri : ri ∈ all_positions l <-> is_Some (zget l ri).
Proof.
  unfold all_positions. rewrite list_elem_of_fmap. split.
  - intros (i & -> & Hi%elem_of_seq). rewrite zget_nat. apply lookup_lt_is_Some. lia.
  - intros [x Hx]. exists (Z.to_nat ri). unfold zget in Hx. destruct (Z.ltb_spec ri 0); [done|]. split; [lia|]. apply elem_of_seq. apply lookup_lt_Some in Hx. lia.
Qed.
Lemma all_positions_NoDup {A} (l : list A) : NoDup (all_positions l).
Proof. apply NoDup_fmap_2; [|apply NoDup_seq]. intros i j H. lia. Qed.

Section loops.
Context (lower : str -> str) (call : str -> list Value -> res str Value) {X : Type} (on : option (Expr (Select X))) (names : list str) (right_rows : list (list Value)).
Context (p : list Value -> list Value -> bool).

Definition accepts (l : list Value) : Prop := forall r, r ∈ right_rows -> on_true lower call on names (l ++ r) = Val (Ok (p l r)).
Definition valid_positions (cs : list Z) : Prop := Forall (fun ri => is_Some (zget right_rows ri)) cs.
Definition hits (l : list Value) (cs : list Z) : list Z := List.filter (fun ri => p l (row_at right_rows ri)) cs.

Lemma probe_loop_ok l cs : accepts l -> valid_positions cs ->
  probe_loop lower call on names right_rows l cs = Val (Ok ((fun ri => (ri, l ++ row_at right_rows ri)) <$> hits l cs)).
Proof.
  intros A V. induction V as [|ri cs [r Hr] _ IH]; [done|]. cbn [probe_loop]. rewrite Hr. cbn [expect lift mbind res_bind].
  assert (row_at right_rows ri = r) as Er by (unfold row_at; by rewrite Hr). rewrite A.
  2: { unfold zget in Hr. destruct (ri <? 0); [done|]. by eapply list_elem_of_lookup_2. }
  cbn [mbind res_bind]. rewrite IH. cbn [mbind res_bind]. unfold hits. cbn [List.filter]. rewrite Er. destruct (p l r); [|done]. cbn. by rewrite Er.
Qed.

Context (kind : JoinKind) (right_width : nat) (cands : list Value -> run (list Z)) (cs : list Value -> list Z).

Definition one_left (l : list Value) : list (list Value) :=
  ((fun ri => l ++ row_at right_rows ri) <$> hits l (cs l))
  ++ match hits l (cs l) with [] => if keeps_left kind then [l ++ nulls right_width] else [] | _ => [] end.

Lemma left_loop_ok rows : (forall l, l ∈ rows -> accepts l /\ cands l = Val (cs l) /\ valid_positions (cs l)) ->
  left_loop lower call kind on names right_rows right_width cands rows = Val (Ok (flat_map one_left rows, flat_map (fun l => hits l (cs l)) rows)).
Proof.
  induction rows as [|l rows IH]; intros H; [done|]. destruct (H l ltac:(left)) as (A & C & V). cbn [left_loop]. rewrite C. cbn [lift mbind res_bind].
  rewrite (probe_loop_ok l (cs l) A V). cbn [mbind res_bind]. rewrite IH by (intros l' Hl'; apply H; by right). cbn [mbind res_bind fst snd flat_map].
  unfold one_left at 2. rewrite <- !list_fmap_compose. destruct (hits l (cs l)); cbn; [|by rewrite app_nil_r, list_fmap_id]. done.
Qed.
End loops.

Lemma hits_rows right_rows p l : row_at right_rows <$> hits right_rows p l (all_positions right_rows) = List.filter (p l) right_rows.
Proof.
  transitivity (List.filter (p l) (row_at right_rows <$> all_positions right_rows)); [unfold hits; by rewrite filter_fmap|by rewrite row_at_all].
Qed.
(** the rows at distinct positions that include every accepted row *)
Lemma positions_filter (p : list Value -> bool) rows ps : NoDup ps -> valid_positions rows ps ->
  (forall i, is_Some (zget rows i) -> p (row_at rows i) = true -> i ∈ ps) -> row_at rows <$> List.filter (fun i => p (row_at rows i)) ps ≡ₚ List.filter p rows.
Proof.
  intros ND V C. transitivity (List.filter p (row_at rows <$> all_positions rows)); [|by rewrite row_at_all]. rewrite filter_fmap. apply Permutation_map, NoDup_Permutation.
  - apply NoDup_ListNoDup, List.NoDup_filter. by apply NoDup_ListNoDup.
  - apply NoDup_ListNoDup, List.NoDup_filter, NoDup_ListNoDup, all_positions_NoDup.
  - intros i. rewrite !list_elem_of_In, !filter_In, <- !list_elem_of_In, all_positions_spec. unfold valid_positions in V. rewrite Forall_forall in V. naive_solver.
Qed.

Lemma one_left_ext right_rows p kind w l cs : row_at right_rows <$> hits right_rows p l (cs l) ≡ₚ List.filter (p l) right_rows ->
  one_left right_rows p kind w cs l ≡ₚ left_matches p kind w right_rows l.
Proof.
  intros P. unfold one_left, left_matches. destruct (hits right_rows p l (cs l)) as [|ri hs] eqn:E.
  - cbn in P. symmetry in P. apply Permutation_nil_r in P as ->. done.
  - destruct (List.filter (p l) right_rows) as [|r rs] eqn:Er; [by apply Permutation_nil_r in P|]. rewrite app_nil_r.
    rewrite <- P, <- list_fmap_compose. done.
Qed.
Lemma one_left_scan right_rows p kind w l : one_left right_rows p kind w (fun _ => all_positions right_rows) l = left_matches p kind w right_rows l.
Proof.
  unfold one_left, left_matches. rewrite <- hits_rows. destruct (hits right_rows p l (all_positions right_rows)) as [|ri hs]; [done|]. rewrite app_nil_r.
  cbn. f_equal. by rewrite <- list_fmap_compose.
Qed.
Lemma imap_positions {B} (f : Z -> list Value -> B) right_rows : imap (fun ri r => f (Z.of_nat ri) r) right_rows = (fun ri => f ri (row_at right_rows ri)) <$> all_positions right_rows.
Proof.
  apply list_eq. intros i. rewrite list_lookup_imap. unfold all_positions. rewrite !list_lookup_fmap. destruct (right_rows !! i) as [r|] eqn:E.
  - rewrite lookup_seq_lt by (by eapply lookup_lt_Some). cbn. unfold row_at. by rewrite zget_nat, E.
  - apply lookup_ge_None in E. by rewrite lookup_seq_ge by lia.
Qed.

Section exact.
Context (lower : str -> str) (call : str -> list Value -> res str Value) {X : Type} (on : option (Expr (Select X))) (left_names right_names : list str).
Context (right_rows rows : list (list Value)) (p : list Value -> list Value -> bool) (kind : JoinKind).
Context (Hacc : forall l, l ∈ rows -> accepts lower call on (left_names ++ right_names) right_rows p l).

(** The nested loop is the relational join.  When the ON predicate evaluates to [p]
    on every pair of rows, the loop yields for each left row its pairs with the right
    rows [p] accepts, in order, or the row padded with NULLs in a LEFT or FULL join;
    and at the end of a RIGHT or FULL join the right rows nothing matched. *)
Theorem join_exact : join_rows lower call kind on left_names right_names right_rows (fun _ => Val (all_positions right_rows)) rows
  = Val (Ok (join_spec p kind (length left_names) (length right_names) right_rows rows)).
Proof.
  unfold join_rows. rewrite (left_loop_ok lower call on _ right_rows p kind (length right_names) _ (fun _ => all_positions right_rows)).
  2: { intros l Hl. split_and!; [by apply Hacc|done|]. apply Forall_forall. intros ri. apply all_positions_spec. }
  cbn [mbind res_bind fst snd]. unfold join_spec, mret, res_ret. do 3 f_equal; [apply flat_map_ext; intros l; apply one_left_scan|].
  destruct (keeps_right kind); [|done]. rewrite (imap_positions (fun ri r => (ri, nulls (length left_names) ++ r))), filter_fmap. cbn [fst].
  rewrite <- list_fmap_compose. set (q := fun r => negb (existsb (fun l => p l r) rows)).
  replace (List.filter q right_rows) with (List.filter q (row_at right_rows <$> all_positions right_rows)) by (by rewrite row_at_all).
  rewrite filter_fmap, <- list_fmap_compose. unfold q. f_equal.
  apply filter_ext_elem. intros ri Hri. f_equal. apply eq_true_iff_eq. rewrite bool_decide_eq_true, existsb_exists. setoid_rewrite <- list_elem_of_In.
  rewrite list_elem_of_In, in_flat_map. setoid_rewrite <- list_elem_of_In. unfold hits. setoid_rewrite list_elem_of_In at 2. setoid_rewrite filter_In. setoid_rewrite <- list_elem_of_In.
  split; [intros (l & Hl & _ & Hp); by exists l|intros (l & Hl & Hp); by exists l].
Qed.

(** Probing is scanning.  In an INNER or LEFT join, candidates that are positions of
    the right rows, without repetition, and include every row [p] accepts, give the
    rows of the full scan, up to the order of the matches of a left row. *)
Lemma probe_exact cands cs : keeps_right kind = false ->
  (forall l, l ∈ rows -> cands l = Val (cs l) /\ NoDup (cs l) /\ valid_positions right_rows (cs l)
     /\ forall ri, is_Some (zget right_rows ri) -> p l (row_at right_rows ri) = true -> ri ∈ cs l) ->
  exists out, join_rows lower call kind on left_names right_names right_rows cands rows = Val (Ok out)
  /\ out ≡ₚ join_spec p kind (length left_names) (length right_names) right_rows rows.
Proof.
  intros Hk Hc. exists (flat_map (one_left right_rows p kind (length right_names) cs) rows). split.
  - unfold join_rows. rewrite (left_loop_ok lower call on _ right_rows p kind (length right_names) cands cs).
    + cbn. rewrite Hk. cbn. by rewrite app_nil_r.
    + intros l Hl. destruct (Hc l Hl) as (C & _ & V & _). split_and!; [by apply Hacc|done..].
  - unfold join_spec. rewrite Hk, app_nil_r. clear Hacc. induction rows as [|l ls IH]; [done|]. cbn. f_equiv; [|apply IH; intros l' Hl'; apply Hc; by right].
    destruct (Hc l ltac:(left)) as (_ & ND & V & C). apply one_left_ext. by apply positions_filter.
Qed.
End exact.

(** * The index probe *)

Section indexed.
Context (lower : str -> str) (call : str -> list Value -> res str Value) {X : Type}.
Abbreviation E := (Expr (Select X)).
Context (db : Database E (Select X)) (j : Join X) (left_names right_names : list str) (rows : list (list Value)) (p : list Value -> list Value -> bool).
Context (kinds : str -> nat -> Kind) (t : Table E) (L : list (RowId * list Value)) (R : table_rep (table_eval lower call) kinds t L).
Context (Ht : tables db !! tr_name (j_table j) = Some t).
Abbreviation ev := (eval_expr lower call (Q := Select X)).

(** the column a reference resolves to *)
Definition column_ref (names : list str) (e : E) : result str nat :=
  match e with
  | EColumn name => resolve_column names None name
  | EQualified q name => resolve_column names (Some q) name
  | _ => Err []
  end.
Lemma column_ref_eval names row e i v : column_ref names e = Ok i -> ev names row e = Val (Ok v) -> row !! i = Some v.
Proof.
  destruct e; cbn; try done; intros ->; cbn; destruct (row !! i); cbn; by intros [= ->].
Qed.

(** the sides of ON resolve in the joined columns as the probe takes them *)
Definition probe_resolves (probe : IndexedJoinProbe) : Prop :=
  forall a b, j_on j = Some (EBinary OpEq a b) \/ j_on j = Some (EBinary OpEq b a) -> try_dir j t left_names a b = Some probe ->
  column_ref (left_names ++ right_names) a = Ok (length left_names + Z.to_nat (pr_right_col probe))%nat
  /\ column_ref (left_names ++ right_names) b = Ok (pr_left_col probe).

(** a pair that ON accepts has equal key columns *)
Lemma on_equal a b la rb names l r : column_ref names a = Ok (length l + rb)%nat -> column_ref names b = Ok la -> (la < length l)%nat ->
  on_true lower call (Some (EBinary OpEq a b)) names (l ++ r) = Val (Ok true) \/ on_true lower call (Some (EBinary OpEq b a)) names (l ++ r) = Val (Ok true) ->
  exists key x, l !! la = Some key /\ r !! rb = Some x /\ is_null key = false /\ is_null x = false
  /\ forall k, kind_ok k key -> kind_ok k x -> cmp_value key x = Eq.
Proof.
  intros Ha Hb Ll H.
  assert (forall e1 e2, on_true lower call (Some (EBinary OpEq e1 e2)) names (l ++ r) = Val (Ok true) -> exists v1 v2, ev names (l ++ r) e1 = Val (Ok v1)
    /\ ev names (l ++ r) e2 = Val (Ok v2) /\ is_null v1 = false /\ is_null v2 = false /\ compare_values v1 v2 = Some Eq) as Cmp.
  { intros e1 e2. cbn [on_true eval_expr]. destruct (ev names (l ++ r) e1) as [[v1|]|]; try done. cbn [mbind res_bind].
    destruct (ev names (l ++ r) e2) as [[v2|]|]; try done. cbn [mbind res_bind]. destruct (eval_binary lower OpEq v1 v2) as [[w|]|] eqn:Ew; try done.
    intros [= Hw]. destruct (compare_true lower OpEq v1 v2 w ltac:(done) Ew Hw) as (N1 & N2 & c & Ec & Ho). exists v1, v2. split_and!; try done. by destruct c. }
  assert (forall k v, column_ref names k = Ok (length l + rb)%nat -> ev names (l ++ r) k = Val (Ok v) -> r !! rb = Some v) as Right.
  { intros k v Hk Hv. apply (column_ref_eval _ _ _ _ _ Hk) in Hv. rewrite lookup_app_r in Hv by lia. by replace (length l + rb - length l)%nat with rb in Hv by lia. }
  assert (forall k v, column_ref names k = Ok la -> ev names (l ++ r) k = Val (Ok v) -> l !! la = Some v) as Left.
  { intros k v Hk Hv. apply (column_ref_eval _ _ _ _ _ Hk) in Hv. by rewrite lookup_app_l in Hv. }
  destruct H as [H|H]; destruct (Cmp _ _ H) as (v1 & v2 & E1 & E2 & N1 & N2 & C).
  - exists v2, v1. split_and!; eauto. intros k K2 K1. apply (compare_same_kind k) in C; [|done..]. by rewrite (cmp_flip v1 v2 k), C.
  - exists v1, v2. split_and!; eauto. intros k K1 K2. by apply (compare_same_kind k) in C.
Qed.

Lemma try_dir_spec a b probe : try_dir j t left_names a b = Some probe ->
  pr_table probe = tr_name (j_table j) /\ 0 <= pr_right_col probe /\ is_Some (index_on t (pr_right_col probe)) /\ (pr_left_col probe < length left_names)%nat.
Proof.
  unfold try_dir. destruct (column_ref_of_table a (qualifier (j_table j)) t) as [rc|] eqn:Ec; [|done]. cbn. destruct (index_on t rc) as [idx|] eqn:Ei; [|done].
  cbn. destruct (resolve_left_column b left_names) as [lc|] eqn:El; [|done]. intros [= <-]. cbn. split_and!; [done| |by exists idx|].
  - assert (forall name, column_index t name = Some rc -> 0 <= rc) as Ci by (intros name H; unfold column_index in H; apply position_spec in H as (x & _ & _ & ?); lia).
    destruct a; cbn in Ec; try done; [by eapply Ci|]. destruct (str_eqb _ _); [by eapply Ci|done].
  - assert (exists q name, resolve_column left_names q name = Ok lc) as (q & name & H).
    { destruct b; cbn in El; try done; destruct (resolve_column left_names _ _) eqn:Er; try done; injection El as <-; eauto. }
    apply resolve_found in H as (c & H & _). by eapply lookup_lt_Some.
Qed.

Lemma probe_spec probe : indexed_join_inner db j left_names = Some probe ->
  keeps_right (j_kind j) = false /\ exists a b, (j_on j = Some (EBinary OpEq a b) \/ j_on j = Some (EBinary OpEq b a)) /\ try_dir j t left_names a b = Some probe.
Proof.
  unfold indexed_join_inner. destruct (j_kind j); try done; destruct (j_on j) as [[]|]; try done; destruct op; try done; rewrite Ht; cbn [mbind option_bind].
  all: destruct (try_dir j t left_names l r) as [q|] eqn:E1; [intros [= ->]|intros E2]; (split; [done|]); eauto.
Qed.

Definition probed (probe : IndexedJoinProbe) (l : list Value) : list Z :=
  match l !! pr_left_col probe with Some key => if is_null key then [] else default [] (index_eq t (pr_right_col probe) key) | None => [] end.

Lemma index_eq_some col v : is_Some (index_on t col) -> exists ps, index_eq t col v = Some ps.
Proof.
  intros [idx H]. apply choose_spec in H as [Hi Hp]. apply andb_prop in Hp as [Hp _]. destruct (choose_some _ _ _ Hi Hp) as [idx' H']. unfold index_eq, eq_index_on. rewrite H'. by eexists.
Qed.

(** C12: an indexed join is the relational join.  When the planner replaces the scan of
    the inner table by probes of an index, the sides of ON resolve to the columns it
    uses and the keys have the kind of the indexed column, the loop yields the rows
    of the relational join. *)
Theorem indexed_join_exact probe : indexed_join_inner db j left_names = Some probe -> probe_resolves probe ->
  (forall l, l ∈ rows -> accepts lower call (j_on j) (left_names ++ right_names) (L.*2) p l) -> Forall (fun l => length l = length left_names) rows ->
  (forall l key idx, l ∈ rows -> l !! pr_left_col probe = Some key -> idx ∈ indexes t -> plain_on (pr_right_col probe) idx = true -> kind_ok (kinds (idx_name idx) 0%nat) key) ->
  exists out, join_rows lower call (j_kind j) (j_on j) left_names right_names (L.*2) (join_candidates db (Some probe) (L.*2)) rows = Val (Ok out)
  /\ out ≡ₚ join_spec p (j_kind j) (length left_names) (length right_names) (L.*2) rows.
Proof.
  intros Hi Hres Hacc Hlen Hkind. destruct (probe_spec probe Hi) as (Hk & a & b & Hon & Hd). destruct (try_dir_spec a b probe Hd) as (Et & Hrc & Hidx & Hlc).
  destruct (Hres a b Hon Hd) as [Ra Rb]. apply (probe_exact lower call (j_on j) left_names right_names (L.*2) rows p (j_kind j) Hacc _ (probed probe) Hk).
  rewrite Forall_forall in Hlen. intros l Hl. specialize (Hlen l Hl). destruct (lookup_lt_is_Some_2 l (pr_left_col probe) ltac:(lia)) as [key Hkey].
  assert (join_candidates db (Some probe) (L.*2) l = Val (probed probe l)) as ->.
  { unfold join_candidates, candidates_for, probed. rewrite Hkey. cbn. destruct (is_null key); [done|]. by rewrite Et, Ht. }
  destruct (index_eq_some (pr_right_col probe) key Hidx) as [ps Hps]. unfold probed. rewrite Hkey, Hps. cbn.
  destruct (is_null key) eqn:Nk.
  - split_and!; [done|constructor|constructor|]. intros ri [r Hr] Hp. exfalso.
    assert (r ∈ L.*2) as Hin by (apply zget_Some_nat in Hr as (n & _ & Hr); by eapply list_elem_of_lookup_2).
    specialize (Hacc l Hl r Hin). unfold row_at in Hp. rewrite Hr in Hp. cbn in Hp. rewrite Hp in Hacc.
    destruct (on_equal a b (pr_left_col probe) (Z.to_nat (pr_right_col probe)) (left_names ++ right_names) l r) as (key' & x & Ek & _ & Nk' & _); try done; [by rewrite Hlen|by rewrite Hlen| |congruence].
    by destruct Hon as [E|E]; rewrite <- E; [left|right].
  - destruct (index_eq_ok (table_eval lower call) kinds t L (pr_right_col probe) key ps R Hps Nk) as (ND & V & C & _); [intros idx Hin Hpl; by eapply Hkind|].
    split_and!; [done..| |].
    + apply Forall_forall. intros ri Hri. destruct (V ri Hri) as (id & row & Hz). apply zget_Some_nat in Hz as (n & -> & Hz). rewrite zget_nat, list_lookup_fmap, Hz. by eexists.
    + intros ri [r Hr] Hp. pose proof Hr as Hr'. apply zget_Some_nat in Hr' as (n & -> & Hr'). rewrite list_lookup_fmap in Hr'. destruct (L !! n) as [[id r']|] eqn:El; [|done].
      cbn in Hr'. injection Hr' as ->. assert (r ∈ L.*2) as Hin by (apply list_elem_of_fmap; exists (id, r); split; [done|by eapply list_elem_of_lookup_2]).
      specialize (Hacc l Hl r Hin). unfold row_at in Hp. rewrite Hr in Hp. cbn in Hp. rewrite Hp in Hacc.
      destruct (on_equal a b (pr_left_col probe) (Z.to_nat (pr_right_col probe)) (left_names ++ right_names) l r) as (key' & x & Ek & Ex & _ & Nx & Hcmp); try done; [by rewrite Hlen|by rewrite Hlen|by destruct Hon as [E|E]; rewrite <- E; [left|right]|].
      assert (key' = key) as -> by congruence. assert (zget L (Z.of_nat n) = Some (id, r)) as Hz by (by rewrite zget_nat).
      assert (zget r (pr_right_col probe) = Some x) as Hx by (unfold zget; destruct (Z.ltb_spec (pr_right_col probe) 0); [lia|done]).
      apply (C _ id r x Hz Hx). destruct Hidx as [idx Hidx]. apply choose_spec in Hidx as [Hin' Hpl]. apply andb_prop in Hpl as [Hpl _].
      apply (Hcmp (kinds (idx_name idx) 0%nat)); [by eapply Hkind|]. by eapply (plain_kind lower call kinds t L R).
Qed.
End indexed.

(** * Examples *)

Definition ex_on : Expr (Select unit) := EBinary OpEq (EQualified (lit "u") (lit "k")) (EQualified (lit "t") (lit "a")).
Definition ex_eq (l r : list Value) : bool := match l, r with [Int x], [Int y; _] => x =? y | _, _ => false end.
Definition ex_right : list (list Value) := [[Int 7; Text (lit "y")]; [Int 8; Text (lit "z")]].
Lemma ex_accepts l r : l ∈ [ints [5]; ints [7]] -> r ∈ ex_right ->
  on_true id no_call (Some ex_on) [lit "u.k"; lit "t.a"; lit "t.b"] (l ++ r) = Val (Ok (ex_eq l r)).
Proof.
  intros Hl Hr. repeat (apply elem_of_cons in Hl as [->|Hl]; [repeat (apply elem_of_cons in Hr as [->|Hr]; [vm_compute; reflexivity|]); by apply elem_of_nil in Hr|]).
  by apply elem_of_nil in Hl.
Qed.

Lemma join_exact_witness :
  join_rows id no_call FullJoin (Some ex_on) [lit "u.k"] [lit "t.a"; lit "t.b"] ex_right (fun _ => Val (all_positions ex_right)) [ints [5]; ints [7]]
  = Val (Ok [[Int 5; Null; Null]; [Int 7; Int 7; Text (lit "y")]; [Null; Int 8; Text (lit "z")]]).
Proof. rewrite (join_exact id no_call (Some ex_on) [lit "u.k"] [lit "t.a"; lit "t.b"] ex_right [ints [5]; ints [7]] ex_eq FullJoin); [reflexivity|]. intros l Hl r Hr. by apply ex_accepts. Defined.

(** a table with an index, over the expressions of statements *)
Definition ex_eval := table_eval id no_call (Q := Select unit).
Definition ex_columns : list (Column (Expr (Select unit))) := [column_basic (lit "a") TInt8 false; column_basic (lit "b") TText false].
Definition ex_index : Index.Index (Expr (Select unit)) := index_new (lit "i") 0 false.
Definition ex_base : Table (Expr (Select unit)) := with_indexes (table_new (lit "t") ex_columns) [ex_index].
Definition ex_table : Table (Expr (Select unit)) := match push_row ex_eval ex_base [Int 7; Text (lit "y")] with Val t => t | Panic => ex_base end.

Lemma ex_table_rep : table_rep ex_eval int_kinds ex_table [(0, [Int 7; Text (lit "y")])].
Proof.
  assert (table_rep ex_eval int_kinds ex_base []) as R.
  { destruct (table_new_ok ex_eval int_kinds (lit "t") ex_columns) as [R1 R2 R3 R4 R5 R6 R7 R8]. split; try done.
    constructor; [|constructor]. unfold idx_inv. replace (omap _ _) with (∅ : gmap RowId (list Value)) by (symmetry; apply omap_empty). apply tracks_empty. }
  destruct (push_ok ex_eval int_kinds ex_base [] [Int 7; Text (lit "y")] R) as (t1 & E1 & R1 & _).
  { split_and!; [by repeat constructor| |vm_compute; discriminate]. apply Forall_cons. split; [|constructor]. intros _. exists (Some [Int 7]). split; [done|].
    intros k [= <-] [|[]] x [= <-]. done. }
  unfold ex_table. rewrite E1. exact R1.
Qed.

Definition ex_ref (name : str) : TableRef unit := mk_tref None name [] None None false false [] false.
Definition ex_join : Join unit := mk_join Inner (ex_ref (lit "t")) (Some ex_on).
Definition ex_db : Database (Expr (Select unit)) (Select unit) := set_tables db_new {[ lit "t" := ex_table ]}.
Definition ex_probe : IndexedJoinProbe := mk_probe (lit "t") 0 0.

Lemma indexed_join_exact_witness : exists out,
  join_rows id no_call Inner (Some ex_on) [lit "u.k"] [lit "t.a"; lit "t.b"] [[Int 7; Text (lit "y")]] (join_candidates ex_db (Some ex_probe) [[Int 7; Text (lit "y")]]) [ints [5]; ints [7]] = Val (Ok out)
  /\ out ≡ₚ [[Int 7; Int 7; Text (lit "y")]].
Proof.
  apply (indexed_join_exact id no_call ex_db ex_join [lit "u.k"] [lit "t.a"; lit "t.b"] [ints [5]; ints [7]] ex_eq int_kinds ex_table [(0, [Int 7; Text (lit "y")])] ex_table_rep eq_refl ex_probe).
  - vm_compute. reflexivity.
  - intros a b Hon Hd. assert ((a = EQualified (lit "t") (lit "a") /\ b = EQualified (lit "u") (lit "k")) \/ (a = EQualified (lit "u") (lit "k") /\ b = EQualified (lit "t") (lit "a"))) as Hab
      by (destruct Hon as [[= <- <-]|[= <- <-]]; auto).
    destruct Hab as [[-> ->]|[-> ->]]; [vm_compute; split; reflexivity|vm_compute in Hd; discriminate].
  - intros l Hl r Hr. apply ex_accepts; [done|]. apply list_elem_of_singleton in Hr as ->. left.
  - repeat constructor.
  - intros l key idx Hl Hk _ _. repeat (apply elem_of_cons in Hl as [->|Hl]; [injection Hk as <-; reflexivity|]). by apply elem_of_nil in Hl.
Defined.
