(* ===== verification/SelectSpec.v ===== *)
(** A query over one table against its relational meaning: the accepted rows,
    ordered, cut and projected, however the planner finds them. *)

From stdpp Require Import gmap.
From S2P Require Import Prelude Utf8 Numeric Types Float BTree Index Wire Hba FloatOps Datetime Json Containers Pattern LockStmt Ast Eval Storage Database Planner Rowset Aggregate Window Source Join Query QueryLoops JoinSpec.

#[local] Open Scope Z_scope.

(** * The monad *)

Section monad.
Context {X : Type}.
Abbreviation DB := (Database (Expr (Select X)) (Select X)).
#[local] Existing Instance M_bind.
#[local] Existing Instance M_ret.

Lemma M_step {A B} (m : M (X := X) A) (f : A -> M B) db db' a : m db = Val (db', Ok a) -> (m ≫= f) db = f a db'.
Proof. unfold mbind, M_bind. by intros ->. Qed.

(** [each] on a total function *)
Lemma each_ok {A B} (f : A -> M (X := X) B) (g : A -> B) l db : (forall x, x ∈ l -> f x db = Val (db, Ok (g x))) -> each f l db = Val (db, Ok (g <$> l)).
Proof.
  induction l as [|x l IH]; intros H; [done|]. cbn [each]. rewrite (M_step _ _ _ _ _ (H x ltac:(left))). rewrite (M_step _ _ db db (g <$> l)); [done|].
  apply IH. intros y Hy. apply H. by right.
Qed.
Lemma each_same {A} (f : A -> M (X := X) A) l db : (forall x, x ∈ l -> f x db = Val (db, Ok x)) -> each f l db = Val (db, Ok l).
Proof. intros H. rewrite (each_ok f (fun x => x) l db H). by rewrite list_fmap_id. Qed.
Lemma each_opt_same {A} (f : A -> M (X := X) A) o db : (forall x, o = Some x -> f x db = Val (db, Ok x)) -> each_opt f o db = Val (db, Ok o).
Proof. destruct o as [x|]; intros H; [|done]. cbn. by rewrite (M_step _ _ _ _ _ (H x eq_refl)). Qed.

(** the same under a test that holds of no element *)
Lemma each_none {A} (any : A -> bool) (f : A -> M (X := X) A) l db :
  Forall (fun x => any x = false -> f x db = Val (db, Ok x)) l -> existsb any l = false -> each f l db = Val (db, Ok l).
Proof.
  rewrite Forall_forall. intros F N. apply each_same. intros x Hx. apply F; [done|]. apply not_true_is_false. intros T.
  assert (existsb any l = true); [|congruence]. apply existsb_exists. exists x. by rewrite <- list_elem_of_In.
Qed.
Lemma each_opt_none {A} (any : A -> bool) (f : A -> M (X := X) A) o db :
  opt_all (fun x => any x = false -> f x db = Val (db, Ok x)) o -> opt_any any o = false -> each_opt f o db = Val (db, Ok o).
Proof. intros F N. apply each_opt_same. intros x ->. by apply F. Qed.

(** an expression without subqueries is not rewritten *)
Lemma rewrite_plain on_scalar on_exists on_in (e : Expr (Select X)) db :
  expr_contains_subquery e = false -> rewrite_subqueries on_scalar on_exists on_in e db = Val (db, Ok e).
Proof.
  unfold expr_contains_subquery. induction e using Expr_induct; try done; cbn [expr_any is_subquery orb]; intros F; cbn [rewrite_subqueries];
    repeat match goal with H : _ || _ = false |- _ => apply orb_false_elim in H as [? ?] end;
    repeat match goal with H : ?f = false -> _, G : ?f = false |- _ => specialize (H G) end;
    repeat match goal with
    | H : Forall _ ?es, G : existsb _ ?es = false |- context [each _ ?es] => erewrite M_step by (apply (each_none _ _ _ _ H G)); clear H
    | H : opt_all _ ?o, G : match ?o with _ => _ end = false |- context [each_opt _ ?o] => erewrite M_step by (apply (each_opt_none _ _ _ _ H G)); clear H
    | H : rewrite_subqueries _ _ _ ?e _ = _ |- context [rewrite_subqueries _ _ _ ?e] => erewrite M_step by exact H; clear H
    end; try done.
  erewrite M_step; [erewrite M_step by (apply (each_opt_none _ _ _ _ H1 H3)); reflexivity|]. eapply each_none; [|exact H4].
  eapply Forall_impl; [exact H0|]. intros [c r] [I1 I2] [N1 N2]%orb_false_elim. cbn in *. by erewrite !M_step by eauto.
Qed.
End monad.

(** an expression without window functions has none to compute *)
Lemma flat_map_none {A B} (any : A -> bool) (f : A -> list B) l : Forall (fun x => any x = false -> f x = []) l -> existsb any l = false -> flat_map f l = [].
Proof. induction 1 as [|x l Hx _ IH]; [done|]. cbn. intros [N1 N2]%orb_false_elim. by rewrite Hx, IH. Qed.
Lemma window_nodes_none {Q} (e : Expr Q) : contains_window_function e = false -> window_nodes e = [].
Proof.
  unfold contains_window_function. induction e using Expr_induct; try done; cbn [expr_any is_window orb]; intros F; cbn [window_nodes];
    repeat match goal with H : _ || _ = false |- _ => apply orb_false_elim in H as [? ?] end;
    repeat match goal with H : ?f = false -> _, G : ?f = false |- _ => specialize (H G); rewrite ?H; clear H end;
    repeat match goal with
    | H : Forall _ ?es, G : existsb _ ?es = false |- context [flat_map _ ?es] => rewrite (flat_map_none _ _ _ H G); clear H
    | H : opt_all _ ?o, G : match ?o with _ => _ end = false |- context [match ?o with _ => _ end] => destruct o; [cbn in H; rewrite (H G)|]; clear H
    end; try done.
  all: try by destruct ov.
  all: erewrite flat_map_none; [done| |eassumption]; eapply Forall_impl; [eassumption|]; intros [c r] [I1 I2] [N1 N2]%orb_false_elim; cbn in *; by rewrite I1, I2.
Qed.

(** * One table *)

Lemma zslice_fmap {A B} (f : A -> B) a b l : zslice a b (f <$> l) = f <$> zslice a b l.
Proof. unfold zslice, ztake, zdrop. by rewrite fmap_take, fmap_drop. Qed.
Lemma slice_rows_fmap {A B} (f : A -> B) offset limit l : slice_rows offset limit (f <$> l) = f <$> slice_rows offset limit l.
Proof. unfold slice_rows. unfold zlen. by rewrite zslice_fmap, length_fmap. Qed.

Lemma mapM_ok {A B} (f : A -> run B) (g : A -> B) l : (forall x, x ∈ l -> f x = Val (g x)) -> mapM (M := run) f l = Val (g <$> l).
Proof.
  induction l as [|x l IH]; intros F; [done|]. change (mapM f (x :: l)) with (y ← f x; ys ← mapM (M := run) f l; mret (y :: ys)).
  rewrite (F x) by left. cbn [mbind run_bind]. rewrite IH; [done|]. intros y Hy. apply F. by right.
Qed.
Lemma zip_fmap_both {A B C} (f : A -> B) (g : A -> C) l : zip (f <$> l) (g <$> l) = (fun x => (f x, g x)) <$> l.
Proof. induction l as [|x l IH]; [done|]. cbn. by rewrite <- IH. Qed.
Lemma no_cte name : (∅ : CteMap) !! name = None.
Proof. apply (lookup_empty (M := gmap str)). Qed.

Lemma table_rep_rows {E} (ev : E -> list str -> list Value -> result str Value) kinds t L :
  table_rep ev kinds t L -> detoast_row (Storage.chunks (toast t)) <$> rows t = L.*2.
Proof.
  intros R. destruct (tr_toast _ _ _ _ R) as (F & _). induction F as [|s l ss ls H F IH]; [done|]. cbn. f_equal; [by apply row_rep_detoast|exact IH].
Qed.


Section table_select.
Context (lower : str -> str) (call : str -> list Value -> res str Value) {X : Type} (q_eqb : Select X -> Select X -> bool) `{StableSort}.
Abbreviation E := (Expr (Select X)).
Abbreviation DB := (Database E (Select X)).
Abbreviation ev := (eval_expr lower call (Q := Select X)).
Context (regclass_oid : str -> option Z) (virtual_table : DB -> option str -> str -> str -> option (result str Source)).
Context (descendant_tables : DB -> str -> list str) (row_estimate : Table E -> Z) (available_parallelism : Z).
Context (execute : Statement X -> DB -> run (DB * result str ExecOutcome)) (session_function : Select X -> option (DB -> run (DB * result str ExecOutcome))).
Context (db : DB) (tref : TableRef X) (t : Table E) (L : list (RowId * list Value)) (kinds : str -> nat -> Kind).

(** a reference to a stored table without descendants *)
Record base_table : Prop := {
  bt_subquery : tr_subquery tref = None;
  bt_args : tr_args tref = [];
  bt_table : tables db !! tr_name tref = Some t;
  bt_rep : table_rep (table_eval lower call) kinds t L;
  bt_names : clean_names (column_names t);
  bt_real : virtual_table db (tr_schema tref) (tr_name tref) (qualifier tref) = None;
  bt_view : views db !! tr_name tref = None;
  bt_matview : materialized_views db !! tr_name tref = None;
  bt_sequence : sequence_named db (tr_name tref) = None;
  bt_leaf : descendant_tables db (tr_name tref) = []
}.

Definition sel_names : list str := fst (qualified_fields (qualifier tref) (table_fields t)).
Definition sel_types : list DataType := snd (qualified_fields (qualifier tref) (table_fields t)).

(** the planner can use the indexes for the predicate *)
Definition plannable (filter : option E) : Prop :=
  forall pred, filter = Some pred -> scan_ok lower call kinds t L pred /\ index_candidate_positions lower call q_eqb t pred <> Panic.
(** the rows the predicate accepts *)
Definition decides (filter : option E) (accept : list Value -> bool) : Prop :=
  forall row, row ∈ L.*2 -> match filter with
  | Some pred => exists v, ev sel_names row pred = Val (Ok v) /\ is_true v = accept row
  | None => accept row = true
  end.

Context (projection : list (SelectItem E)) (filter : option E) (order_by : list (OrderByItem E)) (limit offset : option E) (locking : list RowLockingClause).
Definition table_query : Select X := mk_select [] false [] projection (Some (mk_from tref [])) filter [] [] None order_by limit offset locking [].

(** one output value of a row *)
Definition produced (row : list Value) (p : Producer) : res str Value :=
  match p with Col c => lift (expect (row !! c)) | PExpr e => ev sel_names row e end.

Context (fields : list FieldDescription) (accept : list Value -> bool) (out key : list Value -> list Value) (lim off : option Z) (order_kinds : nat -> Kind).

(** the clauses as functions of a row: no subqueries, aggregates or window
    functions; WHERE decides every row; the output values, the sort keys and the
    counts evaluate on the accepted ones *)
Record row_query : Prop := {
  rq_plan : plannable filter;
  rq_where : decides filter accept;
  rq_plain : select_has_subquery table_query = false;
  rq_scalar e a : SelectExpr e a ∈ projection -> contains_aggregate e = false /\ contains_window_function e = false;
  rq_fields : item_fields sel_names sel_types projection = Val fields;
  rq_out row : row ∈ L.*2 -> accept row = true -> try_map (produced row) (producers_of sel_names projection) = Val (Ok (out row));
  rq_key row : row ∈ L.*2 -> accept row = true ->
    try_map (fun ob => order_value (o_expr ob) (out row) fields (ev sel_names row (o_expr ob))) order_by = Val (Ok (key row)) /\ keys_ok order_kinds order_by (key row);
  rq_limit : eval_count lower call limit sel_names = Val (Ok lim);
  rq_offset : eval_count lower call offset sel_names = Val (Ok off)
}.
Context (Hq : forall a b, q_eqb a b = true -> a = b) (Hbase : base_table) (Hrow : row_query).

Section under_exec.
Context (exec : Select X -> CteMap -> M (X := X) ExecOutcome).
Abbreviation base_source := (resolve_base_source lower call q_eqb regclass_oid virtual_table descendant_tables exec tref).

Lemma sel_names_agree : names_agree t sel_names.
Proof.
  replace sel_names with (qualified_names (qualifier tref) (column_names t)); [exact (qualified_names_agree t (qualifier tref) (bt_names Hbase))|].
  unfold sel_names, qualified_fields, table_fields, qualified_names, column_names. cbn [fst]. by rewrite <- !list_fmap_compose.
Qed.

Lemma scan_source : resolve_source_table lower call regclass_oid virtual_table descendant_tables exec tref ∅ db = Val (db, Ok (sel_names, sel_types, L.*2)).
Proof.
  destruct Hbase as [B1 B2 B3 B4 B5 B6 B7 B8 B9 B10]. unfold resolve_source_table. rewrite B1, B2, no_cte.
  erewrite M_step by reflexivity. rewrite B6, B7, B8, B9, B3. erewrite M_step; [reflexivity|].
  unfold now, look, table_rows. rewrite B10, (table_rep_rows _ _ _ _ B4). cbn. rewrite app_nil_r. by destruct (tr_only tref).
Qed.

Lemma row_at_rep p : is_Some (zget L p) -> exists row, zget (rows t) p = Some row /\ detoast_row (Storage.chunks (toast t)) row = row_at (L.*2) p.
Proof.
  intros [x Hx]. apply zget_Some_nat in Hx as (n & -> & Hx). pose proof (table_rep_rows _ _ _ _ (bt_rep Hbase)) as Hr.
  assert ((detoast_row (Storage.chunks (toast t)) <$> rows t) !! n = Some (x.2)) as Hd by (by rewrite Hr, list_lookup_fmap, Hx).
  rewrite list_lookup_fmap in Hd. destruct (rows t !! n) as [row|] eqn:E1; [|done]. cbn in Hd. injection Hd as Hd. exists row. rewrite zget_nat. split; [done|].
  unfold row_at. by rewrite zget_nat, list_lookup_fmap, Hx.
Qed.

(** the rows of the source hold every accepted row once, and no others *)
Lemma base_rows :
  exists src, base_source filter ∅ db = Val (db, Ok (sel_names, sel_types, src))
  /\ List.filter accept src ≡ₚ List.filter accept (L.*2) /\ Forall (fun r => r ∈ L.*2) src.
Proof.
  pose proof (rq_plan Hrow) as Hpl. pose proof (rq_where Hrow) as Hdec. unfold plannable, decides in Hpl, Hdec.
  assert (forall m : run (DB * result str Source), m = Val (db, Ok (sel_names, sel_types, L.*2)) -> exists src, m = Val (db, Ok (sel_names, sel_types, src))
    /\ List.filter accept src ≡ₚ List.filter accept (L.*2) /\ Forall (fun r => r ∈ L.*2) src) as Scan.
  { intros m ->. exists (L.*2). split_and!; [done|done|]. by apply Forall_forall. }
  unfold resolve_base_source. rewrite no_cte. erewrite M_step by reflexivity. rewrite (bt_real Hbase), (bt_leaf Hbase), (bt_table Hbase).
  rewrite bool_decide_true by done. rewrite (bool_decide_true ([] = [])) by done. rewrite andb_false_r.
  destruct filter as [pred|]; [|apply Scan, scan_source]. destruct (Hpl pred eq_refl) as [Hs Hp].
  destruct (index_candidate_positions lower call q_eqb t pred) as [o|] eqn:Ho; [|done]. erewrite M_step by reflexivity.
  destruct o as [ps|]; [|apply Scan, scan_source].
  destruct (candidate_positions_ok lower call q_eqb kinds t L sel_names (Some pred) ps Hq (bt_rep Hbase) sel_names_agree) as (ND & V & C).
  { by intros f [= <-]. } { unfold candidate_positions. by rewrite Ho. }
  assert (mapM (M := run) (fun p => row ← expect (zget (rows t) p); Val (detoast_row (Storage.chunks (toast t)) row)) ps = Val (row_at (L.*2) <$> ps)) as Hm.
  { apply mapM_ok. intros p Hin. destruct (row_at_rep p (V p Hin)) as (row & -> & E2). cbn. by rewrite E2. }
  exists (row_at (L.*2) <$> ps). split_and!.
  - erewrite M_step; [reflexivity|]. unfold now, look, lift. by rewrite Hm.
  - rewrite filter_fmap. assert (forall p, is_Some (zget L p) -> is_Some (zget (L.*2) p)) as Hz.
    { intros p [x Hx]. apply zget_Some_nat in Hx as (n & -> & Hx). rewrite zget_nat, list_lookup_fmap, Hx. by eexists. }
    apply positions_filter; [done|apply Forall_forall; intros p Hin; by apply Hz, V|].
    intros p [r Hr] Ha. pose proof Hr as Hr'. apply zget_Some_nat in Hr' as (n & -> & Hr'). rewrite list_lookup_fmap in Hr'. destruct (L !! n) as [[id r']|] eqn:El; [|done].
    cbn in Hr'. injection Hr' as ->. destruct (Hdec r) as (v & Ev & Hv). { apply list_elem_of_fmap. exists (id, r). split; [done|by eapply list_elem_of_lookup_2]. }
    apply (C _ id r pred v); [done|by rewrite zget_nat|done|]. rewrite Hv. unfold row_at in Ha. by rewrite Hr in Ha.
  - apply Forall_fmap, Forall_forall. intros p Hin. cbn. destruct (V p Hin) as [x Hx]. apply zget_Some_nat in Hx as (n & -> & Hx).
    unfold row_at. rewrite zget_nat, list_lookup_fmap, Hx. cbn. apply list_elem_of_fmap. exists x. split; [done|by eapply list_elem_of_lookup_2].
Qed.

Lemma no_subquery :
  (forall e a, SelectExpr e a ∈ projection -> expr_contains_subquery e = false) /\ (forall e, filter = Some e -> expr_contains_subquery e = false)
  /\ (forall o, o ∈ order_by -> expr_contains_subquery (o_expr o) = false) /\ (forall e, limit = Some e -> expr_contains_subquery e = false)
  /\ (forall e, offset = Some e -> expr_contains_subquery e = false).
Proof.
  pose proof (rq_plain Hrow) as P. unfold select_has_subquery, table_query in P. cbn [s_projection s_from s_filter s_having s_group_by s_distinct_on s_order_by s_limit s_offset opt_any] in P.
  repeat match goal with H : _ || _ = false |- _ => apply orb_false_elim in H as [? ?] end.
  assert (forall A (p : A -> bool) l x, existsb p l = false -> x ∈ l -> p x = false) as Ex.
  { intros A p l x N Hx. apply not_true_is_false. intros T. assert (existsb p l = true); [|congruence]. apply existsb_exists. exists x. by rewrite <- list_elem_of_In. }
  split_and!.
  - intros e a He. by apply (Ex _ _ _ _ H0) in He.
  - by intros e ->.
  - intros o Ho. by eapply (Ex _ (fun o => expr_contains_subquery (o_expr o))).
  - by intros e ->.
  - by intros e ->.
Qed.

Lemma resolve_plain outer ctes : resolve_subqueries_in_select lower call regclass_oid virtual_table exec outer ctes table_query db = Val (db, Ok table_query).
Proof.
  destruct no_subquery as (N1 & N2 & N3 & N4 & N5). unfold table_query. cbn [resolve_subqueries_in_select]. unfold resolve_select_body.
  assert (forall e, expr_contains_subquery e = false -> resolve_subqueries lower call regclass_oid virtual_table exec outer ctes e db = Val (db, Ok e)) as Re
    by (intros e; apply rewrite_plain).
  erewrite M_step. 2: { apply each_same. intros [|e a] Hi; [done|]. by rewrite (M_step _ _ _ _ _ (Re e (N1 _ _ Hi))). }
  erewrite M_step by (apply each_opt_same; eauto). do 3 (erewrite M_step by reflexivity).
  erewrite M_step. 2: { apply each_same. intros [e asc] Hi. specialize (N3 _ Hi). by rewrite (M_step _ _ _ _ _ (Re e N3)). }
  do 2 (erewrite M_step by (apply each_opt_same; eauto)). by erewrite M_step by reflexivity.
Qed.

Lemma filter_rows_decided pred names rows : (forall r, r ∈ rows -> exists v, ev names r pred = Val (Ok v) /\ is_true v = accept r) ->
  filter_rows lower call pred names rows = Val (Ok (List.filter accept rows)).
Proof.
  induction rows as [|r rows IH]; intros F; [done|]. cbn [filter_rows]. destruct (F r ltac:(left)) as (v & -> & Hv). cbn [mbind res_bind].
  rewrite IH by (intros s Hs; apply F; by right). cbn. by rewrite Hv; destruct (accept r).
Qed.

Lemma where_decided src : Forall (fun r => r ∈ L.*2) src ->
  where_rows lower call regclass_oid virtual_table available_parallelism exec filter sel_names ∅ src db = Val (db, Ok (List.filter accept src)).
Proof.
  rewrite Forall_forall. intros Hsrc. destruct no_subquery as (_ & N & _). pose proof (rq_where Hrow) as D. unfold decides in D. unfold where_rows.
  assert (filter_select_rows lower call available_parallelism sel_names filter src = Val (Ok (List.filter accept src))) as Hf.
  - rewrite parallel_filter_ok.
    + destruct filter as [pred|]; cbn; [apply filter_rows_decided; intros r Hr; by apply D, Hsrc|].
      rewrite (forallb_filter_id accept src); [done|]. apply forallb_forall. intros r Hr. apply D, Hsrc. by rewrite list_elem_of_In.
    + intros p r Hp Hr. rewrite Hp in D. destruct (D r (Hsrc r Hr)) as (v & -> & _). done.
  - destruct filter as [pred|]; [rewrite (N pred eq_refl)|]; unfold now, look; by rewrite Hf.
Qed.

Lemma no_windows : foldl (producer_windows q_eqb) [] (producers_of sel_names projection) = [].
Proof.
  assert (forall e, PExpr e ∈ producers_of sel_names projection -> contains_window_function e = false) as W.
  { intros e. unfold producers_of. rewrite list_elem_of_In, in_flat_map. intros ([|e' a] & Hi & Hp).
    - apply list_elem_of_In, list_elem_of_fmap in Hp as (c & Hc & _). discriminate Hc.
    - destruct Hp as [[= <-]|[]]. apply list_elem_of_In in Hi. by apply (rq_scalar Hrow) in Hi as [_ ?]. }
  induction (producers_of sel_names projection) as [|p ps IH]; [done|]. cbn [foldl]. replace (producer_windows q_eqb [] p) with (@nil E); [apply IH; intros e He; apply W; by right|].
  destruct p as [c|e]; [done|]. cbn. unfold collect_window_fns. by rewrite window_nodes_none by (apply W; left).
Qed.

Lemma each_try_map {A B} (f : A -> M (X := X) B) (g : A -> res str B) l ys : (forall x, x ∈ l -> f x db = now (g x) db) ->
  try_map g l = Val (Ok ys) -> each f l db = Val (db, Ok ys).
Proof.
  revert ys. induction l as [|x l IH]; intros ys F G; [by injection G as <-|]. cbn in G. destruct (g x) as [[y|]|] eqn:Ey; try done. cbn in G.
  destruct (try_map g l) as [[ys'|]|] eqn:Es; try done. cbn in G. injection G as <-. cbn [each]. erewrite M_step; [erewrite M_step; [reflexivity|]|].
  - apply IH; [|done]. intros z Hz. apply F. by right.
  - rewrite (F x) by left. unfold now, look. by rewrite Ey.
Qed.

Lemma row_outputs rows : Forall (fun r => r ∈ L.*2 /\ accept r = true) rows ->
  each (fun ir => each (produce lower call q_eqb regclass_oid virtual_table exec sel_names ∅ [] [] (fst ir) (snd ir)) (producers_of sel_names projection)) (zip (seq 0 (length rows)) rows) db
  = Val (db, Ok (out <$> rows)).
Proof.
  rewrite Forall_forall. intros Hr. rewrite (each_ok _ (fun ir => out (snd ir))).
  - change (fun ir : nat * list Value => out (snd ir)) with (out ∘ @snd nat (list Value)). rewrite list_fmap_compose, snd_zip; [done|]. by rewrite length_seq.
  - intros [i row] Hi. cbn [fst snd]. apply elem_of_zip_r in Hi. destruct (Hr row Hi) as [H1 H2]. apply (each_try_map _ (produced row)); [|by apply (rq_out Hrow)].
    intros p Hp. destruct no_subquery as (N & _). destruct p as [c|e]; [done|]. unfold produce.
    unfold producers_of in Hp. apply list_elem_of_In, in_flat_map in Hp as ([|e' a] & Hi' & Hp).
    { apply list_elem_of_In, list_elem_of_fmap in Hp as (c & Hc & _). discriminate Hc. }
    destruct Hp as [[= <-]|[]]. apply list_elem_of_In in Hi'. destruct (rq_scalar Hrow _ _ Hi') as [_ ->]. by rewrite (N _ _ Hi').
Qed.

(** rows with their outputs in the order of the keys *)
Lemma ordered_rows rows : Forall (fun r => r ∈ L.*2 /\ accept r = true) rows ->
  exists sorted, order_combined lower call order_by sel_names fields (zip rows (out <$> rows)) = Val (Ok ((fun r => (r, out r)) <$> sorted))
  /\ stably_sorted (fun a b => compare_order_keys (key a) (key b) order_by) rows sorted.
Proof.
  rewrite Forall_forall. intros Hr. assert (zip rows (out <$> rows) = (fun r => (r, out r)) <$> rows) as -> by (by rewrite <- (zip_fmap_both (fun r => r)), list_fmap_id).
  unfold order_combined. destruct order_by as [|ob obs] eqn:Eo.
  { exists rows. split; [done|]. split_and!; [done| |done]. clear. induction rows as [|r rs IH]; constructor; [done|]. by apply Forall_forall. }
  rewrite <- Eo. set (f := fun r => (key r, (r, out r))). set (g := fun p : list Value * (list Value * list Value) => fst (snd p)).
  rewrite (try_map_ok _ (fun io => key (fst io))).
  2: { intros io (r & -> & Hin)%list_elem_of_fmap. destruct (Hr r Hin) as [H1 H2]. by destruct (rq_key Hrow r H1 H2) as [Hk _]. }
  cbn [mbind res_bind]. rewrite <- list_fmap_compose.
  destruct (order_rows_sorted order_kinds (key <$> rows) order_by ((fun r => (r, out r)) <$> rows)) as (pairs & E1 & S); [by rewrite !length_fmap| |].
  { apply Forall_fmap, Forall_forall. intros r Hin. destruct (Hr r Hin) as [H1 H2]. by destruct (rq_key Hrow r H1 H2) as [_ ?]. }
  assert (zip (key <$> rows) ((fun r => (r, out r)) <$> rows) = f <$> rows) as Ez by apply zip_fmap_both. rewrite Ez in S.
  assert (Forall (fun p => p = f (g p)) pairs) as Hp.
  { destruct S as (P & _). rewrite P. apply Forall_fmap, Forall_forall. by intros r _. }
  exists (g <$> pairs). split.
  - change ((λ io : list Value * list Value, key io.1) ∘ (λ r : list Value, (r, out r))) with key. rewrite E1. unfold lift. do 2 f_equal.
    rewrite <- list_fmap_compose. clear -Hp. induction Hp as [|p ps E _ IH]; [done|]. cbn. rewrite IH. f_equal. by rewrite E.
  - replace rows with (g <$> (f <$> rows)) by (rewrite <- list_fmap_compose; apply list_fmap_id). apply stably_sorted_fmap.
    eapply stably_sorted_ext; [|exact S]. intros a b (x & -> & _)%list_elem_of_fmap (y & -> & _)%list_elem_of_fmap. done.
Qed.

Lemma not_grouped : is_grouped table_query = false.
Proof.
  unfold is_grouped, table_query. cbn [s_group_by s_grouping_sets s_projection s_having opt_any length]. cbn. rewrite orb_false_r.
  apply not_true_is_false. intros (i & Hi & A)%existsb_exists. destruct i as [|e a]; [done|]. apply list_elem_of_In in Hi. destruct (rq_scalar Hrow _ _ Hi). congruence.
Qed.

Lemma select_body_exact : exists kept sorted,
  select_body lower call q_eqb regclass_oid virtual_table descendant_tables row_estimate available_parallelism execute session_function exec table_query ∅ db
    = Val (db, Ok (Wire.Rows fields (out <$> slice_rows off lim sorted) (select_tag (zlen (out <$> slice_rows off lim sorted)))))
  /\ kept ≡ₚ List.filter accept (L.*2) /\ stably_sorted (fun a b => compare_order_keys (key a) (key b) order_by) kept sorted.
Proof.
  destruct base_rows as (src & Hsrc & Hperm & Hin). set (kept := List.filter accept src) in *.
  assert (Forall (fun r => r ∈ L.*2 /\ accept r = true) kept) as Hk.
  { rewrite Forall_forall in *. intros r. unfold kept. rewrite list_elem_of_In, filter_In, <- list_elem_of_In. intros [H1 H2]. split; [by apply Hin|done]. }
  destruct (ordered_rows kept Hk) as (sorted & Ho & S). exists kept, sorted. split; [|done].
  unfold select_body. erewrite M_step by reflexivity. change (no_ctes table_query) with table_query. rewrite (rq_plain Hrow). erewrite M_step by reflexivity.
  rewrite (M_step _ _ _ _ _ (resolve_plain [] ∅)). cbn [table_query s_set_ops s_from]. fold table_query. unfold select_rows. cbn [table_query s_from s_filter]. fold table_query.
  erewrite M_step.
  2: { unfold build_source_with_ctes. erewrite M_step by reflexivity. cbn [reorder_inner_joins fc_joins default from_option]. unfold build_source_ordered. cbn [fc_base fc_joins].
       rewrite (M_step _ _ _ _ _ Hsrc). reflexivity. }
  cbv beta iota. rewrite (M_step _ _ _ _ _ (where_decided src Hin)). fold kept. rewrite not_grouped. unfold project_select. cbn [table_query s_projection s_distinct s_distinct_on s_order_by s_offset s_limit].
  erewrite M_step by (unfold now, look; by rewrite (rq_fields Hrow)). rewrite no_windows. erewrite M_step by reflexivity.
  rewrite (M_step _ _ _ _ _ (row_outputs kept Hk)). erewrite M_step by (unfold now, look; by rewrite Ho). erewrite M_step by reflexivity.
  unfold now, look, finish_rows. rewrite (rq_offset Hrow), (rq_limit Hrow). cbn [mbind res_bind]. rewrite slice_rows_fmap, <- list_fmap_compose. done.
Qed.
End under_exec.

(** C11: a query over one table returns its relational meaning.  The table is stored,
    without views, descendants or virtual tables of its name, and holds the rows [L];
    the query has no subquery, aggregate, window function, GROUP BY, DISTINCT or set
    operation; WHERE evaluates on every row, and the outputs and the sort keys (of
    one kind per position, without NaN) on the accepted ones.  The WHERE clause is
    one the planner handles ([scan_ok]): constants compared with an indexed column
    or expression have the kind of the index (not a = '7' on an integer column), no
    partial index is a hash index, GIN indexes hold arrays and are probed with
    arrays, indexed expressions and predicates have no zero double literal, and the
    planner does not panic.  Then, whichever of the indexes and however many workers
    it uses, the executor leaves the database as it is and returns the outputs of a
    segment, given by OFFSET and LIMIT, of the accepted rows in a stable order by
    their ORDER BY keys. *)
Theorem table_select_exact depth : exists kept sorted,
  exec_select lower call q_eqb regclass_oid virtual_table descendant_tables row_estimate available_parallelism execute session_function (S depth) table_query db
    = Val (db, Ok (Wire.Rows fields (out <$> slice_rows off lim sorted) (select_tag (zlen (out <$> slice_rows off lim sorted)))))
  /\ kept ≡ₚ List.filter accept (L.*2) /\ stably_sorted (fun a b => compare_order_keys (key a) (key b) order_by) kept sorted.
Proof. apply select_body_exact. Qed.
End table_select.

(** * Example *)

Definition sx_rows : list (RowId * list Value) := [(0, [Int 7; Text (lit "y")]); (1, [Int 5; Text (lit "x")]); (2, [Int 9; Text (lit "z")])].
Definition sx_table : Table (Expr (Select unit)) :=
  match (t1 ← push_row ex_eval ex_table [Int 5; Text (lit "x")]; push_row ex_eval t1 [Int 9; Text (lit "z")]) with Val t => t | Panic => ex_table end.
Definition sx_db : Database (Expr (Select unit)) (Select unit) := set_tables db_new {[ lit "t" := sx_table ]}.
Definition sx_filter : Expr (Select unit) := EBinary GtEq (EColumn (lit "a")) (EInt 6).
Definition sx_accept (row : list Value) : bool := match row with Int a :: _ => 6 <=? a | _ => false end.
Definition sx_key (row : list Value) : list Value := take 1 row.

Lemma sx_push t L i s : table_rep ex_eval int_kinds t L -> column_names t = [lit "a"; lit "b"] -> Forall2 same_meta [ex_index] (indexes t) ->
  next_toast_id (toast t) <= 5 -> starts_with s TOAST_PREFIX = false ->
  exists t', push_row ex_eval t [Int i; Text s] = Val t' /\ table_rep ex_eval int_kinds t' (L ++ [(next_row_id t, [Int i; Text s])]).
Proof.
  intros R Hc Hm Hn Hs. destruct (push_ok ex_eval int_kinds t L [Int i; Text s] R) as (t' & E1 & R1 & _); [|by exists t'].
  split_and!; [by repeat constructor| |rewrite !zlen_cons, zlen_nil; lia].
  apply (fits_meta _ _ _ _ _ _ Hm). apply Forall_cons. split; [|constructor]. intros _. exists (Some [Int i]). split; [done|].
  intros k [= <-] [|[]] x [= <-]. done.
Qed.

Lemma sx_table_rep : table_rep ex_eval int_kinds sx_table sx_rows.
Proof.
  destruct (sx_push ex_table _ 5 (lit "x") ex_table_rep) as (t1 & E1 & R1); [reflexivity|vm_compute; repeat constructor|vm_compute; discriminate|reflexivity|].
  assert (Val t1 = push_row ex_eval ex_table [Int 5; Text (lit "x")]) as E1' by done. vm_compute in E1'. injection E1' as E1'.
  destruct (sx_push t1 _ 9 (lit "z") R1) as (t2 & E2 & R2); [subst t1; reflexivity|subst t1; repeat constructor|subst t1; vm_compute; discriminate|reflexivity|].
  unfold sx_table. rewrite E1. cbn [mbind run_bind]. rewrite E2. assert (next_row_id t1 = 2) as N by (by subst t1). rewrite N in R2. exact R2.
Qed.

Lemma sx_scan_ok : scan_ok id no_call int_kinds sx_table sx_rows sx_filter.
Proof.
  assert (Forall (fun idx => idx_columns idx = [0] /\ idx_expr idx = None /\ idx_predicate idx = None) (indexes sx_table)) as F by (vm_compute; by repeat constructor).
  rewrite Forall_forall in F. split.
  - intros c col v Hc Hu idx n Hi He Hn. destruct (F idx Hi) as (Hcols & _). rewrite Hcols in Hn. destruct n as [|[|n]]; try done. injection Hn as <-.
    apply list_elem_of_singleton in Hc as ->. change (kind_ok KInt v). inversion Hu; subst;
      match goal with H : col_const _ _ _ _ _ = _ |- _ => vm_compute in H; try discriminate H; by injection H as <- end.
  - intros c Hc. by apply list_elem_of_singleton in Hc as ->.
  - intros idx e Hi [He|He]; destruct (F idx Hi) as (_ & H1 & H2); congruence.
  - intros idx e l r v Hi He. destruct (F idx Hi) as (_ & H1 & H2). congruence.
  - intros idx e Hi He. destruct (F idx Hi) as (_ & H1 & H2). congruence.
  - intros l r col i v rt es Hc. apply list_elem_of_singleton in Hc. discriminate Hc.
Qed.

Lemma table_select_exact_witness : exists kept sorted,
  exec_select id no_call (fun _ _ => false) (fun _ => None) (fun _ _ _ _ => None) (fun _ _ => []) (fun _ => 0) 1 (fun _ _ => Panic) (fun _ => None) 1
    (table_query (ex_ref (lit "t")) [SelectExpr (EColumn (lit "b")) None; Wildcard] (Some sx_filter) [mk_order (EColumn (lit "a")) false] (Some (EInt 5)) None []) sx_db
  = Val (sx_db, Ok (Wire.Rows [mk_field (lit "b") TText; mk_field (lit "a") TInt8; mk_field (lit "b") TText]
      ((fun r => drop 1 r ++ r) <$> slice_rows None (Some 5) sorted) (select_tag (zlen ((fun r => drop 1 r ++ r) <$> slice_rows None (Some 5) sorted)))))
  /\ kept ≡ₚ [[Int 7; Text (lit "y")]; [Int 9; Text (lit "z")]]
  /\ stably_sorted (fun a b => compare_order_keys (sx_key a) (sx_key b) [mk_order (EColumn (lit "a") : Expr (Select unit)) false]) kept sorted.
Proof.
  assert (forall P : list Value -> Prop, P [Int 7; Text (lit "y")] -> P [Int 5; Text (lit "x")] -> P [Int 9; Text (lit "z")] -> forall row, row ∈ sx_rows.*2 -> P row) as All.
  { intros P P1 P2 P3 row Hr. repeat (apply elem_of_cons in Hr as [->|Hr]; [done|]). by apply elem_of_nil in Hr. }
  apply (table_select_exact id no_call (fun _ _ => false) (fun _ => None) (fun _ _ _ _ => None) (fun _ _ => []) (fun _ => 0) 1 (fun _ _ => Panic) (fun _ => None)
    sx_db (ex_ref (lit "t")) sx_table sx_rows int_kinds _ _ _ _ _ _ _ sx_accept (fun r => drop 1 r ++ r) sx_key (Some 5) None (fun _ => KInt)).
  - done.
  - split; try reflexivity; [exact sx_table_rep|]. split; [|repeat constructor; done]. vm_compute. repeat constructor; set_solver.
  - split; [| |vm_compute; reflexivity| |vm_compute; reflexivity| | |reflexivity|reflexivity].
    + intros pred [= <-]. split; [exact sx_scan_ok|vm_compute; discriminate].
    + refine (All _ _ _ _); eexists; (split; [vm_compute; reflexivity|reflexivity]).
    + intros e a He. apply elem_of_cons in He as [[= -> ->]|He%list_elem_of_singleton]; [split; reflexivity|done].
    + refine (All _ _ _ _); intros Ha; try discriminate Ha; vm_compute; reflexivity.
    + refine (All _ _ _ _); intros Ha; try discriminate Ha; (split; [vm_compute; reflexivity|]); (split; [done|]); intros [|[]] x [= <-]; done.
Defined.
