(* ===== verification/QueryExamples.v ===== *)
(** Queries from their text to their rows, through the lexer, the parser and the
    executor, on a small database; and the queries that are answered wrongly. *)

From stdpp Require Import gmap.
From S2P Require Import Prelude Utf8 Numeric Types Float BTree Index Wire Hba FloatOps Datetime Json Containers Pattern LockStmt Ast Eval Storage Database Planner Lexer Parser Printed ExprRead Roundtrip Rowset Aggregate Window Source Join Query QueryLoops JoinSpec SelectSpec.

#[local] Open Scope Z_scope.

(** the table [t(a, b)] with an index on [a], and the one-row table [u(k)] *)
Definition qx_table : Table (Expr (Select unit)) :=
  let t := table_new (lit "u") [column_basic (lit "k") TInt8 false] in match push_row ex_eval t [Int 7] with Val t => t | Panic => t end.
Definition qx_db : Database (Expr (Select unit)) (Select unit) := set_tables db_new {[ lit "t" := sx_table; lit "u" := qx_table ]}.
Definition no_virtual : Database (Expr (Select unit)) (Select unit) -> option str -> str -> str -> option (result str Source) := fun _ _ _ _ => None.

(** the rows that answer a query *)
Definition answer (sql : string) : res str (list (list Value)) :=
  match parse_sql no_statements tt (lit sql) with
  | Parsed [SSelect s] _ =>
      match exec_select id no_call (fun _ _ => false) (fun _ => None) no_virtual (fun _ _ => []) (fun t => zlen (rows t)) 1 (fun _ _ => Panic) (fun _ => None) 20 s qx_db with
      | Val (_, Ok (Wire.Rows _ rows _)) => mret rows
      | Val (_, Ok _) => fail (lit "no rows")
      | Val (_, Err e) => fail e
      | Panic => Panic
      end
  | _ => fail (lit "not a query")
  end.
(** the columns a client is told a query has *)
Definition described (sql : string) : res str (list str) :=
  match parse_sql no_statements tt (lit sql) with
  | Parsed [SSelect s] _ => fs ← select_fields_with_ctes id no_call (fun _ => None) no_virtual qx_db ∅ s; mret (f_name <$> fs)
  | _ => fail (lit "not a query")
  end.
Definition returns (rows : list (list Value)) : res str (list (list Value)) := mret rows.
Definition t_ (s : string) : Value := Text (lit s).

(** Filters, joins, grouping, windows, correlated subqueries, set operations and
    recursion answer as written. *)
Lemma queries_answered :
  answer "SELECT a, b FROM t WHERE a > 5 ORDER BY a DESC LIMIT 1" = returns [[Int 9; t_ "z"]]
  /\ answer "SELECT t.b, u.k FROM t LEFT JOIN u ON t.a = u.k ORDER BY t.b" = returns [[t_ "x"; Null]; [t_ "y"; Int 7]; [t_ "z"; Null]]
  /\ answer "SELECT a > 6, count(*), max(b) FROM t GROUP BY a > 6 ORDER BY 2" = returns [[Bool false; Int 1; t_ "x"]; [Bool true; Int 2; t_ "z"]]
  /\ answer "SELECT b, row_number() OVER (ORDER BY a) FROM t" = returns [[t_ "y"; Int 2]; [t_ "x"; Int 1]; [t_ "z"; Int 3]]
  /\ answer "SELECT b, (SELECT max(v.a) FROM t AS v WHERE v.a < t.a) FROM t ORDER BY b" = returns [[t_ "x"; Null]; [t_ "y"; Int 5]; [t_ "z"; Int 7]]
  /\ answer "SELECT b FROM t WHERE EXISTS (SELECT 1 FROM u WHERE u.k = t.a)" = returns [[t_ "y"]]
  /\ answer "SELECT DISTINCT ON (a > 6) a FROM t ORDER BY a > 6, a DESC" = returns [[Int 5]; [Int 9]]
  /\ answer "SELECT a FROM t EXCEPT SELECT k FROM u ORDER BY a" = returns [[Int 5]; [Int 9]]
  /\ answer "WITH RECURSIVE r(n) AS (SELECT 1 UNION ALL SELECT n + 1 FROM r WHERE n < 4) SELECT n FROM r" = returns [[Int 1]; [Int 2]; [Int 3]; [Int 4]]
  /\ answer "SELECT t.a, s.n FROM t, LATERAL (SELECT t.a - 4 AS n) AS s WHERE s.n < 4" = returns [[Int 7; Int 3]; [Int 5; Int 1]].
Proof. split_and!; vm_compute; reflexivity. Qed.

(** Where the answers are wrong.  A derived table, or a join with one, that has the
    name of an indexed table reads that table; the branches of a set operation do
    not see the common table expressions; LIMIT is ignored with generate_series,
    which saturates to a value outside the series; INTERSECT ALL and EXCEPT ALL drop
    duplicates; a join of a text with an indexed integer column loses rows; a sum wraps
    around; and a reordered join returns its columns in another
    order than described. *)
Lemma query_anomalies :
  answer "SELECT a FROM (SELECT 7 AS a) AS t WHERE a = 5" = returns [[Int 5]]
  /\ answer "SELECT x.a FROM t AS x JOIN (SELECT 7 AS a) AS t ON x.a = t.a" = Panic
  /\ answer "WITH w AS (SELECT 1 AS x) SELECT x FROM w" = returns [[Int 1]]
  /\ answer "WITH w AS (SELECT 1 AS x) SELECT x FROM w UNION SELECT 2" = fail (does_not_exist (lit "w"))
  /\ answer "SELECT generate_series(1, 4) LIMIT 2" = returns [[Int 1]; [Int 2]; [Int 3]; [Int 4]]
  /\ answer "SELECT generate_series(9223372036854775805, 9223372036854775807, 5)" = returns [[Int 9223372036854775805]; [Int 9223372036854775807]]
  /\ answer "SELECT k FROM u UNION ALL SELECT k FROM u EXCEPT ALL SELECT k FROM u" = returns []
  /\ answer "SELECT t.a FROM t JOIN (SELECT '7' AS x) AS v ON v.x = t.a" = returns [[Int 7]]
  /\ answer "SELECT t.a FROM (SELECT '7' AS x) AS v JOIN t ON v.x = t.a" = returns []
  /\ answer "SELECT sum(x) FROM (SELECT 9223372036854775807 AS x UNION ALL SELECT 1 AS x) AS s" = returns [[Int (-9223372036854775808)]]
  /\ answer "SELECT * FROM t JOIN u ON t.a = u.k" = returns [[Int 7; Int 7; t_ "y"]]
  /\ described "SELECT * FROM t JOIN u ON t.a = u.k" = mret [lit "a"; lit "b"; lit "k"].
Proof. split_and!; vm_compute; reflexivity. Qed.
